(* ===== verification/_CoqProject ===== *)
-Q . S2P
Prelude.v
Clock.v
Apperr.v
Catalogue.v
Hierarchy.v
Role.v
Access.v
Cache.v
Engine.v
Store.v
EngineSpec.v
CacheSafety.v
MemStore.v
Admin.v
AdminSpec.v
Sample.v
AuthzProps.v
AdminProps.v
AccessAdmin.v
AccessProps.v
Codes.v
CodeStore.v
MemCodes.v
CodesProps.v
Attempts.v
SignIn.v
MemPorts.v
IdentityProps.v
Lease.v
Holds.v
RateLimit.v
Resilience.v
Money.v
Navigation.v
Sql.v
Rows.v
Queue.v
Housekeeping.v
QueueFacts.v
QueueRuns.v
QueueProps.v
Hoare.v
Reauth.v
AccountRules.v
UserBook.v
Users.v
Profile.v
UsersFacts.v
UsersProps.v
UserList.v
Activity.v
KeyStore.v
ServiceAccounts.v
ServiceFacts.v
ServiceProps.v
CharTree.v
CharStore.v
Characteristics.v
CharView.v
CharSafety.v
CharMove.v
CharProps.v
IncidentText.v
IncidentStore.v
Incidents.v
IncidentFacts.v
IncidentRuns.v
IncidentProps.v
NoticeRules.v
NoticeStore.v
Notices.v
NoticeFacts.v
NoticeSend.v
NoticeSweep.v
NoticeWorkers.v
NoticeProps.v
Reflect.v
Validation.v
ValidFacts.v
ValidProps.v
