(* ===== verification/Prelude.v ===== *)
(** * A verification of go-core

    go-core is a Go library for business applications: authorization, identity,
    events, money, leases, resilience and the errors they share. This development
    translates its core logic and proves what each part promises.

    ** The program and its parts

    - src/apperr is the error type of every package: a code, a reason with
      parameters, a cause. Other packages match errors by [errors.Is] and
      [errors.As]; the HTTP edge turns a code into a status.
    - src/authz decides who may do what. An application declares permissions in a
      catalogue and levels in a hierarchy; a role is a list of grants, or is
      computed from the catalogue; a binding gives a subject a role at a scope. The
      engine turns the bindings of a subject into clauses, caches them, and
      answers [Require], [RequireOn], [Access], [MyAccess] and [HoldersOf].
      [Admin] changes roles and bindings through a store, checks delegation first
      and evicts what the change made stale. src/access/admin is the screens over
      it: roles and who holds them, the access of a subject, what may be given where,
      and the replacement of a role in one transaction.
    - src/identity/account signs people in: attempts per login, a lock derived from
      the history of wrong passwords, sessions with access and refresh tokens,
      signing in as somebody else, one-time codes. [Users] and [Admin] edit accounts,
      list people and end sessions; [Profile] is a person's own account, where a new
      password or address needs the current password again.
    - src/identity/serviceaccount is the systems that call with API keys: accounts of
      a tenant or of the organization, keys of which only a hash is kept, and notices
      to the owner of a key that expires or goes unused.
    - src/characteristics is a tree of lists an application describes (levels of
      tables, their columns, extra fields); the service reads it through a kept
      snapshot, and creates, edits, orders and deletes items.
    - src/incident groups what goes wrong: reports of people and captured failures
      are joined to the incident of their fingerprint, closed ones are reopened; the
      staff comments on them and changes them; new ones are told to people at once or
      in a digest, and old occurrences are swept.
    - src/notification tells people what happened: a consumer of events sends, which
      writes one notification per person and the deliveries their settings, devices
      and quiet hours ask for; two workers send what is due by e-mail and push; people
      read their inbox, choose channels and register browsers.
    - src/validation checks inputs by the rules in their struct tags: it walks a value
      by reflection, trims and checks its fields and the structs in them, and reports
      failures by attribute; routes check the rules of their input types at start-up.
    - src/event publishes events into an outbox table; workers claim due events under
      a lease, hand them to consumers, retry with a growing delay, and leave a dead
      letter when the attempts are used up. A housekeeper deletes what is old.
    - src/money has amounts in cents, exact fractions, rates and allocation.
    - src/lock leases a key to one owner through SQL statements; src/ratelimit and
      src/httpclient/internal/resilience guard calls.

    ** Which file models which part

    - [Prelude]: outcomes (Go's [(T, error)]), the state-and-error monad [stM],
      int64 with its wrap-around, strings as the fmt and strings packages treat
      them, stable sorting. [Clock]: time and UTF-8.
    - [Apperr]: src/apperr, and the problems of src/authz/errors.go.
    - [Catalogue], [Hierarchy], [Role], [Access], [Cache], [Engine]: the files of
      src/authz of the same names (Access: effective.go and access.go; Engine:
      engine.go, access.go, features.go, payload.go, holders.go). Each Go method is
      a definition of the same name, on a record with the fields of the Go
      struct; loops and closures are named after the function they belong to
      ([requireOn_loop], [build_round]). A method that changes a receiver gives the
      new value.
    - [Store]: the interface of src/authz/store.go as a class with its documented
      behaviour as laws; [MemStore]: src/authz/authztest/memstore.go, which
      discharges the laws. [Admin]: delegation.go and admin.go, over any store with
      the laws. [AccessAdmin]: src/access/admin, over [Admin] and any such store that
      also counts holders.
    - [EngineSpec], [AdminSpec]: what effective access is in terms of bindings
      alone ([yields], [admits], [coherent]), and that the code implements it.
      [CacheSafety]: loads, changes and evictions of concurrent goroutines as a
      step relation. [Sample]: a small application at which the theorems are
      applied.
    - [Codes]: src/identity/account/codes.go; [CodeStore]: the laws of the store of
      codes and the interleaved requests that use it; [MemCodes]: the store of
      src/identity/identitytest/stores.go, which discharges them.
    - [Attempts], [SignIn]: attempts.go, signin.go, signin_service.go, session.go,
      service.go of src/identity/account, over the class [Ports]; [MemPorts]: the
      stores of identitytest it needs. [Attempts] also has the fixed-window limiter
      that attempts and the rate limiter refine.
    - [Sql]: tables with what is outside them, the faults of calls, the clock and the
      transactions. [Queue]: queue.go, worker.go, typed.go, envelope.go, outbox.go of
      src/event; [Housekeeping]: deadletter.go, housekeeping.go, idempotency.go and
      processed.go. A SQL statement is its meaning on the two tables; [QueueFacts] to
      [QueueRuns] hold the steps that statements of concurrent workers interleave,
      their invariants and the runs of the loops.
    - [Reauth]: src/identity/account/reauth.go over a class of stores with laws, and
      the store in memory, and the interleaved requests.
    - [AccountRules]: rules.go and history.go; [UserBook]: the stores of identitytest
      as one value; [Users]: users.go and admin.go; [UserList]: the list of admin.go;
      [Profile]: profile.go; [Activity]: activity.go, over a class of logs with laws, which
      the log of src/identity/gormstore and the one in memory discharge, and its theorem.
      [UsersFacts] says what their steps do and what every
      operation keeps. [Hoare] has the rules to reason about steps on
      tables, and the tactic that walks a program to show it keeps a property of them;
      [Rows] has a table with the ids it gave, its statements and what they keep. Users,
      service accounts, incidents and notifications share them.
    - [KeyStore]: serviceaccount.go and gormstore/gormstore.go of
      src/identity/serviceaccount; [ServiceAccounts]: service.go, config.go and
      notices.go. [ServiceFacts] shows that every operation is a sequence of [move]s
      on the tables, and what a move keeps.
    - [CharTree]: description.go and default.go of src/characteristics/core;
      [CharStore]: gormstore/store.go; [Characteristics]: core.go and input.go.
      [CharView] says what a description that passes promises and what items show of
      rows, [CharSafety] that every write is one [edit] of the tables and what is below
      a row, [CharMove] what each operation does and how readers and writers
      interleave.
    - [IncidentText]: classify.go, text.go, fingerprint.go and inputs.go of
      src/incident/core; [IncidentStore]: types.go and gormstore; [Incidents]:
      service.go, write.go and capture.go, with alerts.go, options.go and
      housekeeping.go of src/incident. [IncidentFacts] says what stored text and sound
      tables are, [IncidentRuns] what each operation and its loops do to the tables
      and when they can fail.
    - [NoticeRules]: options.go and quiet.go of src/notification and the rules of a
      message and of a delivery; [NoticeStore]: the tables, the statements of
      inbox.go and of the files named _store.go, and hub.go; [Notices]: the service,
      from [Send] to the workers and the sweep. [NoticeFacts] says what sound tables
      are and that every operation keeps them so, [NoticeSend] what settings decide
      and what a send writes, [NoticeWorkers] how workers interleave and what they
      hand out, [NoticeSweep] what the loops, quiet hours and
      retries do.
    - [Reflect]: Go types and values as trees, with the functions of reflect that are
      used; [Validation]: src/validation, every rule and the validator. [ValidFacts]
      says which checks a value has, what the trim pass leaves and what the search
      over types reaches.
    - [Lease]: src/lock/lock.go down to the SQL statements of
      src/lock/gormstore, and the classification of MySQL errors of src/database.
      [Holds]: [Hold] and its heartbeat, two goroutines per call over those statements.
    - [RateLimit]: src/ratelimit; [Resilience]: circuitbreaker.go and retry.go.
    - [Money]: src/money, with its lemmas and theorems.
    - [Navigation]: src/navigation, with what the filter and the check decide.
    - The files named [...Props] hold the theorems, with their instances at
      concrete inputs.

    ** What the theorems show

    - Authorization ([AuthzProps], [AdminProps]): [RequireOn] passes exactly when some
      binding of the principal yields a clause that admits the record, and denies
      otherwise; the list filter and the payload agree with the checks, where a feature
      answers alike above the tenants (with the example that shows the condition is
      needed); pruning changes no decision; tenants are isolated and organization-only
      permissions stay at the root. No interleaving leaves stale access in the cache
      once each change was followed by its eviction, and the administrative operations
      keep it coherent. Nobody saves a role beyond what they hold, assigns one to
      themselves or beyond their scope, or removes their own last access to a protected
      permission. Catalogues and roles validate exactly when they are well-formed;
      climbing the hierarchy terminates.
    - Access screens ([AccessProps]): whatever is called, by anybody, with checks and
      transactions failing, the store stays sound and the cache holds only what the
      store would give; replacing a role moves every holder or changes nothing; a role
      is offered exactly when [CanBind] accepts it, and what [Bind] then answers is
      stated, the managing permission included; the screen of a subject shows the access
      the engine decides by, and a stranger is answered like one who does not exist.
    - Identity ([CodesProps], [IdentityProps]): a code takes at most its number of
      guesses and is used once under every interleaving; verifying reaches an answer
      within its rounds; issuing is paced; [Login] answers as documented on every
      branch, attempts above the limit and logins too long included, and the lock it
      reads equals a count over the whole history; tokens authenticate active accounts
      only.
    - People ([Reauth], [UsersProps], [UserList]): however confirmations interleave, no
      more than the allowed passwords are checked per lock; no operations give two
      accounts one login or address; closing an account and a new password end the
      sessions or change nothing, whatever call fails; the pages of a list show
      everybody of a view once, and who is locked is found by asking only about recent
      wrong passwords.
    - Activity of a person ([Activity]): a page is exactly what the person did on the
      days in the area, and the counts are of the same deeds, so pages and counts agree;
      an escaped prefix matches exactly what starts with it, and a row without a type is
      in no area. An example shows where a caseless column breaks the agreement.
    - Service accounts ([ServiceProps]): which secrets authenticate; a new key works,
      and a revoked key or one of a deactivated account is refused ever after, while
      requests run one after the other (with the schedule of two requests that shows the
      condition is needed); no account has more working keys than allowed; an account of
      a tenant is out of reach of the others; each notice is sent once.
    - Characteristics ([CharProps]): a description is accepted exactly when it passes
      its checks, and then two fields of a column meet on a row only under rows of
      different levels; whatever is called and whatever fails, no row loses its parent
      and what nobody described stays; a delete removes exactly a branch and a move puts
      an item at its place; the kept tree is true once no writer is in between. Two
      examples show where a column with two fields goes wrong.
    - Incidents ([IncidentProps]): whatever is called and whatever fails, one incident
      is open for a fingerprint, its counts are the reports and comments stored and no
      less than the occurrences, and no row is of an incident that is not there; a
      captured failure is counted, reopens or opens exactly one incident, and only the
      database or a public code can fail it; an incident a person may not see is
      answered as one that does not exist; a sweep and a flush end and do exactly their
      work; stored text fits its column. Three lemmas show where concurrent changes lose
      a count, a long page address is refused, and sources never mix.
    - Notifications ([NoticeProps]): whatever is called and whatever fails, nothing is
      stored twice and no delivery is left without its notification; a send writes
      exactly what people and their settings ask for, or nothing; two workers never send
      one delivery at once while a send ends within the margin, what they send is owed
      to that person, and they give up after thirty attempts; a choice reads back; quiet
      hours release at their end; a sweep ends and deletes exactly what is old. An
      example shows a link off the application that passes the check.
    - Validation ([ValidProps]): the answer is exactly that of the checks of the value,
      at whatever depth; validating again answers the same; checking types ends, and a
      type it passes never meets an unknown rule; sizes are compared exactly within what
      a type can hold, the pattern of an address accepts its language, and the check of
      stored text finds every text. Three lemmas show where bounds wrap, defined text is
      measured in bytes and an absent address is refused.
    - Events ([QueueProps]): under every interleaving of publishers, workers, retries
      and housekeeping, and whatever statement fails, an event is concluded by each
      consumer or comes due; two live leases hold one event only after a worker whose
      lease had ended recorded an outcome of it (a schedule shows it happen); [Drain]
      ends with nothing due; a sweep deletes exactly what is old; the operations are
      runs of the interleaved steps. Three schedules show where the code promises less
      than its comments.
    - Leases and calls ([Holds], [Resilience]): two clients never hold one key; a run
      under [Hold] whose context is live was granted its lease, and the row is its own
      until that runs out; a run is cancelled only by a refresh that found the row
      another's or failed after the lease, and a lease that went to another is noticed
      by the next refresh that reaches the table; a call whose run ended always gets out
      and gives the key back; the breaker rejects calls one after another exactly after
      enough failures in a row, and interleaved ones exactly while it is open or a trial
      runs; one trial runs at a time while no call admitted earlier fails late, with the
      schedule that shows the condition is needed; limiters answer like the reference;
      Retry is bounded.
    - Money ([Money]): sums are exact or report overflow; rates round once; allocation
      loses no cent; text reads back. [Sub] has one exception, the smallest int64, which
      the theorem states.
    - Navigation ([Navigation]): what stays of a menu is what the person reaches, in
      order; filtering again changes nothing and holding more never hides; a menu is
      accepted exactly when no node of it, at whatever depth, is refused.

    ** Parameters

    What is not in the repository is an argument: the scope resolver and the
    feature resolver of the application, the HMAC and the random number of a code,
    the sender, the password hasher and the impersonation rules, lower-casing and
    the RFC 3339 text of a time, the table of leases with what SQL promises of each
    statement, and the clock, whose readings are arguments where the code takes
    them. Also JSON and the handlers of consumers, [mail.ParseAddress] and
    [strings.EqualFold], the hooks and the extension of the application, SHA-256, the
    random text of a key, the authorizer and the tenants that service accounts ask,
    where characteristics are used and how the database collates names, the directory
    of subjects, the places, the transactions and the checks of the access screens, the
    people directory, the holders of a permission and the random digits of a public code, the
    mail server, the push service and its encryption, the authority over settings and
    the time zone of notifications, the parsers of times, addresses and UUIDs that
    rules call and the methods of the types they meet, how a column folds characters,
    [url.Parse], and which calls of a store fail. Every class of laws has an instance.

    ** Bounds and fuel

    - [digits] prints with as many rounds as the number has bits, which is more than
      it has digits ([digits_fuel]). [runes] takes at least one byte a round, so the
      length of the text is enough.
    - [ChainOf] climbs with one round per level ([Chain_fuel_enough]).
    - [visit] searches with a depth of one more than the number of permissions: each
      call marks a permission that was unseen.
    - [Verify] has the rounds of the source, Attempts + 1, and [Retry] the attempts
      it is given; the theorems say that these end on an answer.
    - [Reauth] has the rounds of the source, After + 2 ([begin_reaches_an_answer]).
    - The loops of [Drain], [Sweep] and the deletion of dead letters take fuel and
      answer [None] without it; [Drain_delivers] and [Sweep_deletes_exactly] give the
      fuel that is enough, from the rows of the tables. So do [sweep_exact] and
      [flush_delivers] for the loops of incidents, and [notices_sweep_exact] for those
      of notifications.
    - [validateFields] and the trim pass take one round per level of a value, and its
      depth is enough ([checks_checked]); [checkType] takes one per declared struct
      ([CheckRules_decides]); [flattenEmbedded] one per struct that embeds
      ([flatten_enough]).
    - int64 arithmetic wraps where the source computes in int64; identifiers and
      counters of the stores are unbounded, as no code depends on their overflow.

    ** What is not modelled

    SQL, HTTP, mail and rendering adapters; logging, metrics and the call site of an
    error; JSON tags; contexts, except the principal they carry; goroutines as such:
    what runs under a mutex or in one statement is one step, and the interleavings
    that matter are sequences of such steps; values with cycles of pointers. The order in which Go ranges over a
    map is fixed where no result depends on it.

    ** Plan

    Next: retention (src/retention) and the pages of a table (datatable). *)

From Stdlib Require Export ZArith Lia.
From Stdlib Require Import Ascii.
From stdpp Require Export base tactics gmap fin_maps strings list sorting numbers.

(** ** Scope and automation *)

Declare Scope go_scope.
Delimit Scope go_scope with go.

Create HintDb gocore.

(** ** Outcomes: Go's [(T, error)] return pairs

    A Go function that returns [(T, error)] is a function to [outcome E T]:
    [Ok] when the error is nil, [Err] otherwise. *)
Inductive outcome (E A : Type) : Type :=
| Ok (a : A)
| Err (e : E).
Arguments Ok {_ _} _.
Arguments Err {_ _} _.

Section Outcome.
Context {E : Type}.

#[export] Instance outcome_ret : MRet (outcome E) := λ A a, Ok a.
#[export] Instance outcome_bind : MBind (outcome E) := λ A B f m,
  match m with Ok a => f a | Err e => Err e end.
#[export] Instance outcome_fmap : FMap (outcome E) := λ A B f m,
  match m with Ok a => Ok (f a) | Err e => Err e end.

Definition is_ok {A} (o : outcome E A) : bool :=
  match o with Ok _ => true | Err _ => false end.

Lemma outcome_bind_Ok {A B} (m : outcome E A) (f : A → outcome E B) b :
  m ≫= f = Ok b ↔ ∃ a, m = Ok a ∧ f a = Ok b.
Proof. destruct m; cbn; naive_solver. Qed.

Lemma outcome_bind_Err {A B} (m : outcome E A) (f : A → outcome E B) e :
  m ≫= f = Err e ↔ m = Err e ∨ ∃ a, m = Ok a ∧ f a = Err e.
Proof. destruct m; cbn; naive_solver. Qed.

Lemma is_ok_true {A} (o : outcome E A) : is_ok o = true ↔ ∃ a, o = Ok a.
Proof. destruct o; cbn; naive_solver. Qed.

(** Guards of the form [if cond { return err }]. *)
Definition ensure (b : bool) (e : E) : outcome E () :=
  if b then Ok () else Err e.

Lemma ensure_Ok b e : ensure b e = Ok () ↔ b = true.
Proof. destruct b; cbn; naive_solver. Qed.
End Outcome.

(** ** Stateful code

    [stM S E A] threads a state through code that may return an error: as in
    Go, what was written before an error stays written. *)
Definition stM (S E A : Type) : Type := S → outcome E A * S.

Section StM.
Context {S E : Type}.

#[export] Instance stM_ret : MRet (stM S E) := λ A a s, (Ok a, s).
#[export] Instance stM_bind : MBind (stM S E) := λ A B f m s,
  match m s with
  | (Ok a, s') => f a s'
  | (Err e, s') => (Err e, s')
  end.

Definition throw {A} (e : E) : stM S E A := λ s, (Err e, s).
Definition get_state : stM S E S := λ s, (Ok s, s).
Definition put_state (s : S) : stM S E () := λ _, (Ok (), s).
Definition modify (f : S → S) : stM S E () := λ s, (Ok (), f s).
(** A pure outcome run inside stateful code. *)
Definition lift {A} (o : outcome E A) : stM S E A := λ s, (o, s).

Lemma stM_bind_Ok {A B} (m : stM S E A) (f : A → stM S E B) s b s' :
  (m ≫= f) s = (Ok b, s') ↔ ∃ a s1, m s = (Ok a, s1) ∧ f a s1 = (Ok b, s').
Proof. unfold mbind, stM_bind. destruct (m s) as [[a|e] s1]; naive_solver. Qed.

Lemma stM_bind_step {A B} (m : stM S E A) (f : A → stM S E B) s a s1 :
  m s = (Ok a, s1) → (m ≫= f) s = f a s1.
Proof. unfold mbind, stM_bind. by intros ->. Qed.

Lemma stM_bind_stop {A B} (m : stM S E A) (f : A → stM S E B) s e s1 :
  m s = (Err e, s1) → (m ≫= f) s = (Err e, s1).
Proof. unfold mbind, stM_bind. by intros ->. Qed.

Lemma stM_bind_inv {A B} (m : stM S E A) (f : A → stM S E B) s o s' :
  (m ≫= f) s = (o, s') →
  (∃ a s1, m s = (Ok a, s1) ∧ f a s1 = (o, s')) ∨
  (∃ e, m s = (Err e, s') ∧ o = Err e).
Proof. unfold mbind, stM_bind. destruct (m s) as [[a|e] s1]; naive_solver. Qed.

Lemma lift_Ok {A} (o : outcome E A) s a s' :
  lift o s = (Ok a, s') ↔ o = Ok a ∧ s' = s.
Proof. unfold lift. naive_solver. Qed.
End StM.

(** Unfold the monads of a hypothesis and split its binds. *)
Ltac outcome_inv H :=
  repeat first
    [ apply outcome_bind_Ok in H; destruct H as (? & ? & H)
    | apply stM_bind_Ok in H; destruct H as (? & ? & ? & H)
    | progress (cbn in H) ].

(** Split every [if] and [match] of the goal, keep the equations. *)
Ltac case_all := repeat (case_match; simplify_eq/=).

(** ** Machine integers

    Go's [int] and [int64] are signed 64-bit, [uint64] unsigned: the values are
    kept in [Z] and the wrap-around is written where the source can overflow. *)
Module Int64.
Local Open Scope Z_scope.

Definition modulus : Z := 18446744073709551616.
Definition min_value : Z := -9223372036854775808.
Definition max_value : Z := 9223372036854775807.

(** [big.Int.IsInt64], and the range of every int64 variable. *)
Definition fits (z : Z) : bool := (min_value <=? z) && (z <=? max_value).

(** The two's-complement value of the low 64 bits. *)
Definition wrap (z : Z) : Z :=
  let r := z mod modulus in if r <=? max_value then r else r - modulus.

(** The unsigned value of the low 64 bits. *)
Definition to_uint (z : Z) : Z := z mod modulus.

Lemma fits_spec z : fits z = true ↔ min_value <= z <= max_value.
Proof. unfold fits. rewrite andb_true_iff, !Z.leb_le. done. Qed.

Lemma wrap_id z : min_value <= z <= max_value → wrap z = z.
Proof.
  unfold wrap, min_value, max_value, modulus. intros H.
  destruct (decide (0 <= z)) as [Hz|Hz].
  - rewrite Z.mod_small by lia. case_match; lia.
  - rewrite <-(Z.mod_unique z 18446744073709551616 (-1) (z + 18446744073709551616))
      by lia.
    case_match; lia.
Qed.

Lemma wrap_range z : min_value <= wrap z <= max_value.
Proof.
  unfold wrap, min_value, max_value, modulus.
  pose proof (Z.mod_pos_bound z 18446744073709551616).
  case_match; lia.
Qed.

(** Wrapping changes the value by a multiple of 2^64. *)
Lemma wrap_congr z : ∃ k, wrap z = z + k * modulus.
Proof.
  unfold wrap, modulus.
  pose proof (Z.div_mod z 18446744073709551616 ltac:(lia)).
  case_match; [exists (- (z / 18446744073709551616))|
               exists (- (z / 18446744073709551616) - 1)]; lia.
Qed.
End Int64.

(** ** Strings

    A Go string is a sequence of bytes: [string] with its 8-bit [ascii]
    characters. Only the functions of [strings], [strconv] and [fmt] that the
    modelled code calls are defined. *)
Module Str.
Local Open Scope Z_scope.

(** Does the byte occur in the text ([strings.Contains] of one character)? *)
Fixpoint contains_char (c : ascii) (s : string) : bool :=
  match s with
  | EmptyString => false
  | String d s' => bool_decide (d = c) || contains_char c s'
  end.

(** [strings.Cut] on a one-character separator: before, after, found. *)
Fixpoint cut (c : ascii) (s : string) : string * string * bool :=
  match s with
  | EmptyString => (EmptyString, EmptyString, false)
  | String d s' =>
      if bool_decide (d = c) then (EmptyString, s', true)
      else let '(b, a, f) := cut c s' in (String d b, a, f)
  end.

(** [strings.Split] on a one-character separator; never empty. *)
Fixpoint split (c : ascii) (s : string) : list string :=
  match s with
  | EmptyString => [EmptyString]
  | String d s' =>
      if bool_decide (d = c) then EmptyString :: split c s'
      else match split c s' with
           | [] => [String d EmptyString]
           | w :: ws => String d w :: ws
           end
  end.

(** Does every byte satisfy the test? *)
Fixpoint forall_char (p : ascii → bool) (s : string) : bool :=
  match s with
  | EmptyString => true
  | String d s' => p d && forall_char p s'
  end.

Definition code (c : ascii) : Z := Z.of_nat (nat_of_ascii c).

Definition is_digit (c : ascii) : bool := (48 <=? code c) && (code c <=? 57).
Definition is_lower (c : ascii) : bool := (97 <=? code c) && (code c <=? 122).

(** The value of a text of decimal digits, most significant first
    ([big.Int.SetString] in base 10; other bytes do not reach it). *)
Fixpoint digits_value (acc : Z) (s : string) : Z :=
  match s with
  | EmptyString => acc
  | String d s' => digits_value (10 * acc + (code d - 48)) s'
  end.

Definition digit_char (n : Z) : ascii := ascii_of_nat (Z.to_nat (48 + n)).

(** The decimal digits of a non-negative number, in front of [acc]. *)
Fixpoint digits_go (fuel : nat) (n : Z) (acc : string) : string :=
  match fuel with
  | O => acc
  | S f =>
      let acc' := String (digit_char (n mod 10)) acc in
      if n <? 10 then acc' else digits_go f (n / 10) acc'
  end.

(** [%d] of a non-negative number. A number below 2^k has at most k digits,
    and at least one: [S (log2 n)] rounds are enough. *)
Definition digits (n : Z) : string := digits_go (S (Z.to_nat (Z.log2 n))) n "".

(** [%d] of a number ([strconv.Itoa]). *)
Definition fmt_d (n : Z) : string :=
  if n <? 0 then "-" +:+ digits (- n) else digits n.

(** [strconv.Atoi] *)
Definition Atoi (s : string) : option Z :=
  let '(neg, body) := match s with String "-" r => (true, r) | String "+" r => (false, r) | _ => (false, s) end in
  if bool_decide (body = "") || negb (forall_char is_digit body) then None else
  let z := if neg then - digits_value 0 body else digits_value 0 body in
  if Int64.fits z then Some z else None.

(** [%02d] of a number below 100. *)
Definition fmt_02d (n : Z) : string :=
  String (digit_char (n / 10)) (String (digit_char (n mod 10)) "").

Definition hex_char (n : Z) : ascii :=
  if n <? 10 then ascii_of_nat (Z.to_nat (48 + n)) else ascii_of_nat (Z.to_nat (87 + n)).

(** One byte inside [%q]: the escapes of [strconv.Quote]; bytes from 0x80 on
    are kept, as Quote keeps the printable characters they encode. *)
Definition quote_char (c : ascii) : string :=
  let n := code c in
  if n =? 34 then String (ascii_of_nat 92) (String (ascii_of_nat 34) "")
  else if n =? 92 then String (ascii_of_nat 92) (String (ascii_of_nat 92) "")
  else if n =? 7 then "\a" else if n =? 8 then "\b" else if n =? 12 then "\f"
  else if n =? 10 then "\n" else if n =? 13 then "\r" else if n =? 9 then "\t"
  else if n =? 11 then "\v"
  else if (n <? 32) || (n =? 127)
  then "\x" +:+ String (hex_char (n / 16)) (String (hex_char (n mod 16)) "")
  else String c "".

Fixpoint quote_body (s : string) : string :=
  match s with
  | EmptyString => EmptyString
  | String c s' => quote_char c +:+ quote_body s'
  end.

(** [%q]. *)
Definition fmt_q (s : string) : string :=
  let dq := String (ascii_of_nat 34) "" in dq +:+ quote_body s +:+ dq.

(** [strings.Join] *)
Fixpoint join (sep : string) (l : list string) : string :=
  match l with
  | [] => ""
  | [x] => x
  | x :: l' => x +:+ sep +:+ join sep l'
  end.

(** *** Lemmas *)

Lemma app_cons c s t : String c s +:+ t = String c (s +:+ t).
Proof. done. Qed.

Lemma app_empty_l t : "" +:+ t = t.
Proof. done. Qed.

Lemma code_range c : 0 <= code c < 256.
Proof. unfold code. pose proof (nat_ascii_bounded c). lia. Qed.

Lemma code_digit_char n : 0 <= n < 10 → code (digit_char n) = 48 + n.
Proof.
  intros. unfold code, digit_char. rewrite nat_ascii_embedding by lia. lia.
Qed.

Lemma digits_value_app a s t :
  digits_value a (s +:+ t) = digits_value (digits_value a s) t.
Proof. revert a. induction s as [|c s IH]; intros a; [done|]. cbn. apply IH. Qed.

Lemma forall_char_app p s t :
  forall_char p (s +:+ t) = forall_char p s && forall_char p t.
Proof. induction s as [|c s IH]; [done|]. rewrite app_cons. cbn. by rewrite IH, andb_assoc. Qed.

Lemma is_digit_char n : 0 <= n < 10 → is_digit (digit_char n) = true.
Proof. intros. unfold is_digit. rewrite code_digit_char by done. lia. Qed.

Lemma mod10_range n : 0 <= n mod 10 < 10.
Proof. apply Z.mod_pos_bound. lia. Qed.

Lemma digits_go_value fuel n acc :
  0 <= n < 2 ^ Z.of_nat fuel → (0 < fuel)%nat →
  digits_value 0 (digits_go fuel n acc) = digits_value n acc.
Proof.
  revert n acc. induction fuel as [|f IH]; intros n acc Hn Hf; [lia|].
  cbn [digits_go]. pose proof (mod10_range n). destruct (Z.ltb_spec n 10).
  - cbn. rewrite code_digit_char by lia. f_equal. rewrite Z.mod_small; lia.
  - rewrite Nat2Z.inj_succ, Z.pow_succ_r in Hn by lia.
    rewrite IH; [| split; [apply Z.div_pos; lia|apply Z.div_lt_upper_bound; lia] |].
    + cbn. rewrite code_digit_char by lia. f_equal.
      pose proof (Z.div_mod n 10). lia.
    + destruct f; [|lia]. cbn in Hn. lia.
Qed.

Lemma digits_fuel n : 0 <= n → 0 <= n < 2 ^ Z.of_nat (S (Z.to_nat (Z.log2 n))).
Proof.
  intros Hn. split; [done|]. rewrite Nat2Z.inj_succ, Z2Nat.id by apply Z.log2_nonneg.
  destruct (decide (n = 0)) as [->|]; [done|]. apply Z.log2_spec. lia.
Qed.

(** Reading a number back from its digits, whatever follows them. *)
Lemma digits_value_digits n t :
  0 <= n → digits_value 0 (digits n +:+ t) = digits_value n t.
Proof.
  intros Hn. rewrite digits_value_app. unfold digits.
  by rewrite digits_go_value by (try apply digits_fuel; lia).
Qed.

Lemma digits_go_digits fuel n acc :
  forall_char is_digit acc = true → forall_char is_digit (digits_go fuel n acc) = true.
Proof.
  revert n acc. induction fuel as [|f IH]; intros n acc Ha; [done|].
  cbn [digits_go]. pose proof (mod10_range n).
  assert (forall_char is_digit (String (digit_char (n mod 10)) acc) = true).
  { cbn. by rewrite is_digit_char, Ha by lia. }
  case_match; auto.
Qed.

Lemma digits_digits n : forall_char is_digit (digits n) = true.
Proof. by apply digits_go_digits. Qed.

Lemma digits_go_length fuel n acc :
  (String.length acc <= String.length (digits_go fuel n acc))%nat.
Proof.
  revert n acc. induction fuel as [|f IH]; intros n acc; [done|]. cbn [digits_go].
  case_match; [cbn; lia|]. etrans; [|apply IH]. cbn. lia.
Qed.

Lemma digits_nonempty n : digits n ≠ "".
Proof.
  intros Hd. apply (f_equal String.length) in Hd. revert Hd.
  unfold digits. cbn [digits_go]. case_match; [done|].
  pose proof (digits_go_length (Z.to_nat (Z.log2 n)) (n / 10)
    (String (digit_char (n mod 10)) "")) as Hl. cbn in *. lia.
Qed.

Lemma contains_char_forall c p s :
  forall_char p s = true → p c = false → contains_char c s = false.
Proof.
  induction s as [|d s IH]; [done|]. cbn. intros [Hd Hs]%andb_true_iff Hc.
  rewrite IH by done. rewrite bool_decide_eq_false_2; [done|congruence].
Qed.

Lemma cut_spec c s :
  cut c s = if contains_char c s
            then (fst (fst (cut c s)), snd (fst (cut c s)), true)
            else (s, "", false).
Proof.
  induction s as [|d s IH]; [done|]. cbn. case_bool_decide; [done|]. cbn.
  rewrite IH. destruct (contains_char c s); [|done]. by destruct (cut c s) as [[??]?].
Qed.

(** Cutting at the first separator gives the two halves back. *)
Lemma cut_app c b a : contains_char c b = false → cut c (b +:+ String c a) = (b, a, true).
Proof.
  induction b as [|d b IH]; rewrite ?app_empty_l, ?app_cons; cbn.
  - intros _. by rewrite bool_decide_eq_true_2.
  - intros [Hd Hb]%orb_false_iff. by rewrite Hd, IH.
Qed.

Lemma cut_true_inv c s b a :
  cut c s = (b, a, true) → s = b +:+ String c a ∧ contains_char c b = false.
Proof.
  revert b. induction s as [|d s IH]; intros b; [done|]. cbn. case_bool_decide as Hd.
  - intros [= <- <-]. by subst.
  - destruct (cut c s) as [[b' a'] f] eqn:E. intros [= <- <- ->].
    destruct (IH b') as [-> Hb]; [done|]. split; [done|]. cbn.
    by rewrite bool_decide_eq_false_2.
Qed.

Lemma split_nonempty c s : split c s ≠ [].
Proof. destruct s; cbn; [done|]. by repeat case_match. Qed.

(** Joining the segments of a split gives the text back. *)
Lemma join_split c s : join (String c "") (split c s) = s.
Proof.
  induction s as [|d s IH]; [done|]. cbn. case_bool_decide as Hd.
  - subst d. destruct (split c s) as [|w ws] eqn:E; [by apply split_nonempty in E|].
    cbn in *. by rewrite <-IH.
  - destruct (split c s) as [|w ws] eqn:E; [by apply split_nonempty in E|].
    destruct ws; cbn in *; by rewrite <-IH.
Qed.
End Str.

(** ** Sorted keys of a map

    [sort.Strings] over the keys of a map: Go's map iteration has no order, the
    sorted list does. *)
Section SortedKeys.
Context {V : Type}.

Definition sorted_keys (m : gmap string V) : list string :=
  merge_sort String.le (elements (dom m)).

Lemma elem_of_sorted_keys m k : k ∈ sorted_keys m ↔ is_Some (m !! k).
Proof.
  unfold sorted_keys. rewrite merge_sort_Permutation, elem_of_elements.
  apply elem_of_dom.
Qed.

Lemma NoDup_sorted_keys m : NoDup (sorted_keys m).
Proof. unfold sorted_keys. rewrite merge_sort_Permutation. apply NoDup_elements. Qed.

Lemma Sorted_sorted_keys m : StronglySorted String.le (sorted_keys m).
Proof. apply (StronglySorted_merge_sort _). Qed.
End SortedKeys.

(** ** Generic lemmas on lists *)

(** [slices.Contains] *)
Definition contains `{EqDecision A} (l : list A) (x : A) : bool := bool_decide (x ∈ l).

Lemma contains_spec `{EqDecision A} (l : list A) x : contains l x = true ↔ x ∈ l.
Proof. apply bool_decide_eq_true. Qed.

Lemma contains_cons `{EqDecision A} (y : A) (l : list A) x :
  contains (y :: l) x = bool_decide (x = y) || contains l x.
Proof.
  apply eq_true_iff_eq. rewrite orb_true_iff, !contains_spec, bool_decide_eq_true, elem_of_cons. done.
Qed.

Lemma forallb_elem {A} (p : A → bool) (l : list A) :
  forallb p l = true ↔ ∀ x, x ∈ l → p x = true.
Proof. rewrite forallb_forall. by setoid_rewrite list_elem_of_In. Qed.

Lemma existsb_elem {A} (p : A → bool) (l : list A) :
  existsb p l = true ↔ ∃ x, x ∈ l ∧ p x = true.
Proof. rewrite existsb_exists. by setoid_rewrite list_elem_of_In. Qed.

Lemma concat_fmap_nil {A B} (f : A → list B) (l : list A) :
  concat (f <$> l) = [] ↔ ∀ x, x ∈ l → f x = [].
Proof. rewrite concat_nil_Forall, Forall_fmap. apply list.Forall_forall. Qed.

Lemma if_nil {A} (b : bool) (x : A) : (if b then [x] else []) = [] ↔ b = false.
Proof. by destruct b. Qed.

#[export] Hint Rewrite @contains_spec @forallb_elem @existsb_elem : gocore.

(** Does every entry of a map satisfy the test (a [for ... range] over a map that
    returns false at the first failure)? *)
Definition map_forallb `{Countable K} {V} (f : K → V → bool) (m : gmap K V) : bool :=
  forallb (λ kv, f kv.1 kv.2) (map_to_list m).

Lemma map_forallb_spec `{Countable K} {V} (f : K → V → bool) (m : gmap K V) :
  map_forallb f m = true ↔ ∀ k v, m !! k = Some v → f k v = true.
Proof.
  unfold map_forallb. rewrite forallb_elem. split.
  - intros Hall k v Hk. apply (Hall (k, v)). by apply elem_of_map_to_list.
  - intros Hall [k v] Hkv%elem_of_map_to_list. by apply Hall.
Qed.

(** A list with the index of each element: [for i, x := range l]. *)
Definition indexed {A} (l : list A) : list (nat * A) := zip (seq 0 (length l)) l.

Lemma elem_of_indexed {A} (l : list A) i x : (i, x) ∈ indexed l ↔ l !! i = Some x.
Proof.
  unfold indexed. rewrite list_elem_of_lookup. setoid_rewrite lookup_zip_with_Some. split.
  - intros (k & i' & x' & [= -> ->] & Hs & Hx). apply lookup_seq in Hs as [-> _]. done.
  - intros Hx. exists i, i, x. split; [done|]. split; [|done]. apply lookup_seq.
    apply lookup_lt_Some in Hx. lia.
Qed.

Lemma elem_of_filter_bool {A} (f : A → bool) (l : list A) x :
  x ∈ List.filter f l ↔ x ∈ l ∧ f x = true.
Proof. rewrite !list_elem_of_In. apply filter_In. Qed.

Lemma length_filter_le {A} (f g : A → bool) (l : list A) :
  (∀ y, y ∈ l → f y = true → g y = true) →
  length (List.filter f l) <= length (List.filter g l).
Proof.
  induction l as [|y l IH]; intros Hfg; cbn; [done|].
  assert (length (List.filter f l) <= length (List.filter g l)) as Hle.
  { apply IH. intros z Hz. apply Hfg. by right. }
  destruct (f y) eqn:Ef; [rewrite (Hfg y) by (done || left); cbn; lia|]. destruct (g y); cbn; lia.
Qed.

Lemma length_filter_lt {A} (f g : A → bool) (l : list A) x :
  (∀ y, y ∈ l → f y = true → g y = true) → x ∈ l → g x = true → f x = false →
  length (List.filter f l) < length (List.filter g l).
Proof.
  intros Hfg Hx Hg Hf. induction Hx as [x l|x y l Hx IH]; cbn.
  - rewrite Hf, Hg. cbn. pose proof (length_filter_le f g l) as Hle.
    assert (∀ z, z ∈ l → f z = true → g z = true) as Hl by (intros z Hz; apply Hfg; by right).
    specialize (Hle Hl). lia.
  - assert (∀ z, z ∈ l → f z = true → g z = true) as Hl by (intros z Hz; apply Hfg; by right).
    specialize (IH Hl Hg Hf).
    destruct (f y) eqn:Ef; [rewrite (Hfg y) by (done || left); cbn; lia|]. destruct (g y); cbn; lia.
Qed.

(** ** Stable sorting

    [slices.SortStableFunc]: the elements ordered by a total preorder [leb],
    elements that compare equal keeping their order. [SortStableFunc] fixes the
    result uniquely, so an insertion sort computes it. *)
Section StableSort.
Context {A : Type} (leb : A → A → bool).

Fixpoint stable_insert (x : A) (l : list A) : list A :=
  match l with
  | [] => [x]
  | y :: l' => if leb x y then x :: y :: l' else y :: stable_insert x l'
  end.

Definition stable_sort (l : list A) : list A := foldr stable_insert [] l.

Lemma stable_insert_perm x l : stable_insert x l ≡ₚ x :: l.
Proof.
  induction l as [|y l IH]; cbn; [done|]. case_match; [done|].
  rewrite IH. constructor.
Qed.

Lemma stable_sort_perm l : stable_sort l ≡ₚ l.
Proof. induction l as [|x l IH]; cbn; [done|]. by rewrite stable_insert_perm, IH. Qed.

Context (leb_total : ∀ x y, leb x y = false → leb y x = true)
        (leb_trans : ∀ x y z, leb x y = true → leb y z = true → leb x z = true).

Lemma stable_insert_sorted x l :
  StronglySorted (λ a b, leb a b = true) l →
  StronglySorted (λ a b, leb a b = true) (stable_insert x l).
Proof.
  induction 1 as [|y l Hs IH Hy]; cbn; [repeat constructor|].
  destruct (leb x y) eqn:E.
  - constructor; [by constructor|]. constructor; [done|].
    eapply Forall_impl; [|exact Hy]. cbn. eauto.
  - constructor; [done|]. rewrite stable_insert_perm.
    constructor; [by apply leb_total|done].
Qed.

Lemma stable_sort_sorted l : StronglySorted (λ a b, leb a b = true) (stable_sort l).
Proof.
  induction l as [|x l IH]; cbn; [constructor|]. by apply stable_insert_sorted.
Qed.

(** A selection of what was sorted is the selection, sorted. *)
Lemma filter_stable_sort (p : A → bool) l : List.filter p (stable_sort l) = stable_sort (List.filter p l).
Proof.
  assert (∀ x k, Forall (λ y, leb x y = true) k → stable_insert x k = x :: k) as Hhead
    by (intros x [|y k] H; [done|]; apply Forall_inv in H; cbn; by rewrite H).
  induction l as [|x l IH]; [done|]. cbn. assert (StronglySorted (λ a b, leb a b = true) (stable_sort l)) as Hs by apply stable_sort_sorted.
  trans (if p x then stable_insert x (List.filter p (stable_sort l)) else List.filter p (stable_sort l)); [|rewrite IH; by destruct (p x)].
  fold (stable_sort l). clear IH. induction Hs as [|y k Hs IHk Hy]; cbn; [by destruct (p x)|]. destruct (leb x y) eqn:E; cbn.
  - destruct (p x) eqn:Hx; [|done]. destruct (p y); cbn; [by rewrite E|]. symmetry. apply Hhead.
    apply Forall_forall. intros z [Hz _]%filter_In. rewrite Forall_forall in Hy. eauto.
  - rewrite IHk. destruct (p x), (p y); cbn; by rewrite ?E.
Qed.

(** Stability: an element stays in front of a later one it does not exceed. *)
Lemma stable_sort_filter (p : A → bool) l :
  (∀ x y, p x = true → p y = true → leb x y = true) →
  List.filter p (stable_sort l) = List.filter p l.
Proof.
  intros Hp. induction l as [|x l IH]; [done|]; cbn. rewrite <-IH.
  fold (stable_sort l). generalize (stable_sort l). clear IH. intros k. induction k as [|y k IH]; cbn.
  - by destruct (p x).
  - destruct (leb x y) eqn:E; cbn; [done|]. rewrite IH.
    destruct (p x) eqn:Hx, (p y) eqn:Hy; try done. by rewrite Hp in E.
Qed.
End StableSort.
