(* ===== verification/Clock.v ===== *)
(** * Times and text of the standard library

    [time.Time] and [time.Duration] as the services use them, and the UTF-8
    functions of [unicode/utf8] and of Go's conversions between strings and
    runes. An instant is a number of nanoseconds; a duration is an int64. *)

From Stdlib Require Import Ascii.
From S2P Require Import Prelude.

Local Open Scope Z_scope.

(** ** Instants and durations *)
Module Time.
Definition Nanosecond : Z := 1.
Definition Millisecond : Z := 1000000.
Definition Second : Z := 1000 * Millisecond.
Definition Minute : Z := 60 * Second.
Definition Hour : Z := 60 * Minute.

Definition Before (t u : Z) : bool := t <? u.
Definition After (t u : Z) : bool := u <? t.

(** [t.Sub(u)]: a difference beyond the range of a duration is cut to it. *)
Definition Sub (t u : Z) : Z := Z.max Int64.min_value (Z.min Int64.max_value (t - u)).

(** A duration within int64 is compared with the true difference. *)
Lemma Sub_lt t u d : Int64.min_value < d <= Int64.max_value → (Sub t u <? d) = (t - u <? d).
Proof. unfold Sub. intros Hd. destruct (Z.ltb_spec (t - u) d); [apply Z.ltb_lt|apply Z.ltb_ge]; lia. Qed.
End Time.

(** ** UTF-8 *)
Module Utf8.

Definition RuneError : Z := 65533.

(** The bytes a first byte asks for: how many more, and the range of the next one. *)
Definition accept (b : Z) : option (nat * Z * Z) :=
  if (194 <=? b) && (b <=? 223) then Some (1%nat, 128, 191)
  else if b =? 224 then Some (2%nat, 160, 191)
  else if b =? 237 then Some (2%nat, 128, 159)
  else if (225 <=? b) && (b <=? 239) then Some (2%nat, 128, 191)
  else if b =? 240 then Some (3%nat, 144, 191)
  else if (241 <=? b) && (b <=? 243) then Some (3%nat, 128, 191)
  else if b =? 244 then Some (3%nat, 128, 143)
  else None.

(** [n] continuation bytes, the first within [lo..hi]: their bits below [acc]. *)
Fixpoint continuation (n : nat) (lo hi acc : Z) (s : string) : option (Z * string) :=
  match n, s with
  | O, _ => Some (acc, s)
  | S n', String c s' =>
      let b := Str.code c in
      if (lo <=? b) && (b <=? hi) then continuation n' 128 191 (Z.lor (Z.shiftl acc 6) (Z.land b 63)) s'
      else None
  | S _, EmptyString => None
  end.

(** The bits of a first byte that are part of the rune. *)
Definition lead (n : nat) (b : Z) : Z := Z.land b (match n with 1%nat => 31 | 2%nat => 15 | _ => 7 end).

(** [utf8.DecodeRuneInString] of a non-empty string: the rune and what follows;
    a byte that starts no encoding is [RuneError] of width 1. *)
Definition decode (c : ascii) (s : string) : Z * string :=
  let b := Str.code c in
  if b <? 128 then (b, s)
  else match accept b with
       | None => (RuneError, s)
       | Some (n, lo, hi) => default (RuneError, s) (continuation n lo hi (lead n b) s)
       end.

Fixpoint runes_go (fuel : nat) (s : string) : list Z :=
  match fuel, s with
  | S f, String c s' => let '(r, rest) := decode c s' in r :: runes_go f rest
  | _, _ => []
  end.

(** [[]rune(s)]: every round takes at least one byte, so the length is fuel enough. *)
Definition runes (s : string) : list Z := runes_go (String.length s) s.

(** [utf8.RuneCountInString] *)
Definition RuneCount (s : string) : Z := Z.of_nat (length (runes s)).

Definition byte (b : Z) : ascii := ascii_of_nat (Z.to_nat b).

(** One rune of [string([]rune)], a rune that decoding can give. *)
Definition encode (r : Z) : string :=
  if r <? 128 then String (byte r) ""
  else if r <? 2048 then String (byte (192 + Z.shiftr r 6)) (String (byte (128 + Z.land r 63)) "")
  else if r <? 65536 then
    String (byte (224 + Z.shiftr r 12)) (String (byte (128 + Z.land (Z.shiftr r 6) 63))
      (String (byte (128 + Z.land r 63)) ""))
  else
    String (byte (240 + Z.shiftr r 18)) (String (byte (128 + Z.land (Z.shiftr r 12) 63))
      (String (byte (128 + Z.land (Z.shiftr r 6) 63)) (String (byte (128 + Z.land r 63)) ""))).

Fixpoint of_runes (rs : list Z) : string :=
  match rs with [] => "" | r :: rs' => encode r +:+ of_runes rs' end.

(** [unicode.IsSpace]: the characters of White_Space. *)
Definition IsSpace (r : Z) : bool :=
  ((9 <=? r) && (r <=? 13)) || (r =? 32) || (r =? 133) || (r =? 160) || (r =? 5760) ||
  ((8192 <=? r) && (r <=? 8202)) || (r =? 8232) || (r =? 8233) || (r =? 8239) || (r =? 8287) || (r =? 12288).

(** The runes of a string, each with the bytes it was read from. *)
Fixpoint chunks_go (fuel : nat) (s : string) : list (Z * string) :=
  match fuel, s with
  | S f, String c s' =>
      let '(r, rest) := decode c s' in
      (r, String.substring 0 (String.length s - String.length rest) s) :: chunks_go f rest
  | _, _ => []
  end.

Fixpoint drop_space (l : list (Z * string)) : list (Z * string) :=
  match l with
  | (r, t) :: l' => if IsSpace r then drop_space l' else l
  | [] => []
  end.

(** [strings.TrimSpace] *)
Definition TrimSpace (s : string) : string :=
  foldr (λ rt acc, rt.2 +:+ acc) "" (rev (drop_space (rev (drop_space (chunks_go (String.length s) s))))).

Lemma continuation_length n lo hi acc s r rest :
  continuation n lo hi acc s = Some (r, rest) → (String.length rest <= String.length s)%nat.
Proof.
  revert lo hi acc s. induction n as [|n IH]; intros lo hi acc [|c s]; cbn; try naive_solver.
  case_match; [|done]. intros Hl%IH. lia.
Qed.

Lemma decode_length c s r rest : decode c s = (r, rest) → (String.length rest <= String.length s)%nat.
Proof.
  unfold decode. case_match; [naive_solver|]. destruct (accept _) as [[[n lo] hi]|]; [|naive_solver].
  destruct (continuation _ _ _ _ _) as [[? ?]|] eqn:E; cbn; intros [= <- <-]; [|done].
  by apply continuation_length in E.
Qed.

(** A rune takes at least one byte: the count never exceeds the length. *)
Lemma runes_go_length fuel s : (length (runes_go fuel s) <= String.length s)%nat.
Proof.
  revert s. induction fuel as [|f IH]; intros [|c s]; cbn; try lia.
  destruct (decode c s) as [r rest] eqn:E. cbn. apply decode_length in E. pose proof (IH rest). lia.
Qed.

Lemma RuneCount_le s : RuneCount s <= Z.of_nat (String.length s).
Proof. unfold RuneCount, runes. pose proof (runes_go_length (String.length s) s). lia. Qed.

(** Text of ASCII bytes has one rune per byte. *)
Lemma runes_go_ascii fuel s :
  Str.forall_char (λ c, Str.code c <? 128) s = true → (String.length s <= fuel)%nat →
  length (runes_go fuel s) = String.length s.
Proof.
  revert s. induction fuel as [|f IH]; intros [|c s]; cbn; try lia. intros [Hc Hs]%andb_true_iff Hl.
  unfold decode. rewrite Hc. cbn. rewrite IH by (done || lia). done.
Qed.
(** *** Trimming again changes nothing *)

Definition text (l : list (Z * string)) : string := foldr (λ rt acc, rt.2 +:+ acc) "" l.

Lemma app_nil_string (s : string) : s +:+ "" = s.
Proof. induction s as [|c s IH]; [done|]. rewrite !Str.app_cons. by rewrite IH. Qed.
Lemma app_assoc_string (s t u : string) : (s +:+ t) +:+ u = s +:+ (t +:+ u).
Proof. induction s as [|c s IH]; [done|]. rewrite !Str.app_cons. by rewrite IH. Qed.
Lemma length_string_app (s t : string) : String.length (s +:+ t) = (String.length s + String.length t)%nat.
Proof. induction s as [|c s IH]; [done|]. rewrite Str.app_cons. cbn. by rewrite IH. Qed.
Lemma text_cons r t l : text ((r, t) :: l) = t +:+ text l.
Proof. done. Qed.
Lemma text_app l m : text (l ++ m) = text l +:+ text m.
Proof. induction l as [|[r t] l IH]; [done|]. cbn [app]. by rewrite !text_cons, IH, app_assoc_string. Qed.

Lemma continuation_local n lo hi acc s r rest : continuation n lo hi acc s = Some (r, rest) →
  ∃ t, s = t +:+ rest ∧ ∀ u, continuation n lo hi acc (t +:+ u) = Some (r, u).
Proof.
  revert lo hi acc s. induction n as [|n IH]; intros lo hi acc s; [intros [= <- <-]; by exists ""|].
  destruct s as [|c s]; [done|]. cbn. case_match eqn:Eb; [|done]. intros (t & -> & Ht)%IH. exists (String c t). split; [done|]. intros u. rewrite Str.app_cons. cbn. by rewrite Eb.
Qed.

Lemma continuation_prefix n lo hi acc s z : continuation n lo hi acc (s +:+ z) = None → continuation n lo hi acc s = None.
Proof. revert lo hi acc s. induction n as [|n IH]; intros lo hi acc [|c s]; try done. rewrite Str.app_cons. cbn. case_match; [|done]. apply IH. Qed.

(** A rune is read from its own bytes, whatever shorter text follows. *)
Lemma decode_local c s r rest : decode c s = (r, rest) → ∃ t, s = t +:+ rest ∧ ∀ u z, rest = u +:+ z → decode c (t +:+ u) = (r, u).
Proof.
  unfold decode. case_match; [intros [= <- <-]; by exists ""|]. destruct (accept _) as [[[n lo] hi]|]; [|intros [= <- <-]; by exists ""].
  destruct (continuation n lo hi _ s) as [[r' rest']|] eqn:E; cbn; intros [= <- <-].
  - apply continuation_local in E as (t & -> & Ht). exists t. split; [done|]. intros u z _. by rewrite Ht.
  - exists "". split; [done|]. intros u z ->. apply continuation_prefix in E. rewrite Str.app_empty_l. by rewrite E.
Qed.

Lemma substring_app (t u : string) : String.substring 0 (String.length (t +:+ u) - String.length u) (t +:+ u) = t.
Proof.
  replace (String.length (t +:+ u) - String.length u)%nat with (String.length t) by (rewrite length_string_app; lia).
  induction t as [|c t IH]; [by destruct u|]. rewrite Str.app_cons. cbn. by rewrite IH.
Qed.

Lemma chunks_cons fuel c s l : chunks_go (S fuel) (String c s) = l →
  ∃ r t rest, s = t +:+ rest ∧ l = (r, String c t) :: chunks_go fuel rest ∧ ∀ u z, rest = u +:+ z → decode c (t +:+ u) = (r, u).
Proof.
  cbn [chunks_go]. destruct (decode c s) as [r rest] eqn:E. intros <-. apply decode_local in E as (t & -> & Ht). exists r, t, rest. split_and!; [done| |done].
  f_equal. f_equal. apply (substring_app (String c t) rest).
Qed.

Lemma chunks_text fuel s : (String.length s <= fuel)%nat → text (chunks_go fuel s) = s.
Proof.
  revert s. induction fuel as [|f IH]; intros [|c s] Hl; cbn in Hl; try done; [lia|].
  destruct (chunks_cons f c s _ eq_refl) as (r & t & rest & -> & -> & _). rewrite text_cons, Str.app_cons, IH; [done|]. rewrite length_string_app in Hl. lia.
Qed.

(** The chunks of the text of some neighbouring chunks are those chunks. *)
Lemma chunks_infix a l b fuel s k : (String.length s <= fuel)%nat → chunks_go fuel s = a ++ l ++ b → (String.length (text l) <= k)%nat → chunks_go k (text l) = l.
Proof.
  revert fuel s. induction a as [|ra a IHa].
  - cbn [app]. revert k. induction l as [|rl l IHl]; intros k fuel s Hl E Hk; [by destruct k|].
    destruct fuel as [|f]; [by destruct s|]. destruct s as [|c s]; [done|].
    destruct (chunks_cons f c s _ E) as (r & t & rest & -> & [= -> E'] & Hd). rewrite text_cons, length_string_app in *. cbn in Hl, Hk. rewrite length_string_app in Hl. destruct k as [|k]; [lia|].
    assert (rest = text l +:+ text b) as Hr by (rewrite <- text_app, E'; symmetry; apply chunks_text; lia).
    rewrite Str.app_cons. cbn [chunks_go]. rewrite (Hd _ _ Hr). f_equal; [f_equal; apply (substring_app (String c t))|]. eapply (IHl k f rest); [lia|done|lia].
  - intros fuel s Hl E Hk. destruct fuel as [|f]; [by destruct s|]. destruct s as [|c s]; [done|].
    destruct (chunks_cons f c s _ E) as (r & t & rest & -> & [= -> E'] & _). cbn in Hl. rewrite length_string_app in Hl. eapply (IHa f rest); [lia|done|done].
Qed.

Lemma drop_space_suffix l : ∃ a, l = a ++ drop_space l.
Proof. induction l as [|[r t] l [a IH]]; cbn; [by exists []|]. destruct (IsSpace r); [|by exists []]. exists ((r, t) :: a). by rewrite IH at 1. Qed.
Lemma drop_space_idem l : drop_space (drop_space l) = drop_space l.
Proof. induction l as [|[r t] l IH]; cbn; [done|]. destruct (IsSpace r) eqn:E; [done|]. cbn. by rewrite E. Qed.
Lemma drop_space_prefix l m : drop_space (l ++ m) = l ++ m → drop_space l = l.
Proof. destruct l as [|[r t] l]; cbn; [done|]. destruct (IsSpace r); [|done]. intros E. destruct (drop_space_suffix (l ++ m)) as [a Ha]. rewrite E in Ha.
  apply (f_equal length) in Ha. rewrite !length_app in Ha. cbn in Ha. rewrite length_app in Ha. lia. Qed.

Lemma TrimSpace_idem s : TrimSpace (TrimSpace s) = TrimSpace s.
Proof.
  unfold TrimSpace at 2 3. fold (text (rev (drop_space (rev (drop_space (chunks_go (String.length s) s)))))).
  set (l := rev (drop_space (rev (drop_space (chunks_go (String.length s) s))))).
  destruct (drop_space_suffix (chunks_go (String.length s) s)) as [a Ha]. destruct (drop_space_suffix (rev (drop_space (chunks_go (String.length s) s)))) as [b Hb].
  apply (f_equal (@rev _)) in Hb. rewrite rev_involutive, rev_app_distr in Hb. fold l in Hb.
  assert (chunks_go (String.length (text l)) (text l) = l) as Hc.
  { eapply (chunks_infix a l (rev b) (String.length s) s); [lia| |lia]. rewrite Ha at 1. by rewrite Hb at 1. }
  unfold TrimSpace. rewrite Hc. rewrite (drop_space_prefix l (rev b)) by (rewrite <- Hb; apply drop_space_idem).
  unfold l. rewrite rev_involutive, drop_space_idem. done.
Qed.
End Utf8.
