(* ===== verification/Apperr.v ===== *)
(** * Application errors (src/apperr)

    The structured error every package returns, Go's [errors.Is] and
    [errors.As] over wrapped errors, and the mapping to an HTTP status.

    An error is what the code can observe of it: the sentinel behind it, the
    text [Error()] gives, the wrapped errors, and for an [*AppError] its code,
    reason, parameters, message, level and fields. The call site ([File], [Line],
    [Stack]) is diagnostics read from the runtime and is left out. *)

From S2P Require Import Prelude.

(** ** Codes and levels *)

Inductive Code : Set :=
| CodeInternal | CodeNotFound | CodeBadRequest | CodeUnauthenticated
| CodePermissionDenied | CodeInvalidArgument | CodeAlreadyExists
| CodeValidationError | CodePayloadTooLarge.

#[export] Instance Code_eq_dec : EqDecision Code.
Proof. solve_decision. Defined.

Inductive Level : Set := LevelNone | LevelInfo | LevelWarn | LevelError.

#[export] Instance Level_eq_dec : EqDecision Level.
Proof. solve_decision. Defined.

(** ** Problems of a role or catalogue (src/authz/errors.go)

    [*authz.ValidationError] is the one error type that carries data and
    implements [Reasoner], so its payload is part of the error type. *)

Inductive ProblemCode : Set :=
| ProblemUnknownPermission | ProblemUnknownAttribute | ProblemEmptyAttribute
| ProblemInvalidQualifier | ProblemQualifierNotAllowed | ProblemMissingRequired
| ProblemRequiredTooNarrow | ProblemDuplicateGrant | ProblemComputedWithGrants
| ProblemInvalidRole | ProblemUnknownRequirement | ProblemRequirementCycle
| ProblemOrganizationOnly | ProblemInvalidIdentifier | ProblemDuplicatePermission
| ProblemInconsistentMetadata.

#[export] Instance ProblemCode_eq_dec : EqDecision ProblemCode.
Proof. solve_decision. Defined.

Definition problem_code_string (c : ProblemCode) : string :=
  match c with
  | ProblemUnknownPermission => "unknown_permission"
  | ProblemUnknownAttribute => "unknown_attribute"
  | ProblemEmptyAttribute => "empty_attribute"
  | ProblemInvalidQualifier => "invalid_qualifier"
  | ProblemQualifierNotAllowed => "qualifier_not_allowed"
  | ProblemMissingRequired => "missing_required"
  | ProblemRequiredTooNarrow => "required_too_narrow"
  | ProblemDuplicateGrant => "duplicate_grant"
  | ProblemComputedWithGrants => "computed_with_grants"
  | ProblemInvalidRole => "invalid_role"
  | ProblemUnknownRequirement => "unknown_requirement"
  | ProblemRequirementCycle => "requirement_cycle"
  | ProblemOrganizationOnly => "organization_only"
  | ProblemInvalidIdentifier => "invalid_identifier"
  | ProblemDuplicatePermission => "duplicate_permission"
  | ProblemInconsistentMetadata => "inconsistent_metadata"
  end.

Record Problem : Set := mkProblem {
  pr_Code : ProblemCode;
  pr_Permission : string;
  pr_Detail : string
}.

#[export] Instance Problem_eq_dec : EqDecision Problem.
Proof. solve_decision. Defined.

(** [Problem.String] *)
Definition problem_string (p : Problem) : string :=
  let s := problem_code_string (pr_Code p) in
  let s := if decide (pr_Permission p ≠ "") then s +:+ " " +:+ pr_Permission p else s in
  if decide (pr_Detail p ≠ "") then s +:+ " (" +:+ pr_Detail p +:+ ")" else s.

(** ** Errors *)

(** Values of [Params]: the modelled code puts strings, integers, lists of
    strings, the problem objects and counts by name there. *)
Inductive param : Type :=
| PString (s : string)
| PInt (z : Z)
| PStrings (l : list string)
| PProblems (l : list (gmap string string))
| PCounts (l : list (string * Z)).

Inductive error : Type :=
| errNew (text : string)
| errorf (text : string) (wrapped : list error)
| errValidation (problems : list Problem)
| errApp (Err : option error) (code : Code) (Reason : string)
    (Params : gmap string param) (Message : string) (LogLevel : Level)
    (Fields : gmap string string).

(** Functions with an error result. *)
Notation result := (outcome error).

(** [err.Error()] *)
Fixpoint error_text (e : error) : string :=
  match e with
  | errNew t => t
  | errorf t _ => t
  | errValidation ps => "authz: invalid: " +:+ Str.join "; " (problem_string <$> ps)
  | errApp (Some e') _ _ _ m _ _ => m +:+ ": " +:+ error_text e'
  | errApp None _ _ _ m _ _ => m
  end.

(** [errors.Is(err, sentinel)]: a sentinel is a package-level [errors.New]
    value, identified by its text (no two sentinels of the sources share one).
    The tree of wrapped errors is searched depth first. *)
Fixpoint errors_Is (e : error) (sentinel : string) : bool :=
  match e with
  | errNew t => bool_decide (t = sentinel)
  | errorf _ ws => existsb (λ w, errors_Is w sentinel) ws
  | errValidation _ => false
  | errApp (Some e') _ _ _ _ _ _ => errors_Is e' sentinel
  | errApp None _ _ _ _ _ _ => false
  end.

(** The first value [pick] accepts, depth first: [errors.As]. *)
Fixpoint errors_As (pick : error → bool) (e : error) : option error :=
  if pick e then Some e else
  match e with
  | errNew _ | errValidation _ => None
  | errorf _ ws =>
      (fix first (l : list error) : option error :=
         match l with
         | [] => None
         | w :: l' => match errors_As pick w with Some x => Some x | None => first l' end
         end) ws
  | errApp (Some e') _ _ _ _ _ _ => errors_As pick e'
  | errApp None _ _ _ _ _ _ => None
  end.

Definition is_app (e : error) : bool := if e is errApp _ _ _ _ _ _ _ then true else false.
Definition is_validation (e : error) : bool := if e is errValidation _ then true else false.

(** [errors.As(err, &appErr)] *)
Definition as_app (e : error) : option error := errors_As is_app e.

(** The problems [errors.As(err, *ValidationError)] finds. *)
Definition as_validation (e : error) : option (list Problem) :=
  match errors_As is_validation e with
  | Some (errValidation ps) => Some ps
  | _ => None
  end.

Definition app_code (e : error) : option Code :=
  if e is errApp _ c _ _ _ _ _ then Some c else None.
Definition app_reason (e : error) : option string :=
  if e is errApp _ _ r _ _ _ _ then Some r else None.

(** ** Constructors *)

(** [newWithSkip] and [Wrap]: the cause may be nil. *)
Definition newWithSkip (err : option error) (message : string) (code : Code) : error :=
  errApp err code "" ∅ message LevelError ∅.

Definition Wrap (err : option error) (message : string) (code : Code) : error :=
  newWithSkip err message code.

Definition WithLog (e : error) (level : Level) : error :=
  match e with
  | errApp c k r p m _ f => errApp c k r p m level f
  | _ => e
  end.

Definition WithFields (e : error) (fields : gmap string string) : error :=
  match e with
  | errApp c k r p m l _ => errApp c k r p m l fields
  | _ => e
  end.

(** [WithReason]: the params are merged into what is there, later ones winning. *)
Definition WithReason (e : error) (reason : string) (params : gmap string param) : error :=
  match e with
  | errApp c k _ p m l f => errApp c k reason (params ∪ p) m l f
  | _ => e
  end.

Definition HasCode (e : error) (code : Code) : bool :=
  match as_app e with Some a => bool_decide (app_code a = Some code) | None => false end.

Definition HasReason (e : error) (reason : string) : bool :=
  match as_app e with Some a => bool_decide (app_reason a = Some reason) | None => false end.

(** [ValidationError.ErrorReason]: the problems sorted by code, then permission,
    empty fields left out. *)
Definition problem_leb (a b : Problem) : bool :=
  match String.compare (problem_code_string (pr_Code a)) (problem_code_string (pr_Code b)) with
  | Lt => true
  | Gt => false
  | Eq => String.leb (pr_Permission a) (pr_Permission b)
  end.

Definition problem_entry (p : Problem) : gmap string string :=
  let m := <["code" := problem_code_string (pr_Code p)]> ∅ in
  let m := if decide (pr_Permission p ≠ "") then <["permission" := pr_Permission p]> m else m in
  if decide (pr_Detail p ≠ "") then <["detail" := pr_Detail p]> m else m.

Definition ErrorReason (problems : list Problem) : string * gmap string param :=
  ("authz.invalid",
   {[ "problems" := PProblems (problem_entry <$> stable_sort problem_leb problems) ]}).

(** [fromErr]: the message of the error, and the reason of a [Reasoner]. *)
Definition fromErr (err : option error) (code : Code) : error :=
  let message := match err with Some e => error_text e | None => "unknown error" end in
  match err ≫= as_validation with
  | Some ps => errApp err code (ErrorReason ps).1 (ErrorReason ps).2 message LevelError ∅
  | None => newWithSkip err message code
  end.

Definition BadRequestFrom (err : error) : error := WithLog (fromErr (Some err) CodeBadRequest) LevelWarn.
Definition NotFoundFrom (err : error) : error := WithLog (fromErr (Some err) CodeNotFound) LevelInfo.
Definition ForbiddenFrom (err : error) : error := WithLog (fromErr (Some err) CodePermissionDenied) LevelWarn.
Definition ConflictFrom (err : error) : error := WithLog (fromErr (Some err) CodeAlreadyExists) LevelWarn.

Definition NotFound (message : string) : error := WithLog (newWithSkip None message CodeNotFound) LevelInfo.
Definition Conflict (message : string) : error := WithLog (newWithSkip None message CodeAlreadyExists) LevelWarn.
Definition BadRequest (message : string) : error := WithLog (newWithSkip None message CodeBadRequest) LevelWarn.
Definition PayloadTooLarge (message : string) : error := WithLog (newWithSkip None message CodePayloadTooLarge) LevelWarn.
Definition Internal (err : error) : error := WithLog (newWithSkip (Some err) "internal server error" CodeInternal) LevelError.
Definition Unauthorized (message : string) : error := WithLog (newWithSkip None message CodeUnauthenticated) LevelWarn.
Definition Forbidden (message : string) : error := WithLog (newWithSkip None message CodePermissionDenied) LevelWarn.

(** [WrapPreserve]: a message in front, the classification kept. *)
Definition WrapPreserve (err : error) (message : string) : error :=
  match as_app err with
  | Some (errApp _ c r p m l _) => errApp (Some err) c r p (message +:+ ": " +:+ m) l ∅
  | _ => newWithSkip (Some err) message CodeInternal
  end.

(** ** Translating at the edge *)

(** [Case] and [On]: a sentinel and the AppError that answers it. *)
Record Case : Type := On { case_match : string; case_mapped : error }.

(** The copy [When] returns: the mapped AppError, with err as its cause unless it
    already has one. *)
Definition with_cause (mapped err : error) : error :=
  match mapped with
  | errApp None c r p m l f => errApp (Some err) c r p m l f
  | _ => mapped
  end.

Fixpoint When_case (err : error) (cases : list Case) : option error :=
  match cases with
  | [] => None
  | c :: cs => if errors_Is err (case_match c) then Some (with_cause (case_mapped c) err)
               else When_case err cs
  end.

Definition When (err : option error) (cases : list Case) : option error :=
  match err with
  | None => None
  | Some e =>
      match When_case e cases with
      | Some m => Some m
      | None => match as_app e with
                | Some _ => Some e
                | None => Some (Internal e)
                end
      end
  end.

(** ** HTTP status *)

Definition codeToHTTP (c : Code) : Z :=
  match c with
  | CodeInternal => 500
  | CodeNotFound => 404
  | CodeUnauthenticated => 401
  | CodePermissionDenied => 403
  | CodeInvalidArgument => 422
  | CodeAlreadyExists => 409
  | CodeBadRequest => 400
  | CodeValidationError => 422
  | CodePayloadTooLarge => 413
  end.

Definition GetHTTPStatus (err : error) : Z :=
  match as_app err ≫= app_code with
  | Some c => codeToHTTP c
  | None => 500
  end.
