(* ===== verification/Catalogue.v ===== *)
(** * Permissions and the catalogue (src/authz/permission.go, catalogue.go)

    Permission identifiers, the permission metadata and the options that set it,
    and the catalogue an application declares at start-up: [Define], [Lookup],
    [All] and [Validate], the last with its depth-first search for cycles of
    [Requires]. *)

From Stdlib Require Import Ascii.
From S2P Require Import Prelude Apperr.

(** ** Identifiers *)

Definition colon : ascii := ":"%char.
Definition dot : ascii := "."%char.

(** The regular expression [word], ^[a-z][a-z0-9]*$. *)
Definition word_match (s : string) : bool :=
  match s with
  | EmptyString => false
  | String c s' => Str.is_lower c && Str.forall_char (λ d, Str.is_lower d || Str.is_digit d) s'
  end.

Definition IsWord (s : string) : bool := word_match s.

Definition maxResourceSegments : nat := 3.

(** The loop over the segments before the colon. *)
Fixpoint checkSegments (id : string) (segments : list string) : result () :=
  match segments with
  | [] => Ok ()
  | s :: rest =>
      if word_match s then checkSegments id rest
      else Err (errNew ("identifier " +:+ Str.fmt_q id +:+ ": segment " +:+ Str.fmt_q s +:+
                        " must be a single lowercase word"))
  end.

Definition checkIdentifier (id : string) : result () :=
  let '(ns, verb, ok) := Str.cut colon id in
  if negb ok || Str.contains_char colon verb then
    Err (errNew ("identifier " +:+ Str.fmt_q id +:+ " must look like module.resource:verb"))
  else if negb (word_match verb) then
    Err (errNew ("identifier " +:+ Str.fmt_q id +:+ ": verb " +:+ Str.fmt_q verb +:+
                 " must be a single lowercase word"))
  else
    let segments := Str.split dot ns in
    if decide (maxResourceSegments < length segments) then
      Err (errNew ("identifier " +:+ Str.fmt_q id +:+ ": at most " +:+
                   Str.fmt_d (Z.of_nat maxResourceSegments) +:+ " segments before the colon"))
    else checkSegments id segments.

(** ** Permissions *)

Record Permission : Type := mkPermission {
  p_ID : string;
  p_LabelKey : string;
  p_DescriptionKey : string;
  p_Sensitive : bool;
  p_System : bool;
  p_OrganizationOnly : bool;
  p_Requires : list string;
  p_RecordType : string;
  p_UnownedIsOwn : bool;
  p_Feature : string;
  p_Attributes : list string
}.

#[export] Instance Permission_eq_dec : EqDecision Permission.
Proof. solve_decision. Defined.

(** [Permission{ID: id}] *)
Definition zeroPermission (id : string) : Permission :=
  mkPermission id "" "" false false false [] "" false "" [].

(** [Permission.Namespace]: the slice before the colon; an identifier without
    one panics ([None]). *)
Definition Namespace (p : Permission) : option string :=
  let '(ns, _, ok) := Str.cut colon (p_ID p) in if ok then Some ns else None.

(** [Permission.Verb]: the slice after the colon, the whole text without one. *)
Definition Verb (p : Permission) : string :=
  let '(_, verb, ok) := Str.cut colon (p_ID p) in if ok then verb else p_ID p.

(** [Permission.Module] *)
Definition Module_of (p : Permission) : option string :=
  (λ ns, (Str.cut dot ns).1.1) <$> Namespace p.

(** [Permission.Ownable] *)
Definition Ownable (p : Permission) : bool := bool_decide (p_RecordType p ≠ "").
Arguments Ownable : simpl never.

(** ** Options of Define *)

Definition DefineOption : Type := Permission → Permission.

Definition Label (key : string) : DefineOption := λ p,
  mkPermission (p_ID p) key (p_DescriptionKey p) (p_Sensitive p) (p_System p)
    (p_OrganizationOnly p) (p_Requires p) (p_RecordType p) (p_UnownedIsOwn p)
    (p_Feature p) (p_Attributes p).

Definition Description (key : string) : DefineOption := λ p,
  mkPermission (p_ID p) (p_LabelKey p) key (p_Sensitive p) (p_System p)
    (p_OrganizationOnly p) (p_Requires p) (p_RecordType p) (p_UnownedIsOwn p)
    (p_Feature p) (p_Attributes p).

Definition Sensitive : DefineOption := λ p,
  mkPermission (p_ID p) (p_LabelKey p) (p_DescriptionKey p) true (p_System p)
    (p_OrganizationOnly p) (p_Requires p) (p_RecordType p) (p_UnownedIsOwn p)
    (p_Feature p) (p_Attributes p).

Definition System : DefineOption := λ p,
  mkPermission (p_ID p) (p_LabelKey p) (p_DescriptionKey p) (p_Sensitive p) true
    (p_OrganizationOnly p) (p_Requires p) (p_RecordType p) (p_UnownedIsOwn p)
    (p_Feature p) (p_Attributes p).

Definition OrganizationOnly : DefineOption := λ p,
  mkPermission (p_ID p) (p_LabelKey p) (p_DescriptionKey p) (p_Sensitive p) (p_System p)
    true (p_Requires p) (p_RecordType p) (p_UnownedIsOwn p)
    (p_Feature p) (p_Attributes p).

Definition Requires (ids : list string) : DefineOption := λ p,
  mkPermission (p_ID p) (p_LabelKey p) (p_DescriptionKey p) (p_Sensitive p) (p_System p)
    (p_OrganizationOnly p) (p_Requires p ++ ids) (p_RecordType p) (p_UnownedIsOwn p)
    (p_Feature p) (p_Attributes p).

Definition OwnableOf (recordType : string) : DefineOption := λ p,
  mkPermission (p_ID p) (p_LabelKey p) (p_DescriptionKey p) (p_Sensitive p) (p_System p)
    (p_OrganizationOnly p) (p_Requires p) recordType (p_UnownedIsOwn p)
    (p_Feature p) (p_Attributes p).

Definition UnownedIsOwn : DefineOption := λ p,
  mkPermission (p_ID p) (p_LabelKey p) (p_DescriptionKey p) (p_Sensitive p) (p_System p)
    (p_OrganizationOnly p) (p_Requires p) (p_RecordType p) true
    (p_Feature p) (p_Attributes p).

Definition Feature (name : string) : DefineOption := λ p,
  mkPermission (p_ID p) (p_LabelKey p) (p_DescriptionKey p) (p_Sensitive p) (p_System p)
    (p_OrganizationOnly p) (p_Requires p) (p_RecordType p) (p_UnownedIsOwn p)
    name (p_Attributes p).

Definition Attributes (keys : list string) : DefineOption := λ p,
  mkPermission (p_ID p) (p_LabelKey p) (p_DescriptionKey p) (p_Sensitive p) (p_System p)
    (p_OrganizationOnly p) (p_Requires p) (p_RecordType p) (p_UnownedIsOwn p)
    (p_Feature p) (p_Attributes p ++ keys).

(** ** The catalogue *)

Record Catalogue : Type := mkCatalogue {
  c_perms : gmap string Permission;
  c_order : list string;
  c_frozen : bool
}.

Definition NewCatalogue : Catalogue := mkCatalogue ∅ [] false.

(** [asValidation] *)
Definition asValidation (problems : list Problem) : result () :=
  match problems with
  | [] => Ok ()
  | _ => Err (errValidation problems)
  end.

(** The attribute loop of [checkPermission]: [seen] is the set of the keys met. *)
Fixpoint checkAttributes (bad : string → Problem) (seen : gset string)
    (attrs : list string) : list Problem :=
  match attrs with
  | [] => []
  | a :: rest =>
      (if word_match a then []
       else [bad ("attribute " +:+ Str.fmt_q a +:+ " must be a single lowercase word")]) ++
      (if decide (a ∈ seen) then [bad ("attribute " +:+ Str.fmt_q a +:+ " listed twice")] else []) ++
      checkAttributes bad ({[a]} ∪ seen) rest
  end.

Definition checkPermission (p : Permission) : list Problem :=
  let bad detail := mkProblem ProblemInconsistentMetadata (p_ID p) detail in
  (if p_UnownedIsOwn p && bool_decide (p_RecordType p = "")
   then [bad "UnownedIsOwn needs Ownable"] else []) ++
  (if bool_decide (p_Feature p ≠ "") && negb (word_match (p_Feature p))
   then [bad ("feature " +:+ Str.fmt_q (p_Feature p) +:+ " must be a single lowercase word")]
   else []) ++
  checkAttributes bad ∅ (p_Attributes p) ++
  concat ((λ r,
    match checkIdentifier r with
    | Ok _ => []
    | Err e => [bad ("requires: " +:+ error_text e)]
    end ++
    (if decide (r = p_ID p) then [bad "requires itself"] else [])) <$> p_Requires p).

(** [Catalogue.Define]: the catalogue after the call, or the error and the
    catalogue unchanged. *)
Definition Define (c : Catalogue) (id : string) (opts : list DefineOption) : result Catalogue :=
  if c_frozen c then
    Err (errNew ("authz: catalogue is frozen, cannot define " +:+ Str.fmt_q id))
  else match checkIdentifier id with
  | Err e => Err (errValidation [mkProblem ProblemInvalidIdentifier id (error_text e)])
  | Ok _ =>
      match c_perms c !! id with
      | Some _ => Err (errValidation [mkProblem ProblemDuplicatePermission id ""])
      | None =>
          let p := foldl (λ q opt, opt q) (zeroPermission id) opts in
          match checkPermission p with
          | [] => Ok (mkCatalogue (<[id := p]> (c_perms c)) (c_order c ++ [id]) (c_frozen c))
          | problems => Err (errValidation problems)
          end
      end
  end.

(** [Catalogue.Lookup] *)
Definition Lookup (c : Catalogue) (id : string) : option Permission := c_perms c !! id.
Arguments Lookup : simpl never.

(** [Catalogue.All]: in definition order. *)
Definition All_perms (c : Catalogue) : list Permission := omap (λ id, c_perms c !! id) (c_order c).

(** [Catalogue.Len] *)
Definition Len (c : Catalogue) : nat := length (c_order c).

(** [Catalogue.AttributeKeys] *)
Definition AttributeKeys (c : Catalogue) : list string :=
  let keys : gset string :=
    list_to_set (concat ((λ kv, p_Attributes kv.2) <$> map_to_list (c_perms c))) in
  merge_sort String.le (elements keys).

(** [Catalogue.HasFeatures] *)
Definition HasFeatures (c : Catalogue) : bool :=
  existsb (λ kv, bool_decide (p_Feature kv.2 ≠ "")) (map_to_list (c_perms c)).

(** ** Validate *)

(** The [Requires] of a permission (reading an unknown one panics; the search
    runs only when every target is known). *)
Definition requires_of (perms : gmap string Permission) (id : string) : list string :=
  match perms !! id with Some p => p_Requires p | None => [] end.

(** The marks of the depth-first search; an absent key is [unseen]. *)
Inductive mark : Set := visiting | done_.

#[export] Instance mark_eq_dec : EqDecision mark.
Proof. solve_decision. Defined.

Definition search_state : Type := gmap string mark * list Problem.

(** The closure [visit] of [requirementCycles]; [fuel] bounds the depth of the
    recursion, which is at most the number of unseen permissions. *)
Fixpoint visit (perms : gmap string Permission) (fuel : nat) (id : string)
    (st : search_state) : search_state :=
  match fuel with
  | O => st
  | S f =>
      let st1 := (<[id := visiting]> st.1, st.2) in
      let st2 := foldl (λ s r,
        match s.1 !! r with
        | Some visiting => (s.1, s.2 ++ [mkProblem ProblemRequirementCycle id ("requires " +:+ r)])
        | Some done_ => s
        | None => visit perms f r s
        end) st1 (requires_of perms id) in
      (<[id := done_]> st2.1, st2.2)
  end.

Definition requirementCycles (c : Catalogue) : list Problem :=
  (foldl (λ s id,
     match s.1 !! id with
     | None => visit (c_perms c) (S (size (c_perms c))) id s
     | Some _ => s
     end) (∅, []) (c_order c)).2.

(** The first loop of [Validate]. *)
Definition unknownRequirements (c : Catalogue) : list Problem :=
  concat ((λ id,
    omap (λ r, match c_perms c !! r with
               | Some _ => None
               | None => Some (mkProblem ProblemUnknownRequirement id ("requires unknown " +:+ r))
               end) (requires_of (c_perms c) id)) <$> c_order c).

Definition Validate (c : Catalogue) : result () :=
  let problems := unknownRequirements c in
  let problems := match problems with [] => requirementCycles c | _ => problems end in
  asValidation problems.

(** [Catalogue.freeze] *)
Definition freeze (c : Catalogue) : result Catalogue :=
  match Validate c with
  | Err e => Err e
  | Ok _ => Ok (mkCatalogue (c_perms c) (c_order c) true)
  end.

(** ** Well-formed catalogues *)

(** The invariant [Define] keeps: the order lists every permission once, and each
    permission is stored under its own valid identifier with consistent metadata. *)
Record wf_catalogue (c : Catalogue) : Prop := {
  wf_order : NoDup (c_order c);
  wf_dom : ∀ id, id ∈ c_order c ↔ is_Some (c_perms c !! id);
  wf_perm : ∀ id p, c_perms c !! id = Some p →
    p_ID p = id ∧ checkIdentifier id = Ok () ∧ checkPermission p = []
}.

(** An option that leaves the identifier alone; every option of the package does. *)
Definition keeps_id (opt : DefineOption) : Prop := ∀ p, p_ID (opt p) = p_ID p.

Lemma foldl_keeps_id opts p : Forall keeps_id opts → p_ID (foldl (λ q opt, opt q) p opts) = p_ID p.
Proof. intros H. revert p. induction H as [|o os Ho _ IH]; intros p; [done|]. cbn. by rewrite IH, Ho. Qed.

Lemma wf_NewCatalogue : wf_catalogue NewCatalogue.
Proof.
  split; cbn; [constructor| |done].
  intros id. rewrite lookup_empty, is_Some_alt, elem_of_nil. done.
Qed.

Lemma Define_inv c id opts c' :
  Define c id opts = Ok c' →
  let p := foldl (λ q opt, opt q) (zeroPermission id) opts in
  c_frozen c = false ∧ checkIdentifier id = Ok () ∧ c_perms c !! id = None ∧
  checkPermission p = [] ∧
  c' = mkCatalogue (<[id := p]> (c_perms c)) (c_order c ++ [id]) false.
Proof.
  unfold Define. intros H. repeat case_match; simplify_eq.
  match goal with u : () |- _ => destruct u end. naive_solver congruence.
Qed.

Lemma Define_wf c id opts c' :
  wf_catalogue c → Forall keeps_id opts → Define c id opts = Ok c' → wf_catalogue c'.
Proof.
  intros [Ho Hd Hp] Hopts (Hf & Hid & Hnone & Hchk & ->)%Define_inv. split; cbn.
  - apply list.NoDup_app. split; [done|]. split; [|apply NoDup_singleton].
    intros x Hx ->%list_elem_of_singleton. apply Hd in Hx. rewrite Hnone in Hx.
    by destruct Hx.
  - intros x. rewrite elem_of_app, list_elem_of_singleton, Hd, lookup_insert_is_Some. 
    destruct (decide (id = x)); naive_solver.
  - intros x p. rewrite lookup_insert_Some. intros [[<- <-]|[_ Hx]]; [|by apply Hp].
    by rewrite foldl_keeps_id.
Qed.

Lemma All_perms_spec c p :
  wf_catalogue c → p ∈ All_perms c ↔ Lookup c (p_ID p) = Some p.
Proof.
  intros [Ho Hd Hp]. unfold All_perms, Lookup. rewrite list_elem_of_omap. split.
  - intros (id & Hid & E). destruct (Hp _ _ E) as [<- _]. done.
  - intros E. exists (p_ID p). split; [|done]. apply Hd. by eexists.
Qed.

(** ** Correctness of the search for cycles *)

Section Search.
Context (perms : gmap string Permission).

Definition edge (a b : string) : Prop := b ∈ requires_of perms a.
Definition closed : Prop := ∀ a b, edge a b → is_Some (perms !! b).
Definition acyclic : Prop := ∀ a, ¬ tc edge a a.

(** What a step of the search keeps: marks stay, no new gray mark is left, and
    problems are only appended. *)
Record ext (s s' : search_state) : Prop := {
  ext_keep : ∀ x m, s.1 !! x = Some m → s'.1 !! x = Some m;
  ext_gray : ∀ x, s'.1 !! x = Some visiting → s.1 !! x = Some visiting;
  ext_probs : s.2 `prefix_of` s'.2
}.

Lemma ext_refl s : ext s s.
Proof. by split. Qed.

Lemma ext_trans s1 s2 s3 : ext s1 s2 → ext s2 s3 → ext s1 s3.
Proof. intros [???] [???]. split; [eauto|eauto|by etrans]. Qed.

Lemma ext_same_probs s1 s2 s3 : ext s1 s2 → ext s2 s3 → s3.2 = s1.2 → s2.2 = s1.2.
Proof.
  intros [_ _ H1] [_ _ H2] E. rewrite E in H2. by apply (anti_symm prefix).
Qed.

Definition blacks_acc (s : search_state) : Prop :=
  ∀ x, s.1 !! x = Some done_ → Acc (λ b a, edge a b) x.

Definition unseen (s : search_state) : gset string := dom perms ∖ dom s.1.

(** What [visit] does to a permission it has not seen, in a state with enough
    fuel left for the unseen ones. *)
Definition visit_spec (f : nat) : Prop := ∀ id s,
  is_Some (perms !! id) → s.1 !! id = None → size (unseen s) <= f →
  let s' := visit perms f id s in
  ext s s' ∧ s'.1 !! id = Some done_ ∧
  (blacks_acc s → s'.2 = s.2 → blacks_acc s') ∧
  (acyclic → (∀ g, s.1 !! g = Some visiting → rtc edge g id) → s'.2 = s.2).

(** One round of the loop over the requirements of [id]. *)
Definition require_step (f : nat) (id : string) (s : search_state) (r : string) : search_state :=
  match s.1 !! r with
  | Some visiting => (s.1, s.2 ++ [mkProblem ProblemRequirementCycle id ("requires " +:+ r)])
  | Some done_ => s
  | None => visit perms f r s
  end.

Lemma require_step_spec f id s r :
  visit_spec f → closed → edge id r → s.1 !! id = Some visiting → size (unseen s) <= f →
  let s' := require_step f id s r in
  ext s s' ∧
  (blacks_acc s → s'.2 = s.2 → blacks_acc s' ∧ s'.1 !! r = Some done_) ∧
  (acyclic → (∀ g, s.1 !! g = Some visiting → rtc edge g id) → s'.2 = s.2).
Proof.
  intros Hv Hc He Hid Hf. unfold require_step. destruct (s.1 !! r) as [[|]|] eqn:Er; cbn.
  - split; [|split].
    + split; cbn; [done|done|by eexists].
    + intros _ E. exfalso. apply (f_equal length) in E. rewrite length_app in E. cbn in E. lia.
    + intros Ha Hg. exfalso. eapply (Ha id). eapply tc_rtc_r; [by apply tc_once|]. by apply Hg.
  - split; [apply ext_refl|]. split; [done|done].
  - destruct (Hv r s (Hc _ _ He) Er Hf) as (H1 & H2 & H3 & H4).
    split; [done|]. split; [by auto|]. intros Ha Hg. apply H4; [done|].
    intros g Hgg. eapply rtc_r; [by apply Hg|done].
Qed.

Lemma unseen_mono s s' : ext s s' → size (unseen s') <= size (unseen s).
Proof.
  intros [Hk _ _]. apply subseteq_size. unfold unseen. intros x.
  rewrite !elem_of_difference, !elem_of_dom. intros [H1 H2]. split; [done|].
  intros [m Hm]. apply H2. eexists. eauto.
Qed.

Lemma require_loop_spec f id rs s :
  visit_spec f → closed → Forall (edge id) rs → s.1 !! id = Some visiting →
  size (unseen s) <= f →
  let s' := foldl (require_step f id) s rs in
  ext s s' ∧
  (blacks_acc s → s'.2 = s.2 → blacks_acc s' ∧ Forall (λ r, s'.1 !! r = Some done_) rs) ∧
  (acyclic → (∀ g, s.1 !! g = Some visiting → rtc edge g id) → s'.2 = s.2).
Proof.
  intros Hv Hc Hrs. revert s. induction Hrs as [|r rs Hr Hrs IH]; intros s Hid Hf; cbn.
  { split; [apply ext_refl|]. split; [|done]. intros. split; [done|constructor]. }
  destruct (require_step_spec f id s r Hv Hc Hr Hid Hf) as (E1 & B1 & G1).
  set (s1 := require_step f id s r) in *.
  destruct (IH s1) as (E2 & B2 & G2).
  { by apply (ext_keep _ _ E1). }
  { etrans; [by apply unseen_mono|done]. }
  split; [by eapply ext_trans|]. split.
  - intros Hb Hp. assert (s1.2 = s.2) as Hp1 by (by eapply ext_same_probs).
    destruct (B1 Hb Hp1) as [Hb1 Hr1]. destruct (B2 Hb1) as [Hb2 Hrs2]; [congruence|].
    split; [done|]. constructor; [by apply (ext_keep _ _ E2)|done].
  - intros Ha Hg. rewrite G2, G1; try done. intros g Hgg. by apply Hg, (ext_gray _ _ E1).
Qed.

Lemma unseen_visiting s id :
  is_Some (perms !! id) → s.1 !! id = None →
  size (unseen (<[id := visiting]> s.1, s.2)) < size (unseen s).
Proof.
  intros Hin Hno. apply subset_size. unfold unseen; cbn. rewrite dom_insert_L.
  apply elem_of_dom in Hin. apply not_elem_of_dom in Hno. set_solver.
Qed.

Lemma visit_correct f : closed → visit_spec f.
Proof.
  intros Hc. induction f as [|f IH]; intros id s Hin Hno Hf; cbn zeta.
  { pose proof (unseen_visiting s id Hin Hno). lia. }
  pose proof (unseen_visiting s id Hin Hno) as Hlt.
  set (s1 := (<[id := visiting]> s.1, s.2) : search_state) in *.
  assert (Forall (edge id) (requires_of perms id)) as Hall
    by (by apply list.Forall_forall).
  assert (s1.1 !! id = Some visiting) as Hs1 by (cbn; apply lookup_insert_eq).
  destruct (require_loop_spec f id _ s1 IH Hc Hall Hs1 ltac:(lia)) as (E & B & G).
  change (visit perms (S f) id s) with
    ((λ s2 : search_state, (<[id := done_]> s2.1, s2.2))
       (foldl (require_step f id) s1 (requires_of perms id))).
  set (s2 := foldl (require_step f id) s1 (requires_of perms id)) in *. cbn.
  assert (∀ x m, s.1 !! x = Some m → x ≠ id ∧ s1.1 !! x = Some m) as Hold.
  { intros x m Hx. assert (x ≠ id) by congruence. split; [done|]. cbn. by rewrite lookup_insert_ne. }
  split; [split; cbn|split; [by rewrite lookup_insert_eq|split; cbn]].
  - intros x m Hx. destruct (Hold x m Hx) as [Hne Hx1].
    rewrite lookup_insert_ne by done. by apply (ext_keep _ _ E).
  - intros x. rewrite lookup_insert_Some. intros [[_ ?]|[Hne Hx]]; [done|].
    apply (ext_gray _ _ E) in Hx. cbn in Hx. by rewrite lookup_insert_ne in Hx.
  - exact (ext_probs _ _ E).
  - intros Hb Hp. destruct (B) as [Hb2 Hr]; [|done|].
    { intros x. cbn. rewrite lookup_insert_Some. intros [[_ ?]|[_ ?]]; [done|by apply Hb]. }
    intros x. cbn. rewrite lookup_insert_Some. intros [[<- _]|[_ Hx]]; [|by apply Hb2].
    constructor. intros r Her. apply Hb2. rewrite list.Forall_forall in Hr. by apply Hr.
  - intros Ha Hg. rewrite G; [done|done|]. intros g. cbn. rewrite lookup_insert_Some.
    intros [[<- _]|[_ Hgg]]; [apply rtc_refl|by apply Hg].
Qed.
(** The loop of [requirementCycles] over the definition order. *)
Definition root_step (s : search_state) (id : string) : search_state :=
  match s.1 !! id with
  | None => visit perms (S (size perms)) id s
  | Some _ => s
  end.

Definition no_gray (s : search_state) : Prop := ∀ x, s.1 !! x ≠ Some visiting.

Lemma unseen_size s : size (unseen s) <= size perms.
Proof. unfold unseen. rewrite <-(size_dom (D := gset string) perms). apply subseteq_size. set_solver. Qed.

Lemma root_step_spec s id :
  closed → is_Some (perms !! id) → no_gray s →
  let s' := root_step s id in
  ext s s' ∧ s'.1 !! id = Some done_ ∧
  (blacks_acc s → s'.2 = s.2 → blacks_acc s') ∧ (acyclic → s'.2 = s.2).
Proof.
  intros Hc Hin Hg. unfold root_step. destruct (s.1 !! id) as [[|]|] eqn:E; cbn zeta.
  - by apply Hg in E.
  - split; [apply ext_refl|]. done.
  - pose proof (unseen_size s).
    destruct (visit_correct (S (size perms)) Hc id s Hin E ltac:(lia)) as (H1 & H2 & H3 & H4).
    split; [exact H1|]. split; [exact H2|]. split; [exact H3|]. intros Ha. apply H4; [done|].
    intros g Hgg. by apply Hg in Hgg.
Qed.

Lemma no_gray_ext s s' : ext s s' → no_gray s → no_gray s'.
Proof. intros [_ Hg _] Hn x Hx. by apply (Hn x), Hg. Qed.

Lemma root_loop_spec ids s :
  closed → Forall (λ id, is_Some (perms !! id)) ids → no_gray s →
  let s' := foldl root_step s ids in
  ext s s' ∧ Forall (λ id, s'.1 !! id = Some done_) ids ∧
  (blacks_acc s → s'.2 = s.2 → blacks_acc s') ∧ (acyclic → s'.2 = s.2).
Proof.
  intros Hc Hin. revert s. induction Hin as [|id ids Hi _ IH]; intros s Hg; cbn.
  { split; [apply ext_refl|]. split; [constructor|]. done. }
  destruct (root_step_spec s id Hc Hi Hg) as (E1 & D1 & B1 & A1).
  destruct (IH (root_step s id)) as (E2 & D2 & B2 & A2); [by eapply no_gray_ext|].
  split; [by eapply ext_trans|]. split; [|split].
  - constructor; [by apply (ext_keep _ _ E2)|done].
  - intros Hb Hp. assert ((root_step s id).2 = s.2) as Hp1 by (by eapply ext_same_probs).
    apply B2; [by apply B1|congruence].
  - intros Ha. by rewrite A2, A1.
Qed.

Lemma Acc_acyclic x : Acc (λ b a, edge a b) x → ¬ tc edge x x.
Proof.
  induction 1 as [x _ IH]. intros Htc. inversion Htc as [? ? He|? y ? He Hyx]; subst.
  - by apply (IH x He).
  - apply (IH y He). eapply tc_r; [exact Hyx|done].
Qed.

Lemma edge_from x y : edge x y → is_Some (perms !! x).
Proof. unfold edge, requires_of. case_match; [by eexists|]. intros []%elem_of_nil. Qed.
End Search.

(** The search reports nothing exactly when the graph has no cycle. *)
Lemma requirementCycles_nil c :
  wf_catalogue c → closed (c_perms c) →
  requirementCycles c = [] ↔ acyclic (c_perms c).
Proof.
  intros [Ho Hd Hp] Hc. unfold requirementCycles.
  assert (Forall (λ id, is_Some (c_perms c !! id)) (c_order c)) as Hall.
  { apply list.Forall_forall. intros id. by apply Hd. }
  assert (no_gray ((∅, []) : search_state)) as Hg by (intros x; cbn; by rewrite lookup_empty).
  destruct (root_loop_spec (c_perms c) (c_order c) (∅, []) Hc Hall Hg) as (_ & D & B & A).
  split; [|exact A]. intros E.
  assert (blacks_acc (c_perms c) (∅, [])) as Hb by (intros x; cbn; by rewrite lookup_empty).
  specialize (B Hb E). intros a Hcyc.
  assert (is_Some (c_perms c !! a)) as Ha%Hd.
  { inversion Hcyc; subst; by eapply edge_from. }
  apply (Acc_acyclic (c_perms c) a); [|done]. apply B.
  rewrite list.Forall_forall in D. by apply D.
Qed.

Lemma unknownRequirements_nil c :
  wf_catalogue c → unknownRequirements c = [] ↔ closed (c_perms c).
Proof.
  intros [Ho Hd Hp]. unfold unknownRequirements, closed.
  rewrite concat_nil_Forall, Forall_fmap, list.Forall_forall. split.
  - intros H a b Hab. destruct (c_perms c !! b) eqn:E; [by eexists|exfalso].
    assert (a ∈ c_order c) as Ha by (apply Hd; by eapply edge_from).
    specialize (H a Ha). cbn in H.
    assert (mkProblem ProblemUnknownRequirement a ("requires unknown " +:+ b) ∈ ([] : list Problem)) as []%elem_of_nil.
    rewrite <-H. apply list_elem_of_omap. exists b. by rewrite E.
  - intros H a Ha. cbn. destruct (omap _ _) as [|x l] eqn:E; [done|exfalso].
    assert (x ∈ omap (λ r, match c_perms c !! r with
        | Some _ => None
        | None => Some (mkProblem ProblemUnknownRequirement a ("requires unknown " +:+ r))
        end) (requires_of (c_perms c) a)) as (r & Hr & Hx)%list_elem_of_omap.
    { rewrite E. apply list_elem_of_here. }
    destruct (H a r Hr) as [p Hp']. by rewrite Hp' in Hx.
Qed.
