(* ===== verification/Hierarchy.v ===== *)
(** * Scopes and the hierarchy (src/authz/hierarchy.go)

    The levels of an application, widest first, the scopes at those levels, and
    the chain of a scope: the scope followed by its ancestors up to the root. How
    the places nest is the application's: [ScopeResolver.Parent] is a parameter. *)

From S2P Require Import Prelude Apperr Catalogue.

(** ** Sentinels (src/authz/errors.go) *)

Definition ErrNoPrincipal : string := "authz: no principal in context".
Definition ErrForbidden : string := "authz: forbidden".
Definition ErrEscalation : string := "authz: escalation".
Definition ErrSelfAssignment : string := "authz: cannot assign a role to yourself".
Definition ErrLastAdmin : string := "authz: would remove last access".
Definition ErrUnknownPermission : string := "authz: unknown permission".
Definition ErrRoleNotFound : string := "authz: role not found".
Definition ErrBindingNotFound : string := "authz: binding not found".
Definition ErrScopeNotFound : string := "authz: scope not found".
Definition ErrDuplicateBinding : string := "authz: binding already exists".
Definition ErrRoleInUse : string := "authz: role is bound".
Definition ErrInvalidScope : string := "authz: invalid scope".

(** [fmt.Errorf("%w...", sentinel)] *)
Definition wrapf (sentinel text : string) : error := errorf (sentinel +:+ text) [errNew sentinel].

Lemma errors_Is_wrapf s t : errors_Is (wrapf s t) s = true.
Proof. cbn. by rewrite bool_decide_eq_true_2. Qed.

(** ** Scopes *)

Record Scope : Set := mkScope { s_Level : string; s_ID : Z }.

#[export] Instance Scope_eq_dec : EqDecision Scope.
Proof. solve_decision. Defined.

(** [Scope{}] *)
Definition zeroScope : Scope := mkScope "" 0.

Definition IsZero (s : Scope) : bool := bool_decide (s_Level s = "") && bool_decide (s_ID s = 0%Z).

(** [Scope.String] *)
Definition scope_string (s : Scope) : string :=
  if decide (s_ID s = 0%Z) then s_Level s else s_Level s +:+ ":" +:+ Str.fmt_d (s_ID s).

(** ** The hierarchy *)

Record Hierarchy : Type := mkHierarchy {
  h_levels : list string;
  h_depth : gmap string nat;
  h_tenant : string
}.

(** The loop of [NewHierarchy]; [i] is the index of the next level. *)
Fixpoint declareLevels (depth : gmap string nat) (i : nat) (levels : list string) :
    result (gmap string nat) :=
  match levels with
  | [] => Ok depth
  | l :: rest =>
      if negb (word_match l) then
        Err (errNew ("authz: level " +:+ Str.fmt_q l +:+ " must be a single lowercase word"))
      else match depth !! l with
      | Some _ => Err (errNew ("authz: level " +:+ Str.fmt_q l +:+ " declared twice"))
      | None => declareLevels (<[l := i]> depth) (S i) rest
      end
  end.

Definition needsRoot : string :=
  "authz: a hierarchy needs at least a root level, for example NewHierarchy(" +:+
  Str.fmt_q "organization" +:+ ")".

Definition NewHierarchy (levels : list string) : result Hierarchy :=
  match levels with
  | [] => Err (errNew needsRoot)
  | _ => depth ← declareLevels ∅ 0 levels; Ok (mkHierarchy levels depth "")
  end.

Definition WithTenantLevel (h : Hierarchy) (level : string) : result Hierarchy :=
  match h_depth h !! level with
  | None => Err (errNew ("authz: tenant level " +:+ Str.fmt_q level +:+ " is not a level"))
  | Some O => Err (errNew "authz: the root level cannot be the tenant level")
  | Some (S _) => Ok (mkHierarchy (h_levels h) (h_depth h) level)
  end.

(** [h.levels[0]]; a constructed hierarchy has a first level. *)
Definition RootLevel (h : Hierarchy) : string := nth 0 (h_levels h) "".
Definition LeafLevel (h : Hierarchy) : string := nth (length (h_levels h) - 1) (h_levels h) "".
Definition TenantLevel (h : Hierarchy) : string := h_tenant h.
Definition Root (h : Hierarchy) : Scope := mkScope (RootLevel h) 0.
Definition Depth (h : Hierarchy) (level : string) : option nat := h_depth h !! level.
Definition IsRoot (h : Hierarchy) (s : Scope) : bool := bool_decide (s_Level s = RootLevel h).

Definition CheckScope (h : Hierarchy) (s : Scope) : result () :=
  match h_depth h !! s_Level s with
  | None => Err (wrapf ErrInvalidScope (": unknown level " +:+ Str.fmt_q (s_Level s)))
  | Some d =>
      if (d =? 0)%nat && negb (s_ID s =? 0)%Z then
        Err (wrapf ErrInvalidScope (": the " +:+ s_Level s +:+ " scope has no ID"))
      else if (0 <? d)%nat && (s_ID s <=? 0)%Z then
        Err (wrapf ErrInvalidScope (": " +:+ s_Level s +:+ " needs a positive ID"))
      else Ok ()
  end.

(** [Hierarchy.Wider]: a missing level reads as depth 0. *)
Definition Wider (h : Hierarchy) (a b : string) : bool :=
  (default 0 (h_depth h !! a) <? default 0 (h_depth h !! b))%nat.

(** ** Chains *)

Definition Chain : Type := list Scope.

Definition Chain_Scope (c : Chain) : Scope :=
  match c with [] => zeroScope | s :: _ => s end.

Definition Within (c : Chain) (s : Scope) : bool := contains c s.

(** [findLevel], and [Chain.At], which is the same search over a chain. *)
Fixpoint findLevel (scopes : list Scope) (level : string) : option Scope :=
  match scopes with
  | [] => None
  | s :: rest => if decide (s_Level s = level) then Some s else findLevel rest level
  end.

Definition At (c : Chain) (level : string) : option Scope := findLevel c level.

(** [tenantOf] *)
Definition tenantOf (h : Hierarchy) (c : Chain) : option Scope :=
  if decide (h_tenant h = "") then None else At c (h_tenant h).

Section WithResolver.
(** [ScopeResolver.Parent], implemented by the application. *)
Context (Parent : Scope → result Scope).

(** One round of the loop of [Hierarchy.Chain]: the next scope and whether it
    was known. *)
Definition chain_next (h : Hierarchy) (known : list Scope) (cur : Scope) (curKnown : bool) :
    result (Scope * bool) :=
  let want := nth (default 0 (h_depth h !! s_Level cur) - 1) (h_levels h) "" in
  match findLevel known want with
  | Some next => Ok (next, true)
  | None =>
      if curKnown && bool_decide (want = RootLevel h) then Ok (Root h, true)
      else match Parent cur with
      | Err e => Err (errorf ("authz: parent of " +:+ scope_string cur +:+ ": " +:+ error_text e) [e])
      | Ok next =>
          if decide (s_Level next ≠ want) then
            Err (wrapf ErrInvalidScope (": parent of " +:+ scope_string cur +:+ " is " +:+
                   scope_string next +:+ ", expected level " +:+ Str.fmt_q want))
          else _ ← CheckScope h next; Ok (next, false)
      end
  end.

(** The loop; [None] only when the fuel runs out. *)
Fixpoint chain_loop (h : Hierarchy) (known : list Scope) (fuel : nat) (chain : Chain)
    (cur : Scope) (curKnown : bool) : option (result Chain) :=
  if IsRoot h cur then Some (Ok chain) else
  match fuel with
  | O => None
  | S f =>
      match chain_next h known cur curKnown with
      | Err e => Some (Err e)
      | Ok (next, ok) => chain_loop h known f (chain ++ [next]) next ok
      end
  end.

(** The loop checking the known ancestors. *)
Fixpoint checkKnown (h : Hierarchy) (known : list Scope) : result () :=
  match known with
  | [] => Ok ()
  | k :: rest => _ ← CheckScope h k; checkKnown h rest
  end.

Definition outOfFuel : error := errNew "out of fuel".

(** [Hierarchy.Chain]; the loop climbs one level a round, so the number of
    levels is enough fuel ([Chain_fuel_enough]). *)
Definition ChainOf (h : Hierarchy) (s : Scope) (known : list Scope) : result Chain :=
  _ ← CheckScope h s;
  _ ← checkKnown h known;
  default (Err outOfFuel) (chain_loop h known (length (h_levels h)) [s] s false).
End WithResolver.

(** ** Well-formed hierarchies *)

Record wf_hierarchy (h : Hierarchy) : Prop := {
  wfh_root : h_levels h ≠ [];
  wfh_depth : ∀ l i, h_depth h !! l = Some i ↔ h_levels h !! i = Some l
}.

Lemma declareLevels_spec levels depth i depth' :
  declareLevels depth i levels = Ok depth' →
  (∀ l j, depth' !! l = Some j ↔
     depth !! l = Some j ∨ ∃ k, levels !! k = Some l ∧ j = (i + k)%nat) ∧
  Forall (λ l, word_match l = true ∧ depth !! l = None) levels ∧ NoDup levels.
Proof.
  revert depth i. induction levels as [|l ls IH]; intros depth i; cbn.
  { intros [= <-]. split; [|by repeat constructor]. intros l j. split; [by left|].
    intros [?|(k & Hk & _)]; [done|]. by rewrite lookup_nil in Hk. }
  destruct (word_match l) eqn:Hw; [cbn|done].
  destruct (depth !! l) eqn:Hl; [done|]. intros H.
  destruct (IH _ _ H) as (IHd & IHw & IHn). split; [|split].
  - intros l' j. rewrite IHd, lookup_insert_Some. split.
    + intros [[[<- <-]|[? ?]]|(k & Hk & ->)]; [right; exists 0; by rewrite Nat.add_0_r| by left|].
      right. exists (S k). split; [done|lia].
    + intros [Hd|([|k] & Hk & ->)].
      * left. right. split; [congruence|done].
      * left. left. cbn in Hk. split; [congruence|lia].
      * right. exists k. split; [done|lia].
  - constructor; [done|]. eapply list.Forall_impl; [exact IHw|].
    cbn. intros x [? Hx]. split; [done|]. rewrite lookup_insert_None in Hx. tauto.
  - constructor; [|done]. intros Hin. rewrite list.Forall_forall in IHw.
    destruct (IHw l Hin) as [_ Hx]. by rewrite lookup_insert_eq in Hx.
Qed.

Lemma NewHierarchy_wf levels h :
  NewHierarchy levels = Ok h →
  wf_hierarchy h ∧ h_levels h = levels ∧ NoDup levels ∧ Forall (λ l, word_match l = true) levels.
Proof.
  unfold NewHierarchy. intros H. destruct levels as [|l ls]; [done|].
  apply outcome_bind_Ok in H as (depth & Hd & [= <-]).
  destruct (declareLevels_spec _ _ _ _ Hd) as (H1 & H2 & H3). cbn.
  split; [|split; [done|split; [done|]]].
  - split; cbn; [done|]. intros l' i. rewrite H1, lookup_empty. naive_solver.
  - eapply list.Forall_impl; [exact H2|]. naive_solver.
Qed.

Section Levels.
Context (h : Hierarchy) (Hwf : wf_hierarchy h).

Lemma wfh_depth_inj l1 l2 i : h_depth h !! l1 = Some i → h_depth h !! l2 = Some i → l1 = l2.
Proof. rewrite !(wfh_depth h Hwf). congruence. Qed.

Lemma RootLevel_depth : h_depth h !! RootLevel h = Some 0.
Proof.
  apply (wfh_depth h Hwf). unfold RootLevel. pose proof (wfh_root h Hwf).
  by destruct (h_levels h).
Qed.

Lemma IsRoot_depth s : IsRoot h s = true ↔ h_depth h !! s_Level s = Some 0.
Proof.
  unfold IsRoot. rewrite bool_decide_eq_true. split.
  - intros ->. apply RootLevel_depth.
  - intros H. eapply wfh_depth_inj; [exact H|apply RootLevel_depth].
Qed.

Lemma CheckScope_Ok s :
  CheckScope h s = Ok () ↔
  ∃ d, h_depth h !! s_Level s = Some d ∧ (d = 0 → s_ID s = 0%Z) ∧ (d ≠ 0 → (0 < s_ID s)%Z).
Proof.
  unfold CheckScope. destruct (h_depth h !! s_Level s) as [[|d]|]; cbn.
  - destruct (Z.eqb_spec (s_ID s) 0); cbn; split; [|done| |]; try done.
    + intros _. exists 0. naive_solver.
    + intros (d & [= <-] & H0 & _). by destruct n; apply H0.
  - destruct (Z.leb_spec (s_ID s) 0); split; [done| | |done].
    + intros (? & [= <-] & _ & H1). specialize (H1 ltac:(lia)). lia.
    + intros _. exists (S d). naive_solver lia.
  - split; [done|]. naive_solver.
Qed.

Lemma CheckScope_Root : CheckScope h (Root h) = Ok ().
Proof. apply CheckScope_Ok. exists 0. cbn. split; [apply RootLevel_depth|]. naive_solver lia. Qed.

(** A checked scope at the root level is the root scope. *)
Lemma checked_root s : CheckScope h s = Ok () → IsRoot h s = true → s = Root h.
Proof.
  rewrite CheckScope_Ok, IsRoot_depth. intros (d & Hd & H0 & _) Hr.
  rewrite Hd in Hr. injection Hr as ->. destruct s as [l i]; cbn in *.
  rewrite H0 by done. unfold Root. f_equal. eapply wfh_depth_inj; [exact Hd|apply RootLevel_depth].
Qed.

Lemma findLevel_Some scopes level s :
  findLevel scopes level = Some s → s ∈ scopes ∧ s_Level s = level.
Proof.
  induction scopes as [|x xs IH]; cbn; [done|]. case_decide.
  - intros [= <-]. split; [apply list_elem_of_here|done].
  - intros Hf. destruct (IH Hf). split; [by right|done].
Qed.

Lemma findLevel_None scopes level :
  findLevel scopes level = None ↔ ∀ s, s ∈ scopes → s_Level s ≠ level.
Proof.
  induction scopes as [|x xs IH]; cbn.
  - split; [|done]. intros _ s Hs. by apply elem_of_nil in Hs.
  - case_decide.
    + split; [done|]. intros Hall. exfalso. by apply (Hall x); [apply list_elem_of_here|].
    + rewrite IH. setoid_rewrite elem_of_cons. naive_solver.
Qed.
End Levels.

(** ** Correctness of chains *)

Section Chains.
Context (Parent : Scope → result Scope) (h : Hierarchy) (Hwf : wf_hierarchy h).

Definition checked (s : Scope) : Prop := CheckScope h s = Ok ().

Lemma checkKnown_Ok known : checkKnown h known = Ok () ↔ Forall checked known.
Proof.
  induction known as [|k ks IH]; cbn; [by split; repeat constructor|].
  rewrite list.Forall_cons, <-IH. unfold checked. destruct (CheckScope h k) as [[]|e]; cbn; naive_solver.
Qed.

Lemma chain_next_spec known cur curKnown d next ok :
  Forall checked known → h_depth h !! s_Level cur = Some (S d) →
  chain_next Parent h known cur curKnown = Ok (next, ok) →
  h_depth h !! s_Level next = Some d ∧ checked next.
Proof.
  intros Hk Hd. unfold chain_next. rewrite Hd. cbn. rewrite Nat.sub_0_r.
  assert (h_levels h !! S d = Some (s_Level cur)) as Hl by (by apply (wfh_depth h Hwf)).
  destruct (lookup_lt_is_Some_2 (h_levels h) d) as [want Hw].
  { apply lookup_lt_Some in Hl. lia. }
  rewrite (nth_lookup_Some _ _ _ _ Hw).
  assert (h_depth h !! want = Some d) as Hwd by (by apply (wfh_depth h Hwf)).
  destruct (findLevel known want) as [n|] eqn:Ef.
  - intros [= <- <-]. apply findLevel_Some in Ef as [Hin Hlev].
    rewrite list.Forall_forall in Hk. split; [by rewrite Hlev|by apply Hk].
  - case_match eqn:Ec.
    + intros [= <- <-]. apply andb_true_iff in Ec as [_ Er%bool_decide_eq_true].
      cbn. rewrite <-Er. split; [done|by apply CheckScope_Root].
    + destruct (Parent cur) as [n|e]; [|done]. destruct (decide (s_Level n ≠ want)) as [|Hn]; [done|].
      intros ([] & Hchk & [= <- <-])%outcome_bind_Ok.
      destruct (decide (s_Level n = want)) as [Hlev|]; [|by destruct Hn].
      by rewrite Hlev.
Qed.

(** From a scope at depth [d] the loop ends within [d] rounds, and appends one
    checked scope per level above. *)
Lemma chain_loop_spec known d fuel chain cur curKnown :
  Forall checked known → h_depth h !! s_Level cur = Some d → d <= fuel →
  ∃ r, chain_loop Parent h known fuel chain cur curKnown = Some r ∧
    ∀ c, r = Ok c → ∃ rest, c = chain ++ rest ∧
      s_Level <$> rest = reverse (take d (h_levels h)) ∧ Forall checked rest.
Proof.
  intros Hk. revert d chain cur curKnown.
  induction fuel as [|f IH]; intros d chain cur curKnown Hd Hf; cbn [chain_loop].
  - assert (d = 0) as -> by lia. rewrite (proj2 (IsRoot_depth h Hwf cur)) by done.
    eexists. split; [done|]. intros c [= <-]. exists []. by rewrite app_nil_r.
  - destruct d as [|d].
    { rewrite (proj2 (IsRoot_depth h Hwf cur)) by done.
      eexists. split; [done|]. intros c [= <-]. exists []. by rewrite app_nil_r. }
    destruct (IsRoot h cur) eqn:Er.
    { apply (IsRoot_depth h Hwf) in Er. congruence. }
    destruct (chain_next Parent h known cur curKnown) as [[next ok]|e] eqn:En; [|by eexists].
    destruct (chain_next_spec known cur curKnown d next ok Hk Hd En) as [Hnd Hnc].
    destruct (IH d (chain ++ [next]) next ok Hnd ltac:(lia)) as (r & Hr & Hc).
    exists r. split; [done|]. intros c Hrc. destruct (Hc c Hrc) as (rest & -> & Hl & Hch).
    exists (next :: rest). rewrite <-app_assoc. split; [done|]. split; [|by constructor].
    apply (wfh_depth h Hwf) in Hnd. rewrite (take_S_r _ _ _ Hnd), reverse_app, fmap_cons, Hl. done.
Qed.

(** The fuel given by [ChainOf] is enough. *)
Lemma Chain_fuel_enough known s :
  Forall checked known → checked s →
  is_Some (chain_loop Parent h known (length (h_levels h)) [s] s false).
Proof.
  intros Hk Hs. apply CheckScope_Ok in Hs as (d & Hd & _).
  destruct (chain_loop_spec known d (length (h_levels h)) [s] s false Hk Hd) as (r & -> & _).
  { apply (wfh_depth h Hwf), lookup_lt_Some in Hd. lia. }
  by eexists.
Qed.

Lemma ChainOf_inv s known c :
  ChainOf Parent h s known = Ok c →
  checked s ∧ Forall checked known ∧
  chain_loop Parent h known (length (h_levels h)) [s] s false = Some (Ok c).
Proof.
  unfold ChainOf. intros ([] & Hs & ([] & Hk & H)%outcome_bind_Ok)%outcome_bind_Ok.
  apply checkKnown_Ok in Hk. split; [done|]. split; [done|].
  destruct (Chain_fuel_enough known s Hk Hs) as [r Hr]. rewrite Hr in H |- *. cbn in H. by subst.
Qed.

Lemma ChainOf_spec s known c :
  ChainOf Parent h s known = Ok c →
  ∃ d rest, h_depth h !! s_Level s = Some d ∧ c = s :: rest ∧
    s_Level <$> c = reverse (take (S d) (h_levels h)) ∧ Forall checked c.
Proof.
  intros (Hs & Hk & H)%ChainOf_inv. pose proof Hs as (d & Hd & _)%CheckScope_Ok.
  destruct (chain_loop_spec known d (length (h_levels h)) [s] s false Hk Hd) as (r & Hr & Hc).
  { apply (wfh_depth h Hwf), lookup_lt_Some in Hd. lia. }
  rewrite H in Hr. injection Hr as <-. destruct (Hc c eq_refl) as (rest & -> & Hl & Hch).
  exists d, rest. split; [done|]. split; [done|]. split; [|by constructor].
  apply (wfh_depth h Hwf) in Hd. rewrite (take_S_r _ _ _ Hd), reverse_app. cbn. by rewrite Hl.
Qed.

(** The chain ends at the root scope. *)
Lemma ChainOf_last s known c : ChainOf Parent h s known = Ok c → list.last c = Some (Root h).
Proof.
  intros (d & rest & Hd & -> & Hl & Hc)%ChainOf_spec.
  destruct (list.last (s :: rest)) as [x|] eqn:E; [|by apply last_None in E].
  f_equal. apply (checked_root h Hwf).
  - rewrite list.Forall_forall in Hc. apply Hc. by eapply last_Some_elem_of.
  - apply (f_equal list.last) in Hl. rewrite fmap_last, E, last_reverse in Hl. cbn in Hl.
    pose proof (wfh_root h Hwf). unfold IsRoot, RootLevel.
    destruct (h_levels h) as [|l0 ls]; [done|]. cbn in *. rewrite bool_decide_eq_true. congruence.
Qed.

Lemma ChainOf_Root_in s known c : ChainOf Parent h s known = Ok c → Root h ∈ c.
Proof. intros H%ChainOf_last. by eapply last_Some_elem_of. Qed.

(** *** Chains of ancestors *)

Definition prepend (pre : Chain) (r : option (result Chain)) : option (result Chain) :=
  match r with Some (Ok c) => Some (Ok (pre ++ c)) | _ => r end.

Lemma chain_loop_app f pre chain cur b :
  chain_loop Parent h [] f (pre ++ chain) cur b =
  prepend pre (chain_loop Parent h [] f chain cur b).
Proof.
  revert chain cur b. induction f as [|f IH]; intros chain cur b; cbn [chain_loop]; [by case_match|].
  case_match; [done|]. destruct (chain_next Parent h [] cur b) as [[n o]|e]; [|done].
  rewrite <-IH. by rewrite app_assoc.
Qed.

Lemma chain_loop_mono known f f' chain cur b r :
  f <= f' → chain_loop Parent h known f chain cur b = Some r →
  chain_loop Parent h known f' chain cur b = Some r.
Proof.
  revert f' chain cur b. induction f as [|f IH]; intros f' chain cur b Hf.
  - cbn. case_match eqn:E; [|done]. intros [= <-]. destruct f'; cbn; by rewrite E.
  - destruct f' as [|f']; [lia|]. cbn. case_match; [done|].
    destruct (chain_next Parent h known cur b) as [[n o]|e]; [|done]. apply IH. lia.
Qed.

Lemma chain_next_unknown cur next ok : chain_next Parent h [] cur false = Ok (next, ok) → ok = false.
Proof.
  unfold chain_next. cbn. destruct (Parent cur) as [n|]; [|done]. case_decide; [done|].
  by intros (_ & _ & [= _ <-])%outcome_bind_Ok.
Qed.

Lemma ChainOf_tail s x c :
  ChainOf Parent h s [] = Ok (s :: x :: c) → ChainOf Parent h x [] = Ok (x :: c).
Proof.
  intros H. pose proof H as (d & rest & _ & Hr & _ & Hc)%ChainOf_spec.
  apply ChainOf_inv in H as (_ & _ & H). injection Hr as <-.
  assert (checked x) as Hx by (apply list.Forall_cons in Hc as [_ [Hx _]%list.Forall_cons]; done).
  destruct (length (h_levels h)) as [|f] eqn:El; cbn [chain_loop] in H.
  { case_match; simplify_eq. }
  case_match; [simplify_eq|].
  destruct (chain_next Parent h [] s false) as [[n o]|e] eqn:En; [|done].
  pose proof (chain_next_unknown _ _ _ En) as ->.
  change ([s; n]) with ([s] ++ [n]) in H. rewrite chain_loop_app in H.
  destruct (chain_loop Parent h [] f [n] n false) as [[c'|]|] eqn:Ec; [|done..].
  cbn in H. injection H as Hc'.
  assert (n = x) as ->.
  { destruct f; cbn [chain_loop] in Ec; case_match; [|done| |]; simplify_eq/=; [done|done|].
    destruct (chain_next Parent h [] n false) as [[n' o']|]; [|done].
    change ([n; n']) with ([n] ++ [n']) in Ec. rewrite chain_loop_app in Ec.
    destruct (chain_loop Parent h [] f [n'] n' o') as [[c''|]|]; [|done..].
    cbn in Ec. by simplify_eq/=. }
  unfold ChainOf. rewrite Hx. cbn [mbind outcome_bind checkKnown]. rewrite El.
  rewrite (chain_loop_mono [] f (S f) _ _ _ _ ltac:(lia) Ec). cbn. by rewrite Hc'.
Qed.

(** The chain of an ancestor is the rest of the chain from it on. *)
Lemma ChainOf_suffix s c i x :
  ChainOf Parent h s [] = Ok c → c !! i = Some x → ChainOf Parent h x [] = Ok (drop i c).
Proof.
  revert s c. induction i as [|i IH]; intros s c H Hi.
  - pose proof H as (d & rest & _ & -> & _)%ChainOf_spec. cbn in Hi. by injection Hi as <-.
  - pose proof H as (d & rest & _ & -> & _)%ChainOf_spec. cbn in Hi.
    destruct rest as [|y rest]; [done|]. cbn. eapply IH; [|exact Hi]. by eapply ChainOf_tail.
Qed.

(** Containment is transitive. *)
Lemma Within_trans s c a ca b :
  ChainOf Parent h s [] = Ok c → Within c a = true →
  ChainOf Parent h a [] = Ok ca → Within ca b = true → Within c b = true.
Proof.
  unfold Within. rewrite !contains_spec. intros Hs Ha Hca Hb.
  apply list_elem_of_lookup in Ha as [i Hi]. rewrite (ChainOf_suffix s c i a Hs Hi) in Hca.
  injection Hca as <-. apply list_elem_of_lookup in Hb as [j Hj]. rewrite lookup_drop in Hj.
  by eapply list_elem_of_lookup_2.
Qed.

(** A chain has one scope of a level. *)
Lemma ChainOf_level_inj s known c x y :
  ChainOf Parent h s known = Ok c → x ∈ c → y ∈ c → s_Level x = s_Level y → x = y.
Proof.
  intros (d & rest & _ & _ & Hl & _)%ChainOf_spec [i Hi]%list_elem_of_lookup [j Hj]%list_elem_of_lookup E.
  assert (NoDup (s_Level <$> c)) as Hnd.
  { rewrite Hl. rewrite reverse_Permutation. apply (sublist_NoDup _ (h_levels h)); [|apply sublist_take].
    apply NoDup_alt. intros a b l Ha%(wfh_depth h Hwf) Hb%(wfh_depth h Hwf). congruence. }
  assert (i = j) as ->; [|congruence].
  apply (NoDup_lookup _ _ _ (s_Level x) Hnd); rewrite list_lookup_fmap; [by rewrite Hi|rewrite Hj; cbn; by rewrite E].
Qed.

(** A tenant found from a scope of a chain on is the tenant of the whole chain. *)
Lemma tenantOf_within s c a ca t :
  ChainOf Parent h s [] = Ok c → Within c a = true → ChainOf Parent h a [] = Ok ca →
  tenantOf h ca = Some t → tenantOf h c = Some t.
Proof.
  unfold Within, tenantOf, At. rewrite contains_spec. intros Hs [i Hi]%list_elem_of_lookup Hca.
  rewrite (ChainOf_suffix s c i a Hs Hi) in Hca. injection Hca as <-. case_decide; [done|].
  intros [Hin Hlev]%findLevel_Some. apply list_elem_of_lookup in Hin as [j Hj]. rewrite lookup_drop in Hj.
  apply list_elem_of_lookup_2 in Hj. destruct (findLevel c (h_tenant h)) as [t'|] eqn:Ef.
  - apply findLevel_Some in Ef as [Hin' Hlev']. f_equal. apply (ChainOf_level_inj s [] c); [done..|congruence].
  - rewrite findLevel_None in Ef. by destruct (Ef t Hj).
Qed.

(** The chain of the root is the root alone. *)
Lemma ChainOf_Root : ChainOf Parent h (Root h) [] = Ok [Root h].
Proof.
  unfold ChainOf. rewrite (CheckScope_Root h Hwf). cbn [mbind outcome_bind checkKnown].
  assert (IsRoot h (Root h) = true) as Hr by (unfold IsRoot; by apply bool_decide_eq_true).
  destruct (length (h_levels h)); cbn [chain_loop]; by rewrite Hr.
Qed.
End Chains.
