(* ===== verification/Role.v ===== *)
(** * Roles, principals and bindings
    (src/authz/qualifier.go, role.go, computed.go, principal.go, binding.go)

    Qualifiers say whose records a grant reaches; a role is a set of grants, or is
    computed from the catalogue; a binding gives a subject a role at a scope. *)

From S2P Require Import Prelude Apperr Catalogue Hierarchy.

(** ** Qualifiers

    An int in Go: the three named values, and any other number, which is invalid. *)

Notation Qualifier := Z (only parsing).
Definition QualifierOwn : Qualifier := 1%Z.
Definition QualifierOwnLocation : Qualifier := 2%Z.
Definition QualifierAll : Qualifier := 3%Z.

(** [Qualifier.String] *)
Definition qualifier_string (q : Qualifier) : string :=
  if (q =? QualifierOwn)%Z then "own"
  else if (q =? QualifierOwnLocation)%Z then "own_location"
  else if (q =? QualifierAll)%Z then "all"
  else "invalid".

(** [Qualifier.Valid] *)
Definition q_Valid (q : Qualifier) : bool := (QualifierOwn <=? q)%Z && (q <=? QualifierAll)%Z.

(** [Qualifier.Covers] *)
Definition Covers (q other : Qualifier) : bool := (q =? QualifierAll)%Z || (q =? other)%Z.
Arguments Covers : simpl never.

Fixpoint parseQualifier_loop (qs : list Qualifier) (s : string) : option Qualifier :=
  match qs with
  | [] => None
  | q :: rest => if decide (qualifier_string q = s) then Some q else parseQualifier_loop rest s
  end.

Definition ParseQualifier (s : string) : result Qualifier :=
  match parseQualifier_loop [QualifierOwn; QualifierOwnLocation; QualifierAll] s with
  | Some q => Ok q
  | None => Err (errNew ("authz: unknown qualifier " +:+ Str.fmt_q s))
  end.

(** [Qualifier.MarshalText] *)
Definition MarshalText (q : Qualifier) : result string :=
  if q_Valid q then Ok (qualifier_string q)
  else Err (errNew ("authz: invalid qualifier " +:+ Str.fmt_d q)).

(** [Qualifier.UnmarshalText]: the new value of the receiver. *)
Definition UnmarshalText (b : string) : result Qualifier := ParseQualifier b.

(** ** Grants and roles *)

Record Grant : Type := mkGrant { g_Permission : string; g_Qualifier : Qualifier }.

#[export] Instance Grant_eq_dec : EqDecision Grant.
Proof. solve_decision. Defined.

Definition Grants (q : Qualifier) (permissions : list string) : list Grant :=
  (λ p, mkGrant p q) <$> permissions.

(** [CheckQualifiers] *)
Definition CheckQualifiers (grants : list Grant) : result () :=
  match omap (λ g, if q_Valid (g_Qualifier g) then None
               else Some (mkProblem ProblemInvalidQualifier (g_Permission g)
                            ("qualifier " +:+ Str.fmt_d (g_Qualifier g)))) grants with
  | [] => Ok ()
  | problems => Err (BadRequestFrom (errValidation problems))
  end.

Definition Selector : Type := Permission → bool.

Record Role : Type := mkRole {
  r_ID : Z;
  r_Key : string;
  r_Name : string;
  r_Description : string;
  r_Grants : list Grant;
  r_Attrs : gmap string (list string);
  r_Computed : option Selector
}.

(** [Role{}] *)
Definition zeroRole : Role := mkRole 0 "" "" "" [] ∅ None.

(** [Role.Predefined] *)
Definition Predefined (r : Role) : bool := bool_decide (r_Key r ≠ "").

Record RoleRef : Set := mkRoleRef { ref_ID : Z; ref_Key : string }.

#[export] Instance RoleRef_eq_dec : EqDecision RoleRef.
Proof. solve_decision. Defined.

#[export] Instance RoleRef_countable : Countable RoleRef.
Proof.
  apply (inj_countable' (λ r, (ref_ID r, ref_Key r)) (λ p, mkRoleRef p.1 p.2)). by intros [].
Defined.

(** [Role.Ref] *)
Definition Ref (r : Role) : RoleRef := mkRoleRef (r_ID r) (r_Key r).

(** [RoleRef.Valid]: exactly one of the two is set. *)
Definition ref_Valid (r : RoleRef) : bool :=
  negb (Bool.eqb (0 <? ref_ID r)%Z (bool_decide (ref_Key r ≠ ""))).

(** *** Computed roles *)

Definition IsSystem : Selector := p_System.
Definition IsSensitive : Selector := p_Sensitive.
Definition IsOrganizationOnly : Selector := p_OrganizationOnly.
Definition IsView : Selector := λ p, bool_decide (Verb p = "view").
Definition All : Selector := λ _, true.

Fixpoint AllExcept (exclude : list Selector) : Selector := λ p,
  match exclude with
  | [] => true
  | e :: rest => if e p then false else AllExcept rest p
  end.

Definition Matching (pred : Selector) : Selector := pred.

Fixpoint Both (selectors : list Selector) : Selector := λ p,
  match selectors with
  | [] => true
  | s :: rest => if s p then Both rest p else false
  end.

Definition ComputedRole (key name : string) (sel : Selector) : Role :=
  mkRole 0 key name "" [] ∅ (Some sel).

(** *** Resolve *)

(** [Role.Resolve]: the explicit grants, or one All grant per selected permission
    in catalogue order. *)
Definition Resolve (r : Role) (cat : Catalogue) : list Grant :=
  match r_Computed r with
  | None => r_Grants r
  | Some sel => (λ p, mkGrant (p_ID p) QualifierAll) <$> List.filter sel (All_perms cat)
  end.

(** *** Validate *)

(** The grant loop of [Role.Validate]: the permissions held so far and the
    problems found. *)
Fixpoint validateGrants (cat : Catalogue) (held : gmap string Qualifier) (grants : list Grant) :
    gmap string Qualifier * list Problem :=
  match grants with
  | [] => (held, [])
  | g :: rest =>
      match Lookup cat (g_Permission g) with
      | None =>
          let (h, ps) := validateGrants cat held rest in
          (h, mkProblem ProblemUnknownPermission (g_Permission g) "" :: ps)
      | Some p =>
          if negb (q_Valid (g_Qualifier g)) then
            let (h, ps) := validateGrants cat held rest in
            (h, mkProblem ProblemInvalidQualifier (g_Permission g)
                  ("qualifier " +:+ Str.fmt_d (g_Qualifier g)) :: ps)
          else
            let notAllowed :=
              if negb (Ownable p) && negb (g_Qualifier g =? QualifierAll)%Z
              then [mkProblem ProblemQualifierNotAllowed (g_Permission g)
                      (qualifier_string (g_Qualifier g) +:+ " on a permission that is not ownable")]
              else [] in
            match held !! g_Permission g with
            | Some _ =>
                let (h, ps) := validateGrants cat held rest in
                (h, notAllowed ++ mkProblem ProblemDuplicateGrant (g_Permission g) "" :: ps)
            | None =>
                let (h, ps) := validateGrants cat (<[g_Permission g := g_Qualifier g]> held) rest in
                (h, notAllowed ++ ps)
            end
      end
  end.

(** The problems of one requirement [req] of the held permission [id]. *)
Definition validateRequirement (cat : Catalogue) (held : gmap string Qualifier)
    (id : string) (p : Permission) (q : Qualifier) (req : string) : list Problem :=
  match held !! req with
  | None => [mkProblem ProblemMissingRequired id ("requires " +:+ req)]
  | Some rq =>
      let rp := default (zeroPermission "") (Lookup cat req) in
      if Ownable p && Ownable rp && negb (Covers rq q) then
        [mkProblem ProblemRequiredTooNarrow id
           (req +:+ " is " +:+ qualifier_string rq +:+ " but " +:+ id +:+ " is " +:+ qualifier_string q)]
      else []
  end.

(** The loop over the held permissions, in sorted order. *)
Definition validateRequires (cat : Catalogue) (held : gmap string Qualifier) : list Problem :=
  concat ((λ id,
    let p := default (zeroPermission "") (Lookup cat id) in
    let q := default 0%Z (held !! id) in
    concat (validateRequirement cat held id p q <$> p_Requires p)) <$> sorted_keys held).

(** The loop over the attribute constraints, in sorted order. *)
Definition validateAttrs (cat : Catalogue) (attrs : gmap string (list string)) : list Problem :=
  concat ((λ key,
    if negb (contains (AttributeKeys cat) key) then [mkProblem ProblemUnknownAttribute "" key]
    else match default [] (attrs !! key) with
         | [] => [mkProblem ProblemEmptyAttribute ""
                    (key +:+ ": an empty list would match nothing; leave the key out to allow all")]
         | _ => []
         end) <$> sorted_keys attrs).

Definition role_problems (r : Role) (cat : Catalogue) : list Problem :=
  let (held, grantProblems) := validateGrants cat ∅ (Resolve r cat) in
  (if decide (r_Name r = "") then [mkProblem ProblemInvalidRole "" "name is required"] else []) ++
  (if bool_decide (r_Key r ≠ "") && negb (word_match (r_Key r))
   then [mkProblem ProblemInvalidRole "" ("key " +:+ Str.fmt_q (r_Key r) +:+ " must be a single lowercase word")]
   else []) ++
  (if bool_decide (is_Some (r_Computed r)) && negb (bool_decide (r_Grants r = []))
   then [mkProblem ProblemComputedWithGrants "" "a computed role has no explicit grants"] else []) ++
  grantProblems ++ validateRequires cat held ++ validateAttrs cat (r_Attrs r).

(** [Role.Validate] *)
Definition ValidateRole (r : Role) (cat : Catalogue) : result () := asValidation (role_problems r cat).

(** ** Principals and bindings *)

Notation Kind := string (only parsing).
Definition KindUser : Kind := "user".
Definition KindServiceAccount : Kind := "service".

(** [Kind.Valid] *)
Definition kind_Valid (k : Kind) : bool :=
  bool_decide (k = KindUser) || bool_decide (k = KindServiceAccount).

Record Subject : Type := mkSubject { sub_Kind : Kind; sub_ID : Z }.

#[export] Instance Subject_eq_dec : EqDecision Subject.
Proof. solve_decision. Defined.

#[export] Instance Subject_countable : Countable Subject.
Proof.
  apply (inj_countable' (λ s, (sub_Kind s, sub_ID s)) (λ p, mkSubject p.1 p.2)). by intros [].
Defined.

(** [Subject.String] *)
Definition subject_string (s : Subject) : string :=
  sub_Kind s +:+ ":" +:+ Str.fmt_d (sub_ID s).

Definition sub_Valid (s : Subject) : bool := kind_Valid (sub_Kind s) && (0 <? sub_ID s)%Z.

Record Principal : Type := mkPrincipal { pr_Subject : Subject; pr_Location : Z }.

#[export] Instance Principal_eq_dec : EqDecision Principal.
Proof. solve_decision. Defined.

(** The constructors [User] and [ServiceAccount]. *)
Definition User (id location : Z) : Principal := mkPrincipal (mkSubject KindUser id) location.
Definition ServiceAccount (id : Z) : Principal := mkPrincipal (mkSubject KindServiceAccount id) 0.

(** A request's context, as far as authorization reads it: the principal that
    [WithPrincipal] stored. *)
Definition context : Type := option Principal.
Definition WithPrincipal (p : Principal) : context := Some p.

(** [PrincipalFrom]: an invalid subject counts as none. *)
Definition PrincipalFrom (ctx : context) : option Principal :=
  match ctx with
  | Some p => if sub_Valid (pr_Subject p) then Some p else None
  | None => None
  end.

Record Binding : Type := mkBinding {
  b_ID : Z;
  b_Subject : Subject;
  b_Role : RoleRef;
  b_Scope : Scope;
  b_CreatedBy : Z;
  b_CreatedAt : Z
}.

#[export] Instance Binding_eq_dec : EqDecision Binding.
Proof. solve_decision. Defined.

(** ** What Validate accepts *)

(** A grant that holds up against the catalogue. *)
Definition grant_ok (cat : Catalogue) (g : Grant) : Prop :=
  ∃ p, Lookup cat (g_Permission g) = Some p ∧ q_Valid (g_Qualifier g) = true ∧
       (Ownable p = false → g_Qualifier g = QualifierAll).

(** The specification of a valid role, without the order of the checks. *)
Record valid_role (cat : Catalogue) (r : Role) : Prop := {
  vr_name : r_Name r ≠ "";
  vr_key : r_Key r ≠ "" → word_match (r_Key r) = true;
  vr_computed : is_Some (r_Computed r) → r_Grants r = [];
  vr_grants : Forall (grant_ok cat) (Resolve r cat);
  vr_nodup : NoDup (g_Permission <$> Resolve r cat);
  vr_requires : ∀ g p req, g ∈ Resolve r cat → Lookup cat (g_Permission g) = Some p →
    req ∈ p_Requires p →
    ∃ g', g' ∈ Resolve r cat ∧ g_Permission g' = req ∧
      (∀ rp, Lookup cat req = Some rp → Ownable p = true → Ownable rp = true →
             Covers (g_Qualifier g') (g_Qualifier g) = true);
  vr_attrs : ∀ key values, r_Attrs r !! key = Some values →
    key ∈ AttributeKeys cat ∧ values ≠ []
}.

Lemma validateGrants_sound cat gs held h :
  validateGrants cat held gs = (h, []) →
  Forall (grant_ok cat) gs ∧ NoDup (g_Permission <$> gs) ∧
  Forall (λ g, held !! g_Permission g = None) gs ∧
  (∀ k q, h !! k = Some q ↔ held !! k = Some q ∨ mkGrant k q ∈ gs).
Proof.
  revert held. induction gs as [|g gs IH]; intros held; cbn.
  { intros [= <-]. split; [constructor|]. split; [constructor|]. split; [constructor|].
    intros k q. rewrite elem_of_nil. tauto. }
  destruct (Lookup cat (g_Permission g)) as [p|] eqn:El; [|by destruct (validateGrants _ _ _)].
  destruct (q_Valid (g_Qualifier g)) eqn:Ev; cbn; [|by destruct (validateGrants _ _ _)].
  destruct (held !! g_Permission g) as [q0|] eqn:Eh.
  { destruct (validateGrants _ _ _). by destruct (negb (Ownable p) && _). }
  destruct (validateGrants cat _ gs) as [h' ps] eqn:E.
  destruct (negb (Ownable p) && negb (g_Qualifier g =? QualifierAll)%Z) eqn:Ea; [done|].
  intros [= -> ->]. destruct (IH _ E) as (H1 & H2 & H3 & H4).
  assert (Forall (λ g', held !! g_Permission g' = None) gs ∧ g_Permission g ∉ g_Permission <$> gs) as [H5 H6].
  { rewrite list.Forall_forall in H3. split.
    - apply list.Forall_forall. intros g' Hg'. specialize (H3 g' Hg'). by rewrite lookup_insert_None in H3; destruct H3.
    - intros (g' & Hp & Hg')%list_elem_of_fmap. specialize (H3 g' Hg'). rewrite <-Hp, lookup_insert_eq in H3. done. }
  split; [|split; [|split]].
  - constructor; [|done]. exists p. split; [done|]. split; [done|]. intros Ho. rewrite Ho in Ea. cbn in Ea. lia.
  - cbn. by constructor.
  - by constructor.
  - intros k q. rewrite H4, lookup_insert_Some, elem_of_cons. destruct g as [gp gq]; cbn in *.
    destruct (decide (gp = k)); naive_solver congruence.
Qed.

Lemma validateGrants_complete cat gs held :
  Forall (grant_ok cat) gs → NoDup (g_Permission <$> gs) →
  Forall (λ g, held !! g_Permission g = None) gs →
  ∃ h, validateGrants cat held gs = (h, []).
Proof.
  intros H. revert held. induction H as [|g gs (p & El & Ev & Ho) _ IH]; intros held Hn Hh; cbn; [by eexists|].
  cbn in Hn. apply list.NoDup_cons in Hn as [Hni Hn]. apply list.Forall_cons in Hh as [Hg Hh].
  rewrite El, Ev, Hg. cbn.
  destruct (IH (<[g_Permission g:=g_Qualifier g]> held) Hn) as [h ->].
  { rewrite list.Forall_forall in Hh |- *. intros g' Hg'. rewrite lookup_insert_None.
    split; [by apply Hh|]. intros E. apply Hni. rewrite E. by apply list_elem_of_fmap_2. }
  exists h. destruct (Ownable p) eqn:Eo; cbn; [done|]. by rewrite Ho.
Qed.

Lemma asValidation_Ok problems : asValidation problems = Ok () ↔ problems = [].
Proof. by destruct problems. Qed.

Lemma validateRequires_nil cat held :
  validateRequires cat held = [] ↔
  ∀ id q, held !! id = Some q →
    ∀ req, req ∈ p_Requires (default (zeroPermission "") (Lookup cat id)) →
      validateRequirement cat held id (default (zeroPermission "") (Lookup cat id)) q req = [].
Proof.
  unfold validateRequires. rewrite concat_fmap_nil. setoid_rewrite concat_fmap_nil. split.
  - intros H id q Hq req Hr. specialize (H id). rewrite elem_of_sorted_keys, Hq in H.
    by apply H; [eexists|].
  - intros H id [q Hq]%elem_of_sorted_keys req Hr. rewrite Hq. by apply H.
Qed.

Lemma validateAttrs_nil cat attrs :
  validateAttrs cat attrs = [] ↔
  ∀ key values, attrs !! key = Some values → key ∈ AttributeKeys cat ∧ values ≠ [].
Proof.
  unfold validateAttrs. rewrite concat_fmap_nil. split.
  - intros H key values Hk. specialize (H key). rewrite elem_of_sorted_keys, Hk in H.
    specialize (H ltac:(by eexists)). destruct (contains (AttributeKeys cat) key) eqn:E; cbn in H; [|done].
    apply contains_spec in E. split; [done|]. by destruct values.
  - intros H key [values Hk]%elem_of_sorted_keys. destruct (H key values Hk) as [Hin Hne].
    rewrite (proj2 (contains_spec _ _)) by done. rewrite Hk. cbn. by destruct values.
Qed.

Lemma ValidateRole_parts cat r held ps :
  validateGrants cat ∅ (Resolve r cat) = (held, ps) →
  ValidateRole r cat = Ok () ↔
  r_Name r ≠ "" ∧ (r_Key r ≠ "" → word_match (r_Key r) = true) ∧
  (is_Some (r_Computed r) → r_Grants r = []) ∧ ps = [] ∧
  validateRequires cat held = [] ∧ validateAttrs cat (r_Attrs r) = [].
Proof.
  intros E. unfold ValidateRole, role_problems. rewrite E, asValidation_Ok, !app_nil, !if_nil.
  rewrite !andb_false_iff, !negb_false_iff, !bool_decide_eq_false, !bool_decide_eq_true.
  case_decide; destruct (word_match (r_Key r)), (decide (r_Key r = "")), (r_Computed r), (r_Grants r); naive_solver.
Qed.

(** [Validate] accepts exactly the valid roles. *)
Lemma ValidateRole_spec cat r : ValidateRole r cat = Ok () ↔ valid_role cat r.
Proof.
  destruct (validateGrants cat ∅ (Resolve r cat)) as [held ps] eqn:E.
  rewrite (ValidateRole_parts _ _ _ _ E), validateRequires_nil, validateAttrs_nil. split.
  - intros (Hn & Hk & Hc & -> & Hr & Ha).
    destruct (validateGrants_sound _ _ _ _ E) as (Hg & Hnd & _ & Hh).
    split; try done. intros [gp gq] p req Hin Hl Hreq. cbn in *.
    assert (held !! gp = Some gq) as Hheld by (apply Hh; by right).
    specialize (Hr gp gq Hheld req). rewrite Hl in Hr. specialize (Hr Hreq).
    unfold validateRequirement in Hr. destruct (held !! req) as [rq|] eqn:Erq; [|done].
    apply Hh in Erq as [?|Hg']; [done|]. exists (mkGrant req rq). split; [done|]. split; [done|].
    intros rp Hrp Ho1 Ho2. rewrite Hrp in Hr. cbn in Hr. rewrite Ho1, Ho2 in Hr. cbn. by destruct (Covers rq gq).
  - intros [Hn Hk Hc Hg Hnd Hr Ha].
    destruct (validateGrants_complete cat (Resolve r cat) ∅ Hg Hnd) as [h' E'].
    { apply list.Forall_forall. intros. apply lookup_empty. }
    rewrite E in E'. injection E' as <- ->.
    destruct (validateGrants_sound _ _ _ _ E) as (_ & _ & _ & Hh).
    repeat split; try done; [|by eapply Ha..].
    intros id q [?|Hin]%Hh req; [done|].
    destruct (Lookup cat id) as [p|] eqn:Ep; cbn; [|by intros ?%elem_of_nil].
    intros Hreq. destruct (Hr _ p req Hin Ep Hreq) as ([gp gq] & Hin' & <- & Hcov). cbn in *.
    unfold validateRequirement. assert (held !! gp = Some gq) as -> by (apply Hh; by right).
    rewrite list.Forall_forall in Hg. destruct (Hg _ Hin') as (rp & Hrp & _). cbn in Hrp.
    specialize (Hcov rp Hrp). rewrite Hrp. cbn. destruct (Ownable p), (Ownable rp); try done.
    by rewrite Hcov.
Qed.
