(* ===== verification/Access.v ===== *)
(** * Clauses and records (src/authz/effective.go, access.go, engine.go)

    A clause is one way a permission is held: at a scope, for the records its
    qualifier reaches, narrowed by attribute constraints. This file has the
    comparison of clauses, the pruning of a list of clauses, and the test of a
    clause against one record. *)

From S2P Require Import Prelude Apperr Catalogue Hierarchy Role.

(** ** Clauses *)

Record Source : Type := mkSource { src_BindingID : Z; src_Role : RoleRef; src_RoleName : string }.

Record Clause : Type := mkClause {
  cl_Scope : Scope;
  cl_Chain : Chain;
  cl_Qualifier : Qualifier;
  cl_Attrs : gmap string (list string);
  cl_Source : Source
}.

#[export] Instance Source_eq_dec : EqDecision Source.
Proof. solve_decision. Defined.

#[export] Instance Clause_eq_dec : EqDecision Clause.
Proof. solve_decision. Defined.

Definition subset (narrow wide : list string) : bool := forallb (λ n, contains wide n) narrow.

(** [attrsCover]: every key [a] constrains, [b] constrains to a subset. *)
Definition attrsCover (a b : gmap string (list string)) : bool :=
  map_forallb (λ key allowed,
    match b !! key with
    | Some narrow => subset narrow allowed
    | None => false
    end) a.

(** [Clause.covers] *)
Definition covers (a b : Clause) : bool :=
  if negb (Within (cl_Chain b) (cl_Scope a)) || negb (Covers (cl_Qualifier a) (cl_Qualifier b))
  then false
  else attrsCover (cl_Attrs a) (cl_Attrs b).

(** The inner loop of [prune]: clause [c] at index [i] is dropped for another
    clause that covers it, unless both cover each other and [i] is the earlier. *)
Definition redundant (clauses : list Clause) (i : nat) (c : Clause) : bool :=
  existsb (λ jo,
    negb ((i =? jo.1)%nat || negb (covers jo.2 c)) &&
    negb (covers c jo.2 && (i <? jo.1)%nat)) (indexed clauses).

Definition prune (clauses : list Clause) : list Clause :=
  (List.filter (λ ic, negb (redundant clauses ic.1 ic.2)) (indexed clauses)).*2.

(** [attrsFor]: the role's constraints on the attributes the permission declares. *)
Definition attrsFor (p : Permission) (roleAttrs : gmap string (list string)) :
    gmap string (list string) :=
  foldl (λ out key,
    match roleAttrs !! key with
    | Some values => <[key := values]> out
    | None => out
    end) ∅ (p_Attributes p).

(** ** Records *)

Record Resource : Type := mkResource {
  res_Scope : Scope;
  res_Ancestors : list Scope;
  res_Owner : Z;
  res_CoOwner : Z;
  res_OwnerLocation : Z;
  res_Attrs : gmap string string
}.

(** [Resource{Scope: s}] *)
Definition resourceAt (s : Scope) : Resource := mkResource s [] 0 0 0 ∅.

(** The attribute loop of [matchRecord]. *)
Definition matchAttrs (attrs : gmap string (list string)) (res : Resource) : bool :=
  map_forallb (λ key allowed,
    match res_Attrs res !! key with
    | Some v => contains allowed v
    | None => false
    end) attrs.

(** The qualifier switch of [matchRecord]. *)
Definition matchQualifier (q : Qualifier) (p : Principal) (perm : Permission) (res : Resource) : bool :=
  if (q =? QualifierAll)%Z then true
  else if (q =? QualifierOwnLocation)%Z then
    negb ((pr_Location p =? 0)%Z || negb (res_OwnerLocation res =? pr_Location p)%Z)
  else if (q =? QualifierOwn)%Z then
    if negb (bool_decide (sub_Kind (pr_Subject p) = KindUser)) then false
    else if (res_Owner res =? sub_ID (pr_Subject p))%Z
         || (negb (res_CoOwner res =? 0)%Z && (res_CoOwner res =? sub_ID (pr_Subject p))%Z)
    then true
    else negb (negb (p_UnownedIsOwn perm) || negb (res_Owner res =? 0)%Z)
  else false.

(** [matchRecord] *)
Definition matchRecord (c : Clause) (p : Principal) (perm : Permission) (res : Resource) : bool :=
  matchQualifier (cl_Qualifier c) p perm res && matchAttrs (cl_Attrs c) res.

(** ** Access sets *)

Record AccessSet : Type := mkAccessSet {
  as_Permission : string;
  as_RecordType : string;
  as_UnownedIsOwn : bool;
  as_Principal : Principal;
  as_Clauses : list Clause
}.

Definition Empty (a : AccessSet) : bool := bool_decide (as_Clauses a = []).

Definition Unrestricted (a : AccessSet) (h : Hierarchy) : bool :=
  existsb (λ c, IsRoot h (cl_Scope c) && (cl_Qualifier c =? QualifierAll)%Z &&
                bool_decide (size (cl_Attrs c) = 0)) (as_Clauses a).

Definition Widest (a : AccessSet) : Qualifier :=
  foldl (λ w c, if (w <? cl_Qualifier c)%Z then cl_Qualifier c else w) 0%Z (as_Clauses a).

(** ** Effective access

    Everything a subject may do, as [build] assembles it from the bindings. The
    Go value is immutable once built. *)

Record Effective : Type := mkEffective {
  eff_subject : Subject;
  eff_grants : gmap string (list Clause);
  eff_roleIDs : gset Z;
  eff_tenants : gset Z;
  eff_hasRoot : bool;
  eff_unpinned : bool
}.

Definition emptyEffective (s : Subject) : Effective := mkEffective s ∅ ∅ ∅ false false.

(** [Effective.Clauses]; reading a missing key of a Go map gives nil. *)
Definition eff_Clauses (e : Effective) (permission : string) : list Clause :=
  default [] (eff_grants e !! permission).

Definition eff_Permissions (e : Effective) : list string := sorted_keys (eff_grants e).

Definition usesRole (e : Effective) (id : Z) : bool := bool_decide (id ∈ eff_roleIDs e).

(** [Effective.Tenants]: the IDs sorted, and whether some binding is at the root. *)
Definition eff_Tenants (e : Effective) : list Z * bool :=
  (stable_sort Z.leb (elements (eff_tenants e)), eff_hasRoot e).

(** [Effective.Tenant] *)
Definition eff_Tenant (e : Effective) : option Z :=
  if eff_hasRoot e || eff_unpinned e || negb (size (eff_tenants e) =? 1)%nat then None
  else head (elements (eff_tenants e)).

(** ** Lemmas on covering *)

Lemma subset_spec n w : subset n w = true ↔ ∀ x, x ∈ n → x ∈ w.
Proof. unfold subset. rewrite forallb_elem. by setoid_rewrite contains_spec. Qed.

Lemma attrsCover_spec a b :
  attrsCover a b = true ↔
  ∀ key allowed, a !! key = Some allowed →
    ∃ narrow, b !! key = Some narrow ∧ ∀ x, x ∈ narrow → x ∈ allowed.
Proof.
  unfold attrsCover. rewrite map_forallb_spec. split.
  - intros H key allowed Ha. specialize (H key allowed Ha). destruct (b !! key) as [n|]; [|done].
    exists n. split; [done|]. by apply subset_spec.
  - intros H key allowed Ha. destruct (H key allowed Ha) as (n & -> & Hn). by apply subset_spec.
Qed.

Lemma attrsCover_refl a : attrsCover a a = true.
Proof. apply attrsCover_spec. intros key allowed Ha. by exists allowed. Qed.

Lemma attrsCover_trans a b c : attrsCover a b = true → attrsCover b c = true → attrsCover a c = true.
Proof.
  rewrite !attrsCover_spec. intros Hab Hbc key allowed Ha.
  destruct (Hab _ _ Ha) as (nb & Hb & Hnb). destruct (Hbc _ _ Hb) as (nc & Hc & Hnc). eauto.
Qed.

Lemma matchAttrs_spec attrs res :
  matchAttrs attrs res = true ↔
  ∀ key allowed, attrs !! key = Some allowed →
    ∃ v, res_Attrs res !! key = Some v ∧ v ∈ allowed.
Proof.
  unfold matchAttrs. rewrite map_forallb_spec. split.
  - intros H key allowed Ha. specialize (H key allowed Ha).
    destruct (res_Attrs res !! key) as [v|]; [|done]. exists v. by apply contains_spec in H.
  - intros H key allowed Ha. destruct (H key allowed Ha) as (v & -> & Hv). by apply contains_spec.
Qed.

(** Wider constraints allow at least the same records. *)
Lemma attrsCover_match a b res :
  attrsCover a b = true → matchAttrs b res = true → matchAttrs a res = true.
Proof.
  rewrite attrsCover_spec, !matchAttrs_spec. intros Hc Hm key allowed Ha.
  destruct (Hc _ _ Ha) as (n & Hn & Hsub). destruct (Hm _ _ Hn) as (v & Hv & Hin). eauto.
Qed.

Lemma Covers_spec q o : Covers q o = true ↔ q = QualifierAll ∨ q = o.
Proof. unfold Covers. rewrite orb_true_iff, !Z.eqb_eq. done. Qed.

Lemma Covers_trans a b c : Covers a b = true → Covers b c = true → Covers a c = true.
Proof. rewrite !Covers_spec. unfold QualifierAll. lia. Qed.

Lemma Covers_match q o p perm res :
  Covers q o = true → matchQualifier o p perm res = true → matchQualifier q p perm res = true.
Proof. rewrite Covers_spec. intros [-> | ->]; done. Qed.

Lemma covers_spec a b :
  covers a b = true ↔
  Within (cl_Chain b) (cl_Scope a) = true ∧
  Covers (cl_Qualifier a) (cl_Qualifier b) = true ∧
  attrsCover (cl_Attrs a) (cl_Attrs b) = true.
Proof.
  unfold covers. destruct (Within _ _), (Covers _ _); cbn; naive_solver.
Qed.

(** A record a clause matches is matched by every clause that covers it. *)
Lemma covers_matchRecord a b p perm res :
  covers a b = true → matchRecord b p perm res = true → matchRecord a p perm res = true.
Proof.
  rewrite covers_spec. unfold matchRecord. rewrite !andb_true_iff.
  intros (_ & Hq & Ha) [Hmq Hma]. split; [by eapply Covers_match|by eapply attrsCover_match].
Qed.

(** ** Pruning keeps the union *)

Lemma elem_of_prune clauses c : c ∈ prune clauses → c ∈ clauses.
Proof.
  unfold prune. intros ([i o] & -> & Hin)%list_elem_of_fmap. apply elem_of_filter_bool in Hin as [Hin _].
  apply elem_of_indexed in Hin. by eapply list_elem_of_lookup_2.
Qed.

Section Prune.
Context (Parent : Scope → result Scope) (h : Hierarchy) (Hwf : wf_hierarchy h).

(** The chain of a clause is the chain of its scope, as [build] makes it. *)
Definition wf_clause (c : Clause) : Prop := ChainOf Parent h (cl_Scope c) [] = Ok (cl_Chain c).

Lemma covers_trans a b c :
  wf_clause b → wf_clause c → covers a b = true → covers b c = true → covers a c = true.
Proof.
  unfold wf_clause. rewrite !covers_spec. intros Hb Hc (Hs1 & Hq1 & Ha1) (Hs2 & Hq2 & Ha2).
  split; [by eapply Within_trans|]. split; [by eapply Covers_trans|by eapply attrsCover_trans].
Qed.

(** [x] is a reason to drop [y]. *)
Definition beats (x y : nat * Clause) : bool :=
  negb ((y.1 =? x.1)%nat || negb (covers x.2 y.2)) && negb (covers y.2 x.2 && (y.1 <? x.1)%nat).

Lemma beats_spec x y :
  beats x y = true ↔
  y.1 ≠ x.1 ∧ covers x.2 y.2 = true ∧ (covers y.2 x.2 = true → x.1 < y.1).
Proof.
  unfold beats. rewrite andb_true_iff, !negb_true_iff, orb_false_iff, negb_false_iff, andb_false_iff.
  rewrite Nat.eqb_neq, Nat.ltb_ge. destruct (covers y.2 x.2); naive_solver lia.
Qed.

Lemma beats_irrefl x : beats x x = false.
Proof. unfold beats. by rewrite Nat.eqb_refl. Qed.

Lemma beats_trans x y z :
  wf_clause x.2 → wf_clause y.2 → wf_clause z.2 → (z.1 = x.1 → z = x) →
  beats x y = true → beats y z = true → beats x z = true.
Proof.
  intros Wx Wy Wz Hidx. rewrite !beats_spec. intros (N1 & C1 & L1) (N2 & C2 & L2).
  split; [|split].
  - intros ->%Hidx. specialize (L1 C2). specialize (L2 C1). lia.
  - exact (covers_trans _ _ _ Wy Wz C1 C2).
  - intros Czx. assert (covers z.2 y.2 = true) as Czy by exact (covers_trans _ _ _ Wx Wy Czx C1).
    assert (covers y.2 x.2 = true) as Cyx by exact (covers_trans _ _ _ Wz Wx C2 Czx).
    specialize (L1 Cyx). specialize (L2 Czy). lia.
Qed.

(** Every clause is kept, or covered by one that is. *)
Lemma prune_covers clauses i c :
  Forall wf_clause clauses → clauses !! i = Some c →
  ∃ o, o ∈ prune clauses ∧ (o = c ∨ covers o c = true).
Proof.
  intros Hw. rewrite list.Forall_forall in Hw.
  assert (∀ x, x ∈ indexed clauses → wf_clause x.2) as Hwx.
  { intros [j o] Hj%elem_of_indexed. by eapply Hw, list_elem_of_lookup_2. }
  assert (∀ x z : nat * Clause, x ∈ indexed clauses → z ∈ indexed clauses → z.1 = x.1 → z = x) as Hinj.
  { intros [j o] [k q] Hj%elem_of_indexed Hk%elem_of_indexed. cbn. intros ->. congruence. }
  remember (length (List.filter (λ x, beats x (i, c)) (indexed clauses))) as n eqn:En.
  revert i c En. induction (lt_wf n) as [n _ IH]. intros i c -> Hic.
  pose proof (proj2 (elem_of_indexed clauses i c) Hic) as Hin.
  destruct (redundant clauses i c) eqn:Er.
  - apply existsb_elem in Er as ([j o] & Hj & Hb).
    change (beats (j, o) (i, c) = true) in Hb.
    pose proof (proj1 (elem_of_indexed clauses j o) Hj) as Hjo.
    assert (wf_clause o) as Wo by apply (Hwx _ Hj).
    destruct (IH (length (List.filter (λ x, beats x (j, o)) (indexed clauses)))) with j o
      as (m & Hm & Hcov); [|done|done|].
    { apply length_filter_lt with (j, o); [|done|done|apply beats_irrefl].
      intros y Hy Hyj. eapply (beats_trans y (j, o) (i, c)); eauto. }
    exists m. split; [done|]. right. apply beats_spec in Hb as (_ & Hoc & _).
    destruct Hcov as [-> | Hmo]; [done|]. eapply (covers_trans _ o); try done. by apply (Hwx _ Hin).
  - exists c. split; [|by left]. unfold prune. apply list_elem_of_fmap. exists (i, c). split; [done|].
    apply elem_of_filter_bool. cbn. by rewrite Er.
Qed.

(** A clause reaches a record that lies within its scope and that it matches. *)
Definition reaches (chain : Chain) (p : Principal) (perm : Permission) (res : Resource) (c : Clause) : bool :=
  Within chain (cl_Scope c) && matchRecord c p perm res.

Lemma covers_reaches s chain p perm res a b :
  ChainOf Parent h s [] = Ok chain → wf_clause b →
  covers a b = true → reaches chain p perm res b = true → reaches chain p perm res a = true.
Proof.
  unfold reaches. rewrite !andb_true_iff. intros Hs Hb Hc [Hw Hm]. split.
  - apply covers_spec in Hc as (Hcw & _). by eapply Within_trans.
  - by eapply covers_matchRecord.
Qed.

(** Pruning keeps the union: the same records are reached. *)
Lemma prune_reaches s chain p perm res clauses :
  ChainOf Parent h s [] = Ok chain → Forall wf_clause clauses →
  existsb (reaches chain p perm res) (prune clauses) = existsb (reaches chain p perm res) clauses.
Proof.
  intros Hs Hw. apply eq_true_iff_eq. rewrite !existsb_elem. split.
  - intros (c & Hc & Hr). exists c. split; [by eapply elem_of_prune|done].
  - intros (c & Hc & Hr). apply list_elem_of_lookup in Hc as [i Hi].
    destruct (prune_covers clauses i c Hw Hi) as (o & Ho & [-> | Hcov]); [by exists c|].
    exists o. split; [done|]. eapply covers_reaches; eauto.
    rewrite list.Forall_forall in Hw. by eapply Hw, list_elem_of_lookup_2.
Qed.

Lemma prune_nil clauses : Forall wf_clause clauses → prune clauses = [] → clauses = [].
Proof.
  intros Hw Hp. destruct clauses as [|c l]; [done|].
  destruct (prune_covers (c :: l) 0 c Hw eq_refl) as (o & Ho & _). rewrite Hp in Ho. by apply elem_of_nil in Ho.
Qed.
End Prune.

(** ** Attribute constraints a permission declares *)

Lemma attrsFor_lookup p roleAttrs key :
  attrsFor p roleAttrs !! key = if contains (p_Attributes p) key then roleAttrs !! key else None.
Proof.
  unfold attrsFor.
  assert (∀ ks (m : gmap string (list string)),
    (foldl (λ out k, match roleAttrs !! k with Some v => <[k := v]> out | None => out end) m ks) !! key
    = if contains ks key then match roleAttrs !! key with Some v => Some v | None => m !! key end
      else m !! key) as Hgen.
  { induction ks as [|k ks IH]; intros m; [done|]. cbn [foldl]. rewrite IH, contains_cons. destruct (decide (k = key)) as [->|Hne].
    - rewrite (bool_decide_eq_true_2 (key = key)) by done. cbn.
      destruct (roleAttrs !! key) eqn:E; [rewrite lookup_insert_eq|]; by destruct (contains ks key).
    - rewrite (bool_decide_eq_false_2 (key = k)) by congruence. cbn.
      destruct (roleAttrs !! k); [rewrite lookup_insert_ne by done|]; done. }
  rewrite Hgen, lookup_empty. by destruct (contains _ _), (roleAttrs !! key).
Qed.
