(* ===== verification/Cache.v ===== *)
(** * The cache of effective access (src/authz/cache.go)

    One entry per subject, an explicit eviction after every change, and an epoch
    that keeps a load that began before an eviction from storing its result. The
    methods run under the cache's mutex, so each is one atomic step; their
    interleaving with loads and writes is the subject of [CacheSafety]. *)

From S2P Require Import Prelude Apperr Catalogue Hierarchy Role Access.

Record cacheEntry : Type := mkEntry { ce_eff : Effective; ce_expires : Z }.

(** [c_now] is the [now] field: the readings the clock gives, one after another,
    and [c_reads] how many were taken. Times are nanoseconds. *)
Record Cache : Type := mkCache {
  c_entries : gmap Subject cacheEntry;
  c_epoch : Z;
  c_ttl : Z;
  c_now : nat → Z;
  c_reads : nat
}.

Definition DefaultCacheTTL : Z := 5 * 60 * 1000000000.

Definition NewCache (now : nat → Z) (ttl : Z) : Cache :=
  mkCache ∅ 0 (if (ttl <=? 0)%Z then DefaultCacheTTL else ttl) now 0.

Definition set_entries (c : Cache) (m : gmap Subject cacheEntry) : Cache :=
  mkCache m (c_epoch c) (c_ttl c) (c_now c) (c_reads c).

(** One call of [c.now()]. *)
Definition read_now (c : Cache) : Z * Cache :=
  (c_now c (c_reads c), mkCache (c_entries c) (c_epoch c) (c_ttl c) (c_now c) (S (c_reads c))).

(** [Cache.get] *)
Definition get (c : Cache) (s : Subject) : option Effective * Cache :=
  match c_entries c !! s with
  | None => (None, c)
  | Some e =>
      let (now, c) := read_now c in
      if negb (now <? ce_expires e)%Z then (None, set_entries c (delete s (c_entries c)))
      else (Some (ce_eff e), c)
  end.

(** [Cache.begin] *)
Definition begin (c : Cache) : Z := c_epoch c.

(** [Cache.put] *)
Definition put (c : Cache) (s : Subject) (eff : Effective) (epoch : Z) : Cache :=
  if negb (epoch =? c_epoch c)%Z then c
  else let (now, c) := read_now c in
       set_entries c (<[s := mkEntry eff (now + c_ttl c)]> (c_entries c)).

(** [c.epoch++] on a uint64 *)
Definition next_epoch (c : Cache) (m : gmap Subject cacheEntry) : Cache :=
  mkCache m (Int64.to_uint (c_epoch c + 1)) (c_ttl c) (c_now c) (c_reads c).

Definition Evict (c : Cache) (s : Subject) : Cache := next_epoch c (delete s (c_entries c)).

Definition EvictRole (c : Cache) (roleID : Z) : Cache :=
  next_epoch c (filter (λ kv, usesRole (ce_eff kv.2) roleID = false) (c_entries c)).

Definition EvictAll (c : Cache) : Cache := next_epoch c ∅.

Definition Len (c : Cache) : nat := size (c_entries c).

(** ** Facts about single operations *)

Lemma get_Some c s eff c' :
  get c s = (Some eff, c') →
  ∃ exp, c_entries c !! s = Some (mkEntry eff exp) ∧ (c_now c (c_reads c) < exp)%Z ∧
         c_entries c' = c_entries c ∧ c_epoch c' = c_epoch c.
Proof.
  unfold get. destruct (c_entries c !! s) as [[e exp]|]; [|done]. cbn.
  destruct (c_now c (c_reads c) <? exp)%Z eqn:E; [|done]. cbn. intros [= <- <-].
  exists exp. apply Z.ltb_lt in E. done.
Qed.

(** [get] only ever removes entries. *)
Lemma get_sub c s r c' : get c s = (r, c') → c_entries c' ⊆ c_entries c ∧ c_epoch c' = c_epoch c.
Proof.
  unfold get. destruct (c_entries c !! s) as [e|]; cbn; [|by intros [= _ <-]].
  destruct (_ <? _)%Z; cbn; intros [= _ <-]; cbn; [done|]. split; [apply delete_subseteq|done].
Qed.

Lemma put_lookup c s eff epoch x :
  c_entries (put c s eff epoch) !! x =
    if (epoch =? c_epoch c)%Z && bool_decide (x = s)
    then Some (mkEntry eff (c_now c (c_reads c) + c_ttl c)) else c_entries c !! x.
Proof.
  unfold put. destruct (epoch =? c_epoch c)%Z; cbn; [|done].
  destruct (decide (x = s)) as [->|Hne].
  - rewrite bool_decide_eq_true_2 by done. by rewrite lookup_insert_eq.
  - rewrite bool_decide_eq_false_2 by done. by rewrite lookup_insert_ne.
Qed.

Lemma put_epoch c s eff epoch : c_epoch (put c s eff epoch) = c_epoch c.
Proof. unfold put. by destruct (_ =? _)%Z. Qed.

Lemma Evict_lookup c s x :
  c_entries (Evict c s) !! x = if bool_decide (x = s) then None else c_entries c !! x.
Proof.
  cbn. destruct (decide (x = s)) as [->|Hne].
  - rewrite bool_decide_eq_true_2 by done. by rewrite lookup_delete_eq.
  - rewrite bool_decide_eq_false_2 by done. by rewrite lookup_delete_ne.
Qed.

Lemma EvictRole_lookup c id x e :
  c_entries (EvictRole c id) !! x = Some e ↔ c_entries c !! x = Some e ∧ usesRole (ce_eff e) id = false.
Proof. cbn. by rewrite map_lookup_filter_Some. Qed.

(** After an eviction the next read misses. *)
Lemma get_Evict c s : get (Evict c s) s = (None, Evict c s).
Proof. unfold get. rewrite Evict_lookup, bool_decide_eq_true_2 by done. done. Qed.
