(* ===== verification/Engine.v ===== *)
(** * The engine (src/authz/engine.go, access.go, features.go, payload.go, holders.go)

    The engine turns bindings into effective access and answers the checks:
    [Require], [RequireOn], [Access], [MyAccess] and [HoldersOf]. It reads a store
    through the [Reader] interface and caches what it built. Log lines are left
    out: a binding that is skipped grants nothing. *)

From S2P Require Import Prelude Apperr Catalogue Hierarchy Role Access Cache.

(** ** Errors (src/authz/errors.go) *)

Definition ReasonForbidden : string := "authz.forbidden".
Definition ReasonEscalation : string := "authz.escalation".
Definition ReasonLastAdmin : string := "authz.last_admin".
Definition ReasonSelfAssignment : string := "authz.self_assignment".
Definition ReasonRoleInUse : string := "authz.role_in_use".

Definition forbidden (permission : string) : error :=
  WithReason (WithLog (Wrap (Some (errNew ErrForbidden)) "access denied" CodePermissionDenied) LevelWarn)
    ReasonForbidden {[ "permission" := PString permission ]}.

Definition unauthenticated : error :=
  WithLog (Wrap (Some (errNew ErrNoPrincipal)) "user not authenticated" CodeUnauthenticated) LevelWarn.

Definition escalation (permission why : string) : error :=
  WithReason (WithLog (Wrap (Some (wrapf ErrEscalation (": " +:+ permission +:+ ": " +:+ why)))
                         "cannot grant more than you hold" CodePermissionDenied) LevelWarn)
    ReasonEscalation (<["permission" := PString permission]> {[ "why" := PString why ]}).

Definition Deny (permission : string) : error := forbidden permission.

(** ** The store, as the engine reads it (src/authz/store.go)

    [St] is the state behind the store. *)
Class Reader (St : Type) : Type := {
  BindingsFor : St → Subject → result (list Binding);
  StoreRole : St → Z → result Role
}.

(** The optional part of a store that [HoldersOf] asks for with a type assertion. *)
Class HolderReader (St : Type) : Type := {
  StoreListRoles : St → result (list Role);
  StoreHoldersOf : St → RoleRef → result (list Binding)
}.

(** ** The engine *)

(** [e_resolver] is [ScopeResolver.Parent] and [e_features] is
    [FeatureResolver.Enabled]; both are the application's. *)
Record Engine : Type := mkEngine {
  e_cat : Catalogue;
  e_h : Hierarchy;
  e_roles : gmap string Role;
  e_resolver : Scope → result Scope;
  e_features : option (Scope → string → result bool)
}.

(** [Config], without the logger. *)
Record Config : Type := mkConfig {
  cfg_Catalogue : option Catalogue;
  cfg_Hierarchy : option Hierarchy;
  cfg_Roles : list Role;
  cfg_hasStore : bool;
  cfg_Resolver : option (Scope → result Scope);
  cfg_Features : option (Scope → string → result bool);
  cfg_Cache : option Cache
}.

(** The loop of [NewEngine] over the predefined roles. *)
Fixpoint addRoles (cat : Catalogue) (acc : gmap string Role) (roles : list Role) :
    result (gmap string Role) :=
  match roles with
  | [] => Ok acc
  | r :: rest =>
      if bool_decide (r_Key r = "") || negb (r_ID r =? 0)%Z then
        Err (errNew ("authz: predefined role " +:+ Str.fmt_q (r_Name r) +:+ " needs a Key and no ID"))
      else match acc !! r_Key r with
      | Some _ => Err (errNew ("authz: predefined role " +:+ Str.fmt_q (r_Key r) +:+ " defined twice"))
      | None =>
          match ValidateRole r cat with
          | Err e => Err (errorf ("authz: predefined role " +:+ Str.fmt_q (r_Key r) +:+ ": " +:+ error_text e) [e])
          | Ok _ => addRoles cat (<[r_Key r := r]> acc) rest
          end
      end
  end.

Definition NewEngine (clock : nat → Z) (cfg : Config) : result (Engine * Cache) :=
  match cfg_Catalogue cfg with
  | None => Err (errNew "authz: catalogue is required")
  | Some cat =>
  match cfg_Hierarchy cfg with
  | None => Err (errNew "authz: hierarchy is required")
  | Some h =>
  if negb (cfg_hasStore cfg) then Err (errNew "authz: store is required") else
  match cfg_Resolver cfg with
  | None => Err (errNew "authz: scope resolver is required")
  | Some resolver =>
  if HasFeatures cat && bool_decide (cfg_Features cfg = None) then
    Err (errNew "authz: a permission has a Feature but no FeatureResolver is configured")
  else
    cat ← freeze cat;
    roles ← addRoles cat ∅ (cfg_Roles cfg);
    Ok (mkEngine cat h roles resolver (cfg_Features cfg),
        default (NewCache clock DefaultCacheTTL) (cfg_Cache cfg))
  end end end.

Definition PredefinedRole (e : Engine) (key : string) : option Role := e_roles e !! key.

Definition PredefinedRoles (e : Engine) : list Role :=
  omap (λ k, e_roles e !! k) (sorted_keys (e_roles e)).

(** ** build *)

(** The body of the loop of [addClauses] for one grant. *)
Definition grant_clause (e : Engine) (b : Binding) (role : Role) (chain : Chain) (g : Grant) :
    option (string * Clause) :=
  match Lookup (e_cat e) (g_Permission g) with
  | None => None
  | Some p =>
      if negb (q_Valid (g_Qualifier g)) || (negb (Ownable p) && negb (g_Qualifier g =? QualifierAll)%Z)
      then None
      else if p_OrganizationOnly p && negb (IsRoot (e_h e) (b_Scope b)) then None
      else Some (p_ID p, mkClause (b_Scope b) chain (g_Qualifier g) (attrsFor p (r_Attrs role))
                           (mkSource (b_ID b) (b_Role b) (r_Name role)))
  end.

(** [eff.grants[id] = append(eff.grants[id], c)] *)
Definition append_clause (grants : gmap string (list Clause)) (ic : string * Clause) :
    gmap string (list Clause) :=
  <[ic.1 := default [] (grants !! ic.1) ++ [ic.2]]> grants.

(** [addClauses]: the new grants and whether there were any. *)
Definition addClauses (e : Engine) (grants : gmap string (list Clause)) (b : Binding)
    (role : Role) (chain : Chain) : gmap string (list Clause) * bool :=
  let new := omap (grant_clause e b role chain) (Resolve role (e_cat e)) in
  (foldl append_clause grants new, negb (bool_decide (new = []))).

(** The tenant bookkeeping of [build] for a binding that granted something. *)
Definition pinTenant (e : Engine) (eff : Effective) (b : Binding) (chain : Chain) : Effective :=
  if IsRoot (e_h e) (b_Scope b) then
    mkEffective (eff_subject eff) (eff_grants eff) (eff_roleIDs eff) (eff_tenants eff) true (eff_unpinned eff)
  else match tenantOf (e_h e) chain with
  | Some t => mkEffective (eff_subject eff) (eff_grants eff) (eff_roleIDs eff)
                ({[ s_ID t ]} ∪ eff_tenants eff) (eff_hasRoot eff) (eff_unpinned eff)
  | None => mkEffective (eff_subject eff) (eff_grants eff) (eff_roleIDs eff) (eff_tenants eff)
                (eff_hasRoot eff) true
  end.

Definition set_grants (eff : Effective) (g : gmap string (list Clause)) : Effective :=
  mkEffective (eff_subject eff) g (eff_roleIDs eff) (eff_tenants eff) (eff_hasRoot eff) (eff_unpinned eff).

Definition add_roleID (eff : Effective) (id : Z) : Effective :=
  if (0 <? id)%Z then
    mkEffective (eff_subject eff) (eff_grants eff) ({[ id ]} ∪ eff_roleIDs eff) (eff_tenants eff)
      (eff_hasRoot eff) (eff_unpinned eff)
  else eff.

(** What [build] keeps between rounds: the access so far and the roles looked up. *)
Definition progress : Type := Effective * gmap RoleRef Role.

(** The part of a round after the role is known. *)
Definition build_binding (e : Engine) (eff : Effective) (b : Binding) (role : Role) : result Effective :=
  match ChainOf (e_resolver e) (e_h e) (b_Scope b) [] with
  | Err err =>
      if errors_Is err ErrScopeNotFound || errors_Is err ErrInvalidScope then Ok eff
      else Err (errorf ("authz: resolve scope " +:+ scope_string (b_Scope b) +:+ ": " +:+ error_text err) [err])
  | Ok chain =>
      let (grants, added) := addClauses e (eff_grants eff) b role chain in
      let eff := set_grants eff grants in
      Ok (if added then pinTenant e eff b chain else eff)
  end.

(** One round of the loop of [build]. *)
Definition build_round (e : Engine) (lookup : RoleRef → result Role) (st : progress) (b : Binding) :
    result progress :=
  let (eff, roles) := st in
  if negb (ref_Valid (b_Role b)) then Ok (eff, roles) else
  let eff := add_roleID eff (ref_ID (b_Role b)) in
  match roles !! b_Role b with
  | Some role => eff ← build_binding e eff b role; Ok (eff, roles)
  | None =>
      match lookup (b_Role b) with
      | Err err =>
          if errors_Is err ErrRoleNotFound then Ok (eff, roles)
          else Err (errorf ("authz: load role {ID:" +:+ Str.fmt_d (ref_ID (b_Role b)) +:+ " Key:" +:+
                              ref_Key (b_Role b) +:+ "}: " +:+ error_text err) [err])
      | Ok role => eff ← build_binding e eff b role; Ok (eff, <[b_Role b := role]> roles)
      end
  end.

Fixpoint build_loop (e : Engine) (lookup : RoleRef → result Role) (st : progress) (bindings : list Binding) :
    result progress :=
  match bindings with
  | [] => Ok st
  | b :: rest => st ← build_round e lookup st b; build_loop e lookup st rest
  end.

Definition build (e : Engine) (s : Subject) (bindings : list Binding) (lookup : RoleRef → result Role) :
    result Effective :=
  st ← build_loop e lookup (emptyEffective s, ∅) bindings; Ok st.1.

(** ** Reading through the cache *)

(** What the engine's calls read and change: the store's state and the cache. *)
Record World (St : Type) : Type := mkWorld { w_store : St; w_cache : Cache }.
Arguments mkWorld {_} _ _.
Arguments w_store {_} _.
Arguments w_cache {_} _.

Section Reading.
Context {St : Type} `{!Reader St}.

Definition lookupRole (e : Engine) (st : St) (ref : RoleRef) : result Role :=
  if decide (ref_Key ref ≠ "") then
    match e_roles e !! ref_Key ref with
    | Some r => Ok r
    | None => Err (wrapf ErrRoleNotFound (": key " +:+ Str.fmt_q (ref_Key ref)))
    end
  else StoreRole st (ref_ID ref).

Definition loadErr (s : Subject) (err : error) : error :=
  Internal (errorf ("authz: load bindings of " +:+ subject_string s +:+ ": " +:+ error_text err) [err]).

(** [Engine.Effective] without the cache: what a miss computes. *)
Definition load (e : Engine) (st : St) (s : Subject) : result Effective :=
  match BindingsFor st s with
  | Err err => Err (loadErr s err)
  | Ok bindings =>
      match build e s bindings (lookupRole e st) with
      | Err err => Err (Internal err)
      | Ok eff => Ok eff
      end
  end.

(** [Engine.Effective] *)
Definition EffectiveOf (e : Engine) (s : Subject) : stM (World St) error Effective := λ w,
  match get (w_cache w) s with
  | (Some eff, c) => (Ok eff, mkWorld (w_store w) c)
  | (None, c) =>
      let epoch := begin c in
      match load e (w_store w) s with
      | Err err => (Err err, mkWorld (w_store w) c)
      | Ok eff => (Ok eff, mkWorld (w_store w) (put c s eff epoch))
      end
  end.

Definition unknownPermission (permission : string) : error :=
  Internal (wrapf ErrUnknownPermission (": " +:+ Str.fmt_q permission)).

Definition prepare (e : Engine) (ctx : context) (permission : string) :
    stM (World St) error (Principal * Permission * Effective) :=
  match PrincipalFrom ctx with
  | None => throw unauthenticated
  | Some p =>
      match Lookup (e_cat e) permission with
      | None => throw (unknownPermission permission)
      | Some perm => eff ← EffectiveOf e (pr_Subject p); mret (p, perm, eff)
      end
  end.

(** ** Feature gates *)

(** What calling a method of a nil interface gives; [NewEngine] refuses the
    configuration that could reach it ([NewEngine_features]). *)
Definition nilPanic : error := errNew "invalid memory address or nil pointer dereference".

Definition featureOn (e : Engine) (perm : Permission) (fallback : Scope) (chain : Chain) : result bool :=
  if decide (p_Feature perm = "") then Ok true else
  let tenant := default fallback (tenantOf (e_h e) chain) in
  match e_features e with
  | None => Err nilPanic
  | Some Enabled => Enabled tenant (p_Feature perm)
  end.

Definition featureErr (perm : Permission) (err : error) : error :=
  Internal (errorf ("authz: feature " +:+ Str.fmt_q (p_Feature perm) +:+ ": " +:+ error_text err) [err]).

(** ** Checks *)

(** The loop of [Require]. *)
Fixpoint require_loop (e : Engine) (permission : string) (perm : Permission) (clauses : list Clause) :
    result () :=
  match clauses with
  | [] => Err (forbidden permission)
  | c :: rest =>
      match featureOn e perm (cl_Scope c) (cl_Chain c) with
      | Err err => Err (featureErr perm err)
      | Ok true => Ok ()
      | Ok false => require_loop e permission perm rest
      end
  end.

Definition Require (e : Engine) (ctx : context) (permission : string) : stM (World St) error () :=
  '(_, perm, eff) ← prepare e ctx permission;
  lift (require_loop e permission perm (eff_Clauses eff permission)).

(** [Engine.resourceChain] *)
Definition resourceChain (e : Engine) (res : Resource) : result Chain :=
  if IsZero (res_Scope res) then Ok [Root (e_h e)] else
  match ChainOf (e_resolver e) (e_h e) (res_Scope res) (res_Ancestors res) with
  | Err err => if errors_Is err ErrScopeNotFound || errors_Is err ErrInvalidScope then Ok []
               else Err (Internal err)
  | Ok chain => Ok chain
  end.

(** The loop of [RequireOn]. [done] is [resChain] once [chainDone]; it is
    resolved for the first clause that needs it. *)
Fixpoint requireOn_loop (e : Engine) (permission : string) (p : Principal) (perm : Permission)
    (res : Resource) (done : option Chain) (clauses : list Clause) : result () :=
  match clauses with
  | [] => Err (forbidden permission)
  | c :: rest =>
      let needs := negb (IsRoot (e_h e) (cl_Scope c)) || bool_decide (p_Feature perm ≠ "") in
      match (if needs then
               match done with
               | Some ch => Ok (Some ch)
               | None => ch ← resourceChain e res; Ok (Some ch)
               end
             else Ok done) with
      | Err err => Err err
      | Ok done =>
          if needs && negb (Within (default [] done) (cl_Scope c))
          then requireOn_loop e permission p perm res done rest
          else if negb (matchRecord c p perm res)
          then requireOn_loop e permission p perm res done rest
          else
            let (fallback, chain) :=
              match done with
              | Some ch => if IsZero (res_Scope res) then (cl_Scope c, cl_Chain c) else (res_Scope res, ch)
              | None => (cl_Scope c, cl_Chain c)
              end in
            match featureOn e perm fallback chain with
            | Err err => Err (featureErr perm err)
            | Ok true => Ok ()
            | Ok false => requireOn_loop e permission p perm res done rest
            end
      end
  end.

Definition RequireOn (e : Engine) (ctx : context) (permission : string) (res : Resource) :
    stM (World St) error () :=
  '(p, perm, eff) ← prepare e ctx permission;
  lift (requireOn_loop e permission p perm res None (eff_Clauses eff permission)).

(** The loop of [Access] and of [MyAccess] that keeps the clauses whose gate is
    open. *)
Fixpoint openClauses (e : Engine) (perm : Permission) (clauses : list Clause) : result (list Clause) :=
  match clauses with
  | [] => Ok []
  | c :: rest =>
      match featureOn e perm (cl_Scope c) (cl_Chain c) with
      | Err err => Err (featureErr perm err)
      | Ok on => open ← openClauses e perm rest; Ok (if on then c :: open else open)
      end
  end.

Definition AccessTo (e : Engine) (ctx : context) (permission : string) : stM (World St) error AccessSet :=
  '(p, perm, eff) ← prepare e ctx permission;
  open ← lift (openClauses e perm (eff_Clauses eff permission));
  mret (mkAccessSet permission (p_RecordType perm) (p_UnownedIsOwn perm) p (prune open)).

(** [RequireRecord], against any authorizer's [RequireOn]. *)
Definition RequireRecord (requireOn : string → Resource → stM (World St) error ())
    (res : Resource) (view action : string) (notFound : error) : stM (World St) error () := λ w,
  match requireOn view res w with
  | (Err err, w) => (Err (if errors_Is err ErrForbidden then notFound else err), w)
  | (Ok _, w) => if decide (action = view) then (Ok (), w) else requireOn action res w
  end.

(** ** The /me/access payload (src/authz/payload.go) *)

Record ClauseInfo : Type := mkClauseInfo {
  ci_Scope : Scope;
  ci_Qualifier : Qualifier;
  ci_Attrs : gmap string (list string);
  ci_Role : string;
  ci_BindingID : Z
}.

Record PermissionAccess : Type := mkPermissionAccess {
  pa_Scope : Scope;
  pa_Qualifier : Qualifier;
  pa_Clauses : list ClauseInfo
}.

Record MyAccessPayload : Type := mkMyAccess {
  ma_Subject : Subject;
  ma_Root : bool;
  ma_Permissions : gmap string PermissionAccess;
  ma_Unavailable : list string
}.

(** One round of the loop of [describe]. *)
Definition describe_step (e : Engine) (pa : PermissionAccess) (c : Clause) : PermissionAccess :=
  mkPermissionAccess
    (if Wider (e_h e) (s_Level (cl_Scope c)) (s_Level (pa_Scope pa)) then cl_Scope c else pa_Scope pa)
    (if (pa_Qualifier pa <? cl_Qualifier c)%Z then cl_Qualifier c else pa_Qualifier pa)
    (pa_Clauses pa ++ [mkClauseInfo (cl_Scope c) (cl_Qualifier c) (cl_Attrs c)
                         (src_RoleName (cl_Source c)) (src_BindingID (cl_Source c))]).

(** [describe]; [None] is the panic of [clauses[0]] on an empty list. *)
Definition describe (e : Engine) (clauses : list Clause) : option PermissionAccess :=
  match clauses with
  | [] => None
  | c0 :: _ => Some (foldl (describe_step e) (mkPermissionAccess (cl_Scope c0) 0%Z []) clauses)
  end.

Definition indexPanic : error := errNew "index out of range [0] with length 0".

(** The loop of [MyAccess] over the permissions held. *)
Fixpoint myAccess_loop (e : Engine) (eff : Effective) (out : MyAccessPayload) (ids : list string) :
    result MyAccessPayload :=
  match ids with
  | [] => Ok out
  | id :: rest =>
      let perm := default (zeroPermission "") (Lookup (e_cat e) id) in
      open ← openClauses e perm (eff_Clauses eff id);
      match open with
      | [] => myAccess_loop e eff (mkMyAccess (ma_Subject out) (ma_Root out) (ma_Permissions out)
                                     (ma_Unavailable out ++ [id])) rest
      | _ => match describe e (prune open) with
             | None => Err indexPanic
             | Some pa => myAccess_loop e eff (mkMyAccess (ma_Subject out) (ma_Root out)
                              (<[id := pa]> (ma_Permissions out)) (ma_Unavailable out)) rest
             end
      end
  end.

Definition MyAccess (e : Engine) (ctx : context) : stM (World St) error MyAccessPayload :=
  match PrincipalFrom ctx with
  | None => throw unauthenticated
  | Some p =>
      eff ← EffectiveOf e (pr_Subject p);
      out ← lift (myAccess_loop e eff (mkMyAccess (pr_Subject p) (eff_Tenants eff).2 ∅ [])
                    (eff_Permissions eff));
      mret (mkMyAccess (ma_Subject out) (ma_Root out) (ma_Permissions out)
              (stable_sort String.leb (ma_Unavailable out)))
  end.

(** ** Who holds a permission (src/authz/holders.go) *)

(** [grants] *)
Definition grants (role : Role) (cat : Catalogue) (permission : string) : bool :=
  existsb (λ g, bool_decide (g_Permission g = permission)) (Resolve role cat).

(** The loop collecting the bindings of the granting roles. *)
Fixpoint holders_loop `{!HolderReader St} (e : Engine) (st : St) (permission : string) (roles : list Role) :
    result (list Binding) :=
  match roles with
  | [] => Ok []
  | role :: rest =>
      if negb (grants role (e_cat e) permission) then holders_loop e st permission rest else
      match StoreHoldersOf st (Ref role) with
      | Err err => Err (errorf ("authz: holders of role " +:+ r_Name role +:+ ": " +:+ error_text err) [err])
      | Ok held => more ← holders_loop e st permission rest; Ok (held ++ more)
      end
  end.

(** The comparison [a.ID - b.ID] of int values. *)
Definition bindingID_leb (a b : Binding) : bool := (Int64.wrap (b_ID a - b_ID b) <=? 0)%Z.

(** The loop that keeps each subject once. *)
Definition firstSubjects (bindings : list Binding) : list Subject :=
  foldl (λ out b, if contains out (b_Subject b) then out else out ++ [b_Subject b]) [] bindings.

(** [HoldersOf] for a store of Go type [typeName]; [None] when the store does not
    implement both optional interfaces. *)
Definition HoldersOf (e : Engine) (holders : option (HolderReader St)) (typeName : string) (st : St)
    (permission : string) : result (list Subject) :=
  match Lookup (e_cat e) permission with
  | None => Err (wrapf ErrUnknownPermission (": " +:+ Str.fmt_q permission))
  | Some _ =>
      match holders with
      | None => Err (errNew ("authz: HoldersOf needs a store that lists custom roles and their holders, got "
                              +:+ typeName))
      | Some HR =>
          match StoreListRoles st with
          | Err err => Err (errorf ("authz: list custom roles: " +:+ error_text err) [err])
          | Ok custom =>
              bindings ← holders_loop e st permission (PredefinedRoles e ++ custom);
              Ok (firstSubjects (stable_sort bindingID_leb bindings))
          end
      end
  end.
End Reading.
