(* ===== verification/Store.v ===== *)
(** * The store interface (src/authz/store.go)

    What [Admin] writes through, as a class, and what its theorems rely on, as
    laws. [MemStore] discharges the laws for the in-memory store. *)

From S2P Require Import Prelude Apperr Catalogue Hierarchy Role Access Cache Engine.

(** [Store]; every write takes the acting subject. *)
Class Store (St : Type) : Type := {
  store_reader :: Reader St;
  store_holders :: HolderReader St;
  StoreSaveRole : Subject → Role → stM St error Role;
  StoreDeleteRole : Subject → Z → stM St error ();
  StoreBinding : St → Z → result Binding;
  StoreBindingsForRole : St → Z → result (list Binding);
  StoreBind : Subject → Binding → stM St error Binding;
  StoreUnbind : Subject → Z → stM St error ()
}.

(** [HolderCounts] *)
Record HolderCounts : Type := mkHolderCounts { hc_ByID : gmap Z Z; hc_ByKey : gmap string Z }.

(** [HolderCounts.Of]: a missing key reads as 0. *)
Definition Of (c : HolderCounts) (ref : RoleRef) : Z :=
  if (0 <? ref_ID ref)%Z then default 0%Z (hc_ByID c !! ref_ID ref)
  else default 0%Z (hc_ByKey c !! ref_Key ref).

(** The documented behaviour of a store: reads of a state within the invariant
    answer, a write that succeeds changes what it says and nothing else, a write
    that fails changes nothing. *)
Class StoreLaws (St : Type) `{!Store St} : Type := {
  store_inv : St → Prop;

  law_bindings st s : store_inv st → ∃ bs, BindingsFor st s = Ok bs ∧
    Forall (λ b, b_Subject b = s ∧ StoreBinding st (b_ID b) = Ok b) bs;
  law_binding st id b : store_inv st → StoreBinding st id = Ok b →
    b_ID b = id ∧ (0 < id)%Z ∧ ∃ bs, BindingsFor st (b_Subject b) = Ok bs ∧ b ∈ bs;
  law_role_id st id r : store_inv st → StoreRole st id = Ok r → r_ID r = id;

  law_bind st actor b st' saved : store_inv st → StoreBind actor b st = (Ok saved, st') →
    store_inv st' ∧ b_Subject saved = b_Subject b ∧ b_Role saved = b_Role b ∧ b_Scope saved = b_Scope b ∧
    (∀ bs, BindingsFor st (b_Subject b) = Ok bs → BindingsFor st' (b_Subject b) = Ok (bs ++ [saved])) ∧
    (∀ s, s ≠ b_Subject b → BindingsFor st' s = BindingsFor st s) ∧
    (∀ id, StoreRole st' id = StoreRole st id);
  law_unbind st actor id st' : store_inv st → StoreUnbind actor id st = (Ok (), st') →
    store_inv st' ∧
    (∀ s bs, BindingsFor st s = Ok bs →
       BindingsFor st' s = Ok (List.filter (λ b, negb (b_ID b =? id)%Z) bs)) ∧
    (∀ rid, StoreRole st' rid = StoreRole st rid);
  law_saveRole st actor r st' saved : store_inv st → StoreSaveRole actor r st = (Ok saved, st') →
    store_inv st' ∧ StoreRole st' (r_ID saved) = Ok saved ∧ (0 < r_ID saved)%Z ∧
    (r_ID r ≠ 0%Z → r_ID saved = r_ID r) ∧
    saved = mkRole (r_ID saved) "" (r_Name r) (r_Description r) (r_Grants r) (r_Attrs r) None ∧
    (∀ id, id ≠ r_ID saved → StoreRole st' id = StoreRole st id) ∧
    (∀ s, BindingsFor st' s = BindingsFor st s);
  law_deleteRole st actor id st' : store_inv st → StoreDeleteRole actor id st = (Ok (), st') →
    store_inv st' ∧ (∃ err, StoreRole st' id = Err err ∧ errors_Is err ErrRoleNotFound = true) ∧
    StoreBindingsForRole st id = Ok [] ∧
    (∀ rid, rid ≠ id → StoreRole st' rid = StoreRole st rid) ∧
    (∀ s, BindingsFor st' s = BindingsFor st s);

  law_bind_err st actor b st' err : StoreBind actor b st = (Err err, st') → st' = st;
  law_unbind_err st actor id st' err : StoreUnbind actor id st = (Err err, st') → st' = st;
  law_saveRole_err st actor r st' err : StoreSaveRole actor r st = (Err err, st') → st' = st;
  law_deleteRole_err st actor id st' err : StoreDeleteRole actor id st = (Err err, st') → st' = st
}.
