(* ===== verification/EngineSpec.v ===== *)
(** * What the engine decides

    The specification of effective access in terms of bindings, and the theorems
    that the checks of [Engine] implement it: deny by default, the agreement of
    [RequireOn] with [Access], organization-only permissions, tenants, and the
    payload of [MyAccess]. *)

From S2P Require Import Prelude Apperr Catalogue Hierarchy Role Access Cache Engine.

(** ** build computes the clauses of the bindings *)

Lemma append_clause_lookup m l id c :
  c ∈ default [] (foldl append_clause m l !! id) ↔ c ∈ default [] (m !! id) ∨ (id, c) ∈ l.
Proof.
  revert m. induction l as [|[i x] l IH]; intros m; cbn [foldl].
  - rewrite elem_of_nil. naive_solver.
  - rewrite IH, elem_of_cons. unfold append_clause. cbn. destruct (decide (i = id)) as [->|Hne].
    + rewrite lookup_insert_eq. cbn. rewrite elem_of_app, list_elem_of_singleton. naive_solver.
    + rewrite lookup_insert_ne by done. naive_solver.
Qed.

Section Build.
Context (e : Engine) (lookup : RoleRef → result Role).

(** Binding [b] yields clause [c] of permission [id]. *)
Definition yields (b : Binding) (id : string) (c : Clause) : Prop :=
  ∃ role chain g, ref_Valid (b_Role b) = true ∧ lookup (b_Role b) = Ok role ∧
    ChainOf (e_resolver e) (e_h e) (b_Scope b) [] = Ok chain ∧
    g ∈ Resolve role (e_cat e) ∧ grant_clause e b role chain g = Some (id, c).

Definition memo_ok (roles : gmap RoleRef Role) : Prop :=
  ∀ ref r, roles !! ref = Some r → lookup ref = Ok r.

Lemma eff_Clauses_add_roleID eff i id : eff_Clauses (add_roleID eff i) id = eff_Clauses eff id.
Proof. unfold add_roleID. by destruct (_ <? _)%Z. Qed.

Lemma eff_Clauses_pinTenant eff b chain id : eff_Clauses (pinTenant e eff b chain) id = eff_Clauses eff id.
Proof. unfold pinTenant. by repeat case_match. Qed.

Lemma build_binding_clauses eff b role eff' id c :
  build_binding e eff b role = Ok eff' →
  c ∈ eff_Clauses eff' id ↔
  c ∈ eff_Clauses eff id ∨
  ∃ chain g, ChainOf (e_resolver e) (e_h e) (b_Scope b) [] = Ok chain ∧
    g ∈ Resolve role (e_cat e) ∧ grant_clause e b role chain g = Some (id, c).
Proof.
  unfold build_binding. destruct (ChainOf _ _ _ _) as [chain|err].
  - cbn. intros [= <-].
    trans (c ∈ eff_Clauses (set_grants eff (foldl append_clause (eff_grants eff)
             (omap (grant_clause e b role chain) (Resolve role (e_cat e))))) id).
    { case_match; [by rewrite eff_Clauses_pinTenant|done]. }
    unfold eff_Clauses. cbn. rewrite append_clause_lookup, list_elem_of_omap. naive_solver.
  - case_match; [|done]. intros [= <-]. naive_solver.
Qed.

Lemma build_round_memo st b st' :
  memo_ok st.2 → build_round e lookup st b = Ok st' → memo_ok st'.2.
Proof.
  destruct st as [eff roles]. unfold build_round. cbn. intros Hm.
  destruct (ref_Valid _); cbn; [|by intros [= <-]].
  destruct (roles !! b_Role b) as [r|] eqn:Er.
  { intros (eff' & _ & [= <-])%outcome_bind_Ok. done. }
  destruct (lookup (b_Role b)) as [r|err] eqn:El; [|case_match; [by intros [= <-]|done]].
  intros (eff' & _ & [= <-])%outcome_bind_Ok ref r'. cbn. rewrite lookup_insert_Some.
  intros [[<- <-]|[_ ?]]; auto.
Qed.

Lemma build_round_clauses st b st' id c :
  memo_ok st.2 → build_round e lookup st b = Ok st' →
  c ∈ eff_Clauses st'.1 id ↔ c ∈ eff_Clauses st.1 id ∨ yields b id c.
Proof.
  destruct st as [eff roles]. unfold build_round, yields. cbn. intros Hm.
  destruct (ref_Valid _) eqn:Ev; cbn; [|intros [= <-]; naive_solver].
  destruct (roles !! b_Role b) as [r|] eqn:Er.
  { pose proof (Hm _ _ Er) as Hl. intros (eff' & Hb & [= <-])%outcome_bind_Ok. cbn.
    rewrite (build_binding_clauses _ _ _ _ _ _ Hb), eff_Clauses_add_roleID, Hl. naive_solver. }
  destruct (lookup (b_Role b)) as [r|err] eqn:El.
  - intros (eff' & Hb & [= <-])%outcome_bind_Ok. cbn.
    rewrite (build_binding_clauses _ _ _ _ _ _ Hb), eff_Clauses_add_roleID. naive_solver.
  - case_match; [|done]. intros [= <-]. cbn. rewrite eff_Clauses_add_roleID. naive_solver.
Qed.

Lemma build_loop_clauses bs st st' id c :
  memo_ok st.2 → build_loop e lookup st bs = Ok st' →
  c ∈ eff_Clauses st'.1 id ↔ c ∈ eff_Clauses st.1 id ∨ ∃ b, b ∈ bs ∧ yields b id c.
Proof.
  revert st. induction bs as [|b bs IH]; intros st Hm; cbn.
  - intros [= <-]. setoid_rewrite elem_of_nil. naive_solver.
  - intros (st1 & Hr & Hl)%outcome_bind_Ok.
    rewrite (IH _ (build_round_memo _ _ _ Hm Hr) Hl), (build_round_clauses _ _ _ _ _ Hm Hr).
    setoid_rewrite elem_of_cons. naive_solver.
Qed.

(** A clause is in the result exactly when a binding yields it. *)
Lemma build_spec s bs eff id c :
  build e s bs lookup = Ok eff → c ∈ eff_Clauses eff id ↔ ∃ b, b ∈ bs ∧ yields b id c.
Proof.
  intros (st & Hl & [= <-])%outcome_bind_Ok.
  assert (memo_ok (∅ : gmap RoleRef Role)) as Hm by (intros ref r; by rewrite lookup_empty).
  rewrite (build_loop_clauses bs (emptyEffective s, ∅) _ _ _ Hm Hl).
  cbn. unfold eff_Clauses. cbn. rewrite lookup_empty. cbn. rewrite elem_of_nil. naive_solver.
Qed.

(** What a yielded clause looks like. *)
Lemma yields_inv b id c :
  yields b id c →
  ∃ role g p, lookup (b_Role b) = Ok role ∧ g ∈ Resolve role (e_cat e) ∧
    Lookup (e_cat e) (g_Permission g) = Some p ∧ p_ID p = id ∧
    q_Valid (g_Qualifier g) = true ∧ (Ownable p = false → g_Qualifier g = QualifierAll) ∧
    (p_OrganizationOnly p = true → IsRoot (e_h e) (b_Scope b) = true) ∧
    ∃ chain, ChainOf (e_resolver e) (e_h e) (b_Scope b) [] = Ok chain ∧
      c = mkClause (b_Scope b) chain (g_Qualifier g) (attrsFor p (r_Attrs role))
            (mkSource (b_ID b) (b_Role b) (r_Name role)).
Proof.
  intros (role & chain & g & _ & Hl & Hc & Hin & Hg). unfold grant_clause in Hg.
  destruct (Lookup _ _) as [p|] eqn:El; [|done]. exists role, g, p.
  destruct (q_Valid (g_Qualifier g)); [|done].
  destruct (g_Qualifier g =? QualifierAll)%Z eqn:Eq; [apply Z.eqb_eq in Eq|];
  destruct (Ownable p); cbn in Hg; try done;
  destruct (p_OrganizationOnly p), (IsRoot (e_h e) (b_Scope b)); cbn in Hg; try done;
  injection Hg as <- <-; repeat split; eauto; done.
Qed.

Lemma yields_wf b id c : yields b id c → wf_clause (e_resolver e) (e_h e) c.
Proof. intros (role & g & p & _ & _ & _ & _ & _ & _ & _ & chain & Hc & ->)%yields_inv. done. Qed.

(** The clauses of one binding alone. *)
Lemma build_wf s bs eff id :
  build e s bs lookup = Ok eff → Forall (wf_clause (e_resolver e) (e_h e)) (eff_Clauses eff id).
Proof.
  intros Hb. apply list.Forall_forall. intros c (b & _ & Hy)%(build_spec _ _ _ _ _ Hb). by eapply yields_wf.
Qed.
End Build.

(** ** RequireOn *)

Section RequireOn.
Context (e : Engine) (p : Principal) (perm : Permission) (res : Resource) (chain : Chain).

(** The gate [RequireOn] asks for a clause: the record's tenant when the record
    has a scope, the clause's otherwise. *)
Definition recordGate (c : Clause) : result bool :=
  if IsZero (res_Scope res) then featureOn e perm (cl_Scope c) (cl_Chain c)
  else featureOn e perm (res_Scope res) chain.

(** Clause [c] admits the record. *)
Definition admits (c : Clause) : Prop :=
  (IsRoot (e_h e) (cl_Scope c) = true ∧ p_Feature perm = "" ∨ Within chain (cl_Scope c) = true) ∧
  matchRecord c p perm res = true ∧ recordGate c = Ok true.

Context (Hchain : resourceChain e res = Ok chain)
        (Hgate : ∀ c, is_ok (recordGate c) = true).

Lemma recordGate_open c : p_Feature perm = "" → recordGate c = Ok true.
Proof. intros Hf. unfold recordGate, featureOn. rewrite !decide_True by done. by case_match. Qed.

(** The loop passes exactly when a clause admits the record, and otherwise
    denies: no other outcome. *)
Lemma requireOn_loop_spec permission got clauses :
  got = None ∨ got = Some chain →
  (requireOn_loop e permission p perm res got clauses = Ok () ∧ Exists admits clauses) ∨
  (requireOn_loop e permission p perm res got clauses = Err (forbidden permission) ∧ ¬ Exists admits clauses).
Proof.
  revert got. induction clauses as [|c rest IH]; intros got Hd; cbn [requireOn_loop].
  { right. split; [done|]. by intros ?%Exists_nil. }
  assert (∀ d, d = None ∨ d = Some chain → ¬ admits c →
    (requireOn_loop e permission p perm res d rest = Ok () ∧ Exists admits (c :: rest)) ∨
    (requireOn_loop e permission p perm res d rest = Err (forbidden permission) ∧ ¬ Exists admits (c :: rest)))
    as Hskip.
  { intros d Hd' Hc. rewrite Exists_cons. destruct (IH d Hd') as [[? ?]|[? ?]]; [left|right]; tauto. }
  destruct (negb (IsRoot (e_h e) (cl_Scope c)) || bool_decide (p_Feature perm ≠ "")) eqn:Eneeds.
  - assert (match got with Some ch => Ok (Some ch) | None => ch ← resourceChain e res; Ok (Some ch) end
            = Ok (Some chain)) as ->.
    { destruct Hd as [-> | ->]; [by rewrite Hchain|done]. }
    cbn [andb default from_option id].
    destruct (Within chain (cl_Scope c)) eqn:Ew; cbn [negb].
    2: { apply Hskip; [by right|]. unfold admits. rewrite Ew. intros ([[Hr Hf]|?] & _); [|done].
         rewrite Hr, Hf in Eneeds. done. }
    destruct (matchRecord c p perm res) eqn:Em; cbn [negb];
      [|apply Hskip; [by right|unfold admits; rewrite Em; naive_solver]].
    pose proof (Hgate c) as Hg. unfold recordGate in Hg.
    destruct (IsZero (res_Scope res)) eqn:Ez; cbn -[featureOn] in *.
    + destruct (featureOn e perm (cl_Scope c) (cl_Chain c)) as [[]|] eqn:Ef; [| |done].
      * left. split; [done|]. apply Exists_cons_hd. unfold admits, recordGate. rewrite Ez. tauto.
      * apply Hskip; [by right|]. unfold admits, recordGate. rewrite Ez, Ef. naive_solver.
    + destruct (featureOn e perm (res_Scope res) chain) as [[]|] eqn:Ef; [| |done].
      * left. split; [done|]. apply Exists_cons_hd. unfold admits, recordGate. rewrite Ez. tauto.
      * apply Hskip; [by right|]. unfold admits, recordGate. rewrite Ez, Ef. naive_solver.
  - apply orb_false_iff in Eneeds as [Hr%negb_false_iff Hf]. apply bool_decide_eq_false, dec_stable in Hf.
    cbn [andb]. destruct (matchRecord c p perm res) eqn:Em; cbn [negb];
      [|apply Hskip; [done|unfold admits; rewrite Em; naive_solver]].
    left. assert (∀ fb ch, featureOn e perm fb ch = Ok true) as Hopen.
    { intros. unfold featureOn. by rewrite decide_True. }
    destruct (match got with Some ch => if IsZero (res_Scope res) then (cl_Scope c, cl_Chain c)
               else (res_Scope res, ch) | None => (cl_Scope c, cl_Chain c) end) as [fb ch].
    rewrite Hopen. split; [done|]. apply Exists_cons_hd. unfold admits.
    rewrite recordGate_open by done. tauto.
Qed.
End RequireOn.

(** A pass always comes from a clause: nothing is assumed of the resolver or of
    the feature gates. *)
Lemma requireOn_loop_sound e permission p perm res got clauses :
  (∀ ch, got = Some ch → resourceChain e res = Ok ch) →
  requireOn_loop e permission p perm res got clauses = Ok () →
  ∃ c, c ∈ clauses ∧ matchRecord c p perm res = true ∧
    (IsRoot (e_h e) (cl_Scope c) = true ∧ p_Feature perm = "" ∨
     ∃ chain, resourceChain e res = Ok chain ∧ Within chain (cl_Scope c) = true).
Proof.
  revert got. induction clauses as [|c rest IH]; intros got Hd; cbn [requireOn_loop]; [done|].
  assert (∀ d, (∀ ch, d = Some ch → resourceChain e res = Ok ch) →
    requireOn_loop e permission p perm res d rest = Ok () →
    ∃ c', c' ∈ c :: rest ∧ matchRecord c' p perm res = true ∧
      (IsRoot (e_h e) (cl_Scope c') = true ∧ p_Feature perm = "" ∨
       ∃ chain, resourceChain e res = Ok chain ∧ Within chain (cl_Scope c') = true)) as Hskip.
  { intros d Hd' H. destruct (IH d Hd' H) as (c' & Hin & Hc). exists c'. split; [by right|done]. }
  destruct (negb (IsRoot (e_h e) (cl_Scope c)) || bool_decide (p_Feature perm ≠ "")) eqn:Eneeds.
  - destruct (match got with Some ch => Ok (Some ch) | None => ch ← resourceChain e res; Ok (Some ch) end)
      as [d|] eqn:Ed; [|done].
    assert (∃ ch, d = Some ch ∧ resourceChain e res = Ok ch) as (ch & -> & Hch).
    { destruct got as [ch|]; [injection Ed as <-; eauto|]. apply outcome_bind_Ok in Ed as (ch & ? & [= <-]). eauto. }
    cbn [andb default from_option id].
    destruct (Within ch (cl_Scope c)) eqn:Ew; cbn [negb]; [|apply Hskip; naive_solver].
    destruct (matchRecord c p perm res) eqn:Em; cbn [negb]; [|apply Hskip; naive_solver].
    intros _. exists c. split; [by left|]. split; [done|]. right. eauto.
  - apply orb_false_iff in Eneeds as [Hr%negb_false_iff Hf]. apply bool_decide_eq_false, dec_stable in Hf.
    cbn [andb]. destruct (matchRecord c p perm res) eqn:Em; cbn [negb]; [|apply Hskip; naive_solver].
    intros _. exists c. split; [by left|]. split; [done|]. by left.
Qed.

(** ** Checks in a world whose cache is coherent *)

Section Coherent.
Context {St : Type} `{!Reader St} (e : Engine).

(** Every cached access is what a load would build now. [CacheSafety] shows the
    engine and its writers keep it so whenever no write awaits its eviction. *)
Definition coherent (w : World St) : Prop :=
  ∀ s ent, c_entries (w_cache w) !! s = Some ent → load e (w_store w) s = Ok (ce_eff ent).

Lemma EffectiveOf_spec s w r w' :
  coherent w → EffectiveOf e s w = (r, w') →
  r = load e (w_store w) s ∧ w_store w' = w_store w ∧ coherent w'.
Proof.
  intros Hc. unfold EffectiveOf. destruct (get (w_cache w) s) as [[eff|] c] eqn:Eg.
  - apply get_Some in Eg as (exp & Hent & _ & Hents & _). intros [= <- <-]. cbn.
    split; [symmetry; exact (Hc _ _ Hent)|]. split; [done|]. intros x ent. cbn. rewrite Hents. apply Hc.
  - apply get_sub in Eg as [Hsub _].
    assert (∀ x ent, c_entries c !! x = Some ent → load e (w_store w) x = Ok (ce_eff ent)) as Hc'.
    { intros x ent Hx. eapply Hc, lookup_weaken; done. }
    destruct (load e (w_store w) s) as [eff|err] eqn:El; intros [= <- <-]; cbn; (split; [done|]); (split; [done|]).
    + intros x ent. cbn. rewrite put_lookup. destruct (_ && _) eqn:Eb; [|apply Hc'].
      apply andb_true_iff in Eb as [_ ->%bool_decide_eq_true]. intros [= <-]. done.
    + exact Hc'.
Qed.

Lemma prepare_spec ctx permission w r w' :
  coherent w → prepare e ctx permission w = (r, w') →
  w_store w' = w_store w ∧ coherent w' ∧
  r = match PrincipalFrom ctx with
      | None => Err unauthenticated
      | Some p =>
          match Lookup (e_cat e) permission with
          | None => Err (unknownPermission permission)
          | Some perm => eff ← load e (w_store w) (pr_Subject p); Ok (p, perm, eff)
          end
      end.
Proof.
  intros Hc. unfold prepare. destruct (PrincipalFrom ctx) as [p|]; [|intros [= <- <-]; done].
  destruct (Lookup _ _) as [perm|]; [|intros [= <- <-]; done].
  unfold mbind, stM_bind. destruct (EffectiveOf e (pr_Subject p) w) as [r1 w1] eqn:Ee.
  destruct (EffectiveOf_spec _ _ _ _ Hc Ee) as (-> & Hst & Hc1).
  destruct (load e (w_store w) (pr_Subject p)) as [eff|err]; intros [= <- <-]; done.
Qed.

Lemma load_build st s eff :
  load e st s = Ok eff →
  ∃ bs, BindingsFor st s = Ok bs ∧ build e s bs (lookupRole e st) = Ok eff.
Proof.
  unfold load. destruct (BindingsFor st s) as [bs|]; [|done].
  destruct (build _ _ _ _) as [eff'|] eqn:Eb; [|done]. intros [= <-]. eauto.
Qed.

(** How a check that begins with [prepare] decomposes. *)
Lemma prepared {A} (f : Principal * Permission * Effective → stM (World St) error A) ctx permission w p perm eff :
  coherent w → PrincipalFrom ctx = Some p → Lookup (e_cat e) permission = Some perm →
  load e (w_store w) (pr_Subject p) = Ok eff →
  ∃ w1, w_store w1 = w_store w ∧ coherent w1 ∧ (prepare e ctx permission ≫= f) w = f (p, perm, eff) w1.
Proof.
  intros Hc Hp Hl Hload. unfold mbind, stM_bind.
  destruct (prepare e ctx permission w) as [r w1] eqn:Ep.
  destruct (prepare_spec _ _ _ _ _ Hc Ep) as (Hs & Hc1 & ->). rewrite Hp, Hl, Hload. eauto.
Qed.

(** A check that passes has a principal, a known permission and a load. *)
Lemma prepared_inv {A} (f : Principal * Permission * Effective → stM (World St) error A) ctx permission w (a : A) :
  coherent w → ((prepare e ctx permission ≫= f) w).1 = Ok a →
  ∃ p perm eff w1, PrincipalFrom ctx = Some p ∧ Lookup (e_cat e) permission = Some perm ∧
    load e (w_store w) (pr_Subject p) = Ok eff ∧ (f (p, perm, eff) w1).1 = Ok a.
Proof.
  intros Hc. unfold mbind, stM_bind.
  destruct (prepare e ctx permission w) as [r w1] eqn:Ep.
  destruct (prepare_spec _ _ _ _ _ Hc Ep) as (_ & _ & ->).
  destruct (PrincipalFrom ctx) as [p|]; [|done]. destruct (Lookup _ _) as [perm|]; [|done].
  destruct (load _ _ _) as [eff|] eqn:El; [|done]. cbn. intros H. exists p, perm, eff, w1. done.
Qed.
End Coherent.

(** ** What a build depends on *)

Section Dependence.
Context (e : Engine).

Lemma build_round_ext l1 l2 st b :
  (ref_Valid (b_Role b) = true → l1 (b_Role b) = l2 (b_Role b)) →
  build_round e l1 st b = build_round e l2 st b.
Proof.
  destruct st as [eff roles]. unfold build_round. intros H.
  destruct (ref_Valid _); [|done]. by rewrite H.
Qed.

(** Only the lookups of valid references of the bindings matter. *)
Lemma build_loop_ext l1 l2 st bs :
  (∀ b, b ∈ bs → ref_Valid (b_Role b) = true → l1 (b_Role b) = l2 (b_Role b)) →
  build_loop e l1 st bs = build_loop e l2 st bs.
Proof.
  revert st. induction bs as [|b bs IH]; intros st H; cbn; [done|].
  rewrite (build_round_ext l1 l2) by (apply H; left).
  destruct (build_round e l2 st b) as [st'|]; cbn; [|done]. apply IH. intros x Hx. apply H. by right.
Qed.

Lemma build_ext l1 l2 s bs :
  (∀ b, b ∈ bs → ref_Valid (b_Role b) = true → l1 (b_Role b) = l2 (b_Role b)) →
  build e s bs l1 = build e s bs l2.
Proof. intros H. unfold build. by rewrite (build_loop_ext l1 l2). Qed.

Lemma build_binding_roleIDs eff b role eff' :
  build_binding e eff b role = Ok eff' → eff_roleIDs eff' = eff_roleIDs eff.
Proof.
  unfold build_binding. destruct (ChainOf _ _ _ _) as [chain|err]; cbn.
  - intros [= <-]. case_match; [|done]. unfold pinTenant. by repeat case_match.
  - case_match; [by intros [= <-]|done].
Qed.

Lemma build_round_roleIDs lookup st b st' :
  build_round e lookup st b = Ok st' →
  eff_roleIDs st'.1 =
    if ref_Valid (b_Role b) && (0 <? ref_ID (b_Role b))%Z
    then {[ ref_ID (b_Role b) ]} ∪ eff_roleIDs st.1 else eff_roleIDs st.1.
Proof.
  destruct st as [eff roles]. unfold build_round, add_roleID. destruct (ref_Valid _); cbn; [|by intros [= <-]].
  destruct (roles !! b_Role b) as [r|].
  { intros (eff' & Hb%build_binding_roleIDs & [= <-])%outcome_bind_Ok. cbn. rewrite Hb. by case_match. }
  destruct (lookup (b_Role b)) as [r|err].
  - intros (eff' & Hb%build_binding_roleIDs & [= <-])%outcome_bind_Ok. cbn. rewrite Hb. by case_match.
  - case_match; [|done]. intros [= <-]. cbn. by case_match.
Qed.

Lemma build_loop_roleIDs lookup st bs st' :
  build_loop e lookup st bs = Ok st' →
  eff_roleIDs st.1 ⊆ eff_roleIDs st'.1 ∧
  ∀ b, b ∈ bs → ref_Valid (b_Role b) = true → (0 < ref_ID (b_Role b))%Z → ref_ID (b_Role b) ∈ eff_roleIDs st'.1.
Proof.
  revert st. induction bs as [|b bs IH]; intros st; cbn.
  - intros [= <-]. split; [done|]. intros b []%elem_of_nil.
  - intros (st1 & Hr%build_round_roleIDs & Hl)%outcome_bind_Ok. destruct (IH _ Hl) as [Hsub Hin].
    split.
    + etrans; [|exact Hsub]. rewrite Hr. case_match; [apply union_subseteq_r|done].
    + intros x [->|Hx]%elem_of_cons Hv Hp; [|by apply Hin]. apply Hsub. rewrite Hr, Hv.
      apply Z.ltb_lt in Hp. rewrite Hp. cbn. apply elem_of_union_l. by apply elem_of_singleton.
Qed.

(** Changing a custom role the access does not use does not change the access. *)
Lemma build_role_irrelevant l1 l2 s bs eff k :
  build e s bs l1 = Ok eff → k ∉ eff_roleIDs eff →
  (∀ ref, ref_Valid ref = true → ¬ ((0 < ref_ID ref)%Z ∧ ref_ID ref = k) → l1 ref = l2 ref) →
  build e s bs l2 = Ok eff.
Proof.
  intros Hb Hk H. rewrite <-Hb. symmetry. apply build_ext. intros b Hin Hv. apply H; [done|].
  intros [Hp Heq]. apply Hk. rewrite <-Heq. unfold build in Hb.
  apply outcome_bind_Ok in Hb as (st & Hl & [= <-]). by apply (build_loop_roleIDs _ _ _ _ Hl).
Qed.

Context {St : Type} `{!Reader St}.

Lemma lookupRole_ext (st st' : St) ref :
  ref_Valid ref = true →
  ((0 < ref_ID ref)%Z → StoreRole st (ref_ID ref) = StoreRole st' (ref_ID ref)) →
  lookupRole e st ref = lookupRole e st' ref.
Proof.
  unfold lookupRole, ref_Valid. intros Hv H.
  destruct (decide (ref_Key ref ≠ "")) as [Hk|Hk]; [done|].
  rewrite (bool_decide_eq_false_2 (ref_Key ref ≠ "")) in Hv by done.
  destruct (Z.ltb_spec 0 (ref_ID ref)); [auto|done].
Qed.

Lemma load_same (st st' : St) s :
  BindingsFor st s = BindingsFor st' s → (∀ id, StoreRole st id = StoreRole st' id) →
  load e st s = load e st' s.
Proof.
  intros Hb Hr. unfold load. rewrite Hb. destruct (BindingsFor st' s) as [bs|]; [|done].
  rewrite (build_ext (lookupRole e st) (lookupRole e st')); [done|].
  intros b _ Hv. by apply lookupRole_ext.
Qed.

Lemma load_role_irrelevant (st st' : St) s eff k :
  load e st s = Ok eff → k ∉ eff_roleIDs eff →
  BindingsFor st s = BindingsFor st' s → (∀ id, id ≠ k → StoreRole st id = StoreRole st' id) →
  load e st' s = Ok eff.
Proof.
  intros (bs & Hbs & Hb)%load_build Hk Hsame Hr. unfold load. rewrite <-Hsame, Hbs.
  rewrite (build_role_irrelevant _ (lookupRole e st') _ _ _ _ Hb Hk); [done|].
  intros ref Hv Hne. apply lookupRole_ext; [done|]. intros Hp. apply Hr. intros Heq. by apply Hne.
Qed.
End Dependence.

(** ** Tenants *)

Section Tenants.
Context (e : Engine) (lookup : RoleRef → result Role).

(** Unless some binding is at the root or below no tenant, every clause lies in
    a recorded tenant. *)
Definition pinned (eff : Effective) : Prop :=
  eff_hasRoot eff = false → eff_unpinned eff = false →
  ∀ id c, c ∈ eff_Clauses eff id →
    ∃ t, tenantOf (e_h e) (cl_Chain c) = Some t ∧ s_ID t ∈ eff_tenants eff.

Lemma grant_clause_chain b role chain g id c :
  grant_clause e b role chain g = Some (id, c) → cl_Chain c = chain.
Proof. unfold grant_clause. repeat case_match; naive_solver. Qed.

Lemma pinned_build_binding eff b role eff' :
  pinned eff → build_binding e eff b role = Ok eff' → pinned eff'.
Proof.
  unfold build_binding. intros Hp. destruct (ChainOf _ _ _ _) as [chain|]; [|case_match; [by intros [= <-]|done]].
  unfold addClauses. cbn. set (new := omap _ _).
  assert (∀ id c, (id, c) ∈ new → cl_Chain c = chain) as Hnew.
  { intros id c (g & _ & Hg)%list_elem_of_omap. by eapply grant_clause_chain. }
  destruct (decide (new = [])) as [->|Hne].
  { rewrite bool_decide_eq_true_2 by done. cbn. intros [= <-]. destruct eff. exact Hp. }
  rewrite bool_decide_eq_false_2 by done. cbn. intros [= <-]. unfold pinTenant.
  destruct (IsRoot (e_h e) (b_Scope b)); [by intros ?|].
  destruct (tenantOf (e_h e) chain) as [t|] eqn:Et; [|by intros ? ?].
  intros Hr Hu id c. cbn in *. unfold eff_Clauses. cbn. rewrite append_clause_lookup. intros [Hc|Hc].
  - destruct (Hp Hr Hu id c Hc) as (t' & ? & ?). exists t'. split; [done|]. by apply elem_of_union_r.
  - rewrite (Hnew _ _ Hc). exists t. split; [done|]. apply elem_of_union_l. by apply elem_of_singleton.
Qed.

Lemma pinned_round st b st' : pinned st.1 → build_round e lookup st b = Ok st' → pinned st'.1.
Proof.
  destruct st as [eff roles]. unfold build_round. cbn [fst]. intros Hp.
  assert (pinned (add_roleID eff (ref_ID (b_Role b)))) as Hp'.
  { unfold add_roleID. case_match; [|done]. destruct eff. exact Hp. }
  destruct (ref_Valid _); cbn [negb]; [|by intros [= <-]].
  destruct (roles !! b_Role b) as [r|].
  { intros (eff' & Hb & [= <-])%outcome_bind_Ok. by eapply pinned_build_binding. }
  destruct (lookup (b_Role b)) as [r|err].
  - intros (eff' & Hb & [= <-])%outcome_bind_Ok. by eapply pinned_build_binding.
  - case_match; [|done]. by intros [= <-].
Qed.

Lemma pinned_build s bs eff : build e s bs lookup = Ok eff → pinned eff.
Proof.
  intros (st & Hl & [= <-])%outcome_bind_Ok.
  assert (pinned (emptyEffective s, ∅ : gmap RoleRef Role).1) as H0.
  { intros _ _ id c. unfold eff_Clauses. cbn. rewrite lookup_empty. by intros ?%elem_of_nil. }
  revert H0 Hl. generalize (emptyEffective s, ∅ : gmap RoleRef Role).
  induction bs as [|b bs IH]; cbn; intros st0 H0.
  - by intros [= <-].
  - intros (st1 & Hr & Hl)%outcome_bind_Ok. eapply IH; [|exact Hl]. by eapply pinned_round.
Qed.

Lemma eff_Tenant_Some eff t :
  eff_Tenant eff = Some t → eff_hasRoot eff = false ∧ eff_unpinned eff = false ∧ eff_tenants eff = {[ t ]}.
Proof.
  unfold eff_Tenant. destruct (eff_hasRoot eff), (eff_unpinned eff); cbn; try done.
  destruct (Nat.eqb_spec (size (eff_tenants eff)) 1) as [Hs|]; cbn; [|done]. intros Hh.
  split; [done|]. split; [done|]. apply size_1_elem_of in Hs as [x Hx%leibniz_equiv]. rewrite Hx in *.
  rewrite elements_singleton in Hh. cbn in Hh. congruence.
Qed.
End Tenants.

(** ** Require and MyAccess *)

Section Require.
Context (e : Engine) (perm : Permission).

(** The gate at a clause's own scope, which [Require], [Access] and [MyAccess] ask. *)
Definition ownGate (c : Clause) : result bool := featureOn e perm (cl_Scope c) (cl_Chain c).

Lemma openClauses_total clauses :
  Forall (λ c, is_ok (ownGate c) = true) clauses →
  ∃ open, openClauses e perm clauses = Ok open ∧ ∀ c, c ∈ open ↔ c ∈ clauses ∧ ownGate c = Ok true.
Proof.
  induction 1 as [|c l Hc _ IH]; cbn [openClauses].
  - exists []. split; [done|]. intros c. rewrite elem_of_nil. tauto.
  - destruct IH as (open & Ho & Hin). unfold ownGate in *. rewrite Ho.
    destruct (featureOn e perm (cl_Scope c) (cl_Chain c)) as [[]|] eqn:Ef; cbn; [| |done].
    + exists (c :: open). split; [done|]. intros x. rewrite !elem_of_cons, Hin. split.
      * intros [->|[? ?]]; tauto.
      * tauto.
    + exists open. split; [done|]. intros x. rewrite elem_of_cons, Hin. split; [tauto|].
      intros [[->|?] Hx]; [congruence|tauto].
Qed.

Lemma openClauses_exact clauses open :
  openClauses e perm clauses = Ok open → ∀ c, c ∈ open ↔ c ∈ clauses ∧ ownGate c = Ok true.
Proof.
  intros H. destruct (openClauses_total clauses) as (open' & H' & Hin); [|rewrite H in H'; by injection H' as <-].
  revert open H. induction clauses as [|c l IH]; cbn [openClauses]; intros open H; [constructor|].
  unfold ownGate. destruct (featureOn _ _ _ _) as [on|] eqn:Ef; [|done].
  apply outcome_bind_Ok in H as (o & Ho & _). constructor; [by rewrite Ef|by eapply IH].
Qed.

(** The record lies where the resolver puts it: outside every scope, and then in the
    root alone, or in a scope whose chain is known and is the declared one. *)
Definition lies_in (res : Resource) (chain : Chain) : Prop :=
  if IsZero (res_Scope res) then chain = [Root (e_h e)]
  else ChainOf (e_resolver e) (e_h e) (res_Scope res) (res_Ancestors res) = Ok chain ∧
       ChainOf (e_resolver e) (e_h e) (res_Scope res) [] = Ok chain.

(** The feature of the permission answers for a scope above the tenants that holds
    the record what it answers for the record. *)
Definition gate_uniform (res : Resource) (chain : Chain) : Prop :=
  IsZero (res_Scope res) = false → ∀ s ch, ChainOf (e_resolver e) (e_h e) s [] = Ok ch →
    tenantOf (e_h e) ch = None → Within chain s = true →
    featureOn e perm s ch = featureOn e perm (res_Scope res) chain.

Lemma lies_in_chain res chain : wf_hierarchy (e_h e) → lies_in res chain →
  resourceChain e res = Ok chain ∧ ∃ s, ChainOf (e_resolver e) (e_h e) s [] = Ok chain.
Proof.
  intros Hwf. unfold lies_in, resourceChain. destruct (IsZero (res_Scope res)).
  - intros ->. split; [done|]. exists (Root (e_h e)). by apply ChainOf_Root.
  - intros [-> H]. split; [done|]. by eexists.
Qed.

(** Then a clause that holds the record has one gate, whoever asks. *)
Lemma gates_agree res chain c :
  wf_hierarchy (e_h e) → lies_in res chain → gate_uniform res chain →
  wf_clause (e_resolver e) (e_h e) c → Within chain (cl_Scope c) = true →
  ownGate c = recordGate e perm res chain c.
Proof.
  intros Hwf Hin Hu Hc Hw. unfold ownGate, recordGate. destruct (IsZero (res_Scope res)) eqn:Ez; [done|].
  unfold lies_in in Hin. rewrite Ez in Hin. destruct Hin as [_ Hs].
  destruct (tenantOf (e_h e) (cl_Chain c)) as [t|] eqn:Et; [|by apply Hu].
  pose proof (tenantOf_within _ _ Hwf _ _ _ _ _ Hs Hw Hc Et) as Et'. unfold featureOn. by rewrite Et, Et'.
Qed.

(** Among clauses, those that admit the record are the open ones that reach it. *)
Lemma admits_reaches p res chain c (clauses : list Clause) :
  wf_hierarchy (e_h e) → lies_in res chain → gate_uniform res chain →
  (c ∈ clauses → wf_clause (e_resolver e) (e_h e) c) →
  c ∈ clauses ∧ admits e p perm res chain c ↔
  (c ∈ clauses ∧ ownGate c = Ok true) ∧ reaches chain p perm res c = true.
Proof.
  intros Hwf Hin Hu Hc. unfold admits, reaches. rewrite andb_true_iff. split.
  - intros (Hcl & Hor & Hm & Hg). assert (Within chain (cl_Scope c) = true) as Hw.
    { destruct Hor as [[Hroot _]|?]; [|done]. apply contains_spec.
      destruct (lies_in_chain res chain Hwf Hin) as (_ & s & Hs).
      destruct (ChainOf_inv _ _ Hwf _ _ _ (Hc Hcl)) as (Hck & _). rewrite (checked_root _ Hwf _ Hck Hroot).
      by eapply ChainOf_Root_in. }
    by rewrite (gates_agree res chain c) by auto.
  - intros ((Hcl & Hg) & Hw & Hm). rewrite (gates_agree res chain c) in Hg by auto. auto.
Qed.

Lemma openClauses_nofeature clauses : p_Feature perm = "" → openClauses e perm clauses = Ok clauses.
Proof.
  intros Hf. induction clauses as [|c l IH]; cbn [openClauses]; [done|].
  unfold featureOn. rewrite decide_True by done. by rewrite IH.
Qed.

Lemma openClauses_sub clauses open : openClauses e perm clauses = Ok open → ∀ c, c ∈ open → c ∈ clauses.
Proof.
  revert open. induction clauses as [|c l IH]; cbn [openClauses]; intros open.
  - intros [= <-]. done.
  - destruct (featureOn _ _ _ _) as [on|]; [|done]. intros (o & Ho & [= <-])%outcome_bind_Ok.
    specialize (IH _ Ho). intros x. destruct on; rewrite !elem_of_cons; [|auto].
    intros [->|?]; [by left|right; auto].
Qed.

(** The loop of [Require] agrees with the list of open clauses. *)
Lemma require_loop_open permission clauses open :
  openClauses e perm clauses = Ok open →
  require_loop e permission perm clauses = match open with [] => Err (forbidden permission) | _ => Ok () end.
Proof.
  revert open. induction clauses as [|c l IH]; cbn [openClauses require_loop]; intros open.
  - by intros [= <-].
  - destruct (featureOn _ _ _ _) as [[]|]; [| |done]; intros (o & Ho & [= <-])%outcome_bind_Ok; [done|].
    by apply IH.
Qed.
End Require.

Section MyAccess.
Context (e : Engine) (Hh : wf_hierarchy (e_h e)) (eff : Effective).
Context (Hgates : ∀ id perm fb ch, Lookup (e_cat e) id = Some perm → is_ok (featureOn e perm fb ch) = true)
        (Hclauses : ∀ id, Forall (wf_clause (e_resolver e) (e_h e)) (eff_Clauses eff id)).

Definition permOf (id : string) : Permission := default (zeroPermission "") (Lookup (e_cat e) id).

Lemma permOf_gate id fb ch : is_ok (featureOn e (permOf id) fb ch) = true.
Proof.
  unfold permOf. destruct (Lookup (e_cat e) id) as [perm|] eqn:El; cbn [default from_option].
  - by eapply Hgates.
  - unfold featureOn. by rewrite decide_True.
Qed.

Lemma describe_Some clauses : clauses ≠ [] → ∃ pa, describe e clauses = Some pa.
Proof. destruct clauses; cbn; eauto. done. Qed.

(** The loop never panics and lists exactly what [Require] lets through. *)
Lemma myAccess_loop_spec ids out :
  ∃ out', myAccess_loop e eff out ids = Ok out' ∧
    ma_Subject out' = ma_Subject out ∧ ma_Root out' = ma_Root out ∧
    ∀ id, is_Some (ma_Permissions out' !! id) ↔
      is_Some (ma_Permissions out !! id) ∨
      id ∈ ids ∧ require_loop e id (permOf id) (eff_Clauses eff id) = Ok ().
Proof.
  revert out. induction ids as [|x ids IH]; intros out; cbn [myAccess_loop].
  { exists out. repeat split; try done; [tauto|]. intros [?|[[]%elem_of_nil _]]; done. }
  fold (permOf x).
  destruct (openClauses_total e (permOf x) (eff_Clauses eff x)) as (open & Ho & Hin).
  { apply list.Forall_forall. intros c _. apply permOf_gate. }
  rewrite Ho. pose proof (require_loop_open e (permOf x) x _ _ Ho) as Hreq.
  change (@mbind (outcome error) _ _ _ ?f (Ok open)) with (f open). cbv beta.
  destruct open as [|c0 open].
  - destruct (IH (mkMyAccess (ma_Subject out) (ma_Root out) (ma_Permissions out) (ma_Unavailable out ++ [x])))
      as (out' & -> & Hs & Hr & Hp). exists out'. repeat split; try done; rewrite Hp; cbn.
    + intros [?|[? ?]]; [by left|right]. split; [by right|done].
    + intros [?|[[->|?]%elem_of_cons Hq]]; [by left|congruence|right; done].
  - assert (Forall (wf_clause (e_resolver e) (e_h e)) (c0 :: open)) as Hw.
    { apply list.Forall_forall. intros c Hc. apply Hin in Hc as [Hc _].
      pose proof (Hclauses x) as Hx. rewrite list.Forall_forall in Hx. by apply Hx. }
    destruct (describe_Some (prune (c0 :: open))) as [pa ->].
    { intros Hn. by eapply prune_nil in Hn. }
    destruct (IH (mkMyAccess (ma_Subject out) (ma_Root out) (<[x := pa]> (ma_Permissions out)) (ma_Unavailable out)))
      as (out' & -> & Hs & Hr & Hp). exists out'. repeat split; try done; rewrite Hp; cbn;
      rewrite lookup_insert_is_Some, elem_of_cons.
    + intros [[->|[_ ?]]|[? ?]]; [right; split; [by left|done]|by left|right; split; [by right|done]].
    + intros [?|[[->|?] ?]]; [left|left; by left|right; done].
      destruct (decide (x = id)); [by left|right; done].
Qed.
End MyAccess.

(** ** HoldersOf *)

Section Holders.
Lemma firstSubjects_spec bs :
  NoDup (firstSubjects bs) ∧ ∀ s, s ∈ firstSubjects bs ↔ ∃ b, b ∈ bs ∧ b_Subject b = s.
Proof.
  unfold firstSubjects. induction bs as [|b bs IH] using rev_ind; cbn [foldl].
  - split; [constructor|]. intros s. rewrite elem_of_nil. setoid_rewrite elem_of_nil. naive_solver.
  - rewrite foldl_snoc. set (out := foldl _ _ bs) in *. destruct IH as [Hn Hin].
    setoid_rewrite elem_of_app. setoid_rewrite list_elem_of_singleton.
    destruct (contains out (b_Subject b)) eqn:Ec.
    + apply contains_spec in Ec. split; [done|]. intros s. rewrite Hin. split; [naive_solver|].
      intros (x & [?| ->] & <-); [eauto|]. by apply Hin.
    + split.
      * apply list.NoDup_app. split; [done|]. split; [|apply NoDup_singleton].
        intros s Hs ->%list_elem_of_singleton. apply contains_spec in Hs. congruence.
      * intros s. rewrite elem_of_app, list_elem_of_singleton, Hin. naive_solver.
Qed.

Context {St : Type} `{!HolderReader St} (e : Engine) (st : St).

Lemma holders_loop_spec permission roles bs :
  holders_loop e st permission roles = Ok bs →
  ∀ b, b ∈ bs ↔ ∃ role held, role ∈ roles ∧ grants role (e_cat e) permission = true ∧
    StoreHoldersOf st (Ref role) = Ok held ∧ b ∈ held.
Proof.
  revert bs. induction roles as [|r roles IH]; intros bs; cbn [holders_loop].
  - intros [= <-] b. rewrite elem_of_nil. setoid_rewrite elem_of_nil. naive_solver.
  - destruct (grants r (e_cat e) permission) eqn:Eg; cbn [negb].
    + destruct (StoreHoldersOf st (Ref r)) as [held|] eqn:Eh; [|done].
      intros (more & Hm & [= <-])%outcome_bind_Ok b. rewrite elem_of_app, (IH _ Hm). split.
      * intros [?|(role & h & ? & ?)]; [exists r, held; rewrite elem_of_cons; tauto|].
        exists role, h. rewrite elem_of_cons. tauto.
      * intros (role & h & [->|?]%elem_of_cons & ? & Hh & ?); [left; congruence|right; eauto 10].
    + intros Hl b. rewrite (IH _ Hl). split.
      * intros (role & h & ? & ?). exists role, h. rewrite elem_of_cons. tauto.
      * intros (role & h & [->|?]%elem_of_cons & ? & Hh & ?); [congruence|eauto 10].
Qed.

Lemma grants_spec role cat permission :
  grants role cat permission = true ↔ ∃ g, g ∈ Resolve role cat ∧ g_Permission g = permission.
Proof. unfold grants. rewrite existsb_elem. by setoid_rewrite bool_decide_eq_true. Qed.
End Holders.

(** ** NewEngine *)

Lemma addRoles_spec cat acc roles m :
  addRoles cat acc roles = Ok m →
  (∀ k r, acc !! k = Some r → r_Key r = k ∧ k ≠ "" ∧ r_ID r = 0%Z ∧ valid_role cat r) →
  (∀ k r, m !! k = Some r → r_Key r = k ∧ k ≠ "" ∧ r_ID r = 0%Z ∧ valid_role cat r) ∧
  acc ⊆ m ∧ Forall (λ r, m !! r_Key r = Some r) roles.
Proof.
  revert acc. induction roles as [|r roles IH]; intros acc; cbn [addRoles].
  - intros [= <-] H. split; [done|]. split; [done|constructor].
  - destruct (decide (r_Key r = "")) as [Hk|Hk]; [by rewrite bool_decide_eq_true_2|].
    rewrite bool_decide_eq_false_2 by done. cbn.
    destruct (Z.eqb_spec (r_ID r) 0) as [Hid|]; [|done]. cbn.
    destruct (acc !! r_Key r) eqn:Ea; [done|].
    destruct (ValidateRole r cat) as [[]|] eqn:Ev; [|done]. intros Hadd Hacc.
    apply ValidateRole_spec in Ev.
    destruct (IH _ Hadd) as (Hm & Hsub & Hall).
    { intros k x. rewrite lookup_insert_Some. intros [[<- <-]|[_ Hx]]; [done|by apply Hacc]. }
    split; [done|]. split.
    + etrans; [|exact Hsub]. by apply insert_subseteq.
    + constructor; [|done]. eapply lookup_weaken; [|exact Hsub]. apply lookup_insert_eq.
Qed.

Lemma NewEngine_inv clock cfg e c :
  NewEngine clock cfg = Ok (e, c) →
  ∃ cat, cfg_Catalogue cfg = Some cat ∧ cfg_Hierarchy cfg = Some (e_h e) ∧
    e_cat e = mkCatalogue (c_perms cat) (c_order cat) true ∧ Validate cat = Ok () ∧
    addRoles (e_cat e) ∅ (cfg_Roles cfg) = Ok (e_roles e) ∧
    e_features e = cfg_Features cfg ∧ (HasFeatures cat = true → is_Some (e_features e)).
Proof.
  unfold NewEngine. destruct (cfg_Catalogue cfg) as [cat|]; [|done].
  destruct (cfg_Hierarchy cfg) as [h|]; [|done]. destruct (cfg_hasStore cfg); [|done]. cbn.
  destruct (cfg_Resolver cfg) as [res|]; [|done].
  destruct (HasFeatures cat && bool_decide (cfg_Features cfg = None)) eqn:Ef; [done|].
  intros (cat' & Hf & (roles & Hr & [= <- <-])%outcome_bind_Ok)%outcome_bind_Ok. cbn.
  unfold freeze in Hf. destruct (Validate cat) as [[]|] eqn:Ev; [|done]. injection Hf as <-.
  exists cat. repeat split; try done. intros Hhas. rewrite Hhas in Ef. cbn in Ef.
  apply bool_decide_eq_false in Ef. by apply not_eq_None_Some in Ef.
Qed.
