(* ===== verification/CacheSafety.v ===== *)
(** * Loads, writes and evictions interleaved (src/authz/cache.go, engine.go)

    The engine is used concurrently: while one goroutine loads a subject's
    access, reading bindings and then roles one by one, others change the store
    and evict. The steps below are the atomic actions of those goroutines, in any
    order. The cache's contract is that a slow load never stores stale access: the
    epoch it began with no longer matches after an eviction. *)

From S2P Require Import Prelude Apperr Catalogue Hierarchy Role Access Cache Engine EngineSpec.

Section Safety.
Context {St : Type} `{!Reader St} (e : Engine).

(** The eviction a writer owes after a change, and what it removes. *)
Inductive eviction : Type := EvSubject (s : Subject) | EvRole (id : Z) | EvAll.

Definition doEvict (ev : eviction) (c : Cache) : Cache :=
  match ev with
  | EvSubject s => Evict c s
  | EvRole id => EvictRole c id
  | EvAll => EvictAll c
  end.

(** What a writer may change before it owes [ev]. *)
Definition change (st st' : St) (ev : eviction) : Prop :=
  match ev with
  | EvSubject s0 => (∀ s, s ≠ s0 → BindingsFor st' s = BindingsFor st s) ∧
                    (∀ id, StoreRole st' id = StoreRole st id)
  | EvRole k => (∀ s, BindingsFor st' s = BindingsFor st s) ∧
                (∀ id, id ≠ k → StoreRole st' id = StoreRole st id)
  | EvAll => True
  end.

(** A load in flight: it has its epoch, and then the progress of [build] and the
    bindings still to process. *)
Inductive loader : Type :=
| LStarted (s : Subject) (epoch : Z)
| LBuilding (s : Subject) (epoch : Z) (st : progress) (rest : list Binding).

(** [y_evictions] counts the evictions so far; the epoch is its low 64 bits. *)
Record sys : Type := mkSys {
  y_store : St;
  y_cache : Cache;
  y_pending : list eviction;
  y_loads : list loader;
  y_evictions : Z
}.

Inductive step : sys → sys → Prop :=
| step_change st st' c pend loads n ev :
    change st st' ev → step (mkSys st c pend loads n) (mkSys st' c (ev :: pend) loads n)
| step_evict st c p1 ev p2 loads n :
    step (mkSys st c (p1 ++ ev :: p2) loads n) (mkSys st (doEvict ev c) (p1 ++ p2) loads (n + 1))
| step_get st c pend loads n s r c' :
    get c s = (r, c') → step (mkSys st c pend loads n) (mkSys st c' pend loads n)
| step_begin st c pend loads n s :
    step (mkSys st c pend loads n) (mkSys st c pend (LStarted s (begin c) :: loads) n)
| step_read st c pend l1 s ep l2 n bs :
    BindingsFor st s = Ok bs →
    step (mkSys st c pend (l1 ++ LStarted s ep :: l2) n)
         (mkSys st c pend (l1 ++ LBuilding s ep (emptyEffective s, ∅) bs :: l2) n)
| step_round st c pend l1 s ep prog b rest prog' l2 n :
    build_round e (lookupRole e st) prog b = Ok prog' →
    step (mkSys st c pend (l1 ++ LBuilding s ep prog (b :: rest) :: l2) n)
         (mkSys st c pend (l1 ++ LBuilding s ep prog' rest :: l2) n)
| step_put st c pend l1 s ep prog l2 n :
    step (mkSys st c pend (l1 ++ LBuilding s ep prog [] :: l2) n)
         (mkSys st (put c s prog.1 ep) pend (l1 ++ l2) n)
| step_fail st c pend l1 l l2 n :
    step (mkSys st c pend (l1 ++ l :: l2) n) (mkSys st c pend (l1 ++ l2) n).

(** A new cache over any store. *)
Definition initial (st : St) (now : nat → Z) (ttl : Z) : sys := mkSys st (NewCache now ttl) [] [] 0.

Inductive reachable (st0 : St) (now : nat → Z) (ttl : Z) : sys → Prop :=
| reach_init : reachable st0 now ttl (initial st0 now ttl)
| reach_step y y' : reachable st0 now ttl y → step y y' → reachable st0 now ttl y'.

(** ** The invariant *)

Definition hits (ev : eviction) (s : Subject) (ids : gset Z) : Prop :=
  match ev with
  | EvSubject s' => s' = s
  | EvRole k => k ∈ ids
  | EvAll => True
  end.

(** A pending eviction will remove access of [s] built from the roles [ids]. *)
Definition covered (pend : list eviction) (s : Subject) (ids : gset Z) : Prop :=
  ∃ ev, ev ∈ pend ∧ hits ev s ids.

Definition entry_ok (st : St) (pend : list eviction) (s : Subject) (eff : Effective) : Prop :=
  covered pend s (eff_roleIDs eff) ∨ load e st s = Ok eff.

Definition progress_ok (st : St) (pend : list eviction) (s : Subject) (prog : progress)
    (rest : list Binding) : Prop :=
  covered pend s (eff_roleIDs prog.1) ∨
  ∃ done, BindingsFor st s = Ok (done ++ rest) ∧
    build_loop e (lookupRole e st) (emptyEffective s, ∅) done = Ok prog.

(** The number of evictions before the load began. *)
Definition began (epoch n g : Z) : Prop := (0 <= g <= n)%Z ∧ epoch = Int64.to_uint g.

Definition loader_ok (st : St) (pend : list eviction) (n : Z) (l : loader) : Prop :=
  match l with
  | LStarted _ ep => ∃ g, began ep n g
  | LBuilding s ep prog rest => ∃ g, began ep n g ∧ (g = n → progress_ok st pend s prog rest)
  end.

Record safe (y : sys) : Prop := {
  safe_epoch : c_epoch (y_cache y) = Int64.to_uint (y_evictions y) ∧ (0 <= y_evictions y)%Z;
  safe_entries : ∀ s ent, c_entries (y_cache y) !! s = Some ent →
    entry_ok (y_store y) (y_pending y) s (ce_eff ent);
  safe_loads : Forall (loader_ok (y_store y) (y_pending y) (y_evictions y)) (y_loads y)
}.

(** *** Changes *)

Lemma covered_mono pend s ids ids' : ids ⊆ ids' → covered pend s ids → covered pend s ids'.
Proof. intros Hs (ev & Hin & Hh). exists ev. split; [done|]. destruct ev; cbn in *; set_solver. Qed.

Lemma change_entry st st' ev pend s eff :
  change st st' ev → entry_ok st pend s eff → entry_ok st' (ev :: pend) s eff.
Proof.
  intros Hch [(v & Hin & Hh)|Hl]; [left; exists v; split; [by right|done]|].
  destruct ev as [s0|k|]; cbn in Hch.
  - destruct Hch as [Hb Hr]. destruct (decide (s0 = s)) as [->|Hne].
    + left. exists (EvSubject s). split; [left|done].
    + right. rewrite <-Hl. apply load_same; auto.
  - destruct Hch as [Hb Hr]. destruct (decide (k ∈ eff_roleIDs eff)) as [Hk|Hk].
    + left. exists (EvRole k). split; [left|done].
    + right. eapply load_role_irrelevant; [exact Hl|exact Hk|by rewrite Hb|]. intros. by rewrite Hr.
  - left. exists EvAll. split; [left|done].
Qed.

Lemma change_progress st st' ev pend s prog rest :
  change st st' ev → progress_ok st pend s prog rest → progress_ok st' (ev :: pend) s prog rest.
Proof.
  intros Hch [(v & Hin & Hh)|(bs & Hbs & Hl)]; [left; exists v; split; [by right|done]|].
  destruct ev as [s0|k|]; cbn in Hch.
  - destruct Hch as [Hb Hr]. destruct (decide (s0 = s)) as [->|Hne].
    + left. exists (EvSubject s). split; [left|done].
    + right. exists bs. rewrite Hb by done. split; [done|]. rewrite <-Hl. apply build_loop_ext.
      intros b _ Hv. apply lookupRole_ext; auto.
  - destruct Hch as [Hb Hr]. destruct (decide (k ∈ eff_roleIDs prog.1)) as [Hk|Hk].
    + left. exists (EvRole k). split; [left|done].
    + right. exists bs. rewrite Hb. split; [done|]. rewrite <-Hl. apply build_loop_ext.
      intros b Hin Hv. apply lookupRole_ext; [done|]. intros Hp. apply Hr. intros Heq.
      apply Hk. rewrite <-Heq. by apply (build_loop_roleIDs _ _ _ _ _ Hl).
  - left. exists EvAll. split; [left|done].
Qed.

(** *** Evictions *)

(** What survives an eviction was not what it aims at. *)
Lemma doEvict_survivor ev c s ent :
  c_entries (doEvict ev c) !! s = Some ent →
  c_entries c !! s = Some ent ∧ ¬ hits ev s (eff_roleIDs (ce_eff ent)).
Proof.
  destruct ev as [s0|k|]; cbn [doEvict hits].
  - rewrite Evict_lookup. destruct (decide (s = s0)) as [->|Hne].
    + by rewrite bool_decide_eq_true_2.
    + rewrite bool_decide_eq_false_2 by done. intros ?. split; [done|congruence].
  - intros [Hent Hu]%EvictRole_lookup. split; [done|]. unfold usesRole in Hu. by apply bool_decide_eq_false in Hu.
  - cbn. by rewrite lookup_empty.
Qed.

Lemma doEvict_epoch ev c : c_epoch (doEvict ev c) = Int64.to_uint (c_epoch c + 1).
Proof. by destruct ev. Qed.

Lemma to_uint_succ n : Int64.to_uint (Int64.to_uint n + 1) = Int64.to_uint (n + 1).
Proof. unfold Int64.to_uint. by rewrite Zplus_mod_idemp_l. Qed.

(** After the eviction the number of evictions has moved past every load. *)
Lemma loader_evicted st pend pend' n l : loader_ok st pend n l → loader_ok st pend' (n + 1) l.
Proof.
  destruct l as [s ep|s ep prog rest]; cbn; unfold began.
  - intros (g & ? & ?). exists g. split; [lia|done].
  - intros (g & (? & ?) & _). exists g. split; [split; [lia|done]|lia].
Qed.

Lemma safe_evict st c p1 ev p2 loads n :
  safe (mkSys st c (p1 ++ ev :: p2) loads n) → safe (mkSys st (doEvict ev c) (p1 ++ p2) loads (n + 1)).
Proof.
  intros [[He Hn] Hents Hl]. cbn in *. split; cbn.
  - rewrite doEvict_epoch, He, to_uint_succ. split; [done|lia].
  - intros s ent (Hent & Hmiss)%doEvict_survivor. destruct (Hents _ _ Hent) as [(v & Hin & Hh)|?]; [left|by right].
    apply elem_of_app in Hin as [Hin|[->|Hin]%elem_of_cons]; [|done|];
      (exists v; split; [apply elem_of_app; tauto|done]).
  - eapply list.Forall_impl; [exact Hl|]. intros l. apply loader_evicted.
Qed.

Lemma safe_round st c pend l1 s ep prog b rest prog' l2 n :
  build_round e (lookupRole e st) prog b = Ok prog' →
  safe (mkSys st c pend (l1 ++ LBuilding s ep prog (b :: rest) :: l2) n) →
  safe (mkSys st c pend (l1 ++ LBuilding s ep prog' rest :: l2) n).
Proof.
  intros Hr [He Hents Hl]. cbn in *. split; cbn; [done..|].
  apply Forall_app in Hl as [Hl1 Hl2]. apply list.Forall_cons in Hl2 as [(g & Hg & Hok) Hl2].
  apply Forall_app. split; [done|]. apply list.Forall_cons. split; [|done].
  exists g. split; [done|]. intros Hgn. destruct (Hok Hgn) as [Hcov|(bs & Hbs & Hloop)].
  - left. eapply covered_mono; [|exact Hcov]. apply build_round_roleIDs in Hr. rewrite Hr.
    case_match; [apply union_subseteq_r|done].
  - right. exists (bs ++ [b]). rewrite <-app_assoc. split; [done|].
    clear -Hloop Hr. revert Hloop. generalize (emptyEffective s, ∅ : gmap RoleRef Role). intros st0.
    revert st0. induction bs as [|x bs IH]; cbn; intros st0.
    + intros [= ->]. by rewrite Hr.
    + intros (st1 & H1 & H2)%outcome_bind_Ok. rewrite H1. cbn. by apply IH.
Qed.

Lemma safe_put st c pend l1 s ep prog l2 n :
  (n < Int64.modulus)%Z →
  safe (mkSys st c pend (l1 ++ LBuilding s ep prog [] :: l2) n) →
  safe (mkSys st (put c s prog.1 ep) pend (l1 ++ l2) n).
Proof.
  intros Hlt [[He Hn] Hents Hl]. cbn in *.
  apply Forall_app in Hl as [Hl1 Hl2]. apply list.Forall_cons in Hl2 as [(g & [Hg Hep] & Hok) Hl2].
  split; cbn; [by rewrite put_epoch| |by apply Forall_app].
  intros x ent. rewrite put_lookup. destruct (_ && _) eqn:Eb; [|apply Hents].
  apply andb_true_iff in Eb as [Hsame%Z.eqb_eq ->%bool_decide_eq_true]. intros [= <-]. cbn.
  assert (g = n) as Hgn.
  { rewrite Hep, He in Hsame. unfold Int64.to_uint in Hsame. rewrite !Z.mod_small in Hsame by lia. done. }
  destruct (Hok Hgn) as [?|(bs & Hbs & Hloop)]; [by left|right].
  rewrite app_nil_r in Hbs. unfold load, build. rewrite Hbs, Hloop. done.
Qed.

Lemma safe_step y y' : step y y' → (y_evictions y' < Int64.modulus)%Z → safe y → safe y'.
Proof.
  intros Hstep Hlt Hs. destruct Hstep as
    [st st' c pend loads n ev Hch|st c p1 ev p2 loads n|st c pend loads n s r c' Hget|st c pend loads n s
    |st c pend l1 s ep l2 n bs Hbs|st c pend l1 s ep prog b rest prog' l2 n Hr|st c pend l1 s ep prog l2 n
    |st c pend l1 l l2 n]; cbn in Hlt.
  - destruct Hs as [He Hents Hl]. split; cbn in *; [done|intros; eapply change_entry; eauto|].
    eapply list.Forall_impl; [exact Hl|]. intros [s ep|s ep prog rest]; [done|].
    intros (g & Hg & Hok). exists g. split; [done|]. intros Hgn. eapply change_progress; eauto.
  - by apply safe_evict.
  - destruct Hs as [[He Hn] Hents Hl]. apply get_sub in Hget as [Hsub Heq]. split; cbn in *; [by rewrite Heq| |done].
    intros s' ent Hent. apply Hents. by eapply lookup_weaken.
  - destruct Hs as [[He Hn] Hents Hl]. split; cbn in *; [done..|]. apply list.Forall_cons. split; [|done].
    exists n. split; [lia|done].
  - destruct Hs as [He Hents Hl]. split; cbn in *; [done..|]. apply Forall_app in Hl as [Hl1 Hl2].
    apply list.Forall_cons in Hl2 as [(g & Hg) Hl2]. apply Forall_app. split; [done|].
    apply list.Forall_cons. split; [|done]. exists g. split; [done|]. intros _. right. by exists [].
  - by eapply safe_round.
  - by apply safe_put.
  - destruct Hs as [He Hents Hl]. split; cbn in *; [done..|]. apply Forall_app in Hl as [Hl1 Hl2].
    apply list.Forall_cons in Hl2 as [_ Hl2]. by apply Forall_app.
Qed.

Lemma step_evictions y y' : step y y' → (y_evictions y <= y_evictions y')%Z.
Proof. destruct 1; cbn; lia. Qed.

Lemma reachable_safe st0 now ttl y :
  reachable st0 now ttl y → (y_evictions y < Int64.modulus)%Z → safe y.
Proof.
  induction 1 as [|y y' Hr IH Hstep]; intros Hlt.
  - split; cbn; [done| |constructor]. intros s ent. by rewrite lookup_empty.
  - pose proof (step_evictions _ _ Hstep). eapply safe_step; [done|done|]. apply IH. lia.
Qed.
End Safety.
