(* ===== verification/MemStore.v ===== *)
(** * The in-memory store (src/authz/authztest/memstore.go)

    Roles and bindings in maps, identifiers from two counters. Its methods run
    under one mutex, so each is one step. [copyRole] keeps the stored value apart
    from the caller's; over values it is the identity. *)

From S2P Require Import Prelude Apperr Catalogue Hierarchy Role Access Cache Engine Store.

Record MemoryStore : Type := mkMemoryStore {
  m_roles : gmap Z Role;
  m_bindings : gmap Z Binding;
  m_nextRole : Z;
  m_nextBind : Z;
  m_now : nat → Z;
  m_reads : nat
}.

Definition NewMemoryStore (now : nat → Z) : MemoryStore := mkMemoryStore ∅ ∅ 0 0 now 0.

Definition copyRole (r : Role) : Role :=
  mkRole (r_ID r) (r_Key r) (r_Name r) (r_Description r) (r_Grants r) (r_Attrs r) (r_Computed r).

Definition b_leb (a b : Binding) : bool := (b_ID a <=? b_ID b)%Z.

(** The values of the map, in some order: a Go range over a map. *)
Definition binding_values (m : MemoryStore) : list Binding := (map_to_list (m_bindings m)).*2.

Definition filterBindings (m : MemoryStore) (keep : Binding → bool) : list Binding :=
  stable_sort b_leb (List.filter keep (binding_values m)).

Definition mem_BindingsFor (m : MemoryStore) (s : Subject) : result (list Binding) :=
  Ok (filterBindings m (λ b, bool_decide (b_Subject b = s))).

Definition roleNotFound (id : Z) : error := wrapf ErrRoleNotFound (": id " +:+ Str.fmt_d id).
Definition bindingNotFound (id : Z) : error := wrapf ErrBindingNotFound (": id " +:+ Str.fmt_d id).

Definition mem_Role (m : MemoryStore) (id : Z) : result Role :=
  match m_roles m !! id with
  | None => Err (roleNotFound id)
  | Some r => Ok (copyRole r)
  end.

Definition r_leb (a b : Role) : bool := (r_ID a <=? r_ID b)%Z.

Definition mem_ListRoles (m : MemoryStore) : result (list Role) :=
  Ok (stable_sort r_leb (copyRole <$> (map_to_list (m_roles m)).*2)).

Definition set_roles (m : MemoryStore) (rs : gmap Z Role) (next : Z) : MemoryStore :=
  mkMemoryStore rs (m_bindings m) next (m_nextBind m) (m_now m) (m_reads m).

(** [role.Key, role.Computed = "", nil] *)
Definition storedRole (id : Z) (r : Role) : Role :=
  mkRole id "" (r_Name r) (r_Description r) (r_Grants r) (r_Attrs r) None.

Definition mem_SaveRole (actor : Subject) (role : Role) : stM MemoryStore error Role := λ m,
  match CheckQualifiers (r_Grants role) with
  | Err err => (Err err, m)
  | Ok _ =>
      if (r_ID role =? 0)%Z then
        let id := (m_nextRole m + 1)%Z in
        let r := storedRole id role in
        (Ok (copyRole r), set_roles m (<[id := copyRole r]> (m_roles m)) id)
      else match m_roles m !! r_ID role with
      | None => (Err (roleNotFound (r_ID role)), m)
      | Some _ =>
          let r := storedRole (r_ID role) role in
          (Ok (copyRole r), set_roles m (<[r_ID role := copyRole r]> (m_roles m)) (m_nextRole m))
      end
  end.

Definition mem_BindingsForRole (m : MemoryStore) (roleID : Z) : result (list Binding) :=
  Ok (filterBindings m (λ b, ref_ID (b_Role b) =? roleID)%Z).

Definition mem_DeleteRole (actor : Subject) (id : Z) : stM MemoryStore error () := λ m,
  match m_roles m !! id with
  | None => (Err (roleNotFound id), m)
  | Some _ =>
      if (0 <? length (filterBindings m (λ b, ref_ID (b_Role b) =? id)%Z))%nat
      then (Err (wrapf ErrRoleInUse (": id " +:+ Str.fmt_d id)), m)
      else (Ok (), set_roles m (delete id (m_roles m)) (m_nextRole m))
  end.

Definition mem_Binding (m : MemoryStore) (id : Z) : result Binding :=
  match m_bindings m !! id with
  | None => Err (bindingNotFound id)
  | Some b => Ok b
  end.

(** The loop of [HolderCounts]: what was seen and the two counts. *)
Definition count_step (st : gset (RoleRef * Subject) * HolderCounts) (b : Binding) :
    gset (RoleRef * Subject) * HolderCounts :=
  let (seen, out) := st in
  let who := (b_Role b, b_Subject b) in
  if decide (who ∈ seen) then (seen, out) else
  ({[ who ]} ∪ seen,
   if (0 <? ref_ID (b_Role b))%Z
   then mkHolderCounts (<[ref_ID (b_Role b) := (default 0 (hc_ByID out !! ref_ID (b_Role b)) + 1)%Z]> (hc_ByID out))
          (hc_ByKey out)
   else mkHolderCounts (hc_ByID out)
          (<[ref_Key (b_Role b) := (default 0 (hc_ByKey out !! ref_Key (b_Role b)) + 1)%Z]> (hc_ByKey out))).

Definition mem_HolderCounts (m : MemoryStore) : result HolderCounts :=
  Ok (foldl count_step (∅, mkHolderCounts ∅ ∅) (binding_values m)).2.

Definition mem_HoldersOf (m : MemoryStore) (ref : RoleRef) : result (list Binding) :=
  if negb (ref_Valid ref) then Ok []
  else Ok (filterBindings m (λ b, bool_decide (b_Role b = ref))).

Definition sameBinding (x b : Binding) : bool :=
  bool_decide (b_Subject x = b_Subject b) && bool_decide (b_Role x = b_Role b) &&
  bool_decide (b_Scope x = b_Scope b).

Definition mem_Bind (actor : Subject) (b : Binding) : stM MemoryStore error Binding := λ m,
  if existsb (λ x, sameBinding x b) (binding_values m) then (Err (errNew ErrDuplicateBinding), m) else
  let id := (m_nextBind m + 1)%Z in
  let b := mkBinding id (b_Subject b) (b_Role b) (b_Scope b) (sub_ID actor) (m_now m (m_reads m)) in
  (Ok b, mkMemoryStore (m_roles m) (<[id := b]> (m_bindings m)) (m_nextRole m) id (m_now m) (S (m_reads m))).

Definition mem_Unbind (actor : Subject) (id : Z) : stM MemoryStore error () := λ m,
  match m_bindings m !! id with
  | None => (Err (bindingNotFound id), m)
  | Some _ => (Ok (), mkMemoryStore (m_roles m) (delete id (m_bindings m)) (m_nextRole m) (m_nextBind m)
                        (m_now m) (m_reads m))
  end.

#[export] Instance MemoryStore_Reader : Reader MemoryStore :=
  {| BindingsFor := mem_BindingsFor; StoreRole := mem_Role |}.

#[export] Instance MemoryStore_HolderReader : HolderReader MemoryStore :=
  {| StoreListRoles := mem_ListRoles; StoreHoldersOf := mem_HoldersOf |}.

#[export] Instance MemoryStore_Store : Store MemoryStore := {|
  StoreSaveRole := mem_SaveRole;
  StoreDeleteRole := mem_DeleteRole;
  StoreBinding := mem_Binding;
  StoreBindingsForRole := mem_BindingsForRole;
  StoreBind := mem_Bind;
  StoreUnbind := mem_Unbind
|}.

(** ** The invariant *)

Record mem_inv (m : MemoryStore) : Prop := {
  mi_bindings : ∀ id b, m_bindings m !! id = Some b → b_ID b = id ∧ (0 < id <= m_nextBind m)%Z;
  mi_roles : ∀ id r, m_roles m !! id = Some r →
    r_ID r = id ∧ (0 < id <= m_nextRole m)%Z ∧ r_Key r = "" ∧ r_Computed r = None;
  mi_unique : ∀ i j b c, m_bindings m !! i = Some b → m_bindings m !! j = Some c →
    sameBinding b c = true → i = j;
  mi_next : (0 <= m_nextRole m)%Z ∧ (0 <= m_nextBind m)%Z
}.

Lemma mem_inv_New now : mem_inv (NewMemoryStore now).
Proof. split; cbn; try done; intros *; rewrite lookup_empty; done. Qed.

Lemma elem_of_binding_values m b : b ∈ binding_values m ↔ ∃ id, m_bindings m !! id = Some b.
Proof.
  unfold binding_values. rewrite list_elem_of_fmap. split.
  - intros ([id x] & -> & Hx%elem_of_map_to_list). eauto.
  - intros [id Hid]. exists (id, b). split; [done|]. by apply elem_of_map_to_list.
Qed.

Lemma elem_of_filterBindings m keep b :
  b ∈ filterBindings m keep ↔ keep b = true ∧ ∃ id, m_bindings m !! id = Some b.
Proof.
  unfold filterBindings. rewrite stable_sort_perm, elem_of_filter_bool, elem_of_binding_values. tauto.
Qed.

Lemma NoDup_binding_values m : mem_inv m → NoDup (binding_values m).
Proof.
  intros Hi. unfold binding_values. apply NoDup_fmap_2_strong; [|apply NoDup_map_to_list].
  intros [i b] [j c] Hi1%elem_of_map_to_list Hj1%elem_of_map_to_list. cbn. intros ->.
  apply (mi_bindings _ Hi) in Hi1 as [<- _]. apply (mi_bindings _ Hi) in Hj1 as [<- _]. done.
Qed.

Definition b_sorted (l : list Binding) : Prop := StronglySorted (λ a b, b_leb a b = true) l.

Lemma filterBindings_sorted m keep : b_sorted (filterBindings m keep).
Proof. apply stable_sort_sorted; unfold b_leb; intros *; rewrite ?Z.leb_gt, ?Z.leb_le; lia. Qed.

Lemma filterBindings_NoDup m keep : mem_inv m → NoDup (filterBindings m keep).
Proof.
  intros Hi. unfold filterBindings. rewrite stable_sort_perm.
  apply NoDup_ListNoDup, NoDup_filter, NoDup_ListNoDup. by apply NoDup_binding_values.
Qed.

(** The matching bindings in the order of their IDs are unique. *)
Lemma filterBindings_char m keep l :
  mem_inv m → b_sorted l → NoDup l →
  (∀ b, b ∈ l ↔ keep b = true ∧ ∃ id, m_bindings m !! id = Some b) → filterBindings m keep = l.
Proof.
  intros Hi Hs Hn Hl. apply (StronglySorted_unique_strong (λ a b, b_leb a b = true)).
  - intros x y (_ & i & Hx)%elem_of_filterBindings (_ & j & Hy)%Hl. unfold b_leb. rewrite !Z.leb_le.
    pose proof (mi_bindings _ Hi _ _ Hx) as [Ei _]. pose proof (mi_bindings _ Hi _ _ Hy) as [Ej _].
    intros. assert (i = j) as -> by lia. congruence.
  - apply filterBindings_sorted.
  - done.
  - apply NoDup_Permutation; [by apply filterBindings_NoDup|done|].
    intros b. by rewrite elem_of_filterBindings, Hl.
Qed.

Lemma StronglySorted_filter {A} (R : A → A → Prop) (f : A → bool) l :
  StronglySorted R l → StronglySorted R (List.filter f l).
Proof.
  induction 1 as [|x l Hs IH Hx]; cbn; [constructor|]. destruct (f x); [|done].
  constructor; [done|]. rewrite list.Forall_forall in *. intros y [Hy _]%elem_of_filter_bool. auto.
Qed.

(** ** Bind and Unbind *)

Lemma mem_Bind_inv actor b m saved m' :
  mem_inv m → mem_Bind actor b m = (Ok saved, m') → mem_inv m'.
Proof.
  intros Hi. unfold mem_Bind. destruct (existsb _ _) eqn:Ed; [done|]. intros [= <- <-].
  assert (∀ i x, m_bindings m !! i = Some x → sameBinding x b = false) as Hd.
  { intros i x Hx. destruct (sameBinding x b) eqn:Es; [|done]. rewrite <-Ed. symmetry.
    apply existsb_elem. exists x. split; [|done]. apply elem_of_binding_values. eauto. }
  pose proof (mi_next _ Hi) as [Hn1 Hn2].
  split; cbn.
  - intros id x. rewrite lookup_insert_Some. intros [[<- <-]|[_ Hx]]; cbn; [split; [done|lia]|].
    apply (mi_bindings _ Hi) in Hx as [-> ?]. split; [done|lia].
  - apply (mi_roles _ Hi).
  - intros i j x y. rewrite !lookup_insert_Some. unfold sameBinding in *.
    intros [[<- <-]|[_ Hx]] [[<- <-]|[_ Hy]]; cbn; [done| | |by eapply (mi_unique _ Hi)].
    + specialize (Hd _ _ Hy). rewrite !andb_true_iff, !bool_decide_eq_true. intros [[H1 H2] H3].
      rewrite H1, H2, H3 in Hd. rewrite !bool_decide_eq_true_2 in Hd by done. done.
    + specialize (Hd _ _ Hx). congruence.
  - lia.
Qed.

Lemma mem_Bind_bindings actor b m saved m' s :
  mem_inv m → mem_Bind actor b m = (Ok saved, m') →
  mem_BindingsFor m' s =
    Ok (filterBindings m (λ x, bool_decide (b_Subject x = s)) ++ if decide (s = b_Subject b) then [saved] else []).
Proof.
  intros Hi Hb. pose proof (mem_Bind_inv _ _ _ _ _ Hi Hb) as Hi'. unfold mem_BindingsFor. f_equal.
  unfold mem_Bind in Hb. destruct (existsb _ _); [done|]. injection Hb as <- <-.
  assert (m_bindings m !! (m_nextBind m + 1)%Z = None) as Hnone.
  { destruct (m_bindings m !! _) eqn:E; [|done]. apply (mi_bindings _ Hi) in E. lia. }
  apply filterBindings_char; [done| | |].
  - apply StronglySorted_app_2; [|apply filterBindings_sorted|case_decide; repeat constructor].
    intros x y (_ & i & Hx)%elem_of_filterBindings Hy. case_decide; [|by apply elem_of_nil in Hy].
    apply list_elem_of_singleton in Hy as ->. unfold b_leb. cbn. apply Z.leb_le.
    apply (mi_bindings _ Hi) in Hx as [-> ?]. lia.
  - apply list.NoDup_app. split; [by apply filterBindings_NoDup|]. split; [|case_decide; [apply NoDup_singleton|constructor]].
    intros x (_ & i & Hx)%elem_of_filterBindings Hy. case_decide; [|by apply elem_of_nil in Hy].
    apply list_elem_of_singleton in Hy as ->. apply (mi_bindings _ Hi) in Hx as [? ?]. cbn in *. lia.
  - intros x. rewrite elem_of_app, elem_of_filterBindings, bool_decide_eq_true. cbn.
    setoid_rewrite lookup_insert_Some. destruct (decide (s = b_Subject b)) as [->|Hne].
    + rewrite list_elem_of_singleton. split.
      * intros [[Hs [i Hx]]| ->]; [|naive_solver]. split; [done|]. exists i. right. split; [congruence|done].
      * intros [Hs [i [[<- <-]|[_ Hx]]]]; naive_solver.
    + rewrite elem_of_nil. split.
      * intros [[Hs [i Hx]]|[]]. split; [done|]. exists i. right. split; [congruence|done].
      * intros [Hs [i [[<- <-]|[_ Hx]]]]; naive_solver.
Qed.

Lemma mem_Unbind_inv actor id m m' :
  mem_inv m → mem_Unbind actor id m = (Ok (), m') → mem_inv m'.
Proof.
  intros Hi. unfold mem_Unbind. destruct (m_bindings m !! id) as [old|]; [|done]. intros [= <-]. split; cbn.
  - intros i b [_ Hb]%lookup_delete_Some. by apply (mi_bindings _ Hi).
  - apply (mi_roles _ Hi).
  - intros i j b c [_ Hb]%lookup_delete_Some [_ Hc]%lookup_delete_Some. by eapply (mi_unique _ Hi).
  - apply (mi_next _ Hi).
Qed.

Lemma mem_Unbind_bindings actor id m m' keep :
  mem_inv m → mem_Unbind actor id m = (Ok (), m') →
  filterBindings m' keep = List.filter (λ b, negb (b_ID b =? id)%Z) (filterBindings m keep).
Proof.
  intros Hi Hb. pose proof (mem_Unbind_inv _ _ _ _ Hi Hb) as Hi'.
  unfold mem_Unbind in Hb. destruct (m_bindings m !! id); [|done]. injection Hb as <-.
  apply filterBindings_char; [done| | |].
  - apply StronglySorted_filter, filterBindings_sorted.
  - apply NoDup_ListNoDup, NoDup_filter, NoDup_ListNoDup. by apply filterBindings_NoDup.
  - intros x. rewrite elem_of_filter_bool, elem_of_filterBindings, negb_true_iff, Z.eqb_neq. cbn.
    setoid_rewrite lookup_delete_Some. split.
    + intros [[Hk [i Hx]] Hne]. split; [done|]. exists i. split; [|done].
      apply (mi_bindings _ Hi) in Hx as [? _]. congruence.
    + intros [Hk [i [Hne Hx]]]. split; [eauto|]. apply (mi_bindings _ Hi) in Hx as [? _]. congruence.
Qed.

(** ** SaveRole and DeleteRole *)

Lemma set_roles_inv m rs next :
  mem_inv m → (0 <= next)%Z →
  (∀ id r, rs !! id = Some r → r_ID r = id ∧ (0 < id <= next)%Z ∧ r_Key r = "" ∧ r_Computed r = None) →
  mem_inv (set_roles m rs next).
Proof.
  intros [Hb _ Hu [_ Hn]] Hnext Hrs. by split.
Qed.

Lemma mem_SaveRole_spec actor r m saved m' :
  mem_inv m → mem_SaveRole actor r m = (Ok saved, m') →
  mem_inv m' ∧ saved = storedRole (r_ID saved) r ∧ (0 < r_ID saved)%Z ∧
  (r_ID r ≠ 0%Z → r_ID saved = r_ID r) ∧
  m_roles m' = <[r_ID saved := saved]> (m_roles m) ∧ m_bindings m' = m_bindings m.
Proof.
  intros Hi. unfold mem_SaveRole. destruct (CheckQualifiers _); [|done].
  pose proof (mi_next _ Hi) as [Hn _]. destruct (Z.eqb_spec (r_ID r) 0) as [Hz|Hz].
  - intros [= <- <-]. cbn. split; [|repeat split; try lia; done].
    apply set_roles_inv; [done|lia|]. intros id x. rewrite lookup_insert_Some.
    intros [[<- <-]|[_ Hx]]; cbn; [repeat split; lia|].
    apply (mi_roles _ Hi) in Hx as (? & ? & ? & ?). repeat split; try done; lia.
  - destruct (m_roles m !! r_ID r) as [old|] eqn:Eo; [|done]. intros [= <- <-]. cbn.
    apply (mi_roles _ Hi) in Eo as (_ & Hid & _).
    split; [|repeat split; try done; lia].
    apply set_roles_inv; [done|lia|]. intros id x. rewrite lookup_insert_Some.
    intros [[<- <-]|[_ Hx]]; cbn; [repeat split; try done; lia|]. by apply (mi_roles _ Hi).
Qed.

Lemma mem_DeleteRole_spec actor id m m' :
  mem_inv m → mem_DeleteRole actor id m = (Ok (), m') →
  mem_inv m' ∧ m' = set_roles m (delete id (m_roles m)) (m_nextRole m) ∧
  filterBindings m (λ b, ref_ID (b_Role b) =? id)%Z = [].
Proof.
  intros Hi. unfold mem_DeleteRole. destruct (m_roles m !! id) as [r|]; [|done].
  destruct (0 <? _)%nat eqn:El; [done|]. intros [= <-].
  split; [|split; [done|]].
  - apply set_roles_inv; [done|apply (mi_next _ Hi)|]. intros i x [_ Hx]%lookup_delete_Some.
    by apply (mi_roles _ Hi).
  - apply Nat.ltb_ge in El. apply nil_length_inv. lia.
Qed.

Lemma filterBindings_ext m m' keep : m_bindings m' = m_bindings m → filterBindings m' keep = filterBindings m keep.
Proof. unfold filterBindings, binding_values. by intros ->. Qed.

Lemma copyRole_id r : copyRole r = r.
Proof. by destruct r. Qed.

Lemma mem_Role_Ok m id r : mem_Role m id = Ok r ↔ m_roles m !! id = Some r.
Proof. unfold mem_Role. destruct (m_roles m !! id) as [x|]; rewrite ?copyRole_id; naive_solver. Qed.

Lemma mem_Role_ext m m' id : m_roles m' !! id = m_roles m !! id → mem_Role m' id = mem_Role m id.
Proof. unfold mem_Role. by intros ->. Qed.

(** ** The in-memory store keeps the contract *)
#[export] Program Instance MemoryStore_Laws : StoreLaws MemoryStore := {| store_inv := mem_inv |}.
Next Obligation.
  intros m s Hi. eexists. split; [done|]. apply list.Forall_forall.
  intros b (Hs%bool_decide_eq_true & id & Hb)%elem_of_filterBindings. split; [done|].
  pose proof (mi_bindings _ Hi _ _ Hb) as [-> _]. cbn. unfold mem_Binding. by rewrite Hb.
Qed.
Next Obligation.
  intros m id b Hi. cbn. unfold mem_Binding. destruct (m_bindings m !! id) as [x|] eqn:E; [|done].
  intros [= ->]. split; [by apply (mi_bindings _ Hi)|]. split; [by apply (mi_bindings _ Hi) in E as [_ [? _]]|].
  eexists. split; [done|].
  apply elem_of_filterBindings. rewrite bool_decide_eq_true. eauto.
Qed.
Next Obligation. intros m id r Hi Hr%mem_Role_Ok. by apply (mi_roles _ Hi). Qed.
Next Obligation.
  intros m actor b m' saved Hi Hb. cbn in Hb. split; [by eapply mem_Bind_inv|].
  pose proof (λ s, mem_Bind_bindings _ _ _ _ _ s Hi Hb) as Hbs.
  unfold mem_Bind in Hb. destruct (existsb _ _); [done|]. injection Hb as <- <-. cbn in *.
  repeat split.
  - intros bs [= <-]. rewrite Hbs. by rewrite decide_True.
  - intros s Hs. rewrite Hbs, decide_False, app_nil_r by done. done.
Qed.
Next Obligation.
  intros m actor id m' Hi Hb. cbn in Hb. split; [by eapply mem_Unbind_inv|]. split.
  - intros s bs [= <-]. cbn. unfold mem_BindingsFor. f_equal. by eapply mem_Unbind_bindings.
  - intros rid. unfold mem_Unbind in Hb. destruct (m_bindings m !! id); [|done]. injection Hb as <-. done.
Qed.
Next Obligation.
  intros m actor r m' saved Hi Hs.
  destruct (mem_SaveRole_spec _ _ _ _ _ Hi Hs) as (Hi' & Heq & Hpos & Hid & Hr & Hb).
  split; [done|]. split; [apply mem_Role_Ok; rewrite Hr; apply lookup_insert_eq|].
  split; [done|]. split; [done|]. split; [exact Heq|]. split.
  - intros id Hne. apply mem_Role_ext. rewrite Hr. by apply lookup_insert_ne.
  - intros s. cbn. unfold mem_BindingsFor. f_equal. by apply filterBindings_ext.
Qed.
Next Obligation.
  intros m actor id m' Hi Hd. destruct (mem_DeleteRole_spec _ _ _ _ Hi Hd) as (Hi' & -> & Hn).
  split; [done|]. cbn. unfold mem_BindingsForRole. rewrite Hn.
  split; [|split; [done|split; [|done]]].
  - exists (roleNotFound id). split; [|apply errors_Is_wrapf]. unfold mem_Role. cbn. by rewrite lookup_delete_eq.
  - intros rid Hne. apply mem_Role_ext. cbn. by apply lookup_delete_ne.
Qed.
Next Obligation. intros m actor b m' err. cbn. unfold mem_Bind. case_match; naive_solver. Qed.
Next Obligation. intros m actor id m' err. cbn. unfold mem_Unbind. case_match; naive_solver. Qed.
Next Obligation. intros m actor r m' err. cbn. unfold mem_SaveRole. repeat case_match; naive_solver. Qed.
Next Obligation. intros m actor id m' err. cbn. unfold mem_DeleteRole. repeat case_match; naive_solver. Qed.

(** ** Counting holders *)

(** The subjects bound to [ref] in a list of bindings. *)
Definition holders (l : list Binding) (ref : RoleRef) : gset Subject :=
  list_to_set (b_Subject <$> List.filter (λ b, bool_decide (b_Role b = ref)) l).

Lemma elem_of_holders l ref s : s ∈ holders l ref ↔ ∃ b, b ∈ l ∧ b_Role b = ref ∧ b_Subject b = s.
Proof.
  unfold holders. rewrite elem_of_list_to_set, list_elem_of_fmap.
  setoid_rewrite elem_of_filter_bool. setoid_rewrite bool_decide_eq_true. naive_solver.
Qed.

(** References a binding made through [Admin] has: valid, with no negative ID. *)
Definition good_ref (ref : RoleRef) : Prop := ref_Valid ref = true ∧ (0 <= ref_ID ref)%Z.

Lemma good_ref_cases r :
  good_ref r → (0 < ref_ID r)%Z ∧ ref_Key r = "" ∨ ref_ID r = 0%Z ∧ ref_Key r ≠ "".
Proof.
  unfold good_ref, ref_Valid. intros [Hv Hp].
  destruct (Z.ltb_spec 0 (ref_ID r)), (decide (ref_Key r = "")) as [E|E];
    rewrite ?bool_decide_eq_true_2, ?bool_decide_eq_false_2 in Hv by tauto; try done; [by left|right; split; [lia|done]].
Qed.

Lemma good_ref_eq r1 r2 :
  good_ref r1 → good_ref r2 →
  (0 < ref_ID r1)%Z ∧ ref_ID r1 = ref_ID r2 ∨ ¬ (0 < ref_ID r1)%Z ∧ ¬ (0 < ref_ID r2)%Z ∧ ref_Key r1 = ref_Key r2 →
  r1 = r2.
Proof.
  intros H1%good_ref_cases H2%good_ref_cases H. destruct r1 as [i1 k1], r2 as [i2 k2]. cbn in *.
  f_equal; destruct H1 as [[? ?]|[? ?]], H2 as [[? ?]|[? ?]], H as [[? ?]|(? & ? & ?)]; try lia; congruence.
Qed.

Lemma set_snoc_in `{Countable A} (X : gset A) x : x ∈ X → X = X ∪ ({[ x ]} ∪ ∅).
Proof. set_solver. Qed.

Lemma set_snoc `{Countable A} (X : gset A) x : {[ x ]} ∪ X = X ∪ ({[ x ]} ∪ ∅).
Proof. set_solver. Qed.

Lemma set_add_in `{Countable A} (X : gset A) x : x ∈ X → X = X ∪ {[ x ]}.
Proof. set_solver. Qed.

Lemma count_step_spec l b seen out :
  Forall (λ x, good_ref (b_Role x)) (l ++ [b]) →
  seen = list_to_set ((λ x, (b_Role x, b_Subject x)) <$> l) →
  (∀ ref, good_ref ref → Of out ref = Z.of_nat (size (holders l ref))) →
  let st := count_step (seen, out) b in
  st.1 = list_to_set ((λ x, (b_Role x, b_Subject x)) <$> (l ++ [b])) ∧
  (∀ ref, good_ref ref → Of st.2 ref = Z.of_nat (size (holders (l ++ [b]) ref))).
Proof.
  intros Hgood -> Hof. cbn [count_step].
  assert (∀ ref, holders (l ++ [b]) ref = holders l ref ∪ if decide (b_Role b = ref) then {[ b_Subject b ]} else ∅) as Hh.
  { intros ref. apply leibniz_equiv. intros s. rewrite elem_of_union, !elem_of_holders. setoid_rewrite elem_of_app.
    setoid_rewrite list_elem_of_singleton. case_decide; [rewrite elem_of_singleton|rewrite elem_of_empty]; naive_solver. }
  assert (good_ref (b_Role b)) as Hb.
  { rewrite list.Forall_forall in Hgood. apply Hgood. apply elem_of_app. right. by apply list_elem_of_singleton. }
  assert ((b_Role b, b_Subject b) ∈ (list_to_set ((λ x, (b_Role x, b_Subject x)) <$> l) : gset (RoleRef * Subject))
          ↔ b_Subject b ∈ holders l (b_Role b)) as Hseen.
  { rewrite elem_of_list_to_set, list_elem_of_fmap, elem_of_holders. split.
    - intros (x & [= -> ->] & Hx). eauto.
    - intros (x & Hx & <- & <-). eauto. }
  destruct (decide _) as [Hin|Hin]; cbn [fst snd].
  - split.
    + rewrite fmap_app, list_to_set_app_L. cbn. by apply set_snoc_in.
    + intros ref Hr. rewrite Hof, Hh by done. apply Hseen in Hin. do 2 f_equal.
      case_decide; [subst; by apply set_add_in|by rewrite union_empty_r_L].
  - split; [rewrite fmap_app, list_to_set_app_L; cbn; apply set_snoc|].
    rewrite Hseen in Hin. intros ref Hr. specialize (Hof ref Hr). rewrite Hh.
    destruct (decide (b_Role b = ref)) as [<-|Hne].
    + rewrite size_union by by apply disjoint_singleton_r. rewrite size_singleton, Nat2Z.inj_add, <-Hof. unfold Of.
      destruct (0 <? _)%Z; cbn; by rewrite lookup_insert_eq.
    + rewrite union_empty_r_L, <-Hof. unfold Of.
      destruct (Z.ltb_spec 0 (ref_ID (b_Role b))) as [Hp|Hp], (Z.ltb_spec 0 (ref_ID ref)) as [Hq|Hq]; cbn; try done.
      * rewrite lookup_insert_ne; [done|]. intros Heq. apply Hne. apply good_ref_eq; auto.
      * rewrite lookup_insert_ne; [done|]. intros Heq. apply Hne. apply good_ref_eq; auto. right. split; [lia|split; [lia|done]].
Qed.

Lemma HolderCounts_spec m c ref :
  Forall (λ b, good_ref (b_Role b)) (binding_values m) → good_ref ref →
  mem_HolderCounts m = Ok c → Of c ref = Z.of_nat (size (holders (binding_values m) ref)).
Proof.
  unfold mem_HolderCounts. intros Hg Hr [= <-]. revert ref Hr.
  cut ((foldl count_step (∅, mkHolderCounts ∅ ∅) (binding_values m)).1
        = list_to_set ((λ x, (b_Role x, b_Subject x)) <$> binding_values m) ∧
       ∀ ref, good_ref ref → Of (foldl count_step (∅, mkHolderCounts ∅ ∅) (binding_values m)).2 ref
        = Z.of_nat (size (holders (binding_values m) ref))); [tauto|].
  induction (binding_values m) as [|b l IH] using rev_ind; cbn.
  - split; [done|]. intros ref _. unfold Of. cbn. rewrite !lookup_empty. by case_match.
  - rewrite foldl_snoc. destruct (foldl count_step _ l) as [seen out]. cbn in IH.
    apply count_step_spec; [done|apply IH..]; by apply Forall_app in Hg as [? _].
Qed.
