(* ===== verification/Admin.v ===== *)
(** * Delegation and administration (src/authz/delegation.go, admin.go)

    The write side: who may save a role, assign it or take it away, and the
    eviction that makes a change apply on the next request. The per-subject mutex
    of [ownLock] makes the check and the write of one actor one step, which is how
    the operations are modelled. *)

From S2P Require Import Prelude Apperr Catalogue Hierarchy Role Access Cache Engine Store EngineSpec.

(** [holdsWithin] *)
Definition holdsWithin (eff : Effective) (permission : string) (within : Scope → bool) : bool :=
  existsb (λ c, within (cl_Scope c)) (eff_Clauses eff permission).

(** The loop of [holdsAll]. *)
Fixpoint holdsAll_loop (e : Engine) (eff : Effective) (role : Role) (grants : list Grant) : result () :=
  match grants with
  | [] => Ok ()
  | g :: rest =>
      let perm := default (zeroPermission "") (Lookup (e_cat e) (g_Permission g)) in
      let wanted := attrsFor perm (r_Attrs role) in
      match eff_Clauses eff (g_Permission g) with
      | [] => Err (escalation (g_Permission g) "not held")
      | clauses =>
          if existsb (λ c, Covers (cl_Qualifier c) (g_Qualifier g) && attrsCover (cl_Attrs c) wanted) clauses
          then holdsAll_loop e eff role rest
          else Err (escalation (g_Permission g) "held more narrowly")
      end
  end.

Definition holdsAll (e : Engine) (eff : Effective) (role : Role) : result () :=
  holdsAll_loop e eff role (Resolve role (e_cat e)).

(** The problems of rule (4) of [CanBind]. *)
Definition organizationOnlyProblems (e : Engine) (grants : list Grant) : list Problem :=
  omap (λ g, match Lookup (e_cat e) (g_Permission g) with
             | Some p => if p_OrganizationOnly p
                         then Some (mkProblem ProblemOrganizationOnly (p_ID p)
                                      ("can only be bound at " +:+ RootLevel (e_h e)))
                         else None
             | None => None
             end) grants.

(** Rules (2) and (3) of [CanBind], grant by grant. *)
Fixpoint canBind_loop (e : Engine) (eff : Effective) (chain : Chain) (atRoot : bool) (manageBindings : string)
    (grants : list Grant) : result () :=
  match grants with
  | [] => Ok ()
  | g :: rest =>
      let p := default (zeroPermission "") (Lookup (e_cat e) (g_Permission g)) in
      if p_System p && negb (holdsWithin eff (p_ID p) (Within chain)) then
        Err (escalation (p_ID p) "a system permission the actor does not hold")
      else if p_OrganizationOnly p && negb atRoot then
        Err (escalation (p_ID p) ("organization-only permissions need " +:+ manageBindings +:+ " at " +:+
                                  RootLevel (e_h e)))
      else canBind_loop e eff chain atRoot manageBindings rest
  end.

(** [storeErr] *)
Definition storeErr (err : error) : error :=
  if errors_Is err ErrRoleNotFound || errors_Is err ErrBindingNotFound then NotFoundFrom err
  else if errors_Is err ErrDuplicateBinding || errors_Is err ErrRoleInUse then ConflictFrom err
  else match as_app err with
  | Some _ => err
  | None => Internal err
  end.

Record Admin : Type := mkAdmin {
  a_e : Engine;
  a_roles : string;
  a_bindings : string;
  a_protected : list string
}.

Fixpoint checkAdminPermissions (e : Engine) (ids : list string) : result () :=
  match ids with
  | [] => Ok ()
  | id :: rest =>
      match Lookup (e_cat e) id with
      | None => Err (wrapf ErrUnknownPermission (": " +:+ Str.fmt_q id +:+ " (admin configuration)"))
      | Some _ => checkAdminPermissions e rest
      end
  end.

(** [NewAdmin]; [None] and [false] are the nil engine and the nil store. *)
Definition NewAdmin (engine : option Engine) (hasStore : bool) (manageRoles manageBindings : string)
    (protected : list string) : result Admin :=
  match engine with
  | None => Err (errNew "authz: admin needs an engine and a store")
  | Some e =>
      if negb hasStore then Err (errNew "authz: admin needs an engine and a store") else
      _ ← checkAdminPermissions e (manageRoles :: manageBindings :: protected);
      Ok (mkAdmin e manageRoles manageBindings protected)
  end.

Section Admin.
Context {St : Type} `{!Store St}.

(** A call of the store inside the world. *)
Definition on_store {A} (m : stM St error A) : stM (World St) error A := λ w,
  let (r, st) := m (w_store w) in (r, mkWorld st (w_cache w)).

Definition evict (f : Cache → Cache) : stM (World St) error () :=
  modify (λ w, mkWorld (w_store w) (f (w_cache w))).

(** [if err != nil { return f(err) }] *)
Definition map_err {A} (f : error → error) (m : stM (World St) error A) : stM (World St) error A := λ w,
  match m w with
  | (Err err, w) => (Err (f err), w)
  | ok => ok
  end.

Definition read_store {A} (f : St → result A) : stM (World St) error A := λ w, (f (w_store w), w).

(** [Engine.CanSaveRole] *)
Definition CanSaveRole (e : Engine) (actor : Principal) (role : Role) : stM (World St) error () :=
  if bool_decide (is_Some (r_Computed role)) then
    throw (BadRequestFrom (errValidation [mkProblem ProblemInvalidRole "" "a stored role cannot be computed"]))
  else match ValidateRole role (e_cat e) with
  | Err err => throw (BadRequestFrom err)
  | Ok _ => eff ← EffectiveOf e (pr_Subject actor); lift (holdsAll e eff role)
  end.

(** [Engine.CanBind] *)
Definition CanBind (e : Engine) (actor : Principal) (role : Role) (scope : Scope) (manageBindings : string) :
    stM (World St) error () :=
  match ValidateRole role (e_cat e) with
  | Err err => throw (BadRequestFrom err)
  | Ok _ =>
  match ChainOf (e_resolver e) (e_h e) scope [] with
  | Err err => throw (if errors_Is err ErrScopeNotFound || errors_Is err ErrInvalidScope
                      then BadRequestFrom err else Internal err)
  | Ok chain =>
      let grants := Resolve role (e_cat e) in
      match (if IsRoot (e_h e) scope then Ok () else asValidation (organizationOnlyProblems e grants)) with
      | Err err => throw (BadRequestFrom err)
      | Ok _ =>
          eff ← EffectiveOf e (pr_Subject actor);
          if negb (holdsWithin eff manageBindings (Within chain)) then throw (forbidden manageBindings) else
          let atRoot := holdsWithin eff manageBindings (IsRoot (e_h e)) in
          lift (canBind_loop e eff chain atRoot manageBindings grants)
      end
  end end.

Definition lastAdmin (perm : string) : error :=
  WithReason (WithLog (Wrap (Some (wrapf ErrLastAdmin (": " +:+ perm)))
                ("this would remove your own last access to " +:+ perm) CodePermissionDenied) LevelWarn)
    ReasonLastAdmin {[ "permission" := PString perm ]}.

(** The loop of [keepsAccess] over the protected permissions. *)
Fixpoint keepsAccess_loop (before after : Effective) (protected : list string) : result () :=
  match protected with
  | [] => Ok ()
  | perm :: rest =>
      if (0 <? length (eff_Clauses before perm))%nat && (length (eff_Clauses after perm) =? 0)%nat
      then Err (lastAdmin perm)
      else keepsAccess_loop before after rest
  end.

(** The lookup of [keepsAccess]: a custom role's definition replaced. *)
Definition overrideLookup (e : Engine) (st : St) (override : option Role) (ref : RoleRef) : result Role :=
  match override with
  | Some r => if (0 <? ref_ID ref)%Z && (ref_ID ref =? r_ID r)%Z then Ok r else lookupRole e st ref
  | None => lookupRole e st ref
  end.

(** [Engine.keepsAccess] *)
Definition keepsAccess (e : Engine) (s : Subject) (protected : list string) (drop : Z) (override : option Role) :
    stM (World St) error () :=
  match protected with
  | [] => mret ()
  | _ =>
      before ← EffectiveOf e s;
      w ← get_state;
      lift (match BindingsFor (w_store w) s with
            | Err err => Err (loadErr s err)
            | Ok bindings =>
                let kept := List.filter (λ b, negb (b_ID b =? drop)%Z || (drop =? 0)%Z) bindings in
                match build e s kept (overrideLookup e (w_store w) override) with
                | Err err => Err (Internal err)
                | Ok after => keepsAccess_loop before after protected
                end
            end)
  end.

(** [Admin.actor] *)
Definition actor (ctx : context) : stM (World St) error Principal :=
  match PrincipalFrom ctx with Some p => mret p | None => throw unauthenticated end.

(** [role.Key = ""] *)
Definition clearKey (r : Role) : Role :=
  mkRole (r_ID r) "" (r_Name r) (r_Description r) (r_Grants r) (r_Attrs r) (r_Computed r).

(** [Admin.SaveRole] *)
Definition SaveRole (a : Admin) (ctx : context) (role : Role) : stM (World St) error Role :=
  actor ← actor ctx;
  _ ← Require (a_e a) ctx (a_roles a);
  let role := clearKey role in
  _ ← CanSaveRole (a_e a) actor role;
  _ ← (if (0 <? r_ID role)%Z then
         _ ← map_err storeErr (read_store (λ st, StoreRole st (r_ID role)));
         keepsAccess (a_e a) (pr_Subject actor) (a_protected a) 0 (Some role)
       else mret ());
  saved ← map_err storeErr (on_store (StoreSaveRole (pr_Subject actor) role));
  _ ← evict (λ c, EvictRole c (r_ID saved));
  mret saved.

Definition roleInUse (n : nat) : error :=
  WithReason (Wrap (Some (errNew ErrRoleInUse)) "the role is still bound" CodeAlreadyExists)
    ReasonRoleInUse {[ "bindings" := PInt (Z.of_nat n) ]}.

(** [Admin.DeleteRole] *)
Definition DeleteRole (a : Admin) (ctx : context) (id : Z) : stM (World St) error () :=
  actor ← actor ctx;
  _ ← Require (a_e a) ctx (a_roles a);
  bound ← map_err storeErr (read_store (λ st, StoreBindingsForRole st id));
  if (0 <? length bound)%nat then throw (roleInUse (length bound)) else
  _ ← map_err storeErr (on_store (StoreDeleteRole (pr_Subject actor) id));
  evict (λ c, EvictRole c id).

Definition invalidBinding : error :=
  BadRequestFrom (errValidation [mkProblem ProblemInvalidRole ""
    "a binding needs a valid subject and exactly one of role ID and key"]).

Definition selfAssignment : error :=
  WithReason (WithLog (Wrap (Some (errNew ErrSelfAssignment)) "you cannot assign a role to yourself"
                CodePermissionDenied) LevelWarn) ReasonSelfAssignment ∅.

(** [Admin.Bind] *)
Definition Bind (a : Admin) (ctx : context) (b : Binding) : stM (World St) error Binding :=
  actor ← actor ctx;
  if negb (sub_Valid (b_Subject b)) || negb (ref_Valid (b_Role b)) then throw invalidBinding else
  match CheckScope (e_h (a_e a)) (b_Scope b) with
  | Err err => throw (BadRequestFrom err)
  | Ok _ =>
      if decide (b_Subject b = pr_Subject actor) then throw selfAssignment else
      _ ← RequireOn (a_e a) ctx (a_bindings a) (resourceAt (b_Scope b));
      role ← map_err storeErr (read_store (λ st, lookupRole (a_e a) st (b_Role b)));
      _ ← CanBind (a_e a) actor role (b_Scope b) (a_bindings a);
      saved ← map_err storeErr (on_store (StoreBind (pr_Subject actor) b));
      _ ← evict (λ c, Evict c (b_Subject b));
      mret saved
  end.

(** [Admin.Unbind] *)
Definition Unbind (a : Admin) (ctx : context) (id : Z) : stM (World St) error () :=
  actor ← actor ctx;
  b ← map_err storeErr (read_store (λ st, StoreBinding st id));
  _ ← RequireOn (a_e a) ctx (a_bindings a) (resourceAt (b_Scope b));
  w ← get_state;
  _ ← (match lookupRole (a_e a) (w_store w) (b_Role b) with
       | Ok role => CanBind (a_e a) actor role (b_Scope b) (a_bindings a)
       | Err err => if errors_Is err ErrRoleNotFound then mret () else throw (Internal err)
       end);
  _ ← (if decide (b_Subject b = pr_Subject actor)
       then keepsAccess (a_e a) (pr_Subject actor) (a_protected a) (b_ID b) None
       else mret ());
  _ ← map_err storeErr (on_store (StoreUnbind (pr_Subject actor) id));
  evict (λ c, Evict c (b_Subject b)).
End Admin.
