(* ===== verification/AdminSpec.v ===== *)
(** * What administration guarantees

    Operations keep the cache coherent; a saved role never exceeds its author; a
    binding is never one's own and stays within the actor's reach; nobody removes
    their own last access to a protected permission. *)

From S2P Require Import Prelude Apperr Catalogue Hierarchy Role Access Cache Engine Store EngineSpec Admin.

Create HintDb quiet.

Section Quiet.
Context {St : Type} `{!Store St} (e : Engine).

(** A computation that may read the store and fill the cache, and no more. *)
Definition quiet {A} (m : stM (World St) error A) : Prop :=
  ∀ w r w', coherent e w → m w = (r, w') → w_store w' = w_store w ∧ coherent e w'.

Lemma quiet_ret {A} (a : A) : quiet (mret a).
Proof. intros w r w' Hc [= _ <-]. done. Qed.

Lemma quiet_throw {A} err : quiet (throw (A:=A) err).
Proof. intros w r w' Hc [= _ <-]. done. Qed.

Lemma quiet_lift {A} (o : result A) : quiet (lift o).
Proof. intros w r w' Hc [= _ <-]. done. Qed.

Lemma quiet_get : quiet get_state.
Proof. intros w r w' Hc [= _ <-]. done. Qed.

Lemma quiet_read {A} (f : St → result A) : quiet (read_store f).
Proof. intros w r w' Hc [= _ <-]. done. Qed.

Lemma quiet_bind {A B} (m : stM (World St) error A) (f : A → stM (World St) error B) :
  quiet m → (∀ a, quiet (f a)) → quiet (m ≫= f).
Proof.
  intros Hm Hf w r w' Hc [(a & w1 & E1 & E2)|(err & E1 & ->)]%stM_bind_inv.
  - destruct (Hm _ _ _ Hc E1) as [Hs1 Hc1]. destruct (Hf _ _ _ _ Hc1 E2) as [Hs2 Hc2]. split; [congruence|done].
  - by eapply Hm.
Qed.

Lemma quiet_map_err {A} f (m : stM (World St) error A) : quiet m → quiet (map_err f m).
Proof.
  intros Hm w r w' Hc. unfold map_err. destruct (m w) as [[a|err] w1] eqn:E; intros [= _ <-]; by eapply Hm.
Qed.

Lemma quiet_EffectiveOf s : quiet (EffectiveOf e s).
Proof. intros w r w' Hc E. by eapply EffectiveOf_spec in E as (_ & ? & ?). Qed.
End Quiet.

#[export] Hint Resolve quiet_ret quiet_throw quiet_lift quiet_get quiet_read quiet_bind quiet_map_err
  quiet_EffectiveOf : quiet.

(** Quietness follows the structure of the code. *)
Ltac solve_quiet :=
  repeat first
    [ progress (intros)
    | solve [eauto with quiet]
    | apply quiet_bind
    | apply quiet_map_err
    | case_match ].

Section Operations.
Context {St : Type} `{!Store St} (e : Engine).

Lemma quiet_prepare ctx permission : quiet e (prepare e ctx permission).
Proof. unfold prepare. solve_quiet. Qed.
Hint Resolve quiet_prepare : quiet.

Lemma quiet_Require ctx permission : quiet e (Require e ctx permission).
Proof. unfold Require. solve_quiet. Qed.

Lemma quiet_RequireOn ctx permission res : quiet e (RequireOn e ctx permission res).
Proof. unfold RequireOn. solve_quiet. Qed.

Lemma quiet_actor ctx : quiet e (actor ctx).
Proof. unfold actor. solve_quiet. Qed.

Lemma quiet_CanSaveRole p role : quiet e (CanSaveRole e p role).
Proof. unfold CanSaveRole. solve_quiet. Qed.

Lemma quiet_CanBind p role scope perm : quiet e (CanBind e p role scope perm).
Proof. unfold CanBind. solve_quiet. Qed.

Lemma quiet_keepsAccess s protected drop override : quiet e (keepsAccess e s protected drop override).
Proof. unfold keepsAccess. solve_quiet. Qed.
End Operations.

#[export] Hint Resolve quiet_prepare quiet_Require quiet_RequireOn quiet_actor quiet_CanSaveRole
  quiet_CanBind quiet_keepsAccess : quiet.

(** ** Stepping through an operation *)

Lemma quiet_step {St} `{!Store St} e {A B} (m : stM (World St) error A) (f : A → stM (World St) error B) w r w' :
  quiet e m → coherent e w → (m ≫= f) w = (r, w') →
  (∃ a w1, m w = (Ok a, w1) ∧ w_store w1 = w_store w ∧ coherent e w1 ∧ f a w1 = (r, w')) ∨
  (∃ err, m w = (Err err, w') ∧ r = Err err ∧ w_store w' = w_store w ∧ coherent e w').
Proof.
  intros Hm Hc [(a & w1 & E1 & E2)|(err & E1 & ->)]%stM_bind_inv.
  - destruct (Hm _ _ _ Hc E1). left. eauto 10.
  - destruct (Hm _ _ _ Hc E1). right. eauto 10.
Qed.

(** Two ways a run of an operation ends: with the store as it was, or with a
    change of the store followed by its eviction. *)
Section Outcome.
Context {St : Type} `{!Store St} (e : Engine).

Definition untouched (w w' : World St) : Prop := w_store w' = w_store w ∧ coherent e w'.

Lemma evictRole_coherent (st st' : St) c k :
  coherent e (mkWorld st c) → (∀ s, BindingsFor st' s = BindingsFor st s) →
  (∀ id, id ≠ k → StoreRole st' id = StoreRole st id) → coherent e (mkWorld st' (EvictRole c k)).
Proof.
  intros Hc Hb Hr s ent Hent. cbn in *. apply EvictRole_lookup in Hent as [Hent Huse].
  apply (load_role_irrelevant _ st st' _ _ k); [exact (Hc _ _ Hent)| |by rewrite Hb|].
  - unfold usesRole in Huse. by apply bool_decide_eq_false in Huse.
  - intros id Hne. by rewrite Hr.
Qed.

Lemma evict_coherent (st st' : St) c s0 :
  coherent e (mkWorld st c) → (∀ s, s ≠ s0 → BindingsFor st' s = BindingsFor st s) →
  (∀ id, StoreRole st' id = StoreRole st id) → coherent e (mkWorld st' (Evict c s0)).
Proof.
  intros Hc Hb Hr s ent. cbn [w_cache w_store]. rewrite Evict_lookup.
  destruct (decide (s = s0)) as [->|Hne]; [by rewrite bool_decide_eq_true_2|].
  rewrite bool_decide_eq_false_2 by done. intros Hent. rewrite (load_same e st' st); [exact (Hc _ _ Hent)|auto..].
Qed.

Lemma coherent_same (st st' : St) c :
  coherent e (mkWorld st c) → st' = st → coherent e (mkWorld st' c).
Proof. by intros ? ->. Qed.
End Outcome.

Section Coherence.
Context {St : Type} `{!Store St} `{!StoreLaws St} (a : Admin).
Implicit Types w : World St.

(** Run from the store [st], the computation keeps the store's invariant and the
    cache coherent. *)
Definition safe_at {A} (st : St) (m : stM (World St) error A) : Prop :=
  ∀ w r w', w_store w = st → coherent (a_e a) w → store_inv st → m w = (r, w') →
    store_inv (w_store w') ∧ coherent (a_e a) w'.

Lemma safe_quiet {A} st (m : stM (World St) error A) : quiet (a_e a) m → safe_at st m.
Proof. intros Hm w r w' Hw Hc Hi E. destruct (Hm _ _ _ Hc E) as [-> ?]. by rewrite Hw. Qed.

Lemma safe_bind {A B} st (m : stM (World St) error A) (f : A → stM (World St) error B) :
  quiet (a_e a) m → (∀ x w w1, w_store w = st → m w = (Ok x, w1) → safe_at st (f x)) → safe_at st (m ≫= f).
Proof.
  intros Hm Hf w r w' Hw Hc Hi [(x & w1 & E & Hs & Hc1 & H)|(err & _ & _ & Hs & ?)]%(quiet_step (a_e a)); [..|done|done].
  - apply (Hf x w w1 Hw E w1 r w'); [congruence|done|done|exact H].
  - by rewrite Hs, Hw.
Qed.

(** A write of the store followed by an eviction. *)
Lemma write_evict {A B} st (m : stM St error A) (f : A → Cache → Cache) (k : A → B) :
  (∀ st' err, m st = (Err err, st') → st' = st) →
  (∀ st' x c, store_inv st → coherent (a_e a) (mkWorld st c) → m st = (Ok x, st') →
     store_inv st' ∧ coherent (a_e a) (mkWorld st' (f x c))) →
  safe_at st (x ← map_err storeErr (on_store m); _ ← evict (f x); mret (k x)).
Proof.
  intros Herr Hok [st0 c] r w'. cbn. intros -> Hc Hi.
  unfold map_err, on_store, mbind, stM_bind, evict, modify. cbn.
  destruct (m st) as [[x|err] st'] eqn:Em; cbn; intros [= _ <-]; cbn.
  - by apply Hok.
  - rewrite (Herr _ _ eq_refl). done.
Qed.

Lemma write_evict_unit st (m : stM St error ()) (f : Cache → Cache) :
  (∀ st' err, m st = (Err err, st') → st' = st) →
  (∀ st' c, store_inv st → coherent (a_e a) (mkWorld st c) → m st = (Ok (), st') →
     store_inv st' ∧ coherent (a_e a) (mkWorld st' (f c))) →
  safe_at st (_ ← map_err storeErr (on_store m); evict f).
Proof.
  intros Herr Hok w r w' Hw Hc Hi H. eapply (write_evict st m (λ _, f) (λ _, ()) Herr).
  - intros st' [] c Hi' Hc' E. by eapply Hok.
  - exact Hw.
  - exact Hc.
  - exact Hi.
  - revert H. unfold mbind, stM_bind, evict, modify, mret, stM_ret. instantiate (1 := r).
    destruct (map_err storeErr (on_store m) w) as [[[]|err] w1]; done.
Qed.

Ltac quiet_prefix := repeat (apply safe_bind; [solve [solve_quiet]|intros ? ? ? ? ?]).

Lemma safe_SaveRole ctx role st : safe_at st (SaveRole a ctx role).
Proof.
  unfold SaveRole. quiet_prefix. apply (write_evict _ _ (λ x c, EvictRole c (r_ID x)) id).
  - intros st' err. apply law_saveRole_err.
  - intros st' saved c Hi Hc (Hi' & _ & _ & _ & _ & Hr & Hb)%law_saveRole; [|done]. split; [done|].
    by eapply evictRole_coherent.
Qed.

Lemma safe_DeleteRole ctx id st : safe_at st (DeleteRole a ctx id).
Proof.
  unfold DeleteRole. quiet_prefix. case_match; [by apply safe_quiet, quiet_throw|].
  apply write_evict_unit.
  - intros st' err. apply law_deleteRole_err.
  - intros st' c Hi Hc (Hi' & _ & _ & Hr & Hb)%law_deleteRole; [|done]. split; [done|].
    by eapply evictRole_coherent.
Qed.

Lemma safe_Bind ctx b st : safe_at st (Bind a ctx b).
Proof.
  unfold Bind. apply safe_bind; [solve_quiet|intros p w w1 Hw _].
  case_match; [by apply safe_quiet, quiet_throw|].
  case_match; [|by apply safe_quiet, quiet_throw].
  case_match; [by apply safe_quiet, quiet_throw|]. quiet_prefix.
  apply (write_evict _ _ (λ _ c, Evict c (b_Subject b)) id).
  - intros st' err. apply law_bind_err.
  - intros st' saved c Hi Hc (Hi' & _ & _ & _ & _ & Hb & Hr)%law_bind; [|done]. split; [done|].
    by eapply evict_coherent.
Qed.

(** Removing binding [id] of [s0] changes no other subject's bindings. *)
Lemma unbind_others st actor id b st' s :
  store_inv st → StoreBinding st id = Ok b → StoreUnbind actor id st = (Ok (), st') →
  s ≠ b_Subject b → BindingsFor st' s = BindingsFor st s.
Proof.
  intros Hi Hb (_ & Hbs & _)%law_unbind Hne; [|done].
  destruct (law_bindings st s Hi) as (bs & Hs & Hall). rewrite Hs, (Hbs _ _ Hs). f_equal.
  assert (Forall (λ x, negb (b_ID x =? id)%Z = true) bs) as Hkeep.
  { eapply list.Forall_impl; [exact Hall|]. cbn. intros x [Hx Hxb]. apply negb_true_iff, Z.eqb_neq.
    intros Heq. rewrite Heq in Hxb. congruence. }
  clear -Hkeep. induction Hkeep as [|x l Hx _ IH]; cbn; [done|]. by rewrite Hx, IH.
Qed.

Lemma safe_Unbind ctx id st : safe_at st (Unbind a ctx id).
Proof.
  unfold Unbind. apply safe_bind; [solve_quiet|intros p w0 w01 _ _].
  apply safe_bind; [solve_quiet|intros b w w1 Hw Hread].
  assert (StoreBinding st id = Ok b) as Hb.
  { unfold map_err, read_store in Hread. rewrite Hw in Hread. by destruct (StoreBinding st id); simplify_eq. }
  quiet_prefix. apply write_evict_unit.
  - intros st' err. apply law_unbind_err.
  - intros st' c Hi Hc Hu. pose proof Hu as (Hi' & _ & Hr)%law_unbind; [|done]. split; [done|].
    eapply evict_coherent; [done| |done]. intros s. by eapply unbind_others.
Qed.
End Coherence.

(** ** What a successful operation has checked *)

Lemma holdsAll_loop_Ok e eff role gs :
  holdsAll_loop e eff role gs = Ok () →
  ∀ g, g ∈ gs → ∃ own, own ∈ eff_Clauses eff (g_Permission g) ∧
    Covers (cl_Qualifier own) (g_Qualifier g) = true ∧
    attrsCover (cl_Attrs own)
      (attrsFor (default (zeroPermission "") (Lookup (e_cat e) (g_Permission g))) (r_Attrs role)) = true.
Proof.
  induction gs as [|g gs IH]; cbn [holdsAll_loop]; [intros _ g []%elem_of_nil|].
  destruct (eff_Clauses eff (g_Permission g)) as [|c cs] eqn:Ec; [done|].
  destruct (existsb _ (c :: cs)) eqn:Ex; [|done]. intros H x [->|Hx]%elem_of_cons; [|by apply IH].
  apply existsb_elem in Ex as (own & Hin & [? ?]%andb_true_iff). exists own. by rewrite Ec.
Qed.

Lemma holdsWithin_spec eff permission within :
  holdsWithin eff permission within = true ↔ ∃ c, c ∈ eff_Clauses eff permission ∧ within (cl_Scope c) = true.
Proof. apply existsb_elem. Qed.

Lemma canBind_loop_Ok e eff chain atRoot mb gs :
  canBind_loop e eff chain atRoot mb gs = Ok () →
  ∀ g p, g ∈ gs → Lookup (e_cat e) (g_Permission g) = Some p →
    (p_System p = true → holdsWithin eff (p_ID p) (Within chain) = true) ∧
    (p_OrganizationOnly p = true → atRoot = true).
Proof.
  induction gs as [|g gs IH]; cbn [canBind_loop]; [intros _ g p []%elem_of_nil|].
  intros H x p [->|Hx]%elem_of_cons Hl.
  - rewrite Hl in H. cbn in H.
    destruct (p_System p), (holdsWithin eff (p_ID p) (Within chain)); cbn in H; try done;
      destruct (p_OrganizationOnly p), atRoot; done.
  - repeat (case_match; [done|]). by eapply IH.
Qed.

Lemma organizationOnly_none e gs g p :
  organizationOnlyProblems e gs = [] → g ∈ gs → Lookup (e_cat e) (g_Permission g) = Some p →
  p_OrganizationOnly p = false.
Proof.
  intros Hnil Hin Hl. destruct (p_OrganizationOnly p) eqn:Eo; [|done]. exfalso.
  assert (mkProblem ProblemOrganizationOnly (p_ID p) ("can only be bound at " +:+ RootLevel (e_h e))
    ∈ organizationOnlyProblems e gs) as Hp.
  { apply list_elem_of_omap. exists g. by rewrite Hl, Eo. }
  rewrite Hnil in Hp. by apply elem_of_nil in Hp.
Qed.

Lemma keepsAccess_loop_Ok before after protected perm :
  keepsAccess_loop before after protected = Ok () → perm ∈ protected →
  eff_Clauses before perm ≠ [] → eff_Clauses after perm ≠ [].
Proof.
  induction protected as [|x l IH]; cbn [keepsAccess_loop]; [intros _ []%elem_of_nil|].
  destruct (_ && _) eqn:Eb; [done|]. intros H [->|Hin]%elem_of_cons Hb; [|by apply IH].
  intros Ha. rewrite Ha in Eb. destruct (eff_Clauses before x); [done|]. cbn in Eb. done.
Qed.

Section Checked.
Context {St : Type} `{!Store St} (e : Engine).
Implicit Types w : World St.

Lemma CanSaveRole_Ok p role w w' :
  coherent e w → CanSaveRole e p role w = (Ok (), w') →
  r_Computed role = None ∧ ValidateRole role (e_cat e) = Ok () ∧
  ∃ eff, load e (w_store w) (pr_Subject p) = Ok eff ∧ holdsAll e eff role = Ok ().
Proof.
  intros Hc. unfold CanSaveRole. destruct (r_Computed role); [done|]. cbn.
  destruct (ValidateRole role (e_cat e)) as [[]|]; [|done]. intros (eff & w1 & E & H)%stM_bind_Ok.
  apply lift_Ok in H as [H _].
  destruct (EffectiveOf_spec e _ _ _ _ Hc E) as (Hl & _). split; [done|]. split; [done|]. eauto.
Qed.

(** Rules (1) to (4). *)
Lemma CanBind_Ok p role scope mb w w' :
  coherent e w → CanBind e p role scope mb w = (Ok (), w') →
  ∃ chain eff, ChainOf (e_resolver e) (e_h e) scope [] = Ok chain ∧
    load e (w_store w) (pr_Subject p) = Ok eff ∧
    holdsWithin eff mb (Within chain) = true ∧
    ∀ g perm, g ∈ Resolve role (e_cat e) → Lookup (e_cat e) (g_Permission g) = Some perm →
      (p_System perm = true → holdsWithin eff (p_ID perm) (Within chain) = true) ∧
      (p_OrganizationOnly perm = true →
         IsRoot (e_h e) scope = true ∧ holdsWithin eff mb (IsRoot (e_h e)) = true).
Proof.
  intros Hc. unfold CanBind. destruct (ValidateRole role (e_cat e)); [|done].
  destruct (ChainOf _ _ _ _) as [chain|]; [|done].
  destruct (if IsRoot (e_h e) scope then _ else _) as [[]|] eqn:Ep; [|done].
  intros (eff & w1 & E & H)%stM_bind_Ok. destruct (EffectiveOf_spec e _ _ _ _ Hc E) as (Hl & _).
  destruct (holdsWithin eff mb (Within chain)) eqn:E1; [|done]. cbn in H. apply lift_Ok in H as [H _].
  exists chain, eff. split; [done|]. split; [done|]. split; [done|]. intros g perm Hg Hp.
  destruct (canBind_loop_Ok _ _ _ _ _ _ H g perm Hg Hp) as [H2 H3]. split; [done|].
  intros Ho. split; [|auto]. destruct (IsRoot (e_h e) scope) eqn:Er; [done|].
  apply asValidation_Ok in Ep. by rewrite (organizationOnly_none _ _ _ _ Ep Hg Hp) in Ho.
Qed.

Lemma keepsAccess_Ok s protected drop override w w' :
  coherent e w → keepsAccess e s protected drop override w = (Ok (), w') → protected ≠ [] →
  ∃ before bs after, load e (w_store w) s = Ok before ∧ BindingsFor (w_store w) s = Ok bs ∧
    build e s (List.filter (λ b, negb (b_ID b =? drop)%Z || (drop =? 0)%Z) bs)
      (overrideLookup e (w_store w) override) = Ok after ∧
    ∀ perm, perm ∈ protected → eff_Clauses before perm ≠ [] → eff_Clauses after perm ≠ [].
Proof.
  intros Hc H Hne. destruct protected as [|p0 ps]; [done|]. unfold keepsAccess in H.
  apply stM_bind_Ok in H as (before & w1 & E & H). apply stM_bind_Ok in H as (w2 & w3 & [= <- <-] & H).
  destruct (EffectiveOf_spec e _ _ _ _ Hc E) as (Hl & Hs & _). rewrite Hs in H.
  apply lift_Ok in H as [H _]. destruct (BindingsFor (w_store w) s) as [bs|] eqn:Eb; [|done].
  destruct (build _ _ _ _) as [after|] eqn:Ebu; [|done].
  exists before, bs, after. repeat split; [done..|]. intros perm. by apply keepsAccess_loop_Ok.
Qed.
End Checked.

(** ** Successful operations, decomposed *)

Section Inversion.
Context {St : Type} `{!Store St} (a : Admin).
Implicit Types w : World St.

Lemma step_Ok {A B} (m : stM (World St) error A) (f : A → stM (World St) error B) w b w' :
  quiet (a_e a) m → coherent (a_e a) w → (m ≫= f) w = (Ok b, w') →
  ∃ x w1, m w = (Ok x, w1) ∧ w_store w1 = w_store w ∧ coherent (a_e a) w1 ∧ f x w1 = (Ok b, w').
Proof. intros Hm Hc [?|(? & _ & ? & _)]%(quiet_step (a_e a)); done. Qed.

Lemma actor_Ok ctx w p w1 : actor ctx w = (Ok p, w1) → PrincipalFrom ctx = Some p ∧ w1 = w.
Proof. unfold actor. destruct (PrincipalFrom ctx); [|done]. by intros [= -> ->]. Qed.

Lemma map_err_Ok {A} f (m : stM (World St) error A) w x w1 :
  map_err f m w = (Ok x, w1) → m w = (Ok x, w1).
Proof. unfold map_err. by destruct (m w) as [[]]. Qed.

Lemma write_Ok {A} (m : stM St error A) (w : World St) x w1 :
  map_err storeErr (on_store m) w = (Ok x, w1) →
  ∃ st', m (w_store w) = (Ok x, st') ∧ w1 = mkWorld st' (w_cache w).
Proof.
  intros H%map_err_Ok. unfold on_store in H. destruct (m (w_store w)) as [r st'].
  injection H as <- <-. eauto.
Qed.

Lemma Bind_Ok_inv ctx b w saved w' :
  coherent (a_e a) w → Bind a ctx b w = (Ok saved, w') →
  ∃ p role w1, PrincipalFrom ctx = Some p ∧ b_Subject b ≠ pr_Subject p ∧
    ref_Valid (b_Role b) = true ∧ lookupRole (a_e a) (w_store w) (b_Role b) = Ok role ∧
    w_store w1 = w_store w ∧ coherent (a_e a) w1 ∧
    (∃ w2, CanBind (a_e a) p role (b_Scope b) (a_bindings a) w1 = (Ok (), w2)) ∧
    StoreBind (pr_Subject p) b (w_store w) = (Ok saved, w_store w').
Proof.
  intros Hc H. unfold Bind in H.
  apply stM_bind_Ok in H as (p & w0 & [Hp ->]%actor_Ok & H).
  destruct (sub_Valid (b_Subject b)); [|done].
  destruct (ref_Valid (b_Role b)) eqn:Ev; [|done]. cbn in H.
  destruct (CheckScope (e_h (a_e a)) (b_Scope b)); [|done].
  destruct (decide (b_Subject b = pr_Subject p)) as [|Hne]; [done|].
  apply step_Ok in H as ([] & w1 & _ & Hs1 & Hc1 & H); [|apply quiet_RequireOn|done].
  apply step_Ok in H as (role & w2 & Hr & Hs2 & Hc2 & H); [|solve_quiet|done].
  apply map_err_Ok in Hr. injection Hr as Hr ->.
  apply step_Ok in H as ([] & w3 & Hcb & Hs3 & Hc3 & H); [|apply quiet_CanBind|done].
  apply stM_bind_Ok in H as (x & w4 & (st' & Hb & ->)%write_Ok & H).
  unfold evict, modify, mret, stM_ret, mbind, stM_bind in H. injection H as <- <-. cbn.
  rewrite Hs3, Hs1 in Hb. rewrite Hs1 in Hr. exists p, role, w2. repeat split; eauto.
Qed.

Lemma SaveRole_Ok_inv ctx role w saved w' :
  coherent (a_e a) w → SaveRole a ctx role w = (Ok saved, w') →
  ∃ p eff, PrincipalFrom ctx = Some p ∧ r_Computed role = None ∧
    ValidateRole (clearKey role) (e_cat (a_e a)) = Ok () ∧
    load (a_e a) (w_store w) (pr_Subject p) = Ok eff ∧ holdsAll (a_e a) eff (clearKey role) = Ok () ∧
    ((0 < r_ID role)%Z → ∃ w1 w2, w_store w1 = w_store w ∧ coherent (a_e a) w1 ∧
       keepsAccess (a_e a) (pr_Subject p) (a_protected a) 0 (Some (clearKey role)) w1 = (Ok (), w2)) ∧
    StoreSaveRole (pr_Subject p) (clearKey role) (w_store w) = (Ok saved, w_store w').
Proof.
  intros Hc H. unfold SaveRole in H.
  apply stM_bind_Ok in H as (p & w0 & [Hp ->]%actor_Ok & H).
  apply step_Ok in H as ([] & w1 & _ & Hs1 & Hc1 & H); [|apply quiet_Require|done].
  apply step_Ok in H as ([] & w2 & Hcan & Hs2 & Hc2 & H); [|apply quiet_CanSaveRole|done].
  apply (CanSaveRole_Ok _ _ _ _ _ Hc1) in Hcan as (Hcomp & Hv & eff & Hl & Hh).
  apply step_Ok in H as ([] & w3 & Hk & Hs3 & Hc3 & H); [|solve_quiet|done].
  apply stM_bind_Ok in H as (x & w4 & (st' & Hb & ->)%write_Ok & H).
  unfold evict, modify, mret, stM_ret, mbind, stM_bind in H. injection H as <- <-. cbn in *.
  rewrite Hs1 in Hl. rewrite Hs3, Hs2, Hs1 in Hb. exists p, eff. repeat split; try done.
  intros Hpos. apply Z.ltb_lt in Hpos. rewrite Hpos in Hk.
  apply stM_bind_Ok in Hk as (old & w5 & Hread%map_err_Ok & Hk). injection Hread as _ <-.
  exists w2, w3. repeat split; [congruence|done|exact Hk].
Qed.

Lemma Unbind_Ok_inv ctx id w w' :
  coherent (a_e a) w → Unbind a ctx id w = (Ok (), w') →
  ∃ p b, PrincipalFrom ctx = Some p ∧ StoreBinding (w_store w) id = Ok b ∧
    (b_Subject b = pr_Subject p → ∃ w1 w2, w_store w1 = w_store w ∧ coherent (a_e a) w1 ∧
       keepsAccess (a_e a) (pr_Subject p) (a_protected a) (b_ID b) None w1 = (Ok (), w2)) ∧
    StoreUnbind (pr_Subject p) id (w_store w) = (Ok (), w_store w').
Proof.
  intros Hc H. unfold Unbind in H.
  apply stM_bind_Ok in H as (p & w0 & [Hp ->]%actor_Ok & H).
  apply step_Ok in H as (b & w1 & Hread & Hs1 & Hc1 & H); [|solve_quiet|done].
  apply map_err_Ok in Hread. injection Hread as Hread <-.
  apply step_Ok in H as ([] & w2 & _ & Hs2 & Hc2 & H); [|apply quiet_RequireOn|done].
  apply stM_bind_Ok in H as (w2' & w2'' & [= <- <-] & H).
  apply step_Ok in H as ([] & w3 & _ & Hs3 & Hc3 & H); [|solve_quiet|done].
  apply step_Ok in H as ([] & w4 & Hk & Hs4 & Hc4 & H); [|solve_quiet|done].
  apply stM_bind_Ok in H as ([] & w5 & (st' & Hb & ->)%write_Ok & H).
  injection H as <-. cbn. rewrite Hs4, Hs3, Hs2 in Hb. exists p, b. repeat split; [done..| |done].
  intros Heq. rewrite decide_True in Hk by done. exists w3, w4. repeat split; [congruence|done|exact Hk].
Qed.
End Inversion.

(** ** No escalation, no lock-out *)

Section Guarantees.
Context {St : Type} `{!Store St} `{!StoreLaws St} (a : Admin).
Implicit Types w : World St.

(** Whatever a binding of the saved role yields, its author holds through one
    clause at least as wide and broad. *)
Lemma saved_role_held ctx role w saved w' p eff :
  wf_catalogue (e_cat (a_e a)) → coherent (a_e a) w → store_inv (w_store w) →
  SaveRole a ctx role w = (Ok saved, w') → PrincipalFrom ctx = Some p →
  load (a_e a) (w_store w) (pr_Subject p) = Ok eff →
  ∀ b id c, lookupRole (a_e a) (w_store w') (b_Role b) = Ok saved →
    yields (a_e a) (lookupRole (a_e a) (w_store w')) b id c →
    ∃ own, own ∈ eff_Clauses eff id ∧
      Covers (cl_Qualifier own) (cl_Qualifier c) = true ∧ attrsCover (cl_Attrs own) (cl_Attrs c) = true.
Proof.
  intros Hwf Hc Hi H Hp Hl b id c Hlook Hy.
  destruct (SaveRole_Ok_inv _ _ _ _ _ _ Hc H) as (p' & eff' & Hp' & Hcomp & _ & Hl' & Hh & _ & Hs).
  simplify_eq. rewrite Hl in Hl'. injection Hl' as <-.
  destruct (law_saveRole _ _ _ _ _ Hi Hs) as (_ & _ & _ & _ & Heq & _).
  destruct (yields_inv _ _ _ _ _ Hy) as (r & g & pm & Hr & Hg & Hpm & Hid & _ & _ & _ & chain & _ & ->).
  assert (r = saved) as -> by congruence. rewrite Heq in Hg. cbn in Hg.
  assert (g ∈ Resolve (clearKey role) (e_cat (a_e a))) as Hg'.
  { unfold Resolve. cbn. by rewrite Hcomp. }
  destruct (holdsAll_loop_Ok _ _ _ _ Hh g Hg') as (own & Hown & Hq & Ha).
  rewrite Hpm in Ha. cbn in Ha.
  assert (g_Permission g = id) as Hgp.
  { destruct (wf_perm _ Hwf _ _ Hpm) as [Hx _]. congruence. }
  exists own. rewrite <-Hgp. split; [exact Hown|]. split; [exact Hq|].
  cbn [cl_Attrs]. rewrite Heq. exact Ha.
Qed.

Lemma Unbind_keeps ctx id w w' p perm before :
  coherent (a_e a) w → store_inv (w_store w) → Unbind a ctx id w = (Ok (), w') →
  PrincipalFrom ctx = Some p → perm ∈ a_protected a →
  load (a_e a) (w_store w) (pr_Subject p) = Ok before → eff_Clauses before perm ≠ [] →
  ∃ after, load (a_e a) (w_store w') (pr_Subject p) = Ok after ∧ eff_Clauses after perm ≠ [].
Proof.
  intros Hc Hi H Hp Hperm Hbefore Hne.
  destruct (Unbind_Ok_inv _ _ _ _ _ Hc H) as (p' & b & Hp' & Hb & Hkeep & Hu). simplify_eq.
  pose proof (law_unbind _ _ _ _ Hi Hu) as (_ & Hbs & Hr).
  destruct (decide (b_Subject b = pr_Subject p)) as [Heq|Hother].
  - destruct (Hkeep Heq) as (w1 & w2 & Hs1 & Hc1 & Hk).
    apply keepsAccess_Ok in Hk as (before' & bs & after & Hl & Hbind & Hbuild & Hall); 
      [|done|by intros E; rewrite E in Hperm; apply elem_of_nil in Hperm].
    rewrite Hs1 in Hl, Hbind, Hbuild. rewrite Hl in Hbefore. injection Hbefore as ->.
    destruct (law_binding _ _ _ Hi Hb) as (Hid & Hpos & _).
    exists after. split; [|by apply Hall]. unfold load. rewrite (Hbs _ _ Hbind).
    rewrite (build_ext _ _ (overrideLookup (a_e a) (w_store w) None)); [..|].
    + replace (List.filter (λ b0, negb (b_ID b0 =? id)%Z) bs) with
        (List.filter (λ b0, negb (b_ID b0 =? b_ID b)%Z || (b_ID b =? 0)%Z) bs); [by rewrite Hbuild|].
      apply filter_ext. intros x. rewrite Hid. rewrite (proj2 (Z.eqb_neq id 0)) by lia. by rewrite orb_false_r.
    + intros x _ Hv. cbn. apply lookupRole_ext; [done|]. intros _. apply Hr.
  - exists before. split; [|done]. rewrite <-Hbefore. apply load_same; [|auto].
    eapply unbind_others; eauto.
Qed.

Lemma SaveRole_keeps ctx role w saved w' p perm before :
  coherent (a_e a) w → store_inv (w_store w) → SaveRole a ctx role w = (Ok saved, w') →
  PrincipalFrom ctx = Some p → (0 < r_ID role)%Z → perm ∈ a_protected a →
  load (a_e a) (w_store w) (pr_Subject p) = Ok before → eff_Clauses before perm ≠ [] →
  ∃ after, load (a_e a) (w_store w') (pr_Subject p) = Ok after ∧ eff_Clauses after perm ≠ [].
Proof.
  intros Hc Hi H Hp Hpos Hperm Hbefore Hne.
  destruct (SaveRole_Ok_inv _ _ _ _ _ _ Hc H) as (p' & eff & Hp' & Hcomp & _ & _ & _ & Hkeep & Hs). simplify_eq.
  destruct (law_saveRole _ _ _ _ _ Hi Hs) as (_ & Hrole & _ & Hid & Heq & Hothers & Hbs).
  specialize (Hid ltac:(cbn; lia)). cbn in Hid.
  assert (saved = clearKey role) as ->.
  { rewrite Heq, Hid. unfold clearKey. cbn. by rewrite Hcomp. }
  destruct (Hkeep Hpos) as (w1 & w2 & Hs1 & Hc1 & Hk).
  apply keepsAccess_Ok in Hk as (before' & bs & after & Hl & Hbind & Hbuild & Hall);
    [|done|by intros E; rewrite E in Hperm; apply elem_of_nil in Hperm].
  rewrite Hs1 in Hl, Hbind, Hbuild. rewrite Hl in Hbefore. injection Hbefore as ->.
  exists after. split; [|by apply Hall]. unfold load. rewrite Hbs, Hbind.
  rewrite (build_ext _ _ (overrideLookup (a_e a) (w_store w) (Some (clearKey role)))).
  - replace bs with (List.filter (λ b, negb (b_ID b =? 0)%Z || (0 =? 0)%Z) bs) at 1; [by rewrite Hbuild|].
    clear. induction bs as [|b bs IH]; cbn; [done|]. rewrite orb_true_r. cbn in IH. by rewrite IH.
  - intros b _ Hv. unfold overrideLookup. cbn [clearKey r_ID].
    destruct ((0 <? ref_ID (b_Role b))%Z && _) eqn:Eb.
    + apply andb_true_iff in Eb as [Hgt%Z.ltb_lt Hsame%Z.eqb_eq]. unfold lookupRole.
      destruct (decide _) as [Hk|Hk].
      * unfold ref_Valid in Hv. rewrite bool_decide_eq_true_2 in Hv by done.
        apply Z.ltb_lt in Hgt. by rewrite Hgt in Hv.
      * rewrite Hsame. exact Hrole.
    + apply lookupRole_ext; [done|]. intros Hgt. apply Hothers. cbn. intros Hsame.
      apply Z.ltb_lt in Hgt. apply Z.eqb_eq in Hsame. by rewrite Hgt, Hsame in Eb.
Qed.
End Guarantees.
