(* ===== verification/Sample.v ===== *)
(** * A small application

    A catalogue, a hierarchy, an engine and a store with one administrator and one
    seller: the concrete inputs at which the authorization theorems are applied. *)

From S2P Require Import Prelude Apperr Catalogue Hierarchy Role Access Cache Engine Store EngineSpec MemStore Admin.

Definition orElse {A} (o : result A) (d : A) : A := match o with Ok a => a | Err _ => d end.

Definition vehiclesView : string := "vehicles:view".
Definition vehiclesEdit : string := "vehicles:edit".
Definition rolesManage : string := "authz.roles:manage".
Definition bindingsManage : string := "authz.bindings:manage".
Definition booksClose : string := "books:close".

Definition sampleDefs : list (string * list DefineOption) :=
  [ (vehiclesView, [OwnableOf "vehicle"; Attributes ["vehiclekind"]]);
    (vehiclesEdit, [OwnableOf "vehicle"; Requires [vehiclesView]; Attributes ["vehiclekind"]]);
    (rolesManage, [System]);
    (bindingsManage, [System]);
    (booksClose, [OrganizationOnly]) ].

Definition sampleCatalogue : result Catalogue :=
  foldl (λ c d, c ← c; Define c d.1 d.2) (Ok NewCatalogue) sampleDefs.

Definition sampleHierarchy : result Hierarchy :=
  h ← NewHierarchy ["organization"; "dealer"; "location"]; WithTenantLevel h "dealer".

(** Locations 10 to 19 belong to dealer 1, and so on; dealers to the organization. *)
Definition sampleParent (s : Scope) : result Scope :=
  if decide (s_Level s = "location") then Ok (mkScope "dealer" (s_ID s / 10))
  else if decide (s_Level s = "dealer") then Ok (mkScope "organization" 0)
  else Err (wrapf ErrScopeNotFound "").

Definition adminRole : Role := ComputedRole "admin" "Administrator" All.

Definition sampleClock : nat → Z := λ n, Z.of_nat n.

Definition sampleConfig : result Config :=
  cat ← sampleCatalogue; h ← sampleHierarchy;
  Ok (mkConfig (Some cat) (Some h) [adminRole] true (Some sampleParent) None None).

Definition emptyEngine : Engine :=
  mkEngine NewCatalogue (mkHierarchy ["organization"] {[ "organization" := 0 ]} "") ∅ sampleParent None.

Definition sampleEngine : Engine :=
  match (cfg ← sampleConfig; NewEngine sampleClock cfg) with
  | Ok (e, _) => e
  | Err _ => emptyEngine
  end.

Definition alice : Subject := mkSubject KindUser 1.
Definition bob : Subject := mkSubject KindUser 2.
Definition carol : Subject := mkSubject KindUser 3.

Definition dealer1 : Scope := mkScope "dealer" 1.
Definition organization : Scope := mkScope "organization" 0.

Definition sellerRole : Role :=
  mkRole 0 "" "Seller" "" [mkGrant vehiclesView QualifierAll; mkGrant vehiclesEdit QualifierOwn] ∅ None.

Definition bindingOf (s : Subject) (ref : RoleRef) (scope : Scope) : Binding := mkBinding 0 s ref scope 0 0.

Definition store0 : MemoryStore := NewMemoryStore sampleClock.
Definition store1 : MemoryStore := (mem_SaveRole alice sellerRole store0).2.
Definition store2 : MemoryStore := (mem_Bind alice (bindingOf alice (mkRoleRef 0 "admin") organization) store1).2.
Definition sampleStore : MemoryStore := (mem_Bind alice (bindingOf bob (mkRoleRef 1 "") dealer1) store2).2.

Definition sampleWorld : World MemoryStore := mkWorld sampleStore (NewCache sampleClock 0).

Definition aliceCtx : context := WithPrincipal (User 1 0).
Definition bobCtx : context := WithPrincipal (User 2 0).

Definition sampleAdmin : Admin := mkAdmin sampleEngine rolesManage bindingsManage [rolesManage].

(** A vehicle at location 12 of dealer 1, owned by Bob. *)
Definition vehicle : Resource := mkResource (mkScope "location" 12) [] 2 0 0 ∅.

Lemma sampleWorld_coherent e : coherent e sampleWorld.
Proof. intros s ent. cbn. by rewrite lookup_empty. Qed.

Lemma sampleStore_inv : mem_inv sampleStore.
Proof.
  assert (mem_inv store1) as H1.
  { eapply (mem_SaveRole_spec alice sellerRole store0 _ store1 (mem_inv_New _)).
    vm_compute. reflexivity. }
  assert (mem_inv store2) as H2.
  { eapply (mem_Bind_inv alice (bindingOf alice (mkRoleRef 0 "admin") organization) store1 _ store2 H1). vm_compute. reflexivity. }
  eapply (mem_Bind_inv alice (bindingOf bob (mkRoleRef 1 "") dealer1) store2 _ sampleStore H2). vm_compute. reflexivity.
Qed.

Lemma sampleWorld_inv : store_inv (w_store sampleWorld).
Proof. exact sampleStore_inv. Qed.

Lemma sampleCatalogue_wf c : sampleCatalogue = Ok c → wf_catalogue c.
Proof.
  unfold sampleCatalogue. cbn [foldl sampleDefs].
  assert (∀ r d, (∀ c0, r = Ok c0 → wf_catalogue c0) → Forall keeps_id d.2 →
    ∀ c0, (c ← r; Define c d.1 d.2) = Ok c0 → wf_catalogue c0) as Hstep.
  { intros r d Hr Hd c0 (c1 & E & H)%outcome_bind_Ok. eapply Define_wf; eauto. }
  revert c. repeat (apply Hstep; [|by repeat constructor]). intros c [= <-]. apply wf_NewCatalogue.
Qed.

Lemma sampleHierarchy_wf : wf_hierarchy (e_h sampleEngine).
Proof.
  assert (∃ h, NewHierarchy ["organization"; "dealer"; "location"] = Ok h ∧
    h_levels h = h_levels (e_h sampleEngine) ∧ h_depth h = h_depth (e_h sampleEngine)) as (h & Hh & Hl & Hd).
  { eexists. split; [vm_compute; reflexivity|]. split; vm_compute; reflexivity. }
  apply NewHierarchy_wf in Hh as ([Hr Hdep] & _). split; [by rewrite <-Hl|].
  intros l i. rewrite <-Hl, <-Hd. apply Hdep.
Qed.

Definition permOrZero (id : string) : Permission := default (zeroPermission "") (Lookup (e_cat sampleEngine) id).
Definition vehicleChain : Chain := orElse (resourceChain sampleEngine vehicle) [].
Definition bobBindings : list Binding := filterBindings sampleStore (λ b, bool_decide (b_Subject b = bob)).
Definition bobEffective : Effective := orElse (load sampleEngine sampleStore bob) (emptyEffective bob).
Definition aliceEffective : Effective := orElse (load sampleEngine sampleStore alice) (emptyEffective alice).

Lemma sampleEngine_nofeature c e : p_Feature (permOrZero vehiclesEdit) = "" ∧
  is_ok (recordGate e (permOrZero vehiclesEdit) vehicle vehicleChain c) = true.
Proof.
  assert (p_Feature (permOrZero vehiclesEdit) = "") as Hf by (vm_compute; reflexivity).
  split; [exact Hf|]. by rewrite recordGate_open.
Qed.

Lemma sampleEngine_cat_wf : wf_catalogue (e_cat sampleEngine).
Proof.
  destruct sampleCatalogue as [c|] eqn:Ec; [|vm_compute in Ec; discriminate Ec].
  pose proof (sampleCatalogue_wf c Ec) as [Ho Hd Hp].
  assert (c_perms (e_cat sampleEngine) = c_perms c ∧ c_order (e_cat sampleEngine) = c_order c) as [Hperms Horder].
  { vm_compute in Ec. injection Ec as <-. split; vm_compute; reflexivity. }
  split; rewrite ?Hperms, ?Horder; done.
Qed.

Lemma sampleEngine_gates id perm fallback chain :
  Lookup (e_cat sampleEngine) id = Some perm → is_ok (featureOn sampleEngine perm fallback chain) = true.
Proof.
  intros Hl. assert (map_forallb (λ _ p, bool_decide (p_Feature p = "")) (c_perms (e_cat sampleEngine)) = true) as Hf
    by (vm_compute; reflexivity).
  rewrite map_forallb_spec in Hf. specialize (Hf _ _ Hl). apply bool_decide_eq_true in Hf.
  unfold featureOn. by rewrite decide_True.
Qed.
