(* ===== verification/AuthzProps.v ===== *)
(** * Properties of the authorization engine

    The theorems about checks, lists, the cache and effective access, each with an
    instance in the small application of [Sample]. *)

From S2P Require Import Prelude Apperr Catalogue Hierarchy Role Access Cache Engine Store EngineSpec CacheSafety MemStore Admin AdminSpec Sample.

Section Decisions.
Context {St : Type} `{!Reader St} (e : Engine).

Lemma RequireOn_eq w ctx permission res p perm eff :
  coherent e w → PrincipalFrom ctx = Some p → Lookup (e_cat e) permission = Some perm →
  load e (w_store w) (pr_Subject p) = Ok eff →
  (RequireOn (St:=St) e ctx permission res w).1 =
    requireOn_loop e permission p perm res None (eff_Clauses eff permission).
Proof.
  intros Hc Hp Hl Hload. unfold RequireOn.
  destruct (prepared e (λ '(p, perm, eff), lift (requireOn_loop e permission p perm res None
    (eff_Clauses eff permission))) ctx permission w p perm eff Hc Hp Hl Hload) as (w1 & _ & _ & E).
  by rewrite E.
Qed.

Lemma load_of_build st s bs eff :
  BindingsFor st s = Ok bs → build e s bs (lookupRole e st) = Ok eff → load e st s = Ok eff.
Proof. intros Hb Hbuild. unfold load. by rewrite Hb, Hbuild. Qed.
End Decisions.

(** C1. Deny by default, completely: for an authenticated principal and a known
    permission, [RequireOn] passes exactly when some binding of the principal
    yields a clause that admits the record, and in every other case it answers
    the forbidden error. *)
Theorem RequireOn_decides {St} `{!Reader St} (e : Engine) (w : World St) ctx permission res p perm bs chain :
  coherent e w →
  PrincipalFrom ctx = Some p →
  Lookup (e_cat e) permission = Some perm →
  BindingsFor (w_store w) (pr_Subject p) = Ok bs →
  is_ok (build e (pr_Subject p) bs (lookupRole e (w_store w))) = true →
  resourceChain e res = Ok chain →
  (∀ c, is_ok (recordGate e perm res chain c) = true) →
  let granted := ∃ b c, b ∈ bs ∧ yields e (lookupRole e (w_store w)) b permission c ∧
                        admits e p perm res chain c in
  ((RequireOn e ctx permission res w).1 = Ok () ∧ granted) ∨
  ((RequireOn e ctx permission res w).1 = Err (forbidden permission) ∧ ¬ granted).
Proof.
  intros Hc Hp Hl Hbs (eff & Hb)%is_ok_true Hch Hg. cbn.
  rewrite (RequireOn_eq e w ctx permission res p perm eff Hc Hp Hl (load_of_build e _ _ _ _ Hbs Hb)).
  assert ((∃ b c, b ∈ bs ∧ yields e (lookupRole e (w_store w)) b permission c ∧ admits e p perm res chain c)
          ↔ Exists (admits e p perm res chain) (eff_Clauses eff permission)) as ->.
  { rewrite list.Exists_exists. setoid_rewrite (build_spec e _ _ _ _ _ _ Hb). naive_solver. }
  apply (requireOn_loop_spec e p perm res chain Hch Hg). by left.
Qed.

Lemma RequireOn_decides_witness :
  ∃ b c, (RequireOn sampleEngine bobCtx vehiclesEdit vehicle sampleWorld).1 = Ok () ∧
    yields sampleEngine (lookupRole sampleEngine sampleStore) b vehiclesEdit c.
Proof.
  destruct (RequireOn_decides sampleEngine sampleWorld bobCtx vehiclesEdit vehicle (User 2 0)
    (permOrZero vehiclesEdit) bobBindings vehicleChain) as [[H (b & c & _ & Hy & _)]|[H _]];
    [apply sampleWorld_coherent|vm_compute; reflexivity..|intros c; apply sampleEngine_nofeature| |].
  - exists b, c. split; [exact H|exact Hy].
  - vm_compute in H. discriminate H.
Defined.

(** Nothing passes without a grant, whatever the scope resolver and the
    feature resolver answer: a check that passes has an authenticated principal
    and a binding of that principal that yields a clause of the permission,
    matching the record, at the root or at a scope the record lies within. *)
Theorem RequireOn_sound {St} `{!Reader St} (e : Engine) (w : World St) ctx permission res :
  coherent e w →
  (RequireOn e ctx permission res w).1 = Ok () →
  ∃ p perm bs b c,
    PrincipalFrom ctx = Some p ∧ sub_Valid (pr_Subject p) = true ∧
    Lookup (e_cat e) permission = Some perm ∧
    BindingsFor (w_store w) (pr_Subject p) = Ok bs ∧ b ∈ bs ∧
    yields e (lookupRole e (w_store w)) b permission c ∧
    matchRecord c p perm res = true ∧
    (IsRoot (e_h e) (b_Scope b) = true ∨
     ∃ chain, resourceChain e res = Ok chain ∧ Within chain (b_Scope b) = true).
Proof.
  intros Hc (p & perm & eff & w1 & Hp & Hl & Hload & H)%prepared_inv; [|done]. cbn in H.
  apply requireOn_loop_sound in H as (c & Hin & Hm & Hw); [|done].
  apply load_build in Hload as (bs & Hbs & Hb). apply (build_spec e _ _ _ _ _ _ Hb) in Hin as (b & Hin & Hy).
  exists p, perm, bs, b, c. repeat split; try done.
  - unfold PrincipalFrom in Hp. destruct ctx as [q|]; [|done].
    destruct (sub_Valid (pr_Subject q)) eqn:Ev; [|done]. injection Hp as <-. exact Ev.
  - apply yields_inv in Hy as (role & g & pm & _ & _ & _ & _ & _ & _ & _ & ch & _ & Heq).
    rewrite Heq in Hw. destruct Hw as [[? _]|?]; [by left|by right].
Qed.

Lemma RequireOn_sound_witness :
  ∃ p perm bs b c,
    PrincipalFrom bobCtx = Some p ∧ sub_Valid (pr_Subject p) = true ∧
    Lookup (e_cat sampleEngine) vehiclesEdit = Some perm ∧
    BindingsFor sampleStore (pr_Subject p) = Ok bs ∧ b ∈ bs ∧
    yields sampleEngine (lookupRole sampleEngine sampleStore) b vehiclesEdit c ∧
    matchRecord c p perm vehicle = true ∧
    (IsRoot (e_h sampleEngine) (b_Scope b) = true ∨
     ∃ chain, resourceChain sampleEngine vehicle = Ok chain ∧ Within chain (b_Scope b) = true).
Proof.
  apply (RequireOn_sound sampleEngine sampleWorld bobCtx vehiclesEdit vehicle);
    [apply sampleWorld_coherent|vm_compute; reflexivity].
Defined.

(** C13. The list filter and the record check agree. For any permission and a record
    that lies outside every scope, or in one whose chain the resolver knows and is the
    declared one, [RequireOn] passes exactly when some pruned clause of [Access]
    reaches the record, provided the feature of the permission, if it has one, answers
    for every check, and answers for a scope above the tenants that holds the record
    what it answers for the record. *)
Theorem Access_agrees_with_RequireOn {St} `{!Reader St} (e : Engine) (w : World St) ctx permission res perm set chain :
  wf_hierarchy (e_h e) → coherent e w →
  Lookup (e_cat e) permission = Some perm →
  (AccessTo e ctx permission w).1 = Ok set →
  lies_in e res chain →
  (∀ c, is_ok (recordGate e perm res chain c) = true) → gate_uniform e perm res chain →
  (RequireOn e ctx permission res w).1 = Ok () ↔
  existsb (reaches chain (as_Principal set) perm res) (as_Clauses set) = true.
Proof.
  intros Hh Hc Hl Ha Hin Hgate Hu.
  unfold AccessTo in Ha. apply prepared_inv in Ha as (p & perm' & eff & w1 & Hp & Hl' & Hload & H); [|done].
  rewrite Hl in Hl'. injection Hl' as <-. cbn in H.
  destruct (openClauses e perm (eff_Clauses eff permission)) as [open|] eqn:Eo; [|done].
  injection H as <-. cbn [as_Principal as_Clauses].
  rewrite (RequireOn_eq e w ctx permission res p perm eff Hc Hp Hl Hload).
  pose proof (load_build _ _ _ _ Hload) as (bs & _ & Hb). pose proof (build_wf e _ _ _ _ permission Hb) as Hw.
  rewrite list.Forall_forall in Hw. destruct (lies_in_chain e res chain Hh Hin) as [Hrc [s Hs]].
  pose proof (openClauses_exact e perm _ _ Eo) as Hopen.
  rewrite (prune_reaches _ _ Hh s _ _ _ _ _ Hs) by (apply list.Forall_forall; intros c [? _]%Hopen; by apply Hw).
  assert (Exists (admits e p perm res chain) (eff_Clauses eff permission) ↔
    existsb (reaches chain p perm res) open = true) as <-.
  { rewrite list.Exists_exists, existsb_elem. apply exist_proper. intros c. rewrite Hopen.
    apply (admits_reaches e perm p res chain c _ Hh Hin Hu (Hw c)). }
  destruct (requireOn_loop_spec e p perm res chain Hrc Hgate permission None
    (eff_Clauses eff permission) (or_introl eq_refl)) as [[-> ?]|[-> ?]]; naive_solver.
Qed.

(** The sample with a permission behind a feature, which [on] says who has. *)
Definition reportsView : string := "reports:view".

Definition gatedEngine (on : Scope → bool) : Engine :=
  mkEngine (orElse (c ← sampleCatalogue; Define c reportsView [Feature "reports"]) NewCatalogue) (e_h sampleEngine)
    (e_roles sampleEngine) (e_resolver sampleEngine) (Some (λ tenant _, Ok (on tenant))).

Definition reportsPermission : Permission :=
  default (zeroPermission "") (Lookup (e_cat (gatedEngine (λ _, true))) reportsView).

(** Dealer 1 and the organization have it: Alice, who is bound at the organization,
    sees the record of dealer 1 in her list and passes its check. *)
Lemma Access_agrees_with_RequireOn_witness :
  let e := gatedEngine (λ s, (s_ID s <=? 1)%Z) in
  ∃ set, (AccessTo e aliceCtx reportsView sampleWorld).1 = Ok set ∧
  ((RequireOn e aliceCtx reportsView vehicle sampleWorld).1 = Ok () ↔
   existsb (reaches vehicleChain (as_Principal set) reportsPermission vehicle) (as_Clauses set) = true) ∧
  existsb (reaches vehicleChain (as_Principal set) reportsPermission vehicle) (as_Clauses set) = true.
Proof.
  intros e. eexists. split; [vm_compute; reflexivity|]. split; [|vm_compute; reflexivity].
  apply (Access_agrees_with_RequireOn e sampleWorld aliceCtx reportsView vehicle);
    [apply sampleHierarchy_wf|apply sampleWorld_coherent|vm_compute; reflexivity..| | |].
  - split; vm_compute; reflexivity.
  - intros c. vm_compute. reflexivity.
  - intros _ s ch Hch Ht Hw. apply contains_spec in Hw.
    repeat (apply elem_of_cons in Hw as [->|Hw]; [vm_compute in Hch; injection Hch as <-; vm_compute in Ht;
      first [discriminate Ht|vm_compute; reflexivity]|]). apply elem_of_nil in Hw. destruct Hw.
Defined.

(** The condition is needed: when dealer 1 has the feature and the organization does
    not, Alice passes the check of the record, which asks about dealer 1, and her
    list, which asks about the organization she is bound at, is empty. *)
Lemma gates_apart :
  let e := gatedEngine (λ s, bool_decide (s = dealer1)) in
  (RequireOn e aliceCtx reportsView vehicle sampleWorld).1 = Ok () ∧
  as_Clauses <$> (AccessTo e aliceCtx reportsView sampleWorld).1 = Ok [].
Proof. split; vm_compute; reflexivity. Qed.

(** C2. A slow reader never resurrects stale access. Loads that read the store
    step by step, changes of bindings and roles, evictions and lookups may
    interleave in any order: whenever no change still awaits its eviction, every
    cached access is what a fresh load builds from the store, as long as the
    64-bit epoch has not wrapped around. *)
Theorem cache_never_stale {St} `{!Reader St} (e : Engine) st0 now ttl (y : sys (St:=St)) :
  reachable e st0 now ttl y →
  (y_evictions y < Int64.modulus)%Z →
  y_pending y = [] →
  coherent e (mkWorld (y_store y) (y_cache y)).
Proof.
  intros Hr Hlt Hp s ent Hent. apply (reachable_safe e) in Hr as [_ Hents _]; [|done].
  destruct (Hents _ _ Hent) as [(ev & Hin & _)|Hl]; [|done].
  rewrite Hp in Hin. by apply elem_of_nil in Hin.
Qed.

(** Bob's access is loaded while his binding is removed and evicted; the load then
    tries to store what it built. *)
Lemma cache_never_stale_witness :
  ∃ y : sys (St:=MemoryStore), BindingsFor (y_store y) bob = Ok [] ∧ y_pending y = [] ∧
    coherent sampleEngine (mkWorld (y_store y) (y_cache y)).
Proof.
  set (gone := (mem_Unbind alice 2 sampleStore).2).
  assert (change sampleStore gone (EvSubject bob)) as Hch.
  { assert (mem_Unbind alice 2 sampleStore = (Ok (), gone)) as Hu by (vm_compute; reflexivity).
    split; [|done]. intros s Hs.
    eapply (unbind_others sampleStore alice 2 _ gone s sampleWorld_inv); [vm_compute; reflexivity|exact Hu|exact Hs]. }
  pose proof (reach_init sampleEngine sampleStore sampleClock 0) as H.
  eapply reach_step in H; [|apply (step_begin _ _ _ _ _ _ bob)].
  eapply reach_step in H; [|apply (step_read _ _ _ _ [] bob _ [] _ bobBindings); reflexivity].
  eapply reach_step in H; [|eapply (step_round _ _ _ _ [] bob _ _ _ [] _ []); vm_compute; reflexivity].
  eapply reach_step in H; [|apply (step_change _ _ _ _ _ _ _ _ Hch)].
  eapply reach_step in H; [|apply (step_evict _ _ _ [] (EvSubject bob) [])].
  eapply reach_step in H; [|apply (step_put _ _ _ _ [] bob _ _ [])].
  eexists. split; [|split; [|apply (cache_never_stale _ _ _ _ _ H)]].
  - vm_compute. reflexivity.
  - reflexivity.
  - vm_compute. reflexivity.
  - reflexivity.
Defined.

(** An organization-only permission is held at the root or not at all: every
    clause of it in a loaded access has the root scope. *)
Theorem organization_only_at_root {St} `{!Reader St} (e : Engine) (st : St) s eff permission perm c :
  wf_hierarchy (e_h e) → wf_catalogue (e_cat e) →
  load e st s = Ok eff →
  Lookup (e_cat e) permission = Some perm → p_OrganizationOnly perm = true →
  c ∈ eff_Clauses eff permission →
  cl_Scope c = Root (e_h e).
Proof.
  intros Hh Hcat (bs & _ & Hb)%load_build Hl Ho (b & _ & Hy)%(build_spec e _ _ _ _ _ _ Hb).
  apply yields_inv in Hy as (role & g & p & _ & _ & Hp & Hid & _ & _ & Horg & ch & Hch & ->). cbn.
  destruct (wf_perm _ Hcat _ _ Hp) as [Hp' _]. assert (p = perm) as -> by congruence.
  apply (checked_root _ Hh); [|by apply Horg]. by apply ChainOf_inv in Hch as (Hck & _).
Qed.

Lemma organization_only_at_root_witness :
  ∃ c, c ∈ eff_Clauses aliceEffective booksClose ∧ cl_Scope c = Root (e_h sampleEngine).
Proof.
  destruct (eff_Clauses aliceEffective booksClose) as [|c l] eqn:E; [vm_compute in E; discriminate E|].
  assert (c ∈ eff_Clauses aliceEffective booksClose) as Hc by (rewrite E; left).
  rewrite <-E. exists c. split; [exact Hc|].
  apply (organization_only_at_root sampleEngine sampleStore alice aliceEffective booksClose (permOrZero booksClose));
    [apply sampleHierarchy_wf|apply sampleEngine_cat_wf|vm_compute; reflexivity..|exact Hc].
Defined.

(** Tenant isolation: when [Effective.Tenant] names a tenant, every clause of
    the access, of every permission, lies below that tenant. *)
Theorem Tenant_isolates {St} `{!Reader St} (e : Engine) (st : St) s eff tenant permission c :
  load e st s = Ok eff →
  eff_Tenant eff = Some tenant →
  c ∈ eff_Clauses eff permission →
  ∃ t, At (cl_Chain c) (TenantLevel (e_h e)) = Some t ∧ s_ID t = tenant.
Proof.
  intros (bs & _ & Hb)%load_build (Hr & Hu & Ht)%eff_Tenant_Some Hc.
  destruct (pinned_build e _ _ _ _ Hb Hr Hu _ _ Hc) as (t & Htt & Hin).
  exists t. rewrite Ht, elem_of_singleton in Hin. split; [|done].
  unfold tenantOf in Htt. by destruct (decide (h_tenant (e_h e) = "")).
Qed.

Lemma Tenant_isolates_witness :
  ∃ c t, c ∈ eff_Clauses bobEffective vehiclesEdit ∧ At (cl_Chain c) "dealer" = Some t ∧ s_ID t = 1%Z.
Proof.
  destruct (eff_Clauses bobEffective vehiclesEdit) as [|c l] eqn:E; [vm_compute in E; discriminate E|].
  assert (c ∈ eff_Clauses bobEffective vehiclesEdit) as Hc by (rewrite E; left).
  rewrite <-E. exists c.
  destruct (Tenant_isolates sampleEngine sampleStore bob bobEffective 1 vehiclesEdit c) as (t & Ht & Hid);
    [vm_compute; reflexivity..|exact Hc|].
  exists t. split; [exact Hc|]. split; [exact Ht|exact Hid].
Defined.

(** The /me/access payload tells the truth: when the feature resolver
    answers, [MyAccess] never panics and lists exactly the permissions that
    [Require] lets the same principal through for. *)
Theorem MyAccess_lists_Require {St} `{!Reader St} (e : Engine) (w : World St) ctx p eff :
  wf_hierarchy (e_h e) → coherent e w →
  PrincipalFrom ctx = Some p →
  load e (w_store w) (pr_Subject p) = Ok eff →
  (∀ id perm fallback chain, Lookup (e_cat e) id = Some perm → is_ok (featureOn e perm fallback chain) = true) →
  ∃ payload, (MyAccess e ctx w).1 = Ok payload ∧
    ma_Subject payload = pr_Subject p ∧
    ∀ permission perm, Lookup (e_cat e) permission = Some perm →
      is_Some (ma_Permissions payload !! permission) ↔ (Require e ctx permission w).1 = Ok ().
Proof.
  intros Hh Hc Hp Hload Hg. pose proof (load_build _ _ _ _ Hload) as (bs & _ & Hb).
  destruct (myAccess_loop_spec e Hh eff Hg (λ id, build_wf e _ _ _ _ id Hb) (eff_Permissions eff)
    (mkMyAccess (pr_Subject p) (eff_Tenants eff).2 ∅ [])) as (out & Hloop & Hs & _ & Hin).
  unfold MyAccess. rewrite Hp. unfold mbind, stM_bind.
  destruct (EffectiveOf e (pr_Subject p) w) as [r w1] eqn:Ee.
  destruct (EffectiveOf_spec e _ _ _ _ Hc Ee) as (-> & _ & _). rewrite Hload.
  unfold lift. rewrite Hloop. eexists. split; [reflexivity|]. split; [exact Hs|].
  intros permission perm Hl. cbn [ma_Permissions]. rewrite Hin. cbn [ma_Permissions]. rewrite lookup_empty, is_Some_alt.
  assert ((Require e ctx permission w).1 = require_loop e permission perm (eff_Clauses eff permission)) as ->.
  { destruct (prepared e (λ '(_, perm, eff), lift (require_loop e permission perm (eff_Clauses eff permission)))
      ctx permission w p perm eff Hc Hp Hl Hload) as (w2 & _ & _ & E).
    unfold Require. by rewrite E. }
  unfold permOf. rewrite Hl. cbn [default from_option]. unfold eff_Permissions. rewrite elem_of_sorted_keys.
  split; [naive_solver|]. intros H. right. split; [|exact H].
  unfold eff_Clauses in H. by destruct (eff_grants eff !! permission).
Qed.

Lemma MyAccess_lists_Require_witness :
  ∃ payload, (MyAccess sampleEngine bobCtx sampleWorld).1 = Ok payload ∧
    is_Some (ma_Permissions payload !! vehiclesEdit) ∧ ma_Permissions payload !! booksClose = None.
Proof.
  destruct (MyAccess_lists_Require sampleEngine sampleWorld bobCtx (User 2 0) bobEffective) as (payload & H & _ & Hin);
    [apply sampleHierarchy_wf|apply sampleWorld_coherent|vm_compute; reflexivity..|apply sampleEngine_gates|].
  exists payload. split; [exact H|]. split.
  - apply (Hin _ (permOrZero vehiclesEdit)); vm_compute; reflexivity.
  - apply eq_None_not_Some. rewrite (Hin _ (permOrZero booksClose)) by (vm_compute; reflexivity).
    vm_compute. discriminate.
Defined.

(** * Properties of the authorization data

    Catalogues, roles, chains, pruning, the constructor of the engine, and the
    listing and counting of holders. *)

(** [Catalogue.Validate] accepts a catalogue exactly when every requirement
    names a permission of it and no permission requires itself, directly or
    through others; the depth-first search always finishes. *)
Theorem Validate_iff_requirements_well_founded (c : Catalogue) :
  wf_catalogue c →
  Validate c = Ok () ↔ closed (c_perms c) ∧ acyclic (c_perms c).
Proof.
  intros Hwf. unfold Validate. rewrite asValidation_Ok, <-(unknownRequirements_nil c Hwf). split.
  - destruct (unknownRequirements c) as [|x l] eqn:Eu; [|done]. intros H. split; [done|].
    apply (requirementCycles_nil c Hwf); [|done]. by apply (unknownRequirements_nil c Hwf).
  - intros [Hu Ha]. rewrite Hu. apply (requirementCycles_nil c Hwf); [|done].
    by apply (unknownRequirements_nil c Hwf).
Qed.

Lemma Validate_iff_requirements_well_founded_witness :
  ∃ c, sampleCatalogue = Ok c ∧ closed (c_perms c) ∧ acyclic (c_perms c).
Proof.
  destruct sampleCatalogue as [c|] eqn:E; [|vm_compute in E; discriminate E].
  exists c. split; [reflexivity|].
  apply (Validate_iff_requirements_well_founded c (sampleCatalogue_wf c E)).
  vm_compute in E. injection E as <-. vm_compute. reflexivity.
Defined.

(** [Role.Validate] accepts exactly the valid roles: named, with grants that
    hold up against the catalogue, each permission once, every requirement granted
    at least as widely, and attribute constraints that are declared and not empty. *)
Theorem Role_Validate_iff_valid (cat : Catalogue) (r : Role) :
  ValidateRole r cat = Ok () ↔ valid_role cat r.
Proof. apply ValidateRole_spec. Qed.

(** Climbing always ends, at the root: whatever the resolver answers, the
    loop of [Hierarchy.Chain] finishes within one round per level, and a chain it
    returns starts at the scope, ends at the root and has one well-formed scope
    per level, from the scope's level up. *)
Theorem Chain_climbs_to_root (Parent : Scope → result Scope) (h : Hierarchy) (s : Scope) (known : list Scope) :
  wf_hierarchy h →
  (CheckScope h s = Ok () → checkKnown h known = Ok () →
     is_Some (chain_loop Parent h known (length (h_levels h)) [s] s false)) ∧
  ∀ c, ChainOf Parent h s known = Ok c →
    ∃ d, h_depth h !! s_Level s = Some d ∧ Chain_Scope c = s ∧ list.last c = Some (Root h) ∧
      s_Level <$> c = reverse (take (S d) (h_levels h)) ∧ Forall (λ x, CheckScope h x = Ok ()) c.
Proof.
  intros Hwf. split; [|intros c Hc].
  { intros Hs Hk. apply Chain_fuel_enough; [exact Hwf| |exact Hs]. by apply checkKnown_Ok in Hk. }
  pose proof (ChainOf_last _ _ Hwf _ _ _ Hc) as Hlast.
  destruct (ChainOf_spec _ _ Hwf _ _ _ Hc) as (d & rest & Hd & -> & Hlev & Hck).
  exists d. done.
Qed.

Lemma Chain_climbs_to_root_witness :
  ∃ c, ChainOf sampleParent (e_h sampleEngine) (mkScope "location" 12) [] = Ok c ∧
       s_Level <$> c = ["location"; "dealer"; "organization"].
Proof.
  destruct (ChainOf sampleParent (e_h sampleEngine) (mkScope "location" 12) []) as [c|] eqn:E;
    [|vm_compute in E; discriminate E].
  exists c. split; [reflexivity|].
  destruct (Chain_climbs_to_root sampleParent (e_h sampleEngine) (mkScope "location" 12) [] sampleHierarchy_wf)
    as [_ H].
  destruct (H c E) as (d & Hd & _ & _ & Hl & _). vm_compute in Hd. injection Hd as <-.
  rewrite Hl. vm_compute. reflexivity.
Defined.

(** Pruning changes no decision: for clauses built by the engine, the same
    records are reached before and after [prune], and what remains is part of
    what was there. *)
Theorem prune_keeps_the_union (Parent : Scope → result Scope) (h : Hierarchy) clauses s chain p perm res :
  wf_hierarchy h → Forall (wf_clause Parent h) clauses → ChainOf Parent h s [] = Ok chain →
  existsb (reaches chain p perm res) (prune clauses) = existsb (reaches chain p perm res) clauses ∧
  (∀ c, c ∈ prune clauses → c ∈ clauses) ∧ (prune clauses = [] → clauses = []).
Proof.
  intros Hh Hw Hs. split; [by eapply prune_reaches|]. split; [intros c; apply elem_of_prune|].
  by eapply prune_nil.
Qed.

(** A grant at the dealer and the wider one at the organization. *)
Definition twoClauses : list Clause :=
  [ mkClause dealer1 [dealer1; organization] QualifierOwn ∅ (mkSource 2 (mkRoleRef 1 "") "Seller");
    mkClause organization [organization] QualifierAll ∅ (mkSource 1 (mkRoleRef 0 "admin") "Administrator") ].

Lemma prune_keeps_the_union_witness :
  length (prune twoClauses) = 1 ∧
  existsb (reaches vehicleChain (User 2 0) (permOrZero vehiclesEdit) vehicle) (prune twoClauses) =
  existsb (reaches vehicleChain (User 2 0) (permOrZero vehiclesEdit) vehicle) twoClauses.
Proof.
  split; [vm_compute; reflexivity|].
  apply (prune_keeps_the_union sampleParent (e_h sampleEngine) twoClauses (res_Scope vehicle));
    [apply sampleHierarchy_wf|repeat constructor; vm_compute; reflexivity|vm_compute; reflexivity].
Defined.

(** What [NewEngine] guarantees: the catalogue's requirements are
    well-founded, every predefined role is valid and found under its key, and a
    feature gate is never asked of a missing resolver. *)
Theorem NewEngine_establishes (clock : nat → Z) (cfg : Config) (e : Engine) (c : Cache) cat :
  NewEngine clock cfg = Ok (e, c) → cfg_Catalogue cfg = Some cat → wf_catalogue cat →
  wf_catalogue (e_cat e) ∧ c_frozen (e_cat e) = true ∧
  closed (c_perms (e_cat e)) ∧ acyclic (c_perms (e_cat e)) ∧
  (∀ key role, PredefinedRole e key = Some role → r_Key role = key ∧ r_ID role = 0%Z ∧ valid_role (e_cat e) role) ∧
  (∀ role, role ∈ cfg_Roles cfg → PredefinedRole e (r_Key role) = Some role) ∧
  (∀ id perm fallback chain, Lookup (e_cat e) id = Some perm → featureOn e perm fallback chain = Err nilPanic →
     ∃ Enabled, e_features e = Some Enabled ∧ Enabled (default fallback (tenantOf (e_h e) chain)) (p_Feature perm) = Err nilPanic).
Proof.
  intros (cat' & Hcat' & _ & Hcat & Hval & Hroles & _ & Hfeat)%NewEngine_inv Hcfg Hwf.
  assert (cat' = cat) as -> by congruence.
  assert (wf_catalogue (e_cat e)) as Hwf' by (rewrite Hcat; destruct Hwf; by split).
  destruct (addRoles_spec _ _ _ _ Hroles) as (Hvalid & _ & Hall); [intros k r; by rewrite lookup_empty|].
  assert (Validate (e_cat e) = Ok ()) as Hval' by (rewrite Hcat; exact Hval).
  unfold Validate in Hval'. rewrite asValidation_Ok in Hval'.
  destruct (unknownRequirements (e_cat e)) as [|x l] eqn:Eu; [|done].
  apply (unknownRequirements_nil _ Hwf') in Eu.
  split; [done|]. split; [by rewrite Hcat|]. split; [done|]. split; [by apply requirementCycles_nil|]. split; [|split].
  - intros key role Hk. destruct (Hvalid _ _ Hk) as (? & _ & ? & ?). done.
  - intros role Hr. rewrite list.Forall_forall in Hall. by apply Hall.
  - intros id perm fb ch Hl. unfold featureOn. destruct (decide (p_Feature perm = "")) as [|Hne]; [done|].
    destruct (e_features e) as [En|]; [eauto|]. exfalso. destruct Hfeat as [? ?]; [|done].
    unfold HasFeatures. apply existsb_elem. exists (id, perm). rewrite bool_decide_eq_true_2 by done.
    split; [|done]. apply elem_of_map_to_list. rewrite Hcat in Hl. exact Hl.
Qed.

Lemma NewEngine_establishes_witness :
  ∃ e, (cfg ← sampleConfig; NewEngine sampleClock cfg) = Ok (e, NewCache sampleClock DefaultCacheTTL) ∧
       PredefinedRole e "admin" = Some adminRole ∧ acyclic (c_perms (e_cat e)).
Proof.
  destruct sampleConfig as [cfg|] eqn:Ec; [|vm_compute in Ec; discriminate Ec]. cbn [mbind outcome_bind].
  assert (cfg_Roles cfg = [adminRole] ∧ sampleCatalogue = Ok (default NewCatalogue (cfg_Catalogue cfg)) ∧
    cfg_Catalogue cfg = Some (default NewCatalogue (cfg_Catalogue cfg)) ∧
    ∃ e, NewEngine sampleClock cfg = Ok (e, NewCache sampleClock DefaultCacheTTL)) as (Hr & Hs & Hcat & e & He).
  { vm_compute in Ec. injection Ec as <-. split; [reflexivity|]. split; [vm_compute; reflexivity|].
    split; [reflexivity|]. eexists. vm_compute. reflexivity. }
  exists e. split; [exact He|].
  destruct (NewEngine_establishes sampleClock cfg e _ _ He Hcat (sampleCatalogue_wf _ Hs))
    as (_ & _ & _ & Hac & _ & Hroles & _).
  split; [|exact Hac]. apply (Hroles adminRole). rewrite Hr. left.
Defined.

(** ** Holders *)

Lemma elem_of_PredefinedRoles e role : role ∈ PredefinedRoles e ↔ ∃ key, PredefinedRole e key = Some role.
Proof.
  unfold PredefinedRoles, PredefinedRole. rewrite list_elem_of_omap. split; [naive_solver|].
  intros [k Hk]. exists k. split; [|done]. apply elem_of_sorted_keys. by eexists.
Qed.

Lemma mem_ListRoles_spec m custom role :
  mem_ListRoles m = Ok custom → role ∈ custom ↔ ∃ id, m_roles m !! id = Some role.
Proof.
  intros [= <-]. rewrite stable_sort_perm, list_elem_of_fmap. setoid_rewrite copyRole_id.
  setoid_rewrite list_elem_of_fmap. split.
  - intros (r & -> & [id x] & -> & Hx%elem_of_map_to_list). eauto.
  - intros [id Hid]. exists role. split; [done|]. exists (id, role). split; [done|]. by apply elem_of_map_to_list.
Qed.

Lemma mem_holders_total e m permission roles :
  ∃ bs, holders_loop (St:=MemoryStore) e m permission roles = Ok bs.
Proof.
  induction roles as [|r roles [bs IH]]; cbn [holders_loop]; [eauto|].
  destruct (negb (grants r (e_cat e) permission)); [eauto|].
  change (StoreHoldersOf m (Ref r)) with (mem_HoldersOf m (Ref r)).
  unfold mem_HoldersOf. destruct (negb (ref_Valid (Ref r))); rewrite IH; cbn; eauto.
Qed.

(** [HoldersOf] over the in-memory store answers for every known permission,
    names each subject once, and names exactly the subjects with a binding to a
    predefined or stored role that grants the permission. *)
Theorem HoldersOf_exact (e : Engine) (m : MemoryStore) (typeName permission : string) (perm : Permission) :
  Lookup (e_cat e) permission = Some perm →
  ∃ out, HoldersOf e (Some MemoryStore_HolderReader) typeName m permission = Ok out ∧ NoDup out ∧
    ∀ s, s ∈ out ↔
      ∃ b role, b_Subject b = s ∧ (∃ id, m_bindings m !! id = Some b) ∧
        b_Role b = Ref role ∧ ref_Valid (Ref role) = true ∧
        ((∃ key, PredefinedRole e key = Some role) ∨ (∃ id, m_roles m !! id = Some role)) ∧
        ∃ g, g ∈ Resolve role (e_cat e) ∧ g_Permission g = permission.
Proof.
  intros Hl. unfold HoldersOf. rewrite Hl.
  destruct (mem_ListRoles m) as [custom|] eqn:Ec; [|done].
  change (StoreListRoles m) with (mem_ListRoles m). rewrite Ec.
  destruct (mem_holders_total e m permission (PredefinedRoles e ++ custom)) as [bs Hbs]. rewrite Hbs.
  eexists. split; [reflexivity|]. destruct (firstSubjects_spec (stable_sort bindingID_leb bs)) as [Hn Hin].
  split; [exact Hn|]. intros s. rewrite Hin. setoid_rewrite stable_sort_perm.
  setoid_rewrite (holders_loop_spec e m _ _ _ Hbs). setoid_rewrite grants_spec.
  setoid_rewrite elem_of_app. setoid_rewrite elem_of_PredefinedRoles.
  setoid_rewrite (λ r, mem_ListRoles_spec m custom r Ec). cbn [StoreHoldersOf MemoryStore_HolderReader].
  unfold mem_HoldersOf. split.
  - intros (b & (role & held & Hrole & Hg & Hheld & Hb) & Hs). exists b, role.
    destruct (ref_Valid (Ref role)) eqn:Ev; cbn in Hheld; injection Hheld as <-; [|by apply elem_of_nil in Hb].
    apply elem_of_filterBindings in Hb as [Hr%bool_decide_eq_true Hb]. done.
  - intros (b & role & Hs & Hb & Hr & Ev & Hrole & Hg). exists b. split; [|exact Hs].
    exists role, (filterBindings m (λ x, bool_decide (b_Role x = Ref role))). rewrite Ev. cbn.
    do 3 (split; [done|]). apply elem_of_filterBindings. rewrite bool_decide_eq_true. done.
Qed.

Lemma HoldersOf_exact_witness :
  ∃ out, HoldersOf sampleEngine (Some MemoryStore_HolderReader) "*authztest.MemoryStore" sampleStore vehiclesEdit = Ok out
    ∧ NoDup out.
Proof.
  destruct (HoldersOf_exact sampleEngine sampleStore "*authztest.MemoryStore" vehiclesEdit (permOrZero vehiclesEdit))
    as (out & Ho & Hn & _); [vm_compute; reflexivity|].
  exists out. split; [exact Ho|exact Hn].
Defined.

(** [HolderCounts] counts subjects, not bindings: for valid references the
    count of a role is the number of distinct subjects bound to it, however many
    scopes each is bound at and in whatever order the map is visited. *)
Theorem HolderCounts_counts_subjects (m : MemoryStore) (c : HolderCounts) (ref : RoleRef) :
  Forall (λ b, good_ref (b_Role b)) (binding_values m) → good_ref ref →
  mem_HolderCounts m = Ok c →
  Of c ref = Z.of_nat (size (holders (binding_values m) ref)).
Proof. apply HolderCounts_spec. Qed.

Lemma HolderCounts_counts_subjects_witness :
  ∃ c, mem_HolderCounts sampleStore = Ok c ∧
       Of c (mkRoleRef 1 "") = Z.of_nat (size (holders (binding_values sampleStore) (mkRoleRef 1 ""))).
Proof.
  eexists. split; [reflexivity|].
  apply (HolderCounts_counts_subjects sampleStore); [|vm_compute; split; [reflexivity|discriminate]|reflexivity].
  vm_compute. repeat constructor; discriminate.
Defined.
