(* ===== verification/AdminProps.v ===== *)
(** * Properties of role and binding administration

    No escalation, no self-assignment, no lock-out, and a cache that stays
    coherent, each with an instance in the application of [Sample]. *)

From S2P Require Import Prelude Apperr Catalogue Hierarchy Role Access Cache Engine Store EngineSpec MemStore Admin AdminSpec Sample.

(** C7. No escalation through a custom role: whatever any binding of the saved
    role yields, the author holds, before saving, through one clause of the same
    permission whose qualifier and attributes match every record the new clause
    matches, for every principal. *)
Theorem SaveRole_no_escalation {St} `{!Store St} `{!StoreLaws St} (a : Admin) (w w' : World St) ctx role saved p eff b id c :
  wf_catalogue (e_cat (a_e a)) → coherent (a_e a) w → store_inv (w_store w) →
  SaveRole a ctx role w = (Ok saved, w') →
  PrincipalFrom ctx = Some p → load (a_e a) (w_store w) (pr_Subject p) = Ok eff →
  lookupRole (a_e a) (w_store w') (b_Role b) = Ok saved →
  yields (a_e a) (lookupRole (a_e a) (w_store w')) b id c →
  ∃ own, own ∈ eff_Clauses eff id ∧
    ∀ q perm res, matchRecord c q perm res = true → matchRecord own q perm res = true.
Proof.
  intros Hwf Hc Hi Hs Hp Hl Hlook Hy.
  destruct (saved_role_held a _ _ _ _ _ _ _ Hwf Hc Hi Hs Hp Hl b id c Hlook Hy) as (own & Hin & Hq & Ha).
  exists own. split; [done|]. intros q perm res. unfold matchRecord. rewrite !andb_true_iff. intros [Hmq Hma].
  split; [by eapply Covers_match|by eapply attrsCover_match].
Qed.

(** The clause a seller of role 2 holds at dealer 1 after Alice saved it. *)
Lemma SaveRole_no_escalation_witness :
  ∃ saved w' c own,
    SaveRole sampleAdmin aliceCtx sellerRole sampleWorld = (Ok saved, w') ∧
    yields sampleEngine (lookupRole sampleEngine (w_store w')) (bindingOf carol (mkRoleRef 2 "") dealer1) vehiclesEdit c ∧
    own ∈ eff_Clauses aliceEffective vehiclesEdit ∧
    ∀ q perm res, matchRecord c q perm res = true → matchRecord own q perm res = true.
Proof.
  destruct (SaveRole sampleAdmin aliceCtx sellerRole sampleWorld) as [r w'] eqn:E.
  assert (∃ saved, r = Ok saved ∧ lookupRole sampleEngine (w_store w') (mkRoleRef 2 "") = Ok saved ∧
    ∃ c, yields sampleEngine (lookupRole sampleEngine (w_store w')) (bindingOf carol (mkRoleRef 2 "") dealer1) vehiclesEdit c)
    as (saved & -> & Hlook & c & Hy).
  { vm_compute in E. injection E as <- <-. eexists. split; [reflexivity|]. split; [vm_compute; reflexivity|].
    eexists. do 2 eexists. exists (mkGrant vehiclesEdit QualifierOwn).
    split; [vm_compute; reflexivity|]. split; [vm_compute; reflexivity|]. split; [vm_compute; reflexivity|].
    split; [|vm_compute; reflexivity]. right. left. }
  destruct (SaveRole_no_escalation sampleAdmin sampleWorld w' aliceCtx sellerRole saved (User 1 0) aliceEffective
    (bindingOf carol (mkRoleRef 2 "") dealer1) vehiclesEdit c) as (own & Hin & Hm);
    [apply sampleEngine_cat_wf|apply sampleWorld_coherent|apply sampleWorld_inv|exact E|vm_compute; reflexivity..
    |exact Hlook|exact Hy|].
  exists saved, w', c, own. split; [reflexivity|]. split; [exact Hy|]. split; [exact Hin|exact Hm].
Defined.

(** C8. Assigning a role stays within the actor's reach: a successful [Bind] is
    never to oneself; the actor holds the managing permission at a scope around
    the target; a system permission of the role is one the actor holds around the
    target; an organization-only one is bound at the root by someone who manages
    bindings at the root. *)
Theorem Bind_within_authority {St} `{!Store St} (a : Admin) (w w' : World St) ctx b saved :
  coherent (a_e a) w → Bind a ctx b w = (Ok saved, w') →
  ∃ p role chain eff,
    PrincipalFrom ctx = Some p ∧ b_Subject b ≠ pr_Subject p ∧
    lookupRole (a_e a) (w_store w) (b_Role b) = Ok role ∧
    ChainOf (e_resolver (a_e a)) (e_h (a_e a)) (b_Scope b) [] = Ok chain ∧
    load (a_e a) (w_store w) (pr_Subject p) = Ok eff ∧
    (∃ c, c ∈ eff_Clauses eff (a_bindings a) ∧ Within chain (cl_Scope c) = true) ∧
    ∀ g perm, g ∈ Resolve role (e_cat (a_e a)) → Lookup (e_cat (a_e a)) (g_Permission g) = Some perm →
      (p_System perm = true →
         ∃ c, c ∈ eff_Clauses eff (p_ID perm) ∧ Within chain (cl_Scope c) = true) ∧
      (p_OrganizationOnly perm = true →
         IsRoot (e_h (a_e a)) (b_Scope b) = true ∧
         ∃ c, c ∈ eff_Clauses eff (a_bindings a) ∧ IsRoot (e_h (a_e a)) (cl_Scope c) = true).
Proof.
  intros Hc (p & role & w1 & Hp & Hne & _ & Hl & Hs1 & Hc1 & (w2 & Hcan) & _)%Bind_Ok_inv; [|done].
  apply CanBind_Ok in Hcan as (chain & eff & Hch & Hload & Hmb & Hall); [|done]. rewrite Hs1 in Hload.
  exists p, role, chain, eff. do 5 (split; [done|]). split; [by apply holdsWithin_spec|].
  intros g perm Hg Hperm. destruct (Hall g perm Hg Hperm) as [Hsys Horg]. split.
  - intros H. by apply holdsWithin_spec, Hsys.
  - intros H. destruct (Horg H) as [? Hr]. split; [done|]. by apply holdsWithin_spec.
Qed.

Lemma Bind_within_authority_witness :
  ∃ p role chain eff,
    PrincipalFrom aliceCtx = Some p ∧ carol ≠ pr_Subject p ∧
    lookupRole sampleEngine sampleStore (mkRoleRef 1 "") = Ok role ∧
    ChainOf sampleParent (e_h sampleEngine) dealer1 [] = Ok chain ∧
    load sampleEngine sampleStore (pr_Subject p) = Ok eff ∧
    ∃ c, c ∈ eff_Clauses eff bindingsManage ∧ Within chain (cl_Scope c) = true.
Proof.
  destruct (Bind sampleAdmin aliceCtx (bindingOf carol (mkRoleRef 1 "") dealer1) sampleWorld) as [r w'] eqn:E.
  destruct r as [saved|]; [|vm_compute in E; discriminate E].
  destruct (Bind_within_authority sampleAdmin sampleWorld w' aliceCtx
    (bindingOf carol (mkRoleRef 1 "") dealer1) saved)
    as (p & role & chain & eff & H1 & H2 & H3 & H4 & H5 & H6 & _); [apply sampleWorld_coherent|exact E|].
  exists p, role, chain, eff. repeat (split; [assumption|]). exact H6.
Defined.

(** A binding changes what it says and nothing else: after a successful
    [Bind] the target's clauses are the old ones and those the new binding
    yields, and every other subject's access is unchanged. *)
Theorem Bind_effect {St} `{!Store St} `{!StoreLaws St} (a : Admin) (w w' : World St) ctx b saved :
  coherent (a_e a) w → store_inv (w_store w) → Bind a ctx b w = (Ok saved, w') →
  (∀ s, s ≠ b_Subject b → load (a_e a) (w_store w') s = load (a_e a) (w_store w) s) ∧
  (∀ before after, load (a_e a) (w_store w) (b_Subject b) = Ok before →
     load (a_e a) (w_store w') (b_Subject b) = Ok after →
     ∀ id c, c ∈ eff_Clauses after id ↔
       c ∈ eff_Clauses before id ∨ yields (a_e a) (lookupRole (a_e a) (w_store w)) saved id c).
Proof.
  intros Hc Hi (p & role & w1 & _ & _ & _ & _ & _ & _ & _ & Hb)%Bind_Ok_inv; [|done].
  destruct (law_bind _ _ _ _ _ Hi Hb) as (_ & _ & _ & _ & Hbs & Hothers & Hr). split.
  - intros s Hs. apply load_same; [by apply Hothers|done].
  - intros before after (bs & E1 & B1)%load_build (bs' & E2 & B2)%load_build id c.
    rewrite (Hbs _ E1) in E2. injection E2 as <-.
    rewrite (build_ext _ _ (lookupRole (a_e a) (w_store w))) in B2
      by (intros x _ Hv; apply lookupRole_ext; [done|intros _; apply Hr]).
    rewrite (build_spec _ _ _ _ _ _ _ B1), (build_spec _ _ _ _ _ _ _ B2).
    setoid_rewrite elem_of_app. setoid_rewrite list_elem_of_singleton. naive_solver.
Qed.

Lemma Bind_effect_witness :
  ∃ saved w', Bind sampleAdmin aliceCtx (bindingOf carol (mkRoleRef 1 "") dealer1) sampleWorld = (Ok saved, w') ∧
    load sampleEngine (w_store w') bob = load sampleEngine sampleStore bob.
Proof.
  destruct (Bind sampleAdmin aliceCtx (bindingOf carol (mkRoleRef 1 "") dealer1) sampleWorld) as [r w'] eqn:E.
  destruct r as [saved|]; [|vm_compute in E; discriminate E].
  exists saved, w'. split; [reflexivity|].
  destruct (Bind_effect sampleAdmin sampleWorld w' aliceCtx (bindingOf carol (mkRoleRef 1 "") dealer1) saved)
    as [Hothers _]; [apply sampleWorld_coherent|apply sampleWorld_inv|exact E|].
  apply (Hothers bob). vm_compute. discriminate.
Defined.

(** Nobody locks themselves out by removing a binding: after a successful
    [Unbind] the actor still holds every protected permission held before. *)
Theorem Unbind_no_lockout {St} `{!Store St} `{!StoreLaws St} (a : Admin) (w w' : World St) ctx id p perm before :
  coherent (a_e a) w → store_inv (w_store w) →
  Unbind a ctx id w = (Ok (), w') → PrincipalFrom ctx = Some p → perm ∈ a_protected a →
  load (a_e a) (w_store w) (pr_Subject p) = Ok before → eff_Clauses before perm ≠ [] →
  ∃ after, load (a_e a) (w_store w') (pr_Subject p) = Ok after ∧ eff_Clauses after perm ≠ [].
Proof. apply Unbind_keeps. Qed.

Lemma Unbind_no_lockout_witness :
  ∃ w' after, Unbind sampleAdmin aliceCtx 2 sampleWorld = (Ok (), w') ∧
    load sampleEngine (w_store w') alice = Ok after ∧ eff_Clauses after rolesManage ≠ [].
Proof.
  destruct (Unbind sampleAdmin aliceCtx 2 sampleWorld) as [r w'] eqn:E.
  destruct r as [[]|]; [|vm_compute in E; discriminate E].
  destruct (Unbind_no_lockout sampleAdmin sampleWorld w' aliceCtx 2 (User 1 0) rolesManage aliceEffective)
    as (after & H1 & H2);
    [apply sampleWorld_coherent|apply sampleWorld_inv|exact E|reflexivity|left|vm_compute; reflexivity
    |vm_compute; discriminate|].
  exists w', after. split; [reflexivity|]. split; [exact H1|exact H2].
Defined.

(** Nor by editing a role: after a successful [SaveRole] of an existing role
    the actor still holds every protected permission held before. *)
Theorem SaveRole_no_lockout {St} `{!Store St} `{!StoreLaws St} (a : Admin) (w w' : World St) ctx role saved p perm before :
  coherent (a_e a) w → store_inv (w_store w) →
  SaveRole a ctx role w = (Ok saved, w') → PrincipalFrom ctx = Some p → (0 < r_ID role)%Z →
  perm ∈ a_protected a →
  load (a_e a) (w_store w) (pr_Subject p) = Ok before → eff_Clauses before perm ≠ [] →
  ∃ after, load (a_e a) (w_store w') (pr_Subject p) = Ok after ∧ eff_Clauses after perm ≠ [].
Proof. apply SaveRole_keeps. Qed.

(** Alice narrows the seller's role to viewing. *)
Definition viewerRole : Role := mkRole 1 "" "Seller" "" [mkGrant vehiclesView QualifierAll] ∅ None.

Lemma SaveRole_no_lockout_witness :
  ∃ saved w' after, SaveRole sampleAdmin aliceCtx viewerRole sampleWorld = (Ok saved, w') ∧
    load sampleEngine (w_store w') alice = Ok after ∧ eff_Clauses after rolesManage ≠ [].
Proof.
  destruct (SaveRole sampleAdmin aliceCtx viewerRole sampleWorld) as [r w'] eqn:E.
  destruct r as [saved|]; [|vm_compute in E; discriminate E].
  destruct (SaveRole_no_lockout sampleAdmin sampleWorld w' aliceCtx viewerRole saved (User 1 0) rolesManage
    aliceEffective) as (after & H1 & H2);
    [apply sampleWorld_coherent|apply sampleWorld_inv|exact E|reflexivity|reflexivity|left|vm_compute; reflexivity
    |vm_compute; discriminate|].
  exists saved, w', after. split; [reflexivity|]. split; [exact H1|exact H2].
Defined.

(** The four operations. *)
Inductive operation : Type :=
| OpSaveRole (role : Role) | OpDeleteRole (id : Z) | OpBind (b : Binding) | OpUnbind (id : Z).

Definition run {St} `{!Store St} (a : Admin) (ctx : context) (op : operation) (w : World St) : World St :=
  match op with
  | OpSaveRole role => (SaveRole a ctx role w).2
  | OpDeleteRole id => (DeleteRole a ctx id w).2
  | OpBind b => (Bind a ctx b w).2
  | OpUnbind id => (Unbind a ctx id w).2
  end.

(** A change applies on the next request: whatever sequence of operations
    administrators run, successful or refused, the cache never holds access that
    differs from what the store now says, and the store keeps its invariant. *)
Theorem administration_keeps_cache_coherent {St} `{!Store St} `{!StoreLaws St} (a : Admin)
    (ops : list (context * operation)) (w : World St) :
  coherent (a_e a) w → store_inv (w_store w) →
  let w' := foldl (λ w o, run a o.1 o.2 w) w ops in
  coherent (a_e a) w' ∧ store_inv (w_store w').
Proof.
  cbn. revert w. induction ops as [|[ctx op] ops IH]; intros w Hc Hi; cbn [foldl]; [done|].
  assert (store_inv (w_store (run a ctx op w)) ∧ coherent (a_e a) (run a ctx op w)) as [Hi' Hc'].
  { destruct op; cbn.
    - destruct (SaveRole a ctx role w) eqn:E. by eapply safe_SaveRole in E.
    - destruct (DeleteRole a ctx id w) eqn:E. by eapply safe_DeleteRole in E.
    - destruct (Bind a ctx b w) eqn:E. by eapply safe_Bind in E.
    - destruct (Unbind a ctx id w) eqn:E. by eapply safe_Unbind in E. }
  by apply IH.
Qed.

Definition sampleOps : list (context * operation) :=
  [ (aliceCtx, OpBind (bindingOf carol (mkRoleRef 1 "") dealer1)); (bobCtx, OpUnbind 1);
    (aliceCtx, OpSaveRole viewerRole); (aliceCtx, OpUnbind 2); (aliceCtx, OpDeleteRole 1) ].

Lemma administration_keeps_cache_coherent_witness :
  coherent (a_e sampleAdmin) (foldl (λ w o, run sampleAdmin o.1 o.2 w) sampleWorld sampleOps).
Proof.
  refine (proj1 (administration_keeps_cache_coherent sampleAdmin sampleOps sampleWorld _ _)).
  - apply sampleWorld_coherent.
  - apply sampleWorld_inv.
Defined.
