(* ===== verification/AccessAdmin.v ===== *)
(** * The screens of access (src/access/admin)

    Roles and bindings as the administration shows and changes them, over the
    engine, the delegation rules of [Admin] and the store. The directory of
    subjects, the catalogue of places, the transactor and the three checks are the
    application's: fields of [Config]. A transaction that fails puts the store back
    and leaves the cache as it is. *)

From S2P Require Import Prelude Apperr Catalogue Hierarchy Role Access Cache Engine Store Admin.

#[export] Instance Scope_countable : Countable Scope.
Proof. apply (inj_countable' (λ s, (s_Level s, s_ID s)) (λ p, mkScope p.1 p.2)). by intros []. Defined.

(** ** Ports (src/access/admin/ports.go) *)

(** The holder query [Store] adds to the store and its holders. *)
Class HolderStore (St : Type) : Type := { StoreHolderCounts : St → result HolderCounts }.

Record ScopeOption : Type := mkScopeOption { so_Scope : Scope; so_Name : string; so_Parent : Scope }.

Record ScopeCatalog : Type := mkScopeCatalog {
  sc_Parent : Scope → result Scope;
  sc_Names : list Scope → result (gmap Scope string);
  sc_Options : result (list ScopeOption)
}.

Definition NoScopes : ScopeCatalog := mkScopeCatalog (λ _, Err (errNew ErrInvalidScope)) (λ _, Ok ∅) (Ok []).

(** [SubjectDirectory] *)
Definition SubjectDirectory : Type := list Subject → result (gmap Subject string).

(** [Transactor]: whether the next transaction begins and whether it commits. *)
Record Transactor : Type := mkTransactor { tx_begin : option error; tx_commit : option error }.

Definition RoleCheck : Type := context → Role → list Problem.
Definition BindingCheck : Type := context → Subject → Binding → option error.
Definition SubjectReach : Type := context → Subject → result bool.

Definition ViewRoles : string := "iam.role:view".
Definition ManageRoles : string := "iam.role:manage".
Definition DeleteRoles : string := "iam.role:delete".
Definition ViewAccess : string := "iam.user:view".
Definition ManageBindings : string := "iam.user:manage".
Definition ViewServiceAccountAccess : string := "iam.serviceaccount:view".
Definition ManageServiceAccountBindings : string := "iam.serviceaccount:manage".

Definition PermissionIDs : list string := [ViewRoles; ManageRoles; DeleteRoles; ViewAccess; ManageBindings].

(** ** The services (src/access/admin/admin.go) *)

(** [Config]; [None] and [false] are nil. *)
Record Setup : Type := mkSetup {
  su_Engine : option Engine;
  su_hasStore : bool;
  su_Scopes : option ScopeCatalog;
  su_Subjects : option SubjectDirectory;
  su_Transactor : option Transactor;
  su_RoleCheck : option RoleCheck;
  su_BindingCheck : option BindingCheck;
  su_Reach : option SubjectReach
}.

(** [base], with the hooks of the configuration filled in. *)
Record base : Type := mkBase {
  b_Engine : Engine;
  b_Scopes : ScopeCatalog;
  b_Subjects : SubjectDirectory;
  b_Transactor : Transactor;
  b_RoleCheck : RoleCheck;
  b_BindingCheck : BindingCheck;
  b_Reach : SubjectReach;
  b_delegation : Admin;
  b_serviceDelegation : option Admin
}.

(** [fmt.Errorf("...: %w", err)] *)
Definition prefixed (what : string) (err : error) : error := errorf (what +:+ ": " +:+ error_text err) [err].

Fixpoint checkPermissionIDs (e : Engine) (ids : list string) : result () :=
  match ids with
  | [] => Ok ()
  | id :: rest =>
      match Lookup (e_cat e) id with
      | None => Err (errNew ("access: permission " +:+ Str.fmt_q id +:+
                  " is not in the catalogue: define it in the catalogue, or let access.Install define it"))
      | Some _ => checkPermissionIDs e rest
      end
  end.

Definition mapError {A} (f : error → error) (o : result A) : result A :=
  match o with Ok a => Ok a | Err err => Err (f err) end.

(** [New]: both services share the base. *)
Definition New (cfg : Setup) : result base :=
  match su_Engine cfg with
  | None => Err (errNew "access: the engine is required: build it with authz.NewEngine, or use access.Install")
  | Some e =>
  if negb (su_hasStore cfg) then Err (errNew "access: a store is required: use gormstore.New(db), which also answers holder queries") else
  match su_Scopes cfg with
  | None => Err (errNew "access: a ScopeCatalog is required: pass admin.NoScopes() for an application without tenancy")
  | Some scopes =>
  match su_Subjects cfg with
  | None => Err (errNew "access: a SubjectDirectory is required: it names the people and service accounts that hold roles")
  | Some subjects =>
  match su_Transactor cfg with
  | None => Err (errNew "access: a Transactor is required: database.NewTransactor(db)")
  | Some tx =>
      _ ← checkPermissionIDs e PermissionIDs;
      delegation ← mapError (prefixed "access") (NewAdmin (Some e) true ManageRoles ManageBindings [ManageBindings]);
      service ← (match Lookup (e_cat e) ManageServiceAccountBindings with
                 | None => Ok None
                 | Some _ => a ← mapError (prefixed "access") (NewAdmin (Some e) true ManageRoles ManageServiceAccountBindings []); Ok (Some a)
                 end);
      Ok (mkBase e scopes subjects tx
            (default (λ _ _, []) (su_RoleCheck cfg)) (default (λ _ _ _, None) (su_BindingCheck cfg))
            (default (λ _ _, Ok true) (su_Reach cfg)) delegation service)
  end end end end.

Record gate : Type := mkGate { gt_view : string; gt_manage : string; gt_delegation : Admin }.

Definition subjectNotFound : error := NotFound "subject not found".

Definition gateOf (b : base) (kind : Kind) : result gate :=
  if bool_decide (kind = KindUser) then Ok (mkGate ViewAccess ManageBindings (b_delegation b))
  else match b_serviceDelegation b with
  | Some a =>
      if bool_decide (kind = KindServiceAccount)
      then Ok (mkGate ViewServiceAccountAccess ManageServiceAccountBindings a) else Err subjectNotFound
  | None => Err subjectNotFound
  end.

(** ** Views (src/access/admin/views.go) *)

Record RoleView : Type := mkRoleView {
  rv_Ref : string;
  rv_ID : Z;
  rv_Key : string;
  rv_Name : string;
  rv_Description : string;
  rv_Predefined : bool;
  rv_Computed : bool;
  rv_Attrs : gmap string (list string);
  rv_Holders : Z;
  rv_PermissionCount : Z;
  rv_Grants : list Grant
}.

Definition RefOf (role : Role) : string := if Predefined role then r_Key role else Str.fmt_d (r_ID role).

Definition grant_leb (a b : Grant) : bool := String.leb (g_Permission a) (g_Permission b).

Definition viewOf (role : Role) (cat : Catalogue) (holders : Z) (withGrants : bool) : RoleView :=
  let resolved := Resolve role cat in
  mkRoleView (RefOf role) (r_ID role) (r_Key role) (r_Name role) (r_Description role) (Predefined role)
    (bool_decide (is_Some (r_Computed role))) (r_Attrs role) holders (Z.of_nat (length resolved))
    (if withGrants then stable_sort grant_leb resolved else []).

Record Place : Type := mkPlace { pl_Scope : Scope; pl_Name : string }.
Record Holder : Type := mkHolder { ho_Subject : Subject; ho_Name : string; ho_Place : Place }.
Record Difference : Type := mkDifference { df_Permission : string; df_Role : Qualifier; df_Other : Qualifier }.
Record Comparison : Type := mkComparison { cp_OnlyInRole : list Grant; cp_OnlyInOther : list Grant; cp_Different : list Difference }.

(** [Binding] of the views *)
Record BindingView : Type := mkBindingView {
  bv_ID : Z;
  bv_Role : RoleView;
  bv_Place : Place;
  bv_CreatedBy : Z;
  bv_CreatedByName : string;
  bv_CreatedAt : Z
}.

(** [Grant] of the views *)
Record GrantView : Type := mkGrantView {
  gv_Qualifier : Qualifier;
  gv_Place : Place;
  gv_Attrs : gmap string (list string);
  gv_BindingID : Z;
  gv_RoleKey : string;
  gv_RoleName : string
}.

(** [Permission] of the views *)
Record PermissionView : Type := mkPermissionView { pv_Permission : string; pv_Grants : list GrantView; pv_Unavailable : bool }.

Record SubjectAccess : Type := mkSubjectAccess {
  sa_Subject : Subject;
  sa_Bindings : list BindingView;
  sa_Effective : list PermissionView;
  sa_CanManage : bool
}.

Record ScopeOptions : Type := mkScopeOptions { sos_RootLevel : string; sos_Root : bool; sos_Places : list ScopeOption }.

(** ** What both services share *)

Section Shared.
Context {St : Type} `{!Store St} `{!HolderStore St}.
Variable b : base.
Notation M := (stM (World St) error).
Notation e := (b_Engine b).

Definition places (scopes : list Scope) : result (Scope → Place) :=
  let below := List.filter (λ s, negb (IsRoot (e_h e) s)) scopes in
  names ← (match below with
           | [] => Ok (∅ : gmap Scope string)
           | _ => mapError (prefixed "access: place names") (sc_Names (b_Scopes b) below)
           end);
  Ok (λ s, mkPlace s (default "" (names !! s))).

Definition subjectNames (subjects : list Subject) : result (gmap Subject string) :=
  mapError (prefixed "access: subject names") (b_Subjects b subjects).

Definition requireSubject (ctx : context) (s : Subject) : result () :=
  if negb (sub_Valid s) then Err subjectNotFound else
  names ← subjectNames [s];
  match names !! s with
  | None => Err subjectNotFound
  | Some _ =>
      match b_Reach b ctx s with
      | Err err => Err err
      | Ok reach => if reach then Ok () else Err subjectNotFound
      end
  end.

(** [base.actor] *)
Definition signedIn (ctx : context) : result Principal :=
  match PrincipalFrom ctx with
  | Some p => Ok p
  | None => Err (Wrap (Some (errNew ErrNoPrincipal)) "user not authenticated" CodeUnauthenticated)
  end.

Definition predefined (key : string) : result Role :=
  match PredefinedRole e key with Some role => Ok role | None => Err (NotFound ("role " +:+ key +:+ " not found")) end.

Definition readRole (id : Z) (err : error) : error := Internal (prefixed ("access: read role " +:+ Str.fmt_d id) err).

(** [base.role] *)
Definition role (ref : string) : M Role :=
  match Str.Atoi ref with
  | None => lift (predefined ref)
  | Some id =>
      map_err (λ err, if errors_Is err ErrRoleNotFound then NotFoundFrom err else readRole id err)
        (read_store (λ st, StoreRole st id))
  end.

(** [authz.Role{ID: id, Name: "#" + id}] and [authz.Role{Key: key, Name: key}] *)
Definition goneRole (ref : RoleRef) : Role :=
  if (0 <? ref_ID ref)%Z then mkRole (ref_ID ref) "" ("#" +:+ Str.fmt_d (ref_ID ref)) "" [] ∅ None
  else mkRole 0 (ref_Key ref) (ref_Key ref) "" [] ∅ None.

Definition roleOf (ref : RoleRef) : M Role :=
  if (0 <? ref_ID ref)%Z then
    read_store (λ st, match StoreRole st (ref_ID ref) with
                      | Ok r => Ok r
                      | Err err => if errors_Is err ErrRoleNotFound then Ok (goneRole ref) else Err (readRole (ref_ID ref) err)
                      end)
  else mret (default (goneRole ref) (PredefinedRole e (ref_Key ref))).

Definition holderCounts : M HolderCounts :=
  map_err (λ err, Internal (prefixed "access: holder counts" err)) (read_store StoreHolderCounts).

(** [err == nil] of a call whose error is dropped *)
Definition succeeds {A} (m : M A) : M bool := λ w, let '(r, w') := m w in (Ok (is_ok r), w').

(** [WithinTransaction] *)
Definition WithinTransaction {A} (fn : M A) : M A := λ w,
  match tx_begin (b_Transactor b) with
  | Some err => (Err err, w)
  | None =>
      match fn w with
      | (Err err, w') => (Err err, mkWorld (w_store w) (w_cache w'))
      | (Ok a, w') =>
          match tx_commit (b_Transactor b) with
          | Some err => (Err err, mkWorld (w_store w) (w_cache w'))
          | None => (Ok a, w')
          end
      end
  end.

(** ** Roles (src/access/admin/roles.go) *)

Definition computed_leb (x y : Role) : bool :=
  negb (bool_decide (is_Some (r_Computed y)) && negb (bool_decide (is_Some (r_Computed x)))).
Definition name_leb (x y : Role) : bool := String.leb (r_Name x) (r_Name y).

Definition listRoles : M (list Role) :=
  map_err (λ err, Internal (prefixed "access: list roles" err)) (read_store StoreListRoles).

(** [Roles.List] *)
Definition Roles_List (ctx : context) : M (list RoleView) :=
  _ ← Require e ctx ViewRoles;
  counts ← holderCounts;
  custom ← listRoles;
  mret ((λ r, viewOf r (e_cat e) (Of counts (Ref r)) false) <$>
          (stable_sort computed_leb (PredefinedRoles e) ++ stable_sort name_leb custom)).

(** [Roles.describe] *)
Definition describeRole (r : Role) : M RoleView :=
  counts ← holderCounts; mret (viewOf r (e_cat e) (Of counts (Ref r)) true).

(** [Roles.Show] *)
Definition Roles_Show (ctx : context) (ref : string) : M RoleView :=
  _ ← Require e ctx ViewRoles; r ← role ref; describeRole r.

Definition holder_leb (x y : Holder) : bool :=
  if bool_decide (ho_Name x ≠ ho_Name y) then String.leb (ho_Name x) (ho_Name y)
  else (sub_ID (ho_Subject x) <=? sub_ID (ho_Subject y))%Z.

(** [Roles.Holders] *)
Definition Roles_Holders (ctx : context) (ref : string) : M (list Holder) :=
  _ ← Require e ctx ViewRoles;
  r ← role ref;
  bindings ← map_err (λ err, Internal (prefixed ("access: holders of " +:+ ref) err)) (read_store (λ st, StoreHoldersOf st (Ref r)));
  placeOf ← lift (places (b_Scope <$> bindings));
  names ← lift (subjectNames (b_Subject <$> bindings));
  mret (stable_sort holder_leb
    ((λ x, mkHolder (b_Subject x) (default "" (names !! b_Subject x)) (placeOf (b_Scope x))) <$> bindings)).

Record RoleDraft : Type := mkRoleDraft {
  rd_Name : string; rd_Description : string; rd_Grants : list Grant; rd_Attrs : gmap string (list string)
}.

(** [RoleDraft.role] *)
Definition draftRole (d : RoleDraft) (id : Z) : Role :=
  mkRole id "" (rd_Name d) (rd_Description d) (rd_Grants d) (rd_Attrs d) None.

(** [Roles.save] *)
Definition saveRole (ctx : context) (r : Role) : M RoleView :=
  _ ← map_err (prefixed "access: save role") (Require e ctx ManageRoles);
  _ ← lift (mapError BadRequestFrom (ValidateRole r (e_cat e)));
  match b_RoleCheck b ctx r with
  | [] => saved ← SaveRole (b_delegation b) ctx r; describeRole saved
  | problems => throw (BadRequestFrom (errValidation problems))
  end.

Definition errPredefined : string := "access: a predefined role is defined in code and cannot be changed".

(** [Roles.custom] *)
Definition custom (ref : string) : M Role :=
  r ← role ref;
  if Predefined r
  then throw (WithReason (ForbiddenFrom (errNew errPredefined)) ReasonForbidden {[ "why" := PString "predefined" ]})
  else mret r.

Definition Roles_Create (ctx : context) (draft : RoleDraft) : M RoleView := saveRole ctx (draftRole draft 0).

Definition Roles_Update (ctx : context) (ref : string) (draft : RoleDraft) : M RoleView :=
  current ← custom ref; saveRole ctx (draftRole draft (r_ID current)).

Definition bindingsOfRole (id : Z) : M (list Binding) :=
  map_err (λ err, Internal (prefixed ("access: bindings of role " +:+ Str.fmt_d id) err))
    (read_store (λ st, StoreBindingsForRole st id)).

Definition deleteErr (id : Z) (err : error) : error :=
  if errors_Is err ErrRoleNotFound then NotFoundFrom err
  else if errors_Is err ErrRoleInUse
  then WithReason (Wrap (Some err) "the role is still bound" CodeAlreadyExists) ReasonRoleInUse ∅
  else Internal (prefixed ("access: delete role " +:+ Str.fmt_d id) err).

(** [Roles.Delete] *)
Definition Roles_Delete (ctx : context) (ref : string) : M () :=
  r ← custom ref;
  _ ← Require e ctx DeleteRoles;
  actor ← lift (signedIn ctx);
  bound ← bindingsOfRole (r_ID r);
  if (0 <? length bound)%nat then throw (roleInUse (length bound)) else
  _ ← map_err (deleteErr (r_ID r)) (on_store (StoreDeleteRole (pr_Subject actor) (r_ID r)));
  evict (λ c, EvictRole c (r_ID r)).
End Shared.

(** [compare]: the qualifiers by permission, later grants winning. *)
Definition qualifiers (grants : list Grant) : gmap string Qualifier :=
  foldl (λ m g, <[g_Permission g := g_Qualifier g]> m) ∅ grants.

Definition difference_leb (x y : Difference) : bool := String.leb (df_Permission x) (df_Permission y).

Definition compare (role other : list Grant) : Comparison :=
  let have := qualifiers role in
  let want := qualifiers other in
  mkComparison
    (stable_sort grant_leb (List.filter (λ g, bool_decide (want !! g_Permission g = None)) role))
    (stable_sort grant_leb (List.filter (λ g, bool_decide (have !! g_Permission g = None)) other))
    (stable_sort difference_leb
      (omap (λ g, q ← want !! g_Permission g;
                  if (q =? g_Qualifier g)%Z then None else Some (mkDifference (g_Permission g) (g_Qualifier g) q)) role)).

Section Services.
Context {St : Type} `{!Store St} `{!HolderStore St}.
Variable b : base.
Notation M := (stM (World St) error).
Notation e := (b_Engine b).

(** [Roles.Compare] *)
Definition Roles_Compare (ctx : context) (ref other : string) : M Comparison :=
  _ ← Require e ctx ViewRoles;
  r ← role b ref;
  o ← role b other;
  mret (compare (Resolve r (e_cat e)) (Resolve o (e_cat e))).

(** [authz.Binding{Subject: s, Role: r, Scope: scope}] *)
Definition newBinding (s : Subject) (r : RoleRef) (scope : Scope) : Binding := mkBinding 0 s r scope 0 0.

(** [return err] of an error that may be nil *)
Definition checked_ (err : option error) : M () := match err with Some x => throw x | None => mret () end.

(** [Roles.checkRebind] *)
Definition checkRebind (ctx : context) (old : Binding) (to : RoleRef) : M () :=
  _ ← checked_ (b_BindingCheck b ctx (b_Subject old) (newBinding (b_Subject old) to (b_Scope old)));
  checked_ (b_BindingCheck b ctx (b_Subject old) old).

(** A [Bind] whose duplicate is no error. *)
Definition bindAnew (ctx : context) (x : Binding) : M () := λ w,
  match Bind (b_delegation b) ctx x w with
  | (Err err, w') => (if errors_Is err ErrDuplicateBinding then Ok () else Err err, w')
  | (Ok _, w') => (Ok (), w')
  end.

(** The loop of [Replace]. *)
Fixpoint rebind_loop (ctx : context) (to : RoleRef) (bindings : list Binding) : M Z :=
  match bindings with
  | [] => mret 0%Z
  | x :: rest =>
      _ ← checkRebind ctx x to;
      _ ← bindAnew ctx (newBinding (b_Subject x) to (b_Scope x));
      _ ← Unbind (b_delegation b) ctx (b_ID x);
      n ← rebind_loop ctx to rest;
      mret (n + 1)%Z
  end.

(** [Roles.Replace] *)
Definition Roles_Replace (ctx : context) (ref other : string) : M Z :=
  r ← custom b ref;
  o ← lift (predefined b other);
  _ ← Require e ctx ManageRoles;
  bindings ← bindingsOfRole (r_ID r);
  rebound ← WithinTransaction b (rebind_loop ctx (Ref o) bindings);
  _ ← evict (λ c, EvictRole c (r_ID r));
  _ ← evict (λ c, foldl (λ c x, Evict c (b_Subject x)) c bindings);
  mret rebound.

(** ** Bindings (src/access/admin/bindings.go) *)

Definition binding_leb (x y : BindingView) : bool := (bv_ID x <=? bv_ID y)%Z.

(** The loop of [Bindings.describe]. *)
Fixpoint describe_loop (counts : HolderCounts) (names : gmap Subject string) (placeOf : Scope → Place) (stored : list Binding) :
    M (list BindingView) :=
  match stored with
  | [] => mret []
  | s :: rest =>
      r ← roleOf b (b_Role s);
      let '(by_, byName) :=
        match names !! mkSubject KindUser (b_CreatedBy s) with Some name => (b_CreatedBy s, name) | None => (0%Z, "") end in
      more ← describe_loop counts names placeOf rest;
      mret (mkBindingView (b_ID s) (viewOf r (e_cat e) (Of counts (Ref r)) false) (placeOf (b_Scope s)) by_ byName (b_CreatedAt s) :: more)
  end.

(** [Bindings.describe] *)
Definition describeBindings (stored : list Binding) (placeOf : Scope → Place) : M (list BindingView) :=
  counts ← holderCounts;
  let authors := (λ s, mkSubject KindUser (b_CreatedBy s)) <$> List.filter (λ s, 0 <? b_CreatedBy s)%Z stored in
  names ← lift (subjectNames b authors);
  out ← describe_loop counts names placeOf stored;
  mret (stable_sort binding_leb out).

(** One permission of [Access] *)
Definition permissionView (eff : Effective) (off : list string) (placeOf : Scope → Place) (id : string) : PermissionView :=
  mkPermissionView id
    ((λ c, mkGrantView (cl_Qualifier c) (placeOf (cl_Scope c)) (cl_Attrs c) (src_BindingID (cl_Source c))
             (ref_Key (src_Role (cl_Source c))) (src_RoleName (cl_Source c))) <$> eff_Clauses eff id)
    (contains off id).

(** [Bindings.Access] *)
Definition Bindings_Access (ctx : context) (subject : Subject) : M SubjectAccess :=
  guard ← lift (gateOf b (sub_Kind subject));
  _ ← Require e ctx (gt_view guard);
  _ ← lift (requireSubject b ctx subject);
  stored ← map_err (λ err, Internal (prefixed ("access: bindings of " +:+ subject_string subject) err))
             (read_store (λ st, BindingsFor st subject));
  eff ← EffectiveOf e subject;
  mine ← MyAccess e (WithPrincipal (mkPrincipal subject 0));
  let clauses := concat (eff_Clauses eff <$> eff_Permissions eff) in
  placeOf ← lift (places b ((b_Scope <$> stored) ++ (cl_Scope <$> clauses)));
  bindings ← describeBindings stored placeOf;
  let effective := permissionView eff (ma_Unavailable mine) placeOf <$> eff_Permissions eff in
  canManage ← (if decide (option_map pr_Subject (PrincipalFrom ctx) = Some subject) then mret false
               else succeeds (Require e ctx (gt_manage guard)));
  mret (mkSubjectAccess subject bindings effective canManage).

(** The loop of [Mine]. *)
Fixpoint mine_loop (placeOf : Scope → Place) (stored : list Binding) : M (list BindingView) :=
  match stored with
  | [] => mret []
  | s :: rest =>
      r ← roleOf b (b_Role s);
      more ← mine_loop placeOf rest;
      mret (mkBindingView (b_ID s) (viewOf r (e_cat e) 0 false) (placeOf (b_Scope s)) 0 "" (b_CreatedAt s) :: more)
  end.

(** [Bindings.Mine] *)
Definition Bindings_Mine (ctx : context) : M (list BindingView) :=
  actor ← lift (signedIn ctx);
  stored ← map_err (λ err, Internal (prefixed "access: own bindings" err)) (read_store (λ st, BindingsFor st (pr_Subject actor)));
  placeOf ← lift (places b (b_Scope <$> stored));
  out ← mine_loop placeOf stored;
  mret (stable_sort binding_leb out).

Definition roleRef (ref : string) : result RoleRef :=
  match Str.Atoi ref with
  | Some id => if (id <=? 0)%Z then Err (BadRequest "role is not a role reference") else Ok (mkRoleRef id "")
  | None => if bool_decide (ref = "") then Err (BadRequest "role is required") else Ok (mkRoleRef 0 ref)
  end.

Record BindingDraft : Type := mkBindingDraft { bd_Role : string; bd_Scope : Scope }.

(** [Bindings.Bind] *)
Definition Bindings_Bind (ctx : context) (subject : Subject) (draft : BindingDraft) : M BindingView :=
  guard ← lift (gateOf b (sub_Kind subject));
  _ ← Require e ctx (gt_manage guard);
  _ ← lift (requireSubject b ctx subject);
  ref ← lift (roleRef (bd_Role draft));
  let binding := newBinding subject ref (bd_Scope draft) in
  _ ← checked_ (b_BindingCheck b ctx subject binding);
  saved ← Bind (gt_delegation guard) ctx binding;
  placeOf ← lift (places b [b_Scope saved]);
  views ← describeBindings [saved] placeOf;
  match views with v :: _ => mret v | [] => throw indexPanic end.

Definition unbindReadErr (id : Z) (err : error) : error :=
  if errors_Is err ErrBindingNotFound then NotFoundFrom err
  else Internal (prefixed ("access: read binding " +:+ Str.fmt_d id) err).

(** [Bindings.Unbind] *)
Definition Bindings_Unbind (ctx : context) (subject : Subject) (bindingID : Z) : M () :=
  guard ← lift (gateOf b (sub_Kind subject));
  _ ← Require e ctx (gt_manage guard);
  _ ← lift (requireSubject b ctx subject);
  found ← map_err (unbindReadErr bindingID) (read_store (λ st, StoreBinding st bindingID));
  if negb (bool_decide (b_Subject found = subject)) then throw (NotFoundFrom (errNew ErrBindingNotFound)) else
  _ ← checked_ (b_BindingCheck b ctx subject found);
  map_err (prefixed ("access: unbind " +:+ Str.fmt_d bindingID)) (Unbind (gt_delegation guard) ctx bindingID).

(** [Bindings.bindable] *)
Definition bindable (ctx : context) (subject : Subject) (scope : Scope) : result bool :=
  match b_BindingCheck b ctx subject (newBinding subject (mkRoleRef 0 "") scope) with
  | None => Ok true
  | Some err => if (500 <=? GetHTTPStatus err)%Z then Err err else Ok false
  end.

(** The loop of [Scopes] over the options. *)
Fixpoint scopes_loop (ctx : context) (subject : Subject) (clauses : list Clause) (options : list ScopeOption) : result (list ScopeOption) :=
  match options with
  | [] => Ok []
  | o :: rest =>
      match ChainOf (sc_Parent (b_Scopes b)) (e_h e) (so_Scope o) [] with
      | Err _ => scopes_loop ctx subject clauses rest
      | Ok chain =>
          if existsb (λ c, Within chain (cl_Scope c)) clauses then
            match bindable ctx subject (so_Scope o) with
            | Err err => Err err
            | Ok ok => more ← scopes_loop ctx subject clauses rest; Ok (if ok then o :: more else more)
            end
          else scopes_loop ctx subject clauses rest
      end
  end.

(** [Bindings.Scopes] *)
Definition Bindings_Scopes (ctx : context) (subject : Subject) : M ScopeOptions :=
  actor ← lift (signedIn ctx);
  guard ← lift (gateOf b (sub_Kind subject));
  _ ← Require e ctx (gt_manage guard);
  _ ← lift (requireSubject b ctx subject);
  eff ← EffectiveOf e (pr_Subject actor);
  options ← lift (mapError (λ err, Internal (prefixed "access: scope options" err)) (sc_Options (b_Scopes b)));
  let clauses := eff_Clauses eff (gt_manage guard) in
  root ← lift (if existsb (λ c, IsRoot (e_h e) (cl_Scope c)) clauses then bindable ctx subject (Root (e_h e)) else Ok false);
  found ← lift (scopes_loop ctx subject clauses options);
  mret (mkScopeOptions (RootLevel (e_h e)) root found).

(** [Bindings.requirePlace] *)
Definition requirePlace (scope : Scope) : result () :=
  _ ← mapError BadRequestFrom (CheckScope (e_h e) scope);
  if IsRoot (e_h e) scope then Ok () else
  names ← mapError (λ err, Internal (prefixed ("access: place " +:+ scope_string scope) err)) (sc_Names (b_Scopes b) [scope]);
  match names !! scope with Some _ => Ok () | None => Err (NotFound "place not found") end.

(** The loop of [BindableRolesFor]. *)
Fixpoint bindable_loop (ctx : context) (actor : Principal) (scope : Scope) (manage : string) (counts : HolderCounts) (roles : list Role) :
    M (list RoleView) :=
  match roles with
  | [] => mret []
  | r :: rest =>
      ok ← succeeds (CanBind e actor r scope manage);
      more ← bindable_loop ctx actor scope manage counts rest;
      mret (if (ok : bool) then viewOf r (e_cat e) (Of counts (Ref r)) true :: more else more)
  end.

Definition BindableRolesFor (ctx : context) (kind : Kind) (scope : Scope) : M (list RoleView) :=
  actor ← lift (signedIn ctx);
  guard ← lift (gateOf b kind);
  _ ← lift (requirePlace scope);
  custom ← listRoles;
  counts ← holderCounts;
  bindable_loop ctx actor scope (gt_manage guard) counts (PredefinedRoles e ++ stable_sort name_leb custom).

Definition BindableRoles (ctx : context) (scope : Scope) : M (list RoleView) := BindableRolesFor ctx KindUser scope.
End Services.
