(* ===== verification/AccessProps.v ===== *)
(** * What the screens of access guarantee

    Every operation keeps the store sound and the cache coherent, also when a
    transaction is rolled back; a replacement is all or nothing; what a sheet offers
    is what the delegation accepts; what is shown of a subject's access is its
    access. Each with an instance in a small application. *)

From S2P Require Import Prelude Clock Apperr Catalogue Hierarchy Role Access Cache Engine Store EngineSpec MemStore Admin AdminSpec Sample AccessAdmin.

(** ** What the holder queries of a store promise *)

(** The binding is stored. *)
Definition bound {St} `{!Store St} (st : St) (x : Binding) : Prop := ∃ bs, BindingsFor st (b_Subject x) = Ok bs ∧ x ∈ bs.

Class HolderLaws (St : Type) `{!Store St} `{!StoreLaws St} : Type := {
  law_forRole st id : store_inv st →
    ∃ bs, StoreBindingsForRole st id = Ok bs ∧ NoDup bs ∧ ∀ x, x ∈ bs ↔ bound st x ∧ ref_ID (b_Role x) = id;
  law_duplicate st actor x err st' : store_inv st → StoreBind actor x st = (Err err, st') →
    errors_Is err ErrDuplicateBinding = true →
    ∃ y, bound st y ∧ b_Subject y = b_Subject x ∧ b_Role y = b_Role x ∧ b_Scope y = b_Scope x;
  law_list st : store_inv st → ∃ rs, StoreListRoles st = Ok rs ∧ ∀ r, r ∈ rs ↔ StoreRole st (r_ID r) = Ok r;
  law_custom st id r : store_inv st → StoreRole st id = Ok r → (0 < id)%Z ∧ r_Key r = ""
}.

#[export] Instance MemoryStore_HolderStore : HolderStore MemoryStore := {| StoreHolderCounts := mem_HolderCounts |}.

Lemma mem_bound (m : MemoryStore) x : bound m x ↔ ∃ id, m_bindings m !! id = Some x.
Proof.
  split.
  - intros (bs & [= <-] & (_ & ?)%elem_of_filterBindings). done.
  - intros H. eexists. split; [done|]. apply elem_of_filterBindings. by rewrite bool_decide_eq_true.
Qed.

#[export] Program Instance MemoryStore_HolderLaws : HolderLaws MemoryStore.
Next Obligation.
  intros m id Hi. eexists. split; [done|]. split; [by apply filterBindings_NoDup|]. intros x.
  rewrite elem_of_filterBindings, mem_bound, Z.eqb_eq. tauto.
Qed.
Next Obligation.
  intros m actor x err m' Hi Hb _. cbn in Hb. unfold mem_Bind in Hb.
  destruct (existsb _ _) eqn:E; [|discriminate Hb]. clear Hb.
  apply existsb_elem in E as (y & Hy%elem_of_binding_values & Hs). exists y. rewrite mem_bound. split; [done|].
  unfold sameBinding in Hs. rewrite !andb_true_iff, !bool_decide_eq_true in Hs. naive_solver.
Qed.
Next Obligation.
  intros m Hi. eexists. split; [done|]. intros r. cbn. rewrite mem_Role_Ok, stable_sort_perm, list_elem_of_fmap.
  setoid_rewrite list_elem_of_fmap. split.
  - intros (y & -> & [i x] & -> & Hx%elem_of_map_to_list). cbn. rewrite copyRole_id.
    pose proof (mi_roles _ Hi _ _ Hx) as [-> _]. done.
  - intros Hr. exists r. rewrite copyRole_id. split; [done|]. exists (r_ID r, r). split; [done|]. by apply elem_of_map_to_list.
Qed.
Next Obligation. intros m id r Hi Hr%mem_Role_Ok. by apply (mi_roles _ Hi) in Hr as (_ & [? _] & ? & _). Qed.

Lemma law_positive {St} `{!Store St} `{!StoreLaws St} `{!HolderLaws St} (st : St) id r :
  store_inv st → StoreRole st id = Ok r → (0 < id)%Z.
Proof. intros Hi Hr. by apply (law_custom _ _ _ Hi Hr). Qed.

(** ** Reading *)

Lemma quiet_Ok {St} `{!Store St} (e : Engine) {A B} (m : stM (World St) error A) (f : A → stM (World St) error B) w x w' :
  quiet e m → coherent e w → (m ≫= f) w = (Ok x, w') →
  ∃ y w1, m w = (Ok y, w1) ∧ w_store w1 = w_store w ∧ coherent e w1 ∧ f y w1 = (Ok x, w').
Proof. intros Hm Hc [?|(? & _ & ? & _)]%(quiet_step e); done. Qed.

Section Reads.
Context {St : Type} `{!Store St} `{!HolderStore St}.
Variable b : base.
Notation M := (stM (World St) error).
Notation e := (b_Engine b).

Lemma quiet_succeeds {A} (m : M A) : quiet e m → quiet e (succeeds m).
Proof. intros Hm w r w' Hc. unfold succeeds. destruct (m w) as [r1 w1] eqn:E. intros [= _ <-]. by eapply Hm. Qed.

Lemma quiet_checked err : quiet e (checked_ (St := St) err).
Proof. unfold checked_. solve_quiet. Qed.

Lemma quiet_role ref : quiet e (role b ref).
Proof. unfold role. solve_quiet. Qed.

Lemma quiet_roleOf ref : quiet e (roleOf b ref).
Proof. unfold roleOf. solve_quiet. Qed.

Lemma quiet_holderCounts : quiet e (holderCounts (St := St)).
Proof. unfold holderCounts. solve_quiet. Qed.

Lemma quiet_listRoles : quiet e (listRoles (St := St)).
Proof. unfold listRoles. solve_quiet. Qed.

Lemma quiet_MyAccess ctx : quiet e (MyAccess (St := St) e ctx).
Proof. unfold MyAccess. solve_quiet. Qed.
Hint Resolve quiet_succeeds quiet_checked quiet_role quiet_roleOf quiet_holderCounts quiet_listRoles quiet_MyAccess : quiet.

Lemma quiet_custom ref : quiet e (custom b ref).
Proof. unfold custom. solve_quiet. Qed.

Lemma quiet_bindingsOfRole id : quiet e (bindingsOfRole (St := St) id).
Proof. unfold bindingsOfRole. solve_quiet. Qed.

Lemma quiet_describeRole r : quiet e (describeRole b r).
Proof. unfold describeRole. solve_quiet. Qed.

Lemma quiet_describe_loop counts names placeOf stored : quiet e (describe_loop b counts names placeOf stored).
Proof. induction stored as [|x l IH]; cbn; solve_quiet. Qed.
Hint Resolve quiet_describe_loop : quiet.

Lemma quiet_describeBindings stored placeOf : quiet e (describeBindings b stored placeOf).
Proof. unfold describeBindings. solve_quiet. Qed.

Lemma quiet_mine_loop placeOf stored : quiet e (mine_loop b placeOf stored).
Proof. induction stored as [|x l IH]; cbn; solve_quiet. Qed.

Lemma quiet_bindable_loop ctx p scope manage counts roles : quiet e (bindable_loop b ctx p scope manage counts roles).
Proof. induction roles as [|x l IH]; cbn; solve_quiet. Qed.
End Reads.

#[export] Hint Resolve quiet_succeeds quiet_checked quiet_role quiet_roleOf quiet_holderCounts quiet_listRoles quiet_MyAccess
  quiet_custom quiet_bindingsOfRole quiet_describeRole quiet_describe_loop quiet_describeBindings quiet_mine_loop quiet_bindable_loop : quiet.

Section ReadOnly.
Context {St : Type} `{!Store St} `{!HolderStore St}.
Variable b : base.
Notation e := (b_Engine b).

Lemma quiet_List ctx : quiet e (Roles_List (St := St) b ctx).
Proof. unfold Roles_List. solve_quiet. Qed.

Lemma quiet_Show ctx ref : quiet e (Roles_Show (St := St) b ctx ref).
Proof. unfold Roles_Show. solve_quiet. Qed.

Lemma quiet_Holders ctx ref : quiet e (Roles_Holders (St := St) b ctx ref).
Proof. unfold Roles_Holders. solve_quiet. Qed.

Lemma quiet_Compare ctx ref other : quiet e (Roles_Compare (St := St) b ctx ref other).
Proof. unfold Roles_Compare. solve_quiet. Qed.

Lemma quiet_Access ctx s : quiet e (Bindings_Access (St := St) b ctx s).
Proof. unfold Bindings_Access. solve_quiet. Qed.

Lemma quiet_Mine ctx : quiet e (Bindings_Mine (St := St) b ctx).
Proof. unfold Bindings_Mine. solve_quiet. Qed.

Lemma quiet_Scopes ctx s : quiet e (Bindings_Scopes (St := St) b ctx s).
Proof. unfold Bindings_Scopes. solve_quiet. Qed.

Lemma quiet_BindableRolesFor ctx kind scope : quiet e (BindableRolesFor (St := St) b ctx kind scope).
Proof. unfold BindableRolesFor. solve_quiet. Qed.
End ReadOnly.

#[export] Hint Resolve quiet_List quiet_Show quiet_Holders quiet_Compare quiet_Access quiet_Mine quiet_Scopes quiet_BindableRolesFor : quiet.

(** ** Inside a transaction

    [steady st0] says the cache would be right if the store went back to [st0]: what
    a computation does inside a transaction that reads the access of nobody but
    [who], whose access the transaction does not change, keeps it so. *)

Section Steady.
Context {St : Type} `{!Store St} (e : Engine) (st0 : St) (who : Subject).
Notation M := (stM (World St) error).

Definition steady (w : World St) : Prop := coherent e (mkWorld st0 (w_cache w)).

Definition careful {A} (m : M A) : Prop :=
  ∀ w r w', load e (w_store w) who = load e st0 who → coherent e w → steady w → m w = (r, w') →
    w_store w' = w_store w ∧ coherent e w' ∧ steady w'.

Lemma careful_same {A} (m : M A) : (∀ w, (m w).2 = w) → careful m.
Proof. intros Hm w r w' _ Hc Hs E. specialize (Hm w). rewrite E in Hm. cbn in Hm. by subst. Qed.

Lemma careful_ret {A} (a : A) : careful (mret a).
Proof. by apply careful_same. Qed.
Lemma careful_throw {A} err : careful (throw (A:=A) err).
Proof. by apply careful_same. Qed.
Lemma careful_lift {A} (o : result A) : careful (lift o).
Proof. by apply careful_same. Qed.
Lemma careful_get : careful get_state.
Proof. by apply careful_same. Qed.
Lemma careful_read {A} (f : St → result A) : careful (read_store f).
Proof. by apply careful_same. Qed.

Lemma careful_bind {A B} (m : M A) (f : A → M B) : careful m → (∀ a, careful (f a)) → careful (m ≫= f).
Proof.
  intros Hm Hf w r w' Hl Hc Hs [(a & w1 & E1 & E2)|(err & E1 & ->)]%stM_bind_inv.
  - destruct (Hm _ _ _ Hl Hc Hs E1) as (Hs1 & Hc1 & Ht1).
    destruct (Hf a w1 r w') as (Hs2 & Hc2 & Ht2); [by rewrite Hs1|done..|]. split; [congruence|done].
  - by eapply Hm.
Qed.

Lemma careful_map_err {A} f (m : M A) : careful m → careful (map_err f m).
Proof. intros Hm w r w' Hl Hc Hs. unfold map_err. destruct (m w) as [[a|err] w1] eqn:E; intros [= _ <-]; by eapply Hm. Qed.

Lemma careful_EffectiveOf : careful (EffectiveOf e who).
Proof.
  intros w r w' Hl Hc Hs E. pose proof (EffectiveOf_spec e _ _ _ _ Hc E) as (_ & Hst & Hc'). split; [done|]. split; [done|].
  assert (EffectiveOf e who (mkWorld st0 (w_cache w)) = (r, mkWorld st0 (w_cache w'))) as E0.
  { revert E. unfold EffectiveOf. cbn. destruct (get (w_cache w) who) as [[eff|] c]; [intros [= <- <-]; done|].
    rewrite Hl. destruct (load e st0 who); intros [= <- <-]; done. }
  apply (EffectiveOf_spec e _ _ _ _ Hs E0).
Qed.
End Steady.

Create HintDb careful.
#[export] Hint Resolve careful_ret careful_throw careful_lift careful_get careful_read careful_bind careful_map_err careful_EffectiveOf : careful.

Ltac solve_careful :=
  repeat first
    [ progress (intros)
    | solve [eauto with careful]
    | apply careful_bind
    | apply careful_map_err
    | case_match; simplify_eq ].

Section Careful.
Context {St : Type} `{!Store St} (e : Engine) (st0 : St) (p : Principal).

Lemma careful_prepare ctx permission : PrincipalFrom ctx = Some p → careful e st0 (pr_Subject p) (prepare e ctx permission).
Proof. unfold prepare. intros ->. solve_careful. Qed.
Hint Resolve careful_prepare : careful.

Lemma careful_RequireOn ctx permission res : PrincipalFrom ctx = Some p → careful e st0 (pr_Subject p) (RequireOn e ctx permission res).
Proof. intros Hp. unfold RequireOn. solve_careful. Qed.

Lemma careful_CanBind role scope perm : careful e st0 (pr_Subject p) (CanBind e p role scope perm).
Proof. unfold CanBind. solve_careful. Qed.

Lemma careful_keepsAccess protected drop override : careful e st0 (pr_Subject p) (keepsAccess e (pr_Subject p) protected drop override).
Proof. unfold keepsAccess. solve_careful. Qed.
End Careful.
#[export] Hint Resolve careful_RequireOn careful_CanBind careful_keepsAccess : careful.

(** A computation that may end with one write and its eviction. *)
Definition writes {St} `{!Store St} (e : Engine) (st0 : St) (who : Subject) {A} (m : stM (World St) error A) : Prop :=
  ∀ w r w', load e (w_store w) who = load e st0 who → coherent e w → steady e st0 w → m w = (r, w') →
    steady e st0 w' ∧ (is_ok r = false → w_store w' = w_store w).

Section Writes.
Context {St : Type} `{!Store St} `{!StoreLaws St} (a : Admin) (st0 : St) (p : Principal).
Notation e := (a_e a).
Notation M := (stM (World St) error).

Lemma writes_careful {A} (m : M A) : careful e st0 (pr_Subject p) m → writes e st0 (pr_Subject p) m.
Proof. intros Hm w r w' Hl Hc Hs E. destruct (Hm _ _ _ Hl Hc Hs E) as (? & ? & ?). done. Qed.

Lemma writes_bind {A B} (m : M A) (f : A → M B) :
  careful e st0 (pr_Subject p) m → (∀ x, writes e st0 (pr_Subject p) (f x)) → writes e st0 (pr_Subject p) (m ≫= f).
Proof.
  intros Hm Hf w r w' Hl Hc Hs [(x & w1 & E1 & E2)|(err & E1 & ->)]%stM_bind_inv.
  - destruct (Hm _ _ _ Hl Hc Hs E1) as (Hs1 & Hc1 & Ht1). rewrite <-Hs1. apply (Hf x w1 r w'); [by rewrite Hs1|done..].
  - destruct (Hm _ _ _ Hl Hc Hs E1) as (? & ? & ?). done.
Qed.

Lemma steady_evict w s : steady e st0 w → steady e st0 (mkWorld (w_store w) (Evict (w_cache w) s)).
Proof. intros Hs. unfold steady. cbn. by eapply (evict_coherent e st0 st0). Qed.

Lemma writes_evict {A B} (m : stM St error A) (s : Subject) (k : A → B) :
  (∀ st st' err, m st = (Err err, st') → st' = st) →
  writes e st0 (pr_Subject p) (x ← map_err storeErr (on_store m); _ ← evict (λ c, Evict c s); mret (k x)).
Proof.
  intros Herr [st c] r w' Hl Hc Hs. unfold map_err, on_store, mbind, stM_bind, evict, modify. cbn.
  destruct (m st) as [[x|err] st'] eqn:Em; cbn; intros [= <- <-]; cbn.
  - split; [|done]. by apply (steady_evict (mkWorld st c)).
  - split; [done|]. intros _. by eapply Herr.
Qed.

Lemma writes_evict_unit (m : stM St error ()) (s : Subject) :
  (∀ st st' err, m st = (Err err, st') → st' = st) →
  writes e st0 (pr_Subject p) (_ ← map_err storeErr (on_store m); evict (λ c, Evict c s)).
Proof.
  intros Herr [st c] r w' Hl Hc Hs. unfold map_err, on_store, mbind, stM_bind, evict, modify. cbn.
  destruct (m st) as [[[]|err] st'] eqn:Em; cbn; intros [= <- <-]; cbn.
  - split; [|done]. by apply (steady_evict (mkWorld st c)).
  - split; [done|]. intros _. by eapply Herr.
Qed.

Lemma writes_ret_bind {A B} (x : A) (f : A → M B) : writes e st0 (pr_Subject p) (f x) → writes e st0 (pr_Subject p) (mret x ≫= f).
Proof. intros Hf w r w'. apply Hf. Qed.

Lemma writes_Bind ctx x : PrincipalFrom ctx = Some p → writes e st0 (pr_Subject p) (Bind a ctx x).
Proof.
  intros Hp. unfold Bind, actor. rewrite Hp. apply writes_ret_bind.
  assert (∀ err, writes e st0 (pr_Subject p) (throw (A := Binding) err)) as Ht by (intros; apply writes_careful; solve_careful).
  destruct (_ || _); [done|]. destruct (CheckScope _ _); [|done]. destruct (decide _); [done|].
  apply writes_bind; [by apply careful_RequireOn|intros _]. apply writes_bind; [solve_careful|intros role].
  apply writes_bind; [apply careful_CanBind|intros _]. apply (writes_evict _ _ id). intros st st' err. apply law_bind_err.
Qed.

Lemma writes_Unbind ctx id : PrincipalFrom ctx = Some p → writes e st0 (pr_Subject p) (Unbind a ctx id).
Proof.
  intros Hp. unfold Unbind, actor. rewrite Hp. apply writes_ret_bind.
  apply writes_bind; [solve_careful|intros x]. apply writes_bind; [by apply careful_RequireOn|intros _].
  apply writes_bind; [solve_careful|intros w]. apply writes_bind; [solve_careful|intros _].
  apply writes_bind; [solve_careful|intros _]. apply writes_evict_unit. intros st st' err. apply law_unbind_err.
Qed.
End Writes.

(** ** Bindings that are stored *)

Section Bound.
Context {St : Type} `{!Store St} `{!StoreLaws St}.
Implicit Types (st : St) (x y : Binding).

Lemma bound_stored st x : store_inv st → bound st x → StoreBinding st (b_ID x) = Ok x.
Proof.
  intros Hi (bs & Hbs & Hx). destruct (law_bindings st (b_Subject x) Hi) as (bs' & Hbs' & Hall).
  rewrite Hbs in Hbs'. injection Hbs' as <-. rewrite list.Forall_forall in Hall. by apply Hall.
Qed.

Lemma stored_bound st id x : store_inv st → StoreBinding st id = Ok x → bound st x ∧ b_ID x = id.
Proof. intros Hi Hx. destruct (law_binding st id x Hi Hx) as (? & _ & ?). done. Qed.

Lemma bound_id st x y : store_inv st → bound st x → bound st y → b_ID x = b_ID y → x = y.
Proof. intros Hi Hx%bound_stored Hy%bound_stored E; [|done..]. rewrite E in Hx. congruence. Qed.

Lemma bound_bind st actor x saved st' y :
  store_inv st → StoreBind actor x st = (Ok saved, st') → bound st' y ↔ bound st y ∨ y = saved.
Proof.
  intros Hi Hb. destruct (law_bind _ _ _ _ _ Hi Hb) as (_ & Hs & _ & _ & Happ & Hoth & _).
  destruct (law_bindings st (b_Subject x) Hi) as (bs & Hbs & _). specialize (Happ _ Hbs). unfold bound.
  destruct (decide (b_Subject y = b_Subject x)) as [Heq|Hne].
  - rewrite Heq, Happ, Hbs. split.
    + intros (l & [= <-] & [?|?%list_elem_of_singleton]%elem_of_app); eauto.
    + intros [(l & [= <-] & ?)| ->]; eexists; (split; [done|]); apply elem_of_app; [by left|right; by apply list_elem_of_singleton].
  - rewrite Hoth by done. split; [by left|]. intros [?| ->]; [done|congruence].
Qed.

Lemma bound_unbind st actor id st' y :
  store_inv st → StoreUnbind actor id st = (Ok (), st') → bound st' y ↔ bound st y ∧ b_ID y ≠ id.
Proof.
  intros Hi Hu. destruct (law_unbind _ _ _ _ Hi Hu) as (_ & Hf & _). unfold bound.
  destruct (law_bindings st (b_Subject y) Hi) as (bs & Hbs & _). rewrite (Hf _ _ Hbs), Hbs. split.
  - intros (l & [= <-] & [? Hn%negb_true_iff%Z.eqb_neq]%elem_of_filter_bool). eauto.
  - intros [(l & [= <-] & ?) Hn]. eexists. split; [done|]. apply elem_of_filter_bool. split; [done|].
    by apply negb_true_iff, Z.eqb_neq.
Qed.
End Bound.

(** ** A duplicate is the store's answer *)

Definition isDuplicate (err : error) : bool := errors_Is err ErrDuplicateBinding.

Lemma canBind_loop_err e eff chain atRoot mb gs err : canBind_loop e eff chain atRoot mb gs = Err err → isDuplicate err = false.
Proof. induction gs as [|g gs IH]; cbn [canBind_loop]; [done|]. repeat case_match; try done; intros [= <-]; reflexivity. Qed.

Lemma CheckScope_err h s err : CheckScope h s = Err err → isDuplicate err = false.
Proof. unfold CheckScope. repeat case_match; try done; intros [= <-]; reflexivity. Qed.

Lemma validation_err (ps : list Problem) err : asValidation ps = Err err → isDuplicate (BadRequestFrom err) = false.
Proof. unfold asValidation. destruct ps; [done|]. by intros [= <-]. Qed.

Lemma storeErr_Is err s : errors_Is (storeErr err) s = errors_Is err s.
Proof. unfold storeErr. repeat case_match; try done; unfold NotFoundFrom, ConflictFrom, Internal, fromErr; repeat case_match; done. Qed.

Section Duplicates.
Context {St : Type} `{!Store St} `{!StoreLaws St} (a : Admin).
Notation e := (a_e a).
Implicit Types w : World St.

Lemma RequireOn_det ctx perm res w w' :
  coherent e w → coherent e w' → w_store w = w_store w' → (RequireOn e ctx perm res w).1 = (RequireOn e ctx perm res w').1.
Proof.
  intros Hc Hc' Hs. unfold RequireOn, mbind, stM_bind.
  destruct (prepare e ctx perm w) as [r w1] eqn:E. destruct (prepare e ctx perm w') as [r' w1'] eqn:E'.
  apply prepare_spec in E as (_ & _ & ->); [|done]. apply prepare_spec in E' as (_ & _ & ->); [|done]. rewrite Hs.
  by destruct (match PrincipalFrom ctx with Some _ => _ | None => _ end) as [[[]]|].
Qed.

(** A [CanBind] that answers a duplicate met it in the resolver or in a load. *)
Lemma CanBind_duplicate p role scope mb w err w' chain eff :
  coherent e w → CanBind e p role scope mb w = (Err err, w') → isDuplicate err = true →
  ChainOf (e_resolver e) (e_h e) scope [] = Ok chain → load e (w_store w) (pr_Subject p) = Ok eff → False.
Proof.
  intros Hc. unfold CanBind, ValidateRole. destruct (asValidation (role_problems _ _)) as [[]|err1] eqn:Ev.
  2: { intros [= <- _] Hd. by rewrite (validation_err _ _ Ev) in Hd. }
  intros H Hd Hch Hl. rewrite Hch in H.
  destruct (if IsRoot (e_h e) scope then _ else _) as [[]|err1] eqn:Eo.
  - apply stM_bind_inv in H as [(eff' & w1 & E & H)|(x & E & [= ->])].
    + destruct (holdsWithin eff' mb (Within chain)); cbn in H; [|by injection H as <- _].
      unfold lift in H. injection H as H _. by rewrite (canBind_loop_err _ _ _ _ _ _ _ H) in Hd.
    + destruct (EffectiveOf_spec e _ _ _ _ Hc E) as (? & _). congruence.
  - injection H as <- _. destruct (IsRoot _ _); [done|]. by rewrite (validation_err _ _ Eo) in Hd.
Qed.

Lemma Bind_duplicate ctx x w err w' p role chain eff :
  coherent e w → Bind a ctx x w = (Err err, w') → isDuplicate err = true → PrincipalFrom ctx = Some p →
  (RequireOn e ctx (a_bindings a) (resourceAt (b_Scope x)) w).1 = Ok () →
  lookupRole e (w_store w) (b_Role x) = Ok role →
  ChainOf (e_resolver e) (e_h e) (b_Scope x) [] = Ok chain → load e (w_store w) (pr_Subject p) = Ok eff →
  b_Subject x ≠ pr_Subject p ∧ ∃ err0 st', StoreBind (pr_Subject p) x (w_store w) = (Err err0, st') ∧ isDuplicate err0 = true.
Proof.
  intros Hc H Hd Hp Hreq Hlook Hch Hl. unfold Bind, actor in H. rewrite Hp in H.
  unfold mbind at 1, stM_bind at 1, mret, stM_ret in H.
  destruct (_ || _); [by injection H as <- _|].
  destruct (CheckScope _ _) as [[]|err1] eqn:Ec.
  2: { injection H as <- _. apply CheckScope_err in Ec. unfold isDuplicate, BadRequestFrom, fromErr in *. case_match; cbn in Hd; congruence. }
  destruct (decide _) as [|Hne]; [by injection H as <- _|]. split; [done|].
  apply (quiet_step e) in H as [([] & w1 & E & Hs1 & Hc1 & H)|(y & E & [= ->] & _)]; [..|apply quiet_RequireOn|done];
    [|by rewrite E in Hreq].
  apply (quiet_step e) in H as [(r & w2 & E2 & Hs2 & Hc2 & H)|(y & E2 & [= ->] & _)]; [..|solve_quiet|done].
  2: { unfold map_err, read_store in E2. rewrite Hs1, Hlook in E2. done. }
  apply (quiet_step e) in H as [([] & w3 & E3 & Hs3 & Hc3 & H)|(y & E3 & [= ->] & _)]; [..|apply quiet_CanBind|done].
  2: { exfalso. eapply CanBind_duplicate; [exact Hc2|exact E3|done..|]. by rewrite Hs2, Hs1. }
  unfold mbind, stM_bind, map_err, on_store in H. rewrite Hs3, Hs2, Hs1 in H.
  destruct (StoreBind _ _ _) as [[saved|err0] st'] eqn:Eb; [done|]. injection H as <- _. exists err0, st'. split; [done|].
  unfold isDuplicate in *. by rewrite storeErr_Is in Hd.
Qed.

(** What an [Unbind] that passed has checked. *)
Lemma Unbind_checked ctx id w w' :
  coherent e w → Unbind a ctx id w = (Ok (), w') →
  ∃ p x, PrincipalFrom ctx = Some p ∧ StoreBinding (w_store w) id = Ok x ∧
    (RequireOn e ctx (a_bindings a) (resourceAt (b_Scope x)) w).1 = Ok () ∧
    (∀ role, lookupRole e (w_store w) (b_Role x) = Ok role →
      ∃ w1 w2, w_store w1 = w_store w ∧ coherent e w1 ∧ CanBind e p role (b_Scope x) (a_bindings a) w1 = (Ok (), w2)) ∧
    StoreUnbind (pr_Subject p) id (w_store w) = (Ok (), w_store w').
Proof.
  intros Hc H. unfold Unbind in H.
  apply stM_bind_Ok in H as (p & w0 & [Hp ->]%actor_Ok & H).
  apply (step_Ok a) in H as (x & w1 & Hread & Hs1 & Hc1 & H); [|solve_quiet|done].
  apply map_err_Ok in Hread. injection Hread as Hread <-.
  apply (step_Ok a) in H as ([] & w2 & Hreq & Hs2 & Hc2 & H); [|apply quiet_RequireOn|done].
  apply stM_bind_Ok in H as (w2' & w2'' & [= <- <-] & H).
  apply (step_Ok a) in H as ([] & w3 & Hcan & Hs3 & Hc3 & H); [|solve_quiet|done].
  apply (step_Ok a) in H as ([] & w4 & Hk & Hs4 & Hc4 & H); [|solve_quiet|done].
  apply stM_bind_Ok in H as ([] & w5 & (st' & Hb & ->)%write_Ok & H).
  injection H as <-. cbn. rewrite Hs4, Hs3, Hs2 in Hb. exists p, x. repeat split; [done..|by rewrite Hreq| |done].
  intros role Hl. rewrite <-Hs2 in Hl. rewrite Hl in Hcan. exists w2, w3. done.
Qed.
End Duplicates.

(** ** Replacing a role *)

(** The delegation rules are of the engine, as [New] makes them. *)
Record base_ok (b : base) : Prop := {
  bo_delegation : a_e (b_delegation b) = b_Engine b;
  bo_service : ∀ a, b_serviceDelegation b = Some a → a_e a = b_Engine b;
  bo_bindings : a_bindings (b_delegation b) = ManageBindings;
  bo_serviceBindings : ∀ a, b_serviceDelegation b = Some a → a_bindings a = ManageServiceAccountBindings
}.

Lemma NewAdmin_engine e hasStore roles bindings protected a :
  NewAdmin (Some e) hasStore roles bindings protected = Ok a → a_e a = e ∧ a_bindings a = bindings.
Proof. unfold NewAdmin. destruct hasStore; [|done]. cbn. by intros ([] & _ & [= <-])%outcome_bind_Ok. Qed.

Lemma mapError_Ok {A} f (o : result A) x : mapError f o = Ok x → o = Ok x.
Proof. by destruct o. Qed.

Lemma New_ok cfg b : New cfg = Ok b → base_ok b ∧ su_Engine cfg = Some (b_Engine b).
Proof.
  unfold New. destruct (su_Engine cfg) as [e|]; [|done]. destruct (su_hasStore cfg); [|done].
  destruct (su_Scopes cfg); [|done]. destruct (su_Subjects cfg); [|done]. destruct (su_Transactor cfg); [|done]. cbn [negb].
  intros ([] & _ & H)%outcome_bind_Ok. apply outcome_bind_Ok in H as (d & [Hd Hd']%mapError_Ok%NewAdmin_engine & H).
  apply outcome_bind_Ok in H as (sd & Hs & [= <-]). split; [|done].
  split; cbn; [done| |done|]; intros a ->; (destruct (Lookup _ _); [|done]);
    apply outcome_bind_Ok in Hs as (a' & [? ?]%mapError_Ok%NewAdmin_engine & [= <-]); done.
Qed.

(** Services built by [New] over an engine built by [NewEngine]. *)
Definition installed (b : base) : Prop :=
  ∃ clock cfg c setup, NewEngine clock cfg = Ok (b_Engine b, c) ∧ New setup = Ok b.

Lemma installed_ok b : installed b → base_ok b.
Proof. intros (clock & cfg & c & setup & _ & H). by apply (New_ok _ _ H). Qed.

Lemma installed_roles b k r : installed b → e_roles (b_Engine b) !! k = Some r → r_Key r = k ∧ k ≠ "" ∧ r_ID r = 0%Z ∧ valid_role (e_cat (b_Engine b)) r.
Proof.
  intros (clock & cfg & c & setup & H & _). destruct (NewEngine_inv _ _ _ _ H) as (cat & _ & _ & _ & _ & Hadd & _).
  destruct (addRoles_spec _ _ _ _ Hadd) as [Hall _]; [intros ? ?; by rewrite lookup_empty|]. apply Hall.
Qed.

Section Replace.
Context {St : Type} `{!Store St} `{!HolderStore St} `{!StoreLaws St} `{!HolderLaws St}.
Variable b : base.
Hypothesis Hinst : installed b.
Let Hb : base_ok b := installed_ok b Hinst.
Notation e := (b_Engine b).
Notation a := (b_delegation b).
Implicit Types (w : World St) (st : St).

(** The state of a transaction that began on [st0]: the cache is right, would be
    right if the store went back, and the roles and the actor's bindings are as they
    were. *)
Record inside st0 (p : Principal) w : Prop := {
  in_coherent : coherent e w;
  in_steady : steady e st0 w;
  in_inv : store_inv (w_store w);
  in_roles : ∀ id, StoreRole (w_store w) id = StoreRole st0 id;
  in_actor : BindingsFor (w_store w) (pr_Subject p) = BindingsFor st0 (pr_Subject p)
}.

Lemma inside_load st0 p w : inside st0 p w → load e (w_store w) (pr_Subject p) = load e st0 (pr_Subject p).
Proof. intros [_ _ _ Hr Ha]. by apply load_same. Qed.

(** One binding of the loop moved from [x] to the role [to]. *)
Definition moved (to : RoleRef) (x : Binding) st st' : Prop :=
  (∀ y, bound st y → b_ID y ≠ b_ID x → bound st' y) ∧
  (∀ y, bound st' y → (bound st y ∧ b_ID y ≠ b_ID x) ∨ b_Role y = to) ∧
  ∃ y, bound st' y ∧ b_Subject y = b_Subject x ∧ b_Scope y = b_Scope x ∧ b_Role y = to.

Lemma checkRebind_same ctx x to w r w' : checkRebind (St := St) b ctx x to w = (r, w') → w' = w.
Proof.
  unfold checkRebind, checked_, mbind, stM_bind. destruct (b_BindingCheck b _ _ (newBinding _ _ _)); [by intros [= _ <-]|]. cbn.
  destruct (b_BindingCheck b _ _ x); by intros [= _ <-].
Qed.

(** The first half: the new binding is made, or it is there already. *)
Lemma bindAnew_spec st0 p ctx x w r w' :
  inside st0 p w → PrincipalFrom ctx = Some p → bindAnew b ctx x w = (r, w') →
  steady e st0 w' ∧ coherent e w' ∧
  (r = Ok () →
    (b_Subject x ≠ pr_Subject p ∧ ∃ saved, StoreBind (pr_Subject p) x (w_store w) = (Ok saved, w_store w')) ∨
    w_store w' = w_store w ∧ ∃ err w1, Bind a ctx x w = (Err err, w1) ∧ isDuplicate err = true).
Proof.
  intros Hin Hp. destruct Hb as [Hba _ _ _]. unfold bindAnew. destruct (Bind a ctx x w) as [r1 w1] eqn:E.
  pose proof (inside_load _ _ _ Hin) as Hl. destruct Hin as [Hc Hs Hi Hr Ha].
  assert (coherent (a_e a) w ∧ steady (a_e a) st0 w ∧ load (a_e a) (w_store w) (pr_Subject p) = load (a_e a) st0 (pr_Subject p))
    as (Hc' & Hs' & Hl') by by rewrite Hba.
  destruct (writes_Bind a st0 p ctx x Hp _ _ _ Hl' Hc' Hs' E) as [Hs1 Hsame].
  destruct (safe_Bind a ctx x _ w r1 w1 eq_refl Hc' Hi E) as [_ Hc1]. rewrite Hba in Hs1, Hc1.
  destruct r1 as [saved|err]; [intros [= <- <-]|destruct (errors_Is err ErrDuplicateBinding) eqn:Ed; intros [= <- <-]].
  - split; [done|]. split; [done|]. intros _. left.
    destruct (Bind_Ok_inv a _ _ _ _ _ Hc' E) as (p' & role & w2 & Hp' & Hne & _ & _ & _ & _ & _ & Hst). simplify_eq. eauto.
  - split; [done|]. split; [done|]. intros _. right. split; [by apply Hsame|]. eauto.
  - done.
Qed.

Lemma inside_bind st0 p x w w' saved :
  inside st0 p w → b_Subject x ≠ pr_Subject p → StoreBind (pr_Subject p) x (w_store w) = (Ok saved, w_store w') →
  steady e st0 w' → coherent e w' → inside st0 p w'.
Proof.
  intros [Hc Hs Hi Hr Ha] Hne Hst Hs' Hc'. destruct (law_bind _ _ _ _ _ Hi Hst) as (Hi' & _ & _ & _ & _ & Hoth & Hr').
  split; [done..| |]; [intros id; by rewrite Hr'|]. by rewrite Hoth.
Qed.

Lemma inside_same st0 p w w' : inside st0 p w → w_store w' = w_store w → steady e st0 w' → coherent e w' → inside st0 p w'.
Proof. intros [Hc Hs Hi Hr Ha] Hst Hs' Hc'. by split; rewrite ?Hst. Qed.

(** A lookup by the reference of a custom or of a predefined role. *)
Lemma lookup_custom st rid : lookupRole e st (mkRoleRef rid "") = StoreRole st rid.
Proof. unfold lookupRole. cbn. by rewrite decide_False by auto. Qed.

Lemma lookup_predefined st to o : ref_Key to ≠ "" → e_roles e !! ref_Key to = Some o → lookupRole e st to = Ok o.
Proof. intros Hk Ho. unfold lookupRole. by rewrite decide_True, Ho. Qed.

(** The new binding is there after the first half, if the second half passes. *)
Lemma new_binding st0 p ctx x to rid rr o w w1 w' :
  inside st0 p w → PrincipalFrom ctx = Some p → bound (w_store w) x → b_Role x = mkRoleRef rid "" → StoreRole st0 rid = Ok rr →
  ref_Key to ≠ "" → e_roles e !! ref_Key to = Some o →
  bindAnew b ctx (newBinding (b_Subject x) to (b_Scope x)) w = (Ok (), w1) → Unbind a ctx (b_ID x) w1 = (Ok (), w') →
  inside st0 p w1 ∧ b_Subject x ≠ pr_Subject p ∧ (∀ y, bound (w_store w) y → bound (w_store w1) y) ∧
  (∀ y, bound (w_store w1) y → bound (w_store w) y ∨ b_Role y = to) ∧
  ∃ y, bound (w_store w1) y ∧ b_Subject y = b_Subject x ∧ b_Scope y = b_Scope x ∧ b_Role y = to.
Proof.
  intros Hin Hp Hx Hrole Hrr Hkey Ho E1 E2. pose proof Hb as [Hba _ _ _].
  destruct (bindAnew_spec _ _ _ _ _ _ _ Hin Hp E1) as (Hs1 & Hc1 & Hfirst).
  destruct (Hfirst eq_refl) as [(Hne & saved & Hst)|(Hsame & err & w2 & Eb & Hd)].
  - pose proof (inside_bind _ _ _ _ _ _ Hin Hne Hst Hs1 Hc1) as Hin1.
    destruct (law_bind _ _ _ _ _ (in_inv _ _ _ Hin) Hst) as (_ & Hsub & Hro & Hsc & _).
    pose proof (λ y, bound_bind _ _ _ _ _ y (in_inv _ _ _ Hin) Hst) as Hbd. cbn in *.
    split_and!; [done..|intros y Hy; apply Hbd; by left|intros y [?| ->]%Hbd; auto|].
    exists saved. split; [apply Hbd; by right|]. done.
  - pose proof (inside_same _ _ _ _ Hin Hsame Hs1 Hc1) as Hin1.
    assert (coherent (a_e a) w ∧ coherent (a_e a) w1) as [Hc' Hc1'] by (rewrite Hba; split; [apply Hin|done]).
    destruct (Unbind_checked a _ _ _ _ Hc1' E2) as (p' & x' & Hp' & Hx' & Hreq & Hcan & _). simplify_eq.
    rewrite Hsame, (bound_stored _ _ (in_inv _ _ _ Hin) Hx) in Hx'. injection Hx' as <-.
    destruct (Hcan rr) as (w3 & w4 & Hs3 & Hc3 & Hcb).
    { rewrite Hba, Hrole, lookup_custom, Hsame. by rewrite (in_roles _ _ _ Hin). }
    destruct (CanBind_Ok _ _ _ _ _ _ _ Hc3 Hcb) as (chain & eff & Hch & Hl & _).
    rewrite (RequireOn_det a _ _ _ _ w Hc1' Hc' Hsame) in Hreq. rewrite Hs3, Hsame in Hl.
    destruct (Bind_duplicate a _ _ _ _ _ _ o chain eff Hc' Eb Hd Hp Hreq) as (Hne & err0 & st' & Hst & Hd0);
      [by rewrite Hba; apply lookup_predefined|done..|].
    destruct (law_duplicate _ _ _ _ _ (in_inv _ _ _ Hin) Hst Hd0) as (y & Hy & Hsub & Hro & Hsc).
    rewrite Hsame. split_and!; [done..|naive_solver|]. exists y. done.
Qed.

(** A step that ends the second half: the old binding is gone. *)
Lemma rebind_one st0 p ctx x to rid rr o w r w' :
  inside st0 p w → PrincipalFrom ctx = Some p →
  bound (w_store w) x → b_Role x = mkRoleRef rid "" → StoreRole st0 rid = Ok rr → to ≠ mkRoleRef rid "" →
  ref_Key to ≠ "" → e_roles e !! ref_Key to = Some o →
  (_ ← bindAnew b ctx (newBinding (b_Subject x) to (b_Scope x)); Unbind a ctx (b_ID x)) w = (r, w') →
  steady e st0 w' ∧ (r = Ok () → inside st0 p w' ∧ moved to x (w_store w) (w_store w')).
Proof.
  intros Hin Hp Hx Hrole Hrr Hto Hkey Ho H. pose proof Hb as [Hba _ _ _].
  apply stM_bind_inv in H as [([] & w1 & E1 & E2)|(err & E1 & ->)];
    destruct (bindAnew_spec _ _ _ _ _ _ _ Hin Hp E1) as (Hs1 & Hc1 & Hfirst); [|done].
  assert (inside st0 p w1) as Hin1.
  { destruct (Hfirst eq_refl) as [(Hne & saved & Hst)|(Hsame & _)]; [by eapply inside_bind|by eapply inside_same]. }
  pose proof (inside_load _ _ _ Hin1) as Hl1.
  assert (coherent (a_e a) w1 ∧ steady (a_e a) st0 w1 ∧ load (a_e a) (w_store w1) (pr_Subject p) = load (a_e a) st0 (pr_Subject p))
    as (Hc' & Hs' & Hl') by by rewrite Hba.
  destruct (writes_Unbind a st0 p ctx _ Hp _ _ _ Hl' Hc' Hs' E2) as [Hs2 _]. rewrite Hba in Hs2. split; [done|]. intros ->.
  destruct (safe_Unbind a ctx _ _ w1 _ w' eq_refl Hc' (in_inv _ _ _ Hin1) E2) as [Hi2 Hc2]. rewrite Hba in Hc2.
  destruct (new_binding _ _ _ _ _ _ _ _ _ _ _ Hin Hp Hx Hrole Hrr Hkey Ho E1 E2) as (_ & Hne & Hold & Hnew & y & Hy & Hsub & Hsc & Hro).
  destruct (Unbind_Ok_inv a _ _ _ _ Hc' E2) as (p' & x' & Hp' & Hx' & _ & Hu). simplify_eq.
  rewrite (bound_stored _ _ (in_inv _ _ _ Hin1) (Hold _ Hx)) in Hx'. injection Hx' as <-.
  pose proof (λ z, bound_unbind _ _ _ _ z (in_inv _ _ _ Hin1) Hu) as Hbd.
  split.
  - destruct Hin1 as [_ _ Hi1 Hr1 Ha1]. destruct (law_unbind _ _ _ _ Hi1 Hu) as (_ & _ & Hr2). split; [done..| |].
    + intros id. by rewrite Hr2.
    + rewrite <-Ha1. eapply unbind_others; [done|by apply bound_stored, Hold|done..]. 
  - split; [intros z Hz Hid; apply Hbd; auto|]. split.
    + intros z [[Hz|Hz]%Hnew Hid]%Hbd; auto.
    + exists y. split; [|done]. apply Hbd. split; [done|]. intros Hid.
      assert (y = x) as -> by (eapply bound_id; [exact (in_inv _ _ _ Hin1)|done|by apply Hold|done]). congruence.
Qed.

Lemma rebind_loop_spec st0 p ctx to rid rr o bs :
  PrincipalFrom ctx = Some p → StoreRole st0 rid = Ok rr → to ≠ mkRoleRef rid "" → ref_Key to ≠ "" →
  e_roles e !! ref_Key to = Some o → NoDup bs → Forall (λ x, b_Role x = mkRoleRef rid "") bs →
  ∀ w r w', inside st0 p w → (∀ x, x ∈ bs → bound (w_store w) x) → rebind_loop b ctx to bs w = (r, w') →
  steady e st0 w' ∧ ∀ n, r = Ok n → inside st0 p w' ∧ n = Z.of_nat (length bs) ∧
    (∀ y, bound (w_store w) y → y ∉ bs → bound (w_store w') y) ∧
    (∀ y, bound (w_store w') y → (bound (w_store w) y ∧ y ∉ bs) ∨ b_Role y = to) ∧
    (∀ x, x ∈ bs → ∃ y, bound (w_store w') y ∧ b_Subject y = b_Subject x ∧ b_Scope y = b_Scope x ∧ b_Role y = to).
Proof.
  intros Hp Hrr Hto Hkey Ho Hnd Hall. induction bs as [|x bs IH]; intros w r w' Hin Hbs H.
  { injection H as <- <-. split; [apply Hin|]. intros n [= <-]. split; [done|]. split; [done|]. split; [done|].
    split; [intros y Hy; left; split; [done|apply not_elem_of_nil]|]. intros x Hx%elem_of_nil. done. }
  apply list.NoDup_cons in Hnd as [Hx Hnd]. apply list.Forall_cons in Hall as [Hrole Hall]. cbn [rebind_loop] in H.
  apply stM_bind_inv in H as [([] & w1 & E1%checkRebind_same & H)|(err & E1%checkRebind_same & ->)]; subst; [|split; [apply Hin|done]].
  pose proof (λ r w', rebind_one st0 p ctx x to rid rr o w r w' Hin Hp (Hbs x ltac:(left)) Hrole Hrr Hto Hkey Ho) as Hone.
  unfold mbind at 1, stM_bind at 1 in Hone.
  apply stM_bind_inv in H as [([] & w1 & E1 & H)|(err & E1 & ->)]; rewrite E1 in Hone; [|by destruct (Hone _ _ eq_refl)].
  apply stM_bind_inv in H as [([] & w2 & E2 & H)|(err & E2 & ->)]; rewrite E2 in Hone; [|by destruct (Hone _ _ eq_refl)].
  destruct (Hone _ _ eq_refl) as [Hs2 Hok]. destruct (Hok eq_refl) as [Hin2 (Hkeep & Hfrom & y0 & Hy0 & Hy0')].
  assert (∀ y, bound (w_store w) y → b_ID y = b_ID x → y = x) as Hsame.
  { intros y Hy. eapply bound_id; [apply Hin|done|apply Hbs; left]. }
  specialize (IH Hnd Hall w2).
  assert (∀ x', x' ∈ bs → bound (w_store w2) x') as Hrest.
  { intros x' Hx'. apply Hkeep; [apply Hbs; by right|]. intros E. apply Hx. rewrite <-(Hsame x'); [done|apply Hbs; by right|done]. }
  apply stM_bind_inv in H as [(n & w3 & E3 & H)|(err & E3 & ->)]; destruct (IH _ _ Hin2 Hrest E3) as [Hs3 Hn]; [|done].
  injection H as <- <-. split; [done|]. intros m [= <-]. destruct (Hn n eq_refl) as (Hin3 & -> & Hk3 & Hf3 & Hr3).
  split; [done|]. split; [cbn; lia|]. split; [|split].
  - intros y Hy [Hyx Hyb]%not_elem_of_cons. apply Hk3; [|done]. apply Hkeep; [done|]. intros E. by apply Hyx, Hsame.
  - intros y [[[[Hy Hid]|Hy]%Hfrom Hyb]|Hy]%Hf3; [left; split; [done|]|by right..]. apply not_elem_of_cons. split; [congruence|done].
  - intros x' [->|Hx']%elem_of_cons; [|by apply Hr3]. exists y0. split; [|done]. apply Hk3; [done|]. intros Hin0.
    rewrite list.Forall_forall in Hall. apply Hall in Hin0. destruct Hy0' as (_ & _ & Hro). congruence.
Qed.

(** A custom role is a stored one. *)
Lemma custom_stored w ref r w' :
  store_inv (w_store w) → custom b ref w = (Ok r, w') → w' = w ∧ StoreRole (w_store w) (r_ID r) = Ok r ∧ (0 < r_ID r)%Z ∧ r_Key r = "".
Proof.
  intros Hi. unfold custom, role. destruct (Str.Atoi ref) as [id|].
  - unfold mbind, stM_bind, map_err, read_store. destruct (StoreRole (w_store w) id) as [x|] eqn:E; [|done].
    unfold Predefined. case_bool_decide as Hk; [done|]. intros [= <- <-]. rewrite (law_role_id _ _ _ Hi E).
    split; [done|]. split; [done|]. split; [by eapply law_positive|]. done.
  - unfold mbind, stM_bind, lift, predefined, PredefinedRole. destruct (e_roles e !! ref) as [x|] eqn:E; [|done].
    destruct (installed_roles _ _ _ Hinst E) as (Hk & Hne & _). unfold Predefined. by rewrite bool_decide_eq_true_2 by congruence.
Qed.

Lemma transaction_spec {A} st0 p (fn : stM (World St) error A) (P : A → World St → Prop) w r w' :
  w_store w = st0 → inside st0 p w →
  (∀ r1 w1, fn w = (r1, w1) → steady e st0 w1 ∧ ∀ x, r1 = Ok x → inside st0 p w1 ∧ P x w1) →
  WithinTransaction b fn w = (r, w') →
  (is_ok r = false → w_store w' = st0) ∧ coherent e w' ∧ store_inv (w_store w') ∧ ∀ x, r = Ok x → inside st0 p w' ∧ P x w'.
Proof.
  intros Hst Hin Hfn. pose proof (in_inv _ _ _ Hin) as Hi. rewrite Hst in Hi. unfold WithinTransaction.
  destruct (tx_begin _); [intros [= <- <-]; split_and!; [done|apply Hin|apply Hin|done]|].
  destruct (fn w) as [[x|err] w1]; destruct (Hfn _ _ eq_refl) as [Hs Hok]; rewrite Hst.
  - destruct (Hok x eq_refl) as [Hin1 HP]. destruct (tx_commit _); intros [= <- <-]; cbn; [done|].
    split_and!; [done|apply Hin1|apply Hin1|by intros ? [= <-]].
  - intros [= <- <-]. done.
Qed.

Lemma evicts_coherent st c (s : list Binding) :
  coherent e (mkWorld st c) → coherent e (mkWorld st (foldl (λ c x, Evict c (b_Subject x)) c s)).
Proof. revert c. induction s as [|x l IH]; intros c Hc; [done|]. cbn. apply IH. by eapply (evict_coherent e st st). Qed.

(** The references of the bindings of a custom role. *)
Lemma custom_refs st rid bs :
  store_inv st → (0 < rid)%Z → StoreBindingsForRole st rid = Ok bs → (∀ x, bound st x → ref_Valid (b_Role x) = true) →
  NoDup bs ∧ (∀ x, x ∈ bs ↔ bound st x ∧ ref_ID (b_Role x) = rid) ∧ Forall (λ x, b_Role x = mkRoleRef rid "") bs.
Proof.
  intros Hi Hpos Hbs Hv. destruct (law_forRole st rid Hi) as (bs' & Hbs' & Hnd & Hiff). rewrite Hbs in Hbs'. injection Hbs' as <-.
  split; [done|]. split; [done|]. apply list.Forall_forall. intros x [Hx Hid]%Hiff. specialize (Hv x Hx). unfold ref_Valid in Hv.
  rewrite Hid, (proj2 (Z.ltb_lt _ _) Hpos) in Hv. case_bool_decide as Hk; [done|].
  destruct (b_Role x) as [i k]. cbn in *. by subst.
Qed.

(** What [Replace] leaves, both ways. *)
Lemma Replace_spec ctx ref other w r w' :
  coherent e w → store_inv (w_store w) → (∀ x, bound (w_store w) x → ref_Valid (b_Role x) = true) →
  Roles_Replace b ctx ref other w = (r, w') →
  coherent e w' ∧ store_inv (w_store w') ∧
  match r with
  | Err _ => w_store w' = w_store w
  | Ok n =>
      ∃ rid rr bs, StoreRole (w_store w) rid = Ok rr ∧ StoreBindingsForRole (w_store w) rid = Ok bs ∧ n = Z.of_nat (length bs) ∧
        StoreBindingsForRole (w_store w') rid = Ok [] ∧
        (∀ x, x ∈ bs → ∃ y, bound (w_store w') y ∧ b_Subject y = b_Subject x ∧ b_Scope y = b_Scope x ∧ b_Role y = mkRoleRef 0 other) ∧
        (∀ y, bound (w_store w) y → y ∉ bs → bound (w_store w') y) ∧
        (∀ y, bound (w_store w') y → bound (w_store w) y ∨ b_Role y = mkRoleRef 0 other) ∧
        (∀ id, StoreRole (w_store w') id = StoreRole (w_store w) id)
  end.
Proof.
  intros Hc Hi Hv H. unfold Roles_Replace in H.
  apply (quiet_step e) in H as [(rr & w1 & E1 & Hs1 & Hc1 & H)|(err & _ & -> & Hs1 & Hc1)]; [..|solve_quiet|done];
    [|by rewrite Hs1].
  destruct (custom_stored _ _ _ _ Hi E1) as (-> & Hrr & Hpos & _). clear E1 Hs1 Hc1.
  apply (quiet_step e) in H as [(o & w1 & E2 & Hs1 & Hc1 & H)|(err & _ & -> & Hs1 & Hc1)]; [..|solve_quiet|done];
    [|by rewrite Hs1].
  unfold lift, predefined, PredefinedRole in E2. destruct (e_roles e !! other) as [o'|] eqn:Eo; [|done]. injection E2 as -> <-.
  destruct (installed_roles _ _ _ Hinst Eo) as (Hok & Hother & Hoid & _).
  apply (quiet_step e) in H as [([] & w1 & E3 & Hs3 & Hc3 & H)|(err & _ & -> & Hs3 & Hc3)]; [..|solve_quiet|done];
    [|by rewrite Hs3].
  assert (∃ p, PrincipalFrom ctx = Some p) as [p Hp].
  { destruct (prepared_inv e _ _ _ _ _ Hc (f_equal fst E3)) as (p & _ & _ & _ & ? & _). eauto. }
  apply (quiet_step e) in H as [(bs & w2 & E4 & Hs4 & Hc4 & H)|(err & _ & -> & Hs4 & Hc4)]; [..|solve_quiet|done];
    [|by rewrite Hs4, Hs3].
  unfold bindingsOfRole, map_err, read_store in E4. rewrite Hs3 in E4.
  destruct (StoreBindingsForRole (w_store w) (r_ID rr)) as [bs'|] eqn:Ebs; [|done]. injection E4 as -> <-.
  destruct (custom_refs _ _ _ Hi Hpos Ebs Hv) as (Hnd & Hiff & Hall). clear Hs4 Hc4.
  assert (inside (w_store w) p w1) as Hin by (split; rewrite ?Hs3; try done; unfold steady; rewrite <-Hs3; by destruct w1).
  assert (Ref o = mkRoleRef 0 other) as Href by (unfold Ref; by rewrite Hoid, Hok).
  pose proof (rebind_loop_spec (w_store w) p ctx (Ref o) (r_ID rr) rr o bs Hp Hrr) as Hloop. rewrite Href in Hloop.
  specialize (Hloop ltac:(congruence) Hother Eo Hnd Hall w1). rewrite Hs3 in Hloop.
  specialize (λ r w', Hloop r w' Hin (λ x Hx, proj1 (proj1 (Hiff x) Hx))).
  rewrite Href in H.
  apply stM_bind_inv in H as [(n & w3 & E5 & H)|(err & E5 & ->)];
    destruct (transaction_spec _ p _ _ _ _ _ Hs3 Hin Hloop E5) as (Herr & Hc5 & Hi5 & Hok5); [|by rewrite Herr].
  destruct (Hok5 n eq_refl) as (Hin5 & -> & Hkeep & Hfrom & Hnew). unfold mbind, stM_bind, evict, modify, mret, stM_ret in H.
  injection H as <- <-. cbn [w_store w_cache]. split; [|split; [done|]].
  - apply evicts_coherent. eapply (evictRole_coherent e (w_store w3) (w_store w3)); [|done..]. by destruct w3.
  - exists (r_ID rr), rr, bs. split_and!; [done..| |done|done|intros y Hy; destruct (Hfrom y Hy) as [[? _]|?]; auto|apply Hin5].
    destruct (law_forRole (w_store w3) (r_ID rr) Hi5) as (l & Hl & _ & Hliff). rewrite Hl. f_equal.
    destruct l as [|y l]; [done|]. exfalso. destruct (proj1 (Hliff y) ltac:(left)) as [Hy Hid].
    destruct (Hfrom y Hy) as [[Hold Hn]|Hro]; [by apply Hn, Hiff|]. rewrite Hro in Hid. cbn in Hid. lia.
Qed.
End Replace.

(** ** Every call keeps the store and the cache sound *)

(** What holds between calls: the cache is right, the store is sound, and every
    stored binding refers to exactly one role. *)
Record sound {St} `{!Store St} `{!StoreLaws St} (e : Engine) (w : World St) : Prop := {
  so_coherent : coherent e w;
  so_inv : store_inv (w_store w);
  so_refs : ∀ x, bound (w_store w) x → ref_Valid (b_Role x) = true
}.

Section Sound.
Context {St : Type} `{!Store St} `{!HolderStore St} `{!StoreLaws St} `{!HolderLaws St} (e : Engine).
Notation M := (stM (World St) error).

Definition keeps_sound {A} (m : M A) : Prop := ∀ w r w', sound e w → m w = (r, w') → sound e w'.

Lemma keeps_quiet {A} (m : M A) : quiet e m → keeps_sound m.
Proof. intros Hm w r w' [Hc Hi Hv] E. destruct (Hm _ _ _ Hc E) as [Hs Hc']. by split; rewrite ?Hs. Qed.

Lemma keeps_world_bind {A B} (m : M A) (f : A → M B) : keeps_sound m → (∀ x, keeps_sound (f x)) → keeps_sound (m ≫= f).
Proof.
  intros Hm Hf w r w' Hw [(x & w1 & E1 & E2)|(err & E1 & ->)]%stM_bind_inv; [|by eapply Hm].
  eapply Hf; [|done]. by eapply Hm.
Qed.

Lemma keeps_map_err {A} f (m : M A) : keeps_sound m → keeps_sound (map_err f m).
Proof. intros Hm w r w' Hw. unfold map_err. destruct (m w) as [[x|err] w1] eqn:E; intros [= _ <-]; by eapply Hm. Qed.

(** A computation that fails before it wrote anything, or because the write failed. *)
Definition fails_clean {A} (m : M A) : Prop := ∀ w err w', coherent e w → m w = (Err err, w') → w_store w' = w_store w.

Lemma clean_bind {A B} (m : M A) (f : A → M B) : quiet e m → (∀ x, fails_clean (f x)) → fails_clean (m ≫= f).
Proof.
  intros Hm Hf w err w' Hc [(x & w1 & E & Hs & Hc1 & H)|(err' & _ & _ & Hs & _)]%(quiet_step e); [..|done|done]; [|done].
  rewrite <-Hs. by eapply Hf.
Qed.

Lemma clean_write {A B} f (m : stM St error A) (g : A → Cache → Cache) (k : A → B) :
  (∀ st st' err, m st = (Err err, st') → st' = st) →
  fails_clean (x ← map_err f (on_store m); _ ← evict (g x); mret (k x)).
Proof.
  intros Herr [st c] err w' Hc. unfold map_err, on_store, mbind, stM_bind, evict, modify. cbn.
  destruct (m st) as [[x|err0] st'] eqn:Em; cbn; intros; simplify_eq. cbn. by eapply Herr.
Qed.

Lemma clean_write_unit f (m : stM St error ()) (g : Cache → Cache) :
  (∀ st st' err, m st = (Err err, st') → st' = st) → fails_clean (_ ← map_err f (on_store m); evict g).
Proof.
  intros Herr [st c] err w' Hc. unfold map_err, on_store, mbind, stM_bind, evict, modify. cbn.
  destruct (m st) as [[[]|err0] st'] eqn:Em; cbn; intros; simplify_eq. cbn. by eapply Herr.
Qed.

Lemma clean_throw {A} err : fails_clean (throw (A := A) err).
Proof. by intros w err' w' _ [= _ <-]. Qed.
End Sound.

Ltac clean_prefix := repeat (apply clean_bind; [solve [solve_quiet]|intros ?]).

Section Delegated.
Context {St : Type} `{!Store St} `{!HolderStore St} `{!StoreLaws St} `{!HolderLaws St} (a : Admin).
Notation e := (a_e a).

Lemma clean_SaveRole ctx r : fails_clean e (SaveRole (St := St) a ctx r).
Proof.
  unfold SaveRole. clean_prefix. apply (clean_write e storeErr _ (λ x c, EvictRole c (r_ID x)) id).
  intros st st' err. apply law_saveRole_err.
Qed.

Lemma clean_Bind ctx x : fails_clean e (Bind (St := St) a ctx x).
Proof.
  unfold Bind. apply clean_bind; [solve_quiet|intros p]. destruct (_ || _); [apply clean_throw|].
  destruct (CheckScope _ _); [|apply clean_throw]. destruct (decide _); [apply clean_throw|]. clean_prefix.
  apply (clean_write e storeErr _ (λ _ c, Evict c (b_Subject x)) id). intros st st' err. apply law_bind_err.
Qed.

Lemma clean_Unbind ctx id : fails_clean e (Unbind (St := St) a ctx id).
Proof. unfold Unbind. clean_prefix. apply clean_write_unit. intros st st' err. apply law_unbind_err. Qed.

Lemma sound_SaveRole ctx r : keeps_sound e (SaveRole (St := St) a ctx r).
Proof.
  intros w o w' [Hc Hi Hv] E. destruct (safe_SaveRole a ctx r _ w o w' eq_refl Hc Hi E) as [Hi' Hc']. split; [done..|].
  destruct o as [saved|err]; [|by rewrite (clean_SaveRole _ _ _ _ _ Hc E)].
  destruct (SaveRole_Ok_inv a _ _ _ _ _ Hc E) as (p & _ & _ & _ & _ & _ & _ & _ & Hs).
  destruct (law_saveRole _ _ _ _ _ Hi Hs) as (_ & _ & _ & _ & _ & _ & Hbs). intros x (bs & Hx & ?). apply Hv. exists bs. by rewrite <-Hbs.
Qed.

Lemma sound_Bind ctx x : keeps_sound e (Bind (St := St) a ctx x).
Proof.
  intros w o w' [Hc Hi Hv] E. destruct (safe_Bind a ctx x _ w o w' eq_refl Hc Hi E) as [Hi' Hc']. split; [done..|].
  destruct o as [saved|err]; [|by rewrite (clean_Bind _ _ _ _ _ Hc E)].
  destruct (Bind_Ok_inv a _ _ _ _ _ Hc E) as (p & _ & _ & _ & _ & Hval & _ & _ & _ & _ & Hs).
  destruct (law_bind _ _ _ _ _ Hi Hs) as (_ & _ & Hro & _). intros y [?| ->]%(bound_bind _ _ _ _ _ _ Hi Hs); [auto|by rewrite Hro].
Qed.

Lemma sound_Unbind ctx id : keeps_sound e (Unbind (St := St) a ctx id).
Proof.
  intros w o w' [Hc Hi Hv] E. destruct (safe_Unbind a ctx id _ w o w' eq_refl Hc Hi E) as [Hi' Hc']. split; [done..|].
  destruct o as [[]|err]; [|by rewrite (clean_Unbind _ _ _ _ _ Hc E)].
  destruct (Unbind_Ok_inv a _ _ _ _ Hc E) as (p & _ & _ & _ & _ & Hs). intros y [? _]%(bound_unbind _ _ _ _ _ Hi Hs). auto.
Qed.
End Delegated.

(** The calls of the two services. *)
Inductive call : Type :=
| CallList | CallShow (ref : string) | CallHolders (ref : string) | CallCreate (d : RoleDraft) | CallUpdate (ref : string) (d : RoleDraft)
| CallDelete (ref : string) | CallCompare (ref other : string) | CallReplace (ref other : string)
| CallAccess (s : Subject) | CallMine | CallBind (s : Subject) (d : BindingDraft) | CallUnbind (s : Subject) (id : Z)
| CallScopes (s : Subject) | CallBindableRoles (kind : Kind) (scope : Scope).

Section Calls.
Context {St : Type} `{!Store St} `{!HolderStore St}.

(** The world after a call of somebody, whatever it answered. *)
Definition perform (b : base) (ctx : context) (c : call) (w : World St) : World St :=
  match c with
  | CallList => (Roles_List b ctx w).2
  | CallShow ref => (Roles_Show b ctx ref w).2
  | CallHolders ref => (Roles_Holders b ctx ref w).2
  | CallCreate d => (Roles_Create b ctx d w).2
  | CallUpdate ref d => (Roles_Update b ctx ref d w).2
  | CallDelete ref => (Roles_Delete b ctx ref w).2
  | CallCompare ref other => (Roles_Compare b ctx ref other w).2
  | CallReplace ref other => (Roles_Replace b ctx ref other w).2
  | CallAccess s => (Bindings_Access b ctx s w).2
  | CallMine => (Bindings_Mine b ctx w).2
  | CallBind s d => (Bindings_Bind b ctx s d w).2
  | CallUnbind s id => (Bindings_Unbind b ctx s id w).2
  | CallScopes s => (Bindings_Scopes b ctx s w).2
  | CallBindableRoles kind scope => (BindableRolesFor b ctx kind scope w).2
  end.

(** Calls one after another, each with the application's answers of its moment. *)
Definition performs (calls : list (base * context * call)) (w : World St) : World St :=
  foldl (λ w '(b, ctx, c), perform b ctx c w) w calls.

Context `{!StoreLaws St} `{!HolderLaws St}.
Variable b : base.
Hypothesis Hinst : installed b.
Notation e := (b_Engine b).

Lemma sound_delegate {A} a (m : stM (World St) error A) : a_e a = e → keeps_sound (a_e a) m → keeps_sound e m.
Proof. by intros ->. Qed.

Lemma sound_of_gate kind guard : gateOf b kind = Ok guard → a_e (gt_delegation guard) = e.
Proof.
  destruct (installed_ok _ Hinst) as [Hd Hs _ _]. unfold gateOf. repeat case_match; intros; simplify_eq; auto.
Qed.

Ltac sound_prefix := repeat (apply keeps_world_bind; [solve [apply keeps_quiet; solve_quiet]|intros ?]).

Lemma sound_saveRole ctx r : keeps_sound e (saveRole (St := St) b ctx r).
Proof.
  unfold saveRole. sound_prefix. case_match; [|apply keeps_quiet; solve_quiet].
  apply keeps_world_bind; [|intros; apply keeps_quiet; solve_quiet].
  apply (sound_delegate (b_delegation b)); [apply (installed_ok _ Hinst)|apply sound_SaveRole].
Qed.

Lemma sound_Delete ctx ref : keeps_sound e (Roles_Delete (St := St) b ctx ref).
Proof.
  unfold Roles_Delete. sound_prefix. destruct (_ <? _)%nat; [apply keeps_quiet; solve_quiet|].
  intros [st c] o w' [Hc Hi Hv]. cbn in *. unfold map_err, on_store, mbind, stM_bind, evict, modify. cbn.
  destruct (StoreDeleteRole _ _ _) as [[[]|err] st'] eqn:E; intros [= _ <-]; cbn.
  - destruct (law_deleteRole _ _ _ _ Hi E) as (Hi' & _ & _ & Hr & Hb). split; cbn; [by eapply evictRole_coherent|done|].
    intros y (bs & Hy & ?). apply Hv. exists bs. by rewrite <-Hb.
  - rewrite (law_deleteRole_err _ _ _ _ _ E). by split.
Qed.

Lemma sound_Replace ctx ref other : keeps_sound e (Roles_Replace (St := St) b ctx ref other).
Proof.
  intros w r w' [Hc Hi Hv] E. destruct (Replace_spec b Hinst _ _ _ _ _ _ Hc Hi Hv E) as (Hc' & Hi' & Hr). split; [done..|].
  destruct r as [n|err]; [|by rewrite Hr]. destruct Hr as (rid & rr & bs & _ & _ & _ & _ & _ & _ & Hfrom & _).
  intros x [?| ->]%Hfrom; [auto|]. unfold Roles_Replace in E.
  apply stM_bind_Ok in E as (r & w1 & _ & E). apply stM_bind_Ok in E as (o & w2 & [Eo _]%lift_Ok & _).
  unfold predefined, PredefinedRole in Eo. destruct (e_roles e !! other) eqn:E; [|done].
  destruct (installed_roles _ _ _ Hinst E) as (_ & Hne & _). unfold ref_Valid. cbn. by rewrite bool_decide_eq_true_2.
Qed.

(** A part of a call may rely on what an earlier part answered. *)
Lemma keeps_world_lift {A B} (o : result A) (f : A → stM (World St) error B) :
  (∀ x, o = Ok x → keeps_sound e (f x)) → keeps_sound e (lift o ≫= f).
Proof. intros Hf w r w' Hw. unfold mbind, stM_bind, lift. destruct o as [x|err]; [by eapply Hf|by intros [= _ <-]]. Qed.

Lemma sound_BindingsBind ctx s d : keeps_sound e (Bindings_Bind (St := St) b ctx s d).
Proof.
  unfold Bindings_Bind. apply keeps_world_lift. intros guard Hg%sound_of_gate. sound_prefix.
  apply keeps_world_bind; [by apply (sound_delegate (gt_delegation guard)), sound_Bind|intros saved].
  apply keeps_quiet. solve_quiet.
Qed.

Lemma sound_BindingsUnbind ctx s id : keeps_sound e (Bindings_Unbind (St := St) b ctx s id).
Proof.
  unfold Bindings_Unbind. apply keeps_world_lift. intros guard Hg%sound_of_gate. sound_prefix. case_match; [apply keeps_quiet; solve_quiet|].
  sound_prefix. apply keeps_map_err. by apply (sound_delegate (gt_delegation guard)), sound_Unbind.
Qed.

Lemma sound_perform ctx c (w : World St) : sound e w → sound e (perform b ctx c w).
Proof.
  intros Hw.
  assert (∀ A (m : stM (World St) error A), keeps_sound e m → sound e (m w).2) as Hk.
  { intros A m Hm. destruct (m w) as [r w'] eqn:E. by eapply Hm. }
  destruct c; cbn; apply Hk; try (by apply keeps_quiet; auto with quiet).
  - apply sound_saveRole.
  - unfold Roles_Update. apply keeps_world_bind; [apply keeps_quiet; solve_quiet|intros r; apply sound_saveRole].
  - apply sound_Delete.
  - apply sound_Replace.
  - apply sound_BindingsBind.
  - apply sound_BindingsUnbind.
Qed.
End Calls.

(** ** What is offered is what is accepted *)

Section Offered.
Context {St : Type} `{!Store St} `{!HolderStore St} `{!StoreLaws St} `{!HolderLaws St}.
Variable b : base.
Hypothesis Hinst : installed b.
Notation e := (b_Engine b).
Implicit Types w : World St.

(** A role the services know: defined in code or stored. *)
Definition known (st : St) (r : Role) : Prop :=
  e_roles e !! r_Key r = Some r ∨ r_Key r = "" ∧ StoreRole st (r_ID r) = Ok r.

Lemma known_lookup st r : store_inv st → known st r → lookupRole e st (Ref r) = Ok r ∧ ref_Valid (Ref r) = true.
Proof.
  intros Hi [Hr|[Hk Hr]]; unfold lookupRole, ref_Valid, Ref; cbn.
  - destruct (installed_roles _ _ _ Hinst Hr) as (_ & Hne & Hid & _). rewrite decide_True, Hr, bool_decide_eq_true_2, Hid by done. done.
  - rewrite Hk, decide_False, bool_decide_eq_false_2 by auto. split; [done|]. by rewrite (proj2 (Z.ltb_lt _ _) (law_positive _ _ _ Hi Hr)).
Qed.

Lemma fmt_d_inj m n : (0 < m)%Z → (0 < n)%Z → Str.fmt_d m = Str.fmt_d n → m = n.
Proof.
  intros Hm Hn H. unfold Str.fmt_d in H. rewrite !(proj2 (Z.ltb_ge _ _)) in H by lia.
  apply (f_equal (λ s, Str.digits_value 0 (s +:+ ""))) in H. by rewrite !Str.digits_value_digits in H by lia.
Qed.

Lemma word_not_number key n : word_match key = true → (0 < n)%Z → key ≠ Str.fmt_d n.
Proof.
  intros Hw Hn ->. unfold Str.fmt_d in Hw. rewrite (proj2 (Z.ltb_ge _ _)) in Hw by lia. pose proof (Str.digits_digits n) as Hd.
  destruct (Str.digits n) as [|c t]; [done|]. cbn in Hw, Hd. apply andb_true_iff in Hw as [Hl _]. apply andb_true_iff in Hd as [Hdg _].
  unfold Str.is_lower, Str.is_digit in *. lia.
Qed.

Lemma RefOf_inj st r r' : store_inv st → known st r → known st r' → RefOf r = RefOf r' → r = r'.
Proof.
  intros Hi H H' E. unfold RefOf, Predefined in E.
  assert (∀ x, e_roles e !! r_Key x = Some x → r_Key x ≠ "" ∧ word_match (r_Key x) = true) as Hcode.
  { intros x Hx. destruct (installed_roles _ _ _ Hinst Hx) as (_ & Hne & _ & Hv). split; [done|]. by apply (vr_key _ _ Hv). }
  destruct H as [Hr|[Hk Hr]], H' as [Hr'|[Hk' Hr']].
  - rewrite !bool_decide_eq_true_2 in E by (by apply Hcode). congruence.
  - destruct (Hcode _ Hr) as [Hne Hw]. rewrite bool_decide_eq_true_2, bool_decide_eq_false_2 in E by auto.
    by destruct (word_not_number _ _ Hw (law_positive _ _ _ Hi Hr')).
  - destruct (Hcode _ Hr') as [Hne Hw]. rewrite bool_decide_eq_false_2, bool_decide_eq_true_2 in E by auto.
    by destruct (word_not_number _ _ Hw (law_positive _ _ _ Hi Hr)).
  - rewrite !bool_decide_eq_false_2 in E by auto. apply fmt_d_inj in E; [|by eapply law_positive..]. rewrite E in Hr. congruence.
Qed.

Lemma CanBind_det p r scope mb w w' :
  coherent e w → coherent e w' → w_store w = w_store w' → (CanBind e p r scope mb w).1 = (CanBind e p r scope mb w').1.
Proof.
  intros Hc Hc' Hs. unfold CanBind. destruct (ValidateRole _ _); [|done]. destruct (ChainOf _ _ _ _); [|done].
  destruct (if IsRoot (e_h e) scope then _ else _); [|done]. unfold mbind, stM_bind.
  destruct (EffectiveOf e _ w) as [o w1] eqn:E. destruct (EffectiveOf e _ w') as [o' w1'] eqn:E'.
  apply EffectiveOf_spec in E as (-> & _); [|done]. apply EffectiveOf_spec in E' as (-> & _); [|done]. rewrite Hs.
  destruct (load _ _ _) as [eff|]; [|done]. by destruct (holdsWithin _ _ _).
Qed.

Definition accepts p r scope mb w : bool := is_ok (CanBind (St := St) e p r scope mb w).1.

Lemma bindable_loop_spec ctx p scope mb counts roles w views w' :
  coherent e w → bindable_loop b ctx p scope mb counts roles w = (Ok views, w') →
  views = (λ r, viewOf r (e_cat e) (Of counts (Ref r)) true) <$> List.filter (λ r, accepts p r scope mb w) roles.
Proof.
  revert w views. induction roles as [|r roles IH]; intros w views Hc; cbn [bindable_loop]; [by intros [= <- _]|].
  intros (ok & w1 & E & H)%stM_bind_Ok. apply stM_bind_Ok in H as (more & w2 & E2 & [= <- <-]).
  destruct (quiet_succeeds b _ (quiet_CanBind e p r scope mb) _ _ _ Hc E) as [Hs Hc1].
  rewrite (IH _ _ Hc1 E2).
  assert (List.filter (λ r, accepts p r scope mb w1) roles = List.filter (λ r, accepts p r scope mb w) roles) as ->.
  { apply filter_ext. intros x. unfold accepts. by rewrite (CanBind_det p x scope mb w1 w). }
  assert (accepts p r scope mb w = ok) as Hok.
  { unfold accepts. unfold succeeds in E. destruct (CanBind e p r scope mb w) as [o w3]. by injection E as <- _. }
  cbn. rewrite Hok. by destruct ok.
Qed.

Lemma PredefinedRoles_installed r : r ∈ PredefinedRoles e ↔ e_roles e !! r_Key r = Some r.
Proof.
  unfold PredefinedRoles. rewrite list_elem_of_omap. split.
  - intros (k & _ & Hk). by destruct (installed_roles _ _ _ Hinst Hk) as [-> _].
  - intros Hr. exists (r_Key r). split; [|done]. apply elem_of_sorted_keys. eauto.
Qed.

(** What [Bind] answers, from what [RequireOn] and [CanBind] do. *)
Lemma Bind_result a ctx x w p r :
  a_e a = e → coherent e w → PrincipalFrom ctx = Some p → sub_Valid (b_Subject x) = true → ref_Valid (b_Role x) = true →
  CheckScope (e_h e) (b_Scope x) = Ok () → b_Subject x ≠ pr_Subject p →
  lookupRole e (w_store w) (b_Role x) = Ok r →
  (Bind a ctx x w).1 =
    match (RequireOn e ctx (a_bindings a) (resourceAt (b_Scope x)) w).1 with
    | Err err => Err err
    | Ok _ =>
        match (CanBind e p r (b_Scope x) (a_bindings a) w).1 with
        | Err err => Err err
        | Ok _ => mapError storeErr (StoreBind (pr_Subject p) x (w_store w)).1
        end
    end.
Proof.
  intros Ha Hc Hp Hs Hv Hsc Hne Hl. unfold Bind, actor. rewrite Hp, Ha, Hs, Hv, Hsc.
  unfold mbind at 1, stM_bind at 1, mret, stM_ret. cbn [negb orb]. rewrite decide_False by done.
  destruct (RequireOn e ctx (a_bindings a) (resourceAt (b_Scope x)) w) as [[[]|err] w1] eqn:E1;
    [|by rewrite (stM_bind_stop _ _ _ _ _ E1)].
  destruct (quiet_RequireOn e _ _ _ _ _ _ Hc E1) as [Hs1 Hc1]. rewrite (stM_bind_step _ _ _ _ _ E1).
  assert (map_err storeErr (read_store (λ st, lookupRole e st (b_Role x))) w1 = (Ok r, w1)) as E2
    by (unfold map_err, read_store; by rewrite Hs1, Hl).
  rewrite (stM_bind_step _ _ _ _ _ E2), <-(CanBind_det p r (b_Scope x) (a_bindings a) w1 w) by done.
  destruct (CanBind e p r (b_Scope x) (a_bindings a) w1) as [[[]|err] w2] eqn:E3.
  - rewrite (stM_bind_step _ _ _ _ _ E3). destruct (quiet_CanBind e _ _ _ _ _ _ _ Hc1 E3) as [Hs2 _].
    unfold mbind, stM_bind, map_err, on_store, evict, modify. rewrite Hs2, Hs1.
    by destruct (StoreBind _ _ _) as [[]].
  - by rewrite (stM_bind_stop _ _ _ _ _ E3).
Qed.
End Offered.

Lemma gate_delegation b kind guard : installed b → gateOf b kind = Ok guard →
  a_e (gt_delegation guard) = b_Engine b ∧ a_bindings (gt_delegation guard) = gt_manage guard.
Proof.
  intros [Hd Hs Hm Hsm]%installed_ok. unfold gateOf. repeat case_match; intros; simplify_eq; cbn; auto.
Qed.

(** ** What is shown of a subject *)

Section Shown.
Context {St : Type} `{!Store St} `{!HolderStore St} `{!StoreLaws St}.
Variable b : base.
Notation e := (b_Engine b).
Implicit Types w : World St.

Lemma myAccess_unavailable eff ids out out' id :
  myAccess_loop e eff out ids = Ok out' →
  id ∈ ma_Unavailable out' ↔ id ∈ ma_Unavailable out ∨ id ∈ ids ∧ openClauses e (permOf e id) (eff_Clauses eff id) = Ok [].
Proof.
  revert out. induction ids as [|x ids IH]; intros out; cbn [myAccess_loop].
  { intros [= <-]. rewrite elem_of_nil. tauto. }
  fold (permOf e x). intros (open & Ho & H)%outcome_bind_Ok. rewrite elem_of_cons. destruct open as [|c open].
  - rewrite (IH _ H). cbn. rewrite elem_of_app, list_elem_of_singleton. split.
    + intros [[?| ->]|[? ?]]; auto.
    + intros [?|[[->|?] ?]]; auto.
  - destruct (describe e _); [|done]. rewrite (IH _ H). cbn. split; [intros [?|[? ?]]; auto|].
    intros [?|[[->|?] ?]]; [by left|congruence|by right].
Qed.

Lemma describe_loop_ids counts names placeOf stored w out w' :
  describe_loop b counts names placeOf stored w = (Ok out, w') → bv_ID <$> out = b_ID <$> stored.
Proof.
  revert w out w'. induction stored as [|x l IH]; intros w out w'; cbn [describe_loop]; [by intros [= <- _]|].
  intros (r & w1 & _ & H)%stM_bind_Ok. destruct (match names !! _ with Some _ => _ | None => _ end) as [by_ byName].
  apply stM_bind_Ok in H as (more & w2 & E & [= <- _]). cbn. by rewrite (IH _ _ _ E).
Qed.

Lemma describeBindings_ids stored placeOf w out w' :
  describeBindings b stored placeOf w = (Ok out, w') → bv_ID <$> out ≡ₚ b_ID <$> stored.
Proof.
  unfold describeBindings. intros (counts & w1 & _ & H)%stM_bind_Ok. apply stM_bind_Ok in H as (names & w2 & _ & H).
  apply stM_bind_Ok in H as (views & w3 & E & [= <- _]). rewrite stable_sort_perm. by rewrite (describe_loop_ids _ _ _ _ _ _ _ E).
Qed.

Lemma Require_det ctx perm w w' :
  coherent e w → coherent e w' → w_store w = w_store w' → (Require e ctx perm w).1 = (Require e ctx perm w').1.
Proof.
  intros Hc Hc' Hs. unfold Require, mbind, stM_bind.
  destruct (prepare e ctx perm w) as [r w1] eqn:E. destruct (prepare e ctx perm w') as [r' w1'] eqn:E'.
  apply prepare_spec in E as (_ & _ & ->); [|done]. apply prepare_spec in E' as (_ & _ & ->); [|done]. rewrite Hs.
  by destruct (match PrincipalFrom ctx with Some _ => _ | None => _ end) as [[[]]|].
Qed.

(** The clause a line of the screen stands for. *)
Definition shown (c : Clause) (g : GrantView) : Prop :=
  gv_Qualifier g = cl_Qualifier c ∧ pl_Scope (gv_Place g) = cl_Scope c ∧ gv_Attrs g = cl_Attrs c ∧
  gv_BindingID g = src_BindingID (cl_Source c) ∧ gv_RoleName g = src_RoleName (cl_Source c).

Lemma places_scope scopes placeOf s : places b scopes = Ok placeOf → pl_Scope (placeOf s) = s.
Proof. unfold places. by intros (names & _ & [= <-])%outcome_bind_Ok. Qed.

Lemma permissionView_shown eff off placeOf id scopes :
  places b scopes = Ok placeOf → Forall2 shown (eff_Clauses eff id) (pv_Grants (permissionView eff off placeOf id)).
Proof.
  intros Hp. cbn. apply Forall2_fmap_r. apply Forall_Forall2_diag, Forall_true. intros c. unfold shown. cbn.
  by rewrite (places_scope _ _ _ Hp).
Qed.
End Shown.

(** ** The promises *)

(** C9. Whatever is called on the two services, in any order and by anybody, with the
    answers of the application's directory, checks and transactions changing from
    call to call and any of them failing, the store stays sound and the cache holds
    nothing but what the store would give, also after a replacement that was rolled
    back. *)
Theorem screens_keep_sound {St : Type} `{!Store St} `{!HolderStore St} `{!StoreLaws St} `{!HolderLaws St} (e : Engine)
    (calls : list (base * context * call)) (w : World St) :
  Forall (λ bc, installed bc.1.1 ∧ b_Engine bc.1.1 = e) calls → sound e w → sound e (performs calls w).
Proof.
  unfold performs. revert w. induction calls as [|[[b ctx] c] calls IH]; intros w Hall Hw; [done|].
  apply list.Forall_cons in Hall as [[Hi <-] Hall]. cbn. apply IH; [done|]. by apply sound_perform.
Qed.

(** C10. Replacing a custom role by a predefined one is all or nothing. When it answers
    an error the store is as it was, even if the failure came in the middle or at the
    commit. When it succeeds the custom role is bound to nobody, everybody who held
    it holds the predefined role at the same place, every other binding is kept, none
    but bindings to the predefined role are new, no role is changed, and the number
    answered is that of the bindings moved. *)
Theorem Replace_all_or_nothing {St : Type} `{!Store St} `{!HolderStore St} `{!StoreLaws St} `{!HolderLaws St} (b : base)
    (w w' : World St) (ctx : context) (ref other : string) (r : result Z) :
  installed b → sound (b_Engine b) w → Roles_Replace b ctx ref other w = (r, w') →
  match r with
  | Err _ => w_store w' = w_store w
  | Ok n =>
      ∃ id role bs, StoreRole (w_store w) id = Ok role ∧ StoreBindingsForRole (w_store w) id = Ok bs ∧ n = Z.of_nat (length bs) ∧
        StoreBindingsForRole (w_store w') id = Ok [] ∧
        (∀ x, x ∈ bs → ∃ y, bound (w_store w') y ∧ b_Subject y = b_Subject x ∧ b_Scope y = b_Scope x ∧ b_Role y = mkRoleRef 0 other) ∧
        (∀ y, bound (w_store w) y → y ∉ bs → bound (w_store w') y) ∧
        (∀ y, bound (w_store w') y → bound (w_store w) y ∨ b_Role y = mkRoleRef 0 other) ∧
        (∀ id', StoreRole (w_store w') id' = StoreRole (w_store w) id')
  end.
Proof.
  intros Hinst [Hc Hi Hv] E. destruct (Replace_spec b Hinst _ _ _ _ _ _ Hc Hi Hv E) as (_ & _ & Hr). by destruct r.
Qed.

(** C11. What a sheet offers, and what becomes of it. When the roles for a place are
    listed, a role that is known, to be given there to somebody else whose kind was
    asked for, is offered exactly when the delegation check ([CanBind]) accepts it at
    that place. [Bind] also asks whether the actor holds the managing permission on
    the place: where that is refused, [Bind] answers the refusal for every role,
    offered or not. Otherwise a role that is offered gets whatever the store answers
    to the binding, and one that is not is refused with the reason that kept it off
    the sheet. *)
Theorem sheet_offers_bindable {St : Type} `{!Store St} `{!HolderStore St} `{!StoreLaws St} `{!HolderLaws St} (b : base)
    (w w' : World St) (ctx : context) (p : Principal) (guard : gate) (scope : Scope) (views : list RoleView) (s : Subject) (r : Role) :
  installed b → sound (b_Engine b) w → PrincipalFrom ctx = Some p → gateOf b (sub_Kind s) = Ok guard →
  sub_Valid s = true → s ≠ pr_Subject p → known b (w_store w) r →
  BindableRolesFor b ctx (sub_Kind s) scope w = (Ok views, w') →
  let judged := (CanBind (b_Engine b) p r scope (gt_manage guard) w).1 in
  (RefOf r ∈ rv_Ref <$> views ↔ judged = Ok ()) ∧
  (Bind (gt_delegation guard) ctx (newBinding s (Ref r) scope) w).1 =
    match (RequireOn (b_Engine b) ctx (gt_manage guard) (resourceAt scope) w).1, judged with
    | Err err, _ => Err err
    | Ok _, Err err => Err err
    | Ok _, Ok _ => mapError storeErr (StoreBind (pr_Subject p) (newBinding s (Ref r) scope) (w_store w)).1
    end.
Proof.
  intros Hinst [Hc Hi Hv] Hp Hg Hs Hne Hk H. destruct (gate_delegation _ _ _ Hinst Hg) as [Ha Hm].
  unfold BindableRolesFor, signedIn in H. rewrite Hp, Hg in H.
  apply stM_bind_Ok in H as (? & ? & [[= <-] ->]%lift_Ok & H). apply stM_bind_Ok in H as (? & ? & [[= <-] ->]%lift_Ok & H).
  apply stM_bind_Ok in H as ([] & ? & [Hplace ->]%lift_Ok & H).
  apply (quiet_Ok (b_Engine b)) in H as (custom & w1 & E1 & Hs1 & Hc1 & H); [|apply (quiet_listRoles b)|done].
  apply (quiet_Ok (b_Engine b)) in H as (counts & w2 & _ & Hs2 & Hc2 & H); [|apply (quiet_holderCounts b)|done].
  destruct (law_list _ Hi) as (rs & Hrs & Hlist). unfold listRoles in E1. apply map_err_Ok in E1. unfold read_store in E1.
  rewrite Hrs in E1. injection E1 as <- <-.
  assert (∀ x, x ∈ PredefinedRoles (b_Engine b) ++ stable_sort name_leb rs ↔
    e_roles (b_Engine b) !! r_Key x = Some x ∨ StoreRole (w_store w) (r_ID x) = Ok x) as Hall.
  { intros x. by rewrite elem_of_app, (PredefinedRoles_installed b Hinst), stable_sort_perm, Hlist. }
  rewrite (bindable_loop_spec b _ _ _ _ _ _ _ _ _ Hc2 H), <-list_fmap_compose.
  assert (∀ ok, accepts b p r scope (gt_manage guard) w = ok →
    (RefOf r ∈ (rv_Ref ∘ λ x, viewOf x (e_cat (b_Engine b)) (Of counts (Ref x)) true) <$>
       List.filter (λ x, accepts b p x scope (gt_manage guard) w2) (PredefinedRoles (b_Engine b) ++ stable_sort name_leb rs) ↔ ok = true)) as Hoff.
  { intros ok Hok. rewrite list_elem_of_fmap. setoid_rewrite elem_of_filter_bool. setoid_rewrite Hall. unfold accepts in *.
    setoid_rewrite (λ x, CanBind_det b p x scope (gt_manage guard) w2 w Hc2 Hc Hs2). split.
    - intros (x & Hx & Hkx & Hacc). cbn in Hx. rewrite <-(RefOf_inj b Hinst (w_store w) x r Hi) in Hok; [congruence| |done|done].
      destruct Hkx as [?|Hkx]; [by left|right]. split; [|done]. by apply (law_custom _ _ _ Hi Hkx).
    - intros ->. exists r. split; [done|]. split; [|done]. destruct Hk as [?|[_ ?]]; auto. }
  destruct (known_lookup b Hinst _ _ Hi Hk) as [Hlook Hval].
  assert (CheckScope (e_h (b_Engine b)) scope = Ok ()) as Hsc.
  { unfold requirePlace in Hplace. apply outcome_bind_Ok in Hplace as ([] & Hx%mapError_Ok & _). done. }
  pose proof (Bind_result b (gt_delegation guard) ctx (newBinding s (Ref r) scope) w p r Ha Hc Hp Hs Hval Hsc Hne) as Hres.
  rewrite Hm in Hres. specialize (Hres Hlook). cbn [b_Scope newBinding] in Hres. unfold accepts in Hoff. split.
  - destruct (CanBind (b_Engine b) p r scope (gt_manage guard) w) as [[[]|err] w3]; cbn in *; rewrite (Hoff _ eq_refl); done.
  - rewrite Hres. destruct (RequireOn _ _ _ _ _) as [[]]; cbn; [|done]. by destruct (CanBind _ _ _ _ _ _) as [[]].
Qed.

(** C12. What the screen of a subject shows is the subject's access: the permissions are
    those the subject holds, each with a line for every clause it is held by, in
    order; a permission is marked unavailable exactly when no clause of it has its
    feature switched on; the bindings are the stored ones; and changing them is
    offered exactly to somebody else who may. *)
Theorem Access_shows_access {St : Type} `{!Store St} `{!HolderStore St} `{!StoreLaws St} (b : base) (w w' : World St)
    (ctx : context) (s : Subject) (sa : SubjectAccess) :
  coherent (b_Engine b) w → Bindings_Access b ctx s w = (Ok sa, w') →
  ∃ eff stored guard, load (b_Engine b) (w_store w) s = Ok eff ∧ BindingsFor (w_store w) s = Ok stored ∧ gateOf b (sub_Kind s) = Ok guard ∧
    pv_Permission <$> sa_Effective sa = eff_Permissions eff ∧
    (∀ pv, pv ∈ sa_Effective sa →
      Forall2 shown (eff_Clauses eff (pv_Permission pv)) (pv_Grants pv) ∧
      (pv_Unavailable pv = true ↔
        openClauses (b_Engine b) (permOf (b_Engine b) (pv_Permission pv)) (eff_Clauses eff (pv_Permission pv)) = Ok [])) ∧
    bv_ID <$> sa_Bindings sa ≡ₚ b_ID <$> stored ∧
    (sa_CanManage sa = true ↔
      option_map pr_Subject (PrincipalFrom ctx) ≠ Some s ∧ (Require (b_Engine b) ctx (gt_manage guard) w).1 = Ok ()).
Proof.
  intros Hc H. unfold Bindings_Access in H.
  apply stM_bind_Ok in H as (guard & ? & [Hg ->]%lift_Ok & H).
  apply (quiet_Ok (b_Engine b)) in H as ([] & w1 & _ & Hs1 & Hc1 & H); [|apply quiet_Require|done].
  apply stM_bind_Ok in H as ([] & ? & [_ ->]%lift_Ok & H).
  apply stM_bind_Ok in H as (stored & w2 & Hst%map_err_Ok & H). injection Hst as Hst <-.
  apply (quiet_Ok (b_Engine b)) in H as (eff & w3 & Heff & Hs3 & Hc3 & H); [|apply quiet_EffectiveOf|done].
  destruct (EffectiveOf_spec _ _ _ _ _ Hc1 Heff) as (Hl & _). symmetry in Hl. rewrite Hs1 in Hl, Hst.
  apply (quiet_Ok (b_Engine b)) in H as (mine & w4 & Hmine & Hs4 & Hc4 & H); [|apply quiet_MyAccess|done].
  apply stM_bind_Ok in H as (placeOf & ? & [Hplaces ->]%lift_Ok & H).
  apply (quiet_Ok (b_Engine b)) in H as (views & w5 & Hviews & Hs5 & Hc5 & H); [|apply quiet_describeBindings|done].
  apply stM_bind_Ok in H as (canManage & w6 & Hcan & [= <- _]). cbn.
  exists eff, stored, guard. split; [done|]. split; [done|]. split; [done|]. split_and!.
  - rewrite <-list_fmap_compose. apply list_fmap_id.
  - intros pv (id & -> & Hid)%list_elem_of_fmap. split; [by eapply permissionView_shown|]. cbn. rewrite contains_spec.
    unfold MyAccess, WithPrincipal, PrincipalFrom in Hmine. cbn in Hmine. destruct (sub_Valid s); [|done].
    apply stM_bind_Ok in Hmine as (eff' & w7 & Heff' & Hmine). destruct (EffectiveOf_spec _ _ _ _ _ Hc3 Heff') as (Hl' & _).
    cbn in Hl'. rewrite Hs3, Hs1, Hl in Hl'. injection Hl' as ->.
    apply stM_bind_Ok in Hmine as (out & ? & [Hloop ->]%lift_Ok & [= <- _]). cbn. rewrite stable_sort_perm.
    rewrite (myAccess_unavailable b _ _ _ _ _ Hloop). cbn. rewrite elem_of_nil. tauto.
  - by eapply describeBindings_ids.
  - destruct (decide _) as [Heq|Hne]; [injection Hcan as <- _; split; [done|]; by intros []|].
    unfold succeeds in Hcan. rewrite <-(Require_det b ctx (gt_manage guard) w5 w) by (done || congruence).
    destruct (Require (b_Engine b) ctx (gt_manage guard) w5) as [[[]|err] w8]; injection Hcan as <- _; cbn; naive_solver.
Qed.

(** ** References *)

(** What [Atoi] makes of a text that begins with a digit or a letter. *)
Lemma Atoi_unsigned c t : Str.is_digit c = true ∨ Str.is_lower c = true →
  Str.Atoi (String c t) =
    if negb (Str.forall_char Str.is_digit (String c t)) then None
    else if Int64.fits (Str.digits_value 0 (String c t)) then Some (Str.digits_value 0 (String c t)) else None.
Proof.
  intros Hc. unfold Str.Atoi.
  destruct c as [[] [] [] [] [] [] [] []]; try (destruct Hc as [Hc|Hc]; vm_compute in Hc; discriminate Hc);
    rewrite bool_decide_eq_false_2 by done; reflexivity.
Qed.

Lemma Atoi_fmt_d n : (0 < n)%Z → Int64.fits n = true → Str.Atoi (Str.fmt_d n) = Some n.
Proof.
  intros Hn Hf. unfold Str.fmt_d. rewrite (proj2 (Z.ltb_ge _ _)) by lia.
  pose proof (Str.digits_digits n) as Hd. pose proof (Str.digits_value_digits n "" ltac:(lia)) as Hv. rewrite Utf8.app_nil_string in Hv.
  destruct (Str.digits n) as [|c t] eqn:E; [by destruct (Str.digits_nonempty n)|].
  rewrite Atoi_unsigned, Hd by (left; cbn in Hd; by apply andb_true_iff in Hd as [? _]). cbn [negb].
  rewrite Hv. cbn [Str.digits_value]. by rewrite Hf.
Qed.

Lemma Atoi_word key : word_match key = true → Str.Atoi key = None.
Proof.
  destruct key as [|c t]; [done|]. intros Hw. cbn in Hw. apply andb_true_iff in Hw as [Hl _].
  rewrite Atoi_unsigned by auto. cbn [Str.forall_char]. assert (Str.is_digit c = false) as ->; [|done].
  unfold Str.is_lower, Str.is_digit in *. lia.
Qed.

(** The reference a role is shown with addresses it: reading the reference finds the
    role, and a binding that names the reference is a binding to it. *)
Theorem RefOf_addresses {St : Type} `{!Store St} `{!StoreLaws St} `{!HolderLaws St} (b : base) (w : World St) (r : Role) :
  installed b → store_inv (w_store w) → known b (w_store w) r → Int64.fits (r_ID r) = true →
  role b (RefOf r) w = (Ok r, w) ∧ roleRef (RefOf r) = Ok (Ref r).
Proof.
  intros Hinst Hi Hk Hf. unfold role, roleRef, RefOf, Predefined, Ref. destruct Hk as [Hr|[Hk Hr]].
  - destruct (installed_roles _ _ _ Hinst Hr) as (_ & Hne & Hid & Hv).
    rewrite bool_decide_eq_true_2, (Atoi_word _ (vr_key _ _ Hv Hne)), bool_decide_eq_false_2, Hid by done.
    unfold lift, predefined, PredefinedRole. by rewrite Hr.
  - pose proof (law_positive _ _ _ Hi Hr) as Hpos. rewrite Hk, bool_decide_eq_false_2, Atoi_fmt_d by auto.
    unfold map_err, read_store. rewrite Hr, (proj2 (Z.leb_gt _ _)) by done. done.
Qed.

(** ** Comparing roles *)

Lemma qualifiers_snoc gs g : qualifiers (gs ++ [g]) = <[g_Permission g := g_Qualifier g]> (qualifiers gs).
Proof. unfold qualifiers. by rewrite foldl_app. Qed.

Lemma qualifiers_spec gs p q : NoDup (g_Permission <$> gs) → qualifiers gs !! p = Some q ↔ mkGrant p q ∈ gs.
Proof.
  induction gs as [|g gs IH] using rev_ind; intros Hnd.
  { unfold qualifiers. cbn. rewrite lookup_empty, elem_of_nil. done. }
  rewrite fmap_app, list.NoDup_app in Hnd. destruct Hnd as (Hnd & Hdis & _). rewrite qualifiers_snoc, lookup_insert_Some, IH by done.
  rewrite elem_of_app, list_elem_of_singleton. split.
  - intros [[<- <-]|[_ ?]]; [right; by destruct g|by left].
  - intros [Hin| <-]; [|by left]. right. split; [|done]. intros Heq. apply (Hdis p); [|rewrite <-Heq; left].
    apply list_elem_of_fmap. by exists (mkGrant p q).
Qed.

Lemma qualifiers_none gs p : qualifiers gs !! p = None ↔ p ∉ g_Permission <$> gs.
Proof.
  induction gs as [|g gs IH] using rev_ind.
  { unfold qualifiers. cbn. rewrite lookup_empty. split; [intros _ []%elem_of_nil|done]. }
  rewrite qualifiers_snoc, lookup_insert_None, IH, fmap_app, not_elem_of_app. cbn. rewrite list_elem_of_singleton. naive_solver.
Qed.

(** A comparison of two roles that grant no permission twice, as every valid role,
    tells them apart exactly: what only one of them grants, and what both grant with
    different qualifiers. *)
Theorem compare_exact (role other : list Grant) :
  NoDup (g_Permission <$> role) → NoDup (g_Permission <$> other) →
  (∀ g, g ∈ cp_OnlyInRole (compare role other) ↔ g ∈ role ∧ g_Permission g ∉ g_Permission <$> other) ∧
  (∀ g, g ∈ cp_OnlyInOther (compare role other) ↔ g ∈ other ∧ g_Permission g ∉ g_Permission <$> role) ∧
  (∀ d, d ∈ cp_Different (compare role other) ↔
    mkGrant (df_Permission d) (df_Role d) ∈ role ∧ mkGrant (df_Permission d) (df_Other d) ∈ other ∧ df_Role d ≠ df_Other d).
Proof.
  intros Hr Ho. unfold compare. cbn. split_and!; intros x; rewrite stable_sort_perm.
  - by rewrite elem_of_filter_bool, bool_decide_eq_true, qualifiers_none.
  - by rewrite elem_of_filter_bool, bool_decide_eq_true, qualifiers_none.
  - rewrite list_elem_of_omap. split.
    + intros ([p q] & Hg & (q' & Hq & H)%bind_Some). cbn in *. destruct (Z.eqb_spec q' q); [done|]. injection H as <-. cbn.
      apply (qualifiers_spec other p q' Ho) in Hq. auto.
    + intros (Hg & Hg' & Hne). exists (mkGrant (df_Permission x) (df_Role x)). split; [done|]. cbn.
      apply (qualifiers_spec other _ _ Ho) in Hg'. rewrite Hg'. cbn. destruct (Z.eqb_spec (df_Other x) (df_Role x)); [congruence|].
      by destruct x.
Qed.

(** ** Places and strangers *)

Section Places.
Context {St : Type} `{!Store St} `{!HolderStore St}.
Variable b : base.
Notation e := (b_Engine b).

(** The application's check lets the subject be bound at the place. *)
Definition allows ctx s scope : Prop := b_BindingCheck b ctx s (newBinding s (mkRoleRef 0 "") scope) = None.

Lemma bindable_Ok ctx s scope ok : bindable b ctx s scope = Ok ok → ok = true ↔ allows ctx s scope.
Proof. unfold bindable, allows. destruct (b_BindingCheck b ctx s _) as [err|]; [destruct (_ <=? _)%Z; [done|]|]; by intros [= <-]. Qed.

Lemma scopes_loop_spec ctx s clauses options found o :
  scopes_loop b ctx s clauses options = Ok found →
  o ∈ found ↔ o ∈ options ∧ allows ctx s (so_Scope o) ∧
    ∃ chain c, ChainOf (sc_Parent (b_Scopes b)) (e_h e) (so_Scope o) [] = Ok chain ∧ c ∈ clauses ∧ Within chain (cl_Scope c) = true.
Proof.
  revert found. induction options as [|x options IH]; intros found; cbn [scopes_loop].
  { intros [= <-]. rewrite elem_of_nil. tauto. }
  rewrite elem_of_cons. destruct (ChainOf _ _ (so_Scope x) _) as [chain|] eqn:Ech.
  - destruct (existsb _ clauses) eqn:Ex.
    + destruct (bindable b ctx s (so_Scope x)) as [ok|] eqn:Eb; [|done]. intros (more & Hm & [= <-])%outcome_bind_Ok.
      apply bindable_Ok in Eb. apply existsb_elem in Ex as (c & Hc & Hw). specialize (IH _ Hm). destruct ok.
      * rewrite elem_of_cons, IH. split; [intros [->|?]; [|tauto]|tauto]. split; [by left|]. split; [by apply Eb|eauto].
      * rewrite IH. split; [tauto|]. intros ([->|?] & Ha & ?); [by apply Eb in Ha|tauto].
    + intros H. rewrite (IH _ H). split; [tauto|]. intros ([->|?] & Ha & ch & c & Hch & Hc & Hw); [|eauto 10].
      rewrite Ech in Hch. injection Hch as <-. exfalso. apply not_true_iff_false in Ex. apply Ex, existsb_elem. eauto.
  - intros H. rewrite (IH _ H). split; [tauto|]. intros ([->|?] & Ha & ch & c & Hch & Hrest); [congruence|eauto 10].
Qed.

(** The places offered for giving a subject roles are exactly those of the
    application's places, with a known chain, inside a place where the actor holds
    the managing permission, at which the application's check lets the subject be
    bound; the whole organization exactly when the actor holds the permission there
    and the check agrees. *)
Theorem Scopes_exact (ctx : context) (s : Subject) (w w' : World St) (out : ScopeOptions) :
  coherent e w → Bindings_Scopes b ctx s w = (Ok out, w') →
  ∃ p guard eff options, PrincipalFrom ctx = Some p ∧ gateOf b (sub_Kind s) = Ok guard ∧
    load e (w_store w) (pr_Subject p) = Ok eff ∧ sc_Options (b_Scopes b) = Ok options ∧
    (sos_Root out = true ↔ (∃ c, c ∈ eff_Clauses eff (gt_manage guard) ∧ IsRoot (e_h e) (cl_Scope c) = true) ∧ allows ctx s (Root (e_h e))) ∧
    ∀ o, o ∈ sos_Places out ↔ o ∈ options ∧ allows ctx s (so_Scope o) ∧
      ∃ chain c, ChainOf (sc_Parent (b_Scopes b)) (e_h e) (so_Scope o) [] = Ok chain ∧
        c ∈ eff_Clauses eff (gt_manage guard) ∧ Within chain (cl_Scope c) = true.
Proof.
  intros Hc H. unfold Bindings_Scopes in H.
  apply stM_bind_Ok in H as (p & ? & [Hp ->]%lift_Ok & H). apply stM_bind_Ok in H as (guard & ? & [Hg ->]%lift_Ok & H).
  apply (quiet_Ok e) in H as ([] & w1 & _ & Hs1 & Hc1 & H); [|apply quiet_Require|done].
  apply stM_bind_Ok in H as ([] & ? & [_ ->]%lift_Ok & H). apply stM_bind_Ok in H as (eff & w2 & Heff & H).
  destruct (EffectiveOf_spec _ _ _ _ _ Hc1 Heff) as (Hl & _). symmetry in Hl. rewrite Hs1 in Hl.
  apply stM_bind_Ok in H as (options & ? & [Ho%mapError_Ok ->]%lift_Ok & H).
  apply stM_bind_Ok in H as (root & ? & [Hroot ->]%lift_Ok & H). apply stM_bind_Ok in H as (found & ? & [Hf ->]%lift_Ok & [= <- _]).
  unfold signedIn in Hp. destruct (PrincipalFrom ctx) as [p'|]; [|done]. injection Hp as ->.
  exists p, guard, eff, options. do 4 (split; [done|]). cbn. split; [|intros o; by apply scopes_loop_spec].
  destruct (existsb _ _) eqn:Ex.
  - rewrite (bindable_Ok _ _ _ _ Hroot). apply existsb_elem in Ex. tauto.
  - injection Hroot as <-. split; [done|]. intros [Hx _]. apply not_true_iff_false in Ex. destruct Ex. by apply existsb_elem.
Qed.

(** Subjects the actor may not see, because they do not exist or are out of reach,
    are all answered alike: whatever is asked about them, the answer does not depend
    on which it is, and nothing is changed. *)
Theorem strangers_alike (ctx : context) (s s' : Subject) (w : World St) (id id' : Z) (d d' : BindingDraft) :
  requireSubject b ctx s = Err subjectNotFound → requireSubject b ctx s' = Err subjectNotFound → sub_Kind s = sub_Kind s' →
  coherent e w →
  (Bindings_Access b ctx s w).1 = (Bindings_Access b ctx s' w).1 ∧
  (Bindings_Scopes b ctx s w).1 = (Bindings_Scopes b ctx s' w).1 ∧
  (Bindings_Bind b ctx s d w).1 = (Bindings_Bind b ctx s' d' w).1 ∧
  Bindings_Unbind b ctx s id w = Bindings_Unbind b ctx s' id' w ∧
  w_store (Bindings_Bind b ctx s d w).2 = w_store w ∧ w_store (Bindings_Unbind b ctx s id w).2 = w_store w.
Proof.
  intros H H' Hk Hc. unfold Bindings_Access, Bindings_Scopes, Bindings_Bind, Bindings_Unbind, mbind, stM_bind, lift. rewrite Hk, H, H'.
  destruct (gateOf b (sub_Kind s')) as [guard|]; [|by destruct (signedIn ctx)].
  destruct (Require (b_Engine b) ctx (gt_manage guard) w) as [[[]|err] w2] eqn:E2;
    destruct (quiet_Require (b_Engine b) _ _ _ _ _ Hc E2) as [Hs _];
    destruct (Require (b_Engine b) ctx (gt_view guard) w) as [[[]|err'] w1]; by destruct (signedIn ctx).
Qed.
End Places.

(** ** A small application *)

(** The permissions of administration beside those of [Sample], a role in code for
    salesmen, and two people who hold a custom role, one of them the role in code as
    well. *)
Definition screenConfig : result Config :=
  cat ← foldl (λ c d, c ← c; Define c d.1 d.2) sampleCatalogue ((λ id, (id, [System])) <$> PermissionIDs);
  h ← sampleHierarchy;
  Ok (mkConfig (Some cat) (Some h) [adminRole; mkRole 0 "seller" "Salesman" "" [mkGrant vehiclesView QualifierAll] ∅ None]
    true (Some sampleParent) None None).

Definition screenEngine : Engine :=
  match (cfg ← screenConfig; NewEngine sampleClock cfg) with Ok (e, _) => e | Err _ => emptyEngine end.

Definition screenNames (l : list Subject) : result (gmap Subject string) :=
  Ok (list_to_map ((λ s, (s, "person " +:+ Str.fmt_d (sub_ID s))) <$> List.filter (λ s, sub_ID s <=? 3)%Z l)).

Definition screenScopes : ScopeCatalog :=
  mkScopeCatalog sampleParent (λ l, Ok (list_to_map ((λ s, (s, scope_string s)) <$> l)))
    (Ok [mkScopeOption dealer1 "Dealer 1" organization]).

Definition screenSetup (tx : Transactor) : Setup :=
  mkSetup (Some screenEngine) true (Some screenScopes) (Some screenNames) (Some tx) None None None.

Definition screenBase (tx : Transactor) : base :=
  match New (screenSetup tx) with
  | Ok b => b
  | Err _ => mkBase screenEngine screenScopes screenNames tx (λ _ _, []) (λ _ _ _, None) (λ _ _, Ok true) sampleAdmin None
  end.

Definition commits : Transactor := mkTransactor None None.
Definition loses : Transactor := mkTransactor None (Some (errNew "connection lost at the commit")).

Definition screenStore1 : MemoryStore := (mem_Bind alice (bindingOf carol (mkRoleRef 1 "") dealer1) sampleStore).2.
Definition screenStore : MemoryStore := (mem_Bind alice (bindingOf carol (mkRoleRef 0 "seller") dealer1) screenStore1).2.
Definition screenWorld : World MemoryStore := mkWorld screenStore (NewCache sampleClock 0).

Lemma screenEngine_new : ∃ cfg c, NewEngine sampleClock cfg = Ok (screenEngine, c).
Proof.
  assert (is_ok (cfg ← screenConfig; NewEngine sampleClock cfg) = true) as He by (vm_compute; reflexivity).
  unfold screenEngine. destruct (cfg ← screenConfig; NewEngine sampleClock cfg) as [[e c]|] eqn:E; [|discriminate He].
  apply outcome_bind_Ok in E as (cfg & _ & E). eauto.
Qed.

Lemma screenBase_installed tx : installed (screenBase tx) ∧ b_Engine (screenBase tx) = screenEngine.
Proof.
  assert (is_ok (New (screenSetup tx)) = true) as Hn by (vm_compute; reflexivity).
  unfold screenBase. destruct (New (screenSetup tx)) as [b|] eqn:E; [|discriminate Hn].
  destruct (New_ok _ _ E) as [_ Hb]. change (Some screenEngine = Some (b_Engine b)) in Hb. apply (inj Some) in Hb.
  split; [|symmetry; exact Hb]. destruct screenEngine_new as (cfg & c & Hnew). exists sampleClock, cfg, c, (screenSetup tx).
  split; [rewrite <-Hb; exact Hnew|exact E].
Qed.

Lemma screenWorld_sound : sound screenEngine screenWorld.
Proof.
  split; cbn.
  - intros s ent. cbn. by rewrite lookup_empty.
  - assert (mem_inv screenStore1) as H1
      by (eapply (mem_Bind_inv alice (bindingOf carol (mkRoleRef 1 "") dealer1) sampleStore _ screenStore1 sampleStore_inv); vm_compute; reflexivity).
    eapply (mem_Bind_inv alice (bindingOf carol (mkRoleRef 0 "seller") dealer1) screenStore1 _ screenStore H1). vm_compute. reflexivity.
  - intros x (id & Hx)%mem_bound.
    assert (map_forallb (λ _ y, ref_Valid (b_Role y)) (m_bindings screenStore) = true) as H by (vm_compute; reflexivity).
    rewrite map_forallb_spec in H. by apply (H id).
Qed.

(** A replacement lost at the commit, the sheet and the screen of a person, and the
    replacement again. *)
Lemma screens_keep_sound_witness :
  let calls := [(screenBase loses, aliceCtx, CallReplace "1" "seller"); (screenBase commits, aliceCtx, CallAccess bob);
                (screenBase commits, aliceCtx, CallBindableRoles KindUser dealer1); (screenBase commits, aliceCtx, CallReplace "1" "seller")] in
  sound screenEngine (performs calls screenWorld) ∧ StoreBindingsForRole (w_store (performs calls screenWorld)) 1 = Ok [].
Proof.
  split; [|vm_compute; reflexivity].
  apply screens_keep_sound; [|exact screenWorld_sound]. repeat apply list.Forall_cons_2; [exact (screenBase_installed _)..|apply list.Forall_nil_2].
Defined.

Lemma Replace_all_or_nothing_witness :
  match Roles_Replace (screenBase commits) aliceCtx "1" "seller" screenWorld with
  | (Ok n, w') => n = 2%Z ∧ StoreBindingsForRole (w_store w') 1 = Ok [] ∧
      ∃ y, bound (w_store w') y ∧ b_Subject y = bob ∧ b_Scope y = dealer1 ∧ b_Role y = mkRoleRef 0 "seller"
  | (Err _, _) => False
  end.
Proof.
  assert ((Roles_Replace (screenBase commits) aliceCtx "1" "seller" screenWorld).1 = Ok 2%Z) as Hr by (vm_compute; reflexivity).
  destruct (Roles_Replace (screenBase commits) aliceCtx "1" "seller" screenWorld) as [r w'] eqn:E. cbn in Hr. subst r.
  destruct (screenBase_installed commits) as [Hi He]. pose proof screenWorld_sound as Hs. rewrite <-He in Hs.
  destruct (Replace_all_or_nothing (screenBase commits) screenWorld w' aliceCtx "1" "seller" (Ok 2%Z) Hi Hs E)
    as (id & role & bs & Hrole & Hbs & Hn & Hnone & Hnew & _).
  assert (id = 1%Z) as ->.
  { assert (∀ i r, m_roles screenStore !! i = Some r → i = 1%Z) as Honly.
    { assert (map_forallb (λ i _, (i =? 1)%Z) (m_roles screenStore) = true) as Hf by (vm_compute; reflexivity).
      rewrite map_forallb_spec in Hf. intros i r Hx. apply Z.eqb_eq, (Hf i r Hx). }
    apply mem_Role_Ok in Hrole. exact (Honly _ _ Hrole). }
  split; [reflexivity|]. split; [exact Hnone|].
  assert (∃ x, x ∈ bs ∧ b_Subject x = bob ∧ b_Scope x = dealer1) as (x & Hx & Hxb & Hxd).
  { assert (existsb (λ x, bool_decide (b_Subject x = bob) && bool_decide (b_Scope x = dealer1)) (orElse (StoreBindingsForRole screenStore 1) []) = true)
      as Hex by (vm_compute; reflexivity).
    change (w_store screenWorld) with screenStore in Hbs. rewrite Hbs in Hex. cbn [orElse] in Hex.
    apply existsb_elem in Hex as (x & Hx & Hb). apply andb_true_iff in Hb as [H1 H2].
    exists x. split; [exact Hx|]. split; [exact (bool_decide_unpack _ (proj2 (Is_true_true _) H1))|exact (bool_decide_unpack _ (proj2 (Is_true_true _) H2))]. }
  destruct (Hnew x Hx) as (y & Hy & H1 & H2 & H3). exists y. rewrite H1, H2, H3. split; [exact Hy|]. split; [exact Hxb|]. split; [exact Hxd|reflexivity].
Defined.

(** Dave is not bound anywhere; the custom role is offered for him at the dealer. *)
Definition dave : Subject := mkSubject KindUser 4.
Definition storedSeller : Role := orElse (mem_Role screenStore 1) zeroRole.

Lemma sheet_offers_bindable_witness :
  match BindableRolesFor (screenBase commits) aliceCtx KindUser dealer1 screenWorld with
  | (Ok views, _) => RefOf storedSeller ∈ rv_Ref <$> views ∧
      (Bind (b_delegation (screenBase commits)) aliceCtx (newBinding dave (Ref storedSeller) dealer1) screenWorld).1 =
        mapError storeErr (StoreBind alice (newBinding dave (Ref storedSeller) dealer1) screenStore).1
  | (Err _, _) => False
  end.
Proof.
  assert (is_ok (BindableRolesFor (screenBase commits) aliceCtx KindUser dealer1 screenWorld).1 = true) as Hok by (vm_compute; reflexivity).
  destruct (BindableRolesFor (screenBase commits) aliceCtx KindUser dealer1 screenWorld) as [[views|err] w'] eqn:E; [|discriminate Hok].
  destruct (screenBase_installed commits) as [Hi He]. pose proof screenWorld_sound as Hs. rewrite <-He in Hs.
  assert (∃ guard, gateOf (screenBase commits) KindUser = Ok guard ∧ gt_delegation guard = b_delegation (screenBase commits)) as (guard & Hg & Hd).
  { eexists. split; [unfold gateOf; rewrite bool_decide_eq_true_2 by reflexivity; reflexivity|reflexivity]. }
  assert (is_ok (g ← gateOf (screenBase commits) KindUser; (RequireOn (b_Engine (screenBase commits)) aliceCtx (gt_manage g) (resourceAt dealer1) screenWorld).1) = true)
    as Hreq by (vm_compute; reflexivity).
  assert (is_ok (g ← gateOf (screenBase commits) KindUser; (CanBind (b_Engine (screenBase commits)) (User 1 0) storedSeller dealer1 (gt_manage g) screenWorld).1) = true)
    as Hcan by (vm_compute; reflexivity).
  rewrite Hg in Hreq, Hcan. change (@mbind (outcome error) _ _ _ ?f (Ok guard)) with (f guard) in *. cbv beta in *.
  pose proof (sheet_offers_bindable (screenBase commits) screenWorld w' aliceCtx (User 1 0) guard dealer1 views dave storedSeller Hi Hs) as H.
  destruct (RequireOn _ _ _ _ _).1 as [[]|]; [|discriminate Hreq].
  destruct (CanBind _ _ _ _ _ _).1 as [[]|]; [|discriminate Hcan].
  rewrite Hd in H. destruct H as [Hoff Hbind];
    [vm_compute; reflexivity|exact Hg|vm_compute; reflexivity|discriminate| |exact E|].
  { right. split; vm_compute; reflexivity. }
  split; [apply Hoff; reflexivity|exact Hbind].
Defined.

Lemma Access_shows_access_witness :
  match Bindings_Access (screenBase commits) aliceCtx bob screenWorld with
  | (Ok sa, _) => sa_CanManage sa = true ∧
      ∃ eff, load screenEngine screenStore bob = Ok eff ∧ pv_Permission <$> sa_Effective sa = eff_Permissions eff
  | (Err _, _) => False
  end.
Proof.
  assert (sa_CanManage <$> match (Bindings_Access (screenBase commits) aliceCtx bob screenWorld).1 with Ok sa => Some sa | Err _ => None end = Some true)
    as Hok by (vm_compute; reflexivity).
  destruct (Bindings_Access (screenBase commits) aliceCtx bob screenWorld) as [[sa|err] w'] eqn:E; [|discriminate Hok].
  destruct (screenBase_installed commits) as [_ He]. pose proof (so_coherent _ _ screenWorld_sound) as Hc. rewrite <-He in Hc.
  destruct (Access_shows_access (screenBase commits) screenWorld w' aliceCtx bob sa Hc E) as (eff & stored & guard & Hl & _ & _ & Hp & _).
  split; [injection Hok as Hok; exact Hok|]. exists eff. split; [rewrite <-He; exact Hl|exact Hp].
Defined.
