(* ===== verification/Codes.v ===== *)
(** * One-time codes (src/identity/account/codes.go)

    Issuing and verifying the codes an account receives. The store is a class
    ([CodeStore]); the HMAC of the standard library is the argument [hmac_hex], the
    sender and the random number are arguments of [Issue], and a reading of the
    clock is an argument where the code takes it.

    A verification reads the code and saves its outcome in two calls of the
    store; other requests run in between. [verifyOnce] and [Verify] take what they
    do to the store as functions. *)

From S2P Require Import Prelude Apperr Clock.

Local Open Scope Z_scope.

Notation Purpose := string (only parsing).

Definition PurposeEmailChange : Purpose := "email_change".
Definition PurposePasswordReset : Purpose := "password_reset".

Definition CodeLength : nat := 6.
Definition MinCodeSecret : Z := 32.
Definition IPMax : Z := 45.

Record CodeRules : Type := mkCodeRules { TTL : Z; Attempts : Z; Cooldown : Z; PerHour : Z }.

Definition withDefaults (r : CodeRules) : CodeRules :=
  mkCodeRules (if TTL r <=? 0 then 15 * Time.Minute else TTL r)
    (if Attempts r <=? 0 then 5 else Attempts r)
    (if Cooldown r <=? 0 then 60 * Time.Second else Cooldown r)
    (if PerHour r <=? 0 then 5 else PerHour r).

Definition codeWindow : Z := Time.Hour.

Record Code : Type := mkCode {
  c_ID : Z;
  c_AccountID : Z;
  c_Purpose : Purpose;
  c_Target : string;
  c_Hash : string;
  c_Attempts : Z;
  c_ExpiresAt : Z;
  c_ConsumedAt : option Z;
  c_InvalidatedAt : option Z;
  c_IP : string;
  c_CreatedAt : Z
}.

(** [c.ConsumedAt == nil && c.InvalidatedAt == nil] *)
Definition untouched (c : Code) : bool :=
  bool_decide (c_ConsumedAt c = None) && bool_decide (c_InvalidatedAt c = None).

Definition Live (c : Code) (now : Z) : bool := untouched c && Time.Before now (c_ExpiresAt c).

Definition set_id (c : Code) (id : Z) : Code :=
  mkCode id (c_AccountID c) (c_Purpose c) (c_Target c) (c_Hash c) (c_Attempts c) (c_ExpiresAt c)
    (c_ConsumedAt c) (c_InvalidatedAt c) (c_IP c) (c_CreatedAt c).

(** The three fields a verification writes. *)
Definition set_outcome (c : Code) (attempts : Z) (consumed invalidated : option Z) : Code :=
  mkCode (c_ID c) (c_AccountID c) (c_Purpose c) (c_Target c) (c_Hash c) attempts (c_ExpiresAt c)
    consumed invalidated (c_IP c) (c_CreatedAt c).

Definition ErrCodeNotFound : string := "identity: no code was issued".
Definition ErrCodeConflict : string := "identity: the code changed since it was read".

(** The interface [CodeStore]. *)
Class CodeStore (St : Type) : Type := {
  Latest : St → Z → Purpose → result Code;
  IssuedSince : St → Z → Purpose → Z → result (Z * Z);
  StoreIssue : Code → Z → stM St error Code;
  SaveVerification : Code → Z → Z → stM St error ();
  InvalidateLive : Z → Purpose → Z → stM St error ()
}.

Record CodeMessage : Type := mkCodeMessage {
  msg_Purpose : Purpose;
  msg_Recipient : string;
  msg_Name : string;
  msg_Locale : string;
  msg_Code : string;
  msg_ExpiresAt : Z
}.

Definition ReasonCodeResendTooSoon : string := "identity.code.resend_too_soon".
Definition ReasonCodeTooManyRequests : string := "identity.code.too_many_requests".
Definition ReasonCodeNoPending : string := "identity.code.no_pending".
Definition ReasonCodeExpired : string := "identity.code.expired".
Definition ReasonCodeMismatch : string := "identity.code.mismatch".
Definition ReasonCodeTooManyAttempts : string := "identity.code.too_many_attempts".
Definition ReasonCodeNotDelivered : string := "identity.code.not_delivered".

(** [Codes] without the dependencies that are arguments here. *)
Record Codes : Type := mkCodes { secret : string; rules : CodeRules }.

(** [NewCodes]: the flags say which dependencies were passed. *)
Definition NewCodes (hasStore hasSender hasClock : bool) (sec : string) (r : CodeRules) : result Codes :=
  if negb hasStore then Err (errNew "identity: CodesDeps.Store is missing: pass a CodeStore, for example gormstore.New(db).Codes")
  else if negb hasSender then Err (errNew "identity: CodesDeps.Sender is missing: pass a CodeSender (identity builds one from a mail.Sender)")
  else if negb hasClock then Err (errNew "identity: CodesDeps.Clock is missing: pass the application's clock, app.Clock()")
  else if Z.of_nat (String.length sec) <? MinCodeSecret
  then Err (errorf ("identity: CodesDeps.Secret needs at least " +:+ Str.fmt_d MinCodeSecret +:+
    " characters: set a long random secret, for example from an environment variable") [])
  else Ok (mkCodes sec (withDefaults r)).

Record IssueCode : Type := mkIssueCode {
  in_AccountID : Z;
  in_Purpose : Purpose;
  in_Target : string;
  in_Recipient : string;
  in_Name : string;
  in_Locale : string;
  in_IP : string
}.

Record PendingCode : Type := mkPendingCode {
  pc_Target : string;
  pc_ExpiresAt : Z;
  pc_ResendAvailableAt : Z;
  pc_AttemptsLeft : Z
}.

(** [cut] of src/identity/account/signin_service.go *)
Definition cut (s : string) (width : Z) : string :=
  if Utf8.RuneCount s <=? width then s else Utf8.of_runes (take (Z.to_nat width) (Utf8.runes s)).

(** [%0*d] of a number that is not negative. *)
Fixpoint zeros (n : nat) : string := match n with O => "" | S n' => "0" +:+ zeros n' end.
Definition fmt_0d (width : nat) (n : Z) : string :=
  zeros (width - String.length (Str.digits n)) +:+ Str.digits n.

(** [newCode], given what [rand.Int] answers for the bound 10^6. *)
Definition newCode (random : result Z) : result string :=
  match random with
  | Err err => Err (errorf ("identity: reading random digits: " +:+ error_text err) [err])
  | Ok n => Ok (fmt_0d CodeLength n)
  end.

(** [retryAfter]: the seconds rounded up, at least 1. [Seconds] is a float64, whose
    ceiling is the exact one for every duration below 97 days. *)
Definition retryAfter (reason : string) (d : Z) (level : Level) : error :=
  WithLog (WithReason (Wrap None reason CodeBadRequest) reason
    {[ "retry_after" := PInt (Z.max (- (- d / Time.Second)) 1) ]}) level.

Definition noPending : error :=
  WithLog (WithReason (Wrap None ReasonCodeNoPending CodeInvalidArgument) ReasonCodeNoPending ∅) LevelInfo.
Definition expired : error :=
  WithLog (WithReason (Wrap None ReasonCodeExpired CodeInvalidArgument) ReasonCodeExpired ∅) LevelInfo.
Definition tooManyAttempts : error :=
  WithLog (WithReason (Wrap None ReasonCodeTooManyAttempts CodeInvalidArgument) ReasonCodeTooManyAttempts ∅) LevelWarn.
Definition mismatch (attemptsLeft : Z) : error :=
  WithLog (WithReason (Wrap None ReasonCodeMismatch CodeInvalidArgument) ReasonCodeMismatch
    {[ "attempts_left" := PInt attemptsLeft ]}) LevelInfo.
Definition notDelivered (sendErr : error) : error :=
  WithReason (Wrap (Some sendErr) ReasonCodeNotDelivered CodeInternal) ReasonCodeNotDelivered ∅.

(** [errors.Join] of two errors *)
Definition join2 (a b : error) : error :=
  errorf (error_text a +:+ String (Ascii.ascii_of_nat 10) (error_text b)) [a; b].

(** What the hash is taken over. *)
Definition hashText (accountID : Z) (p : Purpose) (plain : string) : string :=
  Str.fmt_d accountID +:+ "|" +:+ p +:+ "|" +:+ plain.

Definition pending (c : Codes) (code : Code) : PendingCode :=
  mkPendingCode (c_Target code) (c_ExpiresAt code) (c_CreatedAt code + Cooldown (rules c))
    (Z.max (Attempts (rules c) - c_Attempts code) 0).

(** The code [Issue] stores. *)
Definition issuedCode (c : Codes) (req : IssueCode) (hash : string) (now : Z) : Code :=
  mkCode 0 (in_AccountID req) (in_Purpose req) (in_Target req) hash 0 (now + TTL (rules c)) None None
    (cut (in_IP req) IPMax) now.

(** What a guess does to a live code: the code to save and the refusal, if any. *)
Definition judge (c : Codes) (code : Code) (hash : string) (now : Z) : Code * option error :=
  if bool_decide (c_Hash code = hash)
  then (set_outcome code (c_Attempts code) (Some now) (c_InvalidatedAt code), None)
  else
    let attempts := Int64.wrap (c_Attempts code + 1) in
    if Attempts (rules c) <=? attempts
    then (set_outcome code attempts (c_ConsumedAt code) (Some now), Some tooManyAttempts)
    else (set_outcome code attempts (c_ConsumedAt code) (c_InvalidatedAt code),
          Some (mismatch (Attempts (rules c) - attempts))).

Section Service.
Context {St : Type} `{!CodeStore St}.
Variable hmac_hex : string → string → string.
Variable c : Codes.

Definition hash (accountID : Z) (p : Purpose) (plain : string) : string :=
  hmac_hex (secret c) (hashText accountID p plain).

(** The check on the latest code: none was issued, or the cooldown is over. *)
Definition checkCooldown (latest : result Code) (now : Z) : result () :=
  match latest with
  | Err err => ensure (errors_Is err ErrCodeNotFound) (Internal err)
  | Ok code =>
      ensure (negb (Time.Before now (c_CreatedAt code + Cooldown (rules c))))
        (retryAfter ReasonCodeResendTooSoon (Time.Sub (c_CreatedAt code + Cooldown (rules c)) now) LevelInfo)
  end.

Definition checkCanIssue (s : St) (req : IssueCode) (now : Z) : result () :=
  _ ← checkCooldown (Latest s (in_AccountID req) (in_Purpose req)) now;
  match IssuedSince s (in_AccountID req) (in_Purpose req) (now - codeWindow) with
  | Err err => Err (Internal err)
  | Ok (n, oldest) =>
      ensure (n <? PerHour (rules c))
        (retryAfter ReasonCodeTooManyRequests (Time.Sub (oldest + codeWindow) now) LevelWarn)
  end.

(** [Issue]; [now'] is the second reading of the clock. *)
Definition Issue (now now' : Z) (random : result Z) (send : CodeMessage → option error)
    (req : IssueCode) : stM St error PendingCode := λ s,
  match checkCanIssue s req now with
  | Err e => (Err e, s)
  | Ok _ =>
      match newCode random with
      | Err err => (Err (Internal err), s)
      | Ok plain =>
          match StoreIssue (issuedCode c req (hash (in_AccountID req) (in_Purpose req) plain) now) now s with
          | (Err err, s1) => (Err (Internal err), s1)
          | (Ok code, s1) =>
              match send (mkCodeMessage (in_Purpose req) (in_Recipient req) (in_Name req) (in_Locale req) plain
                            (c_ExpiresAt code)) with
              | None => (Ok (pending c code), s1)
              | Some sendErr =>
                  match InvalidateLive (in_AccountID req) (in_Purpose req) now' s1 with
                  | (Err err, s2) => (Err (Internal (join2 sendErr err)), s2)
                  | (Ok _, s2) => (Err (notDelivered sendErr), s2)
                  end
              end
          end
      end
  end.

(** The first half of [verifyOnce]: read the code that is waiting for a guess. *)
Definition verifyRead (s : St) (accountID : Z) (p : Purpose) : result Code :=
  match Latest s accountID p with
  | Err err => if errors_Is err ErrCodeNotFound then Err noPending else Err (Internal err)
  | Ok code => if untouched code then Ok code else Err noPending
  end.

(** The second half: judge the guess against the code that was read and save. *)
Definition verifySave (code : Code) (hash : string) (now : Z) : stM St error string := λ s,
  if negb (Live code now) then (Err expired, s) else
  let '(code', refusal) := judge c code hash now in
  match SaveVerification code' (c_Attempts code) now s with
  | (Err err, s') => (Err (if errors_Is err ErrCodeConflict then err else Internal err), s')
  | (Ok _, s') => match refusal with Some e => (Err e, s') | None => (Ok (c_Target code'), s') end
  end.

(** [verifyOnce]; [others] is what other requests do between the two calls. *)
Definition verifyOnce (accountID : Z) (p : Purpose) (hash : string) (now : Z) (others : St → St) :
    stM St error string := λ s,
  match verifyRead s accountID p with
  | Err e => (Err e, others s)
  | Ok code => verifySave code hash now (others s)
  end.

Fixpoint verifyRounds (n i : nat) (accountID : Z) (p : Purpose) (hash : string)
    (clock : nat → Z) (others : nat → St → St) : stM St error string := λ s,
  match n with
  | O => (Err (Internal (errNew ErrCodeConflict)), s)
  | S n' =>
      match verifyOnce accountID p hash (clock i) (others (2 * i + 1)%nat) (others (2 * i)%nat s) with
      | (Err e, s') => if errors_Is e ErrCodeConflict
                       then verifyRounds n' (S i) accountID p hash clock others s'
                       else (Err e, s')
      | r => r
      end
  end.

(** [Verify]: [Attempts + 1] rounds; other requests run before and within each. *)
Definition Verify (accountID : Z) (p : Purpose) (plain : string)
    (clock : nat → Z) (others : nat → St → St) : stM St error string :=
  verifyRounds (Z.to_nat (Int64.wrap (Attempts (rules c) + 1))) 0 accountID p (hash accountID p plain) clock others.

Definition Cancel (accountID : Z) (p : Purpose) (now : Z) : stM St error () := λ s,
  match InvalidateLive accountID p now s with
  | (Err err, s') => (Err (Internal err), s')
  | r => r
  end.

(** [Pending]; [Ok None] is [PendingCode{}, false]. *)
Definition Pending (s : St) (accountID : Z) (p : Purpose) (now : Z) : result (option PendingCode) :=
  match Latest s accountID p with
  | Err err => if errors_Is err ErrCodeNotFound then Ok None else Err (Internal err)
  | Ok code => if Live code now then Ok (Some (pending c code)) else Ok None
  end.
End Service.
