(* ===== verification/CodeStore.v ===== *)
(** * What a store of codes promises (src/identity/account/codes.go)

    The documented behaviour of [CodeStore] as laws, the requests that use the
    store as interleaved steps, and what every interleaving keeps. [MemCodes]
    discharges the laws for the store in memory. *)

From S2P Require Import Prelude Apperr Clock Codes.

Local Open Scope Z_scope.

(** What identifies a code, and what a verification or a cancellation changes:
    wrong guesses, consumed, invalidated. *)
Definition ident (c : Code) : Z * Z * Purpose * string * string :=
  (c_ID c, c_AccountID c, c_Purpose c, c_Target c, c_Hash c).
Definition consumed (c : Code) : bool := bool_decide (c_ConsumedAt c ≠ None).
Definition invalidated (c : Code) : bool := bool_decide (c_InvalidatedAt c ≠ None).
Definition status (c : Code) : Z * bool * bool := (c_Attempts c, consumed c, invalidated c).

(** Is it a code of the account and purpose that neither was used nor ended? *)
Definition endable (a : Z) (p : Purpose) (c : Code) : bool :=
  (c_AccountID c =? a) && bool_decide (c_Purpose c = p) && untouched c.

(** [c'] is [c] after the live codes of the account and purpose ended. *)
Definition ended (a : Z) (p : Purpose) (c c' : Code) : Prop :=
  ident c' = ident c ∧ status c' = (c_Attempts c, consumed c, invalidated c || endable a p c).

Class CodeStoreLaws (St : Type) `{!CodeStore St} : Type := {
  (** The code with an ID, and the ID of the latest code of an account and purpose. *)
  stored : St → Z → option Code;
  latest_id : St → Z → Purpose → option Z;

  law_stored_id s id c : stored s id = Some c → c_ID c = id;
  law_latest s a p c : Latest s a p = Ok c →
    stored s (c_ID c) = Some c ∧ latest_id s a p = Some (c_ID c) ∧ c_AccountID c = a ∧ c_Purpose c = p;
  law_latest_stored s a p id : latest_id s a p = Some id → is_Some (stored s id);
  law_latest_err s a p e : Latest s a p = Err e → errors_Is e ErrCodeConflict = false;

  law_save_ok c r now s s' : SaveVerification c r now s = (Ok (), s') →
    ∃ old new, stored s (c_ID c) = Some old ∧ untouched old = true ∧ c_Attempts old = r ∧
      stored s' (c_ID c) = Some new ∧ ident new = ident old ∧ status new = status c ∧
      (∀ id, id ≠ c_ID c → stored s' id = stored s id) ∧
      (∀ a p, latest_id s' a p = latest_id s a p);
  law_save_err c r now s s' e : SaveVerification c r now s = (Err e, s') → s' = s;
  law_save_conflict c r now s s' e : SaveVerification c r now s = (Err e, s') →
    errors_Is e ErrCodeConflict = true →
    ∀ old, stored s (c_ID c) = Some old → untouched old = true → c_Attempts old ≠ r;

  law_issue_ok c now s c' s' : StoreIssue c now s = (Ok c', s') →
    stored s (c_ID c') = None ∧ stored s' (c_ID c') = Some c' ∧
    ident (set_id c' 0) = ident (set_id c 0) ∧ status c' = status c ∧
    latest_id s' (c_AccountID c) (c_Purpose c) = Some (c_ID c') ∧
    (∀ a p, (a, p) ≠ (c_AccountID c, c_Purpose c) → latest_id s' a p = latest_id s a p) ∧
    (∀ id, id ≠ c_ID c' → option_Forall2 (ended (c_AccountID c) (c_Purpose c)) (stored s id) (stored s' id));
  law_issue_err c now s s' e : StoreIssue c now s = (Err e, s') → s' = s;

  law_invalidate_ok a p now s s' : InvalidateLive a p now s = (Ok (), s') →
    (∀ id, option_Forall2 (ended a p) (stored s id) (stored s' id)) ∧
    (∀ a' p', latest_id s' a' p' = latest_id s a' p');
  law_invalidate_err a p now s s' e : InvalidateLive a p now s = (Err e, s') → s' = s
}.

Lemma untouched_status c : untouched c = negb (consumed c) && negb (invalidated c).
Proof. unfold untouched, consumed, invalidated. repeat case_bool_decide; naive_solver. Qed.

Lemma status_eq c c' : status c' = status c →
  c_Attempts c' = c_Attempts c ∧ consumed c' = consumed c ∧ invalidated c' = invalidated c ∧ untouched c' = untouched c.
Proof. rewrite !untouched_status. unfold status. intros [= -> -> ->]. done. Qed.

Lemma endable_untouched a p c : endable a p c = true → untouched c = true.
Proof. unfold endable. rewrite !andb_true_iff. tauto. Qed.

(** Ending the live codes of an account and purpose leaves none of them. *)
Lemma ended_none_endable a p c c' : ended a p c c' → endable a p c' = false.
Proof.
  intros [Hi Hs]. destruct (endable a p c') eqn:E; [|done]. exfalso. pose proof (endable_untouched _ _ _ E) as Hu.
  rewrite untouched_status in Hu. unfold status in Hs. injection Hs as Ha Hc Hv. rewrite Hc, Hv in Hu.
  unfold endable in *. unfold ident in Hi. injection Hi as _ HA HP _ _. rewrite HA, HP in E.
  apply andb_true_iff in E as [E _]. rewrite E in Hu. rewrite untouched_status in Hu.
  destruct (consumed c), (invalidated c); cbn in Hu; done.
Qed.

(** ** Requests as interleaved steps *)

(** The outcome of a guess that was saved: the code and whether it matched. *)
Notation verdict := (Z * bool)%type (only parsing).

(** One atomic step of a request: a code is issued, a verification reads the
    code, a verification saves its outcome, the live codes are ended. *)
Inductive event : Type :=
| EvIssue (req : IssueCode) (hash : string) (now : Z)
| EvRead (request : nat) (accountID : Z) (p : Purpose)
| EvSave (request : nat) (hash : string) (now : Z)
| EvCancel (accountID : Z) (p : Purpose) (now : Z).

(** The store, what the verifications under way have read, and the guesses saved
    so far, oldest first. *)
Record world (St : Type) : Type := mkWorld {
  w_store : St;
  w_reads : gmap nat Code;
  w_log : list verdict
}.
Arguments mkWorld {_}. Arguments w_store {_}. Arguments w_reads {_}. Arguments w_log {_}.

Section Requests.
Context {St : Type} `{!CodeStore St}.
Variable c : Codes.

(** What [verifySave] adds to the record: its verdict, when it was saved. *)
Definition saved_verdict (code : Code) (hash : string) (now : Z) (s : St) : list verdict :=
  if negb (Live code now) then [] else
  match (SaveVerification (judge c code hash now).1 (c_Attempts code) now s).1 with
  | Ok _ => [(c_ID code, bool_decide (c_Hash code = hash))]
  | Err _ => []
  end.

Definition step (w : world St) (e : event) : world St :=
  match e with
  | EvIssue req hash now =>
      mkWorld (StoreIssue (issuedCode c req hash now) now (w_store w)).2 (w_reads w) (w_log w)
  | EvRead request a p =>
      match verifyRead (w_store w) a p with
      | Ok code => mkWorld (w_store w) (<[request := code]> (w_reads w)) (w_log w)
      | Err _ => w
      end
  | EvSave request hash now =>
      match w_reads w !! request with
      | Some code => mkWorld (verifySave c code hash now (w_store w)).2 (delete request (w_reads w))
                       (w_log w ++ saved_verdict code hash now (w_store w))
      | None => w
      end
  | EvCancel a p now => mkWorld (Cancel a p now (w_store w)).2 (w_reads w) (w_log w)
  end.

Definition run (w : world St) (es : list event) : world St := foldl step w es.
End Requests.

(** The guesses saved for one code. *)
Definition guesses (id : Z) (log : list verdict) : list bool :=
  (List.filter (λ v, v.1 =? id) log).*2.

Lemma guesses_app id l1 l2 : guesses id (l1 ++ l2) = guesses id l1 ++ guesses id l2.
Proof. unfold guesses. by rewrite List.filter_app, fmap_app. Qed.

Lemma guesses_one id k b : guesses id [(k, b)] = if k =? id then [b] else [].
Proof. unfold guesses. cbn. by case_match. Qed.

(** The record of a code agrees with its status. *)
Definition recorded (limit : Z) (st : Z * bool * bool) (log : list bool) : Prop :=
  let '(att, con, inv) := st in
  0 <= att ∧
  log = repeat false (Z.to_nat att) ++ (if con : bool then [true] else []) ∧
  (if con || negb inv then att < limit else att <= limit).

(** ** What every step keeps *)
Section Invariant.
Context {St : Type} `{!CodeStore St} `{!CodeStoreLaws St}.
Variable c : Codes.

Definition limit : Z := Attempts (rules c).

Definition record_ok (s : St) (log : list verdict) : Prop :=
  ∀ id, match stored s id with
        | Some code => recorded limit (status code) (guesses id log)
        | None => guesses id log = []
        end.

(** A code that may still be verified has guesses left. *)
Definition guarded (s : St) : Prop :=
  ∀ id code, stored s id = Some code → untouched code = true → 0 <= c_Attempts code < limit.

Definition reads_ok (reads : gmap nat Code) : Prop := map_Forall (λ _ code, untouched code = true) reads.

Lemma record_ok_guarded s log : record_ok s log → guarded s.
Proof.
  intros Hr id code Hid Hu. specialize (Hr id). rewrite Hid in Hr. rewrite untouched_status in Hu.
  unfold status in Hr. destruct (consumed code), (invalidated code); try done. destruct Hr as (? & _ & ?). done.
Qed.

Lemma recorded_ended a p code code' log :
  ended a p code code' → recorded limit (status code) log → recorded limit (status code') log.
Proof.
  intros [_ ->]. unfold status, recorded. intros (H0 & Hl & Hb). split; [done|]. split; [done|].
  destruct (endable a p code); rewrite ?orb_false_r, ?orb_true_r; [|done].
  destruct (consumed code), (invalidated code); cbn in *; lia.
Qed.

Lemma record_ok_ended a p s s' log :
  (∀ id, option_Forall2 (ended a p) (stored s id) (stored s' id)) → record_ok s log → record_ok s' log.
Proof.
  intros He Hr id. specialize (Hr id). destruct (He id) as [x y Hxy|]; [|done]. by eapply recorded_ended.
Qed.

Lemma judge_ident code hash now : ident (judge c code hash now).1 = ident code.
Proof. unfold judge. repeat case_match; done. Qed.

(** What a guess makes of a code that may be verified. *)
Lemma judge_status code hash now :
  untouched code = true → 0 <= c_Attempts code < limit → limit <= Int64.max_value →
  status (judge c code hash now).1 =
    if bool_decide (c_Hash code = hash) then (c_Attempts code, true, false)
    else (c_Attempts code + 1, false, limit <=? c_Attempts code + 1).
Proof.
  intros Hu Ha Hl. rewrite untouched_status in Hu. unfold judge, status.
  destruct (consumed code) eqn:Ec; [done|]. destruct (invalidated code) eqn:Ei; [done|].
  unfold consumed, invalidated in *. destruct (bool_decide (c_Hash code = hash)); cbn; [by rewrite Ei|].
  rewrite Int64.wrap_id by (unfold Int64.min_value; lia). fold limit.
  destruct (limit <=? c_Attempts code + 1); cbn; by rewrite ?Ec, ?Ei.
Qed.

Lemma recorded_judge code hash now log :
  untouched code = true → limit <= Int64.max_value →
  recorded limit (status code) log →
  recorded limit (status (judge c code hash now).1) (log ++ [bool_decide (c_Hash code = hash)]).
Proof.
  intros Hu Hl Hr. pose proof Hu as Hu'. rewrite untouched_status in Hu'.
  unfold status at 1 in Hr. destruct (consumed code), (invalidated code); try done. destruct Hr as (H0 & -> & Hb).
  cbn in Hb. rewrite judge_status by (done || lia). rewrite app_nil_r. case_bool_decide; cbn; [done|].
  split; [lia|]. split.
  - rewrite app_nil_r. replace (Z.to_nat (c_Attempts code + 1)) with (Z.to_nat (c_Attempts code) + 1)%nat by lia.
    by rewrite repeat_app.
  - destruct (Z.leb_spec limit (c_Attempts code + 1)); cbn; lia.
Qed.

(** Saving the outcome of a guess keeps the record, whatever happened since the
    code was read: the store takes it only over the state that was read. *)
Lemma save_record code hash now s s' log :
  untouched code = true → limit <= Int64.max_value → record_ok s log →
  SaveVerification (judge c code hash now).1 (c_Attempts code) now s = (Ok (), s') →
  record_ok s' (log ++ [(c_ID code, bool_decide (c_Hash code = hash))]).
Proof.
  intros Hu Hl Hr Hs. pose proof (judge_ident code hash now) as Hj.
  assert (c_ID (judge c code hash now).1 = c_ID code) as Hid by (unfold ident in Hj; congruence).
  destruct (law_save_ok _ _ _ _ _ Hs) as (old & new & Ho & Huo & Hao & Hn & _ & Hst & Hother & _).
  rewrite Hid in *. intros id. rewrite guesses_app, guesses_one.
  destruct (decide (id = c_ID code)) as [->|Hne].
  - rewrite Hn, Z.eqb_refl, Hst. specialize (Hr (c_ID code)). rewrite Ho in Hr. apply recorded_judge; [done..|].
    replace (status code) with (status old); [done|]. unfold status. rewrite Hao.
    rewrite untouched_status in Hu, Huo. by destruct (consumed old), (invalidated old), (consumed code), (invalidated code).
  - rewrite Hother by done. destruct (Z.eqb_spec (c_ID code) id); [congruence|]. rewrite app_nil_r. apply Hr.
Qed.

(** ** The invariant of the interleaved requests *)

Definition world_ok (w : world St) : Prop := record_ok (w_store w) (w_log w) ∧ reads_ok (w_reads w).

Lemma record_ok_issue req hash now s o s' log :
  0 < limit → record_ok s log → StoreIssue (issuedCode c req hash now) now s = (o, s') → record_ok s' log.
Proof.
  intros Hl Hr Hi. destruct o as [code|e]; [|apply law_issue_err in Hi; by subst].
  destruct (law_issue_ok _ _ _ _ _ Hi) as (Hnew & Hst & _ & Hs & _ & _ & He). intros id.
  destruct (decide (id = c_ID code)) as [->|Hne].
  - rewrite Hst, Hs. specialize (Hr (c_ID code)). rewrite Hnew in Hr. rewrite Hr. done.
  - specialize (Hr id). destruct (He id Hne) as [x y Hxy|]; [|done]. by eapply recorded_ended.
Qed.

Lemma record_ok_cancel a p now s log : record_ok s log → record_ok (Cancel a p now s).2 log.
Proof.
  intros Hr. unfold Cancel. destruct (InvalidateLive a p now s) as [[[]|e] s'] eqn:E; cbn.
  - apply law_invalidate_ok in E as [He _]. by eapply record_ok_ended.
  - apply law_invalidate_err in E. by subst.
Qed.

Lemma record_ok_verifySave code hash now s log :
  untouched code = true → limit <= Int64.max_value → record_ok s log →
  record_ok (verifySave c code hash now s).2 (log ++ saved_verdict c code hash now s).
Proof.
  intros Hu Hl Hr. unfold verifySave, saved_verdict. destruct (negb (Live code now)); [by rewrite app_nil_r|].
  destruct (judge c code hash now) as [code' refusal] eqn:Ej. cbn [fst].
  destruct (SaveVerification code' (c_Attempts code) now s) as [[[]|e] s'] eqn:Es; cbn [fst].
  - replace (match refusal with Some _ => _ | None => _ end.2) with s' by (by destruct refusal).
    eapply (save_record code hash now s); [done..|]. by rewrite Ej.
  - apply law_save_err in Es as ->. by rewrite app_nil_r.
Qed.

Lemma step_ok w e : 0 < limit → limit <= Int64.max_value → world_ok w → world_ok (step c w e).
Proof.
  intros H0 Hl [Hr Hd]. destruct e as [req hash now|q a p|q hash now|a p now]; cbn.
  - split; [|done]. destruct (StoreIssue _ _ _) as [o s'] eqn:E. by eapply record_ok_issue.
  - unfold verifyRead. destruct (Latest _ a p) as [code|err]; [|by destruct (errors_Is err ErrCodeNotFound)].
    destruct (untouched code) eqn:Eu; [|done]. split; [done|]. by apply map_Forall_insert_2.
  - destruct (w_reads w !! q) as [code|] eqn:Eq; [|done]. split; [|by apply map_Forall_delete].
    apply record_ok_verifySave; [by apply Hd in Eq|done..].
  - split; [by apply record_ok_cancel|done].
Qed.

Lemma run_ok w es : 0 < limit → limit <= Int64.max_value → world_ok w → world_ok (run c w es).
Proof.
  intros H0 Hl. revert w. induction es as [|e es IH]; intros w Hw; [done|]. cbn. apply IH. by apply step_ok.
Qed.

(** ** What other requests can do to a code that was read *)

(** No code of the account and purpose is issued. *)
Definition not_issued (a : Z) (p : Purpose) (e : event) : bool :=
  match e with
  | EvIssue req _ _ => negb ((in_AccountID req =? a) && bool_decide (in_Purpose req = p))
  | _ => true
  end.

Definition later (code code' : Code) : Prop :=
  c_Attempts code <= c_Attempts code' ∧ (untouched code' = true → untouched code = true).

(** The latest code stays the latest; codes stay, lose guesses and are not revived. *)
Definition advances (a : Z) (p : Purpose) (s s' : St) : Prop :=
  latest_id s' a p = latest_id s a p ∧
  ∀ id code, stored s id = Some code → ∃ code', stored s' id = Some code' ∧ later code code'.

Lemma advances_refl a p s : advances a p s s.
Proof. split; [done|]. intros id code Hc. by exists code. Qed.

Lemma advances_trans a p s1 s2 s3 : advances a p s1 s2 → advances a p s2 s3 → advances a p s1 s3.
Proof.
  intros [Hl1 H1] [Hl2 H2]. split; [congruence|]. intros id code (c2 & Hc2 & ? & ?)%H1.
  destruct (H2 _ _ Hc2) as (c3 & Hc3 & ? & ?). exists c3. repeat split; [done|lia|auto].
Qed.

Lemma ended_later a p code code' : ended a p code code' → later code code'.
Proof.
  intros [_ Hs]. unfold later. rewrite !untouched_status. unfold status in Hs. injection Hs as -> -> ->.
  split; [done|]. destruct (consumed code), (invalidated code); cbn; done.
Qed.

Lemma ended_guarded a p code code' :
  ended a p code code' → untouched code' = true → untouched code = true ∧ c_Attempts code' = c_Attempts code.
Proof.
  intros He Hu. destruct (ended_later _ _ _ _ He) as [_ Hl]. destruct He as [_ Hs]. unfold status in Hs.
  injection Hs as -> _ _. auto.
Qed.

(** A guarded store stays guarded, and codes only advance. *)
Definition moves (a : Z) (p : Purpose) (s s' : St) : Prop := guarded s → guarded s' ∧ advances a p s s'.

Lemma moves_refl a p s : moves a p s s.
Proof. intros Hg. split; [done|apply advances_refl]. Qed.

Lemma moves_ended a p a' p' s s' :
  (∀ id, option_Forall2 (ended a' p') (stored s id) (stored s' id)) →
  latest_id s' a p = latest_id s a p → moves a p s s'.
Proof.
  intros He Hl Hg. split.
  - intros id code' Hid Hu. specialize (He id). rewrite Hid in He. inversion He as [code ? Hc Hs Heq|]; subst.
    destruct (ended_guarded _ _ _ _ Hc Hu) as [Hu' ->]. by eapply Hg.
  - split; [done|]. intros id code Hid. specialize (He id). rewrite Hid in He.
    inversion He as [? code' Hc Heq Hs|]; subst. exists code'. split; [done|]. by eapply ended_later.
Qed.

Lemma moves_issue a p req hash now s o s' :
  0 < limit → StoreIssue (issuedCode c req hash now) now s = (o, s') →
  not_issued a p (EvIssue req hash now) = true → moves a p s s'.
Proof.
  intros H0 Hi Hn. destruct o as [new|e]; [|apply law_issue_err in Hi as ->; apply moves_refl].
  destruct (law_issue_ok _ _ _ _ _ Hi) as (Hnone & Hst & _ & Hs & _ & Hlat & He). cbn [issuedCode c_AccountID c_Purpose] in *.
  intros Hg. split.
  - intros id code' Hid Hu. destruct (decide (id = c_ID new)) as [->|Hne].
    + rewrite Hst in Hid. injection Hid as <-. unfold status in Hs. injection Hs as -> _ _. cbn. lia.
    + specialize (He id Hne). rewrite Hid in He. inversion He as [code ? Hc Hsx Heq|]; subst.
      destruct (ended_guarded _ _ _ _ Hc Hu) as [Hu' ->]. by eapply Hg.
  - split.
    + apply Hlat. cbn in Hn. intros [= -> ->]. rewrite Z.eqb_refl, bool_decide_eq_true_2 in Hn by done. done.
    + intros id code Hid. assert (id ≠ c_ID new) as Hne by congruence. specialize (He id Hne). rewrite Hid in He.
      inversion He as [? code' Hc Heq Hsx|]; subst. exists code'. split; [done|]. by eapply ended_later.
Qed.

Lemma moves_save a p code hash now s s' :
  limit <= Int64.max_value → untouched code = true →
  SaveVerification (judge c code hash now).1 (c_Attempts code) now s = (Ok (), s') → moves a p s s'.
Proof.
  intros Hl Hu Hs Hg. pose proof (judge_ident code hash now) as Hj.
  assert (c_ID (judge c code hash now).1 = c_ID code) as Hid by (unfold ident in Hj; congruence).
  destruct (law_save_ok _ _ _ _ _ Hs) as (old & new & Ho & Huo & Hao & Hn & _ & Hst & Hother & Hlat).
  rewrite Hid in *. pose proof (Hg _ _ Ho Huo) as Hb. rewrite Hao in Hb. rewrite judge_status in Hst by done.
  assert (c_Attempts code <= c_Attempts new ∧ (untouched new = true → c_Attempts new < limit)) as [Hle Hlt].
  { rewrite untouched_status. unfold status in Hst. destruct (bool_decide _); injection Hst as -> -> ->; cbn; [lia|].
    split; [lia|]. intros Hx%negb_true_iff. apply Z.leb_gt in Hx. lia. }
  split.
  - intros id x Hx Hux. destruct (decide (id = c_ID code)) as [->|Hne].
    + assert (x = new) as -> by congruence. specialize (Hlt Hux). lia.
    + rewrite Hother in Hx by done. by eapply Hg.
  - split; [done|]. intros id x Hx. destruct (decide (id = c_ID code)) as [->|Hne].
    + assert (x = old) as -> by congruence. exists new. repeat split; [done|lia|done].
    + rewrite Hother by done. by exists x.
Qed.

Lemma moves_step a p w e :
  0 < limit → limit <= Int64.max_value → reads_ok (w_reads w) → not_issued a p e = true →
  moves a p (w_store w) (w_store (step c w e)) ∧ reads_ok (w_reads (step c w e)).
Proof.
  intros H0 Hl Hd Hn. destruct e as [req hash now|q a' p'|q hash now|a' p' now]; cbn.
  - split; [|done]. destruct (StoreIssue _ _ _) as [o s'] eqn:E. by eapply moves_issue.
  - unfold verifyRead. destruct (Latest _ a' p') as [code|err];
      [|destruct (errors_Is err ErrCodeNotFound); split; (done || apply moves_refl)].
    destruct (untouched code) eqn:Eu; (split; [apply moves_refl|]); [by apply map_Forall_insert_2|done].
  - destruct (w_reads w !! q) as [code|] eqn:Eq; [|split; [apply moves_refl|done]]. cbn.
    split; [|by apply map_Forall_delete]. apply Hd in Eq. unfold verifySave.
    destruct (negb (Live code now)); [apply moves_refl|].
    destruct (judge c code hash now) as [code' refusal] eqn:Ej.
    destruct (SaveVerification code' (c_Attempts code) now (w_store w)) as [[[]|e] s'] eqn:Es.
    + replace (match refusal with Some _ => _ | None => _ end.2) with s' by (by destruct refusal).
      eapply (moves_save a p code hash now); [done..|]. by rewrite Ej.
    + apply law_save_err in Es as ->. apply moves_refl.
  - split; [|done]. unfold Cancel. destruct (InvalidateLive a' p' now _) as [[[]|e] s'] eqn:E; cbn.
    + apply law_invalidate_ok in E as [He Hlat]. by eapply moves_ended.
    + apply law_invalidate_err in E as ->. apply moves_refl.
Qed.

Lemma moves_run a p w es :
  0 < limit → limit <= Int64.max_value → reads_ok (w_reads w) → Forall (λ e, not_issued a p e = true) es →
  moves a p (w_store w) (w_store (run c w es)).
Proof.
  intros H0 Hl. revert w. induction es as [|e es IH]; intros w Hd Hes; [apply moves_refl|].
  apply list.Forall_cons in Hes as [He Hes]. destruct (moves_step a p w e H0 Hl Hd He) as [Hm Hd'].
  intros Hg. destruct (Hm Hg) as [Hg1 Ha1]. destruct (IH _ Hd' Hes Hg1) as [Hg2 Ha2].
  split; [done|]. by eapply advances_trans.
Qed.
End Invariant.
