(* ===== verification/MemCodes.v ===== *)
(** * The store of codes in memory (src/identity/identitytest/stores.go, [Codes])

    A slice of codes in the order they were issued, and the next ID. The methods
    run under one mutex, so each is one step. The states it can be in have distinct
    IDs below [next]; over those it keeps the laws of [CodeStore]. *)

From S2P Require Import Prelude Apperr Clock Codes CodeStore.

Local Open Scope Z_scope.

Record MemCodes : Type := mkMemCodes { mc_next : Z; mc_rows : list Code }.

Definition NewMemCodes : MemCodes := mkMemCodes 1 [].

Definition ofAccount (a : Z) (p : Purpose) (c : Code) : bool :=
  (c_AccountID c =? a) && bool_decide (c_Purpose c = p).

(** [Latest]: the slice from its end. *)
Definition mem_Latest (m : MemCodes) (a : Z) (p : Purpose) : result Code :=
  match List.find (ofAccount a p) (rev (mc_rows m)) with
  | Some c => Ok c
  | None => Err (errNew ErrCodeNotFound)
  end.

(** [IssuedSince]; [zeroTime] is [time.Time{}]. *)
Definition zeroTime : Z := -62135596800 * Time.Second.

Definition mem_IssuedSince (m : MemCodes) (a : Z) (p : Purpose) (since : Z) : result (Z * Z) :=
  Ok (foldl (λ acc c,
        if negb (ofAccount a p c) || negb (Time.After (c_CreatedAt c) since) then acc
        else (acc.1 + 1, if (acc.1 =? 0) || Time.Before (c_CreatedAt c) acc.2 then c_CreatedAt c else acc.2))
      (0, zeroTime) (mc_rows m)).

Definition end_row (a : Z) (p : Purpose) (now : Z) (c : Code) : Code :=
  if ofAccount a p c && untouched c then set_outcome c (c_Attempts c) (c_ConsumedAt c) (Some now) else c.

Definition endLocked (m : MemCodes) (a : Z) (p : Purpose) (now : Z) : MemCodes :=
  mkMemCodes (mc_next m) (end_row a p now <$> mc_rows m).

Definition mem_Issue (c : Code) (now : Z) : stM MemCodes error Code := λ m,
  let m := endLocked m (c_AccountID c) (c_Purpose c) now in
  let c := set_id c (mc_next m) in
  (Ok c, mkMemCodes (mc_next m + 1) (mc_rows m ++ [c])).

(** The loop of [SaveVerification] over the rows. *)
Fixpoint save_rows (c : Code) (readAttempts : Z) (rows : list Code) : result (list Code) :=
  match rows with
  | [] => Err (errNew ErrCodeConflict)
  | r :: rest =>
      if negb (c_ID r =? c_ID c) then rest' ← save_rows c readAttempts rest; Ok (r :: rest')
      else if negb (untouched r) || negb (c_Attempts r =? readAttempts) then Err (errNew ErrCodeConflict)
      else Ok (set_outcome r (c_Attempts c) (c_ConsumedAt c) (c_InvalidatedAt c) :: rest)
  end.

Definition mem_SaveVerification (c : Code) (readAttempts now : Z) : stM MemCodes error () := λ m,
  match save_rows c readAttempts (mc_rows m) with
  | Ok rows => (Ok (), mkMemCodes (mc_next m) rows)
  | Err e => (Err e, m)
  end.

Definition mem_InvalidateLive (a : Z) (p : Purpose) (now : Z) : stM MemCodes error () := λ m,
  (Ok (), endLocked m a p now).

(** ** The states it can be in *)

Definition mem_wf (m : MemCodes) : Prop :=
  NoDup (c_ID <$> mc_rows m) ∧ Forall (λ c, c_ID c < mc_next m) (mc_rows m).

Definition byId (id : Z) (c : Code) : bool := c_ID c =? id.

(** A row rewritten in place, keeping its ID, account and purpose. *)
Lemma find_fmap {A} (P : A → bool) (f : A → A) l :
  (∀ x, P (f x) = P x) → List.find P (f <$> l) = f <$> List.find P l.
Proof. intros HP. induction l as [|x l IH]; cbn; [done|]. rewrite HP. by case_match. Qed.

Lemma find_app_l {A} (P : A → bool) l1 l2 :
  List.find P (l1 ++ l2) = match List.find P l1 with Some x => Some x | None => List.find P l2 end.
Proof. induction l1 as [|x l1 IH]; cbn; [done|]. by destruct (P x). Qed.

Lemma rev_fmap {A} (f : A → A) l : rev (f <$> l) = f <$> rev l.
Proof. induction l as [|x l IH]; cbn; [done|]. by rewrite IH, fmap_app. Qed.

Lemma find_byId l c : NoDup (c_ID <$> l) → c ∈ l → List.find (byId (c_ID c)) l = Some c.
Proof.
  intros Hnd Hc. induction Hc as [c l|c y l Hc IH]; cbn; unfold byId.
  - by rewrite Z.eqb_refl.
  - cbn in Hnd. apply list.NoDup_cons in Hnd as [Hy Hnd]. destruct (Z.eqb_spec (c_ID y) (c_ID c)) as [E|]; [|by apply IH].
    exfalso. apply Hy. rewrite E. by apply list_elem_of_fmap_2.
Qed.

Lemma find_byId_none l id : (∀ c, c ∈ l → c_ID c ≠ id) → List.find (byId id) l = None.
Proof.
  intros Hne. induction l as [|y l IH]; cbn; [done|]. unfold byId at 1.
  destruct (Z.eqb_spec (c_ID y) id) as [E|]; [by destruct (Hne y); [left|]|]. apply IH. intros c Hc. apply Hne. by right.
Qed.

Lemma end_row_keeps a p now c :
  c_ID (end_row a p now c) = c_ID c ∧ (∀ a' p', ofAccount a' p' (end_row a p now c) = ofAccount a' p' c).
Proof. unfold end_row. by case_match. Qed.

Lemma end_row_ended a p now c : ended a p c (end_row a p now c).
Proof.
  unfold end_row, ended, endable, ofAccount. destruct (_ && _ && _) eqn:E; [|by rewrite orb_false_r].
  split; [done|]. unfold status. by rewrite orb_true_r.
Qed.

Definition saved_row (c r : Code) : Code :=
  if c_ID r =? c_ID c then set_outcome r (c_Attempts c) (c_ConsumedAt c) (c_InvalidatedAt c) else r.

Lemma saved_row_keeps c r :
  c_ID (saved_row c r) = c_ID r ∧ (∀ a p, ofAccount a p (saved_row c r) = ofAccount a p r).
Proof. unfold saved_row. by case_match. Qed.

Lemma saved_row_other c (rows : list Code) : (∀ r, r ∈ rows → c_ID r ≠ c_ID c) → saved_row c <$> rows = rows.
Proof.
  intros Hne. induction rows as [|r rows IH]; [done|]. rewrite fmap_cons, IH by (intros; apply Hne; by right).
  unfold saved_row. destruct (Z.eqb_spec (c_ID r) (c_ID c)) as [E|]; [|done]. by destruct (Hne r); [left|].
Qed.

(** The loop rewrites the row with the ID, or finds the code changed. *)
Lemma save_rows_spec c r (rows : list Code) :
  NoDup (c_ID <$> rows) →
  match save_rows c r rows with
  | Ok rows' => rows' = saved_row c <$> rows ∧
      ∃ old, List.find (byId (c_ID c)) rows = Some old ∧ untouched old = true ∧ c_Attempts old = r
  | Err e => e = errNew ErrCodeConflict ∧
      ∀ old, List.find (byId (c_ID c)) rows = Some old → untouched old = true → c_Attempts old ≠ r
  end.
Proof.
  induction rows as [|x rows IH]; intros Hnd; cbn [save_rows]; [done|].
  cbn in Hnd. apply list.NoDup_cons in Hnd as [Hx Hnd]. specialize (IH Hnd). cbn [List.find]. unfold byId at 1 3.
  rewrite fmap_cons. unfold saved_row at 1. destruct (Z.eqb_spec (c_ID x) (c_ID c)) as [E|Hne]; cbn [negb].
  - assert (saved_row c <$> rows = rows) as Hsame.
    { apply saved_row_other. intros y Hy Hyc. apply Hx. rewrite E, <-Hyc. by apply list_elem_of_fmap_2. }
    rewrite Hsame. destruct (untouched x) eqn:Hu; cbn; [|split; [done|]; by intros ? [= <-]; rewrite Hu].
    destruct (Z.eqb_spec (c_Attempts x) r); cbn; [eauto|split; [done|]; by intros ? [= <-]].
  - destruct (save_rows c r rows) as [rows'|e]; cbn; [|done]. destruct IH as [-> IH]. done.
Qed.

Lemma fmap_keeps_ids (f : Code → Code) (rows : list Code) : (∀ x, c_ID (f x) = c_ID x) → c_ID <$> (f <$> rows) = c_ID <$> rows.
Proof. intros Hf. rewrite <-list_fmap_compose. apply list_fmap_ext. intros. apply Hf. Qed.

Lemma wf_fmap (f : Code → Code) m :
  (∀ x, c_ID (f x) = c_ID x) → mem_wf m → mem_wf (mkMemCodes (mc_next m) (f <$> mc_rows m)).
Proof.
  intros Hf [Hnd Hlt]. split; cbn; [by rewrite fmap_keeps_ids|]. apply Forall_fmap.
  eapply list.Forall_impl; [exact Hlt|]. intros x. cbn. by rewrite Hf.
Qed.

Lemma wf_Issue c now m : mem_wf m → mem_wf (mem_Issue c now m).2.
Proof.
  intros Hm. apply (wf_fmap (end_row (c_AccountID c) (c_Purpose c) now)) in Hm as [Hnd Hlt];
    [|intros; apply end_row_keeps]. cbn in *. split; cbn.
  - rewrite fmap_app. apply list.NoDup_app. split; [done|]. split; [|apply NoDup_singleton].
    intros id (x & -> & Hx)%list_elem_of_fmap [=]%list_elem_of_singleton.
    rewrite list.Forall_forall in Hlt. apply Hlt in Hx. lia.
  - apply list.Forall_app. split; [|repeat constructor; cbn; lia]. eapply list.Forall_impl; [exact Hlt|]. cbn. lia.
Qed.

Lemma wf_SaveVerification c r now m : mem_wf m → mem_wf (mem_SaveVerification c r now m).2.
Proof.
  intros Hm. unfold mem_SaveVerification. pose proof (save_rows_spec c r (mc_rows m) (proj1 Hm)) as Hs.
  destruct (save_rows _ _ _); [|done]. destruct Hs as [-> _]. apply wf_fmap; [|done]. intros x. apply saved_row_keeps.
Qed.

Lemma wf_InvalidateLive a p now m : mem_wf m → mem_wf (mem_InvalidateLive a p now m).2.
Proof. intros Hm. apply wf_fmap; [|done]. intros x. apply end_row_keeps. Qed.

#[export] Instance mem_wf_dec m : Decision (mem_wf m).
Proof. unfold mem_wf. apply _. Defined.

Definition CodesTable : Type := dsig mem_wf.

(** A write of the store, over the states it can be in. *)
Definition lift_op {A} (op : stM MemCodes error A) (keeps : ∀ m, mem_wf m → mem_wf (op m).2) :
    stM CodesTable error A :=
  λ m, ((op (proj1_sig m)).1, dexist (op (proj1_sig m)).2 (keeps _ (proj2_dsig m))).

#[export] Instance mem_CodeStore : CodeStore CodesTable := {
  Latest m := mem_Latest (proj1_sig m);
  IssuedSince m := mem_IssuedSince (proj1_sig m);
  StoreIssue c now := lift_op (mem_Issue c now) (wf_Issue c now);
  SaveVerification c r now := lift_op (mem_SaveVerification c r now) (wf_SaveVerification c r now);
  InvalidateLive a p now := lift_op (mem_InvalidateLive a p now) (wf_InvalidateLive a p now)
}.

Lemma NewMemCodes_wf : mem_wf NewMemCodes.
Proof. split; constructor. Qed.

Definition emptyCodes : CodesTable := dexist NewMemCodes NewMemCodes_wf.

(** ** The laws *)

Definition mem_stored (m : CodesTable) (id : Z) : option Code := List.find (byId id) (mc_rows (proj1_sig m)).
Definition mem_latest_id (m : CodesTable) (a : Z) (p : Purpose) : option Z :=
  c_ID <$> List.find (ofAccount a p) (rev (mc_rows (proj1_sig m))).

Lemma stored_fmap (f : Code → Code) (rows : list Code) id :
  (∀ x, c_ID (f x) = c_ID x) → List.find (byId id) (f <$> rows) = f <$> List.find (byId id) rows.
Proof. intros Hf. apply find_fmap. intros x. unfold byId. by rewrite Hf. Qed.

Lemma latest_fmap (f : Code → Code) (rows : list Code) a p :
  (∀ x, c_ID (f x) = c_ID x) → (∀ x, ofAccount a p (f x) = ofAccount a p x) →
  c_ID <$> List.find (ofAccount a p) (rev (f <$> rows)) = c_ID <$> List.find (ofAccount a p) (rev rows).
Proof.
  intros Hf Ha. rewrite rev_fmap, find_fmap by done. rewrite <-option_fmap_compose.
  destruct (List.find _ _); cbn; [|done]. by rewrite Hf.
Qed.

Lemma mem_law_latest (s : CodesTable) a p c : mem_Latest (proj1_sig s) a p = Ok c →
  mem_stored s (c_ID c) = Some c ∧ mem_latest_id s a p = Some (c_ID c) ∧ c_AccountID c = a ∧ c_Purpose c = p.
Proof.
  unfold mem_Latest, mem_stored, mem_latest_id. destruct (List.find _ _) as [x|] eqn:E; [|done]. intros [= ->].
  apply find_some in E as [Hin Ha]. unfold ofAccount in Ha. rewrite andb_true_iff, Z.eqb_eq, bool_decide_eq_true in Ha.
  split; [|by destruct Ha]. apply find_byId; [apply (proj2_dsig s)|]. apply list_elem_of_In. by apply in_rev.
Qed.

Lemma mem_law_save c r now (s s' : CodesTable) :
  lift_op (mem_SaveVerification c r now) (wf_SaveVerification c r now) s = (Ok (), s') →
  ∃ old new, mem_stored s (c_ID c) = Some old ∧ untouched old = true ∧ c_Attempts old = r ∧
    mem_stored s' (c_ID c) = Some new ∧ ident new = ident old ∧ status new = status c ∧
    (∀ id, id ≠ c_ID c → mem_stored s' id = mem_stored s id) ∧
    (∀ a p, mem_latest_id s' a p = mem_latest_id s a p).
Proof.
  unfold lift_op. intros [= Ho <-]. unfold mem_stored, mem_latest_id, mem_SaveVerification in *. cbn [proj1_sig dexist] in *.
  pose proof (save_rows_spec c r (mc_rows (proj1_sig s)) (proj1 (proj2_dsig s))) as Hs.
  destruct (save_rows _ _ _) as [rows|e]; [|done]. destruct Hs as (-> & old & Hold & Hu & Ha). cbn [mc_rows snd] in *.
  assert (∀ x, c_ID (saved_row c x) = c_ID x) as Hid by (intros; apply saved_row_keeps).
  pose proof (find_some _ _ Hold) as [_ Hoid]. unfold byId in Hoid.
  exists old, (saved_row c old). rewrite stored_fmap by done. rewrite Hold. repeat split; try done.
  - unfold saved_row. by rewrite Hoid.
  - unfold saved_row. by rewrite Hoid.
  - intros id Hne. rewrite stored_fmap by done. destruct (List.find (byId id) _) as [x|] eqn:E; [|done]. cbn.
    apply find_some in E as [_ E]. unfold byId in E. unfold saved_row. destruct (Z.eqb_spec (c_ID x) (c_ID c)); [|done].
    apply Z.eqb_eq in E. congruence.
  - intros a p. apply latest_fmap; [done|]. intros. apply saved_row_keeps.
Qed.

Lemma mem_law_ended (s s' : CodesTable) a p now id :
  mc_rows (proj1_sig s') = end_row a p now <$> mc_rows (proj1_sig s) →
  option_Forall2 (ended a p) (mem_stored s id) (mem_stored s' id).
Proof.
  intros Hr. unfold mem_stored. rewrite Hr, stored_fmap by (intros; apply end_row_keeps).
  destruct (List.find _ _); constructor. apply end_row_ended.
Qed.

Lemma mem_law_issue c now (s : CodesTable) c' (s' : CodesTable) :
  lift_op (mem_Issue c now) (wf_Issue c now) s = (Ok c', s') →
  mem_stored s (c_ID c') = None ∧ mem_stored s' (c_ID c') = Some c' ∧
  ident (set_id c' 0) = ident (set_id c 0) ∧ status c' = status c ∧
  mem_latest_id s' (c_AccountID c) (c_Purpose c) = Some (c_ID c') ∧
  (∀ a p, (a, p) ≠ (c_AccountID c, c_Purpose c) → mem_latest_id s' a p = mem_latest_id s a p) ∧
  (∀ id, id ≠ c_ID c' → option_Forall2 (ended (c_AccountID c) (c_Purpose c)) (mem_stored s id) (mem_stored s' id)).
Proof.
  unfold lift_op. intros [= <- <-]. unfold mem_stored, mem_latest_id. cbn [proj1_sig dexist mc_rows snd mem_Issue endLocked mc_next].
  destruct (proj2_dsig s) as [Hnd Hlt]. rewrite list.Forall_forall in Hlt.
  set (rows := mc_rows (proj1_sig s)) in *. set (next := mc_next (proj1_sig s)) in *.
  set (f := end_row (c_AccountID c) (c_Purpose c) now).
  assert (∀ x, c_ID (f x) = c_ID x) as Hf by (intros; apply end_row_keeps).
  assert (∀ id, List.find (byId id) ((f <$> rows) ++ [set_id c next]) =
    if id =? next then Some (set_id c next) else f <$> List.find (byId id) rows) as Hfind.
  { intros id. rewrite find_app_l, stored_fmap by done. destruct (Z.eqb_spec id next) as [->|Hne].
    - rewrite find_byId_none by (intros x Hx; apply Hlt in Hx; lia). cbn. unfold byId. cbn. by rewrite Z.eqb_refl.
    - destruct (List.find (byId id) rows); [done|]. cbn. unfold byId. cbn. by destruct (Z.eqb_spec next id). }
  split; [apply find_byId_none; intros x Hx; apply Hlt in Hx; cbn; lia|].
  split; [cbn [c_ID set_id]; by rewrite Hfind, Z.eqb_refl|]. split; [done|]. split; [done|].
  rewrite rev_app_distr. cbn [rev app List.find].
  split; [|split].
  - unfold ofAccount at 1. cbn [c_AccountID c_Purpose set_id]. by rewrite Z.eqb_refl, bool_decide_eq_true_2.
  - intros a p Hne. unfold ofAccount at 1.
    cbn [c_AccountID c_Purpose set_id]. destruct ((c_AccountID c =? a) && bool_decide (c_Purpose c = p)) eqn:E.
    + apply andb_true_iff in E as [<-%Z.eqb_eq <-%bool_decide_eq_true]. done.
    + apply latest_fmap; [done|]. intros. apply end_row_keeps.
  - intros id Hne. rewrite Hfind. cbn in Hne. destruct (Z.eqb_spec id next); [done|].
    destruct (List.find (byId id) rows); constructor. apply end_row_ended.
Qed.

#[export] Instance mem_CodeStoreLaws : CodeStoreLaws CodesTable.
Proof.
  refine {| stored := mem_stored; latest_id := mem_latest_id |}.
  - intros s id c H. apply find_some in H as [_ H]. by apply Z.eqb_eq.
  - apply mem_law_latest.
  - intros s a p id. unfold mem_latest_id, mem_stored. destruct (List.find _ _) as [x|] eqn:E; [|done]. intros [= <-].
    apply find_some in E as [Hin _]. exists x. apply find_byId; [apply (proj2_dsig s)|]. apply list_elem_of_In. by apply in_rev.
  - intros s a p e. cbn. unfold mem_Latest. case_match; [done|]. by intros [= <-].
  - apply mem_law_save.
  - intros c r now s s' e [= He <-]. apply dsig_eq. cbn. unfold mem_SaveVerification in *. by destruct (save_rows _ _ _).
  - intros c r now s s' e [= He <-] _. unfold mem_SaveVerification in He.
    pose proof (save_rows_spec c r (mc_rows (proj1_sig s)) (proj1 (proj2_dsig s))) as Hs.
    destruct (save_rows _ _ _); [done|]. apply Hs.
  - apply mem_law_issue.
  - done.
  - intros a p now s s' [= <-]. split; [intros id; by eapply mem_law_ended|]. intros a' p'. unfold mem_latest_id. cbn.
    apply latest_fmap; intros; apply end_row_keeps.
  - done.
Defined.
