(* ===== verification/CodesProps.v ===== *)
(** * Properties of one-time codes

    Under every interleaving of requests: guesses are limited, a code is used at
    most once, and a verification ends on an answer. *)

From S2P Require Import Prelude Apperr Clock Codes CodeStore MemCodes.

Local Open Scope Z_scope.

Lemma NewCodes_limit a b d sec r c :
  NewCodes a b d sec r = Ok c → Attempts r <= Int64.max_value → 0 < limit c ∧ limit c <= Int64.max_value.
Proof.
  unfold NewCodes, limit. intros H Hr. repeat (case_match; try done). injection H as <-. cbn.
  destruct (Z.leb_spec (Attempts r) 0); [done|lia].
Qed.

Lemma NewCodes_limit_lt a b d sec r c :
  NewCodes a b d sec r = Ok c → Attempts r < Int64.max_value → limit c < Int64.max_value.
Proof.
  unfold NewCodes, limit. intros H Hr. repeat (case_match; try done). injection H as <-. cbn.
  destruct (Z.leb_spec (Attempts r) 0); [done|lia].
Qed.

Lemma empty_ok {St : Type} `{!CodeStore St} `{!CodeStoreLaws St} (c : Codes) (s : St) :
  (∀ id, stored s id = None) → world_ok c (mkWorld s ∅ []).
Proof. intros Hs. split; [|apply map_Forall_empty]. intros i. cbn. by rewrite Hs. Qed.

(** ** Rounds of a verification *)
Section Rounds.
Context {St : Type} `{!CodeStore St} `{!CodeStoreLaws St}.
Variable c : Codes.
Variables (a : Z) (p : Purpose).

(** The guesses left on the latest code; 0 when there is none to verify. *)
Definition guesses_left (s : St) : Z :=
  match latest_id s a p ≫= stored s with
  | Some code => if untouched code then limit c - c_Attempts code else 0
  | None => 0
  end.

Lemma guesses_left_advances s s' :
  guarded c s → advances a p s s' →
  guesses_left s' <= guesses_left s.
Proof.
  intros Hg [Hl Hs]. unfold guesses_left. rewrite Hl. destruct (latest_id s a p) as [id|] eqn:E; cbn; [|done].
  destruct (law_latest_stored _ _ _ _ E) as [code Hc]. rewrite Hc. destruct (Hs _ _ Hc) as (code' & -> & Hle & Hu). cbn.
  destruct (untouched code') eqn:Eu'; [rewrite Hu by done; lia|]. destruct (untouched code) eqn:Eu; [|done].
  pose proof (Hg _ _ Hc Eu). lia.
Qed.

Lemma guesses_left_latest s code :
  Latest s a p = Ok code → untouched code = true → guesses_left s = limit c - c_Attempts code.
Proof. intros (Hs & Hl & _)%law_latest Hu. unfold guesses_left. rewrite Hl. cbn. by rewrite Hs, Hu. Qed.

(** A conflict means the latest code lost a guess, or ended, since it was read. *)
Lemma conflict_costs s s' code hash now e s'' :
  guarded c s → advances a p s s' → Latest s a p = Ok code → untouched code = true →
  verifySave c code hash now s' = (Err e, s'') → errors_Is e ErrCodeConflict = true →
  s'' = s' ∧ guesses_left s' < guesses_left s.
Proof.
  intros Hg [Hlat Hadv] Hl Hu Hv He. pose proof (guesses_left_latest _ _ Hl Hu) as Hleft.
  pose proof (law_latest _ _ _ _ Hl) as (Hst & Hid & _ & _). pose proof (Hg _ _ Hst Hu) as Hb.
  destruct (Hadv _ _ Hst) as (code' & Hst' & Hle & _).
  unfold verifySave in Hv. destruct (negb (Live code now)); [by injection Hv as <- <-|].
  destruct (judge c code hash now) as [cj refusal] eqn:Ej.
  destruct (SaveVerification cj (c_Attempts code) now s') as [[[]|e'] s3] eqn:Es.
  { destruct refusal as [re|]; [|done]. injection Hv as <- <-. exfalso. unfold judge in Ej.
    revert Ej He. repeat case_match; intros [= <- <-]; done. }
  injection Hv as <- <-. destruct (errors_Is e' ErrCodeConflict) eqn:Ec; [|cbn in He; congruence].
  assert (c_ID cj = c_ID code) as Hcid.
  { pose proof (judge_ident c code hash now) as Hj. rewrite Ej in Hj. unfold ident in Hj. cbn in Hj. congruence. }
  pose proof (law_save_conflict _ _ _ _ _ _ Es Ec) as Hno. rewrite Hcid in Hno. apply law_save_err in Es as ->.
  split; [done|]. rewrite Hleft. unfold guesses_left. rewrite Hlat, Hid. cbn. rewrite Hst'.
  destruct (untouched code') eqn:Eu'; [|lia]. specialize (Hno _ Hst' Eu'). lia.
Qed.

Lemma verifyRead_err s e : verifyRead s a p = Err e → errors_Is e ErrCodeConflict = false.
Proof.
  unfold verifyRead. destruct (Latest s a p) as [code|err] eqn:E; [by case_match; intros [= <-]|].
  apply law_latest_err in E. destruct (errors_Is err ErrCodeNotFound); by intros [= <-].
Qed.

Lemma verifyRounds_answers hash clock (others : nat → St → St) n i s :
  (∀ j s, guarded c s → guarded c (others j s) ∧ advances a p s (others j s)) →
  guarded c s → guesses_left s < Z.of_nat n →
  match (verifyRounds c n i a p hash clock others s).1 with
  | Err e => errors_Is e ErrCodeConflict = false
  | Ok _ => True
  end.
Proof.
  intros Ho. revert i s. induction n as [|n IH]; intros i s Hg Hn.
  - exfalso. revert Hn. unfold guesses_left. destruct (latest_id s a p) as [id|] eqn:El; cbn; [|lia].
    destruct (stored s id) as [code|] eqn:Es; [|lia]. destruct (untouched code) eqn:Eu; [|lia].
    pose proof (Hg _ _ Es Eu). lia.
  - cbn [verifyRounds]. unfold verifyOnce.
    destruct (Ho (2 * i)%nat s Hg) as [Hg1 Ha1].
    pose proof (guesses_left_advances _ _ Hg Ha1) as Hle1. set (s1 := others (2 * i)%nat s) in *.
    destruct (Ho (2 * i + 1)%nat s1 Hg1) as [Hg2 Ha2].
    destruct (verifyRead s1 a p) as [code|e] eqn:Er; [|apply verifyRead_err in Er; by rewrite Er].
    unfold verifyRead in Er. destruct (Latest s1 a p) as [code0|err] eqn:El; [|by destruct (errors_Is err ErrCodeNotFound)].
    destruct (untouched code0) eqn:Eu; [|done]. injection Er as ->.
    destruct (verifySave c code hash (clock i) (others (2 * i + 1)%nat s1)) as [[t|e] s2] eqn:Ev; [done|].
    destruct (errors_Is e ErrCodeConflict) eqn:Ee; [|done].
    destruct (conflict_costs _ _ _ _ _ _ _ Hg1 Ha2 El Eu Ev Ee) as [-> Hlt].
    apply IH; [done|lia].
Qed.

Lemma guesses_left_bound s : guarded c s → 0 < limit c → guesses_left s <= limit c.
Proof.
  intros Hg H0. unfold guesses_left. destruct (latest_id s a p) as [id|]; cbn; [|lia].
  destruct (stored s id) as [code|] eqn:Es; [|lia]. destruct (untouched code) eqn:Eu; [|lia].
  pose proof (Hg _ _ Es Eu). lia.
Qed.
End Rounds.

(** ** A history of the store in memory *)

Definition sampleCodes : Codes := mkCodes "0123456789abcdef0123456789abcdef" (mkCodeRules (15 * Time.Minute) 2 (60 * Time.Second) 5).
Definition sampleReq : IssueCode := mkIssueCode 7 PurposeEmailChange "ana@example.com" "ana@example.com" "Ana" "hr" "10.0.0.1".

(** Two verifications read the code before either saves: the first guess counts,
    the second loses the race, reads again and uses the last attempt. *)
Definition sampleHistory : list event :=
  [ EvIssue sampleReq "right" 0; EvRead 1 7 PurposeEmailChange; EvRead 2 7 PurposeEmailChange;
    EvSave 1 "wrong" 1; EvSave 2 "wrong" 2; EvRead 2 7 PurposeEmailChange; EvSave 2 "wrong" 3;
    EvRead 3 7 PurposeEmailChange; EvSave 3 "right" 4 ].

(** ** Theorems *)

(** C33. The guesses at a code are limited and a code is used at most once,
    whatever the interleaving: from a store without codes, after any sequence of
    issues, reads and saves of verifications and cancellations of any number of
    requests, the guesses saved for a code are at most [Attempts] wrong ones, or
    fewer than [Attempts] wrong ones and one right one, the last. *)
Theorem code_guesses_bounded {St : Type} `{!CodeStore St} `{!CodeStoreLaws St}
    (sec : string) (r : CodeRules) (c : Codes) (s : St) (es : list event) (id : Z) :
  NewCodes true true true sec r = Ok c → Attempts r <= Int64.max_value →
  (∀ id, stored s id = None) →
  let log := guesses id (w_log (run c (mkWorld s ∅ []) es)) in
  ∃ wrong : nat,
    (log = repeat false wrong ∧ Z.of_nat wrong <= Attempts (rules c)) ∨
    (log = repeat false wrong ++ [true] ∧ Z.of_nat wrong < Attempts (rules c)).
Proof.
  intros Hc Hr Hs log. destruct (NewCodes_limit _ _ _ _ _ _ Hc Hr) as [H0 Hm].
  destruct (run_ok c _ es H0 Hm (empty_ok c s Hs)) as [Hrec _]. specialize (Hrec id). fold log in Hrec.
  destruct (stored _ id) as [code|]; [|exists 0%nat; left; split; [done|unfold limit in *; lia]].
  unfold status, recorded in Hrec. destruct Hrec as (Ha & -> & Hb). exists (Z.to_nat (c_Attempts code)).
  unfold limit in *. rewrite Z2Nat.id by done.
  destruct (consumed code); cbn in *; [by right|]. left. rewrite app_nil_r. split; [done|].
  destruct (invalidated code); cbn in Hb; lia.
Qed.

Lemma code_guesses_bounded_witness :
  guesses 1 (w_log (run sampleCodes (mkWorld emptyCodes ∅ []) sampleHistory)) = [false; false] ∧
  ∃ wrong : nat,
    ([false; false] = repeat false wrong ∧ Z.of_nat wrong <= 2) ∨
    ([false; false] = repeat false wrong ++ [true] ∧ Z.of_nat wrong < 2).
Proof.
  assert (guesses 1 (w_log (run sampleCodes (mkWorld emptyCodes ∅ []) sampleHistory)) = [false; false]) as E
    by (vm_compute; reflexivity).
  split; [exact E|]. rewrite <-E.
  apply (code_guesses_bounded "0123456789abcdef0123456789abcdef" (mkCodeRules 0 2 0 0) sampleCodes emptyCodes sampleHistory 1);
    [vm_compute; reflexivity|vm_compute; discriminate|intros id; reflexivity].
Defined.

(** A verification ends on a definite answer: in a store any history of requests
    led to, while no new code is issued for the account and purpose, [Attempts + 1]
    rounds are enough whatever other requests do between and within them, so the
    answer is never the conflict of two requests. *)
Theorem Verify_reaches_an_answer {St : Type} `{!CodeStore St} `{!CodeStoreLaws St}
    (hmac_hex : string → string → string) (sec : string) (r : CodeRules) (c : Codes) (s0 : St)
    (history : list event) (a : Z) (p : Purpose) (plain : string) (clock : nat → Z)
    (reads : nat → gmap nat Code) (es : nat → list event) :
  NewCodes true true true sec r = Ok c → Attempts r < Int64.max_value →
  (∀ id, stored s0 id = None) →
  (∀ i, reads_ok (reads i)) → (∀ i, Forall (λ e, not_issued a p e = true) (es i)) →
  let s := w_store (run c (mkWorld s0 ∅ []) history) in
  let others i s := w_store (run c (mkWorld s (reads i) []) (es i)) in
  match (Verify hmac_hex c a p plain clock others s).1 with
  | Ok _ => True
  | Err e => errors_Is e ErrCodeConflict = false
  end.
Proof.
  intros Hc Hr Hs0 Hreads Hes s others. destruct (NewCodes_limit _ _ _ _ _ _ Hc ltac:(lia)) as [H0 Hm].
  pose proof (NewCodes_limit_lt _ _ _ _ _ _ Hc Hr) as Hm'.
  pose proof (record_ok_guarded c _ _ (proj1 (run_ok c _ history H0 Hm (empty_ok c s0 Hs0)))) as Hg. fold s in Hg.
  pose proof (guesses_left_bound c a p s Hg H0) as Hb. unfold Verify. apply verifyRounds_answers; [|done|].
  - intros j s' Hg'. apply (moves_run c a p (mkWorld s' (reads j) []) (es j)); [done|lia|apply Hreads|apply Hes|done].
  - unfold limit in *. rewrite Int64.wrap_id by (unfold Int64.min_value; lia). lia.
Qed.

Lemma Verify_reaches_an_answer_witness :
  let others i s := w_store (run sampleCodes (mkWorld s ∅ []) [EvCancel 7 PurposeEmailChange 5]) in
  match (Verify (λ _ t, t) sampleCodes 7 PurposeEmailChange "123456" (λ _, 1) others
           (w_store (run sampleCodes (mkWorld emptyCodes ∅ []) (take 1 sampleHistory)))).1 with
  | Ok _ => True
  | Err e => errors_Is e ErrCodeConflict = false
  end.
Proof.
  apply (Verify_reaches_an_answer (λ _ t, t) "0123456789abcdef0123456789abcdef" (mkCodeRules 0 2 0 0) sampleCodes emptyCodes
    (take 1 sampleHistory) 7 PurposeEmailChange "123456" (λ _, 1) (λ _, ∅) (λ _, [EvCancel 7 PurposeEmailChange 5]));
    [vm_compute; reflexivity|vm_compute; reflexivity|intros id; reflexivity|intros i; apply map_Forall_empty
    |intros i; repeat constructor].
Defined.

(** What a code that was issued and sent went through. *)
Lemma Issue_Ok {St : Type} `{!CodeStore St} hmac_hex c now now' random send req (s s' : St) shown :
  Issue hmac_hex c now now' random send req s = (Ok shown, s') →
  ∃ n code, random = Ok n ∧ checkCanIssue c s req now = Ok () ∧
    StoreIssue (issuedCode c req (hash hmac_hex c (in_AccountID req) (in_Purpose req) (fmt_0d CodeLength n)) now) now s
      = (Ok code, s') ∧
    send (mkCodeMessage (in_Purpose req) (in_Recipient req) (in_Name req) (in_Locale req) (fmt_0d CodeLength n)
            (c_ExpiresAt code)) = None ∧ shown = pending c code.
Proof.
  unfold Issue. destruct (checkCanIssue c s req now) as [[]|e]; [|done].
  destruct random as [n|err]; [|done]. cbn [newCode].
  destruct (StoreIssue _ now s) as [[code|err] s1] eqn:Ei; [|done].
  destruct (send _) as [sendErr|] eqn:Esend; [by destruct (InvalidateLive _ _ _ _) as [[[]|]]|].
  intros [= <- <-]. by exists n, code.
Qed.

Lemma checkCanIssue_Ok {St : Type} `{!CodeStore St} c (s : St) req now :
  checkCanIssue c s req now = Ok () →
  (∀ latest, Latest s (in_AccountID req) (in_Purpose req) = Ok latest → c_CreatedAt latest + Cooldown (rules c) <= now) ∧
  (∃ k oldest, IssuedSince s (in_AccountID req) (in_Purpose req) (now - codeWindow) = Ok (k, oldest) ∧ k < PerHour (rules c)).
Proof.
  intros (? & Hcool & Hcap)%outcome_bind_Ok. split.
  - intros latest Hl. rewrite Hl in Hcool. cbn in Hcool. unfold Time.Before in Hcool.
    destruct (Z.ltb_spec now (c_CreatedAt latest + Cooldown (rules c))); [done|lia].
  - destruct (IssuedSince _ _ _ _) as [[k oldest]|]; [|done].
    exists k, oldest. split; [done|]. by destruct (Z.ltb_spec k (PerHour (rules c))).
Qed.

(** Issuing keeps the pace and leaves one live code. A code is issued only when
    the cooldown of the latest one is over and fewer than [PerHour] were issued in
    the last hour; it is then the latest, bound by its hash to the account, the
    purpose and the text that was sent, and no other code of the account and
    purpose can be verified. A refusal changes nothing; a code that could not be
    sent leaves none that can be verified. *)
Theorem Issue_paces_and_supersedes {St : Type} `{!CodeStore St} `{!CodeStoreLaws St}
    (hmac_hex : string → string → string) (c : Codes) (s : St) (now now' : Z) (random : result Z)
    (send : CodeMessage → option error) (req : IssueCode) :
  let a := in_AccountID req in let p := in_Purpose req in
  match Issue hmac_hex c now now' random send req s with
  | (Ok shown, s') =>
      ∃ n code, random = Ok n ∧ stored s (c_ID code) = None ∧ stored s' (c_ID code) = Some code ∧
        latest_id s' a p = Some (c_ID code) ∧ untouched code = true ∧
        c_Hash code = hash hmac_hex c a p (fmt_0d CodeLength n) ∧ c_Target code = in_Target req ∧
        send (mkCodeMessage p (in_Recipient req) (in_Name req) (in_Locale req) (fmt_0d CodeLength n)
                (c_ExpiresAt code)) = None ∧
        (∀ id old, id ≠ c_ID code → stored s' id = Some old → endable a p old = false) ∧
        (∀ latest, Latest s a p = Ok latest → c_CreatedAt latest + Cooldown (rules c) <= now) ∧
        (∃ k oldest, IssuedSince s a p (now - codeWindow) = Ok (k, oldest) ∧ k < PerHour (rules c)) ∧
        shown = pending c code
  | (Err e, s') =>
      s' = s ∨
      (HasReason e ReasonCodeNotDelivered = true ∧ ∀ id code, stored s' id = Some code → endable a p code = false) ∨
      (∃ s1 err, InvalidateLive a p now' s1 = (Err err, s') ∧ ∃ m, is_Some (send m))
  end.
Proof.
  intros a p. destruct (Issue _ _ _ _ _ _ _ _) as [[shown|e] s'] eqn:EI.
  - apply Issue_Ok in EI as (n & code & -> & Hchk & Ei & Hsend & ->). fold a p in Hsend. exists n, code.
    apply checkCanIssue_Ok in Hchk as [Hcool Hcap].
    destruct (law_issue_ok _ _ _ _ _ Ei) as (Hnew & Hst & Hid & Hstat & Hlat & _ & He).
    unfold ident in Hid. cbn in Hid. injection Hid as Ha Hp Ht Hh.
    do 4 (split; [done|]). split; [rewrite untouched_status; unfold status in Hstat; by injection Hstat as _ -> ->|].
    do 3 (split; [done|]). split; [|done]. intros id old Hne Hold. specialize (He id Hne). rewrite Hold in He.
    inversion He as [y ? Hy Hs Heq|]; subst. by eapply ended_none_endable.
  - unfold Issue in EI. fold a p in EI. destruct (checkCanIssue c s req now) as [[]|e']; [|left; congruence].
    destruct (newCode random) as [plain|err]; [|left; congruence].
    destruct (StoreIssue _ now s) as [[code|err] s1] eqn:Ei; [|left; apply law_issue_err in Ei; congruence].
    right. destruct (send _) as [sendErr|] eqn:Esend; [|done].
    destruct (InvalidateLive a p now' s1) as [[[]|err] s2] eqn:Ev; injection EI as <- <-;
      [left|right; exists s1, err; eauto].
    split; [done|]. apply law_invalidate_ok in Ev as [Hend _]. intros id x Hx. specialize (Hend id). rewrite Hx in Hend.
    inversion Hend as [y ? Hy Hs Heq|]; subst. by eapply ended_none_endable.
Qed.

Lemma mem_Latest_total (s : CodesTable) a p id code :
  latest_id s a p = Some id → stored s id = Some code → Latest s a p = Ok code.
Proof.
  intros Hl Hs. destruct (Latest s a p) as [x|e] eqn:E.
  - apply law_latest in E as (Hx & Hl' & _). congruence.
  - exfalso. cbn in *. unfold mem_Latest, mem_latest_id in *. by destruct (List.find _ _).
Qed.

(** A live code and its text: verified once, and then no more. *)
Lemma mem_verify_consumes (c : Codes) (s : CodesTable) a p code hash now :
  Latest s a p = Ok code → Live code now = true → c_Hash code = hash →
  ∃ s' code', verifySave c code hash now s = (Ok (c_Target code), s') ∧
    Latest s' a p = Ok code' ∧ untouched code' = false.
Proof.
  intros Hl Hlive Hh. pose proof (law_latest _ _ _ _ Hl) as (Hst & Hid & _).
  assert (untouched code = true) as Hu by (unfold Live in Hlive; by apply andb_true_iff in Hlive as [? _]).
  unfold verifySave. rewrite Hlive. cbn [negb]. unfold judge. rewrite bool_decide_eq_true_2 by done.
  set (code' := set_outcome code (c_Attempts code) (Some now) (c_InvalidatedAt code)).
  destruct (SaveVerification code' (c_Attempts code) now s) as [[[]|e] s'] eqn:Es.
  - destruct (law_save_ok _ _ _ _ _ Es) as (old & new & _ & _ & _ & Hn & _ & Hstat & _ & Hlat).
    exists s', new. split; [done|]. split; [apply (mem_Latest_total _ _ _ (c_ID code)); [by rewrite Hlat|done]|].
    destruct (status_eq _ _ Hstat) as (_ & _ & _ & ->). done.
  - exfalso. assert (errors_Is e ErrCodeConflict = true) as He.
    { apply (f_equal fst) in Es. cbn in Es. unfold mem_SaveVerification in Es.
      pose proof (save_rows_spec code' (c_Attempts code) (mc_rows (proj1_sig s)) (proj1 (proj2_dsig s))) as Hs.
      destruct (save_rows _ _ _); [done|]. destruct Hs as [-> _]. by injection Es as <-. }
    by apply (law_save_conflict _ _ _ _ _ _ Es He code).
Qed.

Lemma NewCodes_rounds sec r c :
  NewCodes true true true sec r = Ok c → Attempts r < Int64.max_value →
  ∃ n, Z.to_nat (Int64.wrap (Attempts (rules c) + 1)) = S n.
Proof.
  intros Hc Hr. destruct (NewCodes_limit _ _ _ _ _ _ Hc ltac:(lia)) as [H0 _].
  pose proof (NewCodes_limit_lt _ _ _ _ _ _ Hc Hr). unfold limit in *.
  rewrite Int64.wrap_id by (unfold Int64.min_value; lia). exists (Z.to_nat (Attempts (rules c))). lia.
Qed.

(** A code that was issued verifies once: over the store in memory, the text
    that was sent confirms the target while the code is in time, and a second
    verification, with any text, finds no code waiting. *)
Theorem Issue_Verify_roundtrip (hmac_hex : string → string → string) (sec : string) (r : CodeRules) (c : Codes)
    (s s1 : CodesTable) (now now' n : Z) (send : CodeMessage → option error) (req : IssueCode) (shown : PendingCode)
    (clock clock' : nat → Z) (guess : string) :
  NewCodes true true true sec r = Ok c → Attempts r < Int64.max_value →
  Issue hmac_hex c now now' (Ok n) send req s = (Ok shown, s1) → clock 0%nat < now + TTL (rules c) →
  let a := in_AccountID req in let p := in_Purpose req in
  ∃ s2, Verify hmac_hex c a p (fmt_0d CodeLength n) clock (λ _ s, s) s1 = (Ok (in_Target req), s2) ∧
        Verify hmac_hex c a p guess clock' (λ _ s, s) s2 = (Err noPending, s2).
Proof.
  intros Hc Hr Hi Ht a p. apply Issue_Ok in Hi as (n' & code & [= <-] & _ & Ei & _).
  destruct (law_issue_ok _ _ _ _ _ Ei) as (_ & Hst & _ & _ & Hlat & _).
  assert (code = set_id (issuedCode c req (hash hmac_hex c a p (fmt_0d CodeLength n)) now) (mc_next (proj1_sig s))) as Hcode.
  { cbn in Ei. unfold lift_op in Ei. by injection Ei as <- _. }
  pose proof (mem_Latest_total _ _ _ _ _ Hlat Hst) as Hl.
  change (Latest s1 a p = Ok code) in Hl.
  destruct (NewCodes_rounds _ _ _ Hc Hr) as [rounds Hrounds].
  destruct (mem_verify_consumes c s1 a p code (hash hmac_hex c a p (fmt_0d CodeLength n)) (clock 0%nat)) as (s2 & code' & Hv & Hl2 & Hu2);
    [done|rewrite Hcode; by apply Z.ltb_lt|by rewrite Hcode|].
  exists s2. unfold Verify. rewrite Hrounds. cbn [verifyRounds]. unfold verifyOnce, verifyRead.
  rewrite Hl, Hl2, Hu2. replace (untouched code) with true by (by rewrite Hcode).
  rewrite Hv, Hcode. done.
Qed.

Lemma Issue_Verify_roundtrip_witness :
  ∃ s1 shown s2,
    Issue (λ _ t, t) sampleCodes 0 0 (Ok 42) (λ _, None) sampleReq emptyCodes = (Ok shown, s1) ∧
    Verify (λ _ t, t) sampleCodes 7 PurposeEmailChange (fmt_0d CodeLength 42) (λ _, 60) (λ _ s, s) s1
      = (Ok "ana@example.com", s2).
Proof.
  destruct (Issue (λ _ t, t) sampleCodes 0 0 (Ok 42) (λ _, None) sampleReq emptyCodes) as [[shown|e] s1] eqn:E.
  - destruct (Issue_Verify_roundtrip (λ _ t, t) "0123456789abcdef0123456789abcdef" (mkCodeRules 0 2 0 0) sampleCodes
      emptyCodes s1 0 0 42 (λ _, None) sampleReq shown (λ _, 60) (λ _, 60) "") as (s2 & Hv & _);
      [vm_compute; reflexivity|vm_compute; reflexivity|exact E|vm_compute; reflexivity|].
    exists s1, shown, s2. split; [reflexivity|exact Hv].
  - exfalso. apply (f_equal (λ r, is_ok r.1)) in E. vm_compute in E. discriminate E.
Defined.
