(* ===== verification/Attempts.v ===== *)
(** * Fixed windows

    What a fixed-window limiter promises for one key, and the reference limiter
    that does exactly that. The rate limiter and the counter of sign-in attempts
    are shown to answer like it. *)

From Stdlib Require Import Sorted.
From S2P Require Import Prelude Clock.

Local Open Scope Z_scope.

Section Windows.
(** The calls a window lets through, its length, and whether a call at a time
    comes after a window that ends at another. *)
Variables (limit width : Z) (late : Z → Z → bool).

(** Calls after [n] others of the same window: let through below the limit. *)
Fixpoint stamp (n : Z) (calls : list Z) : list (Z * bool) :=
  match calls with
  | [] => []
  | t :: calls' => (t, n <? limit) :: stamp (n + 1) calls'
  end.

(** Answers that come in windows: a window begins with the first call after the
    one before has ended; of the calls within it the first [limit] pass. *)
Inductive windowed : list (Z * bool) → Prop :=
| windowed_nil : windowed []
| windowed_window start calls rest :
    Forall (λ t, start <= t ∧ late t (start + width) = false) calls →
    (∀ t ok more, rest = (t, ok) :: more → late t (start + width) = true) →
    windowed rest →
    windowed (stamp 0 (start :: calls) ++ rest).

(** The reference: the end of the window and the calls it has seen. *)
Definition reference_step (w : option (Z * Z)) (t : Z) : bool * (Z * Z) :=
  match w with
  | Some (e, n) => if late t e then (0 <? limit, (t + width, 1)) else (n <? limit, (e, n + 1))
  | None => (0 <? limit, (t + width, 1))
  end.

Fixpoint reference (w : option (Z * Z)) (ts : list Z) : list (Z * bool) :=
  match ts with
  | [] => []
  | t :: ts' => let '(ok, w') := reference_step w t in (t, ok) :: reference (Some w') ts'
  end.

(** The rest of a window that began at [start] and has seen [n] calls. *)
Lemma reference_window start n ts :
  Sorted Z.le (start :: ts) →
  ∃ calls rest, reference (Some (start + width, n)) ts = stamp n calls ++ rest ∧
    Forall (λ t, start <= t ∧ late t (start + width) = false) calls ∧
    (∀ t ok more, rest = (t, ok) :: more → late t (start + width) = true) ∧ windowed rest.
Proof.
  revert start n. induction ts as [|t ts IH]; intros start n Hs.
  { exists [], []. repeat split; [constructor|done|constructor]. }
  cbn. destruct (late t (start + width)) eqn:El.
  - assert (Sorted Z.le (t :: ts)) as Hs' by (by inversion Hs).
    destruct (IH t 1 Hs') as (calls & rest & -> & Hc & Hr & Hw).
    exists [], (stamp 0 (t :: calls) ++ rest). repeat split; [constructor| |by apply windowed_window].
    cbn. by intros ??? [= <- _ _].
  - apply Sorted_inv in Hs as [Hts Hst]. apply HdRel_inv in Hst.
    assert (Sorted Z.le (start :: ts)) as Hs'.
    { apply Sorted_inv in Hts as [Hts Ht]. constructor; [done|]. destruct ts; constructor. apply HdRel_inv in Ht. lia. }
    destruct (IH start (n + 1) Hs') as (calls & rest & -> & Hc & Hr & Hw).
    exists (t :: calls), rest. repeat split; [by constructor|done..].
Qed.

Lemma reference_windowed ts : Sorted Z.le ts → windowed (reference None ts).
Proof.
  destruct ts as [|t ts]; [constructor|]. intros Hs. cbn.
  destruct (reference_window t 1 ts Hs) as (calls & rest & -> & Hc & Hr & Hw). by apply windowed_window.
Qed.

(** No window lets more than [limit] calls through. *)
Definition passed (l : list (Z * bool)) : nat := length (List.filter snd l).

Lemma stamp_passed n calls : 0 <= n → Z.of_nat (passed (stamp n calls)) <= Z.max 0 (limit - n).
Proof.
  revert n. induction calls as [|t calls IH]; intros n Hn; cbn; [lia|]. unfold passed in *. cbn.
  specialize (IH (n + 1)). destruct (Z.ltb_spec n limit); cbn; lia.
Qed.
End Windows.

(** The calls of one key among the answers of a limiter. *)
Definition of_key {A} (k : string) (l : list (string * A)) : list A :=
  (List.filter (λ x, bool_decide (x.1 = k)) l).*2.

Lemma of_key_cons {A} k k' (x : A) l :
  of_key k ((k', x) :: l) = if decide (k' = k) then x :: of_key k l else of_key k l.
Proof. unfold of_key. cbn. by case_bool_decide; case_decide. Qed.

#[global] Arguments of_key : simpl never.

(** * Sign-in attempts and the lock (src/identity/account/attempts.go, signin.go)

    The counter of attempts per login in fixed windows, and the lock after wrong
    passwords, which is never stored but read off the history of sign-ins. *)

Definition attemptWindow : Z := Time.Minute.
Definition sweepAbove : nat := 1024.

Record window : Type := mkWindow { w_end : Z; w_count : Z }.

Record attempts : Type := mkAttempts { at_limit : Z; at_windows : gmap string window }.

Definition newAttempts (limit : Z) : attempts := mkAttempts limit ∅.

(** The sweep at the start of [allow]. *)
Definition swept (a : attempts) (now : Z) : gmap string window :=
  if bool_decide (sweepAbove < size (at_windows a))%nat
  then filter (λ kw, Time.Before now (w_end kw.2) = true) (at_windows a)
  else at_windows a.

(** [allow], given the reading of the clock: the end of the window, whether the
    attempt may go on, and the table afterwards. *)
Definition allow (a : attempts) (now : Z) (login : string) : Z * bool * attempts :=
  let windows := swept a now in
  let w := match windows !! login with
           | Some w => if Time.Before now (w_end w) then w else mkWindow (now + attemptWindow) 0
           | None => mkWindow (now + attemptWindow) 0
           end in
  let w := mkWindow (w_end w) (w_count w + 1) in
  (w_end w, w_count w <=? at_limit a, mkAttempts (at_limit a) (<[login := w]> windows)).

(** ** The lock *)

Inductive SignInEvent : Set :=
| SignedIn | WrongPassword | LockedOut | RefusedInactive | SignedInAs | Unlocked
| SignedOutEverywhere | SessionRevoked.

#[export] Instance SignInEvent_eq_dec : EqDecision SignInEvent.
Proof. solve_decision. Defined.

Definition LockEvent (e : SignInEvent) : bool :=
  bool_decide (e = WrongPassword) || bool_decide (e = SignedIn) || bool_decide (e = Unlocked).

Record SignInEntry : Type := mkEntry {
  e_ID : Z;
  e_AccountID : Z;
  e_Event : SignInEvent;
  e_IP : string;
  e_Device : string;
  e_ActorID : Z;
  e_CreatedAt : Z
}.

Record Lock : Type := mkLock { After : Z; For : Z }.

Definition lock_withDefaults (l : Lock) : Lock :=
  mkLock (if After l <=? 0 then 5 else After l) (if For l <=? 0 then 15 * Time.Minute else For l).

(** [LockedUntil]; [None] is [time.Time{}, false]. *)
Definition LockedUntil (l : Lock) (latest : list SignInEntry) (now : Z) : option Z :=
  let l := lock_withDefaults l in
  if Z.of_nat (length latest) <? After l then None
  else if existsb (λ e, negb (bool_decide (e_Event e = WrongPassword))) (take (Z.to_nat (After l)) latest) then None
  else match latest with
       | [] => None
       | newest :: _ =>
           let until := e_CreatedAt newest + For l in
           if negb (Time.Before now until) then None else Some until
       end.

(** ** The counter answers like the reference, login by login *)

Definition late (t e : Z) : bool := negb (Time.Before t e).

(** The answers to attempts made at these times, in the order they take the mutex. *)
Fixpoint attempt_answers (a : attempts) (tries : list (string * Z)) : list (string * (Z * bool)) :=
  match tries with
  | [] => []
  | (login, now) :: tries' =>
      let '(_, ok, a') := allow a now login in (login, (now, ok)) :: attempt_answers a' tries'
  end.

Definition tracks (now : Z) (c : option window) (w : option (Z * Z)) : Prop :=
  match c, w with
  | None, None => True
  | None, Some (e, _) => e <= now
  | Some c, Some (e, n) => w_end c = e ∧ w_count c = n
  | Some _, None => False
  end.

Lemma tracks_later now now' c w : now <= now' → tracks now c w → tracks now' c w.
Proof. destruct c, w as [[e n]|]; cbn; try done. lia. Qed.

Lemma swept_tracks a now k w : tracks now (at_windows a !! k) w → tracks now (swept a now !! k) w.
Proof.
  unfold swept. case_bool_decide; [|done]. rewrite map_lookup_filter.
  destruct (at_windows a !! k) as [c|]; cbn; [|done]. case_guard as Eb; cbn; [done|].
  destruct w as [[e n]|]; cbn; [|done]. intros [<- _]. unfold Time.Before in Eb.
  destruct (Z.ltb_spec now (w_end c)); [by destruct Eb|lia].
Qed.

(** The running minute of a login: its window while that has not ended, else a new
    one from now. *)
Definition minute_of (a : attempts) (now : Z) (login : string) : window :=
  match at_windows a !! login with
  | Some w => if Time.Before now (w_end w) then w else mkWindow (now + attemptWindow) 0
  | None => mkWindow (now + attemptWindow) 0
  end.

(** The sweep does not change the running minute of anybody. *)
Lemma allow_minute a now login :
  let m := minute_of a now login in
  allow a now login =
    (w_end m, w_count m + 1 <=? at_limit a,
     mkAttempts (at_limit a) (<[login := mkWindow (w_end m) (w_count m + 1)]> (swept a now))).
Proof.
  unfold allow, minute_of, swept. case_bool_decide; [|done]. rewrite map_lookup_filter.
  destruct (at_windows a !! login) as [w|]; cbn; [|done]. destruct (Time.Before now (w_end w)) eqn:E; cbn.
  - rewrite option_guard_True by done. cbn. by rewrite E.
  - rewrite option_guard_False by congruence. done.
Qed.

(** One attempt of a login, next to one step of the reference. *)
Lemma allow_reference a now login w :
  tracks now (at_windows a !! login) w →
  let '(_, ok, a') := allow a now login in
  let '(ok', w') := reference_step (at_limit a) attemptWindow late w now in
  ok = ok' ∧ tracks now (at_windows a' !! login) (Some w').
Proof.
  intros Ht%swept_tracks. unfold allow, reference_step, late.
  assert (∀ n, (n + 1 <=? at_limit a) = (n <? at_limit a)) as Hlt
    by (intros n; destruct (Z.ltb_spec n (at_limit a)); [apply Z.leb_le|apply Z.leb_gt]; lia).
  destruct (swept a now !! login) as [c|], w as [[e n]|]; cbn in Ht; try done.
  - destruct Ht as [He Hn]. subst e n. destruct (Time.Before now (w_end c)); cbn; rewrite lookup_insert_eq; cbn; [by rewrite Hlt|].
    by rewrite (Hlt 0).
  - replace (Time.Before now e) with false by (symmetry; apply Z.ltb_ge; done). cbn. rewrite lookup_insert_eq.
    by rewrite (Hlt 0).
  - cbn. rewrite lookup_insert_eq. by rewrite (Hlt 0).
Qed.

Lemma allow_other a now login k w :
  k ≠ login → tracks now (at_windows a !! k) w → tracks now (at_windows (allow a now login).2 !! k) w.
Proof. intros Hne Ht%swept_tracks. cbn. by rewrite lookup_insert_ne. Qed.

Lemma attempts_reference tries a login w from :
  Sorted Z.le (from :: tries.*2) → tracks from (at_windows a !! login) w →
  of_key login (attempt_answers a tries) = reference (at_limit a) attemptWindow late w (of_key login tries).
Proof.
  revert a w from. induction tries as [|[k now] tries IH]; intros a w from Hs Ht; [done|].
  cbn in Hs. apply Sorted_inv in Hs as [Hs Hfrom%HdRel_inv]. apply (tracks_later _ _ _ _ Hfrom) in Ht.
  cbn [attempt_answers]. pose proof (allow_reference a now k) as Hstep.
  pose proof (allow_other a now k) as Hother. assert (at_limit (allow a now k).2 = at_limit a) as Hlim by done.
  destruct (allow a now k) as [[until ok] a'] eqn:Ea. cbn [snd] in *.
  rewrite !of_key_cons. destruct (decide (k = login)) as [->|Hne].
  - specialize (Hstep w Ht). cbn. destruct (reference_step _ _ _ w now) as [ok' w'].
    destruct Hstep as [-> Ht']. f_equal. rewrite <-Hlim. by eapply IH.
  - rewrite <-Hlim. eapply IH; [done|]. by apply Hother.
Qed.

Lemma tries_sorted (tries : list (string * Z)) login :
  Sorted Z.le tries.*2 → Sorted Z.le (of_key login tries).
Proof.
  intros Hs. apply Sorted_StronglySorted in Hs; [|intros ???; lia]. apply StronglySorted_Sorted.
  induction tries as [|[k t] tries IH]; [constructor|]. cbn in Hs. apply StronglySorted_inv in Hs as [Hs Hall].
  rewrite of_key_cons. case_decide; [|by apply IH]. constructor; [by apply IH|].
  apply list.Forall_forall. intros x Hx. rewrite list.Forall_forall in Hall. apply Hall.
  unfold of_key in Hx. apply list_elem_of_fmap in Hx as ([k' x'] & -> & [Hin _]%elem_of_filter_bool).
  apply (list_elem_of_fmap_2 snd) in Hin. done.
Qed.

(** ** The lock and the wrong passwords in a row *)

(** The wrong passwords since the last sign-in or unlock, and when the newest was:
    one pass over the history, oldest first. *)
Definition streak_step (st : nat * Z) (e : SignInEntry) : nat * Z :=
  match e_Event e with
  | WrongPassword => (S st.1, e_CreatedAt e)
  | SignedIn | Unlocked => (0%nat, 0)
  | _ => st
  end.

Definition streak (history : list SignInEntry) : nat * Z := foldl streak_step (0%nat, 0) history.

(** The lock events of a history, newest first. *)
Definition lock_events (history : list SignInEntry) : list SignInEntry :=
  rev (List.filter (λ e, LockEvent (e_Event e)) history).

Lemma streak_snoc h e : streak (h ++ [e]) = streak_step (streak h) e.
Proof. unfold streak. by rewrite foldl_app. Qed.

Lemma lock_events_snoc h e :
  lock_events (h ++ [e]) = if LockEvent (e_Event e) then e :: lock_events h else lock_events h.
Proof. unfold lock_events. rewrite List.filter_app. cbn. case_match; [by rewrite rev_unit|by rewrite app_nil_r]. Qed.

(** Are the [n] newest lock events wrong passwords, all of them? *)
Definition all_wrong (n : nat) (l : list SignInEntry) : bool :=
  (n <=? length l)%nat && forallb (λ e, bool_decide (e_Event e = WrongPassword)) (take n l).

#[global] Arguments all_wrong : simpl never.

Lemma all_wrong_cons e l n :
  all_wrong (S n) (e :: l) = bool_decide (e_Event e = WrongPassword) && all_wrong n l.
Proof.
  unfold all_wrong. cbn [length take forallb]. change (S n <=? S (length l))%nat with (n <=? length l)%nat.
  by destruct (n <=? length l)%nat, (bool_decide (e_Event e = WrongPassword)).
Qed.

Lemma all_wrong_streak h n : all_wrong n (lock_events h) = (n <=? (streak h).1)%nat.
Proof.
  revert n. induction h as [|e h IH] using rev_ind; intros n; [by destruct n|].
  rewrite streak_snoc, lock_events_snoc. unfold streak_step.
  pose proof (λ l n, all_wrong_cons e l n) as Hcons.
  destruct (e_Event e); cbn; try apply IH; destruct n as [|n]; try reflexivity; trans (all_wrong (S n) (e :: lock_events h)); [done| |done| |done|]; rewrite Hcons; [done|apply IH|done].
Qed.

Lemma streak_newest h : (0 < (streak h).1)%nat → ∃ e rest, lock_events h = e :: rest ∧ e_CreatedAt e = (streak h).2.
Proof.
  induction h as [|e h IH] using rev_ind; [by intros ?%Nat.lt_irrefl|].
  rewrite streak_snoc, lock_events_snoc. unfold streak_step. destruct (e_Event e) eqn:Ee; cbn; try done; try lia; eauto.
Qed.

Lemma existsb_forallb {A} (p : A → bool) l : existsb (λ x, negb (p x)) l = negb (forallb p l).
Proof. induction l as [|x l IH]; [done|]. cbn. rewrite IH. by destruct (p x). Qed.

(** The lock reads the events through [all_wrong]. *)
Lemma LockedUntil_all_wrong l latest now :
  LockedUntil l latest now =
    if all_wrong (Z.to_nat (After (lock_withDefaults l))) latest
    then match latest with
         | [] => None
         | e :: _ => let until := e_CreatedAt e + For (lock_withDefaults l) in
                     if Time.Before now until then Some until else None
         end
    else None.
Proof.
  unfold LockedUntil, all_wrong. rewrite existsb_forallb. set (n := After (lock_withDefaults l)).
  assert ((Z.to_nat n <=? length latest)%nat = negb (Z.of_nat (length latest) <? n)) as ->.
  { destruct (Z.ltb_spec (Z.of_nat (length latest)) n); cbn [negb]; [apply Nat.leb_gt|apply Nat.leb_le]; clearbody n; lia. }
  destruct (Z.of_nat (length latest) <? n); cbn; [done|]. destruct (forallb _ _); cbn; [|done].
  destruct latest; [done|]. cbn zeta. by destruct (Time.Before now _).
Qed.

Lemma all_wrong_take n m l : (n <= m)%nat → all_wrong n (take m l) = all_wrong n l.
Proof.
  intros Hnm. unfold all_wrong. rewrite take_take, Nat.min_l by done. f_equal. rewrite length_take.
  destruct (Nat.leb_spec n (length l)); [apply Nat.leb_le|apply Nat.leb_gt]; lia.
Qed.
