(* ===== verification/SignIn.v ===== *)
(** * Signing in (src/identity/account/signin_service.go, session.go, service.go)

    The service that signs people in and out and knows who a token belongs to. What
    it is built on is the class [Ports]: accounts, the sign-in history, sessions,
    the notices. The password hasher, the impersonation rules, lower-casing and
    the format of a time are arguments. [clock] gives the readings of the clock,
    numbered by the place in the code that takes them. *)

From S2P Require Import Prelude Apperr Clock Codes Attempts Engine.

Local Open Scope Z_scope.

(** ** Data *)

Record Account : Type := mkAccount {
  ac_ID : Z;
  ac_Login : string;
  ac_Email : string;
  ac_Phone : string;
  ac_Name : string;
  ac_Locale : string;
  ac_Active : bool;
  ac_PasswordHash : string;
  ac_CreatedAt : Z
}.

Definition ErrNotFound : string := "identity: account not found".
Definition ErrSessionNotFound : string := "identity: session not found".
Definition LoginMax : Z := 100.
Definition NameMax : Z := 150.
Definition EmailMax : Z := 255.
Definition PhoneMax : Z := 30.
Definition DeviceMax : Z := 255.

Record Session : Type := mkSession {
  s_ID : Z;
  s_AccountID : Z;
  s_ActorID : Z;
  s_Device : string;
  s_IP : string;
  s_LastUsedAt : Z;
  s_ExpiresAt : Z;
  s_CreatedAt : Z
}.

Record NewSession : Type := mkNewSession {
  ns_AccountID : Z;
  ns_ActorID : Z;
  ns_Device : string;
  ns_IP : string;
  ns_At : Z;
  ns_ExpiresAt : Z
}.

Record Credentials : Type := mkCredentials { cr_Access : string; cr_Refresh : string; cr_ExpiresAt : Z }.

Record Rotation : Type := mkRotation {
  ro_Refresh : string;
  ro_At : Z;
  ro_ExpiresAt : Z;
  ro_Device : string;
  ro_IP : string
}.

Record LoginAsFact : Type := mkLoginAs { la_ActorID : Z; la_TargetID : Z; la_Device : string; la_IP : string }.

Inductive EndReason : Set :=
| EndedLogout
| EndedRotation
| EndedRevoked
| EndedPasswordChanged
| EndedDeactivated
| EndedLoginAsReturn
| EndedOpenedBy.

(** The notices this service sends. *)
Inductive notice : Type :=
| SessionsEnded (AccountID : Z) (SessionIDs : list Z) (Reason : EndReason) (ActorID : Z)
| NoticeSignedInAs (fact : LoginAsFact)
| NoticeSignedOutAs (fact : LoginAsFact).

Definition endedSession (session : Session) (why : EndReason) : notice :=
  SessionsEnded (s_AccountID session) [s_ID session] why 0.

(** ** Device labels *)

(** [strings.Contains] *)
Fixpoint Contains (s sub : string) : bool :=
  String.prefix sub s || match s with EmptyString => false | String _ s' => Contains s' sub end.

Definition deviceLabelMax : Z := 80.

Definition browserOf (ua : string) : string :=
  if Contains ua "Edg/" || Contains ua "EdgA/" || Contains ua "EdgiOS/" then "Edge"
  else if Contains ua "Firefox/" || Contains ua "FxiOS/" then "Firefox"
  else if Contains ua "Chrome/" || Contains ua "CriOS/" then "Chrome"
  else if Contains ua "Safari/" || Contains ua "iPhone" || Contains ua "iPad" then "Safari"
  else "".

Definition systemOf (ua : string) : string :=
  if Contains ua "iPhone" then "iPhone"
  else if Contains ua "iPad" then "iPad"
  else if Contains ua "Android" then "Android"
  else if Contains ua "Windows" then "Windows"
  else if Contains ua "Mac OS X" || Contains ua "Macintosh" then "macOS"
  else if Contains ua "Linux" || Contains ua "X11" then "Linux"
  else "".

Definition DeviceLabel (userAgent : string) : string :=
  let ua := Utf8.TrimSpace userAgent in
  if bool_decide (ua = "") then "" else
  let browser := browserOf ua in
  let system := systemOf ua in
  if bool_decide (browser = "") || bool_decide (system = "") then
    if deviceLabelMax <? Utf8.RuneCount ua then Utf8.of_runes (take (Z.to_nat deviceLabelMax) (Utf8.runes ua)) else ua
  else browser +:+ " · " +:+ system.

(** ** Ports *)

(** What the service uses of [Store], [SignInLog], [SessionStore] and [Notices]. *)
Class Ports (St : Type) : Type := {
  Find : St → Z → result Account;
  FindByLogin : St → string → result Account;
  Record_ : SignInEntry → stM St error ();
  LockEvents : St → Z → Z → result (list SignInEntry);
  SessionsOpen : NewSession → stM St error Credentials;
  SessionsGet : St → string → Z → result Session;
  SessionsTouch : Z → Z → string → stM St error ();
  SessionsRotate : Rotation → stM St error (Session * Credentials);
  SessionsEnd : Z → list Z → Z → Z → stM St error Z;
  Notify : notice → St → St
}.

(** ** Errors *)

Definition ReasonSignInFailed : string := "identity.signin.failed".
Definition ReasonSignInLocked : string := "identity.signin.locked".
Definition ReasonSignInInactive : string := "identity.signin.inactive".
Definition ReasonSessionInvalid : string := "identity.session.invalid".
Definition ReasonAccountNotFound : string := "identity.account.not_found".
Definition ReasonAccountInactive : string := "identity.account.inactive".
Definition ReasonImpersonationDisabled : string := "identity.impersonation.disabled".
Definition ReasonImpersonationNotActive : string := "identity.impersonation.not_active".

Definition signInFailed : error :=
  WithReason (WithLog (Wrap None ReasonSignInFailed CodeInvalidArgument) LevelInfo) ReasonSignInFailed ∅.

Definition signInLocked (formatted : string) : error :=
  WithReason (WithLog (Wrap None ReasonSignInLocked CodeInvalidArgument) LevelInfo) ReasonSignInLocked
    {[ "locked_until" := PString formatted ]}.

Definition signInInactive : error := WithReason (BadRequest ReasonSignInInactive) ReasonSignInInactive ∅.
Definition sessionInvalid : error := WithReason (Unauthorized ReasonSessionInvalid) ReasonSessionInvalid ∅.
Definition accountNotFound : error := WithReason (NotFound ReasonAccountNotFound) ReasonAccountNotFound ∅.
Definition accountInactive : error := WithReason (BadRequest ReasonAccountInactive) ReasonAccountInactive ∅.

(** [reasoned] *)
Definition reasoned (err : error) : error :=
  match as_app err with
  | Some ae => if bool_decide (app_code ae = Some CodePermissionDenied) && bool_decide (app_reason ae = Some "")
               then WithReason ae ReasonForbidden ∅ else err
  | None => err
  end.

(** [noImpersonation] *)
Definition noImpersonation_Permitted (actor : Account) : option error :=
  Some (WithReason (Forbidden ReasonImpersonationDisabled) ReasonImpersonationDisabled ∅).

(** ** Configuration *)

Record Limits : Type := mkLimits { lim_Login : Z; lim_Name : Z; lim_Email : Z; lim_Phone : Z }.

Definition orWidth (v d : Z) : Z := if v =? 0 then d else v.

Definition Limits_WithDefaults (l : Limits) : Limits :=
  mkLimits (orWidth (lim_Login l) LoginMax) (orWidth (lim_Name l) NameMax) (orWidth (lim_Email l) EmailMax)
    (orWidth (lim_Phone l) PhoneMax).

Definition ErrLimits : string := "identity: Limits must be positive and no larger than go-core's widths".

(** [%+v] of the limits. *)
Definition limits_string (l : Limits) : string :=
  "{Login:" +:+ Str.fmt_d (lim_Login l) +:+ " Name:" +:+ Str.fmt_d (lim_Name l) +:+ " Email:" +:+
  Str.fmt_d (lim_Email l) +:+ " Phone:" +:+ Str.fmt_d (lim_Phone l) +:+ "}".

Definition Limits_check (l : Limits) : outcome error () :=
  let d := Limits_WithDefaults l in
  if (lim_Login l <? 0) || (lim_Name l <? 0) || (lim_Email l <? 0) || (lim_Phone l <? 0) ||
     (LoginMax <? lim_Login d) || (NameMax <? lim_Name d) || (EmailMax <? lim_Email d) || (PhoneMax <? lim_Phone d)
  then Err (errorf (ErrLimits +:+ " (login " +:+ Str.fmt_d LoginMax +:+ ", name " +:+ Str.fmt_d NameMax +:+
              ", e-mail " +:+ Str.fmt_d EmailMax +:+ ", phone " +:+ Str.fmt_d PhoneMax +:+ "): " +:+ limits_string l)
              [errNew ErrLimits])
  else Ok ().

Record Config : Type := mkConfig {
  TokenTTL : Z;
  cfg_Lock : Lock;
  AttemptsPerMinute : Z;
  cfg_Codes : CodeRules;
  ReauthLock : Lock;
  Locales : list string;
  cfg_Limits : Limits
}.

(** The defaults [New] fills in. *)
Definition cfg_withDefaults (c : Config) : Config :=
  mkConfig (if TokenTTL c <=? 0 then 24 * Time.Hour else TokenTTL c) (lock_withDefaults (cfg_Lock c))
    (if AttemptsPerMinute c <=? 0 then 10 else AttemptsPerMinute c)
    (cfg_Codes c) (ReauthLock c) (Locales c) (Limits_WithDefaults (cfg_Limits c)).

Record LoginInput : Type := mkLoginInput { li_Login : string; li_Password : string; li_Device : string; li_IP : string }.
Record Signed : Type := mkSigned { sg_Account : Account; sg_Credentials : Credentials; sg_Actor : option Account }.
Record RefreshInput : Type := mkRefreshInput { ri_Token : string; ri_Device : string; ri_IP : string }.
Record LoginAsInput : Type := mkLoginAsInput { lai_ActorID : Z; lai_TargetID : Z; lai_Device : string; lai_IP : string }.
Record ReturnInput : Type := mkReturnInput { rti_Session : Session; rti_Device : string; rti_IP : string }.
Record Authenticated : Type := mkAuthenticated { au_Account : Account; au_Session : Session; au_Actor : option Account }.

Definition touchEvery : Z := Time.Minute.

Definition missingAccounts : error :=
  errNew "identity: Deps.Accounts is missing: pass a Store, for example gormstore.New(db).Accounts".
Definition missingSignIns : error :=
  errNew "identity: Deps.SignIns is missing: pass a SignInLog, for example gormstore.New(db).SignIns".
Definition missingSessions : error :=
  errNew "identity: Deps.Sessions is missing: pass a SessionStore, for example gormstore.New(db).Sessions".
Definition missingClock : error :=
  errNew "identity: Deps.Clock is missing: pass the application's clock, app.Clock()".

(** [New]: the flags say which dependencies were passed, [Hash] is the hasher (the
    given one or Bcrypt). What the sign-in service is built with: the configuration,
    the placeholder hash and the empty table of attempts. *)
Definition New (hasAccounts hasSignIns hasSessions hasClock : bool) (Hash : string → outcome error string)
    (c : Config) : outcome error (Config * string * attempts) :=
  if negb hasAccounts then Err missingAccounts
  else if negb hasSignIns then Err missingSignIns
  else if negb hasSessions then Err missingSessions
  else if negb hasClock then Err missingClock
  else
    _ ← Limits_check (cfg_Limits c);
    let c := cfg_withDefaults c in
    match Hash "placeholder" with
    | Err err => Err (errorf ("identity: the password hasher failed: " +:+ error_text err) [err])
    | Ok placeholder => Ok (c, placeholder, newAttempts (AttemptsPerMinute c))
    end.

(** A port's error, as the service passes it on. *)
Definition internal {St A : Type} (m : stM St error A) : stM St error A := λ s,
  match m s with (Err err, s') => (Err (Internal err), s') | r => r end.

(** A port that only reads. *)
Definition reads {St A : Type} (f : St → A) : stM St error A := λ s, (Ok (f s), s).

(** [Notices] cannot fail. *)
Definition notify {St : Type} `{!Ports St} (n : notice) : stM St error () := λ s, (Ok (), Notify n s).

Section Service.
Context {St : Type} `{!Ports St}.
Variable ToLower : string → string.
Variable RFC3339 : Z → string.
Variable Matches : string → string → bool.
Variables (Permitted : Account → option error) (Covers : Account → Account → option error).
Variable cfg : Config.
Variable clock : nat → Z.

Definition NormalizeLogin (login : string) : string := ToLower (Utf8.TrimSpace login).

(** [appendEntry]; [record] is it for a sign-in. *)
Definition record (now : Z) (accountID : Z) (e : SignInEvent) (actorID : Z) (device ip : string) : stM St error () :=
  internal (Record_ (mkEntry 0 accountID e (cut (Utf8.TrimSpace ip) IPMax) (cut (Utf8.TrimSpace device) DeviceMax)
                       actorID now)).

Definition open (now accountID actorID : Z) (device ip : string) : stM St error Credentials :=
  internal (SessionsOpen (mkNewSession accountID actorID (cut (Utf8.TrimSpace device) DeviceMax)
                            (cut (Utf8.TrimSpace ip) IPMax) now (now + TokenTTL cfg))).

(** [Login] from the account on: the lock, the password, the flag, the session. *)
Definition loginAccount (acc : Account) (inp : LoginInput) : stM St error Signed :=
  let rec e := record (clock 3) (ac_ID acc) e 0 (li_Device inp) (li_IP inp) in
  latest ← reads (λ s, LockEvents s (ac_ID acc) (After (cfg_Lock cfg)));
  match latest with
  | Err err => throw (Internal err)
  | Ok latest =>
      match LockedUntil (cfg_Lock cfg) latest (clock 1) with
      | Some until => _ ← rec LockedOut; throw (signInLocked (RFC3339 until))
      | None =>
          if negb (Matches (ac_PasswordHash acc) (li_Password inp)) then _ ← rec WrongPassword; throw signInFailed
          else if negb (ac_Active acc) then _ ← rec RefusedInactive; throw signInInactive
          else
            creds ← open (clock 2) (ac_ID acc) 0 (li_Device inp) (li_IP inp);
            _ ← rec SignedIn;
            mret (mkSigned acc creds None)
      end
  end.

(** [Login] on the state of the ports and the table of attempts. A comparison with
    the placeholder hash has no result and is left out. *)
Definition Login (inp : LoginInput) : stM (St * attempts) error Signed := λ w,
  let '(s, tries) := w in
  let login := NormalizeLogin (li_Login inp) in
  let '(until, ok, tries) := allow tries (clock 0) login in
  if negb ok then (Err (signInLocked (RFC3339 until)), (s, tries)) else
  if lim_Login (cfg_Limits cfg) <? Utf8.RuneCount login then (Err signInFailed, (s, tries)) else
  match FindByLogin s login with
  | Err err => (Err (if errors_Is err ErrNotFound then signInFailed else Internal err), (s, tries))
  | Ok acc => let '(r, s') := loginAccount acc inp s in (r, (s', tries))
  end.

(** An account that must exist and be active, else the session is invalid. *)
Definition activeAccount (id : Z) : stM St error Account :=
  found ← reads (λ s, Find s id);
  match found with
  | Err err => throw (if errors_Is err ErrNotFound then sessionInvalid else Internal err)
  | Ok acc => if ac_Active acc then mret acc else throw sessionInvalid
  end.

Definition actorOf (session : Session) : stM St error (option Account) :=
  if s_ActorID session =? 0 then mret None
  else actor ← activeAccount (s_ActorID session); mret (Some actor).

Definition Refresh (inp : RefreshInput) : stM St error Signed :=
  let now := clock 0%nat in
  rotated ← (λ s, match SessionsRotate (mkRotation (ri_Token inp) now (now + TokenTTL cfg)
                          (cut (Utf8.TrimSpace (ri_Device inp)) DeviceMax) (cut (Utf8.TrimSpace (ri_IP inp)) IPMax)) s with
                  | (Err err, s') => (Err (if errors_Is err ErrSessionNotFound then sessionInvalid else Internal err), s')
                  | r => r
                  end);
  let '(session, creds) := rotated : Session * Credentials in
  _ ← notify (endedSession session EndedRotation);
  acc ← activeAccount (s_AccountID session);
  actor ← actorOf session;
  mret (mkSigned acc creds actor).

(** The live session of a token. *)
Definition liveSession (token : string) (now : Z) : stM St error Session :=
  found ← reads (λ s, SessionsGet s token now);
  match found with
  | Err err => throw (if errors_Is err ErrSessionNotFound then sessionInvalid else Internal err)
  | Ok session => mret session
  end.

Definition Logout (accessToken : string) : stM St error () :=
  session ← liveSession accessToken (clock 0);
  _ ← internal (SessionsEnd (s_AccountID session) [s_ID session] 0 (clock 1));
  _ ← notify (endedSession session EndedLogout);
  if 0 <? s_ActorID session
  then notify (NoticeSignedOutAs (mkLoginAs (s_ActorID session) (s_AccountID session)
                                   (DeviceLabel (s_Device session)) (s_IP session)))
  else mret ().

Definition refuse (e : option error) : stM St error () :=
  match e with Some err => throw (reasoned err) | None => mret () end.

Definition LoginAs (inp : LoginAsInput) : stM St error Signed :=
  actor ← activeAccount (lai_ActorID inp);
  _ ← refuse (Permitted actor);
  found ← reads (λ s, Find s (lai_TargetID inp));
  match found with
  | Err err => throw (if errors_Is err ErrNotFound then accountNotFound else Internal err)
  | Ok target =>
      if negb (ac_Active target) then throw accountInactive else
      _ ← refuse (Covers actor target);
      creds ← open (clock 0) (ac_ID target) (ac_ID actor) (lai_Device inp) (lai_IP inp);
      _ ← record (clock 1) (ac_ID target) SignedInAs (ac_ID actor) (lai_Device inp) (lai_IP inp);
      _ ← notify (NoticeSignedInAs (mkLoginAs (ac_ID actor) (ac_ID target) (DeviceLabel (lai_Device inp)) (lai_IP inp)));
      mret (mkSigned target creds (Some actor))
  end.

Definition Return (inp : ReturnInput) : stM St error Signed :=
  let session := rti_Session inp in
  actor ← actorOf session;
  match actor with
  | None => throw (WithReason (BadRequest ReasonImpersonationNotActive) ReasonImpersonationNotActive ∅)
  | Some actor =>
      creds ← open (clock 0) (ac_ID actor) 0 (rti_Device inp) (rti_IP inp);
      _ ← internal (SessionsEnd (s_AccountID session) [s_ID session] 0 (clock 1));
      _ ← notify (endedSession session EndedLoginAsReturn);
      _ ← notify (NoticeSignedOutAs (mkLoginAs (ac_ID actor) (s_AccountID session) (DeviceLabel (rti_Device inp))
                                      (rti_IP inp)));
      mret (mkSigned actor creds None)
  end.

Definition Authenticate (accessToken : string) : stM St error Authenticated :=
  if bool_decide (accessToken = "") then throw sessionInvalid else
  session ← liveSession accessToken (clock 0);
  acc ← activeAccount (s_AccountID session);
  _ ← (if touchEvery <=? Time.Sub (clock 1) (s_LastUsedAt session)
       then internal (SessionsTouch (s_ID session) (clock 1) (s_IP session)) else mret ());
  actor ← actorOf session;
  mret (mkAuthenticated acc session actor).
End Service.
