(* ===== verification/MemPorts.v ===== *)
(** * The identity stores in memory (src/identity/identitytest/stores.go)

    Accounts, the sign-in history and sessions, each under its own mutex: every
    method is one step. The random tokens are a supply that is used up in order.
    The notices are kept in the order they were sent. *)

From S2P Require Import Prelude Apperr Clock Codes Attempts SignIn.

Local Open Scope Z_scope.

Record sessionRow : Type := mkSessionRow {
  sr_Session : Session;
  sr_access : string;
  sr_refresh : string;
  sr_revoked : bool
}.

Record MemPorts : Type := mkMemPorts {
  mp_accounts : gmap Z Account;
  mp_signins : list SignInEntry;
  mp_sessions : list sessionRow;
  mp_tokens : nat → string;
  mp_drawn : nat;
  mp_notices : list notice
}.

Definition live (r : sessionRow) (now : Z) : bool :=
  negb (sr_revoked r) && Time.Before now (s_ExpiresAt (sr_Session r)).

Definition set_sessions (m : MemPorts) (rows : list sessionRow) (drawn : nat) : MemPorts :=
  mkMemPorts (mp_accounts m) (mp_signins m) rows (mp_tokens m) drawn (mp_notices m).

Definition mem_Find (m : MemPorts) (id : Z) : result Account :=
  match mp_accounts m !! id with Some a => Ok a | None => Err (errNew ErrNotFound) end.

(** A range over the map of accounts: the first with the login. *)
Definition mem_FindByLogin (ToLower : string → string) (m : MemPorts) (login : string) : result Account :=
  match List.find (λ a, bool_decide (ac_Login a = NormalizeLogin ToLower login)) (map_to_list (mp_accounts m)).*2 with
  | Some a => Ok a
  | None => Err (errNew ErrNotFound)
  end.

Definition mem_Record (row : SignInEntry) : stM MemPorts error () := λ m,
  let row := mkEntry (Z.of_nat (length (mp_signins m)) + 1) (e_AccountID row) (e_Event row) (e_IP row) (e_Device row)
               (e_ActorID row) (e_CreatedAt row) in
  (Ok (), mkMemPorts (mp_accounts m) (mp_signins m ++ [row]) (mp_sessions m) (mp_tokens m) (mp_drawn m) (mp_notices m)).

(** The loop of [LockEvents] over the rows, newest first: it stops when it has [n]. *)
Fixpoint lockEvents_loop (accountID n : Z) (rows out : list SignInEntry) : list SignInEntry :=
  match rows with
  | [] => out
  | r :: rest =>
      if (e_AccountID r =? accountID) && LockEvent (e_Event r) then
        let out := out ++ [r] in
        if Z.of_nat (length out) =? n then out else lockEvents_loop accountID n rest out
      else lockEvents_loop accountID n rest out
  end.

Definition mem_LockEvents (m : MemPorts) (accountID n : Z) : result (list SignInEntry) :=
  Ok (lockEvents_loop accountID n (rev (mp_signins m)) []).

Definition mem_Open (n : NewSession) : stM MemPorts error Credentials := λ m,
  let access := mp_tokens m (mp_drawn m) in
  let refresh := mp_tokens m (S (mp_drawn m)) in
  let session := mkSession (Z.of_nat (length (mp_sessions m)) + 1) (ns_AccountID n) (ns_ActorID n) (ns_Device n)
                   (ns_IP n) (ns_At n) (ns_ExpiresAt n) (ns_At n) in
  (Ok (mkCredentials access refresh (ns_ExpiresAt n)),
   set_sessions m (mp_sessions m ++ [mkSessionRow session access refresh false]) (S (S (mp_drawn m)))).

Definition mem_Get (m : MemPorts) (token : string) (now : Z) : result Session :=
  match List.find (λ r, bool_decide (sr_access r = token) && live r now) (mp_sessions m) with
  | Some r => Ok (sr_Session r)
  | None => Err (errNew ErrSessionNotFound)
  end.

Definition touch_row (id at_ : Z) (ip : string) (r : sessionRow) : sessionRow :=
  let s := sr_Session r in
  if s_ID s =? id
  then mkSessionRow (mkSession (s_ID s) (s_AccountID s) (s_ActorID s) (s_Device s) ip at_ (s_ExpiresAt s) (s_CreatedAt s))
         (sr_access r) (sr_refresh r) (sr_revoked r)
  else r.

Definition mem_Touch (id at_ : Z) (ip : string) : stM MemPorts error () := λ m,
  (Ok (), set_sessions m (touch_row id at_ ip <$> mp_sessions m) (mp_drawn m)).

Definition rotate_row (rot : Rotation) (access refresh : string) (r : sessionRow) : sessionRow :=
  let s := sr_Session r in
  mkSessionRow (mkSession (s_ID s) (s_AccountID s) (s_ActorID s)
      (if bool_decide (ro_Device rot ≠ "") then ro_Device rot else s_Device s) (ro_IP rot) (ro_At rot)
      (ro_ExpiresAt rot) (s_CreatedAt s)) access refresh (sr_revoked r).

(** The loop of [Rotate]: the first live row with the refresh token. *)
Fixpoint rotate_rows (rot : Rotation) (access refresh : string) (rows : list sessionRow) :
    option (Session * list sessionRow) :=
  match rows with
  | [] => None
  | r :: rest =>
      if negb (bool_decide (sr_refresh r = ro_Refresh rot)) || negb (live r (ro_At rot))
      then '(s, rest') ← rotate_rows rot access refresh rest; Some (s, r :: rest')
      else let r' := rotate_row rot access refresh r in Some (sr_Session r', r' :: rest)
  end.

Definition mem_Rotate (rot : Rotation) : stM MemPorts error (Session * Credentials) := λ m,
  let access := mp_tokens m (mp_drawn m) in
  let refresh := mp_tokens m (S (mp_drawn m)) in
  let drawn := S (S (mp_drawn m)) in
  match rotate_rows rot access refresh (mp_sessions m) with
  | Some (s, rows) => (Ok (s, mkCredentials access refresh (ro_ExpiresAt rot)), set_sessions m rows drawn)
  | None => (Err (errNew ErrSessionNotFound), set_sessions m (mp_sessions m) drawn)
  end.

(** Is the row ended by [End]? *)
Definition ends_row (accountID : Z) (ids : list Z) (keep now : Z) (r : sessionRow) : bool :=
  let s := sr_Session r in
  negb (negb (s_AccountID s =? accountID) || negb (live r now) || (s_ID s =? keep) ||
        ((0 <? length ids)%nat && negb (contains ids (s_ID s)))).

Definition mem_End (accountID : Z) (ids : list Z) (keep now : Z) : stM MemPorts error Z := λ m,
  (Ok (Z.of_nat (length (List.filter (ends_row accountID ids keep now) (mp_sessions m)))),
   set_sessions m ((λ r, if ends_row accountID ids keep now r
                         then mkSessionRow (sr_Session r) (sr_access r) (sr_refresh r) true else r) <$> mp_sessions m)
     (mp_drawn m)).

Definition mem_Notify (n : notice) (m : MemPorts) : MemPorts :=
  mkMemPorts (mp_accounts m) (mp_signins m) (mp_sessions m) (mp_tokens m) (mp_drawn m) (mp_notices m ++ [n]).

Definition mem_Ports (ToLower : string → string) : Ports MemPorts := {|
  Find := mem_Find;
  FindByLogin := mem_FindByLogin ToLower;
  Record_ := mem_Record;
  LockEvents := mem_LockEvents;
  SessionsOpen := mem_Open;
  SessionsGet := mem_Get;
  SessionsTouch := mem_Touch;
  SessionsRotate := mem_Rotate;
  SessionsEnd := mem_End;
  Notify := mem_Notify
|}.

(** ** The laws of the sign-in history *)

(** What the lock relies on: [LockEvents] gives the newest lock events of the
    account, [Record_] appends one row, and sessions leave the history alone. *)
Class PortsLaws (St : Type) `{!Ports St} : Type := {
  history : St → Z → list SignInEntry;
  law_lock_events s a n l : 0 < n → LockEvents s a n = Ok l → l = take (Z.to_nat n) (lock_events (history s a));
  law_record row s s' : Record_ row s = (Ok (), s') →
    ∃ row', e_Event row' = e_Event row ∧ e_CreatedAt row' = e_CreatedAt row ∧
      history s' (e_AccountID row) = history s (e_AccountID row) ++ [row'];
  law_open n s s' creds a : SessionsOpen n s = (Ok creds, s') → history s' a = history s a
}.

Lemma lockEvents_loop_spec a n rows out :
  0 < n → Z.of_nat (length out) < n →
  lockEvents_loop a n rows out =
    take (Z.to_nat n) (out ++ List.filter (λ r, (e_AccountID r =? a) && LockEvent (e_Event r)) rows).
Proof.
  intros Hn. revert out. induction rows as [|r rows IH]; intros out Hlt; cbn [lockEvents_loop List.filter].
  - rewrite app_nil_r, take_ge by lia. done.
  - destruct (_ && _); [|by apply IH]. destruct (Z.eqb_spec (Z.of_nat (length (out ++ [r]))) n) as [E|Hne].
    + rewrite (cons_middle r out (List.filter _ rows)), (assoc_L (++) out), take_app_length' by lia. done.
    + rewrite IH by (rewrite length_app in *; cbn in *; lia). by rewrite (cons_middle r out (List.filter _ rows)), (assoc_L (++) out).
Qed.

Definition mem_history (m : MemPorts) (a : Z) : list SignInEntry :=
  List.filter (λ r, e_AccountID r =? a) (mp_signins m).

Lemma filter_rev_bool {A} (p : A → bool) l : List.filter p (rev l) = rev (List.filter p l).
Proof.
  induction l as [|x l IH]; [done|]. cbn. rewrite List.filter_app, IH. cbn. destruct (p x); [done|by rewrite app_nil_r].
Qed.

Lemma filter_filter_bool {A} (p q : A → bool) l :
  List.filter q (List.filter p l) = List.filter (λ x, p x && q x) l.
Proof. induction l as [|x l IH]; [done|]. cbn. destruct (p x); cbn; [|done]. by rewrite IH. Qed.

#[export] Instance mem_PortsLaws ToLower : @PortsLaws MemPorts (mem_Ports ToLower).
Proof.
  refine {| history := mem_history : MemPorts → Z → list SignInEntry |}.
  - intros s a n l Hn [= <-]. rewrite lockEvents_loop_spec by (done || cbn; lia). cbn [app].
    unfold lock_events, mem_history. by rewrite filter_rev_bool, filter_filter_bool.
  - intros row s s' [= <-]. unfold mem_history. cbn. rewrite List.filter_app. cbn. rewrite Z.eqb_refl.
    eexists. split; [|split; [|reflexivity]]; done.
  - intros n s s' creds a [= _ <-]. done.
Defined.
