(* ===== verification/IdentityProps.v ===== *)
(** * Properties of signing in

    Attempts are let through in fixed windows, the lock counts the wrong passwords
    in a row, and a session is opened and used for active accounts only. *)

From Stdlib Require Import Sorted.
From S2P Require Import Prelude Apperr Clock Attempts Codes SignIn MemPorts.

Local Open Scope Z_scope.

(** ** The steps of a sign-in *)
Section Steps.
Context {St : Type} `{!Ports St} `{!PortsLaws St}.

Definition unfailed {A} (r : result A) : Prop :=
  match r with Err e => HasCode e CodeInternal = false | Ok _ => True end.

Lemma reads_bind {A B} (f : St → A) (g : A → stM St error B) s : (reads f ≫= g) s = g (f s) s.
Proof. done. Qed.

(** A row that was recorded moves the streak by one step. *)
Lemma record_streak now a ev actor device ip (s : St) r s' :
  record now a ev actor device ip s = (r, s') → unfailed r →
  r = Ok () ∧ ∃ row, e_Event row = ev ∧ e_CreatedAt row = now ∧ streak (history s' a) = streak_step (streak (history s a)) row.
Proof.
  unfold record, internal. destruct (Record_ _ s) as [[[]|e] s1] eqn:E; intros [= <- <-] Hr; [|done].
  split; [done|]. apply law_record in E as (row & He & Hc & Hh). cbn in *. exists row. rewrite Hh, streak_snoc. done.
Qed.

Lemma open_history cfg now a actor device ip (s : St) r s' :
  open cfg now a actor device ip s = (r, s') → unfailed r → ∃ creds, r = Ok creds ∧ ∀ b, history s' b = history s b.
Proof.
  unfold open, internal. destruct (SessionsOpen _ s) as [[creds|e] s1] eqn:E; intros [= <- <-] Hr; [|done].
  exists creds. split; [done|]. intros b. by eapply law_open.
Qed.

(** A refusal that is recorded first. *)
Lemma refusal_streak now a ev actor device ip e (s : St) (r : result Signed) s' :
  (record now a ev actor device ip ≫= λ _, throw e) s = (r, s') → unfailed r →
  r = Err e ∧ ∃ row, e_Event row = ev ∧ e_CreatedAt row = now ∧ streak (history s' a) = streak_step (streak (history s a)) row.
Proof.
  intros H Hr. apply stM_bind_inv in H as [(x & s1 & H1 & H2)|(e' & H1 & ->)].
  - apply record_streak in H1 as [_ H1]; [|done]. injection H2 as <- <-. done.
  - apply record_streak in H1 as [[=] _]. done.
Qed.
End Steps.

Lemma lock_defaults_idem l : lock_withDefaults (lock_withDefaults l) = lock_withDefaults l.
Proof.
  unfold lock_withDefaults. cbn. destruct (Z.leb_spec (After l) 0), (Z.leb_spec (For l) 0); cbn; f_equal;
    repeat case_match; try done; lia.
Qed.

Lemma lock_defaults_pos l : 0 < After (lock_withDefaults l).
Proof. cbn. destruct (Z.leb_spec (After l) 0); lia. Qed.

(** The lock, read off the newest events, is a function of the streak. *)
Definition locked_by (l : Lock) (st : nat * Z) (now : Z) : option Z :=
  if (After l <=? Z.of_nat st.1) && Time.Before now (st.2 + For l) then Some (st.2 + For l) else None.

Lemma LockedUntil_streak l h now n :
  After (lock_withDefaults l) <= n →
  LockedUntil l (take (Z.to_nat n) (lock_events h)) now = locked_by (lock_withDefaults l) (streak h) now.
Proof.
  intros Hn. rewrite LockedUntil_all_wrong, all_wrong_take, all_wrong_streak by lia. unfold locked_by.
  pose proof (lock_defaults_pos l) as Hpos. set (ld := lock_withDefaults l) in *.
  replace (Z.to_nat (After ld) <=? (streak h).1)%nat with (After ld <=? Z.of_nat (streak h).1).
  2: { destruct (Z.leb_spec (After ld) (Z.of_nat (streak h).1)); symmetry; [apply Nat.leb_le|apply Nat.leb_gt]; lia. }
  destruct (Z.leb_spec (After ld) (Z.of_nat (streak h).1)); cbn [andb]; [|done].
  destruct (streak_newest h) as (e & rest & Hl & He); [lia|]. rewrite Hl.
  destruct (Z.to_nat n) as [|n'] eqn:En; [lia|]. cbn [take]. by rewrite He.
Qed.

(** ** Theorems *)

Lemma orWidth_pos v d : 0 <= v → 0 < d → 0 < orWidth v d.
Proof. unfold orWidth. destruct (Z.eqb_spec v 0); lia. Qed.

(** A service that [New] builds has a positive session lifetime, attempt limit and
    lock, and keeps fields no wider than go-core's own columns. *)
Theorem New_configures a b c d Hash cfg0 cfg placeholder tries :
  New a b c d Hash cfg0 = Ok (cfg, placeholder, tries) →
  0 < TokenTTL cfg ∧ 0 < AttemptsPerMinute cfg ∧ at_limit tries = AttemptsPerMinute cfg ∧
  0 < After (cfg_Lock cfg) ∧ 0 < For (cfg_Lock cfg) ∧
  0 < lim_Login (cfg_Limits cfg) <= LoginMax ∧ 0 < lim_Name (cfg_Limits cfg) <= NameMax ∧
  0 < lim_Email (cfg_Limits cfg) <= EmailMax ∧ 0 < lim_Phone (cfg_Limits cfg) <= PhoneMax.
Proof.
  unfold New. destruct a, b, c, d; try done. cbn.
  destruct (Limits_check (cfg_Limits cfg0)) as [[]|] eqn:Hl; [|done]. cbn.
  destruct (Hash _); [|done]. intros [= <- <- <-].
  unfold Limits_check in Hl. case_match eqn:Ec; [done|]. rewrite !orb_false_iff, !Z.ltb_ge in Ec. cbn in Ec.
  destruct Ec as [[[[[[[] ]]]]]].
  assert (0 < 24 * Time.Hour ∧ 0 < 15 * Time.Minute) as [] by (vm_compute; done). pose proof (lock_defaults_pos (cfg_Lock cfg0)).
  split_and!; try (apply orWidth_pos; done); try done; cbn; try lia.
  all: match goal with |- context [?v <=? 0] => destruct (Z.leb_spec v 0); lia end.
Qed.

(** The counter of sign-in attempts lets at most [limit] attempts of a login
    through per minute, whatever the other logins do and whenever the table is
    swept: the answers of a login come in windows of a minute from a first attempt,
    the first [limit] let through and the others refused. *)
Theorem attempts_windowed (limit : Z) (tries : list (string * Z)) (login : string) :
  Sorted Z.le tries.*2 →
  windowed limit attemptWindow late (of_key login (attempt_answers (newAttempts limit) tries)).
Proof.
  intros Hs. destruct tries as [|[k t] tries]; [constructor|].
  rewrite (attempts_reference _ _ _ None t).
  - apply reference_windowed. by apply (tries_sorted ((k, t) :: tries)).
  - cbn. constructor; [done|]. constructor. lia.
  - done.
Qed.

Lemma attempts_windowed_witness :
  windowed 1 attemptWindow late
    (of_key "ana" (attempt_answers (newAttempts 1) [("ana", 0); ("eva", 1); ("ana", 2); ("ana", 60 * Time.Second)])).
Proof. apply (attempts_windowed 1). repeat (constructor; [|vm_compute; constructor; discriminate]); repeat constructor. Defined.

(** C38. The lock counts the wrong passwords in a row: over the lock events of any
    history, newest first and at least as many as the rule reads, [LockedUntil]
    locks exactly while at least [After] wrong passwords came since the last sign-in
    or unlock, and until [For] after the newest of them. *)
Theorem LockedUntil_counts_wrong_passwords (l : Lock) (h : list SignInEntry) (now n : Z) :
  After (lock_withDefaults l) <= n →
  LockedUntil l (take (Z.to_nat n) (lock_events h)) now =
    (let '(wrong, newest) := streak h in
     if (After (lock_withDefaults l) <=? Z.of_nat wrong) && (now <? newest + For (lock_withDefaults l))
     then Some (newest + For (lock_withDefaults l)) else None).
Proof. intros Hn. rewrite LockedUntil_streak by done. unfold locked_by. by destruct (streak h). Qed.

Definition sampleEntry (ev : SignInEvent) (at_ : Z) : SignInEntry := mkEntry 0 7 ev "" "" 0 at_.

Lemma LockedUntil_counts_wrong_passwords_witness :
  LockedUntil (mkLock 2 10)
    (take (Z.to_nat 2) (lock_events [sampleEntry SignedIn 1; sampleEntry WrongPassword 2; sampleEntry LockedOut 3; sampleEntry WrongPassword 4])) 9
  = Some 14.
Proof. apply (LockedUntil_counts_wrong_passwords (mkLock 2 10)). vm_compute. discriminate. Defined.

(** C37. What [Login] answers, and what it does to the counter and the lock. Every
    attempt is counted in the running minute of its login. Above the limit of a minute
    it is refused as locked until the minute ends, and a login longer than the limit
    of logins is refused like a wrong password, both with nothing looked up or
    recorded. Otherwise, when no store fails: an unknown login answers exactly like a
    wrong password; a known one is refused as locked, whatever the password, while the
    streak of wrong passwords locks it; a wrong password adds one to the streak; a
    right one of an inactive account leaves it; a right one of an active account opens
    a session and ends the streak. *)
Theorem Login_decides {St : Type} `{!Ports St} `{!PortsLaws St}
    (ToLower : string → string) (RFC3339 : Z → string) (Matches : string → string → bool) (cfg0 : Config)
    (clock : nat → Z) (inp : LoginInput) (s s' : St) (tries tries' : attempts) (r : result Signed) :
  let cfg := cfg_withDefaults cfg0 in
  let login := NormalizeLogin ToLower (li_Login inp) in
  let minute := minute_of tries (clock 0%nat) login in
  Login ToLower RFC3339 Matches cfg clock inp (s, tries) = (r, (s', tries')) →
  at_windows tries' !! login = Some (mkWindow (w_end minute) (w_count minute + 1)) ∧
  if at_limit tries <? w_count minute + 1 then r = Err (signInLocked (RFC3339 (w_end minute))) ∧ s' = s
  else if lim_Login (cfg_Limits cfg) <? Utf8.RuneCount login then r = Err signInFailed ∧ s' = s
  else unfailed r →
  match FindByLogin s login with
  | Err _ => r = Err signInFailed ∧ s' = s
  | Ok acc =>
      let before := streak (history s (ac_ID acc)) in
      let after := streak (history s' (ac_ID acc)) in
      match locked_by (cfg_Lock cfg) before (clock 1%nat) with
      | Some until => r = Err (signInLocked (RFC3339 until)) ∧ after = before
      | None =>
          if negb (Matches (ac_PasswordHash acc) (li_Password inp))
          then r = Err signInFailed ∧ after = (S before.1, clock 3%nat)
          else if negb (ac_Active acc) then r = Err signInInactive ∧ after = before
          else (∃ creds, r = Ok (mkSigned acc creds None)) ∧ after = (0%nat, 0)
      end
  end.
Proof.
  intros cfg login minute Hlog. unfold Login in Hlog. fold login in Hlog. rewrite allow_minute in Hlog. fold minute in Hlog.
  replace (at_limit tries <? w_count minute + 1) with (negb (w_count minute + 1 <=? at_limit tries)) by lia.
  destruct (negb (w_count minute + 1 <=? at_limit tries)).
  { injection Hlog as <- <- <-. cbn. by rewrite lookup_insert_eq. }
  destruct (lim_Login (cfg_Limits cfg) <? Utf8.RuneCount login).
  { injection Hlog as <- <- <-. cbn. by rewrite lookup_insert_eq. }
  assert (at_windows tries' !! login = Some (mkWindow (w_end minute) (w_count minute + 1))) as Ht.
  { destruct (FindByLogin s login); [destruct (loginAccount _ _ _ _ _ _ _)|]; injection Hlog as <- <- <-;
      cbn; by rewrite lookup_insert_eq. }
  split; [exact Ht|]. clear Ht. intros Hr.
  destruct (FindByLogin s login) as [acc|err].
  2: { injection Hlog as <- <- <-. by destruct (errors_Is err ErrNotFound). }
  destruct (loginAccount _ _ _ _ acc inp s) as [r1 s1] eqn:Ea. injection Hlog as <- <- <-.
  unfold loginAccount in Ea. rewrite reads_bind in Ea.
  destruct (LockEvents s (ac_ID acc) (After (cfg_Lock cfg))) as [latest|err] eqn:El;
    [|unfold throw in Ea; by injection Ea as <- <-].
  pose proof (lock_defaults_pos (cfg_Lock cfg0)) as Hpos.
  apply law_lock_events in El as ->; [|done].
  rewrite LockedUntil_streak in Ea by (cbn [cfg cfg_withDefaults cfg_Lock]; by rewrite lock_defaults_idem).
  cbn [cfg cfg_withDefaults cfg_Lock] in *. rewrite lock_defaults_idem in Ea.
  destruct (locked_by _ _ _) as [lockEnd|].
  { apply refusal_streak in Ea as [-> (row & He & _ & ->)]; [|done]. unfold streak_step. by rewrite He. }
  destruct (negb (Matches _ _)).
  { apply refusal_streak in Ea as [-> (row & He & Hc & ->)]; [|done]. unfold streak_step. by rewrite He, Hc. }
  destruct (negb (ac_Active acc)).
  { apply refusal_streak in Ea as [-> (row & He & _ & ->)]; [|done]. unfold streak_step. by rewrite He. }
  apply stM_bind_inv in Ea as [(creds & s2 & Ho & Ea)|(e & Ho & ->)].
  - apply open_history in Ho as (_ & _ & Hh); [|done].
    apply stM_bind_inv in Ea as [(x & s3 & Hrec & Ea)|(e & Hrec & ->)].
    + apply record_streak in Hrec as [_ (row & He & _ & Hs)]; [|done]. injection Ea as <- <-.
      split; [eauto|]. rewrite Hs. unfold streak_step. by rewrite He.
    + apply record_streak in Hrec as [[=] _]. done.
  - apply open_history in Ho as (? & [=] & _). done.
Qed.

(** *** A service over the stores in memory *)

Definition sampleLower (s : string) : string := s.
#[local] Instance samplePorts : Ports MemPorts := mem_Ports sampleLower.
#[local] Instance sampleLaws : PortsLaws MemPorts := mem_PortsLaws sampleLower.

Definition ana : Account := mkAccount 7 "ana" "ana@example.com" "" "Ana" "hr" true "secret" 0.
Definition eva : Account := mkAccount 8 "eva" "eva@example.com" "" "Eva" "hr" true "hidden" 0.
Definition samplePasswords (hash password : string) : bool := bool_decide (hash = password).
Definition sampleConfig : Config := mkConfig 0 (mkLock 2 100) 0 (mkCodeRules 0 0 0 0) (mkLock 0 0) [] (mkLimits 0 0 0 0).
Definition sampleMem : MemPorts :=
  mkMemPorts {[ 7 := ana; 8 := eva ]} [sampleEntry WrongPassword 1] [] (λ n, "token" +:+ Str.fmt_d (Z.of_nat n)) 0 [].

Lemma Login_decides_witness :
  let out := Login sampleLower Str.fmt_d samplePasswords (cfg_withDefaults sampleConfig) (λ k, 50 + Z.of_nat k)
               (mkLoginInput "ana" "wrong" "" "") (sampleMem, newAttempts 10) in
  at_windows out.2.2 !! "ana" = Some (mkWindow (50 + attemptWindow) 1) ∧
  out.1 = Err signInFailed ∧ streak (history (out.2.1) 7) = (2%nat, 53).
Proof.
  intros out.
  destruct (Login_decides sampleLower Str.fmt_d samplePasswords sampleConfig (λ k, 50 + Z.of_nat k)
    (mkLoginInput "ana" "wrong" "" "") sampleMem out.2.1 (newAttempts 10) out.2.2 out.1) as [Ht H];
    [vm_compute; reflexivity|]. split; [exact Ht|].
  assert (FindByLogin sampleMem (NormalizeLogin sampleLower "ana") = Ok ana) as Ef by (vm_compute; reflexivity).
  assert (locked_by (cfg_Lock (cfg_withDefaults sampleConfig)) (streak (history sampleMem 7)) 51 = None) as El
    by (vm_compute; reflexivity).
  cbn [li_Login] in H. rewrite Ef in H. cbn [ac_ID ana] in H. change (50 + Z.of_nat 1) with 51 in H. rewrite El in H.
  do 2 match type of H with if ?b then _ else _ => replace b with false in H by (vm_compute; reflexivity) end.
  apply H. vm_compute. reflexivity.
Defined.

(** ** Sessions *)

Section Sessions.
Context {St : Type} `{!Ports St}.

Lemma activeAccount_Ok id (s s' : St) acc :
  activeAccount id s = (Ok acc, s') → s' = s ∧ Find s id = Ok acc ∧ ac_Active acc = true.
Proof.
  unfold activeAccount. rewrite reads_bind. destruct (Find s id) as [a|err]; [|done].
  destruct (ac_Active a) eqn:Ea; [|done]. by intros [= -> ->].
Qed.

Lemma actorOf_Ok session (s s' : St) actor :
  actorOf session s = (Ok actor, s') →
  s' = s ∧ match actor with
           | None => s_ActorID session = 0
           | Some a => s_ActorID session ≠ 0 ∧ Find s (s_ActorID session) = Ok a ∧ ac_Active a = true
           end.
Proof.
  unfold actorOf. destruct (Z.eqb_spec (s_ActorID session) 0); [by intros [= <- <-]|].
  intros (a & s1 & Ha & [= <- <-])%stM_bind_Ok. apply activeAccount_Ok in Ha as (-> & ? & ?). done.
Qed.

Lemma liveSession_Ok token now (s s' : St) session :
  liveSession token now s = (Ok session, s') → s' = s ∧ SessionsGet s token now = Ok session.
Proof.
  unfold liveSession. rewrite reads_bind. destruct (SessionsGet s token now) as [x|err]; [|done]. by intros [= -> ->].
Qed.

Lemma refuse_Ok e (s s' : St) : refuse e s = (Ok (), s') → s' = s ∧ e = None.
Proof. unfold refuse. destruct e; [done|]. by intros [= ->]. Qed.
End Sessions.

(** A token is worth an active account: [Authenticate] succeeds only for a
    token that is not empty and has a live session, of an account that exists and
    is active; a session opened by signing in as somebody needs its actor to exist
    and be active too, and says who it is. *)
Theorem Authenticate_sound {St : Type} `{!Ports St} (clock : nat → Z) (token : string) (s s' : St) (au : Authenticated) :
  Authenticate clock token s = (Ok au, s') →
  token ≠ "" ∧ SessionsGet s token (clock 0%nat) = Ok (au_Session au) ∧
  Find s (s_AccountID (au_Session au)) = Ok (au_Account au) ∧ ac_Active (au_Account au) = true ∧
  match au_Actor au with
  | None => s_ActorID (au_Session au) = 0
  | Some actor => s_ActorID (au_Session au) ≠ 0 ∧ Find s' (s_ActorID (au_Session au)) = Ok actor ∧ ac_Active actor = true
  end.
Proof.
  unfold Authenticate. case_bool_decide as Et; [done|]. intros H.
  apply stM_bind_Ok in H as (session & s1 & Hl & H). apply liveSession_Ok in Hl as [-> Hl].
  apply stM_bind_Ok in H as (acc & s1 & Ha & H). apply activeAccount_Ok in Ha as (-> & Ha & Hact).
  apply stM_bind_Ok in H as ([] & s2 & _ & H). apply stM_bind_Ok in H as (actor & s3 & Hac & H).
  apply actorOf_Ok in Hac as [-> Hac]. injection H as <- <-. done.
Qed.

(** The store after Ana has signed in. *)
Definition signedIn : MemPorts :=
  (Login sampleLower Str.fmt_d samplePasswords (cfg_withDefaults sampleConfig) (λ k, 50 + Z.of_nat k)
     (mkLoginInput "ana" "secret" "" "") (sampleMem, newAttempts 10)).2.1.

Lemma Authenticate_sound_witness :
  ∃ au s', Authenticate (λ _, 60) "token0" signedIn = (Ok au, s') ∧ ac_Active (au_Account au) = true ∧
    Find signedIn (s_AccountID (au_Session au)) = Ok (au_Account au).
Proof.
  destruct (Authenticate (λ _, 60) "token0" signedIn) as [[au|e] s'] eqn:E.
  - exists au, s'. destruct (Authenticate_sound (λ _, 60) "token0" signedIn s' au E) as (_ & _ & Hf & Ha & _).
    split; [reflexivity|]. split; [exact Ha|exact Hf].
  - exfalso. apply (f_equal (λ r, is_ok r.1)) in E. vm_compute in E. discriminate E.
Defined.

(** Signing in as somebody needs both permissions: [LoginAs] opens a session
    only for an active actor whom the rules permit and an active target whom they
    cover, and the session is the target's with the actor marked on it. An actor who
    is not permitted learns nothing of the target: the answer is the refusal, before
    the target is looked up, and nothing is written. *)
Theorem LoginAs_authorised {St : Type} `{!Ports St} (Permitted : Account → option error)
    (Covers : Account → Account → option error) (cfg : Config) (clock : nat → Z) (inp : LoginAsInput) (s : St) :
  match LoginAs Permitted Covers cfg clock inp s with
  | (Ok signed, _) => ∃ actor s1, Find s (lai_ActorID inp) = Ok actor ∧ ac_Active actor = true ∧ Permitted actor = None ∧
      Find s (lai_TargetID inp) = Ok (sg_Account signed) ∧ ac_Active (sg_Account signed) = true ∧
      Covers actor (sg_Account signed) = None ∧ sg_Actor signed = Some actor ∧
      open cfg (clock 0%nat) (ac_ID (sg_Account signed)) (ac_ID actor) (lai_Device inp) (lai_IP inp) s
        = (Ok (sg_Credentials signed), s1)
  | (Err e, s') => ∀ actor err, Find s (lai_ActorID inp) = Ok actor → ac_Active actor = true → Permitted actor = Some err →
      e = reasoned err ∧ s' = s
  end.
Proof.
  destruct (LoginAs _ _ _ _ inp s) as [[signed|e] s'] eqn:E; unfold LoginAs in E.
  - apply stM_bind_Ok in E as (actor & s1 & Ha & E). apply activeAccount_Ok in Ha as (-> & Hf & Hact).
    apply stM_bind_Ok in E as ([] & s1 & Hp & E). apply refuse_Ok in Hp as [-> Hp]. rewrite reads_bind in E.
    destruct (Find s (lai_TargetID inp)) as [target|err] eqn:Et; [|done].
    destruct (ac_Active target) eqn:Eact; [|done]. cbn [negb] in E.
    apply stM_bind_Ok in E as ([] & s1 & Hc & E). apply refuse_Ok in Hc as [-> Hc].
    apply stM_bind_Ok in E as (creds & s1 & Ho & E). apply stM_bind_Ok in E as ([] & s2 & _ & E).
    apply stM_bind_Ok in E as ([] & s3 & _ & E). injection E as <- <-. exists actor, s1. done.
  - intros actor err Hf Ha Hp. assert (activeAccount (lai_ActorID inp) s = (Ok actor, s)) as Hact.
    { unfold activeAccount. rewrite reads_bind, Hf, Ha. done. }
    rewrite (stM_bind_step _ _ _ _ _ Hact) in E. rewrite Hp in E. cbn in E. injection E as <- <-. done.
Qed.
