(* ===== verification/Lease.v ===== *)
(** * Leases (src/lock/lock.go, src/lock/gormstore/gormstore.go)

    A lease is a row (key, owner, lease_until). The table and its statements are
    the database's: the class [LockTable], with what SQL promises of each statement
    as laws. Every statement is atomic; other clients run between the statements of
    one call. Times have the precision of the column. *)

From S2P Require Import Prelude Apperr Clock SignIn.

Local Open Scope Z_scope.

(** The statements of the store. *)
Class LockTable (Db : Type) : Type := {
  (** UPDATE locks SET owner, lease_until WHERE lock_key = ? AND (owner = ? OR lease_until < ?):
      the rows affected. *)
  updateTake : string → string → Z → Z → stM Db error Z;
  (** UPDATE locks SET lease_until WHERE lock_key = ? AND owner = ? *)
  updateExtend : string → string → Z → stM Db error Z;
  (** SELECT COUNT WHERE lock_key = ? AND owner = ? *)
  countMine : Db → string → string → result Z;
  (** INSERT *)
  insertRow : string → string → Z → stM Db error ();
  (** DELETE WHERE lock_key = ? AND owner = ? *)
  deleteMine : string → string → stM Db error ()
}.

(** ** The errors of the driver (src/database/mysql_errors.go) *)

Definition mysqlErrDuplicateEntry : Z := 1062.
Definition mysqlErrLockDeadlock : Z := 1213.
Definition ErrDuplicatedKey : string := "duplicated key not allowed".

Section Lock.
Context {Db : Type} `{!LockTable Db}.
(** The number of a MySQL error among the wrapped ones, and lower-casing. *)
Variables (mysqlNumber : error → option Z) (ToLower : string → string).

Definition IsDuplicateKey (err : error) : bool :=
  errors_Is err ErrDuplicatedKey ||
  match mysqlNumber err with
  | Some n => n =? mysqlErrDuplicateEntry
  | None =>
      let msg := ToLower (error_text err) in
      Contains msg "unique constraint failed" || Contains msg "duplicate entry" ||
      Contains msg "duplicate key value"
  end.

Definition IsDeadlock (err : error) : bool :=
  match mysqlNumber err with Some n => n =? mysqlErrLockDeadlock | None => false end.

(** [mysqlMessage] is the message of the MySQL error [mysqlNumber] is the number of. *)
Definition IsDuplicateKeyNamed (mysqlMessage : error → string) (err : error) (key : string) : bool :=
  match mysqlNumber err with
  | Some n => (n =? mysqlErrDuplicateEntry) && Contains (mysqlMessage err) key
  | None => false
  end.

(** [fmt.Errorf("...: %w", err)] *)
Definition wrapErr (what : string) (err : error) : error := errorf (what +:+ ": " +:+ error_text err) [err].

Definition CreateUnlessDuplicate (key owner : string) (until : Z) : stM Db error bool := λ db,
  match insertRow key owner until db with
  | (Ok _, db') => (Ok true, db')
  | (Err err, db') => (if IsDuplicateKey err then Ok false else Err err, db')
  end.

(** ** The store *)

Definition mine (db : Db) (key owner : string) : result bool :=
  match countMine db key owner with
  | Ok count => Ok (0 <? count)
  | Err err => Err (wrapErr "lock: read" err)
  end.

(** The three statements of [acquire]. The first two say [None] when the next one
    has to decide. *)
Definition acquireUpdate (key owner : string) (now until : Z) : stM Db error (option bool) := λ db,
  match updateTake key owner now until db with
  | (Err err, db') => (Err (wrapErr "lock: acquire" err), db')
  | (Ok n, db') => (Ok (if 0 <? n then Some true else None), db')
  end.

Definition acquireMine (key owner : string) : stM Db error (option bool) := λ db,
  match mine db key owner with
  | Err err => (Err err, db)
  | Ok held => (Ok (if held then Some true else None), db)
  end.

Definition acquireInsert (key owner : string) (until : Z) : stM Db error bool := λ db,
  match CreateUnlessDuplicate key owner until db with
  | (Err err, db') => (Err (wrapErr "lock: acquire" err), db')
  | r => r
  end.

(** [acquire]; [others] is what other clients do after each statement. *)
Definition acquire (key owner : string) (now until : Z) (others : nat → Db → Db) : stM Db error bool := λ db,
  match acquireUpdate key owner now until db with
  | (Err err, db1) => (Err err, db1)
  | (Ok (Some b), db1) => (Ok b, db1)
  | (Ok None, db1) =>
      match acquireMine key owner (others 0%nat db1) with
      | (Err err, db2) => (Err err, db2)
      | (Ok (Some b), db2) => (Ok b, db2)
      | (Ok None, db2) => acquireInsert key owner until (others 1%nat db2)
      end
  end.

Definition attempts : nat := 5.

Fixpoint acquire_retry (n : nat) (key owner : string) (now until : Z) (others : nat → nat → Db → Db) : stM Db error bool :=
  match n with
  | O => acquire key owner now until (others O)
  | S n' => λ db,
      match acquire key owner now until (others n) db with
      | (Err err, db') => if IsDeadlock err then acquire_retry n' key owner now until others db' else (Err err, db')
      | r => r
      end
  end.

(** [Store.Acquire] *)
Definition StoreAcquire (key owner : string) (now until : Z) (others : nat → nat → Db → Db) : stM Db error bool :=
  acquire_retry (attempts - 1) key owner now until others.

(** The first statement of [Refresh]. *)
Definition refreshUpdate (key owner : string) (until : Z) : stM Db error (option bool) := λ db,
  match updateExtend key owner until db with
  | (Err err, db') => (Err (wrapErr "lock: refresh" err), db')
  | (Ok n, db') => (Ok (if 0 <? n then Some true else None), db')
  end.

(** [Store.Refresh] *)
Definition StoreRefresh (key owner : string) (until : Z) (others : Db → Db) : stM Db error bool := λ db,
  match refreshUpdate key owner until db with
  | (Err err, db') => (Err err, db')
  | (Ok (Some b), db') => (Ok b, db')
  | (Ok None, db') => (mine (others db') key owner, others db')
  end.

(** [Store.Release] *)
Definition StoreRelease (key owner : string) : stM Db error () := λ db,
  match deleteMine key owner db with
  | (Err err, db') => (Err (wrapErr "lock: release" err), db')
  | r => r
  end.

(** ** The locker *)

Definition Acquire (now : Z) (key owner : string) (ttl : Z) (others : nat → nat → Db → Db) : stM Db error bool :=
  StoreAcquire key owner now (now + ttl) others.

Definition Refresh (now : Z) (key owner : string) (ttl : Z) (others : Db → Db) : stM Db error bool :=
  StoreRefresh key owner (now + ttl) others.

Definition Release (key owner : string) : stM Db error () := StoreRelease key owner.

(** ** Clients as interleaved statements *)

(** Where a client of a key is in a call: between the first statement of [acquire]
    and its second, between its second and third, or between the two of [Refresh]. *)
Inductive stage : Type := Updated (until : Z) | Free (until : Z) | Extended (until : Z).

(** The table, the time, the clients under way, and the leases clients believe to
    hold: until when, as of the last call that answered true. *)
Record clients : Type := mkClients {
  cl_db : Db;
  cl_clock : Z;
  cl_stages : gmap (string * string) stage;
  cl_leases : gmap (string * string) Z
}.

Inductive event : Type :=
| Tick (now : Z)
| StartAcquire (key owner : string) (now ttl : Z)
| StartRefresh (key owner : string) (now ttl : Z)
| Continue (key owner : string)
| DoRelease (key owner : string).

(** A call that ended with an answer: true is a lease until then, false is none. *)
Definition answered (w : clients) (db : Db) (ko : string * string) (until : Z) (o : result bool) : clients :=
  mkClients db (cl_clock w) (delete ko (cl_stages w))
    match o with
    | Ok true => <[ko := until]> (cl_leases w)
    | Ok false => delete ko (cl_leases w)
    | Err _ => cl_leases w
    end.

(** A statement that ended the call, or led to the next stage. *)
Definition proceed (w : clients) (ko : string * string) (until : Z) (next : stage) (r : result (option bool) * Db) : clients :=
  match r with
  | (Ok (Some b), db) => answered w db ko until (Ok b)
  | (Err err, db) => answered w db ko until (Err err)
  | (Ok None, db) => mkClients db (cl_clock w) (<[ko := next]> (cl_stages w)) (cl_leases w)
  end.

Definition lease_step (w : clients) (e : event) : option clients :=
  match e with
  | Tick now => if cl_clock w <=? now then Some (mkClients (cl_db w) now (cl_stages w) (cl_leases w)) else None
  | StartAcquire key owner now ttl =>
      match cl_stages w !! (key, owner) with
      | Some _ => None
      | None =>
          if now <=? cl_clock w
          then Some (proceed w (key, owner) (now + ttl) (Updated (now + ttl)) (acquireUpdate key owner now (now + ttl) (cl_db w)))
          else None
      end
  | StartRefresh key owner now ttl =>
      match cl_stages w !! (key, owner) with
      | Some _ => None
      | None => Some (proceed w (key, owner) (now + ttl) (Extended (now + ttl)) (refreshUpdate key owner (now + ttl) (cl_db w)))
      end
  | Continue key owner =>
      match cl_stages w !! (key, owner) with
      | Some (Updated until) => Some (proceed w (key, owner) until (Free until) (acquireMine key owner (cl_db w)))
      | Some (Free until) =>
          let '(o, db) := acquireInsert key owner until (cl_db w) in Some (answered w db (key, owner) until o)
      | Some (Extended until) => Some (answered w (cl_db w) (key, owner) until (mine (cl_db w) key owner))
      | None => None
      end
  | DoRelease key owner =>
      match cl_stages w !! (key, owner) with
      | Some _ => None
      | None =>
          let '(_, db) := Release key owner (cl_db w) in
          Some (mkClients db (cl_clock w) (cl_stages w) (delete (key, owner) (cl_leases w)))
      end
  end.

Fixpoint lease_run (w : clients) (es : list event) : option clients :=
  match es with
  | [] => Some w
  | e :: es' => w' ← lease_step w e; lease_run w' es'
  end.
End Lock.
Arguments mkClients {_}. Arguments cl_db {_}. Arguments cl_clock {_}. Arguments cl_stages {_}. Arguments cl_leases {_}.

(** ** What SQL promises of the statements *)

(** A row a statement takes over. *)
Definition takes (owner : string) (now : Z) (row : option (string * Z)) : bool :=
  match row with Some (o, u) => bool_decide (o = owner) || (u <? now) | None => false end.

Definition owns (owner : string) (row : option (string * Z)) : bool :=
  match row with Some (o, _) => bool_decide (o = owner) | None => false end.

(** The row of a key; a statement changes what it says, or nothing when it fails.
    An UPDATE that leaves a row as it was may report it or not (clientFoundRows). *)
Class LockTableLaws (Db : Type) `{!LockTable Db} : Type := {
  lease_row : Db → string → option (string * Z);

  law_take key owner now until db n db' : updateTake key owner now until db = (Ok n, db') →
    (∀ k, k ≠ key → lease_row db' k = lease_row db k) ∧
    lease_row db' key = (if takes owner now (lease_row db key) then Some (owner, until) else lease_row db key) ∧
    (0 < n → takes owner now (lease_row db key) = true) ∧
    (n <= 0 → takes owner now (lease_row db key) = true → lease_row db key = Some (owner, until));
  law_take_err key owner now until db e db' : updateTake key owner now until db = (Err e, db') →
    ∀ k, lease_row db' k = lease_row db k;

  law_extend key owner until db n db' : updateExtend key owner until db = (Ok n, db') →
    (∀ k, k ≠ key → lease_row db' k = lease_row db k) ∧
    lease_row db' key = (if owns owner (lease_row db key) then Some (owner, until) else lease_row db key) ∧
    (0 < n → owns owner (lease_row db key) = true) ∧
    (n <= 0 → owns owner (lease_row db key) = true → lease_row db key = Some (owner, until));
  law_extend_err key owner until db e db' : updateExtend key owner until db = (Err e, db') →
    ∀ k, lease_row db' k = lease_row db k;

  law_count key owner db n : countMine db key owner = Ok n → (0 < n ↔ owns owner (lease_row db key) = true);

  law_insert key owner until db db' : insertRow key owner until db = (Ok (), db') →
    lease_row db key = None ∧ lease_row db' key = Some (owner, until) ∧
    (∀ k, k ≠ key → lease_row db' k = lease_row db k);
  law_insert_err key owner until db e db' : insertRow key owner until db = (Err e, db') →
    ∀ k, lease_row db' k = lease_row db k;

  law_delete key owner db db' o : deleteMine key owner db = (o, db') →
    (∀ k, k ≠ key → lease_row db' k = lease_row db k) ∧
    (lease_row db' key = lease_row db key ∨ owns owner (lease_row db key) = true ∧ lease_row db' key = None);
  law_delete_done key owner db db' : deleteMine key owner db = (Ok (), db') → owns owner (lease_row db' key) = false
}.
