(* ===== verification/Holds.v ===== *)
(** * Leases exclude each other

    Whatever the interleaving of the statements of any number of clients, two of
    them never hold the same key at the same time. *)

From S2P Require Import Prelude Clock Apperr SignIn Lease.

Local Open Scope Z_scope.

Section Exclusion.
Context {Db : Type} `{!LockTable Db} `{!LockTableLaws Db}.
Variables (mysqlNumber : error → option Z) (ToLower : string → string).
Notation step := (lease_step mysqlNumber ToLower).

(** What a client between two statements knows of a row that is its own. *)
Definition stage_ok (st : stage) (row : option (string * Z)) (owner : string) : Prop :=
  ∀ u, row = Some (owner, u) → match st with Updated until | Extended until => u = until | Free _ => False end.

(** A lease that has not run out is the client's row. *)
Definition pair_ok (row : option (string * Z)) (clock : Z) (st : option stage) (lease : option Z) (owner : string) : Prop :=
  (∀ u, lease = Some u → clock <= u → ∃ u', row = Some (owner, u') ∧ u <= u') ∧
  (∀ s, st = Some s → stage_ok s row owner).

Definition leases_ok (w : clients) : Prop :=
  ∀ key owner, pair_ok (lease_row (cl_db w) key) (cl_clock w) (cl_stages w !! (key, owner)) (cl_leases w !! (key, owner)) owner.

(** A statement of one client: it leaves the row, or takes, extends, creates or
    deletes it while no other owner's lease in it runs. *)
Definition changes (key owner : string) (clock : Z) (db db' : Db) : Prop :=
  (∀ k, k ≠ key → lease_row db' k = lease_row db k) ∧
  (lease_row db' key = lease_row db key ∨
   (∀ o u, lease_row db key = Some (o, u) → o ≠ owner → u < clock) ∧
   (lease_row db' key = None ∨ ∃ u, lease_row db' key = Some (owner, u))).

Lemma changes_same key owner clock db db' : (∀ k, lease_row db' k = lease_row db k) → changes key owner clock db db'.
Proof. intros H. split; [intros; apply H|]. by left. Qed.

(** The other clients are not disturbed. *)
Lemma others_ok w key owner db' k o :
  leases_ok w → changes key owner (cl_clock w) (cl_db w) db' → (k, o) ≠ (key, owner) →
  pair_ok (lease_row db' k) (cl_clock w) (cl_stages w !! (k, o)) (cl_leases w !! (k, o)) o.
Proof.
  intros Hok [Hk Hrow] Hne. destruct (Hok k o) as [HA HB]. destruct (decide (k = key)) as [->|Hkne].
  2: { rewrite Hk by done. done. }
  assert (o ≠ owner) as Ho by congruence. destruct Hrow as [->|[Hold Hnew]]; [done|]. split.
  - intros u Hu Hlive. destruct (HA u Hu Hlive) as (u' & Hr & Hle). specialize (Hold _ _ Hr Ho). lia.
  - intros st Hst u Hu. destruct Hnew as [Hn|[u0 Hn]]; rewrite Hn in Hu; [done|]. injection Hu as -> _. done.
Qed.

(** The state after a statement of one client, from what is new about that client. *)
Lemma update_ok w key owner db' st lease stages' leases' :
  leases_ok w → changes key owner (cl_clock w) (cl_db w) db' →
  stages' !! (key, owner) = st → leases' !! (key, owner) = lease →
  (∀ ko, ko ≠ (key, owner) → stages' !! ko = cl_stages w !! ko ∧ leases' !! ko = cl_leases w !! ko) →
  pair_ok (lease_row db' key) (cl_clock w) st lease owner →
  leases_ok (mkClients db' (cl_clock w) stages' leases').
Proof.
  intros Hok Hch Hst Hl Hother Hown k o. cbn. destruct (decide ((k, o) = (key, owner))) as [[= -> ->]|Hne].
  - by rewrite Hst, Hl.
  - destruct (Hother _ Hne) as [-> ->]. by eapply others_ok.
Qed.

Lemma answered_ok w key owner db' until o :
  leases_ok w → changes key owner (cl_clock w) (cl_db w) db' →
  match o with
  | Ok true => ∃ u', lease_row db' key = Some (owner, u') ∧ until <= u'
  | Ok false => True
  | Err _ => lease_row db' key = lease_row (cl_db w) key
  end →
  leases_ok (answered w db' (key, owner) until o).
Proof.
  intros Hok Hch Ho. unfold answered. destruct o as [[]|e].
  - eapply (update_ok w key owner); [done..|apply lookup_delete_eq|apply lookup_insert_eq| |].
    + intros ko Hne. rewrite lookup_delete_ne, lookup_insert_ne by done. done.
    + split; [|done]. intros u [= <-] _. done.
  - eapply (update_ok w key owner); [done..|apply lookup_delete_eq|apply lookup_delete_eq| |done].
    intros ko Hne. rewrite !lookup_delete_ne by done. done.
  - eapply (update_ok w key owner); [done..|apply lookup_delete_eq|reflexivity| |].
    + intros ko Hne. rewrite lookup_delete_ne by done. done.
    + split; [|done]. rewrite Ho. apply Hok.
Qed.

Lemma proceed_ok w key owner until next o db' :
  leases_ok w → changes key owner (cl_clock w) (cl_db w) db' →
  match o with
  | Ok (Some b) => b = true ∧ ∃ u', lease_row db' key = Some (owner, u') ∧ until <= u'
  | Ok None => lease_row db' key = lease_row (cl_db w) key ∧ stage_ok next (lease_row (cl_db w) key) owner
  | Err _ => lease_row db' key = lease_row (cl_db w) key
  end →
  leases_ok (proceed w (key, owner) until next (o, db')).
Proof.
  intros Hok Hch Ho. unfold proceed. destruct o as [[b|]|e].
  - destruct Ho as [-> Ho]. by apply answered_ok.
  - destruct Ho as [Hrow Hnext].
    eapply (update_ok w key owner); [done..|apply lookup_insert_eq|reflexivity| |].
    + intros ko Hne. rewrite lookup_insert_ne by done. done.
    + rewrite Hrow. split; [apply Hok|]. by intros s [= <-].
  - by apply answered_ok.
Qed.

Lemma owns_true owner row : owns owner row = true → ∃ u, row = Some (owner, u).
Proof. unfold owns. destruct row as [[o u]|]; [|done]. intros ->%bool_decide_eq_true. eauto. Qed.

Lemma owns_false owner row u : owns owner row = false → row ≠ Some (owner, u).
Proof. unfold owns. intros H ->. by rewrite bool_decide_eq_true_2 in H. Qed.

Lemma takes_false owner now row u : takes owner now row = false → row ≠ Some (owner, u).
Proof. unfold takes. intros H ->. by rewrite bool_decide_eq_true_2 in H. Qed.

Lemma takes_old owner now row o u : takes owner now row = true → row = Some (o, u) → o ≠ owner → u < now.
Proof. unfold takes. intros H -> Hne. rewrite bool_decide_eq_false_2 in H by done. by apply Z.ltb_lt. Qed.

Lemma acquireUpdate_ok w key owner now until :
  leases_ok w → now <= cl_clock w →
  leases_ok (proceed w (key, owner) until (Updated until) (acquireUpdate key owner now until (cl_db w))).
Proof.
  intros Hok Hnow. unfold acquireUpdate. destruct (updateTake _ _ _ _ _) as [[n|e] db'] eqn:E.
  - destruct (law_take _ _ _ _ _ _ _ E) as (Hk & Hrow & Hpos & Hzero).
    destruct (takes owner now (lease_row (cl_db w) key)) eqn:Et; apply proceed_ok; try done.
    + split; [done|]. right. split; [|right; eauto]. intros o u Hr Hne. pose proof (takes_old _ _ _ _ _ Et Hr Hne). lia.
    + destruct (Z.ltb_spec 0 n) as [Hn|Hn]; [split; [done|]; eauto with lia|]. specialize (Hzero Hn eq_refl).
      split; [congruence|]. intros u. rewrite Hzero. congruence.
    + split; [done|]. by left.
    + destruct (Z.ltb_spec 0 n) as [Hn|Hn]; [by specialize (Hpos Hn)|]. split; [done|].
      intros u Hu. by apply takes_false with (u := u) in Et.
  - pose proof (law_take_err _ _ _ _ _ _ _ E) as Hsame. apply proceed_ok; [done|by apply changes_same|apply Hsame].
Qed.

Lemma refreshUpdate_ok w key owner until :
  leases_ok w →
  leases_ok (proceed w (key, owner) until (Extended until) (refreshUpdate key owner until (cl_db w))).
Proof.
  intros Hok. unfold refreshUpdate. destruct (updateExtend _ _ _ _) as [[n|e] db'] eqn:E.
  - destruct (law_extend _ _ _ _ _ _ E) as (Hk & Hrow & Hpos & Hzero).
    destruct (owns owner (lease_row (cl_db w) key)) eqn:Et; apply proceed_ok; try done.
    + split; [done|]. right. split; [|right; eauto]. intros o u Hr Hne. destruct (owns_true _ _ Et). congruence.
    + destruct (Z.ltb_spec 0 n) as [Hn|Hn]; [split; [done|]; eauto with lia|]. specialize (Hzero Hn eq_refl).
      split; [congruence|]. intros u. rewrite Hzero. congruence.
    + split; [done|]. by left.
    + destruct (Z.ltb_spec 0 n) as [Hn|Hn]; [by specialize (Hpos Hn)|]. split; [done|].
      intros u Hu. by apply owns_false with (u := u) in Et.
  - pose proof (law_extend_err _ _ _ _ _ _ E) as Hsame. apply proceed_ok; [done|by apply changes_same|apply Hsame].
Qed.

(** A client that finds its row after the first statement changed nothing: the row
    is as long as asked for. *)
Lemma mine_row w key owner until st :
  leases_ok w → cl_stages w !! (key, owner) = Some st → (st = Updated until ∨ st = Extended until) →
  mine (cl_db w) key owner = Ok true → ∃ u', lease_row (cl_db w) key = Some (owner, u') ∧ until <= u'.
Proof.
  intros Hok Hst Hor Hm. unfold mine in Hm. destruct (countMine _ _ _) as [n|] eqn:Ec; [|done]. injection Hm as Hn%Z.ltb_lt.
  apply (law_count _ _ _ _ Ec) in Hn. destruct (owns_true _ _ Hn) as [u Hu]. exists u. split; [done|].
  destruct (Hok key owner) as [_ HB]. specialize (HB _ Hst _ Hu). destruct Hor as [->| ->]; lia.
Qed.

Lemma mine_not w key owner : mine (cl_db w) key owner = Ok false → ∀ u, lease_row (cl_db w) key ≠ Some (owner, u).
Proof.
  unfold mine. destruct (countMine _ _ _) as [n|] eqn:Ec; [|done]. intros [= Hn%Z.ltb_ge] u.
  apply owns_false. destruct (owns owner (lease_row (cl_db w) key)) eqn:Eo; [|done].
  apply (law_count _ _ _ _ Ec) in Eo. lia.
Qed.

Lemma insert_ok w key owner until o db' :
  leases_ok w → cl_stages w !! (key, owner) = Some (Free until) →
  acquireInsert mysqlNumber ToLower key owner until (cl_db w) = (o, db') →
  leases_ok (answered w db' (key, owner) until o).
Proof.
  intros Hok Hst. unfold acquireInsert, CreateUnlessDuplicate.
  destruct (insertRow key owner until (cl_db w)) as [[[]|e] db1] eqn:E.
  - intros [= <- <-]. destruct (law_insert _ _ _ _ _ E) as (Hnone & Hnew & Hk).
    apply answered_ok; [done| |eauto with lia]. split; [done|]. right. split; [|eauto]. intros o' u. by rewrite Hnone.
  - pose proof (law_insert_err _ _ _ _ _ _ E) as Hsame.
    destruct (IsDuplicateKey mysqlNumber ToLower e); intros [= <- <-];
      (apply answered_ok; [done|by apply changes_same|]); [done|apply Hsame].
Qed.

Lemma continue_mine_ok w key owner until :
  leases_ok w → cl_stages w !! (key, owner) = Some (Updated until) →
  leases_ok (proceed w (key, owner) until (Free until) (acquireMine key owner (cl_db w))).
Proof.
  intros Hok Hst. unfold acquireMine. destruct (mine (cl_db w) key owner) as [[]|e] eqn:Em;
    apply proceed_ok; try done; try (by apply changes_same).
  - split; [done|]. eapply mine_row; eauto.
  - split; [done|]. intros u Hu. by apply (mine_not w key owner Em u).
Qed.

Lemma lease_step_ok w e w' : leases_ok w → step w e = Some w' → leases_ok w'.
Proof.
  intros Hok. destruct e as [now|key owner now ttl|key owner now ttl|key owner|key owner]; cbn.
  - destruct (Z.leb_spec (cl_clock w) now) as [Hle|]; [|done]. intros [= <-] k o. cbn. destruct (Hok k o) as [HA HB].
    split; [|done]. intros u Hu Hlive. apply (HA u Hu). lia.
  - destruct (cl_stages w !! (key, owner)) eqn:Est; [done|]. destruct (Z.leb_spec now (cl_clock w)); [|done].
    intros [= <-]. by apply acquireUpdate_ok.
  - destruct (cl_stages w !! (key, owner)) eqn:Est; [done|]. intros [= <-]. by apply refreshUpdate_ok.
  - destruct (cl_stages w !! (key, owner)) as [[until|until|until]|] eqn:Est; [..|done].
    + intros [= <-]. by apply continue_mine_ok.
    + destruct (acquireInsert _ _ _ _ _ _) as [o db'] eqn:Ei. intros [= <-]. by eapply insert_ok.
    + intros [= <-]. apply answered_ok; [done|by apply changes_same|].
      destruct (mine (cl_db w) key owner) as [[]|e] eqn:Em; [|done..]. eapply mine_row; eauto.
  - destruct (cl_stages w !! (key, owner)) eqn:Est; [done|]. unfold Release, StoreRelease.
    destruct (deleteMine key owner (cl_db w)) as [o db'] eqn:Ed.
    destruct (law_delete _ _ _ _ _ Ed) as [Hk Hrow]. intros Hw.
    assert (w' = mkClients db' (cl_clock w) (cl_stages w) (delete (key, owner) (cl_leases w))) as -> by (destruct o; congruence).
    eapply (update_ok w key owner); [done| |exact Est|apply lookup_delete_eq| |done].
    + split; [done|]. destruct Hrow as [->|[Ho ->]]; [by left|right]. split; [|by left].
      intros o' u Hr Hne. destruct (owns_true _ _ Ho). congruence.
    + intros ko Hne. rewrite lookup_delete_ne by done. done.
Qed.

Lemma lease_run_ok es w w' : leases_ok w → lease_run mysqlNumber ToLower w es = Some w' → leases_ok w'.
Proof.
  revert w. induction es as [|e es IH]; intros w Hok Hr; [by injection Hr as <-|]. cbn in Hr.
  destruct (step w e) as [w1|] eqn:Es; [|done]. apply (IH w1); [|done]. by eapply lease_step_ok.
Qed.

Lemma leases_agree w key owner1 owner2 u1 u2 :
  leases_ok w → cl_leases w !! (key, owner1) = Some u1 → cl_clock w <= u1 →
  cl_leases w !! (key, owner2) = Some u2 → cl_clock w <= u2 → owner1 = owner2.
Proof.
  intros Hok H1 Hl1 H2 Hl2. destruct (proj1 (Hok key owner1) _ H1 Hl1) as (v1 & Hr1 & _).
  destruct (proj1 (Hok key owner2) _ H2 Hl2) as (v2 & Hr2 & _). congruence.
Qed.
End Exclusion.

(** ** A table in memory *)

(** One row per key; [foundRows] is clientFoundRows. *)
Record MemTable : Type := mkMemTable { foundRows : bool; mt_rows : gmap string (string * Z) }.

Definition set_row (t : MemTable) (key : string) (row : string * Z) : MemTable :=
  mkMemTable (foundRows t) (<[key := row]> (mt_rows t)).

(** The rows an UPDATE of a row that matched reports. *)
Definition affected (t : MemTable) (key : string) (row : string * Z) : Z :=
  if foundRows t || negb (bool_decide (mt_rows t !! key = Some row)) then 1 else 0.

Definition update_if (hit : bool) (key : string) (row : string * Z) : stM MemTable error Z := λ t,
  if hit then (Ok (affected t key row), set_row t key row) else (Ok 0, t).

#[export] Instance mem_LockTable : LockTable MemTable := {
  updateTake key owner now until t := update_if (takes owner now (mt_rows t !! key)) key (owner, until) t;
  updateExtend key owner until t := update_if (owns owner (mt_rows t !! key)) key (owner, until) t;
  countMine t key owner := Ok (if owns owner (mt_rows t !! key) then 1 else 0);
  insertRow key owner until t :=
    match mt_rows t !! key with
    | Some _ => (Err (errNew ErrDuplicatedKey), t)
    | None => (Ok (), set_row t key (owner, until))
    end;
  deleteMine key owner t :=
    (Ok (), if owns owner (mt_rows t !! key) then mkMemTable (foundRows t) (delete key (mt_rows t)) else t)
}.

Lemma update_if_law hit key row t n t' :
  update_if hit key row t = (Ok n, t') →
  (∀ k, k ≠ key → mt_rows t' !! k = mt_rows t !! k) ∧
  mt_rows t' !! key = (if hit then Some row else mt_rows t !! key) ∧
  (0 < n → hit = true) ∧ (n <= 0 → hit = true → mt_rows t !! key = Some row).
Proof.
  unfold update_if. destruct hit; intros [= <- <-]; cbn.
  - repeat split; [intros k Hk; by rewrite lookup_insert_ne|by rewrite lookup_insert_eq|].
    unfold affected. destruct (foundRows t || negb _) eqn:E; [lia|]. intros _ _.
    apply orb_false_iff in E as [_ E%negb_false_iff]. by apply bool_decide_eq_true in E.
  - repeat split; (done || lia).
Qed.

#[export] Instance mem_LockTableLaws : LockTableLaws MemTable.
Proof.
  refine {| lease_row t key := mt_rows t !! key |}.
  - intros key owner now until db n db' H. by apply update_if_law in H.
  - intros key owner now until db e db'. cbn. unfold update_if. by case_match.
  - intros key owner until db n db' H. by apply update_if_law in H.
  - intros key owner until db e db'. cbn. unfold update_if. by case_match.
  - intros key owner db n [= <-]. destruct (owns owner _); split; (done || lia).
  - intros key owner until db db'. cbn. destruct (mt_rows db !! key) eqn:E; [done|]. intros [= <-]. cbn.
    rewrite lookup_insert_eq. repeat split; [done..|]. intros k Hk. by rewrite lookup_insert_ne.
  - intros key owner until db e db'. cbn. destruct (mt_rows db !! key) eqn:E; [|done]. by intros [= _ <-].
  - intros key owner db db' o [= <- <-]. destruct (owns owner (mt_rows db !! key)) eqn:E; [|by split; [|left]].
    cbn. split; [intros k Hk; by rewrite lookup_delete_ne|]. right. split; [done|]. apply lookup_delete_eq.
  - intros key owner db db' [= <-]. destruct (owns owner (mt_rows db !! key)) eqn:E; [|done]. cbn. by rewrite lookup_delete_eq.
Defined.

(** A key has one holder: from a table without clients, after any interleaving
    of the statements of acquires, refreshes and releases of any number of clients,
    with the clock moving and statements failing in between, two clients that were
    told they hold a key, and whose leases have not run out, are the same client. *)
Theorem leases_exclude {Db : Type} `{!LockTable Db} `{!LockTableLaws Db} (mysqlNumber : error → option Z)
    (ToLower : string → string) (db : Db) (start : Z) (es : list event) (w : clients)
    (key owner1 owner2 : string) (until1 until2 : Z) :
  lease_run mysqlNumber ToLower (mkClients db start ∅ ∅) es = Some w →
  cl_leases w !! (key, owner1) = Some until1 → cl_clock w <= until1 →
  cl_leases w !! (key, owner2) = Some until2 → cl_clock w <= until2 →
  owner1 = owner2.
Proof.
  intros Hr H1 Hl1 H2 Hl2.
  assert (leases_ok (mkClients db start ∅ ∅)) as H0 by (intros k o; cbn; rewrite !lookup_empty; split; done).
  pose proof (lease_run_ok _ _ _ _ _ H0 Hr) as Hok. by eapply leases_agree.
Qed.

(** Two clients race for a key that does not exist yet: both find no row to take,
    one inserts, the other finds the duplicate, and later takes it over. *)
Definition sampleRace : list event :=
  [StartAcquire "import" "a" 0 10; StartAcquire "import" "b" 0 10; Continue "import" "a"; Continue "import" "b";
   Continue "import" "a"; Continue "import" "b"; Tick 11; StartAcquire "import" "b" 11 10].

Lemma leases_exclude_witness :
  ∃ w, lease_run (λ _, None) (λ s, s) (mkClients (mkMemTable true ∅) 0 ∅ ∅) sampleRace = Some w ∧
    cl_leases w !! ("import", "a") = Some 10 ∧ cl_leases w !! ("import", "b") = Some 21 ∧
    ∀ o u, cl_leases w !! ("import", o) = Some u → cl_clock w <= u → o = "b".
Proof.
  destruct (lease_run (λ _, None) (λ s, s) (mkClients (mkMemTable true ∅) 0 ∅ ∅) sampleRace) as [w|] eqn:E;
    [|apply (f_equal (λ o, bool_decide (is_Some o))) in E; vm_compute in E; discriminate E].
  exists w. pose proof E as E'. vm_compute in E'. injection E' as <-.
  split; [reflexivity|]. split; [vm_compute; reflexivity|]. split; [vm_compute; reflexivity|].
  intros o u Hu Hl.
  refine (leases_exclude (λ _, None) (λ s, s) (mkMemTable true ∅) 0 sampleRace _ "import" o "b" u 21 E Hu Hl _ _);
    vm_compute; (reflexivity || discriminate).
Defined.

(** * Holding a lease (src/lock/lock.go: Hold, heartbeat, newOwner)

    A call of [Hold] is two goroutines, the one that runs the caller's function and
    its heartbeat, over the statements of [Lease]. A step is one statement on the
    table or a piece of a goroutine up to the next point where another one can be
    seen; the scheduler, the ticker, the caller's function and context decide which
    step comes next. *)

(** ** Names of the locker (src/lock/lock.go) *)

Definition ErrHeld : string := "lock: held by someone else".
Definition ErrLost : string := "lock: lease lost".

Definition maxHost : nat := 60.

Definition hexByte (b : Byte.byte) : string :=
  let n := Z.of_N (Byte.to_N b) in String (Str.hex_char (n / 16)) (String (Str.hex_char (n mod 16)) "").

(** [hex.EncodeToString] *)
Fixpoint EncodeToString (b : list Byte.byte) : string :=
  match b with [] => "" | x :: b' => hexByte x +:+ EncodeToString b' end.

(** [newOwner], of what [os.Hostname] and [rand.Read] gave. *)
Definition newOwner (host : string) (b : list Byte.byte) : string :=
  String.substring 0 (Nat.min (String.length host) maxHost) host +:+ "-" +:+ EncodeToString b.

(** [time.Duration.String]. [fmtFrac v prec] is the fraction of v / 10 ** prec without
    its trailing zeros, in front of [acc]. *)
Fixpoint fmtFrac (prec : nat) (v : Z) (print : bool) (acc : string) : string :=
  match prec with
  | O => if print then "." +:+ acc else acc
  | S p =>
      let print := print || negb (v mod 10 =? 0) in
      fmtFrac p (v / 10) print (if print then String (Str.digit_char (v mod 10)) acc else acc)
  end.

Definition durationAbs (u : Z) : string :=
  if u =? 0 then "0s"
  else if u <? 1000 then Str.digits u +:+ "ns"
  else if u <? 1000000 then Str.digits (u / 1000) +:+ fmtFrac 3 u false "µs"
  else if u <? 1000000000 then Str.digits (u / 1000000) +:+ fmtFrac 6 u false "ms"
  else
    let secs := u / 1000000000 in
    let s := Str.digits (secs mod 60) +:+ fmtFrac 9 u false "s" in
    let mins := secs / 60 in
    if mins =? 0 then s
    else
      let s := Str.digits (mins mod 60) +:+ "m" +:+ s in
      if mins / 60 =? 0 then s else Str.digits (mins / 60) +:+ "h" +:+ s.

Definition durationString (d : Z) : string :=
  if d <? 0 then "-" +:+ durationAbs (- d) else durationAbs d.

Section Hold.
Context {Db : Type} `{!LockTable Db}.
Variables (mysqlNumber : error → option Z) (ToLower : string → string).

(** ** A call of Hold *)

(** How a function that may panic ends. *)
Inductive ending : Type := Returned (err : option error) | Panicked.

(** Where a call of [Hold] is: in [Acquire], as of [now] and with [spare] attempts
    after this one; in [run]; about to [cancel], with its answer settled; waiting for
    the heartbeat to stop; gone, with what it logged of the release. *)
Inductive place : Type :=
| Acquiring (now : Z) (spare : nat)
| Running
| Leaving (answer : ending)
| Closing (answer : ending)
| Left (answer : ending) (logged : option error).

(** Where its [heartbeat] is: started, in the select, in [Refresh] since a tick seen
    at [now]; [until] is its variable. *)
Inductive beat : Type := Starting | Waiting (until : Z) | Beating (now until : Z) | Stopped.

(** A call: its arguments, whether the caller's context has ended, whether [cancel]
    was called, the flag [lost], and its two goroutines. *)
Record hold : Type := mkHold {
  h_key : string;
  h_ttl : Z;
  h_ended : bool;
  h_cancelled : bool;
  h_lost : bool;
  h_place : place;
  h_beat : beat
}.

(** [runCtx] is done. *)
Definition runDone (h : hold) : bool := h_ended h || h_cancelled h.

Definition set_place (h : hold) (p : place) : hold :=
  mkHold (h_key h) (h_ttl h) (h_ended h) (h_cancelled h) (h_lost h) p (h_beat h).
Definition set_beat (h : hold) (b : beat) : hold :=
  mkHold (h_key h) (h_ttl h) (h_ended h) (h_cancelled h) (h_lost h) (h_place h) b.
Definition set_ended (h : hold) : hold :=
  mkHold (h_key h) (h_ttl h) true (h_cancelled h) (h_lost h) (h_place h) (h_beat h).
(** [cancel()] *)
Definition cancelled (h : hold) : hold :=
  mkHold (h_key h) (h_ttl h) (h_ended h) true (h_lost h) (h_place h) (h_beat h).
(** [lost.Store(true); cancel(); return] *)
Definition losing (h : hold) : hold :=
  mkHold (h_key h) (h_ttl h) (h_ended h) true true (h_place h) Stopped.

(** [fmt.Errorf("%w: %q", sentinel, key)] *)
Definition named (sentinel key : string) : error := errorf (sentinel +:+ ": " +:+ Str.fmt_q key) [errNew sentinel].

(** [errors.Join(err, other)] of an error and one that may be nil *)
Definition errorsJoin (err : error) (other : option error) : error :=
  match other with
  | Some e => errorf (error_text err +:+ String (Ascii.ascii_of_nat 10) (error_text e)) [err; e]
  | None => errorf (error_text err) [err]
  end.

(** The call up to [Acquire]: a [ttl] that is not positive is refused. *)
Definition enterHold (key : string) (ttl now : Z) : hold :=
  mkHold key ttl false false false
    (if ttl <=? 0 then Left (Returned (Some (errorf ("lock: ttl must be positive, got " +:+ durationString ttl) []))) None
     else Acquiring now (attempts - 1)) Stopped.

(** What follows a statement of [Acquire]: another statement, another attempt after
    a deadlock, the end, or [run] with its heartbeat. *)
Definition afterAcquire (h : hold) (now : Z) (spare : nat) (r : result (option bool)) : hold :=
  match r with
  | Ok None => h
  | Ok (Some true) => set_beat (set_place h Running) Starting
  | Ok (Some false) => set_place h (Left (Returned (Some (named ErrHeld (h_key h)))) None)
  | Err err =>
      match spare with
      | S spare' => if IsDeadlock mysqlNumber err then set_place h (Acquiring now spare')
                   else set_place h (Left (Returned (Some err)) None)
      | O => set_place h (Left (Returned (Some err)) None)
      end
  end.

(** What follows a statement of [Refresh]: another statement, or the switch. *)
Definition afterRefresh (h : hold) (now until : Z) (r : result (option bool)) : hold :=
  match r with
  | Ok None => h
  | _ =>
      if runDone h then set_beat h Stopped
      else match r with
           | Err _ => if now <? until then set_beat h (Waiting until) else losing h
           | Ok (Some true) => set_beat h (Waiting (now + h_ttl h))
           | Ok _ => losing h
           end
  end.

(** [run] ended: what [Hold] is going to answer. *)
Definition afterRun (h : hold) (e : ending) : ending :=
  match e with
  | Returned err => if h_lost h then Returned (Some (errorsJoin (named ErrLost (h_key h)) err)) else Returned err
  | Panicked => Panicked
  end.

(** The next statement of a call of [Acquire] or [Refresh], its answer ([None]: the
    call goes on) and the clients after it. *)
Definition acquireStatement (w : clients) (key owner : string) (now ttl : Z) : result (option bool) * clients :=
  match cl_stages w !! (key, owner) with
  | Some (Updated until) =>
      let r := acquireMine key owner (cl_db w) in (r.1, proceed w (key, owner) until (Free until) r)
  | Some (Free until) =>
      let '(o, db) := acquireInsert mysqlNumber ToLower key owner until (cl_db w) in (Some <$> o, answered w db (key, owner) until o)
  | _ =>
      let r := acquireUpdate key owner now (now + ttl) (cl_db w) in
      (r.1, proceed w (key, owner) (now + ttl) (Updated (now + ttl)) r)
  end.

Definition refreshStatement (w : clients) (key owner : string) (ttl : Z) : result (option bool) * clients :=
  match cl_stages w !! (key, owner) with
  | Some (Extended until) =>
      let o := mine (cl_db w) key owner in (Some <$> o, answered w (cl_db w) (key, owner) until o)
  | _ =>
      let until := cl_clock w + ttl in
      let r := refreshUpdate key owner until (cl_db w) in (r.1, proceed w (key, owner) until (Extended until) r)
  end.

(** The calls under way by the owner each made up, beside clients of other names. *)
Record holders : Type := mkHolders { hw_clients : clients (Db := Db); hw_holds : gmap string hold; hw_others : gset string }.

(** What can happen next: something else than a [Hold], a call entering, the caller's
    context ending, or a step of one of the goroutines of a call. *)
Inductive moment : Type :=
| Elsewhere (e : event)
| Enter (owner key : string) (ttl : Z)
| CtxEnds (owner : string)
| NextAcquire (owner : string)
| BeatStarts (owner : string)
| BeatTicks (owner : string)
| BeatStops (owner : string)
| NextRefresh (owner : string)
| RunEnds (owner : string) (e : ending)
| Cancels (owner : string)
| Releases (owner : string).

Definition event_owner (e : event) : option string :=
  match e with
  | Tick _ => None
  | StartAcquire _ o _ _ | StartRefresh _ o _ _ | Continue _ o | DoRelease _ o => Some o
  end.

(** The steps a call takes by itself, without the caller, the ticker or others. *)
Definition ownStep (m : moment) : option string :=
  match m with
  | NextAcquire o | BeatStarts o | BeatStops o | NextRefresh o | Cancels o | Releases o => Some o
  | _ => None
  end.

Definition put_hold (w : holders) (owner : string) (h : hold) (cl : clients) : holders :=
  mkHolders cl (<[owner := h]> (hw_holds w)) (hw_others w).

Definition hold_step (w : holders) (m : moment) : option holders :=
  let cl := hw_clients w in
  let upd owner h := put_hold w owner h cl in
  match m with
  | Elsewhere e =>
      if match event_owner e with Some o => bool_decide (o ∈ hw_others w) | None => true end
      then cl' ← lease_step mysqlNumber ToLower cl e; Some (mkHolders cl' (hw_holds w) (hw_others w)) else None
  | Enter owner key ttl =>
      if bool_decide (owner ∉ hw_others w ∧ hw_holds w !! owner = None)
      then Some (upd owner (enterHold key ttl (cl_clock cl))) else None
  | CtxEnds owner => h ← hw_holds w !! owner; Some (upd owner (set_ended h))
  | NextAcquire owner =>
      h ← hw_holds w !! owner;
      match h_place h with
      | Acquiring now spare =>
          let '(r, cl') := acquireStatement cl (h_key h) owner now (h_ttl h) in
          Some (put_hold w owner (afterAcquire h now spare r) cl')
      | _ => None
      end
  | BeatStarts owner =>
      h ← hw_holds w !! owner;
      match h_beat h with
      | Starting => Some (upd owner (set_beat h (Waiting (cl_clock cl + h_ttl h))))
      | _ => None
      end
  | BeatTicks owner =>
      h ← hw_holds w !! owner;
      match h_beat h with
      | Waiting until => Some (upd owner (set_beat h (Beating (cl_clock cl) until)))
      | _ => None
      end
  | BeatStops owner =>
      h ← hw_holds w !! owner;
      match h_beat h with
      | Waiting _ => if runDone h then Some (upd owner (set_beat h Stopped)) else None
      | _ => None
      end
  | NextRefresh owner =>
      h ← hw_holds w !! owner;
      match h_beat h with
      | Beating now until =>
          let '(r, cl') := refreshStatement cl (h_key h) owner (h_ttl h) in
          Some (put_hold w owner (afterRefresh h now until r) cl')
      | _ => None
      end
  | RunEnds owner e =>
      h ← hw_holds w !! owner;
      match h_place h with
      | Running => Some (upd owner (set_place h (Leaving (afterRun h e))))
      | _ => None
      end
  | Cancels owner =>
      h ← hw_holds w !! owner;
      match h_place h with
      | Leaving answer => Some (upd owner (set_place (cancelled h) (Closing answer)))
      | _ => None
      end
  | Releases owner =>
      h ← hw_holds w !! owner;
      match h_place h, h_beat h with
      | Closing answer, Stopped =>
          let '(o, db) := Release (h_key h) owner (cl_db cl) in
          Some (put_hold w owner (set_place h (Left answer match o with Ok _ => None | Err err => Some err end))
            (mkClients db (cl_clock cl) (cl_stages cl) (delete (h_key h, owner) (cl_leases cl))))
      | _, _ => None
      end
  end.

Fixpoint hold_run (w : holders) (ms : list moment) : option holders :=
  match ms with
  | [] => Some w
  | m :: ms' => w' ← hold_step w m; hold_run w' ms'
  end.
End Hold.
Arguments mkHolders {_}. Arguments hw_clients {_}. Arguments hw_holds {_}. Arguments hw_others {_}.

(** ** What the steps of one client leave to the others *)

Section Frames.
Context {Db : Type} `{!LockTable Db} `{!LockTableLaws Db}.
Variables (mysqlNumber : error → option Z) (ToLower : string → string).
Implicit Types (db : Db) (cl : clients (Db := Db)).

Definition unowned cl (key owner : string) : Prop := ∀ u, lease_row (cl_db cl) key ≠ Some (owner, u).

(** No row becomes another client's. *)
Definition keeps (owner : string) (db db' : Db) : Prop :=
  ∀ k o u, o ≠ owner → lease_row db' k = Some (o, u) → lease_row db k = Some (o, u).

Lemma keeps_row owner db db' key :
  (∀ k, k ≠ key → lease_row db' k = lease_row db k) →
  (lease_row db' key = lease_row db key ∨ lease_row db' key = None ∨ ∃ u, lease_row db' key = Some (owner, u)) →
  keeps owner db db'.
Proof.
  intros Hk Hrow k o u Hne Hr. destruct (decide (k = key)) as [->|]; [|by rewrite <-Hk].
  destruct Hrow as [E|[E|[u' E]]]; rewrite E in Hr; congruence.
Qed.

Lemma keeps_same owner db db' : (∀ k, lease_row db' k = lease_row db k) → keeps owner db db'.
Proof. intros H k o u _ Hr. by rewrite <-H. Qed.

Lemma acquireUpdate_keeps key owner now until db : keeps owner db (acquireUpdate key owner now until db).2.
Proof.
  unfold acquireUpdate. destruct (updateTake _ _ _ _ _) as [[n|e] db'] eqn:E; cbn.
  - destruct (law_take _ _ _ _ _ _ _ E) as (Hk & Hrow & _). apply (keeps_row _ _ _ key Hk).
    destruct (takes _ _ _); eauto.
  - apply keeps_same, (law_take_err _ _ _ _ _ _ _ E).
Qed.

Lemma refreshUpdate_keeps key owner until db : keeps owner db (refreshUpdate key owner until db).2.
Proof.
  unfold refreshUpdate. destruct (updateExtend _ _ _ _) as [[n|e] db'] eqn:E; cbn.
  - destruct (law_extend _ _ _ _ _ _ E) as (Hk & Hrow & _). apply (keeps_row _ _ _ key Hk).
    destruct (owns _ _); eauto.
  - apply keeps_same, (law_extend_err _ _ _ _ _ _ E).
Qed.

Lemma acquireInsert_keeps key owner until db : keeps owner db (acquireInsert mysqlNumber ToLower key owner until db).2.
Proof.
  unfold acquireInsert, CreateUnlessDuplicate. destruct (insertRow _ _ _ _) as [[[]|e] db'] eqn:E; cbn.
  - destruct (law_insert _ _ _ _ _ E) as (_ & Hnew & Hk). apply (keeps_row _ _ _ key Hk). eauto.
  - assert (keeps owner db db') as H by apply keeps_same, (law_insert_err _ _ _ _ _ _ E). by case_match.
Qed.

Lemma Release_keeps key owner db : keeps owner db (Release key owner db).2.
Proof.
  unfold Release, StoreRelease. destruct (deleteMine _ _ _) as [o db'] eqn:E.
  destruct (law_delete _ _ _ _ _ E) as [Hk Hrow].
  assert (keeps owner db db') by (apply (keeps_row _ _ _ key Hk); naive_solver). by destruct o.
Qed.

(** A step of the client [who]: time goes on, and what concerns the others stays. *)
Definition cl_frame (who : option string) (cl cl' : clients (Db := Db)) : Prop :=
  cl_clock cl <= cl_clock cl' ∧
  ∀ k o, who ≠ Some o →
    cl_stages cl' !! (k, o) = cl_stages cl !! (k, o) ∧ cl_leases cl' !! (k, o) = cl_leases cl !! (k, o) ∧
    (unowned cl k o → unowned cl' k o).

Lemma cl_frame_refl who cl : cl_frame who cl cl.
Proof. split; [lia|]. done. Qed.

Lemma frame_from cl db' owner stages' leases' :
  keeps owner (cl_db cl) db' →
  (∀ k o, o ≠ owner → stages' !! (k, o) = cl_stages cl !! (k, o) ∧ leases' !! (k, o) = cl_leases cl !! (k, o)) →
  cl_frame (Some owner) cl (mkClients db' (cl_clock cl) stages' leases').
Proof.
  intros Hk Hm. split; [cbn; lia|]. intros k o Hne. assert (o ≠ owner) as Ho by congruence.
  destruct (Hm k o Ho) as [Hs Hl]. split_and!; [done..|]. intros Hu u Hr. by apply (Hu u), Hk.
Qed.

Lemma answered_frame cl db' key owner until o :
  keeps owner (cl_db cl) db' → cl_frame (Some owner) cl (answered cl db' (key, owner) until o).
Proof.
  intros Hk. unfold answered. apply (frame_from cl db' owner); [done|]. intros k o' Hne.
  rewrite lookup_delete_ne by congruence. destruct o as [[]|]; rewrite ?lookup_insert_ne, ?lookup_delete_ne by congruence; done.
Qed.

Lemma proceed_frame cl key owner until next r :
  keeps owner (cl_db cl) r.2 → cl_frame (Some owner) cl (proceed cl (key, owner) until next r).
Proof.
  intros Hk. destruct r as [[[b|]|e] db']; cbn in *; [by apply answered_frame| |by apply answered_frame].
  apply (frame_from cl db' owner); [done|]. intros k o' Hne. rewrite lookup_insert_ne by congruence. done.
Qed.

Lemma released_frame cl key owner :
  cl_frame (Some owner) cl (mkClients (Release key owner (cl_db cl)).2 (cl_clock cl) (cl_stages cl) (delete (key, owner) (cl_leases cl))).
Proof.
  apply (frame_from cl _ owner); [apply Release_keeps|]. intros k o Hne. rewrite lookup_delete_ne by congruence. done.
Qed.

Lemma lease_step_frame cl e cl' : lease_step mysqlNumber ToLower cl e = Some cl' → cl_frame (event_owner e) cl cl'.
Proof.
  destruct e as [now|key owner now ttl|key owner now ttl|key owner|key owner]; cbn.
  - destruct (Z.leb_spec (cl_clock cl) now); [|done]. intros [= <-]. split; [cbn; lia|]. done.
  - destruct (_ !! _); [done|]. destruct (_ <=? _); [|done]. intros [= <-]. apply proceed_frame, acquireUpdate_keeps.
  - destruct (_ !! _); [done|]. intros [= <-]. apply proceed_frame, refreshUpdate_keeps.
  - destruct (_ !! _) as [[u|u|u]|]; [..|done].
    + intros [= <-]. apply proceed_frame. unfold acquireMine. destruct (mine _ _ _); by apply keeps_same.
    + pose proof (acquireInsert_keeps key owner u (cl_db cl)) as Hk. destruct (acquireInsert _ _ _ _ _ _) as [o db'].
      intros [= <-]. by apply answered_frame.
    + intros [= <-]. by apply answered_frame, keeps_same.
  - destruct (_ !! _); [done|]. pose proof (released_frame cl key owner) as Hf.
    destruct (Release _ _ _) as [o db']. by intros [= <-].
Qed.
End Frames.

(** ** The invariant of the calls *)

Section Invariant.
Context {Db : Type} `{!LockTable Db} `{!LockTableLaws Db}.
Variables (mysqlNumber : error → option Z) (ToLower : string → string).
Implicit Types (db : Db) (cl : clients (Db := Db)) (w : holders (Db := Db)).
Notation step := (hold_step mysqlNumber ToLower).
Notation run := (hold_run mysqlNumber ToLower).
Notation acquireStatement_ := (acquireStatement mysqlNumber ToLower).

(** Lookups of the maps after a statement. *)
Ltac lookups := rewrite ?lookup_delete_eq, ?lookup_insert_eq.

Lemma unowned_same cl cl' key owner :
  lease_row (cl_db cl') key = lease_row (cl_db cl) key → unowned cl key owner → unowned cl' key owner.
Proof. unfold unowned. by intros ->. Qed.

(** Every statement is a step of the clients. *)
Lemma acquireStatement_event cl key owner now ttl :
  (∀ u, cl_stages cl !! (key, owner) ≠ Some (Extended u)) → now <= cl_clock cl →
  ∃ e, event_owner e = Some owner ∧ lease_step mysqlNumber ToLower cl e = Some (acquireStatement_ cl key owner now ttl).2.
Proof.
  intros Hst Hnow. unfold acquireStatement. destruct (cl_stages cl !! (key, owner)) as [[u|u|u]|] eqn:E.
  - exists (Continue key owner). cbn. by rewrite E.
  - exists (Continue key owner). cbn. rewrite E. by destruct (acquireInsert _ _ _ _ _ _).
  - by destruct (Hst u).
  - exists (StartAcquire key owner now ttl). cbn. rewrite E. by rewrite (proj2 (Z.leb_le _ _) Hnow).
Qed.

Lemma refreshStatement_event cl key owner ttl :
  match cl_stages cl !! (key, owner) with Some (Extended _) | None => True | _ => False end →
  ∃ e, event_owner e = Some owner ∧ lease_step mysqlNumber ToLower cl e = Some (refreshStatement cl key owner ttl).2.
Proof.
  intros Hst. unfold refreshStatement. destruct (cl_stages cl !! (key, owner)) as [[u|u|u]|] eqn:E; try done.
  - exists (Continue key owner). cbn. by rewrite E.
  - exists (StartRefresh key owner (cl_clock cl) ttl). cbn. by rewrite E.
Qed.

(** What a statement of [Acquire] leaves of a client that held nothing. *)
Lemma acquireStatement_spec cl key owner now ttl r cl' :
  (∀ u, cl_stages cl !! (key, owner) ≠ Some (Extended u)) → unowned cl key owner → cl_leases cl !! (key, owner) = None →
  acquireStatement_ cl key owner now ttl = (r, cl') →
  (r = Ok (Some true) → is_Some (cl_leases cl' !! (key, owner))) ∧
  (r ≠ Ok (Some true) → unowned cl' key owner ∧ cl_leases cl' !! (key, owner) = None) ∧
  (r ≠ Ok None → cl_stages cl' !! (key, owner) = None) ∧
  (∀ u, cl_stages cl' !! (key, owner) ≠ Some (Extended u)).
Proof.
  intros Hst Hun Hl. unfold acquireStatement. destruct (cl_stages cl !! (key, owner)) as [[u|u|u]|] eqn:E.
  - unfold acquireMine. destruct (mine _ _ _) as [[]|e] eqn:Em; intros [= <- <-]; cbn; lookups; naive_solver.
  - unfold acquireInsert, CreateUnlessDuplicate. destruct (insertRow _ _ _ _) as [[[]|e] db'] eqn:Ei.
    + intros [= <- <-]. cbn. lookups. naive_solver.
    + pose proof (law_insert_err _ _ _ _ _ _ Ei key) as Hsame.
      destruct (IsDuplicateKey _ _ _); intros [= <- <-]; cbn; lookups;
        (split_and!; [done| |done..]); intros _; (split; [by apply (unowned_same cl)|done]).
  - by destruct (Hst u).
  - unfold acquireUpdate. destruct (updateTake _ _ _ _ _) as [[n|e] db'] eqn:Eu.
    + destruct (law_take _ _ _ _ _ _ _ Eu) as (_ & Hrow & _ & Hzero). destruct (Z.ltb_spec 0 n) as [Hn|Hn];
        intros [= <- <-]; cbn; lookups; [naive_solver|]. split_and!; [done| |done..]. intros _. split; [|done].
      apply (unowned_same cl); [|done]. cbn. rewrite Hrow. destruct (takes _ _ _) eqn:Et; [|done]. by destruct (Hun _ (Hzero Hn eq_refl)).
    + pose proof (law_take_err _ _ _ _ _ _ _ Eu key) as Hsame. intros [= <- <-]; cbn; lookups.
      split_and!; [done| |done..]. intros _. split; [by apply (unowned_same cl)|done].
Qed.

Lemma refreshStatement_spec cl key owner ttl r cl' :
  match cl_stages cl !! (key, owner) with Some (Extended _) | None => True | _ => False end →
  refreshStatement cl key owner ttl = (r, cl') →
  (r ≠ Ok (Some false) → is_Some (cl_leases cl !! (key, owner)) → is_Some (cl_leases cl' !! (key, owner))) ∧
  (r ≠ Ok None → cl_stages cl' !! (key, owner) = None) ∧
  match cl_stages cl' !! (key, owner) with Some (Extended _) | None => True | _ => False end ∧
  (unowned cl key owner → unowned cl' key owner ∧ r ≠ Ok (Some true)).
Proof.
  intros Hst. unfold refreshStatement. destruct (cl_stages cl !! (key, owner)) as [[u|u|u]|] eqn:E; try done.
  - destruct (mine _ _ _) as [[]|e] eqn:Em; intros [= <- <-]; cbn; lookups; (split_and!; [naive_solver|done|done|]); intros Hun;
      (split; [done|]); [|done..].
    unfold mine in Em. destruct (countMine _ _ _) as [n|] eqn:Ec; [|done]. injection Em as Hn%Z.ltb_lt.
    apply (law_count _ _ _ _ Ec), owns_true in Hn as [u' Hu]. by destruct (Hun u').
  - unfold refreshUpdate. destruct (updateExtend _ _ _ _) as [[n|e] db'] eqn:Eu.
    + destruct (law_extend _ _ _ _ _ _ Eu) as (_ & Hrow & Hpos & _).
      assert (unowned cl key owner → owns owner (lease_row (cl_db cl) key) = false) as Hno.
      { intros Hun. destruct (owns _ _) eqn:Eo; [|done]. apply owns_true in Eo as [u Hu]. by destruct (Hun u). }
      destruct (Z.ltb_spec 0 n) as [Hn|Hn]; intros [= <- <-]; cbn; lookups; (split_and!; [naive_solver|done|done|]); intros Hun;
        rewrite (Hno Hun) in *; [by specialize (Hpos Hn)|]. split; [|done]. by apply (unowned_same cl).
    + pose proof (law_extend_err _ _ _ _ _ _ Eu key) as Hsame. intros [= <- <-]; cbn; lookups.
      split_and!; [naive_solver|done|done|]. intros Hun. split; [|done]. by apply (unowned_same cl).
Qed.

(** A refresh answers that the lease is gone only when the row is not the owner's. *)
Lemma refreshStatement_refused cl key owner ttl cl' :
  refreshStatement cl key owner ttl = (Ok (Some false), cl') → unowned cl' key owner.
Proof.
  unfold refreshStatement. destruct (cl_stages cl !! (key, owner)) as [[u|u|u]|].
  3: { destruct (mine _ _ _) as [[]|e] eqn:Em; try done. intros [= <-]. exact (mine_not cl key owner Em). }
  all: unfold refreshUpdate; destruct (updateExtend _ _ _ _) as [[n|e] db']; [destruct (0 <? n)|]; done.
Qed.

(** A refresh is under way only while the heartbeat is in one. *)
Definition beat_ok cl (owner : string) (h : hold) : Prop :=
  match cl_stages cl !! (h_key h, owner) with
  | None => True
  | Some (Extended _) => ∃ now until, h_beat h = Beating now until
  | _ => False
  end.

(** A call by where it is. One that waits for its lease holds nothing; while [run]
    runs under a live context its lease was confirmed, and [cancel] was called only
    with the flag [lost]; one that is gone holds nothing, unless its release failed. *)
Definition hold_ok cl (owner : string) (h : hold) : Prop :=
  match h_place h with
  | Acquiring now _ =>
      now <= cl_clock cl ∧ cl_leases cl !! (h_key h, owner) = None ∧ unowned cl (h_key h) owner ∧
      (∀ u, cl_stages cl !! (h_key h, owner) ≠ Some (Extended u)) ∧
      h_beat h = Stopped ∧ h_cancelled h = false ∧ h_lost h = false
  | Running =>
      beat_ok cl owner h ∧ h_cancelled h = h_lost h ∧
      (runDone h = false → is_Some (cl_leases cl !! (h_key h, owner)))
  | Leaving _ => beat_ok cl owner h
  | Closing _ => beat_ok cl owner h ∧ h_cancelled h = true
  | Left _ logged =>
      h_beat h = Stopped ∧ cl_stages cl !! (h_key h, owner) = None ∧ cl_leases cl !! (h_key h, owner) = None ∧
      (logged = None → unowned cl (h_key h) owner)
  end.

Definition holders_ok w : Prop :=
  leases_ok (hw_clients w) ∧
  (∀ k o, o ∉ hw_others w → hw_holds w !! o = None →
    cl_stages (hw_clients w) !! (k, o) = None ∧ cl_leases (hw_clients w) !! (k, o) = None ∧ unowned (hw_clients w) k o) ∧
  (∀ o h, hw_holds w !! o = Some h → o ∉ hw_others w ∧ hold_ok (hw_clients w) o h).

Lemma hold_ok_frame cl cl' who o h : cl_frame who cl cl' → who ≠ Some o → hold_ok cl o h → hold_ok cl' o h.
Proof.
  intros [Hc Hf] Hne. destruct (Hf (h_key h) o Hne) as (Hs & Hl & Hu). unfold hold_ok, beat_ok. rewrite Hs, Hl.
  destruct (h_place h); naive_solver lia.
Qed.

(** A step of the call of [owner] is right when the clients' part is, the others are
    left alone and the call is right afterwards. *)
Lemma put_hold_ok w owner h h' cl' :
  holders_ok w → hw_holds w !! owner = Some h → leases_ok cl' → cl_frame (Some owner) (hw_clients w) cl' →
  hold_ok cl' owner h' → holders_ok (put_hold w owner h' cl').
Proof.
  intros (_ & Hfresh & Hh) Ho Hl Hf Hok. split_and!; [done| |]; cbn.
  - intros k o Hn Hk. apply lookup_insert_None in Hk as [Hk Hne]. destruct (Hfresh k o Hn Hk) as (Hs & Hb & Hu).
    destruct (proj2 Hf k o ltac:(congruence)) as (-> & -> & ?). auto.
  - intros o h0 Hk. destruct (decide (o = owner)) as [->|Hne].
    + rewrite lookup_insert_eq in Hk. injection Hk as <-. split; [by apply (Hh _ h)|done].
    + rewrite lookup_insert_ne in Hk by done. destruct (Hh o h0 Hk) as [? Hho]. split; [done|].
      eapply hold_ok_frame; [done|congruence|done].
Qed.

Lemma put_local_ok w owner h h' :
  holders_ok w → hw_holds w !! owner = Some h → hold_ok (hw_clients w) owner h' → holders_ok (put_hold w owner h' (hw_clients w)).
Proof. intros Hw Ho Hok. eapply put_hold_ok; [done..|apply Hw|apply cl_frame_refl|done]. Qed.

Lemma elsewhere_ok w e cl' :
  holders_ok w → (∀ o, event_owner e = Some o → o ∈ hw_others w) →
  lease_step mysqlNumber ToLower (hw_clients w) e = Some cl' → holders_ok (mkHolders cl' (hw_holds w) (hw_others w)).
Proof.
  intros (Hl & Hfresh & Hh) He Hs. pose proof (lease_step_frame _ _ _ _ _ Hs) as Hf.
  split_and!; [by eapply lease_step_ok| |]; cbn.
  - intros k o Hn Hk. destruct (Hfresh k o Hn Hk) as (? & ? & ?). destruct (proj2 Hf k o) as (-> & -> & ?); [naive_solver|auto].
  - intros o h Hk. destruct (Hh o h Hk) as [? Hho]. split; [done|]. eapply hold_ok_frame; [done|naive_solver|done].
Qed.

Lemma enter_ok w owner key ttl :
  holders_ok w → owner ∉ hw_others w → hw_holds w !! owner = None →
  holders_ok (put_hold w owner (enterHold key ttl (cl_clock (hw_clients w))) (hw_clients w)).
Proof.
  intros (Hl & Hfresh & Hh) Hn Hnone. split_and!; [done| |]; cbn.
  - intros k o Ho Hk. apply lookup_insert_None in Hk as [Hk _]. auto.
  - intros o h Hk. destruct (decide (o = owner)) as [->|Hne].
    + rewrite lookup_insert_eq in Hk. injection Hk as <-. split; [done|]. destruct (Hfresh key owner Hn Hnone) as (Hs & Hb & Hu).
      unfold hold_ok, enterHold. cbn. destruct (ttl <=? 0); [done|]. rewrite Hs. split_and!; (done || lia).
    + rewrite lookup_insert_ne in Hk by done. auto.
Qed.

Lemma nextAcquire_ok w owner h now spare r cl' :
  holders_ok w → hw_holds w !! owner = Some h → h_place h = Acquiring now spare →
  acquireStatement_ (hw_clients w) (h_key h) owner now (h_ttl h) = (r, cl') →
  holders_ok (put_hold w owner (afterAcquire mysqlNumber h now spare r) cl').
Proof.
  intros Hw Ho Hp E. destruct (proj2 (proj2 Hw) owner h Ho) as [_ Hok]. unfold hold_ok in Hok. rewrite Hp in Hok.
  destruct Hok as (Hnow & Hl & Hun & Hst & Hb & Hc & Hlost).
  destruct (acquireStatement_event (hw_clients w) (h_key h) owner now (h_ttl h) Hst Hnow) as (e & He & Hs). rewrite E in Hs. cbn in Hs.
  pose proof (lease_step_frame _ _ _ _ _ Hs) as Hf. rewrite He in Hf.
  destruct (acquireStatement_spec _ _ _ _ _ _ _ Hst Hun Hl E) as (HT & HN & HS & HE).
  eapply put_hold_ok; [done..|eapply lease_step_ok; [apply Hw|done]|done|]. pose proof (proj1 Hf) as Hle.
  unfold hold_ok, afterAcquire. destruct r as [[[]|]|err].
  - cbn. unfold beat_ok. cbn. rewrite HS by done. rewrite Hc, Hlost. auto.
  - cbn. destruct HN; [done|]. rewrite HS by done. auto.
  - rewrite Hp. destruct HN; [done|]. split_and!; (done || lia).
  - destruct HN; [done|]. assert (cl_stages cl' !! (h_key h, owner) = None) as Hnone by by apply HS.
    destruct spare as [|spare]; [cbn; auto|]. destruct (IsDeadlock _ _); cbn; [|auto].
    rewrite Hnone. split_and!; (done || lia).
Qed.

Lemma beat_stage cl owner h :
  beat_ok cl owner h → match cl_stages cl !! (h_key h, owner) with Some (Extended _) | None => True | _ => False end.
Proof. unfold beat_ok. by destruct (_ !! _) as [[]|]. Qed.

(** A call whose heartbeat is in a refresh. *)
Lemma beating_ok cl owner h now until :
  hold_ok cl owner h → h_beat h = Beating now until →
  beat_ok cl owner h ∧
  match h_place h with
  | Running => h_cancelled h = h_lost h ∧ (runDone h = false → is_Some (cl_leases cl !! (h_key h, owner)))
  | Leaving _ => True
  | Closing _ => h_cancelled h = true
  | _ => False
  end.
Proof. unfold hold_ok. destruct (h_place h); intros; destruct_and?; (congruence || done). Qed.

Lemma nextRefresh_ok w owner h now until r cl' :
  holders_ok w → hw_holds w !! owner = Some h → h_beat h = Beating now until →
  refreshStatement (hw_clients w) (h_key h) owner (h_ttl h) = (r, cl') →
  holders_ok (put_hold w owner (afterRefresh h now until r) cl').
Proof.
  intros Hw Ho Hb E. destruct (proj2 (proj2 Hw) owner h Ho) as [_ Hok]. destruct (beating_ok _ _ _ _ _ Hok Hb) as [Hbo Hp].
  pose proof (beat_stage _ _ _ Hbo) as Hst.
  destruct (refreshStatement_event (hw_clients w) (h_key h) owner (h_ttl h) Hst) as (e & He & Hs). rewrite E in Hs. cbn in Hs.
  pose proof (lease_step_frame _ _ _ _ _ Hs) as Hf. rewrite He in Hf.
  destruct (refreshStatement_spec _ _ _ _ _ _ Hst E) as (HL & HS & HE & _).
  eapply put_hold_ok; [done..|eapply lease_step_ok; [apply Hw|done]|done|].
  assert (r ≠ Ok None → ∀ h', h_key h' = h_key h → beat_ok cl' owner h') as Hquiet.
  { intros Hr h' Hk. unfold beat_ok. by rewrite Hk, HS. }
  assert (r = Ok None → beat_ok cl' owner h) as Hgoes.
  { intros _. unfold beat_ok. destruct (cl_stages cl' !! (h_key h, owner)) as [[]|]; (done || eauto). }
  unfold hold_ok, afterRefresh. unfold runDone in *.
  destruct r as [[[]|]|err]; destruct (h_ended h) eqn:Ee, (h_cancelled h) eqn:Ec; cbn;
    try (destruct (now <? until); cbn); rewrite ?Ee, ?Ec; destruct (h_place h) eqn:Ep; naive_solver.
Qed.

Lemma release_ok w owner h answer o db :
  holders_ok w → hw_holds w !! owner = Some h → h_place h = Closing answer → h_beat h = Stopped →
  Release (h_key h) owner (cl_db (hw_clients w)) = (o, db) →
  holders_ok (put_hold w owner (set_place h (Left answer match o with Ok _ => None | Err err => Some err end))
    (mkClients db (cl_clock (hw_clients w)) (cl_stages (hw_clients w)) (delete (h_key h, owner) (cl_leases (hw_clients w))))).
Proof.
  intros Hw Ho Hp Hb E. destruct (proj2 (proj2 Hw) owner h Ho) as [_ Hok]. unfold hold_ok in Hok. rewrite Hp in Hok.
  destruct Hok as [Hbo _]. unfold beat_ok in Hbo. rewrite Hb in Hbo.
  assert (cl_stages (hw_clients w) !! (h_key h, owner) = None) as Hnone
    by (destruct (cl_stages (hw_clients w) !! (h_key h, owner)) as [[]|]; naive_solver).
  assert (lease_step mysqlNumber ToLower (hw_clients w) (DoRelease (h_key h) owner) =
    Some (mkClients db (cl_clock (hw_clients w)) (cl_stages (hw_clients w)) (delete (h_key h, owner) (cl_leases (hw_clients w))))) as Hs.
  { cbn. by rewrite Hnone, E. }
  eapply put_hold_ok; [done..|eapply lease_step_ok; [apply Hw|done]|by apply lease_step_frame in Hs|].
  unfold hold_ok. cbn. rewrite lookup_delete_eq. split_and!; [done..|]. destruct o as [[]|]; [|done]. intros _ u Hr. cbn in Hr.
  unfold Release, StoreRelease in E. destruct (deleteMine _ _ _) as [[[]|] db'] eqn:Ed; simplify_eq.
  by apply (owns_false _ _ u (law_delete_done _ _ _ _ Ed)).
Qed.

(** A heartbeat between refreshes goes where it likes. *)
Lemma set_beat_ok cl owner h b :
  hold_ok cl owner h → h_beat h ≠ Stopped → (∀ now until, h_beat h ≠ Beating now until) → hold_ok cl owner (set_beat h b).
Proof.
  intros Hok Hs Hb.
  assert (beat_ok cl owner h → beat_ok cl owner (set_beat h b)).
  { unfold beat_ok. cbn. destruct (_ !! _) as [[]|]; try done. by intros (? & ? & E%Hb). }
  unfold hold_ok, runDone in *. cbn in *; destruct (h_place h); naive_solver.
Qed.

Lemma hold_step_ok w m w' : holders_ok w → step w m = Some w' → holders_ok w'.
Proof.
  intros Hw. destruct m as [e|owner key ttl|owner|owner|owner|owner|owner|owner|owner e|owner|owner]; cbn.
  1: { destruct (match event_owner e with Some _ => _ | None => _ end) eqn:Ee; [|done].
       destruct (lease_step _ _ _ _) as [cl'|] eqn:Es; [|done]. intros [= <-]. eapply elsewhere_ok; [done| |done].
       intros o Eo. rewrite Eo in Ee. by apply bool_decide_eq_true in Ee. }
  1: { case_bool_decide as Hb; [|done]. destruct Hb. intros [= <-]. by apply enter_ok. }
  all: destruct (hw_holds w !! owner) as [h|] eqn:Eh; [|done]; cbn; destruct (proj2 (proj2 Hw) owner h Eh) as [_ Hok].
  - intros [= <-]. eapply put_local_ok; [done..|]. unfold hold_ok, beat_ok, runDone in *. cbn. destruct (h_place h); naive_solver.
  - destruct (h_place h) as [now spare| | | |] eqn:Ep; try done. destruct (acquireStatement _ _ _ _ _ _ _) as [r cl'] eqn:Er.
    intros [= <-]. by eapply nextAcquire_ok.
  - destruct (h_beat h) eqn:Eb; try done. intros [= <-]. eapply put_local_ok; [done..|]. by apply set_beat_ok; rewrite ?Eb.
  - destruct (h_beat h) eqn:Eb; try done. intros [= <-]. eapply put_local_ok; [done..|]. by apply set_beat_ok; rewrite ?Eb.
  - destruct (h_beat h) eqn:Eb; try done. destruct (runDone h); [|done]. intros [= <-]. eapply put_local_ok; [done..|].
    by apply set_beat_ok; rewrite ?Eb.
  - destruct (h_beat h) as [| |now until|] eqn:Eb; try done. destruct (refreshStatement _ _ _ _) as [r cl'] eqn:Er.
    intros [= <-]. by eapply nextRefresh_ok.
  - destruct (h_place h) eqn:Ep; try done. intros [= <-]. eapply put_local_ok; [done..|].
    unfold hold_ok, beat_ok in *. rewrite Ep in Hok. cbn. apply Hok.
  - destruct (h_place h) eqn:Ep; try done. intros [= <-]. eapply put_local_ok; [done..|].
    unfold hold_ok, beat_ok in *. rewrite Ep in Hok. cbn. done.
  - destruct (h_place h) eqn:Ep; try done. destruct (h_beat h) eqn:Eb; try done. destruct (Release _ _ _) as [o db] eqn:Er.
    intros [= <-]. by eapply release_ok.
Qed.

Lemma hold_run_ok ms w w' : holders_ok w → run w ms = Some w' → holders_ok w'.
Proof.
  revert w. induction ms as [|m ms IH]; intros w Hw Hr; [by injection Hr as <-|]. cbn in Hr.
  destruct (step w m) as [w1|] eqn:Es; [|done]. apply (IH w1); [|done]. by eapply hold_step_ok.
Qed.

Lemma start_ok db now others :
  (∀ k o u, lease_row db k = Some (o, u) → o ∈ others) → holders_ok (mkHolders (mkClients db now ∅ ∅) ∅ others).
Proof.
  intros Hdb. split_and!; cbn.
  - intros k o. cbn. rewrite !lookup_empty. done.
  - intros k o Hn _. rewrite !lookup_empty. split_and!; [done..|]. intros u Hu. by apply Hn, (Hdb k o u).
  - intros o h. by rewrite lookup_empty.
Qed.

(** ** A call that is on its way out gets out *)

Lemma hold_run_app ms ms' w w1 : run w ms = Some w1 → run w (ms ++ ms') = run w1 ms'.
Proof.
  revert w. induction ms as [|m ms IH]; intros w; cbn; [by intros [= <-]|].
  destruct (step w m) as [w'|]; [|done]. cbn. apply IH.
Qed.

(** Some steps of the call of [owner] lead from [w] to a state with [P]. *)
Definition goes (owner : string) (n : nat) w (P : holders (Db := Db) → Prop) : Prop :=
  ∃ ms w', (length ms <= n)%nat ∧ Forall (λ m, ownStep m = Some owner) ms ∧ run w ms = Some w' ∧ P w'.

Lemma goes_now owner n w (P : holders → Prop) : P w → goes owner n w P.
Proof. intros HP. exists [], w. cbn. split_and!; [lia|constructor|done..]. Qed.

Lemma goes_step owner n w m w1 P :
  ownStep m = Some owner → step w m = Some w1 → goes owner n w1 P → goes owner (S n) w P.
Proof.
  intros Hm Hs (ms & w' & Hn & Hf & Hr & HP). exists (m :: ms), w'. cbn. rewrite Hs. cbn.
  split_and!; [lia|by constructor|done..].
Qed.

Lemma goes_trans owner n n' w P Q : goes owner n w P → (∀ w', P w' → goes owner n' w' Q) → goes owner (n + n') w Q.
Proof.
  intros (ms & w1 & Hn & Hf & Hr & HP) Hnext. destruct (Hnext _ HP) as (ms' & w' & Hn' & Hf' & Hr' & HQ).
  exists (ms ++ ms'), w'. rewrite length_app. split_and!; [lia|by apply Forall_app| |done]. by rewrite (hold_run_app _ _ _ _ Hr).
Qed.

Definition at_place w (owner : string) (a : ending) (b : bool) : Prop :=
  holders_ok w ∧ ∃ h, hw_holds w !! owner = Some h ∧ h_place h = Closing a ∧ (b = true → h_beat h = Stopped).

Lemma cancel_goes w owner h a :
  holders_ok w → hw_holds w !! owner = Some h → h_place h = Leaving a → goes owner 1 w (λ w', at_place w' owner a false).
Proof.
  intros Hw Ho Hp. assert (step w (Cancels owner) = Some (put_hold w owner (set_place (cancelled h) (Closing a)) (hw_clients w))) as Hs
    by (cbn; by rewrite Ho; cbn; rewrite Hp).
  eapply goes_step; [|exact Hs|]; [done|]. apply goes_now. split; [by eapply hold_step_ok|].
  eexists. cbn. rewrite lookup_insert_eq. done.
Qed.

(** A refresh that began under a cancelled context is the heartbeat's last. *)
Lemma last_refresh w owner h now until a :
  holders_ok w → hw_holds w !! owner = Some h → h_place h = Closing a → h_beat h = Beating now until →
  ∃ w', step w (NextRefresh owner) = Some w' ∧ holders_ok w' ∧
    (at_place w' owner a true ∨
     cl_stages (hw_clients w) !! (h_key h, owner) = None ∧ hw_holds w' !! owner = Some h ∧
     is_Some (cl_stages (hw_clients w') !! (h_key h, owner))).
Proof.
  intros Hw Ho Hp Hb. destruct (refreshStatement (hw_clients w) (h_key h) owner (h_ttl h)) as [r cl'] eqn:Er.
  assert (step w (NextRefresh owner) = Some (put_hold w owner (afterRefresh h now until r) cl')) as Hs
    by (cbn; rewrite Ho; cbn; by rewrite Hb, Er).
  pose proof (hold_step_ok _ _ _ Hw Hs) as Hw'. eexists. split; [exact Hs|]. split; [done|].
  pose proof (proj2 (proj2 (proj2 Hw) owner h Ho)) as Hok. unfold hold_ok in Hok. rewrite Hp in Hok. destruct Hok as [Hbo Hc].
  assert (r = Ok None ∨ afterRefresh h now until r = set_beat h Stopped) as [->|Hr].
  { unfold afterRefresh, runDone. rewrite Hc, orb_true_r. destruct r as [[]|]; auto. }
  - right. cbn. rewrite lookup_insert_eq. unfold refreshStatement in Er.
    destruct (cl_stages (hw_clients w) !! (h_key h, owner)) as [[u|u|u]|] eqn:E; try (by apply beat_stage in Hbo; rewrite E in Hbo).
    + by destruct (mine _ _ _).
    + split_and!; [done..|]. destruct (refreshUpdate _ _ _ _) as [[[]|] db']; simplify_eq/=. rewrite lookup_insert_eq. eauto.
  - left. split; [done|]. eexists. cbn. rewrite lookup_insert_eq, Hr. done.
Qed.

Lemma stop_goes w owner a : at_place w owner a false → goes owner 2 w (λ w', at_place w' owner a true).
Proof.
  intros (Hw & h & Ho & Hp & _). pose proof (proj2 (proj2 (proj2 Hw) owner h Ho)) as Hok. unfold hold_ok in Hok. rewrite Hp in Hok.
  destruct Hok as [Hbo Hc]. assert (runDone h = true) as Hd by (unfold runDone; by rewrite Hc, orb_true_r).
  assert (∀ w1 h1 until, holders_ok w1 → hw_holds w1 !! owner = Some h1 → h_place h1 = Closing a → h_beat h1 = Waiting until →
    runDone h1 = true → goes owner 1 w1 (λ w', at_place w' owner a true)) as Hwait.
  { intros w1 h1 until Hw1 Ho1 Hp1 Hb1 Hd1.
    assert (step w1 (BeatStops owner) = Some (put_hold w1 owner (set_beat h1 Stopped) (hw_clients w1))) as Hs
      by (cbn; rewrite Ho1; cbn; by rewrite Hb1, Hd1).
    eapply goes_step; [|exact Hs|]; [done|]. apply goes_now. split; [by eapply hold_step_ok|]. eexists. cbn. by rewrite lookup_insert_eq. }
  destruct (h_beat h) as [|until|now until|] eqn:Eb.
  - assert (step w (BeatStarts owner) = Some (put_hold w owner (set_beat h (Waiting (cl_clock (hw_clients w) + h_ttl h))) (hw_clients w))) as Hs
      by (cbn; rewrite Ho; cbn; by rewrite Eb).
    eapply goes_step; [|exact Hs|]; [done|]. eapply Hwait; [by eapply hold_step_ok|apply lookup_insert_eq|done..].
  - destruct (Hwait w h until) as (ms & w' & Hn & ?); try done. exists ms, w'. split; [lia|done].
  - destruct (last_refresh w owner h now until a) as (w1 & Hs & Hw1 & [Hdone|(Hnone & Ho1 & Hsome)]); try done.
    + eapply goes_step; [|exact Hs|]; [done|]. by apply goes_now.
    + eapply goes_step; [|exact Hs|]; [done|].
      destruct (last_refresh w1 owner h now until a) as (w2 & Hs2 & Hw2 & [Hdone|(Hnone2 & _)]); try done.
      * eapply goes_step; [|exact Hs2|]; [done|]. by apply goes_now.
      * rewrite Hnone2 in Hsome. by destruct Hsome.
  - apply goes_now. split; [done|]. eauto.
Qed.

Lemma release_goes w owner a :
  at_place w owner a true → goes owner 1 w (λ w', holders_ok w' ∧ ∃ h logged, hw_holds w' !! owner = Some h ∧ h_place h = Left a logged).
Proof.
  intros (Hw & h & Ho & Hp & Hb). specialize (Hb eq_refl).
  destruct (Release (h_key h) owner (cl_db (hw_clients w))) as [o db] eqn:Er.
  pose proof (release_ok _ _ _ _ _ _ Hw Ho Hp Hb Er) as Hw'.
  eapply (goes_step _ _ _ (Releases owner)); [done|cbn; rewrite Ho; cbn; by rewrite Hp, Hb, Er|].
  apply goes_now. split; [done|]. eexists _, _. cbn. by rewrite lookup_insert_eq.
Qed.
End Invariant.

(** ** Names *)

Lemma EncodeToString_length b : String.length (EncodeToString b) = (2 * length b)%nat.
Proof. induction b as [|x b IH]; [done|]. cbn [EncodeToString length]. rewrite Utf8.length_string_app, IH. cbn. lia. Qed.

Lemma hex_char_inj m n : 0 <= m < 16 → 0 <= n < 16 → Str.hex_char m = Str.hex_char n → m = n.
Proof.
  intros Hm Hn H. apply (f_equal Ascii.nat_of_ascii) in H. revert H. unfold Str.hex_char.
  destruct (Z.ltb_spec m 10), (Z.ltb_spec n 10); rewrite !Ascii.nat_ascii_embedding by lia; lia.
Qed.

Lemma hexByte_inj x y t t' : hexByte x +:+ t = hexByte y +:+ t' → x = y ∧ t = t'.
Proof.
  intros H. unfold hexByte in H. rewrite !Str.app_cons, !Str.app_empty_l in H. injection H as H1 H2 ->. split; [|done].
  pose proof (Byte.to_N_bounded x). pose proof (Byte.to_N_bounded y).
  apply hex_char_inj in H1; [|Z.div_mod_to_equations; lia..]. apply hex_char_inj in H2; [|Z.div_mod_to_equations; lia..].
  assert (Byte.to_N x = Byte.to_N y) as E by (Z.div_mod_to_equations; lia).
  apply (f_equal Byte.of_N) in E. rewrite !Byte.of_to_N in E. by injection E.
Qed.

Lemma EncodeToString_inj b b' : EncodeToString b = EncodeToString b' → b = b'.
Proof.
  revert b'. induction b as [|x b IH]; intros [|y b'] H; [done|by destruct y|by destruct x|].
  cbn in H. apply hexByte_inj in H as [-> H]. by rewrite (IH b').
Qed.

Lemma app_same_length (s s' t t' : string) : s +:+ t = s' +:+ t' → String.length t = String.length t' → t = t'.
Proof.
  intros H Hl. assert (String.length s = String.length s') as Hs.
  { apply (f_equal String.length) in H. rewrite !Utf8.length_string_app in H. lia. }
  clear Hl. revert s' H Hs. induction s as [|c s IH]; intros [|c' s'] H Hs; try done.
  rewrite !Str.app_cons in H. injection H as _ H. apply (IH s'); [done|by injection Hs].
Qed.

Lemma length_substring_le n s : (String.length (String.substring 0 n s) <= n)%nat.
Proof. revert n. induction s as [|c s IH]; intros [|n]; cbn; [lia..|]. specialize (IH n). lia. Qed.

(** The names of two holders that drew different numbers differ, on whatever hosts,
    and fit the column of the owner (100). *)
Theorem newOwner_distinct (host host' : string) (b b' : list Byte.byte) :
  length b = 8%nat → length b' = 8%nat → b ≠ b' →
  newOwner host b ≠ newOwner host' b' ∧ (String.length (newOwner host b) <= 77)%nat.
Proof.
  intros Hb Hb' Hne. split.
  - intros H. apply Hne, EncodeToString_inj. unfold newOwner in H. apply app_same_length in H.
    + rewrite !Str.app_cons, !Str.app_empty_l in H. by injection H.
    + rewrite !Utf8.length_string_app, !EncodeToString_length, Hb, Hb'. done.
  - unfold newOwner. rewrite !Utf8.length_string_app, EncodeToString_length, Hb. cbn [String.length].
    pose proof (length_substring_le (Nat.min (String.length host) maxHost) host) as H. unfold maxHost in *. lia.
Qed.

(** What cancels a run: the end of a refresh, which found that the row is another's or
    failed when the heartbeat took the lease to have run out. *)
Lemma run_cancelled {Db : Type} `{!LockTable Db} `{!LockTableLaws Db} mysqlNumber ToLower (w w' : holders) m o h h' :
  hold_step mysqlNumber ToLower w m = Some w' → hw_holds w !! o = Some h → hw_holds w' !! o = Some h' →
  h_place h' = Running → h_cancelled h = false → h_cancelled h' = true →
  m = NextRefresh o ∧ ∃ now until, h_beat h = Beating now until ∧ (unowned (hw_clients w') (h_key h) o ∨ until <= now).
Proof.
  intros Hs Ho Ho' Hp Hc Hc'.
  assert (∀ o1 h1 cl, w' = put_hold w o1 h1 cl → (o1 = o → h_cancelled h1 = false ∨ h_place h1 ≠ Running) → False) as Hput.
  { intros o1 h1 cl -> Hx. cbn in Ho'. apply lookup_insert_Some in Ho' as [[-> ->]|[_ Ho']]; [|congruence].
    destruct (Hx eq_refl); congruence. }
  assert (∀ o1 h1 b cl, w' = put_hold w o1 (set_beat h1 b) cl → hw_holds w !! o1 = Some h1 → False) as Hbeat.
  { intros o1 h1 b cl Hw E. apply (Hput _ _ _ Hw). intros ->. left. cbn. congruence. }
  destruct m; cbn in Hs.
  1: { case_match; [|done]. destruct (lease_step _ _ _ _); [|done]. injection Hs as <-. cbn in Ho'. congruence. }
  1: { case_bool_decide; [|done]. injection Hs as <-. exfalso. eapply Hput; [done|]. by left. }
  all: destruct (hw_holds w !! owner) as [h1|] eqn:E; [cbn in Hs|done].
  - injection Hs as <-. exfalso. eapply Hput; [done|]. intros ->. left. cbn. congruence.
  - destruct (h_place h1); try done. destruct (acquireStatement _ _ _ _ _ _ _). injection Hs as <-. exfalso.
    eapply Hput; [done|]. intros ->. left. unfold afterAcquire. repeat case_match; cbn; congruence.
  - destruct (h_beat h1); try done. injection Hs as <-. exfalso. by eapply Hbeat.
  - destruct (h_beat h1); try done. injection Hs as <-. exfalso. by eapply Hbeat.
  - destruct (h_beat h1); try done. case_match; [|done]. injection Hs as <-. exfalso. by eapply Hbeat.
  - destruct (h_beat h1) as [| |now until|] eqn:Eb; try done. destruct (refreshStatement _ _ _ _) as [r cl'] eqn:Er.
    injection Hs as <-. cbn in Ho' |- *. apply lookup_insert_Some in Ho' as [[-> <-]|[_ Ho']]; [|congruence].
    rewrite Ho in E. injection E as <-. split; [done|]. exists now, until. split; [done|]. unfold afterRefresh in Hc'.
    destruct r as [[[]|]|err]; try (case_match; cbn in Hc'; congruence); [by left; eapply refreshStatement_refused|congruence|].
    destruct (Z.ltb_spec now until); [|by right]. case_match; cbn in Hc'; congruence.
  - destruct (h_place h1); try done. injection Hs as <-. exfalso. eapply Hput; [done|]. by right.
  - destruct (h_place h1); try done. injection Hs as <-. exfalso. eapply Hput; [done|]. by right.
  - destruct (h_place h1), (h_beat h1); try done. destruct (Release _ _ _). injection Hs as <-. exfalso. eapply Hput; [done|]. by right.
Qed.

(** ** The promises of Hold *)

(** C34. Only one run at a time: from a table whose rows are other clients', after any
    interleaving of the statements and goroutines of any number of calls of Hold and
    of the other clients, with the clock moving, statements failing, callers' contexts
    ending and heartbeats ticking at will, a run whose context is live has a lease
    that was confirmed to it, and while that lease has not run out the row of the key
    is its own; a step that cancels a run is the end of a refresh that found the row
    another's, or that failed when the heartbeat took the lease to have run out; and
    two clients whose confirmed leases have not run out are the same client. *)
Theorem Hold_excludes {Db : Type} `{!LockTable Db} `{!LockTableLaws Db} (mysqlNumber : error → option Z)
    (ToLower : string → string) (db : Db) (start : Z) (others : gset string) (ms : list moment) (w : holders) :
  (∀ k o u, lease_row db k = Some (o, u) → o ∈ others) →
  hold_run mysqlNumber ToLower (mkHolders (mkClients db start ∅ ∅) ∅ others) ms = Some w →
  (∀ o h, hw_holds w !! o = Some h → h_place h = Running → runDone h = false →
    ∃ u, cl_leases (hw_clients w) !! (h_key h, o) = Some u ∧
      (cl_clock (hw_clients w) <= u → ∃ u', lease_row (cl_db (hw_clients w)) (h_key h) = Some (o, u') ∧ u <= u')) ∧
  (∀ m w' o h h', hold_step mysqlNumber ToLower w m = Some w' →
    hw_holds w !! o = Some h → hw_holds w' !! o = Some h' → h_place h' = Running →
    h_cancelled h = false → h_cancelled h' = true →
    m = NextRefresh o ∧ ∃ now until, h_beat h = Beating now until ∧ (unowned (hw_clients w') (h_key h) o ∨ until <= now)) ∧
  (∀ key o1 o2 u1 u2,
    cl_leases (hw_clients w) !! (key, o1) = Some u1 → cl_clock (hw_clients w) <= u1 →
    cl_leases (hw_clients w) !! (key, o2) = Some u2 → cl_clock (hw_clients w) <= u2 → o1 = o2).
Proof.
  intros Hdb Hr. destruct (hold_run_ok _ _ _ _ _ (start_ok db start others Hdb) Hr) as (Hl & _ & Hh). split_and!.
  - intros o h Ho Hp Hd. destruct (Hh o h Ho) as [_ Hok]. unfold hold_ok in Hok. rewrite Hp in Hok.
    destruct Hok as (_ & _ & [u Hu]%(λ H, H Hd)). exists u. split; [done|]. by apply (Hl (h_key h) o).
  - intros m w' o h h'. apply run_cancelled.
  - intros key o1 o2 u1 u2 H1 Hl1 H2 Hl2. by eapply leases_agree.
Qed.

(** Two calls for a key an earlier client let run out: one takes it and refreshes it,
    the other is refused. *)
Definition sampleTable : MemTable := mkMemTable true {[ "import" := ("old", 5) ]}.
Definition sampleStart : holders := mkHolders (mkClients sampleTable 10 ∅ ∅) ∅ {[ "old" ]}.
Definition sampleHolds : list moment :=
  [Enter "a" "import" 30; NextAcquire "a"; Enter "b" "import" 30; NextAcquire "b"; NextAcquire "b"; NextAcquire "b";
   BeatStarts "a"; Elsewhere (Tick 20); BeatTicks "a"; NextRefresh "a"].

(** What a run leaves, read off by evaluating it. *)
Lemma run_gives {W A : Type} (o : option W) (w : W) (f : W → A) (a : A) : o = Some w → f <$> o = Some a → f w = a.
Proof. intros ->. by intros [= <-]. Qed.

Lemma sampleTable_old : ∀ k o u, lease_row sampleTable k = Some (o, u) → o ∈ ({[ "old" ]} : gset string).
Proof.
  intros k o u. change (lease_row sampleTable k) with (({[ "import" := ("old", 5) ]} : gmap string (string * Z)) !! k).
  intros H. apply lookup_singleton_Some in H as [_ [= <- _]]. apply elem_of_singleton. reflexivity.
Qed.

Lemma Hold_excludes_witness :
  match hold_run (λ _, None) (λ s, s) sampleStart sampleHolds with
  | Some w =>
      (h_place <$> hw_holds w !! "a") = Some Running ∧
      (h_place <$> hw_holds w !! "b") = Some (Left (Returned (Some (named ErrHeld "import"))) None) ∧
      cl_leases (hw_clients w) !! ("import", "a") = Some 50 ∧
      ∀ o u, cl_leases (hw_clients w) !! ("import", o) = Some u → cl_clock (hw_clients w) <= u → o = "a"
  | None => False
  end.
Proof.
  destruct (hold_run (λ _, None) (λ s, s) sampleStart sampleHolds) as [w|] eqn:E;
    [|apply (f_equal (λ o, bool_decide (is_Some o))) in E; vm_compute in E; discriminate E].
  assert (cl_leases (hw_clients w) !! ("import", "a") = Some 50) as Ha
    by (apply (run_gives _ w (λ w, cl_leases (hw_clients w) !! ("import", "a")) _ E); vm_compute; reflexivity).
  split; [apply (run_gives _ w (λ w, h_place <$> hw_holds w !! "a") _ E); vm_compute; reflexivity|].
  split; [apply (run_gives _ w (λ w, h_place <$> hw_holds w !! "b") _ E); vm_compute; reflexivity|].
  split; [exact Ha|]. intros o u Hu Hl.
  refine (proj2 (proj2 (Hold_excludes (λ _, None) (λ s, s) sampleTable 10 {[ "old" ]} sampleHolds w sampleTable_old E))
    "import" o "a" u 50 Hu Hl Ha _).
  rewrite (run_gives _ w (λ w, cl_clock (hw_clients w)) 20 E); [lia|vm_compute; reflexivity].
Defined.

(** A lost lease is noticed: when the row of a running call has gone to someone
    else, the refresh its heartbeat is in cannot confirm it. When it ends the run's
    context is cancelled and the lease marked lost, unless the store failed and the
    heartbeat still counts on the lease, whose end it leaves as it was. *)
Theorem Hold_notices {Db : Type} `{!LockTable Db} `{!LockTableLaws Db} (mysqlNumber : error → option Z)
    (ToLower : string → string) (db : Db) (start : Z) (others : gset string) (ms : list moment) (w w' : holders)
    (o : string) (h : hold) (now until : Z) :
  (∀ k o u, lease_row db k = Some (o, u) → o ∈ others) →
  hold_run mysqlNumber ToLower (mkHolders (mkClients db start ∅ ∅) ∅ others) ms = Some w →
  hw_holds w !! o = Some h → h_beat h = Beating now until → runDone h = false → unowned (hw_clients w) (h_key h) o →
  hold_step mysqlNumber ToLower w (NextRefresh o) = Some w' →
  unowned (hw_clients w') (h_key h) o ∧
  ∃ h', hw_holds w' !! o = Some h' ∧
    (h' = h ∨ h_lost h' = true ∧ h_cancelled h' = true ∧ h_beat h' = Stopped ∨
     h' = set_beat h (Waiting until) ∧ now < until).
Proof.
  intros Hdb Hr Ho Hb Hd Hun. cbn. rewrite Ho. cbn. rewrite Hb. destruct (refreshStatement _ _ _ _) as [r cl'] eqn:E. intros [= <-].
  destruct (hold_run_ok _ _ _ _ _ (start_ok db start others Hdb) Hr) as (_ & _ & Hh). destruct (Hh o h Ho) as [_ Hok].
  destruct (beating_ok _ _ _ _ _ Hok Hb) as [Hbo _].
  destruct (refreshStatement_spec ToLower _ _ _ _ _ _ (beat_stage _ _ _ Hbo) E) as (_ & _ & _ & Hlost). destruct (Hlost Hun) as [Hun' Hne].
  cbn. split; [done|]. rewrite lookup_insert_eq. eexists. split; [done|]. unfold afterRefresh. rewrite Hd.
  destruct r as [[[]|]|err]; [done|cbn; auto..|]. destruct (Z.ltb_spec now until); cbn; auto.
Qed.

(** C35. Hold lets go: wherever the scheduler has left a call whose run has ended, at most
    four steps of its own goroutines, none of which another client can block, end it
    with the answer that was settled; its heartbeat has stopped, none of its
    statements is under way, and unless the release failed the key is not its own. *)
Theorem Hold_lets_go {Db : Type} `{!LockTable Db} `{!LockTableLaws Db} (mysqlNumber : error → option Z)
    (ToLower : string → string) (db : Db) (start : Z) (others : gset string) (ms : list moment) (w : holders)
    (o : string) (h : hold) (answer : ending) :
  (∀ k o u, lease_row db k = Some (o, u) → o ∈ others) →
  hold_run mysqlNumber ToLower (mkHolders (mkClients db start ∅ ∅) ∅ others) ms = Some w →
  hw_holds w !! o = Some h → (h_place h = Leaving answer ∨ h_place h = Closing answer) →
  ∃ ms' w' h' logged, (length ms' <= 4)%nat ∧ Forall (λ m, ownStep m = Some o) ms' ∧
    hold_run mysqlNumber ToLower w ms' = Some w' ∧ hw_holds w' !! o = Some h' ∧
    h_place h' = Left answer logged ∧ h_beat h' = Stopped ∧
    cl_stages (hw_clients w') !! (h_key h', o) = None ∧ cl_leases (hw_clients w') !! (h_key h', o) = None ∧
    (logged = None → unowned (hw_clients w') (h_key h') o).
Proof.
  intros Hdb Hr Ho Hp. pose proof (hold_run_ok _ _ _ _ _ (start_ok db start others Hdb) Hr) as Hw.
  assert (goes mysqlNumber ToLower o 1 w (λ w', at_place w' o answer false)) as H1.
  { destruct Hp; [by eapply cancel_goes|]. apply goes_now. split; [done|]. exists h. done. }
  destruct (goes_trans _ _ _ _ _ _ _ _ H1 (λ w1 Hw1, goes_trans _ _ _ 2 1 _ _ _ (stop_goes _ _ w1 o answer Hw1) (λ w2 Hw2, release_goes _ _ w2 o answer Hw2)))
    as (ms' & w' & Hn & Hf & Hr' & (_ & _ & Hh) & h' & logged & Ho' & Hp').
  exists ms', w', h', logged. destruct (Hh o h' Ho') as [_ Hok]. unfold hold_ok in Hok. rewrite Hp' in Hok. naive_solver lia.
Qed.

(** The first call slept past its lease, a third took the key, and the run ended. *)
Definition sampleLost : list moment :=
  sampleHolds ++ [Elsewhere (Tick 60); Enter "c" "import" 30; NextAcquire "c"; BeatTicks "a"; NextRefresh "a"; NextRefresh "a";
    RunEnds "a" (Returned None)].

Lemma Hold_lets_go_witness :
  match hold_run (λ _, None) (λ s, s) sampleStart sampleLost with
  | Some w =>
      (h_place <$> hw_holds w !! "a") = Some (Leaving (Returned (Some (errorsJoin (named ErrLost "import") None)))) ∧
      ∃ ms' w' h' logged, (length ms' <= 4)%nat ∧ hold_run (λ _, None) (λ s, s) w ms' = Some w' ∧ hw_holds w' !! "a" = Some h' ∧
        h_place h' = Left (Returned (Some (errorsJoin (named ErrLost "import") None))) logged
  | None => False
  end.
Proof.
  destruct (hold_run (λ _, None) (λ s, s) sampleStart sampleLost) as [w|] eqn:E;
    [|apply (f_equal (λ o, bool_decide (is_Some o))) in E; vm_compute in E; discriminate E].
  set (h := mkHold "import" 30 false true true (Leaving (Returned (Some (errorsJoin (named ErrLost "import") None)))) Stopped).
  assert (hw_holds w !! "a" = Some h) as Ha
    by (apply (run_gives _ w (λ w, hw_holds w !! "a") _ E); vm_compute; reflexivity).
  split; [rewrite Ha; reflexivity|].
  destruct (Hold_lets_go (λ _, None) (λ s, s) sampleTable 10 {[ "old" ]} sampleLost w "a" h
    (Returned (Some (errorsJoin (named ErrLost "import") None))) sampleTable_old E Ha (or_introl eq_refl))
    as (ms' & w' & h' & logged & Hn & _ & Hr & Ho & Hp & _).
  exists ms', w', h', logged. split; [exact Hn|]. split; [exact Hr|]. split; [exact Ho|exact Hp].
Defined.

Lemma Hold_notices_witness :
  match hold_run (λ _, None) (λ s, s) sampleStart (take 15 sampleLost) with
  | Some w => ∃ w' h', hold_step (λ _, None) (λ s, s) w (NextRefresh "a") = Some w' ∧ hw_holds w' !! "a" = Some h' ∧ h_lost h' = true
  | None => False
  end.
Proof.
  destruct (hold_run (λ _, None) (λ s, s) sampleStart (take 15 sampleLost)) as [w|] eqn:E;
    [|apply (f_equal (λ o, bool_decide (is_Some o))) in E; vm_compute in E; discriminate E].
  set (h := mkHold "import" 30 false false false Running (Beating 60 50)).
  assert (hw_holds w !! "a" = Some h) as Ha
    by (apply (run_gives _ w (λ w, hw_holds w !! "a") _ E); vm_compute; reflexivity).
  assert ((λ w', h_beat <$> hw_holds w' !! "a") <$> hold_step (λ _, None) (λ s, s) w (NextRefresh "a") = Some (Some Stopped)) as Hb
    by (apply (run_gives _ w (λ w, (λ w', h_beat <$> hw_holds w' !! "a") <$> hold_step (λ _, None) (λ s, s) w (NextRefresh "a")) _ E);
        vm_compute; reflexivity).
  destruct (hold_step (λ _, None) (λ s, s) w (NextRefresh "a")) as [w'|] eqn:Hs; [|discriminate Hb].
  destruct (Hold_notices (λ _, None) (λ s, s) sampleTable 10 {[ "old" ]} (take 15 sampleLost) w w' "a" h 60 50
    sampleTable_old E Ha eq_refl eq_refl) as [_ (h' & Ho' & Hor)]; [|exact Hs|].
  - intros u. rewrite (run_gives _ w (λ w, lease_row (cl_db (hw_clients w)) "import") (Some ("c", 90)) E); [discriminate|vm_compute; reflexivity].
  - exists w', h'. split; [reflexivity|]. split; [exact Ho'|]. cbn in Hb. rewrite Ho' in Hb. cbn in Hb. injection Hb as Hb.
    destruct Hor as [->|[[H _]|[-> _]]]; [discriminate Hb|exact H|discriminate Hb].
Defined.

(** The first lease is counted from when it was asked for, the heartbeat's variable
    from when the heartbeat starts: here the lease ends at 40, and a heartbeat whose
    refreshes fail would let the run go on until 55. *)
Example first_beat_counts_late :
  let w := hold_run (λ _, None) (λ s, s) (mkHolders (mkClients (mkMemTable true ∅) 10 ∅ ∅) ∅ ∅)
    [Enter "a" "import" 30; NextAcquire "a"; NextAcquire "a"; Elsewhere (Tick 25); NextAcquire "a"; BeatStarts "a"] in
  (λ w, (cl_leases (hw_clients w) !! ("import", "a"), h_beat <$> hw_holds w !! "a")) <$> w = Some (Some 40, Some (Waiting 55)).
Proof. vm_compute. reflexivity. Qed.
