(* ===== verification/RateLimit.v ===== *)
(** * The in-memory rate limiter (src/ratelimit/ratelimit.go)

    A counter and an expiry per key under one mutex; a background sweep removes
    what has expired. [Allow] and one tick of [sweep] are the atomic steps. The
    map of pointers is a map of values: every access to a counter is under the
    mutex. *)

From Stdlib Require Import Sorted.
From S2P Require Import Prelude Clock Attempts.

Local Open Scope Z_scope.

Record memCounter : Type := mkCounter { mc_count : Z; mc_expiry : Z }.

(** [InMemoryLimiter]; [rl_stopped] is whether [stopCh] is closed. *)
Record InMemoryLimiter : Type := mkLimiter {
  rl_limit : Z;
  rl_window : Z;
  rl_m : gmap string memCounter;
  rl_stopped : bool
}.

Definition NewInMemoryLimiter (limit window : Z) : InMemoryLimiter :=
  mkLimiter (if limit <=? 0 then 1 else limit) (if window <=? 0 then Time.Second else window) ∅ false.

Definition set_m (l : InMemoryLimiter) (m : gmap string memCounter) : InMemoryLimiter :=
  mkLimiter (rl_limit l) (rl_window l) m (rl_stopped l).

(** One tick of [sweep]; after [Stop] there are none. *)
Definition sweep (l : InMemoryLimiter) (now : Z) : InMemoryLimiter :=
  if rl_stopped l then l
  else set_m l (filter (λ kc, Time.After now (mc_expiry kc.2) = false) (rl_m l)).

Definition Stop (l : InMemoryLimiter) : InMemoryLimiter := mkLimiter (rl_limit l) (rl_window l) (rl_m l) true.

Definition Len (l : InMemoryLimiter) : nat := size (rl_m l).

Definition Allow (l : InMemoryLimiter) (now : Z) (key : string) : bool * InMemoryLimiter :=
  let fresh := (true, set_m l (<[key := mkCounter 1 (now + rl_window l)]> (rl_m l))) in
  match rl_m l !! key with
  | None => fresh
  | Some c =>
      if Time.After now (mc_expiry c) then fresh
      else if mc_count c <? rl_limit l
      then (true, set_m l (<[key := mkCounter (mc_count c + 1) (mc_expiry c)]> (rl_m l)))
      else (false, l)
  end.

(** ** Calls and sweeps in the order they take the mutex *)

Inductive op : Type :=
| OpAllow (now : Z) (key : string)
| OpSweep (now : Z)
| OpStop (now : Z).

Definition op_time (o : op) : Z :=
  match o with OpAllow now _ => now | OpSweep now => now | OpStop now => now end.

(** The answers of [Allow], each with its key and time. *)
Fixpoint answers (l : InMemoryLimiter) (ops : list op) : list (string * (Z * bool)) :=
  match ops with
  | [] => []
  | OpAllow now key :: ops' => let '(ok, l') := Allow l now key in (key, (now, ok)) :: answers l' ops'
  | OpSweep now :: ops' => answers (sweep l now) ops'
  | OpStop now :: ops' => answers (Stop l) ops'
  end.

Fixpoint calls (ops : list op) : list (string * Z) :=
  match ops with
  | [] => []
  | OpAllow now key :: ops' => (key, now) :: calls ops'
  | _ :: ops' => calls ops'
  end.

(** ** The limiter answers like the reference, key by key *)

(** The counter of a key stands for the window of the reference; a counter that
    was swept belongs to a window that is over. *)
Definition counts (limit now : Z) (c : option memCounter) (w : option (Z * Z)) : Prop :=
  match c, w with
  | None, None => True
  | None, Some (e, _) => e < now
  | Some c, Some (e, n) => mc_expiry c = e ∧ mc_count c = Z.min n limit ∧ 1 <= n
  | Some _, None => False
  end.

Lemma counts_later limit now now' c w : now <= now' → counts limit now c w → counts limit now' c w.
Proof. destruct c, w as [[e n]|]; cbn; try done. lia. Qed.

Lemma Allow_other l now key k : k ≠ key → rl_m (Allow l now key).2 !! k = rl_m l !! k.
Proof. intros Hne. unfold Allow. repeat case_match; cbn; by rewrite ?lookup_insert_ne. Qed.

Lemma Allow_config l now key :
  rl_limit (Allow l now key).2 = rl_limit l ∧ rl_window (Allow l now key).2 = rl_window l.
Proof. unfold Allow. by repeat case_match. Qed.

Lemma counts_some limit now cnt e n : cnt = Z.min n limit → 1 <= n → counts limit now (Some (mkCounter cnt e)) (Some (e, n)).
Proof. by intros. Qed.

(** One call of a key, next to one step of the reference. *)
Lemma Allow_reference l now key w :
  1 <= rl_limit l → counts (rl_limit l) now (rl_m l !! key) w →
  let '(ok, l') := Allow l now key in
  let '(ok', w') := reference_step (rl_limit l) (rl_window l) Time.After w now in
  ok = ok' ∧ counts (rl_limit l) now (rl_m l' !! key) (Some w').
Proof.
  intros Hl Hc. unfold Allow, reference_step, Time.After.
  assert ((0 <? rl_limit l) = true) as H0 by (apply Z.ltb_lt; lia).
  destruct (rl_m l !! key) as [c|] eqn:Ek, w as [[e n]|]; cbn in Hc; try done.
  - destruct Hc as (He & Hcnt & Hn). rewrite He. destruct (e <? now); cbn [set_m rl_m];
      [rewrite lookup_insert_eq, H0; split; [done|]; apply counts_some; lia|].
    rewrite Hcnt. destruct (Z.ltb_spec (Z.min n (rl_limit l)) (rl_limit l)) as [Hlt|Hge]; cbn [set_m rl_m].
    + rewrite lookup_insert_eq. split; [symmetry; apply Z.ltb_lt; lia|]. apply counts_some; lia.
    + split; [symmetry; apply Z.ltb_ge; lia|]. rewrite Ek. destruct c. cbn in Hcnt, He. subst. apply counts_some; lia.
  - apply Z.ltb_lt in Hc as ->. cbn [set_m rl_m]. rewrite lookup_insert_eq, H0. split; [done|]. apply counts_some; lia.
  - cbn [set_m rl_m]. rewrite lookup_insert_eq, H0. split; [done|]. apply counts_some; lia.
Qed.

Lemma sweep_counts limit l now k w :
  counts limit now (rl_m l !! k) w → counts limit now (rl_m (sweep l now) !! k) w.
Proof.
  unfold sweep. destruct (rl_stopped l); [done|]. cbn. intros Hc.
  rewrite map_lookup_filter. destruct (rl_m l !! k) as [c|]; cbn; [|done].
  case_guard as Ea; cbn; [done|]. destruct w as [[e n]|]; cbn in *; [|done]. destruct Hc as (<- & _).
  unfold Time.After in Ea. destruct (Z.ltb_spec (mc_expiry c) now); [done|]. by destruct Ea.
Qed.

Lemma answers_reference ops l key w from :
  1 <= rl_limit l → Sorted Z.le (from :: (op_time <$> ops)) → counts (rl_limit l) from (rl_m l !! key) w →
  of_key key (answers l ops) = reference (rl_limit l) (rl_window l) Time.After w (of_key key (calls ops)).
Proof.
  revert l w from. induction ops as [|o ops IH]; intros l w from Hl Hs Hc; [done|].
  cbn in Hs. apply Sorted_inv in Hs as [Hs Hfrom%HdRel_inv]. apply (counts_later _ _ _ _ _ Hfrom) in Hc.
  destruct o as [now k|now|now]; cbn in *.
  - pose proof (Allow_reference l now k) as Hstep. pose proof (Allow_other l now k) as Hother.
    destruct (Allow_config l now k) as [Hlim Hwin]. destruct (Allow l now k) as [ok l'] eqn:Ea. cbn in *.
    rewrite !of_key_cons. destruct (decide (k = key)) as [->|Hne].
    + specialize (Hstep w Hl Hc). cbn. destruct (reference_step _ _ _ w now) as [ok' w'].
      destruct Hstep as [-> Hc']. f_equal. rewrite <-Hlim, <-Hwin. eapply IH; rewrite ?Hlim; done.
    + rewrite <-Hlim, <-Hwin. eapply IH; rewrite ?Hlim; [done..|]. by rewrite Hother.
  - replace (rl_limit l) with (rl_limit (sweep l now)) by (unfold sweep; by case_match).
    replace (rl_window l) with (rl_window (sweep l now)) by (unfold sweep; by case_match).
    eapply IH; [unfold sweep; by case_match|done|]. unfold sweep at 1.
    assert (∀ b : bool, rl_limit (if b then l else set_m l (filter (λ kc, Time.After now (mc_expiry kc.2) = false) (rl_m l))) = rl_limit l) as ->
      by (by intros []). by apply sweep_counts.
  - eapply (IH (Stop l)); done.
Qed.

Lemma calls_sorted ops key from :
  Sorted Z.le (from :: (op_time <$> ops)) → Sorted Z.le (from :: of_key key (calls ops)).
Proof.
  intros Hs. apply Sorted_StronglySorted in Hs; [|intros ???; lia]. apply StronglySorted_Sorted.
  revert from Hs. induction ops as [|o ops IH]; intros from Hs; [repeat constructor|].
  cbn in Hs. apply StronglySorted_inv in Hs as [Hs Hf]. apply list.Forall_cons in Hf as [Ho Hf].
  assert (StronglySorted Z.le (from :: of_key key (calls ops))) as Hskip by (apply IH; apply StronglySorted_inv in Hs as [Hs _]; by constructor).
  destruct o as [now k|now|now]; cbn; [|done..]. rewrite of_key_cons. case_decide; [|done].
  cbn in Hs, Ho. specialize (IH _ Hs). constructor; [done|]. apply StronglySorted_inv in Hskip as [_ Hall].
  constructor; done.
Qed.
