(* ===== verification/Resilience.v ===== *)
(** * Circuit breaker and retry (src/httpclient/internal/resilience)

    The breaker's fields change only under its mutex, so a call of [Execute] is a
    few atomic sections with the operation running between them: [judgeState] decides,
    then either [settleClosed] counts the result, or [settleTrial] and [endTrial]
    end a trial. [Execute] composes them; [step] interleaves the sections of
    concurrent calls. *)

From Stdlib Require Import Sorted.
From S2P Require Import Prelude Clock Attempts RateLimit.

Local Open Scope Z_scope.

Inductive State : Set := StateClosed | StateOpen | StateHalfOpen.

#[export] Instance State_eq_dec : EqDecision State.
Proof. solve_decision. Defined.

Record CircuitBreaker : Type := mkBreaker {
  state : State;
  failures : Z;
  openedAt : Z;
  trialInProgress : bool;
  failureThreshold : Z;
  openTimeout : Z
}.

(** The zero [time.Time], far in the past. *)
Definition zeroTime : Z := -62135596800 * Time.Second.

Definition NewCircuitBreaker (threshold timeout : Z) : CircuitBreaker :=
  mkBreaker StateClosed 0 zeroTime false (if threshold <? 1 then 1 else threshold)
    (if timeout <=? 0 then Time.Second else timeout).

(** [CircuitBreaker.State] *)
Definition breaker_State (cb : CircuitBreaker) : State := state cb.

(** How the operation ended: it returned nil or an error, or it panicked. *)
Inductive ended : Type := Succeeded | Failed (err : string) | Panicked (msg : string).

Definition failed (r : ended) : bool := match r with Succeeded => false | _ => true end.

(** What the first section of [Execute] decides. *)
Inductive decision : Set := Reject | RunTrial | RunClosed.

#[export] Instance decision_eq_dec : EqDecision decision.
Proof. solve_decision. Defined.

(** The first section: the state is inspected under the lock. *)
Definition judgeState (cb : CircuitBreaker) (now : Z) : decision * CircuitBreaker :=
  match state cb with
  | StateOpen =>
      if Time.Sub now (openedAt cb) <? openTimeout cb then (Reject, cb)
      else (RunTrial, mkBreaker StateHalfOpen (failures cb) (openedAt cb) true (failureThreshold cb) (openTimeout cb))
  | StateHalfOpen =>
      if trialInProgress cb then (Reject, cb)
      else (RunTrial, mkBreaker (state cb) (failures cb) (openedAt cb) true (failureThreshold cb) (openTimeout cb))
  | StateClosed => (RunClosed, cb)
  end.

(** The section after an operation that was run while closed; the deferred recover
    of a panic counts it the same way. *)
Definition settleClosed (cb : CircuitBreaker) (r : ended) (now : Z) : CircuitBreaker :=
  if failed r then
    let n := Int64.wrap (failures cb + 1) in
    if failureThreshold cb <=? n
    then mkBreaker StateOpen n now (trialInProgress cb) (failureThreshold cb) (openTimeout cb)
    else mkBreaker (state cb) n (openedAt cb) (trialInProgress cb) (failureThreshold cb) (openTimeout cb)
  else mkBreaker (state cb) 0 (openedAt cb) (trialInProgress cb) (failureThreshold cb) (openTimeout cb).

(** The first section of [runTrial], which a panic skips. *)
Definition settleTrial (cb : CircuitBreaker) (r : ended) (now : Z) : CircuitBreaker :=
  match r with
  | Succeeded => mkBreaker StateClosed 0 (openedAt cb) (trialInProgress cb) (failureThreshold cb) (openTimeout cb)
  | Failed _ => mkBreaker StateOpen 0 now (trialInProgress cb) (failureThreshold cb) (openTimeout cb)
  | Panicked _ => cb
  end.

(** The deferred section of [runTrial]. *)
Definition endTrial (cb : CircuitBreaker) : CircuitBreaker :=
  mkBreaker (state cb) (failures cb) (openedAt cb) false (failureThreshold cb) (openTimeout cb).

Definition runTrial (cb : CircuitBreaker) (r : ended) (now : Z) : CircuitBreaker := endTrial (settleTrial cb r now).

(** What the caller gets: the error of its context, [ErrOpen], or what the
    operation did (a panic goes on to the caller). *)
Inductive answer : Type := CtxErr (err : string) | ErrOpen | Ran (r : ended).

(** [Execute] when no other call comes between its sections: the error of the
    context, the time of the decision, how the operation ends and when. *)
Definition Execute (cb : CircuitBreaker) (ctxErr : option string) (now : Z) (op : ended) (done : Z) :
    answer * CircuitBreaker :=
  match ctxErr with
  | Some e => (CtxErr e, cb)
  | None =>
      match judgeState cb now with
      | (Reject, cb') => (ErrOpen, cb')
      | (RunTrial, cb') => (Ran op, runTrial cb' op done)
      | (RunClosed, cb') => (Ran op, settleClosed cb' op done)
      end
  end.

(** ** Concurrent calls *)

(** Where a call is: running its operation while closed, running it as a trial, or
    between the two sections that end a trial. *)
Inductive phase : Set := InClosed | InTrial | TrialSettled.

#[export] Instance phase_eq_dec : EqDecision phase.
Proof. solve_decision. Defined.

Inductive event : Type :=
| Enter (call : nat) (now : Z)
| Finish (call : nat) (r : ended) (now : Z)
| Unwind (call : nat).

Record world : Type := mkWorld { w_breaker : CircuitBreaker; w_calls : gmap nat phase }.

(** One section of one call; [None] when the call is not there. *)
Definition step (w : world) (e : event) : option world :=
  match e with
  | Enter i now =>
      match w_calls w !! i with
      | Some _ => None
      | None =>
          let '(d, cb) := judgeState (w_breaker w) now in
          Some (mkWorld cb match d with
                           | Reject => w_calls w
                           | RunTrial => <[i := InTrial]> (w_calls w)
                           | RunClosed => <[i := InClosed]> (w_calls w)
                           end)
      end
  | Finish i r now =>
      match w_calls w !! i with
      | Some InClosed => Some (mkWorld (settleClosed (w_breaker w) r now) (delete i (w_calls w)))
      | Some InTrial => Some (mkWorld (settleTrial (w_breaker w) r now) (<[i := TrialSettled]> (w_calls w)))
      | _ => None
      end
  | Unwind i =>
      match w_calls w !! i with
      | Some TrialSettled => Some (mkWorld (endTrial (w_breaker w)) (delete i (w_calls w)))
      | _ => None
      end
  end.

Fixpoint run (w : world) (es : list event) : option world :=
  match es with
  | [] => Some w
  | e :: es' => w' ← step w e; run w' es'
  end.

(** ** Retry *)

Definition maxBackoff : Z := 30 * Time.Second.

(** [float64(n)] of a positive int64: 53 significant bits, half to even. *)
Definition float64_of (n : Z) : Z :=
  let e := Z.log2 n - 52 in
  if e <=? 0 then n
  else
    let unit := 2 ^ e in
    let q := n / unit in
    let r := n mod unit in
    (if (unit <? 2 * r) || ((2 * r =? unit) && Z.odd q) then q + 1 else q) * unit.

(** [time.Duration(f)] of a float that is a whole number: beyond int64 the result
    is the smallest int64, as on amd64. *)
Definition duration_of (f : Z) : Z := if Int64.fits f then f else Int64.min_value.

(** The wait after attempt [i] failed: a product with a power of two is exact. *)
Definition backoff (initial : Z) (i : nat) : Z :=
  let b := duration_of (float64_of initial * 2 ^ Z.of_nat i) in
  if (maxBackoff <? b) || (b <? 0) then maxBackoff else b.

(** What [Retry] returns and how it went: the attempts that were made and the
    waits that began. *)
Inductive retried : Type :=
| Done
| InvalidAttempts
| Cancelled (err : string)
| GaveUp (lastErr : option string).

(** One loop of [Retry] from attempt [i] with [n] attempts left: [ctxErr i] is the
    error of the context before attempt [i], [op i] the error of the attempt, [wait
    i] the error of the context if it ended during the wait. *)
Fixpoint retryLoop (ctxErr op wait : nat → option string) (initial : Z) (n i : nat) (lastErr : option string) :
    retried * nat * list Z :=
  match n with
  | O => (GaveUp lastErr, O, [])
  | S n' =>
      match ctxErr i with
      | Some e => (Cancelled e, O, [])
      | None =>
          match op i with
          | None => (Done, 1%nat, [])
          | Some err =>
              match n' with
              | O => (GaveUp (Some err), 1%nat, [])
              | _ =>
                  match wait i with
                  | Some e => (Cancelled e, 1%nat, [backoff initial i])
                  | None =>
                      let '(r, tried, waits) := retryLoop ctxErr op wait initial n' (S i) (Some err) in
                      (r, S tried, backoff initial i :: waits)
                  end
              end
          end
      end
  end.

Definition Retry (ctxErr op wait : nat → option string) (attempts initial : Z) : retried * nat * list Z :=
  if attempts <? 1 then (InvalidAttempts, O, [])
  else
    let initial := if initial <=? 0 then 100 * Time.Millisecond else initial in
    retryLoop ctxErr op wait initial (Z.to_nat attempts) 0 None.

(** * Facts of the circuit breaker and of Retry

    The runs of failures a breaker stands for, the calls that are in a trial, and
    the waits of [Retry]. *)

(** ** Calls one after another *)

Record call : Type := mkCall { k_ctxErr : option string; k_now : Z; k_op : ended; k_done : Z }.

(** The operations that ran, oldest first, and the breaker after all calls. *)
Definition execute (acc : CircuitBreaker * list (ended * Z)) (k : call) : CircuitBreaker * list (ended * Z) :=
  match Execute acc.1 (k_ctxErr k) (k_now k) (k_op k) (k_done k) with
  | (Ran r, cb) => (cb, acc.2 ++ [(r, k_done k)])
  | (_, cb) => (cb, acc.2)
  end.

Definition execute_all (cb : CircuitBreaker) (ks : list call) : CircuitBreaker * list (ended * Z) :=
  foldl execute (cb, []) ks.

(** What a caller can see of the operations that ran: how many failed since the
    last success, when the breaker last opened on one, and whether the last one was
    a trial that panicked, which leaves the breaker waiting for another trial. *)
Record seen : Type := mkSeen { in_a_row : Z; opened : Z; probing : bool }.

Definition see (threshold : Z) (v : seen) (r : ended * Z) : seen :=
  match r.1 with
  | Succeeded => mkSeen 0 (opened v) false
  | Failed _ => mkSeen (in_a_row v + 1) r.2 false
  | Panicked _ => if threshold <=? in_a_row v then mkSeen (in_a_row v + 1) (opened v) true
                  else mkSeen (in_a_row v + 1) r.2 false
  end.

Definition seen_of (threshold : Z) (log : list (ended * Z)) : seen :=
  foldl (see threshold) (mkSeen 0 zeroTime false) log.

Definition blocks (threshold timeout : Z) (v : seen) (now : Z) : bool :=
  (threshold <=? in_a_row v) && negb (probing v) && (Time.Sub now (opened v) <? timeout).

(** The breaker between calls stands for what was seen. *)
Definition stands_for (threshold timeout : Z) (cb : CircuitBreaker) (v : seen) : Prop :=
  failureThreshold cb = threshold ∧ openTimeout cb = timeout ∧ trialInProgress cb = false ∧ 0 <= in_a_row v ∧
  if threshold <=? in_a_row v
  then (if probing v then state cb = StateHalfOpen else state cb = StateOpen ∧ openedAt cb = opened v)
  else state cb = StateClosed ∧ failures cb = in_a_row v ∧ probing v = false.

(** How a trial and a call while closed move on. *)
Lemma trial_stands threshold timeout cb v r t :
  1 <= threshold → failureThreshold cb = threshold → openTimeout cb = timeout → state cb = StateHalfOpen →
  threshold <= in_a_row v → stands_for threshold timeout (runTrial cb r t) (see threshold v (r, t)).
Proof.
  intros H1 Ht Ho Hst Hle. unfold stands_for, see. cbn [fst snd]. destruct r; cbn [runTrial endTrial settleTrial
    failureThreshold openTimeout trialInProgress state failures openedAt].
  - cbn [in_a_row probing]. destruct (Z.leb_spec threshold 0); [lia|]. repeat split; done.
  - cbn [in_a_row probing opened]. destruct (Z.leb_spec threshold (in_a_row v + 1)); [|lia]. repeat split; (done || lia).
  - destruct (Z.leb_spec threshold (in_a_row v)); [|lia]. cbn [in_a_row probing].
    destruct (Z.leb_spec threshold (in_a_row v + 1)); [|lia]. repeat split; (done || lia).
Qed.

Lemma closed_stands threshold timeout cb v r t :
  1 <= threshold <= Int64.max_value → failureThreshold cb = threshold → openTimeout cb = timeout →
  trialInProgress cb = false → state cb = StateClosed → failures cb = in_a_row v → 0 <= in_a_row v < threshold →
  stands_for threshold timeout (settleClosed cb r t) (see threshold v (r, t)).
Proof.
  intros H1 Ht Ho Htr Hst Hf Hb. unfold stands_for, see, settleClosed. cbn [fst snd].
  rewrite Hf, Ht, Int64.wrap_id by (unfold Int64.min_value; lia).
  destruct r; cbn [failed].
  - cbn [in_a_row probing state failures failureThreshold openTimeout trialInProgress].
    destruct (Z.leb_spec threshold 0); [lia|]. repeat split; done.
  - cbn [in_a_row probing opened]. destruct (Z.leb_spec threshold (in_a_row v + 1)); repeat split; (done || (cbn; lia)).
  - rewrite (proj2 (Z.leb_gt threshold (in_a_row v))) by lia. cbn [in_a_row probing opened].
    destruct (Z.leb_spec threshold (in_a_row v + 1)); repeat split; (done || (cbn; lia)).
Qed.

Lemma execute_stands threshold timeout cb v k :
  1 <= threshold <= Int64.max_value → stands_for threshold timeout cb v → k_ctxErr k = None →
  match Execute cb (k_ctxErr k) (k_now k) (k_op k) (k_done k) with
  | (Ran r, cb') => blocks threshold timeout v (k_now k) = false ∧
                    stands_for threshold timeout cb' (see threshold v (r, k_done k))
  | (ErrOpen, cb') => blocks threshold timeout v (k_now k) = true ∧ cb' = cb
  | (CtxErr _, _) => False
  end.
Proof.
  intros Hth (Ht & Ho & Htr & Hpos & Hs) Hctx. unfold Execute. rewrite Hctx. unfold judgeState, blocks.
  destruct (Z.leb_spec threshold (in_a_row v)) as [Hle|Hgt].
  - destruct (probing v) eqn:Ep; cbn [negb andb].
    + rewrite Hs, Htr. split; [done|]. apply trial_stands; (done || lia).
    + destruct Hs as [-> Hop]. rewrite Ho, Hop. destruct (_ <? timeout); [done|]. split; [done|].
      apply trial_stands; (done || lia).
  - destruct Hs as (Hst & Hf & Hp). rewrite Hst. split; [done|]. apply closed_stands; (done || lia).
Qed.

Lemma execute_all_snoc cb ks k : execute_all cb (ks ++ [k]) = execute (execute_all cb ks) k.
Proof. unfold execute_all. by rewrite foldl_app. Qed.

Lemma seen_of_snoc th log r : seen_of th (log ++ [r]) = see th (seen_of th log) r.
Proof. unfold seen_of. by rewrite foldl_app. Qed.

Lemma execute_all_stands cb0 threshold timeout ks :
  1 <= threshold <= Int64.max_value → stands_for threshold timeout cb0 (mkSeen 0 zeroTime false) →
  let '(cb, log) := execute_all cb0 ks in stands_for threshold timeout cb (seen_of threshold log).
Proof.
  intros Hth H0. induction ks as [|k ks IH] using rev_ind; [done|]. rewrite execute_all_snoc.
  destruct (execute_all cb0 ks) as [cb log] eqn:E. unfold execute. cbn [fst snd].
  destruct (k_ctxErr k) as [e|] eqn:Ek; [done|]. rewrite <-Ek.
  pose proof (execute_stands threshold timeout cb (seen_of threshold log) k Hth IH Ek) as Hx.
  destruct (Execute cb _ _ _ _) as [[e| |r] cb']; [done|by destruct Hx as [_ ->]|]. rewrite seen_of_snoc. apply Hx.
Qed.

(** ** Trials *)

(** A schedule in which the two sections that end a trial are not separated by a
    new call, and no call admitted while the breaker was closed fails while a trial
    runs. *)
Definition orderly (w : world) (e : event) : bool :=
  match e with
  | Enter _ _ => map_forallb (λ _ p, negb (bool_decide (p = TrialSettled))) (w_calls w)
  | Finish i r _ => negb (bool_decide (w_calls w !! i = Some InClosed) && failed r &&
                          bool_decide (state (w_breaker w) = StateHalfOpen))
  | Unwind _ => true
  end.

Fixpoint orderly_run (w : world) (es : list event) : bool :=
  match es with
  | [] => true
  | e :: es' => orderly w e && match step w e with Some w' => orderly_run w' es' | None => true end
  end.

Definition in_trial (p : phase) : bool := bool_decide (p ≠ InClosed).

(** At most one call is in a trial, the flag says whether one is, and while its
    operation runs the breaker is half open. *)
Definition exclusive (w : world) : Prop :=
  (∀ i j p q, w_calls w !! i = Some p → w_calls w !! j = Some q → in_trial p = true → in_trial q = true → i = j) ∧
  (∀ i p, w_calls w !! i = Some p → in_trial p = true → trialInProgress (w_breaker w) = true) ∧
  (∀ i, w_calls w !! i = Some InTrial → state (w_breaker w) = StateHalfOpen).

Lemma in_trial_spec p : in_trial p = true ↔ p = InTrial ∨ p = TrialSettled.
Proof. destruct p; cbn; naive_solver. Qed.

(** A call that may start a trial finds none under way. *)
Lemma judgeState_trial_alone w now cb :
  exclusive w → map_forallb (λ _ p, negb (bool_decide (p = TrialSettled))) (w_calls w) = true →
  judgeState (w_breaker w) now = (RunTrial, cb) →
  (∀ i p, w_calls w !! i = Some p → p = InClosed) ∧ state cb = StateHalfOpen ∧ trialInProgress cb = true.
Proof.
  intros (_ & Hflag & Hhalf) Hno Ha. rewrite map_forallb_spec in Hno. unfold judgeState in Ha.
  assert (state (w_breaker w) = StateHalfOpen → trialInProgress (w_breaker w) = false) as Hidle
    by (intros E; rewrite E in Ha; by destruct (trialInProgress (w_breaker w))).
  assert (state cb = StateHalfOpen ∧ trialInProgress cb = true) as Hcb.
  { destruct (state (w_breaker w)) eqn:Es; [done|..]; case_match; try done; by injection Ha as <-. }
  split; [|done]. intros i p Hi. destruct p; [done|exfalso..].
  - pose proof (Hhalf _ Hi) as Es. pose proof (Hflag i InTrial Hi eq_refl). rewrite Hidle in *; done.
  - by specialize (Hno _ _ Hi).
Qed.

Lemma step_exclusive w e w' : exclusive w → orderly w e = true → step w e = Some w' → exclusive w'.
Proof.
  intros Hex Ho Hs. pose proof Hex as (Hone & Hflag & Hhalf). destruct e as [i now|i r now|i]; cbn in Hs, Ho.
  - destruct (w_calls w !! i) eqn:Ei; [done|]. destruct (judgeState (w_breaker w) now) as [d cb] eqn:Ea. injection Hs as <-.
    destruct d.
    + assert (cb = w_breaker w) as -> by (unfold judgeState in Ea; repeat case_match; congruence). done.
    + destruct (judgeState_trial_alone _ _ _ Hex Ho Ea) as (Hall & Hst & Hfl). unfold exclusive. cbn. repeat split.
      * intros j k p q [[<- <-]|[_ Hj]]%lookup_insert_Some [[<- <-]|[_ Hk]]%lookup_insert_Some Hp Hq; try done.
        -- by rewrite (Hall _ _ Hk) in Hq.
        -- by rewrite (Hall _ _ Hj) in Hp.
        -- by rewrite (Hall _ _ Hj) in Hp.
      * done.
      * done.
    + assert (cb = w_breaker w) as -> by (unfold judgeState in Ea; repeat case_match; congruence).
      unfold exclusive. cbn. repeat split.
      * intros j k p q [[<- <-]|[_ Hj]]%lookup_insert_Some [[<- <-]|[_ Hk]]%lookup_insert_Some Hp Hq; try done. by eapply Hone.
      * intros j p [[<- <-]|[_ Hj]]%lookup_insert_Some Hp; [done|]. by eapply Hflag.
      * intros j [[<- [=]]|[_ Hj]]%lookup_insert_Some. by eapply Hhalf.
  - destruct (w_calls w !! i) as [[]|] eqn:Ei; try done; injection Hs as <-; unfold exclusive; cbn.
    + rewrite bool_decide_eq_true_2 in Ho by done. cbn in Ho.
      assert (trialInProgress (settleClosed (w_breaker w) r now) = trialInProgress (w_breaker w)) as Hf
        by (unfold settleClosed; by repeat case_match).
      assert (state (w_breaker w) = StateHalfOpen → state (settleClosed (w_breaker w) r now) = StateHalfOpen) as Hst.
      { intros E. rewrite E in Ho. unfold settleClosed. by destruct (failed r). }
      repeat split.
      * intros j k p q [_ Hj]%lookup_delete_Some [_ Hk]%lookup_delete_Some. by apply (Hone j k).
      * intros j p [_ Hj]%lookup_delete_Some Hp. rewrite Hf. by eapply Hflag.
      * intros j [_ Hj]%lookup_delete_Some. by eapply Hst, Hhalf.
    + assert (trialInProgress (settleTrial (w_breaker w) r now) = true) as Hf.
      { pose proof (Hflag _ _ Ei eq_refl) as Hfl. by destruct r. }
      repeat split.
      * intros j k p q [[<- <-]|[_ Hj]]%lookup_insert_Some [[<- <-]|[_ Hk]]%lookup_insert_Some Hp Hq; [done|..].
        -- by apply (Hone _ _ _ _ Ei Hk).
        -- symmetry. by apply (Hone _ _ _ _ Ei Hj).
        -- by apply (Hone _ _ _ _ Hj Hk).
      * done.
      * intros j [[<- [=]]|[Hne Hj]]%lookup_insert_Some. exfalso. apply Hne. by apply (Hone _ _ _ _ Ei Hj).
  - destruct (w_calls w !! i) as [[]|] eqn:Ei; try done; injection Hs as <-; unfold exclusive; cbn. repeat split.
    + intros j k p q [_ Hj]%lookup_delete_Some [_ Hk]%lookup_delete_Some. by apply (Hone j k).
    + intros j p [Hne Hj]%lookup_delete_Some Hp. exfalso. apply Hne. by apply (Hone _ _ _ _ Ei Hj).
    + intros j [_ Hj]%lookup_delete_Some. by eapply Hhalf.
Qed.

Lemma run_exclusive es w w' : exclusive w → orderly_run w es = true → run w es = Some w' → exclusive w'.
Proof.
  revert w. induction es as [|e es IH]; intros w Hex Ho Hr; [by injection Hr as <-|].
  cbn in Ho, Hr. apply andb_true_iff in Ho as [Ho Hos]. destruct (step w e) as [w1|] eqn:Es; [|done].
  apply (IH w1); [|done..]. by eapply step_exclusive.
Qed.

(** The flag is never up without a call in a trial, on any schedule. *)
Definition flag_held (w : world) : Prop :=
  trialInProgress (w_breaker w) = true → ∃ j p, w_calls w !! j = Some p ∧ in_trial p = true.

Lemma judgeState_keeps cb now cb' d :
  judgeState cb now = (d, cb') →
  openTimeout cb' = openTimeout cb ∧ (d = RunTrial ∨ trialInProgress cb' = trialInProgress cb).
Proof.
  unfold judgeState. intros H. split; [by repeat case_match; simplify_eq|].
  repeat case_match; simplify_eq; auto.
Qed.

Lemma step_flag_held w e w' : flag_held w → step w e = Some w' → flag_held w' ∧
  openTimeout (w_breaker w') = openTimeout (w_breaker w).
Proof.
  intros Hf Hs. unfold flag_held in *. destruct e as [i now|i r now|i]; cbn in Hs.
  - destruct (w_calls w !! i) eqn:Ei; [done|]. destruct (judgeState _ _) as [d cb] eqn:Ej. injection Hs as <-.
    apply judgeState_keeps in Ej as [Ho Hk]. cbn. split; [|done]. intros Hfl. destruct d.
    + destruct Hk as [|Hk]; [done|]. apply Hf. congruence.
    + exists i, InTrial. by rewrite lookup_insert_eq.
    + destruct Hk as [|Hk]; [done|]. destruct Hf as (j & p & Hj & Hp); [congruence|]. exists j, p.
      rewrite lookup_insert_ne by congruence. done.
  - destruct (w_calls w !! i) as [[]|] eqn:Ei; try done; injection Hs as <-; cbn.
    + assert (trialInProgress (settleClosed (w_breaker w) r now) = trialInProgress (w_breaker w) ∧
              openTimeout (settleClosed (w_breaker w) r now) = openTimeout (w_breaker w)) as [-> ->]
        by (unfold settleClosed; split; by repeat case_match).
      split; [|done]. intros (j & p & Hj & Hp)%Hf. exists j, p. split; [|done].
      apply lookup_delete_Some. split; [|done]. intros ->. rewrite Ei in Hj. by injection Hj as <-.
    + split; [|by destruct r]. intros _. exists i, TrialSettled. by rewrite lookup_insert_eq.
  - destruct (w_calls w !! i) as [[]|]; try done. by injection Hs as <-.
Qed.

Lemma run_flag_held es w w' : flag_held w → run w es = Some w' → flag_held w' ∧
  openTimeout (w_breaker w') = openTimeout (w_breaker w).
Proof.
  revert w. induction es as [|e es IH]; intros w Hf Hr; [by injection Hr as <-|].
  cbn in Hr. destruct (step w e) as [w1|] eqn:Es; [|done]. destruct (step_flag_held _ _ _ Hf Es) as [Hf1 <-].
  by apply IH.
Qed.

Lemma orderly_run_snoc es e w w' :
  orderly_run w (es ++ [e]) = true → run w es = Some w' → orderly_run w es = true ∧ orderly w' e = true.
Proof.
  revert w. induction es as [|e1 es IH]; intros w Ho Hr.
  - injection Hr as <-. cbn in Ho. by apply andb_true_iff in Ho as [-> _].
  - cbn in Ho, Hr |- *. apply andb_true_iff in Ho as [-> Ho]. destruct (step w e1) as [w1|]; [|done]. by apply IH.
Qed.

(** A call that enters: it is rejected while a trial runs or while the breaker is
    open, and a call let in as a trial is the only one. *)
Lemma enter_decides w i now w' :
  exclusive w → flag_held w → orderly w (Enter i now) = true → step w (Enter i now) = Some w' →
  (w_calls w' !! i = None ↔ (∃ j, w_calls w !! j = Some InTrial) ∨
     state (w_breaker w) = StateOpen ∧ Time.Sub now (openedAt (w_breaker w)) < openTimeout (w_breaker w)) ∧
  (w_calls w' !! i = Some InTrial → ∀ j p, w_calls w !! j = Some p → p = InClosed).
Proof.
  intros Hex Hf Ho Hs. pose proof Hex as (_ & Hflag & Hhalf). cbn in Hs, Ho.
  destruct (w_calls w !! i) eqn:Ei; [done|]. destruct (judgeState (w_breaker w) now) as [d cb] eqn:Ej. injection Hs as <-.
  split.
  - cbn. unfold judgeState in Ej. destruct (state (w_breaker w)) eqn:Es.
    + injection Ej as <- _. rewrite lookup_insert_eq. split; [done|]. intros [[j Hj]|[? _]]; [|done].
      apply Hhalf in Hj. congruence.
    + destruct (Z.ltb_spec (Time.Sub now (openedAt (w_breaker w))) (openTimeout (w_breaker w))); injection Ej as <- _.
      * split; [by right|done].
      * rewrite lookup_insert_eq. split; [done|]. intros [[j Hj]|[_ ?]]; [|lia]. apply Hhalf in Hj. congruence.
    + destruct (trialInProgress (w_breaker w)) eqn:Et; injection Ej as <- _.
      * split; [|done]. intros _. left. destruct (Hf Et) as (j & p & Hj & Hp). exists j.
        apply in_trial_spec in Hp as [->| ->]; [done|]. rewrite map_forallb_spec in Ho. by specialize (Ho _ _ Hj).
      * rewrite lookup_insert_eq. split; [done|]. intros [[j Hj]|[? _]]; [|done].
        by specialize (Hflag j InTrial Hj eq_refl).
  - cbn. intros Hi. destruct d; rewrite ?lookup_insert_eq in Hi; try congruence.
    by apply (judgeState_trial_alone w now cb).
Qed.

(** ** Waits and attempts *)

Lemma float64_of_small n : 0 < n < 2 ^ 53 → float64_of n = n.
Proof.
  intros Hn. unfold float64_of. assert (Z.log2 n < 53) by (apply Z.log2_lt_pow2; lia).
  rewrite (proj2 (Z.leb_le _ _)) by lia. done.
Qed.

Lemma float64_of_large n : 2 ^ 53 <= n → 2 ^ 52 <= float64_of n.
Proof.
  intros Hn. unfold float64_of. assert (53 <= Z.log2 n) as Hl by (apply Z.log2_le_pow2; lia).
  destruct (Z.leb_spec (Z.log2 n - 52) 0); [lia|]. set (unit := 2 ^ (Z.log2 n - 52)).
  assert (0 < unit) as Hu by (apply Z.pow_pos_nonneg; lia).
  assert (2 ^ 52 <= n / unit) as Hq.
  { apply Z.div_le_lower_bound; [done|]. unfold unit. rewrite <-Z.pow_add_r by lia.
    replace (Z.log2 n - 52 + 52) with (Z.log2 n) by lia. apply Z.log2_spec. lia. }
  assert (n / unit <= if (unit <? 2 * (n mod unit)) || ((2 * (n mod unit) =? unit) && Z.odd (n / unit)) then n / unit + 1 else n / unit)
    as Hr by (case_match; lia).
  etrans; [exact Hq|]. etrans; [exact Hr|]. apply Z.le_mul_diag_r; lia.
Qed.

(** The wait doubles from [initial] and stops at half a minute. *)
Lemma backoff_spec initial i :
  0 < initial <= Int64.max_value → backoff initial i = Z.min (initial * 2 ^ Z.of_nat i) maxBackoff.
Proof.
  intros Hi. unfold backoff. assert (1 <= 2 ^ Z.of_nat i) as Hp by (pose proof (Z.pow_pos_nonneg 2 (Z.of_nat i)); lia).
  assert (maxBackoff = 30000000000) as Hm by done.
  assert (∀ f, maxBackoff < f → (let b := duration_of f in if (maxBackoff <? b) || (b <? 0) then maxBackoff else b) = maxBackoff) as Hbig.
  { intros f Hf. unfold duration_of. destruct (Int64.fits f); cbn zeta; [|done].
    rewrite (proj2 (Z.ltb_lt _ _) Hf). done. }
  destruct (Z.lt_ge_cases initial (2 ^ 53)) as [Hs|Hl].
  - rewrite float64_of_small by lia. set (v := initial * 2 ^ Z.of_nat i). assert (0 < v) by (unfold v; nia).
    destruct (Z.lt_ge_cases maxBackoff v) as [Hb|Hb]; [rewrite Hbig by done; lia|].
    unfold duration_of. rewrite (proj2 (Int64.fits_spec v)) by (unfold Int64.min_value, Int64.max_value; lia).
    rewrite (proj2 (Z.ltb_ge _ _) Hb), (proj2 (Z.ltb_ge v 0)) by lia. cbn. lia.
  - pose proof (float64_of_large initial Hl) as Hf. rewrite Hbig.
    + rewrite Z.min_r; [done|]. rewrite Hm. change (2 ^ 53) with 9007199254740992 in Hl. nia.
    + rewrite Hm. change (2 ^ 52) with 4503599627370496 in Hf. nia.
Qed.

(** What a run of the loop from attempt [i] with [n] left can say. *)
Definition retry_ok (ctxErr op wait : nat → option string) (initial : Z) (n i : nat) (lastErr : option string)
    (out : retried * nat * list Z) : Prop :=
  let '(r, tried, waits) := out in
  (tried <= n)%nat ∧ (length waits <= tried)%nat ∧
  (∀ j, (i <= j)%nat → (S j < i + tried)%nat → op j ≠ None) ∧
  waits = backoff initial <$> seq i (length waits) ∧
  match r with
  | Done => (0 < tried)%nat ∧ op (i + tried - 1)%nat = None
  | GaveUp e => tried = n ∧ e = (if (n =? 0)%nat then lastErr else op (i + n - 1)%nat) ∧ (n ≠ 0%nat → e ≠ None)
  | Cancelled e => ctxErr (i + tried)%nat = Some e ∨ (0 < tried)%nat ∧ wait (i + tried - 1)%nat = Some e
  | InvalidAttempts => False
  end.

Lemma retryLoop_ok ctxErr op wait initial n i lastErr :
  retry_ok ctxErr op wait initial n i lastErr (retryLoop ctxErr op wait initial n i lastErr).
Proof.
  revert i lastErr. induction n as [|n IH]; intros i lastErr; cbn [retryLoop].
  { unfold retry_ok. repeat split; try done; intros; lia. }
  destruct (ctxErr i) as [e|] eqn:Ec.
  { unfold retry_ok. rewrite Nat.add_0_r. repeat split; try done; [lia|intros; lia|by left]. }
  destruct (op i) as [err|] eqn:Eo.
  2: { unfold retry_ok. replace (i + 1 - 1)%nat with i by lia. repeat split; try done; cbn; lia. }
  destruct n as [|n].
  { unfold retry_ok. cbn [Nat.eqb]. replace (i + 1 - 1)%nat with i by lia. rewrite Eo.
    repeat split; try done; cbn; lia. }
  destruct (wait i) as [e|] eqn:Ew.
  { unfold retry_ok. replace (i + 1 - 1)%nat with i by lia. rewrite Ew.
    repeat split; try done; try (cbn; lia). right. split; [lia|done]. }
  specialize (IH (S i) (Some err)). remember (S n) as m. destruct (retryLoop _ _ _ _ m _ _) as [[r tried] waits].
  unfold retry_ok in *. destruct IH as (Ht & Hw & Hop & Hb & Hr). repeat split.
  - lia.
  - cbn. lia.
  - intros j Hj1 Hj2. destruct (decide (j = i)) as [->|]; [congruence|]. apply Hop; lia.
  - cbn. f_equal. exact Hb.
  - destruct r; try done.
    + replace (i + S tried - 1)%nat with (S i + tried - 1)%nat by lia. split; [lia|]. apply Hr.
    + replace (i + S tried)%nat with (S i + tried)%nat by lia. destruct Hr as [Hr|[H0 Hr]]; [by left|right].
      split; [lia|]. replace (S i + tried - 1)%nat with (S i + tried - 1)%nat by lia. exact Hr.
    + destruct Hr as (-> & He & Hn). subst m. cbn [Nat.eqb] in *.
      replace (i + S (S n) - 1)%nat with (S i + S n - 1)%nat by lia. repeat split; [done|]. intros _. by apply Hn.
Qed.

(** * Properties of the circuit breaker, Retry and the rate limiter *)

Lemma New_stands threshold timeout :
  threshold <= Int64.max_value →
  let cb := NewCircuitBreaker threshold timeout in
  1 <= failureThreshold cb <= Int64.max_value ∧
  stands_for (failureThreshold cb) (openTimeout cb) cb (mkSeen 0 Resilience.zeroTime false).
Proof.
  intros Hle cb. assert (1 <= failureThreshold cb <= Int64.max_value) as Hth.
  { unfold cb. cbn [NewCircuitBreaker failureThreshold]. destruct (Z.ltb_spec threshold 1); [done|lia]. }
  split; [done|]. unfold stands_for. cbn [in_a_row probing]. rewrite (proj2 (Z.leb_gt _ _)) by lia.
  repeat split; done.
Qed.

(** C39. The breaker rejects exactly when it should. After any calls, one after
    another, a call is answered with [ErrOpen] if and only if the operations that ran
    last, at least [failureThreshold] in a row, all failed, the last of them was not a
    trial that panicked, and less than [openTimeout] has passed since the breaker
    opened on one of them; otherwise its operation runs. And with calls interleaved,
    on schedules in which no call admitted while the breaker was closed fails during
    a trial and no call enters between the two sections that end a trial, a call that
    enters is rejected if and only if another call's operation is running as a trial
    or the breaker opened less than [openTimeout] ago and no trial has started since;
    a call let in as a trial finds no other trial. *)
Theorem breaker_rejects_exactly (threshold timeout : Z) :
  let new := NewCircuitBreaker threshold timeout in
  threshold <= Int64.max_value →
  (∀ ks now op finished,
     let '(cb, log) := execute_all new ks in
     (Execute cb None now op finished).1 =
       if blocks (failureThreshold new) (openTimeout new) (seen_of (failureThreshold new) log) now
       then ErrOpen else Ran op) ∧
  (∀ es w i now w',
     orderly_run (mkWorld new ∅) (es ++ [Enter i now]) = true →
     run (mkWorld new ∅) es = Some w → step w (Enter i now) = Some w' →
     (w_calls w' !! i = None ↔ (∃ j, w_calls w !! j = Some InTrial) ∨
        state (w_breaker w) = StateOpen ∧ Time.Sub now (openedAt (w_breaker w)) < openTimeout new) ∧
     (w_calls w' !! i = Some InTrial → ∀ j p, w_calls w !! j = Some p → p = InClosed)).
Proof.
  intros new Hle. split.
  - intros ks now op finished. destruct (New_stands threshold timeout Hle) as [Hth H0].
    pose proof (execute_all_stands new _ _ ks Hth H0) as Hst. destruct (execute_all new ks) as [cb log].
    pose proof (execute_stands _ _ cb _ (mkCall None now op finished) Hth Hst eq_refl) as Hx.
    cbn [k_ctxErr k_now k_op k_done] in Hx. unfold Execute in *. destruct (judgeState cb now) as [[] cb']; cbn [fst];
      destruct Hx as [Hx _]; unfold new; by rewrite Hx.
  - intros es w i now w' Hord Hr Hs. destruct (orderly_run_snoc _ _ _ _ Hord Hr) as [Hos Ho].
    destruct (run_flag_held es (mkWorld new ∅) w) as [Hf Hto]; [done|done|]. cbn [w_breaker] in Hto. rewrite <-Hto.
    apply enter_decides; [|done..]. apply (run_exclusive es (mkWorld new ∅)); [|done..]. repeat split; done.
Qed.

(** A call fails, and after the timeout a second one begins a trial. *)
Definition sampleHalfOpen : list event := [Enter 0 0; Finish 0 (Failed "down") 1; Enter 1 11].

Lemma breaker_rejects_exactly_witness :
  let ks := [mkCall None 0 (Failed "down") 1; mkCall None 20 (Failed "down") 21] in
  (let '(cb, log) := execute_all (NewCircuitBreaker 1 10) ks in
   (Execute cb None 30 Succeeded 31).1 = (if blocks 1 10 (seen_of 1 log) 30 then ErrOpen else Ran Succeeded) ∧
   blocks 1 10 (seen_of 1 log) 30 = true ∧ blocks 1 10 (seen_of 1 log) 31 = false) ∧
  ∃ w w', run (mkWorld (NewCircuitBreaker 1 10) ∅) sampleHalfOpen = Some w ∧ step w (Enter 2 12) = Some w' ∧
    w_calls w !! 1%nat = Some InTrial ∧ w_calls w' !! 2%nat = None.
Proof.
  destruct (breaker_rejects_exactly 1 10) as [Hseq Hmix]; [vm_compute; discriminate|]. split.
  - split; [|vm_compute; split; reflexivity].
    exact (Hseq [mkCall None 0 (Failed "down") 1; mkCall None 20 (Failed "down") 21] 30 Succeeded 31).
  - eexists _, _. split; [vm_compute; reflexivity|]. split; [vm_compute; reflexivity|].
    split; [vm_compute; reflexivity|].
    refine (proj2 (proj1 (Hmix sampleHalfOpen _ 2%nat 12 _ _ _ _)) _); try (vm_compute; reflexivity).
    left. exists 1%nat. vm_compute. reflexivity.
Defined.

(** One trial at a time, on orderly schedules and not on others. When the two
    sections that end a trial are not separated by a new call and no call admitted
    while the breaker was closed fails during a trial, two calls never run their
    operation as a trial at once, whatever the interleaving. A call that was
    admitted while closed and fails late reopens the breaker during a trial, and a
    second trial can start beside the first. *)
Theorem trials_one_at_a_time (threshold timeout : Z) (es : list event) (w : world) :
  let w0 := mkWorld (NewCircuitBreaker threshold timeout) ∅ in
  orderly_run w0 es = true → run w0 es = Some w →
  (∀ i j, w_calls w !! i = Some InTrial → w_calls w !! j = Some InTrial → i = j) ∧
  (∃ late w', run (mkWorld (NewCircuitBreaker 1 10) ∅) late = Some w' ∧
     w_calls w' !! 2%nat = Some InTrial ∧ w_calls w' !! 3%nat = Some InTrial).
Proof.
  intros w0 Ho Hr. split.
  - assert (exclusive w) as (Hone & _ & _) by (eapply (run_exclusive es w0); [|done..]; repeat split; done).
    intros i j Hi Hj. by apply (Hone i j InTrial InTrial).
  - eexists [Enter 0 0; Enter 1 0; Finish 0 (Failed "down") 1; Enter 2 11; Finish 1 (Failed "down") 12; Enter 3 22], _.
    split; [vm_compute; reflexivity|]. split; vm_compute; reflexivity.
Qed.

Definition sampleTrial : list event :=
  [Enter 0 0; Finish 0 (Failed "down") 1; Enter 1 11; Enter 2 12; Finish 1 (Failed "down") 13; Unwind 1; Enter 3 23].

Lemma trials_one_at_a_time_witness :
  ∃ w, run (mkWorld (NewCircuitBreaker 1 10) ∅) sampleTrial = Some w ∧ w_calls w !! 3%nat = Some InTrial ∧
    (∀ i j, w_calls w !! i = Some InTrial → w_calls w !! j = Some InTrial → i = j).
Proof.
  eexists. split; [vm_compute; reflexivity|]. split; [vm_compute; reflexivity|].
  refine (proj1 (trials_one_at_a_time 1 10 sampleTrial _ _ _)); vm_compute; reflexivity.
Defined.

(** [Retry] stops: it makes at most [attempts] attempts, stops at the first that
    succeeds, answers the error of the last one when all were made, or the error of
    the context when that ended before an attempt or during a wait; the waits double
    from [initial] up to half a minute. *)
Theorem Retry_bounded (ctxErr op wait : nat → option string) (attempts initial : Z) :
  1 <= attempts → 0 < initial <= Int64.max_value →
  let '(r, tried, waits) := Retry ctxErr op wait attempts initial in
  Z.of_nat tried <= attempts ∧ (length waits <= tried)%nat ∧
  (∀ j, (S j < tried)%nat → op j ≠ None) ∧
  (∀ i b, waits !! i = Some b → b = Z.min (initial * 2 ^ Z.of_nat i) maxBackoff) ∧
  match r with
  | Done => (0 < tried)%nat ∧ op (tried - 1)%nat = None
  | GaveUp e => Z.of_nat tried = attempts ∧ e = op (tried - 1)%nat ∧ e ≠ None
  | Cancelled e => ctxErr tried = Some e ∨ (0 < tried)%nat ∧ wait (tried - 1)%nat = Some e
  | InvalidAttempts => False
  end.
Proof.
  intros Ha Hi. unfold Retry. rewrite (proj2 (Z.ltb_ge _ _)), (proj2 (Z.leb_gt _ _)) by lia.
  pose proof (retryLoop_ok ctxErr op wait initial (Z.to_nat attempts) 0 None) as H.
  destruct (retryLoop _ _ _ _ _ _ _) as [[r tried] waits]. unfold retry_ok in H. cbn [Nat.add] in H.
  destruct H as (Ht & Hw & Hop & Hb & Hr). split; [lia|]. split; [done|]. split; [intros j Hj; apply Hop; lia|]. split.
  - intros i b Hib. rewrite Hb, list_lookup_fmap in Hib.
    destruct (seq 0 (length waits) !! i) as [k|] eqn:Ek; [|done]. apply lookup_seq in Ek as [-> _].
    injection Hib as <-. rewrite backoff_spec by done. done.
  - destruct r; try done. destruct Hr as (-> & He & Hn). rewrite Z2Nat.id by lia.
    destruct (Z.to_nat attempts) as [|m] eqn:Em; [lia|]. split; [done|]. split; [exact He|by apply Hn].
Qed.

Definition sampleOp (i : nat) : option string := if (i <? 2)%nat then Some "down" else None.

Lemma Retry_bounded_witness :
  Retry (λ _, None) sampleOp (λ _, None) 5 Time.Second = (Done, 3%nat, [Time.Second; 2 * Time.Second]) ∧
  Z.of_nat 3 <= 5 ∧ sampleOp 1 ≠ None.
Proof.
  assert (Retry (λ _, None) sampleOp (λ _, None) 5 Time.Second = (Done, 3%nat, [Time.Second; 2 * Time.Second])) as E
    by (vm_compute; reflexivity).
  split; [exact E|]. pose proof (Retry_bounded (λ _, None) sampleOp (λ _, None) 5 Time.Second) as H. rewrite E in H.
  destruct H as (Ht & _ & Hop & _); [lia|split; [reflexivity|vm_compute; discriminate]|].
  split; [exact Ht|apply (Hop 1%nat); lia].
Defined.

(** The rate limiter lets at most [limit] calls of a key through per window,
    whatever the other keys do and whenever the sweep runs: with the clock read in
    the order of the calls, the answers of a key come in windows that begin with a
    first call, the first [limit] let through and the others refused. *)
Theorem RateLimit_windowed (limit width : Z) (ops : list op) (key : string) :
  Sorted Z.le (op_time <$> ops) →
  let l := NewInMemoryLimiter limit width in
  windowed (rl_limit l) (rl_window l) Time.After (of_key key (answers l ops)).
Proof.
  intros Hs l. destruct ops as [|o ops]; [constructor|].
  assert (Sorted Z.le (op_time o :: (op_time <$> (o :: ops)))) as Hs' by (constructor; [done|constructor; lia]).
  rewrite (answers_reference (o :: ops) l key None (op_time o)).
  - apply reference_windowed. apply (calls_sorted _ key) in Hs'. by apply Sorted_inv in Hs' as [? _].
  - unfold l. cbn. destruct (Z.leb_spec limit 0); lia.
  - done.
  - unfold l. cbn. by rewrite lookup_empty.
Qed.

Lemma RateLimit_windowed_witness :
  windowed 1 10 Time.After
    (of_key "a" (answers (NewInMemoryLimiter 1 10) [OpAllow 0 "a"; OpAllow 1 "b"; OpAllow 2 "a"; OpSweep 11; OpAllow 11 "a"])).
Proof. apply (RateLimit_windowed 1 10). repeat (constructor; [|vm_compute; constructor; discriminate]); repeat constructor. Defined.
