(* ===== verification/Money.v ===== *)
(** * Money (src/money/money.go, exact.go, rate.go)

    Amounts in int64 cents, exact fractions for chains of steps, percents in units
    of 1/100,000 percent, and one rounding at the end. [big.Int] is [Z]; [big.Rat],
    which is always in lowest terms, is [Q] reduced after every operation. An
    int64 operation is followed by [Int64.wrap]. A panic and a returned error are
    both an [Err]; [Panic] tells them apart. *)

From Stdlib Require Import QArith Qreduction Ascii.
From S2P Require Import Prelude.

Local Open Scope Z_scope.

Inductive fault : Type :=
| ErrCurrency
| ErrOverflow
| ErrDecimal
| Panic (message : string).

Definition centsPerUnit : Z := 100.
Definition decimalBase : Z := 10.

(** The panic of [mustInt64], an error wrapping [ErrOverflow]. *)
Definition overflowPanic (v : Z) : fault :=
  Panic ("money: overflow: " +:+ Str.fmt_d v +:+ " does not fit in int64 cents").

Definition mustInt64 (v : Z) : outcome fault Z :=
  if Int64.fits v then Ok v else Err (overflowPanic v).

(** [Money]; the field [cents] is an int64. *)
Record Money : Type := New { cents : Z; currency : string }.

#[export] Instance Money_eq_dec : EqDecision Money.
Proof. solve_decision. Defined.

(** [Money{}] *)
Definition zeroMoney : Money := New 0 "".

(** ** Fractions *)

Definition pow10 (n : nat) : Z := decimalBase ^ Z.of_nat n.

(** [big.NewRat] and [Rat.SetFrac] with a denominator that is not zero. *)
Definition newRat (a b : Z) : Q := Qred (Qmake (Z.sgn b * a) (Z.to_pos (Z.abs b))).

Definition ratMul (a b : Q) : Q := Qred (a * b)%Q.
Definition ratAdd (a b : Q) : Q := Qred (a + b)%Q.
Definition ratQuo (a b : Q) : Q := Qred (a / b)%Q.
Definition ratNeg (a : Q) : Q := Qred (- a)%Q.

(** [roundRat]: half away from zero. *)
Definition roundRat (rat : Q) : Z :=
  let n := Z.abs (Qnum rat) in
  let d := Zpos (Qden rat) in
  let quo := Z.quot n d in
  let rem := Z.rem n d in
  let quo := if Z.shiftl rem 1 >=? d then quo + 1 else quo in
  if Qnum rat <? 0 then - quo else quo.

(** [floorRat]: [big.Int.Div] is Euclidean, which is the floor for a positive
    denominator. *)
Definition floorRat (rat : Q) : Z := Qnum rat / Zpos (Qden rat).

(** [roundScaled] *)
Definition roundScaled (val : Q) (scale : Z) : outcome fault Z :=
  mustInt64 (roundRat (ratMul val (inject_Z scale))).

(** ** Decimal text *)

Definition plus : ascii := "+"%char.
Definition minus : ascii := "-"%char.
Definition point : ascii := "."%char.

(** [strings.TrimLeft(text, "+-")] *)
Fixpoint trimSigns (text : string) : string :=
  match text with
  | EmptyString => EmptyString
  | String c rest => if bool_decide (c = plus) || bool_decide (c = minus) then trimSigns rest else text
  end.

Definition startsWith (c : ascii) (text : string) : bool :=
  match text with String d _ => bool_decide (d = c) | EmptyString => false end.

(** [parseDecimal] *)
Definition parseDecimal (text : string) : outcome fault Q :=
  let body := trimSigns text in
  if (1 <? String.length text - String.length body)%nat || bool_decide (body = "") then Err ErrDecimal else
  let '(whole, frac, _) := Str.cut point body in
  if (bool_decide (whole = "") && bool_decide (frac = "")) ||
     negb (Str.forall_char Str.is_digit (whole +:+ frac)) ||
     (Str.contains_char point body && bool_decide (frac = ""))
  then Err ErrDecimal
  else
    let digits := Str.digits_value 0 (whole +:+ frac) in
    let val := newRat digits (pow10 (String.length frac)) in
    Ok (if startsWith minus text then ratNeg val else val).

Definition FromDecimal (s cur : string) : outcome fault Money :=
  val ← parseDecimal s;
  c ← roundScaled val centsPerUnit;
  Ok (New c cur).

(** [FromFloat], given the shortest decimal text of the float
    ([strconv.FormatFloat(f, 'f', -1, 64)]). *)
Definition FromFloat (text cur : string) : outcome fault Money :=
  match parseDecimal text with
  | Err _ => Ok (New 0 cur)
  | Ok val => c ← roundScaled val centsPerUnit; Ok (New c cur)
  end.

(** [Money.String]: the magnitude as a uint64. *)
Definition money_string (m : Money) : string :=
  let abs := Int64.to_uint (cents m) in
  let '(abs, sign) := if cents m <? 0 then (Int64.to_uint (- abs), "-") else (abs, "") in
  let out := sign +:+ Str.digits (abs / centsPerUnit) +:+ "." +:+ Str.fmt_02d (abs mod centsPerUnit) in
  if bool_decide (currency m ≠ "") then out +:+ " " +:+ currency m else out.

(** ** Integer operations *)

Definition IsZero (m : Money) : bool := cents m =? 0.
Definition Neg (m : Money) : Money := New (Int64.wrap (- cents m)) (currency m).
Definition Abs (m : Money) : Money := if cents m <? 0 then Neg m else m.

Definition Cmp (m other : Money) : Z :=
  if cents m <? cents other then -1 else if cents m >? cents other then 1 else 0.

(** [combine]: the currency of a result. *)
Definition combine (a b : string) : outcome fault string :=
  if bool_decide (a = "") || bool_decide (a = b) then Ok b
  else if bool_decide (b = "") then Ok a
  else Err ErrCurrency.

(** [Money.Add], with its sign test for overflow. *)
Definition Add (m other : Money) : outcome fault Money :=
  cur ← combine (currency m) (currency other);
  let sum := Int64.wrap (cents m + cents other) in
  if Z.land (Z.lxor (cents m) sum) (Z.lxor (cents other) sum) <? 0 then Err ErrOverflow
  else Ok (New sum cur).

Definition Sub (m other : Money) : outcome fault Money := Add m (Neg other).

Fixpoint sum_from (total : Money) (ms : list Money) : outcome fault Money :=
  match ms with
  | [] => Ok total
  | one :: rest => total ← Add total one; sum_from total rest
  end.

Definition Sum (ms : list Money) : outcome fault Money := sum_from zeroMoney ms.

(** ** Rates *)

Definition rateScale : Z := 100000.

Record Rate : Type := mkRate { rate_v : Z }.

Definition Percent (whole : Z) : Rate := mkRate (Int64.wrap (whole * rateScale)).

Definition RateFromDecimal (s : string) : outcome fault Rate :=
  val ← parseDecimal s;
  v ← roundScaled val rateScale;
  Ok (mkRate v).

(** [Rate.ratio]: r/100 as a fraction. *)
Definition ratio (r : Rate) : Q := newRat (rate_v r) (rateScale * centsPerUnit).

(** ** Exact chains *)

(** [Exact]; the zero value has a nil fraction, which [val] reads as 0. *)
Record Exact : Type := mkExact { ex_r : option Q; ex_currency : string }.

Definition val (e : Exact) : Q := default 0%Q (ex_r e).
Definition with_r (e : Exact) (r : Q) : Exact := mkExact (Some r) (ex_currency e).

Definition FromMoney (m : Money) : Exact := mkExact (Some (newRat (cents m) 1)) (currency m).

Definition ex_MulRate (e : Exact) (r : Rate) : Exact := with_r e (ratMul (val e) (ratio r)).
Definition ex_AddRate (e : Exact) (r : Rate) : Exact :=
  with_r e (ratMul (val e) (ratAdd (newRat 1 1) (ratio r))).

Definition ex_RemoveRate (e : Exact) (r : Rate) : outcome fault Exact :=
  let gross := ratAdd (newRat 1 1) (ratio r) in
  if Qnum gross =? 0 then Err (Panic "money: RemoveRate of -100% divides by zero")
  else Ok (with_r e (ratQuo (val e) gross)).

Definition ex_MulRatio (e : Exact) (num den : Z) : outcome fault Exact :=
  if den =? 0 then Err (Panic "money: MulRatio with a zero denominator divides by zero")
  else Ok (with_r e (ratMul (val e) (newRat num den))).

Definition ex_MulDecimal (e : Exact) (s : string) : outcome fault Exact :=
  v ← parseDecimal s; Ok (with_r e (ratMul v (val e))).

Definition ex_Add (e other : Exact) : outcome fault Exact :=
  cur ← combine (ex_currency e) (ex_currency other);
  Ok (mkExact (Some (ratAdd (val e) (val other))) cur).

Notation RoundMode := Z (only parsing).
Definition RoundNearest : RoundMode := 0.
Definition RoundUp : RoundMode := 1.
Definition RoundDown : RoundMode := 2.

(** [Exact.RoundTo]; a mode that is none of the three leaves the pointer nil. *)
Definition ex_RoundTo (e : Exact) (step : Z) (mode : RoundMode) : outcome fault Money :=
  if step <=? 0 then Err (Panic "money: RoundTo with a step of 0 or less") else
  let quo := ratQuo (val e) (newRat step 1) in
  whole ← (if mode =? RoundUp then Ok (- floorRat (ratNeg quo))
           else if mode =? RoundDown then Ok (floorRat quo)
           else if mode =? RoundNearest then Ok (roundRat quo)
           else Err (Panic "nil pointer dereference"));
  c ← mustInt64 (whole * step);
  Ok (New c (ex_currency e)).

Definition ex_Round (e : Exact) : outcome fault Money :=
  c ← mustInt64 (roundRat (val e)); Ok (New c (ex_currency e)).

Definition MulRate (m : Money) (r : Rate) : outcome fault Money := ex_Round (ex_MulRate (FromMoney m) r).
Definition AddRate (m : Money) (r : Rate) : outcome fault Money := ex_Round (ex_AddRate (FromMoney m) r).
Definition RemoveRate (m : Money) (r : Rate) : outcome fault Money :=
  e ← ex_RemoveRate (FromMoney m) r; ex_Round e.
Definition MulRatio (m : Money) (num den : Z) : outcome fault Money :=
  e ← ex_MulRatio (FromMoney m) num den; ex_Round e.
Definition DivInt (m : Money) (n : Z) : outcome fault Money := MulRatio m 1 n.
Definition RoundTo (m : Money) (step : Z) (mode : RoundMode) : outcome fault Money :=
  ex_RoundTo (FromMoney m) step mode.

(** ** Allocate *)

(** The loop over the weights: the shares rounded down and the remainders. *)
Fixpoint shares (abs total : Z) (weights : list Z) : outcome fault (list (Z * Z)) :=
  match weights with
  | [] => Ok []
  | w :: rest =>
      quo ← mustInt64 (Z.quot (abs * w) total);
      more ← shares abs total rest;
      Ok ((quo, Z.rem (abs * w) total) :: more)
  end.

(** [Allocate]; [Ok None] is the nil slice. *)
Definition Allocate (amount : Money) (weights : list Z) : outcome fault (option (list Money)) :=
  if existsb (λ w, w <? 0) weights then Ok None else
  let total := foldr Z.add 0 weights in
  if total =? 0 then Ok None else
  let abs := Z.abs (cents amount) in
  left ← mustInt64 abs;
  sh ← shares abs total weights;
  let left := foldl (λ l p, Int64.wrap (l - p.1)) left sh in
  let rem i := default 0 (snd <$> sh !! i) in
  let order := stable_sort (λ a b, rem b <=? rem a) (seq 0 (length weights)) in
  if (left <? 0) || (Z.of_nat (length order) <? left) then Err (Panic "slice bounds out of range") else
  let parts := foldl (λ ps i, alter (λ p, Int64.wrap (p + 1)) i ps) (sh.*1) (take (Z.to_nat left) order) in
  Ok (Some ((λ p, New (if cents amount <? 0 then Int64.wrap (- p) else p) (currency amount)) <$> parts)).

(** [PercentOf]; [Ok None] is [0, false]. *)
Definition PercentOf (part whole : Money) (decimals : Z) : outcome fault (option Z) :=
  if cents whole =? 0 then Ok None else
  match combine (currency part) (currency whole) with
  | Err _ => Ok None
  | Ok _ =>
      let scale := pow10 (Z.to_nat (Z.max decimals 0)) in
      v ← roundScaled (newRat (cents part * centsPerUnit) (cents whole)) scale;
      Ok (Some v)
  end.

(** * Facts about money

    Rounding is the unique nearest integer with ties away from zero, and depends
    on the value of a fraction only; addition detects overflow exactly; decimal
    text and amounts round-trip; allocation distributes every cent. *)

(** ** Rounding half away from zero *)

(** [r] is the integer nearest to [n/d], a tie away from zero. *)
Definition rounds_to (n d r : Z) : Prop :=
  2 * Z.abs (r * d - n) <= d ∧ (2 * Z.abs (r * d - n) = d → Z.abs n < Z.abs (r * d)).

Lemma rounds_below n d a b : 0 < d → rounds_to n d a → rounds_to n d b → a < b → False.
Proof.
  unfold rounds_to. intros Hd [Ha Ta] [Hb Tb] Hab.
  assert (a * d + d <= b * d) as Hgap.
  { replace (a * d + d) with ((a + 1) * d) by ring. apply Z.mul_le_mono_nonneg_r; lia. }
  assert (0 <= a → 0 <= a * d) as Hpos by (intros; apply Z.mul_nonneg_nonneg; lia).
  assert (b <= 0 → b * d <= 0) as Hneg by (intros; apply Z.mul_nonpos_nonneg; lia).
  assert (b - a <= 1) as Hclose.
  { apply (Z.mul_le_mono_pos_r _ _ d Hd). replace ((b - a) * d) with (b * d - a * d) by ring. lia. }
  assert (0 <= a ∨ b <= 0) as Hside by lia. clear Hab Hclose.
  generalize dependent (a * d). generalize dependent (b * d). intros B Hb Tb Hneg A Ha Ta Hgap Hpos.
  specialize (Ta ltac:(lia)). specialize (Tb ltac:(lia)).
  destruct Hside as [H|H]; [specialize (Hpos H)|specialize (Hneg H)]; lia.
Qed.

Lemma rounds_unique n d r1 r2 : 0 < d → rounds_to n d r1 → rounds_to n d r2 → r1 = r2.
Proof.
  intros Hd H1 H2. destruct (Z.lt_trichotomy r1 r2) as [Hlt|[?|Hgt]]; [|done|]; exfalso.
  - by apply (rounds_below n d r1 r2).
  - by apply (rounds_below n d r2 r1).
Qed.

(** The value of the fraction decides. *)
Lemma rounds_scale n d n' d' r :
  0 < d → 0 < d' → n * d' = n' * d → rounds_to n d r → rounds_to n' d' r.
Proof.
  unfold rounds_to. intros Hd Hd' Heq [H T].
  assert (d * Z.abs (r * d' - n') = d' * Z.abs (r * d - n)) as Hs.
  { rewrite <-(Z.abs_eq d) at 1 by lia. rewrite <-(Z.abs_eq d') at 2 by lia. rewrite <-!Z.abs_mul. f_equal. nia. }
  assert (d * Z.abs n' = d' * Z.abs n) as Hn.
  { rewrite <-(Z.abs_eq d) at 1 by lia. rewrite <-(Z.abs_eq d') at 1 by lia. rewrite <-!Z.abs_mul. f_equal. nia. }
  assert (d * Z.abs (r * d') = d' * Z.abs (r * d)) as Hr.
  { rewrite <-(Z.abs_eq d) at 1 by lia. rewrite <-(Z.abs_eq d') at 2 by lia. rewrite <-!Z.abs_mul. f_equal. nia. }
  split; [nia|]. intros E. assert (2 * Z.abs (r * d - n) = d) as E' by nia. specialize (T E'). nia.
Qed.

Lemma roundRat_spec q : rounds_to (Qnum q) (Zpos (Qden q)) (roundRat q).
Proof.
  unfold roundRat, rounds_to. set (d := Zpos (Qden q)). assert (0 < d) as Hd by (unfold d; lia).
  set (n := Qnum q). rewrite Z.quot_div_nonneg, Z.rem_mod_nonneg, Z.shiftl_mul_pow2 by lia.
  pose proof (Z.div_mod (Z.abs n) d ltac:(lia)) as Hdm. pose proof (Z.mod_pos_bound (Z.abs n) d Hd) as Hm.
  assert (0 <= Z.abs n / d) by (apply Z.div_pos; lia).
  set (k := Z.abs n / d) in *. set (m := Z.abs n mod d) in *. change (2 ^ 1) with 2.
  destruct (Z.geb_spec (m * 2) d) as [Hge|Hlt], (Z.ltb_spec n 0) as [Hn|Hn]; split; try intros; nia.
Qed.

Lemma roundRat_char q n d r : 0 < d → q == Qmake n (Z.to_pos d) → rounds_to n d r → roundRat q = r.
Proof.
  intros Hd Hq Hr. pose proof (roundRat_spec q) as Hs. unfold Qeq in Hq. cbn in Hq.
  rewrite Z2Pos.id in Hq by done.
  eapply (rounds_unique n d); [done| |done]. by eapply rounds_scale; [| |exact Hq|exact Hs].
Qed.

(** Rounding is a function of the value: it respects equality of fractions. *)
#[export] Instance roundRat_proper : Proper (Qeq ==> eq) roundRat.
Proof.
  intros q1 q2 Hq. apply (roundRat_char q1 (Qnum q2) (Zpos (Qden q2))); [done| |apply roundRat_spec].
  rewrite Hq. cbn. by destruct q2.
Qed.

Lemma floorRat_spec q : floorRat q * Zpos (Qden q) <= Qnum q < (floorRat q + 1) * Zpos (Qden q).
Proof.
  unfold floorRat. pose proof (Z.div_mod (Qnum q) (Zpos (Qden q)) ltac:(lia)).
  pose proof (Z.mod_pos_bound (Qnum q) (Zpos (Qden q)) ltac:(lia)). lia.
Qed.

(** ** Fractions *)

Lemma newRat_eq a b : 0 < b → newRat a b == Qmake a (Z.to_pos b).
Proof.
  intros Hb. unfold newRat. rewrite Qred_correct, Z.sgn_pos, Z.abs_eq by lia. by rewrite Z.mul_1_l.
Qed.

Lemma newRat_1 a : newRat a 1 == inject_Z a.
Proof. by rewrite newRat_eq. Qed.

Lemma ratMul_eq a b : ratMul a b == a * b.
Proof. apply Qred_correct. Qed.

Lemma ratAdd_eq a b : ratAdd a b == a + b.
Proof. apply Qred_correct. Qed.

Lemma ratNeg_eq a : ratNeg a == - a.
Proof. apply Qred_correct. Qed.

Lemma ratQuo_eq a b : ratQuo a b == a / b.
Proof. apply Qred_correct. Qed.

(** ** Addition *)

Definition amount_ok (m : Money) : Prop := Int64.min_value <= cents m <= Int64.max_value.

Lemma wrap_sum z :
  2 * Int64.min_value <= z <= 2 * Int64.max_value + 1 →
  Int64.wrap z = if z <? Int64.min_value then z + Int64.modulus
                 else if Int64.max_value <? z then z - Int64.modulus else z.
Proof.
  intros Hz. destruct (Z.ltb_spec z Int64.min_value) as [Hlo|Hlo]; [|destruct (Z.ltb_spec Int64.max_value z) as [Hhi|Hhi]].
  - unfold Int64.wrap, Int64.min_value, Int64.max_value, Int64.modulus in *.
    rewrite <-(Z.mod_unique z 18446744073709551616 (-1) (z + 18446744073709551616)) by lia. case_match; lia.
  - unfold Int64.wrap, Int64.min_value, Int64.max_value, Int64.modulus in *.
    rewrite Z.mod_small by lia. case_match; lia.
  - by apply Int64.wrap_id.
Qed.

Lemma lxor_neg a b : Z.lxor a b < 0 ↔ ¬ (0 <= a ↔ 0 <= b).
Proof. rewrite <-Z.lxor_nonneg. lia. Qed.

(** The sign test finds overflow exactly. *)
Lemma overflow_test a b :
  Int64.min_value <= a <= Int64.max_value → Int64.min_value <= b <= Int64.max_value →
  (Z.land (Z.lxor a (Int64.wrap (a + b))) (Z.lxor b (Int64.wrap (a + b))) <? 0) = negb (Int64.fits (a + b)).
Proof.
  intros Ha Hb. apply eq_true_iff_eq. rewrite Z.ltb_lt, Z.land_neg, !lxor_neg, negb_true_iff.
  rewrite wrap_sum by (unfold Int64.min_value, Int64.max_value in *; lia).
  unfold Int64.fits. rewrite andb_false_iff, !Z.leb_gt.
  unfold Int64.min_value, Int64.max_value, Int64.modulus in *.
  destruct (Z.ltb_spec (a + b) (-9223372036854775808)); [|destruct (Z.ltb_spec 9223372036854775807 (a + b))]; lia.
Qed.

Lemma Add_spec m other :
  amount_ok m → amount_ok other →
  Add m other = cur ← combine (currency m) (currency other);
                if Int64.fits (cents m + cents other) then Ok (New (cents m + cents other) cur) else Err ErrOverflow.
Proof.
  intros Hm Ho. unfold Add. destruct (combine _ _) as [cur|]; cbn; [|done].
  rewrite overflow_test by done. destruct (Int64.fits _) eqn:E; cbn; [|done].
  by rewrite Int64.wrap_id by by apply Int64.fits_spec.
Qed.

Lemma Add_ok m other r : amount_ok m → amount_ok other → Add m other = Ok r → amount_ok r.
Proof.
  intros Hm Ho. rewrite Add_spec by done. destruct (combine _ _) as [cur|]; cbn; [|done].
  destruct (Int64.fits _) eqn:E; [|done]. intros [= <-]. by apply Int64.fits_spec.
Qed.

(** ** Currencies *)

Definition compatible (cur : string) (m : Money) : Prop := currency m = "" ∨ currency m = cur.

Lemma combine_Ok a b c : combine a b = Ok c → (a = "" ∨ a = c) ∧ (b = "" ∨ b = c) ∧ (c = a ∨ c = b).
Proof.
  unfold combine. destruct (decide (a = "")) as [->|Ha].
  { rewrite bool_decide_eq_true_2 by done. cbn. intros [= <-]. auto. }
  rewrite (bool_decide_eq_false_2 (a = "")) by done. cbn.
  destruct (decide (a = b)) as [->|Hab]; [rewrite bool_decide_eq_true_2 by done; intros [= <-]; auto|].
  rewrite (bool_decide_eq_false_2 (a = b)) by done.
  destruct (decide (b = "")) as [->|Hb]; [rewrite bool_decide_eq_true_2 by done; intros [= <-]; auto|].
  by rewrite bool_decide_eq_false_2.
Qed.

Lemma sum_from_spec ms total r :
  amount_ok total → Forall amount_ok ms → sum_from total ms = Ok r →
  amount_ok r ∧ cents r = cents total + foldr Z.add 0 (cents <$> ms) ∧
  compatible (currency r) total ∧ Forall (compatible (currency r)) ms.
Proof.
  intros Ht Hms. revert total Ht. induction Hms as [|m ms Hm Hms IH]; intros total Ht; cbn [sum_from].
  - intros [= <-]. cbn. split; [done|]. split; [lia|]. split; [by right|constructor].
  - intros (t & Ha & Hs)%outcome_bind_Ok. pose proof (Add_ok _ _ _ Ht Hm Ha) as Hok.
    destruct (IH t Hok Hs) as (Hr & Hc & Hcur & Hall).
    rewrite Add_spec in Ha by done. apply outcome_bind_Ok in Ha as (cur & Hcomb & Ha).
    destruct (Int64.fits _); [|done]. injection Ha as <-. apply combine_Ok in Hcomb as (Ca & Cb & Cc).
    unfold compatible in *. cbn in *. split; [done|]. split; [lia|]. split.
    + destruct Ca as [?|Ca]; [by left|]. rewrite Ca. destruct Hcur as [?|?]; [by left|by right].
    + constructor; [|done]. destruct Cb as [?|Cb]; [by left|]. rewrite Cb. destruct Hcur as [?|?]; [by left|by right].
Qed.

(** ** Rates and ratios *)

(** Rounding a chain: the nearest integer to its value, or the overflow panic. *)
Lemma ex_Round_spec e n d :
  0 < d → val e == Qmake n (Z.to_pos d) →
  ∃ c, rounds_to n d c ∧
       ex_Round e = if Int64.fits c then Ok (New c (ex_currency e)) else Err (overflowPanic c).
Proof.
  intros Hd Hv. exists (roundRat (val e)). split.
  - pose proof (roundRat_spec (val e)) as Hs. unfold Qeq in Hv. cbn in Hv. rewrite Z2Pos.id in Hv by done.
    by eapply rounds_scale; [| |exact Hv|exact Hs].
  - unfold ex_Round, mustInt64. by destruct (Int64.fits _).
Qed.

(** A hundred percent, in the units of a rate. *)
Definition fullRate : Z := 10000000.

Lemma fullRate_eq : fullRate = rateScale * centsPerUnit.
Proof. reflexivity. Qed.

(** Equality of concrete fractions, by cross multiplication. *)
Ltac cross := unfold Qeq, Qmult, Qplus, inject_Z, fullRate; cbn; lia.

Lemma ratio_eq r : ratio r == Qmake (rate_v r) 10000000.
Proof. unfold ratio. by rewrite newRat_eq. Qed.

Lemma val_FromMoney m : val (FromMoney m) == inject_Z (cents m).
Proof. apply newRat_1. Qed.

Lemma MulRate_val m r : val (ex_MulRate (FromMoney m) r) == Qmake (cents m * rate_v r) (Z.to_pos fullRate).
Proof.
  cbn [val ex_MulRate with_r ex_r default from_option id]. rewrite ratMul_eq, val_FromMoney, ratio_eq.
  cross.
Qed.

Lemma AddRate_val m r :
  val (ex_AddRate (FromMoney m) r) == Qmake (cents m * (fullRate + rate_v r)) (Z.to_pos fullRate).
Proof.
  cbn [val ex_AddRate with_r ex_r default from_option id].
  rewrite ratMul_eq, val_FromMoney, ratAdd_eq, newRat_1, ratio_eq.
  cross.
Qed.

Lemma gross_eq r : ratAdd (newRat 1 1) (ratio r) == Qmake (fullRate + rate_v r) (Z.to_pos fullRate).
Proof.
  rewrite ratAdd_eq, newRat_1, ratio_eq. unfold Qeq, inject_Z, fullRate, rateScale, centsPerUnit. cbn. lia.
Qed.

Lemma Qdiv_frac a n d :
  0 < n → 0 < d → (inject_Z a / Qmake n (Z.to_pos d) == Qmake (a * d) (Z.to_pos n))%Q.
Proof.
  intros Hn Hd. unfold Qdiv, Qinv. destruct n as [|n|n]; try lia. destruct d as [|d|d]; try lia.
  cbn. unfold Qeq, Qmult, inject_Z. cbn. lia.
Qed.

Lemma RemoveRate_val m r :
  0 < fullRate + rate_v r →
  ∃ e, ex_RemoveRate (FromMoney m) r = Ok e ∧ ex_currency e = currency m ∧
       val e == Qmake (cents m * fullRate) (Z.to_pos (fullRate + rate_v r)).
Proof.
  intros Hpos. unfold ex_RemoveRate. pose proof (gross_eq r) as Hg.
  set (g := ratAdd (newRat 1 1) (ratio r)) in *.
  assert (Qnum g ≠ 0) as Hne.
  { intros Hz. unfold Qeq in Hg. cbn in Hg. rewrite Hz in Hg. nia. }
  rewrite (proj2 (Z.eqb_neq _ _) Hne). eexists. split; [done|]. split; [done|].
  cbn [val with_r ex_r default from_option id]. rewrite ratQuo_eq, val_FromMoney, Hg. by apply Qdiv_frac.
Qed.

Lemma MulRatio_val m num den :
  0 < den →
  ∃ e, ex_MulRatio (FromMoney m) num den = Ok e ∧ ex_currency e = currency m ∧
       val e == Qmake (cents m * num) (Z.to_pos den).
Proof.
  intros Hd. unfold ex_MulRatio. rewrite (proj2 (Z.eqb_neq den 0)) by lia.
  eexists. split; [done|]. split; [done|].
  cbn [val with_r ex_r default from_option id]. rewrite ratMul_eq, val_FromMoney, newRat_eq by done.
  unfold Qeq, inject_Z. cbn. lia.
Qed.

(** ** RoundTo *)

Lemma step_quo e n d step :
  0 < step → 0 < d → val e == Qmake n (Z.to_pos d) →
  ratQuo (val e) (newRat step 1) == Qmake n (Z.to_pos (d * step)).
Proof.
  intros Hs Hd Hv. rewrite ratQuo_eq, newRat_1, Hv. destruct step as [|s|s]; try lia. destruct d as [|d|d]; try lia.
  unfold Qdiv, Qinv, inject_Z, Qeq, Qmult. cbn. by rewrite Z.mul_1_r.
Qed.

Lemma floorRat_char q n d : 0 < d → q == Qmake n (Z.to_pos d) → floorRat q = n / d.
Proof.
  intros Hd Hq. unfold Qeq in Hq. cbn in Hq. rewrite Z2Pos.id in Hq by done. unfold floorRat.
  rewrite <-(Z.div_mul_cancel_r (Qnum q) (Zpos (Qden q)) d) by lia. rewrite Hq.
  rewrite (Z.mul_comm (Zpos (Qden q)) d). apply Z.div_mul_cancel_r; lia.
Qed.

(** ** Text *)

Lemma trimSigns_digits s : Str.forall_char Str.is_digit s = true → trimSigns s = s.
Proof.
  destruct s as [|c s]; [done|]. cbn. intros [Hc _]%andb_true_iff.
  rewrite (bool_decide_eq_false_2 (c = plus)), (bool_decide_eq_false_2 (c = minus)); [done|..];
    intros ->; discriminate Hc.
Qed.

(** Signs in front of digits are trimmed and the digits kept. *)
Lemma trimSigns_head s t : Str.forall_char Str.is_digit s = true → s ≠ "" → trimSigns (s +:+ t) = s +:+ t.
Proof.
  destruct s as [|c s]; [done|]. intros [Hc _]%andb_true_iff _. rewrite Str.app_cons. cbn.
  rewrite (bool_decide_eq_false_2 (c = plus)), (bool_decide_eq_false_2 (c = minus)); [done|..];
    intros ->; discriminate Hc.
Qed.

Lemma string_length_app s t : String.length (s +:+ t) = (String.length s + String.length t)%nat.
Proof. induction s as [|c s IH]; [done|]. rewrite Str.app_cons. cbn. by rewrite IH. Qed.

Lemma fmt_02d_digits n : 0 <= n < 100 → Str.forall_char Str.is_digit (Str.fmt_02d n) = true.
Proof.
  intros Hn. unfold Str.fmt_02d. cbn. rewrite !Str.is_digit_char; [done|apply Str.mod10_range|].
  split; [apply Z.div_pos; lia|apply Z.div_lt_upper_bound; lia].
Qed.

Lemma digits_value_02d a n : 0 <= n < 100 → Str.digits_value a (Str.fmt_02d n) = 100 * a + n.
Proof.
  intros Hn. unfold Str.fmt_02d. cbn [Str.digits_value].
  rewrite !Str.code_digit_char; [|apply Str.mod10_range|split; [apply Z.div_pos; lia|apply Z.div_lt_upper_bound; lia]].
  pose proof (Z.div_mod n 10). lia.
Qed.

(** The fraction a text of the form digits.dd denotes. *)
Lemma parseDecimal_unsigned w f :
  0 <= w → 0 <= f < 100 →
  ∃ v, parseDecimal (Str.digits w +:+ "." +:+ Str.fmt_02d f) = Ok v ∧ v == Qmake (100 * w + f) 100.
Proof.
  intros Hw Hf. set (text := Str.digits w +:+ "." +:+ Str.fmt_02d f).
  assert (trimSigns text = text) as Htrim by (apply trimSigns_head; [apply Str.digits_digits|apply Str.digits_nonempty]).
  assert (Str.contains_char point (Str.digits w) = false) as Hnp
    by (eapply Str.contains_char_forall; [apply Str.digits_digits|reflexivity]).
  assert (Str.cut point text = (Str.digits w, Str.fmt_02d f, true)) as Hcut by (apply (Str.cut_app point); exact Hnp).
  eexists. unfold parseDecimal. rewrite Htrim, Nat.sub_diag, Hcut. cbn [Nat.ltb Nat.leb orb].
  rewrite (bool_decide_eq_false_2 (text = "")).
  2: { intros E. unfold text in E. destruct (Str.digits w) eqn:Ed; [by apply Str.digits_nonempty in Ed|done]. }
  rewrite (bool_decide_eq_false_2 (Str.digits w = "")) by apply Str.digits_nonempty.
  rewrite Str.forall_char_app, Str.digits_digits, fmt_02d_digits by done.
  rewrite (bool_decide_eq_false_2 (Str.fmt_02d f = "")) by done. rewrite !andb_false_r. cbn [andb orb negb].
  assert (startsWith minus text = false) as ->.
  { pose proof (Str.digits_digits w) as Hd. unfold text. destruct (Str.digits w) as [|c s] eqn:Ed;
      [by apply Str.digits_nonempty in Ed|]. rewrite Str.app_cons. cbn. apply bool_decide_eq_false_2.
    intros ->. discriminate Hd. }
  split; [reflexivity|]. rewrite Str.digits_value_digits, digits_value_02d by done.
  unfold pow10. cbn [String.length Str.fmt_02d]. by rewrite newRat_eq.
Qed.

Lemma parseDecimal_minus w f :
  0 <= w → 0 <= f < 100 →
  ∃ v, parseDecimal ("-" +:+ Str.digits w +:+ "." +:+ Str.fmt_02d f) = Ok v ∧ v == Qmake (- (100 * w + f)) 100.
Proof.
  intros Hw Hf. destruct (parseDecimal_unsigned w f Hw Hf) as (v & Hv & Heq).
  set (text := Str.digits w +:+ "." +:+ Str.fmt_02d f) in *.
  assert (trimSigns text = text) as Htrim by (apply trimSigns_head; [apply Str.digits_digits|apply Str.digits_nonempty]).
  exists (ratNeg v). split.
  - unfold parseDecimal in *. change ("-" +:+ text) with (String minus text). cbn [trimSigns].
    rewrite (bool_decide_eq_true_2 (minus = minus)), orb_true_r by done. rewrite Htrim in *.
    cbn [String.length]. replace (S (String.length text) - String.length text)%nat with 1%nat by lia.
    rewrite Nat.sub_diag in Hv. cbn [Nat.ltb Nat.leb orb] in *.
    destruct (bool_decide (text = "")); [done|]. destruct (Str.cut point text) as [[wh fr] ok].
    destruct (_ || _ || _); [done|].
    assert (startsWith minus text = false) as Hsw.
    { pose proof (Str.digits_digits w) as Hd. unfold text. destruct (Str.digits w) as [|c s] eqn:Ed;
        [by apply Str.digits_nonempty in Ed|]. rewrite Str.app_cons. cbn. apply bool_decide_eq_false_2.
      intros ->. discriminate Hd. }
    rewrite Hsw in Hv. injection Hv as <-. cbn [startsWith]. by rewrite bool_decide_eq_true_2.
  - rewrite ratNeg_eq, Heq. unfold Qeq, Qopp. cbn. lia.
Qed.

(** Parsing what [String] prints gives the amount back. *)
Lemma FromDecimal_string c cur :
  Int64.min_value <= c <= Int64.max_value → FromDecimal (money_string (New c "")) cur = Ok (New c cur).
Proof.
  intros Hc. assert (∃ v, parseDecimal (money_string (New c "")) = Ok v ∧ v == Qmake c 100) as (v & Hp & Hv).
  { unfold money_string. cbn [cents currency]. rewrite bool_decide_eq_false_2 by tauto.
    unfold Int64.to_uint, Int64.min_value, Int64.max_value, Int64.modulus, centsPerUnit in *.
    destruct (Z.ltb_spec c 0) as [Hn|Hn].
    - rewrite <-(Z.mod_unique c 18446744073709551616 (-1) (c + 18446744073709551616)) by lia.
      rewrite <-(Z.mod_unique (- (c + 18446744073709551616)) 18446744073709551616 (-1) (- c)) by lia.
      destruct (parseDecimal_minus (- c / 100) (- c mod 100)) as (v & Hp & Hv);
        [apply Z.div_pos; lia|apply Z.mod_pos_bound; lia|].
      exists v. split; [exact Hp|]. rewrite Hv. unfold Qeq. cbn. pose proof (Z.div_mod (- c) 100). lia.
    - rewrite Z.mod_small by lia.
      destruct (parseDecimal_unsigned (c / 100) (c mod 100)) as (v & Hp & Hv);
        [apply Z.div_pos; lia|apply Z.mod_pos_bound; lia|].
      exists v. split; [exact Hp|]. rewrite Hv. unfold Qeq. cbn. pose proof (Z.div_mod c 100). lia. }
  unfold FromDecimal. rewrite Hp. cbn [mbind outcome_bind].
  unfold roundScaled, mustInt64.
  rewrite (roundRat_char _ c 1 c).
  - assert (Int64.fits c = true) as -> by by apply Int64.fits_spec. done.
  - done.
  - rewrite ratMul_eq, Hv. unfold Qeq, inject_Z, centsPerUnit. cbn. lia.
  - unfold rounds_to. rewrite Z.mul_1_r, Z.sub_diag. cbn. lia.
Qed.

(** * Allocation of an amount (src/money/money.go, Allocate)

    The parts sum to the amount exactly, each is its exact share rounded down or
    up, and no step of the computation can overflow or slice out of range. *)

Notation zsum l := (foldr Z.add 0 l).

Lemma zsum_app l k : zsum (l ++ k) = zsum l + zsum k.
Proof. induction l as [|x l IH]; cbn; [done|]. rewrite IH. lia. Qed.

Lemma zsum_perm l k : l ≡ₚ k → zsum l = zsum k.
Proof. induction 1; cbn; lia. Qed.

Lemma zsum_nonneg l : Forall (λ x, 0 <= x) l → 0 <= zsum l.
Proof. induction 1; cbn; lia. Qed.

Lemma zsum_elem l x : Forall (λ x, 0 <= x) l → x ∈ l → x <= zsum l.
Proof.
  intros Hl Hx. induction Hl as [|y l Hy Hl IH]; [by apply elem_of_nil in Hx|]. cbn.
  pose proof (zsum_nonneg _ Hl). apply elem_of_cons in Hx as [->|Hx]; [lia|]. specialize (IH Hx). lia.
Qed.

Lemma zsum_bound l k : Forall (λ x, x <= k) l → zsum l <= Z.of_nat (length l) * k.
Proof. induction 1; cbn [foldr length]; [lia|]. rewrite Nat2Z.inj_succ, Z.mul_succ_l. lia. Qed.

(** ** The shares *)

Section Shares.
Context (abs total : Z) (weights : list Z).
Context (Habs : 0 <= abs <= Int64.max_value) (Htotal : 0 < total) (Hsum : zsum weights = total)
        (Hw : Forall (λ w, 0 <= w) weights).

Definition share (w : Z) : Z * Z := (abs * w / total, (abs * w) mod total).

Lemma share_spec w : 0 <= w <= total →
  abs * w = (share w).1 * total + (share w).2 ∧ 0 <= (share w).2 < total ∧ 0 <= (share w).1 <= abs.
Proof.
  intros Hw'. cbn. pose proof (Z.div_mod (abs * w) total ltac:(lia)) as Hdm.
  pose proof (Z.mod_pos_bound (abs * w) total Htotal).
  split; [lia|]. split; [done|]. split.
  - apply Z.div_pos; [|done]. apply Z.mul_nonneg_nonneg; lia.
  - apply Z.div_le_upper_bound; [done|]. rewrite (Z.mul_comm total). apply Z.mul_le_mono_nonneg_l; lia.
Qed.

Lemma weight_range w : w ∈ weights → 0 <= w <= total.
Proof.
  intros Hin. rewrite list.Forall_forall in Hw. specialize (Hw w Hin) as Hw0. split; [done|].
  rewrite <-Hsum. apply zsum_elem; [by apply list.Forall_forall|done].
Qed.

Lemma shares_from ws : (∀ w, w ∈ ws → 0 <= w <= total) → shares abs total ws = Ok (share <$> ws).
Proof.
  induction ws as [|w ws IH]; intros Hws; [done|]. cbn [shares fmap list_fmap].
  assert (0 <= w <= total) as Hww by (apply Hws; left).
  destruct (share_spec w Hww) as (_ & _ & Hq). cbn in Hq.
  assert (0 <= abs * w) by (apply Z.mul_nonneg_nonneg; lia).
  rewrite Z.quot_div_nonneg, Z.rem_mod_nonneg by lia. unfold mustInt64.
  assert (Int64.fits (abs * w / total) = true) as ->.
  { apply Int64.fits_spec. unfold Int64.min_value, Int64.max_value in *. lia. }
  cbn [mbind outcome_bind]. rewrite IH; [done|]. intros x Hx. apply Hws. by right.
Qed.

Lemma shares_Ok : shares abs total weights = Ok (share <$> weights).
Proof. apply shares_from. apply weight_range. Qed.

Definition quos : list Z := (share <$> weights).*1.
Definition rems : list Z := (share <$> weights).*2.

(** The cents that are left once every share is rounded down. *)
Definition leftover : Z := abs - zsum quos.

Lemma shares_sum : zsum rems = leftover * total.
Proof.
  unfold leftover, rems, quos.
  assert (∀ ws, (∀ w, w ∈ ws → 0 <= w <= total) →
    zsum (share <$> ws).*1 * total + zsum (share <$> ws).*2 = abs * zsum ws) as H.
  { induction ws as [|w ws IH]; intros Hws; cbn [fmap list_fmap foldr]; [lia|].
    destruct (share_spec w) as (Hs & _); [apply Hws; left|].
    specialize (IH ltac:(intros x Hx; apply Hws; by right)). lia. }
  specialize (H weights weight_range). rewrite Hsum in H. lia.
Qed.

Lemma elem_of_rems r : r ∈ rems → 0 <= r < total.
Proof.
  unfold rems. rewrite <-list_fmap_compose. intros (w & -> & Hin)%list_elem_of_fmap.
  cbn. apply Z.mod_pos_bound. lia.
Qed.

Lemma elem_of_quos q : q ∈ quos → 0 <= q <= abs.
Proof.
  unfold quos. rewrite <-list_fmap_compose. intros (w & -> & Hin)%list_elem_of_fmap.
  apply share_spec. by apply weight_range.
Qed.

Lemma length_rems : length rems = length weights.
Proof. unfold rems. by rewrite !length_fmap. Qed.

Lemma leftover_range : 0 <= leftover <= Z.of_nat (length weights).
Proof.
  pose proof shares_sum as Hs.
  assert (0 <= zsum rems) by (apply zsum_nonneg, list.Forall_forall; intros r Hr%elem_of_rems; lia).
  assert (zsum rems <= Z.of_nat (length rems) * total)
    by (apply zsum_bound, list.Forall_forall; intros r Hr%elem_of_rems; lia).
  rewrite length_rems in *. nia.
Qed.

(** Counting down never leaves the range of an int64. *)
Lemma countdown_from sh l :
  Forall (λ p : Z * Z, 0 <= p.1) sh → zsum sh.*1 <= l <= Int64.max_value →
  foldl (λ l p, Int64.wrap (l - p.1)) l sh = l - zsum sh.*1.
Proof.
  intros Hsh. revert l. induction Hsh as [|p sh Hp Hsh IH]; intros l Hl; cbn [foldl fmap list_fmap foldr]; [lia|].
  cbn [fmap list_fmap foldr] in Hl.
  assert (0 <= zsum sh.*1) by (apply zsum_nonneg, Forall_fmap; done).
  rewrite Int64.wrap_id by (unfold Int64.min_value, Int64.max_value in *; lia).
  rewrite IH by lia. lia.
Qed.

Lemma countdown : foldl (λ l p, Int64.wrap (l - p.1)) abs (share <$> weights) = leftover.
Proof.
  apply countdown_from.
  - apply list.Forall_forall. intros p (w & -> & Hin)%list_elem_of_fmap. apply share_spec. by apply weight_range.
  - pose proof leftover_range. unfold leftover, quos in *. lia.
Qed.

(** ** Who gets a leftover cent *)

Definition rem_at (i : nat) : Z := default 0 (snd <$> (share <$> weights) !! i).

Definition order : list nat := stable_sort (λ a b, rem_at b <=? rem_at a) (seq 0 (length weights)).

Lemma rem_at_seq : rem_at <$> seq 0 (length weights) = rems.
Proof.
  apply list_eq. intros i. rewrite list_lookup_fmap. unfold rems. rewrite list_lookup_fmap.
  destruct (decide (i < length weights)%nat) as [Hi|Hi].
  - rewrite (proj2 (lookup_seq 0 (length weights) i i)) by lia. cbn. unfold rem_at.
    destruct ((share <$> weights) !! i) as [x|] eqn:E; [done|].
    apply lookup_ge_None in E. rewrite length_fmap in E. lia.
  - rewrite (lookup_seq_ge 0 (length weights) i) by lia. cbn.
    rewrite (lookup_ge_None_2 (share <$> weights) i) by (rewrite length_fmap; lia). done.
Qed.

Lemma order_perm : order ≡ₚ seq 0 (length weights).
Proof. apply stable_sort_perm. Qed.

Lemma order_rems : zsum (rem_at <$> order) = leftover * total.
Proof. rewrite <-shares_sum, <-rem_at_seq. apply zsum_perm. by rewrite order_perm. Qed.

Lemma order_NoDup : NoDup order.
Proof. rewrite order_perm. apply NoDup_seq. Qed.

Lemma elem_of_order i : i ∈ order ↔ (i < length weights)%nat.
Proof. rewrite order_perm, elem_of_seq. lia. Qed.

Lemma rem_at_range i : 0 <= rem_at i < total.
Proof.
  unfold rem_at. destruct ((share <$> weights) !! i) as [x|] eqn:E; cbn; [|lia].
  apply elem_of_rems. unfold rems. apply list_elem_of_fmap. exists x. split; [done|].
  by eapply list_elem_of_lookup_2.
Qed.

(** Only a share that is not exact is rounded up. *)
Lemma bumped_inexact i : i ∈ take (Z.to_nat leftover) order → 0 < rem_at i.
Proof.
  intros Hin. destruct (decide (0 < rem_at i)) as [?|Hz]; [done|exfalso].
  pose proof (rem_at_range i) as Hr. assert (rem_at i = 0) as Hi0 by lia. clear Hz Hr.
  apply list_elem_of_split in Hin as (l1 & l2 & Htake).
  assert (order = l1 ++ i :: (l2 ++ drop (Z.to_nat leftover) order)) as Horder.
  { rewrite <-(take_drop (Z.to_nat leftover) order) at 1. rewrite Htake, <-app_assoc. done. }
  assert (StronglySorted (λ a b, (rem_at b <=? rem_at a) = true) order) as Hsort.
  { apply stable_sort_sorted; intros *; rewrite ?Z.leb_gt, ?Z.leb_le; lia. }
  set (rest := l2 ++ drop (Z.to_nat leftover) order) in *.
  assert (Forall (λ b, rem_at b = 0) rest) as Hrest.
  { rewrite Horder in Hsort. apply StronglySorted_app in Hsort as (_ & _ & Hsort).
    apply StronglySorted_inv in Hsort as [_ Hall]. eapply list.Forall_impl; [exact Hall|]. cbn.
    intros b Hb%Z.leb_le. pose proof (rem_at_range b). lia. }
  pose proof order_rems as Hsum'. rewrite Horder, fmap_app, zsum_app in Hsum'. cbn [fmap list_fmap foldr] in Hsum'.
  assert (zsum (rem_at <$> rest) = 0) as Hz.
  { clear -Hrest. induction Hrest as [|b l Hb _ IH]; cbn [fmap list_fmap foldr]; lia. }
  assert (zsum (rem_at <$> l1) <= Z.of_nat (length l1) * total) as Hb.
  { etrans; [apply (zsum_bound _ total)|by rewrite length_fmap]. apply Forall_fmap, list.Forall_forall.
    intros x _. cbn. pose proof (rem_at_range x). lia. }
  assert (Z.of_nat (length l1) < leftover) as Hlen.
  { assert (length l1 < Z.to_nat leftover)%nat; [|lia].
    apply (f_equal length) in Htake. rewrite length_take, length_app in Htake. cbn in Htake. lia. }
  rewrite Hi0, Hz in Hsum'. nia.
Qed.
End Shares.

(** ** Handing out the leftover *)

Definition bump (ps : list Z) (idxs : list nat) : list Z :=
  foldl (λ ps i, alter (λ p, Int64.wrap (p + 1)) i ps) ps idxs.

Lemma zsum_alter (f : Z → Z) ps i p :
  ps !! i = Some p → zsum (alter f i ps) = zsum ps + (f p - p).
Proof.
  revert i. induction ps as [|x ps IH]; intros [|i] Hp; try done; cbn in *.
  - injection Hp as ->. lia.
  - rewrite (IH i Hp). lia.
Qed.

Lemma bump_spec idxs ps :
  NoDup idxs →
  (∀ i, i ∈ idxs → ∃ p, ps !! i = Some p ∧ Int64.min_value <= p + 1 <= Int64.max_value) →
  length (bump ps idxs) = length ps ∧
  zsum (bump ps idxs) = zsum ps + Z.of_nat (length idxs) ∧
  ∀ i p, ps !! i = Some p → bump ps idxs !! i = Some (if contains idxs i then p + 1 else p).
Proof.
  revert ps. induction idxs as [|j idxs IH]; intros ps Hn Hidx; cbn [bump foldl].
  - split; [done|]. split; [cbn; lia|]. intros i p Hp. exact Hp.
  - apply list.NoDup_cons in Hn as [Hj Hn].
    destruct (Hidx j) as (pj & Hpj & Hr); [left|].
    destruct (IH (alter (λ p, Int64.wrap (p + 1)) j ps)) as (Hlen & Hsum & Hlook); [done| |].
    { intros i Hi. destruct (Hidx i) as (p & Hp & ?); [by right|]. exists p. split; [|done].
      rewrite list_lookup_alter_ne; [done|]. by intros ->. }
    fold (bump (alter (λ p, Int64.wrap (p + 1)) j ps) idxs).
    split; [by rewrite Hlen, length_alter|]. split.
    + rewrite Hsum, (zsum_alter _ _ _ _ Hpj), Int64.wrap_id by lia. cbn [length]. lia.
    + intros i p Hp. rewrite contains_cons. destruct (decide (i = j)) as [->|Hne].
      * rewrite (bool_decide_eq_true_2 (j = j)) by done. cbn.
        assert (p = pj) as -> by congruence.
        rewrite (Hlook j (Int64.wrap (pj + 1))) by (by rewrite list_lookup_alter_eq, Hpj).
        rewrite Int64.wrap_id by lia. f_equal. destruct (contains idxs j) eqn:E; [|done].
        apply contains_spec in E. done.
      * rewrite (bool_decide_eq_false_2 (i = j)) by done. cbn. apply Hlook. by rewrite list_lookup_alter_ne.
Qed.

(** The exact share of weight [w], and a part that is it rounded down or up. *)
Definition fair (amount total w part : Z) : Prop := Z.abs (part * total - amount * w) < total.

Lemma zsum_negate l : zsum (Z.opp <$> l) = - zsum l.
Proof. induction l as [|x l IH]; cbn [fmap list_fmap foldr]; [done|]. rewrite IH. lia. Qed.

Section Allocate.
Context (amount : Money) (weights : list Z).
Context (Hamount : Int64.min_value < cents amount <= Int64.max_value)
        (Hw : Forall (λ w, 0 <= w) weights) (Hpos : 0 < zsum weights).

Let abs := Z.abs (cents amount).
Let total := zsum weights.

Lemma abs_range : 0 <= abs <= Int64.max_value.
Proof. unfold abs, Int64.min_value, Int64.max_value in *. lia. Qed.

Definition parts : list Z :=
  bump (quos abs total weights) (take (Z.to_nat (leftover abs total weights)) (order abs total weights)).

Lemma parts_spec :
  length parts = length weights ∧ zsum parts = abs ∧
  ∀ i w p, weights !! i = Some w → parts !! i = Some p → 0 <= p <= abs ∧ fair abs total w p.
Proof.
  pose proof abs_range as Habs. pose proof (leftover_range abs total weights Habs Hpos eq_refl Hw) as Hleft.
  assert (length (quos abs total weights) = length weights) as Hlq by (unfold quos; by rewrite !length_fmap).
  assert (Forall (λ q, 0 <= q) (quos abs total weights)) as Hq0.
  { apply list.Forall_forall. intros q Hq%elem_of_quos; [lia|done..]. }
  destruct (bump_spec (take (Z.to_nat (leftover abs total weights)) (order abs total weights))
    (quos abs total weights)) as (Hlen & Hsum & Hlook).
  - eapply sublist_NoDup; [apply order_NoDup|apply sublist_take].
  - intros i Hi. assert (0 < leftover abs total weights) as Hl.
    { destruct (Z.to_nat (leftover abs total weights)) eqn:E; [by apply elem_of_nil in Hi|lia]. }
    apply list_elem_of_lookup in Hi as [k Hk]. apply lookup_take_Some in Hk as [Hk _].
    apply list_elem_of_lookup_2, elem_of_order in Hk. rewrite <-Hlq in Hk.
    apply lookup_lt_is_Some in Hk as [q Hq]. exists q. split; [done|].
    apply list_elem_of_lookup_2 in Hq. pose proof (zsum_elem _ _ Hq0 Hq). unfold leftover in *.
    rewrite list.Forall_forall in Hq0. specialize (Hq0 _ Hq). unfold Int64.min_value, Int64.max_value in *. lia.
  - fold parts in Hlen, Hsum, Hlook. split; [by rewrite Hlen|]. split.
    { rewrite Hsum, length_take. rewrite (Permutation_length (order_perm _ _ _)), length_seq.
      rewrite Nat.min_l by lia. rewrite Z2Nat.id by lia. unfold leftover. lia. }
    intros i w p Hwi Hp.
    assert (quos abs total weights !! i = Some (share abs total w).1) as Hqi.
    { unfold quos. by rewrite !list_lookup_fmap, Hwi. }
    assert (0 <= w <= total) as Hwr.
    { eapply (weight_range total weights); eauto. by eapply list_elem_of_lookup_2. }
    destruct (share_spec abs total Habs Hpos w Hwr) as (Hs & Hr & Hq).
    assert (rem_at abs total weights i = (share abs total w).2) as Hrem.
    { unfold rem_at. by rewrite list_lookup_fmap, Hwi. }
    rewrite (Hlook _ _ Hqi) in Hp. clear Hlook Hqi Hsum.
    destruct (share abs total w) as [q r]. cbn [fst snd] in *. injection Hp as <-.
    unfold fair. destruct (contains _ i) eqn:Ec.
    + apply contains_spec, bumped_inexact in Ec; [|done..]. rewrite Hrem in Ec.
      split; [|lia]. split; [lia|].
      assert (abs * w <= abs * total) as Hle by (apply Z.mul_le_mono_nonneg_l; lia).
      assert (q * total < abs * total) as Hlt by lia. apply Z.mul_lt_mono_pos_r in Hlt; lia.
    + split; [done|]. lia.
Qed.

Lemma Allocate_eq :
  Allocate amount weights =
    Ok (Some ((λ p, New (if cents amount <? 0 then Int64.wrap (- p) else p) (currency amount)) <$> parts)).
Proof.
  pose proof abs_range as Habs. pose proof (leftover_range abs total weights Habs Hpos eq_refl Hw) as Hleft.
  unfold Allocate.
  assert (existsb (λ w, w <? 0) weights = false) as ->.
  { apply not_true_iff_false. rewrite existsb_elem. intros (w & Hin & Hlt%Z.ltb_lt).
    rewrite list.Forall_forall in Hw. specialize (Hw w Hin). lia. }
  rewrite (proj2 (Z.eqb_neq (zsum weights) 0)) by lia. unfold mustInt64 at 1. fold abs total.
  assert (Int64.fits abs = true) as -> by (apply Int64.fits_spec; unfold Int64.min_value; lia).
  cbn [mbind outcome_bind]. rewrite (shares_Ok abs total weights Habs Hpos eq_refl Hw). cbn [mbind outcome_bind].
  rewrite (countdown abs total weights Habs Hpos eq_refl Hw). fold (order abs total weights).
  change (stable_sort _ (seq 0 (length weights))) with (order abs total weights).
  rewrite (Permutation_length (order_perm _ _ _)), length_seq.
  rewrite (proj2 (Z.ltb_ge _ _)) by lia. rewrite (proj2 (Z.ltb_ge (Z.of_nat _) _)) by lia. done.
Qed.

Lemma Allocate_spec :
  ∃ out, Allocate amount weights = Ok (Some out) ∧ length out = length weights ∧
    zsum (cents <$> out) = cents amount ∧
    ∀ i w m, weights !! i = Some w → out !! i = Some m →
      currency m = currency amount ∧ amount_ok m ∧ fair (cents amount) total w (cents m).
Proof.
  pose proof abs_range as Habs. destruct parts_spec as (Hlen & Hsum & Hparts).
  eexists. split; [apply Allocate_eq|]. split; [by rewrite length_fmap|].
  assert (Forall (λ p, 0 <= p <= abs) parts) as Hrange.
  { apply Forall_lookup. intros i p Hp. assert (is_Some (weights !! i)) as [w Hwi].
    { apply lookup_lt_is_Some. rewrite <-Hlen. by eapply lookup_lt_Some. }
    by eapply Hparts. }
  assert ((λ p, if cents amount <? 0 then Int64.wrap (- p) else p) <$> parts =
          (λ p, if cents amount <? 0 then - p else p) <$> parts) as Hwrap.
  { apply list_fmap_ext. intros i p Hp. apply Forall_lookup_1 with (i := i) (x := p) in Hrange; [|done].
    case_match; [|done]. apply Int64.wrap_id. unfold Int64.min_value, Int64.max_value in *. lia. }
  split.
  - rewrite <-list_fmap_compose. change (cents ∘ _) with (λ p, if cents amount <? 0 then Int64.wrap (- p) else p).
    rewrite Hwrap. destruct (Z.ltb_spec (cents amount) 0).
    + change (zsum (Z.opp <$> parts) = cents amount). rewrite zsum_negate, Hsum. unfold abs. lia.
    + rewrite list_fmap_id, Hsum. unfold abs. lia.
  - intros i w m Hwi Hm. rewrite list_lookup_fmap in Hm. destruct (parts !! i) as [p|] eqn:Hp; [|done].
    injection Hm as <-. destruct (Hparts i w p Hwi Hp) as [Hpr Hfair]. split; [done|].
    unfold amount_ok. cbn [cents]. unfold fair in *. destruct (Z.ltb_spec (cents amount) 0) as [Hn|Hn].
    + rewrite Int64.wrap_id by (unfold Int64.min_value, Int64.max_value in *; lia).
      split; [unfold Int64.min_value, Int64.max_value in *; lia|].
      assert (abs = - cents amount) as Ha by (unfold abs; lia). rewrite Ha in Hfair.
      replace (- p * total - cents amount * w) with (- (p * total - - cents amount * w)) by ring.
      by rewrite Z.abs_opp.
    + split; [unfold Int64.min_value, Int64.max_value in *; lia|].
      assert (abs = cents amount) as Ha by (unfold abs; lia). by rewrite Ha in Hfair.
Qed.
End Allocate.

(** * Properties of money

    Exact sums, one rounding, fair allocation, and text that reads back. *)

(** [Add] is exact or says so: for int64 amounts of compatible currencies the
    result is the true sum when that fits int64 and [ErrOverflow] exactly when it
    does not; currencies that differ and are both set are [ErrCurrency]. *)
Theorem Add_exact_or_overflow (m other : Money) :
  amount_ok m → amount_ok other →
  match Add m other with
  | Ok r => cents r = cents m + cents other ∧ amount_ok r ∧
            compatible (currency r) m ∧ compatible (currency r) other
  | Err ErrOverflow => cents m + cents other < Int64.min_value ∨ Int64.max_value < cents m + cents other
  | Err ErrCurrency => currency m ≠ "" ∧ currency other ≠ "" ∧ currency m ≠ currency other
  | Err _ => False
  end.
Proof.
  intros Hm Ho. pose proof (Add_ok m other) as Hok. rewrite Add_spec in * by done.
  destruct (combine (currency m) (currency other)) as [cur|f] eqn:Ec; cbn [mbind outcome_bind] in *.
  - apply combine_Ok in Ec as (Ca & Cb & _). destruct (Int64.fits (cents m + cents other)) eqn:Ef.
    + specialize (Hok _ Hm Ho eq_refl). unfold compatible. cbn. tauto.
    + unfold Int64.fits in Ef. apply andb_false_iff in Ef. rewrite !Z.leb_gt in Ef. lia.
  - unfold combine in Ec. destruct (decide (currency m = "")) as [E|]; [by rewrite bool_decide_eq_true_2 in Ec|].
    rewrite (bool_decide_eq_false_2 (currency m = "")) in Ec by done. cbn in Ec.
    destruct (decide (currency m = currency other)); [by rewrite bool_decide_eq_true_2 in Ec|].
    rewrite (bool_decide_eq_false_2 (currency m = currency other)) in Ec by done.
    destruct (decide (currency other = "")); [by rewrite bool_decide_eq_true_2 in Ec|].
    rewrite bool_decide_eq_false_2 in Ec by done. injection Ec as <-. done.
Qed.

Lemma Add_exact_or_overflow_witness :
  Add (New Int64.max_value "EUR") (New 1 "") = Err ErrOverflow ∧ Int64.max_value < Int64.max_value + 1.
Proof.
  pose proof (Add_exact_or_overflow (New Int64.max_value "EUR") (New 1 "")) as H.
  assert (Add (New Int64.max_value "EUR") (New 1 "") = Err ErrOverflow) as E by (vm_compute; reflexivity).
  split; [exact E|]. rewrite E in H.
  destruct H as [H|H]; [split; vm_compute; discriminate|split; vm_compute; discriminate|vm_compute in H; discriminate H|exact H].
Defined.

(** [Sub] is the exact difference, or an overflow error, for every subtrahend
    but the smallest int64: negating that one wraps to itself, so subtracting it
    answers without an error an amount of the wrong sign. *)
Theorem Sub_exact_but_for_smallest (m other : Money) (cur : string) :
  amount_ok m → amount_ok other → combine (currency m) (currency other) = Ok cur →
  (cents other ≠ Int64.min_value →
     Sub m other = if Int64.fits (cents m - cents other) then Ok (New (cents m - cents other) cur) else Err ErrOverflow) ∧
  (cents other = Int64.min_value → cents m = 0 →
     Sub m other = Ok (New Int64.min_value cur) ∧ Int64.fits (cents m - cents other) = false).
Proof.
  intros Hm Ho Hc. unfold Sub. split.
  - intros Hne. assert (cents (Neg other) = - cents other) as Hneg.
    { cbn. apply Int64.wrap_id. unfold amount_ok, Int64.min_value, Int64.max_value in *. lia. }
    rewrite Add_spec; [|done|unfold amount_ok in *; rewrite Hneg; unfold Int64.min_value, Int64.max_value in *; lia].
    rewrite Hneg. cbn [currency Neg]. rewrite Hc. cbn [mbind outcome_bind]. by rewrite Z.add_opp_r.
  - intros Hmin Hz. destruct other as [oc ocur], m as [mc mcur]. cbn in Hmin, Hz, Hc. subst oc mc.
    unfold Add. cbn [currency Neg cents]. rewrite Hc. split; vm_compute; reflexivity.
Qed.

Lemma Sub_exact_but_for_smallest_witness :
  Sub (New 0 "EUR") (New Int64.min_value "EUR") = Ok (New Int64.min_value "EUR").
Proof.
  apply (Sub_exact_but_for_smallest (New 0 "EUR") (New Int64.min_value "EUR") "EUR");
    [split; vm_compute; discriminate|split; vm_compute; discriminate|reflexivity..].
Defined.

(** [Sum] is exact: when it answers, the amount is the sum of the amounts, no
    partial sum overflowed, and every currency is the result's or empty. *)
Theorem Sum_exact (ms : list Money) (r : Money) :
  Forall amount_ok ms → Sum ms = Ok r →
  amount_ok r ∧ cents r = foldr Z.add 0 (cents <$> ms) ∧ Forall (compatible (currency r)) ms.
Proof.
  intros Hms H. destruct (sum_from_spec ms zeroMoney r) as (Hr & Hc & _ & Hall); [done|done|exact H|].
  split; [done|]. split; [|done]. cbn in Hc. lia.
Qed.

(** The outcome of one rounding of the fraction n/d to cents: the nearest integer,
    a tie away from zero, or the overflow panic for that integer. *)
Definition rounded_once (n d : Z) (cur : string) (o : outcome fault Money) : Prop :=
  ∃ c, rounds_to n d c ∧ o = if Int64.fits c then Ok (New c cur) else Err (overflowPanic c).

(** Percents and ratios round once, and only at the end: the result of
    [MulRate], [AddRate], [RemoveRate], [MulRatio] and [DivInt] is the exact
    fraction rounded half away from zero. *)
Theorem rates_round_once (m : Money) (r : Rate) (num den : Z) :
  rounded_once (cents m * rate_v r) fullRate (currency m) (MulRate m r) ∧
  rounded_once (cents m * (fullRate + rate_v r)) fullRate (currency m) (AddRate m r) ∧
  (0 < fullRate + rate_v r →
     rounded_once (cents m * fullRate) (fullRate + rate_v r) (currency m) (RemoveRate m r)) ∧
  (0 < den → rounded_once (cents m * num) den (currency m) (MulRatio m num den) ∧
             rounded_once (cents m) den (currency m) (DivInt m den)).
Proof.
  unfold rounded_once. split; [|split; [|split]].
  - apply (ex_Round_spec (ex_MulRate (FromMoney m) r)); [done|apply MulRate_val].
  - apply (ex_Round_spec (ex_AddRate (FromMoney m) r)); [done|apply AddRate_val].
  - intros Hp. destruct (RemoveRate_val m r Hp) as (e & He & Hcur & Hv). unfold RemoveRate. rewrite He.
    cbn [mbind outcome_bind]. rewrite <-Hcur. by apply ex_Round_spec.
  - intros Hd. split.
    + destruct (MulRatio_val m num den Hd) as (e & He & Hcur & Hv). unfold MulRatio. rewrite He.
      cbn [mbind outcome_bind]. rewrite <-Hcur. by apply ex_Round_spec.
    + destruct (MulRatio_val m 1 den Hd) as (e & He & Hcur & Hv). unfold DivInt, MulRatio. rewrite He.
      cbn [mbind outcome_bind]. rewrite <-Hcur. apply ex_Round_spec; [done|]. by rewrite Hv, Z.mul_1_r.
Qed.

(** 32726.50 at 17% is 5563.51, and a net amount is recovered from a gross one. *)
Lemma rates_round_once_witness :
  MulRate (New 3272650 "EUR") (Percent 17) = Ok (New 556351 "EUR") ∧
  rounded_once (1170 * fullRate) (fullRate + 1700000) "EUR" (RemoveRate (New 1170 "EUR") (Percent 17)).
Proof.
  split; [vm_compute; reflexivity|].
  apply (rates_round_once (New 1170 "EUR") (Percent 17) 1 1). vm_compute. reflexivity.
Defined.

(** [RoundTo] rounds to a multiple of the step: up to the smallest multiple
    not below, down to the largest not above, nearest with a tie away from zero;
    it fails only when that multiple does not fit int64. *)
Theorem RoundTo_modes (m : Money) (step : Z) :
  0 < step →
  (∃ k, k * step <= cents m < (k + 1) * step ∧
        RoundTo m step RoundDown = (c ← mustInt64 (k * step); Ok (New c (currency m)))) ∧
  (∃ k, (k - 1) * step < cents m <= k * step ∧
        RoundTo m step RoundUp = (c ← mustInt64 (k * step); Ok (New c (currency m)))) ∧
  (∃ k, rounds_to (cents m) step k ∧
        RoundTo m step RoundNearest = (c ← mustInt64 (k * step); Ok (New c (currency m)))).
Proof.
  intros Hs.
  assert (ratQuo (val (FromMoney m)) (newRat step 1) == Qmake (cents m) (Z.to_pos (1 * step))) as Hq.
  { apply step_quo; [done|done|apply val_FromMoney]. }
  rewrite Z.mul_1_l in Hq. unfold RoundTo, ex_RoundTo. rewrite (proj2 (Z.leb_gt step 0)) by done.
  set (quo := ratQuo _ _) in *. cbn [ex_currency FromMoney].
  pose proof (Z.div_mod (cents m) step ltac:(lia)). pose proof (Z.mod_pos_bound (cents m) step Hs).
  pose proof (Z.div_mod (- cents m) step ltac:(lia)). pose proof (Z.mod_pos_bound (- cents m) step Hs).
  split; [|split].
  - exists (cents m / step). split; [lia|]. cbn -[mustInt64]. by rewrite (floorRat_char quo (cents m) step).
  - exists (- (- cents m / step)). split; [lia|]. cbn -[mustInt64].
    rewrite (floorRat_char (ratNeg quo) (- cents m) step); [done|done|]. rewrite ratNeg_eq, Hq. reflexivity.
  - exists (roundRat quo). split; [|done]. pose proof (roundRat_spec quo) as Hr. unfold Qeq in Hq. cbn in Hq.
    rewrite Z2Pos.id in Hq by done. by eapply rounds_scale; [| |exact Hq|exact Hr].
Qed.

Lemma RoundTo_modes_witness :
  RoundTo (New (-101) "EUR") 200 RoundDown = Ok (New (-200) "EUR") ∧
  ∃ k, rounds_to (-250) 500 k ∧
       RoundTo (New (-250) "EUR") 500 RoundNearest = (c ← mustInt64 (k * 500); Ok (New c "EUR")).
Proof.
  split; [vm_compute; reflexivity|].
  destruct (RoundTo_modes (New (-250) "EUR") 500) as (_ & _ & H); [reflexivity|exact H].
Defined.

(** C40. [Allocate] distributes every cent: for non-negative weights with a positive
    sum and any amount but the smallest int64, it answers without a panic one part
    per weight, the parts sum to the amount exactly, and each differs from its
    exact share by less than a cent. *)
Theorem Allocate_distributes_exactly (amount : Money) (weights : list Z) :
  Int64.min_value < cents amount <= Int64.max_value →
  Forall (λ w, 0 <= w) weights → 0 < foldr Z.add 0 weights →
  ∃ out, Allocate amount weights = Ok (Some out) ∧ length out = length weights ∧
    foldr Z.add 0 (cents <$> out) = cents amount ∧
    ∀ i w part, weights !! i = Some w → out !! i = Some part →
      currency part = currency amount ∧ amount_ok part ∧
      Z.abs (cents part * foldr Z.add 0 weights - cents amount * w) < foldr Z.add 0 weights.
Proof. apply Allocate_spec. Qed.

Lemma Allocate_distributes_exactly_witness :
  ∃ out, Allocate (New (-10000) "EUR") [1; 1; 1; 0] = Ok (Some out) ∧ foldr Z.add 0 (cents <$> out) = -10000.
Proof.
  destruct (Allocate_distributes_exactly (New (-10000) "EUR") [1; 1; 1; 0]) as (out & H & _ & Hs & _);
    [split; [reflexivity|vm_compute; discriminate]|repeat constructor; discriminate|reflexivity|].
  exists out. split; [exact H|exact Hs].
Defined.

(** Amounts survive text: parsing what [String] prints, for every int64 amount
    down to the smallest, gives the amount back. *)
Theorem FromDecimal_String_roundtrip (c : Z) (cur : string) :
  Int64.min_value <= c <= Int64.max_value →
  FromDecimal (money_string (New c "")) cur = Ok (New c cur).
Proof. apply FromDecimal_string. Qed.

Lemma FromDecimal_String_roundtrip_witness :
  FromDecimal (money_string (New Int64.min_value "")) "EUR" = Ok (New Int64.min_value "EUR").
Proof. apply (FromDecimal_String_roundtrip Int64.min_value "EUR"). split; vm_compute; discriminate. Defined.

(** [PercentOf] is part/whole x 100 at the asked number of decimals, rounded
    once, for a positive whole of a compatible currency. *)
Theorem PercentOf_rounds_once (part whole : Money) (decimals : Z) (cur : string) :
  0 < cents whole → combine (currency part) (currency whole) = Ok cur →
  ∃ v, rounds_to (cents part * 100 * pow10 (Z.to_nat (Z.max decimals 0))) (cents whole) v ∧
       PercentOf part whole decimals = if Int64.fits v then Ok (Some v) else Err (overflowPanic v).
Proof.
  intros Hw Hc. set (scale := pow10 (Z.to_nat (Z.max decimals 0))).
  set (q := ratMul (newRat (cents part * centsPerUnit) (cents whole)) (inject_Z scale)).
  exists (roundRat q). split.
  - assert (q == Qmake (cents part * 100 * scale) (Z.to_pos (cents whole))) as Hq.
    { unfold q. rewrite ratMul_eq, newRat_eq by done. unfold Qeq, inject_Z, centsPerUnit. cbn. lia. }
    pose proof (roundRat_spec q) as Hr. unfold Qeq in Hq. cbn [Qnum Qden] in Hq. rewrite Z2Pos.id in Hq by done.
    by eapply rounds_scale; [| |exact Hq|exact Hr].
  - unfold PercentOf. rewrite (proj2 (Z.eqb_neq _ _)) by lia. rewrite Hc. fold scale.
    unfold roundScaled, mustInt64. fold q. by destruct (Int64.fits (roundRat q)).
Qed.
