(* ===== verification/Navigation.v ===== *)
(** * The menu of an application (src/navigation/navigation.go)

    The tree an application declares, its check, and the filter that cuts it down to
    what a person may reach. [url.Parse] is an argument: the scheme and the host. *)

From Stdlib Require Import Ascii.
From S2P Require Import Prelude Apperr.
From stdpp Require Import list.

Definition ErrInvalid : string := "invalid navigation node".

Inductive Node : Type := mkNode {
  n_I18n : string;
  n_Icon : string;
  n_Route : string;
  n_Href : string;
  n_Children : list Node;
  n_Permissions : list string;
  n_Gate : list string;
  n_Requires : list string
}.

(** Induction on a menu, down through the children. *)
Section Induction.
Variable (P : Node → Prop).
Hypothesis IH : ∀ n, Forall P (n_Children n) → P n.
Fixpoint Node_tree_ind (n : Node) : P n :=
  IH n ((fix go (l : list Node) : Forall P l :=
           match l with [] => Forall_nil_2 P | c :: l' => Forall_cons_2 P c l' (Node_tree_ind c) (go l') end) (n_Children n)).
End Induction.

(** ** The check *)

Section Validate.
Variable ParseURL : string → option (string * string).

Definition validHref (href : string) : bool :=
  if String.prefix "/" href then
    negb (String.prefix "//" href) && negb (String.prefix "/\" href) &&
    Str.forall_char (λ c, negb (contains [13; 10; 9]%Z (Str.code c))) href
  else match ParseURL href with
       | Some (scheme, host) => (bool_decide (scheme = "http") || bool_decide (scheme = "https")) && bool_decide (host ≠ "")
       | None => false
       end.

(** What one node is refused for, its children apart. *)
Definition refusal (n : Node) : option error :=
  if bool_decide (n_Route n ≠ "") && bool_decide (n_Href n ≠ "") then
    Some (errorf (ErrInvalid +:+ ": " +:+ Str.fmt_q (n_I18n n) +:+ " has both route and href") [errNew ErrInvalid])
  else if bool_decide (n_Href n ≠ "") && negb (validHref (n_Href n)) then
    Some (errorf (ErrInvalid +:+ ": " +:+ Str.fmt_q (n_I18n n) +:+ " has href " +:+ Str.fmt_q (n_Href n) +:+
                  ", which is neither a path nor an http(s) URL") [errNew ErrInvalid])
  else None.

Fixpoint validateNode (n : Node) : option error :=
  match refusal n with
  | Some err => Some err
  | None => (fix go (l : list Node) : option error :=
               match l with
               | [] => None
               | c :: l' => match validateNode c with Some err => Some err | None => go l' end
               end) (n_Children n)
  end.

Fixpoint Validate (nodes : list Node) : option error :=
  match nodes with
  | [] => None
  | n :: rest => match validateNode n with Some err => Some err | None => Validate rest end
  end.
End Validate.

(** ** The filter *)

Definition holdsAll (required : list string) (held : string → bool) : bool := forallb held required.
Definition holdsOne (permissions : list string) (held : string → bool) : bool := existsb held permissions.

(** [Held] *)
Definition Held (permissions : list string) : string → bool :=
  let set := list_to_set permissions : gset string in λ p, bool_decide (p ∈ set).

Definition with_children (n : Node) (cs : list Node) : Node :=
  mkNode (n_I18n n) (n_Icon n) (n_Route n) (n_Href n) cs (n_Permissions n) (n_Gate n) (n_Requires n).

Section Filter.
Variable held : string → bool.

(** One round of the loop: the node as it stays, from what stays of its children. *)
Definition kept (n : Node) (children : list Node) : option Node :=
  let n' := with_children n children in
  if (0 <? length children)%nat then Some n'
  else if (0 <? length (n_Permissions n))%nat || (0 <? length (n_Gate n))%nat then
    if holdsOne (n_Permissions n) held || holdsOne (n_Gate n) held then Some n' else None
  else if (0 <? length (n_Children n))%nat then None else Some n'.

Fixpoint filterNode (n : Node) : option Node :=
  if negb (holdsAll (n_Requires n) held) then None
  else kept n ((fix go (l : list Node) : list Node :=
                  match l with
                  | [] => []
                  | c :: l' => match filterNode c with Some c' => c' :: go l' | None => go l' end
                  end) (n_Children n)).

Definition Filter (nodes : list Node) : list Node := omap filterNode nodes.

Lemma filterNode_eq n :
  filterNode n = if negb (holdsAll (n_Requires n) held) then None else kept n (Filter (n_Children n)).
Proof. destruct n as [? ? ? ? cs ? ? ?]. cbn [filterNode n_Requires n_Children]. done. Qed.

(** *** What a person may reach *)

(** A node is reached through a child, with a permission of its own, or as a static link; everything it requires is held. *)
Inductive reaches : Node → Prop :=
| reach_child n c : holdsAll (n_Requires n) held = true → c ∈ n_Children n → reaches c → reaches n
| reach_own n p : holdsAll (n_Requires n) held = true → p ∈ n_Permissions n ++ n_Gate n → held p = true → reaches n
| reach_static n : holdsAll (n_Requires n) held = true → n_Permissions n = [] → n_Gate n = [] → n_Children n = [] → reaches n.

Definition cut (n : Node) : Node := with_children n (Filter (n_Children n)).

Lemma holdsOne_either n :
  holdsOne (n_Permissions n) held || holdsOne (n_Gate n) held = true ↔ ∃ p, p ∈ n_Permissions n ++ n_Gate n ∧ held p = true.
Proof. unfold holdsOne. rewrite <-existsb_app. apply existsb_elem. Qed.

Lemma filterNode_spec n n' : filterNode n = Some n' ↔ reaches n ∧ n' = cut n.
Proof.
  revert n'. induction n as [n IH] using Node_tree_ind. intros n'. rewrite filterNode_eq.
  assert (Filter (n_Children n) ≠ [] ↔ ∃ c, c ∈ n_Children n ∧ reaches c) as Hkids.
  { rewrite Forall_forall in IH. split.
    - intros Hne. destruct (Filter (n_Children n)) as [|c' l] eqn:E; [done|].
      assert (c' ∈ Filter (n_Children n)) as (c & Hc & Hf)%list_elem_of_omap by (rewrite E; left). exists c. split; [done|]. by apply (IH c Hc) in Hf as [? _].
    - intros (c & Hc & Hr) Hnil. assert (cut c ∈ Filter (n_Children n)) as Hin by (apply list_elem_of_omap; exists c; split; [done|]; apply (IH c Hc); done).
      rewrite Hnil in Hin. by apply elem_of_nil in Hin. }
  destruct (holdsAll (n_Requires n) held) eqn:Er; cbn [negb].
  2:{ split; [done|]. intros [Hr _]. inversion Hr; congruence. }
  unfold kept. fold (cut n). destruct (Nat.ltb_spec 0 (length (Filter (n_Children n)))) as [Hlen|Hlen].
  - assert (∃ c, c ∈ n_Children n ∧ reaches c) as (c & Hc & Hr) by (apply Hkids; intros Hnil; rewrite Hnil in Hlen; cbn in Hlen; lia).
    split; [intros [= <-]|intros [_ ->]]; [|done]. split; [by eapply reach_child|done].
  - assert (¬ ∃ c, c ∈ n_Children n ∧ reaches c) as Hno by (rewrite <-Hkids; destruct (Filter _); cbn in *; [tauto|lia]).
    assert (reaches n ↔ (∃ p, p ∈ n_Permissions n ++ n_Gate n ∧ held p = true) ∨ (n_Permissions n = [] ∧ n_Gate n = [] ∧ n_Children n = [])) as Hreach.
    { split.
      - intros Hr. inversion Hr; subst; [exfalso; apply Hno; eauto|left; eauto|by right].
      - intros [(p & Hp & Hh)|(? & ? & ?)]; [by eapply reach_own|by apply reach_static]. }
    rewrite Hreach, <-holdsOne_either. clear Hreach Hno Hkids IH.
    destruct ((0 <? length (n_Permissions n))%nat || (0 <? length (n_Gate n))%nat) eqn:Eg.
    + assert (¬ (n_Permissions n = [] ∧ n_Gate n = [] ∧ n_Children n = [])) as Hg by (intros (E1 & E2 & _); by rewrite E1, E2 in Eg).
      destruct (holdsOne _ _ || holdsOne _ _); split; [intros [= <-]; auto|by intros [_ ->]|done|by intros [[?|?] _]].
    + apply orb_false_iff in Eg as [E1 E2]. destruct (n_Permissions n); [|done]. destruct (n_Gate n); [|done].
      destruct (n_Children n); split; [intros [= <-]; auto|by intros [_ ->]|done|by intros [[?|(_ & _ & ?)] _]].
Qed.
End Filter.

Section Reached.
Variable held : string → bool.

(** What stays is what the person reaches, in order, each node with what stays below it. *)
Lemma Filter_exact nodes n' : n' ∈ Filter held nodes ↔ ∃ n, n ∈ nodes ∧ reaches held n ∧ n' = cut held n.
Proof. unfold Filter. rewrite list_elem_of_omap. by setoid_rewrite filterNode_spec. Qed.

(** Filtering again changes nothing. *)
Lemma Filter_idem nodes : Filter held (Filter held nodes) = Filter held nodes.
Proof.
  assert (∀ n n', filterNode held n = Some n' → filterNode held n' = Some n') as Hstay.
  { induction n as [n IH] using Node_tree_ind. intros n' [Hr ->]%filterNode_spec. apply filterNode_spec.
    assert (Filter held (Filter held (n_Children n)) = Filter held (n_Children n)) as Hf.
    { clear Hr. induction IH as [|c l Hc _ IHl]; [done|]. unfold Filter in *. cbn. destruct (filterNode held c) eqn:E; [|done].
      cbn. by rewrite (Hc _ eq_refl), IHl. }
    split; [|unfold cut at 2; change (n_Children (cut held n)) with (Filter held (n_Children n)); by rewrite Hf].
    inversion Hr as [? c Hq Hc Hrc|? p Hq Hp Hh|? Hq H1 H2 H3]; subst.
    - apply (reach_child _ _ (cut held c)); [done| |].
      + apply Filter_exact. by exists c.
      + rewrite Forall_forall in IH. by apply (filterNode_spec held (cut held c) (cut held c)), (IH c Hc), filterNode_spec.
    - by eapply reach_own.
    - apply reach_static; [done..|]. cbn. by rewrite H3. }
  unfold Filter. induction nodes as [|n nodes IH]; [done|]. cbn. destruct (filterNode held n) eqn:E; [|done]. cbn. by rewrite (Hstay _ _ E), IH.
Qed.

(** Who holds more reaches at least as much. *)
Lemma reaches_mono (held' : string → bool) n : (∀ p, held p = true → held' p = true) → reaches held n → reaches held' n.
Proof.
  intros Hle. assert (∀ l, holdsAll l held = true → holdsAll l held' = true) as Hall.
  { intros l. unfold holdsAll. rewrite !forallb_elem. eauto. }
  induction 1; [by eapply reach_child; eauto|by eapply reach_own; eauto|by apply reach_static; eauto].
Qed.
End Reached.

(** *** What the check accepts *)

(** A node of the tree, at whatever depth. *)
Inductive within (nodes : list Node) : Node → Prop :=
| within_top n : n ∈ nodes → within nodes n
| within_below n c : within nodes n → c ∈ n_Children n → within nodes c.

Section Accepted.
Variable ParseURL : string → option (string * string).

Lemma validateNode_eq n :
  validateNode ParseURL n = match refusal ParseURL n with Some err => Some err | None => Validate ParseURL (n_Children n) end.
Proof.
  destruct n as [? ? ? ? cs ? ? ?]. cbn [validateNode n_Children]. destruct (refusal _ _); [done|]. induction cs as [|c cs IH]; [done|].
  cbn [Validate]. destruct (validateNode ParseURL c); [done|exact IH].
Qed.

Lemma Validate_top nodes : Validate ParseURL nodes = None ↔ ∀ n, n ∈ nodes → validateNode ParseURL n = None.
Proof.
  induction nodes as [|n nodes IH]; [split; [intros _ n []%elem_of_nil|done]|]. cbn [Validate]. setoid_rewrite elem_of_cons.
  destruct (validateNode ParseURL n) eqn:E; [split; [done|]; intros H; rewrite <-(H n); eauto|]. rewrite IH. naive_solver.
Qed.

(** A menu is accepted exactly when no node of it, at whatever depth, is refused. *)
Lemma Validate_exact nodes : Validate ParseURL nodes = None ↔ ∀ n, within nodes n → refusal ParseURL n = None.
Proof.
  assert (∀ n, validateNode ParseURL n = None ↔ ∀ c, within [n] c → refusal ParseURL c = None) as Hnode.
  { induction n as [n IH] using Node_tree_ind. rewrite validateNode_eq. rewrite Forall_forall in IH.
    assert (∀ c, within [n] c ↔ c = n ∨ ∃ k, k ∈ n_Children n ∧ within [k] c) as Hw.
    { intros c. split.
      - induction 1 as [c ->%list_elem_of_singleton|m c _ [->|(k & Hk & Hm)] Hc]; [by left| |];
          right; [exists c; split; [done|]; by constructor; left|exists k; split; [done|]; by eapply within_below].
      - intros [->|(k & Hk & Hc)]; [by constructor; left|]. induction Hc as [c ->%list_elem_of_singleton|m c _ IHm Hc]; [|by eapply within_below].
        eapply within_below; [|exact Hk]. by constructor; left. }
    destruct (refusal ParseURL n) eqn:E.
    - split; [done|]. intros H. rewrite <-E. apply H, Hw. by left.
    - rewrite Validate_top. setoid_rewrite Hw. split.
      + intros H c [->|(k & Hk & Hc)]; [done|]. by apply (IH k Hk); [apply H|].
      + intros H k Hk. apply (IH k Hk). intros c Hc. apply H. right. eauto. }
  rewrite Validate_top. setoid_rewrite Hnode.
  assert (∀ c, within nodes c ↔ ∃ n, n ∈ nodes ∧ within [n] c) as Hw.
  { intros c. split.
    - induction 1 as [c Hc|m c _ (n & Hn & Hm) Hc]; [exists c; split; [done|]; by constructor; left|]. exists n. split; [done|]. by eapply within_below.
    - intros (n & Hn & Hc). induction Hc as [c ->%list_elem_of_singleton|m c _ IHm Hc]; [by constructor|by eapply within_below]. }
  setoid_rewrite Hw. naive_solver.
Qed.
End Accepted.

(** *** At a small menu *)

Definition leaf (key : string) (permissions : list string) : Node := mkNode key "" key "" [] permissions [] [].
Definition menu : list Node :=
  [leaf "static" []; mkNode "admin" "" "" "" [leaf "roles" ["role:view"]; leaf "users" ["user:view"]] [] [] [];
   mkNode "gone" "" "" "" [leaf "x" ["x:view"]] [] [] []; mkNode "gated" "" "gated" "" [] [] ["user:view"] ["extra"]].

Example menu_of_an_auditor :
  Filter (Held ["user:view"]) menu = [leaf "static" []; mkNode "admin" "" "" "" [leaf "users" ["user:view"]] [] [] []].
Proof. vm_compute. reflexivity. Qed.
