(* ===== verification/Sql.v ===== *)
(** * Statements, transactions and the outside world

    Code that talks to a database, reads the clock and watches its context. The
    tables are a value; a statement is a function of the tables that may fail
    instead; a transaction keeps all of its statements or none. What the outside
    decides (a statement that fails, the time, whether the context has ended) is
    one record of functions of the number of outside events so far. *)

From S2P Require Import Prelude Apperr.

Local Open Scope Z_scope.

Record Outside : Type := mkOutside {
  fault : nat → option error;
  clock : nat → Z;
  cancelled : nat → bool
}.

Record Env (T : Type) : Type := mkEnv { tables : T; moment : nat }.
Arguments mkEnv {_} _ _.
Arguments tables {_} _.
Arguments moment {_} _.

(** [fmt.Errorf("...: %w", err)] *)
Definition wrapped (what : string) (err : error) : error := errorf (what +:+ ": " +:+ error_text err) [err].

(** The error of a step, wrapped. *)
Definition wrapping {S A : Type} (what : string) (m : stM S error A) : stM S error A := λ s,
  match m s with (Err err, s') => (Err (wrapped what err), s') | r => r end.

(** The error of a step, changed. *)
Definition mapErr {S A : Type} (f : error → error) (m : stM S error A) : stM S error A := λ s,
  match m s with (Err err, s') => (Err (f err), s') | r => r end.

(** The result of a step that may fail, as a value. *)
Definition attempt {S A : Type} (m : stM S error A) : stM S error (result A) := λ s,
  let (r, s') := m s in (Ok r, s').

Definition check_ {S : Type} (e : option error) : stM S error () :=
  match e with Some err => throw err | None => mret () end.

(** Ordered selections by primary key. *)
Definition select_ids {V : Type} (m : gmap Z V) (p : Z → V → bool) : list Z :=
  merge_sort Z.le (omap (λ kv, if p kv.1 kv.2 then Some kv.1 else None) (map_to_list m)).

Lemma omap_cons {A B} (f : A → option B) (x : A) (l : list A) :
  omap f (x :: l) = match f x with Some y => y :: omap f l | None => omap f l end.
Proof. done. Qed.

Lemma omap_length {A B} (f : A → option B) (l : list A) : (length (omap f l) <= length l)%nat.
Proof. induction l as [|x l IH]; [done|]. rewrite omap_cons. destruct (f x); cbn [length]; lia. Qed.

Section Env.
Context {T : Type} (out : Outside).
Implicit Types e : Env T.

Definition passed e : Env T := mkEnv (tables e) (S (moment e)).

(** One statement: it fails and changes nothing, or runs. *)
Definition statement {A} (f : T → A * T) : stM (Env T) error A := λ e,
  match fault out (moment e) with
  | Some err => (Err err, passed e)
  | None => let (a, t) := f (tables e) in (Ok a, mkEnv t (S (moment e)))
  end.

Definition query {A} (f : T → A) : stM (Env T) error A := statement (λ t, (f t, t)).
Definition exec (f : T → T) : stM (Env T) error () := statement (λ t, ((), f t)).

(** [db.Transaction(fn)]: an error of the body or of the commit undoes all. *)
Definition Transaction {A} (body : stM (Env T) error A) : stM (Env T) error A := λ e,
  match body e with
  | (Err err, e') => (Err err, mkEnv (tables e) (moment e'))
  | (Ok a, e') =>
      match fault out (moment e') with
      | Some err => (Err err, mkEnv (tables e) (S (moment e')))
      | None => (Ok a, passed e')
      end
  end.

(** [clock.Now()] and [ctx.Err() != nil]. *)
Definition Now : stM (Env T) error Z := λ e, (Ok (clock out (moment e)), passed e).
Definition Done e : bool * Env T := (cancelled out (moment e), passed e).

(** A question to code outside, answered as it stands then. *)
Definition ask {A} (f : nat → outcome error A) : stM (Env T) error A := λ e, (f (moment e), passed e).

(** *** Lemmas *)

(** What a step did to the tables: [f] of them when it succeeded. *)
Definition effect {A} (m : stM (Env T) error A) (f : T → A * T) : Prop :=
  ∀ e, (∃ err, (m e).1 = Err err ∧ tables (m e).2 = tables e) ∨
       ((m e).1 = Ok (f (tables e)).1 ∧ tables (m e).2 = (f (tables e)).2).

Lemma statement_effect {A} (f : T → A * T) : effect (statement f) f.
Proof. intros e. unfold statement. destruct (fault _ _); [left; eauto|right]. by destruct (f _). Qed.

(** A transaction leaves its body's whole effect or nothing. *)
Lemma Transaction_effect {A} (body : stM (Env T) error A) (f : T → A * T) :
  (∀ e a e', body e = (Ok a, e') → (a, tables e') = f (tables e)) → effect (Transaction body) f.
Proof.
  intros Hb e. unfold Transaction. destruct (body e) as [[a|err] e'] eqn:E; [|left; eauto].
  destruct (fault _ _); [left; eauto|right]. apply Hb in E. destruct (f _). by simplify_eq.
Qed.

Lemma wrapping_effect {A} what (m : stM (Env T) error A) f : effect m f → effect (wrapping what m) f.
Proof.
  intros Hm e. unfold wrapping. destruct (Hm e) as [(err & E1 & E2)|(E1 & E2)];
    destruct (m e) as [[a|err'] e']; simplify_eq/=; [left|right]; eauto.
Qed.

(** Without faults the steps take their course. *)
Definition faultless : Prop := ∀ n, fault out n = None.

Lemma effect_faultless {A} (m : stM (Env T) error A) (f : T → A * T) e :
  effect m f → (∀ err, (m e).1 ≠ Err err) → (m e).1 = Ok (f (tables e)).1 ∧ tables (m e).2 = (f (tables e)).2.
Proof. intros Hm Hne. destruct (Hm e) as [(err & E1 & _)|?]; [by apply Hne in E1|done]. Qed.

Lemma statement_Ok {A} (f : T → A * T) e :
  faultless → statement f e = (Ok (f (tables e)).1, mkEnv (f (tables e)).2 (S (moment e))).
Proof. intros Hf. unfold statement. rewrite Hf. by destruct (f _). Qed.
End Env.

Lemma wrapping_Ok {S A : Type} what (m : stM S error A) s a s' :
  wrapping what m s = (Ok a, s') ↔ m s = (Ok a, s').
Proof. unfold wrapping. destruct (m s) as [[]]; naive_solver. Qed.

Lemma wrapping_Err {S A : Type} what (m : stM S error A) s err s' :
  wrapping what m s = (Err err, s') ↔ ∃ err0, m s = (Err err0, s') ∧ err = wrapped what err0.
Proof. unfold wrapping. destruct (m s) as [[]]; naive_solver. Qed.

Lemma wrapped_Is what err sentinel : errors_Is (wrapped what err) sentinel = errors_Is err sentinel.
Proof. cbn. by rewrite orb_false_r. Qed.

(** *** Selections *)
Section Select.
Context {V : Type}.
Implicit Types (m : gmap Z V) (p : Z → V → bool).

Lemma elem_of_select m p k : k ∈ select_ids m p ↔ ∃ v, m !! k = Some v ∧ p k v = true.
Proof.
  unfold select_ids. rewrite merge_sort_Permutation, list_elem_of_omap. split.
  - intros ([k' v] & Hm%elem_of_map_to_list & Hp). cbn in Hp. case_match; simplify_eq. eauto.
  - intros (v & Hm & Hp). exists (k, v). split; [by apply elem_of_map_to_list|]. cbn. by rewrite Hp.
Qed.

Lemma NoDup_select m p : NoDup (select_ids m p).
Proof.
  unfold select_ids. rewrite merge_sort_Permutation.
  assert (∀ l : list (Z * V), NoDup l.*1 →
    NoDup (omap (λ kv, if p kv.1 kv.2 then Some kv.1 else None) l)) as H; [|apply H, NoDup_fst_map_to_list].
  induction l as [|[k v] l IH]; cbn; [constructor|]. intros [Hk Hl]%list.NoDup_cons.
  destruct (p k v); [|by apply IH]. constructor; [|by apply IH]. rewrite list_elem_of_omap.
  intros ([k' v'] & Hin & Hp). cbn in Hp. case_match; simplify_eq. apply Hk, list_elem_of_fmap.
  by exists (k, v').
Qed.

Lemma Sorted_select m p : StronglySorted Z.le (select_ids m p).
Proof. apply (StronglySorted_merge_sort _). Qed.

Lemma select_length m p : (length (select_ids m p) <= size m)%nat.
Proof.
  unfold select_ids. rewrite merge_sort_Permutation.
  rewrite <-(length_map_to_list m). induction (map_to_list m) as [|[k v] l IH]; cbn; [done|].
  destruct (p k v); cbn; lia.
Qed.
End Select.
