(* ===== verification/Rows.v ===== *)
(** * Tables of rows with an id

    Rows by primary key with the next id of AUTO_INCREMENT; inserting, changing and
    deleting them, and what selections hold afterwards. *)

From S2P Require Import Prelude Apperr Sql.

Local Open Scope Z_scope.

(** Rows by id, with the next id. *)
Record rows_of (A : Type) : Type := mkRows { ro_rows : gmap Z A; ro_next : Z }.
Arguments mkRows {_} _ _.
Arguments ro_rows {_} _.
Arguments ro_next {_} _.

Definition insert_row {A} (r : rows_of A) (a : A) : rows_of A := mkRows (<[ro_next r := a]> (ro_rows r)) (ro_next r + 1).
Definition alter_row {A} (f : A → A) (id : Z) (r : rows_of A) : rows_of A := mkRows (alter f id (ro_rows r)) (ro_next r).
Definition without_rows {A} (ids : list Z) (r : rows_of A) : rows_of A := mkRows (filter (λ kv, kv.1 ∉ ids) (ro_rows r)) (ro_next r).
Definition ids_where {A} (r : rows_of A) (p : Z → A → bool) : list Z := select_ids (ro_rows r) p.

(** ** Counting *)

(** How many rows satisfy a test. *)
Definition tally {A} (r : rows_of A) (p : A → bool) : Z := Z.of_nat (size (filter (λ kv : Z * A, p kv.2 = true) (ro_rows r))).

Definition ids_used {A} (r : rows_of A) : Prop := 1 <= ro_next r ∧ ∀ id a, ro_rows r !! id = Some a → 1 <= id < ro_next r.

Lemma tally_insert {A} (r : rows_of A) (a : A) p : ids_used r → tally (insert_row r a) p = tally r p + (if p a then 1 else 0).
Proof.
  intros [_ Hu]. assert (ro_rows r !! ro_next r = None) as Hn by (destruct (ro_rows r !! _) eqn:E; [apply Hu in E; lia|done]).
  unfold tally, insert_row. cbn [ro_rows]. destruct (p a) eqn:E.
  - rewrite map_filter_insert_True by done. rewrite map_size_insert_None; [lia|]. apply map_lookup_filter_None. by left.
  - rewrite map_filter_insert_not' by (done || naive_solver congruence). lia.
Qed.

Lemma ids_used_insert {A} (r : rows_of A) (a : A) : ids_used r → ids_used (insert_row r a).
Proof.
  intros [H1 Hu]. split; [cbn; lia|]. cbn. intros id b [[<- _]|[_ E]]%lookup_insert_Some; [lia|]. apply Hu in E. lia.
Qed.

Lemma ids_used_alter {A} f id (r : rows_of A) : ids_used r → ids_used (alter_row f id r).
Proof.
  intros [H1 Hu]. split; [done|]. cbn. intros i a E. apply lookup_alter_Some in E as [(<- & b & E & _)|[_ E]]; eauto.
Qed.

Lemma ids_used_without {A} ids (r : rows_of A) : ids_used r → ids_used (without_rows ids r).
Proof. intros [H1 Hu]. split; [done|]. cbn. intros i a [E _]%map_lookup_filter_Some. eauto. Qed.

Lemma tally_without {A} ids (r : rows_of A) p : tally (without_rows ids r) p <= tally r p.
Proof.
  unfold tally. apply inj_le, map_subseteq_size, map_subseteq_spec. intros id a [[E _]%map_lookup_filter_Some Hp]%map_lookup_filter_Some.
  by apply map_lookup_filter_Some.
Qed.

Lemma tally_none {A} (r : rows_of A) p : (∀ k a, ro_rows r !! k = Some a → p a = false) → tally r p = 0.
Proof.
  intros H. unfold tally. rewrite (proj2 (map_empty_filter _ _)); [done|]. intros k a Hk. cbn. by rewrite (H k a Hk).
Qed.

(** ** Selections *)

Lemma in_drop (l : list Z) k x : NoDup l → (x ∈ drop k l ↔ x ∈ l ∧ x ∉ take k l).
Proof.
  intros Hn. rewrite <-(take_drop k l) in Hn |- * at 1. apply list.NoDup_app in Hn as (_ & Hd & _). rewrite (take_drop k l) at 1.
  rewrite <-(take_drop k l) at 2. rewrite elem_of_app. naive_solver.
Qed.

Lemma sorted_eq (l l' : list Z) : StronglySorted Z.le l → StronglySorted Z.le l' → NoDup l → NoDup l' → (∀ x, x ∈ l ↔ x ∈ l') → l = l'.
Proof. intros Hs Hs' Hn Hn' H. apply (StronglySorted_unique Z.le); [done..|]. by apply NoDup_Permutation. Qed.

Lemma sorted_drop (l : list Z) k : StronglySorted Z.le l → StronglySorted Z.le (drop k l).
Proof. intros H. rewrite <-(take_drop k l) in H. by eapply StronglySorted_app_1_r. Qed.

Lemma sorted_last (l : list Z) x z : StronglySorted Z.le l → list.last l = Some z → x ∈ l → x <= z.
Proof.
  intros Hs Hz. revert z Hz. induction Hs as [|y l Hs IH Hy]; intros z Hz Hx; [done|]. apply elem_of_cons in Hx as [->|Hx].
  - rewrite list.Forall_forall in Hy. destruct l as [|w l]; [by injection Hz as ->|]. apply Hy. by apply last_Some_elem_of.
  - apply IH; [|done]. destruct l; [by apply not_elem_of_nil in Hx|done].
Qed.

(** The elements up to the last one taken are those taken. *)
Lemma taken_up_to (l : list Z) k z x : StronglySorted Z.le l → NoDup l → list.last (take k l) = Some z → x ∈ l → (x <= z ↔ x ∈ take k l).
Proof.
  intros Hs Hn Hz Hx. pose proof Hs as Hs'. pose proof Hn as Hn'. rewrite <-(take_drop k l) in Hs', Hn'. split.
  - intros Hle. destruct (decide (x ∈ take k l)) as [|H]; [done|]. exfalso.
    assert (x ∈ drop k l) as Hd by (by apply in_drop). assert (z ∈ take k l) as Hzi by (by apply last_Some_elem_of).
    pose proof (StronglySorted_app_1_elem_of _ _ _ z x Hs' Hzi Hd) as Hzx. assert (x = z) as -> by lia. done.
  - intros H. eapply sorted_last; [by eapply StronglySorted_app_1_l|done..].
Qed.

Lemma take_more {A} (l : list A) k b : take (k + length (take b (drop k l))) l = take k l ++ take b (drop k l).
Proof.
  rewrite <-take_take_drop. f_equal. rewrite length_take. destruct (Nat.min_spec b (length (drop k l))) as [[_ ->]|[H ->]]; [done|].
  by rewrite !take_ge by lia.
Qed.

(** What a selection still holds once its first rows are gone. *)
Lemma ids_where_drop {A} (r r' : rows_of A) p p' k :
  (∀ id, id ∈ ids_where r' p' ↔ id ∈ ids_where r p ∧ id ∉ take k (ids_where r p)) → ids_where r' p' = drop k (ids_where r p).
Proof.
  intros H. apply sorted_eq; [apply Sorted_select|apply sorted_drop, Sorted_select|apply NoDup_select| |].
  - eapply sublist_NoDup; [apply (NoDup_select (ro_rows r) p)|apply sublist_drop].
  - intros x. rewrite H, in_drop; [done|apply NoDup_select].
Qed.

Lemma without_rows_nil {A} (r : rows_of A) : without_rows [] r = r.
Proof.
  destruct r as [m n]. unfold without_rows. cbn. f_equal. apply map_filter_id. intros i x _. cbn. apply not_elem_of_nil.
Qed.

Lemma without_rows_app {A} (r : rows_of A) a b : without_rows b (without_rows a r) = without_rows (a ++ b) r.
Proof.
  unfold without_rows. cbn. f_equal. apply map_eq. intros i. apply option_eq. intros x. rewrite !map_lookup_filter_Some. cbn. set_solver.
Qed.

Lemma elem_of_without {A} ids (r : rows_of A) p id : id ∈ ids_where (without_rows ids r) p ↔ id ∉ ids ∧ ∃ a, ro_rows r !! id = Some a ∧ p id a = true.
Proof. unfold ids_where. rewrite elem_of_select. cbn. setoid_rewrite map_lookup_filter_Some. naive_solver. Qed.

(** The rows a DELETE finds among those just selected. *)
Lemma deleted_length {A} (r : rows_of A) ids : NoDup ids → (∀ id, id ∈ ids → is_Some (ro_rows r !! id)) →
  length (ids_where r (λ id _, contains ids id)) = length ids.
Proof.
  intros Hn Hin. apply Permutation_length, NoDup_Permutation; [apply NoDup_select|done|]. intros id. unfold ids_where. rewrite elem_of_select.
  setoid_rewrite contains_spec. split; [naive_solver|]. intros H. destruct (Hin id H) as [a Ha]. eauto.
Qed.

(** ** Unique columns *)

(** No two rows have the same value of [f]. *)
Definition unique_by {A K} (f : A → K) (r : rows_of A) : Prop :=
  ∀ i j a b, ro_rows r !! i = Some a → ro_rows r !! j = Some b → f a = f b → i = j.

Lemma unique_insert {A K} (f : A → K) (r : rows_of A) a : unique_by f r → (∀ i b, ro_rows r !! i = Some b → f b ≠ f a) → unique_by f (insert_row r a).
Proof.
  intros Hu Hn i j x y. cbn. intros [[<- <-]|[Hi Hx]]%lookup_insert_Some [[<- <-]|[Hj Hy]]%lookup_insert_Some E; [done|..].
  - by apply Hn in Hy.
  - by apply Hn in Hx.
  - by eapply Hu.
Qed.

(** ** Rows that change in place, or go *)

Definition changes {A} (R : A → A → Prop) (r r' : rows_of A) : Prop :=
  ro_next r' = ro_next r ∧ ∀ i a', ro_rows r' !! i = Some a' → ∃ a, ro_rows r !! i = Some a ∧ R a a'.

Lemma unique_changes {A K} (f : A → K) (r r' : rows_of A) : unique_by f r → changes (λ a a', f a' = f a) r r' → unique_by f r'.
Proof.
  intros Hu [_ H] i j a b Ha Hb E. destruct (H i a Ha) as (a0 & Ha0 & Ea), (H j b Hb) as (b0 & Hb0 & Eb). eapply Hu; [done..|congruence].
Qed.

Lemma ids_used_changes {A} R (r r' : rows_of A) : ids_used r → changes R r r' → ids_used r'.
Proof. intros [H1 Hu] [Hn H]. split; rewrite Hn; [done|]. intros i a Ha. destruct (H i a Ha) as (b & Hb & _). eauto. Qed.

Lemma changes_weaken {A} (R R' : A → A → Prop) (r r' : rows_of A) : changes R r r' → (∀ a a', R a a' → R' a a') → changes R' r r'.
Proof. intros [Hn H] HR. split; [done|]. intros i a Ha. destruct (H i a Ha) as (b & Hb & E). eauto. Qed.

Lemma changes_alter {A} (R : A → A → Prop) f id (r : rows_of A) : (∀ a, R a a) → (∀ a, R a (f a)) → changes R r (alter_row f id r).
Proof.
  intros HR Hf. split; [done|]. cbn. intros i a' H. apply lookup_alter_Some in H as [(<- & a & Ha & ->)|[_ Ha]]; eauto.
Qed.

Lemma changes_without {A} (R : A → A → Prop) ids (r : rows_of A) : (∀ a, R a a) → changes R r (without_rows ids r).
Proof. intros HR. split; [done|]. cbn. intros i a [Ha _]%map_lookup_filter_Some. eauto. Qed.

Lemma changes_map {A} (R : A → A → Prop) (f : Z → A → A) (r : rows_of A) : (∀ i a, R a (f i a)) →
  changes R r (mkRows (map_imap (λ i a, Some (f i a)) (ro_rows r)) (ro_next r)).
Proof.
  intros HR. split; [done|]. cbn. intros i a'. rewrite map_lookup_imap. destruct (ro_rows r !! i) as [a|] eqn:E; [|done]. cbn. intros [= <-]. eauto.
Qed.

Lemma changes_fmap {A} (R : A → A → Prop) (f : A → A) (r : rows_of A) : (∀ a, R a (f a)) → changes R r (mkRows (f <$> ro_rows r) (ro_next r)).
Proof. intros HR. split; [done|]. cbn. intros i a' (a & <- & Ha)%lookup_fmap_Some. eauto. Qed.

Lemma ids_where_nil {A} (r : rows_of A) (p : Z → A → bool) : ids_where r p = [] ↔ ∀ i a, ro_rows r !! i = Some a → p i a = false.
Proof.
  split.
  - intros E i a Ha. destruct (p i a) eqn:Hp; [|done]. assert (i ∈ ids_where r p) as H by (apply elem_of_select; eauto). rewrite E in H. by apply not_elem_of_nil in H.
  - intros H. apply elem_of_nil_inv. intros i (a & Ha & Hp)%elem_of_select. by rewrite (H i a Ha) in Hp.
Qed.

(** No row with a value: what a failed search says. *)
Lemma none_with {A K} `{EqDecision K} (f : A → K) (r : rows_of A) k :
  ids_where r (λ _ a, bool_decide (f a = k)) = [] ↔ ∀ i a, ro_rows r !! i = Some a → f a ≠ k.
Proof.
  rewrite ids_where_nil. split; intros H i a Ha.
  - by apply (bool_decide_eq_false_1 _), (H i).
  - by apply bool_decide_eq_false_2, (H i).
Qed.
