(* ===== verification/Queue.v ===== *)
(** * The event queue (src/event)

    The transactional outbox: [Publish] writes an event beside the write it
    reports; every consumer claims the events of its type, handles them, and
    records the outcome: done, retried after a delay, or set aside as a dead
    letter. A housekeeper deletes what is finished; dead letters can be retried.

    The two tables are maps by primary key and each query or update is its
    meaning on them. JSON is encoded and decoded by arguments. A handler is the
    application's: it answers an error, nil or a panic, and does not write these
    tables. A time in a column is kept as written. *)

From Stdlib Require Import Ascii.
From S2P Require Import Prelude Apperr Clock Sql.

Local Open Scope Z_scope.

(** ** Tables *)

Record OutboxEvent : Type := mkOutboxEvent {
  o_ID : Z;
  o_RequestID : string;
  o_Source : string;
  o_EventType : string;
  o_Envelope : string;
  o_CreatedAt : Z;
  o_ProcessedAt : option Z
}.

Record attemptRow : Type := mkAttemptRow {
  EventID : Z;
  Consumer_ : string;
  Attempts : Z;
  NextAttemptAt : Z;
  LastError : string;
  DoneAt : option Z;
  DeadAt : option Z;
  UpdatedAt : Z
}.

(** Both tables, and the last id the outbox gave out. *)
Record Tables : Type := mkTables {
  outbox : gmap Z OutboxEvent;
  attempts : gmap (Z * string) attemptRow;
  lastID : Z
}.

Definition set_outbox (t : Tables) (o : gmap Z OutboxEvent) : Tables := mkTables o (attempts t) (lastID t).
Definition set_attempts (t : Tables) (a : gmap (Z * string) attemptRow) : Tables := mkTables (outbox t) a (lastID t).

Definition set_processed (at_ : option Z) (o : OutboxEvent) : OutboxEvent :=
  mkOutboxEvent (o_ID o) (o_RequestID o) (o_Source o) (o_EventType o) (o_Envelope o) (o_CreatedAt o) at_.

(** [done_at IS NOT NULL OR dead_at IS NOT NULL] *)
Definition finished (a : attemptRow) : bool := bool_decide (DoneAt a ≠ None) || bool_decide (DeadAt a ≠ None).

Definition batchSize : nat := 50.
Definition claimLease : Z := 5 * Time.Minute.
Definition maxErrorRunes : nat := 500.

(** [t.Truncate(time.Second)] *)
Definition whole (t : Z) : Z := t - t mod Time.Second.

Definition truncateError (s : string) : string :=
  let r := Utf8.runes s in
  if bool_decide (maxErrorRunes < length r)%nat then Utf8.of_runes (take maxErrorRunes r) else s.

(** ** Events and consumers (typed.go, envelope.go) *)

Record Envelope : Type := mkEnvelope {
  Version : string;
  RequestID : string;
  Timestamp : Z;
  Source : string;
  Payload : string
}.

Definition DefaultEventSource : string := "go-core".

Record Event : Type := mkEvent { ev_name : string; ev_version : Z }.

Definition Define (name : string) : Event := mkEvent name 1.
Definition withVersion (e : Event) (n : Z) : Event := mkEvent (ev_name e) n.

Record retryPolicy : Type := mkRetry { r_attempts : Z; firstDelay : Z; maxDelay : Z }.
Definition defaultRetry : retryPolicy := mkRetry 5 (5 * Time.Second) (30 * Time.Minute).

(** [RetryOption]s. *)
Definition RetryOption : Type := retryPolicy → retryPolicy.
Definition AttemptsOption (n : Z) : RetryOption := λ p, mkRetry n (firstDelay p) (maxDelay p).
Definition Backoff (first longest : Z) : RetryOption := λ p, mkRetry (r_attempts p) first longest.

(** The doubling of [delay], at most [n] times; the multiplication is int64's. *)
Fixpoint doubled (n : nat) (longest d : Z) : Z :=
  match n with
  | O => d
  | S n' => if d <? longest then doubled n' longest (Int64.wrap (d * 2)) else d
  end.

Definition delay (p : retryPolicy) (failures : Z) : Z :=
  Z.min (doubled (Z.to_nat (failures - 1)) (maxDelay p) (firstDelay p)) (maxDelay p).

(** How a handler ended. *)
Inductive handled : Type :=
| Returned (err : option error)
| Panicked (value : string).

(** [handle] is given how many outside events came before, the event's id (the
    context carries it) and the payload. *)
Record Consumer : Type := mkConsumer {
  c_name : string;
  c_event : string;
  c_version : Z;
  c_payload : string;
  c_retry : retryPolicy;
  c_handle : nat → Z → string → handled
}.

Definition Retry_ (c : Consumer) (opts : list RetryOption) : Consumer :=
  mkConsumer (c_name c) (c_event c) (c_version c) (c_payload c) (foldl (λ p o, o p) (c_retry c) opts) (c_handle c).

Definition ErrMalformed : string := "malformed event".

Definition malformed (what : string) (err : error) : error :=
  errorf (ErrMalformed +:+ ": " +:+ what +:+ ": " +:+ error_text err) [errNew ErrMalformed; err].

(** [To]: [typeName] names the payload's type, [unmarshal] decodes it. *)
Definition To {P : Type} (e : Event) (typeName : string) (unmarshal : string → result P) (consumer : string)
    (handler : nat → Z → P → handled) : Consumer :=
  mkConsumer consumer (ev_name e) (ev_version e) typeName defaultRetry
    (λ n id raw,
       match unmarshal raw with
       | Err err => Returned (Some (malformed "payload" err))
       | Ok payload => handler n id payload
       end).

(** ** What is wrong with a set of consumers *)

Record Problem : Type := mkProblem { What : string; Fix : string }.

(** [^[a-z][a-z0-9]*([.-][a-z0-9]+)*$]: inside a word, or right after a separator. *)
Definition isWordChar (c : ascii) : bool := Str.is_lower c || Str.is_digit c.
Definition isSeparator (c : ascii) : bool := (Str.code c =? 46) || (Str.code c =? 45).

Fixpoint name_rest (inWord : bool) (s : string) : bool :=
  match s with
  | EmptyString => inWord
  | String c s' => if isWordChar c then name_rest true s' else isSeparator c && inWord && name_rest false s'
  end.

Definition namePattern (s : string) : bool :=
  match s with String c s' => Str.is_lower c && name_rest true s' | EmptyString => false end.

Definition retryWorks (p : retryPolicy) : bool :=
  (1 <=? r_attempts p) && (0 <? firstDelay p) && (firstDelay p <=? maxDelay p).

(** [Consumer.problems] *)
Definition dq : string := String (ascii_of_nat 34) "".
Definition consumer_problems (c : Consumer) : list Problem :=
  (if namePattern (c_event c) then [] else
     [mkProblem ("event name " +:+ Str.fmt_q (c_event c) +:+ " is not lower-case words joined by dots or dashes")
        ("rename it in event.Define, for example " +:+ dq +:+ "tickets.assigned" +:+ dq)]) ++
  (if namePattern (c_name c) && bool_decide (String.length (c_name c) <= 100)%nat then [] else
     [mkProblem ("consumer name " +:+ Str.fmt_q (c_name c) +:+
                   " is not lower-case words joined by dots or dashes, at most 100 characters")
        ("fix the first argument of To, for example " +:+ dq +:+ "notifications.assignee" +:+ dq)]) ++
  (if c_version c <? 1 then
     [mkProblem ("event " +:+ Str.fmt_q (c_event c) +:+ " has version " +:+ Str.fmt_d (c_version c))
        "versions start at 1: drop the Version call or pass 2 or more"] else []) ++
  (if retryWorks (c_retry c) then [] else
     [mkProblem ("consumer " +:+ Str.fmt_q (c_name c) +:+ " has a retry policy that cannot work")
        "Attempts needs at least 1, and Backoff a positive first delay not above the longest"]).

(** One round of the loop of [Problems]. *)
Definition twiceNamed (c : Consumer) : Problem :=
  mkProblem ("two consumers are named " +:+ Str.fmt_q (c_name c))
    "the queue keeps attempts per consumer name, so give each its own".
Definition twiceDefined (f c : Consumer) : Problem :=
  mkProblem ("event " +:+ Str.fmt_q (c_event c) +:+ " is defined twice, as " +:+ c_payload f +:+ " v" +:+
               Str.fmt_d (c_version f) +:+ " and as " +:+ c_payload c +:+ " v" +:+ Str.fmt_d (c_version c))
    "declare it once and share the value, or give the second its own name".
Definition sameEvent (f c : Consumer) : bool :=
  (c_version f =? c_version c) && bool_decide (c_payload f = c_payload c).

Fixpoint problems_loop (byName : gset string) (first : gmap string Consumer) (cs : list Consumer) : list Problem :=
  match cs with
  | [] => []
  | c :: rest =>
      consumer_problems c ++
      (if decide (c_name c ∈ byName) then [twiceNamed c] else []) ++
      (match first !! c_event c with
       | Some f => if sameEvent f c then [] else [twiceDefined f c]
       | None => []
       end) ++
      problems_loop ({[c_name c]} ∪ byName)
        (match first !! c_event c with Some _ => first | None => <[c_event c := c]> first end) rest
  end.

Definition Problems (cs : list Consumer) : list Problem := problems_loop ∅ ∅ cs.

(** ** Claiming (queue.go) *)

Record claimedEvent : Type := mkClaimed { ce_ID : Z; ce_EventType : string; ce_Envelope : string; ce_Attempts : Z }.

(** The condition of the first select of [claim]. *)
Definition is_due (t : Tables) (consumer eventName : string) (now id : Z) (o : OutboxEvent) : bool :=
  bool_decide (o_ProcessedAt o = None) && bool_decide (o_EventType o = eventName) &&
  match attempts t !! (id, consumer) with
  | None => true
  | Some a => negb (finished a) && (NextAttemptAt a <=? now)
  end.

Definition due_ids (t : Tables) (consumer eventName : string) (now : Z) : list Z :=
  select_ids (outbox t) (is_due t consumer eventName now).

(** SELECT id, event_type, envelope WHERE id IN ? AND processed_at IS NULL ORDER BY id FOR UPDATE *)
Definition lock_due (candidates : list Z) (t : Tables) : list claimedEvent :=
  omap (λ id, (λ o, mkClaimed id (o_EventType o) (o_Envelope o) 0) <$> outbox t !! id)
    (select_ids (outbox t) (λ id o, contains candidates id && bool_decide (o_ProcessedAt o = None))).

(** SELECT * WHERE consumer = ? AND event_id IN ?, keyed by event. *)
Definition attempts_of (consumer : string) (ids : list Z) (t : Tables) : gmap Z attemptRow :=
  list_to_map (omap (λ id, (id,.) <$> attempts t !! (id, consumer)) ids).

(** The loop of [lease]: what is still due, with the attempts so far. *)
Definition claimable (byEvent : gmap Z attemptRow) (now : Z) (c : claimedEvent) : option claimedEvent :=
  match byEvent !! ce_ID c with
  | Some a => if finished a || Time.After (NextAttemptAt a) now then None
              else Some (mkClaimed (ce_ID c) (ce_EventType c) (ce_Envelope c) (Attempts a))
  | None => Some (mkClaimed (ce_ID c) (ce_EventType c) (ce_Envelope c) 0)
  end.

Definition leaseRow (consumer : string) (now leaseUntil : Z) (c : claimedEvent) : attemptRow :=
  mkAttemptRow (ce_ID c) consumer (ce_Attempts c) leaseUntil "" None None now.

(** INSERT ... ON CONFLICT (event_id, consumer) UPDATE next_attempt_at, updated_at *)
Definition upsertLease (t : Tables) (row : attemptRow) : Tables :=
  let key := (EventID row, Consumer_ row) in
  set_attempts t (<[key :=
    match attempts t !! key with
    | Some a => mkAttemptRow (EventID a) (Consumer_ a) (Attempts a) (NextAttemptAt row) (LastError a) (DoneAt a) (DeadAt a)
                  (UpdatedAt row)
    | None => row
    end]> (attempts t)).

(** INSERT ... ON CONFLICT (event_id, consumer) UPDATE every other column. *)
Definition upsertOutcome (row : attemptRow) (t : Tables) : Tables :=
  set_attempts t (<[(EventID row, Consumer_ row) := row]> (attempts t)).

(** SELECT COUNT WHERE event_id = ? AND consumer IN ? AND (done_at IS NOT NULL OR dead_at IS NOT NULL) *)
Definition countFinished (id : Z) (siblings : list string) (t : Tables) : nat :=
  length (List.filter (λ c, match attempts t !! (id, c) with Some a => finished a | None => false end)
            (remove_dups siblings)).

(** UPDATE outbox_events SET processed_at = ? WHERE id = ? *)
Definition markProcessed (id : Z) (at_ : option Z) (t : Tables) : Tables :=
  set_outbox t (alter (set_processed at_) id (outbox t)).

Definition joinErrors (errs : list (option error)) : option error :=
  match omap id errs with
  | [] => None
  | es => Some (errorf (Str.join (String (ascii_of_nat 10) "") (error_text <$> es)) es)
  end.

Section Queue.
Variable out : Outside.
Notation M := (stM (Env Tables) error).

Definition lease (consumer : string) (candidates : list Z) (now leaseUntil : Z) : M (list claimedEvent) :=
  match candidates with
  | [] => mret []
  | _ =>
      wrapping ("claim events for " +:+ Str.fmt_q consumer) (Transaction out (
        locked ← wrapping "lock due events" (query out (lock_due candidates));
        match locked with
        | [] => mret []
        | _ =>
            byEvent ← wrapping "read attempts" (query out (attempts_of consumer (ce_ID <$> locked)));
            match omap (claimable byEvent now) locked with
            | [] => mret []
            | claimed =>
                _ ← wrapping "lease due events"
                      (exec out (λ t, foldl upsertLease t (leaseRow consumer now leaseUntil <$> claimed)));
                mret claimed
            end
        end))
  end.

Definition claim (consumer eventName : string) (now leaseUntil : Z) (limit : nat) : M (list claimedEvent) :=
  candidates ← wrapping "select due events" (query out (λ t, take limit (due_ids t consumer eventName now)));
  lease consumer candidates now leaseUntil.

Definition finish (row : attemptRow) (siblings : list string) : M () :=
  wrapping ("record event " +:+ Str.fmt_d (EventID row) +:+ " for " +:+ Str.fmt_q (Consumer_ row)) (Transaction out (
    locked ← wrapping "lock the event" (query out (λ t, bool_decide (is_Some (outbox t !! EventID row))));
    _ ← wrapping "save the outcome" (exec out (upsertOutcome row));
    if negb locked || negb (finished row) then mret ()
    else
      n ← wrapping "count finished consumers" (query out (countFinished (EventID row) siblings));
      if (n <? length siblings)%nat then mret ()
      else exec out (markProcessed (EventID row) (Some (UpdatedAt row))))).

(** *** One statement for every consumer

    The database orders the rows of the union as it likes: [shuffle]. *)
Definition dueParts (consumers : list Consumer) (now : Z) (limit : nat) (t : Tables) : list (Z * nat) :=
  concat ((λ ic, (λ id, (id, ic.1)) <$> take limit (due_ids t (c_name ic.2) (c_event ic.2) now)) <$> indexed consumers).

Definition collectDue (rows : list (Z * nat)) : gmap nat (list Z) :=
  merge_sort Z.le <$> foldl (λ m r, <[r.2 := default [] (m !! r.2) ++ [r.1]]> m) ∅ rows.

Definition dueFor (shuffle : list (Z * nat) → list (Z * nat)) (consumers : list Consumer) (now : Z) (limit : nat) :
    M (gmap nat (list Z)) :=
  match consumers with
  | [] => mret ∅
  | _ =>
      rows ← wrapping "select due events" (query out (λ t, shuffle (dueParts consumers now limit t)));
      mret (collectDue rows)
  end.

(** ** Handling (worker.go) *)

(** [json.Unmarshal] of an envelope. *)
Variable unmarshal : string → result Envelope.

Definition wrongVersion (env : Envelope) (c : Consumer) : error :=
  errorf (ErrMalformed +:+ ": written as version " +:+ Str.fmt_q (Version env) +:+ " but consumer " +:+
    Str.fmt_q (c_name c) +:+ " handles version " +:+ Str.fmt_d (c_version c) +:+ ": " +:+
    "keep a consumer for each version still queued, or retry it once the payload is readable") [errNew ErrMalformed].

(** [handle]; the handler is called when [n] outside events have passed. *)
Definition handle (c : Consumer) (ev : claimedEvent) (n : nat) : option error :=
  match unmarshal (ce_Envelope ev) with
  | Err err => Some (malformed "envelope" err)
  | Ok env =>
      if bool_decide (Version env ≠ Str.fmt_d (c_version c)) then Some (wrongVersion env c)
      else match c_handle c n (ce_ID ev) (Payload env) with
           | Returned err => err
           | Panicked p => Some (errNew ("handler panicked: " +:+ p))
           end
  end.

(** The row [run] writes. *)
Definition outcomeRow (c : Consumer) (ev : claimedEvent) (handleErr : option error) (now : Z) : attemptRow :=
  match handleErr with
  | None => mkAttemptRow (ce_ID ev) (c_name c) (ce_Attempts ev) now "" (Some now) None now
  | Some err =>
      let n := ce_Attempts ev + 1 in
      if errors_Is err ErrMalformed || (r_attempts (c_retry c) <=? n)
      then mkAttemptRow (ce_ID ev) (c_name c) n now (truncateError (error_text err)) None (Some now) now
      else mkAttemptRow (ce_ID ev) (c_name c) n (now + delay (c_retry c) n) (truncateError (error_text err)) None None now
  end.

Variable consumers : list Consumer.

Definition siblings (eventName : string) : list string :=
  c_name <$> List.filter (λ c, bool_decide (c_event c = eventName)) consumers.

(** The second half of [run]: the outcome is recorded; a failure to record it is
    only logged. *)
Definition conclude (c : Consumer) (ev : claimedEvent) (handleErr : option error) (e : Env Tables) : Env Tables :=
  (finish (outcomeRow c ev handleErr (whole (clock out (moment e)))) (siblings (c_event c)) (passed e)).2.

Definition run (c : Consumer) (ev : claimedEvent) (e : Env Tables) : option error * Env Tables :=
  match handle c ev (moment e) with
  | Some err =>
      let (stopped, e) := Done out (passed e) in
      if stopped then (Some err, e) else (Some err, conclude c ev (Some err) e)
  | None => (None, conclude c ev None (passed e))
  end.

Definition process (c : Consumer) (ev : claimedEvent) (e : Env Tables) : option error * Env Tables :=
  let (err, e) := run c ev e in
  (wrapped ("consumer " +:+ Str.fmt_q (c_name c) +:+ ", event " +:+ Str.fmt_d (ce_ID ev)) <$> err, e).

(** The loop of [handleAll]. *)
Fixpoint handle_loop (c : Consumer) (due : list claimedEvent) (e : Env Tables) : list (option error) * Env Tables :=
  match due with
  | [] => ([], e)
  | ev :: rest =>
      let (stopped, e) := Done out e in
      if stopped then ([], e)
      else let (err, e) := process c ev e in
           let (errs, e) := handle_loop c rest e in (err :: errs, e)
  end.

(** How many events were claimed and what the handlers returned, or the claim's
    failure. *)
Definition handleAll (c : Consumer) (claimed : result (list claimedEvent)) (e : Env Tables) :
    result (nat * list (option error)) * Env Tables :=
  match claimed with
  | Err err => (Err err, e)
  | Ok due => let (errs, e) := handle_loop c due e in (Ok (length due, errs), e)
  end.

Definition tick (c : Consumer) : M (nat * list (option error)) := λ e,
  let now := whole (clock out (moment e)) in
  let (claimed, e) := claim (c_name c) (c_event c) now (now + claimLease) batchSize (passed e) in
  handleAll c claimed e.

(** The inner loop of [Drain]; [None] when [fuel] rounds were not enough. *)
Fixpoint drain_loop (fuel : nat) (c : Consumer) (e : Env Tables) : option (list (option error) * Env Tables) :=
  match fuel with
  | O => None
  | S fuel' =>
      match tick c e with
      | (Err err, e) => Some ([Some err], e)
      | (Ok (n, errs), e) =>
          if (n <? batchSize)%nat then Some (errs, e)
          else '(errs', e) ← drain_loop fuel' c e; Some (errs ++ errs', e)
      end
  end.

Fixpoint drain_all (fuel : nat) (cs : list Consumer) (e : Env Tables) : option (list (option error) * Env Tables) :=
  match cs with
  | [] => Some ([], e)
  | c :: rest =>
      '(errs, e) ← drain_loop fuel c e;
      '(errs', e) ← drain_all fuel rest e;
      Some (errs ++ errs', e)
  end.

Definition Drain (fuel : nat) (e : Env Tables) : option (option error * Env Tables) :=
  '(errs, e) ← drain_all fuel consumers e; Some (joinErrors errs, e).

(** *** The poller and its lanes *)

(** A send on a channel of capacity one that does not wait. *)
Definition offer (lane : option (list Z)) (ids : list Z) : option (list Z) :=
  match lane with None => Some ids | Some held => Some held end.

(** One poll: every lane with something due is offered it. *)
Definition poll (shuffle : list (Z * nat) → list (Z * nat)) (lanes : gmap nat (list Z)) (e : Env Tables) :
    gmap nat (list Z) * Env Tables :=
  match dueFor shuffle consumers (whole (clock out (moment e))) batchSize (passed e) with
  | (Err _, e) => (lanes, e)
  | (Ok due, e) => (merge (λ l d, match d with Some ids => offer l ids | None => l end) lanes due, e)
  end.

(** The claims of a lane after a full batch, until one is not full. *)
Fixpoint lane_loop (fuel : nat) (c : Consumer) (e : Env Tables) : option (Env Tables) :=
  match fuel with
  | O => None
  | S fuel' =>
      let (stopped, e) := Done out e in
      if stopped then Some e
      else match tick c e with
           | (Err _, e) => Some e
           | (Ok (n, _), e) => if (batchSize <=? n)%nat then lane_loop fuel' c e else Some e
           end
  end.

(** What a lane does with one offer. *)
Definition lane (fuel : nat) (c : Consumer) (ids : list Z) (e : Env Tables) : option (Env Tables) :=
  let now := whole (clock out (moment e)) in
  let (claimed, e) := lease (c_name c) ids now (now + claimLease) (passed e) in
  match handleAll c claimed e with
  | (Err _, e) => Some e
  | (Ok (n, _), e) => if (batchSize <=? n)%nat then lane_loop fuel c e else Some e
  end.
End Queue.

(** ** Publishing *)

(** The transaction the context carries: on the outbox's database, on another
    one, or none. *)
Inductive inTransaction : Set := OutboxTx | ForeignTx | NoTx.

Definition errForeignTx : string :=
  "Publish needs a transaction on the events' database; ctx only has one on another connection".

Definition insertEvent (requestID source eventType envelope : string) (created : Z) (t : Tables) : Tables :=
  let id := lastID t + 1 in
  mkTables (<[id := mkOutboxEvent id requestID source eventType envelope created None]> (outbox t)) (attempts t) id.

Section Publish.
Variable out : Outside.
Context {P : Type}.
(** [json.Marshal] of the payload and of the envelope, the trace of the context
    and a fresh uuid. *)
Variables (marshalPayload : P → result string) (marshal : Envelope → result string).
Variables (traceID : option string) (uuid : string).

Definition publishOn (ev : Event) (payload : P) (e : Env Tables) : result () * Env Tables :=
  match marshalPayload payload with
  | Err err => (Err (wrapped ("event " +:+ Str.fmt_q (ev_name ev) +:+ ": the payload cannot be encoded as JSON") err), e)
  | Ok raw =>
      let trace := match traceID with Some t => if bool_decide (t = "") then uuid else t | None => uuid end in
      let env := mkEnvelope (Str.fmt_d (ev_version ev)) trace (clock out (moment e)) DefaultEventSource raw in
      match marshal env with
      | Err err => (Err (wrapped ("event " +:+ Str.fmt_q (ev_name ev)) err), passed e)
      | Ok body =>
          wrapping ("event " +:+ Str.fmt_q (ev_name ev) +:+ ": queue it")
            (exec out (insertEvent trace DefaultEventSource (ev_name ev) body (clock out (S (moment e)))))
            (passed (passed e))
      end
  end.

Definition Publish (tx : inTransaction) (ev : Event) (payload : P) (e : Env Tables) : result () * Env Tables :=
  match tx with
  | ForeignTx => (Err (wrapped ("event " +:+ Str.fmt_q (ev_name ev)) (errNew errForeignTx)), e)
  | NoTx => (Err (errNew ("event " +:+ Str.fmt_q (ev_name ev) +:+
      ": Publish needs the transaction of the write it reports in ctx: call it inside database.Transactor.WithinTransaction")), e)
  | OutboxTx => publishOn ev payload e
  end.
End Publish.
