(* ===== verification/Housekeeping.v ===== *)
(** * Dead letters, housekeeping and processed keys (src/event/deadletter.go,
    housekeeping.go, idempotency.go)

    The rest of the queue: listing and retrying what consumers gave up on,
    deleting what is finished, and the table that remembers processed keys. *)

From S2P Require Import Prelude Apperr Clock Sql Lease Queue.

Local Open Scope Z_scope.

(** ** Dead letters *)

Definition ErrDeadLetterNotFound : string := "dead letter not found".
Definition ErrDeadLetterEventGone : string := "the dead letter's event was pruned from the outbox".

Record DeadLetter : Type := mkDeadLetter {
  dl_EventID : Z;
  dl_Consumer : string;
  dl_EventName : string;
  dl_EventCreatedAt : option Z;
  dl_Attempts : Z;
  dl_LastError : string;
  dl_DeadAt : Z
}.

Definition Retryable (d : DeadLetter) : bool := bool_decide (dl_EventName d ≠ "").

Record DeadLetterQuery : Type := mkDeadLetterQuery { q_Consumer : string; q_Limit : Z; q_Offset : Z }.

(** A row of the list, the outbox joined loosely. *)
Definition letterOf (t : Tables) (kv : (Z * string) * attemptRow) : option DeadLetter :=
  let a := kv.2 in
  match DeadAt a with
  | None => None
  | Some dead =>
      let o := outbox t !! kv.1.1 in
      Some (mkDeadLetter kv.1.1 kv.1.2 (default "" (o_EventType <$> o)) (o_CreatedAt <$> o) (Attempts a) (LastError a) dead)
  end.

(** ORDER BY dead_at DESC, event_id DESC, consumer ASC *)
Definition letter_leb (x y : DeadLetter) : bool :=
  if dl_DeadAt x =? dl_DeadAt y then
    if dl_EventID x =? dl_EventID y then String.leb (dl_Consumer x) (dl_Consumer y)
    else dl_EventID y <? dl_EventID x
  else dl_DeadAt y <? dl_DeadAt x.

Definition letters (consumer : string) (t : Tables) : list DeadLetter :=
  List.filter (λ d, bool_decide (consumer = "") || bool_decide (dl_Consumer d = consumer))
    (omap (letterOf t) (map_to_list (attempts t))).

Definition pageLimit (q : DeadLetterQuery) : Z := Z.min (if q_Limit q <=? 0 then 25 else q_Limit q) 100.

(** UPDATE ... SET dead_at = NULL, attempts = 0, next_attempt_at, updated_at WHERE event_id = ? AND consumer = ?
    AND dead_at IS NOT NULL: the rows affected. *)
Definition revive (id : Z) (consumer : string) (now : Z) (t : Tables) : nat * Tables :=
  match attempts t !! (id, consumer) with
  | Some a =>
      if bool_decide (DeadAt a ≠ None)
      then (1%nat, set_attempts t (<[(id, consumer) := mkAttemptRow (EventID a) (Consumer_ a) 0 now (LastError a) (DoneAt a)
                                                       None now]> (attempts t)))
      else (0%nat, t)
  | None => (0%nat, t)
  end.

Section Letters.
Variable out : Outside.
Notation M := (stM (Env Tables) error).

Definition List_ (q : DeadLetterQuery) : M (list DeadLetter * nat) :=
  total ← wrapping "count dead letters" (query out (λ t, length (letters (q_Consumer q) t)));
  rows ← wrapping "list dead letters"
           (query out (λ t, take (Z.to_nat (pageLimit q)) (drop (Z.to_nat (Z.max (q_Offset q) 0))
                              (stable_sort letter_leb (letters (q_Consumer q) t)))));
  mret (rows, total).

Definition Retry (id : Z) (consumer : string) : M () := λ e,
  let now := whole (clock out (moment e)) in
  wrapping ("retry dead letter " +:+ Str.fmt_d id +:+ " of " +:+ Str.fmt_q consumer) (Transaction out (
    found ← query out (λ t, bool_decide (is_Some (outbox t !! id)));
    if negb found then throw (errNew ErrDeadLetterEventGone) else
    n ← statement out (revive id consumer now);
    if (n =? 0)%nat then throw (errNew ErrDeadLetterNotFound) else
    exec out (markProcessed id None))) (passed e).

(** The loop of [RetryAll]; both results of the Go function. *)
Fixpoint retry_loop (consumer : string) (ids : list Z) (retried : nat) (e : Env Tables) : nat * option error * Env Tables :=
  match ids with
  | [] => (retried, None, e)
  | id :: rest =>
      match Retry id consumer e with
      | (Ok _, e) => retry_loop consumer rest (S retried) e
      | (Err err, e) =>
          if errors_Is err ErrDeadLetterNotFound || errors_Is err ErrDeadLetterEventGone
          then retry_loop consumer rest retried e
          else (retried, Some err, e)
      end
  end.

(** SELECT event_id WHERE consumer = ? AND dead_at IS NOT NULL ORDER BY event_id *)
Definition dead_of (consumer : string) (t : Tables) : list Z :=
  merge_sort Z.le (omap (λ kv, if bool_decide (kv.1.2 = consumer) && bool_decide (DeadAt kv.2 ≠ None)
                               then Some kv.1.1 else None) (map_to_list (attempts t))).

Definition RetryAll (consumer : string) (e : Env Tables) : nat * option error * Env Tables :=
  match wrapping ("list dead letters of " +:+ Str.fmt_q consumer) (query out (dead_of consumer)) e with
  | (Err err, e) => (0%nat, Some err, e)
  | (Ok ids, e) => retry_loop consumer ids 0 e
  end.
End Letters.

(** ** Housekeeping *)

Definition Retention : Z := 30 * 24 * Time.Hour.
Definition pruneBatch : nat := 500.

Record Housekeeper : Type := mkHousekeeper { deadFor : Z }.

Definition KeepDeadLetters (h : Housekeeper) (d : Z) : Housekeeper := mkHousekeeper (Z.max d 0).

(** EXISTS (SELECT 1 WHERE event_id = ? AND dead_at IS NOT NULL) *)
Definition hasDead (t : Tables) (id : Z) : bool :=
  existsb (λ kv, (kv.1.1 =? id) && bool_decide (DeadAt kv.2 ≠ None)) (map_to_list (attempts t)).

Definition processedBefore (cutoff : Z) (o : OutboxEvent) : bool :=
  match o_ProcessedAt o with Some p => p <? cutoff | None => false end.

Definition prunable (t : Tables) (cutoff id : Z) (o : OutboxEvent) : bool := processedBefore cutoff o && negb (hasDead t id).

Definition deleteAttempts (doomed : list Z) (t : Tables) : Tables :=
  set_attempts t (filter (λ kv, kv.1.1 ∉ doomed) (attempts t)).
Definition deleteEvents (doomed : list Z) (t : Tables) : Tables :=
  set_outbox t (filter (λ kv, kv.1 ∉ doomed) (outbox t)).

(** dead_at IS NOT NULL AND dead_at < ? *)
Definition deadBefore (cutoff : Z) (a : attemptRow) : bool :=
  match DeadAt a with Some d => d <? cutoff | None => false end.

(** SELECT DISTINCT event_id WHERE event_id > ? AND dead_at < ? ORDER BY event_id LIMIT 500 *)
Definition dead_ids (cutoff after : Z) (t : Tables) : list Z :=
  take pruneBatch (merge_sort Z.le (elements (list_to_set (C := gset Z)
    (omap (λ kv, if (after <? kv.1.1) && deadBefore cutoff kv.2 then Some kv.1.1 else None)
       (map_to_list (attempts t)))))).

(** DELETE WHERE event_id IN ? AND dead_at < ?: the rows affected. *)
Definition deleteDead (ids : list Z) (cutoff : Z) (t : Tables) : nat * Tables :=
  let kept := filter (λ kv, contains ids kv.1.1 && deadBefore cutoff kv.2 = false) (attempts t) in
  ((size (attempts t) - size kept)%nat, set_attempts t kept).

Section Keeping.
Variable out : Outside.
Notation M := (stM (Env Tables) error).

Definition prune (ids : list Z) (cutoff : Z) : M nat :=
  wrapping "event housekeeping" (Transaction out (
    locked ← wrapping "lock events"
               (query out (λ t, select_ids (outbox t) (λ id o, contains ids id && processedBefore cutoff o)));
    match locked with
    | [] => mret 0%nat
    | _ =>
        dead ← wrapping "find dead letters" (query out (λ t, List.filter (hasDead t) locked));
        match List.filter (λ id, negb (contains dead id)) locked with
        | [] => mret 0%nat
        | doomed =>
            _ ← wrapping "delete attempts" (exec out (deleteAttempts doomed));
            _ ← wrapping "delete events" (exec out (deleteEvents doomed));
            mret (length doomed)
        end
    end)).

Definition deleteLetters (ids : list Z) (cutoff : Z) : M nat :=
  wrapping "event housekeeping: delete dead letters" (Transaction out (
    _ ← wrapping "lock events" (query out (λ t, select_ids (outbox t) (λ id o, contains ids id)));
    statement out (deleteDead ids cutoff))).

(** The loop of [expireDeadLetters]; [None] when [fuel] rounds were not enough. *)
Fixpoint expire_loop (fuel : nat) (cutoff after : Z) (e : Env Tables) : option (option error * Env Tables) :=
  match fuel with
  | O => None
  | S fuel' =>
      match wrapping "event housekeeping: select dead letters" (query out (dead_ids cutoff after)) e with
      | (Err err, e) => Some (Some err, e)
      | (Ok [], e) => Some (None, e)
      | (Ok ids, e) =>
          match deleteLetters ids cutoff e with
          | (Err err, e) => Some (Some err, e)
          | (Ok _, e) => expire_loop fuel' cutoff (default after (list.last ids)) e
          end
      end
  end.

Definition expireDeadLetters (fuel : nat) (h : Housekeeper) (e : Env Tables) : option (option error * Env Tables) :=
  if deadFor h <=? 0 then Some (None, e)
  else expire_loop fuel (whole (clock out (moment e)) - deadFor h) 0 (passed e).

(** The loop of [Sweep]; both results of the Go function. *)
Fixpoint sweep_loop (fuel : nat) (cutoff after : Z) (deleted : nat) (e : Env Tables) :
    option (nat * option error * Env Tables) :=
  match fuel with
  | O => None
  | S fuel' =>
      match wrapping "event housekeeping: select processed events"
              (query out (λ t, take pruneBatch (select_ids (outbox t) (λ id o, (after <? id) && prunable t cutoff id o)))) e with
      | (Err err, e) => Some (deleted, Some err, e)
      | (Ok [], e) => Some (deleted, None, e)
      | (Ok ids, e) =>
          match prune ids cutoff e with
          | (Err err, e) => Some (deleted, Some err, e)
          | (Ok n, e) => sweep_loop fuel' cutoff (default after (list.last ids)) (deleted + n) e
          end
      end
  end.

Definition Sweep (fuel : nat) (h : Housekeeper) (e : Env Tables) : option (nat * option error * Env Tables) :=
  match expireDeadLetters fuel h e with
  | None => None
  | Some (Some err, e) => Some (0%nat, Some err, e)
  | Some (None, e) => sweep_loop fuel (whole (clock out (moment e)) - Retention) 0 0 (passed e)
  end.
End Keeping.

(** ** Processed keys *)

Record IdempotencyRecord : Type := mkIdempotency { k_Response : option string; k_CreatedAt : Z; k_ProcessedAt : option Z }.
Notation KeyTable := (gmap string IdempotencyRecord).

Definition ErrInvalidDB : string := "invalid db".

Section Keys.
Variable out : Outside.
Variables (mysqlNumber : error → option Z) (ToLower : string → string).
Notation M := (stM (Env KeyTable) error).

(** INSERT: the unique index refuses a key that is there. *)
Definition createKey (key : string) : M () := λ e,
  match fault out (moment e) with
  | Some err => (Err err, passed e)
  | None =>
      match tables e !! key with
      | Some _ => (Err (errNew ErrDuplicatedKey), passed e)
      | None => (Ok (), mkEnv (<[key := mkIdempotency None (clock out (moment e)) None]> (tables e)) (S (moment e)))
      end
  end.

(** [conn] is false for a nil connection. *)
Definition reserveKey (conn : bool) (key : string) : M bool := λ e,
  if negb conn then (Err (errNew ErrInvalidDB), e)
  else if bool_decide (key = "") then (Ok false, e)
  else match createKey key e with
       | (Ok _, e) => (Ok true, e)
       | (Err err, e) => if IsDuplicateKey mysqlNumber ToLower err then (Ok false, e) else (Err err, e)
       end.

Definition confirmKey (conn : bool) (key : string) (resp : option string) : M () := λ e,
  if negb conn then (Err (errNew ErrInvalidDB), e)
  else let now := clock out (moment e) in
       exec out (alter (λ r, mkIdempotency (match resp with Some b => Some b | None => k_Response r end)
                               (k_CreatedAt r) (Some now)) key) (passed e).

Definition GetResponse (conn : bool) (key : string) : M (option (option string)) := λ e,
  if negb conn then (Err (errNew ErrInvalidDB), e) else query out (λ t, k_Response <$> t !! key) e.

(** [DBProcessedStore] *)
Definition Reserve (conn : bool) (id : string) : M bool := reserveKey conn id.
Definition Confirm (conn : bool) (id : string) : M () := confirmKey conn id None.
Definition Release (conn : bool) (id : string) : M () := λ e,
  if negb conn then (Err (errNew ErrInvalidDB), e)
  else if bool_decide (id = "") then (Ok (), e)
  else exec out (delete id) e.

Definition stale (cutoff : Z) (r : IdempotencyRecord) : bool :=
  bool_decide (k_ProcessedAt r = None) && (k_CreatedAt r <? cutoff).

Definition PurgeStaleReservations (conn : bool) (olderThan : Z) : M () := λ e,
  if negb conn then (Err (errNew ErrInvalidDB), e)
  else let cutoff := clock out (moment e) - olderThan in
       exec out (filter (λ kv, stale cutoff kv.2 = false)) (passed e).
End Keys.
