(* ===== verification/QueueFacts.v ===== *)
(** * Facts of the event queue

    What each transaction of the queue does to the tables, as one function of
    them, and what those functions keep. *)

From stdpp Require Import relations.
From S2P Require Import Prelude Clock Apperr Sql Queue Housekeeping.

Local Open Scope Z_scope.

(** ** The transactions as functions of the tables *)

Definition claimed_of (consumer : string) (candidates : list Z) (now : Z) (t : Tables) : list claimedEvent :=
  let locked := lock_due candidates t in omap (claimable (attempts_of consumer (ce_ID <$> locked) t) now) locked.

Definition lease_tx (consumer : string) (candidates : list Z) (now leaseUntil : Z) (t : Tables) : list claimedEvent * Tables :=
  let claimed := claimed_of consumer candidates now t in
  (claimed, foldl upsertLease t (leaseRow consumer now leaseUntil <$> claimed)).

Definition finish_tx (row : attemptRow) (sibs : list string) (t : Tables) : () * Tables :=
  let t1 := upsertOutcome row t in
  ((), if bool_decide (is_Some (outbox t !! EventID row)) && finished row &&
          (length sibs <=? countFinished (EventID row) sibs t1)%nat
       then markProcessed (EventID row) (Some (UpdatedAt row)) t1 else t1).

Definition retry_tx (id : Z) (consumer : string) (now : Z) (t : Tables) : () * Tables :=
  ((), markProcessed id None (revive id consumer now t).2).

Definition doomed_of (ids : list Z) (cutoff : Z) (t : Tables) : list Z :=
  let locked := select_ids (outbox t) (λ id o, contains ids id && processedBefore cutoff o) in
  List.filter (λ id, negb (contains (List.filter (hasDead t) locked) id)) locked.

Definition prune_tx (ids : list Z) (cutoff : Z) (t : Tables) : nat * Tables :=
  let doomed := doomed_of ids cutoff t in (length doomed, deleteEvents doomed (deleteAttempts doomed t)).

(** Deleting nothing. *)
Lemma delete_none t : deleteEvents [] (deleteAttempts [] t) = t.
Proof.
  destruct t as [o a n]. unfold deleteEvents, deleteAttempts, set_outbox, set_attempts. cbn.
  rewrite !map_filter_id; [done| |]; intros; cbn; set_solver.
Qed.

Section Effects.
Variable out : Outside.

Lemma query_inv {A} (f : Tables → A) e a e' : query out f e = (Ok a, e') → a = f (tables e) ∧ tables e' = tables e.
Proof. unfold query, statement. destruct (fault _ _); naive_solver. Qed.

Lemma exec_inv (f : Tables → Tables) e a e' : exec out f e = (Ok a, e') → tables e' = f (tables e).
Proof. unfold exec, statement. destruct (fault _ _); naive_solver. Qed.

Lemma statement_inv {A} (f : Tables → A * Tables) e a e' :
  statement out f e = (Ok a, e') → (a, tables e') = f (tables e).
Proof. unfold statement. destruct (fault _ _); [done|]. destruct (f _). naive_solver. Qed.

Lemma lease_effect consumer candidates now until :
  effect (lease out consumer candidates now until) (lease_tx consumer candidates now until).
Proof.
  unfold lease. destruct candidates as [|id ids].
  { intros e. right. cbn. assert (claimed_of consumer [] now (tables e) = []) as E; [|by rewrite E].
    unfold claimed_of. enough (lock_due [] (tables e) = []) as -> by done.
    unfold lock_due. enough (select_ids (outbox (tables e)) (λ id o, contains [] id && bool_decide (o_ProcessedAt o = None)) = []) as -> by done.
    apply elem_of_nil_inv. intros x (v & _ & Hx)%elem_of_select. done. }
  apply wrapping_effect, Transaction_effect. generalize (id :: ids) as cands. clear id ids. intros cands e a e' H.
  unfold lease_tx, claimed_of. apply stM_bind_Ok in H as (locked & e1 & [-> E1]%wrapping_Ok%query_inv & H).
  destruct (lock_due cands (tables e)) as [|l0 ls]; [injection H as <- <-; cbn; by rewrite E1|].
  set (locked := l0 :: ls) in *. apply stM_bind_Ok in H as (byEvent & e2 & [-> E2]%wrapping_Ok%query_inv & H).
  rewrite E1 in *. destruct (omap _ locked) as [|c0 cs]; [injection H as <- <-; cbn; by rewrite E2|].
  apply stM_bind_Ok in H as ([] & e3 & E3%wrapping_Ok%exec_inv & [= <- <-]). by rewrite E3, E2.
Qed.

Lemma finish_effect row sibs : effect (finish out row sibs) (finish_tx row sibs).
Proof.
  apply wrapping_effect, Transaction_effect. intros e a e' H.
  apply stM_bind_Ok in H as (locked & e1 & [-> E1]%wrapping_Ok%query_inv & H).
  apply stM_bind_Ok in H as ([] & e2 & E2%wrapping_Ok%exec_inv & H). rewrite E1 in E2. unfold finish_tx.
  destruct (bool_decide _), (finished row); cbn [negb orb andb] in *; try (injection H as <- <-; by rewrite E2).
  apply stM_bind_Ok in H as (n & e3 & [-> E3]%wrapping_Ok%query_inv & H). rewrite E2 in *. rewrite Nat.leb_antisym.
  destruct (_ <? length sibs)%nat; cbn [negb]; [injection H as <- <-; by rewrite E3|].
  apply exec_inv in H. rewrite E3 in H. destruct a. by rewrite H.
Qed.

(** A successful [Retry] found the event and its dead letter. *)
Lemma Retry_inv id consumer e e' :
  Retry out id consumer e = (Ok (), e') →
  let now := whole (clock out (moment e)) in
  is_Some (outbox (tables e) !! id) ∧ (revive id consumer now (tables e)).1 = 1%nat ∧
  tables e' = (retry_tx id consumer now (tables e)).2.
Proof.
  unfold Retry. intros H%wrapping_Ok. unfold Transaction in H. case_match eqn:Eb; subst. destruct o as [u|]; [|done].
  destruct (fault _ _); [done|]. injection H as _ <-. rename Eb into H. cbn.
  apply stM_bind_Ok in H as (f & e1 & [-> E1]%query_inv & H). cbn in E1.
  destruct (bool_decide _) eqn:Ef; [|done]. apply bool_decide_eq_true in Ef. cbn in H.
  apply stM_bind_Ok in H as (n & e2 & E2%statement_inv & H). rewrite E1 in E2.
  unfold retry_tx. destruct (revive id consumer _ (tables e)) as [n' t'] eqn:Er. injection E2 as -> E2.
  destruct (n' =? 0)%nat eqn:En; [done|]. apply exec_inv in H. cbn. rewrite E2 in H. split; [done|]. split; [|done].
  unfold revive in Er. repeat case_match; simplify_eq; done.
Qed.

(** An error of [Retry] changes nothing. *)
Lemma Retry_Err id consumer e err e' : Retry out id consumer e = (Err err, e') → tables e' = tables e.
Proof.
  unfold Retry. intros (err0 & H & _)%wrapping_Err. unfold Transaction in H. case_match; subst.
  destruct o; [destruct (fault _ _)|]; naive_solver.
Qed.

Lemma prune_effect ids cutoff : effect (prune out ids cutoff) (prune_tx ids cutoff).
Proof.
  apply wrapping_effect, Transaction_effect. intros e a e' H. unfold prune_tx, doomed_of.
  apply stM_bind_Ok in H as (locked & e1 & [-> E1]%wrapping_Ok%query_inv & H).
  destruct (select_ids _ _) as [|l0 ls]; [injection H as <- <-; cbn; rewrite E1; by rewrite delete_none|].
  set (locked := l0 :: ls) in *. apply stM_bind_Ok in H as (dead & e2 & [-> E2]%wrapping_Ok%query_inv & H).
  rewrite E1 in *. destruct (List.filter _ locked) as [|c0 cs]; [injection H as <- <-; cbn; rewrite E2; by rewrite delete_none|].
  apply stM_bind_Ok in H as ([] & e3 & E3%wrapping_Ok%exec_inv & H).
  apply stM_bind_Ok in H as ([] & e4 & E4%wrapping_Ok%exec_inv & [= <- <-]). by rewrite E4, E3, E2.
Qed.

Lemma deleteLetters_effect ids cutoff : effect (deleteLetters out ids cutoff) (deleteDead ids cutoff).
Proof.
  apply wrapping_effect, Transaction_effect. intros e a e' H.
  apply stM_bind_Ok in H as (l & e1 & [_ E1]%wrapping_Ok%query_inv & H%statement_inv). by rewrite <-E1.
Qed.
End Effects.

(** ** What a claim takes *)

Lemma elem_of_lock_due cands t c :
  c ∈ lock_due cands t ↔ ∃ o, outbox t !! ce_ID c = Some o ∧ ce_ID c ∈ cands ∧ o_ProcessedAt o = None ∧
    c = mkClaimed (ce_ID c) (o_EventType o) (o_Envelope o) 0.
Proof.
  unfold lock_due. rewrite list_elem_of_omap. setoid_rewrite elem_of_select. split.
  - intros (id & (o & Ho & [Hc%contains_spec Hp%bool_decide_eq_true]%andb_true_iff) & E).
    rewrite Ho in E. injection E as <-. cbn. eauto.
  - intros (o & Ho & Hc & Hp & E). exists (ce_ID c). split.
    + exists o. split; [done|]. apply andb_true_iff. by rewrite contains_spec, bool_decide_eq_true.
    + rewrite Ho. cbn. by rewrite <-E.
Qed.

(** The ids of an [omap] that keeps ids. *)
Lemma omap_ids {A} (id_of : A → Z) (f : A → option A) (l : list A) :
  (∀ x y, f x = Some y → id_of y = id_of x) → NoDup (id_of <$> l) → NoDup (id_of <$> omap f l).
Proof.
  intros Hf. induction l as [|x l IH]; cbn; [constructor|]. intros [Hx Hl]%list.NoDup_cons.
  destruct (f x) as [y|] eqn:E; [|by apply IH]. cbn. constructor; [|by apply IH].
  rewrite (Hf _ _ E). intros (z & Hz & (x' & Hx' & Ef)%list_elem_of_omap)%list_elem_of_fmap.
  apply Hx, list_elem_of_fmap. exists x'. split; [|done]. by rewrite Hz, (Hf _ _ Ef).
Qed.

Lemma NoDup_lock_due cands t : NoDup (ce_ID <$> lock_due cands t).
Proof.
  unfold lock_due. pose proof (NoDup_select (outbox t) (λ id o, contains cands id && bool_decide (o_ProcessedAt o = None))) as Hn.
  induction Hn as [|id l Hid Hl IH]; cbn; [constructor|].
  destruct (outbox t !! id) as [o|] eqn:E; cbn; [|done]. constructor; [|done].
  intros (c & Hc & (id' & Hid' & E')%list_elem_of_omap)%list_elem_of_fmap.
  destruct (outbox t !! id'); cbn in *; simplify_eq/=. done.
Qed.

Lemma lookup_attempts_of consumer ids t id :
  id ∈ ids → attempts_of consumer ids t !! id = attempts t !! (id, consumer).
Proof.
  intros Hid. unfold attempts_of. destruct (attempts t !! (id, consumer)) as [a|] eqn:E.
  - apply elem_of_list_to_map_1'.
    + intros y (i & _ & Hy)%list_elem_of_omap. destruct (attempts t !! (i, consumer)) eqn:Ei; cbn in Hy; simplify_eq. done.
    + apply list_elem_of_omap. exists id. by rewrite E.
  - apply not_elem_of_list_to_map_1. intros ([i a] & ? & (j & _ & Hy)%list_elem_of_omap)%list_elem_of_fmap.
    cbn in *. subst. destruct (attempts t !! (j, consumer)) eqn:Ej; cbn in Hy; simplify_eq.
Qed.

Lemma claimable_id byEvent now x y : claimable byEvent now x = Some y → ce_ID y = ce_ID x.
Proof. unfold claimable. repeat case_match; naive_solver. Qed.

(** An event is claimed exactly when it is a candidate, not processed, and not
    finished, leased or waiting for the consumer. *)
Lemma elem_of_claimed consumer cands now t c :
  c ∈ claimed_of consumer cands now t ↔
  ∃ o, outbox t !! ce_ID c = Some o ∧ ce_ID c ∈ cands ∧ o_ProcessedAt o = None ∧
       ce_EventType c = o_EventType o ∧ ce_Envelope c = o_Envelope o ∧
       match attempts t !! (ce_ID c, consumer) with
       | None => ce_Attempts c = 0
       | Some a => finished a = false ∧ NextAttemptAt a <= now ∧ ce_Attempts c = Attempts a
       end.
Proof.
  unfold claimed_of. rewrite list_elem_of_omap. split.
  - intros (x & Hx & Hc). pose proof (claimable_id _ _ _ _ Hc) as Hid. unfold claimable in Hc.
    rewrite lookup_attempts_of in Hc by (apply list_elem_of_fmap; eauto).
    apply elem_of_lock_due in Hx as (o & Ho & Hin & Hp & Hx). rewrite Hid. exists o.
    destruct (attempts t !! (ce_ID x, consumer)) as [a|].
    + destruct (finished a || _) eqn:Ef; [done|]. apply orb_false_iff in Ef as [Ef Hn%Z.ltb_ge].
      simplify_eq/=. rewrite Hx. done.
    + simplify_eq/=. rewrite Hx. done.
  - intros (o & Ho & Hin & Hp & Ht & He & Ha). exists (mkClaimed (ce_ID c) (o_EventType o) (o_Envelope o) 0).
    assert (mkClaimed (ce_ID c) (o_EventType o) (o_Envelope o) 0 ∈ lock_due cands t) as Hl by (apply elem_of_lock_due; eauto).
    split; [done|]. unfold claimable. cbn.
    rewrite lookup_attempts_of by (apply list_elem_of_fmap; by eexists; split; [|exact Hl]).
    destruct (attempts t !! (ce_ID c, consumer)) as [a|].
    + destruct Ha as (-> & Hn & Ha). cbn. unfold Time.After. destruct (Z.ltb_spec now (NextAttemptAt a)); [lia|].
      destruct c; cbn in *; congruence.
    + destruct c; cbn in *; congruence.
Qed.

Lemma NoDup_claimed consumer cands now t : NoDup (ce_ID <$> claimed_of consumer cands now t).
Proof. apply omap_ids; [apply claimable_id|apply NoDup_lock_due]. Qed.

(** ** What a lease writes *)

Definition leased (old : option attemptRow) (row : attemptRow) : attemptRow :=
  match old with
  | Some a => mkAttemptRow (EventID a) (Consumer_ a) (Attempts a) (NextAttemptAt row) (LastError a) (DoneAt a) (DeadAt a)
                (UpdatedAt row)
  | None => row
  end.

Definition key_of (a : attemptRow) : Z * string := (EventID a, Consumer_ a).

Lemma upserts_outbox rows t : outbox (foldl upsertLease t rows) = outbox t ∧ lastID (foldl upsertLease t rows) = lastID t.
Proof. revert t. induction rows as [|r rows IH]; intros t; [done|]. cbn. by destruct (IH (upsertLease t r)) as [-> ->]. Qed.

Lemma upserts_other rows t k : k ∉ key_of <$> rows → attempts (foldl upsertLease t rows) !! k = attempts t !! k.
Proof.
  revert t. induction rows as [|r rows IH]; intros t; [done|]. cbn. intros [Hk Hr]%not_elem_of_cons.
  rewrite IH by done. cbn. by rewrite lookup_insert_ne.
Qed.

Lemma upserts_row rows t r :
  NoDup (key_of <$> rows) → r ∈ rows →
  attempts (foldl upsertLease t rows) !! key_of r = Some (leased (attempts t !! key_of r) r).
Proof.
  revert t. induction rows as [|r' rows IH]; intros t; [by intros _ ?%elem_of_nil|]. cbn.
  intros [Hk Hr]%list.NoDup_cons [->|Hin]%elem_of_cons.
  - rewrite upserts_other by done. cbn. by rewrite lookup_insert_eq.
  - rewrite IH by done. cbn. rewrite lookup_insert_ne; [done|]. intros E. change (key_of r' = key_of r) in E. apply Hk. rewrite E. by apply list_elem_of_fmap_2.
Qed.

Lemma lease_outbox consumer cands now until t :
  outbox (lease_tx consumer cands now until t).2 = outbox t ∧ lastID (lease_tx consumer cands now until t).2 = lastID t.
Proof. apply upserts_outbox. Qed.

Lemma leaseRow_keys consumer now until (l : list claimedEvent) : key_of <$> (leaseRow consumer now until <$> l) = (λ c, (ce_ID c, consumer)) <$> l.
Proof. by rewrite <-list_fmap_compose. Qed.

Lemma lease_other consumer cands now until t k :
  (∀ c, c ∈ (lease_tx consumer cands now until t).1 → k ≠ (ce_ID c, consumer)) →
  attempts (lease_tx consumer cands now until t).2 !! k = attempts t !! k.
Proof.
  intros Hk. apply upserts_other. rewrite leaseRow_keys.
  intros (c & E & Hc)%list_elem_of_fmap. by apply (Hk c).
Qed.

Lemma lease_row consumer cands now until t c :
  c ∈ (lease_tx consumer cands now until t).1 →
  attempts (lease_tx consumer cands now until t).2 !! (ce_ID c, consumer) =
  Some (leased (attempts t !! (ce_ID c, consumer)) (leaseRow consumer now until c)).
Proof.
  intros Hc. cbn in Hc |- *. apply (upserts_row _ t (leaseRow consumer now until c)).
  - rewrite leaseRow_keys, list_fmap_compose with (f := ce_ID) (g := λ i, (i, consumer)).
    apply NoDup_fmap_2; [intros ?? [=]; done|apply NoDup_claimed].
  - by apply list_elem_of_fmap_2.
Qed.

(** ** What the other transactions write *)

Lemma length_remove_dups {A} `{EqDecision A} (l : list A) : (length (remove_dups l) <= length l)%nat.
Proof. induction l as [|x l IH]; cbn; [done|]. case_decide; cbn; lia. Qed.

(** The count reaches the number of siblings only when each of them finished. *)
Lemma countFinished_all id sibs t c :
  (length sibs <= countFinished id sibs t)%nat → c ∈ sibs →
  ∃ a, attempts t !! (id, c) = Some a ∧ finished a = true.
Proof.
  intros Hl Hc. set (f := λ c, match attempts t !! (id, c) with Some a => finished a | None => false end).
  destruct (f c) eqn:E; [unfold f in E; case_match; [eauto|done]|].
  pose proof (length_filter_lt f (λ _, true) (remove_dups sibs) c) as Hlt.
  rewrite (List.filter_ext_in (λ _ : string, true) (λ _, true)) in Hlt by done.
  assert (List.filter (λ _ : string, true) (remove_dups sibs) = remove_dups sibs) as Et.
  { clear. induction (remove_dups sibs); cbn; congruence. }
  rewrite Et in Hlt. pose proof (length_remove_dups sibs).
  assert (length (List.filter f (remove_dups sibs)) < length (remove_dups sibs))%nat
    by (apply Hlt; rewrite ?elem_of_remove_dups; done). unfold countFinished in Hl. fold f in Hl. lia.
Qed.

Lemma finish_attempts row sibs t : attempts (finish_tx row sibs t).2 = <[key_of row := row]> (attempts t).
Proof. unfold finish_tx. cbn. by case_match. Qed.

(** The outbox changes only when the outcome is final and the last one awaited. *)
Lemma finish_outbox row sibs t :
  lastID (finish_tx row sibs t).2 = lastID t ∧
  (outbox (finish_tx row sibs t).2 = outbox t ∨
   finished row = true ∧
   (∀ c, c ∈ sibs → ∃ a, attempts (finish_tx row sibs t).2 !! (EventID row, c) = Some a ∧ finished a = true) ∧
   outbox (finish_tx row sibs t).2 = alter (set_processed (Some (UpdatedAt row))) (EventID row) (outbox t)).
Proof.
  rewrite finish_attempts. unfold finish_tx. cbn [snd]. case_match eqn:E; [|by auto]. split; [done|]. right.
  apply andb_true_iff in E as [[_ Ef]%andb_true_iff El%Nat.leb_le]. split; [done|]. split; [|done].
  intros c Hc. by apply (countFinished_all _ _ (upsertOutcome row t) c El).
Qed.

Lemma hasDead_spec t id : hasDead t id = true ↔ ∃ c a, attempts t !! (id, c) = Some a ∧ DeadAt a ≠ None.
Proof.
  unfold hasDead. rewrite existsb_elem. split.
  - intros ([[i c] a] & Hin%elem_of_map_to_list & [Hi%Z.eqb_eq Hd%bool_decide_eq_true]%andb_true_iff). cbn in *. subst. eauto.
  - intros (c & a & Ha & Hd). exists ((id, c), a). split; [by apply elem_of_map_to_list|]. cbn.
    rewrite Z.eqb_refl. by apply bool_decide_eq_true.
Qed.

(** Only processed events without a dead letter are deleted. *)
Lemma elem_of_doomed ids cutoff t id :
  id ∈ doomed_of ids cutoff t ↔
  ∃ o, outbox t !! id = Some o ∧ id ∈ ids ∧ processedBefore cutoff o = true ∧ hasDead t id = false.
Proof.
  unfold doomed_of. rewrite elem_of_filter_bool, negb_true_iff, elem_of_select. split.
  - intros ((o & Ho & [Hi%contains_spec Hp]%andb_true_iff) & Hd). exists o. repeat split; try done.
    apply not_true_is_false. intros Hdead. apply not_true_iff_false in Hd. apply Hd, contains_spec, elem_of_filter_bool.
    split; [|done]. apply elem_of_select. exists o. split; [done|]. apply andb_true_iff. by rewrite contains_spec.
  - intros (o & Ho & Hi & Hp & Hd). split.
    + exists o. split; [done|]. apply andb_true_iff. by rewrite contains_spec.
    + apply not_true_iff_false. rewrite contains_spec, elem_of_filter_bool. naive_solver congruence.
Qed.

Lemma prune_outbox ids cutoff t id :
  outbox (prune_tx ids cutoff t).2 !! id = if decide (id ∈ doomed_of ids cutoff t) then None else outbox t !! id.
Proof.
  cbn. case_decide as Hd.
  - apply map_lookup_filter_None. right. intros o Ho. cbn. tauto.
  - destruct (outbox t !! id) eqn:E.
    + apply map_lookup_filter_Some. by split.
    + apply map_lookup_filter_None. by left.
Qed.

Lemma prune_attempts ids cutoff t id c :
  attempts (prune_tx ids cutoff t).2 !! (id, c) = if decide (id ∈ doomed_of ids cutoff t) then None else attempts t !! (id, c).
Proof.
  cbn. case_decide as Hd.
  - apply map_lookup_filter_None. right. intros o Ho. cbn. tauto.
  - destruct (attempts t !! (id, c)) eqn:E.
    + apply map_lookup_filter_Some. by split.
    + apply map_lookup_filter_None. by left.
Qed.

Lemma deleteDead_attempts ids cutoff t id c a :
  attempts (deleteDead ids cutoff t).2 !! (id, c) = Some a ↔
  attempts t !! (id, c) = Some a ∧ contains ids id && deadBefore cutoff a = false.
Proof. cbn. by rewrite map_lookup_filter_Some. Qed.

Lemma deadBefore_dead cutoff a : deadBefore cutoff a = true → finished a = true ∧ DeadAt a ≠ None.
Proof. unfold deadBefore, finished. destruct (DeadAt a); [|done]. intros _. rewrite orb_true_r. done. Qed.

Lemma revive_row id consumer now t :
  (revive id consumer now t).1 = 1%nat →
  ∃ a, attempts t !! (id, consumer) = Some a ∧ DeadAt a ≠ None ∧
    attempts (retry_tx id consumer now t).2 =
      <[(id, consumer) := mkAttemptRow (EventID a) (Consumer_ a) 0 now (LastError a) (DoneAt a) None now]> (attempts t) ∧
    outbox (retry_tx id consumer now t).2 = alter (set_processed None) id (outbox t) ∧
    lastID (retry_tx id consumer now t).2 = lastID t.
Proof.
  unfold retry_tx, revive. destruct (attempts t !! (id, consumer)) as [a|] eqn:E; [|done].
  case_bool_decide as Hd; [|done]. intros _. exists a. done.
Qed.

(** * Well-formed consumers, and one select for all of them (src/event/typed.go,
    worker.go, queue.go)

    [Problems] finds nothing exactly when the consumers can share the queue; and the
    one statement that asks for every consumer finds what each would have found. *)

(** ** Problems *)

(** A consumer that the queue can serve. *)
Definition consumer_ok (c : Consumer) : Prop :=
  namePattern (c_event c) = true ∧ namePattern (c_name c) = true ∧ (String.length (c_name c) <= 100)%nat ∧
  1 <= c_version c ∧ retryWorks (c_retry c) = true.

(** Two consumers of one event read the same payload in the same version. *)
Definition agree (c d : Consumer) : Prop :=
  c_event c = c_event d → c_version c = c_version d ∧ c_payload c = c_payload d.

Record well_formed (cs : list Consumer) : Prop := mkWellFormed {
  wf_each : ∀ c, c ∈ cs → consumer_ok c;
  wf_names : NoDup (c_name <$> cs);
  wf_events : ∀ c d, c ∈ cs → d ∈ cs → agree c d
}.

Lemma if_none_nil {A} (b : bool) (x : A) : (if b then [] else [x]) = [] ↔ b = true.
Proof. by destruct b. Qed.

Lemma consumer_problems_nil c : consumer_problems c = [] ↔ consumer_ok c.
Proof.
  unfold consumer_problems, consumer_ok. rewrite !app_nil, !if_none_nil, andb_true_iff, bool_decide_eq_true.
  destruct (Z.ltb_spec (c_version c) 1); split; intros H'; destruct_and?; try done; repeat split; try done; lia.
Qed.

Lemma sameEvent_spec f c : sameEvent f c = true ↔ c_version f = c_version c ∧ c_payload f = c_payload c.
Proof. unfold sameEvent. by rewrite andb_true_iff, Z.eqb_eq, bool_decide_eq_true. Qed.

(** The loop, with the names and the first consumer of each event seen so far. *)
Lemma problems_loop_nil byName first cs :
  (∀ ev f, first !! ev = Some f → c_event f = ev) →
  problems_loop byName first cs = [] ↔
  (∀ c, c ∈ cs → consumer_ok c) ∧ NoDup (c_name <$> cs) ∧ (∀ c, c ∈ cs → c_name c ∉ byName) ∧
  (∀ c f, c ∈ cs → first !! c_event c = Some f → agree f c) ∧ (∀ c d, c ∈ cs → d ∈ cs → agree c d).
Proof.
  revert byName first. induction cs as [|c cs IH]; intros byName first Hf; cbn [problems_loop].
  { split; [|done]. intros _. split_and!; try (intros *; by rewrite elem_of_nil). constructor. }
  rewrite !app_nil, consumer_problems_nil, IH; clear IH.
  2: { intros ev f. destruct (first !! c_event c) eqn:E; [by apply Hf|]. by intros [[<- <-]|[_ ?]]%lookup_insert_Some; [|apply Hf]. }
  rewrite fmap_cons, list.NoDup_cons, list_elem_of_fmap. setoid_rewrite elem_of_cons. unfold agree. split.
  - intros (Hc & Hn & He & Hok & Hnd & Hnew & Hfst & Hag).
    assert (c_name c ∉ byName) as Hcn by (by case_decide).
    assert (∀ f, first !! c_event c = Some f → c_version f = c_version c ∧ c_payload f = c_payload c) as Hfc.
    { intros f E. rewrite E in He. destruct (sameEvent f c) eqn:Es; [by apply sameEvent_spec|done]. }
    assert (∀ d, d ∈ cs → c_event c = c_event d → c_version c = c_version d ∧ c_payload c = c_payload d) as Hcd.
    { intros d Hd E. destruct (first !! c_event c) as [f|] eqn:Ef.
      - destruct (Hfc f eq_refl) as [<- <-]. apply (Hfst d); [done|by rewrite <-E|]. rewrite <-E. by apply Hf.
      - apply (Hfst d); [done|by rewrite <-E, lookup_insert_eq|done]. }
    split_and!.
    + intros d [->|Hd]; eauto.
    + intros (d & E & Hd). apply (Hnew d Hd). rewrite <-E. set_solver.
    + done.
    + intros d [->|Hd]; [done|]. specialize (Hnew d Hd). set_solver.
    + intros d f [->|Hd] E Ee; [by apply Hfc|]. apply (Hfst d f); [done| |done].
      destruct (first !! c_event c) eqn:Ef; [done|]. rewrite lookup_insert_ne; [done|]. congruence.
    + intros d d' [->|Hd] [->|Hd'] E; [done|by apply Hcd| |by apply Hag].
      destruct (Hcd d Hd (eq_sym E)). done.
  - intros (Hok & [Hcn Hnd] & Hnew & Hfst & Hag). split_and!; eauto.
    + rewrite decide_False; [done|]. apply Hnew. by left.
    + destruct (first !! c_event c) as [f|] eqn:E; [|done]. rewrite (proj2 (sameEvent_spec f c)); [done|].
      apply (Hfst c f); [by left|done|]. by apply Hf.
    + intros d Hd. specialize (Hnew d (or_intror Hd)). apply not_elem_of_union. split; [|done].
      intros E%elem_of_singleton. apply Hcn. exists d. done.
    + intros d f Hd E Ee. destruct (first !! c_event c) eqn:Ef; [by apply (Hfst d f); [right|..]|].
      apply lookup_insert_Some in E as [[E <-]|[_ E]]; [apply Hag; [by left|by right|done]|by apply (Hfst d f); [right|..]].
Qed.

Lemma Problems_nil cs : Problems cs = [] ↔ well_formed cs.
Proof.
  unfold Problems. rewrite problems_loop_nil by done. split.
  - intros (H1 & H2 & _ & _ & H5). by split.
  - intros [H1 H2 H3]. split_and!; try done.
Qed.

(** ** One select for every consumer *)

Lemma collect_rows rows k :
  ∀ m, default [] (foldl (λ m r, <[r.2 := default [] (m !! r.2) ++ [r.1]]> m) m rows !! k) =
    default [] ((m : gmap nat (list Z)) !! k) ++ (fst <$> List.filter (λ r, (r.2 =? k)%nat) rows).
Proof.
  induction rows as [|[id j] rows IH]; intros m; cbn; [by rewrite app_nil_r|]. rewrite IH. cbn.
  destruct (Nat.eqb_spec j k) as [->|Hne]; [by rewrite lookup_insert_eq; cbn; rewrite <-app_assoc|by rewrite lookup_insert_ne].
Qed.

Lemma collectDue_lookup rows k :
  default [] (collectDue rows !! k) = merge_sort Z.le (fst <$> List.filter (λ r, (r.2 =? k)%nat) rows).
Proof.
  unfold collectDue. rewrite lookup_fmap. pose proof (collect_rows rows k ∅) as H. rewrite lookup_empty in H. cbn in H.
  rewrite <-H. by destruct (foldl _ _ _ !! k).
Qed.

(** The rows of one consumer, in the union. *)
Lemma filter_index {A} (f : A → list Z) (l : list A) k :
  ∀ i, fst <$> List.filter (λ r : Z * nat, (r.2 =? i + k)%nat) (concat ((λ ic, (λ id, (id, ic.1)) <$> f ic.2) <$> zip (seq i (length l)) l)) =
    default [] (f <$> l !! k).
Proof.
  revert k. induction l as [|x l IH]; intros k i; cbn; [done|]. rewrite List.filter_app, fmap_app.
  assert (∀ ys : list Z, fst <$> List.filter (λ r : Z * nat, (r.2 =? i + k)%nat) ((λ id, (id, i)) <$> ys) =
            if (i =? i + k)%nat then ys else []) as Hrows.
  { induction ys as [|y ys IHy]; cbn; [by destruct (i =? _)%nat|]. destruct (i =? i + k)%nat; cbn; by rewrite IHy. }
  rewrite Hrows. destruct k as [|k]; cbn.
  - rewrite Nat.add_0_r, Nat.eqb_refl.
    assert (∀ n (ys : list A), (i < n)%nat → fst <$> List.filter (λ r : Z * nat, (r.2 =? i)%nat)
              (concat ((λ ic, (λ id, (id, ic.1)) <$> f ic.2) <$> zip (seq n (length ys)) ys)) = []) as Hlater.
    { intros n ys. revert n. induction ys as [|y ys IHy]; intros n Hn; cbn; [done|]. rewrite List.filter_app, fmap_app, IHy by lia.
      induction (f y) as [|z zs IHz]; cbn; [done|]. destruct (Nat.eqb_spec n i); [lia|]. exact IHz. }
    rewrite Hlater by lia. by rewrite app_nil_r.
  - destruct (Nat.eqb_spec i (i + S k)); [lia|]. etrans; [|apply (IH k (S i))]. cbn. by rewrite Nat.add_succ_r.
Qed.

Lemma Permutation_filter_bool {A} (p : A → bool) (l l' : list A) : l ≡ₚ l' → List.filter p l ≡ₚ List.filter p l'.
Proof. induction 1; cbn; repeat case_match; econstructor; eauto; done. Qed.

Lemma merge_sort_sorted (l l' : list Z) : StronglySorted Z.le l → l' ≡ₚ l → merge_sort Z.le l' = l.
Proof.
  intros Hs Hp. apply (StronglySorted_unique Z.le); [apply StronglySorted_merge_sort; apply _|done|].
  by rewrite merge_sort_Permutation.
Qed.

Lemma StronglySorted_take (l : list Z) n : StronglySorted Z.le l → StronglySorted Z.le (take n l).
Proof.
  intros Hs. revert n. induction Hs as [|x l Hs IH Hx]; intros [|n]; cbn; constructor; eauto. by apply list.Forall_take.
Qed.

(** Whatever order the rows come in, each consumer is given what is due for it. *)
Lemma collectDue_due rows consumers now limit t k :
  rows ≡ₚ dueParts consumers now limit t →
  default [] (collectDue rows !! k) =
    default [] ((λ c, take limit (due_ids t (c_name c) (c_event c) now)) <$> consumers !! k).
Proof.
  intros Hp. rewrite collectDue_lookup.
  pose proof (filter_index (λ c, take limit (due_ids t (c_name c) (c_event c) now)) consumers k 0) as Hi. cbn [Nat.add] in Hi.
  rewrite <-Hi. apply merge_sort_sorted.
  - rewrite Hi. destruct (consumers !! k); cbn; [|constructor]. apply StronglySorted_take, Sorted_select.
  - apply fmap_Permutation, Permutation_filter_bool. exact Hp.
Qed.

(** * Workers, housekeeping and retries interleaved (src/event)

    Any number of workers of any number of processes share the two tables. Their
    transactions lock the outbox row of the event first, so each is one step; a
    worker may take as long as it likes between its claim and its outcome, or never
    come back. The steps below are those transactions in any order. Beside the
    tables the state remembers what was published, which events each consumer
    handled, and which it gave up on. *)

(** A claimed event in the hands of a worker, and the end of its lease. *)
Record flight : Type := mkFlight { fl_consumer : Consumer; fl_event : claimedEvent; fl_until : Z }.

Definition fl_key (f : flight) : Z * string := (ce_ID (fl_event f), c_name (fl_consumer f)).

Record sys : Type := mkSys {
  s_tables : Tables;
  s_now : Z;
  s_flight : list flight;
  s_published : gmap Z string;
  s_handled : gset (Z * string);
  s_gaveup : gset (Z * string)
}.

(** Read the fields of a state that is written out. *)
Ltac proj := cbn [s_tables s_now s_published s_handled s_gaveup s_flight] in *.

Section Steps.
(** The consumers of the queue. *)
Variable consumers : list Consumer.

(** What an outcome adds to the record of the handled and of the given up. *)
Definition handled_with (f : flight) (err : option error) (h : gset (Z * string)) : gset (Z * string) :=
  match err with None => {[fl_key f]} ∪ h | Some _ => h end.
Definition gaveup_with (f : flight) (row : attemptRow) (g : gset (Z * string)) : gset (Z * string) :=
  if bool_decide (DeadAt row ≠ None) then {[fl_key f]} ∪ g else g.

(** The steps; [late] says whether an outcome may be recorded after the lease of
    the worker ended. A time read before a transaction is at most the time now. *)
Inductive step (late : Prop) : sys → sys → Prop :=
| step_publish t now fl pub h g requestID source eventType envelope created :
    step late (mkSys t now fl pub h g)
      (mkSys (insertEvent requestID source eventType envelope created t) now fl (<[lastID t + 1 := eventType]> pub) h g)
| step_lease t now fl pub h g c candidates read :
    c ∈ consumers → (∀ id, id ∈ candidates → pub !! id = Some (c_event c)) → read <= now →
    let until := read + claimLease in
    step late (mkSys t now fl pub h g)
      (mkSys (lease_tx (c_name c) candidates read until t).2 now
         (((λ ev, mkFlight c ev until) <$> (lease_tx (c_name c) candidates read until t).1) ++ fl) pub h g)
| step_finish t now fl1 f fl2 pub h g err read :
    now < fl_until f ∨ late →
    let row := outcomeRow (fl_consumer f) (fl_event f) err read in
    step late (mkSys t now (fl1 ++ f :: fl2) pub h g)
      (mkSys (finish_tx row (siblings consumers (c_event (fl_consumer f))) t).2 now (fl1 ++ fl2) pub
         (handled_with f err h) (gaveup_with f row g))
| step_abandon t now fl1 f fl2 pub h g :
    step late (mkSys t now (fl1 ++ f :: fl2) pub h g) (mkSys t now (fl1 ++ fl2) pub h g)
| step_retry t now fl pub h g id consumer read :
    is_Some (outbox t !! id) → (revive id consumer read t).1 = 1%nat →
    step late (mkSys t now fl pub h g)
      (mkSys (retry_tx id consumer read t).2 now fl pub h (g ∖ {[(id, consumer)]}))
| step_prune t now fl pub h g ids cutoff :
    step late (mkSys t now fl pub h g) (mkSys (prune_tx ids cutoff t).2 now fl pub h g)
| step_letters t now fl pub h g ids cutoff :
    step late (mkSys t now fl pub h g) (mkSys (deleteDead ids cutoff t).2 now fl pub h g)
| step_time t now now' fl pub h g :
    now <= now' → step late (mkSys t now fl pub h g) (mkSys t now' fl pub h g).

Definition start (now : Z) : sys := mkSys (mkTables ∅ ∅ 0) now [] ∅ ∅ ∅.

Definition reachable (late : Prop) (s : sys) : Prop := ∃ now, rtc (step late) (start now) s.

(** ** Nothing is lost *)

(** The consumer handled the event, or gave up on it and nobody retried it since. *)
Definition concluded (h g : gset (Z * string)) (k : Z * string) : Prop := k ∈ h ∨ k ∈ g.

Definition all_concluded (h g : gset (Z * string)) (id : Z) (eventType : string) : Prop :=
  ∀ c, c ∈ siblings consumers eventType → concluded h g (id, c).

Record safe (s : sys) : Prop := mkSafe {
  safe_keys : ∀ k a, attempts (s_tables s) !! k = Some a → key_of a = k;
  safe_done : ∀ k a, attempts (s_tables s) !! k = Some a → DoneAt a ≠ None → k ∈ s_handled s;
  safe_dead : ∀ k a, attempts (s_tables s) !! k = Some a → DeadAt a ≠ None → k ∈ s_gaveup s;
  safe_type : ∀ id o, outbox (s_tables s) !! id = Some o → s_published s !! id = Some (o_EventType o);
  safe_processed : ∀ id o, outbox (s_tables s) !! id = Some o → o_ProcessedAt o ≠ None →
    all_concluded (s_handled s) (s_gaveup s) id (o_EventType o);
  safe_gone : ∀ id ty, s_published s !! id = Some ty → outbox (s_tables s) !! id = None →
    all_concluded (s_handled s) (s_gaveup s) id ty;
  safe_fresh : ∀ id ty, s_published s !! id = Some ty → id <= lastID (s_tables s);
  safe_flight : ∀ f, f ∈ s_flight s → fl_consumer f ∈ consumers ∧
    s_published s !! ce_ID (fl_event f) = Some (c_event (fl_consumer f))
}.

Lemma safe_start now : safe (start now).
Proof. split; cbn; intros *; rewrite ?lookup_empty; try done. by intros ?%elem_of_nil. Qed.

Lemma all_concluded_mono h g h' g' id ty :
  h ⊆ h' → g ⊆ g' → all_concluded h g id ty → all_concluded h' g' id ty.
Proof. intros Hh Hg H c Hc. destruct (H c Hc); [left|right]; set_solver. Qed.

Lemma safe_publish t now fl pub h g requestID source ty envelope created :
  safe (mkSys t now fl pub h g) →
  safe (mkSys (insertEvent requestID source ty envelope created t) now fl (<[lastID t + 1 := ty]> pub) h g).
Proof.
  intros []; cbn in *.
  assert (pub !! (lastID t + 1) = None) as Hnew.
  { destruct (pub !! (lastID t + 1)) eqn:E; [|done]. apply safe_fresh0 in E. lia. }
  split; cbn; try done.
  - intros id o [[<- <-]|[Hne Ho]]%lookup_insert_Some; [by rewrite lookup_insert_eq|].
    rewrite lookup_insert_ne by done. by apply safe_type0.
  - intros id o [[<- <-]|[Hne Ho]]%lookup_insert_Some; [done|]. by apply safe_processed0.
  - intros id ty' [[<- <-]|[Hne Hp]]%lookup_insert_Some; [by rewrite lookup_insert_eq|].
    rewrite lookup_insert_ne by done. by apply safe_gone0.
  - intros id ty' [[<- <-]|[Hne Hp]]%lookup_insert_Some; [lia|]. apply safe_fresh0 in Hp. lia.
  - intros f Hf. destruct (safe_flight0 f Hf) as [Hc Hp]. split; [done|]. rewrite lookup_insert_ne; [done|].
    intros E. rewrite <-E, Hnew in Hp. done.
Qed.

(** What an entry of the attempts is after a lease. *)
Lemma lease_lookup consumer cands now until t k a :
  attempts (lease_tx consumer cands now until t).2 !! k = Some a →
  attempts t !! k = Some a ∨
  ∃ c, c ∈ (lease_tx consumer cands now until t).1 ∧ k = (ce_ID c, consumer) ∧
       a = leased (attempts t !! k) (leaseRow consumer now until c).
Proof.
  intros Ha. destruct (decide (Exists (λ c, k = (ce_ID c, consumer)) (lease_tx consumer cands now until t).1)) as [Hx|Hx].
  - apply list.Exists_exists in Hx as (c & Hc & ->). right. exists c. rewrite lease_row in Ha by done. naive_solver.
  - left. rewrite lease_other in Ha; [done|]. intros c Hc ->. apply Hx, list.Exists_exists. eauto.
Qed.

Lemma safe_lease t now fl pub h g c cands read :
  c ∈ consumers → (∀ id, id ∈ cands → pub !! id = Some (c_event c)) → safe (mkSys t now fl pub h g) →
  let until := read + claimLease in
  safe (mkSys (lease_tx (c_name c) cands read until t).2 now
    (((λ ev, mkFlight c ev until) <$> (lease_tx (c_name c) cands read until t).1) ++ fl) pub h g).
Proof.
  intros Hc Hcands []. proj. destruct (lease_outbox (c_name c) cands read (read + claimLease) t) as [Eo El].
  split; proj; rewrite ?Eo, ?El; try done.
  - intros k a [Ha|(ev & Hev & -> & ->)]%lease_lookup; [eauto|].
    destruct (attempts t !! (ce_ID ev, c_name c)) eqn:E; [|done]. exact (safe_keys0 _ _ E).
  - intros k a [Ha|(ev & Hev & -> & ->)]%lease_lookup; [eauto|].
    destruct (attempts t !! (ce_ID ev, c_name c)) eqn:E; [|done]. cbn. eauto.
  - intros k a [Ha|(ev & Hev & -> & ->)]%lease_lookup; [eauto|].
    destruct (attempts t !! (ce_ID ev, c_name c)) eqn:E; [|done]. cbn. eauto.
  - intros f [(ev & -> & Hev)%list_elem_of_fmap|Hf]%elem_of_app; [|eauto]. cbn. split; [done|].
    apply elem_of_claimed in Hev as (o & _ & Hin & _). by apply Hcands.
Qed.

Lemma outcomeRow_fields c ev err now :
  key_of (outcomeRow c ev err now) = (ce_ID ev, c_name c) ∧ EventID (outcomeRow c ev err now) = ce_ID ev ∧
  (DoneAt (outcomeRow c ev err now) ≠ None → err = None).
Proof. unfold outcomeRow. by repeat case_match. Qed.

Lemma siblings_elem c : c ∈ consumers → c_name c ∈ siblings consumers (c_event c).
Proof.
  intros Hc. unfold siblings. apply list_elem_of_fmap. exists c. split; [done|].
  apply elem_of_filter_bool. split; [done|]. by apply bool_decide_eq_true.
Qed.

Lemma safe_finish t now fl1 f fl2 pub h g err read :
  safe (mkSys t now (fl1 ++ f :: fl2) pub h g) →
  let row := outcomeRow (fl_consumer f) (fl_event f) err read in
  safe (mkSys (finish_tx row (siblings consumers (c_event (fl_consumer f))) t).2 now (fl1 ++ fl2) pub
    (handled_with f err h) (gaveup_with f row g)).
Proof.
  intros Hs row. pose proof (outcomeRow_fields (fl_consumer f) (fl_event f) err read) as (Hk & Hid & Hdone). fold row in Hk, Hid, Hdone.
  assert (h ⊆ handled_with f err h) as Hh by (unfold handled_with; destruct err; set_solver).
  assert (g ⊆ gaveup_with f row g) as Hg by (unfold gaveup_with; case_bool_decide; set_solver).
  destruct Hs; proj. set (sibs := siblings consumers (c_event (fl_consumer f))).
  destruct (safe_flight0 f) as [Hc Hp]; [set_solver|].
  destruct (finish_outbox row sibs t) as [El Eo]. rewrite (finish_attempts row sibs t) in Eo.
  (* rows of the new table *)
  assert (∀ k a, <[key_of row := row]> (attempts t) !! k = Some a → DoneAt a ≠ None → k ∈ handled_with f err h) as Hd1.
  { intros k a [[<- <-]|[_ Ha]]%lookup_insert_Some Hda; [|by eapply Hh, safe_done0].
    rewrite Hk. unfold handled_with. rewrite (Hdone Hda). unfold fl_key. set_solver. }
  assert (∀ k a, <[key_of row := row]> (attempts t) !! k = Some a → DeadAt a ≠ None → k ∈ gaveup_with f row g) as Hd2.
  { intros k a [[<- <-]|[_ Ha]]%lookup_insert_Some Hda; [|by eapply Hg, safe_dead0].
    rewrite Hk. unfold gaveup_with. rewrite bool_decide_eq_true_2 by done. unfold fl_key. set_solver. }
  split; proj; rewrite ?(finish_attempts row sibs t), ?El; try done.
  - intros k a [[<- <-]|[_ Ha]]%lookup_insert_Some; eauto.
  - intros id o Ho. destruct Eo as [Eo|(_ & _ & Eo)]; rewrite Eo in Ho; [eauto|].
    apply lookup_alter_Some in Ho as [(<- & o' & Ho' & ->)|[_ Ho]]; cbn; eauto.
  - intros id o Ho Hpr. destruct Eo as [Eo|(_ & Hall & Eo)]; rewrite Eo in Ho;
      [eapply all_concluded_mono; eauto|].
    apply lookup_alter_Some in Ho as [(<- & o' & Ho' & ->)|[_ Ho]]; [|eapply all_concluded_mono; eauto].
    cbn. rewrite Hid in *. pose proof (safe_type0 _ _ Ho') as Hty. rewrite Hp in Hty. injection Hty as <-.
    intros c' Hc'. destruct (Hall c' Hc') as (a & Ha & Hfin). unfold finished in Hfin.
    apply orb_true_iff in Hfin as [Hd%bool_decide_eq_true|Hd%bool_decide_eq_true]; [left|right]; eauto.
  - intros id ty Hty Hgone. eapply all_concluded_mono; eauto. apply safe_gone0; [done|].
    destruct Eo as [Eo|(_ & _ & Eo)]; rewrite Eo in Hgone; [done|]. by apply lookup_alter_None in Hgone.
  - intros f' Hf'. apply safe_flight0. set_solver.
Qed.

Lemma safe_retry t now fl pub h g id consumer read :
  (revive id consumer read t).1 = 1%nat → is_Some (outbox t !! id) → safe (mkSys t now fl pub h g) →
  safe (mkSys (retry_tx id consumer read t).2 now fl pub h (g ∖ {[(id, consumer)]})).
Proof.
  intros (a & Ha & Hda & Ea & Eo & El)%revive_row Hex []; proj.
  split; proj; rewrite ?Ea, ?El, ?Eo; try done.
  - intros k a' [[<- <-]|[_ Ha']]%lookup_insert_Some; [|eauto]. exact (safe_keys0 _ _ Ha).
  - intros k a' [[<- <-]|[_ Ha']]%lookup_insert_Some; [|eauto]. cbn. eauto.
  - intros k a' [[<- <-]|[Hne Ha']]%lookup_insert_Some; [done|]. intros Hd.
    pose proof (safe_dead0 _ _ Ha' Hd). set_solver.
  - intros id' o [(<- & o' & Ho' & ->)|[_ Ho]]%lookup_alter_Some; cbn; eauto.
  - intros id' o [(<- & o' & Ho' & ->)|[Hne Ho]]%lookup_alter_Some; [done|]. intros Hpr c Hc.
    destruct (safe_processed0 _ _ Ho Hpr c Hc); [by left|right]. set_solver.
  - intros id' ty Hty Hgone%lookup_alter_None c Hc. destruct (safe_gone0 _ _ Hty Hgone c Hc); [by left|right].
    destruct (decide (id' = id)) as [->|]; [|set_solver]. rewrite Hgone in Hex. by destruct Hex.
Qed.

Lemma safe_prune t now fl pub h g ids cutoff :
  safe (mkSys t now fl pub h g) → safe (mkSys (prune_tx ids cutoff t).2 now fl pub h g).
Proof.
  intros []; proj; split; proj; try done.
  - intros [id c] a. rewrite prune_attempts. case_decide; naive_solver.
  - intros [id c] a. rewrite prune_attempts. case_decide; naive_solver.
  - intros [id c] a. rewrite prune_attempts. case_decide; naive_solver.
  - intros id o. rewrite prune_outbox. case_decide; naive_solver.
  - intros id o. rewrite prune_outbox. case_decide; naive_solver.
  - intros id ty Hty. rewrite prune_outbox. case_decide as Hd; [|by apply safe_gone0]. intros _.
    apply elem_of_doomed in Hd as (o & Ho & _ & Hp & _). pose proof (safe_type0 _ _ Ho). simplify_eq.
    apply (safe_processed0 id o); [done|]. unfold processedBefore in Hp. by destruct (o_ProcessedAt o).
Qed.

Lemma safe_letters t now fl pub h g ids cutoff :
  safe (mkSys t now fl pub h g) → safe (mkSys (deleteDead ids cutoff t).2 now fl pub h g).
Proof.
  intros []; proj; split; proj; try done.
  all: intros [id c] a [Ha _]%deleteDead_attempts; eauto.
Qed.

Lemma queue_safe_step late s s' : step late s s' → safe s → safe s'.
Proof.
  destruct 1; intros Hs.
  - by apply safe_publish.
  - by apply safe_lease.
  - by apply safe_finish.
  - destruct Hs; split; try done. cbn in *. intros f' Hf'. apply safe_flight0. set_solver.
  - by apply safe_retry.
  - by apply safe_prune.
  - by apply safe_letters.
  - by destruct Hs; split.
Qed.

Lemma queue_reachable_safe late s : reachable late s → safe s.
Proof.
  intros (now & Hr). assert (safe (start now)) as Hs by apply safe_start.
  induction Hr; eauto using queue_safe_step.
Qed.
(** Whatever was published is handled or given up by each of its consumers, or
    waits in the outbox and comes due. *)
Lemma nothing_lost late s id ty c :
  reachable late s → s_published s !! id = Some ty → c ∈ siblings consumers ty →
  concluded (s_handled s) (s_gaveup s) (id, c) ∨
  ∃ from, ∀ now, from <= now → id ∈ due_ids (s_tables s) c ty now.
Proof.
  intros Hs%queue_reachable_safe Hp Hc. destruct Hs.
  destruct (outbox (s_tables s) !! id) as [o|] eqn:Ho; [|left; by apply (safe_gone0 id ty)].
  pose proof (safe_type0 _ _ Ho) as Hty. rewrite Hp in Hty. injection Hty as ->.
  destruct (decide (o_ProcessedAt o = None)) as [Hn|Hn]; [|left; by apply (safe_processed0 id o)].
  assert (∀ now, match attempts (s_tables s) !! (id, c) with None => true | Some a => negb (finished a) && (NextAttemptAt a <=? now) end = true →
    id ∈ due_ids (s_tables s) c (o_EventType o) now) as Hdue.
  { intros now Hm. apply elem_of_select. exists o. split; [done|]. unfold is_due. rewrite Hm.
    by rewrite !bool_decide_eq_true_2. }
  destruct (attempts (s_tables s) !! (id, c)) as [a|] eqn:Ea; [|right; exists 0; intros now _; by apply Hdue].
  destruct (finished a) eqn:Ef.
  - left. unfold finished in Ef. apply orb_true_iff in Ef as [Hd%bool_decide_eq_true|Hd%bool_decide_eq_true]; [left|right]; eauto.
  - right. exists (NextAttemptAt a). intros now Hnow. apply Hdue. cbn. by apply Z.leb_le.
Qed.

(** ** One worker at a time

    For one event and consumer, until an outcome of that pair is recorded late. *)

Definition live (s : sys) (f : flight) : bool := s_now s <? fl_until f.

Definition live_at (k : Z * string) (s : sys) (f : flight) : bool := live s f && bool_decide (fl_key f = k).

Lemma live_at_spec k s f : live_at k s f = true ↔ s_now s < fl_until f ∧ fl_key f = k.
Proof. unfold live_at, live. by rewrite andb_true_iff, Z.ltb_lt, bool_decide_eq_true. Qed.

Record exclusive (k : Z * string) (s : sys) : Prop := mkExclusive {
  ex_row : ∀ f, f ∈ s_flight s → live_at k s f = true →
    ∃ a, attempts (s_tables s) !! k = Some a ∧ finished a = false ∧ NextAttemptAt a = fl_until f;
  ex_once : NoDup (fl_key <$> List.filter (live_at k s) (s_flight s));
  ex_processed : ∀ o a, outbox (s_tables s) !! k.1 = Some o → o_ProcessedAt o ≠ None →
    k.2 ∈ siblings consumers (o_EventType o) → attempts (s_tables s) !! k = Some a → finished a = true
}.

(** A worker of the pair records an outcome when its lease has ended. *)
Inductive late_outcome (k : Z * string) : sys → sys → Prop :=
| late_finish t now fl1 f fl2 pub h g err read :
    fl_key f = k → fl_until f <= now →
    let row := outcomeRow (fl_consumer f) (fl_event f) err read in
    late_outcome k (mkSys t now (fl1 ++ f :: fl2) pub h g)
      (mkSys (finish_tx row (siblings consumers (c_event (fl_consumer f))) t).2 now (fl1 ++ fl2) pub
         (handled_with f err h) (gaveup_with f row g)).

Lemma exclusive_start k now : exclusive k (start now).
Proof. split; cbn; intros *; rewrite ?lookup_empty; try done; [by intros ?%elem_of_nil|constructor]. Qed.

Lemma filter_sublist {A} (p q : A → bool) (l : list A) :
  (∀ x, p x = true → q x = true) → List.filter p l `sublist_of` List.filter q l.
Proof.
  intros Hpq. induction l as [|x l IH]; cbn; [done|]. destruct (p x) eqn:Ep.
  - rewrite (Hpq _ Ep). by constructor.
  - destruct (q x); [by constructor|done].
Qed.

Lemma filter_of_sublist {A} (p : A → bool) (l l' : list A) :
  l `sublist_of` l' → List.filter p l `sublist_of` List.filter p l'.
Proof. induction 1 as [|x l l' H IH|x l l' H IH]; cbn; [done|..]; destruct (p x); try done; by constructor. Qed.

(** A live worker's event is not processed. *)
Lemma live_unprocessed k s f o :
  safe s → exclusive k s → f ∈ s_flight s → live_at k s f = true → outbox (s_tables s) !! k.1 = Some o →
  o_ProcessedAt o = None.
Proof.
  intros Hs [Hr _ Hp] Hf Hl Ho. destruct (decide (o_ProcessedAt o = None)) as [|Hn]; [done|exfalso].
  destruct (Hr f Hf Hl) as (a & Ha & Hfin & _). apply live_at_spec in Hl as [_ <-].
  destruct (safe_flight _ Hs f Hf) as [Hc Hpub]. pose proof (safe_type _ Hs _ _ Ho) as Hty. cbn in Hty.
  rewrite Hpub in Hty. injection Hty as Hty. rewrite (Hp _ a Ho Hn) in Hfin; [done| |done].
  rewrite <-Hty. by apply siblings_elem.
Qed.

Lemma exclusive_lease k t now fl pub h g c cands read :
  read <= now → exclusive k (mkSys t now fl pub h g) →
  let until := read + claimLease in
  exclusive k (mkSys (lease_tx (c_name c) cands read until t).2 now
    (((λ ev, mkFlight c ev until) <$> (lease_tx (c_name c) cands read until t).1) ++ fl) pub h g).
Proof.
  intros Hread [Hr Ho Hp] until. proj.
  destruct (lease_outbox (c_name c) cands read until t) as [Eo _].
  assert (∀ f ev, f ∈ fl → now < fl_until f → fl_key f = k → ev ∈ (lease_tx (c_name c) cands read until t).1 →
    k ≠ (ce_ID ev, c_name c)) as Hdis.
  { intros f ev Hf Hl Hk Hev E. destruct (Hr f Hf) as (a & Ha & Hfin & Hn); [by apply live_at_spec|]. rewrite E in Ha.
    apply elem_of_claimed in Hev as (o & _ & _ & _ & _ & _ & Hm). rewrite Ha in Hm. lia. }
  split; proj.
  - intros f [(ev & -> & Hev)%list_elem_of_fmap|Hf]%elem_of_app [Hl Hk]%live_at_spec.
    + change (fl_key _) with (ce_ID ev, c_name c) in Hk. subst k. rewrite lease_row by done. eexists. split; [done|].
      apply elem_of_claimed in Hev as (o & _ & _ & _ & _ & _ & Hm).
      destruct (attempts t !! (ce_ID ev, c_name c)); cbn; [|done]. by destruct Hm.
    + rewrite lease_other by eauto. apply Hr; [done|]. by apply live_at_spec.
  - rewrite List.filter_app, fmap_app. apply list.NoDup_app. split; [|split; [|done]].
    + eapply sublist_NoDup; [|apply (fmap_sublist fl_key), (filter_sublist _ (λ _, true)); done].
      assert (∀ l : list flight, List.filter (λ _, true) l = l) as -> by (induction l; cbn; congruence).
      rewrite <-list_fmap_compose. change (fl_key ∘ _) with (λ ev, (ce_ID ev, c_name c)).
      rewrite list_fmap_compose with (f := ce_ID) (g := λ i, (i, c_name c)).
      apply NoDup_fmap_2; [intros ?? [=]; done|apply NoDup_claimed].
    + intros x (f1 & -> & [(ev & -> & Hev)%list_elem_of_fmap [_ E1]%live_at_spec]%elem_of_filter_bool)%list_elem_of_fmap
        (f2 & _ & [Hf2 [Hl2 E2]%live_at_spec]%elem_of_filter_bool)%list_elem_of_fmap.
      by apply (Hdis f2 ev Hf2 Hl2 E2 Hev).
  - intros o a. rewrite Eo. intros Hout Hpr Hc' [Ha|(ev & Hev & -> & ->)]%lease_lookup; [eauto|].
    apply elem_of_claimed in Hev as (o' & Ho' & _ & Hn & _). cbn in Hout. congruence.
Qed.

(** An outcome keeps the pair exclusive, unless it is the pair's and late. *)
Lemma exclusive_finish k t now fl1 f fl2 pub h g err read :
  (fl_key f = k → now < fl_until f) →
  safe (mkSys t now (fl1 ++ f :: fl2) pub h g) → exclusive k (mkSys t now (fl1 ++ f :: fl2) pub h g) →
  let row := outcomeRow (fl_consumer f) (fl_event f) err read in
  exclusive k (mkSys (finish_tx row (siblings consumers (c_event (fl_consumer f))) t).2 now (fl1 ++ fl2) pub
    (handled_with f err h) (gaveup_with f row g)).
Proof.
  intros Htime Hs He row. set (sibs := siblings consumers (c_event (fl_consumer f))).
  destruct (outcomeRow_fields (fl_consumer f) (fl_event f) err read) as (Hk & Hid & _). fold row in Hk, Hid.
  assert (f ∈ fl1 ++ f :: fl2) as Hin by set_solver.
  assert (∀ o, fl_key f = k → outbox t !! k.1 = Some o → o_ProcessedAt o = None) as Hunp.
  { intros o E. apply (live_unprocessed k _ f o Hs He Hin). apply live_at_spec. auto. }
  destruct (safe_flight _ Hs f Hin) as [_ Hpub]. pose proof (safe_type _ Hs) as Htype.
  destruct He as [Hr Ho Hp]. proj. rewrite List.filter_app in Ho. cbn in Ho.
  destruct (finish_outbox row sibs t) as [_ Eo]. rewrite (finish_attempts row sibs t) in Eo.
  assert (∀ f', f' ∈ fl1 ++ fl2 → now < fl_until f' → fl_key f' = k → fl_key f ≠ k) as Hdis.
  { intros f' Hf' Hl' E' E. pose proof (Htime E) as Hl.
    rewrite (proj2 (live_at_spec k (mkSys t now (fl1 ++ f :: fl2) pub h g) f)), fmap_app, fmap_cons in Ho by done.
    apply list.NoDup_app in Ho as (_ & H12 & [Hn2 _]%list.NoDup_cons). apply elem_of_app in Hf' as [Hf'|Hf'].
    - apply (H12 (fl_key f)); [|set_solver]. rewrite E, <-E'. apply list_elem_of_fmap_2, elem_of_filter_bool. by rewrite live_at_spec.
    - apply Hn2. rewrite E, <-E'. apply list_elem_of_fmap_2, elem_of_filter_bool. by rewrite live_at_spec. }
  split; proj; rewrite ?(finish_attempts row sibs t).
  - intros f' Hf' [Hl' E']%live_at_spec. rewrite lookup_insert_ne; [apply Hr; [set_solver|by apply live_at_spec]|].
    rewrite Hk. by apply (Hdis f').
  - rewrite List.filter_app, fmap_app. eapply sublist_NoDup; [exact Ho|]. rewrite fmap_app.
    apply sublist_app; [done|]. case_match; [by apply sublist_cons|done].
  - intros o a Hout Hpr Hc. destruct Eo as [Eo|(Hf & Hall & Eo)]; rewrite Eo in Hout.
    + intros [[E <-]|[_ Ha]]%lookup_insert_Some; [|eauto]. rewrite Hk in E. by rewrite (Hunp o E Hout) in Hpr.
    + apply lookup_alter_Some in Hout as [(E & o' & Ho' & ->)|[Hne Hout]].
      * cbn in Hc. rewrite Hid in *. pose proof (Htype _ _ Ho') as Hty. rewrite E in Hpub. rewrite Hpub in Hty. injection Hty as Hty.
        rewrite <-Hty in Hc. destruct (Hall k.2 Hc) as (a' & Ha' & Hf'). rewrite E in Ha'. destruct k. naive_solver.
      * intros [[E <-]|[_ Ha]]%lookup_insert_Some; [|eauto]. rewrite Hk in E. by destruct Hne; rewrite Hid, <-E.
Qed.

Lemma exclusive_rows k t t' now fl pub h g g' :
  exclusive k (mkSys t now fl pub h g) →
  (∀ f a, f ∈ fl → now < fl_until f → fl_key f = k → attempts t !! k = Some a → finished a = false →
     attempts t' !! k = Some a) →
  (∀ o a, outbox t' !! k.1 = Some o → o_ProcessedAt o ≠ None → attempts t' !! k = Some a →
     outbox t !! k.1 = Some o ∧ attempts t !! k = Some a) →
  exclusive k (mkSys t' now fl pub h g').
Proof.
  intros [Hr Ho Hp] Hrows Hout. proj. split; proj; [|done|].
  - intros f Hf Hl. destruct (Hr f Hf Hl) as (a & Ha & Hfin & Hn). apply live_at_spec in Hl as [Hl E]. eauto.
  - intros o a Ho' Hpr Hc Ha. destruct (Hout _ _ Ho' Hpr Ha). eauto.
Qed.

Lemma exclusive_retry k t now fl pub h g id consumer read :
  (revive id consumer read t).1 = 1%nat → exclusive k (mkSys t now fl pub h g) →
  exclusive k (mkSys (retry_tx id consumer read t).2 now fl pub h (g ∖ {[(id, consumer)]})).
Proof.
  intros (a & Ha & Hda & Ea & Eo & _)%revive_row He. eapply exclusive_rows; [exact He| |]; rewrite Ea.
  - intros f a' Hf Hl Hk Ha' Hfin. rewrite lookup_insert_ne; [done|]. intros E. rewrite <-E, Ha in Ha'. simplify_eq.
    unfold finished in Hfin. rewrite (bool_decide_eq_true_2 (DeadAt a' ≠ None)), orb_true_r in Hfin by done. done.
  - rewrite Eo. intros o a' [(_ & o' & _ & ->)|[Hne Ho]]%lookup_alter_Some Hp; [done|].
    rewrite lookup_insert_ne; [done|]. intros <-. done.
Qed.

Lemma exclusive_prune k t now fl pub h g ids cutoff :
  safe (mkSys t now fl pub h g) → exclusive k (mkSys t now fl pub h g) →
  exclusive k (mkSys (prune_tx ids cutoff t).2 now fl pub h g).
Proof.
  intros Hs He. eapply exclusive_rows; [exact He| |].
  - intros f a Hf Hl Hk Ha Hfin. destruct k as [id c]. rewrite prune_attempts. case_decide as Hd; [exfalso|done].
    apply elem_of_doomed in Hd as (o & Ho & _ & Hp & _).
    assert (o_ProcessedAt o = None) as Hn by (eapply (live_unprocessed (id, c) _ f); eauto; by apply live_at_spec).
    unfold processedBefore in Hp. by rewrite Hn in Hp.
  - destruct k as [id c]. intros o a. cbn [fst]. rewrite prune_outbox, prune_attempts. by case_decide.
Qed.

Lemma exclusive_letters k t now fl pub h g ids cutoff :
  exclusive k (mkSys t now fl pub h g) → exclusive k (mkSys (deleteDead ids cutoff t).2 now fl pub h g).
Proof.
  intros He. eapply exclusive_rows; [exact He| |]; destruct k as [id c].
  - intros f a Hf Hl Hk Ha Hfin. apply deleteDead_attempts. split; [done|].
    apply andb_false_iff. right. apply not_true_is_false. intros [H _]%deadBefore_dead. congruence.
  - intros o a Ho _ [Ha _]%deleteDead_attempts. done.
Qed.

Lemma exclusive_publish k t now fl pub h g requestID source ty envelope created :
  exclusive k (mkSys t now fl pub h g) →
  exclusive k (mkSys (insertEvent requestID source ty envelope created t) now fl (<[lastID t + 1 := ty]> pub) h g).
Proof.
  intros He. destruct (exclusive_rows k t (insertEvent requestID source ty envelope created t) now fl pub h g g He) as [Hr Ho Hp].
  - done.
  - cbn. intros o a [[_ <-]|[_ Ho]]%lookup_insert_Some Hp; done.
  - by split.
Qed.

(** Dropping workers, or time that passes, leaves fewer of them live. *)
Lemma exclusive_fewer k t now now' fl fl' pub h g :
  now <= now' → fl' `sublist_of` fl → exclusive k (mkSys t now fl pub h g) → exclusive k (mkSys t now' fl' pub h g).
Proof.
  intros Hle Hsub [Hr Ho Hp]. proj. split; proj; [|..|done].
  - intros f Hf [Hl E]%live_at_spec. apply Hr; [by eapply elem_of_sublist|]. apply live_at_spec. proj. split; [lia|done].
  - eapply sublist_NoDup; [exact Ho|]. apply (fmap_sublist fl_key). etrans.
    + apply (filter_sublist _ (live_at k (mkSys t now fl pub h g))). intros f [Hl E]%live_at_spec. apply live_at_spec. proj. split; [lia|done].
    + by apply filter_of_sublist.
Qed.

(** A step keeps the pair exclusive or is a late outcome of it. *)
Lemma exclusive_step late k s s' : step late s s' → safe s → exclusive k s → exclusive k s' ∨ late_outcome k s s'.
Proof.
  destruct 1; intros Hs He.
  - left. by apply exclusive_publish.
  - left. by apply exclusive_lease.
  - destruct (decide (fl_key f = k ∧ fl_until f <= now)) as [[Hk Hl]|Hn]; [right; by constructor|left].
    apply exclusive_finish; [|done..]. intros Hk. destruct (Z.lt_ge_cases now (fl_until f)); [done|]. by destruct Hn.
  - left. eapply exclusive_fewer; [done| |exact He]. apply sublist_app; [done|]. by apply sublist_cons.
  - left. by apply exclusive_retry.
  - left. by apply exclusive_prune.
  - left. by apply exclusive_letters.
  - left. by eapply exclusive_fewer.
Qed.

(** A pair is exclusive until an outcome of it is recorded late. *)
Lemma reachable_exclusive late k s : reachable late s →
  exclusive k s ∨ ∃ s1 s2, reachable late s1 ∧ late_outcome k s1 s2 ∧ rtc (step late) s2 s.
Proof.
  intros (now & Hr). revert Hr. generalize (start now), (exclusive_start k now), (safe_start now), (ex_intro _ now (rtc_refl _ _) : reachable late (start now)).
  intros s0 He Hs H0 Hr. induction Hr as [s|s s1 s2 H1 Hr IH]; [by left|].
  assert (reachable late s1) as Hr1 by (destruct H0 as (n & H0); exists n; by eapply rtc_r).
  destruct (exclusive_step _ _ _ _ H1 Hs He) as [He1|Hlate]; [|right; eauto].
  apply IH; [done|by eapply queue_safe_step|done].
Qed.

(** Two live workers of an exclusive pair are one. *)
Lemma exclusive_distinct k s i j f1 f2 :
  exclusive k s → s_flight s !! i = Some f1 → s_flight s !! j = Some f2 →
  live_at k s f1 = true → live_at k s f2 = true → i = j.
Proof.
  intros [_ Ho _]. generalize (s_flight s), Ho. clear Ho. intros l. revert i j.
  induction l as [|x l IH]; intros i j Hn Hi Hj H1 H2; [done|].
  assert (∀ n f, l !! n = Some f → live_at k s x = true → live_at k s f = true → False) as Hhead.
  { intros n f Hf Hx Hl. cbn in Hn. rewrite Hx in Hn. apply list.NoDup_cons in Hn as [Hn _]. apply Hn.
    apply live_at_spec in Hx as [_ ->]. pose proof (proj1 (live_at_spec _ _ _) Hl) as [_ <-].
    apply list_elem_of_fmap_2, elem_of_filter_bool. split; [by eapply list_elem_of_lookup_2|done]. }
  destruct i as [|i], j as [|j]; [done|..]; cbn in Hi, Hj.
  - injection Hi as ->. exfalso. by eapply (Hhead j).
  - injection Hj as ->. exfalso. by eapply (Hhead i).
  - f_equal. eapply IH; try done. cbn in Hn. destruct (live_at k s x); [|done]. by apply list.NoDup_cons in Hn as [_ ?].
Qed.
End Steps.

(** * How often a consumer tries (src/event/worker.go, queue.go)

    Between two retries of a dead letter a consumer with [n] attempts fails at most
    [n] times: every row and every claim in flight keeps to it. *)

Section Bounds.
Variable consumers : list Consumer.
Hypothesis Hnames : NoDup (c_name <$> consumers).
Hypothesis Hretry : ∀ c, c ∈ consumers → 1 <= r_attempts (c_retry c).

Definition row_bounded (c : Consumer) (a : attemptRow) : Prop :=
  0 <= Attempts a <= r_attempts (c_retry c) ∧ (finished a = false → Attempts a < r_attempts (c_retry c)) ∧
  (DeadAt a ≠ None → 1 <= Attempts a).

Record bounded (s : sys) : Prop := mkBounded {
  bd_rows : ∀ k a c, attempts (s_tables s) !! k = Some a → c ∈ consumers → c_name c = k.2 → row_bounded c a;
  bd_flight : ∀ f, f ∈ s_flight s → fl_consumer f ∈ consumers ∧
    0 <= ce_Attempts (fl_event f) < r_attempts (c_retry (fl_consumer f))
}.

Lemma same_name c d : c ∈ consumers → d ∈ consumers → c_name c = c_name d → c = d.
Proof.
  intros (i & Hi)%list_elem_of_lookup (j & Hj)%list_elem_of_lookup E.
  assert (i = j) as ->; [|congruence]. eapply NoDup_lookup; [exact Hnames| |]; rewrite list_lookup_fmap.
  - by rewrite Hi.
  - rewrite Hj. cbn. by rewrite E.
Qed.

Lemma outcome_bounded c ev err now :
  0 <= ce_Attempts ev < r_attempts (c_retry c) → row_bounded c (outcomeRow c ev err now).
Proof.
  intros H. unfold row_bounded, outcomeRow. destruct err as [err|]; [|cbn; split_and!; try done; lia].
  destruct (errors_Is _ _); [cbn; split_and!; try done; lia|].
  destruct (Z.leb_spec (r_attempts (c_retry c)) (ce_Attempts ev + 1)); cbn; split_and!; try done; lia.
Qed.

Lemma bounded_lease t now fl pub h g c cands read :
  c ∈ consumers → bounded (mkSys t now fl pub h g) →
  let until := read + claimLease in
  bounded (mkSys (lease_tx (c_name c) cands read until t).2 now
    (((λ ev, mkFlight c ev until) <$> (lease_tx (c_name c) cands read until t).1) ++ fl) pub h g).
Proof.
  intros Hc [Hr Hf] until. proj.
  assert (∀ ev, ev ∈ (lease_tx (c_name c) cands read until t).1 → 0 <= ce_Attempts ev < r_attempts (c_retry c)) as Hev.
  { intros ev (o & _ & _ & _ & _ & _ & Ha)%elem_of_claimed. pose proof (Hretry c Hc).
    destruct (attempts t !! (ce_ID ev, c_name c)) as [a|] eqn:E; [|lia]. destruct Ha as (Hfin & _ & ->).
    destruct (Hr _ _ c E Hc eq_refl) as (? & Hlt & _). specialize (Hlt Hfin). lia. }
  split; proj.
  - intros k a d [Ha|(ev & Hin & -> & ->)]%lease_lookup Hd Hn; [by eapply Hr|]. cbn in Hn.
    rewrite (same_name d c Hd Hc Hn). specialize (Hev ev Hin). unfold leased.
    destruct (attempts t !! (ce_ID ev, c_name c)) as [a|] eqn:E; [exact (Hr _ _ c E Hc eq_refl)|].
    unfold row_bounded. cbn. split_and!; try done; lia.
  - intros f [(ev & -> & Hin)%list_elem_of_fmap|?]%elem_of_app; [|by apply Hf]. cbn. split; [done|by apply Hev].
Qed.

Lemma bounded_finish t now fl1 f fl2 pub h g h' g' err read :
  bounded (mkSys t now (fl1 ++ f :: fl2) pub h g) →
  bounded (mkSys (finish_tx (outcomeRow (fl_consumer f) (fl_event f) err read)
    (siblings consumers (c_event (fl_consumer f))) t).2 now (fl1 ++ fl2) pub h' g').
Proof.
  intros [Hr Hf]. proj. destruct (Hf f) as [Hc Hb]; [set_solver|]. split; proj; [|intros f' ?; apply Hf; set_solver].
  rewrite finish_attempts. intros k a d [[<- <-]|[_ Ha]]%lookup_insert_Some Hd Hn; [|by eapply Hr].
  destruct (outcomeRow_fields (fl_consumer f) (fl_event f) err read) as (Hk & _). rewrite Hk in Hn. cbn in Hn.
  rewrite (same_name d _ Hd Hc Hn). by apply outcome_bounded.
Qed.

(** Rows that went away. *)
Lemma bounded_fewer t t' now now' fl pub h g :
  (∀ k a, attempts t' !! k = Some a → attempts t !! k = Some a) →
  bounded (mkSys t now fl pub h g) → bounded (mkSys t' now' fl pub h g).
Proof. intros Hsub [Hr Hf]. split; proj; eauto. Qed.

Lemma bounded_step late s s' : step consumers late s s' → bounded s → bounded s'.
Proof.
  destruct 1 as [| | |t now fl1 f fl2 pub h g|t now fl pub h g id consumer read Ho Hrev|t now fl pub h g ids cutoff| |]; intros Hb.
  - destruct Hb. by split.
  - by apply bounded_lease.
  - by eapply bounded_finish.
  - destruct Hb as [Hr Hf]. split; proj; [done|]. intros f' ?. apply Hf. set_solver.
  - destruct Hb as [Hr Hf]. destruct (revive_row _ _ _ _ Hrev) as (a & Ha & _ & Ea & _). split; proj; [|done].
    rewrite Ea. intros k a' d [[<- <-]|[_ Ha']]%lookup_insert_Some Hd Hn; [|by eapply Hr].
    pose proof (Hretry d Hd). unfold row_bounded. cbn. split_and!; try done; lia.
  - eapply bounded_fewer; [|exact Hb]. intros [i c] a. rewrite prune_attempts. by case_decide.
  - eapply bounded_fewer; [|exact Hb]. intros [i c] a Ha. by apply deleteDead_attempts in Ha as [? _].
  - by eapply bounded_fewer.
Qed.

Lemma reachable_bounded late s : reachable consumers late s → bounded s.
Proof.
  intros (now & Hr). assert (bounded (start now)) as Hs by (split; cbn; intros *; [by rewrite lookup_empty|by rewrite elem_of_nil]).
  induction Hr; eauto using bounded_step.
Qed.
End Bounds.
