(* ===== verification/QueueRuns.v ===== *)
(** * The queue's operations are runs of its steps (src/event)

    Each operation of the queue, run to its end, is a sequence of the steps of
    [QueueFacts], whatever statements fail on the way and whenever the context
    ends. What every interleaving keeps is therefore kept by the operations. *)

From stdpp Require Import relations.
From S2P Require Import Prelude Clock Apperr Lease Sql Queue Housekeeping QueueFacts.

Local Open Scope Z_scope.

Lemma whole_le t : whole t <= t.
Proof. unfold whole. pose proof (Z.mod_pos_bound t Time.Second). assert (0 < Time.Second) by done. lia. Qed.

Definition flights (c : Consumer) (until : Z) (evs : list claimedEvent) : list flight :=
  (λ ev, mkFlight c ev until) <$> evs.

Section Runs.
Variable consumers : list Consumer.
Variable out : Outside.
Variable unmarshal : string → result Envelope.

(** [s] has the tables of [e] and a time that the clock has not passed. *)
Definition matches (s : sys) (t : Tables) : Prop := s_tables s = t ∧ safe consumers s ∧ ∀ n, clock out n <= s_now s.

(** From [s] the steps lead to a state with the tables [t], the same workers in
    flight and the same events published. *)
Definition leads (s : sys) (t : Tables) : Prop :=
  ∃ s', rtc (step consumers True) s s' ∧ matches s' t ∧ s_flight s' = s_flight s ∧ s_published s' = s_published s.

Lemma leads_refl s t : matches s t → leads s t.
Proof. intros H. exists s. done. Qed.

Lemma leads_step s s1 t1 t :
  step consumers True s s1 → matches s1 t1 → s_flight s1 = s_flight s → s_published s1 = s_published s →
  leads s1 t → leads s t.
Proof.
  intros Hs Hm Hf Hp (s' & Hr & Hm' & Hf' & Hp'). exists s'. split; [by eapply rtc_l|].
  repeat split; try apply Hm'; congruence.
Qed.

Lemma leads_trans s t1 t2 : leads s t1 → (∀ s1, matches s1 t1 → s_flight s1 = s_flight s → s_published s1 = s_published s → leads s1 t2) → leads s t2.
Proof.
  intros (s1 & Hr & Hm & Hf & Hp) Hk. destruct (Hk s1 Hm Hf Hp) as (s2 & Hr2 & Hm2 & Hf2 & Hp2).
  exists s2. split; [by etrans|]. repeat split; try apply Hm2; congruence.
Qed.

Lemma matches_step s s' t : step consumers True s s' → matches s t → s_now s' = s_now s → matches s' (s_tables s').
Proof. intros Hst (_ & Hs & Hc) Hn. split; [done|]. split; [by eapply queue_safe_step|]. intros n. rewrite Hn. done. Qed.

(** A worker that never records its outcome. *)
Lemma abandon_all s t c until evs fl :
  matches s t → s_flight s = flights c until evs ++ fl →
  ∃ s', rtc (step consumers True) s s' ∧ matches s' t ∧ s_flight s' = fl ∧ s_published s' = s_published s.
Proof.
  revert s. induction evs as [|ev evs IH]; intros s Hm Hf; [by exists s|]. destruct s as [tt now fl0 pub h g]. proj. subst fl0.
  assert (step consumers True (mkSys tt now (flights c until (ev :: evs) ++ fl) pub h g)
    (mkSys tt now (flights c until evs ++ fl) pub h g)) as Hst by (apply (step_abandon _ _ _ _ [])).
  pose proof (matches_step _ _ _ Hst Hm eq_refl) as Hm'. destruct Hm as (E & _). proj. subst tt.
  destruct (IH _ Hm' eq_refl) as (s' & Hr & ?). exists s'. split; [by eapply rtc_l|done].
Qed.

(** [conclude] records the outcome or fails to. *)
Lemma conclude_run s c ev until fl err e :
  c ∈ consumers → matches s (tables e) → s_flight s = mkFlight c ev until :: fl →
  ∃ s', rtc (step consumers True) s s' ∧ matches s' (tables (conclude out consumers c ev err e)) ∧ s_flight s' = fl ∧
        s_published s' = s_published s.
Proof.
  intros Hc Hm Hf. unfold conclude. set (read := whole (clock out (moment e))). set (row := outcomeRow c ev err read).
  destruct (finish_effect out row (siblings consumers (c_event c)) (passed e)) as [(er & _ & E)|(_ & E)]; cbn [tables passed] in E; rewrite E.
  - destruct (abandon_all s (tables e) c until [ev] fl Hm Hf) as (s' & ?). by exists s'.
  - destruct s as [tt now fl0 pub h g]. proj. subst fl0. destruct Hm as (E' & Hm). proj. subst tt.
    pose proof (step_finish consumers True (tables e) now [] (mkFlight c ev until) fl pub h g err read (or_intror I)) as Hst.
    cbn [fl_consumer fl_event app] in Hst. fold row in Hst. eexists. split; [apply rtc_once, Hst|].
    split; [|done]. eapply (matches_step _ _ _ Hst); [|done]. split; [done|exact Hm].
Qed.

Lemma handle_loop_run c until due fl s e :
  c ∈ consumers → matches s (tables e) → s_flight s = flights c until due ++ fl →
  ∃ s', rtc (step consumers True) s s' ∧ matches s' (tables (handle_loop out unmarshal consumers c due e).2) ∧
        s_flight s' = fl ∧ s_published s' = s_published s.
Proof.
  intros Hc. revert s e. induction due as [|ev due IH]; intros s e Hm Hf; [by exists s|].
  cbn [handle_loop]. unfold Done. destruct (cancelled out (moment e)).
  { destruct (abandon_all s (tables e) c until (ev :: due) fl Hm Hf) as (s' & ?). by exists s'. }
  unfold process, run. destruct (handle _ _ _ _) as [err|].
  - unfold Done. destruct (cancelled out _).
    + destruct (abandon_all s (tables e) c until [ev] (flights c until due ++ fl) Hm Hf) as (s1 & Hr & Hm1 & Hf1 & Hp1).
      destruct (IH s1 (passed (passed (passed e))) Hm1 Hf1) as (s' & Hr' & Hm' & Hf' & Hp').
      exists s'. split; [by etrans|]. destruct (handle_loop _ _ _ _ _ _). split; [done|]. split; [done|congruence].
    + destruct (conclude_run s c ev until (flights c until due ++ fl) (Some err) (passed (passed (passed e))) Hc Hm Hf)
        as (s1 & Hr & Hm1 & Hf1 & Hp1).
      destruct (IH s1 _ Hm1 Hf1) as (s' & Hr' & Hm' & Hf' & Hp').
      exists s'. split; [by etrans|]. destruct (handle_loop _ _ _ _ _ _). split; [done|]. split; [done|congruence].
  - destruct (conclude_run s c ev until (flights c until due ++ fl) None (passed (passed e)) Hc Hm Hf)
      as (s1 & Hr & Hm1 & Hf1 & Hp1).
    destruct (IH s1 _ Hm1 Hf1) as (s' & Hr' & Hm' & Hf' & Hp').
    exists s'. split; [by etrans|]. destruct (handle_loop _ _ _ _ _ _). split; [done|]. split; [done|congruence].
Qed.

(** A lease and the handling of what it claimed. *)
Lemma lease_run c cands read s e :
  c ∈ consumers → matches s (tables e) → (∀ id, id ∈ cands → s_published s !! id = Some (c_event c)) → read <= s_now s →
  let r := lease out (c_name c) cands read (read + claimLease) e in
  leads s (tables (handleAll out unmarshal consumers c r.1 r.2).2).
Proof.
  intros Hc Hm Hty Hread r. destruct (lease_effect out (c_name c) cands read (read + claimLease) e) as [(er & E1 & E2)|(E1 & E2)];
    fold r in E1, E2; rewrite E1.
  - cbn. rewrite E2. by apply leads_refl.
  - unfold handleAll. destruct s as [tt now fl pub h g]. proj. pose proof Hm as (E & _). proj. subst tt.
    pose proof (step_lease consumers True (tables e) now fl pub h g c cands read Hc Hty Hread) as Hst.
    pose proof (matches_step _ _ _ Hst Hm eq_refl) as Hm1. proj. rewrite <-E2 in Hm1, Hst.
    destruct (handle_loop_run c (read + claimLease) (lease_tx (c_name c) cands read (read + claimLease) (tables e)).1 fl
      _ r.2 Hc Hm1 eq_refl) as (s' & Hr & Hm' & Hf' & Hp').
    exists s'. split; [by eapply rtc_l|]. destruct (handle_loop _ _ _ _ _ _). done.
Qed.

(** Statements outside a transaction that only read. *)
Lemma query_tables {A} (f : Tables → A) what e : tables (wrapping what (query out f) e).2 = tables e.
Proof. unfold wrapping, query, statement. destruct (fault _ _); done. Qed.

Lemma tick_run c s e :
  c ∈ consumers → matches s (tables e) → leads s (tables (tick out unmarshal consumers c e).2).
Proof.
  intros Hc Hm. unfold tick, claim. set (now := whole (clock out (moment e))).
  destruct (wrapping "select due events" (query out (λ t, take batchSize (due_ids t (c_name c) (c_event c) now))) (passed e)) as [o e1] eqn:E.
  pose proof (query_tables (λ t, take batchSize (due_ids t (c_name c) (c_event c) now)) "select due events" (passed e)) as Et.
  rewrite E in Et. cbn [snd tables passed] in Et.
  destruct o as [cands|err].
  - rewrite (stM_bind_step _ _ _ _ _ E). destruct (lease _ _ _ _ _ e1) as [cl e2] eqn:El.
    pose proof (lease_run c cands now s e1 Hc) as Hl. rewrite El in Hl. cbn [fst snd] in Hl. apply Hl; [by rewrite Et| |].
    + apply wrapping_Ok, query_inv in E as [-> _]. cbn [tables passed]. intros id Hid%(elem_of_take _ _ _).
      destruct Hid as (i & Hid & _). apply list_elem_of_lookup_2 in Hid.
      apply elem_of_select in Hid as (o & Ho & Hd). destruct Hm as (Es & Hs & _). rewrite <-Es in Ho.
      rewrite (safe_type _ _ Hs _ _ Ho). unfold is_due in Hd. f_equal.
      apply andb_true_iff in Hd as [[_ Hd%bool_decide_eq_true]%andb_true_iff _]. done.
    + destruct Hm as (_ & _ & Hclk). unfold now. pose proof (whole_le (clock out (moment e))). specialize (Hclk (moment e)). lia.
  - rewrite (stM_bind_stop _ _ _ _ _ E). cbn. rewrite Et. by apply leads_refl.
Qed.
Lemma drain_loop_run fuel c s e errs e' :
  c ∈ consumers → matches s (tables e) → drain_loop out unmarshal consumers fuel c e = Some (errs, e') → leads s (tables e').
Proof.
  intros Hc. revert s e errs. induction fuel as [|fuel IH]; intros s e errs Hm; [done|]. cbn [drain_loop].
  pose proof (tick_run c s e Hc Hm) as Ht. destruct (tick _ _ _ _ e) as [[[n errs1]|err] e1]; cbn in Ht; [|naive_solver].
  destruct (n <? batchSize)%nat; [naive_solver|].
  destruct (drain_loop _ _ _ fuel c e1) as [[errs2 e2]|] eqn:Ed; cbn; [|done]. intros [= <- <-].
  eapply leads_trans; [exact Ht|]. intros s1 Hm1 _ _. by eapply IH.
Qed.

Lemma drain_all_run fuel cs s e errs e' :
  (∀ c, c ∈ cs → c ∈ consumers) → matches s (tables e) → drain_all out unmarshal consumers fuel cs e = Some (errs, e') →
  leads s (tables e').
Proof.
  revert s e errs. induction cs as [|c cs IH]; intros s e errs Hc Hm; [intros [= <- <-]; by apply leads_refl|].
  cbn [drain_all]. destruct (drain_loop _ _ _ fuel c e) as [[errs1 e1]|] eqn:E1; [|done]. cbn.
  destruct (drain_all _ _ _ fuel cs e1) as [[errs2 e2]|] eqn:E2; [|done]. intros [= <- <-].
  eapply leads_trans; [eapply drain_loop_run; [|exact Hm|exact E1]; apply Hc; set_solver|].
  intros s1 Hm1 _ _. eapply IH; [|exact Hm1|exact E2]. intros. apply Hc. set_solver.
Qed.

Lemma lane_loop_run fuel c s e e' :
  c ∈ consumers → matches s (tables e) → lane_loop out unmarshal consumers fuel c e = Some e' → leads s (tables e').
Proof.
  intros Hc. revert s e. induction fuel as [|fuel IH]; intros s e Hm; [done|]. cbn [lane_loop]. unfold Done.
  destruct (cancelled _ _); [intros [= <-]; by apply leads_refl|].
  pose proof (tick_run c s (passed e) Hc Hm) as Ht.
  destruct (tick _ _ _ _ (passed e)) as [[[n errs1]|err] e1]; cbn in Ht; [|naive_solver].
  destruct (batchSize <=? n)%nat; [|naive_solver]. intros H. eapply leads_trans; [exact Ht|].
  intros s1 Hm1 _ _. by eapply IH.
Qed.

Lemma lane_run fuel c ids s e e' :
  c ∈ consumers → matches s (tables e) → (∀ id, id ∈ ids → s_published s !! id = Some (c_event c)) →
  lane out unmarshal consumers fuel c ids e = Some e' → leads s (tables e').
Proof.
  intros Hc Hm Hids. unfold lane. set (now := whole (clock out (moment e))).
  pose proof (lease_run c ids now s (passed e) Hc Hm Hids) as Hl.
  destruct (lease _ _ _ _ _ (passed e)) as [cl e1]. cbn [fst snd] in Hl.
  destruct (handleAll _ _ _ c cl e1) as [r e2]. cbn [snd] in Hl.
  assert (leads s (tables e2)) as Hl2.
  { apply Hl. destruct Hm as (_ & _ & Hclk). unfold now. pose proof (whole_le (clock out (moment e))).
    specialize (Hclk (moment e)). lia. }
  destruct r as [[n errs]|]; [|naive_solver]. destruct (batchSize <=? n)%nat; [|naive_solver].
  intros H. eapply leads_trans; [exact Hl2|]. intros s1 Hm1 _ _. by eapply lane_loop_run.
Qed.

(** An operation whose effect on the tables is one of the steps. *)
Lemma effect_run {A} (m : stM (Env Tables) error A) f s e :
  effect m f → matches s (tables e) →
  (∀ now fl pub h g, step consumers True (mkSys (tables e) now fl pub h g) (mkSys (f (tables e)).2 now fl pub h g)) →
  leads s (tables (m e).2).
Proof.
  intros Hm Hs Hst. destruct (Hm e) as [(err & _ & E)|(_ & E)]; rewrite E; [by apply leads_refl|].
  destruct s as [tt now fl pub h g]. pose proof Hs as (Et & _). proj. subst tt. specialize (Hst now fl pub h g).
  pose proof (matches_step _ _ _ Hst Hs eq_refl) as Hm'. proj. eapply leads_step; [exact Hst|exact Hm'|done..|]. by apply leads_refl.
Qed.

Lemma expire_loop_run fuel cutoff after s e err e' :
  matches s (tables e) → expire_loop out fuel cutoff after e = Some (err, e') → leads s (tables e').
Proof.
  revert s e after. induction fuel as [|fuel IH]; intros s e after Hm; [done|]. cbn [expire_loop].
  pose proof (query_tables (dead_ids cutoff after) "event housekeeping: select dead letters" e) as Eq.
  destruct (wrapping _ _ e) as [[[|id ids]|er] e1]; cbn [snd] in Eq; rewrite <-Eq in Hm;
    [intros [= <- <-]; by apply leads_refl| |intros [= <- <-]; by apply leads_refl].
  pose proof (effect_run _ _ s e1 (deleteLetters_effect out (id :: ids) cutoff) Hm) as Hd.
  destruct (deleteLetters _ _ _ e1) as [[n|er] e2]; cbn [snd] in Hd.
  - intros H. eapply leads_trans; [apply Hd; intros; apply step_letters|]. intros s1 Hm1 _ _. by eapply IH.
  - intros [= <- <-]. apply Hd. intros. apply step_letters.
Qed.

Lemma sweep_loop_run fuel cutoff after n s e r e' :
  matches s (tables e) → sweep_loop out fuel cutoff after n e = Some (r, e') → leads s (tables e').
Proof.
  revert s e after n. induction fuel as [|fuel IH]; intros s e after n Hm; [done|]. cbn [sweep_loop].
  match goal with |- context [wrapping ?w (query out ?f) e] => pose proof (query_tables f w e) as Eq end.
  destruct (wrapping _ _ e) as [[[|id ids]|er] e1]; cbn [snd] in Eq; rewrite <-Eq in Hm;
    [intros [= <- <-]; by apply leads_refl| |intros [= <- <-]; by apply leads_refl].
  pose proof (effect_run _ _ s e1 (prune_effect out (id :: ids) cutoff) Hm) as Hd.
  destruct (prune _ _ _ e1) as [[k|er] e2]; cbn [snd] in Hd.
  - intros H. eapply leads_trans; [apply Hd; intros; apply step_prune|]. intros s1 Hm1 _ _. by eapply IH.
  - intros [= <- <-]. apply Hd. intros. apply step_prune.
Qed.

Lemma Sweep_run fuel hk s e r e' : matches s (tables e) → Sweep out fuel hk e = Some (r, e') → leads s (tables e').
Proof.
  intros Hm. unfold Sweep, expireDeadLetters.
  destruct (deadFor hk <=? 0); [by apply sweep_loop_run|].
  destruct (expire_loop _ _ _ _ _) as [[[err|] e1]|] eqn:E; [| |done].
  - intros [= <- <-]. by eapply expire_loop_run in E.
  - intros H. eapply leads_trans; [by eapply expire_loop_run in E|]. intros s1 Hm1 _ _.
    by eapply sweep_loop_run in H.
Qed.

Lemma Retry_run id consumer s e : matches s (tables e) → leads s (tables (Retry out id consumer e).2).
Proof.
  intros Hm. destruct (Retry out id consumer e) as [[[]|err] e'] eqn:E; cbn.
  - apply Retry_inv in E as (Hex & Hrev & ->). destruct s as [tt now fl pub h g]. pose proof Hm as (Et & _). proj. subst tt.
    pose proof (step_retry consumers True (tables e) now fl pub h g id consumer _ Hex Hrev) as Hst.
    pose proof (matches_step _ _ _ Hst Hm eq_refl) as Hm'. proj. eapply leads_step; [exact Hst|exact Hm'|done..|]. by apply leads_refl.
  - apply Retry_Err in E. rewrite E. by apply leads_refl.
Qed.

Lemma retry_loop_run consumer ids n s e : matches s (tables e) → leads s (tables (retry_loop out consumer ids n e).2).
Proof.
  revert s e n. induction ids as [|id ids IH]; intros s e n Hm; [by apply leads_refl|]. cbn [retry_loop].
  pose proof (Retry_run id consumer s e Hm) as Hr. destruct (Retry _ _ _ e) as [[u|err] e1]; cbn [snd] in Hr.
  - eapply leads_trans; [exact Hr|]. intros s1 Hm1 _ _. by apply IH.
  - destruct (_ || _); [|done]. eapply leads_trans; [exact Hr|]. intros s1 Hm1 _ _. by apply IH.
Qed.

Lemma RetryAll_run consumer s e : matches s (tables e) → leads s (tables (RetryAll out consumer e).2).
Proof.
  intros Hm. unfold RetryAll.
  match goal with |- context [wrapping ?w (query out ?f) e] => pose proof (query_tables f w e) as Eq end.
  destruct (wrapping _ _ e) as [[ids|er] e1]; cbn [snd] in Eq; rewrite <-Eq in Hm; [by apply retry_loop_run|by apply leads_refl].
Qed.

(** ** Programs

    Any sequence of operations, by one process after another. *)
Inductive program : Type :=
| PPublish (tx : inTransaction) (ev : Event) (payload : string) (traceID : option string) (uuid : string)
| PTick (c : Consumer)
| PDrain (fuel : nat)
| PSweep (fuel : nat) (h : Housekeeper)
| PRetry (id : Z) (consumer : string)
| PRetryAll (consumer : string).

Variables (marshalPayload : string → result string) (marshal : Envelope → result string).

(** The environment after the operation; [None] when its loop needs more fuel. *)
Definition perform (p : program) (e : Env Tables) : option (Env Tables) :=
  match p with
  | PPublish tx ev payload traceID uuid => Some (Publish out marshalPayload marshal traceID uuid tx ev payload e).2
  | PTick c => Some (tick out unmarshal consumers c e).2
  | PDrain fuel => snd <$> Drain out unmarshal consumers fuel e
  | PSweep fuel h => snd <$> Sweep out fuel h e
  | PRetry id consumer => Some (Retry out id consumer e).2
  | PRetryAll consumer => Some (RetryAll out consumer e).2
  end.

Definition perform_all (ps : list program) (e : Env Tables) : option (Env Tables) :=
  foldl (λ acc p, e ← acc; perform p e) (Some e) ps.

Definition allowed (p : program) : Prop := match p with PTick c => c ∈ consumers | _ => True end.

Definition arrives (s : sys) (t : Tables) : Prop := ∃ s', rtc (step consumers True) s s' ∧ matches s' t.

Lemma leads_arrives s t : leads s t → arrives s t.
Proof. intros (s' & Hr & Hm & _). by exists s'. Qed.

Lemma Publish_run tx ev payload traceID uuid s e :
  matches s (tables e) → arrives s (tables (Publish out marshalPayload marshal traceID uuid tx ev payload e).2).
Proof.
  intros Hm. destruct tx; cbn [Publish snd]; try by apply leads_arrives, leads_refl.
  unfold publishOn. destruct (marshalPayload payload); [|by apply leads_arrives, leads_refl].
  destruct (marshal _); [|by apply leads_arrives, leads_refl].
  unfold wrapping, exec, statement. destruct (fault _ _); [by apply leads_arrives, leads_refl|]. cbn [snd tables passed].
  destruct s as [tt now fl pub h g]. pose proof Hm as (Et & _). proj. subst tt.
  match goal with |- arrives _ (insertEvent ?r ?src ?ty ?env ?cr _) =>
    pose proof (step_publish consumers True (tables e) now fl pub h g r src ty env cr) as Hst end.
  pose proof (matches_step _ _ _ Hst Hm eq_refl) as Hm'. eexists. split; [apply rtc_once, Hst|exact Hm'].
Qed.

Lemma perform_run p s e e' : allowed p → matches s (tables e) → perform p e = Some e' → arrives s (tables e').
Proof.
  intros Ha Hm Hp. destruct p as [tx ev payload traceID uuid|c|fuel|fuel hk|id c|c]; cbn in Hp.
  - injection Hp as <-. by apply Publish_run.
  - injection Hp as <-. apply leads_arrives. by apply tick_run.
  - unfold Drain in Hp. destruct (drain_all _ _ _ _ _ e) as [[errs e1]|] eqn:E; [|done]. cbn in Hp. injection Hp as <-.
    eapply leads_arrives, drain_all_run; [|exact Hm|exact E]. done.
  - destruct (Sweep _ _ _ e) as [[r e1]|] eqn:E; [|done]. cbn in Hp. injection Hp as <-.
    eapply leads_arrives, Sweep_run; [exact Hm|exact E].
  - injection Hp as <-. by apply leads_arrives, Retry_run.
  - injection Hp as <-. by apply leads_arrives, RetryAll_run.
Qed.

Lemma perform_all_run ps s e e' :
  Forall allowed ps → matches s (tables e) → perform_all ps e = Some e' → arrives s (tables e').
Proof.
  unfold perform_all. revert s e. induction ps as [|p ps IH]; intros s e Hps Hm; cbn.
  - intros [= <-]. by apply leads_arrives, leads_refl.
  - apply list.Forall_cons in Hps as [Hp Hps]. destruct (perform p e) as [e1|] eqn:E.
    + intros H. destruct (perform_run p s e e1 Hp Hm E) as (s1 & Hr & Hm1).
      destruct (IH s1 e1 Hps Hm1 H) as (s2 & Hr2 & Hm2). exists s2. split; [by etrans|done].
    + intros H. exfalso. clear -H. induction ps; [done|]. by apply IHps.
Qed.
End Runs.

(** * Delivery (src/event/worker.go)

    When the database answers, the context lasts and the clock stands still, as in
    the tests [Drain] is written for, draining the queue ends, and by then every
    event that was due for a consumer was handed to its handler and its outcome
    recorded. *)

(** ** Delays *)

Lemma doubled_min n longest d :
  0 < d → longest <= 2 ^ 62 → Z.min (doubled n longest d) longest = Z.min (d * 2 ^ Z.of_nat n) longest.
Proof.
  intros Hd Hl. revert d Hd. induction n as [|n IH]; intros d Hd; [f_equal; cbn; lia|]. cbn [doubled].
  rewrite Nat2Z.inj_succ, Z.pow_succ_r by lia. assert (0 < 2 ^ Z.of_nat n) by (apply Z.pow_pos_nonneg; lia).
  destruct (Z.ltb_spec d longest).
  - rewrite Int64.wrap_id; [|unfold Int64.min_value, Int64.max_value; lia]. rewrite IH by lia. f_equal. lia.
  - rewrite !Z.min_r; nia.
Qed.

Lemma delay_doubles p n :
  retryWorks p = true → maxDelay p <= 2 ^ 62 → 1 <= n → delay p n = Z.min (firstDelay p * 2 ^ (n - 1)) (maxDelay p).
Proof.
  intros [[_ Hf%Z.ltb_lt]%andb_true_iff _]%andb_true_iff Hm Hn. unfold delay. rewrite doubled_min by done.
  by rewrite Z2Nat.id by lia.
Qed.

Lemma delay_positive p n : retryWorks p = true → maxDelay p <= 2 ^ 62 → 0 < delay p n.
Proof.
  intros [[_ Hf%Z.ltb_lt]%andb_true_iff Hl%Z.leb_le]%andb_true_iff Hm. unfold delay. rewrite doubled_min by done.
  assert (0 < 2 ^ Z.of_nat (Z.to_nat (n - 1))) by (apply Z.pow_pos_nonneg; lia). nia.
Qed.

(** ** One batch *)

Lemma elem_of_due t consumer ty now id :
  id ∈ due_ids t consumer ty now ↔
  ∃ o, outbox t !! id = Some o ∧ o_ProcessedAt o = None ∧ o_EventType o = ty ∧
       ∀ a, attempts t !! (id, consumer) = Some a → finished a = false ∧ NextAttemptAt a <= now.
Proof.
  unfold due_ids. rewrite elem_of_select. unfold is_due. setoid_rewrite andb_true_iff. setoid_rewrite andb_true_iff.
  setoid_rewrite bool_decide_eq_true. split.
  - intros (o & Ho & [Hp Ht] & Ha). exists o. repeat split; try done; rewrite H in Ha;
      apply andb_true_iff in Ha as [?%negb_true_iff ?%Z.leb_le]; done.
  - intros (o & Ho & Hp & Ht & Ha). exists o. split; [done|]. split; [done|].
    destruct (attempts t !! (id, consumer)) as [a|]; [|done]. destruct (Ha a eq_refl) as [-> ?]. cbn. by apply Z.leb_le.
Qed.

Section Drain.
Variable out : Outside.
Variable unmarshal : string → result Envelope.
Variable consumers : list Consumer.
Variable T : Z.
Hypothesis Hfaults : faultless out.
Hypothesis Hctx : ∀ n, cancelled out n = false.
Hypothesis Hclock : ∀ n, clock out n = T.

Let now : Z := whole T.

Lemma Transaction_Ok {A} (body : stM (Env Tables) error A) e a e' :
  body e = (Ok a, e') → Transaction out body e = (Ok a, passed e').
Proof. intros E. unfold Transaction. by rewrite E, Hfaults. Qed.

Lemma finish_Ok row sibs e : (finish out row sibs e).1 = Ok ().
Proof.
  unfold finish, wrapping, Transaction, mbind, stM_bind, query, exec, statement, throw, mret, stM_ret.
  rewrite !Hfaults. repeat (case_match; simplify_eq/=; rewrite ?Hfaults in *; simplify_eq/=; try done).
Qed.

Lemma finish_tables row sibs e : tables (finish out row sibs e).2 = (finish_tx row sibs (tables e)).2.
Proof. apply (effect_faultless _ _ e (finish_effect out row sibs)). rewrite finish_Ok. done. Qed.

Lemma lease_Ok consumer cands read until e : ∃ l, (lease out consumer cands read until e).1 = Ok l.
Proof.
  unfold lease. destruct cands; [by eexists|].
  unfold wrapping, Transaction, mbind, stM_bind, query, exec, statement, throw, mret, stM_ret.
  rewrite !Hfaults. repeat (case_match; simplify_eq/=; rewrite ?Hfaults in *; simplify_eq/=; try done; eauto).
Qed.

Lemma lease_faultless consumer cands read until e :
  ∃ e', lease out consumer cands read until e = (Ok (lease_tx consumer cands read until (tables e)).1, e') ∧
        tables e' = (lease_tx consumer cands read until (tables e)).2.
Proof.
  pose proof (effect_faultless _ _ e (lease_effect out consumer cands read until)) as H.
  destruct (lease_Ok consumer cands read until e) as [l El]. rewrite El in H.
  destruct H as [E1 E2]; [done|]. exists (lease out consumer cands read until e).2. split; [|done].
  destruct (lease out consumer cands read until e). cbn in *. congruence.
Qed.

(** What a consumer recorded for an event that was handed to its handler. *)
Definition delivered (c : Consumer) (t t' : Tables) (id : Z) : Prop :=
  ∃ o ev n, outbox t !! id = Some o ∧ ce_ID ev = id ∧ ce_Envelope ev = o_Envelope o ∧
    attempts t' !! (id, c_name c) = Some (outcomeRow c ev (handle unmarshal c ev n) now).

(** The outbox row is as it was, or was processed because every consumer of the
    event had finished. *)
Definition settled (c : Consumer) (t t' : Tables) (id : Z) : Prop :=
  outbox t' !! id = outbox t !! id ∨
  ∃ o, outbox t !! id = Some o ∧ o_EventType o = c_event c ∧ outbox t' !! id = Some (set_processed (Some now) o) ∧
    ∀ c', c' ∈ siblings consumers (c_event c) → ∃ a, attempts t' !! (id, c') = Some a ∧ finished a = true.

Lemma run_tables c ev e :
  ∃ n, tables (run out unmarshal consumers c ev e).2 =
       (finish_tx (outcomeRow c ev (handle unmarshal c ev n) now) (siblings consumers (c_event c)) (tables e)).2.
Proof.
  exists (moment e). unfold run, conclude, Done. rewrite ?Hctx.
  destruct (handle unmarshal c ev (moment e)) as [err|] eqn:E; cbn [snd]; rewrite finish_tables, Hclock; done.
Qed.

Lemma handle_loop_tables c due e :
  NoDup (ce_ID <$> due) → (∀ ev, ev ∈ due → ∃ o, outbox (tables e) !! ce_ID ev = Some o ∧ o_EventType o = c_event c ∧ ce_Envelope ev = o_Envelope o) →
  let t' := tables (handle_loop out unmarshal consumers c due e).2 in
  (∀ ev, ev ∈ due → ∃ n, attempts t' !! (ce_ID ev, c_name c) = Some (outcomeRow c ev (handle unmarshal c ev n) now)) ∧
  (∀ k, k ∉ ((λ ev, (ce_ID ev, c_name c)) <$> due) → attempts t' !! k = attempts (tables e) !! k) ∧
  (∀ id, settled c (tables e) t' id) ∧ (∀ id, id ∉ ce_ID <$> due → outbox t' !! id = outbox (tables e) !! id).
Proof.
  revert e. induction due as [|ev due IH]; intros e Hn Hdue; cbn [handle_loop].
  { split; [by intros ? ?%elem_of_nil|]. split; [done|]. split; [|done]. intros id. by left. }
  apply list.NoDup_cons in Hn as [Hev Hn]. unfold Done. rewrite Hctx. unfold process.
  destruct (run_tables c ev (passed e)) as (n & E). cbn [tables passed] in E.
  destruct (run _ _ _ c ev (passed e)) as [er e1]. cbn [snd] in E.
  set (row := outcomeRow c ev (handle unmarshal c ev n) now) in *. set (sibs := siblings consumers (c_event c)) in *.
  assert (key_of row = (ce_ID ev, c_name c)) as Hk by apply outcomeRow_fields.
  assert (EventID row = ce_ID ev) as Hid by apply outcomeRow_fields.
  pose proof (finish_attempts row sibs (tables e)) as Ea. destruct (finish_outbox row sibs (tables e)) as [_ Eo].
  rewrite <-E in Ea, Eo. rewrite Hid in Eo.
  assert (∀ id, id ≠ ce_ID ev → outbox (tables e1) !! id = outbox (tables e) !! id) as Hother.
  { intros id Hne. destruct Eo as [->|(_ & _ & ->)]; [done|]. by rewrite lookup_alter_ne. }
  destruct (IH e1 Hn) as (H1 & H2 & H3 & H4).
  { intros ev' Hev'. rewrite Hother; [apply Hdue; by right|]. intros E'. apply Hev. rewrite <-E'. by apply list_elem_of_fmap_2. }
  destruct (handle_loop _ _ _ c due e1) as [errs e2]. cbn [snd] in *.
  assert (attempts (tables e2) !! (ce_ID ev, c_name c) = Some row) as Hrow.
  { rewrite H2, Ea, <-Hk; [by rewrite lookup_insert_eq|].
    intros (ev' & [= E'] & Hev')%list_elem_of_fmap. apply Hev. rewrite E'. by apply list_elem_of_fmap_2. }
  split; [|split; [|split]].
  - intros ev' [->|Hev']%elem_of_cons; [exists n; exact Hrow|by apply H1].
  - intros k [Hne Hk']%not_elem_of_cons. rewrite H2 by done. rewrite Ea, Hk. by rewrite lookup_insert_ne.
  - intros id. destruct (decide (id = ce_ID ev)) as [->|Hne].
    + unfold settled. rewrite H4 by done. destruct Eo as [Eo|(Hf & Hall & Eo)]; rewrite Eo; [by left|]. right.
      destruct (Hdue ev) as (o & Ho & Hty & _); [by left|]. exists o. split; [done|]. split; [done|].
      assert (UpdatedAt row = now) as -> by (unfold row, outcomeRow; by repeat case_match).
      rewrite lookup_alter_eq, Ho. split; [done|]. intros c' Hc'. destruct (Hall c' Hc') as (a & Ha & Hfa).
      destruct (decide (c' = c_name c)) as [->|Hc''].
      * exists row. done.
      * exists a. split; [|done]. rewrite H2; [done|]. intros (ev' & [= E1 E2] & _)%list_elem_of_fmap. congruence.
    + unfold settled. rewrite <-(Hother id Hne). apply H3.
  - intros id [Hne Hid']%not_elem_of_cons. rewrite H4 by done. by apply Hother.
Qed.
(** ** From batch to batch *)

Record drained (c : Consumer) (t t' : Tables) : Prop := mkDrained {
  dr_others : ∀ k, k.2 ≠ c_name c → attempts t' !! k = attempts t !! k;
  dr_outbox : ∀ id, settled c t t' id;
  dr_due : ∀ id, id ∈ due_ids t (c_name c) (c_event c) now →
    id ∈ due_ids t' (c_name c) (c_event c) now ∧ outbox t' !! id = outbox t !! id ∨ delivered c t t' id;
  dr_sub : ∀ id, id ∈ due_ids t' (c_name c) (c_event c) now → id ∈ due_ids t (c_name c) (c_event c) now;
  dr_rest : ∀ id, id ∉ due_ids t (c_name c) (c_event c) now → attempts t' !! (id, c_name c) = attempts t !! (id, c_name c)
}.

Lemma drained_refl c t : drained c t t.
Proof. split; try done; [intros id; by left|]. intros id Hid. by left. Qed.

Definition good_retry (c : Consumer) : Prop := retryWorks (c_retry c) = true ∧ maxDelay (c_retry c) <= 2 ^ 62.

(** What was delivered is not due again at once. *)
Lemma delivered_not_due c t t' id :
  good_retry c → delivered c t t' id → id ∉ due_ids t' (c_name c) (c_event c) now.
Proof.
  intros [Hr Hm] (o & ev & n & _ & _ & _ & Ha) (o' & _ & _ & _ & Hd)%elem_of_due.
  destruct (Hd _ Ha) as [Hf Hn]. unfold outcomeRow in Hf, Hn.
  destruct (handle unmarshal c ev n); [|done]. case_match; [by cbn in Hf|]. cbn in Hn.
  pose proof (delay_positive (c_retry c) (ce_Attempts ev + 1) Hr Hm). lia.
Qed.

Lemma drained_trans c t1 t2 t3 : good_retry c → drained c t1 t2 → drained c t2 t3 → drained c t1 t3.
Proof.
  intros Hg [A1 A2 A3 A4 A5] [B1 B2 B3 B4 B5]. split.
  - intros k Hk. by rewrite B1, A1.
  - intros id. destruct (A2 id) as [E|(o & Ho & Hty & Ho2 & Hall)].
    + destruct (B2 id) as [E'|(o & Ho & Hty & Ho3 & Hall)]; [left; congruence|right]. exists o. rewrite <-E. done.
    + right. exists o. split; [done|]. split; [done|].
      assert (id ∉ due_ids t2 (c_name c) (c_event c) now) as Hnd.
      { intros (o' & Ho' & Hp & _)%elem_of_due. rewrite Ho2 in Ho'. by simplify_eq. }
      destruct (B2 id) as [E'|(o' & Ho' & _ & Ho3 & Hall')].
      * split; [congruence|]. intros c' Hc'. destruct (Hall c' Hc') as (a & Ha & Hf). exists a. split; [|done].
        destruct (decide (c' = c_name c)) as [->|]; [by rewrite B5|by rewrite B1].
      * split; [|done]. rewrite Ho2 in Ho'. by simplify_eq.
  - intros id Hid. destruct (A3 id Hid) as [[Hd Eo]|Hdel].
    + destruct (B3 id Hd) as [[Hd' Eo']|(o & ev & n & Ho & H)]; [left; split; congruence|right].
      exists o, ev, n. rewrite <-Eo. done.
    + right. pose proof (delivered_not_due c t1 t2 id Hg Hdel) as Hnd.
      destruct Hdel as (o & ev & n & Ho & He & Hv & Ha). exists o, ev, n. by rewrite B5.
  - intros id Hid. by apply A4, B4.
  - intros id Hid. rewrite B5; [by apply A5|]. intros Hd. by apply Hid, A4.
Qed.

(** A claim takes every candidate that is due. *)
Lemma claimed_due c t cands :
  NoDup cands → (∀ id, id ∈ cands → id ∈ due_ids t (c_name c) (c_event c) now) →
  ce_ID <$> claimed_of (c_name c) cands now t ≡ₚ cands ∧
  ∀ ev, ev ∈ claimed_of (c_name c) cands now t →
    ∃ o, outbox t !! ce_ID ev = Some o ∧ o_EventType o = c_event c ∧ ce_Envelope ev = o_Envelope o.
Proof.
  intros Hn Hc. split.
  - apply NoDup_Permutation; [apply NoDup_claimed|done|]. intros id. rewrite list_elem_of_fmap. split.
    + intros (ev & -> & (o & _ & Hin & _)%elem_of_claimed). done.
    + intros Hin. pose proof (Hc id Hin) as (o & Ho & Hp & Hty & Ha)%elem_of_due.
      exists (mkClaimed id (o_EventType o) (o_Envelope o)
                (match attempts t !! (id, c_name c) with Some a => Attempts a | None => 0 end)).
      split; [done|]. apply elem_of_claimed. exists o. cbn [ce_ID ce_EventType ce_Envelope ce_Attempts].
      destruct (attempts t !! (id, c_name c)) as [a|]; [destruct (Ha a eq_refl)|]; done.
  - intros ev (o & Ho & Hin & _ & _ & Hv & _)%elem_of_claimed. exists o. split; [done|]. split; [|done].
    apply Hc, elem_of_due in Hin as (o' & Ho' & _ & Hty & _). congruence.
Qed.

(** One [tick]: the first events that are due are delivered. *)
Lemma tick_drains c e :
  good_retry c →
  ∃ n errs e', tick out unmarshal consumers c e = (Ok (n, errs), e') ∧ drained c (tables e) (tables e') ∧
    n = Nat.min batchSize (length (due_ids (tables e) (c_name c) (c_event c) now)) ∧
    (length (due_ids (tables e') (c_name c) (c_event c) now) + n <= length (due_ids (tables e) (c_name c) (c_event c) now))%nat.
Proof.
  intros Hg. unfold tick, claim. rewrite Hclock. fold now. set (due := due_ids (tables e) (c_name c) (c_event c) now).
  set (cands := take batchSize due).
  rewrite (stM_bind_step _ _ _ cands (passed (passed e))).
  2: { unfold wrapping, query. by rewrite statement_Ok by done. }
  destruct (lease_faultless (c_name c) cands now (now + claimLease) (passed (passed e))) as (e1 & -> & E1).
  cbn [tables passed] in E1 |- *. change ((lease_tx (c_name c) cands now (now + claimLease) (tables e)).1) with (claimed_of (c_name c) cands now (tables e)).
  assert (∀ id, id ∈ cands → id ∈ due) as Hcd by (intros id (i & Hi & _)%elem_of_take; by eapply list_elem_of_lookup_2).
  assert (NoDup due) as Hndue by apply NoDup_select.
  assert (NoDup cands) as Hnc by (eapply sublist_NoDup; [exact Hndue|apply sublist_take]).
  destruct (claimed_due c (tables e) cands Hnc Hcd) as [Hperm Hcl].
  set (cl := claimed_of (c_name c) cands now (tables e)) in *.
  assert (NoDup (ce_ID <$> cl)) as Hncl by apply NoDup_claimed.
  destruct (lease_outbox (c_name c) cands now (now + claimLease) (tables e)) as [Eo _]. rewrite <-E1 in Eo.
  assert (∀ k, k ∉ (λ ev, (ce_ID ev, c_name c)) <$> cl → attempts (tables e1) !! k = attempts (tables e) !! k) as Hle.
  { intros k Hk. rewrite E1. apply lease_other. intros ev Hev ->. apply Hk. apply list_elem_of_fmap. by exists ev. }
  destruct (handle_loop_tables c cl e1 Hncl) as (H1 & H2 & H3 & H4).
  { intros ev Hev. rewrite Eo. by apply Hcl. }
  unfold handleAll. destruct (handle_loop _ _ _ c cl e1) as [errs e2]. cbn [snd] in *.
  assert (∀ id, id ∈ cands → delivered c (tables e) (tables e2) id) as Hdel.
  { intros id Hid. rewrite <-Hperm in Hid. apply list_elem_of_fmap in Hid as (ev & -> & Hev).
    destruct (Hcl ev Hev) as (o & Ho & _ & Hv). destruct (H1 ev Hev) as (n & Ha). by exists o, ev, n. }
  assert (∀ id, id ∉ cands → attempts (tables e2) !! (id, c_name c) = attempts (tables e) !! (id, c_name c) ∧
    outbox (tables e2) !! id = outbox (tables e) !! id) as Hrest.
  { intros id Hid. assert (id ∉ ce_ID <$> cl) as Hid' by (by rewrite Hperm).
    assert ((id, c_name c) ∉ (λ ev, (ce_ID ev, c_name c)) <$> cl) as Hk.
    { intros (ev & [= ->] & Hev)%list_elem_of_fmap. apply Hid'. by apply list_elem_of_fmap_2. }
    rewrite H2, Hle, H4, Eo by done. done. }
  assert (∀ id, id ∈ due_ids (tables e2) (c_name c) (c_event c) now → id ∈ due ∧ id ∉ cands) as Hsub.
  { intros id Hid. assert (id ∉ cands) as Hn by (intros Hin; by apply (delivered_not_due c (tables e) (tables e2) id Hg (Hdel id Hin))).
    split; [|done]. destruct (Hrest id Hn) as [Ea Eo2]. apply elem_of_due. apply elem_of_due in Hid as (o & Ho & Hp & Hty & Ha).
    exists o. rewrite <-Eo2. split; [done|]. split; [done|]. split; [done|]. by rewrite <-Ea. }
  exists (length cl), errs, e2. split; [done|].
  assert (length cl = length cands) as Hlen by (rewrite <-(length_fmap ce_ID cl); by rewrite Hperm). split; [|split].
  - split.
    + intros [id n] Hk. cbn in Hk. assert ((id, n) ∉ (λ ev, (ce_ID ev, c_name c)) <$> cl) as Hk'.
      { intros (ev & [= -> ->] & _)%list_elem_of_fmap. done. }
      by rewrite H2, Hle.
    + intros id. destruct (H3 id) as [E|(o & Ho & H)]; [left; by rewrite E, Eo|right; exists o]. by rewrite <-Eo.
    + intros id Hid. destruct (decide (id ∈ cands)) as [Hin|Hn]; [right; by apply Hdel|left].
      destruct (Hrest id Hn) as [Ea Eo2]. split; [|done]. apply elem_of_due. apply elem_of_due in Hid as (o & Ho & Hp & Hty & Ha).
      exists o. rewrite Eo2. split; [done|]. split; [done|]. split; [done|]. by rewrite Ea.
    + intros id Hid. by apply Hsub.
    + intros id Hid. apply Hrest. intros Hin. by apply Hid, Hcd.
  - rewrite Hlen. unfold cands. by rewrite length_take.
  - rewrite Hlen, <-length_app. apply submseteq_length, NoDup_submseteq.
    + apply list.NoDup_app. split; [apply NoDup_select|]. split; [|done]. intros id Hid. by apply Hsub.
    + intros id [Hid|Hid]%elem_of_app; [by apply Hsub|by apply Hcd].
Qed.

(** Draining one consumer ends, with nothing due for it. *)
Lemma drain_loop_drains fuel c e :
  good_retry c → (length (due_ids (tables e) (c_name c) (c_event c) now) < fuel)%nat →
  ∃ errs e', drain_loop out unmarshal consumers fuel c e = Some (errs, e') ∧ drained c (tables e) (tables e') ∧
    due_ids (tables e') (c_name c) (c_event c) now = [].
Proof.
  intros Hg. revert e. induction fuel as [|fuel IH]; intros e Hf; [lia|]. cbn [drain_loop].
  destruct (tick_drains c e Hg) as (n & errs & e1 & -> & Hd & Hn & Hlen).
  destruct (Nat.ltb_spec n batchSize) as [Hlt|Hge].
  - exists errs, e1. split; [done|]. split; [done|]. apply nil_length_inv. lia.
  - destruct (IH e1) as (errs' & e' & -> & Hd' & Hnil); [unfold batchSize in *; lia|].
    exists (errs ++ errs'), e'. split; [done|]. split; [by eapply drained_trans|done].
Qed.

(** ** Every consumer *)

(** Draining one consumer leaves what is due for another one due. *)
Lemma drained_other c1 c2 t t' id :
  c2 ∈ consumers → c_name c1 ≠ c_name c2 → drained c1 t t' → id ∈ due_ids t (c_name c2) (c_event c2) now →
  id ∈ due_ids t' (c_name c2) (c_event c2) now ∧ outbox t' !! id = outbox t !! id.
Proof.
  intros Hc Hne [D1 D2 _ _ _] (o & Ho & Hp & Hty & Ha)%elem_of_due.
  destruct (D2 id) as [E|(o' & Ho' & Hty' & _ & Hall)].
  - split; [|done]. apply elem_of_due. exists o. rewrite E. split; [done|]. split; [done|]. split; [done|].
    rewrite D1; [done|by apply not_eq_sym].
  - exfalso. simplify_eq. destruct (Hall (c_name c2)) as (a & Ea & Hf).
    { rewrite <-Hty', Hty. by apply siblings_elem. }
    rewrite D1 in Ea by (by apply not_eq_sym). destruct (Ha a Ea). congruence.
Qed.

Lemma drained_nil c1 c2 t t' :
  c_name c1 ≠ c_name c2 → drained c1 t t' → due_ids t (c_name c2) (c_event c2) now = [] →
  due_ids t' (c_name c2) (c_event c2) now = [].
Proof.
  intros Hne [D1 D2 _ _ _] Hnil. apply elem_of_nil_inv. intros id (o & Ho & Hp & Hty & Ha)%elem_of_due.
  assert (id ∈ due_ids t (c_name c2) (c_event c2) now) as Hid; [|rewrite Hnil in Hid; by apply elem_of_nil in Hid].
  apply elem_of_due. destruct (D2 id) as [E|(o' & Ho' & _ & Ho2 & _)]; [|rewrite Ho2 in Ho; by simplify_eq].
  exists o. rewrite <-E. split; [done|]. split; [done|]. split; [done|].
  rewrite D1 in Ha; [done|by apply not_eq_sym].
Qed.

Lemma drained_delivered c1 c2 t t1 t2 id :
  c_name c1 ≠ c_name c2 → drained c1 t1 t2 → delivered c2 t t1 id → delivered c2 t t2 id.
Proof. intros Hne [D1 _ _ _ _] (o & ev & n & H1 & H2 & H3 & H4). exists o, ev, n. rewrite D1; [done|by apply not_eq_sym]. Qed.

Lemma drain_all_drains fuel cs e :
  (∀ c, c ∈ cs → c ∈ consumers ∧ good_retry c) → NoDup (c_name <$> cs) →
  (∀ c, c ∈ cs → length (due_ids (tables e) (c_name c) (c_event c) now) < fuel)%nat →
  ∃ errs e', drain_all out unmarshal consumers fuel cs e = Some (errs, e') ∧
    ∀ c, c ∈ cs → due_ids (tables e') (c_name c) (c_event c) now = [] ∧
      ∀ id, id ∈ due_ids (tables e) (c_name c) (c_event c) now → delivered c (tables e) (tables e') id.
Proof.
  intros Hcs Hn Hfuel.
  enough (∃ errs e', drain_all out unmarshal consumers fuel cs e = Some (errs, e') ∧
    (∀ c, c ∈ cs → due_ids (tables e') (c_name c) (c_event c) now = [] ∧
       ∀ id, id ∈ due_ids (tables e) (c_name c) (c_event c) now → delivered c (tables e) (tables e') id) ∧
    (∀ c, c_name c ∉ c_name <$> cs → due_ids (tables e) (c_name c) (c_event c) now = [] →
       due_ids (tables e') (c_name c) (c_event c) now = []) ∧
    ∀ c t id, c_name c ∉ c_name <$> cs → delivered c t (tables e) id → delivered c t (tables e') id)
    as (errs & e' & E & H & _) by (by exists errs, e').
  revert e Hfuel. induction cs as [|c cs IH]; intros e Hfuel; [exists [], e; split; [done|]; split; [by intros ? ?%elem_of_nil|done]|].
  apply list.NoDup_cons in Hn as [Hc Hn]. cbn [drain_all].
  destruct (drain_loop_drains fuel c e) as (errs1 & e1 & -> & Hd & Hnil); [apply Hcs; by left|apply Hfuel; by left|]. cbn.
  assert (∀ c2, c2 ∈ cs → c_name c ≠ c_name c2) as Hne.
  { intros c2 H2 E. apply Hc. rewrite E. by apply list_elem_of_fmap_2. }
  destruct IH with (e := e1) as (errs2 & e2 & -> & H1 & H2 & H3).
  { intros c2 ?. apply Hcs. by right. } { done. }
  { intros c2 Hc2. eapply Nat.le_lt_trans; [|apply (Hfuel c2); by right]. apply submseteq_length, NoDup_submseteq; [apply NoDup_select|].
    intros id (o & Ho & Hp & Hty & Ha)%elem_of_due. destruct Hd as [D1 D2 _ _ _]. apply elem_of_due.
    destruct (D2 id) as [E|(o' & Ho' & _ & Ho2 & _)]; [|rewrite Ho2 in Ho; by simplify_eq].
    exists o. rewrite <-E. split; [done|]. split; [done|]. split; [done|]. rewrite D1 in Ha; [done|]. cbn. by apply not_eq_sym, Hne. }
  exists (errs1 ++ errs2), e2. split; [done|]. split; [|split].
  - intros c2 [->|Hc2]%elem_of_cons.
    + split; [by apply H2|]. intros id Hid. apply H3; [done|].
      destruct (dr_due _ _ _ Hd id Hid) as [[Hd' _]|Hdel]; [|done]. rewrite Hnil in Hd'. by apply elem_of_nil in Hd'.
    + destruct (H1 c2 Hc2) as [Hn2 Hdel]. split; [done|]. intros id Hid.
      destruct (drained_other c c2 (tables e) (tables e1) id) as [Hid1 Eo]; [apply Hcs; by right|by apply Hne|done|done|].
      destruct (Hdel id Hid1) as (o & ev & n & Ho & H). exists o, ev, n. by rewrite <-Eo.
  - intros c2 [Hc2 Hc2']%not_elem_of_cons Hz. apply H2; [done|]. eapply drained_nil; [|exact Hd|done]. by apply not_eq_sym.
  - intros c2 t id [Hc2 Hc2']%not_elem_of_cons Hdel. apply H3; [done|]. eapply drained_delivered; [|exact Hd|done]. by apply not_eq_sym.
Qed.
End Drain.

(** * What a sweep deletes (src/event/housekeeping.go)

    When the database answers, a sweep ends after one round per batch and has
    deleted exactly the old processed events that no dead letter keeps, with their
    attempts, and the dead letters that were kept long enough. *)

(** ** A batch of a sorted list *)

Lemma last_take_le (l : list Z) x z : StronglySorted Z.le l → list.last l = Some z → x ∈ l → x <= z.
Proof.
  intros Hs Hl Hx. induction Hs as [|y l Hs IH Hy]; [done|]. destruct l as [|w l].
  - apply list_elem_of_singleton in Hx. cbn in Hl. simplify_eq. lia.
  - apply elem_of_cons in Hx as [->|Hx]; [|by apply IH]. rewrite list.Forall_forall in Hy. apply Hy.
    rewrite last_cons_cons in Hl. by apply last_Some_elem_of.
Qed.

Lemma take_last_lt (l : list Z) k x z :
  StronglySorted Z.le l → NoDup l → list.last (take k l) = Some z → x ∈ l → x ∉ take k l → z < x.
Proof.
  revert k. induction l as [|y l IH]; intros [|k] Hs Hn Hl Hx Hnx; try done.
  apply StronglySorted_inv in Hs as [Hs Hy]. apply list.NoDup_cons in Hn as [Hyl Hn]. cbn in Hl, Hnx.
  apply not_elem_of_cons in Hnx as [Hxy Hnx]. apply elem_of_cons in Hx as [->|Hx]; [done|].
  destruct (take k l) as [|w r] eqn:Et.
  - cbn in Hl. simplify_eq. rewrite list.Forall_forall in Hy. specialize (Hy x Hx). lia.
  - rewrite last_cons_cons, <-Et in Hl. apply (IH k); try done. by rewrite Et.
Qed.

Section Sweep.
Variable out : Outside.
Hypothesis Hfaults : faultless out.

Lemma query_Ok {A} (f : Tables → A) what e : wrapping what (query out f) e = (Ok (f (tables e)), mkEnv (tables e) (S (moment e))).
Proof. unfold wrapping, query. by rewrite statement_Ok by done. Qed.

Lemma prune_Ok ids cutoff e : ∃ n, (prune out ids cutoff e).1 = Ok n.
Proof.
  unfold prune, wrapping, Transaction, mbind, stM_bind, query, exec, statement, throw, mret, stM_ret.
  rewrite !Hfaults. repeat (case_match; simplify_eq/=; rewrite ?Hfaults in *; simplify_eq/=; try done; eauto).
Qed.

Lemma prune_faultless ids cutoff e :
  ∃ e', prune out ids cutoff e = (Ok (length (doomed_of ids cutoff (tables e))), e') ∧ tables e' = (prune_tx ids cutoff (tables e)).2.
Proof.
  destruct (prune_Ok ids cutoff e) as [n En]. pose proof (effect_faultless _ _ e (prune_effect out ids cutoff)) as H.
  rewrite En in H. destruct H as [E1 E2]; [done|]. exists (prune out ids cutoff e).2. split; [|done].
  destruct (prune out ids cutoff e). cbn in *. congruence.
Qed.

Lemma deleteLetters_faultless ids cutoff e :
  ∃ n e', deleteLetters out ids cutoff e = (Ok n, e') ∧ tables e' = (deleteDead ids cutoff (tables e)).2.
Proof.
  assert (∃ n, (deleteLetters out ids cutoff e).1 = Ok n) as [n En].
  { unfold deleteLetters, wrapping, Transaction, mbind, stM_bind, query, exec, statement, throw, mret, stM_ret.
    rewrite !Hfaults. repeat (case_match; simplify_eq/=; rewrite ?Hfaults in *; simplify_eq/=; try done; eauto). }
  pose proof (effect_faultless _ _ e (deleteLetters_effect out ids cutoff)) as H. rewrite En in H.
  destruct H as [E1 E2]; [done|]. exists n, (deleteLetters out ids cutoff e).2. split; [|done].
  destruct (deleteLetters out ids cutoff e). cbn in *. congruence.
Qed.

(** ** Processed events *)

(** What is left to delete after [after]. *)
Definition left_to_prune (t : Tables) (cutoff after : Z) : list Z :=
  select_ids (outbox t) (λ id o, (after <? id) && prunable t cutoff id o).

Lemma elem_of_left t cutoff after id :
  id ∈ left_to_prune t cutoff after ↔
  ∃ o, outbox t !! id = Some o ∧ after < id ∧ processedBefore cutoff o = true ∧ hasDead t id = false.
Proof.
  unfold left_to_prune. rewrite elem_of_select. unfold prunable.
  setoid_rewrite andb_true_iff. setoid_rewrite andb_true_iff. setoid_rewrite negb_true_iff. setoid_rewrite Z.ltb_lt. naive_solver.
Qed.

Lemma prune_hasDead ids cutoff t id : id ∉ doomed_of ids cutoff t → hasDead (prune_tx ids cutoff t).2 id = hasDead t id.
Proof.
  intros Hid. apply eq_true_iff_eq. rewrite !hasDead_spec.
  split; intros (c & a & Ha & Hd); exists c, a; rewrite prune_attempts, decide_False in * by done; done.
Qed.

Lemma doomed_batch t cutoff after k :
  let ids := take k (left_to_prune t cutoff after) in
  (∀ id, id ∈ doomed_of ids cutoff t ↔ id ∈ ids) ∧ length (doomed_of ids cutoff t) = length ids.
Proof.
  intros ids. assert (∀ id, id ∈ doomed_of ids cutoff t ↔ id ∈ ids) as Hiff.
  { intros id. rewrite elem_of_doomed. split; [naive_solver|]. intros Hid. pose proof Hid as (i & Hi & _)%elem_of_take.
    apply list_elem_of_lookup_2, elem_of_left in Hi as (o & Ho & _ & Hp & Hd). exists o. done. }
  split; [done|]. apply Permutation_length, NoDup_Permutation; [|eapply sublist_NoDup; [|apply sublist_take]; apply NoDup_select|done].
  unfold doomed_of. apply base.NoDup_ListNoDup, List.NoDup_filter, base.NoDup_ListNoDup.
  apply NoDup_select.
Qed.

(** After a batch the rest of the list is left. *)
Lemma left_after t cutoff after k z :
  let l := left_to_prune t cutoff after in let ids := take k l in
  list.last ids = Some z →
  ∀ id, id ∈ left_to_prune (prune_tx ids cutoff t).2 cutoff z ↔ id ∈ l ∧ id ∉ ids.
Proof.
  intros l ids Hz id. destruct (doomed_batch t cutoff after k) as [Hiff _]. fold l ids in Hiff.
  assert (StronglySorted Z.le l) as Hs by apply Sorted_select. assert (NoDup l) as Hn by apply NoDup_select.
  assert (z ∈ l) as Hzl by (apply last_Some_elem_of, elem_of_take in Hz as (i & Hi & _); by eapply list_elem_of_lookup_2).
  rewrite elem_of_left. setoid_rewrite prune_outbox. split.
  - intros (o & Ho & Hlt & Hp & Hd). case_decide as Hdm; [done|]. rewrite prune_hasDead in Hd by done.
    rewrite Hiff in Hdm. split; [|done]. apply elem_of_left. exists o. split; [done|]. split; [|done].
    apply elem_of_left in Hzl as (? & _ & ? & _). lia.
  - intros [Hl Hni]. pose proof (take_last_lt l k id z Hs Hn Hz Hl Hni) as Hlt.
    apply elem_of_left in Hl as (o & Ho & _ & Hp & Hd). exists o. rewrite decide_False by (by rewrite Hiff).
    rewrite prune_hasDead by (by rewrite Hiff). done.
Qed.

Lemma sweep_loop_deletes fuel cutoff after n e :
  (length (left_to_prune (tables e) cutoff after) < fuel)%nat →
  ∃ e', sweep_loop out fuel cutoff after n e =
          Some ((n + length (left_to_prune (tables e) cutoff after))%nat, None, e') ∧
    (∀ id, outbox (tables e') !! id = if decide (id ∈ left_to_prune (tables e) cutoff after) then None else outbox (tables e) !! id) ∧
    (∀ id c, attempts (tables e') !! (id, c) =
       if decide (id ∈ left_to_prune (tables e) cutoff after) then None else attempts (tables e) !! (id, c)).
Proof.
  revert after n e. induction fuel as [|fuel IH]; intros after n e Hf; [lia|]. cbn [sweep_loop]. rewrite query_Ok.
  fold (left_to_prune (tables e) cutoff after). set (l := left_to_prune (tables e) cutoff after) in *.
  destruct (take pruneBatch l) as [|x r] eqn:Et.
  { assert (l = []) as El by (destruct l; [done|by unfold pruneBatch in Et]).
    eexists. split; [rewrite El; cbn; by rewrite Nat.add_0_r|]. cbn. rewrite El. done. }
  destruct (prune_faultless (x :: r) cutoff (mkEnv (tables e) (S (moment e)))) as (e1 & -> & E1). cbn [tables] in *.
  destruct (doomed_batch (tables e) cutoff after pruneBatch) as [Hiff Hlen]. fold l in Hiff, Hlen. rewrite Et in Hiff, Hlen.
  assert (∃ z, list.last (x :: r) = Some z) as [z Hz].
  { destruct (list.last (x :: r)) eqn:Elast; [eauto|]. by apply last_None in Elast. }
  rewrite Hz. cbn [default from_option id]. pose proof (left_after (tables e) cutoff after pruneBatch z) as Hla. cbn zeta in Hla.
  fold l in Hla. rewrite Et in Hla. specialize (Hla Hz). rewrite <-E1 in Hla.
  assert (l ≡ₚ (x :: r) ++ left_to_prune (tables e1) cutoff z) as Hperm.
  { assert (NoDup l) as Hnl by apply NoDup_select.
    assert (∀ id, id ∈ x :: r → id ∈ l) as Hin.
    { intros id. rewrite <-Et. intros (i & Hi & _)%elem_of_take. by eapply list_elem_of_lookup_2. }
    apply NoDup_Permutation; [done| |].
    - apply list.NoDup_app. split; [rewrite <-Et; eapply sublist_NoDup; [exact Hnl|apply sublist_take]|].
      split; [|apply NoDup_select]. intros id Hid [_ Hn]%Hla. done.
    - intros id. rewrite elem_of_app, Hla. destruct (decide (id ∈ x :: r)); naive_solver. }
  assert (length l = (length (x :: r) + length (left_to_prune (tables e1) cutoff z))%nat) as Hl
    by (rewrite <-length_app; by rewrite Hperm).
  destruct (IH z (n + length (doomed_of (x :: r) cutoff (tables e)))%nat e1) as (e' & -> & Ho & Ha); [cbn in Hl; lia|].
  exists e'. split; [rewrite Hlen, Hl; do 3 f_equal; lia|].
  assert (∀ id, id ∈ l ↔ id ∈ doomed_of (x :: r) cutoff (tables e) ∨ id ∈ left_to_prune (tables e1) cutoff z) as Hmem.
  { intros id. by rewrite Hiff, Hperm, elem_of_app. }
  clear - Ho Ha E1 Hmem. rewrite E1 in *. split; intros id; [|intros c]; specialize (Hmem id);
    rewrite ?Ho, ?Ha, ?prune_outbox, ?prune_attempts; repeat case_decide; tauto.
Qed.

(** ** Dead letters *)

(** The events after [after] with a dead letter to expire, in order. *)
Definition letters_left (t : Tables) (cutoff after : Z) : list Z :=
  merge_sort Z.le (elements (list_to_set (C := gset Z)
    (omap (λ kv, if (after <? kv.1.1) && deadBefore cutoff kv.2 then Some kv.1.1 else None) (map_to_list (attempts t))))).

Lemma elem_of_letters_left t cutoff after id :
  id ∈ letters_left t cutoff after ↔ after < id ∧ ∃ c a, attempts t !! (id, c) = Some a ∧ deadBefore cutoff a = true.
Proof.
  unfold letters_left. rewrite merge_sort_Permutation, elem_of_elements, elem_of_list_to_set, list_elem_of_omap. split.
  - intros ([[i c] a] & Hin%elem_of_map_to_list & H). cbn in H. case_match eqn:E; simplify_eq.
    apply andb_true_iff in E as [E1%Z.ltb_lt E2]. eauto.
  - intros (Hlt & c & a & Ha & Hd). exists ((id, c), a). split; [by apply elem_of_map_to_list|]. cbn.
    rewrite (proj2 (Z.ltb_lt _ _) Hlt), Hd. done.
Qed.

Lemma NoDup_letters_left t cutoff after : NoDup (letters_left t cutoff after).
Proof. unfold letters_left. rewrite merge_sort_Permutation. apply NoDup_elements. Qed.

Lemma Sorted_letters_left t cutoff after : StronglySorted Z.le (letters_left t cutoff after).
Proof. apply StronglySorted_merge_sort; apply _. Qed.

(** What expiring leaves of the attempts. *)
Definition unexpired (cutoff after : Z) (rows : gmap (Z * string) attemptRow) : gmap (Z * string) attemptRow :=
  filter (λ kv, (after <? kv.1.1) && deadBefore cutoff kv.2 = false) rows.

Lemma letters_left_none t cutoff after : letters_left t cutoff after = [] → unexpired cutoff after (attempts t) = attempts t.
Proof.
  intros Hl. apply map_filter_id. intros [id c] a Ha. cbn. apply not_true_is_false. intros [Hlt%Z.ltb_lt Hd]%andb_true_iff.
  apply (not_elem_of_nil id). rewrite <-Hl. apply elem_of_letters_left. eauto.
Qed.

(** Deleting a batch and expiring after it is expiring. *)
Lemma unexpired_batch t cutoff after k z :
  let l := letters_left t cutoff after in let ids := take k l in let t' := (deleteDead ids cutoff t).2 in
  list.last ids = Some z →
  (∀ id, id ∈ letters_left t' cutoff z → id ∈ l ∧ id ∉ ids) ∧
  unexpired cutoff z (attempts t') = unexpired cutoff after (attempts t).
Proof.
  intros l ids t' Hz.
  assert (z ∈ l) as Hzl by (apply last_Some_elem_of, elem_of_take in Hz as (i & Hi & _); by eapply list_elem_of_lookup_2).
  apply elem_of_letters_left in Hzl as [Haz _].
  assert (∀ id, id ∈ l → id ∉ ids → z < id) as Hlt.
  { intros id. apply take_last_lt; [apply Sorted_letters_left|apply NoDup_letters_left|done]. }
  assert (∀ id, id ∈ ids → id ∈ l) as Hin by (intros id (i & Hi & _)%elem_of_take; by eapply list_elem_of_lookup_2).
  split.
  - intros id [Hzi (c & a & [Ha Hc]%deleteDead_attempts & Hd)]%elem_of_letters_left. rewrite Hd, andb_true_r in Hc.
    split; [|by intros Hi%contains_spec; congruence]. apply elem_of_letters_left. split; [lia|eauto].
  - apply map_eq. intros [id c]. apply option_eq. intros a. unfold unexpired, t'. cbn.
    rewrite !map_lookup_filter_Some. cbn. rewrite !andb_false_iff, !Z.ltb_nlt. destruct (deadBefore cutoff a) eqn:Hd; [|naive_solver].
    assert (attempts t !! (id, c) = Some a → after < id → id ∈ l) as Hl by (intros; apply elem_of_letters_left; eauto).
    split.
    + intros [[Ha [Hc|?]] [Hzi|?]]; try done. split; [done|]. left. intros Hai. apply Hzi, Hlt; [by apply Hl|].
      intros Hi%contains_spec. congruence.
    + intros [Ha [Hai|?]]; [|done]. split; [split; [done|]|left; lia]. left. apply not_true_is_false.
      intros Hi%contains_spec%Hin%elem_of_letters_left. tauto.
Qed.

Lemma expire_loop_deletes fuel cutoff after e :
  (length (letters_left (tables e) cutoff after) < fuel)%nat →
  ∃ e', expire_loop out fuel cutoff after e = Some (None, e') ∧
    outbox (tables e') = outbox (tables e) ∧ attempts (tables e') = unexpired cutoff after (attempts (tables e)).
Proof.
  revert after e. induction fuel as [|fuel IH]; intros after e Hf; [lia|]. cbn [expire_loop]. rewrite query_Ok.
  unfold dead_ids. fold (letters_left (tables e) cutoff after).
  destruct (take pruneBatch _) as [|x r] eqn:Et.
  { assert (letters_left (tables e) cutoff after = []) as El by (destruct (letters_left _ _ _); [done|by unfold pruneBatch in Et]).
    eexists. split; [done|]. split; [done|]. cbn. by rewrite letters_left_none. }
  destruct (deleteLetters_faultless (x :: r) cutoff (mkEnv (tables e) (S (moment e)))) as (n & e1 & -> & E1).
  cbn [tables] in *.
  assert (∃ z, list.last (x :: r) = Some z) as [z Hz].
  { destruct (list.last (x :: r)) eqn:Elast; [eauto|]. by apply last_None in Elast. }
  rewrite Hz. cbn [default from_option id].
  pose proof (unexpired_batch (tables e) cutoff after pruneBatch z) as H. cbn zeta in H. rewrite Et, <-E1 in H.
  destruct (H Hz) as [Hsub Hun]. destruct (IH z e1) as (e' & -> & Ho & Ha).
  - assert ((x :: r) ++ letters_left (tables e1) cutoff z ⊆+ letters_left (tables e) cutoff after) as Hsm%submseteq_length.
    { apply NoDup_submseteq.
      - apply list.NoDup_app. split; [rewrite <-Et; eapply sublist_NoDup; [|apply sublist_take]; apply NoDup_letters_left|].
        split; [by intros id Hid [_ Hn]%Hsub|apply NoDup_letters_left].
      - intros id [Hid|Hid]%elem_of_app; [|by apply Hsub]. rewrite <-Et in Hid. apply elem_of_take in Hid as (i & Hi & _).
        by eapply list_elem_of_lookup_2. }
    rewrite length_app in Hsm. cbn in Hsm. lia.
  - exists e'. split; [done|]. rewrite Ho, Ha, Hun, E1. done.
Qed.

Lemma letters_left_length t cutoff after : (length (letters_left t cutoff after) <= size (attempts t))%nat.
Proof.
  unfold letters_left. rewrite merge_sort_Permutation. rewrite <-(length_map_to_list (attempts t)).
  set (f := λ kv : Z * string * attemptRow, _). etrans; [|apply (omap_length f)].
  apply submseteq_length, NoDup_submseteq; [apply NoDup_elements|].
  intros id. by rewrite elem_of_elements, elem_of_list_to_set.
Qed.

(** What a sweep at time [T] leaves of the dead letters, and the events it deletes. *)
Definition kept_letters (h : Housekeeper) (T : Z) (t : Tables) : Tables :=
  if deadFor h <=? 0 then t else set_attempts t (unexpired (whole T - deadFor h) 0 (attempts t)).
Definition swept (h : Housekeeper) (T : Z) (t : Tables) : list Z :=
  left_to_prune (kept_letters h T t) (whole T - Retention) 0.

Lemma expireDeadLetters_keeps fuel h T e :
  (∀ m, clock out m = T) → (size (attempts (tables e)) < fuel)%nat →
  ∃ e', expireDeadLetters out fuel h e = Some (None, e') ∧
    outbox (tables e') = outbox (tables e) ∧ attempts (tables e') = attempts (kept_letters h T (tables e)).
Proof.
  intros HT Hf. unfold expireDeadLetters, kept_letters. destruct (_ <=? 0); [by exists e|]. rewrite HT.
  apply (expire_loop_deletes fuel (whole T - deadFor h) 0 (passed e)).
  pose proof (letters_left_length (tables (passed e)) (whole T - deadFor h) 0). cbn in *. lia.
Qed.

Lemma Sweep_deletes fuel h T e :
  (∀ m, clock out m = T) → (size (attempts (tables e)) + size (outbox (tables e)) < fuel)%nat →
  let doomed := swept h T (tables e) in
  ∃ e', Sweep out fuel h e = Some (length doomed, None, e') ∧
    (∀ id, outbox (tables e') !! id = if decide (id ∈ doomed) then None else outbox (tables e) !! id) ∧
    (∀ id c, attempts (tables e') !! (id, c) =
       if decide (id ∈ doomed) then None else attempts (kept_letters h T (tables e)) !! (id, c)).
Proof.
  intros HT Hf doomed. destruct (expireDeadLetters_keeps fuel h T e HT) as (e1 & E & Ho & Ha); [lia|].
  unfold Sweep. rewrite E, HT.
  assert (left_to_prune (tables e1) (whole T - Retention) 0 = doomed) as Hd.
  { unfold doomed, swept, left_to_prune, prunable, hasDead. rewrite Ho, Ha. unfold kept_letters. by destruct (_ <=? 0). }
  pose proof (sweep_loop_deletes fuel (whole T - Retention) 0 0 (passed e1)) as H. cbn [tables passed] in H.
  rewrite Hd, Ho, Ha in H. apply H. rewrite <-Hd.
  apply Nat.le_lt_trans with (size (outbox (tables e))); [rewrite <-Ho; apply select_length|lia].
Qed.
End Sweep.

(** * Retrying dead letters, and keys reserved once (src/event/deadletter.go,
    idempotency.go) *)

(** ** Retry *)

Definition is_dead (t : Tables) (id : Z) (consumer : string) : bool :=
  match attempts t !! (id, consumer) with Some a => bool_decide (DeadAt a ≠ None) | None => false end.

Definition revived (now : Z) (a : attemptRow) : attemptRow :=
  mkAttemptRow (EventID a) (Consumer_ a) 0 now (LastError a) (DoneAt a) None now.

Lemma revive_dead id consumer now t :
  revive id consumer now t = if is_dead t id consumer
    then (1%nat, set_attempts t (alter (revived now) (id, consumer) (attempts t))) else (0%nat, t).
Proof.
  unfold revive, is_dead. destruct (attempts t !! (id, consumer)) as [a|] eqn:E; [|done]. case_bool_decide; [|done].
  do 2 f_equal. apply map_eq. intros k. destruct (decide (k = (id, consumer))) as [->|Hne].
  - by rewrite lookup_insert_eq, lookup_alter_eq, E.
  - by rewrite lookup_insert_ne, lookup_alter_ne.
Qed.

Section Retry.
Variable out : Outside.
Hypothesis Hfaults : faultless out.

Lemma Retry_cases id consumer e :
  let r := Retry out id consumer e in
  if bool_decide (is_Some (outbox (tables e) !! id)) then
    if is_dead (tables e) id consumer
    then r.1 = Ok () ∧ tables r.2 = (retry_tx id consumer (whole (clock out (moment e))) (tables e)).2
    else ∃ err, r.1 = Err err ∧ errors_Is err ErrDeadLetterNotFound = true ∧ errors_Is err ErrDeadLetterEventGone = false ∧
           tables r.2 = tables e
  else ∃ err, r.1 = Err err ∧ errors_Is err ErrDeadLetterEventGone = true ∧ errors_Is err ErrDeadLetterNotFound = false ∧
         tables r.2 = tables e.
Proof.
  unfold Retry, wrapping, Transaction, mbind, stM_bind, query, exec, statement, throw, retry_tx. cbn. rewrite !Hfaults. cbn.
  case_bool_decide as Ho; cbn; [|eexists; split; [done|]; by rewrite !wrapped_Is].
  rewrite !Hfaults, revive_dead. destruct (is_dead _ _ _) eqn:Ed; cbn; rewrite ?Hfaults; cbn; [by rewrite ?Hfaults|].
  eexists. split; [done|]. by rewrite !wrapped_Is.
Qed.

(** The letters [RetryAll] revives: of events still in the outbox. *)
Definition revivable (consumer : string) (t : Tables) : list Z :=
  List.filter (λ id, bool_decide (is_Some (outbox t !! id))) (dead_of consumer t).

Lemma elem_of_dead consumer t id : id ∈ dead_of consumer t ↔ is_dead t id consumer = true.
Proof.
  unfold dead_of, is_dead. rewrite merge_sort_Permutation, list_elem_of_omap. split.
  - intros ([[i c] a] & Ha%elem_of_map_to_list & H). cbn in H. case_match eqn:E; simplify_eq.
    apply andb_true_iff in E as [->%bool_decide_eq_true E]. by rewrite Ha.
  - destruct (attempts t !! (id, consumer)) as [a|] eqn:Ha; [|done]. intros Hd. exists ((id, consumer), a).
    split; [by apply elem_of_map_to_list|]. cbn. by rewrite bool_decide_eq_true_2, Hd.
Qed.

Lemma NoDup_dead consumer t : NoDup (dead_of consumer t).
Proof.
  unfold dead_of. rewrite merge_sort_Permutation. pose proof (NoDup_map_to_list (attempts t)) as Hn.
  assert (∀ kv, kv ∈ map_to_list (attempts t) → attempts t !! kv.1 = Some kv.2) as Hall
    by (intros [k a]; by rewrite elem_of_map_to_list).
  revert Hn Hall. generalize (map_to_list (attempts t)). induction l as [|[[i c] a] l IH]; intros Hn Hall; [constructor|].
  apply list.NoDup_cons in Hn as [Hx Hn]. set (f := λ kv : Z * string * attemptRow, _) in *. rewrite omap_cons.
  specialize (IH Hn (λ kv H, Hall kv (list_elem_of_further _ _ _ H))). destruct (f (i, c, a)) as [j|] eqn:E; [|done].
  constructor; [|done]. intros ([[i' c'] a'] & Hin & E')%list_elem_of_omap. apply Hx.
  pose proof (Hall (i, c, a) (list_elem_of_here _ _)) as H1. pose proof (Hall (i', c', a') (list_elem_of_further _ _ _ Hin)) as H2.
  unfold f in E, E'. cbn in *. repeat case_match; simplify_eq.
  repeat match goal with H : _ && _ = true |- _ => apply andb_true_iff in H as [->%bool_decide_eq_true ?] end.
  congruence.
Qed.

Lemma retry_loop_revives consumer T ids n e :
  (∀ m, clock out m = T) → NoDup ids → (∀ id, id ∈ ids → is_dead (tables e) id consumer = true) →
  let live id := bool_decide (is_Some (outbox (tables e) !! id)) in
  ∃ e', retry_loop out consumer ids n e = ((n + length (List.filter live ids))%nat, None, e') ∧
    (∀ id c, attempts (tables e') !! (id, c) =
       (if decide (id ∈ ids ∧ c = consumer ∧ live id = true) then revived (whole T) <$> attempts (tables e) !! (id, c)
        else attempts (tables e) !! (id, c))) ∧
    (∀ id, outbox (tables e') !! id = (if decide (id ∈ ids) then set_processed None <$> outbox (tables e) !! id
                                       else outbox (tables e) !! id)).
Proof.
  intros HT. revert n e. induction ids as [|id ids IH]; intros n e Hn Hd live.
  { exists e. cbn. rewrite Nat.add_0_r. split; [done|]. split; intros; rewrite decide_False; try done; set_solver. }
  apply list.NoDup_cons in Hn as [Hid Hn]. cbn [retry_loop List.filter].
  pose proof (Retry_cases id consumer e) as H. cbn zeta in H. fold (live id) in H.
  destruct (Retry out id consumer e) as [r e1]. cbn [fst snd] in H. destruct (live id) eqn:El.
  - rewrite (Hd id) in H by (by left). destruct H as [-> E1]. rewrite HT in E1. unfold retry_tx in E1. cbn [snd] in E1.
    rewrite revive_dead, (Hd id) in E1 by (by left). cbn [snd] in E1.
    assert (∀ i, bool_decide (is_Some (outbox (tables e1) !! i)) = live i) as Hlive.
    { intros i. unfold live. apply bool_decide_ext. rewrite E1. cbn. destruct (decide (i = id)) as [->|Hne].
      - rewrite lookup_alter_eq. by rewrite fmap_is_Some.
      - by rewrite lookup_alter_ne. }
    destruct (IH (S n) e1) as (e' & -> & Ha & Ho); [done| |].
    { intros i Hi. specialize (Hd i (list_elem_of_further _ _ _ Hi)). unfold is_dead in *. rewrite E1. cbn.
      rewrite lookup_alter_ne; [done|]. intros [= ->]. done. }
    assert (List.filter (λ i, bool_decide (is_Some (outbox (tables e1) !! i))) ids = List.filter live ids) as Hfl
      by (by apply List.filter_ext).
    exists e'. split; [cbn [length]; rewrite Hfl; do 2 f_equal; lia|]. split.
    + intros i c. rewrite Ha, Hlive, E1. cbn. destruct (decide ((i, c) = (id, consumer))) as [[= -> ->]|Hne].
      * rewrite (decide_False (P := id ∈ ids ∧ _)) by tauto. rewrite decide_True by (split_and!; [by left|done|done]).
        by rewrite lookup_alter_eq.
      * rewrite !lookup_alter_ne by done. apply decide_ext. rewrite elem_of_cons. split; [tauto|].
        intros ([->|?] & -> & ?); [done|tauto].
    + intros i. rewrite Ho, E1. cbn. destruct (decide (i = id)) as [->|Hne].
      * rewrite (decide_False (P := id ∈ ids)) by done. rewrite decide_True by (by left). by rewrite lookup_alter_eq.
      * rewrite !lookup_alter_ne by done. apply decide_ext. rewrite elem_of_cons. tauto.
  - destruct H as (err & -> & Hg & Hnf & E1). rewrite Hg, orb_true_r.
    destruct (IH n e1) as (e' & -> & Ha & Ho); [done|rewrite E1; intros; apply Hd; by right|]. rewrite E1 in *. fold live in Ha |- *.
    exists e'. split; [done|]. split.
    + intros i c. rewrite Ha. apply decide_ext. rewrite elem_of_cons. split; [tauto|]. intros ([->|?] & ? & ?); [congruence|tauto].
    + intros i. rewrite Ho. destruct (decide (i = id)) as [->|Hne]; [|apply decide_ext; rewrite elem_of_cons; tauto].
      rewrite (decide_False (P := id ∈ ids)) by done. rewrite decide_True by (by left).
      unfold live in El. apply bool_decide_eq_false in El. by destruct (outbox (tables e) !! id); [exfalso; eauto|].
Qed.
End Retry.

(** ** Keys *)

(** What callers do with one id. *)
Inductive keyOp : Set := KReserve | KConfirm | KResponse (body : string).

Section Keys.
Variable out : Outside.
Variables (mysqlNumber : error → option Z) (ToLower : string → string).
Variable id : string.

(** Whether the operation reserved the id, and what it left. *)
Definition keyStep (op : keyOp) (e : Env KeyTable) : bool * Env KeyTable :=
  match op with
  | KReserve => let (r, e) := Reserve out mysqlNumber ToLower true id e in (match r with Ok b => b | Err _ => false end, e)
  | KConfirm => (false, (Confirm out true id e).2)
  | KResponse body => (false, (confirmKey out true id (Some body) e).2)
  end.

Fixpoint reservations (ops : list keyOp) (e : Env KeyTable) : nat :=
  match ops with
  | [] => 0
  | op :: rest => let (won, e) := keyStep op e in (if won then 1 else 0) + reservations rest e
  end.

Lemma confirmKey_keeps resp e : is_Some (tables (confirmKey out true id resp e).2 !! id) ↔ is_Some (tables e !! id).
Proof.
  unfold confirmKey, exec, statement. cbn [negb tables passed moment]. destruct (fault _ _); [done|].
  cbn [snd tables]. by rewrite lookup_alter_eq, fmap_is_Some.
Qed.

Lemma Reserve_taken e : is_Some (tables e !! id) → (keyStep KReserve e).1 = false ∧ is_Some (tables (keyStep KReserve e).2 !! id).
Proof.
  intros [r Hr]. cbn. unfold Reserve, reserveKey, createKey. cbn. case_bool_decide; [cbn; by rewrite Hr|].
  destruct (fault _ _); [destruct (IsDuplicateKey _ _ _); cbn; by rewrite Hr|]. rewrite Hr.
  destruct (IsDuplicateKey _ _ _); cbn; by rewrite Hr.
Qed.

Lemma Reserve_won e : (keyStep KReserve e).1 = true → is_Some (tables (keyStep KReserve e).2 !! id).
Proof.
  cbn. unfold Reserve, reserveKey, createKey. cbn. case_bool_decide; [done|].
  destruct (fault _ _); [by destruct (IsDuplicateKey _ _ _)|].
  destruct (tables e !! id); [by destruct (IsDuplicateKey _ _ _)|]. intros _. cbn [snd tables]. by rewrite lookup_insert_eq.
Qed.

Lemma reservations_taken ops e : is_Some (tables e !! id) → reservations ops e = 0%nat.
Proof.
  revert e. induction ops as [|op ops IH]; intros e Hid; [done|]. cbn [reservations].
  assert ((keyStep op e).1 = false ∧ is_Some (tables (keyStep op e).2 !! id)) as [H1 H2].
  { destruct op; [by apply Reserve_taken| |]; (split; [done|]); by apply confirmKey_keeps. }
  destruct (keyStep op e) as [won e1]. cbn in *. rewrite H1. by apply IH.
Qed.

Lemma reservations_once ops e : (reservations ops e <= 1)%nat.
Proof.
  revert e. induction ops as [|op ops IH]; intros e; cbn [reservations]; [lia|].
  destruct (keyStep op e) as [won e1] eqn:E. destruct won; [|apply IH].
  rewrite reservations_taken; [done|]. destruct op; [|done|done]. pose proof (Reserve_won e) as H. rewrite E in H. by apply H.
Qed.

Lemma Reserve_free e : faultless out → id ≠ "" → tables e !! id = None → (keyStep KReserve e).1 = true.
Proof.
  intros Hf Hid Hn. cbn. unfold Reserve, reserveKey, createKey. cbn. rewrite bool_decide_eq_false_2 by done.
  by rewrite Hf, Hn.
Qed.
End Keys.
