(* ===== verification/QueueProps.v ===== *)
(** * Properties of the event queue (src/event) *)

From stdpp Require Import relations.
From S2P Require Import Prelude Apperr Clock Sql Lease Queue Housekeeping QueueFacts QueueRuns.

Local Open Scope Z_scope.

(** ** A queue to try things on *)

Definition quiet : Outside := mkOutside (λ _, None) (λ _, 100 * Time.Second) (λ _, false).
Definition plain (s : string) : result Envelope := Ok (mkEnvelope "1" "" 0 "" s).
Definition fine (_ : nat) (_ : Z) (_ : string) : handled := Returned None.
Definition fails (_ : nat) (_ : Z) (_ : string) : handled := Returned (Some (errNew "down")).

Definition mailC : Consumer := mkConsumer "mail" "tickets.assigned" 1 "T" defaultRetry fine.
Definition auditC : Consumer := mkConsumer "audit" "tickets.assigned" 1 "T" defaultRetry fails.
Definition pair : list Consumer := [mailC; auditC].

Definition queued (processed : option Z) : OutboxEvent := mkOutboxEvent 1 "" "" "tickets.assigned" "{}" 0 processed.
Definition one : Tables := mkTables {[1 := queued None]} ∅ 1.
Definition deadRow (at_ : Z) : attemptRow := mkAttemptRow 1 "audit" 5 at_ "down" None (Some at_) at_.
Definition doneRow (at_ : Z) : attemptRow := mkAttemptRow 1 "mail" 0 at_ "" (Some at_) None at_.

Definition published : sys := mkSys one 0 [] {[1 := "tickets.assigned"]} ∅ ∅.

Lemma published_reachable consumers late : reachable consumers late published.
Proof.
  exists 0. apply rtc_once.
  exact (step_publish consumers late (mkTables ∅ ∅ 0) 0 [] ∅ ∅ ∅ "" "" "tickets.assigned" "{}" 0).
Qed.

(** ** Safety *)

(** C3. No event is lost. Whatever the interleaving of publishers, of workers
    that claim, finish late or vanish, of retries of dead letters and of
    housekeeping: each consumer of a published event has handled it, or has given up
    on it with nobody having retried it since, or the event is in the outbox and due
    for it from some time on. *)
Theorem no_event_lost (consumers : list Consumer) (s : sys) (id : Z) (ty c : string) :
  reachable consumers True s → s_published s !! id = Some ty → c ∈ siblings consumers ty →
  concluded (s_handled s) (s_gaveup s) (id, c) ∨
  ∃ from, ∀ now, from <= now → id ∈ due_ids (s_tables s) c ty now.
Proof. apply nothing_lost. Qed.

Lemma no_event_lost_witness :
  concluded (s_handled published) (s_gaveup published) (1, "mail") ∨
  ∃ from, ∀ now, from <= now → 1 ∈ due_ids (s_tables published) "mail" "tickets.assigned" now.
Proof.
  apply (no_event_lost pair published 1 "tickets.assigned" "mail"); [apply published_reachable|reflexivity|].
  vm_compute. left.
Defined.

(** C6. The operations are the steps. Starting from empty tables, after any
    sequence of publishes, ticks, drains, sweeps and retries, with any statements
    failing and the context ending at any moment, the tables are those of a state
    the interleaved steps reach: what holds in all those states holds of the code. *)
Theorem operations_refine_steps (consumers : list Consumer) (out : Outside) (unmarshal : string → result Envelope)
    (marshalPayload : string → result string) (marshal : Envelope → result string) (latest : Z) (ps : list program)
    (e' : Env Tables) :
  (∀ n, clock out n <= latest) → Forall (allowed consumers) ps →
  perform_all consumers out unmarshal marshalPayload marshal ps (mkEnv (mkTables ∅ ∅ 0) 0) = Some e' →
  ∃ s, reachable consumers True s ∧ s_tables s = tables e'.
Proof.
  intros Hc Hps H.
  destruct (perform_all_run consumers out unmarshal marshalPayload marshal ps (start latest) (mkEnv (mkTables ∅ ∅ 0) 0) e')
    as (s & Hr & Hm & _); [done|split; [done|split; [apply safe_start|exact Hc]]|done|]. exists s. split; [|done]. by exists latest.
Qed.

Definition story : list program :=
  [PPublish OutboxTx (Define "tickets.assigned") "{}" None "u"; PDrain 5; PRetryAll "audit"; PSweep 5 (mkHousekeeper 0)].

Lemma operations_refine_steps_witness :
  ∃ e', perform_all pair quiet plain Ok (λ _, Ok "{}") story (mkEnv (mkTables ∅ ∅ 0) 0) = Some e' ∧
    ∃ s, reachable pair True s ∧ s_tables s = tables e'.
Proof.
  destruct (perform_all pair quiet plain Ok (λ _, Ok "{}") story (mkEnv (mkTables ∅ ∅ 0) 0)) as [e'|] eqn:E;
    [|vm_compute in E; discriminate].
  exists e'. split; [reflexivity|].
  apply (operations_refine_steps pair quiet plain Ok (λ _, Ok "{}") (100 * Time.Second) story e').
  - intros n. reflexivity || (cbn; lia).
  - repeat constructor.
  - exact E.
Defined.


(** Two consumers claimed the event. *)
Definition held : sys :=
  let t1 := (lease_tx "mail" [1] 0 claimLease one).2 in
  mkSys (lease_tx "audit" [1] 0 claimLease t1).2 0
    [mkFlight auditC (mkClaimed 1 "tickets.assigned" "{}" 0) claimLease; mkFlight mailC (mkClaimed 1 "tickets.assigned" "{}" 0) claimLease]
    {[1 := "tickets.assigned"]} ∅ ∅.

Lemma held_reachable late : reachable pair late held.
Proof.
  destruct (published_reachable pair late) as (now & Hr). exists now. eapply rtc_r; [eapply rtc_r; [exact Hr|]|].
  - apply (step_lease pair late one 0 [] {[1 := "tickets.assigned"]} ∅ ∅ mailC [1] 0); [set_solver| |done].
    intros id ->%list_elem_of_singleton. done.
  - apply (step_lease pair late (lease_tx "mail" [1] 0 claimLease one).2 0
      [mkFlight mailC (mkClaimed 1 "tickets.assigned" "{}" 0) claimLease] {[1 := "tickets.assigned"]} ∅ ∅ auditC [1] 0); [set_solver| |done].
    intros id ->%list_elem_of_singleton. done.
Qed.




(** Attempts are counted. In every reachable state of consumers with distinct
    names and at least one attempt each, a row counts between 0 and the consumer's
    attempts, below them while the event is neither done nor dead, and at least one
    when it is dead; a worker only ever holds an event with attempts left. *)
Theorem attempts_stay_bounded (consumers : list Consumer) (s : sys) :
  NoDup (c_name <$> consumers) → (∀ c, c ∈ consumers → 1 <= r_attempts (c_retry c)) → reachable consumers True s →
  (∀ id a c, c ∈ consumers → attempts (s_tables s) !! (id, c_name c) = Some a →
     0 <= Attempts a <= r_attempts (c_retry c) ∧ (finished a = false → Attempts a < r_attempts (c_retry c)) ∧
     (DeadAt a ≠ None → 1 <= Attempts a)) ∧
  (∀ f, f ∈ s_flight s → 0 <= ce_Attempts (fl_event f) < r_attempts (c_retry (fl_consumer f))).
Proof.
  intros Hn Hr Hs. destruct (reachable_bounded consumers Hn Hr True s Hs) as [H1 H2]. split.
  - intros id a c Hc Ha. exact (H1 _ _ c Ha Hc eq_refl).
  - intros f Hf. by apply H2.
Qed.

Lemma attempts_stay_bounded_witness : 0 <= ce_Attempts (mkClaimed 1 "tickets.assigned" "{}" 0) < r_attempts (c_retry auditC).
Proof.
  refine (proj2 (attempts_stay_bounded pair held _ _ (held_reachable True))
    (mkFlight auditC (mkClaimed 1 "tickets.assigned" "{}" 0) claimLease) _).
  - apply (bool_decide_unpack _). vm_compute. exact I.
  - intros c [->|[->|[]%not_elem_of_nil]%elem_of_cons]%elem_of_cons; cbn; lia.
  - left.
Defined.

(** ** Liveness *)

(** C5. [Drain] delivers. With consumers [Problems] has nothing against and
    delays below 2^62 ns, a database that answers, a context that lasts and a clock
    that stands still, [Drain] ends after at most one round per due event and
    consumer; then nothing is due for anyone, and every event that was due for a
    consumer was handed to its handler and the outcome is in its row. *)
Theorem Drain_delivers (out : Outside) (unmarshal : string → result Envelope) (consumers : list Consumer) (T : Z)
    (fuel : nat) (e : Env Tables) :
  faultless out → (∀ n, cancelled out n = false) → (∀ n, clock out n = T) →
  Problems consumers = [] → (∀ c, c ∈ consumers → maxDelay (c_retry c) <= 2 ^ 62) → (size (outbox (tables e)) < fuel)%nat →
  ∃ err e', Drain out unmarshal consumers fuel e = Some (err, e') ∧
    ∀ c, c ∈ consumers → due_ids (tables e') (c_name c) (c_event c) (whole T) = [] ∧
      ∀ id, id ∈ due_ids (tables e) (c_name c) (c_event c) (whole T) →
        ∃ o ev n, outbox (tables e) !! id = Some o ∧ ce_ID ev = id ∧ ce_Envelope ev = o_Envelope o ∧
          attempts (tables e') !! (id, c_name c) = Some (outcomeRow c ev (handle unmarshal c ev n) (whole T)).
Proof.
  intros Hf Hx Ht [Hok Hn _]%Problems_nil Hm Hfuel.
  destruct (drain_all_drains out unmarshal consumers T Hf Hx Ht fuel consumers e) as (errs & e' & E & H).
  - intros c Hc. split; [done|]. split; [apply Hok, Hc|by apply Hm].
  - done.
  - intros c _. eapply Nat.le_lt_trans; [apply select_length|exact Hfuel].
  - exists (joinErrors errs), e'. unfold Drain. rewrite E. split; [done|]. intros c Hc. destruct (H c Hc) as [H1 H2].
    split; [exact H1|]. intros id Hid. destruct (H2 id Hid) as (o & ev & n & H'). exists o, ev, n. exact H'.
Qed.

Lemma Drain_delivers_witness :
  ∃ err e', Drain quiet plain pair 2 (mkEnv one 0) = Some (err, e') ∧
    ∀ c, c ∈ pair → due_ids (tables e') (c_name c) (c_event c) (whole (100 * Time.Second)) = [] ∧
      ∀ id, id ∈ due_ids one (c_name c) (c_event c) (whole (100 * Time.Second)) →
        ∃ o ev n, outbox one !! id = Some o ∧ ce_ID ev = id ∧ ce_Envelope ev = o_Envelope o ∧
          attempts (tables e') !! (id, c_name c) = Some (outcomeRow c ev (handle plain c ev n) (whole (100 * Time.Second))).
Proof.
  apply (Drain_delivers quiet plain pair (100 * Time.Second) 2 (mkEnv one 0)).
  - intros n. reflexivity.
  - intros n. reflexivity.
  - intros n. reflexivity.
  - vm_compute. reflexivity.
  - intros c [->|[->|[]%not_elem_of_nil]%elem_of_cons]%elem_of_cons; vm_compute; discriminate.
  - vm_compute. lia.
Defined.

(** ** Housekeeping and dead letters *)

(** A sweep deletes exactly what it should. With a database that answers and
    at one time [T], the sweep ends, without an error, after at most one round per
    row; what is gone is the processed events older than [Retention] with no dead
    letter left, with all their attempts, and the dead letters given up on longer
    ago than [KeepDeadLetters] says; everything else is as it was, and the number
    returned is the number of events deleted. *)
Theorem Sweep_deletes_exactly (out : Outside) (fuel : nat) (h : Housekeeper) (T : Z) (e : Env Tables) :
  faultless out → (∀ m, clock out m = T) → (size (attempts (tables e)) + size (outbox (tables e)) < fuel)%nat →
  let expired k a := (0 <? deadFor h) && (0 <? k) && deadBefore (whole T - deadFor h) a in
  ∃ e' doomed, Sweep out fuel h e = Some (length doomed, None, e') ∧ NoDup doomed ∧
    (∀ id, id ∈ doomed ↔ 0 < id ∧ ∃ o p, outbox (tables e) !! id = Some o ∧ o_ProcessedAt o = Some p ∧ p < whole T - Retention ∧
       ∀ c a, attempts (tables e) !! (id, c) = Some a → DeadAt a ≠ None → expired id a = true) ∧
    (∀ id, outbox (tables e') !! id = if decide (id ∈ doomed) then None else outbox (tables e) !! id) ∧
    (∀ id c a, attempts (tables e') !! (id, c) = Some a ↔
       attempts (tables e) !! (id, c) = Some a ∧ id ∉ doomed ∧ expired id a = false).
Proof.
  intros Hf HT Hfuel expired. destruct (Sweep_deletes out Hf fuel h T e HT Hfuel) as (e' & E & Ho & Ha).
  exists e', (swept h T (tables e)). split; [done|]. split; [apply NoDup_select|].
  assert (∀ id c a, attempts (kept_letters h T (tables e)) !! (id, c) = Some a ↔
            attempts (tables e) !! (id, c) = Some a ∧ expired id a = false) as Hk.
  { intros id c a. unfold kept_letters, expired. destruct (Z.leb_spec (deadFor h) 0).
    - rewrite (proj2 (Z.ltb_ge 0 (deadFor h))) by done. naive_solver.
    - rewrite (proj2 (Z.ltb_lt 0 (deadFor h))) by done. cbn. unfold unexpired. by rewrite map_lookup_filter_Some. }
  split; [|split; [done|]].
  - intros id. unfold swept. rewrite elem_of_left. assert (outbox (kept_letters h T (tables e)) = outbox (tables e)) as ->
      by (unfold kept_letters; by destruct (_ <=? 0)). split.
    + intros (o & Hoid & Hid & Hp & Hd). split; [done|]. unfold processedBefore in Hp.
      destruct (o_ProcessedAt o) as [p|] eqn:Ep; [|done]. apply Z.ltb_lt in Hp. exists o, p. split_and!; try done.
      intros c a Hca Hda. destruct (expired id a) eqn:Ex; [done|]. exfalso. apply not_true_iff_false in Hd.
      apply Hd, hasDead_spec. exists c, a. by rewrite Hk.
    + intros (Hid & o & p & Hoid & Ep & Hp & Hall). exists o. split_and!; try done.
      * unfold processedBefore. rewrite Ep. by apply Z.ltb_lt.
      * apply not_true_iff_false. intros (c & a & [Hca Hex]%Hk & Hda)%hasDead_spec. rewrite (Hall c a Hca Hda) in Hex. done.
  - intros id c a. rewrite Ha. case_decide as Hd; [naive_solver|]. rewrite Hk. naive_solver.
Qed.

Definition old : Tables := mkTables {[1 := queued (Some 0)]} {[(1, "mail") := doneRow 0; (1, "audit") := deadRow 0]} 1.
Definition later : Outside := mkOutside (λ _, None) (λ _, Retention + Time.Hour) (λ _, false).

Lemma Sweep_deletes_exactly_witness :
  (∃ e', Sweep later 4 (mkHousekeeper Time.Hour) (mkEnv old 0) = Some (1%nat, None, e') ∧ outbox (tables e') = ∅) ∧
  ∃ e', Sweep later 4 (mkHousekeeper 0) (mkEnv old 0) = Some (0%nat, None, e') ∧
    ∀ id, outbox (tables e') !! id = outbox old !! id.
Proof.
  split.
  - eexists. split; [vm_compute; reflexivity|]. reflexivity.
  - destruct (Sweep_deletes_exactly later 4 (mkHousekeeper 0) (Retention + Time.Hour) (mkEnv old 0))
      as (e' & doomed & E & _ & Hd & Ho & _); [intros n; reflexivity|intros n; reflexivity|vm_compute; lia|].
    assert (doomed = []) as ->.
    { apply elem_of_nil_inv. intros id (Hid & o & p & Hoid & _ & _ & Hall)%Hd. unfold tables, outbox, old in Hoid.
      apply lookup_singleton_Some in Hoid as [<- _].
      specialize (Hall "audit" (deadRow 0) eq_refl ltac:(discriminate)). discriminate Hall. }
    exists e'. split; [exact E|]. exact Ho.
Defined.

(** [RetryAll] brings back exactly the consumer's dead letters whose event is
    still in the outbox: it skips the others instead of failing, counts the ones it
    revived, resets their attempts, makes them due now and their event unprocessed,
    and touches no other row. *)
Theorem RetryAll_revives (out : Outside) (consumer : string) (T : Z) (e : Env Tables) :
  faultless out → (∀ m, clock out m = T) →
  let dead id := is_dead (tables e) id consumer && bool_decide (is_Some (outbox (tables e) !! id)) in
  ∃ e' ids, RetryAll out consumer e = (length ids, None, e') ∧ NoDup ids ∧ (∀ id, id ∈ ids ↔ dead id = true) ∧
    (∀ id c, attempts (tables e') !! (id, c) =
       if decide (id ∈ ids ∧ c = consumer) then revived (whole T) <$> attempts (tables e) !! (id, c)
       else attempts (tables e) !! (id, c)) ∧
    (∀ id, outbox (tables e') !! id =
       if decide (id ∈ ids) then set_processed None <$> outbox (tables e) !! id else outbox (tables e) !! id).
Proof.
  intros Hf HT dead. unfold RetryAll, wrapping, query. rewrite statement_Ok by done. cbn [fst snd].
  destruct (retry_loop_revives out Hf consumer T (dead_of consumer (tables e)) 0 (mkEnv (tables e) (S (moment e))) HT)
    as (e' & -> & Ha & Ho); [apply NoDup_dead|by intros id ?%elem_of_dead|]. cbn [tables Nat.add] in *.
  exists e', (revivable consumer (tables e)). unfold revivable. split; [done|].
  split; [apply base.NoDup_ListNoDup, List.NoDup_filter, base.NoDup_ListNoDup, NoDup_dead|].
  assert (∀ id, id ∈ List.filter (λ id, bool_decide (is_Some (outbox (tables e) !! id))) (dead_of consumer (tables e)) ↔ dead id = true) as Hin.
  { intros id. unfold dead. by rewrite elem_of_filter_bool, elem_of_dead, andb_true_iff. }
  split; [exact Hin|]. split.
  - intros id c. rewrite Ha. apply decide_ext. rewrite Hin, elem_of_dead. unfold dead. rewrite andb_true_iff. tauto.
  - intros id. rewrite Ho. destruct (outbox (tables e) !! id) as [o|] eqn:Eo; [|by repeat case_decide].
    apply decide_ext. rewrite Hin, elem_of_dead. unfold dead. rewrite Eo, andb_true_iff, bool_decide_eq_true. naive_solver.
Qed.

Lemma RetryAll_revives_witness :
  ∃ e' ids, RetryAll quiet "audit" (mkEnv old 0) = (length ids, None, e') ∧ length ids = 1%nat ∧
    ∀ id, outbox (tables e') !! id = if decide (id ∈ ids) then set_processed None <$> outbox old !! id else outbox old !! id.
Proof.
  destruct (RetryAll_revives quiet "audit" (100 * Time.Second) (mkEnv old 0)) as (e' & ids & E & _ & _ & _ & Ho);
    [intros n; reflexivity|intros n; reflexivity|].
  exists e', ids. split; [exact E|]. split; [|exact Ho].
  change (length ids) with ((length ids, None : option error, e').1.1). rewrite <-E. vm_compute. reflexivity.
Defined.

(** C36. [Retry] says why. When the database answers: a retry of a letter whose
    event was pruned is [ErrDeadLetterEventGone] and only that; of a letter that is
    not dead, [ErrDeadLetterNotFound] and only that; otherwise it succeeds. Whether
    the database answers or not, a retry that fails changed nothing. *)
Theorem Retry_errors (out : Outside) (id : Z) (consumer : string) (e : Env Tables) :
  (faultless out → let r := Retry out id consumer e in
     if bool_decide (is_Some (outbox (tables e) !! id)) then
       if is_dead (tables e) id consumer then r.1 = Ok ()
       else ∃ err, r.1 = Err err ∧ errors_Is err ErrDeadLetterNotFound = true ∧ errors_Is err ErrDeadLetterEventGone = false
     else ∃ err, r.1 = Err err ∧ errors_Is err ErrDeadLetterEventGone = true ∧ errors_Is err ErrDeadLetterNotFound = false) ∧
  (∀ err e', Retry out id consumer e = (Err err, e') → tables e' = tables e).
Proof.
  split; [|intros err e'; apply Retry_Err].
  intros Hf r. pose proof (Retry_cases out Hf id consumer e) as H. fold r in H. cbn zeta in H. repeat case_match; naive_solver.
Qed.

Lemma Retry_errors_witness :
  (∃ err, (Retry quiet 7 "audit" (mkEnv old 0)).1 = Err err ∧ errors_Is err ErrDeadLetterEventGone = true ∧
     errors_Is err ErrDeadLetterNotFound = false) ∧ (Retry quiet 1 "audit" (mkEnv old 0)).1 = Ok ().
Proof.
  split.
  - exact (proj1 (Retry_errors quiet 7 "audit" (mkEnv old 0)) (λ n, eq_refl)).
  - exact (proj1 (Retry_errors quiet 1 "audit" (mkEnv old 0)) (λ n, eq_refl)).
Defined.

(** ** Consumers *)

(** The check accepts exactly the consumers the queue can serve: [Problems]
    is empty if and only if every name, version and retry policy is valid, no two
    consumers share a name, and consumers of one event agree on its version and
    payload type. *)
Theorem Problems_decides (consumers : list Consumer) : Problems consumers = [] ↔ well_formed consumers.
Proof. apply Problems_nil. Qed.

(** One statement for all. Whatever order the database returns the union of
    the selects in, [dueFor] answers the same as the first half of [claim] for each
    consumer: leasing what it answers for the consumer at [k] is claiming for it. *)
Theorem dueFor_is_claim (out : Outside) (shuffle : list (Z * nat) → list (Z * nat)) (consumers : list Consumer)
    (now : Z) (limit : nat) (e e' : Env Tables) (due : gmap nat (list Z)) (k : nat) (c : Consumer) (until : Z) :
  faultless out → (∀ rows, shuffle rows ≡ₚ rows) →
  dueFor out shuffle consumers now limit e = (Ok due, e') → consumers !! k = Some c →
  tables e' = tables e ∧ claim out (c_name c) (c_event c) now until limit e = lease out (c_name c) (default [] (due !! k)) now until e'.
Proof.
  intros Hf Hs H Hk. unfold dueFor in H. destruct consumers as [|c0 cs] eqn:Ecs; [done|]. rewrite <-Ecs in *. clear Ecs c0 cs.
  unfold mbind, stM_bind, wrapping, query in H. rewrite statement_Ok in H by done. cbn -[collectDue dueParts] in H. injection H as <- <-.
  split; [done|]. rewrite (collectDue_due _ consumers now limit (tables e) k) by apply Hs. rewrite Hk. cbn [fmap option_fmap option_map default from_option id].
  unfold claim, mbind, stM_bind, wrapping, query. by rewrite statement_Ok.
Qed.

Lemma dueFor_is_claim_witness :
  ∃ due e', dueFor quiet (@rev _) pair 0 50 (mkEnv one 0) = (Ok due, e') ∧
    claim quiet "audit" "tickets.assigned" 0 claimLease 50 (mkEnv one 0) = lease quiet "audit" (default [] (due !! 1%nat)) 0 claimLease e'.
Proof.
  destruct (dueFor quiet (@rev _) pair 0 50 (mkEnv one 0)) as [r e'] eqn:E. destruct r as [due|err]; [|vm_compute in E; discriminate].
  exists due, e'. split; [reflexivity|].
  apply (dueFor_is_claim quiet (@rev _) pair 0 50 (mkEnv one 0) e' due 1 auditC claimLease).
  - intros n. reflexivity.
  - intros rows. symmetry. apply Permutation_rev.
  - exact E.
  - reflexivity.
Defined.

(** Delays double up to the longest. With a policy that [Problems] accepts and
    a longest delay of at most 2^62 ns, the wait after the [n]th failure is the first
    delay times 2^(n-1), cut at the longest: the product never leaves int64. *)
Theorem delay_doubles_to_longest (p : retryPolicy) (n : Z) :
  retryWorks p = true → maxDelay p <= 2 ^ 62 → 1 <= n → delay p n = Z.min (firstDelay p * 2 ^ (n - 1)) (maxDelay p).
Proof. apply delay_doubles. Qed.

Lemma delay_doubles_to_longest_witness : delay defaultRetry 4 = Z.min (firstDelay defaultRetry * 2 ^ (4 - 1)) (maxDelay defaultRetry).
Proof. exact (delay_doubles_to_longest defaultRetry 4 eq_refl ltac:(vm_compute; discriminate) ltac:(discriminate)). Defined.

(** Past 2^62 the doubling overflows: this policy is accepted, and the 32nd wait is
    negative. *)
Lemma delay_overflows :
  let p := Backoff (5 * Time.Second) Int64.max_value (AttemptsOption 100 defaultRetry) in
  retryWorks p = true ∧ delay p 32 < 0.
Proof. vm_compute. done. Qed.

(** ** Keys *)

(** A key is reserved once. Of any sequence of reservations and confirmations
    of one id, with statements failing at will, at most one reservation is answered
    true, and none when the id was there before; while nothing fails, the first
    reservation of an id that is not there is. *)
Theorem Reserve_wins_once (out : Outside) (mysqlNumber : error → option Z) (ToLower : string → string) (id : string)
    (ops : list keyOp) (e : Env KeyTable) :
  (reservations out mysqlNumber ToLower id ops e <= 1)%nat ∧
  (is_Some (tables e !! id) → reservations out mysqlNumber ToLower id ops e = 0%nat) ∧
  (faultless out → id ≠ "" → tables e !! id = None → reservations out mysqlNumber ToLower id (KReserve :: ops) e = 1%nat).
Proof.
  split; [apply reservations_once|]. split; [apply reservations_taken|]. intros Hf Hid Hn.
  pose proof (reservations_once out mysqlNumber ToLower id (KReserve :: ops) e) as H. cbn [reservations] in *.
  pose proof (Reserve_free out mysqlNumber ToLower id e Hf Hid Hn) as Hw.
  destruct (keyStep out mysqlNumber ToLower id KReserve e) as [won e1]. cbn in Hw. subst. lia.
Qed.

Lemma Reserve_wins_once_witness :
  reservations quiet (λ _, None) id "k" [KReserve; KConfirm; KReserve] (mkEnv ∅ 0) = 1%nat.
Proof.
  exact (proj2 (proj2 (Reserve_wins_once quiet (λ _, None) id "k" [KConfirm; KReserve] (mkEnv ∅ 0)))
    (λ n, eq_refl) ltac:(discriminate) eq_refl).
Defined.

(** ** What the queue does not promise *)

(** A worker that fails after its lease ended overwrites the outcome of the worker
    that took the event over: an event its consumer handled is recorded as failed,
    and comes due again. *)
Definition late_failure : attemptRow := outcomeRow mailC (mkClaimed 1 "tickets.assigned" "{}" 0) (Some (errNew "slow")) 400.

Lemma late_failure_overwrites :
  let t := mkTables {[1 := queued None]} {[(1, "mail") := doneRow 350]} 1 in
  let t' := (finish_tx late_failure ["mail"; "audit"] t).2 in
  finished (doneRow 350) = true ∧ attempts t' !! (1, "mail") = Some late_failure ∧ finished late_failure = false ∧
  1 ∈ due_ids t' "mail" "tickets.assigned" (NextAttemptAt late_failure).
Proof. split_and!; try (vm_compute; reflexivity). vm_compute. left. Qed.

(** Expiring the dead letter of an event that another consumer has not finished makes
    the event due again for the consumer that gave up on it. *)
Lemma expired_letter_comes_due :
  let t := mkTables {[1 := queued None]} {[(1, "audit") := deadRow 0]} 1 in
  due_ids t "audit" "tickets.assigned" Retention = [] ∧
  ∃ e', expireDeadLetters later 4 (mkHousekeeper Time.Hour) (mkEnv t 0) = Some (None, e') ∧
    due_ids (tables e') "audit" "tickets.assigned" Retention = [1].
Proof. split; [vm_compute; reflexivity|]. eexists. split; [vm_compute; reflexivity|]. vm_compute. reflexivity. Qed.
