(* ===== verification/Hoare.v ===== *)
(** * Reasoning about steps on tables

    A step from tables that satisfy [P] ends with an answer and tables that satisfy
    [Q], or with an error and tables that satisfy [F]; one rule per way to compose
    steps. *)

From S2P Require Import Prelude Apperr Sql.

Local Open Scope Z_scope.

Section Rules.
Context {T : Type}.
Variable out : Outside.
Notation M := (stM (Env T) error).
Implicit Types (P F : T → Prop).

Definition hoare {A} P (m : M A) (Q : A → T → Prop) F : Prop :=
  ∀ e, P (tables e) → match m e with (Ok a, e') => Q a (tables e') | (Err _, e') => F (tables e') end.

Lemma h_weaken {A} P P' (m : M A) Q Q' F F' :
  hoare P' m Q' F' → (∀ b, P b → P' b) → (∀ a b, Q' a b → Q a b) → (∀ b, F' b → F b) → hoare P m Q F.
Proof. intros H HP HQ HF e He. specialize (H e (HP _ He)). destruct (m e) as [[a|err] e']; eauto. Qed.

(** A precondition with a witness, or with a fact beside it. *)
Lemma h_ex {A X} (P : X → T → Prop) (m : M A) Q F : (∀ x, hoare (P x) m Q F) → hoare (λ b, ∃ x, P x b) m Q F.
Proof. intros H e [x Hx]. by apply (H x). Qed.

Lemma h_pure {A} (φ : Prop) P (m : M A) Q F : (φ → hoare P m Q F) → hoare (λ b, φ ∧ P b) m Q F.
Proof. intros H e [Hp Hb]. by apply H. Qed.

Lemma h_pure_r {A} (φ : Prop) P (m : M A) Q F : (φ → hoare P m Q F) → hoare (λ b, P b ∧ φ) m Q F.
Proof. intros H e [Hb Hp]. by apply H. Qed.

(** From each of the tables a precondition allows. *)
Lemma h_each {A} P (m : M A) Q F : (∀ b0, P b0 → hoare (λ b, b = b0) m Q F) → hoare P m Q F.
Proof. intros H e He. by apply (H (tables e)). Qed.

(** What no tables are about stays so. *)
Lemma h_carry {A} (φ : Prop) (m : M A) : hoare (λ _, φ) m (λ _ _, φ) (λ _, True).
Proof. intros e H. by destruct (m e) as [[]]. Qed.

(** Two facts of one step. *)
Lemma h_and {A} P (m : M A) Q (φ : A → T → Prop) F : hoare P m Q F → hoare (λ _, True) m φ (λ _, True) → hoare P m (λ a b, Q a b ∧ φ a b) F.
Proof. intros H H' e He. specialize (H e He). specialize (H' e Logic.I). by destruct (m e) as [[a|err] e']. Qed.

Lemma h_bind {A B} P (m : M A) (f : A → M B) R Q F :
  hoare P m R F → (∀ a, hoare (R a) (f a) Q F) → hoare P (m ≫= f) Q F.
Proof.
  intros Hm Hf e He. specialize (Hm e He). unfold mbind, stM_bind. destruct (m e) as [[a|err] e']; [|done]. by apply Hf.
Qed.

Lemma h_ret {A} P (a : A) (Q : A → T → Prop) F : (∀ b, P b → Q a b) → hoare P (mret a) Q F.
Proof. intros H e He. by apply H. Qed.

Lemma h_throw {A} P err (Q : A → T → Prop) F : (∀ b, P b → F b) → hoare P (throw err) Q F.
Proof. intros H e He. by apply H. Qed.

Lemma h_check P err (Q : () → T → Prop) F : (err = None → ∀ b, P b → Q () b) → (∀ b, P b → F b) → hoare P (check_ err) Q F.
Proof. intros HQ HF. destruct err; [by apply h_throw|]. apply h_ret. by apply HQ. Qed.

Lemma h_mapErr {A} P f (m : M A) Q F : hoare P m Q F → hoare P (mapErr f m) Q F.
Proof. intros H e He. specialize (H e He). unfold mapErr. by destruct (m e) as [[a|err] e']. Qed.

Lemma h_attempt {A} P (m : M A) (Q : result A → T → Prop) F :
  hoare P m (λ a b, Q (Ok a) b) (λ b, ∀ err, Q (Err err) b) → hoare P (attempt m) Q F.
Proof. intros H e He. specialize (H e He). unfold attempt. by destruct (m e) as [[a|err] e']. Qed.

Lemma h_Now P (Q : Z → T → Prop) F : (∀ b m, P b → Q (clock out m) b) → hoare P (Now out) Q F.
Proof. intros H e He. by apply H. Qed.

Lemma h_ask {A} P (f : nat → result A) (Q : A → T → Prop) F :
  (∀ b, P b → F b) → (∀ b n a, P b → f n = Ok a → Q a b) → hoare P (ask f) Q F.
Proof. intros HF HQ e He. unfold ask. destruct (f (moment e)) eqn:E; [by eapply HQ|by apply HF]. Qed.

Lemma h_lift {A} P (o : result A) (Q : A → T → Prop) F :
  (∀ b, P b → F b) → (∀ b a, P b → o = Ok a → Q a b) → hoare P (lift o) Q F.
Proof. intros HF HQ e He. unfold lift. destruct o; [by apply HQ|by apply HF]. Qed.

Lemma h_statement {A} P (f : T → A * T) (Q : A → T → Prop) F :
  (∀ b, P b → F b) → (∀ b, P b → Q (f b).1 (f b).2) → hoare P (statement out f) Q F.
Proof. intros HF HQ e He. unfold statement. destruct (fault _ _); [by apply HF|]. specialize (HQ _ He). by destruct (f _). Qed.

Lemma h_wrapping {A} what P (m : M A) Q F : hoare P m Q F → hoare P (wrapping what m) Q F.
Proof. intros H e He. specialize (H e He). unfold wrapping. by destruct (m e) as [[a|err] e']. Qed.

(** A transaction keeps all or nothing. *)
Lemma h_Transaction {A} b0 (m : M A) (Q : A → T → Prop) :
  hoare (λ b, b = b0) m Q (λ _, True) → hoare (λ b, b = b0) (Transaction out m) Q (λ b, b = b0).
Proof.
  intros H e He. specialize (H e He). unfold Transaction. destruct (m e) as [[a|err] e']; [|done]. by destruct (fault _ _).
Qed.

Lemma h_effect {A} (m : M A) (f : T → A * T) b0 : effect m f → hoare (λ b, b = b0) m (λ a b, (a, b) = f b0) (λ b, b = b0).
Proof.
  intros H e <-. destruct (H e) as [(err & E1 & E2)|(E1 & E2)]; destruct (m e) as [[a|err'] e']; cbn in *; simplify_eq; [done|]. by rewrite E2, <-surjective_pairing.
Qed.

(** When no call fails, a step of calls does not fail either. *)
Section Faultless.
Hypothesis no_fault : ∀ n, fault out n = None.

Lemma h_statement_nf {A} P (f : T → A * T) (Q : A → T → Prop) F : (∀ b, P b → Q (f b).1 (f b).2) → hoare P (statement out f) Q F.
Proof. intros HQ e He. unfold statement. rewrite no_fault. specialize (HQ _ He). by destruct (f _). Qed.

Lemma h_Transaction_nf {A} P (m : M A) (Q : A → T → Prop) :
  hoare P m Q (λ _, False) → hoare P (Transaction out m) Q (λ _, False).
Proof. intros H e He. specialize (H e He). unfold Transaction. destruct (m e) as [[a|err] e']; [|done]. by rewrite no_fault. Qed.

Lemma h_total {A} P (m : M A) (Q : A → T → Prop) e :
  hoare P m Q (λ _, False) → P (tables e) → ∃ a e', m e = (Ok a, e') ∧ Q a (tables e').
Proof. intros H He. specialize (H e He). destruct (m e) as [[a|err] e']; [eauto|done]. Qed.
End Faultless.
End Rules.

(** ** Invariants *)

(** A step that keeps an invariant, whether it succeeds or fails. *)
Section Preserves.
Context {T : Type}.
Variables (out : Outside) (I : T → Prop).
Notation M := (stM (Env T) error).

Definition preserves {A} (m : M A) : Prop := hoare I m (λ _, I) I.

Lemma preserves_bind {A B} (m : M A) (f : A → M B) : preserves m → (∀ a, preserves (f a)) → preserves (m ≫= f).
Proof. intros Hm Hf. by eapply h_bind. Qed.
Lemma preserves_ret {A} (a : A) : preserves (mret a).
Proof. by apply h_ret. Qed.
Lemma preserves_throw {A} err : preserves (throw err : M A).
Proof. by apply h_throw. Qed.
Lemma preserves_mapErr {A} f (m : M A) : preserves m → preserves (mapErr f m).
Proof. apply h_mapErr. Qed.
Lemma preserves_wrapping {A} what (m : M A) : preserves m → preserves (wrapping what m).
Proof. apply h_wrapping. Qed.
Lemma preserves_attempt {A} (m : M A) : preserves m → preserves (attempt m).
Proof. intros H. apply h_attempt. eapply h_weaken; [exact H|done..]. Qed.
Lemma preserves_Now : preserves (Now out).
Proof. by apply h_Now. Qed.
Lemma preserves_ask {A} (f : nat → result A) : preserves (ask f).
Proof. by apply h_ask. Qed.
Lemma preserves_lift {A} (o : result A) : preserves (lift o).
Proof. by apply h_lift. Qed.
Lemma preserves_statement {A} (f : T → A * T) : (∀ t, I t → I (f t).2) → preserves (statement out f).
Proof. intros H. by apply h_statement. Qed.
Lemma preserves_query {A} (f : T → A) : preserves (query out f).
Proof. by apply preserves_statement. Qed.
Lemma preserves_exec (f : T → T) : (∀ t, I t → I (f t)) → preserves (exec out f).
Proof. intros H. by apply preserves_statement. Qed.
Lemma preserves_Transaction {A} (m : M A) : preserves m → preserves (Transaction out m).
Proof.
  intros H e He. specialize (H e He). unfold Transaction. destruct (m e) as [[a|err] e']; [|done]. by destruct (fault _ _).
Qed.

(** The end of a step that was run. *)
Lemma preserves_end {A} (m : M A) e : preserves m → I (tables e) → I (tables (m e).2).
Proof. intros H He. specialize (H e He). by destruct (m e) as [[a|err] e']. Qed.
End Preserves.

Create HintDb preserving.
#[export] Hint Resolve preserves_ret preserves_throw preserves_Now preserves_ask preserves_lift preserves_query : preserving.

(** Down a step, with every branch, to its statements. *)
Ltac keep :=
  repeat match goal with
    | |- preserves _ (mapErr _ _) => apply preserves_mapErr
    | |- preserves _ (wrapping _ _) => apply preserves_wrapping
    | |- preserves _ (attempt _) => apply preserves_attempt
    | |- preserves _ (Transaction _ _) => apply preserves_Transaction
    | |- preserves _ (mbind _ _) => apply preserves_bind; [|intros ?]
    | |- preserves _ (if ?b then _ else _) => destruct b
    | |- preserves _ (match ?x with _ => _ end) => destruct x
    | |- preserves _ _ => solve [eauto with preserving nocore]
    end.

(** The same for a triple that states no more than an invariant. *)
Ltac kept := match goal with |- hoare ?I ?m _ _ => change (preserves I m) end; keep.
