(* ===== verification/Reauth.v ===== *)
(** * Confirming the password again (src/identity/account/reauth.go)

    A signed-in person confirms the password before a change of password or e-mail.
    One counter per account limits the guesses: an attempt is counted, by a save that
    succeeds only while the counter is as it was read, before the password is
    checked. Requests run at once: [begin_] and [succeed] take what others do to the
    store between their calls as functions. [clock] gives the readings of the clock
    in the order they are taken. The store in memory is
    src/identity/identitytest/stores.go. *)

From S2P Require Import Prelude Clock Apperr Attempts.

Local Open Scope Z_scope.

Definition ReasonReauthLocked : string := "identity.reauth.locked".
Definition ErrWrongPassword : string := "identity: the password does not match".
Definition ErrReauthNotFound : string := "identity: no re-confirmation attempts yet".
Definition ErrReauthConflict : string := "identity: the re-confirmation attempts changed since they were read".

(** [Attempts] *)
Record Counter : Type := mkCounter {
  at_AccountID : Z;
  at_Failures : Z;
  at_LockedUntil : option Z;
  at_UpdatedAt : Z
}.

Definition Locked (a : Counter) (now : Z) : bool :=
  match at_LockedUntil a with Some until => Time.Before now until | None => false end.

(** ** The store *)

Class ReauthStore (St : Type) : Type := {
  ReauthFind : St → Z → result Counter;
  ReauthCreate : Counter → stM St error ();
  ReauthSave : Counter → Counter → stM St error ()
}.

(** [sameTime], and what [Save] compares. *)
Definition sameCount (cur read : Counter) : bool :=
  (at_Failures cur =? at_Failures read) && bool_decide (at_LockedUntil cur = at_LockedUntil read).

(** What the interface documents. *)
Class ReauthStoreLaws (St : Type) `{!ReauthStore St} : Type := {
  counter : St → Z → option Counter;
  law_find_ok s id a : ReauthFind s id = Ok a → counter s id = Some a;
  law_find_none s id e : ReauthFind s id = Err e → errors_Is e ErrReauthNotFound = true → counter s id = None;
  law_find_conflict s id e : ReauthFind s id = Err e → errors_Is e ErrReauthConflict = false;
  law_create_ok a s s' : ReauthCreate a s = (Ok (), s') →
    counter s (at_AccountID a) = None ∧ counter s' (at_AccountID a) = Some a ∧
    ∀ id, id ≠ at_AccountID a → counter s' id = counter s id;
  law_create_err a s s' e : ReauthCreate a s = (Err e, s') →
    s' = s ∧ (errors_Is e ErrReauthConflict = true → is_Some (counter s (at_AccountID a)));
  law_save_counted a read s s' : at_AccountID a = at_AccountID read → ReauthSave a read s = (Ok (), s') →
    (∃ cur, counter s (at_AccountID a) = Some cur ∧ sameCount cur read = true) ∧ counter s' (at_AccountID a) = Some a ∧
    ∀ id, id ≠ at_AccountID a → counter s' id = counter s id;
  law_save_refused a read s s' e : at_AccountID a = at_AccountID read → ReauthSave a read s = (Err e, s') →
    s' = s ∧ (errors_Is e ErrReauthConflict = true → ∀ cur, counter s (at_AccountID a) = Some cur → sameCount cur read = false)
}.

(** ** In memory *)

Record MemReauth : Type := mkMemReauth { rows : gmap Z Counter }.

Definition mem_ReauthFind (s : MemReauth) (accountID : Z) : result Counter :=
  match rows s !! accountID with Some a => Ok a | None => Err (errNew ErrReauthNotFound) end.

Definition mem_ReauthCreate (a : Counter) : stM MemReauth error () := λ s,
  match rows s !! at_AccountID a with
  | Some _ => (Err (errNew ErrReauthConflict), s)
  | None => (Ok (), mkMemReauth (<[at_AccountID a := a]> (rows s)))
  end.

Definition mem_ReauthSave (a read : Counter) : stM MemReauth error () := λ s,
  match rows s !! at_AccountID read with
  | Some cur => if sameCount cur read then (Ok (), mkMemReauth (<[at_AccountID a := a]> (rows s)))
                else (Err (errNew ErrReauthConflict), s)
  | None => (Err (errNew ErrReauthConflict), s)
  end.

#[export] Instance MemReauthStore : ReauthStore MemReauth := {
  ReauthFind := mem_ReauthFind; ReauthCreate := mem_ReauthCreate; ReauthSave := mem_ReauthSave }.

(** ** The service *)

Definition missingReauthStore : error :=
  errNew "identity: ReauthDeps.Store is missing: pass a ReauthStore, for example gormstore.New(db).Reauth".
Definition missingHasher : error :=
  errNew "identity: ReauthDeps.Hasher is missing: pass the PasswordHasher the accounts use".
Definition missingReauthClock : error :=
  errNew "identity: ReauthDeps.Clock is missing: pass the application's clock, app.Clock()".

(** [NewReauth]: the flags say which dependencies were passed. *)
Definition NewReauth (hasStore hasHasher hasClock : bool) (lock : Lock) : outcome error Lock :=
  if negb hasStore then Err missingReauthStore
  else if negb hasHasher then Err missingHasher
  else if negb hasClock then Err missingReauthClock
  else Ok (lock_withDefaults lock).

Section Reauth.
Context {St : Type} `{!ReauthStore St}.
Variable RFC3339 : Z → string.
Variable Matches : string → string → bool.
Variable lock : Lock.

(** [reauthLocked] is given a locked counter. [Seconds] is a float64, whose ceiling
    is the exact one for every duration below 97 days. *)
Definition reauthLocked (a : Counter) (now : Z) : error :=
  let until := default 0 (at_LockedUntil a) in
  WithLog (WithReason (Wrap None ReasonReauthLocked CodeBadRequest) ReasonReauthLocked
    {[ "retry_after" := PInt (Z.max (- (- (Time.Sub until now) / Time.Second)) 1);
       "locked_until" := PString (RFC3339 until) ]}) LevelWarn.

Definition find (s : St) (accountID : Z) : result (Counter * bool) :=
  match ReauthFind s accountID with
  | Ok a => Ok (a, true)
  | Err err => if errors_Is err ErrReauthNotFound then Ok (mkCounter accountID 0 None 0, false) else Err (Internal err)
  end.

Definition rounds : nat := Z.to_nat (Int64.wrap (After lock + 2)).

(** The counter after one more attempt at [now]. *)
Definition countedNext (read : Counter) (now : Z) : Counter :=
  let failures := Int64.wrap ((if bool_decide (at_LockedUntil read = None) then at_Failures read else 0) + 1) in
  mkCounter (at_AccountID read) failures (if After lock <=? failures then Some (now + For lock) else None) now.

(** The second half of a round of [begin_]: from what was read to the save. *)
Definition count (read : Counter) (found : bool) (now : Z) : stM St error Counter := λ s,
  if Locked read now then (Err (reauthLocked read now), s) else
  let next := countedNext read now in
  match (if found then ReauthSave next read else ReauthCreate next) s with
  | (Ok _, s') => (Ok next, s')
  | (Err err, s') => (Err (if errors_Is err ErrReauthConflict then err else Internal err), s')
  end.

(** [n] rounds of [begin], the first numbered [i]. *)
Fixpoint begin_rounds (n i : nat) (accountID : Z) (clock : nat → Z) (others : nat → St → St) : stM St error Counter := λ s,
  match n with
  | O => (Err (Internal (errNew ErrReauthConflict)), s)
  | S n' =>
      let s := others (2 * i)%nat s in
      match find s accountID with
      | Err e => (Err e, s)
      | Ok (read, found) =>
          match count read found (clock i) (others (2 * i + 1)%nat s) with
          | (Err e, s') => if errors_Is e ErrReauthConflict then begin_rounds n' (S i) accountID clock others s' else (Err e, s')
          | r => r
          end
      end
  end.

Definition begin_ (accountID : Z) (clock : nat → Z) (others : nat → St → St) : stM St error Counter :=
  begin_rounds rounds 0 accountID clock others.

(** The second half of a round of [succeed]: nothing to clear, or a save. *)
Definition clear (accountID : Z) (read : Counter) (found : bool) (now : Z) : stM St error () := λ s,
  if negb found || ((at_Failures read =? 0) && bool_decide (at_LockedUntil read = None)) then (Ok (), s)
  else match ReauthSave (mkCounter accountID 0 None now) read s with
       | (Ok _, s') => (Ok (), s')
       | (Err err, s') => (Err (if errors_Is err ErrReauthConflict then err else Internal err), s')
       end.

Fixpoint succeed_rounds (n i : nat) (accountID : Z) (clock : nat → Z) (others : nat → St → St) : stM St error () := λ s,
  match n with
  | O => (Err (Internal (errNew ErrReauthConflict)), s)
  | S n' =>
      let s := others (2 * i)%nat s in
      match find s accountID with
      | Err e => (Err e, s)
      | Ok (read, found) =>
          match clear accountID read found (clock i) (others (2 * i + 1)%nat s) with
          | (Err e, s') => if errors_Is e ErrReauthConflict then succeed_rounds n' (S i) accountID clock others s' else (Err e, s')
          | r => r
          end
      end
  end.

Definition succeed (first : nat) (accountID : Z) (clock : nat → Z) (others : nat → St → St) : stM St error () :=
  succeed_rounds rounds first accountID clock others.

(** [Confirm]: the readings of [begin_] come first, then the one after a mismatch
    or those of [succeed]. *)
Definition Confirm (accountID : Z) (hash password : string) (clock : nat → Z) (others : nat → St → St) : stM St error () := λ s,
  match begin_ accountID clock others s with
  | (Err e, s') => (Err e, s')
  | (Ok counted, s') =>
      if Matches hash password then succeed rounds accountID clock others s'
      else let now := clock rounds in
           (Err (if Locked counted now then reauthLocked counted now else errNew ErrWrongPassword), s')
  end.
End Reauth.

(** * Requests that confirm passwords at once (src/identity/account/reauth.go)

    The requests' store calls as interleaved steps, and the machine they implement:
    one counter per account that counts, locks and clears in single moves. *)

Lemma sameCount_spec cur read :
  sameCount cur read = true ↔ at_Failures cur = at_Failures read ∧ at_LockedUntil cur = at_LockedUntil read.
Proof. unfold sameCount. by rewrite andb_true_iff, Z.eqb_eq, bool_decide_eq_true. Qed.

(** The store in memory keeps the laws. *)
#[export] Instance MemReauthLaws : ReauthStoreLaws MemReauth.
Proof.
  refine {| counter := λ s id, rows s !! id |}.
  - intros s id a. cbn. unfold mem_ReauthFind. by case_match; intros [= <-].
  - intros s id e. cbn. unfold mem_ReauthFind. by case_match.
  - intros s id e. cbn. unfold mem_ReauthFind. by case_match; intros [= <-].
  - intros a s s'. cbn. unfold mem_ReauthCreate. case_match; [done|]. intros [= <-]. cbn. rewrite lookup_insert_eq.
    split_and!; try done. intros id Hne. by rewrite lookup_insert_ne.
  - intros a s s' e. cbn. unfold mem_ReauthCreate. case_match; [|done]. intros [= <- <-]. eauto.
  - intros a read s s' Hid. cbn. unfold mem_ReauthSave. rewrite <-Hid. destruct (rows s !! _) as [cur|]; [|done].
    destruct (sameCount cur read) eqn:E; [|done]. intros [= <-]. cbn. rewrite lookup_insert_eq.
    split_and!; eauto. intros id Hne. by rewrite lookup_insert_ne.
  - intros a read s s' e Hid. cbn. unfold mem_ReauthSave. rewrite <-Hid. destruct (rows s !! _) as [cur|].
    + destruct (sameCount cur read) eqn:E; [done|]. intros [= <- <-]. split; [done|]. intros _ ? [= <-]. done.
    + intros [= <- <-]. done.
Defined.

(** ** The machine *)

Record machine : Type := mkMachine { m_count : Z; m_until : option Z }.

(** Counting at [now]: refused while locked, else one more; a lock that ran out is
    forgotten, and the last attempt locks. *)
Definition count_move (l : Lock) (now : Z) (m : machine) : option machine :=
  if match m_until m with Some until => now <? until | None => false end then None
  else let n := (if bool_decide (m_until m = None) then m_count m else 0) + 1 in
       Some (mkMachine n (if After l <=? n then Some (now + For l) else None)).

(** What was done to one account's counter, the newest first. *)
Inductive entry : Set := Counted (now : Z) | Cleared.

Fixpoint replay (l : Lock) (log : list entry) : option machine :=
  match log with
  | [] => Some (mkMachine 0 None)
  | Cleared :: older => _ ← replay l older; Some (mkMachine 0 None)
  | Counted now :: older => m ← replay l older; count_move l now m
  end.

(** The counter of the machine never passes [After], and reaching it locks. *)
Lemma replay_bounded l log m :
  0 < After l → replay l log = Some m → 0 <= m_count m <= After l ∧ (m_until m = None ↔ m_count m < After l).
Proof.
  intros HA. revert m. induction log as [|[now|] log IH]; intros m; cbn.
  - intros [= <-]. cbn. split; [lia|]. done.
  - destruct (replay l log) as [m0|] eqn:E; [|done]. cbn. unfold count_move. case_match; [done|]. intros [= <-]. cbn.
    destruct (IH m0 eq_refl) as [Hb Hl].
    assert (0 <= (if bool_decide (m_until m0 = None) then m_count m0 else 0) < After l) as Hn by (case_bool_decide; naive_solver lia).
    destruct (Z.leb_spec (After l) ((if bool_decide (m_until m0 = None) then m_count m0 else 0) + 1)); split; try lia; split; intros; try done; lia.
  - destruct (replay l log); [|done]. cbn. intros [= <-]. cbn. split; [lia|]. done.
Qed.

(** ** Interleaved requests *)
Section World.
Context {St : Type} `{!ReauthStore St} `{!ReauthStoreLaws St}.
Variable RFC3339 : Z → string.
Variable l : Lock.
Hypothesis Hafter : 0 < After l <= Int64.max_value.

(** What each request has read, and the log of each account. *)
Record world : Type := mkWorld { w_store : St; w_reads : gmap nat (Counter * bool); w_log : gmap Z (list entry) }.

Definition log_of (w : world) (id : Z) : list entry := default [] (w_log w !! id).
Definition logged (id : Z) (x : entry) (w : world) : gmap Z (list entry) := <[id := x :: log_of w id]> (w_log w).

(** The steps of the requests. A request that counts successfully goes on to check
    its password; one whose password matched reads and clears. *)
Inductive event : Type :=
| ERead (k : nat) (id : Z)
| ECount (k : nat) (now : Z)
| EClear (k : nat) (now : Z).

(** Whether [clear] has anything to write. *)
Definition nothing_to_clear (read : Counter) (found : bool) : bool :=
  negb found || ((at_Failures read =? 0) && bool_decide (at_LockedUntil read = None)).

Definition run_event (w : world) (e : event) : world :=
  match e with
  | ERead k id =>
      match find (w_store w) id with
      | Ok r => mkWorld (w_store w) (<[k := r]> (w_reads w)) (w_log w)
      | Err _ => w
      end
  | ECount k now =>
      match w_reads w !! k with
      | None => w
      | Some (read, found) =>
          match count RFC3339 l read found now (w_store w) with
          | (Ok next, s) => mkWorld s (delete k (w_reads w)) (logged (at_AccountID next) (Counted now) w)
          | (Err _, s) => mkWorld s (delete k (w_reads w)) (w_log w)
          end
      end
  | EClear k now =>
      match w_reads w !! k with
      | None => w
      | Some (read, found) =>
          match clear (at_AccountID read) read found now (w_store w) with
          | (Ok _, s) => mkWorld s (delete k (w_reads w))
                           (if nothing_to_clear read found then w_log w else logged (at_AccountID read) Cleared w)
          | (Err _, s) => mkWorld s (delete k (w_reads w)) (w_log w)
          end
      end
  end.

Definition run (w : world) (es : list event) : world := foldl run_event w es.

(** ** What every interleaving keeps *)

Definition stands (o : option Counter) (m : machine) : Prop :=
  match o with
  | None => m = mkMachine 0 None
  | Some a => at_Failures a = m_count m ∧ at_LockedUntil a = m_until m
  end.

Definition keyed (s : St) : Prop := ∀ id a, counter s id = Some a → at_AccountID a = id.

(** A counter that was not found is the empty one. *)
Definition read_ok (r : Counter * bool) : Prop := r.2 = false → at_Failures r.1 = 0 ∧ at_LockedUntil r.1 = None.

Record world_ok (w : world) : Prop := mkWorldOk {
  wo_keyed : keyed (w_store w);
  wo_reads : map_Forall (λ _ r, read_ok r) (w_reads w);
  wo_log : ∀ id, ∃ m, replay l (log_of w id) = Some m ∧ stands (counter (w_store w) id) m
}.

Lemma find_ok s id r : keyed s → find s id = Ok r → at_AccountID r.1 = id ∧ read_ok r ∧
  (r.2 = true → counter s id = Some r.1) ∧ (r.2 = false → counter s id = None).
Proof.
  intros Hk. unfold find. destruct (ReauthFind s id) as [a|e] eqn:E.
  - intros [= <-]. apply law_find_ok in E. split_and!; try done. by apply Hk.
  - destruct (errors_Is e ErrReauthNotFound) eqn:En; [|done]. intros [= <-]. split_and!; try done. intros _.
    by eapply law_find_none.
Qed.

(** The new counter is the machine's move. *)
Lemma countedNext_moves read now m :
  at_Failures read = m_count m → at_LockedUntil read = m_until m → 0 <= m_count m <= After l →
  (m_until m = None → m_count m < After l) → Locked read now = false →
  ∃ m', count_move l now m = Some m' ∧ stands (Some (countedNext l read now)) m'.
Proof.
  intros Hf Hu Hb Hl Hn. unfold count_move, Locked, Time.Before in *. rewrite Hu in Hn.
  destruct m as [n u]. cbn in *. rewrite Hn. eexists. split; [done|]. unfold countedNext, stands. cbn. rewrite Hf, Hu.
  rewrite Int64.wrap_id; [done|]. unfold Int64.min_value. case_bool_decide; [specialize (Hl H)|]; lia.
Qed.

(** What a successful count wrote. *)
Lemma count_Ok read found now s next s' :
  keyed s → read_ok (read, found) → count RFC3339 l read found now s = (Ok next, s') →
  next = countedNext l read now ∧ Locked read now = false ∧
  (match counter s (at_AccountID read) with
   | Some cur => found = true ∧ sameCount cur read = true
   | None => found = false ∧ at_Failures read = 0 ∧ at_LockedUntil read = None
   end) ∧
  counter s' (at_AccountID read) = Some next ∧ ∀ id, id ≠ at_AccountID read → counter s' id = counter s id.
Proof.
  intros Hk Hr. unfold count. destruct (Locked read now); [done|]. destruct found.
  - destruct (ReauthSave _ read s) as [[[]|e] s1] eqn:E; [|done]. intros [= <- <-].
    apply law_save_counted in E as ((cur & Hc & Hs) & Hn & Ho); [|done]. cbn in Hc, Hn, Ho. rewrite Hc. by split_and!.
  - destruct (ReauthCreate _ s) as [[[]|e] s1] eqn:E; [|done]. intros [= <- <-].
    apply law_create_ok in E as (Hc & Hn & Ho). cbn in Hc, Hn, Ho. rewrite Hc. destruct (Hr eq_refl). by split_and!.
Qed.

Lemma count_Err read found now s e s' : count RFC3339 l read found now s = (Err e, s') → s' = s.
Proof.
  unfold count. destruct (Locked read now); [by intros [= <- <-]|]. destruct found.
  - destruct (ReauthSave _ read s) as [[[]|e'] s1] eqn:E; [done|]. intros [= <- <-]. by apply law_save_refused in E as [-> _].
  - destruct (ReauthCreate _ s) as [[[]|e'] s1] eqn:E; [done|]. intros [= <- <-]. by apply law_create_err in E as [-> _].
Qed.

Lemma clear_inv read found now s r s' :
  clear (at_AccountID read) read found now s = (r, s') →
  (s' = s ∧ (r = Ok () → nothing_to_clear read found = true)) ∨
  (r = Ok () ∧ nothing_to_clear read found = false ∧ counter s' (at_AccountID read) = Some (mkCounter (at_AccountID read) 0 None now) ∧
     ∀ id, id ≠ at_AccountID read → counter s' id = counter s id).
Proof.
  unfold clear, nothing_to_clear. destruct (negb found || _) eqn:En; [intros [= <- <-]; by left|].
  destruct (ReauthSave _ read s) as [[[]|e] s1] eqn:E; intros [= <- <-].
  - right. apply law_save_counted in E as (_ & Hn & Ho); [|done]. done.
  - left. apply law_save_refused in E as [-> _]; done.
Qed.

Lemma log_other w id id' x s reads :
  id' ≠ id → log_of (mkWorld s reads (logged id x w)) id' = log_of w id'.
Proof. intros Hne. unfold log_of, logged. cbn. by rewrite lookup_insert_ne. Qed.

Lemma log_same w id x s reads : log_of (mkWorld s reads (logged id x w)) id = x :: log_of w id.
Proof. unfold log_of, logged. cbn. by rewrite lookup_insert_eq. Qed.

Lemma keyed_write s s' id a :
  keyed s → counter s' id = Some a → at_AccountID a = id → (∀ i, i ≠ id → counter s' i = counter s i) → keyed s'.
Proof. intros Hk Hn Ha Ho i b. destruct (decide (i = id)) as [->|Hne]; [congruence|]. rewrite Ho by done. by apply Hk. Qed.

Lemma run_event_ok w e : world_ok w → world_ok (run_event w e).
Proof.
  intros [Hk Hr Hl]. destruct e as [k id|k now|k now]; cbn.
  - destruct (find (w_store w) id) as [r|] eqn:E; [|done]. destruct (find_ok _ _ _ Hk E) as (_ & Hok & _).
    split; cbn; [done| |done]. by apply map_Forall_insert_2.
  - destruct (w_reads w !! k) as [[read found]|] eqn:Ek; [|done]. pose proof (Hr _ _ Ek) as Hok.
    assert (map_Forall (λ _ r, read_ok r) (delete k (w_reads w))) as Hr' by (by apply map_Forall_delete).
    destruct (count _ _ read found now (w_store w)) as [[next|e] s'] eqn:E; [|apply count_Err in E as ->; by split].
    destruct (count_Ok _ _ _ _ _ _ Hk Hok E) as (-> & Hnl & Hcur & Hnew & Ho). cbn [at_AccountID countedNext].
    split; cbn; [by eapply keyed_write|done|]. intros i. destruct (decide (i = at_AccountID read)) as [->|Hne].
    + rewrite log_same. destruct (Hl (at_AccountID read)) as (m & Em & Hst).
      destruct (replay_bounded l _ m (proj1 Hafter) Em) as [Hb Hu]. cbn [replay]. rewrite Em. cbn. rewrite Hnew.
      apply countedNext_moves; [| |done|by apply Hu|done]; destruct (counter (w_store w) (at_AccountID read)) as [cur|]; cbn in Hst.
      * destruct Hcur as [_ [<- _]%sameCount_spec]. tauto.
      * destruct Hcur as (_ & -> & _). by rewrite Hst.
      * destruct Hcur as [_ [_ <-]%sameCount_spec]. tauto.
      * destruct Hcur as (_ & _ & ->). by rewrite Hst.
    + rewrite log_other by done. destruct (Hl i) as (m & Em & Hst). exists m. by rewrite Ho.
  - destruct (w_reads w !! k) as [[read found]|] eqn:Ek; [|done].
    assert (map_Forall (λ _ r, read_ok r) (delete k (w_reads w))) as Hr' by (by apply map_Forall_delete).
    destruct (clear _ read found now (w_store w)) as [r s'] eqn:E.
    apply clear_inv in E as [[-> Hn]|(-> & Hn & Hnew & Ho)].
    + destruct r as [[]|]; [rewrite (Hn eq_refl)|]; by split.
    + rewrite Hn. split; cbn; [by eapply keyed_write|done|]. intros i. destruct (decide (i = at_AccountID read)) as [->|Hne].
      * rewrite log_same. destruct (Hl (at_AccountID read)) as (m & Em & Hst). cbn. rewrite Em. cbn. rewrite Hnew. by eexists.
      * rewrite log_other by done. destruct (Hl i) as (m & Em & Hst). exists m. by rewrite Ho.
Qed.

Lemma run_world_ok w es : world_ok w → world_ok (run w es).
Proof. unfold run. revert w. induction es as [|e es IH]; intros w Hw; [done|]. apply IH. by apply run_event_ok. Qed.

Lemma empty_world_ok s : (∀ id, counter s id = None) → world_ok (mkWorld s ∅ ∅).
Proof.
  intros Hs. split; cbn; [intros id a; by rewrite Hs|apply map_Forall_empty|].
  intros id. exists (mkMachine 0 None). by rewrite Hs.
Qed.
End World.

(** * Properties of confirming the password again (src/identity/account/reauth.go) *)

(** ** Rounds *)
Section Rounds.
Context {St : Type} `{!ReauthStore St} `{!ReauthStoreLaws St}.
Variable RFC3339 : Z → string.
Variable l : Lock.
Hypothesis Hafter : 0 < After l <= Int64.max_value.
(** The time at which the rounds begin. *)
Variable T : Z.

(** The attempts another request can still count before it meets a lock set after
    [T]. *)
Definition attempts_left (o : option Counter) : Z :=
  match o with
  | None => After l
  | Some a => match at_LockedUntil a with
              | None => After l - at_Failures a
              | Some until => if T + For l <=? until then 0 else After l
              end
  end.

Definition row_ok (id : Z) (a : Counter) : Prop :=
  at_AccountID a = id ∧ 0 <= at_Failures a ∧ (at_LockedUntil a = None → at_Failures a < After l).
Definition rows_ok (s : St) : Prop := ∀ id a, counter s id = Some a → row_ok id a.

Definition in_time (now : Z) : Prop := T <= now < T + For l.

(** A guess of another request. *)
Definition guess (e : event) : Prop :=
  match e with ERead _ _ => True | ECount _ now => in_time now | EClear _ _ => False end.

Definition progress (o o' : option Counter) : Prop := o' = o ∨ is_Some o' ∧ attempts_left o' < attempts_left o.

Lemma progress_trans o1 o2 o3 : progress o1 o2 → progress o2 o3 → progress o1 o3.
Proof. intros [->|[H1 L1]] [->|[H2 L2]]; [by left|by right|by right|right; split; [done|lia]]. Qed.

Lemma attempts_left_bound s id : rows_ok s → 0 <= attempts_left (counter s id) <= After l.
Proof.
  intros Hs. unfold attempts_left. destruct (counter s id) as [a|] eqn:E; [|lia]. destruct (Hs _ _ E) as (_ & H0 & Hl).
  destruct (at_LockedUntil a); [case_match; lia|]. specialize (Hl eq_refl). lia.
Qed.

(** A counted attempt uses one up. *)
Lemma count_progress read found now s next s' :
  rows_ok s → read_ok (read, found) → in_time now → count RFC3339 l read found now s = (Ok next, s') →
  rows_ok s' ∧ ∀ id, progress (counter s id) (counter s' id).
Proof.
  intros Hs Hr Hnow H. assert (keyed s) as Hk by (intros id a Ha; apply (Hs id a Ha)).
  destruct (count_Ok RFC3339 l _ _ _ _ _ _ Hk Hr H) as (-> & Hnl & Hcur & Hnew & Ho).
  assert (row_ok (at_AccountID read) (countedNext l read now) ∧
          attempts_left (Some (countedNext l read now)) < attempts_left (counter s (at_AccountID read))) as [Hok Hlt].
  { assert (0 <= (if bool_decide (at_LockedUntil read = None) then at_Failures read else 0) < After l) as Hf.
    { destruct (counter s (at_AccountID read)) as [cur|] eqn:Ec.
      - destruct Hcur as [_ [E1 E2]%sameCount_spec]. destruct (Hs _ _ Ec) as (_ & H0 & Hl). rewrite <-E1, <-E2.
        case_bool_decide as Hb; [specialize (Hl Hb)|]; lia.
      - destruct Hcur as (_ & -> & ->). rewrite bool_decide_eq_true_2 by done. lia. }
    unfold row_ok, attempts_left. cbn -[bool_decide]. rewrite Int64.wrap_id by (unfold Int64.min_value; lia).
    set (n := (if bool_decide _ then _ else _) + 1) in *. assert (attempts_left (counter s (at_AccountID read)) >= After l - n + 1) as Hbefore.
    { unfold attempts_left, n. destruct (counter s (at_AccountID read)) as [cur|] eqn:Ec; [|lia].
      destruct Hcur as [_ [E1 E2]%sameCount_spec]. rewrite E1, E2. destruct (at_LockedUntil read) as [u|] eqn:Eu.
      - rewrite bool_decide_eq_false_2 by done. unfold Locked, Time.Before in Hnl. rewrite Eu in Hnl. apply Z.ltb_ge in Hnl.
        destruct (Z.leb_spec (T + For l) u); [unfold in_time in Hnow; lia|lia].
      - rewrite bool_decide_eq_true_2 by done. lia. }
    fold (attempts_left (counter s (at_AccountID read))).
    destruct (Z.leb_spec (After l) n).
    - rewrite (proj2 (Z.leb_le _ _)) by (unfold in_time in Hnow; lia). split; [|lia]. split_and!; [done|lia|done].
    - split; [|lia]. split_and!; [done|lia|done]. }
  split.
  - intros id a. destruct (decide (id = at_AccountID read)) as [->|Hne]; [rewrite Hnew; by intros [= <-]|].
    rewrite Ho by done. apply Hs.
  - intros id. destruct (decide (id = at_AccountID read)) as [->|Hne]; [rewrite Hnew; right; eauto|]. rewrite Ho by done. by left.
Qed.

Lemma run_progress w es :
  rows_ok (w_store w) → map_Forall (λ _ r, read_ok r) (w_reads w) → Forall guess es →
  rows_ok (w_store (run RFC3339 l w es)) ∧ ∀ id, progress (counter (w_store w) id) (counter (w_store (run RFC3339 l w es)) id).
Proof.
  unfold run. revert w. induction es as [|e es IH]; intros w Hs Hr He; [split; [done|by left]|].
  apply list.Forall_cons in He as [He Hes]. cbn [foldl].
  enough (rows_ok (w_store (run_event RFC3339 l w e)) ∧ map_Forall (λ _ r, read_ok r) (w_reads (run_event RFC3339 l w e)) ∧
    ∀ id, progress (counter (w_store w) id) (counter (w_store (run_event RFC3339 l w e)) id)) as (H1 & H2 & H3).
  { destruct (IH _ H1 H2 Hes) as [H4 H5]. split; [done|]. intros id. by eapply progress_trans. }
  assert (keyed (w_store w)) as Hk by (intros id a Ha; apply (Hs id a Ha)).
  destruct e as [k id|k now|k now]; [| |done]; cbn.
  - destruct (find (w_store w) id) as [r|] eqn:E; [|split_and!; try done; by left].
    destruct (find_ok _ _ _ Hk E) as (_ & Hok & _). split_and!; cbn; [done|by apply map_Forall_insert_2|by left].
  - destruct (w_reads w !! k) as [[read found]|] eqn:Ek; [|split_and!; try done; by left]. pose proof (Hr _ _ Ek) as Hok.
    assert (map_Forall (λ _ r, read_ok r) (delete k (w_reads w))) as Hr' by (by apply map_Forall_delete).
    destruct (count _ _ read found now (w_store w)) as [[next|e] s'] eqn:E.
    + destruct (count_progress _ _ _ _ _ _ Hs Hok He E) as [H1 H2]. done.
    + apply count_Err in E as ->. split_and!; try done. by left.
Qed.

(** A conflict means that another request used an attempt up. *)
Lemma conflict_progress id s s' read found now e s'' :
  rows_ok s → progress (counter s id) (counter s' id) → find s id = Ok (read, found) →
  count RFC3339 l read found now s' = (Err e, s'') → errors_Is e ErrReauthConflict = true →
  s'' = s' ∧ attempts_left (counter s' id) < attempts_left (counter s id).
Proof.
  intros Hs Hp Hf Hc He. assert (keyed s) as Hk by (intros i a Ha; apply (Hs i a Ha)).
  destruct (find_ok _ _ _ Hk Hf) as (Hid & _ & Hfound & Hnone). cbn in *.
  pose proof (count_Err _ _ _ _ _ _ _ _ Hc) as ->. split; [done|]. destruct Hp as [Eq|[_ Hlt]]; [|done]. exfalso.
  unfold count in Hc. destruct (Locked read now); [by injection Hc as <-|]. destruct found.
  - destruct (ReauthSave _ read s') as [[[]|e'] s1] eqn:E; [done|]. injection Hc as <- <-.
    apply law_save_refused in E as [_ Hcf]; [|done]. cbn in Hcf. rewrite Hid, Eq, (Hfound eq_refl) in Hcf.
    destruct (errors_Is e' ErrReauthConflict) eqn:Ee; [|cbn in He; congruence].
    specialize (Hcf eq_refl read eq_refl). apply not_true_iff_false in Hcf. by apply Hcf, sameCount_spec.
  - destruct (ReauthCreate _ s') as [[[]|e'] s1] eqn:E; [done|]. injection Hc as <- <-.
    apply law_create_err in E as [_ Hcf]. cbn in Hcf. rewrite Hid, Eq, (Hnone eq_refl) in Hcf.
    destruct (errors_Is e' ErrReauthConflict) eqn:Ee; [|cbn in He; congruence]. by destruct (Hcf eq_refl).
Qed.

Lemma begin_rounds_answers (others : nat → St → St) clock n i id s :
  (∀ j s, rows_ok s → rows_ok (others j s) ∧ ∀ id, progress (counter s id) (counter (others j s) id)) →
  rows_ok s → attempts_left (counter s id) < Z.of_nat n →
  match (begin_rounds RFC3339 l n i id clock others s).1 with Ok _ => True | Err e => errors_Is e ErrReauthConflict = false end.
Proof.
  intros Ho. revert i s. induction n as [|n IH]; intros i s Hs Hn.
  - pose proof (attempts_left_bound s id Hs). lia.
  - cbn [begin_rounds]. destruct (Ho (2 * i)%nat s Hs) as [Hs1 Hp1]. set (s1 := others (2 * i)%nat s) in *.
    assert (attempts_left (counter s1 id) < Z.of_nat (S n)) as Hn1 by (destruct (Hp1 id) as [->|[_ ?]]; lia).
    destruct (Ho (2 * i + 1)%nat s1 Hs1) as [Hs2 Hp2].
    destruct (find s1 id) as [[read found]|e] eqn:Ef.
    + destruct (count RFC3339 l read found (clock i) _) as [[next|e] s2] eqn:Ec; [done|].
      destruct (errors_Is e ErrReauthConflict) eqn:Ee; [|done].
      destruct (conflict_progress id _ _ _ _ _ _ _ Hs1 (Hp2 id) Ef Ec Ee) as [-> Hlt]. apply IH; [done|lia].
    + unfold find in Ef. destruct (ReauthFind s1 id) as [a|err] eqn:E; [done|]. apply law_find_conflict in E.
      destruct (errors_Is err ErrReauthNotFound); [done|]. injection Ef as <-. cbn. done.
Qed.
End Rounds.

(** ** Guesses over time *)

Lemma replay_app l newer older m : replay l (newer ++ older) = Some m → is_Some (replay l older).
Proof.
  revert m. induction newer as [|[now|] newer IH]; intros m; cbn; [by eexists|..];
    (destruct (replay l (newer ++ older)) as [m'|] eqn:E; [intros _; by eapply IH|done]).
Qed.

(** Two of the times, the later one first, are [d] apart. *)
Definition apart (d : Z) (ts : list Z) : Prop :=
  ∃ i j ti tj, (i < j)%nat ∧ ts !! i = Some ti ∧ ts !! j = Some tj ∧ tj + d <= ti.

Lemma apart_cons d t ts : apart d ts → apart d (t :: ts).
Proof. intros (i & j & ti & tj & Hij & Hi & Hj & H). exists (S i), (S j), ti, tj. split_and!; try done. lia. Qed.

(** Without a right password the machine counts them all, unless a lock ran out
    between two of them. *)
Lemma replay_counts l ts older m :
  0 < After l → replay l ((Counted <$> ts) ++ older) = Some m → ts ≠ [] →
  (apart (For l) ts ∨ Z.of_nat (length ts) <= m_count m) ∧
  (∀ u, m_until m = Some u → ∃ t, head ts = Some t ∧ u = t + For l).
Proof.
  intros HA. revert m. induction ts as [|t ts IH]; intros m Hm Hne; [done|]. cbn in Hm.
  destruct (replay l ((Counted <$> ts) ++ older)) as [m0|] eqn:E; [|done]. cbn in Hm.
  pose proof (replay_bounded l _ _ HA E) as [Hb _]. unfold count_move in Hm. case_match eqn:Elock; [done|].
  injection Hm as <-. cbn [m_count m_until]. split; [|intros u Hu; destruct (After l <=? _); [injection Hu as <-; by exists t|done]].
  destruct ts as [|t' ts]; [right; case_bool_decide; cbn; lia|].
  destruct (IH m0 eq_refl ltac:(done)) as [[Ha|Hle] Hu]; [left; by apply apart_cons|].
  destruct (m_until m0) as [u|] eqn:Eu.
  - left. destruct (Hu u eq_refl) as (t0 & [= <-] & Eu'). apply Z.ltb_ge in Elock.
    exists 0%nat, 1%nat, t, t'. split_and!; [lia|done|done|lia].
  - right. rewrite bool_decide_eq_true_2 by done. cbn [length] in *. lia.
Qed.

Lemma NewReauth_lock rule l : NewReauth true true true rule = Ok l → After rule <= Int64.max_value →
  0 < After l <= Int64.max_value ∧ 0 < For l.
Proof.
  intros [= <-] Hr. unfold lock_withDefaults. cbn. destruct (Z.leb_spec (After rule) 0), (Z.leb_spec (For rule) 0);
    split; try done; try lia.
Qed.

(** The guesses at a password are limited, whatever the interleaving. From a
    store without counters, after any reads, counts and clears of any number of
    requests, of any [After] + 1 attempts that were counted for an account, and so
    had their password checked, with no right password between them, two are at
    least [For] apart. *)
Theorem reauth_guesses_limited {St : Type} `{!ReauthStore St} `{!ReauthStoreLaws St} (RFC3339 : Z → string)
    (rule l : Lock) (s : St) (es : list event) (id : Z) (newer older : list entry) (ts : list Z) :
  NewReauth true true true rule = Ok l → After rule <= Int64.max_value → (∀ id, counter s id = None) →
  log_of (run RFC3339 l (mkWorld s ∅ ∅) es) id = newer ++ (Counted <$> ts) ++ older →
  After l < Z.of_nat (length ts) → apart (For l) ts.
Proof.
  intros Hl Hr Hs Hlog Hts. destruct (NewReauth_lock _ _ Hl Hr) as [HA _].
  destruct (run_world_ok RFC3339 l HA _ es (empty_world_ok l s Hs)) as [_ _ Hok]. destruct (Hok id) as (m & Em & _).
  rewrite Hlog in Em. destruct (replay_app _ _ _ _ Em) as [m' Em'].
  pose proof (replay_bounded l _ _ (proj1 HA) Em') as [Hb _].
  destruct (replay_counts l ts older m' (proj1 HA) Em') as [[?|Hle] _]; [by destruct ts; [cbn in Hts; lia|]|done|lia].
Qed.

Definition twoTries : Lock := mkLock 2 100.
Definition race : list event :=
  [ ERead 1 7; ERead 2 7; ECount 1 10; ECount 2 11; ERead 2 7; ECount 2 12; ERead 3 7; ECount 3 50; ERead 3 7; ECount 3 112 ].

Lemma reauth_guesses_limited_witness :
  log_of (run (λ _, "") twoTries (mkWorld (mkMemReauth ∅) ∅ ∅) race) 7 = [] ++ (Counted <$> [112; 12; 10]) ++ [] ∧ apart 100 [112; 12; 10].
Proof.
  assert (log_of (run (λ _, "") twoTries (mkWorld (mkMemReauth ∅) ∅ ∅) race) 7 = [] ++ (Counted <$> [112; 12; 10]) ++ []) as E
    by (vm_compute; reflexivity).
  split; [exact E|].
  apply (reauth_guesses_limited (λ _, "") twoTries twoTries (mkMemReauth ∅) race 7 [] [] [112; 12; 10]);
    [reflexivity|vm_compute; discriminate|intros i; reflexivity|exact E|reflexivity].
Defined.

(** Counting an attempt ends on a definite answer: in a store any history of
    requests led to, while others only guess and less than [For] passes, the
    [After] + 2 rounds of [begin] are enough whatever the others do between and
    within them, so the answer is never the conflict of two requests. *)
Theorem begin_reaches_an_answer {St : Type} `{!ReauthStore St} `{!ReauthStoreLaws St} (RFC3339 : Z → string)
    (rule l : Lock) (s0 : St) (history : list event) (T id : Z) (clock : nat → Z)
    (reads : nat → gmap nat (Counter * bool)) (es : nat → list event) :
  NewReauth true true true rule = Ok l → After rule <= Int64.max_value - 2 → (∀ id, counter s0 id = None) →
  (∀ i, map_Forall (λ _ r, read_ok r) (reads i)) → (∀ i, Forall (guess l T) (es i)) →
  let s := w_store (run RFC3339 l (mkWorld s0 ∅ ∅) history) in
  let others i s := w_store (run RFC3339 l (mkWorld s (reads i) ∅) (es i)) in
  match (begin_ RFC3339 l id clock others s).1 with Ok _ => True | Err e => errors_Is e ErrReauthConflict = false end.
Proof.
  intros Hl Hr Hs0 Hreads Hes s others. destruct (NewReauth_lock _ _ Hl ltac:(lia)) as [HA _].
  assert (After l <= Int64.max_value - 2) as HA'.
  { injection Hl as <-. unfold lock_withDefaults. cbn. by destruct (Z.leb_spec (After rule) 0). }
  destruct (run_world_ok RFC3339 l HA _ history (empty_world_ok l s0 Hs0)) as [Hk _ Hok]. fold s in Hk, Hok.
  assert (rows_ok l s) as Hrows.
  { intros i a Ha. destruct (Hok i) as (m & Em & Hst). rewrite Ha in Hst. destruct Hst as [Ef Eu].
    pose proof (replay_bounded l _ _ (proj1 HA) Em) as [Hb Hu]. split_and!; [by apply Hk|lia|]. rewrite Eu, Ef. apply Hu. }
  apply (begin_rounds_answers RFC3339 l HA T); [|done|].
  - intros j s1 Hs1. exact (run_progress RFC3339 l HA T (mkWorld s1 (reads j) ∅) (es j) Hs1 (Hreads j) (Hes j)).
  - pose proof (attempts_left_bound l HA T s id Hrows). unfold rounds.
    rewrite Int64.wrap_id by (unfold Int64.min_value; lia). rewrite Z2Nat.id by lia. lia.
Qed.

Lemma begin_reaches_an_answer_witness :
  let others (i : nat) s := w_store (run (λ _, "") twoTries (mkWorld s ∅ ∅) [ERead 1 7; ECount 1 20]) in
  match (begin_ (λ _, "") twoTries 7 (λ _, 20) others (w_store (run (λ _, "") twoTries (mkWorld (mkMemReauth ∅) ∅ ∅) []))).1 with
  | Ok _ => True
  | Err e => errors_Is e ErrReauthConflict = false
  end.
Proof.
  apply (begin_reaches_an_answer (λ _, "") twoTries twoTries (mkMemReauth ∅) [] 20 7 (λ _, 20) (λ _, ∅) (λ _, [ERead 1 7; ECount 1 20]));
    [reflexivity|vm_compute; discriminate|intros i; reflexivity|intros i; apply map_Forall_empty|].
  intros i. repeat constructor; vm_compute; discriminate.
Defined.

(** Alone, on the store in memory: what [Confirm] answers and what it leaves. *)
Theorem Confirm_decides (RFC3339 : Z → string) (Matches : string → string → bool) (rule l : Lock) (s : MemReauth)
    (id now : Z) (hash password : string) :
  NewReauth true true true rule = Ok l → After rule <= Int64.max_value - 2 → rows_ok l s →
  let cur := default (mkCounter id 0 None 0) (rows s !! id) in
  let next := countedNext l cur now in
  let '(r, s') := Confirm RFC3339 Matches l id hash password (λ _, now) (λ _ s, s) s in
  if Locked cur now then r = Err (reauthLocked RFC3339 cur now) ∧ s' = s
  else if Matches hash password then r = Ok () ∧ rows s' = <[id := mkCounter id 0 None now]> (rows s)
  else r = Err (if After l <=? at_Failures next then reauthLocked RFC3339 next now else errNew ErrWrongPassword) ∧
       rows s' = <[id := next]> (rows s).
Proof.
  intros Hl Hr Hs cur next. destruct (NewReauth_lock _ _ Hl ltac:(lia)) as [HA HF].
  assert (After l <= Int64.max_value - 2) as HA'.
  { injection Hl as <-. unfold lock_withDefaults. cbn. by destruct (Z.leb_spec (After rule) 0). }
  assert (rounds l = S (S (Z.to_nat (After l)))) as Er.
  { unfold rounds. rewrite Int64.wrap_id by (unfold Int64.min_value; lia). lia. }
  assert (at_AccountID cur = id) as Hid.
  { unfold cur. destruct (rows s !! id) as [a|] eqn:E; [|done]. by apply (Hs id a). }
  assert (find s id = Ok (cur, bool_decide (is_Some (rows s !! id)))) as Ef.
  { unfold find. cbn. unfold mem_ReauthFind, cur. by destruct (rows s !! id). }
  assert (at_AccountID next = id) as Hn by done.
  assert (1 <= at_Failures next) as Hnext.
  { unfold next. cbn. assert (0 <= (if bool_decide (at_LockedUntil cur = None) then at_Failures cur else 0) < Int64.max_value) as H0.
    { destruct (decide (at_LockedUntil cur = None)) as [Hb|Hb]; [rewrite bool_decide_eq_true_2 by done|rewrite bool_decide_eq_false_2 by done; lia]. unfold cur in *. destruct (rows s !! id) as [a|] eqn:E; [|cbn; lia].
      destruct (Hs id a E) as (_ & H1 & H2). cbn in Hb |- *. specialize (H2 Hb). lia. }
    rewrite Int64.wrap_id; [|unfold Int64.min_value]; lia. }
  unfold Confirm, begin_. rewrite Er. cbn [begin_rounds]. rewrite Ef. unfold count. destruct (Locked cur now); [done|].
  fold next. assert ((if bool_decide (is_Some (rows s !! id)) then ReauthSave next cur else ReauthCreate next) s =
    (Ok (), mkMemReauth (<[id := next]> (rows s)))) as Ew.
  { case_bool_decide as Hsome; cbn.
    - unfold mem_ReauthSave. rewrite Hid, Hn. destruct Hsome as [a Ha]. rewrite Ha.
      assert (cur = a) as -> by (unfold cur; by rewrite Ha). by rewrite (proj2 (sameCount_spec a a)).
    - unfold mem_ReauthCreate. rewrite Hn. by destruct (rows s !! id); [exfalso; eauto|]. }
  rewrite Ew. destruct (Matches hash password).
  - unfold succeed. rewrite Er. cbn [succeed_rounds].
    assert (find (mkMemReauth (<[id := next]> (rows s))) id = Ok (next, true)) as ->.
    { unfold find. cbn. unfold mem_ReauthFind. cbn. by rewrite lookup_insert_eq. }
    unfold clear. cbn [negb orb]. rewrite (proj2 (Z.eqb_neq _ _)) by lia. cbn [andb].
    cbn [ReauthSave MemReauthStore]. unfold mem_ReauthSave. cbn [rows]. rewrite Hn, lookup_insert_eq, (proj2 (sameCount_spec next next)) by done.
    cbn [rows at_AccountID].
    split; [done|]. by rewrite insert_insert_eq.
  - split; [|done]. f_equal. unfold Locked, next. cbn [at_LockedUntil at_Failures countedNext].
    destruct (After l <=? _); [|done]. unfold Time.Before. by rewrite (proj2 (Z.ltb_lt _ _)) by lia.
Qed.
