(* ===== verification/AccountRules.v ===== *)
(** * What a person's details must be (src/identity/account/rules.go, account.go,
    service.go, history.go)

    The checks of logins, names, addresses, phones, languages and passwords, and the
    views of the histories. Lower-casing and the parser of addresses are arguments. *)

From Stdlib Require Import Ascii.
From S2P Require Import Prelude Apperr Clock Attempts SignIn.

Local Open Scope Z_scope.

Definition ReasonLoginInvalid : string := "identity.login.invalid".
Definition ReasonLoginTaken : string := "identity.login.taken".
Definition ReasonNameInvalid : string := "identity.name.invalid".
Definition ReasonEmailInvalid : string := "identity.email.invalid".
Definition ReasonEmailTaken : string := "identity.email.taken".
Definition ReasonEmailUnchanged : string := "identity.email.unchanged".
Definition ReasonEmailDisabled : string := "identity.email.disabled".
Definition ReasonPhoneInvalid : string := "identity.phone.invalid".
Definition ReasonPasswordWeak : string := "identity.password.weak".
Definition ReasonPasswordWrong : string := "identity.password.wrong".
Definition ReasonPasswordSame : string := "identity.password.unchanged".
Definition ReasonPasswordMismatch : string := "identity.password.mismatch".
Definition ReasonCodeInvalid : string := "identity.code.invalid".
Definition ReasonSelfDeactivate : string := "identity.account.self_deactivation".
Definition ReasonAlreadyInactive : string := "identity.account.already_inactive".
Definition ReasonAlreadyActive : string := "identity.account.already_active".
Definition ReasonListViewInvalid : string := "identity.list.view_invalid".
Definition ReasonListOrderInvalid : string := "identity.list.order_invalid".
Definition ReasonListLastSignInInvalid : string := "identity.list.last_sign_in_invalid".
Definition ReasonHistoryViewInvalid : string := "identity.history.view_invalid".
Definition ReasonSessionCurrent : string := "identity.session.current".
Definition ReasonSessionNotFound : string := "identity.session.not_found".
Definition ReasonLocaleInvalid : string := "identity.locale.invalid".
Definition ReasonLocaleUnsupported : string := "identity.locale.unsupported".

Definition invalid (field reason : string) (params : gmap string param) : error :=
  WithLog (WithFields (WithReason (Wrap None reason CodeValidationError) reason params) {[field := reason]}) LevelInfo.

Definition conflict (field reason : string) : error :=
  WithLog (WithFields (WithReason (Wrap None reason CodeAlreadyExists) reason ∅) {[field := reason]}) LevelInfo.

Definition maxParam (n : Z) : gmap string param := {["max" := PInt n]}.

(** [unicode.IsControl]: category Cc. *)
Definition IsControl (r : Z) : bool := ((0 <=? r) && (r <=? 31)) || ((127 <=? r) && (r <=? 159)).

Definition checkLogin (login : string) : option error :=
  if bool_decide (login = "") || (LoginMax <? Utf8.RuneCount login) ||
     existsb (λ r, Utf8.IsSpace r || IsControl r) (Utf8.runes login)
  then Some (invalid "login" ReasonLoginInvalid (maxParam LoginMax)) else None.

Definition checkName (name : string) : option error :=
  if bool_decide (name = "") || (NameMax <? Utf8.RuneCount name)
  then Some (invalid "name" ReasonNameInvalid (maxParam NameMax)) else None.

Definition checkPhone (phone : string) : option error :=
  if PhoneMax <? Utf8.RuneCount phone then Some (invalid "phone" ReasonPhoneInvalid (maxParam PhoneMax)) else None.

(** [PasswordPolicy], and the default one. *)
Definition PasswordPolicy : Type := string → list string.
Definition Passwords (MinLength : Z) : PasswordPolicy := λ password,
  let shortest := if MinLength <=? 0 then 8 else MinLength in
  (if Utf8.RuneCount password <? shortest then ["min_length"] else []) ++
  (if 72 <? Z.of_nat (String.length password) then ["max_length"] else []).

Definition checkPassword (policy : PasswordPolicy) (field password : string) : option error :=
  match policy password with
  | [] => None
  | broken => Some (invalid field ReasonPasswordWeak {["rules" := PStrings broken]})
  end.

(** The first error, if any. *)
Fixpoint checkAll (errs : list (option error)) : option error :=
  match errs with
  | [] => None
  | Some e :: _ => Some e
  | None :: rest => checkAll rest
  end.

(** [^[a-z]{2,3}(-[A-Za-z0-9]{2,8})*$]: the parts between dashes. *)
Definition isUpper (c : ascii) : bool := (65 <=? Str.code c) && (Str.code c <=? 90).
Definition alnum (c : ascii) : bool := Str.is_lower c || isUpper c || Str.is_digit c.
Definition part (ok : ascii → bool) (lo hi : nat) (s : string) : bool :=
  Str.forall_char ok s && (lo <=? String.length s)%nat && (String.length s <=? hi)%nat.
Definition ValidLocale (s : string) : bool :=
  match Str.split (ascii_of_nat 45) s with
  | first :: rest => part Str.is_lower 2 3 first && forallb (part alnum 2 8) rest
  | [] => false
  end.

(** [Config.offers] *)
Definition offers (cfg : Config) (field locale : string) : option error :=
  match Locales cfg with
  | [] => None
  | ls => if contains ls locale then None else Some (invalid field ReasonLocaleUnsupported ∅)
  end.

Definition checkLocale (cfg : Config) (locale : string) : option error :=
  if ValidLocale locale then offers cfg "locale" locale else Some (invalid "locale" ReasonLocaleInvalid ∅).

Section Texts.
Variable ToLower : string → string.
(** [mail.ParseAddress], the address of what it parsed. *)
Variable ParseAddress : string → option string.

Definition NormalizeEmail (email : string) : string := ToLower (Utf8.TrimSpace email).

Definition checkEmail (field email : string) : option error :=
  if bool_decide (ParseAddress email = Some email) && (Utf8.RuneCount email <=? EmailMax) then None
  else Some (invalid field ReasonEmailInvalid (maxParam EmailMax)).
End Texts.

(** ** Views of the histories (history.go) *)

Inductive ChangeAction : Set :=
| ChangeCreated | ChangeUpdated | ChangeDeactivated | ChangeActivated | ChangePassword_ | ChangeEmail | ChangeProfile.

#[export] Instance ChangeAction_eq_dec : EqDecision ChangeAction.
Proof. solve_decision. Defined.

Definition SignInsAll : string := "all".
Definition SignInsFailed : string := "failed".
Definition failedEvents : list SignInEvent := [WrongPassword; LockedOut; RefusedInactive].

Definition view_events (view : string) : result (list SignInEvent) :=
  if bool_decide (view = "") || bool_decide (view = SignInsAll) then Ok []
  else if bool_decide (view = SignInsFailed) then Ok failedEvents
  else Err (invalid "view" ReasonHistoryViewInvalid ∅).

Definition ChangesAll : string := "all".
Definition ChangesAccess : string := "access".
Definition ChangesDetails : string := "details".
Definition accessActions : list ChangeAction := [ChangePassword_; ChangeDeactivated; ChangeActivated].

Definition view_narrow (view : string) : result (list ChangeAction * list ChangeAction) :=
  if bool_decide (view = "") || bool_decide (view = ChangesAll) then Ok ([], [])
  else if bool_decide (view = ChangesAccess) then Ok (accessActions, [])
  else if bool_decide (view = ChangesDetails) then Ok ([], accessActions)
  else Err (invalid "view" ReasonHistoryViewInvalid ∅).

(** The counts, from how often each event or action happened. *)
Record SignInCounts : Type := mkSignInCounts { sc_All : Z; sc_Failed : Z }.
Record ChangeCounts : Type := mkChangeCounts { cc_All : Z; cc_Access : Z; cc_Details : Z }.

Definition signInCounts (byEvent : list (SignInEvent * Z)) : SignInCounts :=
  foldl (λ out en, mkSignInCounts (sc_All out + en.2) (if contains failedEvents en.1 then sc_Failed out + en.2 else sc_Failed out))
    (mkSignInCounts 0 0) byEvent.

Definition changeCounts (byAction : list (ChangeAction * Z)) : ChangeCounts :=
  let out := foldl (λ out an, (out.1 + an.2, if contains accessActions an.1 then out.2 + an.2 else out.2)) (0, 0) byAction in
  mkChangeCounts out.1 out.2 (out.1 - out.2).

(** [Paging] *)
Record Paging : Type := mkPaging { pg_Page : Z; pg_PerPage : Z }.
Definition MaxPerPage : Z := 100.
Definition resolved (p : Paging) : Paging :=
  mkPaging (if pg_Page p <? 1 then 1 else pg_Page p) (Z.min (if pg_PerPage p <? 1 then 20 else pg_PerPage p) MaxPerPage).
(** The multiplication is int's. *)
Definition offset (p : Paging) : Z := Int64.wrap ((pg_Page (resolved p) - 1) * pg_PerPage (resolved p)).
