(* ===== verification/UserBook.v ===== *)
(** * The stores behind the users module (src/identity/identitytest/stores.go)

    Accounts, sign-in history, sessions, changes, counters, codes and notices as one value, and what
    each method of the stores answers and leaves. [call] runs a method of a store
    that may also fail, as one on a database can: then nothing is written. *)

From S2P Require Import Prelude Apperr Clock Codes CodeStore MemCodes Attempts SignIn MemPorts Reauth AccountRules Sql.

Local Open Scope Z_scope.

Definition ErrLoginTaken : string := "identity: login already in use".
Definition ErrEmailTaken : string := "identity: e-mail address already in use".

(** [Changes]: the fields to write. *)
Record Changes : Type := mkChanges {
  ch_Login : option string;
  ch_Email : option string;
  ch_Name : option string;
  ch_Phone : option string;
  ch_Locale : option string
}.

Record Change : Type := mkChange {
  cg_AccountID : Z;
  cg_ActorID : Z;
  cg_Action : ChangeAction;
  cg_Fields : list string;
  cg_Before : gmap string string;
  cg_After : gmap string string
}.

Record ChangeEntry : Type := mkChangeEntry { ce_ID : Z; ce_Change : Change; ce_At : Z }.

(** What the [Notices] hear. *)
Inductive heard : Type :=
| Heard (n : notice)
| AccountChanged (id : Z)
| AccountCreated (id actor : Z)
| AccountDeactivated (id actor : Z)
| AccountActivated (id actor : Z)
| PasswordChanged (id actor : Z)
| EmailChanged (id : Z) (old new : string).

Record Book : Type := mkBook {
  b_accounts : gmap Z Account;
  b_next : Z;
  b_signins : list SignInEntry;
  b_sessions : list sessionRow;
  b_changes : list ChangeEntry;
  b_reauth : MemReauth;
  b_codes : CodesTable;
  b_heard : list heard
}.

Definition set_b_accounts (b : Book) (m : gmap Z Account) (next : Z) : Book :=
  mkBook m next (b_signins b) (b_sessions b) (b_changes b) (b_reauth b) (b_codes b) (b_heard b).
Definition set_b_sessions (b : Book) (rows : list sessionRow) : Book :=
  mkBook (b_accounts b) (b_next b) (b_signins b) rows (b_changes b) (b_reauth b) (b_codes b) (b_heard b).

(** ** Accounts *)

Definition with_login (a : Account) (v : string) : Account :=
  mkAccount (ac_ID a) v (ac_Email a) (ac_Phone a) (ac_Name a) (ac_Locale a) (ac_Active a) (ac_PasswordHash a) (ac_CreatedAt a).
Definition with_email (a : Account) (v : string) : Account :=
  mkAccount (ac_ID a) (ac_Login a) v (ac_Phone a) (ac_Name a) (ac_Locale a) (ac_Active a) (ac_PasswordHash a) (ac_CreatedAt a).
Definition with_phone (a : Account) (v : string) : Account :=
  mkAccount (ac_ID a) (ac_Login a) (ac_Email a) v (ac_Name a) (ac_Locale a) (ac_Active a) (ac_PasswordHash a) (ac_CreatedAt a).
Definition with_name (a : Account) (v : string) : Account :=
  mkAccount (ac_ID a) (ac_Login a) (ac_Email a) (ac_Phone a) v (ac_Locale a) (ac_Active a) (ac_PasswordHash a) (ac_CreatedAt a).
Definition with_locale (v : string) (a : Account) : Account :=
  mkAccount (ac_ID a) (ac_Login a) (ac_Email a) (ac_Phone a) (ac_Name a) v (ac_Active a) (ac_PasswordHash a) (ac_CreatedAt a).
Definition with_active (v : bool) (a : Account) : Account :=
  mkAccount (ac_ID a) (ac_Login a) (ac_Email a) (ac_Phone a) (ac_Name a) (ac_Locale a) v (ac_PasswordHash a) (ac_CreatedAt a).
Definition with_hash (v : string) (a : Account) : Account :=
  mkAccount (ac_ID a) (ac_Login a) (ac_Email a) (ac_Phone a) (ac_Name a) (ac_Locale a) (ac_Active a) v (ac_CreatedAt a).
Definition with_id (v : Z) (a : Account) : Account :=
  mkAccount v (ac_Login a) (ac_Email a) (ac_Phone a) (ac_Name a) (ac_Locale a) (ac_Active a) (ac_PasswordHash a) (ac_CreatedAt a).

Definition rowsOf (m : gmap Z Account) : list Account := (map_to_list m).*2.

Definition book_Find (b : Book) (id : Z) : result Account :=
  match b_accounts b !! id with Some a => Ok a | None => Err (errNew ErrNotFound) end.

Definition book_FindMany (b : Book) (ids : list Z) : list Account := omap (λ id, b_accounts b !! id) ids.

(** [emailUsed] *)
Definition emailUsed (m : gmap Z Account) (email : string) (except : Z) : bool :=
  bool_decide (email ≠ "") && existsb (λ o, negb (ac_ID o =? except) && bool_decide (ac_Email o = email)) (rowsOf m).

Definition loginUsed (m : gmap Z Account) (login : string) (except : option Z) : bool :=
  existsb (λ o, negb (bool_decide (except = Some (ac_ID o))) && bool_decide (ac_Login o = login)) (rowsOf m).

Section Stores.
Variable ToLower : string → string.
(** [strings.EqualFold] *)
Variable EqualFold : string → string → bool.

(** A range over the map of accounts: the first with the address. *)
Definition book_FindByEmail (b : Book) (email : string) : result Account :=
  match List.find (λ a, EqualFold (ac_Email a) (Utf8.TrimSpace email)) (rowsOf (b_accounts b)) with
  | Some a => Ok a
  | None => Err (errNew ErrNotFound)
  end.

Definition book_Create (a : Account) (b : Book) : result Account * Book :=
  let a := with_login a (NormalizeLogin ToLower (ac_Login a)) in
  if loginUsed (b_accounts b) (ac_Login a) None then (Err (errNew ErrLoginTaken), b) else
  let a := with_email a (NormalizeEmail ToLower (ac_Email a)) in
  if emailUsed (b_accounts b) (ac_Email a) 0 then (Err (errNew ErrEmailTaken), b) else
  let a := with_id (if ac_ID a =? 0 then b_next b else ac_ID a) a in
  (Ok a, set_b_accounts b (<[ac_ID a := a]> (b_accounts b)) (Z.max (b_next b) (ac_ID a) + 1)).

(** [update] *)
Definition book_update (id : Z) (fn : Account → Account) (b : Book) : result () * Book :=
  match b_accounts b !! id with
  | None => (Err (errNew ErrNotFound), b)
  | Some a => (Ok (), set_b_accounts b (<[id := fn a]> (b_accounts b)) (b_next b))
  end.

Definition book_SetLocale (id : Z) (locale : string) : Book → result () * Book := book_update id (with_locale locale).
Definition book_SetPasswordHash (id : Z) (hash : string) : Book → result () * Book := book_update id (with_hash hash).
Definition book_SetActive (id : Z) (active : bool) : Book → result () * Book := book_update id (with_active active).

Definition written (v : option string) (set_ : Account → string → Account) (a : Account) : Account :=
  match v with Some v => set_ a v | None => a end.

Definition book_Update (id : Z) (c : Changes) (b : Book) : result () * Book :=
  match b_accounts b !! id with
  | None => (Err (errNew ErrNotFound), b)
  | Some a =>
      if match ch_Login c with Some l => loginUsed (b_accounts b) (NormalizeLogin ToLower l) (Some id) | None => false end
      then (Err (errNew ErrLoginTaken), b) else
      if match ch_Email c with Some m => emailUsed (b_accounts b) (NormalizeEmail ToLower m) id | None => false end
      then (Err (errNew ErrEmailTaken), b) else
      let a := written (NormalizeLogin ToLower <$> ch_Login c) with_login a in
      let a := written (NormalizeEmail ToLower <$> ch_Email c) with_email a in
      let a := written (ch_Name c) with_name a in
      let a := written (ch_Phone c) with_phone a in
      let a := written (ch_Locale c) (λ a v, with_locale v a) a in
      (Ok (), set_b_accounts b (<[id := a]> (b_accounts b)) (b_next b))
  end.
End Stores.

(** ** Sign-in history *)

Definition book_Record (row : SignInEntry) (b : Book) : result () * Book :=
  let row := mkEntry (Z.of_nat (length (b_signins b)) + 1) (e_AccountID row) (e_Event row) (e_IP row) (e_Device row)
               (e_ActorID row) (e_CreatedAt row) in
  (Ok (), mkBook (b_accounts b) (b_next b) (b_signins b ++ [row]) (b_sessions b) (b_changes b) (b_reauth b) (b_codes b) (b_heard b)).

Definition book_LockEvents (accountID n : Z) (b : Book) : list SignInEntry :=
  lockEvents_loop accountID n (rev (b_signins b)) [].

(** A run-time panic, which ends the request, as an error. *)
Definition sliceBounds : error := errNew "runtime error: slice bounds out of range".

(** A page of [l]: [mine[from:min(from+limit, len)]]. *)
Definition slice {A} (offset limit : Z) (l : list A) : result (list A) :=
  let from := Z.min offset (Z.of_nat (length l)) in
  let to_ := Z.min (Int64.wrap (from + limit)) (Z.of_nat (length l)) in
  if (0 <=? from) && (from <=? to_) then Ok (take (Z.to_nat (to_ - from)) (drop (Z.to_nat from) l)) else Err sliceBounds.

(** Rows with their total. *)
Definition paged {A} (offset limit : Z) (mine : list A) : result (list A * Z) :=
  match slice offset limit mine with Ok rows => Ok (rows, Z.of_nat (length mine)) | Err err => Err err end.

Definition book_Entries (accountID : Z) (events : list SignInEvent) (offset limit : Z) (b : Book) : result (list SignInEntry * Z) :=
  paged offset limit (List.filter (λ r, (e_AccountID r =? accountID) &&
                                        ((length events =? 0)%nat || contains events (e_Event r))) (rev (b_signins b))).

Definition counted_event (accountID : Z) (b : Book) (ev : SignInEvent) : Z :=
  Z.of_nat (length (List.filter (λ r, (e_AccountID r =? accountID) && bool_decide (e_Event r = ev)) (b_signins b))).

Definition all_events : list SignInEvent :=
  [SignedIn; WrongPassword; LockedOut; RefusedInactive; SignedInAs; Unlocked; SignedOutEverywhere; SessionRevoked].

(** The map of the counts, without the events that never happened. *)
Definition book_EventCounts (accountID : Z) (b : Book) : list (SignInEvent * Z) :=
  List.filter (λ en, negb (en.2 =? 0)) ((λ ev, (ev, counted_event accountID b ev)) <$> all_events).

Definition book_LastSignIns (ids : list Z) (b : Book) : gmap Z Z :=
  foldl (λ out r, if bool_decide (e_Event r = SignedIn) && contains ids (e_AccountID r)
                  then <[e_AccountID r := e_CreatedAt r]> out else out) ∅ (b_signins b).

Definition book_WrongPasswordsSince (since : Z) (b : Book) : list Z :=
  foldl (λ ids r, if bool_decide (e_Event r = WrongPassword) && Time.After (e_CreatedAt r) since && negb (contains ids (e_AccountID r))
                  then ids ++ [e_AccountID r] else ids) [] (b_signins b).

(** ** Sessions *)

Definition book_SessionsGet (token : string) (now : Z) (b : Book) : result Session :=
  match List.find (λ r, bool_decide (sr_access r = token) && live r now) (b_sessions b) with
  | Some r => Ok (sr_Session r)
  | None => Err (errNew ErrSessionNotFound)
  end.

Definition book_Live (accountID now : Z) (b : Book) : list Session :=
  stable_sort (λ x y, s_LastUsedAt y <=? s_LastUsedAt x)
    (sr_Session <$> List.filter (λ r, (s_AccountID (sr_Session r) =? accountID) && live r now) (b_sessions b)).

Definition revoked_row (r : sessionRow) : sessionRow := mkSessionRow (sr_Session r) (sr_access r) (sr_refresh r) true.

Definition book_End (accountID : Z) (ids : list Z) (keep now : Z) (b : Book) : result Z * Book :=
  (Ok (Z.of_nat (length (List.filter (ends_row accountID ids keep now) (b_sessions b)))),
   set_b_sessions b ((λ r, if ends_row accountID ids keep now r then revoked_row r else r) <$> b_sessions b)).

Definition opened_by (actorID now : Z) (r : sessionRow) : bool := (s_ActorID (sr_Session r) =? actorID) && live r now.

Definition book_EndOpenedBy (actorID now : Z) (b : Book) : result (list Session) * Book :=
  (Ok (sr_Session <$> List.filter (opened_by actorID now) (b_sessions b)),
   set_b_sessions b ((λ r, if opened_by actorID now r then revoked_row r else r) <$> b_sessions b)).

(** ** Changes and notices *)

Definition book_RecordChange (c : Change) (at_ : Z) (b : Book) : result () * Book :=
  (Ok (), mkBook (b_accounts b) (b_next b) (b_signins b) (b_sessions b)
            (b_changes b ++ [mkChangeEntry (Z.of_nat (length (b_changes b)) + 1) c at_]) (b_reauth b) (b_codes b) (b_heard b)).

Definition book_Changes (accountID : Z) (only except : list ChangeAction) (offset limit : Z) (b : Book) : result (list ChangeEntry * Z) :=
  paged offset limit (List.filter (λ r, let c := ce_Change r in
    (cg_AccountID c =? accountID) && ((length only =? 0)%nat || contains only (cg_Action c)) &&
    negb (contains except (cg_Action c))) (rev (b_changes b))).

Definition all_actions : list ChangeAction :=
  [ChangeCreated; ChangeUpdated; ChangeDeactivated; ChangeActivated; ChangePassword_; ChangeEmail; ChangeProfile].

Definition book_ChangeCounts (accountID : Z) (b : Book) : list (ChangeAction * Z) :=
  List.filter (λ an, negb (an.2 =? 0))
    ((λ act, (act, Z.of_nat (length (List.filter (λ r, (cg_AccountID (ce_Change r) =? accountID) &&
                                                     bool_decide (cg_Action (ce_Change r) = act)) (b_changes b))))) <$> all_actions).

Definition hear (n : heard) (b : Book) : Book :=
  mkBook (b_accounts b) (b_next b) (b_signins b) (b_sessions b) (b_changes b) (b_reauth b) (b_codes b) (b_heard b ++ [n]).

(** ** Calls *)
Section Calls.
Variable out : Outside.

(** A method of a store: it fails and writes nothing, or answers. *)
Definition call {A} (f : Book → result A * Book) : stM (Env Book) error A := λ e,
  match fault out (moment e) with
  | Some err => (Err err, passed e)
  | None => let (r, b) := f (tables e) in (r, mkEnv b (S (moment e)))
  end.

Definition look {A} (f : Book → A) : stM (Env Book) error A := call (λ b, (Ok (f b), b)).
Definition lookup_ {A} (f : Book → result A) : stM (Env Book) error A := call (λ b, (f b, b)).

(** A step on the counters or the codes. *)
Definition on_reauth {A} (m : stM MemReauth error A) : stM (Env Book) error A :=
  call (λ b, let (r, s) := m (b_reauth b) in
    (r, mkBook (b_accounts b) (b_next b) (b_signins b) (b_sessions b) (b_changes b) s (b_codes b) (b_heard b))).
Definition on_codes {A} (m : stM CodesTable error A) : stM (Env Book) error A :=
  call (λ b, let (r, s) := m (b_codes b) in
    (r, mkBook (b_accounts b) (b_next b) (b_signins b) (b_sessions b) (b_changes b) (b_reauth b) s (b_heard b))).

(** Telling the [Notices] cannot fail. *)
Definition tell (n : heard) : stM (Env Book) error () := λ e, (Ok (), mkEnv (hear n (tables e)) (moment e)).
End Calls.
