(* ===== verification/Users.v ===== *)
(** * People and their sessions (src/identity/account/users.go, admin.go)

    The services over the stores of [UserBook]: what other features ask of a person,
    and what an administrator does. A write runs in a transaction that keeps all of
    it or nothing; notices are told after it. The hasher, the hooks and the extension
    of the application are arguments; hooks and extension write no table of these. *)

From S2P Require Import Prelude Apperr Clock Role Codes Attempts SignIn MemPorts AccountRules Sql UserBook.

Local Open Scope Z_scope.

(** [UserExtension]: what it answers, given how many outside events came before.
    Its data is JSON text. *)
Record Extension : Type := mkExtension {
  x_Ext : nat → list Z → result (gmap Z string);
  x_Create : nat → Z → string → Z → result string;
  x_Update : nat → Z → string → Z → result ();
  x_Deactivate : nat → Account → string → Z → result string
}.

(** [DeactivationHook]: [Some] refuses. *)
Definition Hook : Type := nat → Account → Z → option error.

Record CreateAccount : Type := mkCreateAccount {
  ca_Login : string;
  ca_Name : string;
  ca_Email : string;
  ca_Phone : string;
  ca_Locale : string;
  ca_Password : string;
  ca_ActorID : Z;
  ca_Ext : string
}.

Record UpdateAccount : Type := mkUpdateAccount {
  ua_ID : Z;
  ua_Login : string;
  ua_Name : string;
  ua_Email : string;
  ua_Phone : string;
  ua_Locale : string;
  ua_ActorID : Z;
  ua_Ext : string
}.

Record SetPasswordInput : Type := mkSetPassword { sp_ID : Z; sp_Password : string; sp_ActorID : Z; sp_KeepToken : string }.
Record DeactivateInput : Type := mkDeactivate { de_ID : Z; de_ActorID : Z; de_Details : string }.
Record UnlockInput : Type := mkUnlock { un_ID : Z; un_ActorID : Z }.
Record RevokeSessionInput : Type := mkRevokeSession { rs_AccountID : Z; rs_SessionID : Z; rs_Keep : Z; rs_ActorID : Z }.
Record RevokeSessionsInput : Type := mkRevokeSessions {
  rss_AccountID : Z;
  rss_KeepToken : string;
  rss_ActorID : Z;
  rss_Reason : option EndReason
}.

(** [pendingNotices] *)
Record pendingNotices : Type := mkPending { p_ended : list notice; p_signedOut : list LoginAsFact }.

Record Detail : Type := mkDetail { d_Account : Account; d_LastSignIn : option Z; d_LockedUntil : option Z; d_Ext : option string }.

Record SignInPage : Type := mkSignInPage { sip_Rows : list SignInEntry; sip_Total : Z; sip_Counts : SignInCounts }.
Record ChangePage : Type := mkChangePage { cp_Rows : list ChangeEntry; cp_Total : Z; cp_Counts : ChangeCounts }.

Definition DefaultIdleAfter : Z := 60 * 24 * Time.Hour.

(** [stored] *)
Definition stored (err : error) : error :=
  if errors_Is err ErrNotFound then accountNotFound
  else if errors_Is err ErrLoginTaken then conflict "login" ReasonLoginTaken
  else if errors_Is err ErrEmailTaken then conflict "email" ReasonEmailTaken
  else match as_app err with Some _ => err | None => Internal err end.

(** [endedOpenedBy]: one fact for each account, in the order they come up. *)
Fixpoint add_ended (out : list notice) (theirs : Session) (actorID : Z) : list notice :=
  match out with
  | [] => [SessionsEnded (s_AccountID theirs) [s_ID theirs] EndedOpenedBy actorID]
  | SessionsEnded acc ids why act :: rest =>
      if acc =? s_AccountID theirs then SessionsEnded acc (ids ++ [s_ID theirs]) why act :: rest
      else SessionsEnded acc ids why act :: add_ended rest theirs actorID
  | n :: rest => n :: add_ended rest theirs actorID
  end.
Definition endedOpenedBy (opened : list Session) (actorID : Z) : list notice :=
  foldl (λ out s, add_ended out s actorID) [] opened.

Section Services.
Variable out : Outside.
Variables (ToLower : string → string) (EqualFold : string → string → bool) (ParseAddress : string → option string).
Variable Hash : string → result string.
Variable cfg : Config.
Notation M := (stM (Env Book) error).

(** ** Users *)

Definition notFoundOr (err : error) : error := if errors_Is err ErrNotFound then accountNotFound else Internal err.

Definition Get (id : Z) : M Account := mapErr notFoundOr (lookup_ out (λ b, book_Find b id)).

Definition FindAccounts (ids : list Z) : M (list Account) :=
  match ids with [] => mret [] | _ => mapErr Internal (look out (λ b, book_FindMany b ids)) end.

Definition displayName (a : Account) : string := if bool_decide (ac_Name a = "") then ac_Login a else ac_Name a.

Definition Names (ids : list Z) : M (gmap Z string) :=
  match ids with
  | [] => mret ∅
  | _ => found ← mapErr Internal (look out (λ b, book_FindMany b ids));
         mret (foldl (λ m a, <[ac_ID a := displayName a]> m) ∅ found)
  end.

Definition ChangeLocale (accountID : Z) (locale : string) : M () :=
  if negb (ValidLocale locale) then throw (WithReason (BadRequest ReasonLocaleInvalid) ReasonLocaleInvalid ∅) else
  _ ← check_ (offers cfg "locale" locale);
  _ ← mapErr notFoundOr (call out (book_SetLocale accountID locale));
  tell (AccountChanged accountID).

Definition Sessions (accountID : Z) : M (list Session) :=
  now ← Now out; mapErr Internal (look out (book_Live accountID now)).

(** [appendEntry] for an event that comes from no device. *)
Definition appendEntry (accountID : Z) (ev : SignInEvent) (actorID : Z) : M () :=
  now ← Now out; mapErr Internal (call out (book_Record (mkEntry 0 accountID ev "" "" actorID now))).

Definition recordEvent (accountID : Z) (ev : SignInEvent) (actorID : Z) : M () :=
  appendEntry accountID ev (if actorID =? accountID then 0 else actorID).

Definition RevokeSession (inp : RevokeSessionInput) : M () :=
  let actorID := if rs_ActorID inp =? rs_AccountID inp then 0 else rs_ActorID inp in
  if (0 <? rs_Keep inp) && (rs_SessionID inp =? rs_Keep inp)
  then throw (WithReason (BadRequest ReasonSessionCurrent) ReasonSessionCurrent ∅) else
  now ← Now out;
  n ← mapErr Internal (call out (book_End (rs_AccountID inp) [rs_SessionID inp] (rs_Keep inp) now));
  if n =? 0 then throw (WithReason (NotFound ReasonSessionNotFound) ReasonSessionNotFound ∅) else
  _ ← recordEvent (rs_AccountID inp) SessionRevoked actorID;
  tell (Heard (SessionsEnded (rs_AccountID inp) [rs_SessionID inp] EndedRevoked actorID)).

Definition keptSession (req : RevokeSessionsInput) : M Z :=
  if bool_decide (rss_KeepToken req = "") then mret 0 else
  now ← Now out;
  found ← attempt (lookup_ out (book_SessionsGet (rss_KeepToken req) now));
  match found with
  | Err _ => mret 0
  | Ok s => mret (if s_AccountID s =? rss_AccountID req then s_ID s else 0)
  end.

Definition liveExcept (accountID keep now : Z) : M (list Z) :=
  live ← mapErr Internal (look out (book_Live accountID now));
  mret (merge_sort Z.le (List.filter (λ id, negb (id =? keep)) (s_ID <$> live))).

(** The loop of [endOpenedBy]. *)
Fixpoint record_opened (actorID : Z) (opened : list Session) : M () :=
  match opened with
  | [] => mret ()
  | theirs :: rest => _ ← recordEvent (s_AccountID theirs) SessionRevoked actorID; record_opened actorID rest
  end.

Definition endOpenedBy (accountID actorID now : Z) (pending : pendingNotices) : M pendingNotices :=
  opened ← mapErr Internal (call out (book_EndOpenedBy accountID now));
  _ ← record_opened actorID opened;
  mret (mkPending (p_ended pending ++ endedOpenedBy opened actorID)
          (p_signedOut pending ++
           ((λ s, mkLoginAs accountID (s_AccountID s) (DeviceLabel (s_Device s)) (s_IP s)) <$> opened))).

Definition revokeSessions (req : RevokeSessionsInput) : M pendingNotices :=
  let actorID := if rss_ActorID req =? rss_AccountID req then 0 else rss_ActorID req in
  let why := default EndedRevoked (rss_Reason req) in
  keep ← keptSession req;
  now ← Now out;
  ids ← liveExcept (rss_AccountID req) keep now;
  _ ← mapErr Internal (call out (book_End (rss_AccountID req) [] keep now));
  _ ← recordEvent (rss_AccountID req) SignedOutEverywhere actorID;
  endOpenedBy (rss_AccountID req) actorID now (mkPending [SessionsEnded (rss_AccountID req) ids why actorID] []).

Fixpoint tellAll (ns : list heard) : M () :=
  match ns with [] => mret () | n :: rest => _ ← tell n; tellAll rest end.

Definition announce (p : pendingNotices) : M () :=
  tellAll ((Heard <$> p_ended p) ++ ((λ f, Heard (NoticeSignedOutAs f)) <$> p_signedOut p)).

Definition RevokeSessions (req : RevokeSessionsInput) : M () := pending ← revokeSessions req; announce pending.

(** ** Administration *)

Variables (policy : PasswordPolicy) (hooks : list Hook) (extension : option Extension).

(** [within] *)
Definition within {A} (fn : M A) : M A :=
  mapErr (λ err, match as_app err with Some _ => err | None => Internal err end) (Transaction out fn).

Definition emailFree (email : string) (except : Z) : M () :=
  found ← attempt (lookup_ out (λ b, book_FindByEmail EqualFold b email));
  match found with
  | Err err => if errors_Is err ErrNotFound then mret () else throw (Internal err)
  | Ok owner => if ac_ID owner =? except then mret () else throw (conflict "email" ReasonEmailTaken)
  end.

Definition extendCreate (accountID : Z) (req : CreateAccount) : M (option string) :=
  match extension with
  | None => mret None
  | Some x => ext ← mapErr stored (ask (λ n, x_Create x n accountID (ca_Ext req) (ca_ActorID req))); mret (Some ext)
  end.

Definition extendUpdate (accountID : Z) (req : UpdateAccount) : M () :=
  match extension with
  | None => mret ()
  | Some x => mapErr stored (ask (λ n, x_Update x n accountID (ua_Ext req) (ua_ActorID req)))
  end.

Definition recordChange (c : Change) : M () := now ← Now out; call out (book_RecordChange c now).

Definition loginField : string := "login".
Definition nameField : string := "name".
Definition emailField : string := "email".
Definition phoneField : string := "phone".
Definition localeField : string := "locale".
Definition activeField : string := "active".

(** [Changes.Record] of an error is returned as it is. *)
Definition createdChange (acc : Account) (actorID : Z) : Change :=
  mkChange (ac_ID acc) actorID ChangeCreated [loginField; nameField; emailField; phoneField; localeField] ∅
    (list_to_map [(loginField, ac_Login acc); (nameField, ac_Name acc); (emailField, ac_Email acc); (phoneField, ac_Phone acc);
                  (localeField, ac_Locale acc)]).

Definition CreateWithExt (req : CreateAccount) : M Detail :=
  let login := NormalizeLogin ToLower (ca_Login req) in
  let email := NormalizeEmail ToLower (ca_Email req) in
  let name := Utf8.TrimSpace (ca_Name req) in
  let phone := Utf8.TrimSpace (ca_Phone req) in
  _ ← check_ (checkAll [checkLogin login; checkName name; checkEmail ParseAddress "email" email; checkPhone phone;
                        checkLocale cfg (ca_Locale req); checkPassword policy "password" (ca_Password req)]);
  _ ← emailFree email 0;
  hash ← mapErr Internal (lift (Hash (ca_Password req)));
  now ← Now out;
  created ← within (
    acc ← mapErr stored (call out (book_Create ToLower (mkAccount 0 login email phone name (ca_Locale req) true hash now)));
    ext ← extendCreate (ac_ID acc) req;
    _ ← recordChange (createdChange acc (ca_ActorID req));
    mret (acc, ext));
  _ ← tell (AccountCreated (ac_ID created.1) (ca_ActorID req));
  mret (mkDetail created.1 None None created.2).

Definition Create (req : CreateAccount) : M Account := d ← CreateWithExt req; mret (d_Account d).

(** One field of [Update]: what it was and what it is to be. *)
Definition differs (field old now : string) : list (string * string * string) :=
  if bool_decide (old = now) then [] else [(field, old, now)].
Definition changedTo (old now : string) : option string := if bool_decide (old = now) then None else Some now.

Definition updateDiff (cur next : Account) : list (string * string * string) :=
  differs loginField (ac_Login cur) (ac_Login next) ++ differs nameField (ac_Name cur) (ac_Name next) ++
  differs emailField (ac_Email cur) (ac_Email next) ++ differs phoneField (ac_Phone cur) (ac_Phone next) ++
  differs localeField (ac_Locale cur) (ac_Locale next).

Definition updateChanges (cur next : Account) : Changes :=
  mkChanges (changedTo (ac_Login cur) (ac_Login next)) (changedTo (ac_Email cur) (ac_Email next))
    (changedTo (ac_Name cur) (ac_Name next)) (changedTo (ac_Phone cur) (ac_Phone next))
    (changedTo (ac_Locale cur) (ac_Locale next)).

Definition diffChange (accountID actorID : Z) (action : ChangeAction) (d : list (string * string * string)) : Change :=
  mkChange accountID actorID action (fst ∘ fst <$> d) (list_to_map ((λ x, (x.1.1, x.1.2)) <$> d))
    (list_to_map ((λ x, (x.1.1, x.2)) <$> d)).

Definition Update (inp : UpdateAccount) : M Account :=
  cur ← Get (ua_ID inp);
  let next := mkAccount 0 (NormalizeLogin ToLower (ua_Login inp)) (NormalizeEmail ToLower (ua_Email inp))
                (Utf8.TrimSpace (ua_Phone inp)) (Utf8.TrimSpace (ua_Name inp)) (ua_Locale inp) false "" 0 in
  _ ← check_ (checkAll [checkLogin (ac_Login next); checkName (ac_Name next); checkEmail ParseAddress "email" (ac_Email next);
                        checkPhone (ac_Phone next); checkLocale cfg (ac_Locale next)]);
  let d := updateDiff cur next in
  let changes := updateChanges cur next in
  match d, extension with
  | [], None => mret cur
  | _, _ =>
      _ ← (if bool_decide (ch_Email changes = None) then mret () else emailFree (ac_Email next) (ac_ID cur));
      _ ← within (match d with
                  | [] => extendUpdate (ac_ID cur) inp
                  | _ =>
                      _ ← mapErr stored (call out (book_Update ToLower (ac_ID cur) changes));
                      _ ← extendUpdate (ac_ID cur) inp;
                      recordChange (diffChange (ac_ID cur) (ua_ActorID inp) ChangeUpdated d)
                  end);
      _ ← (if bool_decide (ch_Email changes = None) then mret ()
           else tell (EmailChanged (ac_ID cur) (ac_Email cur) (ac_Email next)));
      _ ← tell (AccountChanged (ac_ID cur));
      Get (ac_ID cur)
  end.

Definition passwordChange (accountID actorID : Z) : Change := mkChange accountID actorID ChangePassword_ ["password"] ∅ ∅.

Definition SetPassword (inp : SetPasswordInput) : M () :=
  _ ← Get (sp_ID inp);
  _ ← check_ (checkPassword policy "password" (sp_Password inp));
  hash ← mapErr Internal (lift (Hash (sp_Password inp)));
  pending ← within (
    _ ← recordChange (passwordChange (sp_ID inp) (sp_ActorID inp));
    _ ← mapErr stored (call out (book_SetPasswordHash (sp_ID inp) hash));
    _ ← appendEntry (sp_ID inp) Unlocked (sp_ActorID inp);
    revokeSessions (mkRevokeSessions (sp_ID inp) (sp_KeepToken inp) (sp_ActorID inp) (Some EndedPasswordChanged)));
  _ ← announce pending;
  _ ← tell (PasswordChanged (sp_ID inp) (sp_ActorID inp));
  tell (AccountChanged (sp_ID inp)).

(** The loop over the hooks in [deactivating]. *)
Fixpoint askHooks (hs : list Hook) (acc : Account) (actorID : Z) : M () :=
  match hs with
  | [] => mret ()
  | h :: rest =>
      _ ← mapErr stored (ask (λ n, match h n acc actorID with Some err => Err err | None => Ok () end));
      askHooks rest acc actorID
  end.

Definition deactivating (acc : Account) (req : DeactivateInput) : M (option string) :=
  _ ← askHooks hooks acc (de_ActorID req);
  match extension with
  | None => mret None
  | Some x => ext ← mapErr stored (ask (λ n, x_Deactivate x n acc (de_Details req) (de_ActorID req))); mret (Some ext)
  end.

Definition activeChange (accountID actorID : Z) (action : ChangeAction) (was then_ : string) : Change :=
  mkChange accountID actorID action [activeField] {[activeField := was]} {[activeField := then_]}.

Definition alreadyInactive : error :=
  WithReason (Wrap None ReasonAlreadyInactive CodeAlreadyExists) ReasonAlreadyInactive ∅.
Definition alreadyActive : error := WithReason (Wrap None ReasonAlreadyActive CodeAlreadyExists) ReasonAlreadyActive ∅.
Definition selfDeactivation : error := WithReason (BadRequest ReasonSelfDeactivate) ReasonSelfDeactivate ∅.

Definition DeactivateWithExt (req : DeactivateInput) : M (option string) :=
  if negb (de_ActorID req =? 0) && (de_ActorID req =? de_ID req) then throw selfDeactivation else
  acc ← Get (de_ID req);
  if negb (ac_Active acc) then throw alreadyInactive else
  done ← within (
    ext ← deactivating acc req;
    _ ← mapErr stored (call out (book_SetActive (ac_ID acc) false));
    pending ← revokeSessions (mkRevokeSessions (ac_ID acc) "" (de_ActorID req) (Some EndedDeactivated));
    _ ← recordChange (activeChange (ac_ID acc) (de_ActorID req) ChangeDeactivated "true" "false");
    mret (ext, pending));
  _ ← announce done.2;
  _ ← tell (AccountDeactivated (ac_ID acc) (de_ActorID req));
  _ ← tell (AccountChanged (ac_ID acc));
  mret done.1.

Definition Deactivate (req : DeactivateInput) : M () := _ ← DeactivateWithExt req; mret ().

Definition Activate (req : DeactivateInput) : M () :=
  acc ← Get (de_ID req);
  if ac_Active acc then throw alreadyActive else
  _ ← within (
    _ ← mapErr stored (call out (book_SetActive (ac_ID acc) true));
    recordChange (activeChange (ac_ID acc) (de_ActorID req) ChangeActivated "false" "true"));
  _ ← tell (AccountActivated (ac_ID acc) (de_ActorID req));
  tell (AccountChanged (ac_ID acc)).

(** [lockedUntil] *)
Definition lockedUntil (accountID : Z) : M (option Z) :=
  latest ← mapErr Internal (look out (book_LockEvents accountID (After (cfg_Lock cfg))));
  now ← Now out;
  mret (LockedUntil (cfg_Lock cfg) latest now).

Definition Unlock (inp : UnlockInput) : M bool :=
  _ ← Get (un_ID inp);
  until ← lockedUntil (un_ID inp);
  match until with
  | None => mret false
  | Some _ => _ ← appendEntry (un_ID inp) Unlocked (un_ActorID inp); mret true
  end.

Definition exts (ids : list Z) : M (gmap Z string) :=
  match extension with None => mret ∅ | Some x => mapErr stored (ask (λ n, x_Ext x n ids)) end.

Definition AdminGet (id : Z) : M Detail :=
  acc ← Get id;
  last ← mapErr Internal (look out (book_LastSignIns [id]));
  until ← lockedUntil id;
  ext ← exts [id];
  mret (mkDetail acc (last !! id) until (ext !! id)).

Definition AdminSessions (accountID : Z) : M (list Session) := _ ← Get accountID; Sessions accountID.
Definition AdminRevokeSession (accountID sessionID actorID : Z) : M () :=
  _ ← Get accountID; RevokeSession (mkRevokeSession accountID sessionID 0 actorID).
Definition AdminRevokeSessions (accountID actorID : Z) : M () :=
  _ ← Get accountID; RevokeSessions (mkRevokeSessions accountID "" actorID None).

(** ** Histories *)

Definition signInPage (accountID : Z) (view : string) (p : Paging) : M SignInPage :=
  events ← lift (view_events view);
  rows ← mapErr Internal (lookup_ out (book_Entries accountID events (offset p) (pg_PerPage (resolved p))));
  byEvent ← mapErr Internal (look out (book_EventCounts accountID));
  mret (mkSignInPage rows.1 rows.2 (signInCounts byEvent)).

Definition SignIns (accountID : Z) (view : string) (p : Paging) : M SignInPage := _ ← Get accountID; signInPage accountID view p.

Definition ChangesOf (accountID : Z) (view : string) (p : Paging) : M ChangePage :=
  _ ← Get accountID;
  narrow ← lift (view_narrow view);
  rows ← mapErr Internal (lookup_ out (book_Changes accountID narrow.1 narrow.2 (offset p) (pg_PerPage (resolved p))));
  byAction ← mapErr Internal (look out (book_ChangeCounts accountID));
  mret (mkChangePage rows.1 rows.2 (changeCounts byAction)).
End Services.
