(* ===== verification/Profile.v ===== *)
(** * A person's own account (src/identity/account/profile.go)

    The details, the password (confirmed again under its lock), the e-mail address
    (confirmed with a code), the sessions and the history of the signed-in person.
    Confirming the password and the codes are the services of [Reauth] and [Codes] on
    the counters and codes in the book; a step of theirs reads the clock as often as
    it likes, [readings], and other requests run meanwhile, [reauthOthers] and
    [codeOthers]. *)

From S2P Require Import Prelude Apperr Clock Codes CodeStore MemCodes Attempts SignIn MemPorts Reauth AccountRules Sql UserBook Users.

Local Open Scope Z_scope.

Record ProfileView : Type := mkProfileView { pv_Account : Account; pv_PendingEmail : option PendingCode }.
Record ProfileDetails : Type := mkProfileDetails { pd_AccountID : Z; pd_Name : string; pd_Phone : string }.
Record PasswordChange : Type := mkPasswordChange {
  pw_AccountID : Z;
  pw_CurrentPassword : string;
  pw_NewPassword : string;
  pw_Confirmation : string;
  pw_KeepToken : string
}.
Record RequestEmail : Type := mkRequestEmail { re_AccountID : Z; re_Email : string; re_CurrentPassword : string; re_IP : string }.
Record ConfirmEmail : Type := mkConfirmEmail { ce_AccountID : Z; ce_Code : string }.

(** The digits of a typed code. *)
Fixpoint digitsOf (s : string) : string :=
  match s with
  | EmptyString => EmptyString
  | String c s' => if Str.is_digit c then String c (digitsOf s') else digitsOf s'
  end.

Definition emailDisabled : error := WithReason (BadRequest ReasonEmailDisabled) ReasonEmailDisabled ∅.

Section Profile.
Variable out : Outside.
Variables (ToLower : string → string) (EqualFold : string → string → bool) (ParseAddress : string → option string).
Variables (Hash : string → result string) (Matches : string → string → bool) (RFC3339 : Z → string).
Variable hmac_hex : string → string → string.
Variables (policy : PasswordPolicy) (reauthLock : Lock).
(** [None] without a mail sender. *)
Variable codes : option Codes.
(** What [rand.Int] answers and whether the mail goes out, at each moment. *)
Variables (random : nat → result Z) (send : nat → CodeMessage → option error).
Variables (readings : nat → nat → Z) (reauthOthers : nat → nat → MemReauth → MemReauth) (codeOthers : nat → nat → CodesTable → CodesTable).
Notation M := (stM (Env Book) error).

(** A step that depends on how many outside events came before. *)
Definition at_moment {A} (f : nat → M A) : M A := λ e, f (moment e) e.

Definition confirm (acc : Account) (password : string) : M () :=
  mapErr (λ err, if errors_Is err ErrWrongPassword then invalid "current_password" ReasonPasswordWrong ∅ else err)
    (at_moment (λ n, on_reauth out (Confirm RFC3339 Matches reauthLock (ac_ID acc) (ac_PasswordHash acc) password
                                      (readings n) (reauthOthers n)))).

Definition pendingOf (c : Codes) (accountID : Z) : M (option PendingCode) :=
  now ← Now out; on_codes out (λ s, (Pending c s accountID PurposeEmailChange now, s)).

Definition ProfileGet (accountID : Z) : M ProfileView :=
  acc ← Get out accountID;
  match codes with
  | None => mret (mkProfileView acc None)
  | Some c => p ← pendingOf c accountID; mret (mkProfileView acc p)
  end.

Definition UpdateDetails (inp : ProfileDetails) : M ProfileView :=
  let name := Utf8.TrimSpace (pd_Name inp) in
  let phone := Utf8.TrimSpace (pd_Phone inp) in
  _ ← check_ (checkAll [checkName name; checkPhone phone]);
  cur ← Get out (pd_AccountID inp);
  let d := differs nameField (ac_Name cur) name ++ differs phoneField (ac_Phone cur) phone in
  _ ← (match d with
       | [] => mret ()
       | _ =>
           _ ← within out (
             _ ← mapErr stored (call out (book_Update ToLower (pd_AccountID inp) (mkChanges None None (Some name) (Some phone) None)));
             recordChange out (diffChange (pd_AccountID inp) 0 ChangeProfile d));
           tell (AccountChanged (pd_AccountID inp))
       end);
  ProfileGet (pd_AccountID inp).

Definition ChangePassword (inp : PasswordChange) : M () :=
  acc ← Get out (pw_AccountID inp);
  _ ← confirm acc (pw_CurrentPassword inp);
  _ ← check_ (checkPassword policy "new_password" (pw_NewPassword inp));
  if bool_decide (pw_NewPassword inp ≠ pw_Confirmation inp)
  then throw (invalid "new_password_confirmation" ReasonPasswordMismatch ∅) else
  if Matches (ac_PasswordHash acc) (pw_NewPassword inp) then throw (invalid "new_password" ReasonPasswordSame ∅) else
  hash ← mapErr Internal (lift (Hash (pw_NewPassword inp)));
  pending ← within out (
    _ ← recordChange out (passwordChange (ac_ID acc) 0);
    _ ← mapErr stored (call out (book_SetPasswordHash (ac_ID acc) hash));
    revokeSessions out (mkRevokeSessions (ac_ID acc) (pw_KeepToken inp) 0 (Some EndedPasswordChanged)));
  _ ← announce pending;
  _ ← tell (PasswordChanged (ac_ID acc) 0);
  tell (AccountChanged (ac_ID acc)).

Definition checkNewEmail (acc : Account) (email : string) : M () :=
  _ ← check_ (checkEmail ParseAddress "email" email);
  if bool_decide (email = NormalizeEmail ToLower (ac_Email acc)) then throw (invalid "email" ReasonEmailUnchanged ∅)
  else emailFree out EqualFold email (ac_ID acc).

(** [issue]: the two readings of the clock of [Codes.Issue]. *)
Definition issue (c : Codes) (acc : Account) (email ip : string) : M PendingCode :=
  now ← Now out;
  now' ← Now out;
  at_moment (λ n, on_codes out (Issue hmac_hex c now now' (random n) (send n)
    (mkIssueCode (ac_ID acc) PurposeEmailChange email email (ac_Name acc) (ac_Locale acc) ip))).

Definition RequestEmailChange (inp : RequestEmail) : M PendingCode :=
  match codes with
  | None => throw emailDisabled
  | Some c =>
      acc ← Get out (re_AccountID inp);
      _ ← confirm acc (re_CurrentPassword inp);
      let email := NormalizeEmail ToLower (re_Email inp) in
      _ ← checkNewEmail acc email;
      issue c acc email (re_IP inp)
  end.

Definition ResendEmailChange (accountID : Z) (ip : string) : M PendingCode :=
  match codes with
  | None => throw emailDisabled
  | Some c =>
      acc ← Get out accountID;
      p ← pendingOf c accountID;
      match p with None => throw noPending | Some p => issue c acc (pc_Target p) ip end
  end.

Definition emailChange (accountID : Z) (old new : string) : Change :=
  mkChange accountID 0 ChangeEmail [emailField] {[emailField := old]} {[emailField := new]}.

Definition ConfirmEmailChange (inp : ConfirmEmail) : M ProfileView :=
  match codes with
  | None => throw emailDisabled
  | Some c =>
      let code := digitsOf (ce_Code inp) in
      if negb (String.length code =? CodeLength)%nat then throw (invalid "code" ReasonCodeInvalid ∅) else
      acc ← Get out (ce_AccountID inp);
      email ← at_moment (λ n, on_codes out (Verify hmac_hex c (ac_ID acc) PurposeEmailChange code (readings n) (codeOthers n)));
      _ ← checkNewEmail acc email;
      _ ← within out (
        _ ← mapErr stored (call out (book_Update ToLower (ac_ID acc) (mkChanges None (Some email) None None None)));
        recordChange out (emailChange (ac_ID acc) (ac_Email acc) email));
      _ ← tell (EmailChanged (ac_ID acc) (ac_Email acc) email);
      _ ← tell (AccountChanged (ac_ID acc));
      ProfileGet (ac_ID acc)
  end.

Definition CancelEmailChange (accountID : Z) : M () :=
  match codes with
  | None => mret ()
  | Some c => now ← Now out; on_codes out (Cancel accountID PurposeEmailChange now)
  end.

Definition ProfileSessions (accountID : Z) : M (list Session) := Sessions out accountID.
Definition ProfileRevokeSession (accountID sessionID current : Z) : M () :=
  RevokeSession out (mkRevokeSession accountID sessionID current 0).
Definition ProfileSignIns (accountID : Z) (view : string) (p : Paging) : M SignInPage := signInPage out accountID view p.
End Profile.
