(* ===== verification/UsersFacts.v ===== *)
(** * What the shared steps of the users module do

    Rules for the calls of its stores and its transactions, and triples for the steps
    its operations share. *)

From S2P Require Import Prelude Clock Apperr Codes CodeStore MemCodes Attempts SignIn MemPorts Sql Hoare Reauth AccountRules UserBook Users Profile.

Local Open Scope Z_scope.

Section Rules.
Variable out : Outside.
Notation M := (stM (Env Book) error).
Implicit Types (P F : Book → Prop).

Lemma h_call {A} P (f : Book → result A * Book) (Q : A → Book → Prop) F :
  (∀ b, P b → F b) → (∀ b, P b → match f b with (Ok a, b') => Q a b' | (Err _, b') => F b' end) → hoare P (call out f) Q F.
Proof.
  intros HF Hf e He. unfold call. destruct (fault _ _); [by apply HF|]. specialize (Hf _ He). by destruct (f _) as [[a|err] b'].
Qed.

Lemma h_look {A} P (f : Book → A) (Q : A → Book → Prop) F :
  (∀ b, P b → F b) → (∀ b, P b → Q (f b) b) → hoare P (look out f) Q F.
Proof. intros HF HQ. by apply h_call. Qed.

Lemma h_lookup {A} P (f : Book → result A) (Q : A → Book → Prop) F :
  (∀ b, P b → F b) → (∀ b a, P b → f b = Ok a → Q a b) → hoare P (lookup_ out f) Q F.
Proof. intros HF HQ. apply h_call; [done|]. intros b Hb. destruct (f b) eqn:E; eauto. Qed.

Lemma h_tell P n (Q : () → Book → Prop) F : (∀ b, P b → Q () (hear n b)) → hoare P (tell n) Q F.
Proof. intros H e He. by apply H. Qed.

(** A transaction keeps all or nothing. *)
Lemma h_within {A} b0 (m : M A) (Q : A → Book → Prop) :
  hoare (λ b, b = b0) m Q (λ _, True) → hoare (λ b, b = b0) (within out m) Q (λ b, b = b0).
Proof. intros H. by apply h_mapErr, h_Transaction. Qed.

(** ** Shared steps *)

Lemma h_Get b0 id F :
  F b0 → hoare (λ b, b = b0) (Get out id) (λ a b, b = b0 ∧ b_accounts b0 !! id = Some a) F.
Proof.
  intros HF. apply h_mapErr, h_lookup; [by intros b ->|]. intros b a -> H. unfold book_Find in H.
  destruct (b_accounts b0 !! id) as [a'|] eqn:E; [|done]. by injection H as <-.
Qed.

(** The history with rows added. *)
Definition with_signins (b : Book) (rows : list SignInEntry) : Book :=
  mkBook (b_accounts b) (b_next b) (b_signins b ++ rows) (b_sessions b) (b_changes b) (b_reauth b) (b_codes b) (b_heard b).
Definition with_changes (b : Book) (rows : list ChangeEntry) : Book :=
  mkBook (b_accounts b) (b_next b) (b_signins b) (b_sessions b) (b_changes b ++ rows) (b_reauth b) (b_codes b) (b_heard b).
Definition with_heard (b : Book) (ns : list heard) : Book :=
  mkBook (b_accounts b) (b_next b) (b_signins b) (b_sessions b) (b_changes b) (b_reauth b) (b_codes b) (b_heard b ++ ns).

Definition is_entry (id : Z) (ev : SignInEvent) (actor : Z) (r : SignInEntry) : Prop :=
  e_AccountID r = id ∧ e_Event r = ev ∧ e_ActorID r = actor.

Lemma h_appendEntry b0 id ev actor :
  hoare (λ b, b = b0) (appendEntry out id ev actor)
    (λ _ b, ∃ r, is_entry id ev actor r ∧ b = with_signins b0 [r]) (λ _, True).
Proof.
  eapply h_bind; [apply h_Now with (Q := λ _ b, b = b0); naive_solver|]. intros now. apply h_mapErr, h_call; [done|].
  intros b ->. cbn. eexists. split; [|reflexivity]. done.
Qed.

Lemma h_recordChange b0 c :
  hoare (λ b, b = b0) (recordChange out c) (λ _ b, ∃ id m, b = with_changes b0 [mkChangeEntry id c (clock out m)]) (λ _, True).
Proof.
  eapply h_bind; [apply h_Now with (Q := λ now b, b = b0 ∧ ∃ m, now = clock out m); naive_solver|].
  intros now. apply h_call; [done|]. intros b [-> [m ->]]. cbn. by eexists _, m.
Qed.

Lemma h_tellAll b0 ns F : hoare (λ b, b = b0) (tellAll ns) (λ _ b, b = with_heard b0 ns) F.
Proof.
  revert b0. induction ns as [|n ns IH]; intros b0.
  - apply h_ret. intros b ->. unfold with_heard. rewrite app_nil_r. by destruct b0.
  - eapply h_bind; [apply h_tell with (Q := λ _ b, b = hear n b0); naive_solver|]. intros []. eapply h_weaken; [apply (IH (hear n b0))|..]; try done.
    intros _ b ->. unfold with_heard, hear. cbn. by rewrite <-app_assoc.
Qed.

(** ** Ending sessions *)

(** The rows [revokeSessions] ends. *)
Definition ended_row (accountID keep now : Z) (r : sessionRow) : bool :=
  ends_row accountID [] keep now r || opened_by accountID now r.

Definition end_rows (accountID keep now : Z) (rows : list sessionRow) : list sessionRow :=
  (λ r, if ended_row accountID keep now r then revoked_row r else r) <$> rows.

Lemma end_rows_twice accountID keep now rows :
  (λ r, if opened_by accountID now r then revoked_row r else r) <$>
    ((λ r, if ends_row accountID [] keep now r then revoked_row r else r) <$> rows) = end_rows accountID keep now rows.
Proof.
  unfold end_rows. rewrite <-list_fmap_compose. apply list_fmap_ext. intros i r _. cbn. unfold ended_row.
  destruct (ends_row accountID [] keep now r); cbn; [|done]. unfold opened_by, live. cbn. by rewrite andb_false_r.
Qed.

(** The session a token keeps. *)
Definition kept (b : Book) (accountID keep : Z) (token : string) : Prop :=
  keep = 0 ∨ token ≠ "" ∧ ∃ r m, r ∈ b_sessions b ∧ sr_access r = token ∧ live r (clock out m) = true ∧
    s_AccountID (sr_Session r) = accountID ∧ s_ID (sr_Session r) = keep.

Lemma h_keptSession b0 req F :
  hoare (λ b, b = b0) (keptSession out req)
    (λ keep b, b = b0 ∧ kept b0 (rss_AccountID req) keep (rss_KeepToken req)) F.
Proof.
  unfold keptSession. case_bool_decide as Ht; [apply h_ret; intros b ->; split; [done|by left]|].
  eapply h_bind; [apply h_Now with (Q := λ now b, b = b0 ∧ ∃ m, now = clock out m); naive_solver|]. intros now.
  eapply h_bind; [apply h_attempt with (Q := λ r b, b = b0 ∧ match r with
    | Err _ => True
    | Ok s => ∃ row m, row ∈ b_sessions b0 ∧ sr_access row = rss_KeepToken req ∧ live row (clock out m) = true ∧ sr_Session row = s
    end)|].
  - apply h_lookup; [naive_solver|]. intros b s [-> [m ->]] H. split; [done|]. unfold book_SessionsGet in H.
    destruct (List.find _ _) as [row|] eqn:E; [|done]. injection H as <-.
    apply find_some in E as [Hin [Ha%bool_decide_eq_true Hl]%andb_true_iff]. apply list_elem_of_In in Hin. exists row, m. done.
  - intros [s|err]; apply h_ret; intros b [-> H]; (split; [done|]); [|by left].
    destruct H as (row & m & Hin & Ha & Hl & <-).
    destruct (Z.eqb_spec (s_AccountID (sr_Session row)) (rss_AccountID req)); [|by left].
    right. split; [done|]. exists row, m. done.
Qed.

(** Sign-in events that do not move the lock. *)
Definition quiet_rows (rows : list SignInEntry) : Prop :=
  Forall (λ r, e_Event r = SessionRevoked ∨ e_Event r = SignedOutEverywhere) rows.

Lemma with_signins_app b r1 r2 : with_signins (with_signins b r1) r2 = with_signins b (r1 ++ r2).
Proof. unfold with_signins. cbn. by rewrite app_assoc. Qed.

Lemma with_signins_nil b : with_signins b [] = b.
Proof. unfold with_signins. rewrite app_nil_r. by destruct b. Qed.

Lemma h_record_opened b0 actor opened :
  hoare (λ b, b = b0) (record_opened out actor opened) (λ _ b, ∃ rows, quiet_rows rows ∧ b = with_signins b0 rows) (λ _, True).
Proof.
  revert b0. induction opened as [|s opened IH]; intros b0.
  - apply h_ret. intros b ->. exists []. split; [constructor|]. by rewrite with_signins_nil.
  - eapply h_bind; [apply h_appendEntry|]. intros []. apply h_ex. intros r. apply h_pure. intros (_ & Hev & _).
    eapply h_weaken; [apply (IH (with_signins b0 [r]))|done| |done]. intros _ b (rows & Hq & ->). exists (r :: rows).
    rewrite with_signins_app. split; [|done]. constructor; [by left|done].
Qed.

(** What [revokeSessions] leaves: the sessions are ended, and events that do not
    move the lock are on the history. *)
Definition revoked_book (b : Book) (accountID keep now : Z) (rows : list SignInEntry) : Book :=
  with_signins (set_b_sessions b (end_rows accountID keep now (b_sessions b))) rows.

Lemma h_revokeSessions b0 req :
  hoare (λ b, b = b0) (revokeSessions out req)
    (λ _ b, ∃ keep m rows, kept b0 (rss_AccountID req) keep (rss_KeepToken req) ∧ quiet_rows rows ∧
       b = revoked_book b0 (rss_AccountID req) keep (clock out m) rows) (λ _, True).
Proof.
  unfold revokeSessions. set (id := rss_AccountID req). set (token := rss_KeepToken req).
  eapply h_bind with (R := λ keep b, kept b0 id keep token ∧ b = b0).
  { eapply h_weaken; [apply (h_keptSession b0 req (λ _, True))|done| |done]. naive_solver. }
  intros keep. apply h_pure. intros Hk.
  eapply h_bind with (R := λ now b, ∃ m, now = clock out m ∧ b = b0); [apply h_Now; naive_solver|].
  intros now. apply h_ex. intros m. apply h_pure. intros ->.
  eapply h_bind with (R := λ _ b, b = b0).
  { eapply h_bind with (R := λ _ b, b = b0); [by apply h_mapErr, h_look|]. intros l. by apply h_ret. }
  intros ids. set (b1 := set_b_sessions b0 ((λ r, if ends_row id [] keep (clock out m) r then revoked_row r else r) <$> b_sessions b0)).
  eapply h_bind with (R := λ _ b, b = b1). { apply h_mapErr, h_call; [done|]. by intros b ->. }
  intros n. eapply h_bind; [apply h_appendEntry|]. intros []. apply h_ex. intros r. apply h_pure. intros (_ & Hev & _).
  set (b2 := with_signins (set_b_sessions b0 (end_rows id keep (clock out m) (b_sessions b0))) [r]).
  eapply h_bind with (R := λ _ b, b = b2).
  { apply h_mapErr, h_call; [done|]. intros b ->. unfold b2. rewrite <-end_rows_twice. done. }
  intros opened. eapply h_bind; [apply h_record_opened|]. intros []. apply h_ret. intros b (rows & Hq & ->).
  exists keep, m, (r :: rows). split; [done|]. split; [constructor; [by right|done]|]. unfold b2, revoked_book.
  by rewrite with_signins_app.
Qed.
(** ** Notices after the fact *)

Definition told (b0 : Book) (b : Book) : Prop := ∃ ns, b = with_heard b0 ns.

Lemma h_announce b0 p F : hoare (λ b, b = b0) (announce p) (λ _, told b0) F.
Proof. eapply h_weaken; [apply (h_tellAll b0 _ F)|done| |done]. intros _ b ->. by eexists. Qed.

Lemma h_tell_more b0 n F : hoare (told b0) (tell n) (λ _, told b0) F.
Proof. apply h_tell. intros b [ns ->]. exists (ns ++ [n]). unfold hear, with_heard. cbn. by rewrite <-app_assoc. Qed.

Lemma h_tell_first b0 n F : hoare (λ b, b = b0) (tell n) (λ _, told b0) F.
Proof. apply h_tell. intros b ->. by exists [n]. Qed.

(** ** What the application is asked *)

Lemma h_askHooks b0 hs acc actor F :
  F b0 → hoare (λ b, b = b0) (askHooks hs acc actor) (λ _ b, (∀ h, h ∈ hs → ∃ n, h n acc actor = None) ∧ b = b0) F.
Proof.
  intros HF. induction hs as [|h hs IH]; [apply h_ret; intros b ->; split; [by intros h ?%elem_of_nil|done]|].
  eapply h_bind with (R := λ _ b, (∃ n, h n acc actor = None) ∧ b = b0).
  { apply h_mapErr, h_ask; [by intros b ->|]. intros b n [] -> H. split; [|done]. exists n. by destruct (h n acc actor). }
  intros []. apply h_pure. intros Hh. eapply h_weaken; [exact IH|done| |done]. intros _ b [Hhs ->]. split; [|done].
  intros h' [->|?]%elem_of_cons; eauto.
Qed.

Lemma h_deactivating b0 hs x acc req F :
  F b0 → hoare (λ b, b = b0) (deactivating hs x acc req) (λ _ b, (∀ h, h ∈ hs → ∃ n, h n acc (de_ActorID req) = None) ∧ b = b0) F.
Proof.
  intros HF. eapply h_bind; [by apply h_askHooks|]. intros []. apply h_pure. intros Hh.
  destruct x as [x|]; [|apply h_ret; naive_solver].
  eapply h_bind with (R := λ _ b, b = b0); [apply h_mapErr, h_ask; [by intros b ->|done]|]. intros ext. apply h_ret. naive_solver.
Qed.

(** [Get], the fact first. *)
Lemma h_Get_pure b0 id F : F b0 → hoare (λ b, b = b0) (Get out id) (λ a b, b_accounts b0 !! id = Some a ∧ b = b0) F.
Proof. intros HF. eapply h_weaken; [apply (h_Get b0 id F HF)|done| |done]. naive_solver. Qed.
End Rules.

(** * What the users module keeps (src/identity/account/users.go, admin.go, profile.go)

    Every operation, whether it succeeds or fails and wherever a store fails, keeps
    the book in order: accounts under their own id, one account per login and per
    e-mail address, sessions numbered. *)

(** ** Accounts in order *)

Record accounts_ok (m : gmap Z Account) (next : Z) : Prop := mkAccountsOk {
  ao_keyed : ∀ id a, m !! id = Some a → ac_ID a = id;
  ao_next : ∀ id a, m !! id = Some a → 0 < id < next;
  ao_logins : ∀ i j a b, m !! i = Some a → m !! j = Some b → ac_Login a = ac_Login b → i = j;
  ao_emails : ∀ i j a b, m !! i = Some a → m !! j = Some b → ac_Email a = ac_Email b → ac_Email a ≠ "" → i = j
}.

Definition in_order (b : Book) : Prop := 0 < b_next b ∧ accounts_ok (b_accounts b) (b_next b) ∧
  (∀ r, r ∈ b_sessions b → s_ID (sr_Session r) ≠ 0).

Lemma elem_of_rowsOf m a : a ∈ rowsOf m ↔ ∃ id, m !! id = Some a.
Proof.
  unfold rowsOf. rewrite list_elem_of_fmap. split.
  - intros ([id a'] & -> & H%elem_of_map_to_list). eauto.
  - intros [id H]. exists (id, a). split; [done|]. by apply elem_of_map_to_list.
Qed.

Lemma loginUsed_false m login except :
  loginUsed m login except = false ↔ ∀ id a, m !! id = Some a → ac_Login a = login → except = Some (ac_ID a).
Proof.
  unfold loginUsed. rewrite <-not_true_iff_false, existsb_elem. split.
  - intros H id a Ha Hl. destruct (decide (except = Some (ac_ID a))); [done|]. exfalso. apply H. exists a.
    split; [apply elem_of_rowsOf; eauto|]. by rewrite bool_decide_eq_false_2, bool_decide_eq_true_2.
  - intros H (a & [id Ha]%elem_of_rowsOf & [Hn Hl%bool_decide_eq_true]%andb_true_iff).
    rewrite (H id a Ha Hl), bool_decide_eq_true_2 in Hn; done.
Qed.

Lemma emailUsed_false m email except :
  emailUsed m email except = false → email ≠ "" → ∀ id a, m !! id = Some a → ac_Email a = email → ac_ID a = except.
Proof.
  unfold emailUsed. intros H Hne id a Ha He. rewrite bool_decide_eq_true_2 in H by done. cbn in H.
  destruct (Z.eqb_spec (ac_ID a) except); [done|]. apply not_true_iff_false in H. exfalso. apply H, existsb_elem.
  exists a. split; [apply elem_of_rowsOf; eauto|]. rewrite (proj2 (Z.eqb_neq _ _)) by done. by rewrite bool_decide_eq_true_2.
Qed.

(** Writing an account whose login and address are its own. *)
Lemma accounts_ok_insert m next id a :
  accounts_ok m next → 0 < id → ac_ID a = id →
  (∀ j b, m !! j = Some b → ac_Login b = ac_Login a → j = id) →
  (∀ j b, m !! j = Some b → ac_Email b = ac_Email a → ac_Email a ≠ "" → j = id) →
  accounts_ok (<[id := a]> m) (Z.max next (id + 1)).
Proof.
  intros [Hk Hn Hl He] H0 Hid HL HE. split.
  - intros j b [[<- <-]|[_ Hb]]%lookup_insert_Some; eauto.
  - intros j b [[<- <-]|[_ Hb]]%lookup_insert_Some; [lia|]. apply Hn in Hb. lia.
  - intros i j a1 a2 [[<- <-]|[_ H1]]%lookup_insert_Some [[<- <-]|[_ H2]]%lookup_insert_Some E; eauto. symmetry. eauto.
  - intros i j a1 a2 [[<- <-]|[_ H1]]%lookup_insert_Some [[<- <-]|[_ H2]]%lookup_insert_Some E Hne; eauto.
    + symmetry. eapply HE; eauto.
    + eapply HE; eauto. by rewrite <-E.
Qed.

(** The same account with what is neither its login nor its address changed. *)
Lemma accounts_ok_update m next id a a' :
  accounts_ok m next → m !! id = Some a → ac_ID a' = ac_ID a → ac_Login a' = ac_Login a → ac_Email a' = ac_Email a →
  accounts_ok (<[id := a']> m) next.
Proof.
  intros Hok Ha Hid Hl He. pose proof (ao_next _ _ Hok _ _ Ha). replace next with (Z.max next (id + 1)) by lia.
  apply accounts_ok_insert; [done|lia| | |].
  - rewrite Hid. by apply (ao_keyed _ _ Hok).
  - intros j b Hb E. apply (ao_logins _ _ Hok j id b a Hb Ha). congruence.
  - intros j b Hb E Hne. apply (ao_emails _ _ Hok j id b a Hb Ha); congruence.
Qed.

Lemma book_update_ok id fn b :
  (∀ a, ac_ID (fn a) = ac_ID a ∧ ac_Login (fn a) = ac_Login a ∧ ac_Email (fn a) = ac_Email a) →
  in_order b → in_order (book_update id fn b).2.
Proof.
  intros Hfn (H0 & Hok & Hs). unfold book_update. destruct (b_accounts b !! id) as [a|] eqn:E; [|done].
  split; [done|]. split; [|done]. destruct (Hfn a) as (H1 & H2 & H3). by eapply accounts_ok_update.
Qed.

Lemma book_Create_ok ToLower a b : 0 <= ac_ID a → in_order b → in_order (book_Create ToLower a b).2.
Proof.
  intros Ha (H0 & Hok & Hs). unfold book_Create. set (a1 := with_login a _). destruct (loginUsed _ _ _) eqn:El; [done|].
  set (a2 := with_email a1 _). destruct (emailUsed _ _ _) eqn:Ee; [done|]. set (a3 := with_id _ a2).
  assert (0 < ac_ID a3) as Hpos by (unfold a3; cbn; destruct (Z.eqb_spec (ac_ID a) 0); lia).
  split; [cbn; lia|]. split; [|done]. cbn [b_accounts b_next set_b_accounts snd].
  replace (Z.max (b_next b) (ac_ID a3) + 1) with (Z.max (Z.max (b_next b) (ac_ID a3) + 1) (ac_ID a3 + 1)) by lia.
  rewrite loginUsed_false in El. apply accounts_ok_insert; try done.
  - destruct Hok as [Hk Hn Hl He]. split; try done. intros id x Hx. apply Hn in Hx. lia.
  - intros j x Hx E. specialize (El j x Hx E). done.
  - intros j x Hx E Hne. pose proof (emailUsed_false _ _ _ Ee Hne j x Hx E) as Hz.
    pose proof (ao_next _ _ Hok _ _ Hx). rewrite (ao_keyed _ _ Hok _ _ Hx) in Hz. lia.
Qed.

Lemma written_id v set_ a : (∀ a v, ac_ID (set_ a v) = ac_ID a) → ac_ID (written v set_ a) = ac_ID a.
Proof. intros H. destruct v; cbn; [apply H|done]. Qed.

Lemma book_Update_ok ToLower id c b : in_order b → in_order (book_Update ToLower id c b).2.
Proof.
  intros (H0 & Hok & Hs). unfold book_Update. destruct (b_accounts b !! id) as [a|] eqn:Ea; [|done].
  destruct (match ch_Login c with Some _ => _ | None => _ end) eqn:El; [done|].
  destruct (match ch_Email c with Some _ => _ | None => _ end) eqn:Ee; [done|].
  set (a' := written (ch_Locale c) _ _). split; [done|]. split; [|done]. cbn [snd set_b_accounts b_accounts b_next].
  pose proof (ao_next _ _ Hok _ _ Ea) as Hn. pose proof (ao_keyed _ _ Hok _ _ Ea) as Hk.
  replace (b_next b) with (Z.max (b_next b) (id + 1)) by lia.
  assert (ac_ID a' = ac_ID a) as Hid by (unfold a'; destruct c as [[] [] [] [] []]; done).
  assert (ac_Login a' = default (ac_Login a) (NormalizeLogin ToLower <$> ch_Login c)) as Hl
    by (unfold a'; destruct c as [[] [] [] [] []]; done).
  assert (ac_Email a' = default (ac_Email a) (NormalizeEmail ToLower <$> ch_Email c)) as He
    by (unfold a'; destruct c as [[] [] [] [] []]; done).
  apply accounts_ok_insert; [done|lia|congruence| |].
  - intros j x Hx E. rewrite Hl in E. destruct (ch_Login c) as [l|]; cbn in E.
    + rewrite loginUsed_false in El. specialize (El j x Hx E). rewrite (ao_keyed _ _ Hok _ _ Hx) in El. congruence.
    + by apply (ao_logins _ _ Hok j id x a).
  - intros j x Hx E Hne. rewrite He in E, Hne. destruct (ch_Email c) as [m|]; cbn in E, Hne.
    + pose proof (emailUsed_false _ _ _ Ee Hne j x Hx E) as Hz. by rewrite (ao_keyed _ _ Hok _ _ Hx) in Hz.
    + apply (ao_emails _ _ Hok j id x a Hx Ea); congruence.
Qed.

Lemma end_sessions_ok (f : sessionRow → bool) b :
  in_order b → in_order (set_b_sessions b ((λ r, if f r then revoked_row r else r) <$> b_sessions b)).
Proof.
  intros (H0 & Hok & Hs). split; [done|]. split; [done|]. intros r (r0 & -> & Hr)%list_elem_of_fmap. specialize (Hs _ Hr).
  by destruct (f r0).
Qed.

(** ** Operations that keep an invariant *)
Section Keeps.
Variable out : Outside.
Notation M := (stM (Env Book) error).

Definition keeps {A} (m : M A) : Prop := hoare in_order m (λ _, in_order) in_order.

Lemma keeps_bind {A B} (m : M A) (f : A → M B) : keeps m → (∀ a, keeps (f a)) → keeps (m ≫= f).
Proof. intros Hm Hf. eapply h_bind; [exact Hm|]. intros a. apply Hf. Qed.
Lemma keeps_ret {A} (a : A) : keeps (mret a).
Proof. by apply h_ret. Qed.
Lemma keeps_throw {A} err : keeps (throw err : M A).
Proof. by apply h_throw. Qed.
Lemma keeps_check err : keeps (check_ err).
Proof. by apply h_check. Qed.
Lemma keeps_mapErr {A} f (m : M A) : keeps m → keeps (mapErr f m).
Proof. apply h_mapErr. Qed.
Lemma keeps_attempt {A} (m : M A) : keeps m → keeps (attempt m).
Proof. intros H. apply h_attempt. eapply h_weaken; [exact H|..]; naive_solver. Qed.
Lemma keeps_call {A} (f : Book → result A * Book) : (∀ b, in_order b → in_order (f b).2) → keeps (call out f).
Proof. intros H. apply h_call; [done|]. intros b Hb. specialize (H b Hb). by destruct (f b) as [[|] ?]. Qed.
Lemma keeps_look {A} (f : Book → A) : keeps (look out f).
Proof. by apply keeps_call. Qed.
Lemma keeps_lookup {A} (f : Book → result A) : keeps (lookup_ out f).
Proof. by apply keeps_call. Qed.
Lemma keeps_Now : keeps (Now out).
Proof. by apply h_Now. Qed.
Lemma keeps_ask {A} (f : nat → result A) : keeps (ask f).
Proof. by apply h_ask. Qed.
Lemma keeps_lift {A} (o : result A) : keeps (lift o).
Proof. by apply h_lift. Qed.
Lemma keeps_tell n : keeps (tell n).
Proof. by apply h_tell. Qed.
Lemma keeps_moment {A} (f : nat → M A) : (∀ n, keeps (f n)) → keeps (at_moment f).
Proof. intros H e He. unfold at_moment. by apply H. Qed.
Lemma keeps_reauth {A} (m : stM MemReauth error A) : keeps (on_reauth out m).
Proof. apply keeps_call. intros b Hb. by destruct (m _). Qed.
Lemma keeps_codes {A} (m : stM CodesTable error A) : keeps (on_codes out m).
Proof. apply keeps_call. intros b Hb. by destruct (m _). Qed.
Lemma keeps_within {A} (m : M A) : keeps m → keeps (within out m).
Proof.
  intros H. apply keeps_mapErr. intros e He. specialize (H e He). unfold Transaction. destruct (m e) as [[a|err] e']; [|done].
  by destruct (fault _ _).
Qed.
Lemma keeps_bool {A} (c : bool) (m1 m2 : M A) : keeps m1 → keeps m2 → keeps (if c then m1 else m2).
Proof. by destruct c. Qed.
End Keeps.

Create HintDb keeps.
#[export] Hint Resolve keeps_ret keeps_throw keeps_check keeps_mapErr keeps_attempt keeps_look keeps_lookup keeps_Now keeps_ask
  keeps_lift keeps_tell keeps_moment keeps_reauth keeps_codes keeps_within keeps_bool : keeps.
#[export] Hint Extern 1 (keeps (_ ≫= _)) => (apply keeps_bind; [|intros ?]) : keeps.
#[export] Hint Extern 1 (0 <= ac_ID _) => (cbn; lia) : keeps.
#[export] Hint Extern 2 (keeps (match ?x with _ => _ end)) => destruct x : keeps.

Ltac keeps_it := cbn zeta; eauto 40 with keeps nocore.

Section Operations.
Variable out : Outside.
Variables (ToLower : string → string) (EqualFold : string → string → bool) (ParseAddress : string → option string).
Variables (Hash : string → result string) (Matches : string → string → bool) (RFC3339 : Z → string).
Variable hmac_hex : string → string → string.
Variables (cfg : Config) (policy : PasswordPolicy) (hooks : list Hook) (extension : option Extension) (reauthLock : Lock).
Variable codes : option Codes.
Variables (random : nat → result Z) (send : nat → CodeMessage → option error).
Variables (readings : nat → nat → Z) (reauthOthers : nat → nat → MemReauth → MemReauth) (codeOthers : nat → nat → CodesTable → CodesTable).

Lemma keeps_Get id : keeps (Get out id).
Proof. unfold Get. keeps_it. Qed.

Lemma keeps_SetLocale id l : keeps (call out (book_SetLocale id l)).
Proof. apply keeps_call. intros b. by apply book_update_ok. Qed.
Lemma keeps_SetHash id l : keeps (call out (book_SetPasswordHash id l)).
Proof. apply keeps_call. intros b. by apply book_update_ok. Qed.
Lemma keeps_SetActive id l : keeps (call out (book_SetActive id l)).
Proof. apply keeps_call. intros b. by apply book_update_ok. Qed.
Lemma keeps_Create_ a : 0 <= ac_ID a → keeps (call out (book_Create ToLower a)).
Proof. intros H. apply keeps_call. intros b. by apply book_Create_ok. Qed.
Lemma keeps_Update_ id c : keeps (call out (book_Update ToLower id c)).
Proof. apply keeps_call. intros b. apply book_Update_ok. Qed.
Lemma keeps_Record row : keeps (call out (book_Record row)).
Proof. by apply keeps_call. Qed.
Lemma keeps_RecordChange c at_ : keeps (call out (book_RecordChange c at_)).
Proof. by apply keeps_call. Qed.
Lemma keeps_End id ids keep now : keeps (call out (book_End id ids keep now)).
Proof. apply keeps_call. intros b. apply end_sessions_ok. Qed.
Lemma keeps_EndOpenedBy id now : keeps (call out (book_EndOpenedBy id now)).
Proof. apply keeps_call. intros b. apply end_sessions_ok. Qed.

Lemma keeps_appendEntry id ev actor : keeps (appendEntry out id ev actor).
Proof. unfold appendEntry. apply keeps_bind; [apply keeps_Now|]. intros now. apply keeps_mapErr, keeps_Record. Qed.
Lemma keeps_recordChange c : keeps (recordChange out c).
Proof. unfold recordChange. apply keeps_bind; [apply keeps_Now|]. intros now. apply keeps_RecordChange. Qed.

Lemma keeps_record_opened actor l : keeps (record_opened out actor l).
Proof. induction l as [|s l IH]; [apply keeps_ret|]. apply keeps_bind; [apply keeps_appendEntry|done]. Qed.
Lemma keeps_tellAll ns : keeps (tellAll ns).
Proof. induction ns as [|n ns IH]; [apply keeps_ret|]. apply keeps_bind; [apply keeps_tell|done]. Qed.
Lemma keeps_askHooks hs acc actor : keeps (askHooks hs acc actor).
Proof. induction hs as [|h hs IH]; [apply keeps_ret|]. apply keeps_bind; [apply keeps_mapErr, keeps_ask|done]. Qed.
End Operations.

#[export] Hint Resolve keeps_Get keeps_SetLocale keeps_SetHash keeps_SetActive keeps_Create_ keeps_Update_ keeps_Record
  keeps_RecordChange keeps_End keeps_EndOpenedBy keeps_appendEntry keeps_recordChange keeps_record_opened keeps_tellAll
  keeps_askHooks : keeps.
