(* ===== verification/UsersProps.v ===== *)
(** * Properties of the users module and the profile (src/identity/account) *)

From S2P Require Import Prelude Apperr Clock Codes CodeStore MemCodes Attempts SignIn MemPorts Reauth AccountRules Sql Hoare UserBook Users Profile UsersFacts.

Local Open Scope Z_scope.

(** ** Any sequence of operations *)

Inductive userOp : Type :=
| OpCreate (req : CreateAccount)
| OpUpdate (req : UpdateAccount)
| OpSetPassword (req : SetPasswordInput)
| OpDeactivate (req : DeactivateInput)
| OpActivate (req : DeactivateInput)
| OpUnlock (req : UnlockInput)
| OpRevokeSession (req : RevokeSessionInput)
| OpRevokeSessions (req : RevokeSessionsInput)
| OpChangeLocale (id : Z) (locale : string)
| OpUpdateDetails (req : ProfileDetails)
| OpChangePassword (req : PasswordChange)
| OpRequestEmail (req : RequestEmail)
| OpResendEmail (id : Z) (ip : string)
| OpConfirmEmail (req : ConfirmEmail)
| OpCancelEmail (id : Z).

(** What the application supplies. *)
Record Supply : Type := mkSupply {
  su_ToLower : string → string;
  su_EqualFold : string → string → bool;
  su_ParseAddress : string → option string;
  su_Hash : string → result string;
  su_Matches : string → string → bool;
  su_RFC3339 : Z → string;
  su_hmac : string → string → string;
  su_cfg : Config;
  su_policy : PasswordPolicy;
  su_hooks : list Hook;
  su_extension : option Extension;
  su_lock : Lock;
  su_codes : option Codes;
  su_random : nat → result Z;
  su_send : nat → CodeMessage → option error;
  su_readings : nat → nat → Z;
  su_reauthOthers : nat → nat → MemReauth → MemReauth;
  su_codeOthers : nat → nat → CodesTable → CodesTable
}.

Definition unit_of {A} (m : stM (Env Book) error A) : stM (Env Book) error () := _ ← m; mret ().

Definition perform (out : Outside) (x : Supply) (op : userOp) : stM (Env Book) error () :=
  match op with
  | OpCreate r => unit_of (CreateWithExt out (su_ToLower x) (su_EqualFold x) (su_ParseAddress x) (su_Hash x) (su_cfg x) (su_policy x) (su_extension x) r)
  | OpUpdate r => unit_of (Update out (su_ToLower x) (su_EqualFold x) (su_ParseAddress x) (su_cfg x) (su_extension x) r)
  | OpSetPassword r => SetPassword out (su_Hash x) (su_policy x) r
  | OpDeactivate r => unit_of (DeactivateWithExt out (su_hooks x) (su_extension x) r)
  | OpActivate r => Activate out r
  | OpUnlock r => unit_of (Unlock out (su_cfg x) r)
  | OpRevokeSession r => RevokeSession out r
  | OpRevokeSessions r => RevokeSessions out r
  | OpChangeLocale id l => ChangeLocale out (su_cfg x) id l
  | OpUpdateDetails r => unit_of (UpdateDetails out (su_ToLower x) (su_codes x) r)
  | OpChangePassword r => ChangePassword out (su_Hash x) (su_Matches x) (su_RFC3339 x) (su_policy x) (su_lock x) (su_readings x) (su_reauthOthers x) r
  | OpRequestEmail r => unit_of (RequestEmailChange out (su_ToLower x) (su_EqualFold x) (su_ParseAddress x) (su_Matches x) (su_RFC3339 x)
      (su_hmac x) (su_lock x) (su_codes x) (su_random x) (su_send x) (su_readings x) (su_reauthOthers x) r)
  | OpResendEmail id ip => unit_of (ResendEmailChange out (su_hmac x) (su_codes x) (su_random x) (su_send x) id ip)
  | OpConfirmEmail r => unit_of (ConfirmEmailChange out (su_ToLower x) (su_EqualFold x) (su_ParseAddress x) (su_hmac x) (su_codes x)
      (su_readings x) (su_codeOthers x) r)
  | OpCancelEmail id => CancelEmailChange out (su_codes x) id
  end.

Definition perform_ops (out : Outside) (x : Supply) (ops : list userOp) (e : Env Book) : Env Book :=
  foldl (λ e op, (perform out x op e).2) e ops.

Lemma keeps_revokeSessions out req : keeps (revokeSessions out req).
Proof. unfold revokeSessions, keptSession, liveExcept, endOpenedBy, recordEvent. keeps_it. Qed.
Lemma keeps_emailFree out EqualFold email except : keeps (emailFree out EqualFold email except).
Proof. unfold emailFree. keeps_it. Qed.
#[export] Hint Resolve keeps_revokeSessions keeps_emailFree : keeps.

Lemma keeps_perform out x op : keeps (perform out x op).
Proof.
  destruct op; cbn [perform]; unfold unit_of, CreateWithExt, Update, SetPassword, DeactivateWithExt, Activate, Unlock, RevokeSession,
    RevokeSessions, ChangeLocale, UpdateDetails, ChangePassword, RequestEmailChange, ResendEmailChange, ConfirmEmailChange,
    CancelEmailChange, deactivating, extendCreate, extendUpdate, lockedUntil, recordEvent, announce, ProfileGet, pendingOf,
    checkNewEmail, issue, confirm; keeps_it.
Qed.

(** ** One account per login and address *)

Lemma perform_ops_in_order (out : Outside) (x : Supply) (ops : list userOp) (e : Env Book) :
  in_order (tables e) → in_order (tables (perform_ops out x ops e)).
Proof.
  unfold perform_ops. revert e. induction ops as [|op ops IH]; intros e He; [done|]. cbn [foldl]. apply IH.
  pose proof (keeps_perform out x op e He) as H. by destruct (perform out x op e) as [[|] e'].
Qed.

(** C15. Logins and addresses stay unique. After any sequence of operations of
    administrators and of people on their own accounts, each succeeding or failing,
    with any call of a store failing, the accounts are under their own ids, no two
    have the same login, and no two have the same e-mail address. *)
Theorem accounts_stay_unique (out : Outside) (x : Supply) (ops : list userOp) (e : Env Book) :
  in_order (tables e) →
  let b := tables (perform_ops out x ops e) in
  (∀ id a, b_accounts b !! id = Some a → ac_ID a = id) ∧
  (∀ i j a c, b_accounts b !! i = Some a → b_accounts b !! j = Some c →
     ac_Login a = ac_Login c ∨ (ac_Email a = ac_Email c ∧ ac_Email a ≠ "") → i = j).
Proof.
  intros He b. destruct (perform_ops_in_order out x ops e He) as (_ & [Hk _ Hl Hm] & _).
  split; [done|]. intros i j a c Ha Hc [E|[E Hne]]; eauto.
Qed.

Definition calm : Outside := mkOutside (λ _, None) (λ n, 1000 + Z.of_nat n) (λ _, false).
Definition plainSupply : Supply :=
  mkSupply id String.eqb Some Ok String.eqb (λ _, "") (λ _ s, s)
    (mkConfig (24 * Time.Hour) (mkLock 5 100) 10 (mkCodeRules 0 0 0 0) (mkLock 5 100) [] (mkLimits 0 0 0 0))
    (Passwords 0) [] None (mkLock 5 100) None (λ _, Ok 0) (λ _ _, None) (λ n i, 1000 + Z.of_nat (n + i)) (λ _ _ s, s) (λ _ _ s, s).
Definition emptyBook : Book := mkBook ∅ 1 [] [] [] (mkMemReauth ∅) emptyCodes [].
Definition ana : CreateAccount := mkCreateAccount "ana" "Ana" "ana@example.com" "" "hr" "long enough" 0 "".
Definition twin : CreateAccount := mkCreateAccount "ana " "Ana B" "ana@other.com" "" "hr" "long enough" 0 "".
Definition eva : CreateAccount := mkCreateAccount "eva" "Eva" "eva@example.com" "" "en" "long enough" 0 "".

Lemma emptyBook_in_order : in_order emptyBook.
Proof. split; [done|]. split; [|by intros r ?%elem_of_nil]. cbn. split; intros *; by rewrite lookup_empty. Qed.

Lemma accounts_stay_unique_witness :
  let b := tables (perform_ops calm plainSupply [OpCreate ana; OpCreate twin; OpCreate eva] (mkEnv emptyBook 0)) in
  size (b_accounts b) = 2%nat ∧ ∀ id a, b_accounts b !! id = Some a → ac_ID a = id.
Proof.
  split; [vm_compute; reflexivity|].
  apply (accounts_stay_unique calm plainSupply [OpCreate ana; OpCreate twin; OpCreate eva] (mkEnv emptyBook 0)).
  exact emptyBook_in_order.
Defined.

(** ** Closing an account *)

(** No session of the account is live from [now] on, nor one it opened as
    somebody else. *)
Definition signed_out (b : Book) (id keep now : Z) : Prop :=
  ∀ r t, r ∈ b_sessions b → now <= t → live r t = true →
    (s_AccountID (sr_Session r) = id → s_ID (sr_Session r) = keep) ∧ s_ActorID (sr_Session r) ≠ id.

Lemma live_later r now t : now <= t → live r t = true → live r now = true.
Proof. unfold live, Time.Before. intros Hle [H1 H2%Z.ltb_lt]%andb_true_iff. rewrite H1. apply Z.ltb_lt. lia. Qed.

Lemma end_rows_signed_out b id keep now :
  (∀ r, r ∈ b_sessions b → s_ID (sr_Session r) ≠ 0) →
  signed_out (set_b_sessions b (end_rows id keep now (b_sessions b))) id keep now.
Proof.
  intros Hs r t (r0 & -> & Hr)%list_elem_of_fmap Hle Hl. unfold ended_row in *.
  destruct (ends_row id [] keep now r0 || opened_by id now r0) eqn:E; [by unfold live in Hl|].
  pose proof (live_later _ _ _ Hle Hl) as Hnow. apply orb_false_iff in E as [E1 E2]. unfold ends_row, opened_by in *.
  rewrite Hnow in E1, E2. cbn in E1. rewrite andb_true_r in E2. apply Z.eqb_neq in E2. split; [|done]. intros Ha.
  rewrite Ha, Z.eqb_refl in E1. cbn in E1. rewrite orb_false_r in E1. apply negb_false_iff, Z.eqb_eq in E1. done.
Qed.

(** C14. Deactivating closes an account, or changes nothing. Whatever call fails: an
    error leaves every table and tells nobody; success means that nobody closed
    their own account, that it was active, that every hook agreed, that it is now
    inactive and the other accounts are as they were, and that from that time on no
    session of the account is live, nor one it opened as somebody else. *)
Theorem Deactivate_closes_or_nothing (out : Outside) (hooks : list Hook) (extension : option Extension) (req : DeactivateInput)
    (e : Env Book) :
  in_order (tables e) →
  match DeactivateWithExt out hooks extension req e with
  | (Err _, e') => tables e' = tables e
  | (Ok _, e') =>
      (de_ActorID req = 0 ∨ de_ActorID req ≠ de_ID req) ∧
      ∃ acc m, b_accounts (tables e) !! de_ID req = Some acc ∧ ac_Active acc = true ∧
        (∀ h, h ∈ hooks → ∃ n, h n acc (de_ActorID req) = None) ∧
        b_accounts (tables e') = <[de_ID req := with_active false acc]> (b_accounts (tables e)) ∧
        signed_out (tables e') (de_ID req) 0 (clock out m)
  end.
Proof.
  intros Hok. set (b0 := tables e) in *.
  enough (hoare (λ b, b = b0) (DeactivateWithExt out hooks extension req)
    (λ _ b, (de_ActorID req = 0 ∨ de_ActorID req ≠ de_ID req) ∧
      ∃ acc m, b_accounts b0 !! de_ID req = Some acc ∧ ac_Active acc = true ∧
        (∀ h, h ∈ hooks → ∃ n, h n acc (de_ActorID req) = None) ∧
        b_accounts b = <[de_ID req := with_active false acc]> (b_accounts b0) ∧
        signed_out b (de_ID req) 0 (clock out m)) (λ b, b = b0)) as H by exact (H e eq_refl).
  unfold DeactivateWithExt. destruct (negb _ && _) eqn:Eself; [by apply h_throw|].
  assert (de_ActorID req = 0 ∨ de_ActorID req ≠ de_ID req) as Hself.
  { apply andb_false_iff in Eself as [E|E]; [left; apply negb_false_iff, Z.eqb_eq in E; done|right; by apply Z.eqb_neq]. }
  eapply h_bind; [by apply (h_Get_pure out b0)|]. intros acc. apply h_pure. intros Hacc.
  pose proof (ao_keyed _ _ (proj1 (proj2 Hok)) _ _ Hacc) as Hid.
  destruct (ac_Active acc) eqn:Eact; [|by apply h_throw]. cbn [negb].
  set (closed := set_b_accounts b0 (<[de_ID req := with_active false acc]> (b_accounts b0)) (b_next b0)).
  eapply h_bind with (R := λ _ b, ∃ m rows ch, (∀ h, h ∈ hooks → ∃ n, h n acc (de_ActorID req) = None) ∧
    b = with_changes (revoked_book closed (de_ID req) 0 (clock out m) rows) ch).
  { apply h_within. eapply h_bind; [by apply (h_deactivating b0)|]. intros ext. apply h_pure. intros Hh.
    eapply h_bind with (R := λ _ b, b = closed).
    { apply h_mapErr, h_call; [done|]. intros b ->. unfold book_SetActive, book_update. rewrite Hid, Hacc. done. }
    intros []. eapply h_bind; [apply h_revokeSessions|]. intros p. apply h_ex. intros keep. apply h_ex. intros m. apply h_ex. intros rows.
    apply h_pure. intros Hk. apply h_pure. intros Hq.
    assert (keep = 0) as -> by (by destruct Hk as [->|[? _]]). cbn [rss_AccountID] in *.
    eapply h_bind; [apply h_recordChange|]. intros []. apply h_ret. intros b (i & m' & ->). rewrite Hid. eauto. }
  intros [ext p]. apply h_ex. intros m. apply h_ex. intros rows. apply h_ex. intros ch. apply h_pure. intros Hh.
  eapply h_bind; [apply h_announce|]. intros []. do 2 (eapply h_bind; [apply h_tell_more|]; intros []).
  apply h_ret. intros b [ns ->]. split; [done|]. exists acc, m. split_and!; try done.
  intros r t Hr. apply (end_rows_signed_out b0 (de_ID req) 0 (clock out m)); [apply Hok|exact Hr].
Qed.

Definition peopleBook : Book := tables (perform_ops calm plainSupply [OpCreate ana; OpCreate eva] (mkEnv emptyBook 0)).
Definition openSession (id account actor : Z) (token : string) : sessionRow :=
  mkSessionRow (mkSession id account actor "" "" 0 10000000000 0) token "" false.
Definition signedInBook : Book := set_b_sessions peopleBook [openSession 1 1 0 "a"; openSession 2 2 1 "b"; openSession 3 2 0 "c"].

Lemma in_order_sessions b rows : in_order b → (∀ r, r ∈ rows → s_ID (sr_Session r) ≠ 0) → in_order (set_b_sessions b rows).
Proof. intros (H1 & H2 & _) H. split; [exact H1|]. split; [exact H2|exact H]. Qed.

Lemma peopleBook_in_order : in_order peopleBook.
Proof. unfold peopleBook. apply perform_ops_in_order. exact emptyBook_in_order. Qed.

Lemma signedInBook_in_order : in_order signedInBook.
Proof.
  apply in_order_sessions; [exact peopleBook_in_order|].
  intros r [->|[->|[->|[]%elem_of_nil]%elem_of_cons]%elem_of_cons]%elem_of_cons; done.
Qed.

Lemma Deactivate_closes_or_nothing_witness :
  (DeactivateWithExt calm [] None (mkDeactivate 1 2 "") (mkEnv signedInBook 0)).1 = Ok None ∧
  (sr_revoked <$> b_sessions (tables (DeactivateWithExt calm [] None (mkDeactivate 1 2 "") (mkEnv signedInBook 0)).2)) = [true; true; false] ∧
  ∃ m, signed_out (tables (DeactivateWithExt calm [] None (mkDeactivate 1 2 "") (mkEnv signedInBook 0)).2) 1 0 (clock calm m).
Proof.
  assert ((DeactivateWithExt calm [] None (mkDeactivate 1 2 "") (mkEnv signedInBook 0)).1 = Ok None) as E by (vm_compute; reflexivity).
  split; [exact E|]. split; [vm_compute; reflexivity|].
  pose proof (Deactivate_closes_or_nothing calm [] None (mkDeactivate 1 2 "") (mkEnv signedInBook 0) signedInBook_in_order) as H.
  destruct (DeactivateWithExt calm [] None (mkDeactivate 1 2 "") (mkEnv signedInBook 0)) as [r e']. cbn [fst snd] in *. subst r.
  destruct H as (_ & acc & m & _ & _ & _ & _ & H). exists m. exact H.
Defined.

(** ** A new password *)

(** The newest lock event decides. *)
Lemma unlocked_lifts l id actor n b r rows t :
  0 < n → is_entry id Unlocked actor r → quiet_rows rows → LockedUntil l (book_LockEvents id n (with_signins b (r :: rows))) t = None.
Proof.
  intros Hn (Hid & Hev & _) Hq. unfold book_LockEvents. rewrite lockEvents_loop_spec by (done || cbn; lia). cbn [app].
  unfold with_signins. cbn [b_signins]. rewrite rev_app_distr. cbn [rev]. rewrite !List.filter_app.
  assert (List.filter (λ x, (e_AccountID x =? id) && LockEvent (e_Event x)) (rev rows) = []) as ->.
  { rewrite List.filter_rev. apply (f_equal (@rev _) (y := [])). induction Hq as [|x xs Hx _ IH]; [done|]. cbn. rewrite IH.
    destruct Hx as [-> | ->]; by rewrite andb_false_r. }
  cbn [app List.filter]. rewrite Hid, Hev, Z.eqb_refl. change (LockEvent Unlocked) with true.
  cbn [andb app]. destruct (Z.to_nat n) as [|k] eqn:Ek; [lia|]. cbn [take]. rewrite LockedUntil_all_wrong.
  destruct (Z.to_nat (After (lock_withDefaults l))) as [|j] eqn:Ej.
  { unfold lock_withDefaults in Ej. cbn in Ej. destruct (Z.leb_spec (After l) 0); lia. }
  rewrite all_wrong_cons, Hev. done.
Qed.

(** A new password from an administrator, or nothing at all. Whatever call fails:
    an error leaves every table; success means that the account exists, that the
    password meets the policy, that its hash is what the account now has and the
    other accounts are as they were, that from then on no session of the account is
    live but the one the request keeps, a live one of this account, nor one it opened
    as somebody else, and that whatever wrong passwords came before, the account is
    not locked. *)
Theorem SetPassword_replaces_or_nothing (out : Outside) (Hash : string → result string) (policy : PasswordPolicy)
    (inp : SetPasswordInput) (e : Env Book) :
  in_order (tables e) →
  match SetPassword out Hash policy inp e with
  | (Err _, e') => tables e' = tables e
  | (Ok _, e') =>
      checkPassword policy "password" (sp_Password inp) = None ∧
      ∃ acc hash keep m, b_accounts (tables e) !! sp_ID inp = Some acc ∧ Hash (sp_Password inp) = Ok hash ∧
        b_accounts (tables e') = <[sp_ID inp := with_hash hash acc]> (b_accounts (tables e)) ∧
        kept out (tables e) (sp_ID inp) keep (sp_KeepToken inp) ∧
        signed_out (tables e') (sp_ID inp) keep (clock out m) ∧
        ∀ l n t, 0 < n → LockedUntil l (book_LockEvents (sp_ID inp) n (tables e')) t = None
  end.
Proof.
  intros Hok. set (b0 := tables e) in *. set (id := sp_ID inp).
  enough (hoare (λ b, b = b0) (SetPassword out Hash policy inp)
    (λ _ b, checkPassword policy "password" (sp_Password inp) = None ∧
      ∃ acc hash keep m, b_accounts b0 !! id = Some acc ∧ Hash (sp_Password inp) = Ok hash ∧
        b_accounts b = <[id := with_hash hash acc]> (b_accounts b0) ∧ kept out b0 id keep (sp_KeepToken inp) ∧
        signed_out b id keep (clock out m) ∧ ∀ l n t, 0 < n → LockedUntil l (book_LockEvents id n b) t = None) (λ b, b = b0))
    as H by exact (H e eq_refl).
  eapply h_bind; [by apply (h_Get_pure out b0)|]. intros acc. apply h_pure. intros Hacc.
  eapply h_bind with (R := λ _ b, checkPassword policy "password" (sp_Password inp) = None ∧ b = b0); [by apply h_check|].
  intros []. apply h_pure. intros Hp.
  eapply h_bind with (R := λ hash b, Hash (sp_Password inp) = Ok hash ∧ b = b0); [by apply h_mapErr, h_lift|].
  intros hash. apply h_pure. intros Hh.
  eapply h_bind with (R := λ _ b, ∃ keep m r rows ch, kept out b0 id keep (sp_KeepToken inp) ∧ is_entry id Unlocked (sp_ActorID inp) r ∧
    quiet_rows rows ∧ b = with_signins (set_b_sessions (set_b_accounts (with_changes b0 ch) (<[id := with_hash hash acc]> (b_accounts b0)) (b_next b0))
                            (end_rows id keep (clock out m) (b_sessions b0))) (r :: rows)).
  { apply h_within. eapply h_bind; [apply h_recordChange|]. intros []. apply h_ex. intros i. apply h_ex. intros m0.
    eapply h_bind with (R := λ _ b, b = set_b_accounts (with_changes b0 [mkChangeEntry i (passwordChange id (sp_ActorID inp)) (clock out m0)])
       (<[id := with_hash hash acc]> (b_accounts b0)) (b_next b0)).
    { apply h_mapErr, h_call; [done|]. intros b ->. unfold book_SetPasswordHash, book_update. cbn [b_accounts with_changes].
      by rewrite Hacc. }
    intros []. eapply h_bind; [apply h_appendEntry|]. intros []. apply h_ex. intros r. apply h_pure. intros Hr.
    eapply h_weaken; [apply h_revokeSessions|exact (λ b H, H)| |done]. intros p b (keep & m & rows & Hk & Hq & ->).
    exists keep, m, r, rows, [mkChangeEntry i (passwordChange id (sp_ActorID inp)) (clock out m0)].
    split; [exact Hk|]. split; [done|]. split; [done|]. unfold revoked_book. unfold with_signins, set_b_sessions, set_b_accounts, with_changes. cbn. by rewrite <-app_assoc. }
  intros p. apply h_ex. intros keep. apply h_ex. intros m. apply h_ex. intros r. apply h_ex. intros rows. apply h_ex. intros ch.
  apply h_pure. intros Hk. apply h_pure. intros Hr. apply h_pure. intros Hq.
  eapply h_bind; [apply h_announce|]. intros []. eapply h_bind; [apply h_tell_more|]. intros [].
  eapply h_weaken; [apply h_tell_more|done| |done]. intros [] b [ns ->]. split; [done|]. exists acc, hash, keep, m. split_and!; try done.
  - intros x t Hx. apply (end_rows_signed_out b0 id keep (clock out m)); [apply Hok|exact Hx].
  - intros l n t Hn. exact (unlocked_lifts l id _ n b0 r rows t Hn Hr Hq).
Qed.

(** The account of ana after five wrong passwords. *)
Definition lockedBook : Book :=
  with_signins signedInBook ((λ i, mkEntry i 1 WrongPassword "" "" 0 (900 + i)) <$> [1; 2; 3; 4; 5]).

Lemma in_order_signins b rows : in_order b → in_order (with_signins b rows).
Proof. intros (H1 & H2 & H3). split; [exact H1|]. split; [exact H2|exact H3]. Qed.

Lemma lockedBook_in_order : in_order lockedBook.
Proof. unfold lockedBook. apply in_order_signins. exact signedInBook_in_order. Qed.

Lemma SetPassword_replaces_or_nothing_witness :
  LockedUntil (mkLock 5 1000) (book_LockEvents 1 5 lockedBook) 1000 = Some 1905 ∧
  let '(r, e') := SetPassword calm Ok (Passwords 0) (mkSetPassword 1 "a new long one" 2 "a") (mkEnv lockedBook 0) in
  r = Ok () ∧ (sr_revoked <$> b_sessions (tables e')) = [false; true; false] ∧
  LockedUntil (mkLock 5 1000) (book_LockEvents 1 5 (tables e')) 1000 = None.
Proof.
  split; [vm_compute; reflexivity|].
  assert ((SetPassword calm Ok (Passwords 0) (mkSetPassword 1 "a new long one" 2 "a") (mkEnv lockedBook 0)).1 = Ok ()) as E
    by (vm_compute; reflexivity).
  assert ((sr_revoked <$> b_sessions (tables (SetPassword calm Ok (Passwords 0) (mkSetPassword 1 "a new long one" 2 "a")
             (mkEnv lockedBook 0)).2)) = [false; true; false]) as E2 by (vm_compute; reflexivity).
  pose proof (SetPassword_replaces_or_nothing calm Ok (Passwords 0) (mkSetPassword 1 "a new long one" 2 "a") (mkEnv lockedBook 0)
    lockedBook_in_order) as H.
  destruct (SetPassword calm Ok _ _ _) as [r e']. cbn [fst snd] in *. subst r. split; [done|]. split; [exact E2|].
  destruct H as (_ & acc & hash & keep & m & _ & _ & _ & _ & _ & H). apply (H (mkLock 5 1000) 5 1000). done.
Defined.

(** ** A new password of one's own *)

Definition with_reauth (b : Book) (s : MemReauth) : Book :=
  mkBook (b_accounts b) (b_next b) (b_signins b) (b_sessions b) (b_changes b) s (b_codes b) (b_heard b).

(** Only the counter of the confirmations moved. *)
Definition only_counted (b0 b : Book) : Prop := ∃ s, b = with_reauth b0 s.

Lemma only_counted_refl b : only_counted b b.
Proof. exists (b_reauth b). by destruct b. Qed.

Lemma Confirm_matches RFC3339 Matches l id hash password clk others (s : MemReauth) s' :
  Confirm RFC3339 Matches l id hash password clk others s = (Ok (), s') → Matches hash password = true.
Proof.
  unfold Confirm. destruct (begin_ _ _ _ _ _) as [[c|] s1]; [|done]. by destruct (Matches hash password).
Qed.

Lemma h_confirm out Matches RFC3339 lock readings others b0 acc password :
  hoare (λ b, b = b0) (confirm out Matches RFC3339 lock readings others acc password)
    (λ _ b, Matches (ac_PasswordHash acc) password = true ∧ only_counted b0 b) (only_counted b0).
Proof.
  apply h_mapErr. unfold at_moment, on_reauth. intros e He.
  refine (h_call out (λ b, b = b0) _ (λ _ b, Matches (ac_PasswordHash acc) password = true ∧ only_counted b0 b) (only_counted b0) _ _ e He);
    [intros b ->; apply only_counted_refl|]. intros b ->.
  destruct (Confirm _ _ _ _ _ _ _ _ _) as [[[]|err] s'] eqn:E; [|by eexists].
  split; [by eapply Confirm_matches|by eexists].
Qed.

(** A person's new password, or nothing but a counted attempt. Whatever call fails
    and whatever other confirmations run meanwhile: an error leaves every table but
    the counter of the confirmations; success means that the current password was
    right, that the new one meets the policy, was typed twice and is another, that
    its hash is what the account now has and the other accounts are as they were, and
    that from then on no other session of the person is live, nor one they opened as
    somebody else. *)
Theorem ChangePassword_replaces_or_counts (out : Outside) (Hash : string → result string) (Matches : string → string → bool)
    (RFC3339 : Z → string) (policy : PasswordPolicy) (lock : Lock) (readings : nat → nat → Z)
    (others : nat → nat → MemReauth → MemReauth) (inp : PasswordChange) (e : Env Book) :
  in_order (tables e) →
  match ChangePassword out Hash Matches RFC3339 policy lock readings others inp e with
  | (Err _, e') => only_counted (tables e) (tables e')
  | (Ok _, e') =>
      checkPassword policy "new_password" (pw_NewPassword inp) = None ∧ pw_NewPassword inp = pw_Confirmation inp ∧
      ∃ acc hash keep m, b_accounts (tables e) !! pw_AccountID inp = Some acc ∧
        Matches (ac_PasswordHash acc) (pw_CurrentPassword inp) = true ∧ Matches (ac_PasswordHash acc) (pw_NewPassword inp) = false ∧
        Hash (pw_NewPassword inp) = Ok hash ∧
        b_accounts (tables e') = <[pw_AccountID inp := with_hash hash acc]> (b_accounts (tables e)) ∧
        kept out (tables e) (pw_AccountID inp) keep (pw_KeepToken inp) ∧
        signed_out (tables e') (pw_AccountID inp) keep (clock out m)
  end.
Proof.
  intros Hok. set (b0 := tables e) in *.
  enough (hoare (λ b, b = b0) (ChangePassword out Hash Matches RFC3339 policy lock readings others inp)
    (λ _ b, checkPassword policy "new_password" (pw_NewPassword inp) = None ∧ pw_NewPassword inp = pw_Confirmation inp ∧
      ∃ acc hash keep m, b_accounts b0 !! pw_AccountID inp = Some acc ∧
        Matches (ac_PasswordHash acc) (pw_CurrentPassword inp) = true ∧ Matches (ac_PasswordHash acc) (pw_NewPassword inp) = false ∧
        Hash (pw_NewPassword inp) = Ok hash ∧ b_accounts b = <[pw_AccountID inp := with_hash hash acc]> (b_accounts b0) ∧
        kept out b0 (pw_AccountID inp) keep (pw_KeepToken inp) ∧ signed_out b (pw_AccountID inp) keep (clock out m)) (only_counted b0))
    as H by exact (H e eq_refl).
  eapply h_bind; [apply (h_Get_pure out b0), only_counted_refl|]. intros acc. apply h_pure. intros Hacc.
  pose proof (ao_keyed _ _ (proj1 (proj2 Hok)) _ _ Hacc) as Hid.
  eapply h_bind; [apply h_confirm|]. intros []. apply h_pure. intros Hm. apply h_ex. intros s. set (b1 := with_reauth b0 s).
  assert (∀ b, b = b1 → only_counted b0 b) as HF by (intros b ->; by exists s).
  eapply h_bind with (R := λ _ b, checkPassword policy "new_password" (pw_NewPassword inp) = None ∧ b = b1); [by apply h_check|].
  intros []. apply h_pure. intros Hp. case_bool_decide as Hc; [by apply h_throw|].
  destruct (Matches (ac_PasswordHash acc) (pw_NewPassword inp)) eqn:Hs; [by apply h_throw|].
  eapply h_bind with (R := λ hash b, Hash (pw_NewPassword inp) = Ok hash ∧ b = b1); [by apply h_mapErr, h_lift|].
  intros hash. apply h_pure. intros Hh. rewrite Hid.
  eapply h_bind with (R := λ _ b, ∃ keep m rows ch, kept out b0 (pw_AccountID inp) keep (pw_KeepToken inp) ∧
    b = revoked_book (set_b_accounts (with_changes b1 ch) (<[pw_AccountID inp := with_hash hash acc]> (b_accounts b0)) (b_next b0))
          (pw_AccountID inp) keep (clock out m) rows).
  { eapply h_weaken; [apply (h_within out b1)|done|exact (λ _ _ H, H)|exact HF].
    eapply h_bind; [apply h_recordChange|]. intros []. apply h_ex. intros i. apply h_ex. intros m0.
    eapply h_bind with (R := λ _ b, b = set_b_accounts (with_changes b1 [mkChangeEntry i (passwordChange (pw_AccountID inp) 0) (clock out m0)])
       (<[pw_AccountID inp := with_hash hash acc]> (b_accounts b0)) (b_next b0)).
    { apply h_mapErr, h_call; [done|]. intros b ->. unfold book_SetPasswordHash, book_update. cbn [b_accounts with_changes b1 with_reauth].
      by rewrite Hacc. }
    intros []. eapply h_weaken; [apply h_revokeSessions|exact (λ b H, H)| |done]. intros p b (keep & m & rows & Hk & Hq & ->).
    exists keep, m, rows, [mkChangeEntry i (passwordChange (pw_AccountID inp) 0) (clock out m0)]. split; [exact Hk|reflexivity]. }
  intros p. apply h_ex. intros keep. apply h_ex. intros m. apply h_ex. intros rows. apply h_ex. intros ch. apply h_pure. intros Hk.
  eapply h_bind; [apply h_announce|]. intros []. eapply h_bind; [apply h_tell_more|]. intros [].
  eapply h_weaken; [apply h_tell_more|done| |exact (λ _ H, H)]. intros [] b [ns ->]. split; [done|]. split; [done|].
  exists acc, hash, keep, m. split_and!; try done.
  intros x t Hx. apply (end_rows_signed_out b0 (pw_AccountID inp) keep (clock out m)); [apply Hok|exact Hx].
Qed.

Lemma ChangePassword_replaces_or_counts_witness :
  let '(r, e') := ChangePassword calm Ok String.eqb (λ _, "") (Passwords 0) (mkLock 5 100) (λ _ _, 1000) (λ _ _ s, s)
    (mkPasswordChange 1 "long enough" "a new long one" "a new long one" "a") (mkEnv signedInBook 0) in
  r = Ok () ∧ (sr_revoked <$> b_sessions (tables e')) = [false; true; false] ∧
  ∃ acc, b_accounts (tables e') = <[1 := with_hash "a new long one" acc]> (b_accounts signedInBook).
Proof.
  set (inp := mkPasswordChange 1 "long enough" "a new long one" "a new long one" "a").
  pose (run := ChangePassword calm Ok String.eqb (λ _, "") (Passwords 0) (mkLock 5 100) (λ _ _, 1000) (λ _ _ s, s) inp (mkEnv signedInBook 0)).
  assert (run.1 = Ok ()) as E by (vm_compute; reflexivity).
  assert ((sr_revoked <$> b_sessions (tables run.2)) = [false; true; false]) as E2 by (vm_compute; reflexivity).
  pose proof (ChangePassword_replaces_or_counts calm Ok String.eqb (λ _, "") (Passwords 0) (mkLock 5 100) (λ _ _, 1000) (λ _ _ s, s)
    inp (mkEnv signedInBook 0) signedInBook_in_order) as H.
  fold run in H |- *. destruct run as [r e']. cbn [fst snd] in *. subst r. split; [done|]. split; [exact E2|].
  destruct H as (_ & _ & acc & hash & keep & m & _ & _ & _ & Hh & H & _). injection Hh as <-. exists acc. exact H.
Defined.
