(* ===== verification/UserList.v ===== *)
(** * The list of people (src/identity/account/admin.go, src/identity/identitytest/stores.go)

    The views of the list, its search, order and pages, who is locked, and the store
    that answers it. [strings.ToLower] and the text of a time are arguments. *)

From S2P Require Import Prelude Clock Apperr Codes CodeStore MemCodes Attempts SignIn MemPorts Sql Hoare Reauth AccountRules UserBook Users UsersFacts.

Local Open Scope Z_scope.

Definition OrderLogin : string := "login".
Definition OrderName : string := "name".
Definition OrderEmail : string := "email".
Definition OrderCreated : string := "created_at".

Definition LastSignInNever : string := "never".
Definition LastSignInIdle : string := "idle".

Definition ViewActive : string := "active".
Definition ViewLocked : string := "locked".
Definition ViewInactive : string := "inactive".
Definition ViewAll : string := "all".

(** [Query], without the filters of the application, which the store here ignores. *)
Record Query : Type := mkQuery {
  qu_Search : string;
  qu_Active : option bool;
  qu_Locked : option bool;
  qu_LockedIDs : list Z;
  qu_LastSignIn : string;
  qu_IdleBefore : Z;
  qu_OrderBy : string;
  qu_Desc : bool;
  qu_Page : Z;
  qu_PerPage : Z
}.

Record StatusCounts : Type := mkStatusCounts { st_Active : Z; st_Locked : Z; st_Inactive : Z }.

Definition counts_All (c : StatusCounts) : Z := st_Active c + st_Locked c + st_Inactive c.

Record ListInput : Type := mkListInput {
  li_View : string;
  li_Search : string;
  li_OrderBy : string;
  li_Desc : bool;
  li_LastSignIn : string;
  li_Paging : Paging
}.

Record Listing : Type := mkListing {
  lg_Rows : list Detail;
  lg_Total : Z;
  lg_Page : Z;
  lg_PerPage : Z;
  lg_LastPage : Z;
  lg_Counts : StatusCounts
}.

(** [strings.Contains] *)
Fixpoint Contains (s term : string) : bool :=
  String.prefix term s || match s with EmptyString => false | String _ s' => Contains s' term end.

Definition zero_byte : string := String (Utf8.byte 0) EmptyString.

Section Store.
Variables (ToLower : string → string) (RFC3339Nano : Z → string).

(** [orderKey] *)
Definition orderKey (by_ : string) (acc : Account) : string :=
  if bool_decide (by_ = OrderName) then ToLower (ac_Name acc)
  else if bool_decide (by_ = OrderEmail) then ToLower (ac_Email acc)
  else if bool_decide (by_ = OrderCreated) then RFC3339Nano (ac_CreatedAt acc)
  else ac_Login acc.

(** [matches] of a store that was given the history. *)
Definition matches (b : Book) (q : Query) (acc : Account) : bool :=
  let term := ToLower (qu_Search q) in
  if bool_decide (term ≠ "") && negb (Contains (ToLower (ac_Login acc ++ zero_byte ++ ac_Name acc ++ zero_byte ++ ac_Email acc)) term)
  then false
  else if bool_decide (qu_LastSignIn q = "") then true
  else let signed := book_LastSignIns [ac_ID acc] b !! ac_ID acc in
       if bool_decide (qu_LastSignIn q = LastSignInNever) then bool_decide (signed = None)
       else if bool_decide (qu_LastSignIn q = LastSignInIdle) then
         match signed with Some at_ => Time.Before at_ (qu_IdleBefore q) | None => false end
       else true.

Definition accepts (b : Book) (q : Query) (acc : Account) : bool :=
  matches b q acc &&
  match qu_Active q with Some active => eqb (ac_Active acc) active | None => true end &&
  match qu_Locked q with Some locked => eqb (contains (qu_LockedIDs q) (ac_ID acc)) locked | None => true end.

(** The comparison of [Search], [a] not after [b]: the key, then the id. *)
Definition order_leb (by_ : string) (desc : bool) (a b : Account) : bool :=
  let order := match String.compare (orderKey by_ a) (orderKey by_ b) with
               | Eq => Z.compare (ac_ID a) (ac_ID b)
               | c => c
               end in
  match (if desc then CompOpp order else order) with Gt => false | _ => true end.

Definition book_Search (q : Query) (b : Book) : result (list Account * Z) :=
  let rows := stable_sort (order_leb (qu_OrderBy q) (qu_Desc q)) (List.filter (accepts b q) (rowsOf (b_accounts b))) in
  let perPage := Z.max (qu_PerPage q) 1 in
  paged (Int64.wrap ((Z.max (qu_Page q) 1 - 1) * perPage)) perPage rows.

Definition count_status (q : Query) (out : StatusCounts) (a : Account) : StatusCounts :=
  if negb (ac_Active a) then mkStatusCounts (st_Active out) (st_Locked out) (st_Inactive out + 1)
  else if contains (qu_LockedIDs q) (ac_ID a) then mkStatusCounts (st_Active out) (st_Locked out + 1) (st_Inactive out)
  else mkStatusCounts (st_Active out + 1) (st_Locked out) (st_Inactive out).

Definition book_Counts (q : Query) (b : Book) : StatusCounts :=
  foldl (λ out a, if matches b q a then count_status q out a else out) (mkStatusCounts 0 0 0) (rowsOf (b_accounts b)).
End Store.

Section List_.
Variable out : Outside.
Variables (ToLower : string → string) (RFC3339Nano : Z → string).
Variables (cfg : Config) (extension : option Extension) (IdleAfter : Z).
Notation M := (stM (Env Book) error).

(** The loop of [locks]. *)
Fixpoint locks_loop (candidates : list Z) (locked : gmap Z Z) : M (gmap Z Z) :=
  match candidates with
  | [] => mret locked
  | id :: rest =>
      until ← lockedUntil out cfg id;
      locks_loop rest (match until with Some t => <[id := t]> locked | None => locked end)
  end.

Definition locks : M (gmap Z Z) :=
  now ← Now out;
  candidates ← mapErr Internal (look out (book_WrongPasswordsSince (now - For (cfg_Lock cfg))));
  locks_loop candidates ∅.

(** The query of a view, or the view that is not one. *)
Definition narrowed (view : string) (ids : list Z) (q : Query) : option Query :=
  let with_status active locked lockedIDs :=
    mkQuery (qu_Search q) active locked lockedIDs (qu_LastSignIn q) (qu_IdleBefore q) (qu_OrderBy q) (qu_Desc q)
      (qu_Page q) (qu_PerPage q) in
  if bool_decide (view = ViewActive) then Some (with_status (Some true) (Some false) ids)
  else if bool_decide (view = ViewLocked) then Some (with_status (Some true) (Some true) ids)
  else if bool_decide (view = ViewInactive) then Some (with_status (Some false) None [])
  else if bool_decide (view = ViewAll) then Some q
  else None.

Definition with_locked_ids (ids : list Z) (q : Query) : Query :=
  mkQuery (qu_Search q) (qu_Active q) (qu_Locked q) ids (qu_LastSignIn q) (qu_IdleBefore q) (qu_OrderBy q) (qu_Desc q)
    (qu_Page q) (qu_PerPage q).

Definition List_ (inp : ListInput) : M Listing :=
  let view := if bool_decide (li_View inp = "") then ViewActive else li_View inp in
  let order := if bool_decide (li_OrderBy inp = "") then OrderLogin else li_OrderBy inp in
  if negb (contains [OrderLogin; OrderName; OrderEmail; OrderCreated] order)
  then throw (invalid "order_col" ReasonListOrderInvalid ∅) else
  if negb (contains [""; LastSignInNever; LastSignInIdle] (li_LastSignIn inp))
  then throw (invalid "last_sign_in" ReasonListLastSignInInvalid ∅) else
  let paging := resolved (li_Paging inp) in
  now ← Now out;
  let q := mkQuery (Utf8.TrimSpace (li_Search inp)) None None [] (li_LastSignIn inp) (now - IdleAfter) order (li_Desc inp)
             (pg_Page paging) (pg_PerPage paging) in
  locked ← locks;
  let ids := (map_to_list locked).*1 in
  match narrowed view ids q with
  | None => throw (invalid "view" ReasonListViewInvalid ∅)
  | Some q =>
      page ← mapErr Internal (lookup_ out (book_Search ToLower RFC3339Nano q));
      counts ← mapErr Internal (look out (book_Counts ToLower (with_locked_ids ids q)));
      let rowIDs := ac_ID <$> page.1 in
      last ← mapErr Internal (look out (book_LastSignIns rowIDs));
      ext ← exts extension rowIDs;
      mret (mkListing ((λ acc, mkDetail acc (last !! ac_ID acc) (locked !! ac_ID acc) (ext !! ac_ID acc)) <$> page.1)
              page.2 (pg_Page paging) (pg_PerPage paging) (Z.max (Z.quot (page.2 + pg_PerPage paging - 1) (pg_PerPage paging)) 1) counts)
  end.
End List_.

(** * The list of people shows everybody once

    Who is locked is worked out from the wrong passwords of the last while, and the
    pages of a view show each of its people once, in order. *)

(** ** The locks *)

(** Until when the account is locked, asked at [now]. *)
Definition lockOf (cfg : Config) (b : Book) (id now : Z) : option Z :=
  LockedUntil (cfg_Lock cfg) (book_LockEvents id (After (cfg_Lock cfg)) b) now.

Definition with_wrong (since : Z) (ids : list Z) (r : SignInEntry) : list Z :=
  if bool_decide (e_Event r = WrongPassword) && Time.After (e_CreatedAt r) since && negb (contains ids (e_AccountID r))
  then ids ++ [e_AccountID r] else ids.

Lemma elem_of_with_wrong since ids rows r :
  r ∈ rows → e_Event r = WrongPassword → since < e_CreatedAt r → e_AccountID r ∈ foldl (with_wrong since) ids rows.
Proof.
  intros Hr He Hs. assert (∀ rows ids id, id ∈ ids → id ∈ foldl (with_wrong since) ids rows) as Hkeep.
  { intros rows'. induction rows' as [|x rows' IH]; intros ids' id H; [done|]. cbn. apply IH. unfold with_wrong. case_match; set_solver. }
  revert ids. induction rows as [|x rows IH]; [by apply elem_of_nil in Hr|]. intros ids. cbn.
  apply elem_of_cons in Hr as [<-|Hr]; [|by apply IH]. apply Hkeep. unfold with_wrong.
  rewrite bool_decide_eq_true_2 by done. unfold Time.After. rewrite (proj2 (Z.ltb_lt _ _) Hs). cbn.
  destruct (contains ids (e_AccountID r)) eqn:E; cbn; [by apply contains_spec|set_solver].
Qed.

(** An account that is locked had a wrong password within the length of the lock. *)
Lemma locked_is_candidate cfg b id now until :
  lock_withDefaults (cfg_Lock cfg) = cfg_Lock cfg → lockOf cfg b id now = Some until →
  id ∈ book_WrongPasswordsSince (now - For (cfg_Lock cfg)) b.
Proof.
  intros Hd H. set (l := cfg_Lock cfg) in *.
  assert (0 < After l) as HA. { rewrite <-Hd. unfold lock_withDefaults. cbn. destruct (Z.leb_spec (After l) 0); lia. }
  unfold lockOf in H. fold l in H. rewrite LockedUntil_all_wrong, Hd in H. unfold book_LockEvents in H.
  rewrite lockEvents_loop_spec in H by (done || cbn; lia). cbn [app] in H.
  destruct (Z.to_nat (After l)) as [|k] eqn:Ek; [lia|].
  destruct (List.filter _ _) as [|r rest] eqn:Ef; cbn [take] in H; [by destruct (all_wrong (S k) [])|].
  rewrite all_wrong_cons in H. destruct (bool_decide (e_Event r = WrongPassword)) eqn:Ew; [|done].
  apply bool_decide_eq_true in Ew. cbn [andb] in H. destruct (all_wrong k _); [|done]. cbn zeta in H.
  destruct (Time.Before now _) eqn:Eb; [|done]. unfold Time.Before in Eb. apply Z.ltb_lt in Eb.
  assert (r ∈ List.filter (λ r, (e_AccountID r =? id) && LockEvent (e_Event r)) (rev (b_signins b))) as Hr by (rewrite Ef; constructor).
  apply elem_of_filter_bool in Hr as [Hr [Hid%Z.eqb_eq _]%andb_true_iff].
  rewrite <-Hid. apply (elem_of_with_wrong _ []); [|done|lia].
  apply list_elem_of_In, in_rev, list_elem_of_In. done.
Qed.

(** What was found of each account so far was true when it was asked. *)
Definition true_locks (out : Outside) (cfg : Config) (b : Book) (m : gmap Z Z) : Prop :=
  ∀ id t, m !! id = Some t → ∃ n, lockOf cfg b id (clock out n) = Some t.

Lemma h_lockedUntil out cfg b0 id :
  hoare (λ b, b = b0) (lockedUntil out cfg id) (λ until b, (∃ n, until = lockOf cfg b0 id (clock out n)) ∧ b = b0) (λ b, b = b0).
Proof.
  eapply h_bind with (R := λ latest b, latest = book_LockEvents id (After (cfg_Lock cfg)) b0 ∧ b = b0).
  { apply h_mapErr, h_look; [done|]. by intros b ->. }
  intros latest. apply h_pure. intros ->. eapply h_bind with (R := λ now b, (∃ n, now = clock out n) ∧ b = b0); [apply h_Now; eauto|].
  intros now. apply h_pure. intros [n ->]. apply h_ret. intros b ->. split; [by exists n|done].
Qed.

Lemma h_locks_loop out cfg b0 candidates locked :
  true_locks out cfg b0 locked →
  hoare (λ b, b = b0) (locks_loop out cfg candidates locked)
    (λ m b, true_locks out cfg b0 m ∧ (∀ id, m !! id = None → locked !! id = None ∧
       (id ∈ candidates → ∃ n, lockOf cfg b0 id (clock out n) = None)) ∧ b = b0) (λ b, b = b0).
Proof.
  revert locked. induction candidates as [|id rest IH]; intros locked HG.
  { apply h_ret. intros b ->. split; [done|]. split; [|done]. intros id H. split; [done|]. by intros ?%elem_of_nil. }
  eapply h_bind; [apply h_lockedUntil|]. intros u. apply h_pure. intros [n ->].
  eapply h_weaken; [apply IH|done| |done].
  { destruct (lockOf cfg b0 id (clock out n)) as [t|] eqn:E; [|done]. intros j t' [[<- <-]|[_ H]]%lookup_insert_Some; eauto. }
  intros m b (Hm & Hn & ->). split; [done|]. split; [|done]. intros j Hj. destruct (Hn j Hj) as [Hl Hr].
  destruct (lockOf cfg b0 id (clock out n)) as [t|] eqn:E.
  - apply lookup_insert_None in Hl as [Hl Hne]. split; [done|]. intros [->|?]%elem_of_cons; [done|eauto].
  - split; [done|]. intros [->|?]%elem_of_cons; eauto.
Qed.

Lemma h_locks out cfg b0 :
  lock_withDefaults (cfg_Lock cfg) = cfg_Lock cfg →
  hoare (λ b, b = b0) (locks out cfg) (λ m b, b = b0 ∧ ∀ id, ∃ n, m !! id = lockOf cfg b0 id (clock out n)) (λ b, b = b0).
Proof.
  intros Hd.
  eapply h_bind with (R := λ now b, (∃ n, now = clock out n) ∧ b = b0); [apply h_Now; eauto|].
  intros now. apply h_pure. intros [n ->].
  eapply h_bind with (R := λ ids b, ids = book_WrongPasswordsSince (clock out n - For (cfg_Lock cfg)) b0 ∧ b = b0).
  { apply h_mapErr, h_look; [done|]. by intros b ->. }
  intros ids. apply h_pure. intros ->. eapply h_weaken; [apply (h_locks_loop out cfg b0)|done| |done].
  { intros id t. by rewrite lookup_empty. }
  intros m b (Hm & Hn & ->). split; [done|]. intros id. destruct (m !! id) as [t|] eqn:E.
  { destruct (Hm id t E) as [k Hk]. by exists k. }
  destruct (Hn id E) as [_ Hc]. destruct (lockOf cfg b0 id (clock out n)) as [t|] eqn:El; [|by exists n].
  destruct Hc as [k Hk]; [by eapply locked_is_candidate|]. by exists k.
Qed.

(** Asking only about the accounts that had a wrong password within the length of
    the lock loses nobody: whatever the history, the locks the list works out are,
    account by account, what the lock of the account itself answers at a moment of
    the request, and asking changes nothing. *)
Theorem locks_exact (out : Outside) (cfg : Config) (e : Env Book) :
  lock_withDefaults (cfg_Lock cfg) = cfg_Lock cfg →
  match locks out cfg e with
  | (Ok m, e') => tables e' = tables e ∧ ∀ id, ∃ n, m !! id = lockOf cfg (tables e) id (clock out n)
  | (Err _, e') => tables e' = tables e
  end.
Proof. intros Hd. exact (h_locks out cfg (tables e) Hd e eq_refl). Qed.

Definition quietly : Outside := mkOutside (λ _, None) (λ _, 1000) (λ _, false).
Definition lockAfterTwo : Config :=
  mkConfig (24 * Time.Hour) (mkLock 2 100) 10 (mkCodeRules 0 0 0 0) (mkLock 5 100) [] (mkLimits 0 0 0 0).
Definition person (id : Z) (login : string) (active : bool) : Account := mkAccount id login "" "" "" "hr" active "" 0.
Definition wrong (account at_ : Z) : SignInEntry := mkEntry 0 account WrongPassword "" "" 0 at_.

(** Of four people the second is locked, the third was once, the fourth is inactive. *)
Definition fourPeople : Book :=
  mkBook (list_to_map ((λ a, (ac_ID a, a)) <$> [person 1 "ana" true; person 2 "eva" true; person 3 "ivo" true; person 4 "zoe" false])) 5
    [wrong 3 10; wrong 3 20; wrong 2 940; wrong 1 945; wrong 2 950] [] [] (mkMemReauth ∅) emptyCodes [].

Lemma locks_exact_witness :
  (locks quietly lockAfterTwo (mkEnv fourPeople 0)).1 = Ok {[2 := 1050]} ∧
  tables (locks quietly lockAfterTwo (mkEnv fourPeople 0)).2 = fourPeople.
Proof.
  assert ((locks quietly lockAfterTwo (mkEnv fourPeople 0)).1 = Ok {[2 := 1050]}) as E by (vm_compute; reflexivity).
  split; [exact E|]. pose proof (locks_exact quietly lockAfterTwo (mkEnv fourPeople 0) eq_refl) as H.
  destruct (locks quietly lockAfterTwo (mkEnv fourPeople 0)) as [r e']. cbn [fst snd] in *. subst r. apply H.
Defined.

(** ** Pages *)

(** With no call failing, a request that reads: it answers, and leaves the tables. *)
Definition runs {A} (b : Book) (m : stM (Env Book) error A) (Q : A → Prop) : Prop :=
  ∀ n, ∃ a n', m (mkEnv b n) = (Ok a, mkEnv b n') ∧ Q a.

Section Reads.
Variables (out : Outside) (b : Book).
Hypothesis no_fault : ∀ n, fault out n = None.

Lemma runs_ret {A} (a : A) (Q : A → Prop) : Q a → runs b (mret a) Q.
Proof. intros H n. by exists a, n. Qed.

Lemma runs_bind {A B} (m : stM (Env Book) error A) (f : A → stM (Env Book) error B) R Q :
  runs b m R → (∀ a, R a → runs b (f a) Q) → runs b (m ≫= f) Q.
Proof.
  intros Hm Hf n. destruct (Hm n) as (a & n' & E & Ha). destruct (Hf a Ha n') as (a' & n'' & E' & H').
  exists a', n''. split; [|done]. unfold mbind, stM_bind. by rewrite E.
Qed.

Lemma runs_look {A} f (g : Book → A) : runs b (mapErr f (look out g)) (λ a, a = g b).
Proof. intros n. exists (g b), (S n). split; [|done]. unfold mapErr, look, call. cbn. by rewrite no_fault. Qed.

Lemma runs_lookup {A} f (g : Book → result A) a : g b = Ok a → runs b (mapErr f (lookup_ out g)) (λ x, x = a).
Proof. intros H n. exists a, (S n). split; [|done]. unfold mapErr, lookup_, call. cbn. by rewrite no_fault, H. Qed.

Lemma runs_Now : runs b (Now out) (λ now, ∃ n, now = clock out n).
Proof. intros n. exists (clock out n), (S n). eauto. Qed.

Lemma runs_exts extension ids :
  match extension with None => True | Some x => ∀ n, ∃ m, x_Ext x n ids = Ok m end → runs b (exts extension ids) (λ _, True).
Proof.
  intros H n. unfold exts. destruct extension as [x|]; [|by exists ∅, n]. destruct (H n) as [m Hm]. exists m, (S n).
  split; [|done]. unfold mapErr, ask. cbn. by rewrite Hm.
Qed.

Lemma runs_locks_loop cfg candidates locked : runs b (locks_loop out cfg candidates locked) (λ _, True).
Proof.
  revert locked. induction candidates as [|id rest IH]; intros locked; [by apply runs_ret|].
  eapply runs_bind with (R := λ _, True); [|intros; apply IH].
  eapply runs_bind; [apply runs_look|]. intros latest _. eapply runs_bind; [apply runs_Now|]. intros now _. by apply runs_ret.
Qed.

Lemma runs_locks cfg now :
  lock_withDefaults (cfg_Lock cfg) = cfg_Lock cfg → (∀ n, clock out n = now) →
  runs b (locks out cfg) (λ m, ∀ id, m !! id = lockOf cfg b id now).
Proof.
  intros Hd Hc n. assert (runs b (locks out cfg) (λ _, True)) as H.
  { eapply runs_bind; [apply runs_Now|]. intros t _. eapply runs_bind; [apply runs_look|]. intros ids _. apply runs_locks_loop. }
  destruct (H n) as (m & n' & E & _). exists m, n'. split; [done|]. pose proof (h_locks out cfg b Hd (mkEnv b n) eq_refl) as Hl.
  rewrite E in Hl. intros id. destruct (proj2 Hl id) as [k ->]. by rewrite Hc.
Qed.
End Reads.

(** Cutting a list into [k] pages loses nothing. *)
Definition pages_of {A} (per k : nat) (l : list A) : list (list A) := (λ i, take per (drop (i * per) l)) <$> seq 0 k.

Lemma pages_cover {A} (per k : nat) (l : list A) : (length l <= k * per)%nat → mjoin (pages_of per k l) = l.
Proof.
  revert l. induction k as [|k IH]; intros l Hl; [destruct l; [done|cbn in Hl; lia]|]. unfold pages_of. cbn [seq fmap list_fmap mjoin list_join].
  rewrite <-(fmap_S_seq 0 k), <-list_fmap_compose. change (drop (0 * per) l) with l. transitivity (take per l ++ drop per l); [|apply take_drop]. f_equal.
  rewrite <-(IH (drop per l)) at 1 by (rewrite length_drop; cbn in Hl; lia). f_equal. apply list_fmap_ext. intros i x _. cbn.
  by rewrite drop_drop.
Qed.

(** The status of an account at [now]. *)
Definition status (cfg : Config) (b : Book) (now : Z) (a : Account) : string :=
  if negb (ac_Active a) then ViewInactive
  else match lockOf cfg b (ac_ID a) now with Some _ => ViewLocked | None => ViewActive end.

Definition in_view (cfg : Config) (b : Book) (now : Z) (view : string) (a : Account) : bool :=
  bool_decide (view = ViewAll) || bool_decide (status cfg b now a = view).

Definition view_count (view : string) (c : StatusCounts) : Z :=
  if bool_decide (view = ViewActive) then st_Active c
  else if bool_decide (view = ViewLocked) then st_Locked c
  else if bool_decide (view = ViewInactive) then st_Inactive c
  else counts_All c.

Definition known_views : list string := [ViewActive; ViewLocked; ViewInactive; ViewAll].

(** The query of a page, before the view. *)
Definition base_query (inp : ListInput) (order : string) (IdleAfter now : Z) : Query :=
  mkQuery (Utf8.TrimSpace (li_Search inp)) None None [] (li_LastSignIn inp) (now - IdleAfter) order (li_Desc inp)
    (pg_Page (resolved (li_Paging inp))) (pg_PerPage (resolved (li_Paging inp))).

Lemma contains_keys (m : gmap Z Z) id : contains (map_to_list m).*1 id = match m !! id with Some _ => true | None => false end.
Proof.
  destruct (m !! id) as [t|] eqn:E; [apply contains_spec, list_elem_of_fmap; exists (id, t); by rewrite elem_of_map_to_list|].
  destruct (contains _ id) eqn:Ec; [|done]. apply contains_spec, list_elem_of_fmap in Ec as ([i t] & -> & H%elem_of_map_to_list).
  cbn in E. congruence.
Qed.

Section Views.
Variables (ToLower : string → string) (cfg : Config) (b : Book) (now : Z) (locked : gmap Z Z).
Hypothesis exact_locks : ∀ id, locked !! id = lockOf cfg b id now.
Let ids := (map_to_list locked).*1.

Lemma narrowed_accepts view q q' a :
  qu_Active q = None → qu_Locked q = None → narrowed view ids q = Some q' →
  accepts ToLower b q' a = matches ToLower b q a && in_view cfg b now view a.
Proof.
  intros Ha Hl H. unfold in_view, status. unfold narrowed in H.
  assert (contains ids (ac_ID a) = match lockOf cfg b (ac_ID a) now with Some _ => true | None => false end) as Hc
    by (unfold ids; by rewrite contains_keys, exact_locks).
  repeat case_bool_decide; subst; try done; injection H as <-; unfold accepts; cbn [qu_Active qu_Locked qu_LockedIDs];
    rewrite ?Ha, ?Hl, ?Hc, ?andb_true_r; unfold matches; cbn [qu_Search qu_LastSignIn qu_IdleBefore];
    destruct (ac_Active a), (lockOf cfg b (ac_ID a) now); cbn in *; rewrite ?andb_true_r, ?andb_false_r; try done.
Qed.

Lemma count_view view q rows c :
  view ∈ known_views →
  view_count view (foldl (λ out a, if matches ToLower b q a then count_status (with_locked_ids ids q) out a else out) c rows) =
  view_count view c + Z.of_nat (length (List.filter (λ a, matches ToLower b q a && in_view cfg b now view a) rows)).
Proof.
  intros Hv. revert c. induction rows as [|a rows IH]; intros c; cbn [foldl List.filter]; [cbn; lia|]. rewrite IH.
  destruct (matches ToLower b q a); cbn [andb]; [|done]. unfold count_status. cbn [qu_LockedIDs with_locked_ids].
  unfold ids. rewrite contains_keys, exact_locks.
  assert (∀ n, view_count view (if negb (ac_Active a) then mkStatusCounts (st_Active c) (st_Locked c) (st_Inactive c + 1)
    else if match lockOf cfg b (ac_ID a) now with Some _ => true | None => false end
    then mkStatusCounts (st_Active c) (st_Locked c + 1) (st_Inactive c) else mkStatusCounts (st_Active c + 1) (st_Locked c) (st_Inactive c)) + n
    = view_count view c + ((if in_view cfg b now view a then 1 else 0) + n)) as ->; [|destruct (in_view cfg b now view a); cbn; lia].
  intros n. unfold in_view, status, view_count, counts_All.
  repeat (apply elem_of_cons in Hv as [->|Hv]); [..|by apply elem_of_nil in Hv];
    destruct (ac_Active a), (lockOf cfg b (ac_ID a) now); cbn; repeat case_bool_decide; try done; cbn in *; try done; lia.
Qed.
End Views.

(** ** The order of the rows *)

Section Order.
Variables (ToLower : string → string) (Nano : Z → string) (by_ : string).
Notation key := (orderKey ToLower Nano by_).
Notation leb := (order_leb ToLower Nano by_).

Lemma order_desc a c : leb true a c = leb false c a.
Proof.
  unfold order_leb. rewrite (String.compare_antisym (key c)). rewrite (Z.compare_antisym (ac_ID a) (ac_ID c)).
  by destruct (String.compare (key a) (key c)).
Qed.

Lemma compare_refl k : String.compare k k = Eq.
Proof. pose proof (String.compare_antisym k k) as H. by destruct (String.compare k k). Qed.

Lemma order_total a c : leb false a c = false → leb false c a = true.
Proof.
  unfold order_leb. rewrite (String.compare_antisym (key c)), (Z.compare_antisym (ac_ID a) (ac_ID c)).
  destruct (String.compare (key a) (key c)); cbn; try done. by destruct (ac_ID a ?= ac_ID c).
Qed.

Lemma order_lt_trans a c d :
  String.compare (key a) (key c) = Lt → String.compare (key c) (key d) = Lt → String.compare (key a) (key d) = Lt.
Proof.
  intros H1 H2. assert (String.le (key a) (key d)) as Hle.
  { transitivity (key c); unfold String.le, String.leb; [by rewrite H1|by rewrite H2]. }
  unfold String.le, String.leb in Hle. destruct (String.compare (key a) (key d)) eqn:E; [|done|done].
  apply String.compare_eq_iff in E. rewrite E, String.compare_antisym, H2 in H1. done.
Qed.

Lemma order_trans a c d : leb false a c = true → leb false c d = true → leb false a d = true.
Proof.
  unfold order_leb. intros H1 H2.
  destruct (String.compare (key a) (key c)) eqn:E1; [|destruct (String.compare (key c) (key d)) eqn:E2|done].
  - apply String.compare_eq_iff in E1. rewrite E1. destruct (String.compare (key c) (key d)); [|done|done].
    destruct (Z.compare_spec (ac_ID a) (ac_ID c)), (Z.compare_spec (ac_ID c) (ac_ID d)), (Z.compare_spec (ac_ID a) (ac_ID d)); done || lia.
  - apply String.compare_eq_iff in E2. by rewrite <-E2, E1.
  - by rewrite (order_lt_trans a c d).
  - done.
Qed.

Lemma order_sorted desc l : StronglySorted (λ a c, leb desc a c = true) (stable_sort (leb desc) l).
Proof.
  apply stable_sort_sorted; destruct desc; intros *; rewrite ?order_desc; eauto using order_total, order_trans.
Qed.
End Order.

(** ** The pages of a view *)

Definition at_page (inp : ListInput) (page : Z) : ListInput :=
  mkListInput (li_View inp) (li_Search inp) (li_OrderBy inp) (li_Desc inp) (li_LastSignIn inp) (mkPaging page (pg_PerPage (li_Paging inp))).

Lemma paged_page {A} (per p : Z) (l : list A) :
  1 <= per <= 100 → 1 <= p → (p - 1) * per <= Z.of_nat (length l) → Z.of_nat (length l) < 2 ^ 62 →
  paged (Int64.wrap ((Z.max p 1 - 1) * Z.max per 1)) (Z.max per 1) l =
    Ok (take (Z.to_nat per) (drop (Z.to_nat (p - 1) * Z.to_nat per) l), Z.of_nat (length l)).
Proof.
  intros Hper Hp Hle Hlen. rewrite !Z.max_l by lia. assert (2 ^ 62 + 100 <= Int64.max_value ∧ Int64.min_value < 0) as [H1 H2] by done.
  rewrite Int64.wrap_id by nia. unfold paged, slice. rewrite Z.min_l, Int64.wrap_id by nia.
  rewrite (proj2 (Z.leb_le 0 _)), (proj2 (Z.leb_le ((p - 1) * per) _)) by nia. cbn [andb]. f_equal. f_equal.
  rewrite Z2Nat.inj_mul by lia. set (k := (Z.to_nat (p - 1) * Z.to_nat per)%nat).
  assert (Z.of_nat k = (p - 1) * per) as Hk by (unfold k; rewrite Nat2Z.inj_mul, !Z2Nat.id; lia). rewrite <-Hk in *.
  destruct (Z.le_ge_cases (Z.of_nat k + per) (Z.of_nat (length l))); [rewrite Z.min_l by lia; f_equal; lia|].
  rewrite Z.min_r by lia. rewrite !take_ge; [done|rewrite length_drop; lia..].
Qed.

Section Pages.
Variables (out : Outside) (ToLower : string → string) (Nano : Z → string) (cfg : Config) (extension : option Extension) (IdleAfter now : Z).
Variable b : Book.
Hypothesis no_fault : ∀ n, fault out n = None.
Hypothesis still : ∀ n, clock out n = now.
Hypothesis extended : match extension with None => True | Some x => ∀ n ids, ∃ m, x_Ext x n ids = Ok m end.
Hypothesis defaults : lock_withDefaults (cfg_Lock cfg) = cfg_Lock cfg.
Hypothesis few : Z.of_nat (size (b_accounts b)) < 2 ^ 62.

Definition orElse (v d : string) : string := if bool_decide (v = "") then d else v.

(** Who a view shows under the search and the filter, in the order asked for. *)
Definition shown (inp : ListInput) : list Account :=
  let order := orElse (li_OrderBy inp) OrderLogin in
  stable_sort (order_leb ToLower Nano order (li_Desc inp))
    (List.filter (λ a, matches ToLower b (base_query inp order IdleAfter now) a && in_view cfg b now (orElse (li_View inp) ViewActive) a)
       (rowsOf (b_accounts b))).

Lemma few_shown inp : Z.of_nat (length (shown inp)) < 2 ^ 62.
Proof.
  eapply Z.le_lt_trans; [|exact few]. apply Nat2Z.inj_le. unfold shown. rewrite stable_sort_perm.
  etransitivity; [apply List.filter_length_le|]. unfold rowsOf. by rewrite length_fmap, length_map_to_list.
Qed.

Definition listed (inp : ListInput) (page : Z) (l : Listing) : Prop :=
  let per := pg_PerPage (li_Paging inp) in
  let total := Z.of_nat (length (shown inp)) in
  lg_Total l = total ∧ lg_LastPage l = Z.max ((total + per - 1) / per) 1 ∧
  view_count (orElse (li_View inp) ViewActive) (lg_Counts l) = total ∧
  d_Account <$> lg_Rows l = take (Z.to_nat per) (drop (Z.to_nat (page - 1) * Z.to_nat per) (shown inp)) ∧
  ∀ d, d ∈ lg_Rows l → d_LockedUntil d = lockOf cfg b (ac_ID (d_Account d)) now.

Lemma runs_List inp page :
  orElse (li_View inp) ViewActive ∈ known_views →
  orElse (li_OrderBy inp) OrderLogin ∈ [OrderLogin; OrderName; OrderEmail; OrderCreated] →
  li_LastSignIn inp ∈ [""; LastSignInNever; LastSignInIdle] →
  1 <= pg_PerPage (li_Paging inp) <= 100 → 1 <= page → (page - 1) * pg_PerPage (li_Paging inp) <= Z.of_nat (length (shown inp)) →
  runs b (List_ out ToLower Nano cfg extension IdleAfter (at_page inp page)) (listed inp page).
Proof.
  intros Hv Ho Hf Hper Hpage Hle. set (per := pg_PerPage (li_Paging inp)) in *.
  unfold List_. cbn [li_View li_OrderBy li_LastSignIn li_Paging li_Search li_Desc at_page].
  fold (orElse (li_View inp) ViewActive) (orElse (li_OrderBy inp) OrderLogin).
  set (view := orElse (li_View inp) ViewActive) in *. set (order := orElse (li_OrderBy inp) OrderLogin) in *.
  rewrite (proj2 (contains_spec _ _) Ho), (proj2 (contains_spec _ _) Hf). cbn [negb].
  fold per. assert (resolved (mkPaging page per) = mkPaging page per) as ->.
  { unfold resolved. cbn [pg_Page pg_PerPage]. rewrite !(proj2 (Z.ltb_ge _ _)) by lia. f_equal. unfold MaxPerPage. lia. }
  eapply runs_bind; [apply runs_Now|]. intros t [n ->]. rewrite still. cbn [pg_Page pg_PerPage].
  eapply runs_bind; [by apply (runs_locks out b no_fault cfg now)|]. intros locked Hl.
  set (q := mkQuery _ _ _ _ _ _ _ _ _ _). set (ids := (map_to_list locked).*1).
  destruct (narrowed view ids q) as [q'|] eqn:En.
  2:{ exfalso. unfold narrowed in En. unfold known_views in Hv. repeat case_bool_decide; try done. set_solver. }
  assert (∀ a, accepts ToLower b q' a = matches ToLower b q a && in_view cfg b now view a) as Hacc.
  { intros a. by apply (narrowed_accepts ToLower cfg b now locked Hl view q q' a). }
  assert (qu_OrderBy q' = order ∧ qu_Desc q' = li_Desc inp ∧ qu_Page q' = page ∧ qu_PerPage q' = per ∧ matches ToLower b q' = matches ToLower b q)
    as (Eo & Ed & Ep & Epp & Em).
  { unfold narrowed in En. repeat case_bool_decide; try done; injection En as <-; done. }
  assert (stable_sort (order_leb ToLower Nano (qu_OrderBy q') (qu_Desc q')) (List.filter (accepts ToLower b q') (rowsOf (b_accounts b)))
          = shown inp) as Erows.
  { rewrite Eo, Ed. unfold shown. fold order view. f_equal. apply List.filter_ext. intros a. by rewrite Hacc. }
  eapply runs_bind; [apply (runs_lookup out b no_fault)|].
  { unfold book_Search. rewrite Erows, Ep, Epp. apply paged_page; [done..|apply few_shown]. }
  intros page_ ->. eapply runs_bind; [apply (runs_look out b no_fault)|]. intros counts ->.
  eapply runs_bind; [apply (runs_look out b no_fault)|]. intros last ->.
  eapply runs_bind; [apply runs_exts; destruct extension; [intros k; apply extended|done]|]. intros ext _. apply runs_ret.
  unfold listed. cbn [lg_Total lg_LastPage lg_Counts lg_Rows fst snd]. fold per view. split_and!; [done| | | |].
  - rewrite Z.quot_div_nonneg by lia. done.
  - unfold book_Counts.
    change (view_count view (foldl (λ out a, if matches ToLower b q' a then count_status (with_locked_ids ids q) out a else out)
      (mkStatusCounts 0 0 0) (rowsOf (b_accounts b))) = Z.of_nat (length (shown inp))).
    rewrite Em, (count_view ToLower cfg b now locked Hl view q) by done. unfold shown. rewrite stable_sort_perm. fold order view.
    unfold view_count. cbn. repeat case_bool_decide; done.
  - rewrite <-list_fmap_compose. apply list_fmap_id.
  - intros d (a & -> & _)%list_elem_of_fmap. apply Hl.
Qed.
End Pages.

(** The pages of a view show each of its people once. With no call failing and
    the clock standing still, for every known view, order and filter and any number
    of rows per page: pages one to the last, one after the other, are exactly the
    accounts that match the search and the filter and whose status, worked out of the
    history, is the view's, in the order asked for; every page says the same total,
    the same last page and, beside the view, a count that is that total, and each row
    says until when it is locked. *)
Theorem List_pages_partition (out : Outside) (ToLower : string → string) (Nano : Z → string) (cfg : Config)
    (extension : option Extension) (IdleAfter now : Z) (b : Book) (inp : ListInput) :
  (∀ n, fault out n = None) → (∀ n, clock out n = now) →
  match extension with None => True | Some x => ∀ n ids, ∃ m, x_Ext x n ids = Ok m end →
  lock_withDefaults (cfg_Lock cfg) = cfg_Lock cfg → Z.of_nat (size (b_accounts b)) < 2 ^ 62 →
  orElse (li_View inp) ViewActive ∈ known_views →
  orElse (li_OrderBy inp) OrderLogin ∈ [OrderLogin; OrderName; OrderEmail; OrderCreated] →
  li_LastSignIn inp ∈ [""; LastSignInNever; LastSignInIdle] →
  1 <= pg_PerPage (li_Paging inp) <= 100 →
  let order := orElse (li_OrderBy inp) OrderLogin in
  let view := orElse (li_View inp) ViewActive in
  let per := pg_PerPage (li_Paging inp) in
  ∃ rows pages,
    rows ≡ₚ List.filter (λ a, matches ToLower b (base_query inp order IdleAfter now) a && in_view cfg b now view a) (rowsOf (b_accounts b)) ∧
    StronglySorted (λ a c, order_leb ToLower Nano order (li_Desc inp) a c = true) rows ∧ mjoin pages = rows ∧
    ∀ i page, pages !! i = Some page →
      runs b (List_ out ToLower Nano cfg extension IdleAfter (at_page inp (Z.of_nat i + 1)))
        (λ l, d_Account <$> lg_Rows l = page ∧ lg_Total l = Z.of_nat (length rows) ∧
              lg_LastPage l = Z.of_nat (length pages) ∧ view_count view (lg_Counts l) = Z.of_nat (length rows) ∧
              ∀ d, d ∈ lg_Rows l → d_LockedUntil d = lockOf cfg b (ac_ID (d_Account d)) now).
Proof.
  intros Hnf Hst Hx Hd Hfew Hv Ho Hf Hper order view per. set (rows := shown ToLower Nano cfg IdleAfter now b inp).
  set (total := Z.of_nat (length rows)). set (last := Z.max ((total + per - 1) / per) 1).
  exists rows, (pages_of (Z.to_nat per) (Z.to_nat last) rows).
  pose proof (Z.div_mod (total + per - 1) per ltac:(lia)) as Hdiv. pose proof (Z.mod_pos_bound (total + per - 1) per ltac:(lia)) as Hmod.
  split; [unfold rows, shown; apply stable_sort_perm|]. split; [apply order_sorted|].
  split; [apply pages_cover; unfold last, total in *; nia|].
  intros i page (k & Hi & [-> Hk]%lookup_seq)%list_lookup_fmap_Some. subst page. cbn in Hk.
  assert ((Z.of_nat i + 1 - 1) * per <= Z.of_nat (length rows)) as Hle by (unfold last, total in *; nia).
  intros n. destruct (runs_List out ToLower Nano cfg extension IdleAfter now b Hnf Hst Hx Hd Hfew inp (Z.of_nat i + 1)
    Hv Ho Hf Hper ltac:(lia) Hle n) as (l & n' & E & H1 & H2 & H3 & H4 & H5).
  exists l, n'. split; [done|]. unfold pages_of. rewrite length_fmap, length_seq, H1, H2, H4. split_and!; try done.
  - f_equal. f_equal. cbn. f_equal. lia.
  - fold per. fold rows. fold total. unfold last. lia.
Qed.

Lemma List_pages_partition_witness :
  ∃ rows pages, mjoin pages = rows ∧ length rows = 2%nat ∧
    ∀ i page, pages !! i = Some page →
      runs fourPeople (List_ quietly id (λ _, "") lockAfterTwo None 100 (at_page (mkListInput "" "" "" true "" (mkPaging 1 1)) (Z.of_nat i + 1)))
        (λ l, d_Account <$> lg_Rows l = page ∧ view_count ViewActive (lg_Counts l) = 2).
Proof.
  destruct (List_pages_partition quietly id (λ _, "") lockAfterTwo None 100 1000 fourPeople (mkListInput "" "" "" true "" (mkPaging 1 1)))
    as (rows & pages & Hp & Hs & Hj & Hr); try done; try (by apply contains_spec).
  assert (length rows = 2%nat) as E by (rewrite Hp; vm_compute; reflexivity).
  exists rows, pages. split; [done|]. split; [done|]. intros i page Hi n. destruct (Hr i page Hi n) as (l & n' & El & H1 & _ & _ & H2 & _).
  exists l, n'. split; [exact El|]. split; [exact H1|]. rewrite E in H2. exact H2.
Defined.

(** A page far enough out wraps the offset, and the store slices below zero. *)
Theorem far_page_panics :
  offset (mkPaging (2 ^ 57) 100) < 0 ∧
  book_Search id (λ _, "") (mkQuery "" None None [] "" 0 OrderLogin false (2 ^ 57) 100) fourPeople = Err sliceBounds.
Proof. vm_compute. done. Qed.
