(* ===== verification/Activity.v ===== *)
(** * The activity of a person (src/identity/account/activity.go)

    What a person did, by area: the areas of an application, the pages and the counts,
    over any log that keeps its promise ([ActivityLogLaws]); the log of
    src/identity/gormstore/activity.go over the audit trail, down to LIKE patterns and
    NULL, and the one in memory of src/identity/identitytest. [strings.ToLower] and how
    the database folds characters when it compares text are arguments. *)

From Stdlib Require Import Ascii.
From S2P Require Import Prelude Clock Apperr Codes CodeStore MemCodes Attempts SignIn MemPorts Sql Hoare Reauth AccountRules UserBook Users.
From stdpp Require Import list.

Local Open Scope Z_scope.

Definition ReasonActivityAreaUnknown : string := "identity.activity.area_unknown".
Definition ReasonActivityRangeInvalid : string := "identity.activity.range_invalid".

(** ** Entries, queries and days *)

Inductive ActivityAction : Set := ActivityCreated | ActivityChanged | ActivityDeleted.

Definition ActivityActionOf (ToLower : string → string) (audit : string) : ActivityAction :=
  let verb := ToLower (Utf8.TrimSpace audit) in
  if bool_decide (verb = "create") || bool_decide (verb = "created") then ActivityCreated
  else if bool_decide (verb = "delete") || bool_decide (verb = "deleted") then ActivityDeleted
  else ActivityChanged.

Record ActivityEntry : Type := mkActivityEntry {
  ae_ID : Z;
  ae_Area : string;
  ae_RecordType : string;
  ae_RecordID : Z;
  ae_Action : ActivityAction;
  ae_SignedInAs : Z;
  ae_At : Z
}.

Record RecordSet : Type := mkRecordSet { rs_Types : list string; rs_Prefixes : list string }.

Definition noRecords : RecordSet := mkRecordSet [] [].

Definition set_Empty (s : RecordSet) : bool := (length (rs_Types s) =? 0)%nat && (length (rs_Prefixes s) =? 0)%nat.

Definition set_Has (s : RecordSet) (recordType : string) : bool :=
  contains (rs_Types s) recordType || existsb (λ p, String.prefix p recordType) (rs_Prefixes s).

(** The zero [time.Time], 1 January of the year 1. *)
Definition zeroTime : Z := -62135596800 * Time.Second.
Definition IsZero (t : Z) : bool := t =? zeroTime.

Record ActivityQuery : Type := mkActivityQuery {
  aq_ActorID : Z;
  aq_Within : RecordSet;
  aq_Outside : RecordSet;
  aq_From : Z;
  aq_To : Z;
  aq_Offset : Z;
  aq_Limit : Z
}.

Record ActivityFilter : Type := mkActivityFilter { af_Area : string; af_From : Z; af_To : Z }.

(** A UTC day has 24 hours, and the epoch begins one. *)
Definition Day : Z := 24 * Time.Hour.
Definition day (t : Z) : Z := t - t mod Day.

(** [ActivityFilter.query] *)
Definition filter_query (f : ActivityFilter) (accountID : Z) : result ActivityQuery :=
  let from := if IsZero (af_From f) then zeroTime else day (af_From f) in
  let to_ := if IsZero (af_To f) then zeroTime else day (af_To f) + Day in
  if negb (IsZero from) && negb (IsZero to_) && negb (Time.Before from to_) then Err (invalid "to" ReasonActivityRangeInvalid ∅)
  else Ok (mkActivityQuery accountID noRecords noRecords from to_ 0 0).

(** ** Areas *)

Definition AccountRecord : string := "account".
Definition IdentityArea : string := "identity".
Definition OtherArea : string := "other".
Definition AllArea : string := "all".

Record ActivityArea : Type := mkActivityArea { ar_key : string; ar_set : RecordSet }.

Definition Area (key : string) : ActivityArea := mkActivityArea key noRecords.
Definition Types (a : ActivityArea) (types : list string) : ActivityArea :=
  mkActivityArea (ar_key a) (mkRecordSet (rs_Types (ar_set a) ++ types) (rs_Prefixes (ar_set a))).
Definition Prefix (a : ActivityArea) (prefixes : list string) : ActivityArea :=
  mkActivityArea (ar_key a) (mkRecordSet (rs_Types (ar_set a)) (rs_Prefixes (ar_set a) ++ prefixes)).

(** [^[a-z][a-z0-9_.]{0,31}$] *)
Definition areaKey (key : string) : bool :=
  match key with
  | EmptyString => false
  | String c rest =>
      Str.is_lower c &&
      Str.forall_char (λ d, Str.is_lower d || Str.is_digit d || bool_decide (d = "_"%char) || bool_decide (d = "."%char)) rest &&
      (String.length rest <=? 31)%nat
  end.

(** [ActivityAreas]; nil is no area. *)
Definition ActivityAreas : Type := list ActivityArea.

(** The refusals of an area that comes after areas with the keys [seen]. *)
Definition areaProblem (seen : list string) (a : ActivityArea) : option error :=
  let named := "identity: activity area " +:+ Str.fmt_q (ar_key a) in
  if negb (areaKey (ar_key a)) then
    Some (errNew (named +:+ " is not a key: use lower case words, digits, " +:+ Str.fmt_q "_" +:+ " and " +:+ Str.fmt_q "." +:+
                  ", at most 32 characters, such as " +:+ Str.fmt_q "crm"))
  else if bool_decide (ar_key a = OtherArea) || bool_decide (ar_key a = AllArea) then
    Some (errNew (named +:+ " is reserved (" +:+ Str.fmt_q "other" +:+ " is the record types no area names, " +:+ Str.fmt_q "all" +:+
                  " the count of everything): choose another key"))
  else if contains seen (ar_key a) then
    Some (errNew (named +:+ " is named twice: name each area once, with all its types"))
  else if set_Empty (ar_set a) || contains (rs_Types (ar_set a)) "" || contains (rs_Prefixes (ar_set a)) "" then
    Some (errNew (named +:+ " covers no record type: give it .Types(...) or .Prefix(...), none of them empty"))
  else None.

Fixpoint areas_loop (seen : list string) (areas : list ActivityArea) : result (list string) :=
  match areas with
  | [] => Ok seen
  | a :: rest => match areaProblem seen a with Some err => Err err | None => areas_loop (seen ++ [ar_key a]) rest end
  end.

Definition identityOnly : ActivityArea := Types (Area IdentityArea) [AccountRecord].

Definition NewActivityAreas (areas : list ActivityArea) : result ActivityAreas :=
  match areas_loop [] areas with
  | Err err => Err err
  | Ok seen => Ok (if contains seen IdentityArea then areas else areas ++ [identityOnly])
  end.

(** [ActivityAreas.all] *)
Definition areas_all (a : ActivityAreas) : list ActivityArea := match a with [] => [identityOnly] | _ => a end.

Definition areas_Keys (a : ActivityAreas) : list string := (ar_key <$> areas_all a) ++ [OtherArea].

Fixpoint areaOf_loop (areas : list ActivityArea) (recordType : string) : string :=
  match areas with
  | [] => OtherArea
  | area :: rest => if set_Has (ar_set area) recordType then ar_key area else areaOf_loop rest recordType
  end.

Definition AreaOf (a : ActivityAreas) (recordType : string) : string := areaOf_loop (areas_all a) recordType.

(** [ActivityAreas.sets]: what is within, what is outside, and whether there is such an area. *)
Fixpoint sets_loop (areas : list ActivityArea) (outside : RecordSet) (key : string) : RecordSet * RecordSet * bool :=
  match areas with
  | [] => (noRecords, outside, bool_decide (key = OtherArea))
  | area :: rest =>
      if bool_decide (ar_key area = key) then (ar_set area, outside, true)
      else sets_loop rest (mkRecordSet (rs_Types outside ++ rs_Types (ar_set area)) (rs_Prefixes outside ++ rs_Prefixes (ar_set area))) key
  end.

Definition sets (a : ActivityAreas) (key : string) : RecordSet * RecordSet * bool := sets_loop (areas_all a) noRecords key.

(** ** The screens, over a log *)

(** [ActivityLog] *)
Class ActivityLog : Type := {
  log_Activity : ActivityQuery → stM (Env Book) error (list ActivityEntry * Z);
  log_ActivityByType : ActivityQuery → stM (Env Book) error (gmap string Z)
}.

Record AreaCount : Type := mkAreaCount { ac_Area : string; ac_Count : Z }.

Definition with_area (a : ActivityAreas) (e : ActivityEntry) : ActivityEntry :=
  mkActivityEntry (ae_ID e) (AreaOf a (ae_RecordType e)) (ae_RecordType e) (ae_RecordID e) (ae_Action e) (ae_SignedInAs e) (ae_At e).

Definition narrowed_to (q : ActivityQuery) (within outside : RecordSet) : ActivityQuery :=
  mkActivityQuery (aq_ActorID q) within outside (aq_From q) (aq_To q) (aq_Offset q) (aq_Limit q).
Definition paged_by (q : ActivityQuery) (p : Paging) : ActivityQuery :=
  mkActivityQuery (aq_ActorID q) (aq_Within q) (aq_Outside q) (aq_From q) (aq_To q) (offset p) (pg_PerPage (resolved p)).

Section Screens.
Context `{!ActivityLog}.
Variable out : Outside.
Variable areas : ActivityAreas.
Notation M := (stM (Env Book) error).

(** The area of a filter, in the query. *)
Definition in_area (area : string) (q : ActivityQuery) : result ActivityQuery :=
  if bool_decide (area = "") then Ok q
  else let '(within, outside, ok) := sets areas area in
       if (ok : bool) then Ok (narrowed_to q within outside)
       else Err (invalid "area" ReasonActivityAreaUnknown {["area" := PString area; "areas" := PStrings (areas_Keys areas)]}).

(** [Admin.Activity] *)
Definition Activity (accountID : Z) (f : ActivityFilter) (p : Paging) : M (list ActivityEntry * Z) :=
  _ ← Get out accountID;
  q ← lift (filter_query f accountID);
  q ← lift (in_area (af_Area f) q);
  found ← mapErr Internal (log_Activity (paged_by q p));
  mret (with_area areas <$> found.1, found.2).

(** A range over the counts of a map. *)
Definition add_count (acc : gmap string Z * Z) (tn : string * Z) : gmap string Z * Z :=
  let key := AreaOf areas tn.1 in (<[key := default 0 (acc.1 !! key) + tn.2]> acc.1, acc.2 + tn.2).
Definition add_counts (byType : gmap string Z) : gmap string Z * Z := foldl add_count (∅, 0) (map_to_list byType).

(** [Admin.ActivityCounts] *)
Definition ActivityCounts (accountID : Z) (f : ActivityFilter) : M (list AreaCount) :=
  _ ← Get out accountID;
  q ← lift (filter_query f accountID);
  byType ← mapErr Internal (log_ActivityByType q);
  let '(counts, total) := add_counts byType in
  mret (mkAreaCount AllArea total :: ((λ key, mkAreaCount key (default 0 (counts !! key))) <$> areas_Keys areas)).
End Screens.

(** ** The log over the audit trail (src/identity/gormstore/activity.go) *)

(** A row of audit_logs, without the states; [None] is NULL. *)
Record AuditLog : Type := mkAuditLog {
  al_ID : Z;
  al_EntityType : option string;
  al_EntityID : Z;
  al_Action : string;
  al_ActorID : Z;
  al_CreatedAt : Z
}.

(** What the log reads of a row of tokens. *)
Record Token : Type := mkToken {
  tk_ID : Z;
  tk_UserID : Z;
  tk_Name : string;
  tk_LastUsedAt : Z;
  tk_ExpiresAt : Z;
  tk_CreatedAt : Z
}.

Record Trail : Type := mkTrail { tr_audit : list AuditLog; tr_tokens : list Token }.

Definition escaped (c : ascii) : bool := bool_decide (c = "!"%char) || bool_decide (c = "%"%char) || bool_decide (c = "_"%char).

(** [likeEscaper.Replace] *)
Fixpoint likeEscape (s : string) : string :=
  match s with
  | EmptyString => ""
  | String c rest => if escaped c then String "!" (String c (likeEscape rest)) else String c (likeEscape rest)
  end.

(** A predicate of some rest of the text. *)
Fixpoint some_suffix (p : string → bool) (s : string) : bool :=
  p s || match s with EmptyString => false | String _ rest => some_suffix p rest end.

Definition impersonationPrefix : string := "login-as:".

(** [partsOf] *)
Definition partsOf (name : string) : Z * string :=
  if negb (String.prefix impersonationPrefix name) then (0, name) else
  let rest := String.substring (String.length impersonationPrefix) (String.length name - String.length impersonationPrefix) name in
  let '(id, device, _) := Str.cut "|" rest in
  match Str.Atoi id with
  | Some actor => if actor <=? 0 then (0, name) else (actor, device)
  | None => (0, name)
  end.

Record window : Type := mkWindow { wi_actor : Z; wi_start : Z; wi_end : Z }.

(** [windows.at], on the windows from the last. *)
Fixpoint at_loop (w : list window) (t : Z) : Z :=
  match w with
  | [] => 0
  | one :: rest => if negb (Time.Before t (wi_start one)) && negb (Time.After t (wi_end one)) then wi_actor one else at_loop rest t
  end.
Definition windows_at (w : list window) (t : Z) : Z := at_loop (rev w) t.

Definition lastUseSlack : Z := Time.Minute.
Definition minTime (a b : Z) : Z := if Time.Before a b then a else b.

(** [millis] *)
Definition millis (t : Z) : Z := t - t mod Time.Millisecond.

(** The loop of [signedInAs]. *)
Definition windowOf (t : Token) : option window :=
  let '(actor, _) := partsOf (tk_Name t) in
  if actor =? 0 then None else
  let start := tk_CreatedAt t in
  let end_ := if Time.Before (tk_LastUsedAt t) start then start else tk_LastUsedAt t in
  Some (mkWindow actor start (minTime (tk_ExpiresAt t) (end_ + lastUseSlack))).

Section Sql.
Variable out : Outside.
Variable ToLower : string → string.
(** How the collation of the columns folds a character. *)
Variable fold : ascii → ascii.
Variable db : Trail.
Notation M := (stM (Env Book) error).

Fixpoint same_text (s t : string) : bool :=
  match s, t with
  | EmptyString, EmptyString => true
  | String c s', String d t' => bool_decide (fold c = fold d) && same_text s' t'
  | _, _ => false
  end.

(** [s LIKE pat ESCAPE '!'] *)
Fixpoint like (pat s : string) : bool :=
  match pat with
  | EmptyString => match s with EmptyString => true | _ => false end
  | String c pat' =>
      if bool_decide (c = "%"%char) then some_suffix (like pat') s
      else if bool_decide (c = "_"%char) then match s with EmptyString => false | String _ s' => like pat' s' end
      else if bool_decide (c = "!"%char) then
        match pat', s with
        | String d pat'', String x s' => bool_decide (fold d = fold x) && like pat'' s'
        | _, _ => false
        end
      else match s with EmptyString => false | String x s' => bool_decide (fold c = fold x) && like pat' s' end
  end.

(** The conditions of [match], joined by OR; a condition on NULL is NULL. *)
Definition match_parts (s : RecordSet) : list (string → bool) :=
  (match rs_Types s with [] => [] | types => [λ t, existsb (same_text t) types] end) ++
  ((λ p, like (likeEscape p +:+ "%")) <$> rs_Prefixes s).

Definition sql_match (parts : list (string → bool)) (col : option string) : option bool :=
  match col with None => None | Some t => Some (existsb (λ f, f t) parts) end.

Definition in_within (s : RecordSet) (col : option string) : bool :=
  match match_parts s with [] => true | parts => default false (sql_match parts col) end.
Definition out_of (s : RecordSet) (col : option string) : bool :=
  match match_parts s with [] => true | parts => negb (default false (sql_match parts col)) end.

(** The conditions both statements share: who, and when. *)
Definition of_actor (q : ActivityQuery) (r : AuditLog) : bool :=
  (al_ActorID r =? aq_ActorID q) &&
  (IsZero (aq_From q) || (millis (aq_From q) <=? al_CreatedAt r)) &&
  (IsZero (aq_To q) || (al_CreatedAt r <? millis (aq_To q))).

Definition selected (q : ActivityQuery) (r : AuditLog) : bool :=
  of_actor q r && in_within (aq_Within q) (al_EntityType r) && out_of (aq_Outside q) (al_EntityType r).

(** [ORDER BY created_at DESC, id DESC] *)
Definition newest_first (x y : AuditLog) : bool :=
  (al_CreatedAt y <? al_CreatedAt x) || ((al_CreatedAt x =? al_CreatedAt y) && (al_ID y <=? al_ID x)).

Definition oldest_first (x y : Token) : bool :=
  (tk_CreatedAt x <? tk_CreatedAt y) || ((tk_CreatedAt x =? tk_CreatedAt y) && (tk_ID x <=? tk_ID y)).

Definition signedInWindows (accountID : Z) : list window :=
  omap windowOf (stable_sort oldest_first
    (List.filter (λ t, (tk_UserID t =? accountID) && like (likeEscape impersonationPrefix +:+ "%") (tk_Name t)) (tr_tokens db))).

Definition entryOf (windows : list window) (r : AuditLog) : ActivityEntry :=
  mkActivityEntry (al_ID r) "" (default "" (al_EntityType r)) (al_EntityID r) (ActivityActionOf ToLower (al_Action r))
    (windows_at windows (al_CreatedAt r)) (al_CreatedAt r).

(** A statement that reads the trail. *)
Definition select_ {A} (a : A) : M A := look out (λ _, a).

(** [ActivityLog.Activity]; an offset below one is no OFFSET. *)
Definition sql_Activity (q : ActivityQuery) : M (list ActivityEntry * Z) :=
  let found := List.filter (selected q) (tr_audit db) in
  total ← select_ (Z.of_nat (length found));
  rows ← select_ (take (Z.to_nat (aq_Limit q)) (drop (Z.to_nat (aq_Offset q)) (stable_sort newest_first found)));
  if (length rows =? 0)%nat then mret ([], total) else
  windows ← select_ (signedInWindows (aq_ActorID q));
  mret (entryOf windows <$> rows, total).

(** [GROUP BY COALESCE(entity_type, '')]: one row per text as compared, under the text of one of its rows. *)
Fixpoint count_in (t : string) (groups : list (string * Z)) : list (string * Z) :=
  match groups with
  | [] => [(t, 1)]
  | (g, n) :: rest => if same_text g t then (g, n + 1) :: rest else (g, n) :: count_in t rest
  end.

Definition groups_of (rows : list AuditLog) : list (string * Z) :=
  foldr (λ r, count_in (default "" (al_EntityType r))) [] rows.

(** [ActivityLog.ActivityByType] *)
Definition sql_ActivityByType (q : ActivityQuery) : M (gmap string Z) :=
  rows ← select_ (groups_of (List.filter (of_actor q) (tr_audit db)));
  mret (foldl (λ m (g : string * Z), <[g.1 := g.2]> m) ∅ rows).
End Sql.

(** [NewActivityLog] *)
Definition SqlActivityLog (out : Outside) (ToLower : string → string) (fold : ascii → ascii) (db : Trail) : ActivityLog := {|
  log_Activity := sql_Activity out ToLower fold db;
  log_ActivityByType := sql_ActivityByType out fold db
|}.

(** ** The log in memory (src/identity/identitytest/stores.go) *)

Definition action_text (a : ChangeAction) : string :=
  match a with
  | ChangeCreated => "created" | ChangeUpdated => "updated" | ChangeDeactivated => "deactivated" | ChangeActivated => "activated"
  | ChangePassword_ => "password" | ChangeEmail => "email" | ChangeProfile => "profile"
  end.

Definition maxTime (a b : Z) : Z := if Time.After a b then a else b.

(** The window of a session that was opened by signing in as [actorID]. *)
Definition book_window (s : Session) : window :=
  mkWindow (s_ActorID s) (s_CreatedAt s) (minTime (s_ExpiresAt s) (maxTime (s_LastUsedAt s) (s_CreatedAt s) + Time.Minute)).

Definition book_windows (actorID : Z) (b : Book) : list window :=
  book_window <$> List.filter (λ s, (s_AccountID s =? actorID) && (0 <? s_ActorID s)) (sr_Session <$> b_sessions b).

Definition change_in (q : ActivityQuery) (r : ChangeEntry) : bool :=
  (cg_ActorID (ce_Change r) =? aq_ActorID q) && (IsZero (aq_From q) || negb (Time.Before (ce_At r) (aq_From q))) &&
  (IsZero (aq_To q) || Time.Before (ce_At r) (aq_To q)).

Definition change_entry (ToLower : string → string) (w : list window) (r : ChangeEntry) : ActivityEntry :=
  mkActivityEntry (ce_ID r) "" AccountRecord (cg_AccountID (ce_Change r)) (ActivityActionOf ToLower (action_text (cg_Action (ce_Change r))))
    (windows_at w (ce_At r)) (ce_At r).

Definition book_Activity (ToLower : string → string) (q : ActivityQuery) (b : Book) : result (list ActivityEntry * Z) :=
  if (negb (set_Empty (aq_Within q)) && negb (set_Has (aq_Within q) AccountRecord)) || set_Has (aq_Outside q) AccountRecord then Ok ([], 0)
  else paged (aq_Offset q) (aq_Limit q)
         (change_entry ToLower (book_windows (aq_ActorID q) b) <$> List.filter (change_in q) (rev (b_changes b))).

Definition book_ActivityByType (q : ActivityQuery) (b : Book) : gmap string Z :=
  foldl (λ m r, if change_in q r then <[AccountRecord := default 0 (m !! AccountRecord) + 1]> m else m) ∅ (b_changes b).

Definition MemoryActivityLog (out : Outside) (ToLower : string → string) : ActivityLog := {|
  log_Activity := λ q, lookup_ out (book_Activity ToLower q);
  log_ActivityByType := λ q, look out (book_ActivityByType q)
|}.

(** ** What a log promises *)

(** A deed: who did it, and the entry that shows it. *)
Definition deed : Type := Z * ActivityEntry.

Definition in_days (q : ActivityQuery) (d : deed) : bool :=
  (d.1 =? aq_ActorID q) && (IsZero (aq_From q) || (aq_From q <=? ae_At d.2)) && (IsZero (aq_To q) || (ae_At d.2 <? aq_To q)).

Definition of_types (q : ActivityQuery) (d : deed) : bool :=
  (set_Empty (aq_Within q) || set_Has (aq_Within q) (ae_RecordType d.2)) && negb (set_Has (aq_Outside q) (ae_RecordType d.2)).

Definition deeds_of (q : ActivityQuery) (l : list deed) : list deed := List.filter (λ d, in_days q d && of_types q d) l.

(** A set that names no record type by the empty text. *)
Definition named (s : RecordSet) : Prop := "" ∉ rs_Types s ∧ "" ∉ rs_Prefixes s.

(** A query as the screens ask it. *)
Record asked (q : ActivityQuery) : Prop := {
  asked_within : named (aq_Within q);
  asked_outside : named (aq_Outside q);
  asked_limit : 1 <= aq_Limit q <= MaxPerPage;
  asked_offset : 0 <= aq_Offset q;
  asked_from : millis (aq_From q) = aq_From q;
  asked_to : millis (aq_To q) = aq_To q
}.

(** The documented behaviour of [ActivityLog], from the deeds it keeps, newest first; without a fault it answers. *)
Class ActivityLogLaws (out : Outside) (L : ActivityLog) (deeds : Book → list deed) : Prop := {
  law_answers q e :
    faultless out → asked q → Z.of_nat (length (deeds (tables e))) + MaxPerPage <= Int64.max_value →
    ∃ found, (log_Activity q e).1 = Ok found;
  law_counts_answered q e : faultless out → ∃ m, (log_ActivityByType q e).1 = Ok m;
  law_Activity q e rows total e' :
    asked q → log_Activity q e = (Ok (rows, total), e') →
    tables e' = tables e ∧
    let all := deeds_of q (deeds (tables e)) in
    total = Z.of_nat (length all) ∧
    rows = (take (Z.to_nat (aq_Limit q)) (drop (Z.to_nat (aq_Offset q)) all)).*2;
  law_ActivityByType q e m e' :
    millis (aq_From q) = aq_From q → millis (aq_To q) = aq_To q →
    log_ActivityByType q e = (Ok m, e') →
    tables e' = tables e ∧
    ∀ t, default 0 (m !! t) =
      Z.of_nat (length (List.filter (λ d, in_days q d && bool_decide (ae_RecordType d.2 = t)) (deeds (tables e))))
}.

(** *** Areas partition the record types *)

Lemma set_Has_app x y t :
  set_Has (mkRecordSet (rs_Types x ++ rs_Types y) (rs_Prefixes x ++ rs_Prefixes y)) t = set_Has x t || set_Has y t.
Proof.
  unfold set_Has. cbn. rewrite existsb_app. unfold contains. rewrite (bool_decide_ext _ (t ∈ rs_Types x ∨ t ∈ rs_Types y)) by apply elem_of_app.
  rewrite bool_decide_or. destruct (bool_decide _), (bool_decide _), (existsb _ _); reflexivity.
Qed.

(** Areas that [NewActivityAreas] accepts. *)
Record sound_areas (areas : list ActivityArea) : Prop := {
  sa_nodup : NoDup (ar_key <$> areas);
  sa_other : OtherArea ∉ ar_key <$> areas;
  sa_key : "" ∉ ar_key <$> areas;
  sa_some : Forall (λ a, set_Empty (ar_set a) = false) areas;
  sa_named : Forall (λ a, named (ar_set a)) areas
}.

Lemma areaProblem_None seen a :
  areaProblem seen a = None →
  ar_key a ≠ "" ∧ ar_key a ≠ OtherArea ∧ ar_key a ≠ AllArea ∧ ar_key a ∉ seen ∧ set_Empty (ar_set a) = false ∧ named (ar_set a).
Proof.
  unfold areaProblem. destruct (areaKey (ar_key a)) eqn:Ek; cbn [negb]; [|done].
  destruct (bool_decide (ar_key a = OtherArea)) eqn:Eo; cbn [orb]; [done|]. destruct (bool_decide (ar_key a = AllArea)) eqn:El; [done|].
  destruct (contains seen (ar_key a)) eqn:Es; [done|]. destruct (set_Empty (ar_set a)) eqn:Ee; cbn [orb]; [done|].
  destruct (contains (rs_Types _) "") eqn:Et; cbn [orb]; [done|]. destruct (contains (rs_Prefixes _) "") eqn:Ep; [done|]. intros _.
  apply bool_decide_eq_false in Eo, El, Es, Et, Ep. split; [by intros Hk; rewrite Hk in Ek|]. done.
Qed.

Lemma NoDup_after {A} (l : list A) x : NoDup l → x ∉ l → NoDup (l ++ [x]).
Proof. intros Hl Hx. apply NoDup_app. split; [done|]. split; [set_solver|]. apply NoDup_singleton. Qed.

Lemma areas_loop_Ok seen areas seen' :
  areas_loop seen areas = Ok seen' → NoDup seen →
  seen' = seen ++ (ar_key <$> areas) ∧ NoDup seen' ∧
  Forall (λ a, ar_key a ≠ "" ∧ ar_key a ≠ OtherArea ∧ set_Empty (ar_set a) = false ∧ named (ar_set a)) areas.
Proof.
  revert seen. induction areas as [|a rest IH]; intros seen; cbn; [intros [= ->] ?; by rewrite app_nil_r|].
  destruct (areaProblem seen a) eqn:Ep; [done|]. intros H Hn. apply areaProblem_None in Ep as (? & ? & ? & ? & ? & ?).
  apply IH in H as (-> & Hn' & HF); [|by apply NoDup_after].
  split; [by rewrite <-app_assoc|]. split; [done|]. by constructor.
Qed.

Lemma NewActivityAreas_sound given areas : NewActivityAreas given = Ok areas → areas ≠ [] ∧ sound_areas areas.
Proof.
  unfold NewActivityAreas. destruct (areas_loop [] given) as [seen|] eqn:E; [|done]. intros [= <-].
  apply areas_loop_Ok in E as (-> & Hn & HF); [|constructor]. cbn in *.
  assert (∀ l, l ⊆ [IdentityArea] → OtherArea ∉ (ar_key <$> given) ++ l ∧ "" ∉ (ar_key <$> given) ++ l) as Hk.
  { intros l Hl. rewrite !elem_of_app, !list_elem_of_fmap. rewrite Forall_forall in HF.
    split; (intros [(a & Ha & Hin)|Hin]; [destruct (HF a Hin) as (? & ? & _); congruence|apply Hl in Hin; set_solver]). }
  assert (Forall (λ a, set_Empty (ar_set a) = false) given ∧ Forall (λ a, named (ar_set a)) given) as [Hs Hnm].
  { split; (eapply Forall_impl; [exact HF|]); naive_solver. }
  destruct (contains _ IdentityArea) eqn:Ei.
  - apply contains_spec in Ei. split; [by intros ->; apply elem_of_nil in Ei|]. specialize (Hk [] ltac:(set_solver)). rewrite app_nil_r in Hk.
    by destruct Hk; constructor.
  - apply bool_decide_eq_false in Ei. split; [by destruct given|]. specialize (Hk [IdentityArea] ltac:(set_solver)).
    destruct Hk. constructor; rewrite ?fmap_app; [by apply NoDup_after|done|done|..];
      apply Forall_app; (split; [done|]); apply Forall_singleton; [done|split; cbn; set_solver].
Qed.

Lemma named_app x y : named x → named y → named (mkRecordSet (rs_Types x ++ rs_Types y) (rs_Prefixes x ++ rs_Prefixes y)).
Proof. unfold named. cbn. set_solver. Qed.

Lemma areaOf_loop_key areas t : areaOf_loop areas t ∈ (ar_key <$> areas) ++ [OtherArea].
Proof. induction areas as [|a rest IH]; cbn; [set_solver|]. destruct (set_Has _ _); set_solver. Qed.

(** What [sets] selects is what [AreaOf] calls the area. *)
Lemma sets_loop_spec areas outside key within outside' ok :
  sound_areas areas → named outside → sets_loop areas outside key = (within, outside', ok) →
  (ok = true ↔ key ∈ (ar_key <$> areas) ++ [OtherArea]) ∧ named within ∧ named outside' ∧
  (ok = true → ∀ t, (set_Empty within || set_Has within t) && negb (set_Has outside' t) =
                     negb (set_Has outside t) && bool_decide (areaOf_loop areas t = key)).
Proof.
  intros [Hn Ho Hk Hs Hm]. revert outside Hn Ho Hk Hs Hm. induction areas as [|a rest IH]; intros outside Hn Ho Hk Hs Hm Hout; cbn.
  - intros [= <- <- <-]. split; [rewrite bool_decide_eq_true; set_solver|]. split; [split; set_solver|]. split; [done|].
    intros <-%bool_decide_eq_true t. by rewrite bool_decide_true, andb_true_r.
  - cbn in *. apply NoDup_cons in Hn as [Hna Hn]. apply Forall_cons in Hs as [Hsa Hs], Hm as [Hma Hm].
    destruct (bool_decide (ar_key a = key)) eqn:Ea.
    + apply bool_decide_eq_true in Ea as <-. intros [= <- <- <-]. split; [split; [set_solver|done]|]. split; [done|]. split; [done|].
      intros _ t. rewrite Hsa. cbn [orb]. rewrite andb_comm. f_equal. destruct (set_Has (ar_set a) t); [by rewrite bool_decide_true|].
      symmetry. apply bool_decide_false. intros Heq. pose proof (areaOf_loop_key rest t) as Hkey. rewrite Heq in Hkey. set_solver.
    + apply bool_decide_eq_false in Ea. intros H. apply IH in H as (Hok & Hw & Ho' & Hspec); [|set_solver..|by apply named_app].
      split; [rewrite Hok; set_solver|]. split; [done|]. split; [done|]. intros Hok' t. rewrite (Hspec Hok'), set_Has_app.
      destruct (set_Has outside t), (set_Has (ar_set a) t); cbn; rewrite ?andb_false_r; try done. symmetry. by apply bool_decide_false.
Qed.

(** *** Counting by area *)

Section HowMany.
Context {A : Type}.
Implicit Types (l : list A) (p : A → bool).

Definition how_many l p : Z := Z.of_nat (length (List.filter p l)).

Lemma how_many_ext l p p' : (∀ x, x ∈ l → p x = p' x) → how_many l p = how_many l p'.
Proof. intros H. unfold how_many. do 2 f_equal. induction l as [|x l IH]; [done|]. cbn. rewrite H, IH by set_solver. done. Qed.

Lemma how_many_none l : how_many l (λ _, false) = 0.
Proof. unfold how_many. induction l as [|x l IH]; [done|]. exact IH. Qed.

Lemma how_many_all l : how_many l (λ _, true) = Z.of_nat (length l).
Proof. unfold how_many. f_equal. induction l as [|x l IH]; [done|]. exact (f_equal S IH). Qed.

Lemma how_many_split l p p' : (∀ x, p x = true → p' x = false) → how_many l (λ x, p x || p' x) = how_many l p + how_many l p'.
Proof.
  intros H. unfold how_many. induction l as [|x l IH]; [done|]. cbn. specialize (H x). destruct (p x); cbn; [rewrite H by done; cbn; lia|].
  destruct (p' x); cbn; lia.
Qed.

Lemma how_many_pos l p x : x ∈ l → p x = true → 0 < how_many l p.
Proof. intros Hx Hp. unfold how_many. assert (x ∈ List.filter p l) as H by (by apply elem_of_filter_bool). destruct (List.filter p l); [set_solver|cbn; lia]. Qed.

End HowMany.

Section Counting.
Context {A : Type} (type_ : A → string) (P : string → bool).
Implicit Types (l : list A) (kvs : list (string * Z)).

Definition sum_where kvs : Z := foldr (λ tn acc, (if P tn.1 then tn.2 else 0) + acc) 0 kvs.

Lemma sum_where_cons t n kvs : sum_where ((t, n) :: kvs) = (if P t then n else 0) + sum_where kvs.
Proof. done. Qed.

Lemma sum_where_how_many l kvs :
  NoDup kvs.*1 → (∀ t n, (t, n) ∈ kvs → n = how_many l (λ x, bool_decide (type_ x = t))) →
  sum_where kvs = how_many l (λ x, P (type_ x) && contains kvs.*1 (type_ x)).
Proof.
  induction kvs as [|[t n] kvs IH]; intros Hn Hv.
  - rewrite (how_many_ext _ _ (λ _, false)); [by rewrite how_many_none|]. intros x _. unfold contains.
    rewrite bool_decide_false by apply not_elem_of_nil. by rewrite andb_false_r.
  - rewrite fmap_cons in Hn |- *. apply NoDup_cons in Hn as [Ht Hn]. cbn [fst] in Ht |- *.
    rewrite sum_where_cons, (IH Hn) by (intros; apply Hv; set_solver). rewrite (Hv t n) by set_solver. symmetry.
    rewrite (how_many_ext _ _ (λ x, (P t && bool_decide (type_ x = t)) || (P (type_ x) && contains kvs.*1 (type_ x)))).
    + rewrite how_many_split.
      * f_equal. destruct (P t); cbn; [done|]. apply how_many_none.
      * intros x [_ ->%bool_decide_eq_true]%andb_true_iff. unfold contains. by rewrite (bool_decide_false (t ∈ kvs.*1)), andb_false_r.
    + intros x _. rewrite contains_cons. destruct (bool_decide (type_ x = t)) eqn:E; cbn.
      * apply bool_decide_eq_true in E as ->. unfold contains. rewrite (bool_decide_false (t ∈ kvs.*1)) by done. by destruct (P t).
      * by rewrite andb_false_r.
Qed.

(** Counts per type add up to what has a type that passes. *)
Lemma map_sum_how_many l (m : gmap string Z) :
  (∀ t, default 0 (m !! t) = how_many l (λ x, bool_decide (type_ x = t))) → sum_where (map_to_list m) = how_many l (λ x, P (type_ x)).
Proof.
  intros Hm. rewrite (sum_where_how_many l).
  - apply how_many_ext. intros x Hx. replace (contains _ _) with true; [by rewrite andb_true_r|]. symmetry. apply contains_spec.
    destruct (m !! type_ x) as [n|] eqn:E.
    + apply list_elem_of_fmap. exists (type_ x, n). split; [done|]. by apply elem_of_map_to_list.
    + specialize (Hm (type_ x)). rewrite E in Hm. cbn in Hm.
      pose proof (how_many_pos l (λ y, bool_decide (type_ y = type_ x)) x Hx ltac:(by apply bool_decide_true)). lia.
  - apply NoDup_fst_map_to_list.
  - intros t n Hin%elem_of_map_to_list. by rewrite <-Hm, Hin.
Qed.
End Counting.

Lemma add_count_fold areas kvs (acc : gmap string Z) n :
  (foldl (add_count areas) (acc, n) kvs).2 = n + sum_where (λ _, true) kvs ∧
  ∀ key, default 0 ((foldl (add_count areas) (acc, n) kvs).1 !! key) =
    default 0 (acc !! key) + sum_where (λ t, bool_decide (AreaOf areas t = key)) kvs.
Proof.
  revert acc n. induction kvs as [|[t n'] kvs IH]; intros acc n; [split; intros; cbn; lia|].
  destruct (IH (<[AreaOf areas t := default 0 (acc !! AreaOf areas t) + n']> acc) (n + n')) as [H1 H2].
  split; [rewrite sum_where_cons; etrans; [exact H1|lia]|]. intros key. rewrite sum_where_cons. etrans; [exact (H2 key)|].
  destruct (decide (AreaOf areas t = key)) as [<-|Hne].
  - rewrite lookup_insert_eq, bool_decide_true by done. cbn [default from_option id]. lia.
  - rewrite lookup_insert_ne, bool_decide_false by done. lia.
Qed.

Lemma add_counts_spec areas (m : gmap string Z) :
  (add_counts areas m).2 = sum_where (λ _, true) (map_to_list m) ∧
  ∀ key, default 0 ((add_counts areas m).1 !! key) = sum_where (λ t, bool_decide (AreaOf areas t = key)) (map_to_list m).
Proof.
  destruct (add_count_fold areas (map_to_list m) ∅ 0) as [H1 H2]. split; [exact H1|]. intros key. unfold add_counts. by rewrite H2, lookup_empty.
Qed.

(** *** Days *)

(** No time before the year 1. *)
Definition modern (f : ActivityFilter) : Prop := zeroTime <= af_From f ∧ zeroTime <= af_To f.

(** A range that does not end before it starts. *)
Definition forwards (f : ActivityFilter) : Prop := af_From f = zeroTime ∨ af_To f = zeroTime ∨ day (af_From f) <= day (af_To f).

(** Is the time on a day of the filter, both ends included? *)
Definition on_days (f : ActivityFilter) (t : Z) : bool :=
  (IsZero (af_From f) || (day (af_From f) <=? day t)) && (IsZero (af_To f) || (day t <=? day (af_To f))).

Lemma day_div t : day t = Day * (t / Day).
Proof. unfold day. rewrite Z.mod_eq by done. lia. Qed.

Lemma Day_pos : 0 < Day.
Proof. done. Qed.

Lemma day_zero : day zeroTime = zeroTime.
Proof. done. Qed.

Lemma day_bounds t : day t <= t < day t + Day.
Proof. unfold day. pose proof (Z.mod_pos_bound t Day Day_pos). lia. Qed.

Lemma day_mono t u : t <= u → day t <= day u.
Proof. intros H. rewrite !day_div. apply Z.mul_le_mono_nonneg_l; [done|]. by apply Z.div_le_mono. Qed.

Lemma day_idem t : day (day t) = day t.
Proof. rewrite (day_div t), day_div, (Z.mul_comm Day (t / Day)), Z.div_mul by done. apply Z.mul_comm. Qed.

Lemma from_day t u : (day u <=? t) = (day u <=? day t).
Proof.
  apply eq_true_iff_eq. rewrite !Z.leb_le. pose proof (day_bounds t). split; [|lia]. intros Hu. rewrite <-day_idem. by apply day_mono.
Qed.

Lemma until_day t u : (t <? day u + Day) = (day t <=? day u).
Proof.
  apply eq_true_iff_eq. rewrite Z.ltb_lt, Z.leb_le. pose proof (day_bounds t). split; [|lia].
  intros Hu. rewrite !day_div in *. apply Z.mul_le_mono_nonneg_l; [done|].
  assert (t / Day < u / Day + 1) by (apply Z.div_lt_upper_bound; [done|lia]). lia.
Qed.

Lemma millis_day t : millis (day t) = day t.
Proof.
  unfold millis. rewrite day_div. change Day with (86400000 * Time.Millisecond).
  rewrite Z.mul_comm, Z.mul_assoc, Z.mod_mul by done. lia.
Qed.

Lemma filter_query_Ok f accountID :
  modern f → forwards f →
  ∃ q, filter_query f accountID = Ok q ∧ aq_ActorID q = accountID ∧ aq_Within q = noRecords ∧ aq_Outside q = noRecords ∧
    millis (aq_From q) = aq_From q ∧ millis (aq_To q) = aq_To q ∧
    ∀ d, zeroTime <= ae_At d.2 → in_days q d = (d.1 =? accountID) && on_days f (ae_At d.2).
Proof.
  intros [Hf Ht] Hw. unfold filter_query.
  set (from := if IsZero (af_From f) then zeroTime else day (af_From f)).
  set (to_ := if IsZero (af_To f) then zeroTime else day (af_To f) + Day).
  assert (negb (IsZero from) && negb (IsZero to_) && negb (Time.Before from to_) = false) as ->.
  { unfold from, to_, IsZero, Time.Before. destruct (Z.eqb_spec (af_From f) zeroTime), (Z.eqb_spec (af_To f) zeroTime); try done;
      rewrite ?andb_false_r; try done. destruct Hw as [?|[?|?]]; [done..|]. pose proof Day_pos.
    rewrite (proj2 (Z.ltb_lt _ _)) by lia. by rewrite andb_false_r. }
  eexists. split; [done|]. cbn. do 3 (split; [done|]). unfold from, to_.
  split; [destruct (IsZero (af_From f)); [done|apply millis_day]|].
  split; [destruct (IsZero (af_To f)); [done|]; replace (day (af_To f) + Day) with (day (af_To f + Day)); [apply millis_day|]|].
  { rewrite !day_div. replace (af_To f + Day) with (af_To f + 1 * Day) by lia. rewrite Z.div_add by done. lia. }
  intros d Hd. unfold in_days, on_days. cbn [aq_ActorID aq_From aq_To]. rewrite <-andb_assoc. f_equal. f_equal.
  - destruct (IsZero (af_From f)) eqn:E; [done|]. rewrite from_day. cbn [orb]. unfold IsZero.
    destruct (Z.eqb_spec (day (af_From f)) zeroTime) as [->|]; [|done]. cbn. symmetry. apply Z.leb_le. rewrite <-day_zero. by apply day_mono.
  - destruct (IsZero (af_To f)) eqn:E; [done|]. rewrite until_day. cbn [orb]. unfold IsZero.
    apply day_mono in Ht. rewrite day_zero in Ht. pose proof Day_pos.
    by rewrite (proj2 (Z.eqb_neq (day (af_To f) + Day) zeroTime)) by lia.
Qed.

(** *** The pages and the counts, over any log *)

(** What the person did on the days of the filter, and what of it is shown. *)
Definition deeds_on (accountID : Z) (f : ActivityFilter) (l : list deed) : list deed :=
  List.filter (λ d, (d.1 =? accountID) && on_days f (ae_At d.2)) l.

Definition area_of (areas : ActivityAreas) (d : deed) : string := AreaOf areas (ae_RecordType d.2).

Definition shown_in (areas : ActivityAreas) (area : string) (l : list deed) : list deed :=
  List.filter (λ d, bool_decide (area = "") || bool_decide (area_of areas d = area)) l.

Definition page {A} (p : Paging) (l : list A) : list A :=
  take (Z.to_nat (pg_PerPage (resolved p))) (drop (Z.to_nat ((pg_Page (resolved p) - 1) * pg_PerPage (resolved p))) l).

Definition counts_of (areas : ActivityAreas) (mine : list deed) : list AreaCount :=
  mkAreaCount AllArea (Z.of_nat (length mine)) ::
  ((λ key, mkAreaCount key (how_many mine (λ d, bool_decide (area_of areas d = key)))) <$> areas_Keys areas).

Lemma filter_ext_elem {A} (p p' : A → bool) l : (∀ x, x ∈ l → p x = p' x) → List.filter p l = List.filter p' l.
Proof. intros H. induction l as [|x l IH]; [done|]. cbn. rewrite H, IH by set_solver. done. Qed.

Lemma Get_known out e accountID a :
  faultless out → b_accounts (tables e) !! accountID = Some a → Get out accountID e = (Ok a, passed e).
Proof. intros Hf Ha. unfold Get, mapErr, lookup_, call, book_Find. by rewrite Hf, Ha. Qed.

Lemma paged_by_asked q p :
  named (aq_Within q) → named (aq_Outside q) → millis (aq_From q) = aq_From q → millis (aq_To q) = aq_To q →
  pg_Page p <= 2 ^ 56 →
  asked (paged_by q p) ∧ aq_Offset (paged_by q p) = (pg_Page (resolved p) - 1) * pg_PerPage (resolved p).
Proof.
  intros Hw Ho Hf Ht Hp. assert (1 <= pg_Page (resolved p) <= 2 ^ 56 ∧ 1 <= pg_PerPage (resolved p) <= MaxPerPage) as [H1 H2].
  { unfold resolved, MaxPerPage. cbn [pg_Page pg_PerPage]. destruct (Z.ltb_spec (pg_Page p) 1), (Z.ltb_spec (pg_PerPage p) 1); lia. }
  assert (offset p = (pg_Page (resolved p) - 1) * pg_PerPage (resolved p)) as Hoff.
  { unfold offset. apply Int64.wrap_id. unfold Int64.min_value, Int64.max_value, MaxPerPage in *. nia. }
  split; [|exact Hoff]. constructor; cbn; try done. rewrite Hoff. nia.
Qed.

Section Agree.
Context {out : Outside} {L : ActivityLog} {deeds : Book → list deed} `{!ActivityLogLaws out L deeds}.
Variables (given : list ActivityArea) (areas : ActivityAreas) (Hareas : NewActivityAreas given = Ok areas).
Variables (accountID : Z) (f : ActivityFilter) (Hmod : modern f) (Hfwd : forwards f).

Lemma areas_all_given : areas_all areas = areas ∧ sound_areas areas.
Proof. destruct (NewActivityAreas_sound _ _ Hareas) as [Hne Hs]. split; [by destruct areas|done]. Qed.

(** The query of an area selects what [AreaOf] gives it. *)
Lemma in_area_spec q :
  aq_Within q = noRecords → aq_Outside q = noRecords → af_Area f = "" ∨ af_Area f ∈ areas_Keys areas →
  ∃ q', in_area areas (af_Area f) q = Ok q' ∧ named (aq_Within q') ∧ named (aq_Outside q') ∧
    aq_ActorID q' = aq_ActorID q ∧ aq_From q' = aq_From q ∧ aq_To q' = aq_To q ∧
    ∀ d, of_types q' d = bool_decide (af_Area f = "") || bool_decide (area_of areas d = af_Area f).
Proof.
  destruct areas_all_given as [Hall Hs]. intros Hw Ho Ha. unfold in_area. destruct (bool_decide (af_Area f = "")) eqn:E.
  - exists q. rewrite Hw, Ho. split; [done|]. do 2 (split; [split; set_solver|]). do 3 (split; [done|]). intros d. unfold of_types. by rewrite Hw, Ho.
  - apply bool_decide_eq_false in E. destruct Ha as [?|Ha]; [done|]. unfold sets, areas_Keys in *. rewrite Hall in *.
    destruct (sets_loop areas noRecords (af_Area f)) as [[w o] ok] eqn:Es.
    apply sets_loop_spec in Es as (Hok & Hnw & Hno & Hspec); [|done|split; set_solver]. apply Hok in Ha as Hok'. rewrite Hok' in *.
    eexists. split; [done|]. cbn. do 5 (split; [done|]). intros d. unfold of_types, area_of, AreaOf. cbn. by rewrite (Hspec eq_refl), Hall.
Qed.

Lemma counts_add_up mine : foldr (λ c acc, ac_Count c + acc) 0 (tail (counts_of areas mine)) = Z.of_nat (length mine).
Proof.
  destruct areas_all_given as [Hall Hs]. unfold counts_of. cbn [tail].
  trans (sum_where (λ _, true) ((λ key, (key, how_many mine (λ d, bool_decide (area_of areas d = key)))) <$> areas_Keys areas)).
  { induction (areas_Keys areas) as [|k ks IH]; [done|]. rewrite !fmap_cons, sum_where_cons. cbn. by rewrite IH. }
  rewrite (sum_where_how_many (area_of areas) _ mine).
  - rewrite (how_many_ext _ _ (λ _, true)); [apply how_many_all|]. intros d _. cbn. apply contains_spec.
    rewrite <-list_fmap_compose. unfold compose. cbn. rewrite list_fmap_id. unfold areas_Keys, area_of, AreaOf. apply areaOf_loop_key.
  - rewrite <-list_fmap_compose. unfold compose. cbn. rewrite list_fmap_id. unfold areas_Keys. rewrite Hall. destruct Hs. by apply NoDup_after.
  - intros t n (k & [= -> ->] & _)%list_elem_of_fmap. done.
Qed.

Lemma Activity_answers e a p :
  faultless out → b_accounts (tables e) !! accountID = Some a → pg_Page p <= 2 ^ 56 →
  af_Area f = "" ∨ af_Area f ∈ areas_Keys areas →
  Forall (λ d, zeroTime <= ae_At d.2) (deeds (tables e)) →
  Z.of_nat (length (deeds (tables e))) + MaxPerPage <= Int64.max_value →
  let shown := shown_in areas (af_Area f) (deeds_on accountID f (deeds (tables e))) in
  ∃ e', Activity out areas accountID f p e = (Ok (with_area areas <$> (page p shown).*2, Z.of_nat (length shown)), e') ∧ tables e' = tables e.
Proof.
  intros Hf Ha Hp Harea Hat Hlen. destruct (filter_query_Ok f accountID Hmod Hfwd) as (q & Eq & Hact & Hw & Ho & Hmf & Hmt & Hdays).
  destruct (in_area_spec q Hw Ho Harea) as (q' & Eq' & Hnw & Hno & Hact' & Hf' & Ht' & Htypes).
  destruct (paged_by_asked q' p) as [Hask Hoff]; [done|done|by rewrite Hf'|by rewrite Ht'|done|].
  destruct (law_answers (paged_by q' p) (passed e) Hf Hask Hlen) as [[rows total] Hans].
  destruct (log_Activity (paged_by q' p) (passed e)) as [r e'] eqn:El. cbn in Hans. subst r.
  destruct (law_Activity _ _ _ _ _ Hask El) as (Htab & Htot & Hrows). cbn [tables passed] in Htot, Hrows.
  assert (deeds_of (paged_by q' p) (deeds (tables e)) = shown_in areas (af_Area f) (deeds_on accountID f (deeds (tables e)))) as Hd.
  { unfold deeds_of, shown_in, deeds_on. rewrite filter_filter_bool. apply filter_ext_elem. intros d Hin.
    rewrite Forall_forall in Hat. specialize (Hdays d (Hat d Hin)). rewrite <-Hdays. unfold in_days, of_types in *. cbn.
    by rewrite Hact', Hf', Ht', Htypes. }
  exists e'. split; [|done]. unfold Activity. rewrite (stM_bind_step _ _ _ _ _ (Get_known _ _ _ _ Hf Ha)).
  rewrite (stM_bind_step _ _ _ q (passed e)) by (unfold lift; by rewrite Eq). rewrite (stM_bind_step _ _ _ q' (passed e)) by (unfold lift; by rewrite Eq').
  rewrite (stM_bind_step _ _ _ (rows, total) e') by (unfold mapErr; by rewrite El).
  rewrite Htot, Hrows, Hd. unfold page. by rewrite Hoff.
Qed.

Lemma ActivityCounts_answers e a :
  faultless out → b_accounts (tables e) !! accountID = Some a → Forall (λ d, zeroTime <= ae_At d.2) (deeds (tables e)) →
  ∃ e', ActivityCounts out areas accountID f e = (Ok (counts_of areas (deeds_on accountID f (deeds (tables e)))), e') ∧ tables e' = tables e.
Proof.
  intros Hf Ha Hat. destruct (filter_query_Ok f accountID Hmod Hfwd) as (q & Eq & Hact & Hw & Ho & Hmf & Hmt & Hdays).
  destruct (law_counts_answered q (passed e) Hf) as [m Hans].
  destruct (log_ActivityByType q (passed e)) as [r e'] eqn:El. cbn in Hans. subst r.
  destruct (law_ActivityByType _ _ _ _ Hmf Hmt El) as (Htab & Hm). cbn [tables passed] in Hm.
  set (mine := deeds_on accountID f (deeds (tables e))).
  assert (∀ t, default 0 (m !! t) = how_many mine (λ d, bool_decide (ae_RecordType d.2 = t))) as Hm'.
  { intros t. rewrite Hm. unfold how_many, mine, deeds_on. rewrite filter_filter_bool. do 2 f_equal. apply filter_ext_elem. intros d Hin.
    rewrite Forall_forall in Hat. by rewrite (Hdays d (Hat d Hin)). }
  exists e'. split; [|done]. unfold ActivityCounts. rewrite (stM_bind_step _ _ _ _ _ (Get_known _ _ _ _ Hf Ha)).
  rewrite (stM_bind_step _ _ _ q (passed e)) by (unfold lift; by rewrite Eq).
  rewrite (stM_bind_step _ _ _ m e') by (unfold mapErr; by rewrite El).
  destruct (add_counts_spec areas m) as [H1 H2]. destruct (add_counts areas m) as [counts total]. cbn [fst snd] in H1, H2.
  rewrite H1, (map_sum_how_many _ (λ _, true) mine m Hm'), how_many_all. unfold counts_of. unfold mret, stM_ret. do 3 f_equal.
  apply list_fmap_ext. intros i key _. f_equal. by rewrite H2, (map_sum_how_many _ (λ t, bool_decide (AreaOf areas t = key)) mine m Hm').
Qed.
End Agree.

(** ** The logs keep the promise *)

(** *** The audit trail *)

Definition bytewise (fold : ascii → ascii) : Prop := ∀ c, fold c = c.

Section SqlLaws.
Variable (fold : ascii → ascii) (Hfold : bytewise fold).

Lemma same_text_spec s t : same_text fold s t = bool_decide (s = t).
Proof.
  revert t. induction s as [|c s IH]; intros [|d t]; cbn; try (symmetry; by apply bool_decide_false); [by rewrite bool_decide_true|].
  rewrite IH, !Hfold, <-bool_decide_and. apply bool_decide_ext. naive_solver.
Qed.

Lemma like_any s : like fold "%" s = true.
Proof. induction s as [|c s IH]; [done|]. cbn in *. done. Qed.

Lemma like_escape c pat s :
  like fold (String "!" (String c pat)) s = match s with EmptyString => false | String x s' => bool_decide (fold c = fold x) && like fold pat s' end.
Proof. by destruct s. Qed.

Lemma like_plain c pat s :
  escaped c = false → like fold (String c pat) s = match s with EmptyString => false | String x s' => bool_decide (fold c = fold x) && like fold pat s' end.
Proof.
  unfold escaped. intros [[E1 E2]%orb_false_iff E3]%orb_false_iff. cbn [like]. by rewrite E1, E2, E3.
Qed.

(** The escaped prefix, with anything after it, is the prefix. *)
Lemma like_prefix p s : like fold (likeEscape p +:+ "%") s = String.prefix p s.
Proof.
  revert s. induction p as [|c p IH]; intros s; [cbn [likeEscape]; rewrite Str.app_empty_l, like_any; by destruct s|].
  assert (like fold (likeEscape (String c p) +:+ "%") s =
          match s with EmptyString => false | String x s' => bool_decide (fold c = fold x) && like fold (likeEscape p +:+ "%") s' end) as ->.
  { cbn [likeEscape]. destruct (escaped c) eqn:E; rewrite !Str.app_cons; [apply like_escape|by apply like_plain]. }
  destruct s as [|x s]; [done|]. rewrite !Hfold, IH. cbn [String.prefix].
  destruct (ascii_dec c x) as [->|Hne]; [by rewrite bool_decide_true|by rewrite bool_decide_false].
Qed.

Lemma set_Has_untyped s : named s → set_Has s "" = false.
Proof.
  intros [Ht Hp]. unfold set_Has, contains. rewrite bool_decide_false by done. cbn. apply not_true_is_false. intros (p & Hin & Hpre)%existsb_elem.
  by destruct p.
Qed.

Lemma match_parts_spec s t : existsb (λ f, f t) (match_parts fold s) = set_Has s t.
Proof.
  unfold match_parts, set_Has. rewrite existsb_app. f_equal.
  - trans (existsb (same_text fold t) (rs_Types s)).
    + destruct (rs_Types s) as [|a l]; [done|]. cbn. by rewrite orb_false_r.
    + apply eq_true_iff_eq. rewrite existsb_elem, contains_spec. split.
      * intros (x & Hx & Hs). rewrite same_text_spec in Hs. by apply bool_decide_eq_true in Hs as ->.
      * intros Ht. exists t. split; [done|]. rewrite same_text_spec. by apply bool_decide_true.
  - induction (rs_Prefixes s) as [|p l IH]; [done|]. rewrite fmap_cons. cbn [existsb]. by rewrite like_prefix, IH.
Qed.

Lemma match_parts_nil s : match_parts fold s = [] ↔ set_Empty s = true.
Proof. unfold match_parts, set_Empty. destruct (rs_Types s), (rs_Prefixes s); cbn; split; congruence. Qed.

Lemma sql_match_spec s col :
  named s → default false (sql_match (match_parts fold s) col) = set_Has s (default "" col).
Proof. intros Hn. destruct col as [t|]; cbn; [apply match_parts_spec|]. symmetry. by apply set_Has_untyped. Qed.

Lemma in_within_spec s col : named s → in_within fold s col = set_Empty s || set_Has s (default "" col).
Proof.
  intros Hn. unfold in_within. rewrite <-(sql_match_spec s col Hn). destruct (match_parts fold s) eqn:E.
  - by rewrite (proj1 (match_parts_nil s) E).
  - destruct (set_Empty s) eqn:Ee; [|done]. apply match_parts_nil in Ee. congruence.
Qed.

Lemma out_of_spec s col : named s → out_of fold s col = negb (set_Has s (default "" col)).
Proof.
  intros Hn. unfold out_of. rewrite <-(sql_match_spec s col Hn). destruct (match_parts fold s) eqn:E; [|done]. by destruct col.
Qed.

Lemma count_in_spec t gs :
  NoDup gs.*1 →
  NoDup (count_in fold t gs).*1 ∧ (∀ k, k ∈ (count_in fold t gs).*1 ↔ k = t ∨ k ∈ gs.*1) ∧
  ∀ k, default 0 ((list_to_map (count_in fold t gs) : gmap string Z) !! k) =
       default 0 ((list_to_map gs : gmap string Z) !! k) + (if bool_decide (t = k) then 1 else 0).
Proof.
  induction gs as [|[g n] gs IH]; intros Hn.
  - split; [apply NoDup_singleton|]. split; [cbn; set_solver|]. intros k. cbn. destruct (decide (t = k)) as [<-|Hne].
    + by rewrite lookup_insert_eq, bool_decide_true.
    + by rewrite lookup_insert_ne, lookup_empty, bool_decide_false.
  - rewrite fmap_cons in Hn. apply NoDup_cons in Hn as [Hg Hn]. cbn [count_in fst] in *. rewrite same_text_spec.
    destruct (decide (g = t)) as [->|Hne].
    + rewrite bool_decide_true by done. rewrite fmap_cons. cbn [fst]. split; [by apply NoDup_cons|]. split; [set_solver|].
      intros k. cbn [list_to_map foldr fst snd uncurry]. destruct (decide (t = k)) as [<-|Hk].
      * by rewrite !lookup_insert_eq, bool_decide_true.
      * rewrite !lookup_insert_ne, bool_decide_false by done. lia.
    + rewrite bool_decide_false by done. destruct (IH Hn) as (H1 & H2 & H3). rewrite fmap_cons. cbn [fst].
      split; [apply NoDup_cons; split; [rewrite H2; by intros [?|?]|done]|].
      split; [intros k; rewrite elem_of_cons, H2, fmap_cons, elem_of_cons; cbn [fst]; clear; tauto|].
      intros k. cbn [list_to_map foldr fst snd uncurry]. destruct (decide (g = k)) as [<-|Hk].
      * rewrite !lookup_insert_eq, bool_decide_false by done. cbn. lia.
      * rewrite !lookup_insert_ne by done. apply H3.
Qed.

(** The groups are the texts, each with how often it occurs. *)
Lemma groups_of_spec rows :
  NoDup (groups_of fold rows).*1 ∧
  ∀ t, default 0 ((list_to_map (groups_of fold rows) : gmap string Z) !! t) = how_many rows (λ r, bool_decide (default "" (al_EntityType r) = t)).
Proof.
  induction rows as [|r rows [IHn IH]]; [split; [constructor|done]|]. cbn [groups_of foldr].
  destruct (count_in_spec (default "" (al_EntityType r)) (groups_of fold rows) IHn) as (H1 & _ & H3).
  split; [exact H1|]. intros t. etrans; [apply H3|]. rewrite IH. unfold how_many. cbn [List.filter].
  destruct (bool_decide _); cbn [length]; lia.
Qed.

Lemma foldl_insert_map (gs : list (string * Z)) :
  NoDup gs.*1 → foldl (λ m (g : string * Z), <[g.1 := g.2]> m) ∅ gs = (list_to_map gs : gmap string Z).
Proof.
  rewrite <-(map_union_empty (list_to_map gs)). generalize (∅ : gmap string Z). induction gs as [|[g n] gs IH]; intros m Hn.
  - cbn. by rewrite (left_id_L ∅ (∪)).
  - rewrite fmap_cons in Hn. apply NoDup_cons in Hn as [Hg Hn]. cbn [foldl fst snd list_to_map foldr uncurry] in *. rewrite IH by done.
    rewrite <-insert_union_l, insert_union_r; [done|]. by apply not_elem_of_list_to_map_1.
Qed.
End SqlLaws.

Lemma filter_fmap_bool {A B} (p : B → bool) (g : A → B) l : List.filter p (g <$> l) = g <$> List.filter (λ x, p (g x)) l.
Proof. induction l as [|x l IH]; [done|]. cbn. destruct (p (g x)); cbn; by rewrite <-IH. Qed.

Lemma elem_of_page {A} n m (l : list A) x : x ∈ take n (drop m l) → x ∈ l.
Proof. intros (i & Hi)%list_elem_of_lookup. rewrite lookup_take_Some, lookup_drop in Hi. destruct Hi as [Hi _]. by eapply list_elem_of_lookup_2. Qed.

Lemma newest_first_total x y : newest_first x y = false → newest_first y x = true.
Proof. unfold newest_first. rewrite orb_false_iff, andb_false_iff, orb_true_iff, andb_true_iff. lia. Qed.

Lemma newest_first_trans x y z : newest_first x y = true → newest_first y z = true → newest_first x z = true.
Proof. unfold newest_first. rewrite !orb_true_iff, !andb_true_iff. lia. Qed.

Lemma look_Ok {A} out (a : A) e : faultless out → select_ out a e = (Ok a, passed e).
Proof. intros Hf. unfold select_, look, call. by rewrite Hf. Qed.

Lemma select_inv {A} out (a : A) e b e' : select_ out a e = (Ok b, e') → b = a ∧ tables e' = tables e.
Proof. unfold select_, look, call. destruct (fault _ _); [done|]. by intros [= <- <-]. Qed.

(** The deeds of the audit trail. *)
Definition trail_deed (ToLower : string → string) (fold : ascii → ascii) (db : Trail) (r : AuditLog) : deed :=
  (al_ActorID r, entryOf ToLower (signedInWindows fold db (al_ActorID r)) r).
Definition trail_deeds (ToLower : string → string) (fold : ascii → ascii) (db : Trail) (_ : Book) : list deed :=
  trail_deed ToLower fold db <$> stable_sort newest_first (tr_audit db).

Section TrailLaws.
Variables (out : Outside) (ToLower : string → string) (fold : ascii → ascii) (db : Trail).
Hypothesis Hfold : bytewise fold.
Notation deed_of := (trail_deed ToLower fold db).

Lemma of_actor_days q r : millis (aq_From q) = aq_From q → millis (aq_To q) = aq_To q → of_actor q r = in_days q (deed_of r).
Proof. intros Hf Ht. unfold of_actor, in_days. cbn. by rewrite Hf, Ht. Qed.

Lemma selected_deed q r : asked q → selected fold q r = in_days q (deed_of r) && of_types q (deed_of r).
Proof.
  intros [Hw Ho _ _ Hf Ht]. unfold selected. rewrite (of_actor_days q r Hf Ht), in_within_spec, out_of_spec by done. by rewrite <-andb_assoc.
Qed.

Lemma deeds_of_trail q b :
  asked q → deeds_of q (trail_deeds ToLower fold db b) = deed_of <$> stable_sort newest_first (List.filter (selected fold q) (tr_audit db)).
Proof.
  intros Hq. unfold deeds_of, trail_deeds. rewrite filter_fmap_bool, <-filter_stable_sort by (apply newest_first_total || apply newest_first_trans).
  f_equal. apply filter_ext_elem. intros r _. symmetry. by apply selected_deed.
Qed.

Lemma windows_of_rows q rows :
  (∀ r, r ∈ rows → selected fold q r = true) →
  entryOf ToLower (signedInWindows fold db (aq_ActorID q)) <$> rows = (deed_of <$> rows).*2.
Proof.
  intros H. rewrite <-list_fmap_compose. apply list_fmap_ext. intros i r Hr%list_elem_of_lookup_2. cbn. do 2 f_equal.
  specialize (H r Hr). unfold selected, of_actor in H. apply andb_true_iff in H as [[[[H _]%andb_true_iff _]%andb_true_iff _]%andb_true_iff _].
  symmetry. by apply Z.eqb_eq.
Qed.

#[export] Instance SqlActivityLog_laws : ActivityLogLaws out (SqlActivityLog out ToLower fold db) (trail_deeds ToLower fold db).
Proof using Hfold.
  constructor.
  - intros q e Hf _ _. cbn. unfold sql_Activity. rewrite (stM_bind_step _ _ _ _ _ (look_Ok _ _ e Hf)).
    rewrite (stM_bind_step _ _ _ _ _ (look_Ok _ _ (passed e) Hf)). case_match; [by eexists|].
    rewrite (stM_bind_step _ _ _ _ _ (look_Ok _ _ _ Hf)). by eexists.
  - intros q e Hf. cbn. unfold sql_ActivityByType. rewrite (stM_bind_step _ _ _ _ _ (look_Ok _ _ e Hf)). by eexists.
  - intros q e rows total e' Hq H. cbn in H. unfold sql_Activity in H. rewrite deeds_of_trail by done.
    set (found := List.filter (selected fold q) (tr_audit db)) in *.
    apply stM_bind_Ok in H as (t & e1 & [-> He1]%select_inv & H). apply stM_bind_Ok in H as (r & e2 & [-> He2]%select_inv & H).
    cbv zeta. rewrite length_fmap, (Permutation_length (stable_sort_perm newest_first found)). rewrite <-fmap_drop, <-fmap_take.
    set (shown := take _ _) in *. assert (∀ r, r ∈ shown → selected fold q r = true) as Hsel.
    { intros r Hr%elem_of_page. rewrite stable_sort_perm in Hr. by apply elem_of_filter_bool in Hr as [_ Hr]. }
    rewrite <-(windows_of_rows q shown Hsel). destruct (length shown =? 0)%nat eqn:El.
    + injection H as <- <- <-. split; [congruence|]. split; [done|]. apply Nat.eqb_eq in El. by destruct shown.
    + apply stM_bind_Ok in H as (w & e3 & [-> He3]%select_inv & H). injection H as <- <- <-. split; [congruence|done].
  - intros q e m e' Hf Ht H. cbn in H. unfold sql_ActivityByType in H. apply stM_bind_Ok in H as (gs & e1 & [-> He1]%select_inv & H).
    injection H as <- <-. split; [done|]. intros t. destruct (groups_of_spec fold Hfold (List.filter (of_actor q) (tr_audit db))) as [Hn Hg].
    rewrite foldl_insert_map, Hg by done. unfold trail_deeds, how_many. rewrite filter_fmap_bool, length_fmap, filter_filter_bool.
    rewrite filter_stable_sort, stable_sort_perm by (apply newest_first_total || apply newest_first_trans).
    do 2 f_equal. apply filter_ext_elem. intros r _. by rewrite (of_actor_days q r Hf Ht).
Qed.
End TrailLaws.

(** *** The log in memory *)

Definition book_deed (ToLower : string → string) (b : Book) (r : ChangeEntry) : deed :=
  (cg_ActorID (ce_Change r), change_entry ToLower (book_windows (cg_ActorID (ce_Change r)) b) r).
Definition book_deeds (ToLower : string → string) (b : Book) : list deed := book_deed ToLower b <$> rev (b_changes b).

Lemma change_in_days ToLower b q r : change_in q r = in_days q (book_deed ToLower b r).
Proof. unfold change_in, in_days, Time.Before. cbn. by rewrite Z.leb_antisym. Qed.

Lemma slice_page {A} offset limit (l : list A) rows :
  0 <= offset → 1 <= limit <= MaxPerPage → slice offset limit l = Ok rows → rows = take (Z.to_nat limit) (drop (Z.to_nat offset) l).
Proof.
  unfold slice, MaxPerPage. intros Ho Hl. set (from := Z.min offset (Z.of_nat (length l))). intros H.
  case_match eqn:E; [|done]. injection H as <-. apply andb_true_iff in E as [_ E%Z.leb_le].
  assert (Int64.wrap (from + limit) = from + limit) as Hw.
  { destruct (decide (from + limit <= Int64.max_value)); [apply Int64.wrap_id; unfold Int64.min_value, Int64.max_value in *; lia|].
    pose proof (Int64.wrap_range (from + limit)). unfold Int64.max_value in *. destruct (Int64.wrap_congr (from + limit)) as [k Hk].
    unfold Int64.modulus, Int64.min_value in *. lia. }
  rewrite Hw in *. destruct (decide (offset <= Z.of_nat (length l))) as [Hle|Hgt].
  - replace from with offset by lia. destruct (decide (offset + limit <= Z.of_nat (length l))); [f_equal; lia|].
    rewrite !take_ge; [done|rewrite length_drop; lia..].
  - replace from with (Z.of_nat (length l)) by lia. rewrite !drop_ge by lia. by rewrite !take_nil.
Qed.

Lemma slice_answers {A} offset limit (l : list A) :
  0 <= offset → 1 <= limit <= MaxPerPage → Z.of_nat (length l) + MaxPerPage <= Int64.max_value → ∃ rows, slice offset limit l = Ok rows.
Proof.
  unfold slice, MaxPerPage. intros Ho Hl Hlen. rewrite Int64.wrap_id by (unfold Int64.min_value, Int64.max_value in *; lia).
  rewrite (proj2 (andb_true_iff _ _)); [by eexists|]. split; apply Z.leb_le; lia.
Qed.

Lemma deeds_of_book ToLower q b :
  deeds_of q (book_deeds ToLower b) =
    if (set_Empty (aq_Within q) || set_Has (aq_Within q) AccountRecord) && negb (set_Has (aq_Outside q) AccountRecord)
    then book_deed ToLower b <$> List.filter (change_in q) (rev (b_changes b)) else [].
Proof.
  unfold deeds_of, book_deeds. rewrite filter_fmap_bool. set (ok := _ && negb _).
  rewrite (filter_ext_elem _ (λ r, change_in q r && ok)) by (intros r _; by rewrite (change_in_days ToLower b)). destruct ok.
  - f_equal. apply filter_ext_elem. intros r _. apply andb_true_r.
  - induction (rev (b_changes b)) as [|r l IH]; [done|]. cbn. by rewrite andb_false_r.
Qed.

Lemma count_account q rows (m : gmap string Z) t :
  default 0 (foldl (λ m r, if change_in q r then <[AccountRecord := default 0 (m !! AccountRecord) + 1]> m else m) m rows !! t) =
  default 0 (m !! t) + how_many rows (λ r, change_in q r && bool_decide (AccountRecord = t)).
Proof.
  revert m. induction rows as [|r rows IH]; intros m; [unfold how_many; cbn [foldl List.filter length]; lia|]. cbn [foldl]. rewrite IH. unfold how_many. cbn [List.filter].
  destruct (change_in q r); cbn [andb]; [|done]. destruct (decide (AccountRecord = t)) as [<-|Hne].
  - rewrite lookup_insert_eq, bool_decide_true by done. cbn [default from_option id length]. lia.
  - rewrite lookup_insert_ne, bool_decide_false by done. done.
Qed.

#[export] Instance MemoryActivityLog_laws out ToLower : ActivityLogLaws out (MemoryActivityLog out ToLower) (book_deeds ToLower).
Proof.
  constructor; cbn [log_Activity log_ActivityByType MemoryActivityLog]; unfold lookup_, look, call.
  - intros q e Hf [_ _ Hl Ho _ _] Hlen. rewrite Hf. unfold book_Activity, paged. case_match; [by eexists|].
    destruct (slice_answers (aq_Offset q) (aq_Limit q)
      (change_entry ToLower (book_windows (aq_ActorID q) (tables e)) <$> List.filter (change_in q) (rev (b_changes (tables e))))) as [rows ->]; [done|done| |by eexists].
    rewrite length_fmap. unfold book_deeds in Hlen. rewrite length_fmap in Hlen. pose proof (List.filter_length_le (change_in q) (rev (b_changes (tables e)))). lia.
  - intros q e Hf. rewrite Hf. by eexists.
  - intros q e rows total e' [_ _ Hl Ho _ _] H. destruct (fault _ _); [done|]. injection H as H <-. split; [done|]. cbv zeta. rewrite deeds_of_book.
    unfold book_Activity in H. set (ok := (set_Empty (aq_Within q) || _) && _).
    assert (negb (set_Empty (aq_Within q)) && negb (set_Has (aq_Within q) AccountRecord) || set_Has (aq_Outside q) AccountRecord = negb ok) as Hok
      by (unfold ok; by destruct (set_Empty _), (set_Has _ _), (set_Has _ _)).
    rewrite Hok in H. destruct ok; cbn [negb] in H; [|injection H as <- <-; by rewrite drop_nil, take_nil].
    unfold paged in H. destruct (slice _ _ _) as [shown|] eqn:Es; [|done]. injection H as <- <-. rewrite !length_fmap. split; [done|].
    apply slice_page in Es as ->; [|done..]. rewrite <-!fmap_drop, <-!fmap_take, <-list_fmap_compose. apply list_fmap_ext.
    intros i r [_ Hr]%list_elem_of_lookup_2%elem_of_page%elem_of_filter_bool. unfold change_in in Hr.
    apply andb_true_iff in Hr as [[Hr%Z.eqb_eq _]%andb_true_iff _]. cbn. by rewrite Hr.
  - intros q e m e' _ _ H. destruct (fault _ _); [done|]. injection H as <- <-. split; [done|]. intros t. unfold book_ActivityByType.
    rewrite count_account, lookup_empty. cbn [default from_option]. unfold book_deeds, how_many. rewrite filter_fmap_bool, length_fmap. symmetry.
    rewrite (filter_ext_elem _ (λ r, change_in q r && bool_decide (AccountRecord = t))) by (intros r _; by rewrite (change_in_days ToLower (tables e))).
    by rewrite filter_rev, length_rev.
Qed.

(** *** Who was signed in *)

(** The window that opened last among those that hold the time; zero when none does. *)
Lemma windows_at_spec ws t :
  let holds w := negb (Time.Before t (wi_start w)) && negb (Time.After t (wi_end w)) in
  (windows_at ws t = 0 ∧ Forall (λ w, holds w = false) ws) ∨
  ∃ before w after, ws = before ++ w :: after ∧ holds w = true ∧ Forall (λ w, holds w = false) after ∧ windows_at ws t = wi_actor w.
Proof.
  intros holds. unfold windows_at. rewrite <-(rev_involutive ws). generalize (rev ws). intros l. rewrite (rev_involutive l).
  induction l as [|w l IH]; [left; split; [done|constructor]|]. cbn [at_loop rev]. fold (holds w). destruct (holds w) eqn:E.
  - right. exists (rev l), w, []. by rewrite E.
  - destruct IH as [[H0 HF]|(before & x & after & Hl & Hx & HF & Hat)].
    + left. split; [done|]. apply Forall_app. split; [done|]. by apply Forall_singleton.
    + right. exists before, x, (after ++ [w]). rewrite Hl, <-app_assoc. split; [done|]. split; [done|]. split; [|done].
      apply Forall_app. split; [done|]. by apply Forall_singleton.
Qed.

(** ** The activity of a person *)

(** C16. Over any log that keeps its promise, for a person who exists, a range that does not
    end before it starts and an area the application named, both screens answer: a page
    is exactly the part of what the person did on those days that belongs to the area,
    in the order of the log (newest first in both logs), each entry with its area, with
    how many there are; the counts are of the same deeds, each in exactly one area, so the count of an area is the total of its
    pages, that of everything the total without an area, and the areas add up to it. *)
Theorem activity_pages_match_counts {out : Outside} {L : ActivityLog} {deeds : Book → list deed} `{!ActivityLogLaws out L deeds}
    (given : list ActivityArea) (areas : ActivityAreas) (accountID : Z) (a : Account) (f : ActivityFilter) (p : Paging) (e : Env Book) :
  NewActivityAreas given = Ok areas → faultless out → b_accounts (tables e) !! accountID = Some a →
  modern f → forwards f → pg_Page p <= 2 ^ 56 → af_Area f = "" ∨ af_Area f ∈ areas_Keys areas →
  Forall (λ d, zeroTime <= ae_At d.2) (deeds (tables e)) →
  Z.of_nat (length (deeds (tables e))) + MaxPerPage <= Int64.max_value →
  let mine := deeds_on accountID f (deeds (tables e)) in
  let shown := shown_in areas (af_Area f) mine in
  ∃ total counts,
    (Activity out areas accountID f p e).1 = Ok (with_area areas <$> (page p shown).*2, total) ∧
    (ActivityCounts out areas accountID f e).1 = Ok counts ∧
    total = Z.of_nat (length shown) ∧
    counts = counts_of areas mine ∧
    mkAreaCount (if bool_decide (af_Area f = "") then AllArea else af_Area f) total ∈ counts ∧
    foldr (λ c acc, ac_Count c + acc) 0 (tail counts) = Z.of_nat (length mine).
Proof.
  intros Hareas Hf Ha Hmod Hfwd Hp Harea Hat Hlen mine shown.
  destruct (Activity_answers given areas Hareas accountID f Hmod Hfwd e a p Hf Ha Hp Harea Hat Hlen) as (e1 & E1 & _).
  destruct (ActivityCounts_answers areas accountID f Hmod Hfwd e a Hf Ha Hat) as (e2 & E2 & _).
  exists (Z.of_nat (length shown)), (counts_of areas mine). rewrite E1, E2. do 4 (split; [done|]).
  split; [|by apply (counts_add_up given)]. unfold shown, shown_in. destruct (bool_decide (af_Area f = "")) eqn:E.
  - apply elem_of_cons. left. f_equal. exact (how_many_all mine).
  - right. apply bool_decide_eq_false in E. destruct Harea as [?|Harea]; [done|]. apply list_elem_of_fmap. by exists (af_Area f).
Qed.

(** *** At a small trail *)

Definition calmly : Outside := mkOutside (λ _, None) (λ _, 0) (λ _, false).
Definition onePerson : Book := mkBook {[7 := mkAccount 7 "ana" "" "" "Ana" "" true "" 0]} 8 [] [] [] (mkMemReauth ∅) emptyCodes [].
Definition officeAreas : list ActivityArea :=
  [Prefix (Types (Area "crm") ["customers"]) ["contracts."]; Prefix (Area "odd") ["a_"]].

(** Rows of the first days of 1970, one without a type; somebody was signed in as the person on the first. *)
Definition office : Trail := mkTrail
  [mkAuditLog 1 (Some "customers") 10 "create" 7 (Day + 5 * Time.Hour); mkAuditLog 2 (Some "contracts.sale") 11 "Deleted " 7 (2 * Day);
   mkAuditLog 3 None 12 "password" 7 (2 * Day + 1); mkAuditLog 4 (Some "account") 7 "updated" 7 (3 * Day);
   mkAuditLog 5 (Some "a_b") 13 "update" 7 (Day); mkAuditLog 6 (Some "axb") 14 "update" 7 (Day); mkAuditLog 7 (Some "customers") 10 "create" 8 (Day)]
  [mkToken 1 7 "login-as:3|phone" (Day + 4 * Time.Hour) (9 * Day) (Day + Time.Hour); mkToken 2 7 "login-as:4|phone" (Day + 5 * Time.Hour) (9 * Day) (Day + 2 * Time.Hour);
   mkToken 3 7 "login-as:x" (9 * Day) (9 * Day) 0].

Definition lower_ascii (c : ascii) : ascii := if (65 <=? Str.code c) && (Str.code c <=? 90) then ascii_of_nat (Z.to_nat (Str.code c + 32)) else c.
Fixpoint lower_text (s : string) : string := match s with EmptyString => "" | String c r => String (lower_ascii c) (lower_text r) end.

Definition firstDays : ActivityFilter := mkActivityFilter "crm" (Day + 3) (2 * Day + 3).

Lemma activity_pages_match_counts_witness :
  let areas := officeAreas ++ [identityOnly] in
  let log := SqlActivityLog calmly lower_text id office in
  (@Activity log calmly areas 7 firstDays (mkPaging 1 20) (mkEnv onePerson 0)).1 =
    Ok ([mkActivityEntry 2 "crm" "contracts.sale" 11 ActivityDeleted 0 (2 * Day);
         mkActivityEntry 1 "crm" "customers" 10 ActivityCreated 4 (Day + 5 * Time.Hour)], 2) ∧
  (@ActivityCounts log calmly areas 7 firstDays (mkEnv onePerson 0)).1 =
    Ok [mkAreaCount "all" 5; mkAreaCount "crm" 2; mkAreaCount "odd" 1; mkAreaCount "identity" 0; mkAreaCount "other" 2].
Proof.
  intros areas log.
  destruct (@activity_pages_match_counts calmly log (trail_deeds lower_text id office)
    (SqlActivityLog_laws calmly lower_text id office (λ c, eq_refl)) officeAreas areas 7 (mkAccount 7 "ana" "" "" "Ana" "" true "" 0)
    firstDays (mkPaging 1 20) (mkEnv onePerson 0)) as (total & counts & H1 & H2 & H3 & H4 & _).
  - vm_compute. reflexivity.
  - intros n. reflexivity.
  - vm_compute. reflexivity.
  - split; vm_compute; discriminate.
  - right; right. vm_compute. discriminate.
  - vm_compute. discriminate.
  - right. vm_compute. left.
  - vm_compute. repeat constructor; discriminate.
  - vm_compute. discriminate.
  - rewrite H1, H2, H3, H4. vm_compute. split; reflexivity.
Defined.

(** Where the column compares without regard to case, as the default collation of utf8mb4
    does, an area also shows the rows whose type differs in case; they are labelled and
    counted elsewhere. *)
Example caseless_column_shows_more :
  let areas := officeAreas ++ [identityOnly] in
  let rows := mkTrail [mkAuditLog 1 (Some "Customers") 10 "create" 7 Day] [] in
  let log := SqlActivityLog calmly lower_text lower_ascii rows in
  let f := mkActivityFilter "crm" zeroTime zeroTime in
  (@Activity log calmly areas 7 f (mkPaging 1 20) (mkEnv onePerson 0)).1 = Ok ([mkActivityEntry 1 "other" "Customers" 10 ActivityCreated 0 Day], 1) ∧
  (@ActivityCounts log calmly areas 7 f (mkEnv onePerson 0)).1 =
    Ok [mkAreaCount "all" 1; mkAreaCount "crm" 0; mkAreaCount "odd" 0; mkAreaCount "identity" 0; mkAreaCount "other" 1].
Proof. vm_compute. split; reflexivity. Qed.
