(* ===== verification/KeyStore.v ===== *)
(** * Service accounts and their keys in SQL (src/identity/serviceaccount)

    The types of serviceaccount.go and the store of gormstore/gormstore.go, each
    statement as its meaning on the tables. A DATETIME column keeps whole seconds.
    SHA-256 is an argument. *)

From S2P Require Import Prelude Apperr Clock Sql Queue.

Local Open Scope Z_scope.

Definition ErrNotFound : string := "service account not found".
Definition ErrKeyNotFound : string := "api key not found".

Record Account : Type := mkAccount {
  ac_ID : Z;
  ac_Name : string;
  ac_Description : string;
  ac_TenantID : Z;
  ac_OwnerID : Z;
  ac_CreatedBy : Z;
  ac_CreatedAt : Z;
  ac_UpdatedBy : Z;
  ac_UpdatedAt : option Z;
  ac_DeactivatedAt : option Z;
  ac_DeactivatedBy : Z
}.

Definition Active (a : Account) : bool := bool_decide (ac_DeactivatedAt a = None).

Record Summary : Type := mkSummary { su_Account : Account; su_ActiveKeys : Z; su_LastUsedAt : option Z }.

Record Key : Type := mkKey {
  k_ID : Z;
  k_ServiceAccountID : Z;
  k_Name : string;
  k_Prefix : string;
  k_Hash : string;
  k_CreatedBy : Z;
  k_CreatedAt : Z;
  k_LastUsedAt : option Z;
  k_ExpiresAt : option Z;
  k_RevokedAt : option Z;
  k_RevokedBy : Z
}.

Definition Usable (k : Key) (at_ : Z) : bool :=
  if bool_decide (k_RevokedAt k ≠ None) then false
  else match k_ExpiresAt k with None => true | Some until => Time.Before at_ until end.

Record Visibility : Type := mkVisibility { v_All : bool; v_Tenants : list Z }.

Definition Sees (v : Visibility) (a : Account) : bool :=
  v_All v || existsb (λ id, (0 <? ac_TenantID a) && (id =? ac_TenantID a)) (v_Tenants v).

Record KeyWithAccount : Type := mkKeyWithAccount { ka_Key : Key; ka_Account : Account }.

Inductive NoticeKind : Set := NoticeExpiring | NoticeUnused.

#[export] Instance NoticeKind_eq_dec : EqDecision NoticeKind.
Proof. solve_decision. Defined.

Record KeyNotice : Type := mkKeyNotice {
  kn_OwnerID : Z;
  kn_AccountID : Z;
  kn_Account : string;
  kn_KeyID : Z;
  kn_Key : string;
  kn_Kind : NoticeKind;
  kn_Date : string;
  kn_Days : Z
}.

(** What a row of the audit trail says of the record before and after. *)
Inductive state : Type := SAccount (a : Account) | SKey (k : Key).
Record Entry : Type := mkEntry {
  en_EntityType : string;
  en_EntityID : Z;
  en_ActorID : Z;
  en_Action : string;
  en_Before : option state;
  en_After : option state
}.

(** ** The tables *)

Record accountModel : Type := mkAccountModel {
  am_Name : string;
  am_Description : string;
  am_TenantID : option Z;
  am_OwnerID : Z;
  am_CreatedBy : Z;
  am_CreatedAt : Z;
  am_UpdatedBy : Z;
  am_UpdatedAt : option Z;
  am_DeactivatedAt : option Z;
  am_DeactivatedBy : Z
}.

Record keyModel : Type := mkKeyModel {
  km_ServiceAccountID : Z;
  km_Name : string;
  km_Prefix : string;
  km_KeyHash : string;
  km_CreatedBy : Z;
  km_CreatedAt : Z;
  km_LastUsedAt : option Z;
  km_ExpiresAt : option Z;
  km_RevokedAt : option Z;
  km_RevokedBy : Z
}.

(** Accounts and keys by id with the next ids, the notices claimed, the audit trail
    and the notices published. *)
Record KeyTables : Type := mkKeyTables {
  accounts : gmap Z accountModel;
  next_account : Z;
  keys : gmap Z keyModel;
  next_key : Z;
  notices : list (Z * NoticeKind);
  trail : list Entry;
  published : list KeyNotice
}.

Definition set_accounts (t : KeyTables) (m : gmap Z accountModel) (next : Z) : KeyTables :=
  mkKeyTables m next (keys t) (next_key t) (notices t) (trail t) (published t).
Definition set_keys (t : KeyTables) (m : gmap Z keyModel) (next : Z) : KeyTables :=
  mkKeyTables (accounts t) (next_account t) m next (notices t) (trail t) (published t).

Definition account_of (id : Z) (m : accountModel) : Account :=
  mkAccount id (am_Name m) (am_Description m) (default 0 (am_TenantID m)) (am_OwnerID m) (am_CreatedBy m) (am_CreatedAt m)
    (am_UpdatedBy m) (am_UpdatedAt m) (am_DeactivatedAt m) (am_DeactivatedBy m).

Definition modelOf (a : Account) : accountModel :=
  mkAccountModel (ac_Name a) (ac_Description a) (if 0 <? ac_TenantID a then Some (ac_TenantID a) else None) (ac_OwnerID a)
    (ac_CreatedBy a) (whole (ac_CreatedAt a)) (ac_UpdatedBy a) (whole <$> ac_UpdatedAt a) (whole <$> ac_DeactivatedAt a)
    (ac_DeactivatedBy a).

(** The hash never leaves the store. *)
Definition key_of (id : Z) (m : keyModel) : Key :=
  mkKey id (km_ServiceAccountID m) (km_Name m) (km_Prefix m) "" (km_CreatedBy m) (km_CreatedAt m) (km_LastUsedAt m)
    (km_ExpiresAt m) (km_RevokedAt m) (km_RevokedBy m).

(** [revoked_at IS NULL AND (expires_at IS NULL OR expires_at > at)] *)
Definition working (m : keyModel) (at_ : Z) : bool :=
  bool_decide (km_RevokedAt m = None) && match km_ExpiresAt m with None => true | Some until => at_ <? until end.

(** The rows of a table that satisfy a test, by id. *)
Definition rows_where {V} (m : gmap Z V) (p : Z → V → bool) : list (Z * V) :=
  omap (λ id, (id,.) <$> m !! id) (select_ids m p).

Definition duplicateHash : error := errNew "UNIQUE constraint failed: service_account_keys.key_hash".

Definition kind_text (k : NoticeKind) : string := match k with NoticeExpiring => "expiring" | NoticeUnused => "unused" end.

Section Store.
Variable out : Outside.
(** The order of names in the database, its collation. *)
Variable NameLeb : string → string → bool.
Notation M := (stM (Env KeyTables) error).

Definition later (a b : option Z) : option Z :=
  match a, b with Some x, Some y => if Time.After y x then Some y else Some x | None, _ => b | _, None => a end.

(** [summaries]: two statements. *)
Definition summaries (rows : list (Z * accountModel)) (when_ : Z) : M (list Summary) :=
  match rows with
  | [] => mret []
  | _ =>
      counts ← wrapping "count active keys" (query out (λ t id,
        Z.of_nat (length (rows_where (keys t) (λ _ k, (km_ServiceAccountID k =? id) && working k (whole when_))))));
      lastUsed ← wrapping "read last use of keys" (query out (λ t id,
        foldl later None ((λ r, km_LastUsedAt r.2) <$> rows_where (keys t) (λ _ k, km_ServiceAccountID k =? id))));
      mret ((λ r, mkSummary (account_of r.1 r.2) (counts r.1) (lastUsed r.1)) <$> rows)
  end.

Definition by_name (a b : Z * accountModel) : bool := NameLeb (am_Name a.2) (am_Name b.2).

Definition store_List (visible : Visibility) (when_ : Z) : M (list Summary) :=
  if negb (v_All visible) && bool_decide (v_Tenants visible = []) then mret [] else
  rows ← wrapping "list service accounts" (query out (λ t, stable_sort by_name (rows_where (accounts t) (λ _ a,
    v_All visible || match am_TenantID a with Some id => contains (v_Tenants visible) id | None => false end))));
  summaries rows when_.

Definition store_Find (accountID when_ : Z) : M Summary :=
  row ← wrapping ("read service account " +:+ Str.fmt_d accountID) (query out (λ t, accounts t !! accountID));
  match row with
  | None => throw (errNew ErrNotFound)
  | Some row =>
      sums ← summaries [(accountID, row)] when_;
      match sums with s :: _ => mret s | [] => throw (errNew ErrNotFound) end
  end.

Definition store_Create (a : Account) : M Account :=
  wrapping "create service account" (statement out (λ t,
    (mkAccount (next_account t) (ac_Name a) (ac_Description a) (ac_TenantID a) (ac_OwnerID a) (ac_CreatedBy a) (ac_CreatedAt a)
       (ac_UpdatedBy a) (ac_UpdatedAt a) (ac_DeactivatedAt a) (ac_DeactivatedBy a),
     set_accounts t (<[next_account t := modelOf a]> (accounts t)) (next_account t + 1)))).

(** The columns [Update] selects, over the row. *)
Definition overwritten (old new : accountModel) : accountModel :=
  mkAccountModel (am_Name new) (am_Description new) (am_TenantID new) (am_OwnerID new) (am_CreatedBy old) (am_CreatedAt old)
    (am_UpdatedBy new) (am_UpdatedAt new) (am_DeactivatedAt new) (am_DeactivatedBy new).

Definition store_Update (a : Account) : M () :=
  wrapping ("update service account " +:+ Str.fmt_d (ac_ID a)) (exec out (λ t,
    set_accounts t (alter (λ old, overwritten old (modelOf a)) (ac_ID a) (accounts t)) (next_account t))).

Definition store_Keys (accountID : Z) : M (list Key) :=
  wrapping ("list keys of service account " +:+ Str.fmt_d accountID) (query out (λ t,
    (λ r, key_of r.1 r.2) <$> rev (rows_where (keys t) (λ _ k, km_ServiceAccountID k =? accountID)))).

Definition store_FindKey (accountID keyID : Z) : M Key :=
  row ← wrapping ("read key " +:+ Str.fmt_d keyID) (query out (λ t, keys t !! keyID));
  match row with
  | Some k => if km_ServiceAccountID k =? accountID then mret (key_of keyID k) else throw (errNew ErrKeyNotFound)
  | None => throw (errNew ErrKeyNotFound)
  end.

Definition hash_taken (t : KeyTables) (hash : string) : bool :=
  existsb (λ r, bool_decide (km_KeyHash r.2 = hash)) (map_to_list (keys t)).

(** The insert, which the unique index of the hashes may refuse. *)
Definition store_CreateKey (key : Key) : M Key :=
  wrapping "create key" (
    inserted ← statement out (λ t,
      if hash_taken t (k_Hash key) then (Err duplicateHash, t) else
      let row := mkKeyModel (k_ServiceAccountID key) (k_Name key) (k_Prefix key) (k_Hash key) (k_CreatedBy key) (whole (k_CreatedAt key))
                   None (whole <$> k_ExpiresAt key) None 0 in
      (Ok (mkKey (next_key t) (k_ServiceAccountID key) (k_Name key) (k_Prefix key) (k_Hash key) (k_CreatedBy key) (k_CreatedAt key)
             (k_LastUsedAt key) (k_ExpiresAt key) (k_RevokedAt key) (k_RevokedBy key)),
       set_keys t (<[next_key t := row]> (keys t)) (next_key t + 1)));
    lift inserted).

Definition revoked_row (at_ by_ : Z) (k : keyModel) : keyModel :=
  if bool_decide (km_RevokedAt k = None)
  then mkKeyModel (km_ServiceAccountID k) (km_Name k) (km_Prefix k) (km_KeyHash k) (km_CreatedBy k) (km_CreatedAt k) (km_LastUsedAt k)
         (km_ExpiresAt k) (Some (whole at_)) by_
  else k.

Definition store_RevokeKey (keyID at_ by_ : Z) : M () :=
  wrapping ("revoke key " +:+ Str.fmt_d keyID) (exec out (λ t,
    set_keys t (alter (revoked_row at_ by_) keyID (keys t)) (next_key t))).

(** The hash is unique, so there is at most one row. *)
Definition hash_row (t : KeyTables) (hash : string) : option (Z * keyModel) :=
  head (rows_where (keys t) (λ _ k, bool_decide (km_KeyHash k = hash))).

Definition FindByKeyHash (hash : string) : M (Key * Account) :=
  key ← wrapping "read key by hash" (query out (λ t, hash_row t hash));
  match key with
  | None => throw (errNew ErrKeyNotFound)
  | Some (keyID, key) =>
      account ← wrapping "read service account of key" (query out (λ t, accounts t !! km_ServiceAccountID key));
      match account with
      | None => throw (errNew ErrKeyNotFound)
      | Some account => mret (key_of keyID key, account_of (km_ServiceAccountID key) account)
      end
  end.

Definition touched_row (at_ : Z) (k : keyModel) : keyModel :=
  mkKeyModel (km_ServiceAccountID k) (km_Name k) (km_Prefix k) (km_KeyHash k) (km_CreatedBy k) (km_CreatedAt k) (Some (whole at_))
    (km_ExpiresAt k) (km_RevokedAt k) (km_RevokedBy k).

Definition TouchKey (keyID at_ : Z) : M () :=
  wrapping ("touch key " +:+ Str.fmt_d keyID) (exec out (λ t, set_keys t (alter (touched_row at_) keyID (keys t)) (next_key t))).

(** ** The notices *)

Definition activeAccount (t : KeyTables) (id : Z) : bool :=
  match accounts t !! id with Some a => bool_decide (am_DeactivatedAt a = None) | None => false end.

Definition WorkingKeys (at_ : Z) : M (list KeyWithAccount) :=
  found ← wrapping "read working keys" (query out (λ t,
    rows_where (keys t) (λ _ k, working k (whole at_) && activeAccount t (km_ServiceAccountID k))));
  match found with
  | [] => mret []
  | _ =>
      byID ← wrapping "read accounts of working keys" (query out (λ t, accounts t));
      mret (omap (λ r, mkKeyWithAccount (key_of r.1 r.2) <$> (account_of (km_ServiceAccountID r.2) <$> byID !! km_ServiceAccountID r.2)) found)
  end.

Definition NoticesSent (keyIDs : list Z) : M (Z → list NoticeKind) :=
  match keyIDs with
  | [] => mret (λ _, [])
  | _ => wrapping "read sent key notices" (query out (λ t id,
           if contains keyIDs id then omap (λ n, if n.1 =? id then Some n.2 else None) (notices t) else []))
  end.

(** The insert that ignores a duplicate. *)
Definition ClaimNotice (keyID : Z) (kind : NoticeKind) : M bool :=
  wrapping ("claim " +:+ kind_text kind +:+ " notice of key " +:+ Str.fmt_d keyID) (statement out (λ t,
    if contains (notices t) (keyID, kind) then (false, t)
    else (true, mkKeyTables (accounts t) (next_account t) (keys t) (next_key t) (notices t ++ [(keyID, kind)]) (trail t) (published t)))).

(** [Trail.Write] *)
Definition WriteTrail (e : Entry) : M () :=
  exec out (λ t, mkKeyTables (accounts t) (next_account t) (keys t) (next_key t) (notices t) (trail t ++ [e]) (published t)).

(** [KeyNoticed.Publish]: the row it inserts in the outbox. *)
Definition PublishNotice (n : KeyNotice) : M () :=
  exec out (λ t, mkKeyTables (accounts t) (next_account t) (keys t) (next_key t) (notices t) (trail t) (published t ++ [n])).
End Store.
