(* ===== verification/ServiceAccounts.v ===== *)
(** * Service accounts (src/identity/serviceaccount)

    The service of service.go and the notices of notices.go over the store of
    [KeyStore]. Who may is asked of the authorizer of the application, of which the
    engine is one; tenants, the names of people and the random text of a secret are
    the application's and the system's: arguments that answer as of the moment they
    are asked. *)

From S2P Require Import Prelude Apperr Clock Hierarchy Role Access Engine Sql KeyStore.

Local Open Scope Z_scope.

Definition View : string := "iam.serviceaccount:view".
Definition Manage : string := "iam.serviceaccount:manage".
Definition Revoke : string := "iam.serviceaccount:revoke".

Definition MaxActiveKeys : Z := 10.
Definition maxKeyLife : Z := 5 * 365 * 24 * Time.Hour.
Definition NameMax : Z := 100.
Definition DescriptionMax : Z := 500.
Definition AccountEntity : string := "service_accounts".
Definition KeyEntity : string := "service_account_keys".
Definition DefaultKeyPrefix : string := "sak_".

Record Person : Type := mkPerson { p_ID : Z; p_Name : string }.

Record AccountView : Type := mkAccountView {
  av_ID : Z;
  av_Name : string;
  av_Description : string;
  av_Tenant : option Person;
  av_Owner : Person;
  av_CreatedBy : Person;
  av_CreatedAt : Z;
  av_ActiveKeys : Z;
  av_LastUsedAt : option Z;
  av_DeactivatedAt : option Z
}.

Record KeyView : Type := mkKeyView {
  kv_ID : Z;
  kv_Name : string;
  kv_Prefix : string;
  kv_CreatedBy : Person;
  kv_CreatedAt : Z;
  kv_LastUsedAt : option Z;
  kv_ExpiresAt : option Z;
  kv_RevokedAt : option Z
}.

Record CreatedKey : Type := mkCreatedKey { ck_Key : KeyView; ck_Secret : string }.
Record SaveInput : Type := mkSaveInput { si_Name : string; si_Description : string; si_TenantID : option Z; si_OwnerID : Z }.
(** The zero time is no time, as for the code that reads it. *)
Record KeyInput : Type := mkKeyInput { ki_Name : string; ki_ExpiresAt : option Z }.
Record Caller : Type := mkCaller { c_AccountID : Z; c_KeyID : Z; c_Name : string; c_TenantID : Z }.

(** [Tenants] *)
Record Tenants : Type := mkTenants {
  tn_Level : string;
  tn_Names : nat → list Z → result (gmap Z string);
  tn_Confine : option (nat → Z → Z → option error)
}.

(** What the service asks of an [authz.Authorizer]. *)
Record Authorizer : Type := mkAuthorizer {
  au_Require : nat → string → option error;
  au_Access : nat → string → result AccessSet
}.

Definition sanitize (i : SaveInput) : SaveInput :=
  mkSaveInput (Utf8.TrimSpace (si_Name i)) (Utf8.TrimSpace (si_Description i))
    (match si_TenantID i with Some id => if id <=? 0 then None else Some id | None => None end) (si_OwnerID i).

(** [PrefixOf] *)
Definition PrefixOf (secret : string) : string :=
  if (String.length secret <=? 12)%nat then secret else String.substring 0 12 secret.

Definition tenantID_of (i : SaveInput) : Z := default 0 (si_TenantID i).

Definition keyExpiry (requested : option Z) (now : Z) : result (option Z) :=
  match requested with
  | None => Ok None
  | Some expiry =>
      if negb (Time.After expiry now) || Time.After expiry (now + maxKeyLife)
      then Err (BadRequest "expires_at must be in the future, within five years") else Ok (Some expiry)
  end.

(** The failures of [check], in the order [%v] prints a map. *)
Definition failures (i : SaveInput) : list (string * string) :=
  (if DescriptionMax <? Utf8.RuneCount (si_Description i) then [("description", "max")] else []) ++
  (if bool_decide (si_Name i = "") then [("name", "required")]
   else if NameMax <? Utf8.RuneCount (si_Name i) then [("name", "max")] else []) ++
  (if si_OwnerID i <? 1 then [("owner_id", "required")] else []).

Definition check (i : SaveInput) : option error :=
  match failures i with
  | [] => None
  | fs => Some (BadRequest ("invalid service account: map[" +:+ String.concat " " ((λ f, f.1 +:+ ":" +:+ f.2) <$> fs) +:+ "]"))
  end.

Definition errNoAuthorizer : error :=
  errNew "serviceaccount: the application has no authorizer: install access, or pass gocore.WithAuthorizer".
Definition errPersonOnly : error := errNew "serviceaccount: only a person manages service accounts".
Definition unauthorizedKey : error := Unauthorized "invalid API key".
Definition notFoundAccount : error := NotFound "service account not found".

Definition NewEntry (entity : string) (id actor : Z) (action : string) (before after : option state) : Entry :=
  mkEntry entity id actor action before after.

Section Service.
Variable out : Outside.
Variable NameLeb : string → string → bool.
Variable sha256_hex : string → string.
(** The base64 text of 256 random bits. *)
Variable random : nat → result string.
Variables (authorizer : option Authorizer) (tenants : option Tenants) (KeyPrefix : string).
Variable people : nat → list Z → result (gmap Z string).
Variable ctx : context.
Notation M := (stM (Env KeyTables) error).

Definition prefix : string := if bool_decide (KeyPrefix = "") then DefaultKeyPrefix else KeyPrefix.
Definition HashSecret (secret : string) : string := sha256_hex secret.

(** [use], [require] and [access]. *)
Definition require (permission : string) : M () :=
  match authorizer with
  | None => throw (Internal errNoAuthorizer)
  | Some au => wrapping ("serviceaccount: require " +:+ permission)
                 (ask (λ n, match au_Require au n permission with Some err => Err err | None => Ok () end))
  end.

Definition access (permission : string) : M AccessSet :=
  match authorizer with
  | None => throw (Internal errNoAuthorizer)
  | Some au => wrapping ("serviceaccount: access " +:+ permission) (ask (λ n, au_Access au n permission))
  end.

(** The loop of [visibility]: a clause above the tenants shows all. *)
Fixpoint visible_loop (level : string) (clauses : list Clause) (seen : list Z) : Visibility :=
  match clauses with
  | [] => mkVisibility false seen
  | c :: rest =>
      match At (cl_Chain c) level with
      | None => mkVisibility true []
      | Some place => visible_loop level rest (if contains seen (s_ID place) then seen else seen ++ [s_ID place])
      end
  end.

Definition visibility : M Visibility :=
  _ ← require View;
  match tenants with
  | None => mret (mkVisibility true [])
  | Some tn => set ← access View; mret (visible_loop (tn_Level tn) (as_Clauses set) [])
  end.

Definition readErr (accountID : Z) (err : error) : error :=
  if errors_Is err ErrNotFound then notFoundAccount
  else Internal (wrapped ("serviceaccount: read " +:+ Str.fmt_d accountID) err).

Definition find (accountID : Z) : M Summary :=
  visible ← visibility;
  now ← Now out;
  found ← mapErr (readErr accountID) (store_Find out accountID now);
  if negb (Sees visible (su_Account found)) then throw notFoundAccount else mret found.

Definition notAuthenticated : error := Unauthorized "not authenticated".
Definition personOnly : error := WithReason (ForbiddenFrom errPersonOnly) ReasonForbidden {["why" := PString "person_only"]}.

Definition manager : M Subject :=
  _ ← require Manage;
  match PrincipalFrom ctx with
  | None => throw notAuthenticated
  | Some actor => if bool_decide (sub_Kind (pr_Subject actor) = KindUser) then mret (pr_Subject actor) else throw personOnly
  end.

Definition revoker : M Subject :=
  _ ← require Revoke;
  match PrincipalFrom ctx with None => throw notAuthenticated | Some actor => mret (pr_Subject actor) end.

Definition checkTenant (accountID tenantID : Z) : M () :=
  match tenants with
  | None => throw (BadRequest "tenant_id: this application has no tenants")
  | Some tn =>
      names ← mapErr (λ err, Internal (wrapped "serviceaccount: tenant" err)) (ask (λ n, tn_Names tn n [tenantID]));
      match names !! tenantID with
      | None => throw (BadRequest "tenant_id: no such tenant")
      | Some _ => match tn_Confine tn with
                  | None => mret ()
                  | Some confine => ask (λ n, match confine n accountID tenantID with Some err => Err err | None => Ok () end)
                  end
      end
  end.

Definition checkPlaces (accountID : Z) (i : SaveInput) : M () :=
  _ ← match si_TenantID i with Some tenantID => checkTenant accountID tenantID | None => mret () end;
  names ← mapErr (λ err, Internal (wrapped "serviceaccount: owner" err)) (ask (λ n, people n [si_OwnerID i]));
  match names !! si_OwnerID i with None => throw (BadRequest "owner_id: no such person") | Some _ => mret () end.

(** ** What the editors show *)

Definition described (names tenantNames : gmap Z string) (s : Summary) : AccountView :=
  let a := su_Account s in
  let person id := mkPerson id (default "" (names !! id)) in
  mkAccountView (ac_ID a) (ac_Name a) (ac_Description a)
    (if 0 <? ac_TenantID a then Some (mkPerson (ac_TenantID a) (default "" (tenantNames !! ac_TenantID a))) else None)
    (person (ac_OwnerID a)) (person (ac_CreatedBy a)) (ac_CreatedAt a) (su_ActiveKeys s) (su_LastUsedAt s) (ac_DeactivatedAt a).

Definition describe (found : list Summary) : M (list AccountView) :=
  let tenantIDs := List.filter (λ id, 0 <? id) ((ac_TenantID ∘ su_Account) <$> found) in
  let personIDs := concat ((λ s, [ac_OwnerID (su_Account s); ac_CreatedBy (su_Account s)]) <$> found) in
  tenantNames ← match tenantIDs, tenants with
                | _ :: _, Some tn => mapErr (λ err, Internal (wrapped "serviceaccount: tenant names" err)) (ask (λ n, tn_Names tn n tenantIDs))
                | _, _ => mret ∅
                end;
  names ← mapErr (λ err, Internal (wrapped "serviceaccount: people names" err)) (ask (λ n, people n personIDs));
  mret (described names tenantNames <$> found).

Definition describeOne (found : Summary) : M AccountView :=
  views ← describe [found];
  match views with v :: _ => mret v | [] => throw notFoundAccount end.

Definition describeKeys (ks : list Key) : M (list KeyView) :=
  names ← mapErr (λ err, Internal (wrapped "serviceaccount: people names" err)) (ask (λ n, people n (k_CreatedBy <$> ks)));
  mret ((λ k, mkKeyView (k_ID k) (k_Name k) (k_Prefix k) (mkPerson (k_CreatedBy k) (default "" (names !! k_CreatedBy k)))
                (k_CreatedAt k) (k_LastUsedAt k) (k_ExpiresAt k) (k_RevokedAt k)) <$> ks).

(** ** Reading *)

Definition Reach (accountID : Z) : M bool :=
  found ← attempt (find accountID);
  match found with
  | Ok _ => mret true
  | Err err => if HasCode err CodeNotFound then mret false else throw err
  end.

Fixpoint Names (ids : list Z) (acc : gmap Z string) : M (gmap Z string) :=
  match ids with
  | [] => mret acc
  | id :: rest =>
      now ← Now out;
      found ← attempt (store_Find out id now);
      match found with
      | Ok s => Names rest (<[id := ac_Name (su_Account s)]> acc)
      | Err err => if errors_Is err ErrNotFound then Names rest acc
                   else throw (Internal (wrapped ("serviceaccount: read " +:+ Str.fmt_d id) err))
      end
  end.

Definition List_ : M (list AccountView) :=
  visible ← visibility;
  now ← Now out;
  found ← mapErr (λ err, Internal (wrapped "serviceaccount: list" err)) (store_List out NameLeb visible now);
  describe found.

Definition Get (accountID : Z) : M AccountView := found ← find accountID; describeOne found.

Definition Keys (accountID : Z) : M (list KeyView) :=
  _ ← find accountID;
  ks ← mapErr (λ err, Internal (wrapped ("serviceaccount: keys of " +:+ Str.fmt_d accountID) err)) (store_Keys out accountID);
  describeKeys ks.

(** ** Changing accounts *)

Definition Create (inp : SaveInput) : M AccountView :=
  let inp := sanitize inp in
  _ ← check_ (check inp);
  actor ← manager;
  _ ← checkPlaces 0 inp;
  now ← Now out;
  account ← mapErr (λ err, Internal (wrapped "serviceaccount: create" err)) (Transaction out (
    account ← wrapping "create" (store_Create out (mkAccount 0 (si_Name inp) (si_Description inp) (tenantID_of inp) (si_OwnerID inp)
                                   (sub_ID actor) now 0 None None 0));
    _ ← WriteTrail out (NewEntry AccountEntity (ac_ID account) (sub_ID actor) "create" None (Some (SAccount account)));
    mret account));
  Get (ac_ID account).

(** [Update] up to its transaction, and from there. *)
Definition updateRead (accountID : Z) (inp : SaveInput) : M (Subject * Summary) :=
  _ ← check_ (check inp);
  actor ← manager;
  found ← find accountID;
  _ ← checkPlaces accountID inp;
  mret (actor, found).

Definition updated (a : Account) (inp : SaveInput) (actor now : Z) : Account :=
  mkAccount (ac_ID a) (si_Name inp) (si_Description inp) (tenantID_of inp) (si_OwnerID inp) (ac_CreatedBy a) (ac_CreatedAt a) actor (Some now)
    (ac_DeactivatedAt a) (ac_DeactivatedBy a).

(** The account and its entry in one transaction. *)
Definition writeAccount (action : string) (accountID : Z) (actor : Subject) (before after : Account) : M () :=
  mapErr (λ err, Internal (wrapped ("serviceaccount: " +:+ action) err)) (Transaction out (
    _ ← wrapping action (store_Update out after);
    WriteTrail out (NewEntry AccountEntity accountID (sub_ID actor) action (Some (SAccount before)) (Some (SAccount after))))).

Definition updateWrite (accountID : Z) (inp : SaveInput) (actor : Subject) (found : Summary) : M AccountView :=
  now ← Now out;
  _ ← writeAccount "update" accountID actor (su_Account found) (updated (su_Account found) inp (sub_ID actor) now);
  Get accountID.

Definition Update (accountID : Z) (inp : SaveInput) : M AccountView :=
  let inp := sanitize inp in
  r ← updateRead accountID inp;
  updateWrite accountID inp r.1 r.2.

Definition deactivated (a : Account) (actor now : Z) : Account :=
  mkAccount (ac_ID a) (ac_Name a) (ac_Description a) (ac_TenantID a) (ac_OwnerID a) (ac_CreatedBy a) (ac_CreatedAt a) actor (Some now)
    (Some now) actor.

Definition Deactivate (accountID : Z) : M AccountView :=
  actor ← manager;
  found ← find accountID;
  if negb (Active (su_Account found)) then describeOne found else
  now ← Now out;
  _ ← writeAccount "deactivate" accountID actor (su_Account found) (deactivated (su_Account found) (sub_ID actor) now);
  Get accountID.

(** ** Keys *)

Definition keyTarget (accountID : Z) (name : string) : M (Subject * Summary) :=
  if bool_decide (name = "") || (NameMax <? Utf8.RuneCount name) then throw (BadRequest "name: required, at most 100 characters") else
  actor ← manager;
  found ← find accountID;
  if negb (Active (su_Account found)) then throw (BadRequest "the service account is deactivated") else mret (actor, found).

Definition newSecret : M string :=
  text ← mapErr (λ err, Internal (wrapped "serviceaccount: secret" err)) (ask random);
  mret (prefix +:+ text).

Definition with_hash (k : Key) (hash : string) : Key :=
  mkKey (k_ID k) (k_ServiceAccountID k) (k_Name k) (k_Prefix k) hash (k_CreatedBy k) (k_CreatedAt k) (k_LastUsedAt k) (k_ExpiresAt k)
    (k_RevokedAt k) (k_RevokedBy k).

Definition storeKey (actor : Subject) (key : Key) : M Key :=
  mapErr (λ err, Internal (wrapped "serviceaccount: create key" err)) (Transaction out (
    key ← wrapping "create key" (store_CreateKey out key);
    _ ← WriteTrail out (NewEntry KeyEntity (k_ID key) (sub_ID actor) "create" None (Some (SKey (with_hash key ""))));
    mret key)).

Definition tooManyKeys : error := BadRequest ("at most " +:+ Str.fmt_d MaxActiveKeys +:+ " keys work at once; revoke one first").

Definition CreateKey (accountID : Z) (inp : KeyInput) : M CreatedKey :=
  let name := Utf8.TrimSpace (ki_Name inp) in
  r ← keyTarget accountID name;
  now ← Now out;
  expires ← lift (keyExpiry (ki_ExpiresAt inp) now);
  if MaxActiveKeys <=? su_ActiveKeys r.2 then throw tooManyKeys else
  secret ← newSecret;
  key ← storeKey r.1 (mkKey 0 accountID name (PrefixOf secret) (HashSecret secret) (sub_ID r.1) now None expires None 0);
  views ← describeKeys [key];
  match views with v :: _ => mret (mkCreatedKey v secret) | [] => throw notFoundAccount end.

Definition keyToRevoke (accountID keyID : Z) : M Key :=
  _ ← find accountID;
  mapErr (λ err, if errors_Is err ErrKeyNotFound then NotFound "key not found"
                 else Internal (wrapped ("serviceaccount: read key " +:+ Str.fmt_d keyID) err)) (store_FindKey out accountID keyID).

Definition with_revoked (k : Key) (now by_ : Z) : Key :=
  mkKey (k_ID k) (k_ServiceAccountID k) (k_Name k) (k_Prefix k) (k_Hash k) (k_CreatedBy k) (k_CreatedAt k) (k_LastUsedAt k) (k_ExpiresAt k)
    (Some now) by_.

Definition RevokeKey (accountID keyID : Z) : M () :=
  actor ← revoker;
  key ← keyToRevoke accountID keyID;
  if bool_decide (k_RevokedAt key ≠ None) then mret () else
  let by_ := if bool_decide (sub_Kind actor = KindUser) then sub_ID actor else 0 in
  mapErr (λ err, Internal (wrapped "serviceaccount: revoke" err)) (Transaction out (
    now ← Now out;
    _ ← wrapping "revoke" (store_RevokeKey out keyID now by_);
    WriteTrail out (NewEntry KeyEntity keyID by_ "revoke" (Some (SKey key)) (Some (SKey (with_revoked key now by_)))))).

Definition maxSecret : nat := 256.

Definition Authenticate (secret : string) : M Caller :=
  if bool_decide (secret = "") || (maxSecret <? String.length secret)%nat then throw unauthorizedKey else
  found ← mapErr (λ err, if errors_Is err ErrKeyNotFound then unauthorizedKey
                         else Internal (wrapped "serviceaccount: authenticate" err)) (FindByKeyHash out (HashSecret secret));
  let key := found.1 in
  let account := found.2 in
  now ← Now out;
  if negb (Usable key now) || negb (Active account) then throw unauthorizedKey else
  _ ← (if match k_LastUsedAt key with None => true | Some last => Time.Minute <=? Time.Sub now last end
       then _ ← attempt (TouchKey out (k_ID key) now); mret () else mret ());
  mret (mkCaller (ac_ID account) (k_ID key) (ac_Name account) (ac_TenantID account)).
End Service.

(** ** Notices (notices.go) *)

Definition ExpiryWarning : Z := 14 * 24 * Time.Hour.
Definition UnusedAfter : Z := 60 * 24 * Time.Hour.

Definition sinceOf (k : Key) : Z := default (k_CreatedAt k) (k_LastUsedAt k).

Definition key_Notices (k : Key) (when_ : Z) : list NoticeKind :=
  if negb (Usable k when_) then [] else
  match k_ExpiresAt k with
  | Some until => if Time.Sub until when_ <=? ExpiryWarning then [NoticeExpiring] else []
  | None => []
  end ++ (if UnusedAfter <=? Time.Sub when_ (sinceOf k) then [NoticeUnused] else []).

Section Notices.
Variable out : Outside.
(** [Format(time.DateOnly)] *)
Variable DateOnly : Z → string.
Notation M := (stM (Env KeyTables) error).

(** The days go through a float64, which is exact below 4096 hours. *)
Definition days (d : Z) : Z := Z.quot d (24 * Time.Hour).

Definition noticeOf (item : KeyWithAccount) (kind : NoticeKind) (now : Z) : KeyNotice :=
  let k := ka_Key item in
  let a := ka_Account item in
  let notice date n := mkKeyNotice (ac_OwnerID a) (ac_ID a) (ac_Name a) (k_ID k) (k_Name k) kind date n in
  match kind with
  | NoticeExpiring => match k_ExpiresAt k with Some until => notice (DateOnly until) (Z.max 0 (days (Time.Sub until now))) | None => notice "" 0 end
  | NoticeUnused => notice (DateOnly (sinceOf k)) (days (Time.Sub now (sinceOf k)))
  end.

Definition tell (item : KeyWithAccount) (kind : NoticeKind) (now : Z) : M bool :=
  wrapping "serviceaccount: tell" (Transaction out (
    claimed ← wrapping "serviceaccount: claim the notice" (ClaimNotice out (k_ID (ka_Key item)) kind);
    if negb claimed then mret false else
    _ ← wrapping "publish the notice" (PublishNotice out (noticeOf item kind now));
    mret true)).

(** The inner loop of [Send]: a notice that fails is left for the next run. *)
Fixpoint tell_kinds (item : KeyWithAccount) (told : list NoticeKind) (kinds : list NoticeKind) (now : Z) (sent : nat) : M nat :=
  match kinds with
  | [] => mret sent
  | kind :: rest =>
      if contains told kind then tell_kinds item told rest now sent else
      recorded ← attempt (tell item kind now);
      tell_kinds item told rest now (match recorded with Ok true => S sent | _ => sent end)
  end.

Fixpoint tell_items (items : list KeyWithAccount) (told : Z → list NoticeKind) (now : Z) (sent : nat) : M nat :=
  match items with
  | [] => mret sent
  | item :: rest =>
      sent ← tell_kinds item (told (k_ID (ka_Key item))) (key_Notices (ka_Key item) now) now sent;
      tell_items rest told now sent
  end.

Definition Send : M nat :=
  now ← Now out;
  working ← mapErr Internal (WorkingKeys out now);
  told ← mapErr Internal (NoticesSent out ((k_ID ∘ ka_Key) <$> working));
  tell_items working told now 0.

Definition NoticeConsumer : string := "serviceaccount.key-notice".

(** [NoticeWorker.once]; what it logs is left out. *)
Definition once (consumers : list string) : M () :=
  if negb (contains consumers NoticeConsumer) then mret () else _ ← attempt Send; mret ().
End Notices.
