(* ===== verification/ServiceFacts.v ===== *)
(** * What the service accounts do to their tables

    Most steps only read. Each operation is a read, at most one transaction, and a
    read: what it leaves is one [move] from the tables it began with. *)

From S2P Require Import Prelude Clock Apperr Hierarchy Role Access Engine Sql Queue Hoare KeyStore ServiceAccounts.

Local Open Scope Z_scope.

(** ** Rows *)

Lemma elem_of_rows_where {V} (m : gmap Z V) p id v : (id, v) ∈ rows_where m p ↔ m !! id = Some v ∧ p id v = true.
Proof.
  unfold rows_where, select_ids. rewrite list_elem_of_omap. setoid_rewrite merge_sort_Permutation. setoid_rewrite list_elem_of_omap.
  split.
  - intros (x & ([y w] & Hy & Hp) & Hx). apply elem_of_map_to_list in Hy. cbn in Hp. destruct (p y w) eqn:E; [|done]. injection Hp as <-.
    rewrite Hy in Hx. cbn in Hx. by injection Hx as <- <-.
  - intros [Hm Hp]. exists id. split; [|by rewrite Hm]. exists (id, v). split; [by apply elem_of_map_to_list|]. cbn. by rewrite Hp.
Qed.

(** ** Steps that only read *)

Section Reads.
Variable out : Outside.
Notation M := (stM (Env KeyTables) error).

Definition reads {A} (m : M A) : Prop := ∀ b0, hoare (λ b, b = b0) m (λ _ b, b = b0) (λ b, b = b0).

Lemma reads_then {A B} (m : M A) (f : A → M B) : reads m → (∀ a, reads (f a)) → reads (m ≫= f).
Proof. intros Hm Hf b0. eapply h_bind; [apply Hm|]. intros a. apply Hf. Qed.
Lemma reads_ret {A} (a : A) : reads (mret a).
Proof. intros b0. by apply h_ret. Qed.
Lemma reads_throw {A} err : reads (throw err : M A).
Proof. intros b0. by apply h_throw. Qed.
Lemma reads_check err : reads (check_ err).
Proof. intros b0. by apply h_check. Qed.
Lemma reads_mapErr {A} f (m : M A) : reads m → reads (mapErr f m).
Proof. intros H b0. by apply h_mapErr. Qed.
Lemma reads_wrapping {A} what (m : M A) : reads m → reads (wrapping what m).
Proof. intros H b0. by apply h_wrapping. Qed.
Lemma reads_attempt {A} (m : M A) : reads m → reads (attempt m).
Proof. intros H b0. apply h_attempt. eapply h_weaken; [apply (H b0)|naive_solver..]. Qed.
Lemma reads_query {A} (f : KeyTables → A) : reads (query out f).
Proof. intros b0. apply h_statement; [done|]. by intros b ->. Qed.
Lemma reads_Now : reads (Now out).
Proof. intros b0. by apply h_Now. Qed.
Lemma reads_ask {A} (f : nat → result A) : reads (ask f).
Proof. intros b0. by apply h_ask. Qed.
Lemma reads_lift {A} (o : result A) : reads (lift o).
Proof. intros b0. by apply h_lift. Qed.
End Reads.

Create HintDb reads.
#[export] Hint Resolve reads_ret reads_throw reads_check reads_query reads_Now reads_ask reads_lift : reads.

(** Reading, by the shape of the step. *)
Ltac reads_it :=
  repeat first
    [ progress intros
    | solve [auto 2 with reads nocore]
    | apply reads_then | apply reads_mapErr | apply reads_wrapping | apply reads_attempt
    | case_match ].

(** ** Moves *)

Definition with_trail (t : KeyTables) (ens : list Entry) : KeyTables :=
  mkKeyTables (accounts t) (next_account t) (keys t) (next_key t) (notices t) (trail t ++ ens) (published t).

(** How many keys of the account work at a time. *)
Definition count_keys (t : KeyTables) (id at_ : Z) : Z :=
  Z.of_nat (length (rows_where (keys t) (λ _ k, (km_ServiceAccountID k =? id) && working k (whole at_)))).

(** An entry of the trail that holds no hash. *)
Definition no_hash (s : option state) : Prop := match s with Some (SKey k) => k_Hash k = "" | _ => True end.
Definition clean (en : Entry) : Prop := no_hash (en_Before en) ∧ no_hash (en_After en).

Definition minted (key : Key) : keyModel :=
  mkKeyModel (k_ServiceAccountID key) (k_Name key) (k_Prefix key) (k_Hash key) (k_CreatedBy key) (whole (k_CreatedAt key)) None
    (whole <$> k_ExpiresAt key) None 0.

Inductive move (out : Outside) (t : KeyTables) : KeyTables → Prop :=
| mv_create a en : clean en → ac_DeactivatedAt a = None →
    move out t (with_trail (set_accounts t (<[next_account t := modelOf a]> (accounts t)) (next_account t + 1)) [en])
| mv_account id row after en : clean en → accounts t !! id = Some row → ac_ID after = id →
    (ac_DeactivatedAt after = None → am_DeactivatedAt row = None) →
    move out t (with_trail (set_accounts t (<[id := overwritten row (modelOf after)]> (accounts t)) (next_account t)) [en])
| mv_mint key m en : clean en → hash_taken t (k_Hash key) = false → count_keys t (k_ServiceAccountID key) (clock out m) < MaxActiveKeys →
    is_Some (accounts t !! k_ServiceAccountID key) →
    move out t (with_trail (set_keys t (<[next_key t := minted key]> (keys t)) (next_key t + 1)) [en])
| mv_revoke id now by_ en : clean en →
    move out t (with_trail (set_keys t (alter (revoked_row now by_) id (keys t)) (next_key t)) [en])
| mv_touch id now : move out t (set_keys t (alter (touched_row now) id (keys t)) (next_key t))
| mv_tell id kind n : (id, kind) ∉ notices t → kn_KeyID n = id → kn_Kind n = kind →
    move out t (mkKeyTables (accounts t) (next_account t) (keys t) (next_key t) (notices t ++ [(id, kind)]) (trail t) (published t ++ [n])).

Section Moves.
Variable out : Outside.

(** ** Operations are moves *)

(** The answer of a step, and tables it moved to. *)
Definition moves {A} (m : stM (Env KeyTables) error A) : Prop :=
  ∀ b0, hoare (λ b, b = b0) m (λ _ b, rtc (move out) b0 b) (λ b, rtc (move out) b0 b).

Lemma moves_reads {A} (m : stM (Env KeyTables) error A) : reads m → moves m.
Proof. intros H b0. eapply h_weaken; [apply (H b0)|done|..]; [intros _ b ->; apply rtc_refl|intros b ->; apply rtc_refl]. Qed.

Lemma moves_bind {A B} (m : stM (Env KeyTables) error A) (f : A → stM (Env KeyTables) error B) :
  moves m → (∀ a, moves (f a)) → moves (m ≫= f).
Proof.
  intros Hm Hf b0. eapply h_bind; [apply Hm|]. intros a e He. specialize (Hf a (tables e) e eq_refl).
  destruct (f a e) as [[x|err] e']; by etransitivity.
Qed.

Lemma moves_wrapping {A} what (m : stM (Env KeyTables) error A) : moves m → moves (wrapping what m).
Proof. intros H b0. by apply h_wrapping. Qed.
Lemma moves_mapErr {A} f (m : stM (Env KeyTables) error A) : moves m → moves (mapErr f m).
Proof. intros H b0. by apply h_mapErr. Qed.
Lemma moves_attempt {A} (m : stM (Env KeyTables) error A) : moves m → moves (attempt m).
Proof. intros H b0. apply h_attempt. eapply h_weaken; [apply (H b0)|naive_solver..]. Qed.

(** A triple that begins at [b0] and ends with one move, then a read. *)
Lemma moves_then_reads {A B} b0 (m : stM (Env KeyTables) error A) (f : A → stM (Env KeyTables) error B) :
  hoare (λ b, b = b0) m (λ _, move out b0) (λ b, b = b0) → (∀ a, reads (f a)) →
  hoare (λ b, b = b0) (m ≫= f) (λ _, rtc (move out) b0) (rtc (move out) b0).
Proof.
  intros Hm Hf. eapply h_bind with (R := λ _, rtc (move out) b0).
  - eapply h_weaken; [exact Hm|done|intros ? b ?; by apply rtc_once|intros b ->; apply rtc_refl].
  - intros a e He. pose proof (Hf a (tables e) e eq_refl) as H. destruct (f a e) as [[x|err] e']; by rewrite H.
Qed.

Lemma reads_first {A B} b0 (m : stM (Env KeyTables) error A) (f : A → stM (Env KeyTables) error B) (φ : A → Prop) :
  hoare (λ b, b = b0) m (λ a b, φ a ∧ b = b0) (λ b, b = b0) →
  (∀ a, φ a → hoare (λ b, b = b0) (f a) (λ _, rtc (move out) b0) (rtc (move out) b0)) →
  hoare (λ b, b = b0) (m ≫= f) (λ _, rtc (move out) b0) (rtc (move out) b0).
Proof.
  intros Hm Hf. eapply h_bind.
  - eapply h_weaken; [exact Hm|done|exact (λ _ _ H, H)|intros b ->; apply rtc_refl].
  - intros a. apply h_pure. apply Hf.
Qed.

Lemma reads_fact {A} b0 (m : stM (Env KeyTables) error A) :
  reads m → hoare (λ b, b = b0) m (λ _ b, True ∧ b = b0) (λ b, b = b0).
Proof. intros H. eapply h_weaken; [apply (H b0)|done|naive_solver|done]. Qed.
End Moves.

Section Service.
Variable out : Outside.
Variables (authorizer : option Authorizer) (tenants : option Tenants).
Variable people : nat → list Z → result (gmap Z string).
Variable ctx : context.

Lemma reads_require p : reads (require authorizer p).
Proof. unfold require. reads_it. Qed.
#[local] Hint Resolve reads_require : reads.
Lemma reads_access p : reads (access authorizer p).
Proof. unfold access. reads_it. Qed.
#[local] Hint Resolve reads_access : reads.
Lemma reads_visibility : reads (visibility authorizer tenants).
Proof. unfold visibility. reads_it. Qed.
#[local] Hint Resolve reads_visibility : reads.
Lemma reads_summaries rows t : reads (summaries out rows t).
Proof. unfold summaries. reads_it. Qed.
#[local] Hint Resolve reads_summaries : reads.
Lemma reads_store_Find id t : reads (store_Find out id t).
Proof. unfold store_Find. reads_it. Qed.
#[local] Hint Resolve reads_store_Find : reads.
Lemma reads_find id : reads (find out authorizer tenants id).
Proof. unfold find. reads_it. Qed.
#[local] Hint Resolve reads_find : reads.
Lemma reads_manager : reads (manager authorizer ctx).
Proof. unfold manager. reads_it. Qed.
#[local] Hint Resolve reads_manager : reads.
Lemma reads_revoker : reads (revoker authorizer ctx).
Proof. unfold revoker. reads_it. Qed.
#[local] Hint Resolve reads_revoker : reads.
Lemma reads_checkPlaces id inp : reads (checkPlaces tenants people id inp).
Proof. unfold checkPlaces, checkTenant. reads_it. Qed.
#[local] Hint Resolve reads_checkPlaces : reads.
Lemma reads_describeOne s : reads (describeOne tenants people s).
Proof. unfold describeOne, describe. reads_it. Qed.
#[local] Hint Resolve reads_describeOne : reads.
Lemma reads_describeKeys ks : reads (describeKeys people ks).
Proof. unfold describeKeys. reads_it. Qed.
#[local] Hint Resolve reads_describeKeys : reads.
Lemma reads_Get id : reads (Get out authorizer tenants people id).
Proof. unfold Get. reads_it. Qed.
#[local] Hint Resolve reads_Get : reads.
Lemma h_find b0 id :
  hoare (λ b, b = b0) (find out authorizer tenants id)
    (λ found b, (∃ row m, accounts b0 !! id = Some row ∧ su_Account found = account_of id row ∧
                   su_ActiveKeys found = count_keys b0 id (clock out m)) ∧ b = b0) (λ b, b = b0).
Proof.
  eapply h_bind; [apply reads_visibility|]. intros visible.
  eapply h_bind with (R := λ now b, (∃ m, now = clock out m) ∧ b = b0); [apply h_Now; eauto|]. intros now. apply h_pure. intros [m ->].
  eapply h_bind with (R := λ found b, (∃ row, accounts b0 !! id = Some row ∧ su_Account found = account_of id row ∧
                   su_ActiveKeys found = count_keys b0 id (clock out m)) ∧ b = b0).
  - apply h_mapErr. eapply h_bind with (R := λ row b, row = accounts b0 !! id ∧ b = b0).
    { apply h_wrapping, h_statement; [done|]. by intros b ->. }
    intros row. apply h_pure. intros ->. destruct (accounts b0 !! id) as [row|] eqn:Er; [|by apply h_throw].
    eapply h_bind with (R := λ sums b, (∃ last, sums = [mkSummary (account_of id row) (count_keys b0 id (clock out m)) last]) ∧ b = b0).
    + unfold summaries. eapply h_bind with (R := λ counts b, (∀ i, counts i = count_keys b0 i (clock out m)) ∧ b = b0).
      { apply h_wrapping, h_statement; [done|]. by intros b ->. }
      intros counts. apply h_pure. intros Hc. eapply h_bind with (R := λ _ b, b = b0); [apply h_wrapping, h_statement; naive_solver|].
      intros last. apply h_ret. intros b ->. split; [|done]. exists (last id). cbn. by rewrite Hc.
    + intros sums. apply h_pure. intros [last ->]. apply h_ret. intros b ->. split; [|done]. by exists row.
  - intros found. apply h_pure. intros (row & H). case_match; [by apply h_throw|]. apply h_ret. intros b ->. split; [|done]. by exists row, m.
Qed.

Lemma h_writeAccount b0 action id actor before after row :
  accounts b0 !! id = Some row → ac_ID after = id → (ac_DeactivatedAt after = None → am_DeactivatedAt row = None) →
  hoare (λ b, b = b0) (writeAccount out action id actor before after) (λ _ b, move out b0 b) (λ b, b = b0).
Proof.
  intros Hr Hid Hd. apply h_mapErr, h_Transaction.
  eapply h_bind with (R := λ _ b, b = set_accounts b0 (<[id := overwritten row (modelOf after)]> (accounts b0)) (next_account b0)).
  - apply h_wrapping, h_wrapping, h_statement; [done|]. intros b ->. cbn. f_equal. rewrite Hid.
    apply map_eq. intros i. destruct (decide (i = id)) as [->|Hne].
    + rewrite lookup_alter_eq, lookup_insert_eq, Hr. done.
    + by rewrite lookup_alter_ne, lookup_insert_ne.
  - intros []. apply h_statement; [done|]. intros b ->. by apply (mv_account out b0 id row after).
Qed.

Lemma h_storeKey b0 actor key :
  hoare (λ b, b = b0) (storeKey out actor key)
    (λ _ b, ∃ en, clean en ∧ hash_taken b0 (k_Hash key) = false ∧
       b = with_trail (set_keys b0 (<[next_key b0 := minted key]> (keys b0)) (next_key b0 + 1)) [en]) (λ b, b = b0).
Proof.
  apply h_mapErr, h_Transaction.
  eapply h_bind with (R := λ _ b, hash_taken b0 (k_Hash key) = false ∧ b = set_keys b0 (<[next_key b0 := minted key]> (keys b0)) (next_key b0 + 1)).
  - apply h_wrapping, h_wrapping.
    eapply h_bind with (R := λ r b, (∃ k, r = Ok k) → hash_taken b0 (k_Hash key) = false ∧
      b = set_keys b0 (<[next_key b0 := minted key]> (keys b0)) (next_key b0 + 1)).
    { apply h_statement; [done|]. intros b -> [k Hk]. by destruct (hash_taken b0 (k_Hash key)). }
    intros r. apply h_lift; [done|]. intros b k H ->. apply H. by exists k.
  - intros k. apply h_pure. intros Hh. eapply h_bind with (R := λ _ b, ∃ en, clean en ∧
      b = with_trail (set_keys b0 (<[next_key b0 := minted key]> (keys b0)) (next_key b0 + 1)) [en]).
    { apply h_statement; [done|]. intros b ->. eexists. split; [|reflexivity]. done. }
    intros []. apply h_ret. intros b (en & Hc & ->). by exists en.
Qed.

Lemma h_keyTarget b0 id name :
  hoare (λ b, b = b0) (keyTarget out authorizer tenants ctx id name)
    (λ r b, (∃ row m, accounts b0 !! id = Some row ∧ am_DeactivatedAt row = None ∧ su_ActiveKeys r.2 = count_keys b0 id (clock out m)) ∧ b = b0)
    (λ b, b = b0).
Proof.
  unfold keyTarget. case_match; [by apply h_throw|]. eapply h_bind; [apply reads_manager|]. intros actor.
  eapply h_bind; [apply h_find|]. intros found. apply h_pure. intros (row & m & Hr & Ha & Hc). rewrite Ha.
  destruct (Active (account_of id row)) eqn:E; [|by apply h_throw]. apply bool_decide_eq_true in E.
  apply h_ret. intros b ->. split; [|done]. by exists row, m.
Qed.

Lemma moves_Create inp : moves out (Create out authorizer tenants people ctx inp).
Proof.
  intros b0. unfold Create. eapply reads_first; [apply reads_fact, reads_check|]. intros [] _.
  eapply reads_first; [apply reads_fact, reads_manager|]. intros actor _.
  eapply reads_first; [apply reads_fact, reads_checkPlaces|]. intros [] _.
  eapply reads_first; [apply reads_fact, reads_Now|]. intros now _. apply moves_then_reads; [|intros; apply reads_Get].
  apply h_mapErr, h_Transaction. set (a := mkAccount 0 _ _ _ _ _ _ _ _ _ _).
  eapply h_bind with (R := λ _ b, b = set_accounts b0 (<[next_account b0 := modelOf a]> (accounts b0)) (next_account b0 + 1)).
  { apply h_wrapping, h_wrapping, h_statement; [done|]. by intros b ->. }
  intros account. eapply h_bind with (R := λ _, move out b0); [|intros []; by apply h_ret].
  apply h_statement; [done|]. intros b ->. by apply (mv_create out b0 a).
Qed.

Lemma moves_Update id inp : moves out (Update out authorizer tenants people ctx id inp).
Proof.
  intros b0. unfold Update. set (i := sanitize inp).
  eapply reads_first with (φ := λ r, ∃ row, accounts b0 !! id = Some row ∧ su_Account r.2 = account_of id row).
  - unfold updateRead. eapply h_bind; [apply reads_check|]. intros []. eapply h_bind; [apply reads_manager|]. intros actor.
    eapply h_bind; [apply h_find|]. intros found. apply h_pure. intros (row & m & Hr & Ha & _).
    eapply h_bind; [apply reads_checkPlaces|]. intros []. apply h_ret. intros b ->. split; [|done]. by exists row.
  - intros [actor found] (row & Hr & Ha). cbn [fst snd] in *. unfold updateWrite.
    eapply reads_first; [apply reads_fact, reads_Now|]. intros now _. apply moves_then_reads; [|intros; apply reads_Get].
    rewrite Ha. eapply h_writeAccount; [done..|]. done.
Qed.

Lemma moves_Deactivate id : moves out (Deactivate out authorizer tenants people ctx id).
Proof.
  intros b0. unfold Deactivate. eapply reads_first; [apply reads_fact, reads_manager|]. intros actor _.
  eapply reads_first; [apply h_find|]. intros found (row & m & Hr & Ha & _).
  case_match; [apply moves_reads, reads_describeOne|].
  eapply reads_first; [apply reads_fact, reads_Now|]. intros now _. apply moves_then_reads; [|intros; apply reads_Get].
  rewrite Ha. by eapply h_writeAccount.
Qed.

Lemma moves_RevokeKey id keyID : moves out (RevokeKey out authorizer tenants ctx id keyID).
Proof.
  intros b0. unfold RevokeKey. eapply reads_first; [apply reads_fact, reads_revoker|]. intros actor _.
  eapply reads_first with (φ := λ k, k_Hash k = "").
  - eapply h_bind; [apply reads_find|]. intros found. apply h_mapErr.
    eapply h_bind with (R := λ _ b, b = b0); [apply h_wrapping, h_statement; naive_solver|]. intros row.
    destruct row as [k|]; [|by apply h_throw]. case_match; [|by apply h_throw]. apply h_ret. intros b ->. done.
  - intros key Hk. case_match; [apply moves_reads, reads_ret|].
    eapply h_weaken with (Q' := λ _, move out b0) (F' := λ b, b = b0); [|exact (λ _ H, H)|intros ? b ?; by apply rtc_once|intros b ->; apply rtc_refl].
    apply h_mapErr, h_Transaction. eapply h_bind with (R := λ _ b, b = b0); [by apply h_Now|]. intros now.
    eapply h_bind; [apply h_wrapping, h_wrapping, h_statement with (Q := λ _ b, b = set_keys b0
      (alter (revoked_row now (if bool_decide (sub_Kind actor = KindUser) then sub_ID actor else 0)) keyID (keys b0)) (next_key b0)); [done|naive_solver]|].
    intros []. apply h_statement; [done|]. intros b ->. by apply mv_revoke.
Qed.
End Service.

Section Minting.
Variable out : Outside.
Variable sha256_hex : string → string.
Variable random : nat → result string.
Variables (authorizer : option Authorizer) (tenants : option Tenants) (KeyPrefix : string).
Variable people : nat → list Z → result (gmap Z string).
Variable ctx : context.

Lemma reads_newSecret : reads (newSecret random KeyPrefix).
Proof. unfold newSecret. reads_it. Qed.
#[local] Hint Resolve reads_newSecret : reads.

(** A person mints a key: what is left, and that the secret was made just now. *)
Lemma h_CreateKey b0 id inp :
  hoare (λ b, b = b0) (CreateKey out sha256_hex random authorizer tenants KeyPrefix people ctx id inp)
    (λ ck b, ∃ row m m' key en, accounts b0 !! id = Some row ∧ am_DeactivatedAt row = None ∧
       count_keys b0 id (clock out m) < MaxActiveKeys ∧ keyExpiry (ki_ExpiresAt inp) (clock out m') = Ok (k_ExpiresAt key) ∧
       k_ServiceAccountID key = id ∧ k_Hash key = sha256_hex (ck_Secret ck) ∧ hash_taken b0 (k_Hash key) = false ∧ clean en ∧
       b = with_trail (set_keys b0 (<[next_key b0 := minted key]> (keys b0)) (next_key b0 + 1)) [en])
    (rtc (move out) b0).
Proof.
  assert (∀ b, b = b0 → rtc (move out) b0 b) as Hrefl by (intros b ->; apply rtc_refl).
  eapply h_bind; [eapply h_weaken; [apply (h_keyTarget out authorizer tenants ctx b0)|done|exact (λ _ _ H, H)|exact Hrefl]|]. intros r. apply h_pure.
  intros (row & m & Hrow & Hact & Hc). eapply h_bind with (R := λ now b, (∃ m', now = clock out m') ∧ b = b0); [apply h_Now; eauto|].
  intros now. apply h_pure. intros [m' ->].
  eapply h_bind with (R := λ ex b, keyExpiry (ki_ExpiresAt inp) (clock out m') = Ok ex ∧ b = b0); [by apply h_lift|].
  intros ex. apply h_pure. intros Hex. destruct (Z.leb_spec MaxActiveKeys (su_ActiveKeys r.2)) as [?|Hlt]; [by apply h_throw|].
  rewrite Hc in Hlt. eapply h_bind; [eapply h_weaken; [apply (reads_newSecret b0)|done|exact (λ _ _ H, H)|exact Hrefl]|].
  intros secret. set (key := mkKey _ _ _ _ _ _ _ _ _ _ _).
  eapply h_bind; [eapply h_weaken; [apply (h_storeKey out b0)|done|exact (λ _ _ H, H)|exact Hrefl]|]. intros key'.
  apply h_ex. intros en. apply h_pure. intros Hclean. apply h_pure. intros Hh.
  set (b1 := with_trail _ _). assert (rtc (move out) b0 b1) as Hmove by (by apply rtc_once, (mv_mint out b0 key m)).
  eapply h_bind; [eapply h_weaken; [apply (reads_describeKeys people [key'] b1)|done|exact (λ _ _ H, H)|by intros b ->]|].
  intros views. destruct views; [apply h_throw; by intros b ->|]. apply h_ret. intros b ->.
  exists row, m, m', key, en. split_and!; try done.
Qed.

Lemma moves_CreateKey id inp : moves out (CreateKey out sha256_hex random authorizer tenants KeyPrefix people ctx id inp).
Proof.
  intros b0. eapply h_weaken; [apply (h_CreateKey b0)|done| |done].
  intros ck b (row & m & m' & key & en & Hr & _ & Hc & _ & Hid & _ & Hh & Hcl & ->). apply rtc_once.
  apply (mv_mint out b0 key m); [done..| |]; rewrite Hid; [done|by rewrite Hr].
Qed.
End Minting.

(** ** Authentication and notices *)

(** What a secret with this hash stands for at [now]. *)
Definition bears (t : KeyTables) (hash : string) (now : Z) (c : Caller) : Prop :=
  ∃ id k a, keys t !! id = Some k ∧ km_KeyHash k = hash ∧ km_RevokedAt k = None ∧
    (∀ until, km_ExpiresAt k = Some until → now < until) ∧
    accounts t !! km_ServiceAccountID k = Some a ∧ am_DeactivatedAt a = None ∧
    c = mkCaller (km_ServiceAccountID k) id (am_Name a) (default 0 (am_TenantID a)).

Lemma hash_row_Some t hash id k : hash_row t hash = Some (id, k) → keys t !! id = Some k ∧ km_KeyHash k = hash.
Proof.
  unfold hash_row. intros H. assert ((id, k) ∈ rows_where (keys t) (λ _ k, bool_decide (km_KeyHash k = hash))) as Hin.
  { destruct (rows_where _ _); [done|]. injection H as ->. constructor. }
  apply elem_of_rows_where in Hin as [Hk Hh%bool_decide_eq_true]. done.
Qed.

Lemma hash_row_None t hash : hash_row t hash = None → ∀ id k, keys t !! id = Some k → km_KeyHash k ≠ hash.
Proof.
  unfold hash_row. intros H id k Hk Hh. assert ((id, k) ∈ rows_where (keys t) (λ _ k, bool_decide (km_KeyHash k = hash))) as Hin.
  { apply elem_of_rows_where. split; [done|]. by apply bool_decide_eq_true. }
  destruct (rows_where _ _); [by apply elem_of_nil in Hin|done].
Qed.

Lemma Usable_key_of id k now :
  Usable (key_of id k) now = true ↔ km_RevokedAt k = None ∧ (∀ until, km_ExpiresAt k = Some until → now < until).
Proof.
  unfold Usable. cbn. case_bool_decide as Hr; [naive_solver|].
  destruct (km_ExpiresAt k) as [u|]; [|naive_solver]. unfold Time.Before. rewrite Z.ltb_lt. naive_solver.
Qed.

Section Outside_.
Variables (out : Outside) (sha256_hex : string → string) (DateOnly : Z → string).

Lemma moves_touch id now : moves out (attempt (TouchKey out id now)).
Proof.
  apply moves_attempt, moves_wrapping. intros b0. apply h_statement; [intros b ->; apply rtc_refl|].
  intros b ->. apply rtc_once, mv_touch.
Qed.

Lemma h_Authenticate b0 secret :
  hoare (λ b, b = b0) (Authenticate out sha256_hex secret)
    (λ c b, (∃ m, bears b0 (sha256_hex secret) (clock out m) c) ∧ rtc (move out) b0 b) (λ b, b = b0).
Proof.
  unfold Authenticate. case_match; [by apply h_throw|].
  eapply h_bind with (R := λ r b, (∃ id k a, keys b0 !! id = Some k ∧ km_KeyHash k = sha256_hex secret ∧
    accounts b0 !! km_ServiceAccountID k = Some a ∧ r = (key_of id k, account_of (km_ServiceAccountID k) a)) ∧ b = b0).
  { apply h_mapErr. eapply h_bind with (R := λ row b, row = hash_row b0 (sha256_hex secret) ∧ b = b0).
    { apply h_wrapping, h_statement; [done|]. by intros b ->. }
    intros row. apply h_pure. intros ->. destruct (hash_row b0 _) as [[id k]|] eqn:E; [|by apply h_throw]. apply hash_row_Some in E as [Hk Hh].
    eapply h_bind with (R := λ a b, a = accounts b0 !! km_ServiceAccountID k ∧ b = b0).
    { apply h_wrapping, h_statement; [done|]. by intros b ->. }
    intros a. apply h_pure. intros ->. destruct (accounts b0 !! _) as [a|] eqn:Ea; [|by apply h_throw].
    apply h_ret. intros b ->. split; [|done]. by exists id, k, a. }
  intros r. apply h_pure. intros (id & k & a & Hk & Hh & Ha & ->). cbn [fst snd].
  eapply h_bind with (R := λ now b, (∃ m, now = clock out m) ∧ b = b0); [apply h_Now; eauto|]. intros now. apply h_pure. intros [m ->].
  destruct (Usable (key_of id k) (clock out m)) eqn:Eu; [|by apply h_throw]. apply Usable_key_of in Eu as [Hr He].
  destruct (Active (account_of _ a)) eqn:Ea; [|by apply h_throw]. apply bool_decide_eq_true in Ea. cbn [negb orb].
  eapply h_bind with (R := λ _, rtc (move out) b0).
  { case_match; [|apply h_ret; intros b ->; apply rtc_refl].
    eapply h_bind with (R := λ _, rtc (move out) b0); [|intros; by apply h_ret].
    apply h_attempt, h_wrapping, h_statement; [intros b -> err; apply rtc_refl|]. intros b ->. apply rtc_once, mv_touch. }
  intros []. apply h_ret. intros b Hb. split; [|done]. exists m, id, k, a. done.
Qed.

Lemma moves_Authenticate secret : moves out (Authenticate out sha256_hex secret).
Proof. intros b0. eapply h_weaken; [apply (h_Authenticate b0)|done|naive_solver|intros b ->; apply rtc_refl]. Qed.

Lemma moves_tell item kind now : moves out (tell out DateOnly item kind now).
Proof.
  intros b0. apply h_wrapping. eapply h_weaken; [apply (h_Transaction out b0)|done|exact (λ _ _ H, H)|intros b ->; apply rtc_refl].
  eapply h_bind with (R := λ c b, b = (if c : bool then mkKeyTables (accounts b0) (next_account b0) (keys b0) (next_key b0)
      (notices b0 ++ [(k_ID (ka_Key item), kind)]) (trail b0) (published b0) else b0) ∧ (c = true → (k_ID (ka_Key item), kind) ∉ notices b0)).
  { apply h_wrapping, h_wrapping, h_statement; [done|]. intros b ->. destruct (contains _ _) eqn:E; [done|]. split; [done|]. intros _ Hin.
    apply contains_spec in Hin. congruence. }
  intros [|]; cbn [negb]; [|apply h_ret; intros b [-> _]; apply rtc_refl].
  eapply h_bind with (R := λ _, rtc (move out) b0); [|intros; by apply h_ret].
  apply h_wrapping, h_statement; [done|]. intros b [-> Hn]. apply rtc_once. cbn.
  apply (mv_tell out b0 (k_ID (ka_Key item)) kind (noticeOf DateOnly item kind now)); [by apply Hn|..];
    unfold noticeOf; destruct kind; try done; by destruct (k_ExpiresAt _).
Qed.

Lemma moves_Send : moves out (Send out DateOnly).
Proof.
  unfold Send. apply moves_bind; [apply moves_reads, reads_Now|]. intros now.
  apply moves_bind; [apply moves_reads; unfold WorkingKeys; reads_it|]. intros items.
  apply moves_bind; [apply moves_reads; unfold NoticesSent; reads_it|]. intros told. generalize 0%nat.
  induction items as [|item items IH]; intros n; [apply moves_reads, reads_ret|]. cbn [tell_items].
  apply moves_bind; [|intros; apply IH]. generalize (key_Notices (ka_Key item) now). intros kinds. revert n.
  induction kinds as [|kind kinds IHk]; intros n; [apply moves_reads, reads_ret|]. cbn [tell_kinds]. case_match; [apply IHk|].
  apply moves_bind; [apply moves_attempt, moves_tell|]. intros r. apply IHk.
Qed.
End Outside_.

(** * What service accounts keep

    Invariants of every [move], and so of any sequence of operations. *)

(** ** Counting keys *)

Definition of_account (id at_ : Z) (_ : Z) (k : keyModel) : bool := (km_ServiceAccountID k =? id) && working k (whole at_).

Lemma NoDup_select_ids {V} (m : gmap Z V) p : NoDup (select_ids m p).
Proof.
  unfold select_ids. rewrite merge_sort_Permutation.
  assert (NoDup (map_to_list m).*1) as Hn by apply NoDup_fst_map_to_list. revert Hn. generalize (map_to_list m).
  intros l. induction l as [|[i v] l IH]; [constructor|]. cbn [fmap list_fmap fst]. intros [Hi Hn]%list.NoDup_cons.
  rewrite omap_cons. cbn [fst snd]. destruct (p i v); [|by apply IH]. constructor; [|by apply IH].
  rewrite list_elem_of_omap. intros ([j w] & Hj & Hp). cbn in Hp. destruct (p j w); [|done]. injection Hp as ->.
  apply Hi, list_elem_of_fmap. by exists (i, w).
Qed.

Lemma rows_where_fst {V} (m : gmap Z V) p : (rows_where m p).*1 = select_ids m p.
Proof.
  unfold rows_where. assert (∀ i, i ∈ select_ids m p → is_Some (m !! i)) as H.
  { intros i. unfold select_ids. rewrite merge_sort_Permutation, list_elem_of_omap. intros ([j v] & Hj%elem_of_map_to_list & Hp).
    cbn in Hp. destruct (p j v); [|done]. injection Hp as ->. by exists v. }
  revert H. generalize (select_ids m p). induction l as [|i l IH]; intros H; [done|]. rewrite omap_cons.
  destruct (H i) as [v Hv]; [constructor|]. rewrite Hv. cbn. f_equal. apply IH. intros j Hj. apply H. by constructor.
Qed.

(** More rows satisfy the second test. *)
Lemma rows_where_le {V} (m m' : gmap Z V) p p' :
  (∀ i v, m !! i = Some v → p i v = true → ∃ v', m' !! i = Some v' ∧ p' i v' = true) →
  (length (rows_where m p) <= length (rows_where m' p'))%nat.
Proof.
  intros H. rewrite <-(length_fmap fst (rows_where m p)), <-(length_fmap fst (rows_where m' p')).
  apply submseteq_length, NoDup_submseteq; [rewrite rows_where_fst; apply NoDup_select_ids|].
  intros i ([j v] & -> & [Hm Hp]%elem_of_rows_where)%list_elem_of_fmap. destruct (H j v Hm Hp) as (v' & Hm' & Hp').
  apply list_elem_of_fmap. exists (j, v'). split; [done|]. by apply elem_of_rows_where.
Qed.

(** One row more, at most. *)
Lemma rows_where_insert {V} (m : gmap Z V) p i v :
  (length (rows_where (<[i := v]> m) p) <= S (length (rows_where m p)))%nat.
Proof.
  rewrite <-(length_fmap fst (rows_where (<[i := v]> m) p)).
  change (S (length (rows_where m p))) with (length ((i, v) :: rows_where m p)). rewrite <-(length_fmap fst ((i, v) :: rows_where m p)).
  apply submseteq_length, NoDup_submseteq; [rewrite rows_where_fst; apply NoDup_select_ids|].
  intros j ([j' w] & -> & [Hm Hp]%elem_of_rows_where)%list_elem_of_fmap. cbn.
  apply lookup_insert_Some in Hm as [[-> ->]|[Hne Hm]]; [constructor|]. apply list_elem_of_further, list_elem_of_fmap.
  exists (j', w). split; [done|]. by apply elem_of_rows_where.
Qed.

Lemma whole_mono t u : t <= u → whole t <= whole u.
Proof.
  intros H. unfold whole. pose proof (Z.div_mod t Time.Second ltac:(done)). pose proof (Z.div_mod u Time.Second ltac:(done)).
  pose proof (Z.div_le_mono t u Time.Second ltac:(done) H). assert (0 < Time.Second) by done. nia.
Qed.

Lemma working_later k t u : t <= u → working k (whole u) = true → working k (whole t) = true.
Proof.
  intros H%whole_mono. unfold working. destruct (km_ExpiresAt k); [|done]. rewrite !andb_true_iff, !Z.ltb_lt. intros [? ?]. split; [done|lia].
Qed.

Lemma count_keys_later t id at1 at2 : at1 <= at2 → count_keys t id at2 <= count_keys t id at1.
Proof.
  intros H. unfold count_keys. apply Nat2Z.inj_le, rows_where_le. intros i k Hk [Ha Hw]%andb_true_iff. exists k. split; [done|].
  rewrite Ha. by apply (working_later k at1 at2).
Qed.

(** ** The invariants *)

Record in_place (t : KeyTables) : Prop := mkInPlace {
  ip_hashes : ∀ i j k l, keys t !! i = Some k → keys t !! j = Some l → km_KeyHash k = km_KeyHash l → i = j;
  ip_keys : ∀ i k, keys t !! i = Some k → i < next_key t;
  ip_accounts : ∀ i a, accounts t !! i = Some a → i < next_account t;
  ip_trail : Forall clean (trail t);
  ip_notices : NoDup (notices t);
  ip_published : (λ n, (kn_KeyID n, kn_Kind n)) <$> published t = notices t
}.

(** A key that was stopped: it is revoked, or its account deactivated. *)
Definition stopped (t : KeyTables) (hash : string) : Prop :=
  ∃ id k, keys t !! id = Some k ∧ km_KeyHash k = hash ∧
    (km_RevokedAt k ≠ None ∨ ∃ a, accounts t !! km_ServiceAccountID k = Some a ∧ am_DeactivatedAt a ≠ None).

Definition few (at_ : Z) (t : KeyTables) : Prop := ∀ id, count_keys t id at_ <= MaxActiveKeys.

Lemma lookup_alter_some {V} (f : V → V) (m : gmap Z V) i j v :
  alter f i m !! j = Some v → ∃ w, m !! j = Some w ∧ v = if decide (i = j) then f w else w.
Proof.
  destruct (decide (i = j)) as [->|Hne]; [rewrite lookup_alter_eq|rewrite lookup_alter_ne by done; eauto].
  destruct (m !! j) as [w|]; [|done]. intros [= <-]. eauto.
Qed.

(** Revoking and touching keep whose key it is. *)
Definition same_key (f : keyModel → keyModel) : Prop := ∀ k,
  km_KeyHash (f k) = km_KeyHash k ∧ km_ServiceAccountID (f k) = km_ServiceAccountID k ∧ km_ExpiresAt (f k) = km_ExpiresAt k ∧
  (km_RevokedAt k ≠ None → km_RevokedAt (f k) ≠ None).

Lemma same_revoked now by_ : same_key (revoked_row now by_).
Proof. intros k. unfold revoked_row. by case_bool_decide. Qed.
Lemma same_touched now : same_key (touched_row now).
Proof. done. Qed.

Lemma in_place_alter t f id ens :
  same_key f → Forall clean ens → in_place t → in_place (with_trail (set_keys t (alter f id (keys t)) (next_key t)) ens).
Proof.
  intros Hf Hc [H1 H2 H3 H4 H5 H6]. split; cbn; try done.
  - intros i j k l (k0 & Hk & ->)%lookup_alter_some (l0 & Hl & ->)%lookup_alter_some E. apply (H1 i j k0 l0 Hk Hl).
    destruct (Hf k0) as (Ek & _), (Hf l0) as (El & _). do 2 case_decide; congruence.
  - intros i k (k0 & Hk & _)%lookup_alter_some. by apply (H2 i k0).
  - by apply Forall_app.
Qed.

Lemma stopped_alter t f id h ens :
  same_key f → stopped t h → stopped (with_trail (set_keys t (alter f id (keys t)) (next_key t)) ens) h.
Proof.
  intros Hf (i & k & Hk & Hh & Hs). destruct (Hf k) as (E1 & E2 & _ & E4). destruct (decide (id = i)) as [->|Hne].
  - exists i, (f k). cbn. rewrite lookup_alter_eq, Hk. split; [done|]. rewrite E1, E2. split; [done|]. naive_solver.
  - exists i, k. cbn. rewrite lookup_alter_ne by done. done.
Qed.

Lemma few_alter at_ t f id ens :
  same_key f → few at_ t → few at_ (with_trail (set_keys t (alter f id (keys t)) (next_key t)) ens).
Proof.
  intros Hf Hfew acct. etransitivity; [|apply (Hfew acct)]. apply Nat2Z.inj_le, rows_where_le. cbn.
  intros i k (k0 & Hk & ->)%lookup_alter_some H. exists k0. split; [done|]. destruct (Hf k0) as (_ & E2 & E3 & E4).
  case_decide; [|done]. revert H. unfold working. rewrite E2, E3, !andb_true_iff, !bool_decide_eq_true.
  intros (Ha & Hr & Hx). split_and!; [done| |done]. destruct (km_RevokedAt k0); [|done]. by destruct E4.
Qed.

Lemma with_trail_nil t : with_trail t [] = t.
Proof. unfold with_trail. rewrite app_nil_r. by destruct t. Qed.

Lemma hash_taken_false t hash i k : hash_taken t hash = false → keys t !! i = Some k → km_KeyHash k ≠ hash.
Proof.
  unfold hash_taken. intros H Hk E. apply not_true_iff_false in H. apply H, existsb_elem. exists (i, k).
  split; [by apply elem_of_map_to_list|]. by apply bool_decide_eq_true.
Qed.

Lemma move_in_place out t t' : in_place t → move out t t' → in_place t'.
Proof.
  intros Hip Hm. pose proof Hip as [H1 H2 H3 H4 H5 H6]. destruct Hm as [a en Hc _|id row after en Hc Hr _ _|key m en Hc Hh _ _|id now by_ en Hc|id now|id kind n Hn Hk Hki].
  - split; cbn; try done; [|by apply Forall_app; split; [|constructor]].
    intros i x [[<- _]|[_ H]]%lookup_insert_Some; [lia|]. apply H3 in H. lia.
  - split; cbn; try done; [|by apply Forall_app; split; [|constructor]].
    intros i x [[<- _]|[_ H]]%lookup_insert_Some; [by apply (H3 _ row)|by apply (H3 i x)].
  - split; cbn; try done; [| |by apply Forall_app; split; [|constructor]].
    + intros i j k l [[<- <-]|[Hi Hk]]%lookup_insert_Some [[<- <-]|[Hj Hl]]%lookup_insert_Some E; try done; cbn in E.
      * by destruct (hash_taken_false t _ j l Hh Hl).
      * by destruct (hash_taken_false t _ i k Hh Hk).
      * by apply (H1 i j k l).
    + intros i k [[<- _]|[_ H]]%lookup_insert_Some; [lia|]. apply H2 in H. lia.
  - apply in_place_alter; [apply same_revoked| |done]. by constructor.
  - rewrite <-(with_trail_nil (set_keys _ _ _)). by apply in_place_alter.
  - split; cbn; try done.
    + apply list.NoDup_app. split; [done|]. split; [|apply NoDup_singleton]. by intros x Hx ->%list_elem_of_singleton.
    + rewrite fmap_app, H6. cbn. by rewrite Hk, Hki.
Qed.

Lemma moved_in_place out t t' : rtc (move out) t t' → in_place t → in_place t'.
Proof. induction 1; eauto using move_in_place. Qed.

Lemma move_stopped out t t' hash : in_place t → stopped t hash → move out t t' → stopped t' hash.
Proof.
  intros Hip Hst Hm. destruct Hm as [a en Hc _|id row after en Hc Hr Hid Hd|key m en Hc Hh _ _|id now by_ en Hc|id now|id kind n Hn Hk Hki].
  - destruct Hst as (i & k & Hk & Hh & Hs). exists i, k. split; [done|]. split; [done|]. destruct Hs as [?|(x & Hx & Hd)]; [by left|right].
    exists x. cbn. rewrite lookup_insert_ne; [done|]. intros E. pose proof (ip_accounts _ Hip _ _ Hx). lia.
  - destruct Hst as (i & k & Hk & Hh & Hs). exists i, k. split; [done|]. split; [done|]. destruct Hs as [?|(x & Hx & Hdx)]; [by left|right].
    cbn. destruct (decide (id = km_ServiceAccountID k)) as [->|Hne]; [|exists x; by rewrite lookup_insert_ne].
    eexists. rewrite lookup_insert_eq. split; [reflexivity|]. cbn. rewrite Hr in Hx. injection Hx as <-. intros E.
    apply fmap_None in E. auto.
  - destruct Hst as (i & k & Hk & Hhk & Hs). exists i, k. split; [|done]. cbn. rewrite lookup_insert_ne; [done|]. intros E.
    pose proof (ip_keys _ Hip _ _ Hk). lia.
  - apply stopped_alter; [apply same_revoked|done].
  - rewrite <-(with_trail_nil (set_keys _ _ _)). by apply stopped_alter.
  - exact Hst.
Qed.

Lemma move_few out at_ t t' : (∀ m, clock out m <= at_) → few at_ t → move out t t' → few at_ t'.
Proof.
  intros Hclk Hfew Hm. destruct Hm as [a en Hc _|id row after en Hc Hr Hid Hd|key m en Hc Hh Hcount _|id now by_ en Hc|id now|id kind n Hn Hk Hki];
    [exact Hfew|exact Hfew| | | |exact Hfew].
  - intros acct. destruct (decide (acct = k_ServiceAccountID key)) as [->|Hne].
    + pose proof (count_keys_later t (k_ServiceAccountID key) _ _ (Hclk m)). unfold count_keys in *. cbn.
      pose proof (rows_where_insert (keys t) (λ _ k, (km_ServiceAccountID k =? k_ServiceAccountID key) && working k (whole at_)) (next_key t) (minted key)). lia.
    + etransitivity; [|apply (Hfew acct)]. apply Nat2Z.inj_le, rows_where_le. cbn.
      intros i k [[<- <-]|[_ Hk]]%lookup_insert_Some H; [|by exists k]. apply andb_true_iff in H as [E%Z.eqb_eq _]. cbn in E. congruence.
  - apply few_alter; [apply same_revoked|done].
  - rewrite <-(with_trail_nil (set_keys _ _ _)). by apply few_alter.
Qed.
