(* ===== verification/ServiceProps.v ===== *)
(** * Service accounts and their keys hold what they promise *)

From S2P Require Import Prelude Apperr Clock Hierarchy Role Access Engine Sql Hoare Queue KeyStore ServiceAccounts ServiceFacts.

Local Open Scope Z_scope.

(** The application around the service. *)
Record Setting : Type := mkSetting {
  st_Authorizer : context → option Authorizer;
  st_Tenants : option Tenants;
  st_KeyPrefix : string;
  st_People : nat → list Z → result (gmap Z string);
  st_Random : nat → result string;
  st_Sha : string → string;
  st_DateOnly : Z → string
}.

(** A request, with who makes it, or a run of the notices. *)
Inductive keyOp : Type :=
| OpCreate (who : context) (inp : SaveInput)
| OpUpdate (who : context) (id : Z) (inp : SaveInput)
| OpDeactivate (who : context) (id : Z)
| OpCreateKey (who : context) (id : Z) (inp : KeyInput)
| OpRevokeKey (who : context) (id keyID : Z)
| OpAuthenticate (secret : string)
| OpSend.

Section Runs.
Variables (out : Outside) (x : Setting).
Notation M := (stM (Env KeyTables) error).

Definition create_ who inp := Create out (st_Authorizer x who) (st_Tenants x) (st_People x) who inp.
Definition update_ who id inp := Update out (st_Authorizer x who) (st_Tenants x) (st_People x) who id inp.
Definition deactivate_ who id := Deactivate out (st_Authorizer x who) (st_Tenants x) (st_People x) who id.
Definition createKey_ who id inp :=
  CreateKey out (st_Sha x) (st_Random x) (st_Authorizer x who) (st_Tenants x) (st_KeyPrefix x) (st_People x) who id inp.
Definition revokeKey_ who id keyID := RevokeKey out (st_Authorizer x who) (st_Tenants x) who id keyID.
Definition authenticate_ secret := Authenticate out (st_Sha x) secret.

Definition perform (op : keyOp) : M () :=
  match op with
  | OpCreate who inp => _ ← create_ who inp; mret ()
  | OpUpdate who id inp => _ ← update_ who id inp; mret ()
  | OpDeactivate who id => _ ← deactivate_ who id; mret ()
  | OpCreateKey who id inp => _ ← createKey_ who id inp; mret ()
  | OpRevokeKey who id keyID => revokeKey_ who id keyID
  | OpAuthenticate secret => _ ← authenticate_ secret; mret ()
  | OpSend => _ ← Send out (st_DateOnly x); mret ()
  end.

Definition perform_ops (ops : list keyOp) (e : Env KeyTables) : Env KeyTables := foldl (λ e op, (perform op e).2) e ops.

Lemma moves_perform op : moves out (perform op).
Proof.
  destruct op; cbn [perform]; [| | | |apply moves_RevokeKey| |]; (apply moves_bind; [|intros; apply moves_reads, reads_ret]).
  - apply moves_Create.
  - apply moves_Update.
  - apply moves_Deactivate.
  - apply moves_CreateKey.
  - apply moves_Authenticate.
  - apply moves_Send.
Qed.

Lemma perform_ops_moves ops e : rtc (move out) (tables e) (tables (perform_ops ops e)).
Proof.
  unfold perform_ops. revert e. induction ops as [|op ops IH]; intros e; [apply rtc_refl|]. cbn [foldl]. etransitivity; [|apply IH].
  pose proof (moves_perform op (tables e) e eq_refl) as H. by destruct (perform op e) as [[|] e'].
Qed.

(** An invariant of the moves holds after any operations. *)
Lemma perform_ops_keeps (I : KeyTables → Prop) ops e :
  (∀ t t', I t → move out t t' → I t') → I (tables e) → I (tables (perform_ops ops e)).
Proof.
  intros Hstep. pose proof (perform_ops_moves ops e) as H. induction H as [|t t' t'' Hm _ IH]; [done|]. eauto.
Qed.

Lemma perform_ops_in_place ops e : in_place (tables e) → in_place (tables (perform_ops ops e)).
Proof. apply perform_ops_keeps. intros t t'. apply move_in_place. Qed.

(** ** Stopping a key *)

Lemma h_RevokeKey_stops b0 who id keyID :
  hoare (λ b, b = b0) (revokeKey_ who id keyID)
    (λ _ b, ∀ k, keys b0 !! keyID = Some k → in_place b0 → in_place b ∧ stopped b (km_KeyHash k)) (λ _, True).
Proof.
  unfold revokeKey_, RevokeKey.
  eapply h_bind; [eapply h_weaken; [apply (reads_revoker _ _ b0)|done|exact (λ _ _ H, H)|done]|]. intros actor.
  eapply h_bind with (R := λ key b, (∃ k, keys b0 !! keyID = Some k ∧ key = key_of keyID k) ∧ b = b0).
  - eapply h_bind; [eapply h_weaken; [apply (reads_find out _ _ id b0)|done|exact (λ _ _ H, H)|done]|]. intros found. apply h_mapErr.
    eapply h_bind with (R := λ row b, row = keys b0 !! keyID ∧ b = b0); [apply h_wrapping, h_statement; naive_solver|].
    intros row. apply h_pure. intros ->. destruct (keys b0 !! keyID) as [k|] eqn:E; [|by apply h_throw].
    case_match; [|by apply h_throw]. apply h_ret. intros b ->. split; [|done]. by exists k.
  - intros key. apply h_pure. intros (k & Hk & ->). cbn [k_RevokedAt key_of]. case_bool_decide as Hr.
    { apply h_ret. intros b -> k' Hk' Hip. split; [done|]. exists keyID, k'. split; [done|]. split; [done|]. left. congruence. }
    eapply h_weaken; [apply h_mapErr, (h_Transaction out b0)|done|exact (λ _ _ H, H)|done].
    eapply h_bind with (R := λ _ b, b = b0); [by apply h_Now|]. intros now.
    set (by_ := if bool_decide (sub_Kind actor = KindUser) then sub_ID actor else 0).
    eapply h_bind; [apply h_wrapping, h_wrapping, h_statement with (Q := λ _ b, b = set_keys b0 (alter (revoked_row now by_) keyID (keys b0)) (next_key b0));
      [done|naive_solver]|].
    intros []. apply h_statement; [done|]. intros b -> k' Hk' Hip. rewrite Hk in Hk'. injection Hk' as <-. split.
    + apply (in_place_alter b0 (revoked_row now by_) keyID); [apply same_revoked|by constructor|done].
    + exists keyID, (revoked_row now by_ k). cbn. rewrite lookup_alter_eq, Hk. split; [done|].
      unfold revoked_row. rewrite bool_decide_eq_true_2 by (by destruct (km_RevokedAt k); [destruct Hr|]). split; [done|by left].
Qed.

Lemma h_Deactivate_stops b0 who id :
  hoare (λ b, b = b0) (deactivate_ who id)
    (λ _ b, ∀ i k, keys b0 !! i = Some k → km_ServiceAccountID k = id → in_place b0 → in_place b ∧ stopped b (km_KeyHash k)) (λ _, True).
Proof.
  unfold deactivate_, Deactivate.
  eapply h_bind; [eapply h_weaken; [apply (reads_manager _ _ b0)|done|exact (λ _ _ H, H)|done]|]. intros actor.
  eapply h_bind; [eapply h_weaken; [apply (h_find out _ _ b0)|done|exact (λ _ _ H, H)|done]|]. intros found.
  apply h_pure. intros (row & m & Hr & Ha & _). rewrite Ha. destruct (Active (account_of id row)) eqn:E; cbn [negb].
  - eapply h_bind; [eapply h_weaken; [apply (reads_Now out b0)|done|exact (λ _ _ H, H)|done]|]. intros now.
    set (after := deactivated (account_of id row) (sub_ID actor) now).
    eapply h_bind with (R := λ _ b, ∃ en, clean en ∧
      b = with_trail (set_accounts b0 (<[id := overwritten row (modelOf after)]> (accounts b0)) (next_account b0)) [en]).
    { eapply h_weaken; [apply h_mapErr, (h_Transaction out b0)|done|exact (λ _ _ H, H)|done].
      eapply h_bind with (R := λ _ b, b = set_accounts b0 (<[id := overwritten row (modelOf after)]> (accounts b0)) (next_account b0)).
      - apply h_wrapping, h_wrapping, h_statement; [done|]. intros b ->. cbn. f_equal. apply map_eq. intros j.
        destruct (decide (j = id)) as [->|]; [by rewrite lookup_alter_eq, lookup_insert_eq, Hr|by rewrite lookup_alter_ne, lookup_insert_ne].
      - intros []. apply h_statement; [done|]. intros b ->. eexists. split; [|reflexivity]. done. }
    intros []. apply h_ex. intros en. apply h_pure. intros Hc.
    eapply h_weaken; [apply (reads_Get out (st_Authorizer x who) (st_Tenants x) (st_People x) id)|exact (λ _ H, H)| |done].
    intros v b -> i k Hk Hid Hip. split.
    + apply (move_in_place out b0); [done|]. by apply (mv_account out b0 id row after).
    + exists i, k. split; [done|]. split; [done|]. right. eexists. cbn. rewrite Hid, lookup_insert_eq. split; [reflexivity|done].
  - apply bool_decide_eq_false in E. eapply h_weaken; [apply (reads_describeOne (st_Tenants x) (st_People x) found b0)|done| |done].
    intros v b -> i k Hk Hid Hip. split; [done|]. exists i, k. split; [done|]. split; [done|]. right. exists row. by rewrite Hid.
Qed.

Lemma stopped_refused ops secret e :
  in_place (tables e) → stopped (tables e) (st_Sha x secret) → ∃ err, (authenticate_ secret (perform_ops ops e)).1 = Err err.
Proof.
  intros Hip Hst. set (e' := perform_ops ops e).
  assert (in_place (tables e') ∧ stopped (tables e') (st_Sha x secret)) as [Hip' Hst'].
  { unfold e'. apply (perform_ops_keeps (λ t, in_place t ∧ stopped t (st_Sha x secret))); [|done].
    intros t t' [H1 H2] Hm. split; [by eapply move_in_place|by eapply move_stopped]. }
  pose proof (h_Authenticate out (st_Sha x) (tables e') secret e' eq_refl) as H. unfold authenticate_.
  destruct (Authenticate out (st_Sha x) secret e') as [[c|err] e'']; [|by exists err]. exfalso.
  destruct H as [(m & id & k & a & Hk & Hh & Hr & _ & Ha & Hd & _) _]. destruct Hst' as (i & k' & Hk' & Hh' & Hs).
  assert (id = i) as -> by (eapply (ip_hashes _ Hip' id i k k'); congruence). assert (k = k') as <- by congruence.
  destruct Hs as [?|(a' & Ha' & Hd')]; [done|]. congruence.
Qed.
End Runs.

(** C17. A key that was stopped never works again. Once revoking a key answered without
    an error, or deactivating its account did, the secret of the key is refused after
    whatever operations of whoever follow, in whatever order and with whatever call
    failing. *)
Theorem stopped_for_good (out : Outside) (x : Setting) (e : Env KeyTables) (who : context) (keyID : Z) (k : keyModel) (secret : string)
    (ops : list keyOp) :
  in_place (tables e) → keys (tables e) !! keyID = Some k → km_KeyHash k = st_Sha x secret →
  (∀ id e1, revokeKey_ out x who id keyID e = (Ok (), e1) → ∃ err, (authenticate_ out x secret (perform_ops out x ops e1)).1 = Err err) ∧
  (∀ v e1, deactivate_ out x who (km_ServiceAccountID k) e = (Ok v, e1) →
     ∃ err, (authenticate_ out x secret (perform_ops out x ops e1)).1 = Err err).
Proof.
  intros Hip Hk Hh. split.
  - intros id e1 H. pose proof (h_RevokeKey_stops out x (tables e) who id keyID e eq_refl) as Hr. rewrite H in Hr.
    destruct (Hr k Hk Hip) as [Hip1 Hs]. apply stopped_refused; [done|]. by rewrite <-Hh.
  - intros v e1 H. pose proof (h_Deactivate_stops out x (tables e) who (km_ServiceAccountID k) e eq_refl) as Hr. rewrite H in Hr.
    destruct (Hr keyID k Hk eq_refl Hip) as [Hip1 Hs]. apply stopped_refused; [done|]. by rewrite <-Hh.
Qed.

(** ** A sample *)

(** Everybody may do everything; a hash is the text itself. *)
Definition allowAll : Authorizer := mkAuthorizer (λ _ _, None) (λ _ _, Err (errNew "no places")).
Definition freely : Setting :=
  mkSetting (λ _, Some allowAll) None "" (λ _ ids, Ok (list_to_map ((λ id, (id, "somebody")) <$> ids))) (λ n, Ok (Str.fmt_d (Z.of_nat n))) id (λ _, "").
Definition calmDay : Outside := mkOutside (λ _, None) (λ _, 100 * Time.Second) (λ _, false).
Definition admin : context := WithPrincipal (User 7 0).

Definition feed : accountModel := mkAccountModel "feed" "" None 7 7 0 0 None None 0.
Definition feedKey (hash : string) : keyModel := mkKeyModel 1 "main" hash hash 7 0 None None None 0.
Definition oneKey : KeyTables := mkKeyTables {[1 := feed]} 2 {[1 := feedKey "sak_1"]} 2 [] [] [].

Lemma oneKey_in_place : in_place oneKey.
Proof.
  split; cbn; try done.
  - intros i j k l [<- _]%lookup_singleton_Some [<- _]%lookup_singleton_Some. done.
  - by intros i k [<- _]%lookup_singleton_Some.
  - by intros i a [<- _]%lookup_singleton_Some.
  - constructor.
Qed.

Lemma stopped_for_good_witness :
  (authenticate_ calmDay freely "sak_1" (mkEnv oneKey 0)).1 = Ok (mkCaller 1 1 "feed" 0) ∧
  ∃ e1, revokeKey_ calmDay freely admin 1 1 (mkEnv oneKey 0) = (Ok (), e1) ∧
    ∃ err, (authenticate_ calmDay freely "sak_1" (perform_ops calmDay freely [OpUpdate admin 1 (mkSaveInput "feed" "" None 7); OpSend] e1)).1 = Err err.
Proof.
  split; [vm_compute; reflexivity|]. eexists. split; [vm_compute; reflexivity|].
  apply (proj1 (stopped_for_good calmDay freely (mkEnv oneKey 0) admin 1 (feedKey "sak_1") "sak_1"
    [OpUpdate admin 1 (mkSaveInput "feed" "" None 7); OpSend] oneKey_in_place eq_refl eq_refl) 1).
  vm_compute. reflexivity.
Defined.

(** The promise is of requests that run one after the other. An update that read the
    account before it was deactivated writes what it read, and the key works again. *)
Theorem stale_update_reactivates :
  let inp := mkSaveInput "renamed" "" None 7 in
  match updateRead calmDay (Some allowAll) None (st_People freely) admin 1 inp (mkEnv oneKey 0) with
  | (Ok (actor, found), e1) =>
      match deactivate_ calmDay freely admin 1 e1 with
      | (Ok _, e2) =>
          (authenticate_ calmDay freely "sak_1" e2).1 = Err unauthorizedKey ∧
          match updateWrite calmDay (Some allowAll) None (st_People freely) 1 inp actor found e2 with
          | (Ok _, e3) => (authenticate_ calmDay freely "sak_1" e3).1 = Ok (mkCaller 1 1 "renamed" 0)
          | _ => False
          end
      | _ => False
      end
  | _ => False
  end.
Proof. vm_compute. done. Qed.

(** ** Authentication *)

(** A text that can be a secret. *)
Definition plausible (secret : string) : Prop := secret ≠ "" ∧ (String.length secret <= maxSecret)%nat.

Lemma plausible_passes secret : plausible secret → bool_decide (secret = "") || (maxSecret <? String.length secret)%nat = false.
Proof. intros [H1 H2]. rewrite bool_decide_eq_false_2 by done. by apply Nat.ltb_ge. Qed.

Section Answers.
Variables (out : Outside) (sha256_hex : string → string) (now : Z).
Hypothesis no_fault : ∀ n, fault out n = None.
Hypothesis still : ∀ n, clock out n = now.

(** What [Authenticate] answers when no call fails. *)
Lemma Authenticate_runs secret e :
  plausible secret →
  (Authenticate out sha256_hex secret e).1 =
    match hash_row (tables e) (sha256_hex secret) with
    | Some (id, k) =>
        match accounts (tables e) !! km_ServiceAccountID k with
        | Some a => if Usable (key_of id k) now && Active (account_of (km_ServiceAccountID k) a)
                    then Ok (mkCaller (km_ServiceAccountID k) id (am_Name a) (default 0 (am_TenantID a))) else Err unauthorizedKey
        | None => Err unauthorizedKey
        end
    | None => Err unauthorizedKey
    end.
Proof.
  intros Hp. unfold Authenticate. rewrite (plausible_passes _ Hp). unfold FindByKeyHash, query, statement, HashSecret.
  unfold mbind, stM_bind, mapErr, wrapping. cbn. rewrite no_fault. cbn.
  destruct (hash_row (tables e) (sha256_hex secret)) as [[id k]|]; cbn; [|done]. rewrite no_fault. cbn.
  destruct (accounts (tables e) !! km_ServiceAccountID k) as [a|]; cbn; [|done]. rewrite still.
  destruct (Usable (key_of id k) now), (Active (account_of (km_ServiceAccountID k) a)); cbn; try done.
  set (touch := match km_LastUsedAt k with None => true | Some last => Time.Minute <=? Time.Sub now last end).
  destruct touch; [|done]. unfold attempt, TouchKey, wrapping, exec, statement. cbn. by rewrite no_fault.
Qed.
End Answers.

(** Who a secret lets in. Whatever call fails, an answer without an error names the
    account and the key whose stored hash is the secret's, when at a moment of the
    request the key is neither revoked nor expired and the account is active, and a
    refusal changes nothing. When no call fails and the clock stands still, that is
    also enough, and every other secret gets the same error. *)
Theorem Authenticate_decides (out : Outside) (sha256_hex : string → string) (secret : string) (e : Env KeyTables) :
  in_place (tables e) →
  match Authenticate out sha256_hex secret e with
  | (Ok c, _) => ∃ m, bears (tables e) (sha256_hex secret) (clock out m) c
  | (Err _, e') => tables e' = tables e
  end ∧
  ∀ now, (∀ n, fault out n = None) → (∀ n, clock out n = now) →
    (∀ c, plausible secret → bears (tables e) (sha256_hex secret) now c → (Authenticate out sha256_hex secret e).1 = Ok c) ∧
    ((plausible secret → ∀ c, ¬ bears (tables e) (sha256_hex secret) now c) → (Authenticate out sha256_hex secret e).1 = Err unauthorizedKey).
Proof.
  intros Hip. split.
  { pose proof (h_Authenticate out sha256_hex (tables e) secret e eq_refl) as H.
    by destruct (Authenticate out sha256_hex secret e) as [[c|err] e']; [destruct H|]. }
  intros now Hnf Hst. split.
  - intros c Hp (id & k & a & Hk & Hh & Hr & Hx & Ha & Hd & ->). rewrite (Authenticate_runs out sha256_hex now Hnf Hst secret e Hp).
    destruct (hash_row _ _) as [[id' k']|] eqn:E; [|by destruct (hash_row_None _ _ E id k Hk)].
    apply hash_row_Some in E as [Hk' Hh']. assert (id' = id) as -> by (eapply (ip_hashes _ Hip id' id k' k); congruence).
    assert (k' = k) as -> by congruence. rewrite Ha, (proj2 (Usable_key_of id k now)) by done. unfold Active. cbn. by rewrite Hd.
  - intros Hnone. destruct (decide (plausible secret)) as [Hp|Hp].
    + rewrite (Authenticate_runs out sha256_hex now Hnf Hst secret e Hp).
      destruct (hash_row _ _) as [[id k]|] eqn:E; [|done]. apply hash_row_Some in E as [Hk Hh].
      destruct (accounts (tables e) !! _) as [a|] eqn:Ea; [|done]. destruct (Usable (key_of id k) now) eqn:Eu; [|done].
      destruct (Active (account_of _ a)) eqn:Eact; [|done]. exfalso. apply Usable_key_of in Eu as [Hr Hx]. apply bool_decide_eq_true in Eact.
      eapply (Hnone Hp). exists id, k, a. done.
    + unfold Authenticate. case_bool_decide as Hs; [done|]. destruct (maxSecret <? String.length secret)%nat eqn:El; [done|].
      apply Nat.ltb_ge in El. by destruct Hp.
Qed.

Lemma Authenticate_decides_witness :
  bears oneKey "sak_1" (100 * Time.Second) (mkCaller 1 1 "feed" 0) ∧
  (Authenticate calmDay id "sak_1" (mkEnv oneKey 0)).1 = Ok (mkCaller 1 1 "feed" 0) ∧
  (Authenticate calmDay id "sak_2" (mkEnv oneKey 0)).1 = Err unauthorizedKey.
Proof.
  assert (bears oneKey "sak_1" (100 * Time.Second) (mkCaller 1 1 "feed" 0)) as Hb by (by exists 1, (feedKey "sak_1"), feed).
  split; [exact Hb|]. split.
  - apply (proj2 (Authenticate_decides calmDay id "sak_1" (mkEnv oneKey 0) oneKey_in_place) (100 * Time.Second)); [done..| |exact Hb].
    split; [done|]. vm_compute. lia.
  - apply (proj2 (Authenticate_decides calmDay id "sak_2" (mkEnv oneKey 0) oneKey_in_place) (100 * Time.Second)); [done..|].
    intros _ c (i & k & a & Hk & Hh & _). cbn [keys tables oneKey] in Hk. apply lookup_singleton_Some in Hk as [_ <-]. vm_compute in Hh. discriminate Hh.
Defined.

(** ** Keys that work at once *)

(** An account never has more than ten keys that work. From tables where that
    holds at a time that no reading of the clock comes after, it holds at that time
    after any requests, one after the other, with whatever call failing. *)
Theorem keys_stay_few (out : Outside) (x : Setting) (ops : list keyOp) (e : Env KeyTables) (T : Z) :
  (∀ m, clock out m <= T) → (∀ id, count_keys (tables e) id T <= MaxActiveKeys) →
  ∀ id, count_keys (tables (perform_ops out x ops e)) id T <= MaxActiveKeys.
Proof. intros HT H. apply (perform_ops_keeps out x (few T)); [|done]. intros t t'. by apply move_few. Qed.

Definition mint (n : nat) : list keyOp := replicate n (OpCreateKey admin 1 (mkKeyInput "k" None)).

Lemma keys_stay_few_witness :
  count_keys (tables (perform_ops calmDay freely (mint 12) (mkEnv oneKey 0))) 1 (100 * Time.Second) = MaxActiveKeys ∧
  count_keys (tables (perform_ops calmDay freely (mint 12) (mkEnv oneKey 0))) 1 (100 * Time.Second) <= MaxActiveKeys.
Proof.
  split; [vm_compute; reflexivity|]. apply (keys_stay_few calmDay freely (mint 12) (mkEnv oneKey 0) (100 * Time.Second)); [done|].
  intros id. unfold count_keys. cbn [keys tables oneKey]. etransitivity; [apply Nat2Z.inj_le, (rows_where_insert (∅ : gmap Z keyModel))|]. vm_compute. discriminate.
Defined.

(** ** A new key opens the door *)

Lemma prefix_not_empty KeyPrefix text : prefix KeyPrefix +:+ text ≠ "".
Proof. unfold prefix. case_bool_decide as H; [done|]. by destruct KeyPrefix. Qed.

(** C18. The secret [CreateKey] shows is the key: once it answered, whatever call failed
    on the way, the secret lets its account in at any time before the expiry, to the
    second, when no call fails then. *)
Theorem CreateKey_Authenticate_roundtrip (out out' : Outside) (x : Setting) (who : context) (id : Z) (inp : KeyInput) (e : Env KeyTables)
    (ck : CreatedKey) (e1 : Env KeyTables) (now : Z) :
  in_place (tables e) → createKey_ out x who id inp e = (Ok ck, e1) → plausible (ck_Secret ck) →
  (∀ n, fault out' n = None) → (∀ n, clock out' n = now) → (∀ until, ki_ExpiresAt inp = Some until → now < whole until) →
  ∃ c, (authenticate_ out' x (ck_Secret ck) e1).1 = Ok c ∧ c_AccountID c = id ∧ c_KeyID c = next_key (tables e).
Proof.
  intros Hip Hc Hp Hnf Hst Hexp.
  pose proof (h_CreateKey out (st_Sha x) (st_Random x) (st_Authorizer x who) (st_Tenants x) (st_KeyPrefix x) (st_People x) who (tables e) id inp e eq_refl) as H.
  unfold createKey_ in Hc. rewrite Hc in H. destruct H as (row & m & m' & key & en & Hr & Hd & Hcount & Hx & Hid & Hh & Hfree & Hcl & Ht).
  assert (in_place (tables e1)) as Hip1.
  { rewrite Ht. apply (move_in_place out (tables e)); [done|]. apply (mv_mint out (tables e) key m); [done..| |]; rewrite Hid; [done|by rewrite Hr]. }
  unfold authenticate_. eexists. split.
  - rewrite (Authenticate_runs out' (st_Sha x) now Hnf Hst _ _ Hp).
    destruct (hash_row (tables e1) _) as [[i k]|] eqn:E.
    2:{ exfalso. eapply (hash_row_None _ _ E (next_key (tables e)) (minted key)); [|done]. rewrite Ht. cbn. by rewrite lookup_insert_eq. }
    apply hash_row_Some in E as [Hk Hhk]. assert (i = next_key (tables e)) as ->.
    { eapply (ip_hashes _ Hip1 _ _ k (minted key)); [done| |by rewrite Hhk]. rewrite Ht. cbn. by rewrite lookup_insert_eq. }
    rewrite Ht in Hk. cbn in Hk. rewrite lookup_insert_eq in Hk. injection Hk as <-. cbn [km_ServiceAccountID minted]. rewrite Hid, Ht. cbn [accounts with_trail set_keys]. rewrite Hr.
    rewrite (proj2 (Usable_key_of _ _ now)); [unfold Active; cbn; by rewrite Hd|]. split; [done|]. cbn. intros u0 H.
    apply fmap_Some in H as (u & Hu & ->). apply Hexp. rewrite Hu in Hx. unfold keyExpiry in Hx.
    destruct (ki_ExpiresAt inp) as [r|]; [|done]. by destruct (_ || _); [|injection Hx as ->].
  - done.
Qed.

Lemma CreateKey_Authenticate_roundtrip_witness :
  match createKey_ calmDay freely admin 1 (mkKeyInput "spare" (Some (200 * Time.Second))) (mkEnv oneKey 0) with
  | (Ok ck, e1) => ck_Secret ck = "sak_7" ∧ ∃ c, (authenticate_ calmDay freely (ck_Secret ck) e1).1 = Ok c ∧ c_AccountID c = 1 ∧ c_KeyID c = 2
  | _ => False
  end.
Proof.
  destruct (createKey_ calmDay freely admin 1 (mkKeyInput "spare" (Some (200 * Time.Second))) (mkEnv oneKey 0)) as [[ck|err] e1] eqn:E.
  - assert (ck_Secret ck = "sak_7") as Es.
    { assert ((λ r, match r with Ok ck => ck_Secret ck | Err _ => "" end) (createKey_ calmDay freely admin 1 (mkKeyInput "spare" (Some (200 * Time.Second))) (mkEnv oneKey 0)).1 = "sak_7") as H
        by (vm_compute; reflexivity). rewrite E in H. exact H. }
    split; [exact Es|].
    apply (CreateKey_Authenticate_roundtrip calmDay calmDay freely admin 1 (mkKeyInput "spare" (Some (200 * Time.Second))) (mkEnv oneKey 0) ck e1 (100 * Time.Second));
      [exact oneKey_in_place|exact E| |done..|].
    + rewrite Es. split; [done|]. vm_compute. lia.
    + intros u [= <-]. vm_compute. reflexivity.
  - assert ((λ r, match r with Ok _ => true | Err _ => false end) (createKey_ calmDay freely admin 1 (mkKeyInput "spare" (Some (200 * Time.Second))) (mkEnv oneKey 0)).1 = true) as H
      by (vm_compute; reflexivity). rewrite E in H. discriminate H.
Defined.

(** ** Notices *)

Section Told.
Variables (out : Outside) (DateOnly : Z → string) (now : Z).
Hypothesis no_fault : ∀ n, fault out n = None.
Hypothesis still : ∀ n, clock out n = now.

Definition told_all (S : list (Z * NoticeKind)) (b : KeyTables) : Prop := ∀ p, p ∈ S → p ∈ notices b.

Lemma told_all_app S b p : told_all S b → told_all S (mkKeyTables (accounts b) (next_account b) (keys b) (next_key b) (notices b ++ [p]) (trail b) (published b)).
Proof. intros H q Hq. apply elem_of_app. left. by apply H. Qed.

Lemma h_tell_told S item kind t :
  hoare (told_all S) (tell out DateOnly item kind t) (λ _, told_all ((k_ID (ka_Key item), kind) :: S)) (λ _, False).
Proof.
  apply h_wrapping, (h_Transaction_nf out no_fault). set (p := (k_ID (ka_Key item), kind)).
  eapply h_bind with (R := λ _, told_all (p :: S)).
  - apply h_wrapping, h_wrapping, (h_statement_nf out no_fault). intros b Hb. fold p. destruct (contains (notices b) p) eqn:E; cbn.
    + apply contains_spec in E. by intros q [->|Hq]%elem_of_cons; [|apply Hb].
    + intros q [->|Hq]%elem_of_cons; cbn; apply elem_of_app; [right; constructor|left; by apply Hb].
  - intros [|]; cbn [negb]; [|by apply h_ret]. eapply h_bind with (R := λ _, told_all (p :: S)); [|intros; by apply h_ret].
    apply h_wrapping, (h_statement_nf out no_fault). by intros b Hb.
Qed.

Lemma h_tell_kinds S item told kinds t n :
  (∀ kd, kd ∈ told → (k_ID (ka_Key item), kd) ∈ S) →
  hoare (told_all S) (tell_kinds out DateOnly item told kinds t n) (λ _, told_all (((k_ID (ka_Key item),.) <$> kinds) ++ S)) (λ _, False).
Proof.
  revert S n. induction kinds as [|kind kinds IH]; intros S n Ht; [by apply h_ret|]. cbn [tell_kinds].
  destruct (contains told kind) eqn:E.
  - apply contains_spec in E. eapply h_weaken; [apply (IH S n Ht)|done| |done]. intros ? b Hb p Hp. apply Hb. cbn in Hp.
    apply elem_of_cons in Hp as [->|?]; [apply elem_of_app; right; by apply Ht|done].
  - eapply h_bind with (R := λ _, told_all ((k_ID (ka_Key item), kind) :: S)).
    { apply h_attempt. eapply h_weaken; [apply h_tell_told|done|done|done]. }
    intros r. eapply h_weaken; [apply IH|done| |done].
    + intros kd Hkd. apply list_elem_of_further. by apply Ht.
    + intros ? b Hb p Hp. apply Hb. cbn in Hp. rewrite elem_of_app, !elem_of_cons in *. rewrite elem_of_app in Hp. tauto.
Qed.

Definition due_of (t : Z) (item : KeyWithAccount) : list (Z * NoticeKind) := (k_ID (ka_Key item),.) <$> key_Notices (ka_Key item) t.

Lemma h_tell_items S items told t n :
  (∀ i kd, kd ∈ told i → (i, kd) ∈ S) →
  hoare (told_all S) (tell_items out DateOnly items told t n) (λ _, told_all (concat (due_of t <$> items) ++ S)) (λ _, False).
Proof.
  revert S n. induction items as [|item items IH]; intros S n Ht; [by apply h_ret|]. cbn [tell_items].
  eapply h_bind; [apply (h_tell_kinds S); auto|]. intros n'. fold (due_of t item).
  eapply h_weaken; [apply IH|done| |done].
  - intros i kd Hkd. apply elem_of_app. right. by apply Ht.
  - intros ? b Hb p Hp. apply Hb. cbn in Hp. rewrite !elem_of_app in *. tauto.
Qed.

(** The keys in a condition are among those the run looks at. *)
Lemma h_WorkingKeys b0 :
  hoare (λ b, b = b0) (WorkingKeys out now)
    (λ items b, (∀ id k a, keys b0 !! id = Some k → accounts b0 !! km_ServiceAccountID k = Some a → am_DeactivatedAt a = None →
       key_Notices (key_of id k) now ≠ [] → ∃ item, item ∈ items ∧ ka_Key item = key_of id k) ∧ b = b0) (λ _, False).
Proof.
  unfold WorkingKeys. set (sel := rows_where (keys b0) (λ _ k, working k (whole now) && activeAccount b0 (km_ServiceAccountID k))).
  eapply h_bind with (R := λ found b, found = sel ∧ b = b0).
  { apply h_wrapping, (h_statement_nf out no_fault). by intros b ->. }
  intros found. apply h_pure. intros ->.
  assert (∀ id k a, keys b0 !! id = Some k → accounts b0 !! km_ServiceAccountID k = Some a → am_DeactivatedAt a = None →
    key_Notices (key_of id k) now ≠ [] → (id, k) ∈ sel) as Hsel.
  { intros id k a Hk Ha Hd Hn. apply elem_of_rows_where. split; [done|]. unfold key_Notices in Hn.
    destruct (Usable (key_of id k) now) eqn:Eu; [|done]. apply Usable_key_of in Eu as [Hr Hx]. unfold activeAccount, working.
    rewrite Ha, !bool_decide_eq_true_2, andb_true_r by done. cbn. destruct (km_ExpiresAt k) as [u|]; [|done].
    apply Z.ltb_lt. eapply Z.le_lt_trans; [|by apply Hx]. unfold whole. pose proof (Z.mod_pos_bound now Time.Second ltac:(done)). lia. }
  destruct sel as [|r rest] eqn:Es.
  - apply h_ret. intros b ->. split; [|done]. intros id k a Hk Ha Hd Hn. pose proof (Hsel id k a Hk Ha Hd Hn) as H. by apply elem_of_nil in H.
  - rewrite <-Es. eapply h_bind with (R := λ byID b, byID = accounts b0 ∧ b = b0).
    { apply h_wrapping, (h_statement_nf out no_fault). by intros b ->. }
    intros byID. apply h_pure. intros ->. apply h_ret. intros b ->. split; [|done]. intros id k a Hk Ha Hd Hn.
    exists (mkKeyWithAccount (key_of id k) (account_of (km_ServiceAccountID k) a)). split; [|done].
    apply list_elem_of_omap. exists (id, k). split; [rewrite Es; by apply (Hsel id k a)|]. cbn. by rewrite Ha.
Qed.

Lemma h_Send_told b0 :
  hoare (λ b, b = b0) (Send out DateOnly)
    (λ _ b, ∀ id k a kind, keys b0 !! id = Some k → accounts b0 !! km_ServiceAccountID k = Some a → am_DeactivatedAt a = None →
       kind ∈ key_Notices (key_of id k) now → (id, kind) ∈ notices b) (λ _, False).
Proof.
  unfold Send. eapply h_bind with (R := λ t b, t = now ∧ b = b0); [apply h_Now; intros b m ->; by rewrite still|].
  intros t. apply h_pure. intros ->. eapply h_bind; [apply h_mapErr, h_WorkingKeys|]. intros items. apply h_pure. intros Hitems.
  eapply h_bind with (R := λ told b, (∀ i kd, kd ∈ told i → (i, kd) ∈ notices b0) ∧ b = b0).
  { apply h_mapErr. unfold NoticesSent. case_match; [apply h_ret; intros b ->; split; [by intros i kd ?%elem_of_nil|done]|].
    apply h_wrapping, (h_statement_nf out no_fault). intros b ->. split; [|done]. cbn. intros i kd Hkd.
    case_match; [|by apply elem_of_nil in Hkd]. apply list_elem_of_omap in Hkd as ([j kd'] & Hin & E). cbn in E.
    destruct (Z.eqb_spec j i) as [->|]; [|done]. by injection E as ->. }
  intros told. apply h_pure. intros Ht. eapply h_weaken; [apply (h_tell_items (notices b0)); exact Ht|by intros b -> p|  |done].
  intros n b Hb id k a kind Hk Ha Hd Hn. destruct (Hitems id k a Hk Ha Hd) as (item & Hin & Hitem); [intros E; rewrite E in Hn; by apply elem_of_nil in Hn|].
  apply Hb, elem_of_app. left. apply list_elem_of_In, in_concat. exists (due_of now item). split; apply list_elem_of_In.
  - apply list_elem_of_fmap. by exists item.
  - unfold due_of. rewrite Hitem. apply list_elem_of_fmap. by exists kind.
Qed.
End Told.

(** A key's owner is told of each condition once. After any requests and any runs
    of the notices, with whatever call failing, no key and condition was published
    twice; and a run in which no call fails has published every condition that a
    working key of an active account was in. *)
Theorem notices_told_once (out : Outside) (x : Setting) (ops : list keyOp) (e : Env KeyTables) :
  in_place (tables e) →
  NoDup ((λ n, (kn_KeyID n, kn_Kind n)) <$> published (tables (perform_ops out x ops e))) ∧
  ∀ now, (∀ n, fault out n = None) → (∀ n, clock out n = now) →
    ∃ sent e', Send out (st_DateOnly x) e = (Ok sent, e') ∧
      ∀ id k a kind, keys (tables e) !! id = Some k → accounts (tables e) !! km_ServiceAccountID k = Some a → am_DeactivatedAt a = None →
        kind ∈ key_Notices (key_of id k) now → ∃ n, n ∈ published (tables e') ∧ kn_KeyID n = id ∧ kn_Kind n = kind.
Proof.
  intros Hip. split.
  { destruct (perform_ops_in_place out x ops e Hip) as [_ _ _ _ Hn Hp]. by rewrite Hp. }
  intros now Hnf Hst. destruct (h_total _ _ _ e (h_Send_told out (st_DateOnly x) now Hnf Hst (tables e)) eq_refl) as (sent & e' & E & H).
  exists sent, e'. split; [done|]. intros id k a kind Hk Ha Hd Hn. specialize (H id k a kind Hk Ha Hd Hn).
  assert (in_place (tables e')) as [_ _ _ _ _ Hp].
  { pose proof (moves_Send out (st_DateOnly x) (tables e) e eq_refl) as Hm. rewrite E in Hm. by apply (moved_in_place out (tables e)). }
  rewrite <-Hp in H. apply list_elem_of_fmap in H as (n & [= -> ->] & Hin). by exists n.
Qed.

(** A day when a key expires in ten days, which was last used long ago. *)
Definition lateDay : Outside := mkOutside (λ _, None) (λ _, 100 * 24 * Time.Hour) (λ _, false).
Definition expiring : KeyTables :=
  mkKeyTables {[1 := feed]} 2 {[1 := mkKeyModel 1 "main" "sak_1" "sak_1" 7 0 None (Some (110 * 24 * Time.Hour)) None 0]} 2 [] [] [].

Lemma expiring_in_place : in_place expiring.
Proof.
  split; cbn; try done.
  - intros i j k l [<- _]%lookup_singleton_Some [<- _]%lookup_singleton_Some. done.
  - by intros i k [<- _]%lookup_singleton_Some.
  - by intros i a [<- _]%lookup_singleton_Some.
  - constructor.
Qed.

Lemma notices_told_once_witness :
  ((λ n, (kn_KeyID n, kn_Kind n, kn_Days n)) <$> published (tables (perform_ops lateDay freely [OpSend; OpSend] (mkEnv expiring 0)))) =
    [(1, NoticeExpiring, 10); (1, NoticeUnused, 100)] ∧
  NoDup ((λ n, (kn_KeyID n, kn_Kind n)) <$> published (tables (perform_ops lateDay freely [OpSend; OpSend] (mkEnv expiring 0)))).
Proof.
  split; [vm_compute; reflexivity|].
  apply (proj1 (notices_told_once lateDay freely [OpSend; OpSend] (mkEnv expiring 0) expiring_in_place)).
Defined.

(** ** Tenants *)

(** A visibility whose places are all of other tenants. *)
Lemma visible_loop_unseen level clauses seen tenant :
  (∀ c, c ∈ clauses → ∃ place, At (cl_Chain c) level = Some place ∧ s_ID place ≠ tenant) →
  tenant ∉ seen → v_All (visible_loop level clauses seen) = false ∧ tenant ∉ v_Tenants (visible_loop level clauses seen).
Proof.
  revert seen. induction clauses as [|c clauses IH]; intros seen Hc Hs; [done|]. cbn [visible_loop].
  destruct (Hc c) as (place & -> & Hp); [constructor|]. apply IH; [intros c' Hc'; apply Hc; by constructor|].
  case_match; set_solver.
Qed.

Lemma Sees_unseen v a : v_All v = false ∧ ac_TenantID a ∉ v_Tenants v → Sees v a = false.
Proof.
  intros [Ha Ht]. unfold Sees. rewrite Ha. cbn [orb]. apply not_true_is_false.
  intros (t & Hin & [_ ->%Z.eqb_eq]%andb_true_iff)%existsb_elem. done.
Qed.

Section Tenants.
Variables (out : Outside) (au : Authorizer) (tn : Tenants) (b0 : KeyTables) (id : Z) (row : accountModel).
Variables (people : nat → list Z → result (gmap Z string)) (who : context).
Notation tenant := (default 0 (am_TenantID row)).
Notation refuses m := (hoare (λ b, b = b0) m (λ _ _, False) (λ b, b = b0)).
Hypothesis elsewhere : ∀ n set, au_Access au n View = Ok set →
  ∀ c, c ∈ as_Clauses set → ∃ place, At (cl_Chain c) (tn_Level tn) = Some place ∧ s_ID place ≠ tenant.
Hypothesis there : accounts b0 !! id = Some row.

Lemma h_visibility_unseen :
  hoare (λ b, b = b0) (visibility (Some au) (Some tn)) (λ v b, (v_All v = false ∧ tenant ∉ v_Tenants v) ∧ b = b0) (λ b, b = b0).
Proof.
  eapply h_bind; [apply reads_require|]. intros []. eapply h_bind with (R := λ set b, (∃ n, au_Access au n View = Ok set) ∧ b = b0).
  { apply h_wrapping, h_ask; [done|]. intros b n set -> H. split; [by exists n|done]. }
  intros set. apply h_pure. intros [n Hn]. apply h_ret. intros b ->. split; [|done].
  apply visible_loop_unseen; [exact (elsewhere n set Hn)|apply not_elem_of_nil].
Qed.

Lemma h_find_unseen : refuses (find out (Some au) (Some tn) id).
Proof.
  eapply h_bind; [apply h_visibility_unseen|]. intros v. apply h_pure. intros Hv%(Sees_unseen v (account_of id row)).
  eapply h_bind; [apply reads_Now|]. intros now.
  eapply h_bind with (R := λ found b, su_Account found = account_of id row ∧ b = b0).
  - apply h_mapErr. eapply h_bind with (R := λ r b, r = Some row ∧ b = b0).
    { apply h_wrapping, h_statement; [done|]. intros b ->. by rewrite <-there. }
    intros r. apply h_pure. intros ->. eapply h_bind with (R := λ sums b, (∃ s, sums = [s] ∧ su_Account s = account_of id row) ∧ b = b0).
    { unfold summaries. eapply h_bind with (R := λ _ b, b = b0); [apply h_wrapping, h_statement; naive_solver|]. intros counts.
      eapply h_bind with (R := λ _ b, b = b0); [apply h_wrapping, h_statement; naive_solver|]. intros last. apply h_ret. intros b ->.
      split; [|done]. by eexists. }
    intros sums. apply h_pure. intros (s & -> & Hs). apply h_ret. by intros b ->.
  - intros found. apply h_pure. intros ->. rewrite Hv. by apply h_throw.
Qed.

Lemma reads_at {A} (m : stM (Env KeyTables) error A) : reads m → hoare (λ b, b = b0) m (λ _ b, b = b0) (λ b, b = b0).
Proof. intros H. apply H. Qed.

(** A step that asks for the account ends there. *)
Lemma h_find_first {A} (f : Summary → stM (Env KeyTables) error A) : refuses (s ← find out (Some au) (Some tn) id; f s).
Proof. eapply h_bind; [apply h_find_unseen|]. by intros s e. Qed.
Lemma h_reads_first {A B} (m : stM (Env KeyTables) error A) (f : A → stM (Env KeyTables) error B) :
  reads m → (∀ a, refuses (f a)) → refuses (m ≫= f).
Proof. intros Hm Hf. eapply h_bind; [apply Hm|done]. Qed.
Lemma h_refused_first {A B} (m : stM (Env KeyTables) error A) (f : A → stM (Env KeyTables) error B) :
  refuses m → refuses (m ≫= f).
Proof. intros Hm. eapply h_bind; [apply Hm|]. by intros a e. Qed.

Lemma h_Update_unseen inp : refuses (Update out (Some au) (Some tn) people who id inp).
Proof. apply h_refused_first, h_reads_first; [apply reads_check|]. intros []. apply h_reads_first; [apply reads_manager|]. intros. apply h_find_first. Qed.
Lemma h_Deactivate_unseen : refuses (Deactivate out (Some au) (Some tn) people who id).
Proof. apply h_reads_first; [apply reads_manager|]. intros. apply h_find_first. Qed.
Lemma h_CreateKey_unseen sha random pre inp : refuses (CreateKey out sha random (Some au) (Some tn) pre people who id inp).
Proof.
  apply h_refused_first. unfold keyTarget. case_match; [by apply h_throw|]. apply h_reads_first; [apply reads_manager|]. intros. apply h_find_first.
Qed.
Lemma h_RevokeKey_unseen keyID : refuses (RevokeKey out (Some au) (Some tn) who id keyID).
Proof. apply h_reads_first; [apply reads_revoker|]. intros. apply h_refused_first, h_find_first. Qed.

Lemma h_List_unseen leb :
  hoare (λ b, b = b0) (List_ out leb (Some au) (Some tn) people) (λ vs b, id ∉ av_ID <$> vs ∧ b = b0) (λ b, b = b0).
Proof.
  eapply h_bind; [apply h_visibility_unseen|]. intros v. apply h_pure. intros [Ha Ht]. eapply h_bind; [apply reads_Now|]. intros now.
  eapply h_bind with (R := λ found b, id ∉ (ac_ID ∘ su_Account) <$> found ∧ b = b0).
  - apply h_mapErr. unfold store_List. case_match; [apply h_ret; intros b ->; split; [apply not_elem_of_nil|done]|].
    eapply h_bind with (R := λ rows b, id ∉ rows.*1 ∧ b = b0).
    { apply h_wrapping, h_statement; [done|]. intros b ->. split; [|done]. cbn [fst].
      intros ([i r] & -> & Hin)%list_elem_of_fmap. rewrite stable_sort_perm in Hin. apply elem_of_rows_where in Hin as [Hr Hp]. cbn [fst] in *.
      rewrite there in Hr. injection Hr as <-. rewrite Ha in Hp. cbn [orb] in Hp. destruct (am_TenantID row); [|done]. by apply contains_spec in Hp. }
    intros rows. apply h_pure. intros Hid. unfold summaries. destruct rows as [|r rows]; [by apply h_ret; intros b ->|].
    eapply h_bind with (R := λ _ b, b = b0); [apply h_wrapping, h_statement; naive_solver|]. intros counts.
    eapply h_bind with (R := λ _ b, b = b0); [apply h_wrapping, h_statement; naive_solver|]. intros last. apply h_ret. intros b ->.
    split; [|done]. by rewrite <-list_fmap_compose.
  - intros found. apply h_pure. intros Hid. unfold describe. eapply h_bind with (R := λ _ b, b = b0).
    { by apply reads_at; reads_it. }
    intros tenantNames. eapply h_bind with (R := λ _ b, b = b0).
    { by apply reads_at; reads_it. }
    intros names. apply h_ret. intros b ->. split; [|done]. by rewrite <-list_fmap_compose.
Qed.
End Tenants.

(** Tenants stay apart: somebody who may see service accounts only at places of
    other tenants does not find an account in the list, and every request about it
    is refused and changes nothing, whatever permissions to manage and revoke they
    hold. *)
Theorem unseen_untouched (out : Outside) (x : Setting) (who : context) (au : Authorizer) (tn : Tenants) (id : Z) (row : accountModel)
    (leb : string → string → bool) (e : Env KeyTables) :
  st_Authorizer x who = Some au → st_Tenants x = Some tn → accounts (tables e) !! id = Some row →
  (∀ n set, au_Access au n View = Ok set →
     ∀ c, c ∈ as_Clauses set → ∃ place, At (cl_Chain c) (tn_Level tn) = Some place ∧ s_ID place ≠ default 0 (am_TenantID row)) →
  (∀ op, (∃ inp keyInp keyID, op ∈ [OpUpdate who id inp; OpDeactivate who id; OpCreateKey who id keyInp; OpRevokeKey who id keyID]) →
     ∃ err e', perform out x op e = (Err err, e') ∧ tables e' = tables e) ∧
  (∃ err e', Get out (Some au) (Some tn) (st_People x) id e = (Err err, e') ∧ tables e' = tables e) ∧
  (∃ err e', Keys out (Some au) (Some tn) (st_People x) id e = (Err err, e') ∧ tables e' = tables e) ∧
  (∀ vs e', List_ out leb (Some au) (Some tn) (st_People x) e = (Ok vs, e') → id ∉ av_ID <$> vs).
Proof.
  intros Ea Et Hrow Hau.
  assert (∀ A (m : stM (Env KeyTables) error A), hoare (λ b, b = tables e) m (λ _ _, False) (λ b, b = tables e) →
    ∃ err e', m e = (Err err, e') ∧ tables e' = tables e) as refused.
  { intros A m H. specialize (H e eq_refl). destruct (m e) as [[a|err] e']; [done|eauto]. }
  repeat split.
  - intros op (inp & keyInp & keyID & Hin). apply refused.
    rewrite !elem_of_cons, elem_of_nil in Hin. destruct Hin as [->|[->|[->|[->|[]]]]]; cbn [perform];
      unfold update_, deactivate_, createKey_, revokeKey_; rewrite Ea, Et.
    + by eapply h_refused_first, h_Update_unseen.
    + by eapply h_refused_first, h_Deactivate_unseen.
    + by eapply h_refused_first, h_CreateKey_unseen.
    + by eapply h_RevokeKey_unseen.
  - apply refused. by eapply h_find_first.
  - apply refused. by eapply h_find_first.
  - intros vs e' E. pose proof (h_List_unseen out au tn (tables e) id row (st_People x) Hau Hrow leb e eq_refl) as H. rewrite E in H. apply H.
Qed.

(** An administrator of tenant 3, who sees what is there, and an account of tenant 2. *)
Definition ofThree : Authorizer :=
  mkAuthorizer (λ _ _, None) (λ _ p, Ok (mkAccessSet p "" false (User 7 0)
    [mkClause (mkScope "company" 3) [mkScope "company" 3; mkScope "system" 0] QualifierAll ∅ (mkSource 1 (mkRoleRef 1 "") "")])).
Definition companies : Tenants := mkTenants "company" (λ _ ids, Ok (list_to_map ((λ id, (id, "somewhere")) <$> ids))) None.
Definition apart : Setting := mkSetting (λ _, Some ofThree) (Some companies) "" (st_People freely) (st_Random freely) id (λ _, "").
Definition ofTwo : accountModel := mkAccountModel "feed" "" (Some 2) 7 7 0 0 None None 0.
Definition twoTenants : KeyTables :=
  mkKeyTables {[1 := ofTwo; 4 := mkAccountModel "ours" "" (Some 3) 7 7 0 0 None None 0]} 5 {[1 := feedKey "sak_1"]} 2 [] [] [].

Lemma unseen_untouched_witness :
  (∃ vs e', List_ calmDay (λ _ _, true) (Some ofThree) (Some companies) (st_People apart) (mkEnv twoTenants 0) = (Ok vs, e') ∧ av_ID <$> vs = [4]) ∧
  ∃ err e', perform calmDay apart (OpDeactivate admin 1) (mkEnv twoTenants 0) = (Err err, e') ∧ tables e' = twoTenants.
Proof.
  split; [eexists _, _; split; [vm_compute; reflexivity|reflexivity]|].
  apply (proj1 (unseen_untouched calmDay apart admin ofThree companies 1 ofTwo (λ _ _, true) (mkEnv twoTenants 0) eq_refl eq_refl eq_refl
    (λ n set H c Hc, ltac:(injection H as <-; apply list_elem_of_singleton in Hc as ->; exists (mkScope "company" 3); done)))).
  exists (mkSaveInput "" "" None 0), (mkKeyInput "" None), 0. set_solver.
Defined.
