(* ===== verification/CharTree.v ===== *)
(** * The description of a project's characteristics (src/characteristics/core)

    description.go and default.go: levels of tables with their columns, the fields of
    the extra columns, and the checks a description passes before it is used. The
    checks of a level are a list of probes, run in order; where the code ranges over
    a map (the audit columns, the columns per language) the order is fixed, which
    changes the order of the problems and not whether there are any. *)

From Stdlib Require Import Ascii.
From S2P Require Import Prelude.

Local Open Scope Z_scope.

Record Text : Type := mkText { tx_HR : string; tx_EN : string }.

Definition In_ (t : Text) (lang : string) : string :=
  let '(first, second) := if bool_decide (lang = "en") then (tx_EN t, tx_HR t) else (tx_HR t, tx_EN t) in
  if bool_decide (first ≠ "") then first else second.

Definition TypeText : string := "text".
Definition TypeNumber : string := "number".
Definition TypeYesNo : string := "yesno".
Definition TypeChoice : string := "choice".
Definition DefaultMaxText : Z := 255.

Record Choice : Type := mkChoice { ch_Value : string; ch_Label : Text }.
Record Under : Type := mkUnder { u_Level : Z; u_ID : Z }.

#[export] Instance Under_eq_dec : EqDecision Under.
Proof. solve_decision. Defined.

Record Field : Type := mkField {
  f_Column : string;
  f_Label : Text;
  f_Type : string;
  f_Choices : list Choice;
  f_Max : Z;
  f_Null : bool;
  f_InList : bool;
  f_ReadOnly : bool;
  f_Under : option Under
}.

Record Translations : Type := mkTranslations { tr_JSON : string; tr_Columns : gmap string string }.

Definition tr_any (t : Translations) : bool := bool_decide (tr_JSON t ≠ "") || bool_decide (tr_Columns t ≠ ∅).

Record Audit : Type := mkAudit {
  au_CreatedBy : string; au_UpdatedBy : string; au_ActivatedBy : string; au_DeactivatedBy : string;
  au_CreatedAt : string; au_UpdatedAt : string; au_ActivatedAt : string; au_DeactivatedAt : string;
  au_UpdatedByOnCreate : bool; au_UpdatedAtOnCreate : bool
}.

Record Level : Type := mkLevel {
  l_Label : Text;
  l_Table : string;
  l_ID : string;
  l_Parent : string;
  l_Ancestors : list string;
  l_Name : string;
  l_NameMax : Z;
  l_Translations : Translations;
  l_Order : string;
  l_Active : string;
  l_Meta : string;
  l_Audit : Audit;
  l_Fields : list Field
}.

Record Tree : Type := mkTree { t_Languages : list string; t_Levels : list Level }.
Record DescriptionError : Type := mkDescriptionError { de_Problems : list string }.

Definition DescriptionError_Error (e : DescriptionError) : string :=
  "characteristics description is invalid: " +:+ Str.join "; " (de_Problems e).

(** ^[A-Za-z_][A-Za-z0-9_]*$ *)
Definition letter (c : ascii) : bool :=
  Str.is_lower c || ((65 <=? Str.code c) && (Str.code c <=? 90)) || bool_decide (c = "_"%char).
Definition ident (s : string) : bool :=
  match s with
  | EmptyString => false
  | String c rest => letter c && Str.forall_char (λ d, letter d || Str.is_digit d) rest
  end.

(** ** Problems of a field *)

Fixpoint choice_loop (choices : list Choice) (values : list string) : list string :=
  match choices with
  | [] => []
  | c :: rest =>
      (if bool_decide (tx_HR (ch_Label c) = "") then ["choice " +:+ Str.fmt_q (ch_Value c) +:+ " has no label (hr)"] else []) ++
      (if contains values (ch_Value c) then ["choice " +:+ Str.fmt_q (ch_Value c) +:+ " is listed twice"] else []) ++
      choice_loop rest (ch_Value c :: values)
  end.

Definition choiceProblems (f : Field) : list string :=
  match f_Choices f with [] => ["a choice field needs choices"] | cs => choice_loop cs [] end.

Definition field_problems (f : Field) (level : Z) : list string :=
  (if negb (ident (f_Column f)) then [Str.fmt_q (f_Column f) +:+ " is not a column name"] else []) ++
  (if bool_decide (tx_HR (f_Label f) = "") then ["the label (hr) is missing"] else []) ++
  (if contains [TypeText; TypeNumber; TypeYesNo] (f_Type f)
   then if bool_decide (f_Choices f ≠ []) then ["only a choice field has choices"] else []
   else if bool_decide (f_Type f = TypeChoice) then choiceProblems f
   else ["type " +:+ Str.fmt_q (f_Type f) +:+ " is not text, number, yesno or choice"]) ++
  (if f_Max f <? 0 then ["max is negative"] else []) ++
  match f_Under f with
  | Some u => if (u_Level u <? 1) || (level <=? u_Level u) || (u_ID u <? 1)
              then ["under must name a row (id above 0) of a level above this one (1 to " +:+ Str.fmt_d (level - 1) +:+ ")"] else []
  | None => []
  end.

(** ** Problems of a level *)

(** A call of [bad] under a condition, or of [use]. *)
Inductive probe : Type :=
| Bad (holds : bool) (what : string)
| Use (column role : string).

(** What a probe adds: the problem, if any, and the columns seen with their role. *)
Definition probing (p : probe) (seen : gmap string string) : list string * gmap string string :=
  match p with
  | Bad holds what => (if holds then [what] else [], seen)
  | Use column role =>
      if bool_decide (column = "") then ([], seen)
      else if negb (ident column) then ([role +:+ " " +:+ Str.fmt_q column +:+ " is not a column name"], seen)
      else match seen !! column with
           | Some other => (["column " +:+ Str.fmt_q column +:+ " is both " +:+ other +:+ " and " +:+ role], seen)
           | None => ([], <[column := role]> seen)
           end
  end.

Fixpoint probe_all (ps : list probe) (seen : gmap string string) : list string :=
  match ps with
  | [] => []
  | p :: rest => let (found, seen') := probing p seen in found ++ probe_all rest seen'
  end.

Definition parentProblems (l : Level) (number : Z) : list probe :=
  let above := number - 2 in
  let n := Z.of_nat (length (l_Ancestors l)) in
  (if (number =? 1) && (bool_decide (l_Parent l ≠ "") || (0 <? n)) then [Bad true "the root level has no parent column"]
   else if (1 <? number) && bool_decide (l_Parent l = "") then [Bad true "the parent column is missing"]
   else [Bad (negb (n =? 0) && negb (n =? above)) ("ancestors must name all " +:+ Str.fmt_d above +:+ " levels above the parent, or none")]) ++
  Use (l_Parent l) "the parent" :: ((λ c, Use c "an ancestor") <$> l_Ancestors l).

Definition translationProblems (tr : Translations) (languages : list string) : list probe :=
  Bad (bool_decide (tr_JSON tr ≠ "") && bool_decide (tr_Columns tr ≠ ∅)) "translations are a JSON column or one column per language, not both" ::
  Use (tr_JSON tr) "the translations" ::
  concat ((λ lang, let column := default "" (tr_Columns tr !! lang) in
    [Bad (negb (contains languages lang))
       ("translation column " +:+ Str.fmt_q column +:+ " is for " +:+ Str.fmt_q lang +:+ ", which is not among the languages");
     Use column ("the " +:+ lang +:+ " translation")]) <$> sorted_keys (tr_Columns tr)).

Definition auditProbes (a : Audit) : list probe :=
  [Use (au_CreatedBy a) "created by"; Use (au_UpdatedBy a) "updated by"; Use (au_ActivatedBy a) "activated by";
   Use (au_DeactivatedBy a) "deactivated by"; Use (au_CreatedAt a) "created at"; Use (au_UpdatedAt a) "updated at";
   Use (au_ActivatedAt a) "activated at"; Use (au_DeactivatedAt a) "deactivated at"].

(** The columns of activation. *)
Definition activation (a : Audit) : list string := [au_ActivatedBy a; au_ActivatedAt a; au_DeactivatedBy a; au_DeactivatedAt a].

Fixpoint fieldProbes (fs : list Field) (before : list string) (i level : Z) : list probe :=
  match fs with
  | [] => []
  | f :: rest =>
      ((λ p, Bad true ("field " +:+ Str.fmt_d i +:+ " (" +:+ f_Column f +:+ "): " +:+ p)) <$> field_problems f level) ++
      (if contains before (f_Column f) then [] else [Use (f_Column f) "an extra column"]) ++
      fieldProbes rest (f_Column f :: before) (i + 1) level
  end.

(** The loop of [sameColumnProblems], the fields before in any order. *)
Definition sameRows (o f : Field) : bool :=
  bool_decide (f_Column o = f_Column f) &&
  match f_Under o, f_Under f with Some u, Some v => bool_decide (u = v) | _, _ => true end.

Fixpoint sameColumn_loop (fs before : list Field) : list string :=
  match fs with
  | [] => []
  | f :: rest =>
      ((λ _, "column " +:+ Str.fmt_q (f_Column f) +:+ " is described twice for the same rows") <$> List.filter (λ o, sameRows o f) before) ++
      sameColumn_loop rest (before ++ [f])
  end.

Definition level_probes (l : Level) (number : Z) (languages : list string) : list probe :=
  [Bad (negb (ident (l_Table l))) ("table " +:+ Str.fmt_q (l_Table l) +:+ " is not a table name");
   Bad (bool_decide (tx_HR (l_Label l) = "")) "the label (hr) is missing";
   Use (l_ID l) "the id"; Use (l_Name l) "the name";
   Bad (bool_decide (l_Name l = "")) "the name column is missing"] ++
  parentProblems l number ++
  [Use (l_Order l) "the order"; Use (l_Active l) "the active flag"; Use (l_Meta l) "the meta"] ++
  auditProbes (l_Audit l) ++
  [Bad (existsb (λ c, bool_decide (c ≠ "")) (activation (l_Audit l)) && bool_decide (l_Active l = ""))
     "activation columns are named but the level has no active column"] ++
  translationProblems (l_Translations l) languages ++
  fieldProbes (l_Fields l) [] 1 number.

Definition level_problems (l : Level) (number : Z) (languages : list string) : list string :=
  (λ p, "level " +:+ Str.fmt_d number +:+ " (" +:+ l_Table l +:+ "): " +:+ p) <$>
    (probe_all (level_probes l number languages) ∅ ++ sameColumn_loop (l_Fields l) []).

(** ** Preparing *)

Definition with_max (f : Field) : Field :=
  mkField (f_Column f) (f_Label f) (f_Type f) (f_Choices f) (if f_Max f =? 0 then DefaultMaxText else f_Max f) (f_Null f) (f_InList f)
    (f_ReadOnly f) (f_Under f).

Definition with_defaults (l : Level) : Level :=
  mkLevel (l_Label l) (l_Table l) (if bool_decide (l_ID l = "") then "id" else l_ID l) (l_Parent l) (l_Ancestors l) (l_Name l)
    (if l_NameMax l =? 0 then DefaultMaxText else l_NameMax l) (l_Translations l) (l_Order l) (l_Active l) (l_Meta l) (l_Audit l)
    (with_max <$> l_Fields l).

(** The loop over the levels, filled with their defaults. *)
Fixpoint level_loop (ls : list Level) (i : Z) (tables languages : list string) : list string :=
  match ls with
  | [] => []
  | l :: rest =>
      (if contains tables (l_Table l)
       then ["level " +:+ Str.fmt_d i +:+ ": table " +:+ Str.fmt_q (l_Table l) +:+ " is used by another level"] else []) ++
      level_problems l i languages ++ level_loop rest (i + 1) (l_Table l :: tables) languages
  end.

Definition filled (t : Tree) : Tree :=
  mkTree (match t_Languages t with [] => ["hr"; "en"] | ls => ls end) (with_defaults <$> t_Levels t).

Definition tree_problems (t : Tree) : list string :=
  concat ((λ lang, if negb (ident lang) then ["language " +:+ Str.fmt_q lang +:+ " is not a language code"] else []) <$> t_Languages t) ++
  (if bool_decide (t_Levels t = []) then ["there are no levels"] else []) ++
  level_loop (t_Levels t) 1 [] (t_Languages t).

Definition Prepare (t : Tree) : outcome DescriptionError Tree :=
  match tree_problems (filled t) with [] => Ok (filled t) | ps => Err (mkDescriptionError ps) end.

(** ** Reading a description *)

Definition tree_Level (t : Tree) (number : Z) : option Level :=
  if (number <? 1) || (Z.of_nat (length (t_Levels t)) <? number) then None else t_Levels t !! Z.to_nat (number - 1).

Definition applies (path : list Z) (f : Field) : bool :=
  match f_Under f with
  | None => true
  | Some u => (u_Level u <=? Z.of_nat (length path)) && bool_decide (path !! Z.to_nat (u_Level u - 1) = Some (u_ID u))
  end.

Definition FieldsFor (l : Level) (path : list Z) : list Field := List.filter (applies path) (l_Fields l).

(** ** The ready-made tables (default.go) *)

Definition DefaultLevels : Z := 3.

Definition DefaultAudit : Audit :=
  mkAudit "created_by" "updated_by" "activated_by" "deactivated_by" "created_at" "updated_at" "activated_at" "deactivated_at" false true.

Definition default_level (number : Z) : Level :=
  mkLevel (mkText ("Razina " +:+ Str.fmt_d number) ("Level " +:+ Str.fmt_d number)) ("characteristics_level" +:+ Str.fmt_d number) "id"
    (if 1 <? number then "level" +:+ Str.fmt_d (number - 1) +:+ "_id" else "")
    ((λ above, "level" +:+ Str.fmt_d above +:+ "_id") <$> seqZ 1 (number - 2))
    "name" DefaultMaxText (mkTranslations "name_i18n" ∅) "order" "active" "meta" DefaultAudit [].

Definition DefaultTree (n : Z) : Tree :=
  mkTree ["hr"; "en"] (default_level <$> seqZ 1 (Z.min (Z.max n 1) DefaultLevels)).
