(* ===== verification/CharStore.v ===== *)
(** * Characteristics in SQL (src/characteristics/gormstore/store.go)

    The items of core.go and the store of the described tables. A table is its rows by
    id, with the defaults of its columns; a statement is its meaning on the tables it
    names. What a driver scans a column into is read through its text, so a value is
    kept as it was written; an order column holds integers and is never NULL. JSON, the
    text of floats and times and the collation of names are one record of functions. *)

From Stdlib Require Import Ascii.
From Stdlib Require Export SpecFloat.
From S2P Require Import Prelude Apperr Clock Sql CharTree.

Local Open Scope Z_scope.

Definition ErrNotFound : string := "characteristic not found".
Definition ErrMissing : string := "the characteristics description names what the database lacks".
Definition ErrNoOrder : string := "the level has no order column".
Definition ErrNotDescribed : string := "the characteristics level is not described".

(** A member of a JSON object: a string, or the text of anything else. *)
Inductive json : Type := JString (s : string) | JOther (text : string).

#[export] Instance json_eq_dec : EqDecision json.
Proof. solve_decision. Defined.

#[export] Instance spec_float_eq_dec : EqDecision spec_float.
Proof. solve_decision. Defined.

(** What [Values] holds: nil, string, int64, float64 or bool. *)
Inductive value : Type := VNil | VText (s : string) | VInt (z : Z) | VFloat (f : spec_float) | VBool (b : bool).

#[export] Instance value_eq_dec : EqDecision value.
Proof. solve_decision. Defined.

Record Item : Type := mkItem {
  it_Level : Z;
  it_ID : Z;
  it_ParentID : Z;
  it_Path : list Z;
  it_Name : string;
  it_Translations : option (gmap string string);
  it_Order : Z;
  it_Active : bool;
  it_Meta : option (gmap string json);
  it_Values : gmap string value
}.

Record Stamp : Type := mkStamp { st_Actor : Z; st_At : Z }.

(** [snapshot]: what the service keeps of a read. *)
Record Snapshot : Type := mkSnapshot { sn_at : Z; sn_levels : list (list Item); sn_byID : list (gmap Z Item) }.

(** ** Tables *)

Inductive dbval : Type := DNull | DText (s : string) | DInt (z : Z) | DFloat (f : spec_float) | DTime (t : Z).

#[export] Instance dbval_eq_dec : EqDecision dbval.
Proof. solve_decision. Defined.

Notation row := (gmap string dbval).
Record Table : Type := mkTable { tb_rows : gmap Z row; tb_next : Z; tb_defaults : row }.

(** The database, and what the service keeps beside it: the tree it read last and
    how often it read. *)
Record CharState : Type := mkCharState { cs_db : gmap string Table; cs_snap : option Snapshot; cs_loads : Z }.

Definition table_of (db : gmap string Table) (name : string) : Table := default (mkTable ∅ 1 ∅) (db !! name).
Definition set_db (s : CharState) (db : gmap string Table) : CharState := mkCharState db (cs_snap s) (cs_loads s).
Definition set_rows (t : Table) (rows : gmap Z row) : Table := mkTable rows (tb_next t) (tb_defaults t).

(** The value of a column; one that was never written is NULL. *)
Definition col (r : row) (c : string) : dbval := default DNull (r !! c).

(** The functions of other libraries. *)
Record Library : Type := mkLibrary {
  Sprint : spec_float → string;
  ParseFloat : string → option spec_float;
  DateTime : Z → string;
  Marshal : gmap string json → option string;
  Unmarshal : string → gmap string json;
  NameLeb : string → string → bool
}.

(** ** Reading values *)

(** A sign and digits, of any size. *)
Definition signed (s : string) : option Z :=
  let number (neg : bool) (d : string) :=
    if bool_decide (d ≠ "") && Str.forall_char Str.is_digit d
    then Some (if neg then - Str.digits_value 0 d else Str.digits_value 0 d) else None in
  match s with
  | String c rest => if bool_decide (c = "-"%char) then number true rest
                     else if bool_decide (c = "+"%char) then number false rest else number false s
  | EmptyString => None
  end.

(** [strconv.ParseInt(s, 10, 64)] *)
Definition ParseInt (s : string) : option Z :=
  match signed s with Some n => if Int64.fits n then Some n else None | None => None end.

Section Store.
Variable lib : Library.
Variable out : Outside.
Variable tree : Tree.
Notation M := (stM (Env CharState) error).

Definition toString (v : dbval) : string :=
  match v with DNull => "" | DText s => s | DInt z => Str.fmt_d z | DFloat f => Sprint lib f | DTime t => DateTime lib t end.

(** [strconv.Atoi] with its error dropped: out of range it answers the nearest. *)
Definition toInt (v : dbval) : Z :=
  match signed (toString v) with Some n => Z.max Int64.min_value (Z.min Int64.max_value n) | None => 0 end.

Definition toBool (v : dbval) : bool := negb (contains [""; "0"; "false"] (toString v)).

Definition fromDB (f : Field) (v : dbval) : value :=
  if bool_decide (v = DNull) then VNil
  else if bool_decide (f_Type f = TypeYesNo) then VBool (toBool v)
  else if bool_decide (f_Type f = TypeNumber)
  then match ParseInt (toString v) with
       | Some whole => VInt whole
       | None => match ParseFloat lib (toString v) with Some fraction => VFloat fraction | None => VNil end
       end
  else if contains [TypeText; TypeChoice] (f_Type f) then VText (toString v) else VNil.

Definition toDB (v : value) : dbval :=
  match v with
  | VNil => DNull
  | VText s => DText s
  | VInt z => DInt z
  | VFloat f => DFloat f
  | VBool b => DText (if b then "1" else "0")
  end.

(** ** The columns of a level *)

Definition sortedColumns (m : gmap string string) : list string := omap (λ lang, m !! lang) (sorted_keys m).

Definition add_column (out : list string) (c : string) : list string :=
  if bool_decide (c = "") || contains out c then out else out ++ [c].

Definition columns (l : Level) : list string :=
  foldl add_column [] ([l_ID l; l_Parent l; l_Name l; tr_JSON (l_Translations l)] ++ sortedColumns (tr_Columns (l_Translations l)) ++
    [l_Order l; l_Active l; l_Meta l] ++ (f_Column <$> l_Fields l)).

(** [Check], against what the database has. *)
Definition Check_level (HasTable : string → bool) (HasColumn : string → string → bool) (il : nat * Level) : list string :=
  let (i, l) := il in
  let at_level s := "level " +:+ Str.fmt_d (Z.of_nat i + 1) +:+ ": " +:+ s in
  if negb (HasTable (l_Table l)) then [at_level ("table " +:+ l_Table l)]
  else (λ c, at_level (l_Table l +:+ "." +:+ c)) <$> List.filter (λ c, negb (HasColumn (l_Table l) c)) (columns l).

Definition Check_ (HasTable : string → bool) (HasColumn : string → string → bool) : option error :=
  match concat (Check_level HasTable HasColumn <$> indexed (t_Levels tree)) with
  | [] => None
  | missing => Some (errorf (ErrMissing +:+ ": " +:+ Str.join ", " missing) [errNew ErrMissing])
  end.

(** ** Items *)

Definition translationsOf (l : Level) (r : row) : gmap string string :=
  let tr := l_Translations l in
  let stored := if bool_decide (tr_JSON tr ≠ "") then Unmarshal lib (toString (col r (tr_JSON tr))) else ∅ in
  let shown := map_imap (λ lang j, match j with
                                   | JString text => if bool_decide (text ≠ "") && contains (t_Languages tree) lang then Some text else None
                                   | JOther _ => None
                                   end) stored in
  let columns := omap (λ c, let text := toString (col r c) in if bool_decide (text ≠ "") then Some text else None) (tr_Columns tr) in
  columns ∪ shown.

Definition read_values (l : Level) (r : row) : gmap string value :=
  foldl (λ m f, <[f_Column f := fromDB f (col r (f_Column f))]> m) ∅ (l_Fields l).

Definition item (number : Z) (l : Level) (r : row) : Item :=
  mkItem number (toInt (col r (l_ID l))) (if bool_decide (l_Parent l ≠ "") then toInt (col r (l_Parent l)) else 0) []
    (toString (col r (l_Name l))) (Some (translationsOf l r))
    (if bool_decide (l_Order l ≠ "") then toInt (col r (l_Order l)) else 0)
    (if bool_decide (l_Active l ≠ "") then toBool (col r (l_Active l)) else true)
    (if bool_decide (l_Meta l ≠ "")
     then let m := Unmarshal lib (toString (col r (l_Meta l))) in if bool_decide (m = ∅) then None else Some m else None)
    (read_values l r).

(** What a select of the described columns gives of a row. *)
Definition selected (l : Level) (id : Z) (r : row) : row :=
  filter (λ kv, kv.1 ∈ columns l) (<[l_ID l := DInt id]> r).

Definition store_level (number : Z) : M Level :=
  match tree_Level tree number with
  | Some l => mret l
  | None => throw (errorf (ErrNotDescribed +:+ ": " +:+ Str.fmt_d number) [errNew ErrNotDescribed])
  end.

Definition rows_of (s : CharState) (l : Level) : gmap Z row := tb_rows (table_of (cs_db s) (l_Table l)).

(** ORDER BY the order or the name, then the id. *)
Definition row_leb (l : Level) (a b : Item) : bool :=
  if bool_decide (l_Order l ≠ "") then it_Order a <=? it_Order b else NameLeb lib (it_Name a) (it_Name b).

Definition read_rows (number : Z) (l : Level) (rows : gmap Z row) : list Item :=
  stable_sort (row_leb l) ((λ id, item number l (selected l id (default ∅ (rows !! id)))) <$> select_ids rows (λ _ _, true)).

Definition Rows (number : Z) : M (list Item) :=
  l ← store_level number;
  query out (λ s, read_rows number l (rows_of s l)).

Definition Row (number id : Z) : M Item :=
  l ← store_level number;
  raw ← query out (λ s, rows_of s l !! id);
  match raw with
  | None => throw (errNew ErrNotFound)
  | Some r => mret (item number l (selected l id r))
  end.

(** ** Writing *)

(** [writer]: the assignments of one statement. *)
Definition writer : Type := list (string * dbval).

Definition w_set (column : string) (v : dbval) (w : writer) : writer :=
  if bool_decide (column = "") || contains w.*1 column then w else w ++ [(column, v)].

Definition w_setActor (column : string) (actor : Z) (w : writer) : writer :=
  if 0 <? actor then w_set column (DInt actor) w else w.

Definition jsonOrNil (object : gmap string json) : dbval :=
  if bool_decide (object = ∅) then DNull
  else match Marshal lib object with Some raw => DText raw | None => DNull end.

Definition mergeJSON (current : string) (given : gmap string string) : dbval :=
  jsonOrNil (foldl (λ object lang,
    let text := default "" (given !! lang) in
    if bool_decide (text = "") then delete lang object else <[lang := JString text]> object)
    (Unmarshal lib current) (sorted_keys given)).

Definition w_translations (l : Level) (given : gmap string string) (current : string) (w : writer) : writer :=
  let tr := l_Translations l in
  let w := foldl (λ w lang, match given !! lang with Some text => w_set (default "" (tr_Columns tr !! lang)) (DText text) w | None => w end)
             w (sorted_keys (tr_Columns tr)) in
  if bool_decide (tr_JSON tr ≠ "") then w_set (tr_JSON tr) (mergeJSON current given) w else w.

Definition w_fields (l : Level) (i : Item) (current : string) (w : writer) : writer :=
  let w := w_set (l_Name l) (DText (it_Name i)) w in
  let w := match it_Translations i with Some given => w_translations l given current w | None => w end in
  let w := match it_Meta i with Some m => if bool_decide (l_Meta l ≠ "") then w_set (l_Meta l) (jsonOrNil m) w else w | None => w end in
  foldl (λ w f, match it_Values i !! f_Column f with Some v => w_set (f_Column f) (toDB v) w | None => w end) w (l_Fields l).

Definition empty_value (f : Field) : value :=
  if f_Null f then VNil
  else if contains [TypeText; TypeChoice] (f_Type f) then VText ""
  else if bool_decide (f_Type f = TypeYesNo) then VBool false else VInt 0.

Definition with_values (i : Item) (values : gmap string value) : Item :=
  mkItem (it_Level i) (it_ID i) (it_ParentID i) (it_Path i) (it_Name i) (it_Translations i) (it_Order i) (it_Active i) (it_Meta i) values.

(** The assignments of an insert. *)
Definition create_writer (l : Level) (i : Item) (order : Z) (stamp : Stamp) : writer :=
  let a := l_Audit l in
  let values := it_Values i ∪ foldl (λ m f, <[f_Column f := empty_value f]> m) ∅ (l_Fields l) in
  let w := w_fields l (with_values i values) "" [] in
  let w := if bool_decide (l_Parent l ≠ "") then w_set (l_Parent l) (DInt (it_ParentID i)) w else w in
  let w := foldl (λ w nc, w_set nc.2 (DInt (default 0 (it_Path i !! nc.1))) w) w (indexed (l_Ancestors l)) in
  let w := if bool_decide (l_Order l ≠ "") then w_set (l_Order l) (DInt order) w else w in
  let w := w_setActor (au_CreatedBy a) (st_Actor stamp) w in
  let w := w_set (au_CreatedAt a) (DTime (st_At stamp)) w in
  let w := if au_UpdatedByOnCreate a then w_setActor (au_UpdatedBy a) (st_Actor stamp) w else w in
  let w := if au_UpdatedAtOnCreate a then w_set (au_UpdatedAt a) (DTime (st_At stamp)) w else w in
  if bool_decide (l_Active l ≠ "")
  then let w := w_set (l_Active l) (toDB (VBool (it_Active i))) w in
       if it_Active i then w_set (au_ActivatedAt a) (DTime (st_At stamp)) (w_setActor (au_ActivatedBy a) (st_Actor stamp) w) else w
  else w.

(** [COALESCE(MAX(order), 0)] among the siblings. *)
Definition last_order (l : Level) (parent : Z) (rows : gmap Z row) : Z :=
  let sibling r := bool_decide (l_Parent l = "") || (bool_decide (col r (l_Parent l) ≠ DNull) && (toInt (col r (l_Parent l)) =? parent)) in
  match (λ kv, toInt (col kv.2 (l_Order l))) <$> List.filter (λ kv, sibling kv.2) (map_to_list rows) with
  | [] => 0
  | o :: os => foldl Z.max o os
  end.

Definition assign (w : writer) (r : row) : row := foldl (λ r cv, <[cv.1 := cv.2]> r) r w.

Definition inserted (l : Level) (w : writer) (db : gmap string Table) : Z * gmap string Table :=
  let t := table_of db (l_Table l) in
  (tb_next t, <[l_Table l := mkTable (<[tb_next t := assign w (tb_defaults t)]> (tb_rows t)) (tb_next t + 1) (tb_defaults t)]> db).

(** An auto-increment column that has used its last id. *)
Definition idsExhausted : error := errNew "Failed to read auto-increment value from storage engine".

Definition store_Create (i : Item) (stamp : Stamp) : M Item :=
  l ← store_level (it_Level i);
  order ← (if bool_decide (l_Order l ≠ "") then last ← query out (λ s, last_order l (it_ParentID i) (rows_of s l)); mret (last + 1)
           else mret (it_Order i));
  inserted_ ← statement out (λ s,
    if Int64.fits (tb_next (table_of (cs_db s) (l_Table l)))
    then let (id, db) := inserted l (create_writer l i order stamp) (cs_db s) in (Ok id, set_db s db)
    else (Err idsExhausted, s));
  id ← lift inserted_;
  mret (mkItem (it_Level i) id (it_ParentID i) (it_Path i) (it_Name i) (it_Translations i) order (it_Active i) (it_Meta i) (it_Values i)).

(** The rows of one table, changed. *)
Definition on_rows (l : Level) (f : gmap Z row → gmap Z row) (s : CharState) : CharState :=
  let t := table_of (cs_db s) (l_Table l) in set_db s (<[l_Table l := set_rows t (f (tb_rows t))]> (cs_db s)).

(** [update]: MySQL counts the rows that changed. *)
Definition changed (id : Z) (w : writer) (rows : gmap Z row) : bool :=
  match rows !! id with Some r => bool_decide (assign w r ≠ r) | None => false end.

Definition update_ (number : Z) (l : Level) (id : Z) (w : writer) : M () :=
  affected ← statement out (λ s, (changed id w (rows_of s l), on_rows l (alter (assign w) id) s));
  if (affected : bool) then mret () else _ ← Row number id; mret ().

Definition update_writer (l : Level) (i : Item) (current : string) (stamp : Stamp) : writer :=
  w_set (au_UpdatedAt (l_Audit l)) (DTime (st_At stamp))
    (w_setActor (au_UpdatedBy (l_Audit l)) (st_Actor stamp) (w_fields l i current [])).

Definition store_Update (i : Item) (stamp : Stamp) : M () :=
  l ← store_level (it_Level i);
  Transaction out (
    current ← (if bool_decide (it_Translations i ≠ None) && bool_decide (tr_JSON (l_Translations l) ≠ "")
               then raw ← query out (λ s, rows_of s l !! it_ID i);
                    match raw with
                    | None => throw (errNew ErrNotFound)
                    | Some r => mret (toString (col r (tr_JSON (l_Translations l))))
                    end
               else mret "");
    update_ (it_Level i) l (it_ID i) (update_writer l i current stamp)).

Definition active_writer (l : Level) (active : bool) (stamp : Stamp) : writer :=
  let a := l_Audit l in
  let w := w_set (l_Active l) (toDB (VBool active)) [] in
  let w := if active then w_set (au_ActivatedAt a) (DTime (st_At stamp)) (w_setActor (au_ActivatedBy a) (st_Actor stamp) w)
           else w_set (au_DeactivatedAt a) (DTime (st_At stamp)) (w_setActor (au_DeactivatedBy a) (st_Actor stamp) w) in
  w_set (au_UpdatedAt a) (DTime (st_At stamp)) (w_setActor (au_UpdatedBy a) (st_Actor stamp) w).

Definition store_SetActive (number id : Z) (active : bool) (stamp : Stamp) : M () :=
  l ← store_level number;
  Transaction out (
    r ← Row number id;
    if bool_decide (it_Active r = active) then mret () else update_ number l id (active_writer l active stamp)).

(** The loop of [SetOrders]. *)
Fixpoint order_loop (l : Level) (orders : list (Z * Z)) : M () :=
  match orders with
  | [] => mret ()
  | (id, order) :: rest =>
      _ ← exec out (on_rows l (alter (λ r, <[l_Order l := DInt order]> r) id));
      order_loop l rest
  end.

Definition SetOrders (number : Z) (orders : gmap Z Z) : M () :=
  l ← store_level number;
  if bool_decide (l_Order l = "") then throw (errNew ErrNoOrder) else Transaction out (order_loop l (map_to_list orders)).

Definition store_Delete (number : Z) (ids : list Z) : M () :=
  l ← store_level number;
  exec out (on_rows l (filter (λ kv : Z * row, kv.1 ∉ ids))).
End Store.
