(* ===== verification/Characteristics.v ===== *)
(** * Characteristics (src/characteristics/core/core.go and input.go)

    The service over the store of [CharStore]: reading the tree through a snapshot it
    keeps, checking what a person writes, moving and deleting items. Where an item is
    used is the application's to say: an argument. Where the code ranges over a map of
    given values, the order is that of the keys: it decides which of several errors is
    reported. *)

From S2P Require Import Prelude Apperr Clock Sql CharTree CharStore.

Local Open Scope Z_scope.

(** What JSON, or code that calls the service, gives for a value. *)
Inductive raw : Type :=
| RNil | RText (s : string) | RFloat (f : spec_float) | RInt (z : Z) | RInt64 (z : Z) | RNumber (text : string) | RBool (b : bool) | ROther.

Record Input : Type := mkInput {
  in_Name : string;
  in_Translations : option (gmap string string);
  in_Meta : option (gmap string json);
  in_Values : gmap string raw;
  in_Active : bool
}.

Record UseAt : Type := mkUseAt { us_What : string; us_Count : Z }.
Record Report : Type := mkReport { re_Known : bool; re_Uses : list UseAt; re_Children : nat }.
Record DeleteResult : Type := mkDeleteResult { dr_Deleted : nat; dr_UsageKnown : bool }.
Record Choose : Type := mkChoose { op_ID : Z; op_Value : string; op_Label : string }.
Record OptionsQuery : Type := mkOptionsQuery { oq_Level : Z; oq_Parent : Z; oq_Value : string; oq_Lang : string }.
Inductive Node : Type := mkNode (n_Item : Item) (n_Children : list Node).

Definition ReasonInUse : string := "characteristics.in_use".
Definition ReasonHasChildren : string := "characteristics.has_children".

(** ** Values (input.go) *)

(** The integer a finite float is, when it is one. *)
Definition whole_float (f : spec_float) : option Z :=
  match f with
  | S754_zero _ => Some 0
  | S754_finite s m e =>
      let v := if 0 <=? e then Some (Zpos m * 2 ^ e) else if Zpos m mod 2 ^ (- e) =? 0 then Some (Zpos m / 2 ^ (- e)) else None in
      (λ z, if s then - z else z) <$> v
  | _ => None
  end.

Definition hasChoice (f : Field) (v : string) : bool := contains (ch_Value <$> f_Choices f) v.

Definition isZero (v : value) : bool :=
  match v with VNil => true | VText s => bool_decide (s = "") | VInt z => z =? 0 | VBool b => negb b | VFloat _ => false end.

Section Values.
Variable lib : Library.

Definition format (v : value) : string :=
  match v with
  | VNil => ""
  | VBool b => if b then "1" else "0"
  | VText s => s
  | VInt z => Str.fmt_d z
  | VFloat f => Sprint lib f
  end.

Definition bad_value (f : Field) (what : string) : error := BadRequest (f_Column f +:+ ": " +:+ what).

(** A float64 as a value: an integer below 2^53 is an int64. *)
Definition float_value (f : Field) (n : spec_float) : result value :=
  match n with
  | S754_nan | S754_infinity _ => Err (bad_value f "a number is expected")
  | _ => match whole_float n with
         | Some z => if Z.abs z <? 2 ^ 53 then Ok (VInt z) else Ok (VFloat n)
         | None => Ok (VFloat n)
         end
  end.

Definition number (f : Field) (r : raw) : result value :=
  match r with
  | RNil => Ok (if f_Null f then VNil else VInt 0)
  | RFloat n => float_value f n
  | RInt z => float_value f (binary_normalize 53 1024 z 0 false)
  | RInt64 z => Ok (VInt z)
  | RNumber text => match ParseFloat lib text with Some n => float_value f n | None => Err (bad_value f "a number is expected") end
  | _ => Err (bad_value f "a number is expected")
  end.

Definition text_value (f : Field) (text : string) : result value :=
  let text := Utf8.TrimSpace text in
  if f_Max f <? Utf8.RuneCount text then Err (bad_value f ("longer than " +:+ Str.fmt_d (f_Max f) +:+ " characters"))
  else if bool_decide (text = "") && f_Null f then Ok VNil
  else if bool_decide (text ≠ "") && bool_decide (f_Type f = TypeChoice) && negb (hasChoice f text) then Err (bad_value f "not one of the choices")
  else Ok (VText text).

Definition normalize (f : Field) (r : raw) : result value :=
  if contains [TypeText; TypeChoice] (f_Type f)
  then match r with RText text => text_value f text | RNil => text_value f "" | _ => Err (bad_value f "a text is expected") end
  else if bool_decide (f_Type f = TypeNumber) then number f r
  else if bool_decide (f_Type f = TypeYesNo)
  then match r with RNil => Ok (VBool false) | RBool b => Ok (VBool b) | _ => Err (bad_value f "yes or no is expected") end
  else Err (bad_value f "unknown type").

(** One round of [fieldValues]; a read-only column that stays is passed over. *)
Definition fieldValue (fields : list Field) (current : option Item) (column : string) (r : raw) : result (option value) :=
  match list_find (λ f, f_Column f = column) fields with
  | None => Err (BadRequest (Str.fmt_q column +:+ " is not a field of this item"))
  | Some (_, field) =>
      v ← normalize field r;
      if f_ReadOnly field
      then let was := match current with Some i => default VNil (it_Values i !! column) | None => VNil end in
           if bool_decide (format v ≠ format was) && (bool_decide (was ≠ VNil) || negb (isZero v))
           then Err (BadRequest (Str.fmt_q column +:+ " is read-only")) else Ok None
      else Ok (Some v)
  end.

Fixpoint fieldValues_loop (fields : list Field) (given : gmap string raw) (current : option Item) (keys : list string)
    (acc : gmap string value) : result (gmap string value) :=
  match keys with
  | [] => Ok acc
  | column :: rest =>
      v ← fieldValue fields current column (default RNil (given !! column));
      fieldValues_loop fields given current rest (match v with Some v => <[column := v]> acc | None => acc end)
  end.

Definition fieldValues (fields : list Field) (given : gmap string raw) (current : option Item) : result (gmap string value) :=
  fieldValues_loop fields given current (sorted_keys given) ∅.

Fixpoint translations_loop (languages : list string) (def : Level) (given : gmap string string) (langs : list string)
    (acc : gmap string string) : result (gmap string string) :=
  match langs with
  | [] => Ok acc
  | lang :: rest =>
      if negb (contains languages lang)
      then Err (BadRequest ("language " +:+ Str.fmt_q lang +:+ " is not one of " +:+ Str.join ", " languages)) else
      let text := Utf8.TrimSpace (default "" (given !! lang)) in
      if l_NameMax def <? Utf8.RuneCount text
      then Err (BadRequest ("the " +:+ lang +:+ " name is longer than " +:+ Str.fmt_d (l_NameMax def) +:+ " characters"))
      else translations_loop languages def given rest (<[lang := text]> acc)
  end.

Definition translations (languages : list string) (def : Level) (given : gmap string string) : result (gmap string string) :=
  if bool_decide (given ≠ ∅) && negb (tr_any (l_Translations def)) then Err (BadRequest "this level has no translations")
  else translations_loop languages def given (sorted_keys given) ∅.

(** [fill]: the item with what is to be written. *)
Definition fill (languages : list string) (def : Level) (i : Item) (inp : Input) (current : option Item) : result Item :=
  let name := Utf8.TrimSpace (in_Name inp) in
  if bool_decide (name = "") then Err (BadRequest "name is required")
  else if l_NameMax def <? Utf8.RuneCount name
  then Err (BadRequest ("name is longer than " +:+ Str.fmt_d (l_NameMax def) +:+ " characters")) else
  trs ← match in_Translations inp with
        | Some given => trs ← translations languages def given; Ok (Some trs)
        | None => Ok (it_Translations i)
        end;
  meta ← match in_Meta inp with
         | Some m => if bool_decide (l_Meta def = "") then Err (BadRequest "this level has no meta column") else Ok (Some m)
         | None => Ok (it_Meta i)
         end;
  values ← fieldValues (FieldsFor def (it_Path i)) (in_Values inp) current;
  Ok (mkItem (it_Level i) (it_ID i) (it_ParentID i) (it_Path i) name trs (it_Order i) (it_Active i) meta values).
End Values.

(** ** The snapshot *)

(** A row with its level, its path and the values that apply to it. *)
Definition placed (l : Level) (number : Z) (above : gmap Z Item) (r : Item) : Item :=
  let path := if 1 <? number then default [] (it_Path <$> above !! it_ParentID r) ++ [it_ParentID r] else it_Path r in
  mkItem number (it_ID r) (it_ParentID r) path (it_Name r) (it_Translations r) (it_Order r) (it_Active r) (it_Meta r)
    (foldl (λ m f, <[f_Column f := default VNil (it_Values r !! f_Column f)]> m) ∅ (FieldsFor l path)).

Definition index_items (rows : list Item) : gmap Z Item := foldl (λ m r, <[it_ID r := r]> m) ∅ rows.

Fixpoint place_levels (ls : list Level) (rows : list (list Item)) (number : Z) (above : gmap Z Item) : list (list Item) :=
  match ls, rows with
  | l :: ls, rs :: rows => let here := placed l number above <$> rs in here :: place_levels ls rows (number + 1) (index_items here)
  | _, _ => []
  end.

(** What [snapshot] makes of the rows it read. *)
Definition snapshot_of (tree : Tree) (at_ : Z) (rows : list (list Item)) : Snapshot :=
  let levels := place_levels (t_Levels tree) rows 1 ∅ in mkSnapshot at_ levels (index_items <$> levels).

(** [nodes], over the levels from the index on. *)
Fixpoint nodes (levels : list (list Item)) (parent : Z) : list Node :=
  match levels with
  | [] => []
  | rows :: rest => (λ r, mkNode r (nodes rest (it_ID r))) <$> List.filter (λ r, it_ParentID r =? parent) rows
  end.

Definition node (sn : Snapshot) (i : Item) : Node := mkNode i (nodes (drop (Z.to_nat (it_Level i)) (sn_levels sn)) (it_ID i)).

(** The loop of [below], over the levels under the item. *)
Fixpoint below_loop (levels : list (list Item)) (parents : list Z) : list Item :=
  match levels with
  | [] => []
  | rows :: rest => let found := List.filter (λ r, contains parents (it_ParentID r)) rows in found ++ below_loop rest (it_ID <$> found)
  end.

Definition below (sn : Snapshot) (i : Item) : list Item := below_loop (drop (Z.to_nat (it_Level i)) (sn_levels sn)) [it_ID i].

(** ** The service *)

Section Service.
Variable lib : Library.
Variable out : Outside.
Variable tree : Tree.
(** [Config.Usage], nil when the application cannot say, and [Config.CacheTTL]. *)
Variable Uses : option (nat → Z → Z → result (list UseAt)).
Variable CacheTTL : Z.
Notation M := (stM (Env CharState) error).

Definition state_ : M CharState := λ e, (Ok (tables e), e).
Definition keep (sn : Snapshot) : M () := λ e, (Ok (), mkEnv (mkCharState (cs_db (tables e)) (Some sn) (cs_loads (tables e) + 1)) (moment e)).
Definition drop_ : M () := λ e, (Ok (), mkEnv (mkCharState (cs_db (tables e)) None (cs_loads (tables e))) (moment e)).

(** The first loop of [snapshot]: the rows of the levels from the number on. *)
Fixpoint read_levels (ls : list Level) (number : Z) : M (list (list Item)) :=
  match ls with
  | [] => mret []
  | _ :: rest =>
      rows ← mapErr (λ err, Internal (wrapped ("read characteristics level " +:+ Str.fmt_d number) err)) (Rows lib out tree number);
      more ← read_levels rest (number + 1);
      mret (rows :: more)
  end.

Definition load : M Snapshot :=
  at_ ← Now out;
  rows ← read_levels (t_Levels tree) 1;
  let sn := snapshot_of tree at_ rows in
  _ ← keep sn;
  mret sn.

Definition snapshot : M Snapshot :=
  s ← state_;
  match cs_snap s with
  | Some sn => if 0 <? CacheTTL
               then now ← Now out; if Time.Sub now (sn_at sn) <? CacheTTL then mret sn else load
               else load
  | None => load
  end.

Definition level (number : Z) : M Level :=
  match tree_Level tree number with Some l => mret l | None => throw (NotFound "characteristic level not found") end.

Definition find (number id : Z) : M (Item * Snapshot) :=
  _ ← level number;
  sn ← snapshot;
  match sn_byID sn !! Z.to_nat (number - 1) ≫= (λ m, m !! id) with
  | Some i => mret (i, sn)
  | None => throw (NotFound "characteristic not found")
  end.

Definition Get (number id : Z) : M Item := r ← find number id; mret r.1.

Definition Tree_ : M (list Node) := sn ← snapshot; mret (nodes (sn_levels sn) 0).

Definition Branch (number id : Z) : M Node := r ← find number id; mret (node r.2 r.1).

(** One choice of a row, if it has one. *)
Definition choice_of (q : OptionsQuery) (lang : string) (r : Item) : option Choose :=
  if negb (it_ParentID r =? oq_Parent q) || negb (it_Active r) then None else
  let v := if bool_decide (oq_Value q ≠ "") then format lib (default VNil (it_Values r !! oq_Value q)) else Str.fmt_d (it_ID r) in
  if bool_decide (v = "") then None else
  let label := default "" (it_Translations r ≫= (λ m, m !! lang)) in
  Some (mkChoose (it_ID r) v (if bool_decide (label = "") then it_Name r else label)).

Definition Options (q : OptionsQuery) : M (list Choose) :=
  l ← level (oq_Level q);
  if negb (eqb (oq_Level q =? 1) (oq_Parent q =? 0)) then throw (BadRequest "parent is required below the root level and not allowed at it") else
  if bool_decide (oq_Value q ≠ "") && negb (contains (f_Column <$> l_Fields l) (oq_Value q))
  then throw (BadRequest "value must be empty (the id) or a described column of the level") else
  let lang := if bool_decide (oq_Lang q = "") then default "" (head (t_Languages tree)) else oq_Lang q in
  sn ← snapshot;
  mret (omap (choice_of q lang) (default [] (sn_levels sn !! Z.to_nat (oq_Level q - 1)))).

Definition stamp (actor : Z) : M Stamp := now ← Now out; mret (mkStamp actor (now - now mod Time.Second)).

(** The store's answer, once the snapshot was dropped. *)
Definition dropping {A} (what : string) (m : M A) : M A :=
  r ← attempt m;
  _ ← drop_;
  mapErr (λ err, Internal (wrapped what err)) (lift r).

Definition pathBelow (number parent : Z) : M (list Z) :=
  if 1 <? number
  then up ← mapErr (λ _, BadRequest "the parent does not exist") (find (number - 1) parent); mret (it_Path up.1 ++ [it_ID up.1])
  else if negb (parent =? 0) then throw (BadRequest "the root level has no parent") else mret [].

Definition Create (actor number parent : Z) (inp : Input) : M Item :=
  def ← level number;
  path ← pathBelow number parent;
  i ← lift (fill lib (t_Languages tree) def
        (mkItem number 0 parent path "" None 0 (in_Active inp && bool_decide (l_Active def ≠ "")) None ∅) inp None);
  st ← stamp actor;
  created ← dropping "create characteristic" (store_Create lib out tree i st);
  Get number (it_ID created).

Definition Update (actor number id : Z) (inp : Input) : M Item :=
  def ← level number;
  r ← find number id;
  let current := r.1 in
  i ← lift (fill lib (t_Languages tree) def (mkItem number id (it_ParentID current) (it_Path current) "" None 0 false None ∅) inp (Some current));
  st ← stamp actor;
  _ ← dropping "update characteristic" (store_Update lib out tree i st);
  Get number id.

Definition SetActive (actor number id : Z) (active : bool) : M Item :=
  def ← level number;
  if bool_decide (l_Active def = "") then throw (BadRequest "this level has no active flag") else
  _ ← find number id;
  st ← stamp actor;
  _ ← dropping "switch characteristic" (store_SetActive lib out tree number id active st);
  Get number id.

Definition by_order (a b : Item) : bool := it_Order a <=? it_Order b.

(** The siblings with the item put at its place. *)
Definition arranged (rows : list Item) (i : Item) (position : Z) : list Item :=
  let siblings := stable_sort by_order (List.filter (λ r, (it_ParentID r =? it_ParentID i) && negb (it_ID r =? it_ID i)) rows) in
  let at_ := Z.to_nat (Z.min (Z.max position 1) (Z.of_nat (length siblings) + 1) - 1) in
  take at_ siblings ++ i :: drop at_ siblings.

Definition order_changes (siblings : list Item) : gmap Z Z :=
  foldl (λ m ir, let n := Z.of_nat ir.1 + 1 in if it_Order ir.2 =? n then m else <[it_ID ir.2 := n]> m) ∅ (indexed siblings).

Definition Move (number id position : Z) : M () :=
  def ← level number;
  if bool_decide (l_Order def = "") then throw (BadRequest "this level has no order column") else
  r ← find number id;
  let changes := order_changes (arranged (default [] (sn_levels r.2 !! Z.to_nat (number - 1))) r.1 position) in
  if bool_decide (changes = ∅) then mret () else dropping "reorder characteristics" (SetOrders out tree number changes).

(** ** Where an item is used *)

Definition add_use (acc : list UseAt) (u : UseAt) : list UseAt :=
  if us_Count u <=? 0 then acc
  else if contains (us_What <$> acc) (us_What u)
  then (λ v, if bool_decide (us_What v = us_What u) then mkUseAt (us_What v) (us_Count v + us_Count u) else v) <$> acc
  else acc ++ [u].

Fixpoint uses_loop (ask_ : nat → Z → Z → result (list UseAt)) (rows : list Item) (acc : list UseAt) : M (list UseAt) :=
  match rows with
  | [] => mret acc
  | r :: rest =>
      uses ← mapErr (λ err, Internal (wrapped "characteristic usage" err)) (ask (λ n, ask_ n (it_Level r) (it_ID r)));
      uses_loop ask_ rest (foldl add_use acc uses)
  end.

Definition report (sn : Snapshot) (i : Item) : M Report :=
  let b := below sn i in
  match Uses with
  | None => mret (mkReport false [] (length b))
  | Some ask_ => uses ← uses_loop ask_ (i :: b) []; mret (mkReport true uses (length b))
  end.

Definition Usage (number id : Z) : M Report := r ← find number id; report r.2 r.1.

(** ** Deleting *)

Definition inUse (uses : list UseAt) : error :=
  WithReason (Conflict "the characteristic is in use") ReasonInUse {["uses" := PCounts ((λ u, (us_What u, us_Count u)) <$> uses)]}.
Definition hasChildren (n : nat) : error :=
  WithReason (Conflict "the characteristic has items below it") ReasonHasChildren {["children" := PInt (Z.of_nat n)]}.

(** The ids to delete at a level. *)
Definition ids_at (rows : list Item) (number : Z) : list Z := it_ID <$> List.filter (λ r, it_Level r =? number) rows.

(** The loop of the transaction: [n] levels, from [number + n - 1] down to [number]. *)
Fixpoint delete_levels (rows : list Item) (number : Z) (n : nat) : M () :=
  match n with
  | O => mret ()
  | S n' =>
      let l := number + Z.of_nat n' in
      _ ← match ids_at rows l with [] => mret () | ids => store_Delete out tree l ids end;
      delete_levels rows number n'
  end.

Definition Delete (number id : Z) (force : bool) : M DeleteResult :=
  r ← find number id;
  rep ← report r.2 r.1;
  if negb force && bool_decide (re_Uses rep ≠ []) then throw (inUse (re_Uses rep)) else
  if negb force && (0 <? re_Children rep)%nat then throw (hasChildren (re_Children rep)) else
  let b := below r.2 r.1 in
  _ ← dropping "delete characteristic" (Transaction out (delete_levels (r.1 :: b) number (length (t_Levels tree) - Z.to_nat (number - 1))));
  mret (mkDeleteResult (1 + length b) (re_Known rep)).
End Service.
