(* ===== verification/CharView.v ===== *)
(** * What a description that passes its checks promises *)

From Stdlib Require Import Ascii.
From S2P Require Import Prelude Clock Apperr Sql Hoare CharTree CharStore Characteristics.

Local Open Scope Z_scope.

(** ** What a description must be *)

Record well_field (f : Field) (level : Z) : Prop := mkWellField {
  wf_column : ident (f_Column f) = true;
  wf_label : tx_HR (f_Label f) ≠ "";
  wf_type : f_Type f ∈ [TypeText; TypeNumber; TypeYesNo; TypeChoice];
  wf_choices : if bool_decide (f_Type f = TypeChoice)
               then f_Choices f ≠ [] ∧ NoDup (ch_Value <$> f_Choices f) ∧ ∀ c, c ∈ f_Choices f → tx_HR (ch_Label c) ≠ ""
               else f_Choices f = [];
  wf_max : 0 <= f_Max f;
  wf_under : ∀ u, f_Under f = Some u → 1 <= u_Level u < level ∧ 1 <= u_ID u
}.

(** The column of each field, once. *)
Fixpoint firsts (cs before : list string) : list string :=
  match cs with [] => [] | c :: rest => (if contains before c then [] else [c]) ++ firsts rest (c :: before) end.

Definition audit_columns (a : Audit) : list string :=
  [au_CreatedBy a; au_UpdatedBy a; au_ActivatedBy a; au_DeactivatedBy a; au_CreatedAt a; au_UpdatedAt a; au_ActivatedAt a; au_DeactivatedAt a].

(** The columns a level names, with a place for each role. *)
Definition places (l : Level) : list string :=
  [l_ID l; l_Name l; l_Parent l] ++ l_Ancestors l ++ [l_Order l; l_Active l; l_Meta l] ++ audit_columns (l_Audit l) ++
  tr_JSON (l_Translations l) :: ((λ lang, default "" (tr_Columns (l_Translations l) !! lang)) <$> sorted_keys (tr_Columns (l_Translations l))) ++
  firsts (f_Column <$> l_Fields l) [].

Definition named (l : Level) : list string := List.filter (λ c, bool_decide (c ≠ "")) (places l).

(** A level that passes. Fields may share a column when they are under different
    rows ([wd_rows]); rows of different levels can lie on one branch. *)
Record well_described (l : Level) (number : Z) (languages : list string) : Prop := mkWellDescribed {
  wd_table : ident (l_Table l) = true;
  wd_label : tx_HR (l_Label l) ≠ "";
  wd_name : l_Name l ≠ "";
  wd_parent : if number =? 1 then l_Parent l = "" ∧ l_Ancestors l = []
              else (1 < number → l_Parent l ≠ "") ∧ (l_Ancestors l = [] ∨ Z.of_nat (length (l_Ancestors l)) = number - 2);
  wd_activation : l_Active l = "" → ∀ c, c ∈ activation (l_Audit l) → c = "";
  wd_translations : tr_JSON (l_Translations l) = "" ∨ tr_Columns (l_Translations l) = ∅;
  wd_languages : ∀ lang, is_Some (tr_Columns (l_Translations l) !! lang) → lang ∈ languages;
  wd_columns : NoDup (named l) ∧ ∀ c, c ∈ named l → ident c = true;
  wd_fields : ∀ f, f ∈ l_Fields l → well_field f number;
  wd_rows : ∀ i j f g, l_Fields l !! i = Some f → l_Fields l !! j = Some g → (i < j)%nat → f_Column f = f_Column g →
                ∃ u v, f_Under f = Some u ∧ f_Under g = Some v ∧ u ≠ v
}.

(** A description that passes: no table serves two levels and every level passes. *)
Record checked_tree (t : Tree) : Prop := mkCheckedTree {
  sd_languages : ∀ lang, lang ∈ t_Languages t → ident lang = true;
  sd_levels : t_Levels t ≠ [];
  sd_tables : NoDup (l_Table <$> t_Levels t);
  sd_described : ∀ i l, t_Levels t !! i = Some l → well_described l (Z.of_nat i + 1) (t_Languages t)
}.

(** Two fields of one column that apply to one row are under rows of different levels. *)
Lemma shared_column_levels l n langs path i j f g :
  well_described l n langs → l_Fields l !! i = Some f → l_Fields l !! j = Some g → i ≠ j → f_Column f = f_Column g →
  applies path f = true → applies path g = true →
  ∃ u v, f_Under f = Some u ∧ f_Under g = Some v ∧ u_Level u ≠ u_Level v.
Proof.
  intros Hw Hi Hj Hij Hc Hf Hg.
  assert (∃ u v, f_Under f = Some u ∧ f_Under g = Some v ∧ u ≠ v) as (u & v & Hu & Hv & Huv).
  { destruct (Nat.lt_total i j) as [?|[?|?]]; [by eapply (wd_rows _ _ _ Hw i j)|done|].
    destruct (wd_rows _ _ _ Hw j i g f) as (v & u & ? & ? & ?); try done. exists u, v. repeat split; auto. }
  exists u, v. split; [done|]. split; [done|]. intros E. apply Huv. unfold applies in Hf, Hg. rewrite Hu in Hf. rewrite Hv, <-E in Hg.
  apply andb_true_iff in Hf as [_ Hf%bool_decide_eq_true], Hg as [_ Hg%bool_decide_eq_true].
  destruct u, v. cbn in *. congruence.
Qed.

(** ** Fields *)

Lemma map_nil_iff {A B} (f : A → B) (l : list A) : f <$> l = [] ↔ l = [].
Proof. by destruct l. Qed.
Lemma app_nil_iff {A} (k l : list A) : k ++ l = [] ↔ k = [] ∧ l = [].
Proof. split; [apply app_eq_nil|by intros [-> ->]]. Qed.

Lemma choice_loop_nil cs values :
  choice_loop cs values = [] ↔
    NoDup (ch_Value <$> cs) ∧ (∀ v, v ∈ ch_Value <$> cs → v ∉ values) ∧ ∀ c, c ∈ cs → tx_HR (ch_Label c) ≠ "".
Proof.
  revert values. induction cs as [|c cs IH]; intros values; cbn [choice_loop].
  { split; [|done]. intros _. repeat split; [constructor|set_solver..]. }
  rewrite !app_nil_iff, !if_nil, IH, (bool_decide_eq_false (tx_HR _ = _)), fmap_cons, list.NoDup_cons. split.
  - intros (Hl & Hv & Hd & Hn & Hc). assert (ch_Value c ∉ values) by (intros H%contains_spec; congruence).
    repeat split; [intros Hin; by apply (Hn _ Hin); constructor|done|set_solver|]. intros c' [->|?]%elem_of_cons; auto.
  - intros ([Hh Hd] & Hn & Hc). repeat split; [apply Hc; constructor| |done|set_solver|set_solver].
    apply not_true_is_false. intros H%contains_spec. apply (Hn (ch_Value c)); [constructor|done].
Qed.

Lemma type_problems_nil f :
  (if contains [TypeText; TypeNumber; TypeYesNo] (f_Type f)
   then if bool_decide (f_Choices f ≠ []) then ["only a choice field has choices"] else []
   else if bool_decide (f_Type f = TypeChoice) then choiceProblems f
   else ["type " +:+ Str.fmt_q (f_Type f) +:+ " is not text, number, yesno or choice"]) = [] ↔
  f_Type f ∈ [TypeText; TypeNumber; TypeYesNo; TypeChoice] ∧
  if bool_decide (f_Type f = TypeChoice)
  then f_Choices f ≠ [] ∧ NoDup (ch_Value <$> f_Choices f) ∧ ∀ c, c ∈ f_Choices f → tx_HR (ch_Label c) ≠ ""
  else f_Choices f = [].
Proof.
  destruct (contains _ _) eqn:E.
  - apply contains_spec in E. rewrite if_nil, bool_decide_eq_false.
    rewrite (bool_decide_eq_false_2 (f_Type f = TypeChoice)) by (intros H; rewrite H in E; set_solver).
    split; [intros H; split; [set_solver|by apply dec_stable]|by intros [_ ->]; auto].
  - assert (f_Type f ∉ [TypeText; TypeNumber; TypeYesNo]) as Hn by (intros H%contains_spec; congruence).
    case_bool_decide as Hc; [|set_solver]. unfold choiceProblems. rewrite Hc.
    destruct (f_Choices f) as [|c cs]; [naive_solver|]. rewrite choice_loop_nil.
    split; [intros (?&?&?); split; [set_solver|done]|intros (_&_&?&?); repeat split; [done|set_solver|done]].
Qed.

Lemma field_problems_nil f level : field_problems f level = [] ↔ well_field f level.
Proof.
  unfold field_problems. rewrite !app_nil_iff, !if_nil, type_problems_nil, negb_false_iff, (bool_decide_eq_false (tx_HR _ = _)), Z.ltb_ge.
  assert (match f_Under f with
          | Some u => if (u_Level u <? 1) || (level <=? u_Level u) || (u_ID u <? 1)
              then ["under must name a row (id above 0) of a level above this one (1 to " +:+ Str.fmt_d (level - 1) +:+ ")"] else []
          | None => []
          end = [] ↔ ∀ u, f_Under f = Some u → 1 <= u_Level u < level ∧ 1 <= u_ID u) as ->.
  { destruct (f_Under f) as [u|]; [|naive_solver]. rewrite if_nil, !orb_false_iff, !Z.ltb_ge, Z.leb_gt.
    split; [intros [[? ?] ?] u' [= <-]; lia|intros H; specialize (H u eq_refl); lia]. }
  split; [intros (?&?&[? ?]&?&?); by split|by intros []].
Qed.

(** ** Probes *)

Definition used (ps : list probe) : list string :=
  omap (λ p, match p with Use c _ => if bool_decide (c ≠ "") then Some c else None | Bad _ _ => None end) ps.
Definition bads (ps : list probe) : list bool := omap (λ p, match p with Bad b _ => Some b | Use _ _ => None end) ps.

Lemma used_app ps qs : used (ps ++ qs) = used ps ++ used qs.
Proof. apply omap_app. Qed.
Lemma bads_app ps qs : bads (ps ++ qs) = bads ps ++ bads qs.
Proof. apply omap_app. Qed.

Lemma probe_all_nil ps seen :
  probe_all ps seen = [] ↔
    Forall (λ b, b = false) (bads ps) ∧ NoDup (used ps) ∧ Forall (λ c, ident c = true ∧ seen !! c = None) (used ps).
Proof.
  revert seen. induction ps as [|p ps IH]; intros seen; cbn [probe_all].
  { split; [|done]. intros _. repeat split; constructor. }
  destruct p as [b what|c role]; cbn [probing].
  - rewrite app_nil_iff, if_nil, IH. cbn. rewrite list.Forall_cons. tauto.
  - assert (bads (Use c role :: ps) = bads ps) as -> by done.
    case_bool_decide as Hc.
    { assert (used (Use c role :: ps) = used ps) as ->; [|by rewrite app_nil_l, IH]. cbn. by rewrite bool_decide_eq_false_2 by tauto. }
    assert (used (Use c role :: ps) = c :: used ps) as -> by (cbn; by rewrite bool_decide_eq_true_2).
    rewrite list.Forall_cons, list.NoDup_cons. destruct (ident c) eqn:Ei; cbn [negb]; [|split; [done|naive_solver]].
    destruct (seen !! c) eqn:Es; [split; [done|naive_solver]|]. rewrite app_nil_l, IH, !list.Forall_forall.
    split.
    + intros (Hb & Hn & Hf). repeat split; [done| |done|..]; try done.
      * intros Hin. destruct (Hf c Hin) as [_ H]. by rewrite lookup_insert_eq in H.
      * by apply Hf.
      * intros. destruct (Hf x H) as [_ H']. by apply lookup_insert_None in H' as [? _].
    + intros (Hb & [Hh Hn] & _ & Hf). repeat split; try done; [by apply Hf|]. intros.
      rewrite lookup_insert_ne by (intros <-; done). by apply Hf.
Qed.

(** ** The columns and the conditions of the probes *)

Notation ne := (λ c : string, bool_decide (c ≠ "")).

Lemma filter_ne_cons c cs : List.filter ne (c :: cs) = List.filter ne [c] ++ List.filter ne cs.
Proof. cbn. by case_bool_decide. Qed.

Lemma used_Use c role ps : used (Use c role :: ps) = List.filter ne [c] ++ used ps.
Proof. cbn. by case_bool_decide. Qed.
Lemma used_Bad b what ps : used (Bad b what :: ps) = used ps.
Proof. done. Qed.

Lemma used_fmap_Use {A} (c role : A → string) (l : list A) : used ((λ a, Use (c a) (role a)) <$> l) = List.filter ne (c <$> l).
Proof. induction l as [|a l IH]; [done|]. rewrite fmap_cons, used_Use, IH, fmap_cons. cbn. by case_bool_decide. Qed.

Lemma used_fmap_Bad {A} (b : A → bool) (what : A → string) (l : list A) : used ((λ a, Bad (b a) (what a)) <$> l) = [].
Proof. by induction l. Qed.
Lemma bads_fmap_Use {A} (c role : A → string) (l : list A) : bads ((λ a, Use (c a) (role a)) <$> l) = [].
Proof. by induction l. Qed.

Lemma used_parentProblems l number : used (parentProblems l number) = List.filter ne (l_Parent l :: l_Ancestors l).
Proof.
  unfold parentProblems. rewrite used_app, used_Use, (used_fmap_Use id (λ _, "an ancestor")), list_fmap_id.
  assert (used (if (number =? 1) && (bool_decide (l_Parent l ≠ "") || (0 <? Z.of_nat (length (l_Ancestors l)))) then _ else _) = []) as ->;
    [repeat case_match; done|]. cbn. by case_bool_decide.
Qed.

Lemma used_translationProblems tr langs :
  used (translationProblems tr langs) =
    List.filter ne (tr_JSON tr :: ((λ lang, default "" (tr_Columns tr !! lang)) <$> sorted_keys (tr_Columns tr))).
Proof.
  unfold translationProblems. rewrite used_Bad, used_Use, (filter_ne_cons _ (_ <$> _)). f_equal.
  generalize (sorted_keys (tr_Columns tr)) as ks. intros ks. induction ks as [|k ks IH]; [done|].
  rewrite !fmap_cons, (filter_ne_cons _ (_ <$> _)), <-IH. cbn [concat app]. by rewrite used_Bad, used_Use.
Qed.

Lemma used_fieldProbes fs before i level : used (fieldProbes fs before i level) = List.filter ne (firsts (f_Column <$> fs) before).
Proof.
  revert before i. induction fs as [|f fs IH]; intros before i; [done|]. cbn [fieldProbes fmap list_fmap firsts].
  rewrite !used_app, (used_fmap_Bad (λ _, true)), IH, List.filter_app. cbn [app]. f_equal. by destruct (contains _ _); [|rewrite used_Use, app_nil_r].
Qed.

Lemma used_level_probes l number langs : used (level_probes l number langs) = named l.
Proof.
  unfold level_probes, named, places. rewrite !used_app, used_parentProblems, used_translationProblems, used_fieldProbes.
  rewrite <-!List.filter_app. f_equal. unfold auditProbes, audit_columns.
  rewrite !used_Bad, !used_Use, !used_Bad. change (used []) with (@nil string).
  rewrite !app_nil_r, app_nil_l, <-!List.filter_app. f_equal.
Qed.

Lemma bads_one b what : bads [Bad b what] = [b].
Proof. done. Qed.
Lemma bads_Bad b what ps : bads (Bad b what :: ps) = b :: bads ps.
Proof. done. Qed.
Lemma bads_Use c role ps : bads (Use c role :: ps) = bads ps.
Proof. done. Qed.

Lemma bads_parentProblems l number : 1 <= number →
  Forall (λ b, b = false) (bads (parentProblems l number)) ↔
  if number =? 1 then l_Parent l = "" ∧ l_Ancestors l = []
  else (1 < number → l_Parent l ≠ "") ∧ (l_Ancestors l = [] ∨ Z.of_nat (length (l_Ancestors l)) = number - 2).
Proof.
  intros Hn. unfold parentProblems. rewrite bads_app.
  change (bads (Use ?c ?r :: ?ps)) with (bads ps).
  rewrite (bads_fmap_Use id (λ _, "an ancestor")), app_nil_r. destruct (Z.eqb_spec number 1) as [->|H1]; cbn [andb].
  - destruct (bool_decide_reflect (l_Parent l ≠ "")) as [Hp|Hp]; cbn [orb]; [rewrite bads_one, list.Forall_singleton; naive_solver|].
    apply dec_stable in Hp. destruct (l_Ancestors l) as [|a as_]; cbn [length];
      [|rewrite (proj2 (Z.ltb_lt 0 _)) by lia; rewrite bads_one, list.Forall_singleton; naive_solver]. rewrite Hp. split; [done|]. intros _. vm_compute. repeat constructor.
  - rewrite (proj2 (Z.ltb_lt 1 number)) by lia. cbn [andb]. case_bool_decide as Hp.
    { rewrite bads_one, list.Forall_singleton. split; [done|]. intros [H _]. by exfalso; apply H; [lia|]. }
    rewrite bads_one, list.Forall_singleton, andb_false_iff, !negb_false_iff, !Z.eqb_eq. destruct (l_Ancestors l); cbn [length]; naive_solver lia.
Qed.

Lemma bads_translationProblems tr langs :
  Forall (λ b, b = false) (bads (translationProblems tr langs)) ↔
  (tr_JSON tr = "" ∨ tr_Columns tr = ∅) ∧ ∀ lang, is_Some (tr_Columns tr !! lang) → lang ∈ langs.
Proof.
  unfold translationProblems. rewrite bads_Bad, bads_Use, list.Forall_cons, andb_false_iff, !bool_decide_eq_false. f_equiv.
  - split; intros [H|H]; [left|right|left|right]; try (by apply dec_stable); by intros ?.
  - setoid_rewrite <-elem_of_sorted_keys. induction (sorted_keys (tr_Columns tr)) as [|k ks IH].
    { split; [set_solver|constructor]. }
    cbn [fmap list_fmap concat app]. rewrite bads_Bad, bads_Use, list.Forall_cons, negb_false_iff, contains_spec, IH. set_solver.
Qed.

Lemma bads_fieldProbes fs before i level :
  Forall (λ b, b = false) (bads (fieldProbes fs before i level)) ↔ ∀ f, f ∈ fs → well_field f level.
Proof.
  revert before i. induction fs as [|f fs IH]; intros before i; cbn [fieldProbes]; [split; [set_solver|constructor]|].
  rewrite !bads_app, !list.Forall_app, IH. rewrite <-(and_True_l (_ ∧ _)) || idtac.
  assert (Forall (λ b, b = false) (bads (if contains before (f_Column f) then [] else [Use (f_Column f) "an extra column"])) ↔ True) as ->
    by (destruct (contains _ _); split; intros; done || constructor).
  assert (∀ ps, Forall (λ b, b = false) (bads ((λ p, Bad true ("field " +:+ Str.fmt_d i +:+ " (" +:+ f_Column f +:+ "): " +:+ p)) <$> ps)) ↔ ps = []) as ->.
  { intros [|p ps]; [split; [done|constructor]|]. rewrite fmap_cons, bads_Bad, list.Forall_cons. naive_solver. }
  rewrite field_problems_nil. set_solver.
Qed.

(** ** Two fields on one column *)

Lemma sameColumn_loop_nil fs before :
  sameColumn_loop fs before = [] ↔
    ∀ i j f g, (before ++ fs) !! i = Some f → (before ++ fs) !! j = Some g → (i < j)%nat → (length before <= j)%nat → sameRows f g = false.
Proof.
  revert before. induction fs as [|f fs IH]; intros before; cbn [sameColumn_loop].
  { split; [|done]. rewrite app_nil_r. intros _ i j f g Hf Hg ? ?. apply lookup_lt_Some in Hg. lia. }
  rewrite app_nil_iff, IH, map_nil_iff. rewrite <-app_assoc. cbn [app]. split.
  - intros [Hb Hr] i j a g Ha Hg Hij Hj. destruct (decide (j = length before)) as [->|Hne].
    + rewrite list_lookup_middle in Hg by done. injection Hg as <-. rewrite lookup_app_l in Ha by done.
      apply not_true_is_false. intros Hs. assert (a ∈ List.filter (λ o, sameRows o f) before) as Hin.
      { apply elem_of_filter_bool. split; [by apply list_elem_of_lookup_2 in Ha|done]. }
      rewrite Hb in Hin. set_solver.
    + eapply Hr; [done..|]. rewrite length_app. cbn. lia.
  - intros H. split.
    + apply elem_of_nil_inv. intros a [Ha Hs]%elem_of_filter_bool. apply list_elem_of_lookup_1 in Ha as [i Hi].
      specialize (H i (length before) a f). rewrite H in Hs; [done|rewrite lookup_app_l; [done|by eapply lookup_lt_Some]|by apply list_lookup_middle| |lia].
      by eapply lookup_lt_Some.
    + intros i j a g Ha Hg Hij Hj. rewrite length_app in Hj. cbn in Hj. eapply H; [done..|lia].
Qed.

Lemma sameRows_false f g :
  sameRows f g = false ↔ (f_Column f = f_Column g → ∃ u v, f_Under f = Some u ∧ f_Under g = Some v ∧ u ≠ v).
Proof.
  unfold sameRows. rewrite andb_false_iff, bool_decide_eq_false. destruct (f_Under f) as [u|], (f_Under g) as [v|]; [|naive_solver..].
  rewrite bool_decide_eq_false. destruct (decide (f_Column f = f_Column g)); naive_solver.
Qed.

(** ** Levels and trees *)

Lemma level_problems_nil l number langs : 1 <= number → level_problems l number langs = [] ↔ well_described l number langs.
Proof.
  intros Hn. unfold level_problems. rewrite map_nil_iff, app_nil_iff, probe_all_nil, used_level_probes, sameColumn_loop_nil.
  unfold level_probes. rewrite !bads_app, !list.Forall_app, (bads_parentProblems l number Hn), bads_translationProblems, bads_fieldProbes.
  unfold auditProbes. rewrite !bads_Bad, !bads_Use, !bads_Bad, !list.Forall_cons.
  assert (Forall (λ b, b = false) (bads []) ↔ True) as -> by (split; intros; done || constructor).
  rewrite negb_false_iff, !(bool_decide_eq_false (_ = "")), list.Forall_forall, andb_false_iff, <-not_true_iff_false, existsb_elem,
    (bool_decide_eq_false (_ = "")).
  setoid_rewrite lookup_empty. setoid_rewrite sameRows_false. cbn [app length]. split.
  - intros ((((?&?&?&_) & ? & _ & _ & (Ha & _) & (?&?) & ?) & ? & Hi) & Hb). split; try done.
    + intros E c Hc. destruct Ha as [Ha|Ha]; [|done]. apply dec_stable. intros Hne. apply Ha. exists c. by rewrite bool_decide_eq_true_2.
    + split; [done|]. intros c Hc. by apply Hi.
    + intros i j f g Hf Hg Hij. apply (Hb i j f g Hf Hg Hij). lia.
  - intros [? ? ? ? Ha ? ? [Hd Hi] ? Hb]. repeat (split; try done); cycle 1.
    { by apply Hi. }
    { intros i j f g Hf Hg Hij _. by eapply Hb. }
    destruct (decide (l_Active l = "")) as [E|E]; [left|by right]. intros (c & Hc & Hne). apply bool_decide_eq_true in Hne. by apply Hne, Ha.
Qed.

Lemma level_loop_nil ls i tables langs : 1 <= i →
  level_loop ls i tables langs = [] ↔
    NoDup (l_Table <$> ls) ∧ (∀ t, t ∈ l_Table <$> ls → t ∉ tables) ∧ ∀ k l, ls !! k = Some l → well_described l (i + Z.of_nat k) langs.
Proof.
  revert i tables. induction ls as [|l ls IH]; intros i tables Hi; cbn [level_loop].
  { split; [|done]. intros _. split; [apply NoDup_nil_2|]. split; [set_solver|done]. }
  rewrite !app_nil_iff, if_nil, (level_problems_nil l i langs Hi), IH, fmap_cons, list.NoDup_cons by lia. split.
  - intros (Ht & Hl & Hd & Hn & Hk). assert (l_Table l ∉ tables) by (intros H%contains_spec; congruence). split_and!; [|done|set_solver|].
    + intros Hin. apply (Hn _ Hin). constructor.
    + intros [|k] l' E; cbn in E; [injection E as <-; by rewrite Z.add_0_r|]. specialize (Hk k l' E). by replace (i + Z.of_nat (S k)) with (i + 1 + Z.of_nat k) by lia.
  - intros ([Hh Hd] & Hn & Hk). split_and!; [| |done|set_solver|].
    + apply not_true_is_false. intros H%contains_spec. apply (Hn (l_Table l)); [constructor|done].
    + specialize (Hk 0%nat l eq_refl). by rewrite Z.add_0_r in Hk.
    + intros k l' E. specialize (Hk (S k) l' E). by replace (i + 1 + Z.of_nat k) with (i + Z.of_nat (S k)) by lia.
Qed.

Lemma tree_problems_nil t : tree_problems t = [] ↔ checked_tree t.
Proof.
  unfold tree_problems. rewrite !app_nil_iff, if_nil, bool_decide_eq_false, level_loop_nil, concat_fmap_nil by done.
  setoid_rewrite if_nil. setoid_rewrite negb_false_iff. split.
  - intros (? & ? & ? & _ & Hk). split; try done. intros i l E. rewrite Z.add_comm. by apply Hk.
  - intros [? ? ? Hk]. split_and!; try done; [set_solver|]. intros k l E. rewrite Z.add_comm. by apply Hk.
Qed.

(** Naming one column per role keeps the roles of a level apart. *)
Lemma places_apart l i j c : NoDup (named l) → c ≠ "" → places l !! i = Some c → places l !! j = Some c → i = j.
Proof.
  unfold named. generalize (places l). intros cs. revert i j. induction cs as [|d cs IH]; intros i j Hn Hc Hi Hj; [done|].
  assert (∀ k, cs !! k = Some c → d = c → False) as Hd.
  { intros k Hk ->. rewrite filter_ne_cons in Hn. cbn in Hn. rewrite bool_decide_eq_true_2 in Hn by done.
    apply list.NoDup_cons in Hn as [Hn _]. apply Hn, elem_of_filter_bool. split; [by apply list_elem_of_lookup_2 in Hk|by apply bool_decide_eq_true_2]. }
  destruct i as [|i], j as [|j]; [done|by exfalso; apply (Hd j); [|injection Hi]|by exfalso; apply (Hd i); [|injection Hj]|].
  f_equal. apply IH; try done. rewrite filter_ne_cons in Hn. by apply list.NoDup_app in Hn as (_ & _ & ?).
Qed.

(** * What the statements on described tables do

    Which columns a statement assigns, what an item shows of its row, and the snapshot
    of a database. *)

(** ** Numbers read back *)

Lemma digits_value_self n : 0 <= n → Str.digits_value 0 (Str.digits n) = n.
Proof.
  intros Hn. pose proof (Str.digits_value_digits n "" Hn) as H.
  assert (∀ s, s +:+ "" = s) as E; [|by rewrite E in H]. induction s as [|c s IH]; [done|]. by rewrite Str.app_cons, IH.
Qed.

Lemma signed_fmt_d z : signed (Str.fmt_d z) = Some z.
Proof.
  unfold Str.fmt_d. destruct (Z.ltb_spec z 0) as [Hz|Hz].
  - change ("-" +:+ Str.digits (- z)) with (String "-" (Str.digits (- z))). unfold signed.
    rewrite (bool_decide_eq_true_2 ("-"%char = "-"%char)) by done. rewrite bool_decide_eq_true_2 by apply Str.digits_nonempty.
    rewrite Str.digits_digits, digits_value_self by lia. cbn. f_equal. lia.
  - pose proof (Str.digits_digits z) as Hd. pose proof (Str.digits_nonempty z) as Hn. pose proof (digits_value_self z Hz) as Hv.
    destruct (Str.digits z) as [|c rest] eqn:E; [done|]. unfold signed.
    assert (Str.is_digit c = true) as Hc by (cbn in Hd; by apply andb_true_iff in Hd as [? _]).
    rewrite (bool_decide_eq_false_2 (c = "-"%char)) by (intros ->; done). rewrite (bool_decide_eq_false_2 (c = "+"%char)) by (intros ->; done).
    rewrite bool_decide_eq_true_2 by done. rewrite Hd, Hv. done.
Qed.

Lemma toInt_DInt lib z : Int64.fits z = true → toInt lib (DInt z) = z.
Proof. intros [? ?]%Int64.fits_spec. unfold toInt. cbn [toString]. rewrite signed_fmt_d. lia. Qed.

(** ** Columns of a level *)

(** What an update may write. *)
Definition editable (l : Level) : list string :=
  [l_Name l; l_Active l; l_Meta l] ++ audit_columns (l_Audit l) ++
  tr_JSON (l_Translations l) :: ((λ lang, default "" (tr_Columns (l_Translations l) !! lang)) <$> sorted_keys (tr_Columns (l_Translations l))) ++
  (f_Column <$> l_Fields l).

Lemma elem_of_firsts cs before c : c ∈ cs → c ∉ before → c ∈ firsts cs before.
Proof.
  revert before. induction cs as [|d cs IH]; intros before Hc Hb; [set_solver|]. cbn [firsts]. apply elem_of_app.
  destruct (decide (d = c)) as [->|Hne].
  - left. destruct (contains before c) eqn:E; [by apply contains_spec in E|constructor].
  - right. apply IH; set_solver.
Qed.

Lemma elem_of_named l c : c ∈ named l ↔ c ∈ places l ∧ c ≠ "".
Proof. unfold named. rewrite elem_of_filter_bool. by rewrite bool_decide_eq_true. Qed.

Lemma field_place l f : f ∈ l_Fields l → f_Column f ∈ firsts (f_Column <$> l_Fields l) [].
Proof. intros H. apply elem_of_firsts; [by apply list_elem_of_fmap_2|set_solver]. Qed.

Lemma firsts_elem cs before c : c ∈ firsts cs before → c ∈ cs.
Proof. revert before. induction cs as [|d cs IH]; intros before; [done|]. cbn [firsts]. rewrite elem_of_app. intros [H|H%IH]; [destruct (contains _ _); set_solver|by constructor]. Qed.

Ltac elems := repeat first [rewrite elem_of_app | rewrite elem_of_cons].

Lemma editable_place l c : c ∈ editable l → c ∈ l_Name l :: drop 3 (places l).
Proof.
  unfold editable, places. cbn [app drop]. rewrite drop_0. elems.
  intros H. destruct H as [H|[H|[H|[H|[H|[H|H]]]]]]; try tauto. apply list_elem_of_fmap in H as (f & -> & Hf%field_place). tauto.
Qed.

Lemma filter_permutation {A} (p : A → bool) (k l : list A) : k ≡ₚ l → List.filter p k ≡ₚ List.filter p l.
Proof. induction 1; cbn; repeat case_match; try constructor; eauto. by etransitivity. Qed.

Section Apart.
Context (l : Level) (names : NoDup (named l)).

Lemma apart_from c rest : places l ≡ₚ c :: rest → c ≠ "" → c ∉ rest.
Proof.
  intros Hp Hc Hin. assert (NoDup (List.filter (λ c, bool_decide (c ≠ "")) (c :: rest))) as Hn.
  { rewrite <-(filter_permutation _ _ _ Hp). exact names. }
  cbn in Hn. rewrite bool_decide_eq_true_2 in Hn by done. apply list.NoDup_cons in Hn as [Hn _].
  apply Hn, elem_of_filter_bool. split; [done|by apply bool_decide_eq_true_2].
Qed.

Lemma parent_apart : l_Parent l ≠ "" → l_Parent l ∉ editable l ∧ l_Parent l ≠ l_ID l ∧ l_Parent l ≠ l_Order l.
Proof.
  intros Hp. pose proof (apart_from (l_Parent l) ([l_ID l; l_Name l] ++ drop 3 (places l))) as H.
  specialize (H ltac:(symmetry; apply (Permutation_middle [l_ID l; l_Name l])) Hp). cbn [places drop app] in H. split_and!.
  - intros [?|?]%editable_place%elem_of_cons; apply H; [set_solver|]. do 2 right. done.
  - set_solver.
  - set_solver.
Qed.

Lemma order_apart : l_Order l ≠ "" → l_Order l ∉ editable l ∧ l_Order l ≠ l_ID l ∧ l_Order l ∉ l_Parent l :: l_Ancestors l.
Proof.
  intros Ho. set (rest := l_Active l :: l_Meta l :: audit_columns (l_Audit l) ++
    tr_JSON (l_Translations l) :: ((λ lang, default "" (tr_Columns (l_Translations l) !! lang)) <$> sorted_keys (tr_Columns (l_Translations l))) ++
    firsts (f_Column <$> l_Fields l) []).
  assert (l_Order l ∉ ([l_ID l; l_Name l; l_Parent l] ++ l_Ancestors l) ++ rest) as H.
  { apply apart_from; [|done].
    transitivity (([l_ID l; l_Name l; l_Parent l] ++ l_Ancestors l) ++ l_Order l :: rest); [by rewrite <-app_assoc|].
    symmetry. apply Permutation_middle. }
  split; [|split; set_solver]. unfold editable. cbn [app]. elems. intros Hin. apply H. unfold rest. elems.
  destruct Hin as [Hin|[Hin|[Hin|[Hin|[Hin|[Hin|Hin]]]]]]; try tauto. apply list_elem_of_fmap in Hin as (f & -> & Hf%field_place). tauto.
Qed.
End Apart.

(** ** What a statement assigns *)

Definition assigns_in (S : list string) (w : writer) : Prop := NoDup w.*1 ∧ ∀ c, c ∈ w.*1 → c ∈ S ∧ c ≠ "".

Lemma in_set S c v w : assigns_in S w → (c ≠ "" → c ∈ S) → assigns_in S (w_set c v w).
Proof.
  intros [Hn Hw] Hc. unfold w_set. case_bool_decide as E; [done|]. destruct (contains w.*1 c) eqn:Ec; [done|]. cbn [orb].
  assert (c ∉ w.*1) by (intros H%contains_spec; congruence). unfold assigns_in. rewrite fmap_app. split.
  - apply list.NoDup_app. split_and!; [done|set_solver|apply NoDup_singleton].
  - intros d [Hd|Hd]%elem_of_app; [by apply Hw|]. apply list_elem_of_singleton in Hd as ->. auto.
Qed.

Lemma in_setActor S c actor w : assigns_in S w → (c ≠ "" → c ∈ S) → assigns_in S (w_setActor c actor w).
Proof. intros. unfold w_setActor. case_match; [by apply in_set|done]. Qed.

Lemma in_foldl {A} S (f : writer → A → writer) (l : list A) w :
  (∀ w a, a ∈ l → assigns_in S w → assigns_in S (f w a)) → assigns_in S w → assigns_in S (foldl f w l).
Proof. revert w. induction l as [|a l IH]; intros w Hf Hw; [done|]. cbn. apply IH; [|apply Hf; [constructor|done]]. intros; apply Hf; [by constructor|done]. Qed.

Lemma in_weaken S S' w : assigns_in S w → (∀ c, c ∈ S → c ∈ S') → assigns_in S' w.
Proof. intros [Hn Hw] H. split; [done|]. intros c Hc. destruct (Hw c Hc). auto. Qed.

Lemma in_weaken' S S' w : assigns_in S w → (∀ c, c ∈ S → c ≠ "" → c ∈ S') → assigns_in S' w.
Proof. intros [Hn Hw] H. split; [done|]. intros c Hc. destruct (Hw c Hc). auto. Qed.

Lemma in_nil S : assigns_in S [].
Proof. split; [constructor|]. cbn. set_solver. Qed.

(** What was assigned stays assigned. *)
Lemma set_keeps c v w p : p ∈ w → p ∈ w_set c v w.
Proof. intros. unfold w_set. case_match; [done|]. set_solver. Qed.
Lemma setActor_keeps c actor w p : p ∈ w → p ∈ w_setActor c actor w.
Proof. intros. unfold w_setActor. case_match; [by apply set_keeps|done]. Qed.
Lemma foldl_keeps {A} (f : writer → A → writer) (l : list A) w p : (∀ w a, p ∈ w → p ∈ f w a) → p ∈ w → p ∈ foldl f w l.
Proof. intros Hf. revert w. induction l as [|a l IH]; intros w Hw; [done|]. cbn. by apply IH, Hf. Qed.
Lemma set_first c v w : c ≠ "" → c ∉ w.*1 → (c, v) ∈ w_set c v w.
Proof.
  intros Hc Hn. unfold w_set. rewrite bool_decide_eq_false_2 by done. destruct (contains _ _) eqn:E; [by apply contains_spec in E|]. cbn. set_solver.
Qed.

Create HintDb assigns.
#[export] Hint Resolve in_set in_setActor in_nil set_keeps setActor_keeps : assigns.

Section Writers.
Variables (lib : Library) (l : Level).

Lemma in_editable c : c ∈ editable l → c ≠ "" → c ∈ named l.
Proof.
  intros Hc Hne. apply elem_of_named. split; [|done]. apply editable_place in Hc. unfold places. rewrite elem_of_app.
  apply elem_of_cons in Hc as [->|Hc]; [left; set_solver|right]. exact Hc.
Qed.

Lemma audit_editable c : c ∈ audit_columns (l_Audit l) → c ∈ editable l.
Proof. intros. unfold editable. set_solver. Qed.

Lemma field_editable f : f ∈ l_Fields l → f_Column f ∈ editable l.
Proof. intros Hf. unfold editable. cbn [app]. elems. assert (f_Column f ∈ f_Column <$> l_Fields l) by by apply list_elem_of_fmap_2. tauto. Qed.
Lemma lang_editable lang : lang ∈ sorted_keys (tr_Columns (l_Translations l)) → default "" (tr_Columns (l_Translations l) !! lang) ∈ editable l.
Proof.
  intros Hl. unfold editable. cbn [app]. elems. do 5 right. left. apply list_elem_of_fmap. eauto.
Qed.

Lemma in_fields i current w : assigns_in (editable l) w → assigns_in (editable l) (w_fields lib l i current w).
Proof.
  intros Hw. unfold w_fields. apply in_foldl.
  { intros w' f Hf Hw'. case_match; [|done]. apply in_set; [done|]. intros _. by apply field_editable. }
  assert (assigns_in (editable l) (w_set (l_Name l) (DText (it_Name i)) w)) as H1 by (apply in_set; [done|]; intros; constructor).
  assert (assigns_in (editable l) (match it_Translations i with
    | Some given => w_translations lib l given current (w_set (l_Name l) (DText (it_Name i)) w) | None => w_set (l_Name l) (DText (it_Name i)) w end)) as H2.
  { destruct (it_Translations i) as [given|]; [|done]. unfold w_translations. case_bool_decide.
    - apply in_set; [|intros _; unfold editable; cbn [app]; elems; tauto]. apply in_foldl; [|done]. intros w' lang Hl Hw'. case_match; [|done].
      apply in_set; [done|]. intros _. by apply lang_editable.
    - apply in_foldl; [|done]. intros w' lang Hl Hw'. case_match; [|done]. apply in_set; [done|]. intros _. by apply lang_editable. }
  destruct (it_Meta i) as [m|]; [|done]. case_bool_decide; [|done]. apply in_set; [done|]. intros _. unfold editable. set_solver.
Qed.

Lemma in_update i current stamp : assigns_in (editable l) (update_writer lib l i current stamp).
Proof.
  unfold update_writer. apply in_set; [apply in_setActor; [apply in_fields, in_nil|]|]; intros _; apply audit_editable; set_solver.
Qed.

Lemma in_active active stamp : assigns_in (editable l) (active_writer l active stamp).
Proof.
  unfold active_writer. assert (assigns_in (editable l) (w_set (l_Active l) (toDB (VBool active)) [])) by (apply in_set; [apply in_nil|]; intros; unfold editable; set_solver).
  destruct active; repeat first [done | apply in_set | apply in_setActor]; intros _; apply audit_editable; set_solver.
Qed.

Definition after_parent i : writer :=
  let w := w_fields lib l (with_values i (it_Values i ∪ foldl (λ m f, <[f_Column f := empty_value f]> m) ∅ (l_Fields l))) "" [] in
  let w := if bool_decide (l_Parent l ≠ "") then w_set (l_Parent l) (DInt (it_ParentID i)) w else w in
  foldl (λ w nc, w_set nc.2 (DInt (default 0 (it_Path i !! nc.1))) w) w (indexed (l_Ancestors l)).

Lemma in_after_parent i : assigns_in (editable l ++ l_Parent l :: l_Ancestors l) (after_parent i).
Proof.
  unfold after_parent. apply in_foldl.
  - intros w [n c] Hin Hw. apply in_set; [done|]. intros _. apply elem_of_indexed, list_elem_of_lookup_2 in Hin. cbn. set_solver.
  - case_bool_decide.
    + apply in_set; [|set_solver]. eapply in_weaken; [apply in_fields, in_nil|]. set_solver.
    + eapply in_weaken; [apply in_fields, in_nil|]. set_solver.
Qed.

Lemma parent_after_parent i : NoDup (named l) → l_Parent l ≠ "" → (l_Parent l, DInt (it_ParentID i)) ∈ after_parent i.
Proof.
  intros Hn Hp. unfold after_parent. apply foldl_keeps; [intros; by apply set_keeps|]. rewrite bool_decide_eq_true_2 by done.
  apply set_first; [done|]. intros Hin. apply (in_fields (with_values i _) "" [] (in_nil _)) in Hin as [Hin _]. by apply (proj1 (parent_apart l Hn Hp)).
Qed.

(** The rest of an insert, from the order on. *)
Definition after_order i stamp : writer → writer := λ w,
  let a := l_Audit l in
  let w := w_setActor (au_CreatedBy a) (st_Actor stamp) w in
  let w := w_set (au_CreatedAt a) (DTime (st_At stamp)) w in
  let w := if au_UpdatedByOnCreate a then w_setActor (au_UpdatedBy a) (st_Actor stamp) w else w in
  let w := if au_UpdatedAtOnCreate a then w_set (au_UpdatedAt a) (DTime (st_At stamp)) w else w in
  if bool_decide (l_Active l ≠ "")
  then let w := w_set (l_Active l) (toDB (VBool (it_Active i))) w in
       if it_Active i then w_set (au_ActivatedAt a) (DTime (st_At stamp)) (w_setActor (au_ActivatedBy a) (st_Actor stamp) w) else w
  else w.

Lemma create_writer_steps i order stamp :
  create_writer lib l i order stamp =
    after_order i stamp (if bool_decide (l_Order l ≠ "") then w_set (l_Order l) (DInt order) (after_parent i) else after_parent i).
Proof. done. Qed.

Lemma after_order_keeps i stamp w p : p ∈ w → p ∈ after_order i stamp w.
Proof. intros. unfold after_order. repeat case_match; eauto 10 with assigns. Qed.

Lemma in_after_order S i stamp w :
  assigns_in S w → (∀ c, c ∈ editable l → c ≠ "" → c ∈ S) → assigns_in S (after_order i stamp w).
Proof.
  intros Hw HS. assert (∀ c, c ∈ l_Active l :: audit_columns (l_Audit l) → c ≠ "" → c ∈ S) as HA.
  { intros c [->|Hc]%elem_of_cons Hne; apply HS; try done; [unfold editable; set_solver|by apply audit_editable]. }
  unfold after_order. repeat case_match; repeat first [done | apply in_set | apply in_setActor]; apply HA; set_solver.
Qed.

Lemma in_create i order stamp : assigns_in (named l) (create_writer lib l i order stamp).
Proof.
  rewrite create_writer_steps. apply in_after_order; [|intros; by apply in_editable].
  assert (assigns_in (named l) (after_parent i)) as Hp.
  { split; [apply in_after_parent|]. intros c Hc. destruct (proj2 (in_after_parent i) c Hc) as [H Hne]. split; [|done].
    apply elem_of_app in H as [H|H]; [by apply in_editable|]. apply elem_of_named. split; [|done]. unfold places. set_solver. }
  case_match; [|done]. apply in_set; [done|]. intros. apply elem_of_named. split; [|done]. unfold places. set_solver.
Qed.

Lemma create_parent i order stamp : NoDup (named l) → l_Parent l ≠ "" → (l_Parent l, DInt (it_ParentID i)) ∈ create_writer lib l i order stamp.
Proof.
  intros Hn Hp. rewrite create_writer_steps. apply after_order_keeps. case_match; [apply set_keeps|]; by apply parent_after_parent.
Qed.

Lemma create_order i order stamp : NoDup (named l) → l_Order l ≠ "" → (l_Order l, DInt order) ∈ create_writer lib l i order stamp.
Proof.
  intros Hn Ho. rewrite create_writer_steps. apply after_order_keeps. rewrite bool_decide_eq_true_2 by done. apply set_first; [done|].
  intros Hin. destruct (proj2 (in_after_parent i) _ Hin) as [H _]. destruct (order_apart l Hn Ho) as (? & _ & ?). set_solver.
Qed.
End Writers.

(** ** Rows *)

Lemma assign_other w (r : row) c : c ∉ w.*1 → assign w r !! c = r !! c.
Proof.
  revert r. induction w as [|[d v] w IH]; intros r Hc; [done|]. change (assign ((d, v) :: w) r) with (assign w (<[d := v]> r)). rewrite IH by set_solver. apply lookup_insert_ne. set_solver.
Qed.

Lemma assign_lookup w (r : row) c v : NoDup w.*1 → (c, v) ∈ w → assign w r !! c = Some v.
Proof.
  revert r. induction w as [|[d x] w IH]; intros r Hn Hin; [set_solver|]. cbn in Hn. apply list.NoDup_cons in Hn as [Hd Hn].
  change (assign ((d, x) :: w) r) with (assign w (<[d := x]> r)). apply elem_of_cons in Hin as [[= -> ->]|Hin]; [|by apply IH]. rewrite assign_other by done. by rewrite lookup_insert_eq.
Qed.

(** * The items a database shows

    Each item of a level shows one row of its table: the id, the parent, the order.
    [levels_of] is the tree the service reads from a database. *)

(** ** The columns of a select *)

Lemma elem_of_add_columns cs acc c : c ∈ foldl add_column acc cs ↔ c ∈ acc ∨ (c ∈ cs ∧ c ≠ "").
Proof.
  revert acc. induction cs as [|d cs IH]; intros acc; cbn [foldl]; [set_solver|]. rewrite IH. unfold add_column.
  case_bool_decide as E; [subst; set_solver|]. destruct (contains acc d) eqn:Ec; [apply contains_spec in Ec|]; set_solver.
Qed.

Lemma elem_of_columns l c : c ∈ [l_ID l; l_Parent l; l_Name l; l_Order l; l_Active l; l_Meta l] → c ≠ "" → c ∈ columns l.
Proof. intros Hc Hne. unfold columns. apply elem_of_add_columns. right. split; [|done]. set_solver. Qed.

Lemma col_selected l id (r : row) c : c ∈ columns l → c ≠ l_ID l → col (selected l id r) c = col r c.
Proof.
  intros Hc Hne. unfold col, selected. f_equal. destruct (r !! c) as [v|] eqn:E.
  - apply map_lookup_filter_Some. by rewrite lookup_insert_ne.
  - apply map_lookup_filter_None. left. by rewrite lookup_insert_ne.
Qed.

Lemma col_selected_id l id (r : row) : l_ID l ≠ "" → col (selected l id r) (l_ID l) = DInt id.
Proof.
  intros Hne. unfold col, selected. rewrite (proj2 (map_lookup_filter_Some _ _ _ (DInt id))); [done|].
  split; [by rewrite lookup_insert_eq|]. cbn. apply elem_of_columns; [constructor|done].
Qed.

(** A description that was prepared. *)
Record ready (t : Tree) : Prop := mkReady { rd_sound : checked_tree t; rd_ids : ∀ l, l ∈ t_Levels t → l_ID l ≠ "" }.

Lemma prepared_ready t0 t : Prepare t0 = Ok t → ready t.
Proof.
  unfold Prepare. destruct (tree_problems (filled t0)) eqn:E; [|done]. intros [= <-]. split; [by apply tree_problems_nil|].
  intros l Hl. cbn in Hl. apply list_elem_of_fmap in Hl as (l0 & -> & _). cbn. by case_bool_decide.
Qed.

Section View.
Variables (lib : Library) (t : Tree).
Context (Ht : ready t).

Lemma level_at i l : t_Levels t !! i = Some l → tree_Level t (Z.of_nat i + 1) = Some l.
Proof.
  intros Hl. pose proof (lookup_lt_Some _ _ _ Hl). unfold tree_Level. rewrite (proj2 (Z.ltb_ge _ 1)), (proj2 (Z.ltb_ge _ _)) by lia. cbn.
  by replace (Z.to_nat _) with i by lia.
Qed.

Lemma tree_Level_Some number l : tree_Level t number = Some l → 1 <= number ∧ t_Levels t !! Z.to_nat (number - 1) = Some l.
Proof. unfold tree_Level. destruct (_ || _) eqn:E; [done|]. apply orb_false_iff in E as [?%Z.ltb_ge _]. done. Qed.

Lemma described i l : t_Levels t !! i = Some l → well_described l (Z.of_nat i + 1) (t_Languages t).
Proof. apply (sd_described _ (rd_sound _ Ht)). Qed.

Lemma names_of i l : t_Levels t !! i = Some l → NoDup (named l).
Proof. intros H. apply (wd_columns _ _ _ (described i l H)). Qed.

Lemma id_of i l : t_Levels t !! i = Some l → l_ID l ≠ "".
Proof. intros H. eapply rd_ids; [done|]. by apply list_elem_of_lookup_2 in H. Qed.

Lemma tables_apart i j l k : t_Levels t !! i = Some l → t_Levels t !! j = Some k → l_Table l = l_Table k → i = j.
Proof.
  intros Hi Hj E. eapply NoDup_lookup; [apply (sd_tables _ (rd_sound _ Ht))|by rewrite list_lookup_fmap, Hi|by rewrite list_lookup_fmap, Hj, E].
Qed.

(** ** Rows and items *)

Definition rows (db : gmap string Table) (l : Level) : gmap Z row := tb_rows (table_of db (l_Table l)).
Definition parent_of (l : Level) (r : row) : Z := if bool_decide (l_Parent l ≠ "") then toInt lib (col r (l_Parent l)) else 0.
Definition order_of (l : Level) (r : row) : Z := if bool_decide (l_Order l ≠ "") then toInt lib (col r (l_Order l)) else 0.

(** Ids the column can hold, all given out. *)
Definition ids_fit (db : gmap string Table) : Prop :=
  ∀ i l, t_Levels t !! i = Some l → 1 <= tb_next (table_of db (l_Table l)) ∧
    ∀ id r, rows db l !! id = Some r → 1 <= id < tb_next (table_of db (l_Table l)) ∧ Int64.fits id = true.

Lemma item_shows i l number id (r : row) : t_Levels t !! i = Some l → Int64.fits id = true →
  let x := item lib t number l (selected l id r) in it_ID x = id ∧ it_ParentID x = parent_of l r ∧ it_Order x = order_of l r ∧ it_Level x = number.
Proof.
  intros Hl Hf. pose proof (names_of i l Hl) as Hn. cbn. split_and!; [|..|done].
  - rewrite col_selected_id by by eapply id_of. by apply toInt_DInt.
  - unfold parent_of. case_bool_decide as Hp; [|done]. rewrite col_selected; [done|apply elem_of_columns; [set_solver|done]|by apply parent_apart].
  - unfold order_of. case_bool_decide as Ho; [|done]. rewrite col_selected; [done|apply elem_of_columns; [set_solver|done]|by apply order_apart].
Qed.

Lemma elem_of_read_rows number l (m : gmap Z row) x :
  x ∈ read_rows lib t number l m ↔ ∃ id r, m !! id = Some r ∧ x = item lib t number l (selected l id r).
Proof.
  unfold read_rows. rewrite stable_sort_perm, list_elem_of_fmap. setoid_rewrite elem_of_select. split.
  - intros (id & -> & r & Hr & _). exists id, r. by rewrite Hr.
  - intros (id & r & Hr & ->). exists id. rewrite Hr. split; [done|]. by exists r.
Qed.

Definition fitting (m : gmap Z row) : Prop := ∀ id r, m !! id = Some r → Int64.fits id = true.

Lemma NoDup_read_rows i l number (m : gmap Z row) : t_Levels t !! i = Some l → fitting m → NoDup (it_ID <$> read_rows lib t number l m).
Proof.
  intros Hl Hm. unfold read_rows. rewrite stable_sort_perm, <-list_fmap_compose.
  assert (∀ id, id ∈ select_ids m (λ _ _, true) → it_ID (item lib t number l (selected l id (default ∅ (m !! id)))) = id) as H.
  { intros id (r & Hr & _)%elem_of_select. rewrite Hr. by apply (item_shows i l number id r Hl (Hm id r Hr)). }
  rewrite (list_fmap_ext _ id), list_fmap_id; [apply NoDup_select|]. intros k id Hk. cbn. by apply H, list_elem_of_lookup_2 with k.
Qed.

(** ** Places in the tree *)

Definition levels_of (db : gmap string Table) : list (list Item) :=
  place_levels (t_Levels t) (imap (λ i l, read_rows lib t (Z.of_nat i + 1) l (rows db l)) (t_Levels t)) 1 ∅.

Lemma place_levels_lookup ls (f : nat → Level → list Item) n above i l :
  ls !! i = Some l → ∃ above', place_levels ls (imap f ls) n above !! i = Some (placed l (n + Z.of_nat i) above' <$> f i l).
Proof.
  revert f n above i. induction ls as [|k ls IH]; intros f n above i Hi; [done|]. cbn [imap place_levels]. destruct i as [|i]; cbn in *.
  - injection Hi as ->. exists above. by rewrite Z.add_0_r.
  - destruct (IH (f ∘ S) (n + 1) (index_items (placed k n above <$> f 0%nat k)) i Hi) as [above' E]. exists above'.
    replace (n + Z.of_nat (S i)) with (n + 1 + Z.of_nat i) by lia. exact E.
Qed.

Lemma place_levels_length ls rs n above : length ls = length rs → length (place_levels ls rs n above) = length ls.
Proof. revert rs n above. induction ls as [|l ls IH]; intros [|r rs] n above H; try done. cbn in *. f_equal. apply IH. lia. Qed.

Lemma levels_of_length db : length (levels_of db) = length (t_Levels t).
Proof. apply place_levels_length. by rewrite length_imap. Qed.

Lemma levels_of_lookup db i l : t_Levels t !! i = Some l →
  ∃ above, levels_of db !! i = Some (placed l (Z.of_nat i + 1) above <$> read_rows lib t (Z.of_nat i + 1) l (rows db l)).
Proof. intros Hl. destruct (place_levels_lookup _ (λ i l, read_rows lib t (Z.of_nat i + 1) l (rows db l)) 1 ∅ i l Hl) as [a E]. exists a. by replace (1 + Z.of_nat i) with (Z.of_nat i + 1) in E by lia. Qed.

(** What the items of a level show. *)
Record shown (l : Level) (number : Z) (m : gmap Z row) (L : list Item) : Prop := mkShown {
  sh_ids : NoDup (it_ID <$> L);
  sh_row : ∀ x, x ∈ L → it_Level x = number ∧ ∃ r, m !! it_ID x = Some r ∧ it_ParentID x = parent_of l r ∧ it_Order x = order_of l r;
  sh_item : ∀ id r, m !! id = Some r → ∃ x, x ∈ L ∧ it_ID x = id
}.

Lemma level_shown db i l L : ids_fit db → t_Levels t !! i = Some l → levels_of db !! i = Some L → shown l (Z.of_nat i + 1) (rows db l) L.
Proof.
  intros Hf Hl HL. destruct (levels_of_lookup db i l Hl) as [above E]. rewrite HL in E. injection E as ->.
  destruct (Hf i l Hl) as [_ Hfit]. split.
  - rewrite <-list_fmap_compose. apply (NoDup_read_rows i); [done|]. intros id r Hr. by apply (Hfit id r).
  - intros x (y & -> & (id & r & Hr & ->)%elem_of_read_rows)%list_elem_of_fmap. split; [done|]. exists r.
    destruct (item_shows i l (Z.of_nat i + 1) id r Hl) as (E1 & E2 & E3 & _); [by apply (Hfit id r)|]. cbn [placed it_ID it_ParentID it_Order]. by rewrite E1, E2, E3.
  - intros id r Hr. eexists. split; [apply list_elem_of_fmap_2, elem_of_read_rows; by exists id, r|].
    by apply (item_shows i l (Z.of_nat i + 1) id r Hl), (Hfit id r).
Qed.
End View.


Lemma index_items_lookup L id x : NoDup (it_ID <$> L) → index_items L !! id = Some x ↔ x ∈ L ∧ it_ID x = id.
Proof.
  intros Hn. unfold index_items.
  assert (∀ m : gmap Z Item, (∀ y, y ∈ L → m !! it_ID y = None) →
    foldl (λ m r, <[it_ID r := r]> m) m L !! id = Some x ↔ (x ∈ L ∧ it_ID x = id) ∨ m !! id = Some x) as H.
  { induction L as [|y L IH]; intros m Hm; cbn [foldl]; [set_solver|]. cbn in Hn. apply list.NoDup_cons in Hn as [Hy Hn].
    rewrite IH; [|done|].
    - rewrite lookup_insert_Some. split.
      + intros [[? ?]|[[<- <-]|[? ?]]]; [left; set_solver|left; set_solver|by right].
      + intros [[[->|?]%elem_of_cons ?]|Hx]; [by right; left|left; done|]. right. right. split; [|done]. intros <-. rewrite Hm in Hx; [done|constructor].
    - intros z Hz. rewrite lookup_insert_ne; [apply Hm; by constructor|]. intros E. apply Hy. rewrite E. by apply list_elem_of_fmap_2. }
  rewrite H by (intros; apply lookup_empty). rewrite lookup_empty. naive_solver.
Qed.
