(* ===== verification/CharSafety.v ===== *)
(** * Edits of described tables

    Every write of the service is one [edit] of the database. An edit leaves the
    columns nobody described, keeps the ids apart and leaves no row without its
    parent. *)

From S2P Require Import Prelude Clock Apperr Sql Hoare CharTree CharView CharStore Characteristics.

Local Open Scope Z_scope.

(** The rows of the table of a level, changed. *)
Definition upd (l : Level) (f : gmap Z row → gmap Z row) (db : gmap string Table) : gmap string Table :=
  <[l_Table l := set_rows (table_of db (l_Table l)) (f (rows db l))]> db.

Lemma on_rows_upd l f s : on_rows l f s = set_db s (upd l f (cs_db s)).
Proof. done. Qed.

Lemma table_of_insert_eq db name tb : table_of (<[name := tb]> db) name = tb.
Proof. unfold table_of. by rewrite lookup_insert_eq. Qed.
Lemma table_of_insert_ne db name name' tb : name ≠ name' → table_of (<[name := tb]> db) name' = table_of db name'.
Proof. intros. unfold table_of. by rewrite lookup_insert_ne. Qed.

Lemma upd_upd l f g db : upd l g (upd l f db) = upd l (g ∘ f) db.
Proof. unfold upd, rows. rewrite !table_of_insert_eq, insert_insert_eq. done. Qed.

(** The loop that writes the orders. *)
Definition ordered (column : string) (orders : list (Z * Z)) (m : gmap Z row) : gmap Z row :=
  foldl (λ m io, alter (λ r, <[column := DInt io.2]> r) io.1 m) m orders.

Section Edits.
Variables (lib : Library) (t : Tree).
Context (Ht : ready t).
Notation parent_of := (parent_of lib).

Inductive edit (db : gmap string Table) : gmap string Table → Prop :=
| ed_insert i l w parent : t_Levels t !! i = Some l → assigns_in (named l) w → Int64.fits (tb_next (table_of db (l_Table l))) = true →
    (∀ j k, i = S j → t_Levels t !! j = Some k → l_Parent l ≠ "" ∧ (l_Parent l, DInt parent) ∈ w ∧ is_Some (rows db k !! parent)) →
    edit db (inserted l w db).2
| ed_update i l id w : t_Levels t !! i = Some l → assigns_in (editable l) w → edit db (upd l (alter (assign w) id) db)
| ed_order i l orders : t_Levels t !! i = Some l → l_Order l ≠ "" → edit db (upd l (ordered (l_Order l) orders) db)
| ed_delete (gone : nat → list Z) db' :
    (∀ i l, t_Levels t !! i = Some l → table_of db' (l_Table l) = set_rows (table_of db (l_Table l)) (filter (λ kv, kv.1 ∉ gone i) (rows db l))) →
    (∀ name, (∀ l, l ∈ t_Levels t → l_Table l ≠ name) → db' !! name = db !! name) →
    (∀ j k l id r, t_Levels t !! j = Some k → t_Levels t !! S j = Some l → rows db l !! id = Some r → parent_of l r ∈ gone j → id ∈ gone (S j)) →
    edit db db'.

(** ** Rows after an edit *)

Lemma next_upd l f db k : tb_next (table_of (upd l f db) (l_Table k)) = tb_next (table_of db (l_Table k)).
Proof.
  unfold upd. destruct (decide (l_Table l = l_Table k)) as [E|E]; [|by rewrite table_of_insert_ne].
  rewrite E, table_of_insert_eq. done.
Qed.

Lemma rows_upd l f db i j k : t_Levels t !! i = Some l → t_Levels t !! j = Some k →
  rows (upd l f db) k = if decide (i = j) then f (rows db l) else rows db k.
Proof.
  intros Hl Hk. unfold upd, rows. destruct (decide (i = j)) as [->|Hne].
  - rewrite Hl in Hk. injection Hk as ->. by rewrite table_of_insert_eq.
  - rewrite table_of_insert_ne; [done|]. intros E. by apply Hne, (tables_apart t Ht i j l k).
Qed.

Lemma rows_inserted l w db i j k : t_Levels t !! i = Some l → t_Levels t !! j = Some k →
  rows (inserted l w db).2 k = if decide (i = j) then <[tb_next (table_of db (l_Table l)) := assign w (tb_defaults (table_of db (l_Table l)))]> (rows db l) else rows db k.
Proof.
  intros Hl Hk. unfold inserted, rows. cbn [snd]. destruct (decide (i = j)) as [->|Hne].
  - rewrite Hl in Hk. injection Hk as ->. by rewrite table_of_insert_eq.
  - rewrite table_of_insert_ne; [done|]. intros E. by apply Hne, (tables_apart t Ht i j l k).
Qed.

Lemma next_inserted l w db i j k : t_Levels t !! i = Some l → t_Levels t !! j = Some k →
  tb_next (table_of (inserted l w db).2 (l_Table k)) = if decide (i = j) then tb_next (table_of db (l_Table l)) + 1 else tb_next (table_of db (l_Table k)).
Proof.
  intros Hl Hk. unfold inserted. cbn [snd]. destruct (decide (i = j)) as [->|Hne].
  - rewrite Hl in Hk. injection Hk as ->. by rewrite table_of_insert_eq.
  - rewrite table_of_insert_ne; [done|]. intros E. by apply Hne, (tables_apart t Ht i j l k).
Qed.

(** A change that keeps every row, with the columns outside [S] as they were. *)
Definition keeps_rows (S : list string) (f : gmap Z row → gmap Z row) : Prop :=
  ∀ m id, match f m !! id, m !! id with Some r', Some r => ∀ c, c ∉ S → r' !! c = r !! c | None, None => True | _, _ => False end.

Lemma alter_keeps S g id : (∀ r c, c ∉ S → g r !! c = (r : row) !! c) → keeps_rows S (alter g id).
Proof.
  intros Hg m j. destruct (decide (id = j)) as [->|Hne]; [rewrite lookup_alter_eq|rewrite lookup_alter_ne by done]; destruct (m !! j); cbn; auto.
Qed.

Lemma ordered_keeps column orders : keeps_rows [column] (ordered column orders).
Proof.
  unfold ordered. induction orders as [|[id o] orders IH]; intros m j; cbn [foldl]; [by destruct (m !! j)|].
  pose proof (alter_keeps [column] (λ r, <[column := DInt o]> r) id) as Ha.
  specialize (Ha ltac:(intros; apply lookup_insert_ne; set_solver) m j). specialize (IH (alter (λ r, <[column := DInt o]> r) id m) j).
  cbn in *. destruct (foldl _ _ _ !! j), (alter _ id m !! j), (m !! j); try done. intros c Hc. by rewrite IH, Ha.
Qed.

Lemma assign_keeps S w id : assigns_in S w → keeps_rows S (alter (assign w) id).
Proof. intros [_ Hw]. apply alter_keeps. intros r c Hc. apply assign_other. intros H. by destruct (Hw c H). Qed.

(** ** Columns nobody described *)

Record kept (db db' : gmap string Table) : Prop := mkKept {
  kp_other : ∀ name, (∀ l, l ∈ t_Levels t → l_Table l ≠ name) → db' !! name = db !! name;
  kp_next : ∀ i l, t_Levels t !! i = Some l → tb_next (table_of db (l_Table l)) <= tb_next (table_of db' (l_Table l));
  kp_rows : ∀ i l id r', t_Levels t !! i = Some l → rows db' l !! id = Some r' → id < tb_next (table_of db (l_Table l)) →
              ∃ r, rows db l !! id = Some r ∧ ∀ c, c ∉ named l → r' !! c = r !! c
}.

Lemma kept_refl db : kept db db.
Proof. split; [done|lia|]. intros i l id r' _ Hr _. by exists r'. Qed.

Lemma kept_trans db db' db'' : kept db db' → kept db' db'' → kept db db''.
Proof.
  intros [Ho Hn Hr] [Ho' Hn' Hr']. split.
  - intros name H. by rewrite Ho', Ho.
  - intros i l Hl. specialize (Hn i l Hl). specialize (Hn' i l Hl). lia.
  - intros i l id r'' Hl E'' Hlt. destruct (Hr' i l id r'' Hl E'') as (r' & E' & H'); [specialize (Hn i l Hl); lia|].
    destruct (Hr i l id r' Hl E' Hlt) as (r & E & H). exists r. split; [done|]. intros c Hc. by rewrite H', H.
Qed.

Lemma upd_kept i l f db : t_Levels t !! i = Some l → keeps_rows (named l) f → kept db (upd l f db).
Proof.
  intros Hl Hf. split.
  - intros name H. unfold upd. rewrite lookup_insert_ne; [done|]. apply H. by apply list_elem_of_lookup_2 in Hl.
  - intros j k _. by rewrite next_upd.
  - intros j k id r' Hk Hr _. rewrite (rows_upd l f db i j k Hl Hk) in Hr. destruct (decide (i = j)) as [->|_]; [|by exists r'].
    rewrite Hl in Hk. injection Hk as ->. specialize (Hf (rows db k) id). rewrite Hr in Hf. destruct (rows db k !! id) as [r|]; [|done]. by exists r.
Qed.

Lemma edit_kept db db' : edit db db' → kept db db'.
Proof.
  intros [i l w parent Hl Hw Hf Hp|i l id w Hl Hw|i l orders Hl Ho|gone db2 Hd Ho Hc].
  - split.
    + intros name H. unfold inserted. cbn. rewrite lookup_insert_ne; [done|]. apply H. by apply list_elem_of_lookup_2 in Hl.
    + intros j k Hk. rewrite (next_inserted l w db i j k Hl Hk). destruct (decide (i = j)) as [->|]; [|lia].
      rewrite Hl in Hk. injection Hk as ->. lia.
    + intros j k id r' Hk Hr Hlt. rewrite (rows_inserted l w db i j k Hl Hk) in Hr. destruct (decide (i = j)) as [->|]; [|by exists r'].
      rewrite Hl in Hk. injection Hk as ->. rewrite lookup_insert_ne in Hr by lia. by exists r'.
  - apply (upd_kept i); [done|]. apply assign_keeps. eapply in_weaken'; [exact Hw|]. intros; by apply in_editable.
  - apply (upd_kept i); [done|]. intros m id. pose proof (ordered_keeps (l_Order l) orders m id) as H. destruct (_ !! id), (m !! id); try done.
    intros c Hc. apply H. intros ->%list_elem_of_singleton. apply Hc, elem_of_named. split; [|done]. unfold places. set_solver.
  - split; [done| |].
    + intros i l Hl. rewrite (Hd i l Hl). cbn. lia.
    + intros i l id r' Hl Hr _. unfold rows in Hr. rewrite (Hd i l Hl) in Hr. cbn in Hr. apply map_lookup_filter_Some in Hr as [Hr _]. by exists r'.
Qed.

(** ** No row without its parent *)

Definition no_orphans (db : gmap string Table) : Prop :=
  ∀ j k l id r, t_Levels t !! j = Some k → t_Levels t !! S j = Some l → rows db l !! id = Some r → is_Some (rows db k !! parent_of l r).

Record intact (db : gmap string Table) : Prop := mkIntact { in_fit : ids_fit t db; in_whole : no_orphans db }.

Lemma below_has_parent j l : t_Levels t !! S j = Some l → l_Parent l ≠ "".
Proof.
  intros Hl. pose proof (wd_parent _ _ _ (described t Ht (S j) l Hl)) as H. rewrite (proj2 (Z.eqb_neq _ _)) in H by lia. apply H. lia.
Qed.

Lemma upd_intact i l f db S : t_Levels t !! i = Some l → keeps_rows S f → (l_Parent l ≠ "" → l_Parent l ∉ S) → intact db → intact (upd l f db).
Proof.
  intros Hl Hf HS [Hfit Hw].
  assert (∀ j k id r', t_Levels t !! j = Some k → rows (upd l f db) k !! id = Some r' →
    ∃ r, rows db k !! id = Some r ∧ parent_of k r' = parent_of k r) as Hrow.
  { intros j k id r' Hk Hr. rewrite (rows_upd l f db i j k Hl Hk) in Hr. destruct (decide (i = j)) as [->|_]; [|by exists r'].
    rewrite Hl in Hk. injection Hk as ->. specialize (Hf (rows db k) id). rewrite Hr in Hf. destruct (rows db k !! id) as [r|]; [|done].
    exists r. split; [done|]. unfold CharView.parent_of. case_bool_decide as Hp; [|done]. unfold col. by rewrite Hf by auto. }
  split.
  - intros j k Hk. rewrite next_upd. destruct (Hfit j k Hk) as [Hn Hr]. split; [done|]. intros id r' (r & E & _)%(Hrow j k id r' Hk). by apply (Hr id r).
  - intros j k m id r' Hk Hm (r & E & ->)%(Hrow _ _ _ _ Hm). destruct (Hw j k m id r Hk Hm E) as [p Hp].
    rewrite (rows_upd l f db i j k Hl Hk). destruct (decide (i = j)) as [->|_]; [|by exists p].
    rewrite Hl in Hk. injection Hk as ->. specialize (Hf (rows db k) (parent_of m r)). rewrite Hp in Hf.
    destruct (f (rows db k) !! parent_of m r) as [p'|]; [by exists p'|done].
Qed.

Lemma insert_intact i l w parent db : t_Levels t !! i = Some l → assigns_in (named l) w → Int64.fits (tb_next (table_of db (l_Table l))) = true →
  (∀ j k, i = S j → t_Levels t !! j = Some k → l_Parent l ≠ "" ∧ (l_Parent l, DInt parent) ∈ w ∧ is_Some (rows db k !! parent)) →
  intact db → intact (inserted l w db).2.
Proof.
  intros Hl [Hnd Hw] Hf Hp [Hfit Hwhole]. split.
  - intros j k Hk. rewrite (next_inserted l w db i j k Hl Hk), (rows_inserted l w db i j k Hl Hk). destruct (Hfit j k Hk) as [Hn Hr].
    destruct (decide (i = j)) as [->|_]; [|done]. rewrite Hl in Hk. injection Hk as ->. split; [lia|].
    intros id r [[<- _]|[_ E]]%lookup_insert_Some; [split; [lia|done]|]. destruct (Hr id r E). split; [lia|done].
  - intros j k m id r Hk Hm Hr. rewrite (rows_inserted l w db i (S j) m Hl Hm) in Hr.
    assert (∀ p, is_Some (rows db k !! p) → is_Some (rows (inserted l w db).2 k !! p)) as Hgrow.
    { intros p [x E]. rewrite (rows_inserted l w db i j k Hl Hk). destruct (decide (i = j)) as [->|_]; [|by exists x].
      rewrite Hl in Hk. injection Hk as ->. destruct (Hfit j k Hl) as [_ Hlt]. destruct (Hlt p x E). rewrite lookup_insert_ne by lia. by exists x. }
    apply Hgrow. destruct (decide (i = S j)) as [->|_]; [|by apply (Hwhole j k m id)].
    rewrite Hl in Hm. injection Hm as ->. apply lookup_insert_Some in Hr as [[_ <-]|[_ Hr]]; [|by apply (Hwhole j k m id)].
    destruct (Hp j k eq_refl Hk) as (Hne & Hin & [x Hx]). unfold CharView.parent_of. rewrite bool_decide_eq_true_2 by done. unfold col.
    rewrite (assign_lookup w _ _ _ Hnd Hin). change (default DNull (Some (DInt parent))) with (DInt parent). rewrite toInt_DInt; [by exists x|]. destruct (Hfit j k Hk) as [_ Hlt]. by apply (Hlt parent x).
Qed.

Lemma edit_intact db db' : edit db db' → intact db → intact db'.
Proof.
  intros [i l w parent Hl Hw Hf Hp|i l id w Hl Hw|i l orders Hl Ho|gone db2 Hd Ho Hc] Hi.
  - by eapply insert_intact.
  - eapply (upd_intact i); [done|by apply assign_keeps| |done]. apply parent_apart. by eapply names_of.
  - eapply (upd_intact i); [done|apply ordered_keeps| |done]. intros Hp H%list_elem_of_singleton.
    by destruct (parent_apart l (names_of t Ht i l Hl) Hp) as (_ & _ & ?).
  - destruct Hi as [Hfit Hwhole].
    assert (∀ i l id r, t_Levels t !! i = Some l → rows db2 l !! id = Some r ↔ rows db l !! id = Some r ∧ id ∉ gone i) as Hrow.
    { intros i l id r Hl. unfold rows. rewrite (Hd i l Hl). cbn. by rewrite map_lookup_filter_Some. }
    split.
    + intros i l Hl. rewrite (Hd i l Hl). cbn. destruct (Hfit i l Hl) as [Hn Hr]. split; [done|]. intros id r [E _]%(Hrow i l id r Hl). by apply (Hr id r).
    + intros j k l id r Hk Hl [E Hid]%(Hrow _ _ _ _ Hl). destruct (Hwhole j k l id r Hk Hl E) as [p Hp]. exists p. apply (Hrow j k _ _ Hk).
      split; [done|]. intros Hg. by apply Hid, (Hc j k l id r).
Qed.
End Edits.

(** * Branches of a tree

    [under] says which rows are below a row, in terms of the database alone;
    [below] finds exactly those, level by level. *)

(** The items [below_loop] finds at a depth. *)
Fixpoint generation (levels : list (list Item)) (parents : list Z) (k : nat) : list Item :=
  match levels, k with
  | [], _ => []
  | rows :: _, O => List.filter (λ r, contains parents (it_ParentID r)) rows
  | rows :: rest, S k => generation rest (it_ID <$> List.filter (λ r, contains parents (it_ParentID r)) rows) k
  end.

Lemma below_loop_generations levels parents : below_loop levels parents = concat (generation levels parents <$> seq 0 (length levels)).
Proof.
  revert parents. induction levels as [|rows rest IH]; intros parents; [done|]. cbn [below_loop length seq fmap list_fmap concat generation].
  f_equal. rewrite IH. f_equal. rewrite <-fmap_S_seq, <-list_fmap_compose. done.
Qed.

Lemma elem_of_below_loop levels parents x : x ∈ below_loop levels parents ↔ ∃ k, x ∈ generation levels parents k.
Proof.
  rewrite below_loop_generations, list_elem_of_In, in_concat. split.
  - intros (l & Hl%list_elem_of_In & Hx%list_elem_of_In). apply list_elem_of_fmap in Hl as (k & -> & _). by exists k.
  - intros [k Hk]. exists (generation levels parents k). rewrite <-!list_elem_of_In. split; [|done]. apply list_elem_of_fmap_2, elem_of_seq.
    split; [lia|]. revert parents k Hk. induction levels as [|rows rest IH]; intros parents [|k] Hk; cbn in *; try set_solver; [lia|].
    specialize (IH _ _ Hk). lia.
Qed.

(** ** Counting *)

Lemma NoDup_filter_sub {A B} (f : A → B) (p : A → bool) (l : list A) : NoDup (f <$> l) → NoDup (f <$> List.filter p l).
Proof.
  induction l as [|a l IH]; [done|]. cbn. intros [Ha Hn]%list.NoDup_cons. case_match; [|by apply IH]. cbn. apply list.NoDup_cons.
  split; [|by apply IH]. intros (b & E & [Hb _]%elem_of_filter_bool)%list_elem_of_fmap. apply Ha. rewrite E. by apply list_elem_of_fmap_2.
Qed.

Lemma generation_NoDup levels parents k : (∀ L, L ∈ levels → NoDup (it_ID <$> L)) → NoDup (it_ID <$> generation levels parents k).
Proof.
  revert parents k. induction levels as [|rows rest IH]; intros parents [|k] H; cbn [generation]; try apply NoDup_nil_2.
  - apply NoDup_filter_sub, H. constructor.
  - apply IH. intros; apply H; by constructor.
Qed.

Lemma filter_none {A} (p : A → bool) (l : list A) : (∀ a, a ∈ l → p a = false) → List.filter p l = [].
Proof. induction l as [|a l IH]; intros H; [done|]. cbn. rewrite (H a) by constructor. apply IH. intros; apply H; by constructor. Qed.

(** One generation per level. *)
Lemma NoDup_level_concat (g : nat → list Item) (c : nat) n number :
  (∀ k x, x ∈ g k → it_Level x = Z.of_nat (c + k) + 1) → (∀ k, NoDup (it_ID <$> g k)) →
  NoDup (it_ID <$> List.filter (λ x, it_Level x =? number) (concat (g <$> seq 0 n))).
Proof.
  intros Hl Hn. induction n as [|n IH]; [apply NoDup_nil_2|]. rewrite seq_S, fmap_app, concat_app, List.filter_app. cbn [fmap list_fmap concat Nat.add].
  rewrite app_nil_r. destruct (decide (number = Z.of_nat (c + n) + 1)) as [->|Hne].
  - rewrite (filter_none _ (concat _)); [apply NoDup_filter_sub, Hn|]. intros x (l & Hin & Hx)%list_elem_of_In%in_concat.
    apply list_elem_of_In, list_elem_of_fmap in Hin as (k & -> & [_ Hk]%elem_of_seq). apply list_elem_of_In in Hx.
    rewrite (Hl k x Hx). apply Z.eqb_neq. lia.
  - rewrite (filter_none _ (g n)), app_nil_r; [exact IH|]. intros x Hx. rewrite (Hl n x Hx). by apply Z.eqb_neq.
Qed.

(** All items of a list are counted at their levels. *)
Lemma sum_by_level (l : list Item) n : (∀ x, x ∈ l → 1 <= it_Level x <= Z.of_nat n) →
  length l = sum_list ((λ j, length (ids_at l (Z.of_nat j + 1))) <$> seq 0 n).
Proof.
  induction l as [|x l IH]; intros H.
  - assert (∀ js, sum_list ((λ j, length (ids_at [] (Z.of_nat j + 1))) <$> js) = 0%nat) as E by (induction js; done). by rewrite E.
  - cbn [length]. rewrite IH by (intros; apply H; by constructor). clear IH. specialize (H x ltac:(constructor)).
    set (hit := λ j, if decide (it_Level x = Z.of_nat j + 1) then 1%nat else 0%nat).
    assert (∀ j, length (ids_at (x :: l) (Z.of_nat j + 1)) = (hit j + length (ids_at l (Z.of_nat j + 1)))%nat) as E.
    { intros j. unfold ids_at, hit. cbn [List.filter]. destruct (Z.eqb_spec (it_Level x) (Z.of_nat j + 1)); destruct (decide _); done. }
    assert (∀ js, sum_list ((λ j, length (ids_at (x :: l) (Z.of_nat j + 1))) <$> js) =
      (sum_list (hit <$> js) + sum_list ((λ j, length (ids_at l (Z.of_nat j + 1))) <$> js))%nat) as ->.
    { induction js as [|j js IH]; [done|]. rewrite !fmap_cons. cbn [sum_list_with]. rewrite IH, E. unfold id. lia. }
    assert (∀ m, (Z.of_nat m < it_Level x → sum_list (hit <$> seq 0 m) = 0%nat) ∧ (it_Level x <= Z.of_nat m → sum_list (hit <$> seq 0 m) = 1%nat)) as Hm.
    { induction m as [|m [IH0 IH1]]; [split; [done|lia]|]. rewrite seq_S, fmap_app, sum_list_with_app. cbn [fmap list_fmap sum_list_with Nat.add].
      unfold hit at 2 4. split; intros Hm; destruct (decide (it_Level x = Z.of_nat m + 1)); try lia.
      - rewrite IH0 by lia. done.
      - rewrite IH0 by lia. done.
      - rewrite IH1 by lia. done. }
    rewrite (proj2 (Hm n)) by lia. done.
Qed.

Lemma size_without (m : gmap Z row) ids : NoDup ids → (∀ id, id ∈ ids → is_Some (m !! id)) →
  (size (filter (λ kv : Z * row, kv.1 ∉ ids) m) + length ids = size m)%nat.
Proof.
  intros Hn Hin. rewrite <-!size_dom.
  assert (dom (filter (λ kv : Z * row, kv.1 ∉ ids) m) = dom m ∖ list_to_set ids) as ->.
  { apply set_eq. intros id. rewrite elem_of_difference, elem_of_list_to_set, !elem_of_dom. split.
    - intros [r [Hr Hid]%map_lookup_filter_Some]. split; [by exists r|done].
    - intros [[r Hr] Hid]. exists r. by apply map_lookup_filter_Some. }
  assert ((list_to_set ids : gset Z) ⊆ dom m) as Hs by (intros id Hid%elem_of_list_to_set; by apply elem_of_dom, Hin).
  pose proof (subseteq_size _ _ Hs). rewrite size_difference by done. rewrite (size_list_to_set (C := gset Z)) in * by done. lia.
Qed.

(** How many rows there are. *)
Definition total (t : Tree) (db : gmap string Table) : nat := sum_list ((λ l, size (rows db l)) <$> t_Levels t).

Lemma sum_difference {A} (f g : A → nat) (c : nat → nat) (ls : list A) k :
  (∀ j l, ls !! j = Some l → f l = (g l + c (k + j))%nat) → sum_list (f <$> ls) = (sum_list (g <$> ls) + sum_list (c <$> seq k (length ls)))%nat.
Proof.
  revert k. induction ls as [|l ls IH]; intros k H; [done|]. rewrite !fmap_cons. cbn [length seq]. rewrite fmap_cons. cbn [sum_list_with].
  rewrite (IH (S k)); [|intros j m Hm; rewrite (H (S j) m Hm); do 2 f_equal; lia]. rewrite (H 0%nat l eq_refl), Nat.add_0_r. unfold id. lia.
Qed.

Section Branch.
Variables (lib : Library) (t : Tree).
Context (Ht : ready t).
Variable (db : gmap string Table).
Context (Hfit : ids_fit t db).
Notation parent_of := (parent_of lib).
Notation LL := (levels_of lib t db).

(** Row [y] of level [j] is row [id] of level [i], or below it. *)
Inductive under : nat → Z → nat → Z → Prop :=
| under_self i id : under i id i id
| under_child i id l c r j y : t_Levels t !! S i = Some l → rows db l !! c = Some r → parent_of l r = id → under (S i) c j y → under i id j y.

Lemma under_deeper i id j y : under i id j y → (i <= j)%nat.
Proof. induction 1; lia. Qed.

Lemma under_here i id y : under i id i y → y = id.
Proof. inversion 1 as [|? ? ? ? ? ? ? ? ? ? H']; [done|]. apply under_deeper in H'. lia. Qed.

Lemma under_down i id j l c r : under i id j (parent_of l r) → t_Levels t !! S j = Some l → rows db l !! c = Some r → under i id (S j) c.
Proof.
  intros H Hl Hr. remember (parent_of l r) as p eqn:E. induction H as [|i id l' c' r' j y Hl' Hr' Hp _ IH].
  - subst. eapply under_child; [done..|apply under_self].
  - eapply under_child; [done..|]. by apply IH.
Qed.

Lemma level_item i l id r : t_Levels t !! i = Some l → rows db l !! id = Some r → ∃ L x, LL !! i = Some L ∧ x ∈ L ∧ it_ID x = id.
Proof.
  intros Hl Hr. destruct (levels_of_lookup lib t db i l Hl) as [above E].
  destruct (sh_item _ _ _ _ _ (level_shown lib t Ht db i l _ Hfit Hl E) id r Hr) as (x & Hx & Hid). by exists (placed l (Z.of_nat i + 1) above <$> read_rows lib t (Z.of_nat i + 1) l (rows db l)), x.
Qed.

Lemma level_of_items i L : LL !! i = Some L → ∃ l, t_Levels t !! i = Some l.
Proof. intros H. apply lookup_lt_Some in H. rewrite levels_of_length in H. by apply lookup_lt_is_Some_2. Qed.

Lemma generation_spec k j ps y :
  y ∈ generation (drop (S j) LL) ps k ↔ (∃ L, LL !! (S j + k)%nat = Some L ∧ y ∈ L) ∧ ∃ p, p ∈ ps ∧ under j p (S j + k) (it_ID y).
Proof.
  revert j ps y. induction k as [|k IH]; intros j ps y.
  - rewrite Nat.add_0_r. destruct (LL !! S j) as [L|] eqn:EL.
    + rewrite (drop_S _ _ _ EL). cbn [generation]. rewrite elem_of_filter_bool, contains_spec. destruct (level_of_items _ _ EL) as [l Hl].
      pose proof (level_shown lib t Ht db (S j) l L Hfit Hl EL) as Hsh. split.
      * intros [Hy Hp]. split; [by exists L|]. exists (it_ParentID y). split; [done|].
        destruct (sh_row _ _ _ _ _ Hsh y Hy) as (_ & r & Hr & Hpar & _). eapply under_child; [done..|apply under_self].
      * intros [(L' & [= <-] & Hy) (p & Hp & Hu)]. split; [done|]. destruct (sh_row _ _ _ _ _ Hsh y Hy) as (_ & r & Hr & -> & _).
        inversion Hu as [? ? E|? ? l' c r' ? ? Hl' Hr' Hpar Hu']; [lia|]. apply under_here in Hu'. subst. rewrite Hl in Hl'. injection Hl' as <-.
        rewrite Hr in Hr'. by injection Hr' as <-.
    + rewrite drop_ge by (apply lookup_ge_None in EL; lia). split; [cbn; set_solver|]. by intros [(L & ? & _) _].
  - destruct (LL !! S j) as [L|] eqn:EL.
    + rewrite (drop_S _ _ _ EL). cbn [generation]. rewrite IH. replace (S (S j) + k)%nat with (S j + S k)%nat by lia. f_equiv.
      destruct (level_of_items _ _ EL) as [l Hl]. pose proof (level_shown lib t Ht db (S j) l L Hfit Hl EL) as Hsh. split.
      * intros (p & (x & -> & [Hx Hp]%elem_of_filter_bool)%list_elem_of_fmap & Hu). apply contains_spec in Hp. exists (it_ParentID x). split; [done|].
        destruct (sh_row _ _ _ _ _ Hsh x Hx) as (_ & r & Hr & Hpar & _). by eapply under_child.
      * intros (p & Hp & Hu). inversion Hu as [? ? E|? ? l' c r' ? ? Hl' Hr' Hpar Hu']; [lia|]. subst. rewrite Hl in Hl'. injection Hl' as <-.
        destruct (sh_item _ _ _ _ _ Hsh c r' Hr') as (x & Hx & <-). exists (it_ID x). split; [|done]. apply list_elem_of_fmap_2, elem_of_filter_bool.
        split; [done|]. apply contains_spec. destruct (sh_row _ _ _ _ _ Hsh x Hx) as (_ & r & Hr & -> & _). rewrite Hr in Hr'. by injection Hr' as ->.
    + rewrite drop_ge by (apply lookup_ge_None in EL; lia). split; [cbn; set_solver|]. intros [(L & HL & _) _].
      apply lookup_ge_None in EL. apply lookup_lt_Some in HL. lia.
Qed.

(** ** What a delete takes *)

Section Item.
Context (i : nat) (L : list Item) (x : Item) (HL : LL !! i = Some L) (Hx : x ∈ L).

Lemma item_level : it_Level x = Z.of_nat i + 1.
Proof.
  destruct (level_of_items _ _ HL) as [l Hl]. by destruct (sh_row _ _ _ _ _ (level_shown lib t Ht db i l L Hfit Hl HL) x Hx).
Qed.

Lemma elem_of_below sn y : sn_levels sn = LL → y ∈ below sn x ↔ ∃ k, y ∈ generation (drop (S i) LL) [it_ID x] k.
Proof.
  intros Hs. unfold below. rewrite elem_of_below_loop, Hs, item_level. by replace (Z.to_nat (Z.of_nat i + 1)) with (S i) by lia.
Qed.

Lemma generation_level k y : y ∈ generation (drop (S i) LL) [it_ID x] k → it_Level y = Z.of_nat (S i + k) + 1.
Proof.
  intros [(M & HM & Hy) _]%generation_spec. destruct (level_of_items _ _ HM) as [l Hl].
  by destruct (sh_row _ _ _ _ _ (level_shown lib t Ht db _ l M Hfit Hl HM) y Hy).
Qed.

Lemma ids_at_branch sn j l id r : sn_levels sn = LL → t_Levels t !! j = Some l → rows db l !! id = Some r →
  id ∈ ids_at (x :: below sn x) (Z.of_nat j + 1) ↔ under i (it_ID x) j id.
Proof.
  intros Hs Hl Hr. unfold ids_at. rewrite list_elem_of_fmap. setoid_rewrite elem_of_filter_bool. setoid_rewrite Z.eqb_eq. setoid_rewrite elem_of_cons. split.
  - intros (y & -> & [->|(k & Hk)%(elem_of_below sn y Hs)] & Hlev).
    + rewrite item_level in Hlev. replace j with i by lia. apply under_self.
    + rewrite (generation_level k y Hk) in Hlev. assert (j = (S i + k)%nat) as -> by lia.
      apply generation_spec in Hk as [_ (p & Hp & Hu)]. apply list_elem_of_singleton in Hp as ->. done.
  - intros Hu. pose proof (under_deeper _ _ _ _ Hu). destruct (decide (j = i)) as [->|Hne].
    + apply under_here in Hu as ->. exists x. split_and!; [done|by left|apply item_level].
    + destruct (level_item j l id r Hl Hr) as (M & y & HM & Hy & <-). exists y.
      assert (y ∈ generation (drop (S i) LL) [it_ID x] (j - S i)) as Hg.
      { apply generation_spec. replace (S i + (j - S i))%nat with j by lia. split; [by exists M|]. exists (it_ID x). split; [constructor|done]. }
      split_and!; [done|right; apply (elem_of_below sn y Hs); by exists (j - S i)%nat|]. rewrite (generation_level _ y Hg). lia.
Qed.

Lemma ids_at_closed sn j k l id r : sn_levels sn = LL → t_Levels t !! j = Some k → t_Levels t !! S j = Some l → rows db l !! id = Some r →
  is_Some (rows db k !! parent_of l r) →
  parent_of l r ∈ ids_at (x :: below sn x) (Z.of_nat j + 1) → id ∈ ids_at (x :: below sn x) (Z.of_nat (S j) + 1).
Proof.
  intros Hs Hk Hl Hr [q Hq] Hp. apply (ids_at_branch sn j k _ q Hs Hk Hq) in Hp. apply (ids_at_branch sn (S j) l id r Hs Hl Hr).
  by eapply under_down.
Qed.

Lemma branch_level sn y : sn_levels sn = LL → y ∈ x :: below sn x → 1 <= it_Level y <= Z.of_nat (length (t_Levels t)).
Proof.
  intros Hs [->|(k & Hk)%(elem_of_below sn y Hs)]%elem_of_cons.
  - rewrite item_level. pose proof (lookup_lt_Some _ _ _ HL) as H. rewrite levels_of_length in H. lia.
  - rewrite (generation_level k y Hk). apply generation_spec in Hk as [(M & HM & _) _]. pose proof (lookup_lt_Some _ _ _ HM) as H.
    rewrite levels_of_length in H. lia.
Qed.

Lemma NoDup_ids_at sn number : sn_levels sn = LL → NoDup (ids_at (x :: below sn x) number).
Proof.
  intros Hs. unfold ids_at. cbn [List.filter].
  assert (NoDup (it_ID <$> List.filter (λ r, it_Level r =? number) (below sn x))) as Hb.
  { unfold below. rewrite below_loop_generations, item_level, Hs. replace (Z.to_nat (Z.of_nat i + 1)) with (S i) by lia.
    apply (NoDup_level_concat _ (S i)); [intros k y; apply generation_level|]. intros k. apply generation_NoDup.
    intros M [j HM]%list_elem_of_lookup_1. rewrite lookup_drop in HM. destruct (level_of_items _ _ HM) as [l Hl].
    apply (sh_ids _ _ _ _ _ (level_shown lib t Ht db _ l M Hfit Hl HM)). }
  rewrite item_level. destruct (Z.eqb_spec (Z.of_nat i + 1) number) as [<-|_]; [|done]. rewrite filter_none; [apply NoDup_singleton|].
  intros y (k & Hk)%(elem_of_below sn y Hs). rewrite (generation_level k y Hk). apply Z.eqb_neq. lia.
Qed.

Lemma ids_at_rows sn j l id : sn_levels sn = LL → t_Levels t !! j = Some l → id ∈ ids_at (x :: below sn x) (Z.of_nat j + 1) → is_Some (rows db l !! id).
Proof.
  intros Hs Hl (y & -> & [Hy Hlev%Z.eqb_eq]%elem_of_filter_bool)%list_elem_of_fmap.
  assert (∃ M, LL !! j = Some M ∧ y ∈ M) as (M & HM & HyM).
  { apply elem_of_cons in Hy as [->|(k & Hk)%(elem_of_below sn y Hs)].
    - rewrite item_level in Hlev. replace j with i by lia. by exists L.
    - rewrite (generation_level k y Hk) in Hlev. apply generation_spec in Hk as [(M & HM & HyM) _]. exists M. by replace j with (S i + k)%nat by lia. }
  destruct (sh_row _ _ _ _ _ (level_shown lib t Ht db j l M Hfit Hl HM) y HyM) as (_ & r & Hr & _). by exists r.
Qed.

Lemma branch_total sn db' : sn_levels sn = LL →
  (∀ j l, t_Levels t !! j = Some l → rows db' l = filter (λ kv, kv.1 ∉ ids_at (x :: below sn x) (Z.of_nat j + 1)) (rows db l)) →
  total t db = (total t db' + (1 + length (below sn x)))%nat.
Proof.
  intros Hs Hr. unfold total. rewrite (sum_difference _ (λ l, size (rows db' l)) (λ j, length (ids_at (x :: below sn x) (Z.of_nat j + 1))) _ 0).
  - f_equal. symmetry. apply (sum_by_level (x :: below sn x)). intros y Hy. by eapply branch_level.
  - intros j l Hl. cbn [Nat.add]. rewrite (Hr j l Hl). symmetry. apply size_without; [by apply NoDup_ids_at|]. intros id. by apply ids_at_rows.
Qed.
End Item.
End Branch.
