(* ===== verification/CharMove.v ===== *)
(** * The operations of the characteristics service

    A read answers from the tree of the database; a write is at most one [edit], and
    the snapshot that is kept is true of the database afterwards, whatever call
    fails. *)

From S2P Require Import Prelude Clock Apperr Sql Hoare CharTree CharView CharStore Characteristics CharSafety.

Local Open Scope Z_scope.

Section Runs.
Variables (lib : Library) (out : Outside) (t : Tree).
Variable (Uses : option (nat → Z → Z → result (list UseAt))).
Variable (CacheTTL : Z).
Context (Ht : ready t).
Notation levels_of := (levels_of lib t).
Notation edit := (edit lib t).
Implicit Types (db : gmap string Table) (s : CharState).

(** A snapshot that shows the database. *)
Definition view (sn : Snapshot) db : Prop := sn_levels sn = levels_of db ∧ sn_byID sn = index_items <$> sn_levels sn.
Definition coherent s : Prop := ∀ sn, cs_snap s = Some sn → view sn (cs_db s).
Definition at_ db s : Prop := coherent s ∧ cs_db s = db.

(** ** Reading *)

Lemma h_Rows i l db : t_Levels t !! i = Some l →
  hoare (at_ db) (Rows lib out t (Z.of_nat i + 1)) (λ rs s, rs = read_rows lib t (Z.of_nat i + 1) l (rows db l) ∧ at_ db s) (at_ db).
Proof.
  intros Hl. unfold Rows, store_level. rewrite (level_at t i l Hl).
  eapply h_bind with (R := λ l' s, l' = l ∧ at_ db s); [by apply h_ret|]. intros l'. apply h_pure. intros ->.
  apply h_statement; [done|]. intros s [Hc <-]. by split.
Qed.

Lemma h_read_levels ls k db : drop k (t_Levels t) = ls →
  hoare (at_ db) (read_levels lib out t ls (Z.of_nat k + 1))
    (λ rs s, rs = imap (λ i l, read_rows lib t (Z.of_nat (k + i) + 1) l (rows db l)) ls ∧ at_ db s) (at_ db).
Proof.
  revert k. induction ls as [|l ls IH]; intros k Hk; cbn [read_levels]; [by apply h_ret|].
  assert (t_Levels t !! k = Some l) as Hl by (rewrite <-(Nat.add_0_r k), <-lookup_drop, Hk; done).
  eapply h_bind; [apply h_mapErr, (h_Rows k l db Hl)|]. intros rs. apply h_pure. intros ->.
  replace (Z.of_nat k + 1 + 1) with (Z.of_nat (S k) + 1) by lia. eapply h_bind.
  { apply (IH (S k)). replace (S k) with (k + 1)%nat by lia. by rewrite <-drop_drop, Hk. }
  intros more. apply h_pure. intros ->. apply h_ret. intros s Hs. split; [|done]. cbn [imap]. rewrite Nat.add_0_r. f_equal.
  apply imap_ext. intros i x _. cbn. by rewrite Nat.add_succ_r.
Qed.

Lemma h_load db : hoare (at_ db) (load lib out t) (λ sn s, view sn db ∧ at_ db s) (at_ db).
Proof.
  eapply h_bind with (R := λ _, at_ db); [by apply h_Now|]. intros now. eapply h_bind; [by apply (h_read_levels _ 0)|].
  intros rs. apply h_pure. intros ->. intros e [Hc <-].
  split; [done|]. split; [|done]. by intros sn [= <-].
Qed.

Lemma h_snapshot db : hoare (at_ db) (snapshot lib out t CacheTTL) (λ sn s, view sn db ∧ at_ db s) (at_ db).
Proof.
  intros e He. unfold snapshot, mbind, stM_bind, state_. cbn [mbind]. destruct (cs_snap (tables e)) as [sn|] eqn:E; [|by apply h_load].
  assert (view sn db) as Hv by (destruct He as [Hc <-]; by apply Hc). destruct (0 <? CacheTTL); [|by apply h_load].
  revert e He E. cut (hoare (at_ db) (now ← Now out; if Time.Sub now (sn_at sn) <? CacheTTL then mret sn else load lib out t)
    (λ sn s, view sn db ∧ at_ db s) (at_ db)); [intros H e He _; by apply H|].
  eapply h_bind with (R := λ _, at_ db); [by apply h_Now|]. intros now. destruct (_ <? _); [by apply h_ret|apply h_load].
Qed.

Lemma h_level number db : hoare (at_ db) (level t number) (λ l s, (∃ i, t_Levels t !! i = Some l ∧ number = Z.of_nat i + 1) ∧ at_ db s) (at_ db).
Proof.
  unfold level. destruct (tree_Level t number) as [l|] eqn:E; [|by apply h_throw]. apply h_ret. intros s Hs. split; [|done].
  apply tree_Level_Some in E as [Hn E]. exists (Z.to_nat (number - 1)). split; [done|lia].
Qed.

(** An item that was found, with what it shows. *)
Inductive found (number id : Z) db (r : Item * Snapshot) : Prop :=
| Found i l L : number = Z.of_nat i + 1 → t_Levels t !! i = Some l → levels_of db !! i = Some L → r.1 ∈ L → it_ID r.1 = id → view r.2 db →
    found number id db r.

Lemma h_find_item number id db : ids_fit t db →
  hoare (at_ db) (find lib out t CacheTTL number id) (λ r s, found number id db r ∧ at_ db s) (at_ db).
Proof.
  intros Hfit. eapply h_bind; [apply h_level|]. intros l. apply h_pure. intros (i & Hl & ->). eapply h_bind; [apply h_snapshot|].
  intros sn. apply h_pure. intros [Hv Hb]. replace (Z.to_nat (Z.of_nat i + 1 - 1)) with i by lia. rewrite Hb, Hv, list_lookup_fmap.
  destruct (levels_of db !! i) as [L|] eqn:EL; cbn; [|by apply h_throw]. destruct (index_items L !! id) as [x|] eqn:Ex; [|by apply h_throw].
  apply h_ret. intros s Hs. split; [|done]. apply index_items_lookup in Ex as [? ?]; [|eapply sh_ids, (level_shown lib t Ht); done].
  by apply (Found _ _ _ _ i l L).
Qed.

(** ** Writing *)

Notation on db := (λ s, cs_db s = db).

(** The database was edited, and the snapshot kept is true of it. *)
Definition edited db s : Prop := coherent s ∧ rtc edit db (cs_db s).

Lemma at_edited db s : at_ db s → edited db s.
Proof. intros [Hc <-]. split; [done|apply rtc_refl]. Qed.

Lemma h_dropping {A} what db (m : stM (Env CharState) error A) (Q : A → gmap string Table → Prop) (F : gmap string Table → Prop) :
  hoare (on db) m (λ a s, Q a (cs_db s)) (λ s, F (cs_db s)) →
  hoare (at_ db) (dropping what m) (λ a s, coherent s ∧ Q a (cs_db s)) (λ s, coherent s ∧ F (cs_db s)).
Proof.
  intros H e [_ He]. specialize (H e He). unfold dropping, attempt, drop_, mapErr, lift, mbind, stM_bind.
  destruct (m e) as [[a|err] e']; by split.
Qed.

Lemma h_within_db {A} db (m : stM (Env CharState) error A) (Q : A → CharState → Prop) :
  hoare (on db) m Q (λ _, True) → hoare (on db) (Transaction out m) Q (on db).
Proof.
  intros H e He. pose proof (h_Transaction out (tables e) m Q) as HT.
  specialize (HT ltac:(intros e' He'; apply H; by rewrite He') e eq_refl). destruct (Transaction out m e) as [[a|err] e']; [done|]. by rewrite HT.
Qed.

Lemma h_store_level i l db number : t_Levels t !! i = Some l → number = Z.of_nat i + 1 → hoare (on db) (store_level t number) (λ l' s, l' = l ∧ cs_db s = db) (on db).
Proof. intros Hl ->. unfold store_level. rewrite (level_at t i l Hl). by apply h_ret. Qed.

Lemma h_store_Create i l x st db : t_Levels t !! i = Some l → it_Level x = Z.of_nat i + 1 →
  hoare (on db) (store_Create lib out t x st)
    (λ y s, it_ID y = tb_next (table_of db (l_Table l)) ∧ Int64.fits (it_ID y) = true ∧
       (l_Order l ≠ "" → it_Order y = last_order lib l (it_ParentID x) (rows db l) + 1) ∧
       cs_db s = (inserted l (create_writer lib l x (it_Order y) st) db).2) (on db).
Proof.
  intros Hl Hx. eapply h_bind; [by apply (h_store_level i l)|]. intros l'. apply h_pure. intros ->.
  eapply h_bind with (R := λ order s, (l_Order l ≠ "" → order = last_order lib l (it_ParentID x) (rows db l) + 1) ∧ cs_db s = db).
  { case_bool_decide; [|by apply h_ret]. eapply h_bind with (R := λ last s, last = last_order lib l (it_ParentID x) (rows db l) ∧ cs_db s = db).
    - apply h_statement; [done|]. by intros s <-.
    - intros last. apply h_pure. intros ->. by apply h_ret. }
  intros order. apply h_pure. intros Ho.
  eapply h_bind with (R := λ r s, match r with
    | Ok id => id = tb_next (table_of db (l_Table l)) ∧ Int64.fits id = true ∧ cs_db s = (inserted l (create_writer lib l x order st) db).2
    | Err _ => cs_db s = db end).
  { apply h_statement; [done|]. intros s <-. by destruct (Int64.fits _) eqn:E. }
  intros [id|err]; [|by apply h_throw]. intros e (-> & Hf & Hs). by split_and!.
Qed.

Lemma h_Row number id db : hoare (on db) (Row lib out t number id) (λ _, on db) (on db).
Proof.
  unfold Row. eapply h_bind with (R := λ _, on db).
  { unfold store_level. case_match; [by apply h_ret|by apply h_throw]. }
  intros l. eapply h_bind with (R := λ _, on db); [by apply h_statement|]. intros [r|]; [by apply h_ret|by apply h_throw].
Qed.

Lemma h_update_ number l id w db : hoare (on db) (update_ lib out t number l id w) (λ _, on (upd l (alter (assign w) id) db)) (λ _, True).
Proof.
  eapply h_bind with (R := λ _, on (upd l (alter (assign w) id) db)); [apply h_statement; [done|]; by intros s <-|].
  intros [|]; [by apply h_ret|]. eapply h_bind with (R := λ _, on (upd l (alter (assign w) id) db)); [|intros ?; by apply h_ret].
  eapply h_weaken; [apply (h_Row number id (upd l (alter (assign w) id) db))|done..].
Qed.

Lemma h_store_Update i l x st db : t_Levels t !! i = Some l → it_Level x = Z.of_nat i + 1 →
  hoare (on db) (store_Update lib out t x st)
    (λ _ s, ∃ current, cs_db s = upd l (alter (assign (update_writer lib l x current st)) (it_ID x)) db) (on db).
Proof.
  intros Hl Hx. eapply h_bind; [by apply (h_store_level i l)|]. intros l'. apply h_pure. intros ->. apply h_within_db.
  eapply h_bind with (R := λ _, on db).
  { case_match; [|by apply h_ret]. eapply h_bind with (R := λ _, on db); [by apply h_statement|]. intros [r|]; [by apply h_ret|by apply h_throw]. }
  intros current. eapply h_weaken; [apply (h_update_ _ l _ _ db)|done| |done]. intros ? s Hs. by exists current.
Qed.

Lemma h_store_SetActive i l number id active st db : t_Levels t !! i = Some l → number = Z.of_nat i + 1 →
  hoare (on db) (store_SetActive lib out t number id active st)
    (λ _ s, cs_db s = db ∨ cs_db s = upd l (alter (assign (active_writer l active st)) id) db) (on db).
Proof.
  intros Hl Hx. eapply h_bind; [by apply (h_store_level i l)|]. intros l'. apply h_pure. intros ->. apply h_within_db.
  eapply h_bind with (R := λ _, on db); [eapply h_weaken; [apply (h_Row _ _ db)|done..]|]. intros r.
  case_bool_decide; [apply h_ret; naive_solver|]. eapply h_weaken; [apply (h_update_ _ l _ _ db)|done| |done]. intros ? s Hs. by right.
Qed.

Lemma h_order_loop l orders db : orders ≠ [] →
  hoare (on db) (order_loop out l orders) (λ _, on (upd l (ordered (l_Order l) orders) db)) (λ _, True).
Proof.
  revert db. induction orders as [|[id o] orders IH]; intros db Hne; [done|]. cbn [order_loop].
  eapply h_bind with (R := λ _, on (upd l (ordered (l_Order l) [(id, o)]) db)); [apply h_statement; [done|]; by intros s <-|]. intros [].
  destruct orders as [|io orders]; [by apply h_ret|]. eapply h_weaken; [apply (IH (upd l (ordered (l_Order l) [(id, o)]) db)); done|done| |done].
  intros ? s Hs. rewrite Hs. apply upd_upd.
Qed.

Lemma h_SetOrders i l number orders db : t_Levels t !! i = Some l → number = Z.of_nat i + 1 → orders ≠ ∅ →
  hoare (on db) (SetOrders out t number orders)
    (λ _ s, l_Order l ≠ "" ∧ cs_db s = upd l (ordered (l_Order l) (map_to_list orders)) db) (on db).
Proof.
  intros Hl Hx Ho. eapply h_bind; [by apply (h_store_level i l)|]. intros l'. apply h_pure. intros ->.
  case_bool_decide; [by apply h_throw|]. apply h_within_db. eapply h_weaken; [apply (h_order_loop l (map_to_list orders) db)|done|done|done].
  intros E. by apply Ho, map_to_list_empty_iff.
Qed.

(** ** Deleting a branch *)

(** Levels [k .. k+n-1] without the rows of [gone]. *)
Definition cut (gone : nat → list Z) (k n : nat) db db' : Prop :=
  (∀ i l, t_Levels t !! i = Some l → table_of db' (l_Table l) =
     if decide (k <= i < k + n)%nat then set_rows (table_of db (l_Table l)) (filter (λ kv, kv.1 ∉ gone i) (rows db l)) else table_of db (l_Table l)) ∧
  ∀ name, (∀ l, l ∈ t_Levels t → l_Table l ≠ name) → db' !! name = db !! name.

Lemma set_rows_same tb : set_rows tb (tb_rows tb) = tb.
Proof. by destruct tb. Qed.

Lemma h_delete_one i l ids db : t_Levels t !! i = Some l →
  hoare (on db) (match ids with [] => mret () | x :: xs => store_Delete out t (Z.of_nat i + 1) (x :: xs) end)
    (λ _ s, (∀ j k, t_Levels t !! j = Some k → table_of (cs_db s) (l_Table k) =
        if decide (i = j) then set_rows (table_of db (l_Table k)) (filter (λ kv, kv.1 ∉ ids) (rows db k)) else table_of db (l_Table k)) ∧
      ∀ name, (∀ l, l ∈ t_Levels t → l_Table l ≠ name) → cs_db s !! name = db !! name) (λ _, True).
Proof.
  intros Hl. destruct ids as [|x ids].
  - apply h_ret. intros s ->. split; [|done]. intros j k Hk. case_match; [|done]. rewrite map_filter_id by set_solver. symmetry. apply set_rows_same.
  - eapply h_bind; [eapply h_weaken; [apply (h_store_level i l db _ Hl eq_refl)|done|exact (λ _ _ H, H)|done]|]. intros l'. apply h_pure. intros ->.
    apply h_statement; [done|]. intros s Hs. rewrite on_rows_upd. cbn [snd set_db cs_db]. rewrite Hs. unfold upd. split.
    + intros j k Hk. destruct (decide (i = j)) as [<-|Hne]; [rewrite Hl in Hk; injection Hk as <-; by rewrite table_of_insert_eq|].
      apply table_of_insert_ne. intros E. by apply Hne, (tables_apart t Ht i j l k).
    + intros name H. apply lookup_insert_ne, H. by apply list_elem_of_lookup_2 in Hl.
Qed.

Lemma h_delete_levels gone items k n db : (∀ i, gone i = ids_at items (Z.of_nat i + 1)) → (k + n <= length (t_Levels t))%nat →
  hoare (on db) (delete_levels out t items (Z.of_nat k + 1) n) (λ _ s, cut gone k n db (cs_db s)) (λ _, True).
Proof.
  intros Hg. revert db. induction n as [|n IH]; intros db Hn; cbn [delete_levels].
  { apply h_ret. intros s ->. split; [|done]. intros i l _. by rewrite decide_False by lia. }
  destruct (t_Levels t !! (k + n)%nat) as [l|] eqn:Hl; [|apply lookup_ge_None in Hl; lia].
  replace (Z.of_nat k + 1 + Z.of_nat n) with (Z.of_nat (k + n) + 1) by lia. rewrite <-Hg.
  eapply h_bind; [apply (h_delete_one (k + n) l (gone (k + n)%nat) db Hl)|]. intros [] e [H1 Ho1].
  specialize (IH (cs_db (tables e)) ltac:(lia) e eq_refl). destruct (delete_levels _ _ _ _ _ e) as [[[]|] e']; [|done].
  destruct IH as [H2 Ho2]. split; [|intros name H; by rewrite Ho2, Ho1].
  intros i m Hm. rewrite (H2 i m Hm). destruct (decide (k + n = i)%nat) as [<-|Hne].
  - rewrite decide_False by lia. rewrite decide_True by lia. rewrite (H1 _ m Hm). by rewrite decide_True.
  - unfold rows. rewrite (H1 i m Hm), (decide_False (P := (k + n)%nat = i)) by done. destruct (decide (k <= i < k + n)%nat).
    + by rewrite decide_True by lia.
    + by rewrite decide_False by lia.
Qed.

(** ** The operations *)

Lemma fill_keeps languages def x inp current y : fill lib languages def x inp current = Ok y →
  it_Level y = it_Level x ∧ it_ID y = it_ID x ∧ it_ParentID y = it_ParentID x ∧ it_Path y = it_Path x ∧ it_Active y = it_Active x.
Proof.
  unfold fill. case_bool_decide as Hn; [done|]. destruct (_ <? _); [done|]. intros (trs & _ & H)%outcome_bind_Ok.
  apply outcome_bind_Ok in H as (meta & _ & H). apply outcome_bind_Ok in H as (values & _ & H). by injection H as <-.
Qed.

Lemma h_Get_item number id db : ids_fit t db → hoare (at_ db) (Get lib out t CacheTTL number id) (λ x s, it_ID x = id ∧ at_ db s) (at_ db).
Proof.
  intros Hf. eapply h_bind; [by apply h_find_item|]. intros r. apply h_pure. intros [i l L _ _ _ _ Hid _]. by apply h_ret.
Qed.

(** What a write leaves, read again. *)
Lemma h_then_Get {A} number (id : A → Z) db (m : stM (Env CharState) error A) :
  intact lib t db → hoare (at_ db) m (λ _, edited db) (edited db) →
  hoare (at_ db) (a ← m; Get lib out t CacheTTL number (id a)) (λ _, edited db) (edited db).
Proof.
  intros Hi Hm. eapply h_bind; [exact Hm|]. intros a e [Hc He].
  assert (intact lib t (cs_db (tables e))) as Hi'. { clear -Ht Hi He. induction He; [done|]. eauto using edit_intact. }
  pose proof (h_Get_item number (id a) _ (in_fit _ _ _ Hi') e ltac:(by split)) as H.
  destruct (Get _ _ _ _ _ _ e) as [[x|err] e']; [destruct H as [_ H]|]; destruct H as [Hc' Hd]; (split; [done|]); by rewrite Hd.
Qed.

Lemma h_stamp actor db : hoare (at_ db) (stamp out actor) (λ _, at_ db) (at_ db).
Proof. eapply h_bind with (R := λ _, at_ db); [by apply h_Now|]. intros now. by apply h_ret. Qed.

Lemma h_pathBelow i number parent db : ids_fit t db → number = Z.of_nat i + 1 →
  hoare (at_ db) (pathBelow lib out t CacheTTL number parent)
    (λ _ s, (∀ j k, i = S j → t_Levels t !! j = Some k → is_Some (rows db k !! parent)) ∧ at_ db s) (at_ db).
Proof.
  intros Hf ->. unfold pathBelow. destruct (Z.ltb_spec 1 (Z.of_nat i + 1)) as [Hi|Hi].
  - eapply h_bind; [apply h_mapErr; by apply h_find_item|]. intros up. apply h_pure. intros [j l L Hn Hl HL Hx Hid _]. apply h_ret. intros s Hs. split; [|done].
    intros j' k -> Hk. assert (j' = j) as -> by lia. rewrite Hl in Hk. injection Hk as <-.
    destruct (sh_row _ _ _ _ _ (level_shown lib t Ht db j l L Hf Hl HL) _ Hx) as (_ & r & Hr & _). exists r. by rewrite <-Hid.
  - destruct (negb (parent =? 0)); [by apply h_throw|]. apply h_ret. intros s Hs. split; [|done]. intros j k ->. lia.
Qed.

Lemma h_Create actor number parent inp db : intact lib t db →
  hoare (at_ db) (Create lib out t CacheTTL actor number parent inp) (λ _, edited db) (edited db).
Proof.
  intros Hi. eapply h_weaken with (P' := at_ db) (Q' := λ _, edited db) (F' := edited db); [|done..].
  eapply h_bind with (R := λ def s, (∃ i, t_Levels t !! i = Some def ∧ number = Z.of_nat i + 1) ∧ at_ db s);
    [eapply h_weaken; [apply (h_level number db)|done|done|apply at_edited]|]. intros def. apply h_pure. intros (i & Hl & Hn).
  eapply h_bind; [eapply h_weaken; [apply (h_pathBelow i number parent db (in_fit _ _ _ Hi) Hn)|done|exact (λ _ _ H, H)|apply at_edited]|].
  intros path. apply h_pure. intros Hpar.
  eapply h_bind with (R := λ x s, (it_Level x = number ∧ it_ParentID x = parent) ∧ at_ db s).
  { apply h_lift; [apply at_edited|]. intros s x Hs (Hx & _ & Hp & _)%fill_keeps. done. }
  intros x. apply h_pure. intros [Hx Hp].
  eapply h_bind; [eapply h_weaken; [apply (h_stamp actor db)|done|exact (λ _ _ H, H)|apply at_edited]|]. intros st.
  apply (h_then_Get number it_ID); [done|]. eapply h_weaken.
  - apply (h_dropping "create characteristic" db _ (λ _ db', edit db db') (λ db', db' = db)).
    eapply h_weaken; [apply (h_store_Create i def x st db Hl); congruence|done| |done]. intros y s (Hid & Hf & _ & Hs). cbn in Hs |- *. rewrite Hs.
    rewrite Hid in Hf. apply (ed_insert lib t db i def _ parent Hl); [apply in_create|done|]. intros j k Hj Hk. subst i.
    pose proof (below_has_parent t Ht j def Hl). split_and!; [done| |by apply (Hpar j)]. rewrite <-Hp. apply create_parent; [by eapply names_of|done].
  - done.
  - intros y s [Hc He]. split; [done|by apply rtc_once].
  - intros s [Hc Hd]. by apply at_edited.
Qed.

Lemma h_Update actor number id inp db : intact lib t db →
  hoare (at_ db) (Update lib out t CacheTTL actor number id inp) (λ _, edited db) (edited db).
Proof.
  intros Hi. eapply h_bind with (R := λ def s, (∃ i, t_Levels t !! i = Some def ∧ number = Z.of_nat i + 1) ∧ at_ db s);
    [eapply h_weaken; [apply (h_level number db)|done|done|apply at_edited]|]. intros def. apply h_pure. intros (i & Hl & Hn).
  eapply h_bind; [eapply h_weaken; [apply (h_find_item number id db (in_fit _ _ _ Hi))|done|exact (λ _ _ H, H)|apply at_edited]|].
  intros r. apply h_pure. intros _.
  eapply h_bind with (R := λ x s, it_Level x = number ∧ at_ db s).
  { apply h_lift; [apply at_edited|]. intros s x Hs (Hx & _)%fill_keeps. done. }
  intros x. apply h_pure. intros Hx.
  eapply h_bind; [eapply h_weaken; [apply (h_stamp actor db)|done|exact (λ _ _ H, H)|apply at_edited]|]. intros st.
  apply (h_then_Get number (λ _, id)); [done|]. eapply h_weaken.
  - apply (h_dropping "update characteristic" db _ (λ _ db', edit db db') (λ db', db' = db)).
    eapply h_weaken; [apply (h_store_Update i def x st db Hl); congruence|done| |done]. intros ? s (current & Hs). cbn in Hs |- *. rewrite Hs.
    apply (ed_update lib t db i); [done|apply in_update].
  - done.
  - intros ? s [Hc He]. split; [done|by apply rtc_once].
  - intros s [Hc Hd]. by apply at_edited.
Qed.

Lemma h_SetActive actor number id active db : intact lib t db →
  hoare (at_ db) (SetActive lib out t CacheTTL actor number id active) (λ _, edited db) (edited db).
Proof.
  intros Hi. eapply h_bind with (R := λ def s, (∃ i, t_Levels t !! i = Some def ∧ number = Z.of_nat i + 1) ∧ at_ db s);
    [eapply h_weaken; [apply (h_level number db)|done|done|apply at_edited]|]. intros def. apply h_pure. intros (i & Hl & Hn).
  case_bool_decide; [apply h_throw; apply at_edited|].
  eapply h_bind; [eapply h_weaken; [apply (h_find_item number id db (in_fit _ _ _ Hi))|done|exact (λ _ _ H, H)|apply at_edited]|].
  intros r. apply h_pure. intros _.
  eapply h_bind; [eapply h_weaken; [apply (h_stamp actor db)|done|exact (λ _ _ H, H)|apply at_edited]|]. intros st.
  apply (h_then_Get number (λ _, id)); [done|]. eapply h_weaken.
  - apply (h_dropping "switch characteristic" db _ (λ _ db', rtc edit db db') (λ db', db' = db)).
    eapply h_weaken; [apply (h_store_SetActive i def number id active st db Hl Hn)|done| |done]. intros ? s [Hs|Hs]; cbn in Hs |- *; rewrite Hs; [apply rtc_refl|].
    apply rtc_once, (ed_update lib t db i); [done|apply in_active].
  - done.
  - intros ? s [Hc He]. by split.
  - intros s [Hc Hd]. by apply at_edited.
Qed.

(** ** Deleting *)

(** The application answered, when it was asked, that nothing uses the row. *)
Definition unused (ask_ : nat → Z → Z → result (list UseAt)) (number id : Z) : Prop :=
  ∃ n us, ask_ n number id = Ok us ∧ ∀ u, u ∈ us → us_Count u <= 0.

Lemma add_use_nil acc u : add_use acc u = [] → acc = [] ∧ us_Count u <= 0.
Proof.
  unfold add_use. destruct (Z.leb_spec (us_Count u) 0); [done|]. case_match; [|by destruct acc].
  intros E%map_nil_iff. subst. done.
Qed.

Lemma add_uses_nil us acc : foldl add_use acc us = [] → acc = [] ∧ ∀ u, u ∈ us → us_Count u <= 0.
Proof.
  revert acc. induction us as [|u us IH]; intros acc H; [split; [done|set_solver]|]. apply IH in H as [[-> Hu]%add_use_nil Hus].
  split; [done|]. intros v [->|Hv]%elem_of_cons; auto.
Qed.

Lemma h_uses_loop ask_ items acc db :
  hoare (at_ db) (uses_loop ask_ items acc)
    (λ us s, (us = [] → acc = [] ∧ ∀ x, x ∈ items → unused ask_ (it_Level x) (it_ID x)) ∧ at_ db s) (at_ db).
Proof.
  revert acc. induction items as [|x items IH]; intros acc; cbn [uses_loop]; [apply h_ret; intros s Hs; split; [intros ->; split; [done|set_solver]|done]|].
  eapply h_bind with (R := λ us s, (∃ n, ask_ n (it_Level x) (it_ID x) = Ok us) ∧ at_ db s).
  { apply h_mapErr, h_ask; [done|]. intros s n us Hs E. split; [by exists n|done]. }
  intros us. apply h_pure. intros [n Hn]. eapply h_weaken; [apply (IH (foldl add_use acc us))|done| |done].
  intros us' s [H Hs]. split; [|done]. intros [[-> Hus]%add_uses_nil Hitems]%H. split; [done|].
  intros y [->|Hy]%elem_of_cons; [|by apply Hitems]. by exists n, us.
Qed.

Lemma h_report sn x db :
  hoare (at_ db) (report Uses sn x)
    (λ rep s, (re_Children rep = length (below sn x) ∧ re_Known rep = bool_decide (is_Some Uses) ∧
       (re_Uses rep = [] → ∀ ask_, Uses = Some ask_ → ∀ y, y ∈ x :: below sn x → unused ask_ (it_Level y) (it_ID y))) ∧ at_ db s) (at_ db).
Proof.
  unfold report. destruct Uses as [ask_|]; [|by apply h_ret]. eapply h_bind; [apply (h_uses_loop ask_ _ [] db)|]. intros us. apply h_pure. intros Hus.
  apply h_ret. intros s Hs. split; [|done]. split_and!; [done|done|]. intros E a [= <-]. by apply Hus.
Qed.

(** What a delete that succeeds did to the database. *)
Record deleted (force : bool) (i : nat) (id : Z) db (res : DeleteResult) db' : Prop := mkDeleted {
  dl_rows : ∀ j l y r, t_Levels t !! j = Some l → rows db' l !! y = Some r ↔ rows db l !! y = Some r ∧ ¬ under lib t db i id j y;
  dl_count : total t db = (total t db' + dr_Deleted res)%nat;
  dl_checked : force = false → dr_Deleted res = 1%nat ∧ ∀ ask_, Uses = Some ask_ → unused ask_ (Z.of_nat i + 1) id;
  dl_known : dr_UsageKnown res = bool_decide (is_Some Uses)
}.

Lemma h_Delete number id force db : intact lib t db →
  hoare (at_ db) (Delete lib out t Uses CacheTTL number id force)
    (λ res s, (∃ i, number = Z.of_nat i + 1 ∧ deleted force i id db res (cs_db s)) ∧ coherent s ∧ edit db (cs_db s)) (at_ db).
Proof.
  intros Hi. pose proof (in_fit _ _ _ Hi) as Hfit. eapply h_bind; [by apply h_find_item|]. intros [x sn]. apply h_pure.
  intros [i l L Hn Hl HL Hx Hid [Hv _]]. cbn [fst snd] in *. eapply h_bind; [apply h_report|]. intros rep. apply h_pure. intros (Hch & Hk & Hus).
  destruct (negb force && bool_decide (re_Uses rep ≠ [])) eqn:E1; [by apply h_throw|].
  destruct (negb force && (0 <? re_Children rep)%nat) eqn:E2; [by apply h_throw|].
  set (gone := λ j, ids_at (x :: below sn x) (Z.of_nat j + 1)).
  eapply h_bind with (R := λ _ s, coherent s ∧ cut gone i (length (t_Levels t) - i) db (cs_db s)).
  { eapply h_weaken; [apply (h_dropping "delete characteristic" db _ (λ _ db', cut gone i (length (t_Levels t) - i) db db') (λ db', db' = db))|done|done|by intros s [? ?]].
    apply h_within_db. replace (Z.to_nat (number - 1)) with i by lia. rewrite Hn. apply h_delete_levels; [done|]. apply lookup_lt_Some in Hl. lia. }
  intros []. apply h_ret. intros s [Hc [Hcut Ho]].
  assert (∀ j k, t_Levels t !! j = Some k → table_of (cs_db s) (l_Table k) = set_rows (table_of db (l_Table k)) (filter (λ kv, kv.1 ∉ gone j) (rows db k))) as Hrows.
  { intros j k Hk'. rewrite (Hcut j k Hk'). destruct (decide _) as [|Hout]; [done|]. rewrite map_filter_id; [symmetry; apply set_rows_same|].
    intros id' r Hr Hg. cbn in Hg. apply (ids_at_branch lib t Ht db Hfit i L x HL Hx sn j k id' r Hv Hk' Hr) in Hg.
    apply under_deeper in Hg. apply lookup_lt_Some in Hk'. lia. }
  split_and!; [|done|].
  - exists i. split; [done|]. split.
    + intros j k y r Hk'. unfold rows at 1. rewrite (Hrows j k Hk'). cbn [set_rows tb_rows]. rewrite map_lookup_filter_Some. cbn [fst].
      assert (rows db k !! y = Some r → y ∈ gone j ↔ under lib t db i id j y) as Hb.
      { intros Hr. rewrite <-Hid. by apply (ids_at_branch lib t Ht db Hfit i L x HL Hx sn j k y r). }
      unfold rows in Hb. tauto.
    + apply (branch_total lib t Ht db Hfit i L x HL Hx sn); [done|]. intros j k Hk'. unfold rows. by rewrite (Hrows j k Hk').
    + intros ->. cbn [negb andb] in E1, E2. apply bool_decide_eq_false, dec_stable in E1. apply Nat.ltb_ge in E2. rewrite Hch in E2. split; [cbn; lia|].
      intros ask_ HU. rewrite <-(item_level lib t Ht db Hfit i L x HL Hx), <-Hid. apply (Hus E1 ask_ HU). constructor.
    + done.
  - apply (ed_delete lib t db gone); [done|done|]. intros j k m id' r Hk' Hm Hr. apply (ids_at_closed lib t Ht db Hfit i L x HL Hx sn j k m id' r Hv Hk' Hm Hr).
    by apply (in_whole _ _ _ Hi j k m id').
Qed.
End Runs.

(** * Moving an item among its siblings

    What [Move] leaves: the item at its place, the others in the order they had,
    numbered from one. *)

(** ** Lists *)

Lemma NoDup_bounded (ids : list Z) (b : Z) : NoDup ids → (∀ id, id ∈ ids → 1 <= id <= b) → Z.of_nat (length ids) <= Z.max 0 b.
Proof.
  intros Hn Hb. assert (length ids <= length (Z.of_nat <$> seq 1 (Z.to_nat b)))%nat as H.
  { apply submseteq_length, NoDup_submseteq; [done|]. intros id Hid. specialize (Hb id Hid).
    apply list_elem_of_fmap. exists (Z.to_nat id). rewrite elem_of_seq. lia. }
  rewrite length_fmap, length_seq in H. lia.
Qed.

Lemma StronglySorted_filter_bool {A} (R : A → A → Prop) (p : A → bool) l : StronglySorted R l → StronglySorted R (List.filter p l).
Proof.
  induction 1 as [|a l Hs IH Ha]; cbn; [constructor|]. destruct (p a); [|done]. constructor; [done|].
  apply list.Forall_forall. intros b [Hb _]%elem_of_filter_bool. revert Hb. by apply list.Forall_forall.
Qed.

Lemma StronglySorted_map {A B} (f : A → B) (R : A → A → Prop) (S : B → B → Prop) l :
  (∀ a b, a ∈ l → b ∈ l → R a b → S (f a) (f b)) → StronglySorted R l → StronglySorted S (f <$> l).
Proof.
  intros Hf Hs. induction Hs as [|a l Hs IH Ha]; cbn; [constructor|]. constructor; [apply IH; intros; apply Hf; set_solver|].
  apply list.Forall_forall. intros b (c & -> & Hc)%list_elem_of_fmap. apply Hf; [set_solver|set_solver|]. by apply (proj1 (list.Forall_forall _ _) Ha).
Qed.

Lemma positions_sorted (key : Z → Z) (l : list Z) n :
  (∀ k y, l !! k = Some y → key y = Z.of_nat (n + k) + 1) → StronglySorted (λ a b, key a <= key b) l.
Proof.
  revert n. induction l as [|a l IH]; intros n H; constructor.
  - apply (IH (S n)). intros k y Hy. rewrite (H (S k) y Hy). lia.
  - apply list.Forall_forall. intros b (k & Hk)%list_elem_of_lookup. rewrite (H 0%nat a eq_refl), (H (S k) b Hk). lia.
Qed.

(** ** The orders that are written *)

Lemma order_changes_lookup L y n : NoDup (it_ID <$> L) →
  order_changes L !! y = Some n ↔ ∃ k x, L !! k = Some x ∧ it_ID x = y ∧ n = Z.of_nat k + 1 ∧ it_Order x ≠ n.
Proof.
  intros Hn. unfold order_changes.
  assert (∀ rest (m : gmap Z Z), NoDup (it_ID ∘ snd <$> rest) → (∀ ix, ix ∈ rest → m !! it_ID ix.2 = None) →
    foldl (λ m ir, let n := Z.of_nat ir.1 + 1 in if it_Order ir.2 =? n then m else <[it_ID ir.2 := n]> m) m rest !! y = Some n ↔
    m !! y = Some n ∨ ∃ k x, (k, x) ∈ rest ∧ it_ID x = y ∧ n = Z.of_nat k + 1 ∧ it_Order x ≠ n) as H.
  { induction rest as [|[k x] rest IH]; intros m Hd Hm; cbn [foldl]; [set_solver|]. cbn in Hd. apply list.NoDup_cons in Hd as [Hx Hd].
    assert (∀ ix, ix ∈ rest → it_ID ix.2 ≠ it_ID x) as Hne.
    { intros ix Hi E. apply Hx. rewrite <-E. by apply (list_elem_of_fmap_2 (it_ID ∘ snd)). }
    pose proof (Hm (k, x) ltac:(constructor)) as Hmx. cbn [snd] in *. rewrite IH; [|done|].
    - cbn [fst snd]. destruct (Z.eqb_spec (it_Order x) (Z.of_nat k + 1)) as [E|E].
      + split; [intros [?|(k' & x' & ? & ?)]; [by left|right; exists k', x'; set_solver]|].
        intros [?|(k' & x' & [[= -> ->]|?]%elem_of_cons & ? & ? & ?)]; [by left|congruence|right; by exists k', x'].
      + rewrite lookup_insert_Some. split.
        * intros [[[<- <-]|[? ?]]|(k' & x' & ? & ?)]; [right; exists k, x; set_solver|by left|right; exists k', x'; set_solver].
        * intros [?|(k' & x' & [[= -> ->]|?]%elem_of_cons & ? & ? & ?)]; [left; right; split; [congruence|done]|left; left; by subst|right; by exists k', x'].
    - intros ix Hi. destruct (_ =? _); [apply Hm; by constructor|]. rewrite lookup_insert_ne by (symmetry; by apply Hne). apply Hm. by constructor. }
  rewrite H; [|unfold indexed; rewrite list_fmap_compose, snd_zip; [done|by rewrite length_seq]|intros; apply lookup_empty].
  rewrite lookup_empty. setoid_rewrite elem_of_indexed. naive_solver.
Qed.

Lemma ordered_lookup column (orders : list (Z * Z)) (m : gmap Z row) y : NoDup orders.*1 →
  ordered column orders m !! y = (λ r : row, match (list_to_map orders : gmap Z Z) !! y with Some n => <[column := DInt n]> r | None => r end) <$> m !! y.
Proof.
  unfold ordered. revert m. induction orders as [|[id o] orders IH]; intros m Hn; cbn [foldl list_to_map foldr]; [by destruct (m !! y)|].
  cbn in Hn. apply list.NoDup_cons in Hn as [Hi Hn]. rewrite IH by done. cbn [fst snd]. destruct (decide (id = y)) as [->|Hne].
  - rewrite lookup_alter_eq, not_elem_of_list_to_map_1 by done. cbn. rewrite lookup_insert_eq. by destruct (m !! y).
  - rewrite lookup_alter_ne by done. cbn. rewrite lookup_insert_ne by done. done.
Qed.

(** ** Moving *)

Section Moves.
Variables (lib : Library) (out : Outside) (t : Tree).
Variable (CacheTTL : Z).
Context (Ht : ready t).
Notation levels_of := (levels_of lib t).
Notation parent_of := (parent_of lib).
Notation order_of := (order_of lib).
Implicit Types (db : gmap string Table).

(** Row [id] has parent [p]. *)
Definition child_of db (l : Level) (p id : Z) : Prop := ∃ r, rows db l !! id = Some r ∧ parent_of l r = p.
Definition order_at db (l : Level) (id : Z) : Z := default 0 (order_of l <$> rows db l !! id).

(** The place asked for, from zero, kept inside a list that gains one item. *)
Definition place (position : Z) (others : list Z) : nat := Z.to_nat (Z.min (Z.max position 1) (Z.of_nat (length others) + 1) - 1).

Definition inserted_at (position id : Z) (others : list Z) : list Z := take (place position others) others ++ id :: drop (place position others) others.

(** What a move that succeeds did to the database: [p] is the parent, [others] the
    other siblings in the order they had. *)
Record moved (i : nat) (l : Level) (p : Z) (others : list Z) (id position : Z) db db' : Prop := mkMoved {
  mv_NoDup : NoDup (id :: others);
  mv_siblings : ∀ y, y ∈ id :: others ↔ child_of db l p y;
  mv_sorted : StronglySorted (λ a b, order_at db l a <= order_at db l b) others;
  mv_read : ∀ L, levels_of db' !! i = Some L → it_ID <$> List.filter (λ x, it_ParentID x =? p) L = inserted_at position id others;
  mv_numbered : ∀ k y, inserted_at position id others !! k = Some y → order_at db' l y = Z.of_nat k + 1;
  mv_rows : ∀ j k y c, t_Levels t !! j = Some k → j ≠ i ∨ y ∉ id :: others ∨ c ≠ l_Order l →
              rows db' k !! y ≫= (λ r, (r : row) !! c) = rows db k !! y ≫= (λ r, (r : row) !! c)
}.

Lemma inserted_at_perm position id others : inserted_at position id others ≡ₚ id :: others.
Proof. unfold inserted_at. by rewrite <-Permutation_middle, take_drop. Qed.

Lemma level_sorted db i l L : l_Order l ≠ "" → t_Levels t !! i = Some l → levels_of db !! i = Some L →
  StronglySorted (λ a b, it_Order a <= it_Order b) L.
Proof.
  intros Ho Hl HL. destruct (levels_of_lookup lib t db i l Hl) as [above E]. rewrite HL in E. injection E as ->.
  eapply StronglySorted_map; [|apply stable_sort_sorted; unfold row_leb; rewrite bool_decide_eq_true_2 by done].
  - intros a b _ _. cbn. unfold row_leb. rewrite bool_decide_eq_true_2 by done. lia.
  - intros a b. rewrite Z.leb_gt, Z.leb_le. lia.
  - intros a b c. rewrite !Z.leb_le. lia.
Qed.

(** The rows after the orders of [L] were written. *)
Definition renumbered (l : Level) (ch : gmap Z Z) (m : gmap Z row) : gmap Z row :=
  map_imap (λ y r, Some (match ch !! y with Some n => <[l_Order l := DInt n]> r | None => r end)) m.

Lemma ordered_renumbered l ch m : ordered (l_Order l) (map_to_list ch) m = renumbered l ch m.
Proof.
  apply map_eq. intros y. rewrite ordered_lookup by apply NoDup_fst_map_to_list. unfold renumbered. rewrite list_to_map_to_list, map_lookup_imap.
  by destruct (m !! y).
Qed.

Section Move.
Variables (i : nat) (l : Level) (L : list Item) (x : Item) (position : Z).
Variables db db' : gmap string Table.
Context (Hl : t_Levels t !! i = Some l) (HL : levels_of db !! i = Some L) (Hx : x ∈ L) (Ho : l_Order l ≠ "").
Context (Hfit : ids_fit t db) (Hfit' : ids_fit t db').
Notation p := (it_ParentID x).
Notation rest := (stable_sort by_order (List.filter (λ r, (it_ParentID r =? it_ParentID x) && negb (it_ID r =? it_ID x)) L)).
Notation others := (it_ID <$> rest).
Notation ch := (order_changes (arranged L x position)).
Context (Hr : ∀ j k, t_Levels t !! j = Some k → rows db' k = if decide (i = j) then renumbered l ch (rows db l) else rows db k).

Lemma arranged_ids : it_ID <$> arranged L x position = inserted_at position (it_ID x) others.
Proof. unfold arranged, inserted_at, place. rewrite fmap_app, fmap_cons, fmap_take, fmap_drop, length_fmap. done. Qed.

Lemma elem_of_rest y : y ∈ rest ↔ y ∈ L ∧ it_ParentID y = p ∧ it_ID y ≠ it_ID x.
Proof. rewrite stable_sort_perm, elem_of_filter_bool, andb_true_iff, Z.eqb_eq, negb_true_iff, Z.eqb_neq. tauto. Qed.

Lemma elem_of_arranged y : y ∈ arranged L x position → y ∈ L ∧ it_ParentID y = p.
Proof.
  unfold arranged. rewrite elem_of_app, elem_of_cons. intros [H|[->|H]]; [|done|].
  - apply (subseteq_take _ rest) in H. apply elem_of_rest in H. naive_solver.
  - apply (subseteq_drop _ rest) in H. apply elem_of_rest in H. naive_solver.
Qed.

Let Hs := level_shown lib t Ht db i l L Hfit Hl HL.

Lemma siblings_NoDup : NoDup (it_ID x :: others).
Proof.
  apply list.NoDup_cons. split; [intros (y & E & Hy)%list_elem_of_fmap; apply elem_of_rest in Hy; naive_solver|].
  rewrite stable_sort_perm. apply NoDup_filter_sub, (sh_ids _ _ _ _ _ Hs).
Qed.

Lemma siblings_are y : y ∈ it_ID x :: others ↔ child_of db l p y.
Proof.
  rewrite elem_of_cons, list_elem_of_fmap. split.
  - intros [->|(z & -> & (Hz & Hp & _)%elem_of_rest)].
    + destruct (sh_row _ _ _ _ _ Hs x Hx) as (_ & r & E & Hp & _). by exists r.
    + destruct (sh_row _ _ _ _ _ Hs z Hz) as (_ & r & E & Hp' & _). exists r. split; [done|congruence].
  - intros (r & E & Hp). destruct (decide (y = it_ID x)) as [|Hne]; [by left|]. right.
    destruct (sh_item _ _ _ _ _ Hs y r E) as (z & Hz & <-). exists z. split; [done|]. apply elem_of_rest. split_and!; [done| |done].
    destruct (sh_row _ _ _ _ _ Hs z Hz) as (_ & r' & E' & Hp' & _). congruence.
Qed.

Lemma order_at_item y : y ∈ L → order_at db l (it_ID y) = it_Order y.
Proof. intros Hy. destruct (sh_row _ _ _ _ _ Hs y Hy) as (_ & r & E & _ & Hord). unfold order_at. by rewrite E. Qed.

Lemma siblings_sorted : StronglySorted (λ a b, order_at db l a <= order_at db l b) others.
Proof.
  eapply StronglySorted_map; [|apply stable_sort_sorted; unfold by_order].
  - intros a b Ha Hb. apply elem_of_rest in Ha as [Ha _], Hb as [Hb _]. rewrite !order_at_item by done. unfold by_order. lia.
  - intros a b. rewrite Z.leb_gt, Z.leb_le. lia.
  - intros a b c. rewrite !Z.leb_le. lia.
Qed.

Lemma arranged_NoDup : NoDup (it_ID <$> arranged L x position).
Proof. rewrite arranged_ids, inserted_at_perm. apply siblings_NoDup. Qed.

Lemma arranged_fits k y : arranged L x position !! k = Some y → Int64.fits (Z.of_nat k + 1) = true.
Proof.
  intros Hk%lookup_lt_Some. apply Int64.fits_spec. assert (Z.of_nat (length (it_ID <$> arranged L x position)) <= Z.max 0 Int64.max_value) as Hb.
  { apply NoDup_bounded; [apply arranged_NoDup|]. intros id (z & -> & [Hz _]%elem_of_arranged)%list_elem_of_fmap.
    destruct (sh_row _ _ _ _ _ Hs z Hz) as (_ & r & E & _). destruct (Hfit i l Hl) as [_ H]. destruct (H _ r E) as [? Hf].
    apply Int64.fits_spec in Hf. lia. }
  rewrite length_fmap in Hb. unfold Int64.max_value, Int64.min_value in *. lia.
Qed.

Lemma order_at_renumbered k y : arranged L x position !! k = Some y → order_at db' l (it_ID y) = Z.of_nat k + 1.
Proof.
  intros Hk. destruct (elem_of_arranged y) as [Hy _]; [by apply list_elem_of_lookup_2 in Hk|].
  destruct (sh_row _ _ _ _ _ Hs y Hy) as (_ & r & E & _ & Hord).
  unfold order_at. rewrite (Hr i l Hl), decide_True by done. unfold renumbered. rewrite map_lookup_imap, E. cbn.
  destruct (ch !! it_ID y) as [n|] eqn:Ec.
  - apply order_changes_lookup in Ec as (k' & z & Hz & Hid & -> & _); [|apply arranged_NoDup].
    assert (k' = k) as ->. { eapply NoDup_lookup; [apply arranged_NoDup|by rewrite list_lookup_fmap, Hz|by rewrite list_lookup_fmap, Hk, Hid]. }
    unfold CharView.order_of. rewrite bool_decide_eq_true_2 by done. unfold col. rewrite lookup_insert_eq.
    change (default DNull (Some (DInt (Z.of_nat k + 1)))) with (DInt (Z.of_nat k + 1)). by eapply toInt_DInt, arranged_fits.
  - rewrite <-Hord. destruct (decide (it_Order y = Z.of_nat k + 1)) as [|Hne]; [done|].
    assert (ch !! it_ID y = Some (Z.of_nat k + 1)) by (apply order_changes_lookup; [apply arranged_NoDup|by exists k, y]). congruence.
Qed.

Lemma child_of_renumbered q y : child_of db' l q y ↔ child_of db l q y.
Proof.
  unfold child_of. rewrite (Hr i l Hl), decide_True by done. unfold renumbered. rewrite map_lookup_imap.
  destruct (rows db l !! y) as [r|]; cbn; [|naive_solver].
  assert (∀ n, parent_of l (<[l_Order l := DInt n]> r) = parent_of l r) as E.
  { intros n. unfold CharView.parent_of. case_bool_decide as Hp; [|done]. unfold col. rewrite lookup_insert_ne; [done|].
    destruct (parent_apart l (names_of t Ht i l Hl) Hp) as (_ & _ & ?). congruence. }
  destruct (ch !! y) as [n|]; [|done]. specialize (E n). naive_solver.
Qed.

(** The children of the parent, read again. *)
Lemma read_perm L' : levels_of db' !! i = Some L' → it_ID <$> List.filter (λ y, it_ParentID y =? p) L' ≡ₚ it_ID <$> arranged L x position.
Proof.
  intros HL'. pose proof (level_shown lib t Ht db' i l L' Hfit' Hl HL') as Hs'.
  apply NoDup_Permutation; [apply NoDup_filter_sub, (sh_ids _ _ _ _ _ Hs')|apply arranged_NoDup|]. intros y.
  rewrite arranged_ids, inserted_at_perm, siblings_are, <-child_of_renumbered, list_elem_of_fmap. split.
  - intros (z & -> & [Hz Hp%Z.eqb_eq]%elem_of_filter_bool). destruct (sh_row _ _ _ _ _ Hs' z Hz) as (_ & r & E & Hp' & _).
    exists r. split; [done|congruence].
  - intros (r & E & Hp). destruct (sh_item _ _ _ _ _ Hs' y r E) as (z & Hz & <-). exists z. split; [done|]. apply elem_of_filter_bool.
    split; [done|]. apply Z.eqb_eq. destruct (sh_row _ _ _ _ _ Hs' z Hz) as (_ & r' & E' & Hp' & _). congruence.
Qed.

Lemma read_again L' : levels_of db' !! i = Some L' → it_ID <$> List.filter (λ y, it_ParentID y =? p) L' = it_ID <$> arranged L x position.
Proof.
  intros HL'. pose proof (level_shown lib t Ht db' i l L' Hfit' Hl HL') as Hs'.
  assert (∀ y, y ∈ L' → order_at db' l (it_ID y) = it_Order y) as Hoa.
  { intros y Hy. destruct (sh_row _ _ _ _ _ Hs' y Hy) as (_ & r & E & _ & Hord). unfold order_at. by rewrite E. }
  assert (∀ k y, (it_ID <$> arranged L x position) !! k = Some y → order_at db' l y = Z.of_nat (0 + k) + 1) as Hpos.
  { intros k y. rewrite list_lookup_fmap. destruct (arranged L x position !! k) as [z|] eqn:Ez; [|done]. intros [= <-]. by apply order_at_renumbered. }
  apply (StronglySorted_unique_strong (λ a b, order_at db' l a <= order_at db' l b)); [| | |by apply read_perm].
  - intros a b Ha Hb Hab Hba. rewrite (read_perm L' HL') in Ha. apply list_elem_of_lookup in Ha as [k Ha], Hb as [k' Hb].
    rewrite (Hpos k a Ha), (Hpos k' b Hb) in Hab, Hba. assert (k = k') as -> by lia. congruence.
  - eapply StronglySorted_map; [|apply StronglySorted_filter_bool, (level_sorted db' i l L' Ho Hl HL')].
    intros a b [Ha _]%elem_of_filter_bool [Hb _]%elem_of_filter_bool. cbn. by rewrite !Hoa.
  - by apply (positions_sorted _ _ 0).
Qed.

Lemma moved_here : moved i l p others (it_ID x) position db db'.
Proof.
  split; [apply siblings_NoDup|apply siblings_are|apply siblings_sorted|by rewrite <-arranged_ids; apply read_again| |].
  - intros k y. rewrite <-arranged_ids, list_lookup_fmap. destruct (arranged L x position !! k) as [z|] eqn:Ez; [|done].
    intros [= <-]. by apply order_at_renumbered.
  - intros j k y c Hk Hor. rewrite (Hr j k Hk). destruct (decide (i = j)) as [<-|]; [|done]. rewrite Hl in Hk. injection Hk as <-.
    unfold renumbered. rewrite map_lookup_imap. destruct (rows db l !! y) as [r|] eqn:E; cbn; [|done].
    destruct (ch !! y) as [n|] eqn:Ec; [|done]. apply order_changes_lookup in Ec as (q & z & Hz & <- & _); [|apply arranged_NoDup].
    rewrite lookup_insert_ne; [done|]. intros <-. destruct Hor as [?|[Hn|?]]; [done| |done]. apply Hn.
    rewrite <-(inserted_at_perm position), <-arranged_ids. by apply list_elem_of_fmap_2, list_elem_of_lookup_2 with q.
Qed.
End Move.

Lemma h_Move number id position db : intact lib t db →
  hoare (at_ lib t db) (Move lib out t CacheTTL number id position)
    (λ _ s, (∃ i l p others, number = Z.of_nat i + 1 ∧ t_Levels t !! i = Some l ∧ moved i l p others id position db (cs_db s)) ∧ edited lib t db s)
    (at_ lib t db).
Proof.
  intros Hi. pose proof (in_fit _ _ _ Hi) as Hfit. eapply h_bind; [by apply (h_level lib t number db)|]. intros def. apply h_pure. intros (i & Hl & ->).
  case_bool_decide as Ho; [by apply h_throw|]. eapply h_bind; [by apply h_find_item|]. intros [x sn]. apply h_pure.
  intros [i' l L Hn Hl' HL Hx <- [Hv _]]. cbn [fst snd] in *. assert (i' = i) as -> by lia. rewrite Hl in Hl'. injection Hl' as <-.
  replace (Z.to_nat (Z.of_nat i + 1 - 1)) with i by lia. rewrite Hv, HL. cbn [default]. unfold id. case_bool_decide as Hch.
  - apply h_ret. intros s Hs. split; [|by apply at_edited]. exists i, def, (it_ParentID x). eexists. split_and!; [done|done|].
    assert (cs_db s = db) as -> by apply Hs. apply (moved_here i def L x position db db); try done.
    intros j k Hk. destruct (decide (i = j)) as [<-|]; [|done]. rewrite Hl in Hk. injection Hk as <-. apply map_eq. intros y. unfold renumbered.
    rewrite map_lookup_imap, Hch. destruct (rows db def !! y); [|done]. cbn. by rewrite lookup_empty.
  - eapply h_weaken.
    + apply (h_dropping lib t "reorder characteristics" db _ (λ _ db', l_Order def ≠ "" ∧
        db' = upd def (ordered (l_Order def) (map_to_list (order_changes (arranged L x position)))) db) (λ db', db' = db)).
      apply (h_SetOrders out t i def _ _ db Hl eq_refl Hch).
    + done.
    + intros [] s [Hc [_ Hd]]. assert (edit lib t db (cs_db s)) as He by (rewrite Hd; by apply (ed_order lib t db i)).
      split; [|split; [done|by apply rtc_once]]. exists i, def, (it_ParentID x). eexists. split_and!; [done|done|].
      apply (moved_here i def L x position db (cs_db s)); try done; [by apply in_fit with lib, edit_intact with db|].
      intros j k Hk. rewrite Hd, (rows_upd t Ht def _ db i j k Hl Hk). by rewrite ordered_renumbered.
    + by intros s [? ?].
Qed.
End Moves.

(** * Operations that succeed

    When no call fails, a move and a forced delete of a row that exists succeed. *)

(** A step that always has an answer. *)
Definition answers {T A} (m : stM (Env T) error A) : Prop := ∀ e, ∃ a e', m e = (Ok a, e').

Section Answers.
Context {T : Type} (out : Outside) (Hf : faultless out).
Notation M := (stM (Env T) error).

Lemma answers_ret {A} (a : A) : answers (mret a : M A).
Proof. intros e. by exists a, e. Qed.
Lemma answers_bind {A B} (m : M A) (f : A → M B) : answers m → (∀ a, answers (f a)) → answers (m ≫= f).
Proof. intros Hm Hr e. destruct (Hm e) as (a & e' & E). destruct (Hr a e') as (b & e'' & E'). exists b, e''. unfold mbind, stM_bind. by rewrite E. Qed.
Lemma answers_mapErr {A} g (m : M A) : answers m → answers (mapErr g m).
Proof. intros Hm e. destruct (Hm e) as (a & e' & E). exists a, e'. unfold mapErr. by rewrite E. Qed.
Lemma answers_Now : answers (Now out : M Z).
Proof. intros e. by eexists _, _. Qed.
Lemma answers_statement {A} (f : T → A * T) : answers (statement out f).
Proof. intros e. rewrite statement_Ok by done. by eexists _, _. Qed.
Lemma answers_Transaction {A} (m : M A) : answers m → answers (Transaction out m).
Proof. intros Hm e. destruct (Hm e) as (a & e' & E). exists a. unfold Transaction. rewrite E, Hf. by eexists. Qed.

Lemma h_answers {A} P (m : M A) (Q : A → T → Prop) F : answers m → hoare P m Q F → hoare P m Q (λ _, False).
Proof. intros Hm H e He. specialize (H e He). destruct (Hm e) as (a & e' & E). by rewrite E in *. Qed.
End Answers.

Create HintDb answers.
#[export] Hint Resolve answers_ret answers_bind answers_mapErr answers_Now answers_statement answers_Transaction : answers.

Section Live.
Variables (lib : Library) (out : Outside) (t : Tree).
Variable (Uses : option (nat → Z → Z → result (list UseAt))).
Variable (CacheTTL : Z).
Context (Ht : ready t) (Hf : faultless out).

(** The application answers when it is asked. *)
Definition replies : Prop := ∀ ask_, Uses = Some ask_ → ∀ n number id, ∃ us, ask_ n number id = Ok us.

Lemma answers_dropping {A} what (m : stM (Env CharState) error A) : answers m → answers (dropping what m).
Proof. intros Hm e. unfold dropping, attempt, drop_, mapErr, lift, mbind, stM_bind. destruct (Hm e) as (a & e' & ->). by eexists _, _. Qed.

Lemma answers_store_level i l : t_Levels t !! i = Some l → answers (store_level t (Z.of_nat i + 1)).
Proof. intros Hl. unfold store_level. rewrite (level_at t i l Hl). apply answers_ret. Qed.

Lemma answers_read_levels ls k : drop k (t_Levels t) = ls → answers (read_levels lib out t ls (Z.of_nat k + 1)).
Proof.
  revert k. induction ls as [|l ls IH]; intros k Hk; cbn [read_levels]; [apply answers_ret|].
  assert (t_Levels t !! k = Some l) as Hl by (rewrite <-(Nat.add_0_r k), <-lookup_drop, Hk; done).
  apply answers_bind; [apply answers_mapErr, answers_bind; [by eapply answers_store_level|intros; by apply answers_statement]|]. intros rs.
  replace (Z.of_nat k + 1 + 1) with (Z.of_nat (S k) + 1) by lia. apply answers_bind; [|intros; apply answers_ret].
  apply (IH (S k)). replace (S k) with (k + 1)%nat by lia. by rewrite <-drop_drop, Hk.
Qed.

Lemma answers_load : answers (load lib out t).
Proof.
  apply answers_bind; [apply answers_Now|]. intros now. apply answers_bind; [by apply (answers_read_levels _ 0)|]. intros rs e. unfold mbind, stM_bind, keep. by eexists _, _.
Qed.

Lemma answers_snapshot : answers (snapshot lib out t CacheTTL).
Proof.
  apply answers_bind; [intros e; by eexists _, _|]. intros s. case_match; [|apply answers_load]. case_match; [|apply answers_load].
  apply answers_bind; [apply answers_Now|]. intros now. case_match; [apply answers_ret|apply answers_load].
Qed.

Lemma h_find_total i l id db : ids_fit t db → t_Levels t !! i = Some l → is_Some (rows db l !! id) →
  hoare (at_ lib t db) (find lib out t CacheTTL (Z.of_nat i + 1) id) (λ r s, found lib t (Z.of_nat i + 1) id db r ∧ at_ lib t db s) (λ _, False).
Proof.
  intros Hfit Hl [r Hr] e He. pose proof (h_find_item lib out t CacheTTL Ht (Z.of_nat i + 1) id db Hfit e He) as H.
  assert (∃ a e', find lib out t CacheTTL (Z.of_nat i + 1) id e = (Ok a, e')) as (a & e' & E); [|by rewrite E in *].
  clear H. pose proof (h_answers _ _ _ _ answers_snapshot (h_snapshot lib out t CacheTTL db) e He) as H.
  unfold find, level. rewrite (level_at t i l Hl). unfold mbind, stM_bind. cbn [mret stM_ret].
  destruct (snapshot _ _ _ _ e) as [[sn|] e']; [|done]. destruct H as [[Hv Hb] _].
  replace (Z.to_nat (Z.of_nat i + 1 - 1)) with i by lia. rewrite Hb, Hv, list_lookup_fmap.
  destruct (levels_of_lookup lib t db i l Hl) as [above EL]. pose proof (level_shown lib t Ht db i l _ Hfit Hl EL) as Hs. rewrite EL. cbn.
  destruct (sh_item _ _ _ _ _ Hs id r Hr) as (x & Hx & Hid).
  rewrite (proj2 (index_items_lookup _ id x (sh_ids _ _ _ _ _ Hs)) (conj Hx Hid)). by eexists _, _.
Qed.

Lemma answers_ask {A} (f : nat → result A) : (∀ n, ∃ a, f n = Ok a) → answers (ask f : stM (Env CharState) error A).
Proof. intros H e. unfold ask. destruct (H (moment e)) as [a ->]. by eexists _, _. Qed.

Lemma answers_report sn x : replies → answers (report Uses sn x).
Proof.
  intros Ha. unfold report. destruct Uses as [ask_|] eqn:EU; [|apply answers_ret]. apply answers_bind; [|intros; apply answers_ret].
  generalize (x :: below sn x), (@nil UseAt). clear sn x. intros items. induction items as [|y items IH]; intros acc; [apply answers_ret|].
  cbn [uses_loop]. apply answers_bind; [apply answers_mapErr, answers_ask; intros n; by apply Ha|]. intros us. apply IH.
Qed.

Lemma answers_delete_levels items k n : (k + n <= length (t_Levels t))%nat → answers (delete_levels out t items (Z.of_nat k + 1) n).
Proof.
  induction n as [|n IH]; intros Hn; cbn [delete_levels]; [apply answers_ret|]. apply answers_bind; [|intros; apply IH; lia].
  case_match; [apply answers_ret|]. destruct (t_Levels t !! (k + n)%nat) as [lv|] eqn:Hl; [|apply lookup_ge_None in Hl; lia].
  replace (Z.of_nat k + 1 + Z.of_nat n) with (Z.of_nat (k + n) + 1) by lia. apply answers_bind; [by eapply answers_store_level|].
  intros; by apply answers_statement.
Qed.

Lemma answers_order_loop l orders : answers (order_loop out l orders).
Proof. induction orders as [|[id o] orders IH]; cbn [order_loop]; [apply answers_ret|]. apply answers_bind; [by apply answers_statement|done]. Qed.

(** What follows a row that was found, when it always has an answer. *)
Lemma find_then {A} i l id db (f : Item * Snapshot → stM (Env CharState) error A) e : ids_fit t db → t_Levels t !! i = Some l →
  is_Some (rows db l !! id) → at_ lib t db (tables e) → (∀ r, answers (f r)) →
  ∃ a e', (find lib out t CacheTTL (Z.of_nat i + 1) id ≫= f) e = (Ok a, e').
Proof.
  intros Hfit Hl Hr He Hruns. destruct (h_total _ _ _ e (h_find_total i l id db Hfit Hl Hr) He) as (r & e' & E & _).
  destruct (Hruns r e') as (a & e'' & E'). exists a, e''. unfold mbind, stM_bind. by rewrite E.
Qed.

Lemma Delete_runs i l id db e : ids_fit t db → t_Levels t !! i = Some l → is_Some (rows db l !! id) → replies → at_ lib t db (tables e) →
  ∃ res e', Delete lib out t Uses CacheTTL (Z.of_nat i + 1) id true e = (Ok res, e').
Proof.
  intros Hfit Hl Hr Ha He. eapply find_then; [done..|]. intros r. apply answers_bind; [by apply answers_report|]. intros rep. cbn [negb andb].
  apply answers_bind; [|intros; apply answers_ret]. apply answers_dropping, answers_Transaction; [done|]. apply answers_delete_levels. apply lookup_lt_Some in Hl. lia.
Qed.

Lemma Move_runs i l id position db e : ids_fit t db → t_Levels t !! i = Some l → l_Order l ≠ "" → is_Some (rows db l !! id) → at_ lib t db (tables e) →
  ∃ e', Move lib out t CacheTTL (Z.of_nat i + 1) id position e = (Ok (), e').
Proof.
  intros Hfit Hl Ho Hr He. unfold Move, level. rewrite (level_at t i l Hl). change (mret l ≫= ?f) with (f l). cbn beta. rewrite bool_decide_eq_false_2 by done.
  edestruct (find_then (A := ()) i l id db) as ([] & e' & E); [done..| |exists e'; exact E]. intros r. cbn. case_bool_decide; [apply answers_ret|].
  apply answers_dropping. unfold SetOrders, store_level. rewrite (level_at t i l Hl). change (mret l ≫= ?f) with (f l). cbn beta.
  rewrite bool_decide_eq_false_2 by done. apply answers_Transaction, answers_order_loop. done.
Qed.
End Live.

(** * The kept tree, with readers and writers at once

    [snapshot] holds the mutex while it reads the levels one by one; a writer commits
    whenever it likes and takes the mutex only to drop what is kept. The steps below
    interleave them in any order. *)

Section Shared.
Variables (lib : Library) (t : Tree).
Implicit Types (db : gmap string Table).

(** The database, what is kept, the writers that have committed and not yet dropped,
    and what the reader that holds the mutex has read. *)
Record Shared : Type := mkShared { sd_db : gmap string Table; sd_snap : option Snapshot; sd_writers : nat; sd_reading : option (list (list Item)) }.

Definition rows_at db (i : nat) (l : Level) : list Item := read_rows lib t (Z.of_nat i + 1) l (rows db l).

Inductive shared_step : Shared → Shared → Prop :=
| sh_lock db snap w : shared_step (mkShared db snap w None) (mkShared db snap w (Some []))
| sh_read db snap w rs l : t_Levels t !! length rs = Some l →
    shared_step (mkShared db snap w (Some rs)) (mkShared db snap w (Some (rs ++ [rows_at db (length rs) l])))
| sh_keep db snap w rs at_ : length rs = length (t_Levels t) →
    shared_step (mkShared db snap w (Some rs)) (mkShared db (Some (snapshot_of t at_ rs)) w None)
| sh_fail db snap w rs : shared_step (mkShared db snap w (Some rs)) (mkShared db snap w None)
| sh_commit db db' snap w reading : shared_step (mkShared db snap w reading) (mkShared db' snap (S w) reading)
| sh_drop db snap w : shared_step (mkShared db snap (S w) None) (mkShared db None w None).

(** While no writer is between its commit and its drop. *)
Definition settled (s : Shared) : Prop :=
  sd_writers s = 0%nat →
  (∀ sn, sd_snap s = Some sn → view lib t sn (sd_db s)) ∧
  (∀ rs, sd_reading s = Some rs → (length rs <= length (t_Levels t))%nat ∧ rs = imap (rows_at (sd_db s)) (take (length rs) (t_Levels t))).

Lemma imap_snoc {A B} (f : nat → A → B) (k : list A) a : imap f (k ++ [a]) = imap f k ++ [f (length k) a].
Proof. rewrite imap_app. cbn. by rewrite Nat.add_0_r. Qed.

Lemma shared_step_settled s s' : shared_step s s' → settled s → settled s'.
Proof.
  intros [db snap w|db snap w rs l Hl|db snap w rs at_ Hn|db snap w rs|db db' snap w reading|db snap w] H; intros Hw; cbn [sd_writers sd_db sd_snap sd_reading] in *; [| | | |done|done];
    destruct (H Hw) as [Hsn Hrs]; cbn in Hsn, Hrs.
  - split; [done|]. intros ? [= <-]. cbn. split; [lia|done].
  - split; [done|]. intros ? [= <-]. destruct (Hrs rs eq_refl) as [Hlen E]. pose proof (lookup_lt_Some _ _ _ Hl). rewrite length_app. cbn [length].
    split; [lia|]. rewrite Nat.add_1_r, (take_S_r _ _ _ Hl), imap_snoc, <-E, length_take. by replace (_ `min` _)%nat with (length rs) by lia.
  - split; [|done]. intros ? [= <-]. destruct (Hrs rs eq_refl) as [_ E]. rewrite Hn, firstn_all in E. split; [|done]. cbn. unfold levels_of. by rewrite E.
  - by split.
Qed.

Lemma shared_steps_settled s s' : rtc shared_step s s' → settled s → settled s'.
Proof. induction 1; eauto using shared_step_settled. Qed.
End Shared.
