(* ===== verification/CharProps.v ===== *)
(** * Characteristics: theorems

    A description is accepted exactly when it is sound; the rows stay whole and what
    nobody described stays as it was, whatever is called and whatever fails; a delete
    removes exactly a branch; a move puts an item at its place; what is kept of the
    tree is true once writers are done. *)

From S2P Require Import Prelude Apperr Clock Sql Hoare CharTree CharView CharStore Characteristics CharSafety CharMove.

Local Open Scope Z_scope.

(** ** Calls of the service *)

Inductive char_call : Type :=
| CallGet (number id : Z) | CallTree | CallBranch (number id : Z) | CallOptions (q : OptionsQuery) | CallUsage (number id : Z)
| CallCreate (actor number parent : Z) (inp : Input) | CallUpdate (actor number id : Z) (inp : Input)
| CallSetActive (actor number id : Z) (active : bool) | CallMove (number id position : Z) | CallDelete (number id : Z) (force : bool).

Section Calls.
Variables (lib : Library) (out : Outside) (t : Tree).
Variable (Uses : option (nat → Z → Z → result (list UseAt))).
Variable (CacheTTL : Z).
Notation M := (stM (Env CharState) error).

(** A call, whatever it answers. *)
Definition perform (c : char_call) : Env CharState → Env CharState := λ e,
  match c with
  | CallGet number id => (Get lib out t CacheTTL number id e).2
  | CallTree => (Tree_ lib out t CacheTTL e).2
  | CallBranch number id => (Branch lib out t CacheTTL number id e).2
  | CallOptions q => (Options lib out t CacheTTL q e).2
  | CallUsage number id => (Usage lib out t Uses CacheTTL number id e).2
  | CallCreate actor number parent inp => (Create lib out t CacheTTL actor number parent inp e).2
  | CallUpdate actor number id inp => (Update lib out t CacheTTL actor number id inp e).2
  | CallSetActive actor number id active => (SetActive lib out t CacheTTL actor number id active e).2
  | CallMove number id position => (Move lib out t CacheTTL number id position e).2
  | CallDelete number id force => (Delete lib out t Uses CacheTTL number id force e).2
  end.

Definition performs (calls : list char_call) (e : Env CharState) : Env CharState := foldl (λ e c, perform c e) e calls.

Context (Ht : ready t).

Lemma hoare_after {A} P (m : M A) (R : CharState → Prop) (Q : A → CharState → Prop) F e :
  hoare P m Q F → P (tables e) → (∀ a s, Q a s → R s) → (∀ s, F s → R s) → R (tables (m e).2).
Proof. intros H He HQ HF. specialize (H e He). destruct (m e) as [[a|err] e']; cbn; eauto. Qed.

Lemma h_Options q db : hoare (at_ lib t db) (Options lib out t CacheTTL q) (λ _, at_ lib t db) (at_ lib t db).
Proof.
  eapply h_bind; [apply h_level|]. intros l. apply h_pure. intros _. case_match; [by apply h_throw|]. case_match; [by apply h_throw|].
  eapply h_bind; [apply h_snapshot|]. intros sn. apply h_pure. intros _. by apply h_ret.
Qed.

Lemma perform_edited c db e : intact lib t db → at_ lib t db (tables e) → edited lib t db (tables (perform c e)).
Proof.
  intros Hi He. pose proof (in_fit _ _ _ Hi) as Hfit. destruct c; cbn [perform].
  - eapply hoare_after; [by apply h_Get_item|done| |apply at_edited]. intros ? s [_ ?]. by apply at_edited.
  - eapply hoare_after with (Q := λ _, at_ lib t db) (F := at_ lib t db); [|done|intros ? s; apply at_edited|apply at_edited].
    eapply h_bind; [apply h_snapshot|]. intros sn. apply h_pure. intros _. by apply h_ret.
  - eapply hoare_after with (Q := λ _, at_ lib t db) (F := at_ lib t db); [|done|intros ? s; apply at_edited|apply at_edited].
    eapply h_bind; [by apply h_find_item|]. intros sn. apply h_pure. intros _. by apply h_ret.
  - eapply hoare_after; [apply h_Options|done|intros ? s; apply at_edited|apply at_edited].
  - eapply hoare_after with (Q := λ _, at_ lib t db) (F := at_ lib t db); [|done|intros ? s; apply at_edited|apply at_edited].
    eapply h_bind; [by apply h_find_item|]. intros r. apply h_pure. intros _. eapply h_weaken; [apply (h_report lib t Uses Ht r.2 r.1 db)|done|by intros ? s [_ ?]|done].
  - eapply hoare_after; [by apply h_Create|done..].
  - eapply hoare_after; [by apply h_Update|done..].
  - eapply hoare_after; [by apply h_SetActive|done..].
  - eapply hoare_after; [by apply h_Move|done|by intros ? s [_ ?]|apply at_edited].
  - eapply hoare_after; [by apply h_Delete|done| |apply at_edited]. intros ? s (_ & Hc & Hed). split; [done|by apply rtc_once].
Qed.

Lemma performs_edited calls e : intact lib t (cs_db (tables e)) → coherent lib t (tables e) →
  intact lib t (cs_db (tables (performs calls e))) ∧ edited lib t (cs_db (tables e)) (tables (performs calls e)).
Proof.
  revert e. induction calls as [|c calls IH]; intros e Hi Hc; [split; [done|by apply at_edited]|]. cbn.
  destruct (perform_edited c (cs_db (tables e)) e Hi) as [Hc' He]; [done|].
  assert (intact lib t (cs_db (tables (perform c e)))) as Hi' by (clear -Ht Hi He; induction He; eauto using edit_intact).
  destruct (IH _ Hi' Hc') as [? [? ?]]. split; [done|]. split; [done|]. by etransitivity.
Qed.

Lemma edits_kept db db' : rtc (edit lib t) db db' → kept t db db'.
Proof. induction 1; [apply kept_refl|]. eapply kept_trans; [|done]. by eapply edit_kept. Qed.
End Calls.

(** ** A sample: two levels, the second in order under the first *)
Section Sample.
Definition lib0 : Library := mkLibrary (λ _, "") (λ _, None) (λ _, "2026-01-01 00:00:00") (λ _, None) (λ _, ∅) String.leb.
Definition out0 : Outside := mkOutside (λ _, None) (λ _, 0) (λ _, false).
Definition tree0 : Tree := filled (DefaultTree 2).
Definition input0 (name : string) : Input := mkInput name None None ∅ true.
Definition start0 : Env CharState := mkEnv (mkCharState ∅ None 0) 0.
Definition calls0 : list char_call :=
  [CallCreate 7 1 0 (input0 " Fruit "); CallCreate 7 2 1 (input0 "Apple"); CallCreate 7 2 1 (input0 "Pear"); CallCreate 7 2 9 (input0 "Lost")].
Definition env0 : Env CharState := performs lib0 out0 tree0 None 0 calls0 start0.

Lemma tree0_prepared : Prepare (DefaultTree 2) = Ok tree0.
Proof. vm_compute. reflexivity. Defined.
Lemma tree0_ready : ready tree0.
Proof. exact (prepared_ready _ _ tree0_prepared). Qed.

Lemma start0_intact : intact lib0 tree0 (cs_db (tables start0)).
Proof. split; [intros i l _|intros j k l id r _ _]; unfold rows, table_of; cbn; rewrite lookup_empty; cbn; [split; [lia|]; intros id r|]; by rewrite lookup_empty. Qed.

Lemma env0_intact : intact lib0 tree0 (cs_db (tables env0)) ∧ at_ lib0 tree0 (cs_db (tables env0)) (tables env0).
Proof. destruct (performs_edited lib0 out0 tree0 None 0 tree0_ready calls0 start0 start0_intact) as [Hi [Hc _]]; done. Qed.
End Sample.

(** C21. A description is accepted exactly when it passes its checks (every name is an
    identifier, no column is named twice in a level but by fields under different
    rows, parents and ancestors are where they must be, no table serves two levels),
    and it comes back with its defaults filled in; otherwise it is refused with the
    problems, of which there is at least one. In one that is accepted two fields of
    one column apply to the same row only when they are under rows of different
    levels of its branch. *)
Theorem Prepare_decides t :
  match Prepare t with
  | Ok t' => t' = filled t ∧ checked_tree t' ∧
      ∀ l path i j f g, l ∈ t_Levels t' → l_Fields l !! i = Some f → l_Fields l !! j = Some g → i ≠ j →
        f_Column f = f_Column g → applies path f = true → applies path g = true →
        ∃ u v, f_Under f = Some u ∧ f_Under g = Some v ∧ u_Level u ≠ u_Level v
  | Err e => de_Problems e ≠ [] ∧ ¬ checked_tree (filled t)
  end.
Proof.
  unfold Prepare. destruct (tree_problems (filled t)) as [|p ps] eqn:E.
  - apply tree_problems_nil in E. split; [done|]. split; [done|].
    intros l path i j f g [k Hk]%list_elem_of_lookup. by eapply shared_column_levels, (sd_described _ E k).
  - split; [done|]. intros H%tree_problems_nil. congruence.
Qed.

(** C19. From rows that are whole, whatever is called and whatever call fails, the ids
    given out stay apart and fit their column, every row below the first level has its
    parent, and a tree that is kept is the tree of the database. *)
Theorem tree_stays_whole lib out t0 t Uses CacheTTL calls e :
  Prepare t0 = Ok t → intact lib t (cs_db (tables e)) → coherent lib t (tables e) →
  let s := tables (performs lib out t Uses CacheTTL calls e) in
  ids_fit t (cs_db s) ∧ no_orphans lib t (cs_db s) ∧ coherent lib t s.
Proof.
  intros Ht%prepared_ready Hi Hc. destruct (performs_edited lib out t Uses CacheTTL Ht calls e Hi Hc) as [[Hf Hw] [Hc' _]]. done.
Qed.

Lemma tree_stays_whole_witness :
  let s := tables (performs lib0 out0 tree0 None 0 [CallDelete 1 1 false; CallDelete 1 1 true] env0) in
  ids_fit tree0 (cs_db s) ∧ no_orphans lib0 tree0 (cs_db s) ∧ coherent lib0 tree0 s.
Proof.
  apply (tree_stays_whole lib0 out0 (DefaultTree 2) tree0 None 0 [CallDelete 1 1 false; CallDelete 1 1 true] env0).
  - exact tree0_prepared.
  - apply env0_intact.
  - apply env0_intact.
Defined.

(** Whatever is called and whatever call fails, a table that is not described is
    as it was, and in a row that existed and still does, every column the description
    does not name is as it was. *)
Theorem undescribed_untouched lib out t0 t Uses CacheTTL calls e :
  Prepare t0 = Ok t → intact lib t (cs_db (tables e)) → coherent lib t (tables e) →
  kept t (cs_db (tables e)) (cs_db (tables (performs lib out t Uses CacheTTL calls e))).
Proof.
  intros Ht%prepared_ready Hi Hc. eapply edits_kept; [done|]. by destruct (performs_edited lib out t Uses CacheTTL Ht calls e Hi Hc) as [_ [_ H]].
Qed.

Lemma undescribed_untouched_witness :
  kept tree0 (cs_db (tables env0)) (cs_db (tables (performs lib0 out0 tree0 None 0 [CallUpdate 7 2 1 (input0 "Quince"); CallMove 2 1 2] env0))).
Proof.
  apply (undescribed_untouched lib0 out0 (DefaultTree 2) tree0 None 0 [CallUpdate 7 2 1 (input0 "Quince"); CallMove 2 1 2] env0).
  - exact tree0_prepared.
  - apply env0_intact.
  - apply env0_intact.
Defined.

(** C20. A delete that succeeds removes the row and the rows below it, at every level,
    and nothing else; it answers how many; without force there was nothing below and
    the application, when it can say, said nothing uses the row. A delete that fails
    leaves the database as it was. When no call fails, a forced delete of a row that
    exists succeeds. *)
Theorem Delete_exact lib out t0 t Uses CacheTTL i l id force db e :
  Prepare t0 = Ok t → intact lib t db → at_ lib t db (tables e) → t_Levels t !! i = Some l →
  match Delete lib out t Uses CacheTTL (Z.of_nat i + 1) id force e with
  | (Ok res, e') => deleted lib t Uses force i id db res (cs_db (tables e'))
  | (Err _, e') => cs_db (tables e') = db
  end ∧
  (faultless out → replies Uses → is_Some (rows db l !! id) →
   ∃ res e', Delete lib out t Uses CacheTTL (Z.of_nat i + 1) id true e = (Ok res, e')).
Proof.
  intros Ht%prepared_ready Hi He Hl. split.
  - pose proof (h_Delete lib out t Uses CacheTTL Ht (Z.of_nat i + 1) id force db Hi e He) as H.
    destruct (Delete _ _ _ _ _ _ _ _ e) as [[res|err] e']; [|apply H]. destruct H as ((i' & E & H) & _). by replace i with i' by lia.
  - intros Hf Ha Hr. by eapply Delete_runs; [|done|by apply in_fit with lib|..].
Qed.

Lemma Delete_exact_witness :
  ∃ res e', Delete lib0 out0 tree0 None 0 1 1 true env0 = (Ok res, e') ∧ dr_Deleted res = 3%nat ∧
    deleted lib0 tree0 None true 0 1 (cs_db (tables env0)) res (cs_db (tables e')).
Proof.
  destruct (Delete_exact lib0 out0 (DefaultTree 2) tree0 None 0 0 (default_level 1) 1 true (cs_db (tables env0)) env0 tree0_prepared (proj1 env0_intact) (proj2 env0_intact) eq_refl) as [H _].
  change (Z.of_nat 0 + 1) with 1 in H.
  destruct (Delete lib0 out0 tree0 None 0 1 1 true env0) as [[res|err] e'] eqn:E.
  - exists res, e'. split; [done|]. split; [|exact H].
    enough (match (Delete lib0 out0 tree0 None 0 1 1 true env0).1 with Ok res => dr_Deleted res = 3%nat | Err _ => True end) as H3 by by rewrite E in H3.
    vm_compute. reflexivity.
  - exfalso. enough (match (Delete lib0 out0 tree0 None 0 1 1 true env0).1 with Ok _ => True | Err _ => False end) as H3 by by rewrite E in H3.
    vm_compute. exact I.
Defined.

(** A move that succeeds leaves the item at the place asked for, kept inside the
    list, with the other siblings in the order they had: they are read back in this
    order and numbered from one, and no other row and no other column has changed. A
    move that fails leaves the database as it was. When no call fails, a move of a row
    that exists, at a level with an order, succeeds. *)
Theorem Move_places lib out t0 t CacheTTL i l id position db e :
  Prepare t0 = Ok t → intact lib t db → at_ lib t db (tables e) → t_Levels t !! i = Some l →
  match Move lib out t CacheTTL (Z.of_nat i + 1) id position e with
  | (Ok _, e') => ∃ p others, moved lib t i l p others id position db (cs_db (tables e'))
  | (Err _, e') => cs_db (tables e') = db
  end ∧
  (faultless out → l_Order l ≠ "" → is_Some (rows db l !! id) →
   ∃ e', Move lib out t CacheTTL (Z.of_nat i + 1) id position e = (Ok (), e')).
Proof.
  intros Ht%prepared_ready Hi He Hl. split.
  - pose proof (h_Move lib out t CacheTTL Ht (Z.of_nat i + 1) id position db Hi e He) as H.
    destruct (Move _ _ _ _ _ _ _ e) as [[res|err] e']; [|apply H]. destruct H as [(i' & l' & p & others & E & Hl' & H) _].
    assert (i' = i) as -> by lia. rewrite Hl in Hl'. injection Hl' as <-. by exists p, others.
  - intros Hf Ho Hr. by eapply Move_runs; [| |by apply in_fit with lib|..].
Qed.

Lemma Move_places_witness :
  ∃ e', Move lib0 out0 tree0 0 2 1 9 env0 = (Ok (), e') ∧
    (∃ p others, moved lib0 tree0 1 (default_level 2) p others 1 9 (cs_db (tables env0)) (cs_db (tables e'))) ∧
    (λ L : list Item, it_ID <$> L) <$> levels_of lib0 tree0 (cs_db (tables e')) = [[1]; [2; 1]].
Proof.
  destruct (Move_places lib0 out0 (DefaultTree 2) tree0 0 1 (default_level 2) 1 9 (cs_db (tables env0)) env0 tree0_prepared (proj1 env0_intact) (proj2 env0_intact) eq_refl) as [H H2].
  change (Z.of_nat 1 + 1) with 2 in H, H2. destruct H2 as [e' E]; [intros ?; reflexivity|discriminate|apply (bool_decide_unpack _); vm_compute; exact I|].
  rewrite E in H. exists e'. split; [done|]. split; [exact H|].
  assert ((λ L : list Item, it_ID <$> L) <$> levels_of lib0 tree0 (cs_db (tables (Move lib0 out0 tree0 0 2 1 9 env0).2)) = [[1]; [2; 1]]) as HL by (vm_compute; reflexivity).
  rewrite E in HL. exact HL.
Defined.

(** Readers that fill the cache and writers that empty it, in any order: when no
    writer is between its commit and its drop, a tree that is kept is the tree of the
    database, also one that was being read while a writer committed. *)
Theorem kept_tree_true lib t db s :
  rtc (shared_step lib t) (mkShared db None 0 None) s → sd_writers s = 0%nat → ∀ sn, sd_snap s = Some sn → view lib t sn (sd_db s).
Proof. intros H Hw sn Hsn. eapply shared_steps_settled in H; [by apply (proj1 (H Hw))|]. by intros _. Qed.

Lemma kept_tree_true_witness :
  ∃ sn, view lib0 tree0 sn (cs_db (tables env0)) ∧ length <$> sn_levels sn = [1; 2]%nat.
Proof.
  eexists. split.
  - eapply (kept_tree_true lib0 tree0 ∅ (mkShared (cs_db (tables env0)) (Some _) 0 None)); [|done|done].
    eapply rtc_l; [apply sh_lock|]. eapply rtc_l; [apply (sh_read _ _ _ _ _ [] (default_level 1)); reflexivity|].
    eapply rtc_l; [apply sh_commit|]. eapply rtc_l; [apply sh_fail|]. eapply rtc_l; [apply sh_drop|].
    eapply rtc_l; [apply sh_lock|]. eapply rtc_l; [apply (sh_read _ _ _ _ _ [] (default_level 1)); reflexivity|].
    eapply rtc_l; [apply (sh_read _ _ _ _ _ _ (default_level 2)); reflexivity|].
    eapply rtc_l; [apply (sh_keep _ _ _ _ _ _ 0); reflexivity|]. apply rtc_refl.
  - vm_compute. reflexivity.
Defined.

(** ** A column of two fields *)

Definition text_under (id : Z) : Field := mkField "code" (mkText "Kod" "Code") TypeText [] 255 false false false (Some (mkUnder 1 id)).
Definition number_under (id : Z) : Field := mkField "code" (mkText "Kod" "Code") TypeNumber [] 255 false false false (Some (mkUnder 1 id)).
Definition shared_column : Tree :=
  mkTree ["hr"] [default_level 1;
    mkLevel (mkText "Razina 2" "Level 2") "characteristics_level2" "id" "level1_id" [] "name" 255 (mkTranslations "" ∅) "order" "active" "" DefaultAudit
      [text_under 1; number_under 2]].

(** A column that is a text in one branch and a number in another is read with the
    type of the last field, so a text that was written comes back as nil. *)
Lemma shared_column_lost :
  Prepare shared_column = Ok (filled shared_column) ∧
  (let e := performs lib0 out0 (filled shared_column) None 0
     [CallCreate 7 1 0 (input0 "Fruit"); CallCreate 7 2 1 (mkInput "Apple" None None {["code" := RText "A1"]} true)] start0 in
   (λ i, it_Values i !! "code") <$> match (Get lib0 out0 (filled shared_column) 0 2 1 e).1 with Ok i => Some i | Err _ => None end = Some (Some VNil)
   ∧ (λ r : row, r !! "code") <$> (rows (cs_db (tables e)) (default (default_level 1) (t_Levels shared_column !! 1%nat)) !! 1) = Some (Some (DText "A1"))).
Proof. vm_compute. repeat split. Qed.

(** Two fields of one column on nested branches, both of which apply to a row. *)
Lemma nested_branches_pass :
  let l := mkLevel (mkText "Razina 3" "Level 3") "c3" "id" "level2_id" ["level1_id"] "name" 255 (mkTranslations "" ∅) "" "" "" DefaultAudit
      [text_under 5; mkField "code" (mkText "Kod" "Code") TypeNumber [] 255 false false false (Some (mkUnder 2 7))] in
  let l' := mkLevel (l_Label l) (l_Table l) "id" (l_Parent l) (l_Ancestors l) "name" 255 (l_Translations l) "" "" "" (mkAudit "" "" "" "" "" "" "" "" false false) (l_Fields l) in
  level_problems l' 3 ["hr"] = [] ∧ length (FieldsFor l' [5; 7]) = 2%nat.
Proof. vm_compute. split; reflexivity. Qed.
