(* ===== verification/IncidentText.v ===== *)
(** * Incidents: names, text and inputs (src/incident/core)

    types.go, classify.go, text.go, fingerprint.go and inputs.go: the states of an
    incident, the text that is stored, how a message is made stable for grouping, and
    the checks of what people send. A regular expression is the scan it describes.
    SHA-256, lower-casing and the validity of JSON are arguments. *)

From Stdlib Require Import Ascii.
From S2P Require Import Prelude Apperr Clock.

Local Open Scope Z_scope.

(** ** Names (types.go) *)

Definition VisibilityShared : string := "reporter_and_staff".
Definition VisibilityInternal : string := "staff_only".
Definition TicketProviderNone : string := "none".
Definition TicketProviderGitHub : string := "github".
Definition TicketProviderJira : string := "jira".
Definition SourceUserReport : string := "user_report".
Definition SourceRuntimeError : string := "runtime_error".
Definition SourceClientError : string := "client_error".
Definition SourceMixed : string := "mixed".
Definition StatusNew : string := "new".
Definition StatusTriaged : string := "triaged".
Definition StatusInProgress : string := "in_progress".
Definition StatusResolved : string := "resolved".
Definition StatusIgnored : string := "ignored".
Definition StatusDuplicate : string := "duplicate".
Definition SeverityLow : string := "low".
Definition SeverityMedium : string := "medium".
Definition SeverityHigh : string := "high".
Definition SeverityCritical : string := "critical".
Definition CommentPublic : string := "public".
Definition CommentInternal : string := "internal".

Record Viewer : Type := mkViewer { vw_UserID : Z; vw_Staff : bool }.
Record Person : Type := mkPerson { pe_ID : Z; pe_Name : string; pe_Email : string }.

(** ** States (classify.go) *)

Definition status_Valid (s : string) : bool :=
  contains [StatusNew; StatusTriaged; StatusInProgress; StatusResolved; StatusIgnored; StatusDuplicate] s.
Definition IsOpen (s : string) : bool := contains [StatusNew; StatusTriaged; StatusInProgress] s.
Definition severity_Valid (s : string) : bool := contains [SeverityLow; SeverityMedium; SeverityHigh; SeverityCritical] s.
Definition OrDefault (s : string) : string := if severity_Valid s then s else SeverityMedium.
Definition Merge (s incoming : string) : string :=
  if bool_decide (s = "") then incoming else if bool_decide (s = incoming) then s else SourceMixed.

(** ** Stored text (text.go) *)

Definition maxBMP : Z := 65535.

Definition bmp (r : Z) : Z := if maxBMP <? r then Utf8.RuneError else r.
Definition clip (text : string) (limit : Z) : string := Utf8.of_runes (bmp <$> take (Z.to_nat limit) (Utf8.runes text)).
Definition clean (text : string) (limit : Z) : string := clip (Utf8.TrimSpace text) limit.

(** ** A message made stable (fingerprint.go) *)

(** The classes \w, \d, \s and [0-9a-f] of the patterns, which are ASCII. *)
Definition word_char (c : ascii) : bool :=
  Str.is_lower c || ((65 <=? Str.code c) && (Str.code c <=? 90)) || Str.is_digit c || bool_decide (c = "_"%char).
Definition hex_digit (c : ascii) : bool := Str.is_digit c || ((97 <=? Str.code c) && (Str.code c <=? 102)).
Definition space_char (c : ascii) : bool := contains [9; 10; 12; 13; 32] (Str.code c).

(** Does a word character come next? *)
Definition at_word (s : string) : bool := match s with String c _ => word_char c | EmptyString => false end.

(** The digits and dashes of a UUID, then no word character. *)
Definition uuid_groups : list (option nat) := [Some 8%nat; None; Some 4%nat; None; Some 4%nat; None; Some 4%nat; None; Some 12%nat].
Fixpoint hexes (n : nat) (s : string) : option string :=
  match n, s with
  | O, _ => Some s
  | S n', String c s' => if hex_digit c then hexes n' s' else None
  | S _, EmptyString => None
  end.
Fixpoint uuid_at (groups : list (option nat)) (s : string) : bool :=
  match groups with
  | [] => negb (at_word s)
  | Some n :: rest => match hexes n s with Some s' => uuid_at rest s' | None => false end
  | None :: rest => match s with String c s' => bool_decide (c = "-"%char) && uuid_at rest s' | EmptyString => false end
  end.

(** [uuidPattern.ReplaceAllString(s, "{uuid}")]: [after] says that a word character
    was just read, [skip] how many bytes of a match are left. *)
Fixpoint replace_uuids (s : string) (after : bool) (skip : nat) : string :=
  match s with
  | EmptyString => ""
  | String c rest =>
      match skip with
      | S k => replace_uuids rest (word_char c) k
      | O => if negb after && uuid_at uuid_groups s then "{uuid}" +:+ replace_uuids rest true 35
             else String c (replace_uuids rest (word_char c) 0)
      end
  end.

(** [numberPattern.ReplaceAllString(s, "{n}")]: [run] is the digits read since a
    boundary, if there was one. *)
Fixpoint replace_numbers (s : string) (after : bool) (run : string) : string :=
  match s with
  | EmptyString => if bool_decide (run = "") then "" else "{n}"
  | String c rest =>
      if bool_decide (run = "")
      then if negb after && Str.is_digit c then replace_numbers rest true (String c "")
           else String c (replace_numbers rest (word_char c) "")
      else if Str.is_digit c then replace_numbers rest true (run +:+ String c "")
      else if word_char c then run +:+ String c (replace_numbers rest true "")
      else "{n}" +:+ String c (replace_numbers rest false "")
  end.

(** [spacePattern.ReplaceAllString(s, " ")] *)
Fixpoint collapse_spaces (s : string) (after : bool) : string :=
  match s with
  | EmptyString => ""
  | String c rest => if space_char c then (if after then "" else " ") +:+ collapse_spaces rest true else String c (collapse_spaces rest false)
  end.

Section Fingerprint.
Variables (ToLower sha256_hex : string → string).

Definition NormalizeText (input : string) : string :=
  collapse_spaces (replace_numbers (replace_uuids (ToLower (Utf8.TrimSpace input)) false 0) false "") false.

Definition stable_parts (parts : list string) : list string := List.filter (λ p, bool_decide (p ≠ "")) (NormalizeText <$> parts).

Definition Fingerprint (parts : list string) : string := sha256_hex (Str.join "|" (stable_parts parts)).
End Fingerprint.

(** ** Inputs (inputs.go) *)

Definition TitleMax : Z := 255.
Definition MessageMax : Z := 2000.
Definition StackMax : Z := 20000.
Definition RouteMax : Z := 255.
Definition ModuleMax : Z := 100.
Definition ClientRequests : nat := 20.
Definition requestIDMax : Z := 100.
Definition sourceMax : Z := 32.
Definition detailMax : Z := 255.
Definition classMax : Z := 255.
Definition codeMax : Z := 100.
Definition methodMax : Z := 10.
Definition addressMax : Z := 45.
Definition envMax : Z := 50.
Definition snippetMax : Z := 120.
Definition browserMax : Z := 500.
Definition versionMax : Z := 100.
Definition urlMax : Z := 1000.
Definition summaryMax : Z := 2000.
Definition ticketIDMax : Z := 100.
Definition ticketURLMax : Z := 500.

Record ReportInput : Type := mkReportInput {
  ri_Title : string;
  ri_Description : string;
  ri_StepsToReproduce : string;
  ri_ExpectedResult : string;
  ri_ActualResult : string;
  ri_Severity : string;
  ri_AffectedModule : string;
  ri_PageURL : string;
  ri_BrowserInfo : string;
  ri_AppVersion : string;
  ri_FrontendErrorMessage : string;
  ri_FrontendStacktrace : string;
  ri_AttachmentJSON : string;
  ri_ExtraJSON : string
}.

Record CommentInput : Type := mkCommentInput { ci_Body : string; ci_Visibility : string }.

Record UpdateInput : Type := mkUpdateInput {
  ui_Status : string;
  ui_Severity : string;
  ui_Visibility : string;
  ui_AssignedToUserID : option Z;
  ui_DuplicateOfIncidentID : option Z;
  ui_ResolutionSummary : string;
  ui_ExternalTicketProvider : string;
  ui_ExternalTicketID : string;
  ui_ExternalTicketURL : string
}.

Record ClientErrorInput : Type := mkClientErrorInput {
  ce_Message : string;
  ce_Stack : string;
  ce_Route : string;
  ce_Browser : string;
  ce_AppVersion : string;
  ce_RequestIDs : list string;
  ce_Source : string;
  ce_Detail : string
}.

(** The first refusal of a [switch] of cases, if any. *)
Fixpoint refuse (cases : list (bool * string)) : option error :=
  match cases with [] => None | (b, what) :: rest => if b then Some (BadRequest what) else refuse rest end.

Definition blank (s : string) : bool := bool_decide (Utf8.TrimSpace s = "").
Definition given (s : string) : bool := bool_decide (s ≠ "").

Definition validProvider (p : string) : bool := contains [TicketProviderNone; TicketProviderGitHub; TicketProviderJira] p.

Section Json.
Variable json_Valid : string → bool.

Definition validJSON (text : string) : bool := blank text || json_Valid (Utf8.TrimSpace text).
Definition jsonOr (text fallback : string) : string :=
  if blank text || negb (json_Valid (Utf8.TrimSpace text)) then fallback else Utf8.TrimSpace text.

Definition report_validate (i : ReportInput) : option error :=
  refuse [(blank (ri_Title i), "title is required"); (blank (ri_Description i), "description is required");
    (given (ri_Severity i) && negb (severity_Valid (ri_Severity i)), "invalid severity");
    (negb (validJSON (ri_AttachmentJSON i)), "invalid attachment_json payload");
    (negb (validJSON (ri_ExtraJSON i)), "invalid extra_json payload")].

Definition report_sanitize (i : ReportInput) : ReportInput :=
  mkReportInput (clean (ri_Title i) TitleMax) (clean (ri_Description i) StackMax) (clean (ri_StepsToReproduce i) StackMax)
    (clean (ri_ExpectedResult i) StackMax) (clean (ri_ActualResult i) StackMax) (OrDefault (Utf8.TrimSpace (ri_Severity i)))
    (clean (ri_AffectedModule i) ModuleMax) (clean (ri_PageURL i) urlMax) (clean (ri_BrowserInfo i) browserMax)
    (clean (ri_AppVersion i) versionMax) (clean (ri_FrontendErrorMessage i) MessageMax) (clean (ri_FrontendStacktrace i) StackMax)
    (jsonOr (ri_AttachmentJSON i) "[]") (jsonOr (ri_ExtraJSON i) "{}").
End Json.

Definition comment_validate (i : CommentInput) : option error :=
  refuse [(blank (ci_Body i), "body is required");
    (given (ci_Visibility i) && negb (contains [CommentPublic; CommentInternal] (ci_Visibility i)), "invalid comment visibility")].

Definition comment_sanitize (i : CommentInput) : CommentInput :=
  mkCommentInput (clean (ci_Body i) StackMax) (if blank (ci_Visibility i) then CommentPublic else ci_Visibility i).

Definition update_validate (i : UpdateInput) : option error :=
  refuse [(given (ui_Status i) && negb (status_Valid (ui_Status i)), "invalid status");
    (given (ui_Severity i) && negb (severity_Valid (ui_Severity i)), "invalid severity");
    (given (ui_Visibility i) && negb (contains [VisibilityShared; VisibilityInternal] (ui_Visibility i)), "invalid visibility");
    (given (ui_ExternalTicketProvider i) && negb (validProvider (ui_ExternalTicketProvider i)), "invalid external_ticket_provider")].

Definition update_sanitize (i : UpdateInput) : UpdateInput :=
  mkUpdateInput (Utf8.TrimSpace (ui_Status i)) (Utf8.TrimSpace (ui_Severity i)) (Utf8.TrimSpace (ui_Visibility i)) (ui_AssignedToUserID i)
    (ui_DuplicateOfIncidentID i) (clean (ui_ResolutionSummary i) summaryMax) (Utf8.TrimSpace (ui_ExternalTicketProvider i))
    (clean (ui_ExternalTicketID i) ticketIDMax) (clean (ui_ExternalTicketURL i) ticketURLMax).
