(* ===== verification/IncidentStore.v ===== *)
(** * Incidents in SQL (src/incident/gormstore)

    The incidents, reports, comments and occurrences of types.go and the store of
    gormstore.go, models.go and alerts.go, each statement as its meaning on the
    tables. DATETIME columns keep whole seconds. The constraints of the incidents
    table are those of its migration: two unique indexes, the foreign key to the
    incident it duplicates, and the width of its columns, which MySQL enforces by
    default; the columns of the other tables are as wide as what is cut for them. *)

From S2P Require Import Prelude Apperr Clock SignIn Lease Sql Rows IncidentText.

Local Open Scope Z_scope.

Definition ErrNotFound : string := "incident not found".
Definition ErrDuplicate : string := "incident already exists".
Definition ErrConflict : string := "write conflict".

Record Incident : Type := mkIncident {
  in_ID : Z; in_PublicCode : string; in_Fingerprint : string; in_OpenFingerprint : option string;
  in_Source : string; in_Status : string; in_Severity : string; in_Visibility : string;
  in_Title : string; in_Description : string; in_AffectedModule : string; in_AffectedRoute : string; in_Environment : string;
  in_ErrorClass : string; in_ErrorCode : string; in_ErrorMessageSample : string; in_StacktraceSample : string;
  in_FirstSeenAt : Z; in_LastSeenAt : Z; in_OccurrenceCount : Z; in_ReportCount : Z; in_CommentCount : Z;
  in_ReporterUserID : option Z; in_AssignedToUserID : option Z;
  in_ExternalTicketProvider : string; in_ExternalTicketID : string; in_ExternalTicketURL : string;
  in_DuplicateOfIncidentID : option Z; in_ResolutionSummary : string; in_ResolvedAt : option Z; in_CreatedAt : Z; in_UpdatedAt : Z;
  in_Reporter : option Person; in_Assignee : option Person
}.

Record Report : Type := mkReport {
  re_ID : Z; re_IncidentID : option Z; re_ReportedByUserID : Z; re_ReportType : string; re_Status : string;
  re_Title : string; re_Description : string; re_StepsToReproduce : string; re_ExpectedResult : string; re_ActualResult : string;
  re_Severity : string; re_AffectedModule : string; re_PageURL : string; re_BrowserInfo : string; re_AppVersion : string;
  re_FrontendErrorMessage : string; re_FrontendStacktrace : string; re_AttachmentJSON : string; re_ExtraJSON : string;
  re_CreatedAt : Z; re_UpdatedAt : Z; re_Reporter : option Person
}.

Record Comment : Type := mkComment {
  co_ID : Z; co_IncidentID : Z; co_AuthorUserID : Z; co_Visibility : string; co_Body : string;
  co_EditedAt : option Z; co_DeletedAt : option Z; co_CreatedAt : Z; co_UpdatedAt : Z; co_Author : option Person
}.

Record Occurrence : Type := mkOccurrence {
  oc_ID : Z; oc_IncidentID : Z; oc_Fingerprint : string; oc_Environment : string; oc_AffectedModule : string; oc_AffectedRoute : string;
  oc_RequestMethod : string; oc_UserID : option Z; oc_TenantID : option Z; oc_IPAddress : string; oc_RequestID : string;
  oc_ErrorClass : string; oc_ErrorCode : string; oc_Message : string; oc_NormalizedMessage : string; oc_Stacktrace : string;
  oc_ContextJSON : string; oc_RequestJSON : string; oc_OccurredAt : Z; oc_CreatedAt : Z; oc_User : option Person
}.

Record DigestItem : Type := mkDigestItem {
  di_ID : Z; di_IncidentID : Z; di_PublicCode : string; di_Title : string; di_Severity : string; di_CreatedAt : Z
}.

(** ** The tables (models.go) *)

Record incidentModel : Type := mkIncidentModel {
  im_PublicCode : string; im_Fingerprint : string; im_OpenFingerprint : option string;
  im_Source : string; im_Status : string; im_Severity : string; im_Visibility : string;
  im_Title : string; im_Description : option string; im_AffectedModule : option string; im_AffectedRoute : option string;
  im_Environment : option string; im_ErrorClass : option string; im_ErrorCode : option string; im_ErrorMessageSample : option string;
  im_StacktraceSample : option string; im_FirstSeenAt : Z; im_LastSeenAt : Z; im_OccurrenceCount : Z; im_ReportCount : Z;
  im_CommentCount : Z; im_ReporterUserID : option Z; im_AssignedToUserID : option Z; im_ExternalTicketProvider : string;
  im_ExternalTicketID : option string; im_ExternalTicketURL : option string; im_DuplicateOfIncidentID : option Z;
  im_ResolutionSummary : option string; im_ResolvedAt : option Z; im_CreatedAt : Z; im_UpdatedAt : Z
}.

Record occurrenceModel : Type := mkOccurrenceModel {
  om_IncidentID : Z; om_Fingerprint : string; om_Environment : string; om_AffectedModule : option string; om_AffectedRoute : option string;
  om_RequestMethod : option string; om_UserID : option Z; om_TenantID : option Z; om_IPAddress : option string; om_RequestID : option string;
  om_ErrorClass : option string; om_ErrorCode : option string; om_Message : string; om_NormalizedMessage : option string;
  om_Stacktrace : option string; om_ContextJSON : option string; om_RequestJSON : option string; om_OccurredAt : Z; om_CreatedAt : Z
}.

Record reportModel : Type := mkReportModel {
  rm_IncidentID : option Z; rm_ReportedByUserID : Z; rm_ReportType : string; rm_Status : string; rm_Title : string; rm_Description : string;
  rm_StepsToReproduce : option string; rm_ExpectedResult : option string; rm_ActualResult : option string; rm_Severity : string;
  rm_AffectedModule : option string; rm_PageURL : option string; rm_BrowserInfo : option string; rm_AppVersion : option string;
  rm_FrontendErrorMessage : option string; rm_FrontendStacktrace : option string; rm_AttachmentJSON : option string;
  rm_ExtraJSON : option string; rm_CreatedAt : Z; rm_UpdatedAt : Z
}.

Record commentModel : Type := mkCommentModel {
  cm_IncidentID : Z; cm_AuthorUserID : Z; cm_Visibility : string; cm_Body : string; cm_EditedAt : option Z; cm_DeletedAt : option Z;
  cm_CreatedAt : Z; cm_UpdatedAt : Z
}.

Record digestModel : Type := mkDigestModel {
  dm_IncidentID : Z; dm_PublicCode : string; dm_Title : string; dm_Severity : string; dm_CreatedAt : Z; dm_DigestedAt : option Z
}.

(** What the module publishes, [Opened] and [digested] of alerts.go, and the alerts it
    makes for people through the notification module. *)
Record NewIncident : Type := mkNewIncident { ni_IncidentID : Z; ni_PublicCode : string; ni_Title : string; ni_Severity : string; ni_Source : string }.
Inductive Announced : Type := AOpened (n : NewIncident) | ADigest (items : list NewIncident) | AAlert (people : list Z) (alerts : list NewIncident).

Record IncTables : Type := mkIncTables {
  incidents : rows_of incidentModel;
  occurrences : rows_of occurrenceModel;
  reports : rows_of reportModel;
  comments : rows_of commentModel;
  watchers : gmap (Z * Z) Z;
  cooldowns : gmap string Z;
  digests : rows_of digestModel;
  announced : list Announced
}.

Definition set_incidents (t : IncTables) x := mkIncTables x (occurrences t) (reports t) (comments t) (watchers t) (cooldowns t) (digests t) (announced t).
Definition set_occurrences (t : IncTables) x := mkIncTables (incidents t) x (reports t) (comments t) (watchers t) (cooldowns t) (digests t) (announced t).
Definition set_reports (t : IncTables) x := mkIncTables (incidents t) (occurrences t) x (comments t) (watchers t) (cooldowns t) (digests t) (announced t).
Definition set_comments (t : IncTables) x := mkIncTables (incidents t) (occurrences t) (reports t) x (watchers t) (cooldowns t) (digests t) (announced t).
Definition set_watchers (t : IncTables) x := mkIncTables (incidents t) (occurrences t) (reports t) (comments t) x (cooldowns t) (digests t) (announced t).
Definition set_cooldowns (t : IncTables) x := mkIncTables (incidents t) (occurrences t) (reports t) (comments t) (watchers t) x (digests t) (announced t).
Definition set_digests (t : IncTables) x := mkIncTables (incidents t) (occurrences t) (reports t) (comments t) (watchers t) (cooldowns t) x (announced t).
Definition announce (t : IncTables) a := mkIncTables (incidents t) (occurrences t) (reports t) (comments t) (watchers t) (cooldowns t) (digests t) (announced t ++ [a]).

(** ** Rows and values *)

Definition whole (t : Z) : Z := t - t mod Time.Second.
Definition millis (t : Z) : Z := t - t mod Time.Millisecond.

Definition text (value : string) : option string := if blank value then None else Some value.
Definition plain (value : option string) : string := default "" value.
Definition jsonBytes (value : option string) : string := Utf8.TrimSpace (plain value).

Definition incident_of (id : Z) (m : incidentModel) : Incident :=
  mkIncident id (im_PublicCode m) (im_Fingerprint m) (im_OpenFingerprint m) (im_Source m) (im_Status m) (im_Severity m) (im_Visibility m)
    (im_Title m) (plain (im_Description m)) (plain (im_AffectedModule m)) (plain (im_AffectedRoute m)) (plain (im_Environment m))
    (plain (im_ErrorClass m)) (plain (im_ErrorCode m)) (plain (im_ErrorMessageSample m)) (plain (im_StacktraceSample m)) (im_FirstSeenAt m)
    (im_LastSeenAt m) (im_OccurrenceCount m) (im_ReportCount m) (im_CommentCount m) (im_ReporterUserID m) (im_AssignedToUserID m)
    (im_ExternalTicketProvider m) (plain (im_ExternalTicketID m)) (plain (im_ExternalTicketURL m)) (im_DuplicateOfIncidentID m)
    (plain (im_ResolutionSummary m)) (im_ResolvedAt m) (im_CreatedAt m) (im_UpdatedAt m) None None.

Definition modelOf (i : Incident) : incidentModel :=
  mkIncidentModel (in_PublicCode i) (in_Fingerprint i) (in_OpenFingerprint i) (in_Source i) (in_Status i) (in_Severity i) (in_Visibility i)
    (in_Title i) (text (in_Description i)) (text (in_AffectedModule i)) (text (in_AffectedRoute i)) (text (in_Environment i))
    (text (in_ErrorClass i)) (text (in_ErrorCode i)) (text (in_ErrorMessageSample i)) (text (in_StacktraceSample i)) (whole (in_FirstSeenAt i))
    (whole (in_LastSeenAt i)) (in_OccurrenceCount i) (in_ReportCount i) (in_CommentCount i) (in_ReporterUserID i) (in_AssignedToUserID i)
    (in_ExternalTicketProvider i) (text (in_ExternalTicketID i)) (text (in_ExternalTicketURL i)) (in_DuplicateOfIncidentID i)
    (text (in_ResolutionSummary i)) (whole <$> in_ResolvedAt i) (whole (in_CreatedAt i)) (whole (in_UpdatedAt i)).

Definition reportModelOf (r : Report) : reportModel :=
  mkReportModel (re_IncidentID r) (re_ReportedByUserID r) (re_ReportType r) (re_Status r) (re_Title r) (re_Description r)
    (text (re_StepsToReproduce r)) (text (re_ExpectedResult r)) (text (re_ActualResult r)) (re_Severity r) (text (re_AffectedModule r))
    (text (re_PageURL r)) (text (re_BrowserInfo r)) (text (re_AppVersion r)) (text (re_FrontendErrorMessage r)) (text (re_FrontendStacktrace r))
    (text (re_AttachmentJSON r)) (text (re_ExtraJSON r)) (whole (re_CreatedAt r)) (whole (re_UpdatedAt r)).

Definition report_of (id : Z) (m : reportModel) : Report :=
  mkReport id (rm_IncidentID m) (rm_ReportedByUserID m) (rm_ReportType m) (rm_Status m) (rm_Title m) (rm_Description m)
    (plain (rm_StepsToReproduce m)) (plain (rm_ExpectedResult m)) (plain (rm_ActualResult m)) (rm_Severity m) (plain (rm_AffectedModule m))
    (plain (rm_PageURL m)) (plain (rm_BrowserInfo m)) (plain (rm_AppVersion m)) (plain (rm_FrontendErrorMessage m))
    (plain (rm_FrontendStacktrace m)) (jsonBytes (rm_AttachmentJSON m)) (jsonBytes (rm_ExtraJSON m)) (rm_CreatedAt m) (rm_UpdatedAt m) None.

Definition comment_of (id : Z) (m : commentModel) : Comment :=
  mkComment id (cm_IncidentID m) (cm_AuthorUserID m) (cm_Visibility m) (cm_Body m) (cm_EditedAt m) (cm_DeletedAt m) (cm_CreatedAt m) (cm_UpdatedAt m) None.
Definition commentModelOf (c : Comment) : commentModel :=
  mkCommentModel (co_IncidentID c) (co_AuthorUserID c) (co_Visibility c) (co_Body c) (whole <$> co_EditedAt c) (whole <$> co_DeletedAt c)
    (whole (co_CreatedAt c)) (whole (co_UpdatedAt c)).

Definition occurrence_of (id : Z) (m : occurrenceModel) : Occurrence :=
  mkOccurrence id (om_IncidentID m) (om_Fingerprint m) (om_Environment m) (plain (om_AffectedModule m)) (plain (om_AffectedRoute m))
    (plain (om_RequestMethod m)) (om_UserID m) (om_TenantID m) (plain (om_IPAddress m)) (plain (om_RequestID m)) (plain (om_ErrorClass m))
    (plain (om_ErrorCode m)) (om_Message m) (plain (om_NormalizedMessage m)) (plain (om_Stacktrace m)) (plain (om_ContextJSON m))
    (plain (om_RequestJSON m)) (om_OccurredAt m) (om_CreatedAt m) None.
Definition occurrenceModelOf (o : Occurrence) : occurrenceModel :=
  mkOccurrenceModel (oc_IncidentID o) (oc_Fingerprint o) (oc_Environment o) (text (oc_AffectedModule o)) (text (oc_AffectedRoute o))
    (text (oc_RequestMethod o)) (oc_UserID o) (oc_TenantID o) (text (oc_IPAddress o)) (text (oc_RequestID o)) (text (oc_ErrorClass o))
    (text (oc_ErrorCode o)) (oc_Message o) (text (oc_NormalizedMessage o)) (text (oc_Stacktrace o)) (text (oc_ContextJSON o))
    (text (oc_RequestJSON o)) (whole (oc_OccurredAt o)) (whole (oc_CreatedAt o)).

(** ** The constraints of the incidents table *)

Definition duplicateEntry : error := errorf "Duplicate entry" [errNew ErrDuplicatedKey].
Definition noParentRow : error := errNew "Cannot add or update a child row: a foreign key constraint fails".
Definition dataTooLong : error := errNew "Data too long for column".

Definition width (limit : Z) (v : option string) : bool := Utf8.RuneCount (plain v) <=? limit.

Definition columns_fit (m : incidentModel) : bool :=
  width 32 (Some (im_PublicCode m)) && width 255 (Some (im_Title m)) && width 100 (im_AffectedModule m) && width 255 (im_AffectedRoute m) &&
  width 50 (im_Environment m) && width 255 (im_ErrorClass m) && width 100 (im_ErrorCode m) && width 100 (im_ExternalTicketID m) &&
  width 500 (im_ExternalTicketURL m).

(** Another row has the public code, or the open fingerprint. *)
Definition clashes (m : incidentModel) (self other : Z) (row : incidentModel) : bool :=
  negb (other =? self) &&
  (bool_decide (im_PublicCode row = im_PublicCode m) || (bool_decide (im_OpenFingerprint m ≠ None) && bool_decide (im_OpenFingerprint row = im_OpenFingerprint m))).

Definition violation (t : IncTables) (self : Z) (m : incidentModel) : option error :=
  if negb (columns_fit m) then Some dataTooLong
  else if bool_decide (ids_where (incidents t) (clashes m self) ≠ []) then Some duplicateEntry
  else match im_DuplicateOfIncidentID m with
       | Some d => if (d =? self) || bool_decide (is_Some (ro_rows (incidents t) !! d)) then None else Some noParentRow
       | None => None
       end.

(** ** The store (gormstore.go) *)

Definition maxList : nat := 1000.

(** Who sees an incident: [visible]. *)
Definition visible (t : IncTables) (who : Viewer) (id : Z) (m : incidentModel) : bool :=
  vw_Staff who ||
  ((0 <? vw_UserID who) && bool_decide (im_Visibility m = VisibilityShared) &&
   (bool_decide (im_ReporterUserID m = Some (vw_UserID who)) ||
    bool_decide (ids_where (reports t) (λ _ r, bool_decide (rm_IncidentID r = Some id) && (rm_ReportedByUserID r =? vw_UserID who)) ≠ []) ||
    bool_decide (is_Some (watchers t !! (id, vw_UserID who))))).

Section Store.
Variables (mysqlNumber : error → option Z) (ToLower : string → string).
Variable out : Outside.
Notation M := (stM (Env IncTables) error).

Definition isConflict (err : error) : bool :=
  let lower := ToLower (error_text err) in
  Contains lower "deadlock found" || Contains lower "lock wait timeout" || Contains lower "database is locked" ||
  Contains lower "database table is locked".

Definition failed (what : string) (err : error) : error :=
  if isConflict err then errorf (what +:+ ": " +:+ ErrConflict +:+ ": " +:+ error_text err) [errNew ErrConflict; err] else wrapped what err.

(** A statement that the constraints may refuse. *)
Definition checked {A} (f : IncTables → result (A * IncTables)) : M A :=
  r ← statement out (λ t, match f t with Ok (a, t') => (Ok a, t') | Err err => (Err err, t) end);
  lift r.

Definition byID (id : Z) : string := Str.fmt_d id.

Definition store_Find (id : Z) (who : Viewer) : M Incident :=
  row ← wrapping ("read incident " +:+ byID id) (query out (λ t,
    match ro_rows (incidents t) !! id with Some m => if visible t who id m then Some m else None | None => None end));
  match row with Some m => mret (incident_of id m) | None => throw (errNew ErrNotFound) end.

Definition reports_of (t : IncTables) (id : Z) (who : Viewer) : list Report :=
  let rows := (λ i, (i, ro_rows (reports t) !! i)) <$> ids_where (reports t) (λ _ r,
    bool_decide (rm_IncidentID r = Some id) && (vw_Staff who || (rm_ReportedByUserID r =? vw_UserID who))) in
  take maxList (stable_sort (λ a b, re_CreatedAt a <=? re_CreatedAt b) (omap (λ ir, report_of ir.1 <$> ir.2) rows)).

Definition comments_of (t : IncTables) (id : Z) (who : Viewer) : list Comment :=
  let rows := (λ i, (i, ro_rows (comments t) !! i)) <$> ids_where (comments t) (λ _ c,
    (cm_IncidentID c =? id) && bool_decide (cm_DeletedAt c = None) && (vw_Staff who || bool_decide (cm_Visibility c = CommentPublic))) in
  take maxList (stable_sort (λ a b, co_CreatedAt a <=? co_CreatedAt b) (omap (λ ic, comment_of ic.1 <$> ic.2) rows)).

Definition store_Reports (id : Z) (who : Viewer) : M (list Report) :=
  wrapping ("list reports of incident " +:+ byID id) (query out (λ t, reports_of t id who)).
Definition store_Comments (id : Z) (who : Viewer) : M (list Comment) :=
  wrapping ("list comments of incident " +:+ byID id) (query out (λ t, comments_of t id who)).

Definition Watching (id userID : Z) : M bool :=
  wrapping ("read watcher of incident " +:+ byID id) (query out (λ t, bool_decide (is_Some (watchers t !! (id, userID))))).

(** [byFingerprint] of the ids a query selects, in its order. *)
Definition byFingerprint (select : IncTables → list Z) : M Incident :=
  row ← wrapping "find incident by fingerprint" (query out (λ t,
    id ← head (select t); m ← ro_rows (incidents t) !! id; Some (id, m)));
  match row with Some (id, m) => mret (incident_of id m) | None => throw (errNew ErrNotFound) end.

Definition FindOpen (fingerprint : string) : M Incident :=
  byFingerprint (λ t, ids_where (incidents t) (λ _ m, bool_decide (im_OpenFingerprint m = Some fingerprint))).

(** Last seen first, then the newest id. *)
Definition latest_first (t : IncTables) (a b : Z) : bool :=
  let seen i := default 0 (im_LastSeenAt <$> ro_rows (incidents t) !! i) in (seen b <? seen a) || ((seen a =? seen b) && (b <=? a)).

Definition FindLatest (fingerprint : string) : M Incident :=
  byFingerprint (λ t, stable_sort (latest_first t) (ids_where (incidents t) (λ _ m, bool_decide (im_Fingerprint m = fingerprint)))).

Definition createFailedAs (err : error) : error :=
  if IsDuplicateKey mysqlNumber ToLower err then errorf ("create incident: " +:+ ErrDuplicate) [errNew ErrDuplicate] else failed "create incident" err.

(** The id of the new row. *)
Definition CreateIncident (i : Incident) : M Z :=
  mapErr createFailedAs (checked (λ t,
    let id := ro_next (incidents t) in
    match violation t id (modelOf i) with
    | Some err => Err err
    | None => Ok (id, set_incidents t (insert_row (incidents t) (modelOf i)))
    end)).

(** Every column but the creation time. *)
Definition rewritten (m old : incidentModel) : incidentModel :=
  mkIncidentModel (im_PublicCode m) (im_Fingerprint m) (im_OpenFingerprint m) (im_Source m) (im_Status m) (im_Severity m) (im_Visibility m)
    (im_Title m) (im_Description m) (im_AffectedModule m) (im_AffectedRoute m) (im_Environment m) (im_ErrorClass m) (im_ErrorCode m)
    (im_ErrorMessageSample m) (im_StacktraceSample m) (im_FirstSeenAt m) (im_LastSeenAt m) (im_OccurrenceCount m) (im_ReportCount m)
    (im_CommentCount m) (im_ReporterUserID m) (im_AssignedToUserID m) (im_ExternalTicketProvider m) (im_ExternalTicketID m)
    (im_ExternalTicketURL m) (im_DuplicateOfIncidentID m) (im_ResolutionSummary m) (im_ResolvedAt m) (im_CreatedAt old) (im_UpdatedAt m).

Definition UpdateIncident (i : Incident) : M () :=
  mapErr (failed ("update incident " +:+ byID (in_ID i))) (checked (λ t,
    if bool_decide (is_Some (ro_rows (incidents t) !! in_ID i))
    then match violation t (in_ID i) (modelOf i) with
         | Some err => Err err
         | None => Ok ((), set_incidents t (alter_row (rewritten (modelOf i)) (in_ID i) (incidents t)))
         end
    else Ok ((), t))).

Definition CreateReport (r : Report) : M () :=
  mapErr (failed "create report") (exec out (λ t, set_reports t (insert_row (reports t) (reportModelOf r)))).

(** The id of the new row. *)
Definition CreateComment (c : Comment) : M Z :=
  mapErr (failed "create comment") (statement out (λ t, (ro_next (comments t), set_comments t (insert_row (comments t) (commentModelOf c))))).

Definition CreateOccurrence (o : Occurrence) : M () :=
  mapErr (failed "create occurrence") (exec out (λ t, set_occurrences t (insert_row (occurrences t) (occurrenceModelOf o)))).

Definition bump (id : Z) (f : incidentModel → incidentModel) : M () :=
  mapErr (failed ("update counts of incident " +:+ byID id)) (checked (λ t,
    match ro_rows (incidents t) !! id with
    | Some m => if columns_fit (f m) then Ok ((), set_incidents t (alter_row f id (incidents t))) else Err dataTooLong
    | None => Ok ((), t)
    end)).

Definition comment_counted (at_ : Z) (m : incidentModel) : incidentModel :=
  mkIncidentModel (im_PublicCode m) (im_Fingerprint m) (im_OpenFingerprint m) (im_Source m) (im_Status m) (im_Severity m) (im_Visibility m)
    (im_Title m) (im_Description m) (im_AffectedModule m) (im_AffectedRoute m) (im_Environment m) (im_ErrorClass m) (im_ErrorCode m)
    (im_ErrorMessageSample m) (im_StacktraceSample m) (im_FirstSeenAt m) (im_LastSeenAt m) (im_OccurrenceCount m) (im_ReportCount m)
    (im_CommentCount m + 1) (im_ReporterUserID m) (im_AssignedToUserID m) (im_ExternalTicketProvider m) (im_ExternalTicketID m)
    (im_ExternalTicketURL m) (im_DuplicateOfIncidentID m) (im_ResolutionSummary m) (im_ResolvedAt m) (im_CreatedAt m) (whole at_).

Definition CountComment (id at_ : Z) : M () := bump id (comment_counted at_).

(** The reporter is kept when there is one (COALESCE). *)
Definition report_counted (source visibility : string) (reporterID : option Z) (at_ : Z) (m : incidentModel) : incidentModel :=
  mkIncidentModel (im_PublicCode m) (im_Fingerprint m) (im_OpenFingerprint m) source (im_Status m) (im_Severity m) visibility
    (im_Title m) (im_Description m) (im_AffectedModule m) (im_AffectedRoute m) (im_Environment m) (im_ErrorClass m) (im_ErrorCode m)
    (im_ErrorMessageSample m) (im_StacktraceSample m) (im_FirstSeenAt m) (whole at_) (im_OccurrenceCount m) (im_ReportCount m + 1)
    (im_CommentCount m) (match im_ReporterUserID m with Some r => Some r | None => reporterID end) (im_AssignedToUserID m)
    (im_ExternalTicketProvider m) (im_ExternalTicketID m) (im_ExternalTicketURL m) (im_DuplicateOfIncidentID m) (im_ResolutionSummary m)
    (im_ResolvedAt m) (im_CreatedAt m) (whole at_).

Definition CountReport (id : Z) (source visibility : string) (reporterID : option Z) (at_ : Z) : M () :=
  bump id (report_counted source visibility reporterID at_).

(** A sample that is empty leaves what there is. *)
Definition sampled (value : string) (old : option string) : option string := if given value then Some value else old.

Definition occurrence_counted (source : string) (at_ : Z) (sample : Occurrence) (m : incidentModel) : incidentModel :=
  mkIncidentModel (im_PublicCode m) (im_Fingerprint m) (im_OpenFingerprint m) source (im_Status m) (im_Severity m) (im_Visibility m)
    (im_Title m) (im_Description m) (sampled (oc_AffectedModule sample) (im_AffectedModule m)) (sampled (oc_AffectedRoute sample) (im_AffectedRoute m))
    (sampled (oc_Environment sample) (im_Environment m)) (text (oc_ErrorClass sample)) (text (oc_ErrorCode sample)) (text (oc_Message sample))
    (text (oc_Stacktrace sample)) (im_FirstSeenAt m) (whole at_) (im_OccurrenceCount m + 1) (im_ReportCount m) (im_CommentCount m)
    (im_ReporterUserID m) (im_AssignedToUserID m) (im_ExternalTicketProvider m) (im_ExternalTicketID m) (im_ExternalTicketURL m)
    (im_DuplicateOfIncidentID m) (im_ResolutionSummary m) (im_ResolvedAt m) (im_CreatedAt m) (whole at_).

Definition CountOccurrence (id : Z) (source : string) (at_ : Z) (sample : Occurrence) : M () := bump id (occurrence_counted source at_ sample).

Definition Watch (id userID at_ : Z) : M () :=
  if userID <=? 0 then mret () else
  mapErr (failed ("watch incident " +:+ byID id)) (exec out (λ t,
    set_watchers t (if bool_decide (is_Some (watchers t !! (id, userID))) then watchers t else <[(id, userID) := whole at_]> (watchers t)))).

(** The newest occurrence of each incident: no other of it has a higher id. *)
Definition newest (t : IncTables) (id : Z) (o : occurrenceModel) : bool :=
  bool_decide (ids_where (occurrences t) (λ id' o', (om_IncidentID o' =? om_IncidentID o) && (id <? id')) = []).

Definition PruneOccurrences (before : Z) (limit : nat) : M nat :=
  ids ← wrapping "select old occurrences" (query out (λ t,
    take limit (ids_where (occurrences t) (λ id o, (om_OccurredAt o <? whole before) && negb (newest t id o)))));
  match ids with
  | [] => mret 0%nat
  | _ => wrapping "delete old occurrences" (statement out (λ t,
           (length (ids_where (occurrences t) (λ id _, contains ids id)), set_occurrences t (without_rows ids (occurrences t)))))
  end.

(** ** Alerts (alerts.go) *)

Definition LastAlert (tier : string) : M (option Z) := wrapping ("read alert cooldown of " +:+ tier) (query out (λ t, cooldowns t !! tier)).

Definition StampAlert (tier : string) (at_ : Z) : M () :=
  wrapping ("stamp alert cooldown of " +:+ tier) (exec out (λ t, set_cooldowns t (<[tier := millis at_]> (cooldowns t)))).

Definition waiting (d : digestModel) : bool := bool_decide (dm_DigestedAt d = None).

Definition QueueDigest (item : DigestItem) : M () :=
  n ← wrapping "read digest queue" (query out (λ t, length (ids_where (digests t) (λ _ d, (dm_IncidentID d =? di_IncidentID item) && waiting d))));
  if (0 <? n)%nat then mret () else
  mapErr (failed "queue digest item") (exec out (λ t, set_digests t (insert_row (digests t)
    (mkDigestModel (di_IncidentID item) (di_PublicCode item) (di_Title item) (di_Severity item) (millis (di_CreatedAt item)) None)))).

Definition digest_item (id : Z) (d : digestModel) : DigestItem :=
  mkDigestItem id (dm_IncidentID d) (dm_PublicCode d) (dm_Title d) (dm_Severity d) (dm_CreatedAt d).

Definition claimed (when : Z) (d : digestModel) : digestModel :=
  if waiting d then mkDigestModel (dm_IncidentID d) (dm_PublicCode d) (dm_Title d) (dm_Severity d) (dm_CreatedAt d) (Some (millis when)) else d.

Definition ClaimDigest (when : Z) (limit : nat) : M (list DigestItem) :=
  rows ← wrapping "read digest queue" (query out (λ t,
    omap (λ id, (id,.) <$> ro_rows (digests t) !! id) (take limit (ids_where (digests t) (λ _ d, waiting d)))));
  match rows with
  | [] => mret []
  | _ => _ ← wrapping "claim digest items" (exec out (λ t,
           set_digests t (mkRows (map_imap (λ id d, Some (if contains rows.*1 id then claimed when d else d)) (ro_rows (digests t))) (ro_next (digests t)))));
         mret ((λ r, digest_item r.1 r.2) <$> rows)
  end.

Definition PruneDigest (before : Z) (limit : nat) : M nat :=
  ids ← wrapping "select old digest items" (query out (λ t,
    take limit (ids_where (digests t) (λ _ d, match dm_DigestedAt d with Some at_ => at_ <? millis before | None => false end))));
  match ids with
  | [] => mret 0%nat
  | _ => wrapping "delete old digest items" (statement out (λ t,
           (length (ids_where (digests t) (λ id _, contains ids id)), set_digests t (without_rows ids (digests t)))))
  end.
End Store.
