(* ===== verification/Incidents.v ===== *)
(** * Incidents (src/incident/core: service.go, write.go, capture.go)

    Showing, reporting, commenting, changing and capturing incidents over the store of
    [IncidentStore]. A pointer that is filled in is a value that is given back. The
    people directory and the random text of a public code are asked outside. *)

From Stdlib Require Import Ascii.
From S2P Require Import Prelude Clock Apperr SignIn Lease Sql Rows IncidentText IncidentStore.

Local Open Scope Z_scope.

Record Detail : Type := mkDetail { de_Incident : Incident; de_Reports : list Report; de_Comments : list Comment; de_Watching : bool }.

Record Failure : Type := mkFailure {
  fl_Source : string; fl_Severity : string; fl_Message : string; fl_ErrorClass : string; fl_ErrorCode : string; fl_Stacktrace : string;
  fl_AffectedModule : string; fl_AffectedRoute : string; fl_RequestMethod : string; fl_UserID : option Z; fl_TenantID : option Z;
  fl_IPAddress : string; fl_RequestID : string; fl_Environment : string; fl_Signature : string; fl_ContextJSON : string; fl_RequestJSON : string
}.

(** What an occurrence of a browser error says of its surroundings. *)
Record ClientContext : Type := mkClientContext {
  cx_Route : string; cx_Browser : string; cx_AppVersion : string; cx_RequestIDs : list string; cx_Source : option string; cx_Detail : option string
}.

Definition publicCodeBytes : Z := 6.
Definition maxAttempts : nat := 5.

Definition lostRace (err : error) : bool := errors_Is err ErrDuplicate || errors_Is err ErrConflict.
Definition contextEnded : error := errNew "context canceled".

Definition notFound (err : error) : error := if errors_Is err ErrNotFound then NotFound "incident not found" else Internal err.
Definition createFailed (err : error) : error := if errors_Is err ErrDuplicate then err else Internal err.
Definition badID : error := BadRequest "invalid incident id".

(** ** Changes of an incident *)

Definition with_people (i : Incident) (reporter assignee : option Person) : Incident :=
  mkIncident (in_ID i) (in_PublicCode i) (in_Fingerprint i) (in_OpenFingerprint i) (in_Source i) (in_Status i) (in_Severity i) (in_Visibility i)
    (in_Title i) (in_Description i) (in_AffectedModule i) (in_AffectedRoute i) (in_Environment i) (in_ErrorClass i) (in_ErrorCode i)
    (in_ErrorMessageSample i) (in_StacktraceSample i) (in_FirstSeenAt i) (in_LastSeenAt i) (in_OccurrenceCount i) (in_ReportCount i)
    (in_CommentCount i) (in_ReporterUserID i) (in_AssignedToUserID i) (in_ExternalTicketProvider i) (in_ExternalTicketID i)
    (in_ExternalTicketURL i) (in_DuplicateOfIncidentID i) (in_ResolutionSummary i) (in_ResolvedAt i) (in_CreatedAt i) (in_UpdatedAt i) reporter assignee.

(** The fields a change touches: source, visibility, state, severity, times, people and ticket. *)
Definition changed_incident (i : Incident) (open : option string) (source status severity visibility : string) (lastSeen : Z)
    (assigned duplicate : option Z) (summary provider ticket url : string) (resolved : option Z) (updated : Z) : Incident :=
  mkIncident (in_ID i) (in_PublicCode i) (in_Fingerprint i) open source status severity visibility (in_Title i) (in_Description i)
    (in_AffectedModule i) (in_AffectedRoute i) (in_Environment i) (in_ErrorClass i) (in_ErrorCode i) (in_ErrorMessageSample i)
    (in_StacktraceSample i) (in_FirstSeenAt i) lastSeen (in_OccurrenceCount i) (in_ReportCount i) (in_CommentCount i) (in_ReporterUserID i)
    assigned provider ticket url duplicate summary resolved (in_CreatedAt i) updated (in_Reporter i) (in_Assignee i).

Definition seen_from (i : Incident) (source visibility : string) : Incident :=
  changed_incident i (in_OpenFingerprint i) (Merge (in_Source i) source) (in_Status i) (in_Severity i) visibility (in_LastSeenAt i)
    (in_AssignedToUserID i) (in_DuplicateOfIncidentID i) (in_ResolutionSummary i) (in_ExternalTicketProvider i) (in_ExternalTicketID i)
    (in_ExternalTicketURL i) (in_ResolvedAt i) (in_UpdatedAt i).

Definition reopen (i : Incident) (key : string) (now : Z) : Incident :=
  changed_incident i (Some key) (in_Source i) StatusNew (in_Severity i) (in_Visibility i) now (in_AssignedToUserID i) (in_DuplicateOfIncidentID i)
    (in_ResolutionSummary i) (in_ExternalTicketProvider i) (in_ExternalTicketID i) (in_ExternalTicketURL i) None now.

(** [setStatus]: the open fingerprint and the time of resolution. *)
Definition setStatus (i : Incident) (status : string) (now : Z) : string * option string * option Z :=
  if IsOpen status then (status, Some (in_Fingerprint i), None)
  else (status, None, if bool_decide (status = StatusResolved) then Some now else in_ResolvedAt i).

(** [setTicket]: provider, id and URL. *)
Definition setTicket (i : Incident) (inp : UpdateInput) : string * string * string :=
  let provider := if given (ui_ExternalTicketProvider inp) then ui_ExternalTicketProvider inp else in_ExternalTicketProvider i in
  if bool_decide (ui_ExternalTicketProvider inp = TicketProviderNone) then (provider, "", "")
  else (provider, if given (ui_ExternalTicketID inp) then ui_ExternalTicketID inp else in_ExternalTicketID i,
        if given (ui_ExternalTicketURL inp) then ui_ExternalTicketURL inp else in_ExternalTicketURL i).

Definition positive (given_ old : option Z) : option Z :=
  match given_ with None => old | Some id => if id <=? 0 then None else Some id end.

Definition apply (i : Incident) (inp : UpdateInput) (now : Z) : Incident :=
  let '(status, open, resolved) := if given (ui_Status inp) then setStatus i (ui_Status inp) now else (in_Status i, in_OpenFingerprint i, in_ResolvedAt i) in
  let '(provider, ticket, url) := setTicket i inp in
  changed_incident i open (in_Source i) status (if given (ui_Severity inp) then ui_Severity inp else in_Severity i)
    (if given (ui_Visibility inp) then ui_Visibility inp else in_Visibility i) (in_LastSeenAt i)
    (positive (ui_AssignedToUserID inp) (in_AssignedToUserID i)) (positive (ui_DuplicateOfIncidentID inp) (in_DuplicateOfIncidentID i))
    (if given (ui_ResolutionSummary inp) then ui_ResolutionSummary inp else in_ResolutionSummary i) provider ticket url resolved now.

(** ** Failures (capture.go) *)

Fixpoint topFrame_loop (lines : list string) : string :=
  match lines with
  | [] => ""
  | line :: rest => let line := Utf8.TrimSpace line in if String.prefix "at " line || Contains line "@" then line else topFrame_loop rest
  end.
Definition newline : ascii := ascii_of_nat 10.
Definition topFrame (stack : string) : string := topFrame_loop (Str.split newline stack).
Definition firstLine (t : string) : string := (Str.cut newline (Utf8.TrimSpace t)).1.1.

Definition title (f : Failure) : string :=
  if bool_decide (fl_Source f = SourceClientError) then "Browser error: " +:+ clip (firstLine (fl_Message f)) snippetMax
  else if given (fl_ErrorClass f) && given (fl_AffectedModule f) then clip (fl_ErrorClass f +:+ " error in " +:+ fl_AffectedModule f) TitleMax
  else if given (fl_ErrorClass f) then clip (fl_ErrorClass f +:+ " error") TitleMax
  else if given (fl_AffectedModule f) then clip ("Unhandled error in " +:+ fl_AffectedModule f) TitleMax
  else "Unhandled server error".

Definition severity (f : Failure) : string :=
  if severity_Valid (fl_Severity f) then fl_Severity f
  else if bool_decide (fl_Source f = SourceClientError) then SeverityLow else SeverityHigh.

(** The environment a service is made with. *)
Definition New_env (configured : string) : string := let env := clean configured envMax in if given env then env else "unknown".

Section Service.
Variables (mysqlNumber : error → option Z) (ToLower sha256_hex : string → string) (json_Valid : string → bool).
Variable out : Outside.
(** The people directory, the random digits of a public code, the JSON of a context. *)
Variable (people : nat → list Z → result (list Person)) (random : nat → result string) (Marshal : ClientContext → result string).
Variable env : string.
Notation M := (stM (Env IncTables) error).
Notation UpdateIncident := (UpdateIncident ToLower out).
Notation CreateIncident := (CreateIncident mysqlNumber ToLower out).

Definition now_ : M Z := t ← Now out; mret (whole t).
Definition ended : M bool := λ e, let (b, e') := Done out e in (Ok b, e').

(** [transact]: the rounds left, and the error of the last one. *)
Fixpoint transact_loop {A} (rounds : nat) (last : error) (work : M A) : M A :=
  match rounds with
  | O => throw (Internal (wrapped ("incident: gave up after " +:+ Str.fmt_d (Z.of_nat maxAttempts) +:+ " attempts") last))
  | S rounds' =>
      r ← attempt (Transaction out work);
      match r with
      | Ok a => mret a
      | Err err =>
          if lostRace err
          then gone ← ended; if (gone : bool) then throw (wrapped "incident" contextEnded) else transact_loop rounds' err work
          else throw (wrapped "incident" err)
      end
  end.
Definition transact {A} (work : M A) : M A := transact_loop maxAttempts contextEnded work.

Definition signedIn (who : Viewer) : M Z := if vw_UserID who <=? 0 then throw (Unauthorized "not authenticated") else mret (vw_UserID who).

(** ** Reading (service.go) *)

Definition unique_ids (ids : list Z) : list Z := foldl (λ u id, if (0 <? id) && negb (contains u id) then u ++ [id] else u) [] ids.

Definition names (ids : list Z) : M (gmap Z Person) :=
  match unique_ids ids with
  | [] => mret ∅
  | unique => ps ← mapErr (λ err, Internal (wrapped "incident: look up people" err)) (ask (λ n, people n unique));
              mret (foldl (λ m p, <[pe_ID p := p]> m) ∅ ps)
  end.

Definition opt_list (o : option Z) : list Z := match o with Some z => [z] | None => [] end.
Definition personIDs (i : Incident) : list Z := opt_list (in_ReporterUserID i) ++ opt_list (in_AssignedToUserID i).
Definition named (ps : gmap Z Person) (i : Incident) : Incident :=
  with_people i (match in_ReporterUserID i with Some id => ps !! id | None => in_Reporter i end)
    (match in_AssignedToUserID i with Some id => ps !! id | None => in_Assignee i end).
Definition reporter_named (ps : gmap Z Person) (r : Report) : Report :=
  mkReport (re_ID r) (re_IncidentID r) (re_ReportedByUserID r) (re_ReportType r) (re_Status r) (re_Title r) (re_Description r)
    (re_StepsToReproduce r) (re_ExpectedResult r) (re_ActualResult r) (re_Severity r) (re_AffectedModule r) (re_PageURL r) (re_BrowserInfo r)
    (re_AppVersion r) (re_FrontendErrorMessage r) (re_FrontendStacktrace r) (re_AttachmentJSON r) (re_ExtraJSON r) (re_CreatedAt r)
    (re_UpdatedAt r) (ps !! re_ReportedByUserID r).
Definition author_named (ps : gmap Z Person) (c : Comment) : Comment :=
  mkComment (co_ID c) (co_IncidentID c) (co_AuthorUserID c) (co_Visibility c) (co_Body c) (co_EditedAt c) (co_DeletedAt c) (co_CreatedAt c)
    (co_UpdatedAt c) (ps !! co_AuthorUserID c).

Definition name_ (d : Detail) : M Detail :=
  ps ← names (personIDs (de_Incident d) ++ (re_ReportedByUserID <$> de_Reports d) ++ (co_AuthorUserID <$> de_Comments d));
  mret (mkDetail (named ps (de_Incident d)) (reporter_named ps <$> de_Reports d) (author_named ps <$> de_Comments d) (de_Watching d)).

Definition Show (id : Z) (who : Viewer) : M Detail :=
  if id <=? 0 then throw badID else
  i ← mapErr notFound (store_Find out id who);
  rs ← mapErr Internal (store_Reports out id who);
  cs ← mapErr Internal (store_Comments out id who);
  d ← name_ (mkDetail i rs cs false);
  if 0 <? vw_UserID who
  then w ← mapErr Internal (Watching out id (vw_UserID who)); mret (mkDetail (de_Incident d) (de_Reports d) (de_Comments d) w)
  else mret d.

Definition Comments (id : Z) (who : Viewer) : M (list Comment) :=
  if id <=? 0 then throw badID else
  _ ← mapErr notFound (store_Find out id who);
  cs ← mapErr Internal (store_Comments out id who);
  ps ← names (co_AuthorUserID <$> cs);
  mret (author_named ps <$> cs).

(** ** Reports (write.go) *)

Definition publicCode : M string :=
  digits ← mapErr (wrapped "generate public incident code") (ask random); mret ("INC-" +:+ digits).

Definition openedOf (i : Incident) : NewIncident := mkNewIncident (in_ID i) (in_PublicCode i) (in_Title i) (in_Severity i) (in_Source i).

(** The [Opened] hook: [publishOpened] of alerts.go. *)
Definition opened (n : NewIncident) : M () := wrapping "incident: queue the alert" (exec out (λ t, announce t (AOpened n))).

Definition watch (id person at_ : Z) : M () := mapErr Internal (Watch ToLower out id person at_).

Definition with_ID (i : Incident) (id : Z) : Incident :=
  mkIncident id (in_PublicCode i) (in_Fingerprint i) (in_OpenFingerprint i) (in_Source i) (in_Status i) (in_Severity i) (in_Visibility i)
    (in_Title i) (in_Description i) (in_AffectedModule i) (in_AffectedRoute i) (in_Environment i) (in_ErrorClass i) (in_ErrorCode i)
    (in_ErrorMessageSample i) (in_StacktraceSample i) (in_FirstSeenAt i) (in_LastSeenAt i) (in_OccurrenceCount i) (in_ReportCount i)
    (in_CommentCount i) (in_ReporterUserID i) (in_AssignedToUserID i) (in_ExternalTicketProvider i) (in_ExternalTicketID i)
    (in_ExternalTicketURL i) (in_DuplicateOfIncidentID i) (in_ResolutionSummary i) (in_ResolvedAt i) (in_CreatedAt i) (in_UpdatedAt i)
    (in_Reporter i) (in_Assignee i).

(** The incident of a report that has none. *)
Definition reported_incident (code key : string) (inp : ReportInput) (reporter now : Z) : Incident :=
  mkIncident 0 code key (Some key) SourceUserReport StatusNew (OrDefault (ri_Severity inp)) VisibilityShared (ri_Title inp) (ri_Description inp)
    (ri_AffectedModule inp) (ri_PageURL inp) "" "" "" (ri_FrontendErrorMessage inp) (ri_FrontendStacktrace inp) now now 0 1 0 (Some reporter)
    None TicketProviderNone "" "" None "" None now now None None.

(** The open incident, else the latest closed one, reopened, else what [create]
    makes; and whether it is new. *)
Definition grouped (key source : string) (visibility : Incident → string) (now : Z) (create : M Incident) : M (Incident * bool) :=
  found ← attempt (FindOpen out key);
  match found with
  | Ok i => mret (seen_from i source (visibility i), false)
  | Err err =>
      if negb (errors_Is err ErrNotFound) then throw (Internal err) else
      found ← attempt (FindLatest out key);
      match found with
      | Ok i =>
          let i := reopen (seen_from i source (visibility i)) key now in
          _ ← mapErr Internal (UpdateIncident i); mret (i, false)
      | Err err => if negb (errors_Is err ErrNotFound) then throw (Internal err) else i ← create; mret (i, true)
      end
  end.

Definition created (make : string → Incident) : M Incident :=
  code ← mapErr Internal publicCode;
  id ← mapErr createFailed (CreateIncident (make code));
  mret (with_ID (make code) id).

Definition reported (key : string) (inp : ReportInput) (reporter now : Z) : M Incident :=
  created (λ code, reported_incident code key inp reporter now).

Definition reportedIncident (key : string) (inp : ReportInput) (reporter now : Z) : M (Incident * bool) :=
  grouped key SourceUserReport (λ _, VisibilityShared) now (reported key inp reporter now).

Definition reportOf (id reporter : Z) (inp : ReportInput) (now : Z) : Report :=
  mkReport 0 (Some id) reporter "manual" "linked" (ri_Title inp) (ri_Description inp) (ri_StepsToReproduce inp) (ri_ExpectedResult inp)
    (ri_ActualResult inp) (OrDefault (ri_Severity inp)) (ri_AffectedModule inp) (ri_PageURL inp) (ri_BrowserInfo inp) (ri_AppVersion inp)
    (ri_FrontendErrorMessage inp) (ri_FrontendStacktrace inp) (ri_AttachmentJSON inp) (ri_ExtraJSON inp) now now None.

Definition report_key (inp : ReportInput) : string :=
  Fingerprint ToLower sha256_hex ["report"; ri_AffectedModule inp; ri_PageURL inp; ri_Title inp; ri_FrontendErrorMessage inp].

Definition fileReport (reporter : Z) (inp : ReportInput) : M Z :=
  now ← now_;
  r ← reportedIncident (report_key inp) inp reporter now;
  let (i, new) := r : Incident * bool in
  _ ← mapErr Internal (if new then opened (openedOf i) else CountReport ToLower out (in_ID i) (in_Source i) (in_Visibility i) (Some reporter) now);
  _ ← mapErr Internal (CreateReport ToLower out (reportOf (in_ID i) reporter inp now));
  _ ← watch (in_ID i) reporter now;
  mret (in_ID i).

Definition FileReport (who : Viewer) (inp : ReportInput) : M Detail :=
  reporter ← signedIn who;
  _ ← check_ (report_validate json_Valid inp);
  id ← transact (fileReport reporter (report_sanitize json_Valid inp));
  Show id who.

(** ** Comments and changes *)

Definition addComment (who : Viewer) (c : Comment) : M Comment :=
  _ ← wrapping "find the incident" (store_Find out (co_IncidentID c) who);
  now ← now_;
  let c := mkComment (co_ID c) (co_IncidentID c) (co_AuthorUserID c) (co_Visibility c) (co_Body c) (co_EditedAt c) (co_DeletedAt c) now now (co_Author c) in
  _ ← mapErr Internal (CountComment ToLower out (co_IncidentID c) now);
  id ← mapErr Internal (CreateComment ToLower out c);
  _ ← watch (co_IncidentID c) (co_AuthorUserID c) now;
  mret (mkComment id (co_IncidentID c) (co_AuthorUserID c) (co_Visibility c) (co_Body c) (co_EditedAt c) (co_DeletedAt c) now now (co_Author c)).

Definition AddComment (id : Z) (who : Viewer) (inp : CommentInput) : M Comment :=
  author ← signedIn who;
  if id <=? 0 then throw badID else
  _ ← check_ (comment_validate inp);
  let inp := comment_sanitize inp in
  let visibility := if vw_Staff who then ci_Visibility inp else CommentPublic in
  c ← mapErr (λ err, if errors_Is err ErrNotFound then NotFound "incident not found" else err)
        (transact (addComment who (mkComment 0 id author visibility (ci_Body inp) None None 0 0 None)));
  ps ← names [author];
  mret (author_named ps c).

Definition changing (id : Z) (who : Viewer) (inp : UpdateInput) : M () :=
  i ← wrapping "find the incident" (store_Find out id who);
  now ← now_;
  UpdateIncident (apply i inp now).

Definition Update (id : Z) (who : Viewer) (inp : UpdateInput) : M Detail :=
  _ ← signedIn who;
  if id <=? 0 then throw badID else
  _ ← check_ (update_validate inp);
  _ ← mapErr notFound (transact (changing id who (update_sanitize inp)));
  Show id who.

(** ** Captures (capture.go) *)

Definition normalized (f : Failure) : Failure :=
  let environment := clean (fl_Environment f) envMax in
  mkFailure (if given (fl_Source f) then fl_Source f else SourceRuntimeError) (fl_Severity f) (clean (fl_Message f) StackMax)
    (clean (fl_ErrorClass f) classMax) (clean (fl_ErrorCode f) codeMax) (clean (fl_Stacktrace f) StackMax) (clean (fl_AffectedModule f) ModuleMax)
    (clean (fl_AffectedRoute f) RouteMax) (clean (fl_RequestMethod f) methodMax) (fl_UserID f) (fl_TenantID f) (clean (fl_IPAddress f) addressMax)
    (clean (fl_RequestID f) requestIDMax) (if given environment then environment else env) (clean (fl_Signature f) StackMax)
    (jsonOr json_Valid (fl_ContextJSON f) "{}") (jsonOr json_Valid (fl_RequestJSON f) "{}").

Definition fingerprint (f : Failure) : string :=
  if bool_decide (fl_Source f = SourceClientError) then Fingerprint ToLower sha256_hex ["client"; fl_Message f; topFrame (fl_Stacktrace f)]
  else Fingerprint ToLower sha256_hex ["runtime"; fl_AffectedModule f; fl_AffectedRoute f; fl_ErrorClass f; fl_Message f;
         if given (fl_Signature f) then fl_Signature f else fl_Stacktrace f].

(** The incident of a failure that has none. *)
Definition opening_incident (code key : string) (f : Failure) (now : Z) : Incident :=
  mkIncident 0 code key (Some key) (fl_Source f) StatusNew (severity f) VisibilityInternal (title f) (fl_Message f) (fl_AffectedModule f)
    (fl_AffectedRoute f) (fl_Environment f) (fl_ErrorClass f) (fl_ErrorCode f) (fl_Message f) (fl_Stacktrace f) now now 1 0 0 None None
    TicketProviderNone "" "" None "" None now now None None.

Definition opening (key : string) (f : Failure) (now : Z) : M Incident := created (λ code, opening_incident code key f now).

Definition sighted (key : string) (f : Failure) (now : Z) : M (Incident * bool) :=
  grouped key (fl_Source f) in_Visibility now (opening key f now).

Definition occurrenceOf (id : Z) (key : string) (f : Failure) (now : Z) : Occurrence :=
  mkOccurrence 0 id key (fl_Environment f) (fl_AffectedModule f) (fl_AffectedRoute f) (fl_RequestMethod f) (fl_UserID f) (fl_TenantID f)
    (fl_IPAddress f) (fl_RequestID f) (fl_ErrorClass f) (fl_ErrorCode f) (fl_Message f) (clip (NormalizeText ToLower (fl_Message f)) StackMax)
    (fl_Stacktrace f) (fl_ContextJSON f) (fl_RequestJSON f) now now None.

Definition record (f : Failure) : M () :=
  now ← now_;
  r ← sighted (fingerprint f) f now;
  let (i, new) := r : Incident * bool in
  let o := occurrenceOf (in_ID i) (fingerprint f) f now in
  _ ← (if new then mret () else mapErr Internal (CountOccurrence ToLower out (in_ID i) (in_Source i) now o));
  _ ← mapErr Internal (CreateOccurrence ToLower out o);
  if new then mapErr Internal (opened (openedOf i)) else mret ().

Definition Capture (f : Failure) : M () := if blank (fl_Message f) then mret () else transact (record (normalized f)).

(** The ids kept of the last requests of a page. *)
Definition kept_requests (ids : list string) : list string :=
  take ClientRequests (List.filter given ((λ id, clean id requestIDMax) <$> ids)).

Definition ClientError (who : Viewer) (tenantID : option Z) (inp : ClientErrorInput) : M () :=
  person ← signedIn who;
  if blank (ce_Message inp) then throw (BadRequest "message is required") else
  let opt s limit := let v := clean s limit in if given v then Some v else None in
  details ← mapErr Internal (lift (Marshal (mkClientContext (clean (ce_Route inp) RouteMax) (clean (ce_Browser inp) browserMax)
    (clean (ce_AppVersion inp) versionMax) (kept_requests (ce_RequestIDs inp)) (opt (ce_Source inp) sourceMax) (opt (ce_Detail inp) detailMax))));
  Capture (mkFailure SourceClientError "" (ce_Message inp) "client" "" (ce_Stack inp) "client" (ce_Route inp) "" (Some person) tenantID "" "" ""
    "" details "").
End Service.

(** * Alerts and housekeeping of incidents (src/incident: alerts.go, options.go, housekeeping.go)

    The consumer that tells people of a new incident or leaves it for the digest, the
    worker that publishes the digest, and the sweep of old rows. Who holds the
    permission is asked outside; making the notification is one call that may fail.
    The loops take fuel and answer [None] without it. *)

Definition ManageIncidents : string := "incident:manage".
Definition DefaultCooldown : Z := 5 * Time.Minute.
Definition DefaultDigestEvery : Z := 30 * Time.Minute.
Definition DefaultOccurrenceRetention : Z := 90 * 24 * Time.Hour.
Definition DigestRetention : Z := 24 * Time.Hour.
Definition digestBatch : nat := 100.
Definition pruneBatch : nat := 500.

Record Alerts : Type := mkAlerts { al_Immediate : list string; al_Cooldown : Z; al_DigestEvery : Z }.

(** [None] is a nil slice. *)
Definition withDefaults (immediate : option (list string)) (cooldown every : Z) : Alerts :=
  mkAlerts (default [SeverityCritical; SeverityHigh] immediate) (if cooldown <=? 0 then DefaultCooldown else cooldown)
    (if every <=? 0 then DefaultDigestEvery else every).

Record Swept : Type := mkSwept { sw_Occurrences : Z; sw_Digest : Z }.

Section Alerts.
Variables (ToLower : string → string) (EqualFold : string → string → bool).
Variable out : Outside.
Variable cfg : Alerts.
(** The people who hold the permission. *)
Variable holders : nat → string → result (list Z).
Notation M := (stM (Env IncTables) error).

Definition immediate (severity : string) : bool := existsb (λ have, EqualFold have severity) (al_Immediate cfg).

Definition cooling (tier : string) : M bool :=
  last ← wrapping "incident: read the cooldown" (LastAlert out tier);
  match last with
  | Some last => now ← Now out; mret (Time.Before now (last + al_Cooldown cfg))
  | None => mret false
  end.

Definition stamp (tier : string) : M () :=
  now ← Now out; wrapping "incident: start the cooldown" (StampAlert out tier now).

Definition send (alerts : list NewIncident) : M bool :=
  people ← mapErr (wrapped ("incident: find the people who hold " +:+ ManageIncidents)) (ask (λ n, holders n ManageIncidents));
  match people with
  | [] => mret false
  | _ => _ ← wrapping "incident: send the alert" (exec out (λ t, announce t (AAlert people alerts))); mret true
  end.

(** Was the alert dealt with? *)
Definition sendNow (severity : string) (n : NewIncident) : M bool :=
  cool ← cooling severity;
  if (cool : bool) then mret false else
  sent ← send [n];
  if (sent : bool) then _ ← stamp severity; mret true else mret true.

Definition onOpened (n : NewIncident) : M () :=
  let severity := ToLower (ni_Severity n) in
  sent ← (if immediate severity then sendNow severity n else mret false);
  if (sent : bool) then mret () else
  now ← Now out;
  wrapping "incident: queue for the digest" (QueueDigest ToLower out
    (mkDigestItem 0 (ni_IncidentID n) (ni_PublicCode n) (ni_Title n) severity now)).

Definition onDigest (items : list NewIncident) : M () := _ ← send items; mret ().

(** ** The digest *)

Definition new_of (d : DigestItem) : NewIncident := mkNewIncident (di_IncidentID d) (di_PublicCode d) (di_Title d) (di_Severity d) "".

(** One transaction of [flush]: how many were taken. *)
Definition flush_once : M nat :=
  Transaction out (
    now ← Now out;
    items ← wrapping "claim the digest" (ClaimDigest out now digestBatch);
    match items with
    | [] => mret 0%nat
    | _ => _ ← exec out (λ t, announce t (ADigest (new_of <$> items))); mret (length items)
    end).

Fixpoint flush (fuel : nat) (e : Env IncTables) : option (result () * Env IncTables) :=
  match fuel with
  | O => None
  | S fuel' =>
      match wrapping "incident: digest" flush_once e with
      | (Err err, e') => Some (Err err, e')
      | (Ok taken, e') => if (taken <? digestBatch)%nat then Some (Ok (), e') else flush fuel' e'
      end
  end.

(** ** The sweep *)

(** A loop that prunes until a batch is not full: what it deleted, and the error. *)
Fixpoint prune_loop (fuel : nat) (prune : M nat) (deleted : Z) (e : Env IncTables) : option (Z * option error * Env IncTables) :=
  match fuel with
  | O => None
  | S fuel' =>
      match wrapping "incident housekeeping" prune e with
      | (Err err, e') => Some (deleted, Some err, e')
      | (Ok n, e') => if (n <? pruneBatch)%nat then Some (deleted + Z.of_nat n, None, e') else prune_loop fuel' prune (deleted + Z.of_nat n) e'
      end
  end.

Definition sweep (fuel : nat) (retain : Z) (e : Env IncTables) : option (Swept * option error * Env IncTables) :=
  let '(now, e) := (clock out (moment e), passed e) in
  match prune_loop fuel (PruneOccurrences out (now - retain) pruneBatch) 0 e with
  | None => None
  | Some (n, Some err, e') => Some (mkSwept n 0, Some err, e')
  | Some (n, None, e') =>
      match prune_loop fuel (PruneDigest out (now - DigestRetention) pruneBatch) 0 e' with
      | None => None
      | Some (m, err, e'') => Some (mkSwept n m, err, e'')
      end
  end.
End Alerts.
