(* ===== verification/IncidentFacts.v ===== *)
(** * Facts about incidents

    What stored text looks like, and what the steps of the service do to the tables. *)

From Stdlib Require Import Ascii.
From S2P Require Import Prelude Apperr Clock SignIn Lease Sql Rows Hoare IncidentText IncidentStore Incidents.

Local Open Scope Z_scope.

(** ** Characters that are stored *)

(** A character of the Basic Multilingual Plane. *)
Definition storable (r : Z) : Prop := 0 <= r <= maxBMP ∧ ¬ (55296 <= r <= 57343).

Lemma code_byte b : 0 <= b < 256 → Str.code (Utf8.byte b) = b.
Proof. intros H. unfold Str.code, Utf8.byte. rewrite nat_ascii_embedding by lia. lia. Qed.

Lemma low_bits r k : 0 <= k → Z.land r (Z.ones k) = r mod 2 ^ k.
Proof. apply Z.land_ones. Qed.

Lemma land_shiftl_low a b : 0 <= b < 64 → Z.land (Z.shiftl a 6) b = 0.
Proof.
  intros Hb. rewrite <-(Z.mod_small b (2 ^ 6)), <-Z.land_ones, Z.land_comm, <-Z.land_assoc, (Z.land_comm (Z.ones 6)), Z.land_ones by lia.
  rewrite Z.shiftl_mul_pow2, Z.mod_mul by lia. apply Z.land_0_r.
Qed.

Lemma lor_low a b : 0 <= b < 64 → Z.lor (Z.shiftl a 6) b = 64 * a + b.
Proof.
  intros Hb. rewrite <-Z.lxor_lor, <-Z.add_nocarry_lxor by by apply land_shiftl_low. rewrite Z.shiftl_mul_pow2 by lia. lia.
Qed.

(** The continuation byte of six bits. *)
Lemma continuation_byte n lo hi acc x s : 0 <= x → lo <= 128 + x mod 64 <= hi →
  Utf8.continuation (S n) lo hi acc (String (Utf8.byte (128 + Z.land x 63)) s) = Utf8.continuation n 128 191 (64 * acc + x mod 64) s.
Proof.
  intros Hx Hr. change 63 with (Z.ones 6). rewrite Z.land_ones by lia. change (2 ^ 6) with 64.
  pose proof (Z.mod_pos_bound x 64 ltac:(lia)). cbn [Utf8.continuation]. rewrite code_byte by lia.
  rewrite (proj2 (Z.leb_le _ _)), (proj2 (Z.leb_le _ _)) by lia. cbn [andb].
  change (Z.land (128 + x mod 64) 63) with (Z.land (128 + x mod 64) (Z.ones 6)). rewrite Z.land_ones by lia. change (2 ^ 6) with 64.
  rewrite <-Zplus_mod_idemp_l. change (128 mod 64) with 0. rewrite Z.add_0_l, Zmod_mod. by rewrite lor_low.
Qed.

Lemma lead_2 b : Utf8.lead 1 b = b mod 32.
Proof. unfold Utf8.lead. change 31 with (Z.ones 5). by rewrite Z.land_ones. Qed.
Lemma lead_3 b : Utf8.lead 2 b = b mod 16.
Proof. unfold Utf8.lead. change 15 with (Z.ones 4). by rewrite Z.land_ones. Qed.

Lemma accept_2 b : 194 <= b <= 223 → Utf8.accept b = Some (1%nat, 128, 191).
Proof. intros. unfold Utf8.accept. by rewrite (proj2 (Z.leb_le 194 _)), (proj2 (Z.leb_le _ 223)) by lia. Qed.

(** The first byte of three, with the range of the second. *)
Lemma accept_3 b : 224 <= b <= 239 → ∃ lo hi, Utf8.accept b = Some (2%nat, lo, hi) ∧
  lo = (if b =? 224 then 160 else 128) ∧ hi = (if b =? 237 then 159 else 191).
Proof.
  intros. unfold Utf8.accept. rewrite (proj2 (Z.leb_gt b 223)), andb_false_r by lia.
  destruct (Z.eqb_spec b 224) as [->|]; [by eexists _, _|]. destruct (Z.eqb_spec b 237) as [->|]; [by eexists _, _|].
  rewrite (proj2 (Z.leb_le 225 _)), (proj2 (Z.leb_le _ 239)) by lia. by eexists _, _.
Qed.

Lemma decode_encode r rest : storable r →
  match Utf8.encode r +:+ rest with String c s => Utf8.decode c s = (r, rest) | EmptyString => False end.
Proof.
  unfold storable, maxBMP. intros [Hr Hs]. unfold Utf8.encode.
  destruct (Z.ltb_spec r 128) as [H1|H1]; [|destruct (Z.ltb_spec r 2048) as [H2|H2]; [|rewrite (proj2 (Z.ltb_lt r 65536)) by lia]];
    rewrite ?Str.app_cons, Str.app_empty_l; unfold Utf8.decode; rewrite ?Z.shiftr_div_pow2 by lia; change (2 ^ 6) with 64; change (2 ^ 12) with 4096.
  - rewrite code_byte by lia. by rewrite (proj2 (Z.ltb_lt _ _)).
  - pose proof (Z.div_mod r 64 ltac:(lia)). pose proof (Z.mod_pos_bound r 64 ltac:(lia)).
    rewrite code_byte by lia. rewrite (proj2 (Z.ltb_ge _ _)), accept_2, continuation_byte by lia. cbn [Utf8.continuation default]. rewrite lead_2.
    replace ((192 + r / 64) mod 32) with (r / 64); [unfold id; f_equal; lia|].
    rewrite <-Zplus_mod_idemp_l. change (192 mod 32) with 0. rewrite Z.add_0_l, Z.mod_small; lia.
  - pose proof (Z.div_mod r 64 ltac:(lia)) as E1. pose proof (Z.mod_pos_bound r 64 ltac:(lia)).
    pose proof (Z.div_mod (r / 64) 64 ltac:(lia)) as E2. pose proof (Z.mod_pos_bound (r / 64) 64 ltac:(lia)).
    rewrite Z.div_div in E2 by lia. change (64 * 64) with 4096 in E2.
    rewrite code_byte by lia. rewrite (proj2 (Z.ltb_ge _ _)) by lia.
    destruct (accept_3 (224 + r / 4096) ltac:(lia)) as (lo & hi & -> & Hlo & Hhi).
    rewrite continuation_byte; [|lia|].
    + rewrite continuation_byte by lia. cbn [Utf8.continuation default]. rewrite lead_3.
      replace ((224 + r / 4096) mod 16) with (r / 4096); [unfold id; f_equal; lia|].
      rewrite <-Zplus_mod_idemp_l. change (224 mod 16) with 0. rewrite Z.add_0_l, Z.mod_small; lia.
    + subst lo hi. destruct (Z.eqb_spec (224 + r / 4096) 224), (Z.eqb_spec (224 + r / 4096) 237); lia.
Qed.

Lemma runes_go_of_runes rs fuel : Forall storable rs → (String.length (Utf8.of_runes rs) <= fuel)%nat → Utf8.runes_go fuel (Utf8.of_runes rs) = rs.
Proof.
  intros Hrs. revert fuel. induction Hrs as [|r rs Hr Hrs IH]; intros fuel Hf; [by destruct fuel|].
  cbn [Utf8.of_runes] in *. pose proof (decode_encode r (Utf8.of_runes rs) Hr) as Hd.
  destruct (Utf8.encode r +:+ Utf8.of_runes rs) as [|c s]; [done|]. destruct fuel as [|fuel]; cbn in Hf; [lia|]. cbn [Utf8.runes_go]. rewrite Hd.
  f_equal. apply IH. apply Utf8.decode_length in Hd. lia.
Qed.

Lemma runes_of_runes rs : Forall storable rs → Utf8.runes (Utf8.of_runes rs) = rs.
Proof. intros H. by apply runes_go_of_runes. Qed.

Lemma continuation_step n lo hi acc s r rest : 128 <= lo → hi <= 191 → Utf8.continuation (S n) lo hi acc s = Some (r, rest) →
  ∃ x s', lo - 128 <= x <= hi - 128 ∧ Utf8.continuation n 128 191 (64 * acc + x) s' = Some (r, rest).
Proof.
  intros Hlo Hhi. destruct s as [|c s]; [done|]. cbn [Utf8.continuation]. destruct (_ && _) eqn:E; [|done].
  apply andb_true_iff in E as [E1%Z.leb_le E2%Z.leb_le]. intros H. exists (Str.code c - 128), s. split; [lia|]. rewrite <-H. f_equal.
  change 63 with (Z.ones 6). rewrite Z.land_ones by lia. change (2 ^ 6) with 64. pose proof (Z.mod_pos_bound (Str.code c) 64 ltac:(lia)).
  rewrite lor_low by lia. f_equal. rewrite <-(Z.mod_small (Str.code c - 128) 64), <-(Zminus_mod_idemp_r _ 128), Z.sub_0_r by lia. done.
Qed.

(** What decoding gives is a Unicode scalar. *)
Lemma accept_cases b n lo hi : 128 <= b < 256 → Utf8.accept b = Some (n, lo, hi) →
  128 <= lo ∧ hi <= 191 ∧ ((n = 1%nat ∧ 194 <= b <= 223) ∨ (n = 2%nat ∧ 224 <= b <= 239 ∧ (b = 237 → hi = 159)) ∨ (n = 3%nat ∧ 240 <= b <= 244 ∧ (b = 240 → lo = 144))).
Proof.
  intros Hb. unfold Utf8.accept. repeat case_match; intros Ea; simplify_eq; rewrite ?andb_true_iff, ?Z.leb_le, ?Z.eqb_eq in *; lia.
Qed.

Lemma decode_scalar c s r rest : Utf8.decode c s = (r, rest) → 0 <= r ∧ ¬ (55296 <= r <= 57343).
Proof.
  pose proof (Str.code_range c) as Hc. unfold Utf8.decode. destruct (Z.ltb_spec (Str.code c) 128); [intros [= <- _]; lia|].
  destruct (Utf8.accept (Str.code c)) as [[[n lo] hi]|] eqn:Ea; [|intros [= <- _]; unfold Utf8.RuneError; lia].
  destruct (Utf8.continuation _ _ _ _ _) as [[r' rest']|] eqn:Ec; cbn; intros [= <- <-]; [|unfold Utf8.RuneError; lia].
  apply accept_cases in Ea as (Hlo & Hhi & [[-> Hb]|[(-> & Hb & He)|(-> & Hb & He)]]); [| | |lia].
  - rewrite lead_2 in Ec. apply continuation_step in Ec as (x & s' & Hx & Ec); [|done..]. injection Ec as <- _.
    pose proof (Z.div_mod (Str.code c) 32 ltac:(lia)). pose proof (Z.mod_pos_bound (Str.code c) 32 ltac:(lia)). lia.
  - rewrite lead_3 in Ec. apply continuation_step in Ec as (x & s' & Hx & Ec); [|done..]. apply continuation_step in Ec as (y & s'' & Hy & Ec); [|done..].
    injection Ec as <- _. pose proof (Z.div_mod (Str.code c) 16 ltac:(lia)). pose proof (Z.mod_pos_bound (Str.code c) 16 ltac:(lia)).
    destruct (decide (Str.code c = 237)) as [E|]; [specialize (He E)|]; lia.
  - change (Utf8.lead 3 (Str.code c)) with (Z.land (Str.code c) (Z.ones 3)) in Ec. rewrite Z.land_ones in Ec by lia. change (2 ^ 3) with 8 in Ec.
    apply continuation_step in Ec as (x & s' & Hx & Ec); [|done..]. apply continuation_step in Ec as (y & s'' & Hy & Ec); [|done..].
    apply continuation_step in Ec as (z & s3 & Hz & Ec); [|done..]. injection Ec as <- _.
    pose proof (Z.div_mod (Str.code c) 8 ltac:(lia)). pose proof (Z.mod_pos_bound (Str.code c) 8 ltac:(lia)).
    destruct (decide (Str.code c = 240)) as [E|]; [specialize (He E)|]; lia.
Qed.

Lemma runes_storable s : Forall storable (bmp <$> Utf8.runes s).
Proof.
  unfold Utf8.runes. generalize (String.length s). intros fuel. revert s. induction fuel as [|fuel IH]; intros [|c s]; cbn; try constructor.
  destruct (Utf8.decode c s) as [r rest] eqn:E. cbn. constructor; [|apply IH]. apply decode_scalar in E. unfold storable, bmp, maxBMP.
  destruct (Z.ltb_spec 65535 r); unfold Utf8.RuneError; lia.
Qed.

(** What [clip] keeps. *)
Lemma runes_clip s limit : Utf8.runes (clip s limit) = bmp <$> take (Z.to_nat limit) (Utf8.runes s).
Proof.
  unfold clip. apply runes_of_runes. rewrite fmap_take. apply Forall_take, runes_storable.
Qed.

Lemma RuneCount_clip s limit : 0 <= limit → Utf8.RuneCount (clip s limit) <= limit.
Proof. intros. unfold Utf8.RuneCount. rewrite runes_clip, length_fmap, length_take. lia. Qed.

Lemma RuneCount_clean s limit : 0 <= limit → Utf8.RuneCount (clean s limit) <= limit.
Proof. apply RuneCount_clip. Qed.

Lemma bmp_idemp r : bmp (bmp r) = bmp r.
Proof. unfold bmp, maxBMP. destruct (Z.ltb_spec 65535 r); unfold Utf8.RuneError; [done|]. by rewrite (proj2 (Z.ltb_ge _ _)). Qed.

Lemma clip_idemp s limit : clip (clip s limit) limit = clip s limit.
Proof.
  unfold clip at 1. rewrite runes_clip, <-fmap_take, take_take, Nat.min_id, <-list_fmap_compose. unfold clip. f_equal.
  apply list_fmap_ext. intros _ r _. apply bmp_idemp.
Qed.

(** ** Tables that are sound *)

(** A row that was counted on its incident and is not there yet. *)
Inductive pending : Type := PNone | PReport (id : Z) | PComment (id : Z) | POccurrence (id : Z).
#[export] Instance pending_eq_dec : EqDecision pending.
Proof. solve_decision. Defined.

Definition one (b : bool) : Z := if b then 1 else 0.

Record sound_incident (t : IncTables) (p : pending) (id : Z) (m : incidentModel) : Prop := mkSoundIncident {
  si_status : status_Valid (im_Status m) = true;
  si_open : im_OpenFingerprint m = if IsOpen (im_Status m) then Some (im_Fingerprint m) else None;
  si_reports : im_ReportCount m = tally (reports t) (λ r, bool_decide (rm_IncidentID r = Some id)) + one (bool_decide (p = PReport id));
  si_comments : im_CommentCount m = tally (comments t) (λ c, cm_IncidentID c =? id) + one (bool_decide (p = PComment id));
  si_occurrences : tally (occurrences t) (λ o, om_IncidentID o =? id) + one (bool_decide (p = POccurrence id)) <= im_OccurrenceCount m;
  si_fits : columns_fit m = true
}.

Record sound_with (p : pending) (t : IncTables) : Prop := mkSound {
  so_incidents : ids_used (incidents t);
  so_reports : ids_used (reports t);
  so_comments : ids_used (comments t);
  so_occurrences : ids_used (occurrences t);
  so_each : ∀ id m, ro_rows (incidents t) !! id = Some m → sound_incident t p id m;
  so_unique : ∀ i j m n f, ro_rows (incidents t) !! i = Some m → ro_rows (incidents t) !! j = Some n →
                im_OpenFingerprint m = Some f → im_OpenFingerprint n = Some f → i = j;
  so_codes : ∀ i j m n, ro_rows (incidents t) !! i = Some m → ro_rows (incidents t) !! j = Some n → im_PublicCode m = im_PublicCode n → i = j;
  so_duplicates : ∀ i m d, ro_rows (incidents t) !! i = Some m → im_DuplicateOfIncidentID m = Some d → is_Some (ro_rows (incidents t) !! d);
  so_report_refs : ∀ k r i, ro_rows (reports t) !! k = Some r → rm_IncidentID r = Some i → is_Some (ro_rows (incidents t) !! i);
  so_comment_refs : ∀ k c, ro_rows (comments t) !! k = Some c → is_Some (ro_rows (incidents t) !! cm_IncidentID c);
  so_occurrence_refs : ∀ k o, ro_rows (occurrences t) !! k = Some o → is_Some (ro_rows (incidents t) !! om_IncidentID o)
}.
Notation sound := (sound_with PNone).

Lemma sound_incident_same t t' p id m : reports t' = reports t → comments t' = comments t → occurrences t' = occurrences t →
  sound_incident t p id m → sound_incident t' p id m.
Proof. intros Hr Hc Ho []. split; rewrite ?Hr, ?Hc, ?Ho; done. Qed.

(** Tables that differ in nothing soundness speaks of. *)
Lemma sound_same p t t' : incidents t' = incidents t → reports t' = reports t → comments t' = comments t → occurrences t' = occurrences t →
  sound_with p t → sound_with p t'.
Proof.
  intros Hi Hr Hc Ho []. split; rewrite ?Hi, ?Hr, ?Hc, ?Ho; try done. intros id m Hm. by eapply sound_incident_same, so_each0.
Qed.

(** A row that breaks no constraint. *)
Lemma violation_None t id m : violation t id m = None →
  columns_fit m = true ∧ (∀ d, im_DuplicateOfIncidentID m = Some d → d = id ∨ is_Some (ro_rows (incidents t) !! d)) ∧
  ∀ j n, ro_rows (incidents t) !! j = Some n → j ≠ id →
    im_PublicCode n ≠ im_PublicCode m ∧ ∀ f, im_OpenFingerprint m = Some f → im_OpenFingerprint n ≠ Some f.
Proof.
  unfold violation. destruct (columns_fit m); [|done]. cbn [negb]. case_bool_decide as Hc; [done|]. intros Hd. split; [done|]. split.
  { intros d Ed. rewrite Ed in Hd. destruct (Z.eqb_spec d id); [by left|right]. cbn in Hd. by case_bool_decide. }
  intros j n Hj Hne.
  assert (clashes m id j n = false) as Hf.
  { apply not_true_is_false. intros H. assert (j ∈ ids_where (incidents t) (clashes m id)) as Hin by (apply elem_of_select; eauto).
    rewrite Hc in Hin. by apply not_elem_of_nil in Hin. }
  unfold clashes in Hf. rewrite (proj2 (Z.eqb_neq j id)) in Hf by done. cbn in Hf. apply orb_false_iff in Hf as [H1%bool_decide_eq_false H2].
  split; [done|]. intros f Hf E. rewrite Hf, E in H2. rewrite !bool_decide_eq_true_2 in H2 by done. done.
Qed.

(** A new incident, counted once for what comes next. *)
Lemma insert_sound t m p id : sound t → id = ro_next (incidents t) → violation t id m = None →
  (p = PReport id ∨ p = POccurrence id) → status_Valid (im_Status m) = true →
  im_OpenFingerprint m = (if IsOpen (im_Status m) then Some (im_Fingerprint m) else None) → im_ReportCount m = one (bool_decide (p = PReport id)) →
  im_CommentCount m = 0 → one (bool_decide (p = POccurrence id)) <= im_OccurrenceCount m →
  sound_with p (set_incidents t (insert_row (incidents t) m)).
Proof.
  intros [Hi Hr Hc Ho He Hu Hcd Hdu Rr Rc Ro] Eid Hv Hp Hst Hop Hrc Hcc Hoc. apply violation_None in Hv as (Hfit & Hdup & Hv).
  assert (ro_rows (incidents t) !! id = None) as Hn by (destruct (ro_rows _ !! id) eqn:E; [apply Hi in E; lia|done]).
  assert (∀ j n, ro_rows (incidents t) !! j = Some n → j ≠ id) as Hne by (intros j n E ->; congruence).
  assert (∀ j, is_Some (ro_rows (incidents t) !! j) → is_Some (<[id := m]> (ro_rows (incidents t)) !! j)) as Hgrow.
  { intros j [n E]. rewrite lookup_insert_ne; [by exists n|]. intros ->. by apply Hne in E. }
  split; cbn; try rewrite <-Eid; try done; try (by intros; apply Hgrow; eauto).
  - by apply ids_used_insert.
  - intros j n [[<- <-]|[Hj E]]%lookup_insert_Some.
    + split; cbn; [done|done|rewrite Hrc, tally_none; [lia|]|rewrite Hcc, tally_none; [destruct Hp as [->| ->]; done|]|rewrite tally_none; [lia|]|done].
      * intros k r Hk. apply bool_decide_eq_false. intros E. destruct (Rr k r _ Hk E) as [? ?]. congruence.
      * intros k c Hk. apply Z.eqb_neq. intros E. destruct (Rc k c Hk) as [? ?]. congruence.
      * intros k o Hk. apply Z.eqb_neq. intros E. destruct (Ro k o Hk) as [? ?]. congruence.
    + destruct (He j n E) as [S1 S2 S3 S4 S5 S6]. rewrite bool_decide_eq_false_2 in S3, S4, S5 by done.
      split; cbn; try done; rewrite bool_decide_eq_false_2; try done; destruct Hp as [->| ->]; congruence.
  - intros i j a b f [[<- <-]|[Hi' Ea]]%lookup_insert_Some [[<- <-]|[Hj' Eb]]%lookup_insert_Some Fa Fb; [done| | |by eapply Hu].
    + destruct (Hv j b Eb) as [_ H]; [by eapply Hne|]. by apply H in Fb.
    + destruct (Hv i a Ea) as [_ H]; [by eapply Hne|]. by apply H in Fa.
  - intros i j a b [[<- <-]|[Hi' Ea]]%lookup_insert_Some [[<- <-]|[Hj' Eb]]%lookup_insert_Some Fab; [done| | |by eapply Hcd].
    + destruct (Hv j b Eb) as [H _]; [by eapply Hne|]. congruence.
    + destruct (Hv i a Ea) as [H _]; [by eapply Hne|]. congruence.
  - intros i a d [[<- <-]|[_ Ea]]%lookup_insert_Some Hd; [|by eapply Hgrow, Hdu].
    destruct (Hdup d Hd) as [->|H]; [rewrite lookup_insert_eq; by eexists|by apply Hgrow].
Qed.

(** A row that changes, and keeps its code and open fingerprint or takes free ones. *)
Lemma alter_sound t p p' id f : sound_with p t →
  (∀ m, ro_rows (incidents t) !! id = Some m → sound_incident t p' id (f m) ∧
    ((im_OpenFingerprint (f m) = im_OpenFingerprint m ∧ im_PublicCode (f m) = im_PublicCode m) ∨
     ∀ j n, ro_rows (incidents t) !! j = Some n → j ≠ id → im_PublicCode n ≠ im_PublicCode (f m) ∧
       ∀ g, im_OpenFingerprint (f m) = Some g → im_OpenFingerprint n ≠ Some g) ∧
    ∀ d, im_DuplicateOfIncidentID (f m) = Some d → d = id ∨ is_Some (ro_rows (incidents t) !! d)) →
  (∀ j m, j ≠ id → sound_incident t p j m → sound_incident t p' j m) →
  sound_with p' (set_incidents t (alter_row f id (incidents t))).
Proof.
  intros [Hi Hr Hc Ho He Hu Hcd Hdu Rr Rc Ro] Hf Hp.
  assert (∀ j, is_Some (ro_rows (incidents t) !! j) → is_Some (alter f id (ro_rows (incidents t)) !! j)) as Hgrow.
  { intros j [n E]. destruct (decide (id = j)) as [->|]; [rewrite lookup_alter_eq, E; by eexists|rewrite lookup_alter_ne by done; by exists n]. }
  split; cbn; try done; try (by intros; apply Hgrow; eauto).
  - by apply ids_used_alter.
  - intros j n E. apply lookup_alter_Some in E as [(<- & m & E & ->)|[Hne E]]; (eapply (sound_incident_same t); [done..|]); [apply (Hf m E)|].
    apply Hp; [done|]. by apply He.
  - intros i j a b g Ea Eb Fa Fb. apply lookup_alter_Some in Ea as [(<- & m & Ea & ->)|[Hi' Ea]]; apply lookup_alter_Some in Eb as [(<- & m' & Eb & ->)|[Hj' Eb]];
      [done| | |by eapply Hu].
    + destruct (Hf m Ea) as (_ & [[Eo _]|Hv] & _); [rewrite Eo in Fa; by eapply Hu|]. destruct (Hv j b Eb) as [_ H]; [done|]. by apply H in Fb.
    + destruct (Hf m' Eb) as (_ & [[Eo _]|Hv] & _); [rewrite Eo in Fb; by eapply Hu|]. destruct (Hv i a Ea) as [_ H]; [done|]. by apply H in Fa.
  - intros i j a b Ea Eb Fab. apply lookup_alter_Some in Ea as [(<- & m & Ea & ->)|[Hi' Ea]]; apply lookup_alter_Some in Eb as [(<- & m' & Eb & ->)|[Hj' Eb]];
      [done| | |by eapply Hcd].
    + destruct (Hf m Ea) as (_ & [[_ Eo]|Hv] & _); [rewrite Eo in Fab; by eapply Hcd|]. destruct (Hv j b Eb) as [H _]; [done|]. congruence.
    + destruct (Hf m' Eb) as (_ & [[_ Eo]|Hv] & _); [rewrite Eo in Fab; by eapply Hcd|]. destruct (Hv i a Ea) as [H _]; [done|]. congruence.
  - intros i a d Ea Hd. apply lookup_alter_Some in Ea as [(<- & m & Ea & ->)|[_ Ea]]; [|by eapply Hgrow, Hdu].
    destruct (Hf m Ea) as (_ & _ & H). destruct (H d Hd) as [->|H']; apply Hgrow; [by exists m|done].
Qed.

(** The row that was counted arrives. *)
Lemma report_arrives t id r : sound_with (PReport id) t → rm_IncidentID r = Some id → is_Some (ro_rows (incidents t) !! id) →
  sound (set_reports t (insert_row (reports t) r)).
Proof.
  intros [Hi Hr Hc Ho He Hu Hcd Hdu Rr Rc Ro] Hid Hex. split; cbn; try done.
  - by apply ids_used_insert.
  - intros j m E. destruct (He j m E) as [S1 S2 S3 S4 S5 S6]. split; cbn; [done|done| |done|done|done].
    rewrite tally_insert, S3, Hid by done. rewrite (bool_decide_ext (Some id = Some j) (PReport id = PReport j)) by naive_solver. change (one (bool_decide (PNone = PReport j))) with 0. unfold one. lia.
  - intros k x i [[_ <-]|[_ E]]%lookup_insert_Some Hx; [congruence|eauto].
Qed.

Lemma comment_arrives t id c : sound_with (PComment id) t → cm_IncidentID c = id → is_Some (ro_rows (incidents t) !! id) →
  sound (set_comments t (insert_row (comments t) c)).
Proof.
  intros [Hi Hr Hc Ho He Hu Hcd Hdu Rr Rc Ro] Hid Hex. split; cbn; try done.
  - by apply ids_used_insert.
  - intros j m E. destruct (He j m E) as [S1 S2 S3 S4 S5 S6]. split; cbn; [done|done|done| |done|done].
    rewrite tally_insert, S4, Hid by done. rewrite <-(bool_decide_ext (id = j) (PComment id = PComment j)) by naive_solver. change (one (bool_decide (PNone = PComment j))) with 0.
    unfold one. destruct (Z.eqb_spec id j); [rewrite bool_decide_eq_true_2 by done|rewrite bool_decide_eq_false_2 by done]; lia.
  - intros k x [[_ <-]|[_ E]]%lookup_insert_Some; [by rewrite Hid|eauto].
Qed.

Lemma occurrence_arrives t id o : sound_with (POccurrence id) t → om_IncidentID o = id → is_Some (ro_rows (incidents t) !! id) →
  sound (set_occurrences t (insert_row (occurrences t) o)).
Proof.
  intros [Hi Hr Hc Ho He Hu Hcd Hdu Rr Rc Ro] Hid Hex. split; cbn; try done.
  - by apply ids_used_insert.
  - intros j m E. destruct (He j m E) as [S1 S2 S3 S4 S5 S6]. split; cbn; [done|done|done|done| |done].
    rewrite tally_insert, Hid by done. rewrite <-(bool_decide_ext (id = j) (POccurrence id = POccurrence j)) in S5 by naive_solver. unfold one in S5.
    change (one (bool_decide (PNone = POccurrence j))) with 0.
    destruct (Z.eqb_spec id j); [rewrite bool_decide_eq_true_2 in S5 by done|rewrite bool_decide_eq_false_2 in S5 by done]; lia.
  - intros k x [[_ <-]|[_ E]]%lookup_insert_Some; [by rewrite Hid|eauto].
Qed.

Lemma prune_sound t ids : sound t → sound (set_occurrences t (without_rows ids (occurrences t))).
Proof.
  intros [Hi Hr Hc Ho He Hu Hcd Hdu Rr Rc Ro]. split; cbn; try done.
  - by apply ids_used_without.
  - intros j m E. destruct (He j m E) as [S1 S2 S3 S4 S5 S6]. split; cbn; try done.
    pose proof (tally_without ids (occurrences t) (λ o, om_IncidentID o =? j)). lia.
  - intros k x [E _]%map_lookup_filter_Some. eauto.
Qed.

(** A row of the incidents table that is changed by a count. *)
Lemma bump_sound t p' id f : sound t → (∀ m, im_OpenFingerprint (f m) = im_OpenFingerprint m ∧ im_PublicCode (f m) = im_PublicCode m) →
  (∀ m, im_DuplicateOfIncidentID (f m) = im_DuplicateOfIncidentID m) →
  (∀ m, ro_rows (incidents t) !! id = Some m → sound_incident t PNone id m → sound_incident t p' id (f m)) → p' ∈ [PReport id; PComment id; POccurrence id] →
  sound_with p' (set_incidents t (alter_row f id (incidents t))).
Proof.
  intros Ht Hk Hd Hf Hp. eapply alter_sound; [done| |].
  - intros m E. split; [by apply Hf, (so_each _ _ Ht)|]. split; [by left|]. intros d. rewrite Hd. intros. right. by eapply (so_duplicates _ _ Ht).
  - intros j m Hne [S1 S2 S3 S4 S5 S6]. rewrite bool_decide_eq_false_2 in S3, S4, S5 by done.
    split; try done; rewrite bool_decide_eq_false_2; try done; intros ->; set_solver.
Qed.
