(* ===== verification/IncidentRuns.v ===== *)
(** * The operations of the incident service

    What finding, grouping, counting and recording do to the tables, and when they can
    fail: a step ends in the state the code describes, or the database or the source of
    random digits failed it. *)

From Stdlib Require Import Ascii.
From S2P Require Import Prelude Clock Apperr SignIn Lease Sql Rows Hoare IncidentText IncidentStore Incidents IncidentFacts.

Local Open Scope Z_scope.

(** A row that keeps every constraint. *)
Lemma violation_free t id m : columns_fit m = true → (∀ d, im_DuplicateOfIncidentID m = Some d → d = id ∨ is_Some (ro_rows (incidents t) !! d)) →
  (∀ j n, ro_rows (incidents t) !! j = Some n → j ≠ id →
    im_PublicCode n ≠ im_PublicCode m ∧ ∀ f, im_OpenFingerprint m = Some f → im_OpenFingerprint n ≠ Some f) → violation t id m = None.
Proof.
  intros Hf Hd Hv. unfold violation. rewrite Hf. cbn [negb]. rewrite bool_decide_eq_false_2.
  - destruct (im_DuplicateOfIncidentID m) as [d|]; [|done]. destruct (Hd d eq_refl) as [->|H]; [by rewrite Z.eqb_refl|].
    by rewrite bool_decide_eq_true_2, orb_true_r.
  - intros Hne. apply Hne. apply elem_of_nil_inv. intros j [n [Hj Hc]]%elem_of_select. unfold clashes in Hc.
    apply andb_true_iff in Hc as [Hj'%negb_true_iff%Z.eqb_neq Hc]. destruct (Hv j n Hj Hj') as [H1 H2].
    apply orb_true_iff in Hc as [Hc%bool_decide_eq_true|[Ho%bool_decide_eq_true He%bool_decide_eq_true]%andb_true_iff]; [done|].
    destruct (im_OpenFingerprint m) as [f|]; [|done]. by apply (H2 f).
Qed.

(** ** Columns that fit *)

Lemma width_text limit s : 0 <= limit → (Utf8.RuneCount s <=? limit) = true → width limit (text s) = true.
Proof. intros H0 H. unfold width, text. destruct (blank s); [by apply Z.leb_le|done]. Qed.

Lemma width_text_plain limit v : 0 <= limit → width limit v = true → width limit (text (plain v)) = true.
Proof. intros H0 H. by apply width_text. Qed.

Lemma columns_fit_intro m : width 32 (Some (im_PublicCode m)) = true → width 255 (Some (im_Title m)) = true → width 100 (im_AffectedModule m) = true →
  width 255 (im_AffectedRoute m) = true → width 50 (im_Environment m) = true → width 255 (im_ErrorClass m) = true → width 100 (im_ErrorCode m) = true →
  width 100 (im_ExternalTicketID m) = true → width 500 (im_ExternalTicketURL m) = true → columns_fit m = true.
Proof. intros. unfold columns_fit. by repeat (apply andb_true_iff; split). Qed.

Lemma columns_fit_elim m : columns_fit m = true → width 32 (Some (im_PublicCode m)) = true ∧ width 255 (Some (im_Title m)) = true ∧
  width 100 (im_AffectedModule m) = true ∧ width 255 (im_AffectedRoute m) = true ∧ width 50 (im_Environment m) = true ∧
  width 255 (im_ErrorClass m) = true ∧ width 100 (im_ErrorCode m) = true ∧ width 100 (im_ExternalTicketID m) = true ∧
  width 500 (im_ExternalTicketURL m) = true.
Proof. unfold columns_fit. rewrite !andb_true_iff. naive_solver. Qed.

(** An incident read and changed in the fields [changed_incident] touches. *)
Lemma changed_fits id m open source status severity visibility seen assigned duplicate summary provider ticket url resolved updated :
  columns_fit m = true → width 100 (text ticket) = true → width 500 (text url) = true →
  columns_fit (modelOf (changed_incident (incident_of id m) open source status severity visibility seen assigned duplicate summary provider ticket url resolved updated)) = true.
Proof.
  intros H Ht Hu. apply columns_fit_elim in H as (H1 & H2 & H3 & H4 & H5 & H6 & H7 & _ & _).
  apply columns_fit_intro; cbn; first [done|by apply width_text_plain].
Qed.

Lemma reopen_fits id m source visibility key now : columns_fit m = true →
  columns_fit (modelOf (reopen (seen_from (incident_of id m) source visibility) key now)) = true.
Proof.
  intros H. pose proof (columns_fit_elim _ H) as (_ & _ & _ & _ & _ & _ & _ & Ht & Hu).
  apply (changed_fits id m); [done|by apply width_text_plain..].
Qed.

(** ** Steps *)

(** Nothing but what the goal is about. *)
Ltac alone := repeat match goal with H : _ |- _ => clear H end.

Section Runs.
Variables (mysqlNumber : error → option Z) (ToLower sha256_hex : string → string) (json_Valid : string → bool).
Variable out : Outside.
Variable (people : nat → list Z → result (list Person)) (random : nat → result string) (Marshal : ClientContext → result string).
Variable env : string.
(** An error of the database is not the store's own [ErrNotFound]. *)
Definition honest_faults : Prop := ∀ n err, fault out n = Some err → errors_Is err ErrNotFound = false.
Context (honest : honest_faults).
Notation on t0 := (λ t : IncTables, t = t0).

Definition faulty : Prop := ∃ n err, fault out n = Some err.

Lemma h_stmt {A} (f : IncTables → A * IncTables) t0 : hoare (on t0) (statement out f) (λ a t, f t0 = (a, t)) (λ t, t = t0 ∧ faulty).
Proof.
  intros e <-. unfold statement. destruct (fault out (moment e)) eqn:E; [split; [done|by eexists _, _]|]. by destruct (f _).
Qed.

Lemma h_query {A} (f : IncTables → A) t0 : hoare (on t0) (query out f) (λ a t, a = f t0 ∧ t = t0) (λ t, t = t0 ∧ faulty).
Proof. eapply h_weaken; [apply (h_stmt _ t0)|done| |done]. by intros a b [= <- <-]. Qed.

Lemma h_exec (f : IncTables → IncTables) t0 : hoare (on t0) (exec out f) (λ _ t, t = f t0) (λ t, t = t0 ∧ faulty).
Proof. eapply h_weaken; [apply (h_stmt _ t0)|done| |done]. by intros a b [= <- <-]. Qed.

Lemma h_checked {A} (f : IncTables → result (A * IncTables)) t0 :
  hoare (on t0) (checked out f) (λ a t, f t0 = Ok (a, t)) (λ t, t = t0 ∧ (faulty ∨ ∃ err, f t0 = Err err)).
Proof.
  alone. unfold checked. eapply h_bind with (R := λ r t, match f t0 with Ok (a, t') => r = Ok a ∧ t = t' | Err err => r = Err err ∧ t = t0 end).
  - eapply h_weaken; [apply (h_stmt _ t0)|done| |]; [|naive_solver]. cbn. intros r t. by destruct (f t0) as [[a t']|err]; intros [= <- <-].
  - intros r e Hr. destruct (f t0) as [[a' t']|err] eqn:E; destruct Hr as [-> <-]; cbn; [done|]. split; [done|]. right. by exists err.
Qed.

(** From each of the states a precondition allows. *)
Lemma h_from {A} P (m : stM (Env IncTables) error A) Q F : (∀ t1, P t1 → hoare (on t1) m Q F) → hoare P m Q F.
Proof. intros H e He. by apply (H (tables e)). Qed.

Lemma h_now P : hoare P (now_ out) (λ _, P) (λ _, False).
Proof. eapply h_bind with (R := λ _, P); [by apply h_Now|]. intros. by apply h_ret. Qed.

(** The rows a search by fingerprint finds. *)
Definition open_with (t : IncTables) (key : string) (id : Z) (m : incidentModel) : Prop :=
  ro_rows (incidents t) !! id = Some m ∧ im_OpenFingerprint m = Some key.
Definition no_open (t : IncTables) (key : string) : Prop := ∀ id m, ro_rows (incidents t) !! id = Some m → im_OpenFingerprint m ≠ Some key.
Definition unknown (t : IncTables) (key : string) : Prop := ∀ id m, ro_rows (incidents t) !! id = Some m → im_Fingerprint m ≠ key.
(** The latest with the fingerprint. *)
Definition latest (t : IncTables) (key : string) (id : Z) (m : incidentModel) : Prop :=
  ro_rows (incidents t) !! id = Some m ∧ im_Fingerprint m = key ∧
  ∀ j n, ro_rows (incidents t) !! j = Some n → im_Fingerprint n = key → im_LastSeenAt n <= im_LastSeenAt m.

Lemma h_byFingerprint select t0 :
  (∀ id, id ∈ select t0 → is_Some (ro_rows (incidents t0) !! id)) →
  hoare (on t0) (attempt (byFingerprint out select))
    (λ r t, match r with
       | Ok i => ∃ m, head (select t0) = Some (in_ID i) ∧ ro_rows (incidents t0) !! in_ID i = Some m ∧ i = incident_of (in_ID i) m
       | Err err => if errors_Is err ErrNotFound then select t0 = [] else faulty end ∧ t = t0) (λ _, False).
Proof.
  intros Hs e <-. unfold attempt, byFingerprint, mbind, stM_bind, wrapping, query, statement.
  destruct (fault out (moment e)) as [err|] eqn:E.
  - split; [|done]. rewrite wrapped_Is, (honest _ _ E). by eexists _, _.
  - destruct (select (tables e)) as [|id ids] eqn:Es; [done|]. cbn. destruct (Hs id) as [m Hm]; [left|]. rewrite Hm. cbn.
    split; [|done]. by exists m.
Qed.

Lemma h_FindOpen key t0 :
  hoare (on t0) (attempt (FindOpen out key))
    (λ r t, match r with
       | Ok i => ∃ m, open_with t0 key (in_ID i) m ∧ i = incident_of (in_ID i) m
       | Err err => if errors_Is err ErrNotFound then no_open t0 key else faulty end ∧ t = t0) (λ _, False).
Proof.
  eapply h_weaken; [apply (h_byFingerprint _ t0)| | |done]; [|done|].
  - intros id (m & Hm & _)%elem_of_select. by exists m.
  - intros r t [Hr ->]. split; [|done]. destruct r as [i|err].
    + destruct Hr as (m & Hh & Hm & Hi). exists m. split; [|done]. split; [done|]. apply head_Some_elem_of, elem_of_select in Hh as (m' & Hm' & Ho).
      cbn in Ho. apply bool_decide_eq_true in Ho. congruence.
    + destruct (errors_Is err ErrNotFound); [|done]. intros id m Hm Ho.
      assert (id ∈ ids_where (incidents t0) (λ _ m, bool_decide (im_OpenFingerprint m = Some key))) as Hin.
      { apply elem_of_select. exists m. split; [done|]. by apply bool_decide_eq_true. }
      rewrite Hr in Hin. by apply not_elem_of_nil in Hin.
Qed.

Lemma latest_head t key id m : head (stable_sort (latest_first t) (ids_where (incidents t) (λ _ m, bool_decide (im_Fingerprint m = key)))) = Some id →
  ro_rows (incidents t) !! id = Some m → latest t key id m.
Proof.
  alone. set (l := ids_where _ _). intros Hh Hm.
  assert (StronglySorted (λ a b, latest_first t a b = true) (stable_sort (latest_first t) l)) as Hs.
  { apply stable_sort_sorted; unfold latest_first; intros; rewrite ?orb_true_iff, ?orb_false_iff, ?andb_true_iff, ?andb_false_iff, ?Z.ltb_lt, ?Z.ltb_ge,
      ?Z.eqb_eq, ?Z.eqb_neq, ?Z.leb_le, ?Z.leb_gt in *; lia. }
  assert (id ∈ l) as Hin. { rewrite <-(stable_sort_perm (latest_first t) l). by apply head_Some_elem_of. }
  apply elem_of_select in Hin as (m' & Hm' & Hk). rewrite Hm in Hm'. injection Hm' as <-. apply bool_decide_eq_true in Hk.
  split; [done|]. split; [done|]. intros j n Hj Hn.
  assert (j ∈ stable_sort (latest_first t) l) as Hjl.
  { rewrite stable_sort_perm. apply elem_of_select. exists n. split; [done|]. by apply bool_decide_eq_true. }
  destruct (stable_sort (latest_first t) l) as [|x xs]; [done|]. injection Hh as ->. apply elem_of_cons in Hjl as [->|Hjl]; [naive_solver lia|].
  apply StronglySorted_inv in Hs as [_ Hs]. rewrite list.Forall_forall in Hs. specialize (Hs j Hjl). unfold latest_first in Hs. rewrite Hj, Hm in Hs. cbn in Hs.
  rewrite orb_true_iff, andb_true_iff, Z.ltb_lt, Z.eqb_eq in Hs. lia.
Qed.

Lemma h_FindLatest key t0 :
  hoare (on t0) (attempt (FindLatest out key))
    (λ r t, match r with
       | Ok i => ∃ m, latest t0 key (in_ID i) m ∧ i = incident_of (in_ID i) m
       | Err err => if errors_Is err ErrNotFound then unknown t0 key else faulty end ∧ t = t0) (λ _, False).
Proof.
  eapply h_weaken; [apply (h_byFingerprint _ t0)| | |done]; [|done|].
  - intros id. rewrite stable_sort_perm. intros (m & Hm & _)%elem_of_select. by exists m.
  - intros r t [Hr ->]. split; [|done]. destruct r as [i|err].
    + destruct Hr as (m & Hh & Hm & Hi). exists m. split; [|done]. by apply latest_head.
    + destruct (errors_Is err ErrNotFound); [|done]. intros id m Hm Ho.
      assert (id ∈ ids_where (incidents t0) (λ _ m, bool_decide (im_Fingerprint m = key))) as Hin.
      { apply elem_of_select. exists m. split; [done|]. by apply bool_decide_eq_true. }
      rewrite <-(stable_sort_perm (latest_first t0)), Hr in Hin. by apply not_elem_of_nil in Hin.
Qed.

(** ** The incident of a problem *)

Notation code d := ("INC-" +:+ d).

(** No code could be made that the table takes. *)
Definition no_code (t : IncTables) (make : string → Incident) : Prop :=
  ∃ n, match random n with Ok d => violation t (ro_next (incidents t)) (modelOf (make (code d))) ≠ None | Err _ => True end.

Lemma h_UpdateIncident i t0 : is_Some (ro_rows (incidents t0) !! in_ID i) →
  hoare (on t0) (UpdateIncident ToLower out i)
    (λ _ t, violation t0 (in_ID i) (modelOf i) = None ∧ t = set_incidents t0 (alter_row (rewritten (modelOf i)) (in_ID i) (incidents t0)))
    (λ t, t = t0 ∧ (faulty ∨ violation t0 (in_ID i) (modelOf i) ≠ None)).
Proof.
  intros Hs. apply h_mapErr. eapply h_weaken; [apply (h_checked _ t0)|done| |]; cbv beta; rewrite bool_decide_eq_true_2 by done; destruct (violation _ _ _).
  - by intros a b [= ].
  - by intros [] b [= <-].
  - intros b [-> [?|_]]; split; auto.
  - intros b [-> [?|[? [= ]]]]; split; auto.
Qed.

Lemma h_created make t0 :
  hoare (on t0) (created mysqlNumber ToLower out random make)
    (λ i t, ∃ d n, random n = Ok d ∧ violation t0 (ro_next (incidents t0)) (modelOf (make (code d))) = None ∧
       i = with_ID (make (code d)) (ro_next (incidents t0)) ∧ t = set_incidents t0 (insert_row (incidents t0) (modelOf (make (code d)))))
    (λ t, t = t0 ∧ (faulty ∨ no_code t0 make)).
Proof.
  alone. unfold created. eapply h_bind with (R := λ c t, (∃ d n, random n = Ok d ∧ c = code d) ∧ t = t0).
  { apply h_mapErr. eapply h_bind with (R := λ d t, (∃ n, random n = Ok d) ∧ t = t0).
    - apply h_mapErr. intros e <-. unfold ask. destruct (random (moment e)) eqn:E; cbn; [eauto|]. split; [done|]. right. exists (moment e). by rewrite E.
    - intros d. apply h_ret. naive_solver. }
  intros c. apply h_pure. intros (d & n & Hn & ->).
  eapply h_bind with (R := λ id t, id = ro_next (incidents t0) ∧ violation t0 id (modelOf (make (code d))) = None ∧
    t = set_incidents t0 (insert_row (incidents t0) (modelOf (make (code d))))).
  - apply h_mapErr, h_mapErr. eapply h_weaken; [apply (h_checked _ t0)|done| |]; cbn; destruct (violation _ _ _) eqn:Ev.
    + by intros a b [= ].
    + by intros a b [= <- <-].
    + intros b [-> [?|_]]; split; auto. right. exists n. rewrite Hn. congruence.
    + intros b [-> [?|[? [= ]]]]; split; auto.
  - intros id. apply h_ret. intros b (-> & Hv & ->). by exists d, n.
Qed.

(** The open incident, the latest closed one reopened, or a new one. *)
Inductive grouping (t : IncTables) (key source : string) (visibility : Incident → string) (now : Z) (make : string → Incident) : Incident → bool → IncTables → Prop :=
| GOpen id m : open_with t key id m →
    grouping t key source visibility now make (seen_from (incident_of id m) source (visibility (incident_of id m))) false t
| GReopened id m i : no_open t key → latest t key id m → i = reopen (seen_from (incident_of id m) source (visibility (incident_of id m))) key now →
    violation t id (modelOf i) = None →
    grouping t key source visibility now make i false (set_incidents t (alter_row (rewritten (modelOf i)) id (incidents t)))
| GNew d n : no_open t key → unknown t key → random n = Ok d → violation t (ro_next (incidents t)) (modelOf (make (code d))) = None →
    grouping t key source visibility now make (with_ID (make (code d)) (ro_next (incidents t))) true
      (set_incidents t (insert_row (incidents t) (modelOf (make (code d))))).

Lemma reopen_free t id m source visibility key now : sound t → no_open t key → ro_rows (incidents t) !! id = Some m →
  violation t id (modelOf (reopen (seen_from (incident_of id m) source visibility) key now)) = None.
Proof.
  intros Ht Hno Hm. apply violation_free.
  - apply reopen_fits, (so_each _ _ Ht id m Hm).
  - intros d Hd. right. by eapply (so_duplicates _ _ Ht id m).
  - intros j n Hj Hne. cbn. split; [intros E; by apply Hne, (so_codes _ _ Ht j id n m)|]. intros f [= <-]. by eapply Hno.
Qed.

Lemma h_grouped t0 key source visibility now make : sound t0 →
  hoare (on t0) (grouped ToLower out key source visibility now (created mysqlNumber ToLower out random make))
    (λ r t, grouping t0 key source visibility now make r.1 r.2 t) (λ _, faulty ∨ (no_open t0 key ∧ unknown t0 key ∧ no_code t0 make)).
Proof.
  intros Ht. unfold grouped. eapply h_bind; [eapply h_weaken; [apply (h_FindOpen key t0)|done|intros a b H; exact H|done]|].
  intros r. apply h_pure. intros Hr. destruct r as [i|err].
  { destruct Hr as (m & Ho & Hi). apply h_ret. intros b ->. rewrite Hi. by apply GOpen. }
  destruct (errors_Is err ErrNotFound) eqn:E; cbn [negb]; [|by apply h_throw; auto].
  eapply h_bind; [eapply h_weaken; [apply (h_FindLatest key t0)|done|intros a b H; exact H|done]|].
  intros r. apply h_pure. intros Hl. destruct r as [i|err'].
  - destruct Hl as (m & Hl & Hi). pose proof Hl as [Hm _]. set (i' := reopen _ _ _).
    assert (in_ID i' = in_ID i) as Eid by done. assert (violation t0 (in_ID i) (modelOf i') = None) as Hv by (subst i'; rewrite Hi; by apply reopen_free).
    eapply h_bind; [apply h_mapErr; eapply h_weaken; [apply (h_UpdateIncident i' t0); by exists m|done|intros a b H; exact H|]|].
    + intros b [_ [?|?]]; [by left|done].
    + intros []. apply h_ret. intros b [_ ->]. rewrite Eid. eapply (GReopened _ _ _ _ _ _ (in_ID i) m); try done. subst i'. by rewrite Hi.
  - destruct (errors_Is err' ErrNotFound); cbn [negb]; [|by apply h_throw; auto].
    eapply h_bind; [eapply h_weaken; [apply (h_created make t0)|done|intros a b H; exact H|]|].
    + intros b [_ [?|?]]; auto.
    + intros i. apply h_ret. intros b (d & n & Hn & Hv & -> & ->). by eapply GNew.
Qed.

(** A step that fails only when the database does. *)
Lemma h_bump id f m t0 : ro_rows (incidents t0) !! id = Some m → columns_fit (f m) = true →
  hoare (on t0) (bump ToLower out id f) (λ _ t, t = set_incidents t0 (alter_row f id (incidents t0))) (λ _, faulty).
Proof.
  intros Hm Hf. apply h_mapErr. eapply h_weaken; [apply (h_checked _ t0)|done| |]; cbv beta; rewrite Hm, Hf.
  - by intros [] b [= <-].
  - by intros b [_ [?|[? [= ]]]].
Qed.

Lemma h_writes (f : IncTables → IncTables) g t0 : hoare (on t0) (mapErr g (exec out f)) (λ _ t, t = f t0) (λ _, faulty).
Proof. apply h_mapErr. eapply h_weaken; [apply (h_exec f t0)|done..|]. by intros b [_ ?]. Qed.

Lemma h_opened n t0 : hoare (on t0) (opened out n) (λ _ t, t = announce t0 (AOpened n)) (λ _, faulty).
Proof. apply h_wrapping. eapply h_weaken; [apply (h_exec _ t0)|done..|]. by intros b [_ ?]. Qed.

(** ** A failure that is recorded *)

Definition has_room (f : Failure) : Prop :=
  (Utf8.RuneCount (fl_AffectedModule f) <=? ModuleMax) = true ∧ (Utf8.RuneCount (fl_AffectedRoute f) <=? RouteMax) = true ∧
  (Utf8.RuneCount (fl_Environment f) <=? envMax) = true ∧ (Utf8.RuneCount (fl_ErrorClass f) <=? classMax) = true ∧
  (Utf8.RuneCount (fl_ErrorCode f) <=? codeMax) = true.

Lemma clean_fits s limit : 0 <= limit → (Utf8.RuneCount (clean s limit) <=? limit) = true.
Proof. intros. by apply Z.leb_le, RuneCount_clean. Qed.

Lemma normalized_has_room f : (Utf8.RuneCount env <=? envMax) = true → has_room (normalized json_Valid env f).
Proof.
  intros He. unfold has_room. cbn. split_and!; try (by apply clean_fits). destruct (given _); [by apply clean_fits|done].
Qed.

Lemma sampled_fits limit value old : (Utf8.RuneCount value <=? limit) = true → width limit old = true → width limit (sampled value old) = true.
Proof. intros Hv Ho. unfold sampled. by destruct (given value). Qed.

Lemma counted_fits f id key source now at_ m : has_room f → columns_fit m = true →
  columns_fit (occurrence_counted source at_ (occurrenceOf ToLower id key f now) m) = true.
Proof.
  intros (H1 & H2 & H3 & H4 & H5) Hm. apply columns_fit_elim in Hm as (C1 & C2 & C3 & C4 & C5 & C6 & C7 & C8 & C9).
  apply columns_fit_intro; cbn; first [done|by apply sampled_fits|by apply width_text].
Qed.

(** The row of the incident, and the occurrence beside it. *)
Definition with_occurrence (t : IncTables) (id : Z) (key : string) (f : Failure) (now : Z) : IncTables :=
  set_occurrences t (insert_row (occurrences t) (occurrenceModelOf (occurrenceOf ToLower id key f now))).

(** What a recorded failure leaves: the open incident counted, the latest closed one
    reopened and counted, or a new one, announced; and one occurrence. *)
Inductive captured (t : IncTables) (f : Failure) (now : Z) : IncTables → Prop :=
| CAgain id m key : key = fingerprint ToLower sha256_hex f → open_with t key id m →
    captured t f now (with_occurrence (set_incidents t
      (alter_row (occurrence_counted (Merge (im_Source m) (fl_Source f)) now (occurrenceOf ToLower id key f now)) id (incidents t))) id key f now)
| CReopened id m i key : key = fingerprint ToLower sha256_hex f → no_open t key → latest t key id m →
    i = reopen (seen_from (incident_of id m) (fl_Source f) (im_Visibility m)) key now →
    captured t f now (with_occurrence (set_incidents t
      (alter_row (occurrence_counted (Merge (im_Source m) (fl_Source f)) now (occurrenceOf ToLower id key f now) ∘ rewritten (modelOf i)) id (incidents t))) id key f now)
| CNew d n i key : key = fingerprint ToLower sha256_hex f → no_open t key → unknown t key → random n = Ok d →
    i = opening_incident (code d) key f now → violation t (ro_next (incidents t)) (modelOf i) = None →
    captured t f now (announce (with_occurrence (set_incidents t (insert_row (incidents t) (modelOf i))) (ro_next (incidents t)) key f now)
      (AOpened (openedOf (with_ID i (ro_next (incidents t)))))).

Lemma alter_row_compose {A} (f g : A → A) id (r : rows_of A) : alter_row g id (alter_row f id r) = alter_row (g ∘ f) id r.
Proof.
  unfold alter_row. cbn. f_equal. apply map_eq. intros j. destruct (decide (id = j)) as [->|Hne].
  - rewrite !lookup_alter_eq. by destruct (ro_rows r !! j).
  - by rewrite !lookup_alter_ne.
Qed.

(** No incident has the fingerprint, and no code can be had for a new one. *)
Definition no_room (t : IncTables) (f : Failure) : Prop :=
  let key := fingerprint ToLower sha256_hex f in
  no_open t key ∧ unknown t key ∧ ∃ now, no_code t (λ code, opening_incident code key f now).

Lemma set_incidents_twice t x y : set_incidents (set_incidents t x) y = set_incidents t y.
Proof. done. Qed.

Lemma grouping_found t key source visibility now make i t1 : sound t → grouping t key source visibility now make i false t1 →
  ∃ m, ro_rows (incidents t1) !! in_ID i = Some m ∧ columns_fit m = true.
Proof.
  intros Ht Hg. inversion Hg as [id m [Hm _]|id m j Hno [Hm _] Hj Hv|]; subst; cbn.
  - exists m. split; [done|]. by apply (so_each _ _ Ht id).
  - rewrite lookup_alter_eq, Hm. cbn. eexists. split; [done|]. by apply violation_None in Hv as [? _].
Qed.

Lemma h_CreateOccurrence id key f now t0 :
  hoare (on t0) (CreateOccurrence ToLower out (occurrenceOf ToLower id key f now)) (λ _ t, t = with_occurrence t0 id key f now) (λ _, faulty).
Proof. apply h_writes. Qed.

Lemma h_record f t0 : sound t0 → has_room f →
  hoare (on t0) (record mysqlNumber ToLower sha256_hex out random f) (λ _ t, ∃ now, captured t0 f now t) (λ _, faulty ∨ no_room t0 f).
Proof.
  intros Ht Hf. unfold record. set (key := fingerprint _ _ f). eapply h_bind; [eapply h_weaken; [apply (h_now (on t0))|done|intros a b H; exact H|done]|].
  intros now. eapply h_bind; [eapply h_weaken; [apply (h_grouped t0 key (fl_Source f) in_Visibility now (λ c, opening_incident c key f now) Ht)|done|intros a b H; exact H|]|].
  { intros b [?|(? & ? & ?)]; [by left|]. right. split_and!; [done..|]. by exists now. }
  intros [i new]. apply h_from. cbn [fst snd]. intros t1 Hg. destruct new.
  - eapply h_bind with (R := λ _, on t1); [by apply h_ret|]. intros _.
    eapply h_bind; [apply h_mapErr; eapply h_weaken; [apply (h_CreateOccurrence (in_ID i) key f now t1)|done|intros a b H; exact H|auto]|]. intros [].
    apply h_mapErr. eapply h_weaken; [apply h_opened|intros b H; exact H| |auto]. intros _ b ->. exists now. inversion Hg as [| |d n Hno Hun Hr Hv]; subst. by eapply CNew.
  - destruct (grouping_found _ _ _ _ _ _ _ _ Ht Hg) as (m1 & Hm1 & Hf1).
    eapply h_bind; [apply h_mapErr; eapply h_weaken; [apply (h_bump _ _ m1 t1 Hm1); by apply counted_fits|done|intros a b H; exact H|auto]|]. intros [].
    eapply h_bind; [apply h_mapErr; eapply h_weaken; [eapply h_CreateOccurrence|intros b H; exact H|intros a b H; exact H|auto]|]. intros [].
    apply h_ret. intros b ->. exists now. inversion Hg as [id m Hop|id m j Hno Hl Hj Hv|]; subst; cbn [in_ID in_Source seen_from reopen changed_incident incident_of].
    + by eapply CAgain.
    + rewrite set_incidents_twice. cbn [incidents set_incidents]. rewrite alter_row_compose. by eapply CReopened.
Qed.

(** A new incident of a failure is refused for its code alone. *)
Lemma runes_ascii c s : (Str.code c <? 128) = true → Utf8.runes (String c s) = Str.code c :: Utf8.runes s.
Proof. intros H. unfold Utf8.runes. cbn [String.length Utf8.runes_go]. unfold Utf8.decode. by rewrite H. Qed.

Lemma title_fits f : (Utf8.RuneCount (title f) <=? TitleMax) = true.
Proof.
  unfold title. case_bool_decide; [|repeat case_match; try (by apply Z.leb_le, RuneCount_clip); by vm_compute].
  pose proof (RuneCount_clip (firstLine (fl_Message f)) snippetMax ltac:(done)) as Hc. unfold Utf8.RuneCount in *.
  rewrite !Str.app_cons, Str.app_empty_l. rewrite !runes_ascii by reflexivity. rewrite !length_cons. apply Z.leb_le. unfold TitleMax, snippetMax in *. lia.
Qed.

Lemma opening_fits f c key now : has_room f → width 32 (Some c) = true → columns_fit (modelOf (opening_incident c key f now)) = true.
Proof.
  intros (H1 & H2 & H3 & H4 & H5) Hc. apply columns_fit_intro; cbn; try done; try (by apply width_text). apply title_fits.
Qed.

Lemma opening_refused t f c key now : has_room f → no_open t key →
  violation t (ro_next (incidents t)) (modelOf (opening_incident c key f now)) ≠ None →
  width 32 (Some c) = false ∨ ∃ id m, ro_rows (incidents t) !! id = Some m ∧ im_PublicCode m = c.
Proof.
  intros Hf Hno. intros H. destruct (width 32 (Some c)) eqn:Hw; [right|by left]. revert H. unfold violation. rewrite opening_fits by done. cbn [negb].
  case_bool_decide as Hc; [|done]. intros _. destruct (ids_where _ _) as [|id ids] eqn:E; [done|].
  assert (id ∈ ids_where (incidents t) (clashes (modelOf (opening_incident c key f now)) (ro_next (incidents t)))) as Hin by (rewrite E; left).
  apply elem_of_select in Hin as (m & Hm & Hcl). exists id, m. split; [done|]. unfold clashes in Hcl.
  apply andb_true_iff in Hcl as [_ [Hcode%bool_decide_eq_true|[_ Ho%bool_decide_eq_true]%andb_true_iff]%orb_true_iff]; [done|]. by apply (Hno id m Hm) in Ho.
Qed.

(** A write that is tried again keeps all of one try, or nothing. *)
Lemma h_transact {A} (work : stM (Env IncTables) error A) t0 Q (φ : Prop) : hoare (on t0) work Q (λ _, φ) →
  hoare (on t0) (transact out work) Q (λ t, t = t0 ∧ (faulty ∨ φ)).
Proof.
  alone. intros Hw. unfold transact.
  assert (∀ rounds last, (rounds = O → faulty ∨ φ) → hoare (on t0) (transact_loop out rounds last work) Q (λ t, t = t0 ∧ (faulty ∨ φ))) as H;
    [|by apply H].
  induction rounds as [|rounds IH]; intros last Hz; cbn [transact_loop]; [apply h_throw; naive_solver|].
  eapply h_bind with (R := λ r t, match r with Ok a => Q a t | Err _ => t = t0 ∧ (faulty ∨ φ) end).
  - intros e He. unfold attempt, Transaction. specialize (Hw e He). destruct (work e) as [[a|err] e']; [|auto].
    destruct (fault out (moment e')) eqn:E; [|done]. split; [done|]. left. by eexists _, _.
  - intros [a|err]; [by apply h_ret|]. destruct (lostRace err); [|by apply h_throw].
    intros e [He Hφ]. unfold ended, Done, mbind, stM_bind. cbn. destruct (cancelled out (moment e)); [done|]. apply (IH err); auto.
Qed.

Lemma h_Capture f t0 : sound t0 → (Utf8.RuneCount env <=? envMax) = true →
  hoare (on t0) (Capture mysqlNumber ToLower sha256_hex json_Valid out random env f)
    (λ _ t, if blank (fl_Message f) then t = t0 else ∃ now, captured t0 (normalized json_Valid env f) now t)
    (λ t, t = t0 ∧ (faulty ∨ no_room t0 (normalized json_Valid env f))).
Proof.
  intros Ht He. unfold Capture. destruct (blank (fl_Message f)); [by apply h_ret|].
  eapply h_weaken; [eapply h_transact, h_record; [done|by apply normalized_has_room]|done..|]. naive_solver.
Qed.

(** ** Soundness of what is recorded *)

Lemma counted_sound t p id o source at_ m : sound_incident t p id m → p = PNone → columns_fit (occurrence_counted source at_ o m) = true →
  sound_incident t (POccurrence id) id (occurrence_counted source at_ o m).
Proof.
  intros [S1 S2 S3 S4 S5 S6] -> Hf. split; cbn; try done. rewrite bool_decide_eq_true_2 by done. rewrite bool_decide_eq_false_2 in S5 by done. cbn in *. lia.
Qed.

Lemma reopened_sound t id m source visibility key now : sound_incident t PNone id m → im_Fingerprint m = key →
  sound_incident t PNone id (rewritten (modelOf (reopen (seen_from (incident_of id m) source visibility) key now)) m).
Proof.
  intros [S1 S2 S3 S4 S5 S6] <-. split; cbn; try done. pose proof (reopen_fits id m source visibility (im_Fingerprint m) now S6) as H.
  apply columns_fit_elim in H. apply columns_fit_intro; cbn in *; naive_solver.
Qed.

Lemma announce_sound t a : sound t → sound (announce t a).
Proof. by apply sound_same. Qed.
Lemma watchers_sound t x : sound t → sound (set_watchers t x).
Proof. by apply sound_same. Qed.

Lemma captured_sound t f now t' : sound t → has_room f → captured t f now t' → sound t'.
Proof.
  alone. intros Ht Hf Hc. destruct Hc as [id m key Hk [Hm Ho]|id m i key Hk Hno (Hm & Hfp & Hl) ->|d n i key Hk Hno Hun Hr -> Hv].
  - apply (occurrence_arrives _ id); [|done|cbn; rewrite lookup_alter_eq, Hm; by eexists]. apply bump_sound; [done..| |set_solver].
    intros m' _ Hs. eapply counted_sound; [done..|]. by apply counted_fits, Hs.
  - apply (occurrence_arrives _ id); [|done|cbn; rewrite lookup_alter_eq, Hm; by eexists].
    eapply alter_sound; [done| |].
    + intros m' Hm'. rewrite Hm in Hm'. injection Hm' as <-. pose proof (so_each _ _ Ht id m Hm) as Hs.
      pose proof (reopened_sound t id m (fl_Source f) (im_Visibility m) key now Hs Hfp) as Hr. split; [|split; [right|]].
      * eapply counted_sound; [done..|]. by apply counted_fits, Hr.
      * intros j x Hj Hne. cbn. split; [intros E; by apply Hne, (so_codes _ _ Ht j id x m)|]. intros g [= <-]. by eapply Hno.
      * intros d Hd. right. by eapply (so_duplicates _ _ Ht id m).
    + intros j x Hne [S1 S2 S3 S4 S5 S6]. split; try done; rewrite bool_decide_eq_false_2 in *; try done; congruence.
  - apply announce_sound, (occurrence_arrives _ (ro_next (incidents t))); [|done|cbn; rewrite lookup_insert_eq; by eexists].
    apply (insert_sound _ _ _ (ro_next (incidents t))); auto. by rewrite bool_decide_eq_true_2.
Qed.

(** ** Reports, comments and changes *)

Lemma grouping_sound t key source visibility now make i new t1 : sound t → grouping t key source visibility now make i new t1 →
  (∀ c, im_Status (modelOf (make c)) = StatusNew ∧ im_Fingerprint (modelOf (make c)) = key ∧ im_OpenFingerprint (modelOf (make c)) = Some key ∧
     im_ReportCount (modelOf (make c)) = 1 ∧ im_CommentCount (modelOf (make c)) = 0 ∧ im_OccurrenceCount (modelOf (make c)) = 0) →
  sound_with (if new then PReport (in_ID i) else PNone) t1 ∧ is_Some (ro_rows (incidents t1) !! in_ID i).
Proof.
  intros Ht Hg Hmake. inversion Hg as [id m [Hm _]|id m j Hno (Hm & Hfp & _) Hj Hv|d n Hno Hun Hr Hv]; subst.
  - split; [done|by exists m].
  - split; [|cbn; rewrite lookup_alter_eq, Hm; by eexists]. eapply alter_sound; [done| |done].
    intros m' Hm'. rewrite Hm in Hm'. injection Hm' as <-. split; [apply reopened_sound; [by apply (so_each _ _ Ht)|done]|].
    apply violation_None in Hv as (_ & Hd & Hv). split; [by right|]. apply Hd.
  - destruct (Hmake (code d)) as (H1 & H2 & H3 & H4 & H5 & H6). split; [|cbn; rewrite lookup_insert_eq; by eexists].
    cbn [in_ID with_ID]. apply (insert_sound _ _ _ (ro_next (incidents t))); auto.
    + by rewrite H1.
    + by rewrite H1, H2, H3.
    + rewrite H4. by rewrite bool_decide_eq_true_2.
    + rewrite H6. by rewrite bool_decide_eq_false_2.
Qed.

Lemma report_counted_sound t id source visibility reporter at_ m : sound_incident t PNone id m →
  sound_incident t (PReport id) id (report_counted source visibility reporter at_ m).
Proof. intros [S1 S2 S3 S4 S5 S6]. split; cbn; try done. rewrite bool_decide_eq_true_2 by done. rewrite bool_decide_eq_false_2 in S3 by done. cbn in *. lia. Qed.

Lemma comment_counted_sound t id at_ m : sound_incident t PNone id m → sound_incident t (PComment id) id (comment_counted at_ m).
Proof. intros [S1 S2 S3 S4 S5 S6]. split; cbn; try done. rewrite bool_decide_eq_true_2 by done. rewrite bool_decide_eq_false_2 in S4 by done. cbn in *. lia. Qed.

(** The person watches the incident. *)
Definition watched (t : IncTables) (id person at_ : Z) : IncTables :=
  if person <=? 0 then t else
  set_watchers t (if bool_decide (is_Some (watchers t !! (id, person))) then watchers t else <[(id, person) := whole at_]> (watchers t)).

Lemma watched_sound t id person at_ : sound t → sound (watched t id person at_).
Proof. intros. unfold watched. destruct (_ <=? _); [done|by apply watchers_sound]. Qed.

Lemma h_watch id person at_ t0 : hoare (on t0) (watch ToLower out id person at_) (λ _ t, t = watched t0 id person at_) (λ _, faulty).
Proof.
  apply h_mapErr. unfold Watch, watched. destruct (_ <=? _); [by apply h_ret|].
  eapply h_weaken; [apply (h_writes _ _ t0)|done..].
Qed.

(** What a filed report leaves. *)
Inductive filed (t : IncTables) (inp : ReportInput) (reporter now : Z) : Z → IncTables → Prop :=
| Filed i new t1 key : key = report_key ToLower sha256_hex inp →
    grouping t key SourceUserReport (λ _, VisibilityShared) now (λ c, reported_incident c key inp reporter now) i new t1 →
    filed t inp reporter now (in_ID i)
      (let t2 := if (new : bool) then announce t1 (AOpened (openedOf i))
                 else set_incidents t1 (alter_row (report_counted (in_Source i) (in_Visibility i) (Some reporter) now) (in_ID i) (incidents t1)) in
       watched (set_reports t2 (insert_row (reports t2) (reportModelOf (reportOf (in_ID i) reporter inp now)))) (in_ID i) reporter now).

Lemma h_fileReport reporter inp t0 : sound t0 →
  hoare (on t0) (fileReport mysqlNumber ToLower sha256_hex out random reporter inp) (λ id t, ∃ now, filed t0 inp reporter now id t)
    (λ _, faulty ∨ (let key := report_key ToLower sha256_hex inp in
       no_open t0 key ∧ unknown t0 key ∧ ∃ now, no_code t0 (λ c, reported_incident c key inp reporter now))).
Proof.
  intros Ht. unfold fileReport. set (key := report_key _ _ inp). eapply h_bind; [eapply h_weaken; [apply (h_now (on t0))|done|intros a b H; exact H|done]|].
  intros now. eapply h_bind; [eapply h_weaken; [apply (h_grouped t0 key SourceUserReport (λ _, VisibilityShared) now (λ c, reported_incident c key inp reporter now) Ht)|done|intros a b H; exact H|]|].
  { intros b [?|(? & ? & ?)]; [by left|]. right. split_and!; [done..|]. by exists now. }
  intros [i new]. apply h_from. cbn [fst snd]. intros t1 Hg.
  eapply h_bind with (R := λ _ t, t = if new then announce t1 (AOpened (openedOf i))
    else set_incidents t1 (alter_row (report_counted (in_Source i) (in_Visibility i) (Some reporter) now) (in_ID i) (incidents t1))).
  { apply h_mapErr. destruct new; [eapply h_weaken; [apply (h_opened _ t1)|done..|auto]|].
    destruct (grouping_found _ _ _ _ _ _ _ _ Ht Hg) as (m1 & Hm1 & Hf1). eapply h_weaken; [apply (h_bump _ _ m1 t1 Hm1); exact Hf1|done..|auto]. }
  intros _. eapply h_bind; [apply h_mapErr; eapply h_weaken; [apply h_writes|intros b H; exact H|intros a b H; exact H|auto]|]. intros [].
  eapply h_bind; [eapply h_weaken; [apply h_watch|intros b H; exact H|intros a b H; exact H|auto]|]. intros [].
  apply h_ret. intros b ->. exists now. by eapply (Filed t0 inp reporter now i new t1 key).
Qed.

Lemma filed_sound t inp reporter now id t' : sound t → filed t inp reporter now id t' → sound t'.
Proof.
  alone. intros Ht Hf. destruct Hf as [i new t1 key Hk Hg]. apply watched_sound.
  destruct (grouping_sound _ _ _ _ _ _ _ _ _ Ht Hg) as [Hs Hi]; [done|]. destruct new.
  - apply (report_arrives _ (in_ID i)); [|done|done]. by apply (sound_same _ t1).
  - apply (report_arrives _ (in_ID i)); [|done|destruct Hi as [m Hm]; cbn; rewrite lookup_alter_eq, Hm; by eexists].
    apply bump_sound; [done..| |set_solver]. intros m _ Hm. by apply report_counted_sound.
Qed.

Definition sees (t : IncTables) (who : Viewer) (id : Z) (m : incidentModel) : Prop := ro_rows (incidents t) !! id = Some m ∧ visible t who id m = true.

Lemma h_store_Find id who t0 :
  hoare (on t0) (store_Find out id who) (λ i t, (∃ m, sees t0 who id m ∧ i = incident_of id m) ∧ t = t0) (on t0).
Proof.
  unfold store_Find. eapply h_bind; [apply h_wrapping; eapply h_weaken; [apply (h_query _ t0)|done|intros a b H; exact H|by intros b [-> _]]|].
  intros row. apply h_pure. intros ->. destruct (ro_rows (incidents t0) !! id) as [m|] eqn:Hm; [|by apply h_throw].
  destruct (visible t0 who id m) eqn:Hv; [|by apply h_throw]. apply h_ret. intros b ->. split; [|done]. by exists m.
Qed.

(** What a comment leaves. *)
Definition commented (t : IncTables) (c : Comment) (now : Z) : IncTables :=
  let t2 := set_incidents t (alter_row (comment_counted now) (co_IncidentID c) (incidents t)) in
  let c' := mkComment (co_ID c) (co_IncidentID c) (co_AuthorUserID c) (co_Visibility c) (co_Body c) (co_EditedAt c) (co_DeletedAt c) now now (co_Author c) in
  watched (set_comments t2 (insert_row (comments t2) (commentModelOf c'))) (co_IncidentID c) (co_AuthorUserID c) now.

Lemma h_addComment who c t0 : sound t0 →
  hoare (on t0) (addComment ToLower out who c)
    (λ _ t, (∃ m, sees t0 who (co_IncidentID c) m) ∧ ∃ now, t = commented t0 c now) (λ _, True).
Proof.
  intros Ht. unfold addComment. eapply h_bind; [apply h_wrapping; eapply h_weaken; [apply (h_store_Find _ who t0)|done|intros a b H; exact H|done]|].
  intros i. apply h_pure. intros (m & Hs & _). pose proof Hs as [Hm _].
  eapply h_bind; [eapply h_weaken; [apply (h_now (on t0))|done|intros a b H; exact H|done]|]. intros now.
  eapply h_bind; [apply h_mapErr; eapply h_weaken; [apply (h_bump _ _ m t0 Hm); apply (so_each _ _ Ht _ m Hm)|done|intros a b H; exact H|done]|]. intros [].
  eapply h_bind; [apply h_mapErr, h_mapErr; eapply h_weaken; [apply h_stmt|intros b H; exact H|intros a b H; exact H|done]|]. intros cid.
  apply h_from. intros t2 [= <- <-]. eapply h_bind; [eapply h_weaken; [apply h_watch|intros b H; exact H|intros a b H; exact H|done]|]. intros [].
  apply h_ret. intros b ->. split; [by exists m|]. by exists now.
Qed.

Lemma commented_sound t c now m : sound t → ro_rows (incidents t) !! co_IncidentID c = Some m → sound (commented t c now).
Proof.
  alone. intros Ht Hm. apply watched_sound, (comment_arrives _ (co_IncidentID c)); [|done|cbn; rewrite lookup_alter_eq, Hm; by eexists].
  apply bump_sound; [done..| |set_solver]. intros. by apply comment_counted_sound.
Qed.

Lemma h_changing id who inp t0 :
  hoare (on t0) (changing ToLower out id who inp)
    (λ _ t, ∃ m now, sees t0 who id m ∧ violation t0 id (modelOf (apply (incident_of id m) inp now)) = None ∧
       t = set_incidents t0 (alter_row (rewritten (modelOf (apply (incident_of id m) inp now))) id (incidents t0))) (λ _, True).
Proof.
  unfold changing. eapply h_bind; [apply h_wrapping; eapply h_weaken; [apply (h_store_Find _ who t0)|done|intros a b H; exact H|done]|].
  intros i. apply h_pure. intros (m & Hs & ->). eapply h_bind; [eapply h_weaken; [apply (h_now (on t0))|done|intros a b H; exact H|done]|]. intros now.
  assert (in_ID (apply (incident_of id m) inp now) = id) as Eid by (unfold apply; by destruct (if given _ then _ else _) as [[? ?] ?], (setTicket _ _) as [[? ?] ?]).
  eapply h_weaken; [apply (h_UpdateIncident _ t0); rewrite Eid; destruct Hs as [Hm _]; by exists m|done| |done].
  intros [] b. rewrite Eid. intros [Hv ->]. by exists m, now.
Qed.

Lemma update_validate_status inp : update_validate inp = None → ui_Status inp = "" ∨ status_Valid (ui_Status inp) = true.
Proof.
  unfold update_validate. cbn [refuse]. unfold given at 1. case_bool_decide as H; cbn [andb].
  - destruct (status_Valid (ui_Status inp)); [by right|done].
  - by left.
Qed.

Lemma status_trimmed s : status_Valid s = true → Utf8.TrimSpace s = s.
Proof. unfold status_Valid. rewrite contains_spec. intros H. repeat (apply elem_of_cons in H as [->|H]; [by vm_compute|]). by apply not_elem_of_nil in H. Qed.

(** A change of the state keeps it known, and the open fingerprint with it. *)
Lemma changed_sound t id m inp now : sound_incident t PNone id m → (ui_Status inp = "" ∨ status_Valid (ui_Status inp) = true) →
  columns_fit (modelOf (apply (incident_of id m) inp now)) = true →
  sound_incident t PNone id (rewritten (modelOf (apply (incident_of id m) inp now)) m).
Proof.
  intros [S1 S2 S3 S4 S5 S6] Hst Hf. unfold apply in *.
  destruct (if given (ui_Status inp) then _ else _) as [[status open] resolved] eqn:Es. destruct (setTicket _ _) as [[provider ticket] url].
  assert (status_Valid status = true ∧ open = if IsOpen status then Some (im_Fingerprint m) else None) as [Hs Ho].
  { unfold given in Es. case_bool_decide as H; [|by injection Es as <- <- <-]. destruct Hst as [|Hst]; [done|].
    unfold setStatus in Es. destruct (IsOpen (ui_Status inp)) eqn:Eo; injection Es as <- <- <-; by rewrite Eo. }
  split; cbn; try done.
Qed.

Lemma changing_sound t id who inp m now : sound t → update_validate inp = None → sees t who id m →
  violation t id (modelOf (apply (incident_of id m) (update_sanitize inp) now)) = None →
  sound (set_incidents t (alter_row (rewritten (modelOf (apply (incident_of id m) (update_sanitize inp) now))) id (incidents t))).
Proof.
  intros Ht Hval [Hm _] Hv. apply violation_None in Hv as (Hf & Hd & Hv). eapply alter_sound; [done| |done].
  intros m' Hm'. rewrite Hm in Hm'. injection Hm' as <-. split; [|split; [by right|apply Hd]].
  apply changed_sound; [by apply (so_each _ _ Ht)| |done]. cbn. destruct (update_validate_status inp Hval) as [->|H]; [by left; vm_compute|right].
  by rewrite status_trimmed.
Qed.

(** ** Reading *)

(** What a person is shown of an incident they may see. *)
Record discloses (t : IncTables) (who : Viewer) (id : Z) (rs : list Report) (cs : list Comment) : Prop := mkDiscloses {
  dc_seen : ∃ m, sees t who id m;
  dc_reports : ∀ r, r ∈ rs → re_IncidentID r = Some id ∧ (vw_Staff who = true ∨ re_ReportedByUserID r = vw_UserID who);
  dc_comments : ∀ c, c ∈ cs → co_IncidentID c = id ∧ co_DeletedAt c = None ∧ (vw_Staff who = true ∨ co_Visibility c = CommentPublic)
}.

Lemma elem_of_take_sorted {A} n leb (l : list A) x : x ∈ take n (stable_sort leb l) → x ∈ l.
Proof. intros H. rewrite <-(stable_sort_perm leb l). by eapply elem_of_take in H as (i & H & _); apply list_elem_of_lookup_2 in H. Qed.

Lemma reports_of_own t id who r : r ∈ reports_of t id who → re_IncidentID r = Some id ∧ (vw_Staff who = true ∨ re_ReportedByUserID r = vw_UserID who).
Proof.
  intros ([i row] & Hin & Hr)%elem_of_take_sorted%list_elem_of_omap. apply list_elem_of_fmap in Hin as (j & [= -> ->] & (m & Hm & Hp)%elem_of_select).
  rewrite Hm in Hr. injection Hr as <-. cbn in *. apply andb_true_iff in Hp as [Hp%bool_decide_eq_true Ho]. split; [done|].
  apply orb_true_iff in Ho as [?|?%Z.eqb_eq]; auto.
Qed.

Lemma comments_of_shown t id who c : c ∈ comments_of t id who →
  co_IncidentID c = id ∧ co_DeletedAt c = None ∧ (vw_Staff who = true ∨ co_Visibility c = CommentPublic).
Proof.
  intros ([i row] & Hin & Hr)%elem_of_take_sorted%list_elem_of_omap. apply list_elem_of_fmap in Hin as (j & [= -> ->] & (m & Hm & Hp)%elem_of_select).
  rewrite Hm in Hr. injection Hr as <-. cbn in *. apply andb_true_iff in Hp as [[Hi%Z.eqb_eq Hd%bool_decide_eq_true]%andb_true_iff Ho].
  split; [done|]. split; [done|]. apply orb_true_iff in Ho as [?|?%bool_decide_eq_true]; auto.
Qed.

Lemma h_names ids t0 : hoare (on t0) (names people ids) (λ _, on t0) (on t0).
Proof.
  unfold names. destruct (unique_ids ids) as [|id ids']; [by apply h_ret|].
  eapply h_bind with (R := λ _, on t0); [apply h_mapErr; by apply h_ask|]. intros ps. by apply h_ret.
Qed.

(** A read that leaves the tables. *)
Lemma h_reads {A} (f : IncTables → A) what g t0 : hoare (on t0) (mapErr g (wrapping what (query out f))) (λ a t, a = f t0 ∧ t = t0) (on t0).
Proof. apply h_mapErr, h_wrapping. eapply h_weaken; [apply (h_query f t0)|done..|]. by intros b [-> _]. Qed.

Lemma h_Show id who t0 :
  hoare (on t0) (Show out people id who) (λ d t, discloses t0 who id (de_Reports d) (de_Comments d) ∧ t = t0) (on t0).
Proof.
  unfold Show. destruct (id <=? 0); [by apply h_throw|]. eapply h_bind; [apply h_mapErr, (h_store_Find id who t0)|].
  intros i. apply h_pure. intros (m & Hs & _). eapply h_bind; [apply (h_reads _ _ _ t0)|]. intros rs. apply h_pure. intros ->.
  eapply h_bind; [apply (h_reads _ _ _ t0)|]. intros cs. apply h_pure. intros ->.
  eapply h_bind with (R := λ d t, discloses t0 who id (de_Reports d) (de_Comments d) ∧ t = t0).
  - unfold name_. eapply h_bind; [apply h_names|]. intros ps. apply h_ret. intros b ->. split; [|done]. cbn. split; [by exists m|..].
    + intros r (r' & -> & Hr%reports_of_own)%list_elem_of_fmap. done.
    + intros c (c' & -> & Hc%comments_of_shown)%list_elem_of_fmap. done.
  - intros d. apply h_pure. intros Hd. destruct (0 <? vw_UserID who); [|by apply h_ret].
    eapply h_bind; [apply (h_reads _ _ _ t0)|]. intros w. apply h_pure. intros _. by apply h_ret.
Qed.

Lemma h_Comments id who t0 : hoare (on t0) (Comments out people id who) (λ cs t, discloses t0 who id [] cs ∧ t = t0) (on t0).
Proof.
  unfold Comments. destruct (id <=? 0); [by apply h_throw|]. eapply h_bind; [apply h_mapErr, (h_store_Find id who t0)|].
  intros i. apply h_pure. intros (m & Hs & _). eapply h_bind; [apply (h_reads _ _ _ t0)|]. intros cs. apply h_pure. intros ->.
  eapply h_bind; [apply h_names|]. intros ps. apply h_ret. intros b ->. split; [|done]. split; [by exists m|by intros ? ?%elem_of_nil|].
  intros c (c' & -> & Hc%comments_of_shown)%list_elem_of_fmap. done.
Qed.

(** ** Whole calls *)

Lemma h_signedIn who P : hoare P (signedIn who) (λ id t, (id = vw_UserID who ∧ 0 < id) ∧ P t) P.
Proof. unfold signedIn. destruct (Z.leb_spec (vw_UserID who) 0); [by apply h_throw|]. apply h_ret. auto. Qed.

Lemma h_FileReport who inp t0 : sound t0 →
  hoare (on t0) (FileReport mysqlNumber ToLower sha256_hex json_Valid out people random who inp)
    (λ _ t, ∃ now id, filed t0 (report_sanitize json_Valid inp) (vw_UserID who) now id t)
    (λ t, t = t0 ∨ ∃ now id, filed t0 (report_sanitize json_Valid inp) (vw_UserID who) now id t).
Proof.
  intros Ht. unfold FileReport. eapply h_bind; [eapply h_weaken; [apply (h_signedIn who (on t0))|done|intros a b H; exact H|auto]|].
  intros reporter. apply h_pure. intros [-> _]. eapply h_bind with (R := λ _, on t0); [apply h_check; auto|]. intros _.
  eapply h_bind; [eapply h_weaken; [eapply h_transact, h_fileReport, Ht|done|intros a b H; exact H|by intros b [-> _]; left]|].
  intros id. apply h_from. intros t1 [now Hf]. eapply h_weaken; [apply (h_Show id who t1)|done|by intros d b [_ ->]; exists now, id|].
  intros b ->. right. by exists now, id.
Qed.

Lemma h_AddComment id who inp t0 : sound t0 →
  hoare (on t0) (AddComment ToLower out people id who inp) (λ _ t, (∃ m, sees t0 who id m) ∧ sound t) (λ t, t = t0 ∨ (∃ m, sees t0 who id m) ∧ sound t).
Proof.
  intros Ht. unfold AddComment. eapply h_bind; [eapply h_weaken; [apply (h_signedIn who (on t0))|done|intros a b H; exact H|auto]|].
  intros author. apply h_pure. intros [-> _]. destruct (id <=? 0); [apply h_throw; auto|].
  eapply h_bind with (R := λ _, on t0); [apply h_check; auto|]. intros _.
  eapply h_bind; [apply h_mapErr; eapply h_weaken; [eapply h_transact, h_addComment, Ht|done|intros a b H; exact H|by intros b [-> _]; left]|].
  intros c. apply h_from. intros t1 [[m Hs] [now ->]]. assert (sound (commented t0 (mkComment 0 id (vw_UserID who)
    (if vw_Staff who then ci_Visibility (comment_sanitize inp) else CommentPublic) (ci_Body (comment_sanitize inp)) None None 0 0 None) now)) as Hsd.
  { apply (commented_sound _ _ _ m); [done|]. by destruct Hs. }
  eapply h_bind; [eapply h_weaken; [apply h_names|intros b H; exact H|intros a b H; exact H|]|]; [intros b ->; right; eauto|].
  intros ps. apply h_ret. intros b ->. eauto.
Qed.

Lemma h_incident_Update id who inp t0 : sound t0 →
  hoare (on t0) (Update ToLower out people id who inp) (λ _ t, (∃ m, sees t0 who id m) ∧ sound t) (λ t, t = t0 ∨ (∃ m, sees t0 who id m) ∧ sound t).
Proof.
  alone. intros Ht. unfold Update. eapply h_bind; [eapply h_weaken; [apply (h_signedIn who (on t0))|done|intros a b H; exact H|auto]|].
  intros u. apply h_pure. intros _. destruct (id <=? 0); [apply h_throw; auto|].
  eapply h_bind with (R := λ _ t, update_validate inp = None ∧ t = t0); [apply h_check; auto|]. intros _. apply h_pure. intros Hval.
  eapply h_bind; [apply h_mapErr; eapply h_weaken; [eapply h_transact, (h_changing id who _ t0)|done|intros a b H; exact H|by intros b [-> _]; left]|].
  intros []. apply h_from. intros t1 (m & now & Hs & Hv & ->). pose proof (changing_sound _ _ _ _ _ _ Ht Hval Hs Hv) as Hsd.
  eapply h_weaken; [apply h_Show|intros b H; exact H| |]; cbv beta; naive_solver.
Qed.

Lemma h_ClientError who tenant inp t0 : sound t0 → (Utf8.RuneCount env <=? envMax) = true →
  hoare (on t0) (ClientError mysqlNumber ToLower sha256_hex json_Valid out random Marshal env who tenant inp) (λ _, sound) sound.
Proof.
  intros Ht He. unfold ClientError. eapply h_bind; [eapply h_weaken; [apply (h_signedIn who (on t0))|done|intros a b H; exact H|by intros b ->]|].
  intros person. apply h_pure. intros _. destruct (blank (ce_Message inp)); [apply h_throw; by intros b ->|].
  eapply h_bind with (R := λ _, on t0); [apply h_mapErr, h_lift; [by intros b ->|done]|]. intros details.
  eapply h_weaken; [apply (h_Capture _ t0 Ht He)|done| |by intros b [-> _]].
  intros [] b. cbn [fl_Message]. destruct (blank (ce_Message inp)); [by intros ->|]. intros [now Hc]. eapply captured_sound; [exact Ht| |exact Hc]. by apply normalized_has_room.
Qed.
End Runs.

(** * Sweeps and digests of incidents

    The loops end: a sweep deletes exactly the old occurrences that are not the newest
    of their incident, a flush leaves nothing waiting and puts every item in one
    digest. *)

Section Loop.
Variables (out : Outside) (victims : IncTables → list Z) (remove : list Z → IncTables → IncTables) (prune : stM (Env IncTables) error nat).
(** A round: nothing and an error, or the first [pruneBatch] of what is to go. *)
Context (round : ∀ e, match prune e with
                      | (Ok n, e') => tables e' = remove (take pruneBatch (victims (tables e))) (tables e) ∧ n = length (take pruneBatch (victims (tables e)))
                      | (Err _, e') => tables e' = tables e ∧ faulty out
                      end).
Context (remove_nil : ∀ t, remove [] t = t) (remove_app : ∀ t a b, remove b (remove a t) = remove (a ++ b) t).
Context (left_over : ∀ t k, victims (remove (take k (victims t)) t) = drop k (victims t)).

Lemma prune_loop_spec fuel deleted e : (length (victims (tables e)) < fuel)%nat →
  ∃ k err e', prune_loop fuel prune deleted e = Some (deleted + Z.of_nat k, err, e') ∧ (k <= length (victims (tables e)))%nat ∧
    tables e' = remove (take k (victims (tables e))) (tables e) ∧
    match err with None => k = length (victims (tables e)) | Some _ => faulty out end.
Proof.
  revert deleted e. induction fuel as [|fuel IH]; intros deleted e Hf; [lia|]. cbn [prune_loop]. pose proof (round e) as Hr. unfold wrapping.
  set (v := victims (tables e)) in *. destruct (prune e) as [[n|err] e1].
  - destruct Hr as [Ht Hn]. rewrite length_take in Hn. destruct (Nat.ltb_spec n pruneBatch) as [Hlt|Hge].
    + exists n, None, e1. split_and!; [done|lia| |lia]. rewrite Ht. f_equal. rewrite !take_ge by lia. done.
    + assert (n = pruneBatch) as -> by lia. assert (victims (tables e1) = drop pruneBatch v) as Hv by (rewrite Ht; apply left_over).
      assert (length (drop pruneBatch v) < fuel)%nat as Hl. { rewrite length_drop. unfold pruneBatch in *. lia. }
      destruct (IH (deleted + Z.of_nat pruneBatch) e1) as (k & err & e' & E & Hk & Ht' & He); [by rewrite Hv|].
      rewrite Hv in Hk, Ht', He. rewrite length_drop in Hk. exists (pruneBatch + k)%nat, err, e'. split_and!.
      * rewrite E. do 3 f_equal. lia.
      * lia.
      * rewrite Ht', Ht, remove_app. f_equal. apply take_take_drop.
      * destruct err; [done|]. rewrite He, length_drop. lia.
  - destruct Hr as [Ht Hf']. exists 0%nat. eexists (Some _), e1. split_and!; [by rewrite Z.add_0_r|lia| |done]. by rewrite take_0, remove_nil.
Qed.
End Loop.

(** ** Occurrences *)

Definition old_occurrence (t : IncTables) (before id : Z) (o : occurrenceModel) : bool := (om_OccurredAt o <? whole before) && negb (newest t id o).
Definition old_occurrences (before : Z) (t : IncTables) : list Z := ids_where (occurrences t) (old_occurrence t before).
Definition without_occurrences (ids : list Z) (t : IncTables) : IncTables := set_occurrences t (without_rows ids (occurrences t)).

(** The newest of the later ones. *)
Lemma newest_after t id o : newest t id o = false →
  ∃ z oz, ro_rows (occurrences t) !! z = Some oz ∧ om_IncidentID oz = om_IncidentID o ∧ id < z ∧ newest t z oz = true.
Proof.
  unfold newest. rewrite bool_decide_eq_false. set (later := ids_where _ _). intros Hne. destruct (list.last later) as [z|] eqn:Hz; [|by apply last_None in Hz].
  pose proof (last_Some_elem_of _ _ Hz) as (oz & Hoz & Hp)%elem_of_select. apply andb_true_iff in Hp as [Hi%Z.eqb_eq Hlt%Z.ltb_lt].
  exists z, oz. split_and!; [done..|]. apply bool_decide_eq_true. apply elem_of_nil_inv. intros j (oj & Hoj & Hpj)%elem_of_select.
  apply andb_true_iff in Hpj as [Hij%Z.eqb_eq Hltj%Z.ltb_lt]. assert (j ∈ later) as Hj.
  { apply elem_of_select. exists oj. split; [done|]. apply andb_true_iff. split; [apply Z.eqb_eq; congruence|apply Z.ltb_lt; lia]. }
  pose proof (sorted_last later j z (Sorted_select _ _) Hz Hj). lia.
Qed.

Lemma newest_without t before k id o : ro_rows (occurrences t) !! id = Some o →
  newest (without_occurrences (take k (old_occurrences before t)) t) id o = newest t id o.
Proof.
  intros Ho. destruct (newest t id o) eqn:E.
  - unfold newest in *. apply bool_decide_eq_true in E. apply bool_decide_eq_true, elem_of_nil_inv. cbn [occurrences without_occurrences set_occurrences].
    intros j [_ (oj & Hoj & Hp)]%elem_of_without. assert (j ∈ ids_where (occurrences t) (λ id' o', (om_IncidentID o' =? om_IncidentID o) && (id <? id'))) as Hj
      by (apply elem_of_select; eauto). rewrite E in Hj. by apply not_elem_of_nil in Hj.
  - destruct (newest_after t id o E) as (z & oz & Hoz & Hi & Hlt & Hnew). unfold newest. apply bool_decide_eq_false. intros Hnil.
    assert (z ∈ ids_where (without_rows (take k (old_occurrences before t)) (occurrences t)) (λ id' o', (om_IncidentID o' =? om_IncidentID o) && (id <? id'))) as Hz.
    { apply elem_of_without. split.
      - intros (i & Hz & _)%elem_of_take. apply list_elem_of_lookup_2, elem_of_select in Hz as (oz' & Hoz' & Hp). rewrite Hoz in Hoz'. injection Hoz' as <-.
        unfold old_occurrence in Hp. by rewrite Hnew, andb_false_r in Hp.
      - exists oz. split; [done|]. by rewrite Hi, Z.eqb_refl, (proj2 (Z.ltb_lt _ _)). }
    cbn in Hnil. rewrite Hnil in Hz. by apply not_elem_of_nil in Hz.
Qed.

Lemma old_occurrences_left before t k :
  old_occurrences before (without_occurrences (take k (old_occurrences before t)) t) = drop k (old_occurrences before t).
Proof.
  apply ids_where_drop. intros id. cbn [occurrences without_occurrences set_occurrences]. rewrite elem_of_without. split.
  - intros (Hni & o & Ho & Hp). split; [|done]. apply elem_of_select. exists o. split; [done|]. unfold old_occurrence in *.
    by rewrite (newest_without t before k id o Ho) in Hp.
  - intros [(o & Ho & Hp)%elem_of_select Hni]. split; [done|]. exists o. split; [done|]. unfold old_occurrence in *. by rewrite (newest_without t before k id o Ho).
Qed.

Section Prune.
Variable out : Outside.

(** A select of ids and the delete of them. *)
Lemma prune_round {A} (rows : IncTables → rows_of A) (p : IncTables → Z → A → bool) (remove : list Z → IncTables → IncTables) what what' e :
  (∀ t, remove [] t = t) →
  match (ids ← wrapping what (query out (λ t, take pruneBatch (ids_where (rows t) (p t))));
         match ids with
         | [] => mret 0%nat
         | _ => wrapping what' (statement out (λ t, (length (ids_where (rows t) (λ id _, contains ids id)), remove ids t)))
         end) e with
  | (Ok n, e') => tables e' = remove (take pruneBatch (ids_where (rows (tables e)) (p (tables e)))) (tables e) ∧
                  n = length (take pruneBatch (ids_where (rows (tables e)) (p (tables e))))
  | (Err _, e') => tables e' = tables e ∧ faulty out
  end.
Proof.
  intros Hnil. unfold mbind, stM_bind, wrapping at 1, query, statement at 1. destruct (fault out (moment e)) eqn:E1; [split; [done|by eexists _, _]|].
  destruct (take _ _) as [|id ids] eqn:Et; [by rewrite Hnil|]. unfold wrapping, statement. cbn [moment tables].
  destruct (fault out (S (moment e))) eqn:E2; [split; [done|by eexists _, _]|]. cbn [tables]. split; [done|]. rewrite <-Et. apply deleted_length.
  - eapply sublist_NoDup; [|apply sublist_take]. apply NoDup_select.
  - intros j (i & Hj & _)%elem_of_take. apply list_elem_of_lookup_2, elem_of_select in Hj as (a & Ha & _). by exists a.
Qed.

Lemma prune_occurrences_spec before fuel e : (length (old_occurrences before (tables e)) < fuel)%nat →
  ∃ k err e', prune_loop fuel (PruneOccurrences out before pruneBatch) 0 e = Some (Z.of_nat k, err, e') ∧
    (k <= length (old_occurrences before (tables e)))%nat ∧
    tables e' = without_occurrences (take k (old_occurrences before (tables e))) (tables e) ∧
    match err with None => k = length (old_occurrences before (tables e)) | Some _ => faulty out end.
Proof.
  apply (prune_loop_spec out (old_occurrences before) without_occurrences).
  - intros e0. apply (prune_round occurrences (λ t, old_occurrence t before) without_occurrences). intros t. unfold without_occurrences. rewrite without_rows_nil. by destruct t.
  - intros t. unfold without_occurrences. rewrite without_rows_nil. by destruct t.
  - intros t a b. unfold without_occurrences. cbn. rewrite without_rows_app. done.
  - apply old_occurrences_left.
Qed.

(** ** Digest items that were sent *)

Definition sent_before (before : Z) (d : digestModel) : bool := match dm_DigestedAt d with Some at_ => at_ <? millis before | None => false end.
Definition old_items (before : Z) (t : IncTables) : list Z := ids_where (digests t) (λ _, sent_before before).
Definition without_items (ids : list Z) (t : IncTables) : IncTables := set_digests t (without_rows ids (digests t)).

Lemma prune_digest_spec before fuel e : (length (old_items before (tables e)) < fuel)%nat →
  ∃ k err e', prune_loop fuel (PruneDigest out before pruneBatch) 0 e = Some (Z.of_nat k, err, e') ∧
    (k <= length (old_items before (tables e)))%nat ∧ tables e' = without_items (take k (old_items before (tables e))) (tables e) ∧
    match err with None => k = length (old_items before (tables e)) | Some _ => faulty out end.
Proof.
  apply (prune_loop_spec out (old_items before) without_items).
  - intros e0. apply (prune_round digests (λ t _, sent_before before) without_items). intros t. unfold without_items. rewrite without_rows_nil. by destruct t.
  - intros t. unfold without_items. rewrite without_rows_nil. by destruct t.
  - intros t a b. unfold without_items. cbn. rewrite without_rows_app. done.
  - intros t k. apply ids_where_drop. intros id. cbn [digests without_items set_digests]. rewrite elem_of_without. unfold ids_where. rewrite elem_of_select. naive_solver.
Qed.
End Prune.

(** ** The digest *)

Definition waiting_ids (t : IncTables) : list Z := ids_where (digests t) (λ _ d, waiting d).
Definition item_at (t : IncTables) (id : Z) : option NewIncident := (λ d, new_of (digest_item id d)) <$> ro_rows (digests t) !! id.

(** The first [k] that waited went out, in order and each once, in digests of at most
    a batch; the others still wait, and no other table changed. *)
Record flushed (t : IncTables) (k : nat) (t' : IncTables) : Prop := mkFlushed {
  fd_sent : ∃ batches, announced t' = announced t ++ (ADigest <$> batches) ∧ concat batches = omap (item_at t) (take k (waiting_ids t)) ∧
              Forall (λ b, (1 <= length b <= digestBatch)%nat) batches;
  fd_items : ∀ id, item_at t' id = item_at t id;
  fd_left : waiting_ids t' = drop k (waiting_ids t);
  fd_tables : incidents t' = incidents t ∧ reports t' = reports t ∧ comments t' = comments t ∧ occurrences t' = occurrences t ∧
              watchers t' = watchers t ∧ cooldowns t' = cooldowns t
}.

Lemma flushed_refl t : flushed t 0 t.
Proof. split; [|done..]. exists []. by rewrite app_nil_r. Qed.

Lemma omap_same {A B} (f g : A → option B) (l : list A) : (∀ x, f x = g x) → omap f l = omap g l.
Proof. intros H. induction l as [|x l IH]; [done|]. by rewrite !omap_cons, H, IH. Qed.

Lemma flushed_trans t a t1 b t2 : flushed t a t1 → flushed t1 b t2 → flushed t (a + b) t2.
Proof.
  intros [(bs & H1 & H2 & H3) Hi Hl (A1 & A2 & A3 & A4 & A5 & A6)] [(cs & G1 & G2 & G3) Gi Gl (B1 & B2 & B3 & B4 & B5 & B6)]. split.
  - exists (bs ++ cs). split_and!.
    + by rewrite G1, H1, fmap_app, app_assoc.
    + rewrite concat_app, H2, G2, Hl, <-take_take_drop, omap_app. f_equal. by apply omap_same.
    + by apply Forall_app.
  - intros id. by rewrite Gi.
  - by rewrite Gl, Hl, drop_drop.
  - split_and!; congruence.
Qed.

Definition claim_ids (when : Z) (ids : list Z) (t : IncTables) : IncTables :=
  set_digests t (mkRows (map_imap (λ id d, Some (if contains ids id then claimed when d else d)) (ro_rows (digests t))) (ro_next (digests t))).

Lemma claim_lookup when ids t id :
  ro_rows (digests (claim_ids when ids t)) !! id = (λ d, if contains ids id then claimed when d else d) <$> ro_rows (digests t) !! id.
Proof. cbn. rewrite map_lookup_imap. by destruct (ro_rows (digests t) !! id). Qed.

Lemma claimed_item when id d : digest_item id (claimed when d) = digest_item id d.
Proof. unfold claimed. by destruct (waiting d). Qed.
Lemma claimed_waiting when d : waiting (claimed when d) = false.
Proof. unfold claimed. by destruct (waiting d) eqn:E. Qed.

Lemma omap_items t ids : (∀ id, id ∈ ids → is_Some (ro_rows (digests t) !! id)) →
  new_of <$> ((λ r : Z * digestModel, digest_item r.1 r.2) <$> omap (λ id, (id,.) <$> ro_rows (digests t) !! id) ids) = omap (item_at t) ids ∧
  (omap (λ id, (id,.) <$> ro_rows (digests t) !! id) ids).*1 = ids ∧ length (omap (item_at t) ids) = length ids.
Proof.
  induction ids as [|id ids IH]; intros H; [done|]. rewrite !omap_cons. destruct (IH ltac:(set_solver)) as (E1 & E2 & E3).
  destruct (H id ltac:(set_solver)) as [d Hd]. assert (item_at t id = Some (new_of (digest_item id d))) as Hi by (unfold item_at; by rewrite Hd).
  assert ((id,.) <$> ro_rows (digests t) !! id = Some (id, d)) as -> by by rewrite Hd. rewrite Hi, !fmap_cons. cbn [length fst snd]. split_and!; [by rewrite E1|by rewrite E2|by rewrite E3].
Qed.

Lemma claim_flushed when t : let ids := take digestBatch (waiting_ids t) in ids ≠ [] →
  flushed t (length ids) (announce (claim_ids when ids t) (ADigest (omap (item_at t) ids))).
Proof.
  intros ids Hne. assert (∀ id, id ∈ ids → is_Some (ro_rows (digests t) !! id)) as Hin.
  { intros id (i & Hi & _)%elem_of_take. apply list_elem_of_lookup_2, elem_of_select in Hi as (d & Hd & _). by exists d. }
  destruct (omap_items t ids Hin) as (_ & _ & Hlen). assert (ids = take (length ids) (waiting_ids t)) as Hids.
  { subst ids. rewrite length_take. destruct (decide (digestBatch <= length (waiting_ids t))%nat); [by rewrite Nat.min_l|].
    rewrite Nat.min_r, !take_ge by lia. done. }
  split.
  - exists [omap (item_at t) ids]. split_and!; [done| |].
    + rewrite <-Hids. apply app_nil_r.
    + constructor; [|constructor]. rewrite Hlen. subst ids. destruct (take _ _) as [|x l] eqn:E; [done|]. split; [cbn; lia|]. rewrite <-E, length_take. lia.
  - intros id. unfold item_at. change (digests (announce ?x ?a)) with (digests x). rewrite claim_lookup, <-option_fmap_compose.
    apply option_fmap_ext. intros d. unfold compose. destruct (contains ids id); [|done]. by rewrite claimed_item.
  - apply ids_where_drop. intros id. change (ids_where (digests t) (λ _ d, waiting d)) with (waiting_ids t). rewrite <-Hids.
    change (digests (announce ?x ?a)) with (digests x). unfold waiting_ids, ids_where. rewrite !elem_of_select, claim_lookup.
    destruct (ro_rows (digests t) !! id) as [d|] eqn:Hd; cbn [fmap option_fmap option_map]; [|naive_solver].
    destruct (contains ids id) eqn:Ec; [apply contains_spec in Ec|rewrite <-not_true_iff_false, contains_spec in Ec].
    + split; [intros (d' & [= <-] & Hw); by rewrite claimed_waiting in Hw|naive_solver].
    + naive_solver.
  - done.
Qed.

Section Flush.
Variable out : Outside.

Lemma flush_once_spec e :
  match flush_once out e with
  | (Ok n, e') => n = length (take digestBatch (waiting_ids (tables e))) ∧ flushed (tables e) n (tables e')
  | (Err _, e') => tables e' = tables e ∧ faulty out
  end.
Proof.
  unfold flush_once, Transaction, ClaimDigest, mbind, stM_bind, wrapping, query, exec, statement, Now, passed. cbn [tables moment].
  destruct (fault out (S (moment e))) eqn:E1; [split; [done|by eexists _, _]|].
  destruct (take digestBatch (ids_where (digests (tables e)) (λ _ d, waiting d))) as [|id ids] eqn:Et.
  - change (waiting_ids (tables e)) with (ids_where (digests (tables e)) (λ _ d, waiting d)). rewrite Et. cbn.
    destruct (fault out (S (S (moment e)))) eqn:E2; [split; [done|by eexists _, _]|]. split; [done|apply flushed_refl].
  - assert (∀ j, j ∈ id :: ids → is_Some (ro_rows (digests (tables e)) !! j)) as Hin.
    { rewrite <-Et. intros j (i & Hi & _)%elem_of_take. apply list_elem_of_lookup_2, elem_of_select in Hi as (d & Hd & _). by exists d. }
    destruct (omap_items (tables e) (id :: ids) Hin) as (H1 & H2 & H3). set (rows := omap (λ id, (id,.) <$> ro_rows (digests (tables e)) !! id) (id :: ids)) in *. clearbody rows.
    assert (∃ r rs, rows = r :: rs) as (r & rs & Er). { destruct rows as [|r rs]; [by apply (f_equal length) in H2|by eexists _, _]. }
    pose proof (claim_flushed (clock out (moment e)) (tables e)) as Hc. cbv zeta in Hc.
    change (waiting_ids (tables e)) with (ids_where (digests (tables e)) (λ _ d, waiting d)) in *. rewrite Et in *. specialize (Hc ltac:(done)).
    rewrite Er in *. cbn [tables moment].
    destruct (fault out (S (S (moment e)))) eqn:E2; [split; [done|by eexists _, _]|]. cbn [fmap list_fmap tables moment mret stM_ret].
    destruct (fault out (S (S (S (moment e))))) eqn:E3; [split; [done|by eexists _, _]|]. cbn [tables moment].
    unfold mret, stM_ret. cbn [moment]. destruct (fault out (S (S (S (S (moment e)))))) eqn:E4; [split; [done|by eexists _, _]|]. cbn [tables].
    assert (length (r :: rs) = length (id :: ids)) as Hlen by (rewrite <-H2; by rewrite length_fmap).
    rewrite !length_cons in *. rewrite length_fmap, Hlen. split; [done|]. rewrite <-H1 in Hc. rewrite <-H2 in Hc. exact Hc.
Qed.

Lemma flush_spec fuel e : (length (waiting_ids (tables e)) < fuel)%nat →
  ∃ r k e', flush out fuel e = Some (r, e') ∧ flushed (tables e) k (tables e') ∧
    match r with Ok _ => waiting_ids (tables e') = [] | Err _ => faulty out end.
Proof.
  revert e. induction fuel as [|fuel IH]; intros e Hf; [lia|]. cbn [flush]. unfold wrapping. pose proof (flush_once_spec e) as H.
  destruct (flush_once out e) as [[n|err] e1].
  - destruct H as [Hn Hfl]. pose proof (fd_left _ _ _ Hfl) as Hw. destruct (Nat.ltb_spec n digestBatch) as [Hlt|Hge].
    + exists (Ok ()), n, e1. split_and!; [done..|]. rewrite Hw. apply drop_ge. rewrite length_take in Hn. lia.
    + destruct (IH e1) as (r & k & e' & E & Hk & Hr); [rewrite Hw, length_drop; rewrite length_take in Hn; unfold digestBatch in *; lia|].
      exists r, (n + k)%nat, e'. split_and!; [done|by eapply flushed_trans|done].
  - destruct H as [Ht Hfa]. eexists (Err _), 0%nat, e1. split_and!; [done| |done]. rewrite Ht. apply flushed_refl.
Qed.
End Flush.
