(* ===== verification/IncidentProps.v ===== *)
(** * Theorems about incidents *)

From Stdlib Require Import Ascii.
From S2P Require Import Prelude Apperr Clock SignIn Lease Sql Rows Hoare IncidentText IncidentStore Incidents IncidentFacts IncidentRuns.

Local Open Scope Z_scope.

(** ** Any sequence of calls *)

Inductive call : Type :=
| CallCapture (f : Failure)
| CallClientError (who : Viewer) (tenant : option Z) (inp : ClientErrorInput)
| CallReport (who : Viewer) (inp : ReportInput)
| CallComment (id : Z) (who : Viewer) (inp : CommentInput)
| CallUpdate (id : Z) (who : Viewer) (inp : UpdateInput)
| CallShow (id : Z) (who : Viewer)
| CallComments (id : Z) (who : Viewer)
| CallOpened (n : NewIncident)
| CallDigest (items : list NewIncident)
| CallFlush (fuel : nat)
| CallSweep (fuel : nat) (retain : Z).

(** What the code outside the module answers. *)
Record Library : Type := mkLibrary {
  lb_mysqlNumber : error → option Z; lb_ToLower : string → string; lb_EqualFold : string → string → bool; lb_sha256_hex : string → string;
  lb_json_Valid : string → bool; lb_people : nat → list Z → result (list Person); lb_random : nat → result string;
  lb_Marshal : ClientContext → result string; lb_holders : nat → string → result (list Z)
}.

Section Calls.
Variables (lib : Library) (out : Outside) (cfg : Alerts) (configured : string).
Notation M := (stM (Env IncTables) error).
Notation Capture_ f := (Capture (lb_mysqlNumber lib) (lb_ToLower lib) (lb_sha256_hex lib) (lb_json_Valid lib) out (lb_random lib) (New_env configured) f).

Definition ending {A} (m : M A) (e : Env IncTables) : option (Env IncTables) := Some (m e).2.

(** The state after a call that ended. *)
Definition perform (c : call) (e : Env IncTables) : option (Env IncTables) :=
  match c with
  | CallCapture f => ending (Capture_ f) e
  | CallClientError who tenant inp =>
      ending (ClientError (lb_mysqlNumber lib) (lb_ToLower lib) (lb_sha256_hex lib) (lb_json_Valid lib) out (lb_random lib) (lb_Marshal lib) (New_env configured) who tenant inp) e
  | CallReport who inp => ending (FileReport (lb_mysqlNumber lib) (lb_ToLower lib) (lb_sha256_hex lib) (lb_json_Valid lib) out (lb_people lib) (lb_random lib) who inp) e
  | CallComment id who inp => ending (AddComment (lb_ToLower lib) out (lb_people lib) id who inp) e
  | CallUpdate id who inp => ending (Update (lb_ToLower lib) out (lb_people lib) id who inp) e
  | CallShow id who => ending (Show out (lb_people lib) id who) e
  | CallComments id who => ending (Comments out (lb_people lib) id who) e
  | CallOpened n => ending (onOpened (lb_ToLower lib) (lb_EqualFold lib) out cfg (lb_holders lib) n) e
  | CallDigest items => ending (onDigest out (lb_holders lib) items) e
  | CallFlush fuel => snd <$> flush out fuel e
  | CallSweep fuel retain => snd <$> sweep out fuel retain e
  end.

Fixpoint performs (cs : list call) (e : Env IncTables) : option (Env IncTables) :=
  match cs with [] => Some e | c :: cs' => e' ← perform c e; performs cs' e' end.

Lemma hoare_ending {A} (m : M A) t0 (P : IncTables → Prop) e e' : hoare (λ t, t = t0) m (λ _, P) P → tables e = t0 → ending m e = Some e' → P (tables e').
Proof. intros H He [= <-]. specialize (H e He). by destruct (m e) as [[a|err] e1]. Qed.

(** Steps of the alerts, which only touch tables soundness does not speak of. *)
Lemma h_sound_statement {A} (f : IncTables → A * IncTables) : (∀ t, sound t → sound (f t).2) → hoare sound (statement out f) (λ _, sound) sound.
Proof. intros H. apply h_statement; auto. Qed.

Lemma h_send alerts : hoare sound (send out (lb_holders lib) alerts) (λ _, sound) sound.
Proof.
  unfold send. eapply h_bind with (R := λ _, sound); [apply h_mapErr; by apply h_ask|]. intros [|p ps]; [by apply h_ret|].
  eapply h_bind with (R := λ _, sound); [apply h_wrapping, h_sound_statement; intros t; apply announce_sound|]. intros _. by apply h_ret.
Qed.

Lemma h_QueueDigest item : hoare sound (QueueDigest (lb_ToLower lib) out item) (λ _, sound) sound.
Proof.
  unfold QueueDigest. eapply h_bind with (R := λ _, sound); [by apply h_wrapping, h_sound_statement|]. intros n. destruct (0 <? n)%nat; [by apply h_ret|].
  apply h_mapErr, h_sound_statement. intros t. by apply sound_same.
Qed.

Lemma h_onOpened n : hoare sound (onOpened (lb_ToLower lib) (lb_EqualFold lib) out cfg (lb_holders lib) n) (λ _, sound) sound.
Proof.
  unfold onOpened. eapply h_bind with (R := λ _, sound).
  - destruct (immediate _ _ _); [|by apply h_ret]. unfold sendNow. eapply h_bind with (R := λ _, sound).
    + unfold cooling. eapply h_bind with (R := λ _, sound); [by apply h_wrapping, h_wrapping, h_sound_statement|]. intros [last|]; [|by apply h_ret].
      eapply h_bind with (R := λ _, sound); [by apply h_Now|]. intros now. by apply h_ret.
    + intros [|]; [by apply h_ret|]. eapply h_bind; [apply h_send|]. intros [|]; [|by apply h_ret].
      eapply h_bind with (R := λ _, sound); [|intros _; by apply h_ret]. unfold stamp. eapply h_bind with (R := λ _, sound); [by apply h_Now|].
      intros now. apply h_wrapping, h_wrapping, h_sound_statement. intros t. by apply sound_same.
  - intros [|]; [by apply h_ret|]. eapply h_bind with (R := λ _, sound); [by apply h_Now|]. intros now. apply h_wrapping, h_QueueDigest.
Qed.

Lemma h_prune_loop (prune : M nat) fuel deleted e r : hoare sound prune (λ _, sound) sound → sound (tables e) →
  prune_loop fuel prune deleted e = Some r → sound (tables r.2).
Proof.
  intros Hp. revert deleted e. induction fuel as [|fuel IH]; intros deleted e He; [done|]. cbn [prune_loop]. unfold wrapping. specialize (Hp e He).
  destruct (prune e) as [[n|err] e1]; [|by intros [= <-]]. destruct (n <? pruneBatch)%nat; [by intros [= <-]|by apply IH].
Qed.

Lemma h_PruneOccurrences before limit : hoare sound (PruneOccurrences out before limit) (λ _, sound) sound.
Proof.
  unfold PruneOccurrences. eapply h_bind with (R := λ _, sound); [by apply h_wrapping, h_sound_statement|]. intros [|id ids]; [by apply h_ret|].
  apply h_wrapping, h_sound_statement. intros t. apply prune_sound.
Qed.

Lemma h_PruneDigest before limit : hoare sound (PruneDigest out before limit) (λ _, sound) sound.
Proof.
  unfold PruneDigest. eapply h_bind with (R := λ _, sound); [by apply h_wrapping, h_sound_statement|]. intros [|id ids]; [by apply h_ret|].
  apply h_wrapping, h_sound_statement. intros t. by apply sound_same.
Qed.

Lemma flush_sound fuel e r : sound (tables e) → flush out fuel e = Some r → sound (tables r.2).
Proof.
  revert e. induction fuel as [|fuel IH]; intros e He; [done|]. cbn [flush]. unfold wrapping. pose proof (flush_once_spec out e) as H.
  destruct (flush_once out e) as [[n|err] e1].
  - destruct H as [_ H]. assert (sound (tables e1)) as He1. { destruct (fd_tables _ _ _ H) as (H1 & H2 & H3 & H4 & _). by eapply sound_same. }
    destruct (n <? digestBatch)%nat; [by intros [= <-]|by apply IH].
  - destruct H as [H _]. intros [= <-]. cbn. by rewrite H.
Qed.

Lemma sweep_sound fuel retain e r : sound (tables e) → sweep out fuel retain e = Some r → sound (tables r.2).
Proof.
  intros He. change (sound (tables (passed e))) in He. unfold sweep. destruct (prune_loop _ _ _ _) as [[[n [err|]] e1]|] eqn:E; [|destruct (prune_loop fuel (PruneDigest _ _ _) _ _) as [[[m err] e2]|] eqn:E2; [|done]|done];
    intros [= <-]; cbn.
  - by apply (h_prune_loop _ _ _ _ _ (h_PruneOccurrences _ _) He E).
  - apply (h_prune_loop _ _ _ _ _ (h_PruneDigest _ _) (h_prune_loop _ _ _ _ _ (h_PruneOccurrences _ _) He E) E2).
Qed.

Lemma New_env_fits : (Utf8.RuneCount (New_env configured) <=? envMax) = true.
Proof. unfold New_env. destruct (given _); [by apply clean_fits|by vm_compute]. Qed.

Lemma perform_sound c e e' : honest_faults out → sound (tables e) → perform c e = Some e' → sound (tables e').
Proof.
  intros Hh He. destruct c as [f|who tenant inp|who inp|id who inp|id who inp|id who|id who|n|items|fuel|fuel retain]; cbn [perform].
  - eapply hoare_ending; [|done]. eapply h_weaken; [by apply (h_Capture _ _ _ _ out (lb_random lib) (New_env configured) Hh f _ He), New_env_fits|done| |by intros t [-> _]].
    intros [] t. destruct (blank _); [by intros ->|]. intros [now Hc]. eapply captured_sound; [done| |done]. apply normalized_has_room, New_env_fits.
  - eapply hoare_ending; [|done]. by apply (h_ClientError _ _ _ _ out (lb_random lib) (lb_Marshal lib) (New_env configured) Hh who tenant inp _ He), New_env_fits.
  - eapply hoare_ending; [|done]. eapply h_weaken; [by apply (h_FileReport _ _ _ _ out (lb_people lib) (lb_random lib) Hh who inp _ He)|done|..]; cbv beta;
      naive_solver eauto using filed_sound.
  - eapply hoare_ending; [|done]. eapply h_weaken; [by apply (h_AddComment _ out (lb_people lib) id who inp _ He)|done|..]; cbv beta; naive_solver.
  - eapply hoare_ending; [|done]. eapply h_weaken; [by apply (h_incident_Update _ out (lb_people lib) id who inp _ He)|done|..]; cbv beta; naive_solver.
  - eapply hoare_ending; [|done]. eapply h_weaken; [apply (h_Show out (lb_people lib) id who (tables e))|done|..]; cbv beta; naive_solver.
  - eapply hoare_ending; [|done]. eapply h_weaken; [apply (h_Comments out (lb_people lib) id who (tables e))|done|..]; cbv beta; naive_solver.
  - eapply hoare_ending; [|done]. eapply h_weaken; [apply (h_onOpened n)|by intros t ->|done..].
  - eapply hoare_ending; [|done]. eapply h_weaken; [eapply h_bind; [apply (h_send items)|intros b; apply (h_ret sound () (λ _, sound)); done]|by intros t ->|done..].
  - destruct (flush out fuel e) eqn:E; [|done]. intros [= <-]. by eapply flush_sound.
  - destruct (sweep out fuel retain e) eqn:E; [|done]. intros [= <-]. by eapply sweep_sound.
Qed.
End Calls.

(** ** Hidden incidents *)

(** The incident does not exist, or the person may not see it. *)
Definition hidden (t : IncTables) (who : Viewer) (id : Z) : Prop := ∀ m, ro_rows (incidents t) !! id = Some m → visible t who id m = false.

(** A call that is answered as if there were no incident, and changes nothing. *)
Definition turned_away {A} (out : Outside) (m : stM (Env IncTables) error A) (e : Env IncTables) : Prop :=
  ∃ err e', m e = (Err err, e') ∧ tables e' = tables e ∧ (faultless out → err = NotFound "incident not found").

Lemma find_hidden out id who e : hidden (tables e) who id →
  ∃ err, store_Find out id who e = (Err err, passed e) ∧ (faultless out → err = errNew ErrNotFound).
Proof.
  intros Hh. unfold store_Find, mbind, stM_bind, wrapping, query, statement, passed. destruct (fault out (moment e)) as [err|] eqn:E.
  - eexists. split; [done|]. intros Hf. by rewrite Hf in E.
  - destruct (ro_rows (incidents (tables e)) !! id) as [m|] eqn:Hm; [rewrite (Hh m Hm)|]; by eexists.
Qed.

Lemma hoare_turned {A} out (m : stM (Env IncTables) error A) e (Q : A → IncTables → Prop) (F : IncTables → Prop) :
  hoare (λ t, t = tables e) m Q F → (∀ a t, Q a t → False) → (∀ t, F t → t = tables e) →
  (faultless out → (m e).1 = Err (NotFound "incident not found")) → turned_away out m e.
Proof.
  intros H HQ HF Herr. specialize (H e eq_refl). destruct (m e) as [[a|err] e'] eqn:E; [by apply HQ in H|].
  exists err, e'. split; [done|]. split; [by apply HF|]. intros Hf. cbn in Herr. apply Herr in Hf. by injection Hf.
Qed.

Lemma Show_hidden out people id who e : 0 < id → hidden (tables e) who id → turned_away out (Show out people id who) e.
Proof.
  intros Hid Hh. eapply hoare_turned; [apply (h_Show out people id who (tables e))| |done|].
  - intros d t [[(m & Hm & Hv) _ _] _]. rewrite (Hh m Hm) in Hv. done.
  - intros Hf. destruct (find_hidden out id who e Hh) as (err & E & He). specialize (He Hf). subst err. unfold Show.
    rewrite (proj2 (Z.leb_gt _ _)) by done. unfold mbind, stM_bind, mapErr. by rewrite E.
Qed.

Lemma Comments_hidden out people id who e : 0 < id → hidden (tables e) who id → turned_away out (Comments out people id who) e.
Proof.
  intros Hid Hh. eapply hoare_turned; [apply (h_Comments out people id who (tables e))| |done|].
  - intros d t [[(m & Hm & Hv) _ _] _]. rewrite (Hh m Hm) in Hv. done.
  - intros Hf. destruct (find_hidden out id who e Hh) as (err & E & He). specialize (He Hf). subst err. unfold Comments.
    rewrite (proj2 (Z.leb_gt _ _)) by done. unfold mbind, stM_bind, mapErr. by rewrite E.
Qed.

(** A transaction that does not find the incident is not tried again. *)
Lemma transact_hidden {A} out (work : stM (Env IncTables) error A) e err e' : work e = (Err err, e') → err = wrapped "find the incident" (errNew ErrNotFound) →
  (transact out work e).1 = Err (wrapped "incident" err).
Proof.
  intros E ->. unfold transact, maxAttempts. cbn [transact_loop]. unfold mbind, stM_bind, attempt, Transaction. rewrite E.
  change (lostRace (wrapped "find the incident" (errNew ErrNotFound))) with false. done.
Qed.

Lemma AddComment_hidden ToLower out people id who inp e : sound (tables e) → 0 < id → 0 < vw_UserID who → comment_validate inp = None →
  hidden (tables e) who id → turned_away out (AddComment ToLower out people id who inp) e.
Proof.
  intros Hs Hid Hu Hv Hh. eapply hoare_turned; [apply (h_AddComment ToLower out people id who inp (tables e) Hs)|..].
  - intros d t [(m & Hm & Hvis) _]. rewrite (Hh m Hm) in Hvis. done.
  - intros t [->|[(m & Hm & Hvis) _]]; [done|]. rewrite (Hh m Hm) in Hvis. done.
  - intros Hf. destruct (find_hidden out id who e Hh) as (err & E & He). specialize (He Hf). subst err. unfold AddComment, signedIn, check_.
    rewrite (proj2 (Z.leb_gt (vw_UserID who) _)), Hv by done. unfold mbind, stM_bind, mret, stM_ret. rewrite (proj2 (Z.leb_gt id _)) by done.
    unfold mapErr. set (w := addComment _ _ _ _). destruct (transact out w e) as [r e1] eqn:Et.
    assert (r = Err (wrapped "incident" (wrapped "find the incident" (errNew ErrNotFound)))) as ->; [|done].
    change r with ((r, e1).1). rewrite <-Et. eapply transact_hidden; [|done]. subst w. unfold addComment, mbind, stM_bind, wrapping. cbn [co_IncidentID]. by rewrite E.
Qed.

Lemma Update_hidden ToLower out people id who inp e : sound (tables e) → 0 < id → 0 < vw_UserID who → update_validate inp = None →
  hidden (tables e) who id → turned_away out (Update ToLower out people id who inp) e.
Proof.
  intros Hs Hid Hu Hv Hh. eapply hoare_turned; [apply (h_incident_Update ToLower out people id who inp (tables e) Hs)|..].
  - intros d t [(m & Hm & Hvis) _]. rewrite (Hh m Hm) in Hvis. done.
  - intros t [->|[(m & Hm & Hvis) _]]; [done|]. rewrite (Hh m Hm) in Hvis. done.
  - intros Hf. destruct (find_hidden out id who e Hh) as (err & E & He). specialize (He Hf). subst err. unfold Update, signedIn, check_.
    rewrite (proj2 (Z.leb_gt (vw_UserID who) _)), Hv by done. unfold mbind, stM_bind, mret, stM_ret. rewrite (proj2 (Z.leb_gt id _)) by done.
    unfold mapErr. set (w := changing _ _ _ _ _). destruct (transact out w e) as [r e1] eqn:Et.
    assert (r = Err (wrapped "incident" (wrapped "find the incident" (errNew ErrNotFound)))) as ->; [|done].
    change r with ((r, e1).1). rewrite <-Et. eapply transact_hidden; [|done]. subst w. unfold changing, mbind, stM_bind, wrapping. by rewrite E.
Qed.

(** ** A small world *)

Definition lib0 : Library :=
  mkLibrary (λ _, None) (λ s, s) (λ a b, bool_decide (a = b)) (λ s, s) (λ _, true) (λ _ ids, Ok ((λ id, mkPerson id "Ana" "ana") <$> ids))
    (λ n, Ok (Str.fmt_d (Z.of_nat n))) (λ _, Ok "{}") (λ _ _, Ok [1]).
Definition out_at (now : Z) : Outside := mkOutside (λ _, None) (λ _, now * Time.Second) (λ _, false).
Definition out0 : Outside := out_at 1700000000.
Definition rows0 {A} : rows_of A := mkRows ∅ 1.
Definition start0 : Env IncTables := mkEnv (mkIncTables rows0 rows0 rows0 rows0 ∅ ∅ rows0 []) 0.
Definition alerts0 : Alerts := withDefaults None 0 0.
Definition failure0 : Failure := mkFailure "" "" "order 17 not found" "internal" "" "main.go" "orders" "/orders/17" "GET" None None "" "" "" "" "" "".
Definition staff : Viewer := mkViewer 1 true.
Definition customer : Viewer := mkViewer 2 false.
Definition report0 : ReportInput := mkReportInput "Broken page" "It is empty" "" "" "" "" "orders" "/orders" "" "" "" "" "" "".
Definition close0 : UpdateInput := mkUpdateInput StatusResolved "" "" None None "" "" "" "".

Lemma start0_sound : sound (tables start0).
Proof.
  assert (∀ (A : Type), ids_used (@rows0 A)) as Hu by (intros A; split; [done|]; cbn; intros id a E; by rewrite lookup_empty in E).
  split; try apply Hu; cbn; intros; by simplify_map_eq.
Qed.

Lemma out_honest now : honest_faults (out_at now).
Proof. intros n err E. discriminate E. Qed.

(** The tables after calls that ended. *)
Definition world (cs : list call) : Env IncTables := default start0 (performs lib0 out0 alerts0 "production" cs start0).

(** C22. Whatever call of the service, of the alert consumers and of the workers is made, in
    any order and with any failure of the database, of the people directory or of the
    random source: an incident has a known status, its open fingerprint is its
    fingerprint exactly while it is open, no two incidents are open for one
    fingerprint or share a public code, every report, comment and occurrence is of an
    incident that exists, and the counts of an incident are the numbers of its reports
    and comments and at least the number of occurrences kept. *)
Theorem incidents_stay_sound lib out cfg configured cs e e' : honest_faults out → sound (tables e) →
  performs lib out cfg configured cs e = Some e' → sound (tables e').
Proof.
  intros Hh. revert e. induction cs as [|c cs IH]; intros e He; cbn [performs]; [by intros [= <-]|].
  destruct (perform lib out cfg configured c e) as [e1|] eqn:E; [|done]. cbn. apply IH. by eapply perform_sound.
Qed.

Lemma incidents_stay_sound_witness :
  let e := world [CallCapture failure0; CallUpdate 1 staff close0; CallCapture failure0; CallReport customer report0] in
  sound (tables e) ∧ (λ m, (im_Status m, im_OccurrenceCount m, im_ReportCount m)) <$> ro_rows (incidents (tables e)) !! 1 = Some (StatusNew, 2, 0) ∧
  (λ m, im_ReportCount m) <$> ro_rows (incidents (tables e)) !! 2 = Some 1.
Proof.
  split.
  - eapply (incidents_stay_sound lib0 out0 alerts0 "production" [CallCapture failure0; CallUpdate 1 staff close0; CallCapture failure0; CallReport customer report0] start0);
      [apply out_honest|apply start0_sound|vm_compute; reflexivity].
  - vm_compute. repeat split.
Defined.

(** C23. A failure that is recorded is counted on the open incident of its fingerprint, or
    reopens the latest closed one and is counted there, or opens one new incident that
    is announced; one occurrence is stored each time. A call that fails changed
    nothing, and fails only when the database did or when no public code could be had
    for a new incident. *)
Theorem Capture_records lib out configured f e : honest_faults out → sound (tables e) →
  let t := tables e in
  let f' := normalized (lb_json_Valid lib) (New_env configured) f in
  match Capture (lb_mysqlNumber lib) (lb_ToLower lib) (lb_sha256_hex lib) (lb_json_Valid lib) out (lb_random lib) (New_env configured) f e with
  | (Ok _, e') => if blank (fl_Message f) then tables e' = t else ∃ now, captured (lb_ToLower lib) (lb_sha256_hex lib) (lb_random lib) t f' now (tables e')
  | (Err _, e') => tables e' = t ∧ (faulty out ∨ (unknown t (fingerprint (lb_ToLower lib) (lb_sha256_hex lib) f') ∧
      ∃ n, match lb_random lib n with
           | Ok d => width 32 (Some ("INC-" +:+ d)) = false ∨ ∃ id m, ro_rows (incidents t) !! id = Some m ∧ im_PublicCode m = "INC-" +:+ d
           | Err _ => True
           end))
  end.
Proof.
  intros Hh Hs t f'. pose proof (New_env_fits configured) as Hn.
  pose proof (h_Capture (lb_mysqlNumber lib) (lb_ToLower lib) (lb_sha256_hex lib) (lb_json_Valid lib) out (lb_random lib) (New_env configured) Hh f t Hs Hn e eq_refl) as H.
  destruct (Capture _ _ _ _ _ _ _ _ _) as [[a|err] e']; [done|]. destruct H as [Ht [Hf|(Hno & Hun & now & n & Hc)]]; [by split; [|left]|].
  split; [done|right]. split; [done|]. exists n. destruct (lb_random lib n) as [d|]; [|done].
  eapply opening_refused; [by apply normalized_has_room|exact Hno|exact Hc].
Qed.

Lemma Capture_records_witness :
  ∃ e', Capture (lb_mysqlNumber lib0) (lb_ToLower lib0) (lb_sha256_hex lib0) (lb_json_Valid lib0) out0 (lb_random lib0) (New_env "production") failure0 (world [CallCapture failure0]) = (Ok (), e') ∧
    (∃ now, captured (lb_ToLower lib0) (lb_sha256_hex lib0) (lb_random lib0) (tables (world [CallCapture failure0])) (normalized (lb_json_Valid lib0) (New_env "production") failure0) now (tables e')) ∧
    im_OccurrenceCount <$> ro_rows (incidents (tables e')) !! 1 = Some 2.
Proof.
  assert (sound (tables (world [CallCapture failure0]))) as Hs.
  { eapply (perform_sound lib0 out0 alerts0 "production" (CallCapture failure0) start0); [apply out_honest|apply start0_sound|vm_compute; reflexivity]. }
  pose proof (Capture_records lib0 out0 "production" failure0 (world [CallCapture failure0]) (out_honest _) Hs) as H.
  assert (blank (fl_Message failure0) = false) as Hb by (vm_compute; reflexivity). rewrite Hb in H.
  destruct (Capture _ _ _ _ _ _ _ _ _) as [[[]|err] e'] eqn:E; [|vm_compute in E; discriminate E].
  exists e'. split; [done|]. split; [exact H|]. apply (f_equal snd) in E. cbn [snd] in E. rewrite <-E. vm_compute. reflexivity.
Defined.

(** C24. An incident a person may not see is answered exactly as one that does not exist, by
    every call that names it, and nothing changes; and what a person is shown of an
    incident they may see is their own reports and the public comments that were not
    deleted, or all of them for the staff. *)
Theorem incident_privacy lib out id who inp upd e : sound (tables e) → 0 < id → 0 < vw_UserID who → comment_validate inp = None → update_validate upd = None →
  (hidden (tables e) who id →
     turned_away out (Show out (lb_people lib) id who) e ∧ turned_away out (Comments out (lb_people lib) id who) e ∧
     turned_away out (AddComment (lb_ToLower lib) out (lb_people lib) id who inp) e ∧ turned_away out (Update (lb_ToLower lib) out (lb_people lib) id who upd) e) ∧
  match Show out (lb_people lib) id who e with
  | (Ok d, e') => tables e' = tables e ∧ discloses (tables e) who id (de_Reports d) (de_Comments d)
  | (Err _, e') => tables e' = tables e
  end.
Proof.
  intros Hs Hid Hu Hc Hup. split.
  - intros Hh. split_and!; [by apply Show_hidden|by apply Comments_hidden|by apply AddComment_hidden|by apply Update_hidden].
  - pose proof (h_Show out (lb_people lib) id who (tables e) e eq_refl) as H. destruct (Show _ _ _ _ _) as [[d|err] e']; [|done]. by destruct H.
Qed.

Lemma incident_privacy_witness :
  let e := world [CallCapture failure0] in
  hidden (tables e) customer 1 ∧ turned_away out0 (Show out0 (lb_people lib0) 1 customer) e ∧
  (Show out0 (lb_people lib0) 1 customer e).1 = (Show out0 (lb_people lib0) 99 customer e).1.
Proof.
  assert (sound (tables (world [CallCapture failure0]))) as Hs.
  { eapply (perform_sound lib0 out0 alerts0 "production" (CallCapture failure0) start0); [apply out_honest|apply start0_sound|vm_compute; reflexivity]. }
  assert (hidden (tables (world [CallCapture failure0])) customer 1) as Hh by (intros m Hm; vm_compute in Hm; injection Hm as <-; vm_compute; reflexivity).
  split; [exact Hh|]. split; [|vm_compute; reflexivity].
  assert (comment_validate (mkCommentInput "Hello" "") = None ∧ update_validate close0 = None) as [Hc Hu] by (vm_compute; done).
  exact (proj1 (proj1 (incident_privacy lib0 out0 1 customer (mkCommentInput "Hello" "") close0 (world [CallCapture failure0]) Hs eq_refl eq_refl Hc Hu) Hh)).
Defined.

(** A sweep ends. Unless the database fails it, it deletes exactly the occurrences older
    than the retention that are not the newest of their incident, and the digest items
    sent more than a day ago, and says how many; when the database fails it, it has
    deleted some of those and says so. What is younger, or the newest of its incident,
    is always kept. *)
Theorem sweep_exact out retain e fuel : (size (ro_rows (occurrences (tables e))) < fuel)%nat → (size (ro_rows (digests (tables e))) < fuel)%nat →
  let t := tables e in let before := clock out (moment e) - retain in let sent := clock out (moment e) - DigestRetention in
  ∃ j k err e', sweep out fuel retain e = Some (mkSwept (Z.of_nat j) (Z.of_nat k), err, e') ∧
    tables e' = without_items (take k (old_items sent t)) (without_occurrences (take j (old_occurrences before t)) t) ∧
    match err with None => j = length (old_occurrences before t) ∧ k = length (old_items sent t) | Some _ => faulty out end ∧
    ∀ id o, ro_rows (occurrences t) !! id = Some o → newest t id o = true ∨ whole before <= om_OccurredAt o → ro_rows (occurrences (tables e')) !! id = Some o.
Proof.
  intros Ho Hd t before sent.
  assert (∀ k' e', tables e' = without_occurrences (take k' (old_occurrences before t)) t →
    ∀ id o, ro_rows (occurrences t) !! id = Some o → newest t id o = true ∨ whole before <= om_OccurredAt o → ro_rows (occurrences (tables e')) !! id = Some o) as Hkeep.
  { intros k' e' -> id o Hid Hk. cbn. apply map_lookup_filter_Some. split; [done|]. cbn. intros (i & Hi & _)%elem_of_take.
    apply list_elem_of_lookup_2, elem_of_select in Hi as (o' & Ho' & Hp). rewrite Hid in Ho'. injection Ho' as <-.
    unfold old_occurrence in Hp. apply andb_true_iff in Hp as [Hlt%Z.ltb_lt Hn%negb_true_iff]. destruct Hk as [Hk|Hk]; [congruence|lia]. }
  destruct (prune_occurrences_spec out before fuel (passed e)) as (j & err & e1 & E & Hj & Ht & Herr).
  { eapply Nat.le_lt_trans; [apply select_length|exact Ho]. }
  unfold sweep. fold before. rewrite E. cbn [passed tables] in Hj, Ht, Herr. destruct err as [err|].
  { exists j, 0%nat, (Some err), e1. split_and!; [done| |done|by eapply Hkeep]. rewrite take_0, Ht. unfold without_items. rewrite without_rows_nil. done. }
  destruct (prune_digest_spec out sent fuel e1) as (k & err & e2 & E2 & Hk & Ht2 & Herr2).
  { rewrite Ht. eapply Nat.le_lt_trans; [apply select_length|exact Hd]. }
  fold sent. rewrite E2. rewrite Ht in Ht2, Herr2. exists j, k, err, e2. split_and!; [done|exact Ht2| |].
  - destruct err; [done|]. by split.
  - intros id o Hid Hk'. rewrite Ht2. specialize (Hkeep j e1 Ht id o Hid Hk'). by rewrite Ht in Hkeep.
Qed.

Lemma sweep_exact_witness :
  let e := mkEnv (tables (world [CallCapture failure0; CallCapture failure0])) 0 in
  ∃ e', sweep (out_at 1710000000) 3 DefaultOccurrenceRetention e = Some (mkSwept 1 0, None, e') ∧ is_Some (ro_rows (occurrences (tables e')) !! 2).
Proof.
  set (e := mkEnv (tables (world [CallCapture failure0; CallCapture failure0])) 0).
  destruct (sweep_exact (out_at 1710000000) DefaultOccurrenceRetention e 3) as (j & k & err & e' & E & _ & _ & Hk); [by apply Nat.ltb_lt; vm_compute..|].
  exists e'. split.
  - assert ((λ r, r.1) <$> sweep (out_at 1710000000) 3 DefaultOccurrenceRetention e = Some (mkSwept 1 0, None)) as Hc by (vm_compute; reflexivity).
    rewrite E in Hc |- *. cbn in Hc. injection Hc as -> -> ->. done.
  - destruct (ro_rows (occurrences (tables e)) !! 2) as [o|] eqn:Eo; [|vm_compute in Eo; discriminate Eo]. exists o. apply (Hk 2 o Eo). left.
    vm_compute in Eo. injection Eo as <-. vm_compute. reflexivity.
Defined.

(** A flush ends, and unless the database fails it nothing is left waiting. What waited
    went out in the order it came, each item in exactly one digest of at most a
    hundred; when the database fails it, that holds of the first items and the rest
    still wait. *)
Theorem flush_delivers out e fuel : (size (ro_rows (digests (tables e))) < fuel)%nat →
  ∃ r k e', flush out fuel e = Some (r, e') ∧ flushed (tables e) k (tables e') ∧
    match r with Ok _ => waiting_ids (tables e') = [] | Err _ => faulty out end.
Proof. intros Hf. apply flush_spec. eapply Nat.le_lt_trans; [apply select_length|exact Hf]. Qed.

Definition low (id : Z) : NewIncident := mkNewIncident id ("INC-" +:+ Str.fmt_d id) "Slow page" SeverityLow SourceRuntimeError.

Lemma flush_delivers_witness :
  let e := world [CallOpened (low 1); CallOpened (low 2); CallOpened (low 1)] in
  ∃ r e', flush out0 3 e = Some (r, e') ∧ (∃ k, flushed (tables e) k (tables e')) ∧
    announced (tables e') = [ADigest (new_of <$> [mkDigestItem 1 1 "INC-1" "Slow page" SeverityLow 0; mkDigestItem 2 2 "INC-2" "Slow page" SeverityLow 0])].
Proof.
  set (e := world [CallOpened (low 1); CallOpened (low 2); CallOpened (low 1)]).
  destruct (flush_delivers out0 e 3) as (r & k & e' & E & Hf & _); [by apply Nat.ltb_lt; vm_compute|].
  exists r, e'. split; [exact E|]. split; [by exists k|].
  assert ((λ re, announced (tables re.2)) <$> flush out0 3 e = Some [ADigest (new_of <$> [mkDigestItem 1 1 "INC-1" "Slow page" SeverityLow 0; mkDigestItem 2 2 "INC-2" "Slow page" SeverityLow 0])]) as Hc
    by (vm_compute; reflexivity).
  rewrite E in Hc. cbn in Hc. by injection Hc.
Defined.

(** Text that is cut for a column has at most as many characters as the column, all of
    them characters a three-byte column stores; it is the text's own beginning with
    every other character replaced, and cutting it again changes nothing. *)
Theorem stored_text_fits s limit : 0 <= limit →
  Utf8.RuneCount (clean s limit) <= limit ∧ Forall storable (Utf8.runes (clean s limit)) ∧
  Utf8.runes (clean s limit) = bmp <$> take (Z.to_nat limit) (Utf8.runes (Utf8.TrimSpace s)) ∧ clip (clean s limit) limit = clean s limit.
Proof.
  intros Hl. split_and!; [by apply RuneCount_clean| |apply runes_clip|apply clip_idemp].
  unfold clean. rewrite runes_clip, fmap_take. apply Forall_take, runes_storable.
Qed.

Lemma stored_text_fits_witness : Utf8.RuneCount (clean " ab😀cd " 4) <= 4 ∧ clean " ab😀cd " 4 = "ab�c".
Proof. split; [apply (stored_text_fits " ab😀cd " 4); done|vm_compute; reflexivity]. Defined.

(** ** What the code does not do *)

(** A change that read the incident before a failure was counted writes the old count
    back: two occurrences are stored, one is counted. *)
Lemma count_lost :
  let t := tables (world [CallCapture failure0]) in
  match (store_Find out0 1 staff (mkEnv t 0)).1 with
  | Ok i =>
      let t1 := tables (world [CallCapture failure0; CallCapture failure0]) in
      let t2 := tables (UpdateIncident (lb_ToLower lib0) out0 (apply i close0 0) (mkEnv t1 0)).2 in
      im_OccurrenceCount <$> ro_rows (incidents t1) !! 1 = Some 2 ∧ im_OccurrenceCount <$> ro_rows (incidents t2) !! 1 = Some 1 ∧
      size (ro_rows (occurrences t2)) = 2%nat
  | Err _ => False
  end.
Proof. vm_compute. repeat split. Qed.

(** A report of a page whose address has more than 255 characters, and which no other
    report knows, is refused by the database, whatever it says otherwise. *)
Lemma long_page_refused lib out who inp e : honest_faults out → sound (tables e) →
  let inp' := report_sanitize (lb_json_Valid lib) inp in
  no_open (tables e) (report_key (lb_ToLower lib) (lb_sha256_hex lib) inp') → unknown (tables e) (report_key (lb_ToLower lib) (lb_sha256_hex lib) inp') →
  255 < Utf8.RuneCount (ri_PageURL inp') → blank (ri_PageURL inp') = false →
  ∃ err e', FileReport (lb_mysqlNumber lib) (lb_ToLower lib) (lb_sha256_hex lib) (lb_json_Valid lib) out (lb_people lib) (lb_random lib) who inp e = (Err err, e') ∧
    tables e' = tables e.
Proof.
  intros Hh Hs inp' Hno Hun Hlong Hb.
  assert (∀ now id t, filed (lb_ToLower lib) (lb_sha256_hex lib) (lb_random lib) (tables e) inp' (vw_UserID who) now id t → False) as Hn.
  { intros now id t Hf. destruct Hf as [i new t1 key -> Hg]. inversion Hg as [id m [Hm Ho]|id m j _ (Hm & Hfp & _) _ _|d n _ _ _ Hv].
    - by apply (Hno id m Hm).
    - by apply (Hun id m Hm).
    - apply violation_None in Hv as [Hf _]. apply columns_fit_elim in Hf as (_ & _ & _ & Hr & _). change (width 255 (text (ri_PageURL inp')) = true) in Hr.
      unfold text, width in Hr. rewrite Hb in Hr. change (plain (Some (ri_PageURL inp'))) with (ri_PageURL inp') in Hr. apply Z.leb_le in Hr. lia. }
  pose proof (h_FileReport (lb_mysqlNumber lib) (lb_ToLower lib) (lb_sha256_hex lib) (lb_json_Valid lib) out (lb_people lib) (lb_random lib) Hh who inp (tables e) Hs e eq_refl) as H.
  destruct (FileReport _ _ _ _ _ _ _ _ _ _) as [[d|err] e']; [naive_solver|]. exists err, e'. split; [done|]. naive_solver.
Qed.

Lemma text_empty_r s : s +:+ "" = s.
Proof. induction s as [|c s IH]; [done|]. by rewrite Str.app_cons, IH. Qed.

(** The fingerprints of reports, browser errors and server errors never meet, as long as
    the digest keeps different texts apart: no incident is seen from two of them. *)
Lemma sources_apart lib inp f g : (∀ a b, lb_sha256_hex lib a = lb_sha256_hex lib b → a = b) →
  (∀ w, w ∈ ["report"; "client"; "runtime"] → lb_ToLower lib w = w) → fl_Source f = SourceClientError → fl_Source g = SourceRuntimeError →
  report_key (lb_ToLower lib) (lb_sha256_hex lib) inp ≠ fingerprint (lb_ToLower lib) (lb_sha256_hex lib) f ∧
  report_key (lb_ToLower lib) (lb_sha256_hex lib) inp ≠ fingerprint (lb_ToLower lib) (lb_sha256_hex lib) g ∧
  fingerprint (lb_ToLower lib) (lb_sha256_hex lib) f ≠ fingerprint (lb_ToLower lib) (lb_sha256_hex lib) g.
Proof.
  intros Hsha Hlow Hf Hg.
  assert (∀ w ps, w ∈ ["report"; "client"; "runtime"] → ∃ rest, Str.join "|" (stable_parts (lb_ToLower lib) (w :: ps)) = w +:+ rest) as Hw.
  { intros w ps Hin. assert (NormalizeText (lb_ToLower lib) w = w ∧ w ≠ "") as [Hn Hne].
    { unfold NormalizeText. assert (Utf8.TrimSpace w = w ∧ w ≠ "") as [-> ?] by (repeat (apply elem_of_cons in Hin as [->|Hin]; [by vm_compute|]); by apply not_elem_of_nil in Hin).
      split; [|done]. rewrite Hlow by done. repeat (apply elem_of_cons in Hin as [->|Hin]; [by vm_compute|]). by apply not_elem_of_nil in Hin. }
    unfold stable_parts. rewrite fmap_cons. cbn [List.filter]. rewrite Hn, bool_decide_eq_true_2 by done.
    destruct (List.filter _ _) as [|p l]; [exists ""; by rewrite text_empty_r|by eexists]. }
  unfold report_key, fingerprint, Fingerprint. rewrite Hf, Hg. rewrite bool_decide_eq_true_2, bool_decide_eq_false_2 by done.
  split_and!; intros E%Hsha; repeat match type of E with context [stable_parts ?l (?w :: ?ps)] =>
    let r := fresh in let H := fresh in destruct (Hw w ps ltac:(set_solver)) as [r H]; rewrite H in E; clear H end; discriminate E.
Qed.
