(* ===== verification/NoticeRules.v ===== *)
(** * The rules of notifications (src/notification)

    Categories (options.go), quiet hours (quiet.go), messages and recipients
    (notification.go), and how one delivery is retried (delivery.go,
    push_delivery.go). Times are nanoseconds; a date is the number of its day. *)

From Stdlib Require Import Ascii.
From S2P Require Import Prelude Apperr Clock SignIn Sql Queue.

Local Open Scope Z_scope.

(** ** Categories *)

Record Kind : Type := mkKind { k_code : string; k_email : bool; k_push : bool; k_high : bool; k_internal : bool }.

Definition Category (code : string) : Kind := mkKind code false false false false.
Definition EmailByDefault (k : Kind) : Kind := mkKind (k_code k) true (k_push k) (k_high k) (k_internal k).
Definition PushByDefault (k : Kind) : Kind := mkKind (k_code k) (k_email k) true (k_high k) (k_internal k).
Definition HighPriority (k : Kind) : Kind := mkKind (k_code k) (k_email k) (k_push k) true (k_internal k).
Definition CategoryMax : Z := 64.
Definition systemTest : Kind := mkKind "system.test" false false false true.

(** [^[a-z][a-z0-9]*([.-][a-z0-9]+)*$]: [need] says that a separator was just read. *)
Fixpoint category_rest (s : string) (need : bool) : bool :=
  match s with
  | EmptyString => negb need
  | String c s' =>
      if Str.is_lower c || Str.is_digit c then category_rest s' false
      else if bool_decide (c = "."%char ∨ c = "-"%char) then negb need && category_rest s' true else false
  end.
Definition categoryPattern (s : string) : bool :=
  match s with String c s' => Str.is_lower c && category_rest s' false | EmptyString => false end.

Inductive Channel : Type := ChannelEmail | ChannelPush.
#[export] Instance Channel_eq_dec : EqDecision Channel.
Proof. solve_decision. Defined.
Definition emailChannel : string := "email".
Definition pushChannel : string := "push".
Definition channel_string (ch : Channel) : string := match ch with ChannelEmail => emailChannel | ChannelPush => pushChannel end.

Definition defaultOn (k : Kind) (ch : Channel) : bool := match ch with ChannelPush => k_push k | ChannelEmail => k_email k end.

(** What is wrong with a set of categories, without the texts of the fixes. *)
Inductive kindProblem : Type := PBadCode (code : string) | POwnCode (code : string) | PTwice (code : string).

Fixpoint kindProblems_loop (seen : list string) (kinds : list Kind) : list kindProblem :=
  match kinds with
  | [] => []
  | k :: rest =>
      (if negb (categoryPattern (k_code k)) || (CategoryMax <? Z.of_nat (String.length (k_code k))) then [PBadCode (k_code k)]
       else if bool_decide (k_code k = k_code systemTest) then [POwnCode (k_code k)]
       else if contains seen (k_code k) then [PTwice (k_code k)] else []) ++ kindProblems_loop (k_code k :: seen) rest
  end.
Definition kindProblems (kinds : list Kind) : list kindProblem := kindProblems_loop [] kinds.

(** The silenced codes that are no category. *)
Definition offProblems (off : list string) (kinds : list Kind) : list string := List.filter (λ code, negb (contains (k_code <$> kinds) code)) off.

(** An authority over settings: on, and whether the person may not change it. It is
    asked outside, as it stands then. *)
Definition Enforcer : Type := nat → Z → Kind → Channel → result (bool * bool).

Definition withOff (off : list string) (next : option Enforcer) : option Enforcer :=
  match off with
  | [] => next
  | _ => Some (λ n userID kind channel,
           if contains off (k_code kind) then Ok (false, true)
           else match next with None => Ok (false, false) | Some f => f n userID kind channel end)
  end.

(** ** Quiet hours *)

Definition minutesPerDay : Z := 24 * 60.
Record QuietHours : Type := mkQuietHours { qh_Enabled : bool; qh_Start : Z; qh_End : Z }.
Definition DefaultQuietHours : QuietHours := mkQuietHours true (21 * 60) (7 * 60).
Definition ErrInvalidQuietHours : string := "notification: quiet hours need a start and an end between 00:00 and 23:59, and they must differ".

Definition quiet_Validate (q : QuietHours) : option error :=
  if (qh_Start q <? 0) || (minutesPerDay <=? qh_Start q) || (qh_End q <? 0) || (minutesPerDay <=? qh_End q) || (qh_Start q =? qh_End q)
  then Some (errNew ErrInvalidQuietHours) else None.

Definition quiet_contains (q : QuietHours) (minute : Z) : bool :=
  if qh_Start q <? qh_End q then (qh_Start q <=? minute) && (minute <? qh_End q) else (qh_Start q <=? minute) || (minute <? qh_End q).

(** A [time.Location]: for every second its offset from UTC, and from when until when
    that offset holds ([Location.lookup]). *)
Record Location : Type := mkLocation { lc_name : string; lc_offset : Z → Z; lc_start : Z → Z; lc_end : Z → Z }.

Definition unix (t : Z) : Z := t / Time.Second.
(** The wall clock: seconds since the epoch, read as if local time were UTC. *)
Definition wall (loc : Location) (u : Z) : Z := u + lc_offset loc u.
Definition day_of (w : Z) : Z := w / 86400.
Definition minute_of (w : Z) : Z := (w mod 86400) / 60.

(** [time.Date] of a day and a minute of it: the offset at the time read as UTC, or, when
    that offset does not hold at the instant it gives, the offset there. *)
Definition Date (loc : Location) (day minute : Z) : Z :=
  let w := day * 86400 + minute * 60 in
  let offset := lc_offset loc w in
  let utc := w - offset in
  let offset := if (utc <? lc_start loc w) || (lc_end loc w <=? utc) then lc_offset loc utc else offset in
  (w - offset) * Time.Second.

Definition ReleaseAt (q : QuietHours) (now : Z) (loc : Location) : Z :=
  if negb (qh_Enabled q) || bool_decide (quiet_Validate q ≠ None) then now else
  let local := wall loc (unix now) in
  if negb (quiet_contains q (minute_of local)) then now else
  let end_ := Date loc (day_of local) (qh_End q) in
  if Time.After end_ now then end_ else Date loc (day_of local + 1) (qh_End q).

(** ** Messages and recipients *)

Definition TitleMax : Z := 160.
Definition BodyMax : Z := 500.
Definition LinkMax : Z := 255.
Record Message : Type := mkMessage { ms_Title : string; ms_Body : string; ms_Link : string; ms_Data : gmap string string }.
Record Recipient : Type := mkRecipient { rc_ID : Z; rc_Name : string; rc_Locale : string }.
Record Recipients : Type := mkRecipients { rs_ids : list Z; rs_except : list Z }.

Definition To (ids : list Z) : Recipients := mkRecipients ids [].
Definition Except (r : Recipients) (ids : list Z) : Recipients := mkRecipients (rs_ids r) (rs_except r ++ ids).
Definition maxInt32 : Z := 2147483647.

Fixpoint resolve_loop (except out ids : list Z) : list Z :=
  match ids with
  | [] => out
  | id :: rest =>
      if (id <=? 0) || (maxInt32 <? id) || contains out id || contains except id then resolve_loop except out rest
      else resolve_loop except (out ++ [id]) rest
  end.
Definition resolve (r : Recipients) : list Z := resolve_loop (rs_except r) [] (rs_ids r).

Definition ErrNotInConsumer : string := "notification: Send must be called from an event consumer".
Definition ErrUnknownCategory : string := "notification: category is not registered".
Definition ErrInvalidMessage : string := "notification: invalid message".

Definition ellipsis : string := Utf8.encode 8230.
Definition truncate (value : string) (maxRunes : Z) : string :=
  if Utf8.RuneCount value <=? maxRunes then value
  else Utf8.TrimSpace (Utf8.of_runes (take (Z.to_nat (maxRunes - 1)) (Utf8.runes value))) +:+ ellipsis.

Definition IsAppLink (link : string) : bool :=
  if bool_decide (link = "") then true
  else if (LinkMax <? Z.of_nat (String.length link)) || negb (String.prefix "/" link) || String.prefix "//" link then false
  else Str.forall_char (λ c, negb (contains [92; 13; 10] (Str.code c))) link.

Definition finish_message (m : Message) : result Message :=
  let title := truncate (Utf8.TrimSpace (ms_Title m)) TitleMax in
  if bool_decide (title = "") then Err (errorf (ErrInvalidMessage +:+ ": the title is empty") [errNew ErrInvalidMessage]) else
  let link := Utf8.TrimSpace (ms_Link m) in
  if negb (IsAppLink link)
  then Err (errorf (ErrInvalidMessage +:+ ": the link " +:+ Str.fmt_q link +:+ " is not an in-app path") [errNew ErrInvalidMessage])
  else Ok (mkMessage title (truncate (Utf8.TrimSpace (ms_Body m)) BodyMax) link (ms_Data m)).

Definition DedupeKey (eventID userID : Z) (category : Kind) : string :=
  Str.fmt_d eventID +:+ ":" +:+ Str.fmt_d userID +:+ ":" +:+ k_code category.

(** ** Deliveries *)

Definition DeliveryTTL : Z := 24 * Time.Hour.
Definition HighPriorityTTL : Z := 4 * Time.Hour.
Definition RetryBaseDelay : Z := 30 * Time.Second.
Definition RetryMaxDelay : Z := Time.Hour.
Definition claimLease : Z := 5 * Time.Minute.
Definition sendMargin : Z := Time.Minute.
Definition deliveryBatch : nat := 100.
Definition lastErrorMax : Z := 500.

Inductive dstatus : Type := statusPending | statusHeld | statusSent | statusFailed | statusCancelled.
#[export] Instance dstatus_eq_dec : EqDecision dstatus.
Proof. solve_decision. Defined.
Definition dueStatuses : list dstatus := [statusPending; statusHeld].

Record deliveryRow : Type := mkDelivery {
  d_ID : Z; d_NotificationID : Z; d_DeviceID : Z; d_Address : option string; d_Channel : Channel; d_Status : dstatus; d_Attempts : Z;
  d_NextAttemptAt : Z; d_ExpiresAt : Z; d_SentAt : option Z; d_LastStatus : option Z; d_LastError : option string; d_CreatedAt : Z; d_UpdatedAt : Z
}.

Definition whole (t : Z) : Z := t - t mod Time.Second.

Definition newDelivery (channel : Channel) (ttl now release : Z) : deliveryRow :=
  if Time.After release now
  then mkDelivery 0 0 0 None channel statusHeld 0 (whole release) (whole release + ttl) None None None now now
  else mkDelivery 0 0 0 None channel statusPending 0 now (now + ttl) None None None now now.

Definition newEmailDelivery (address : string) (now release : Z) : deliveryRow :=
  let d := newDelivery ChannelEmail DeliveryTTL now release in
  mkDelivery (d_ID d) (d_NotificationID d) (d_DeviceID d) (Some address) (d_Channel d) (d_Status d) (d_Attempts d) (d_NextAttemptAt d) (d_ExpiresAt d)
    (d_SentAt d) (d_LastStatus d) (d_LastError d) (d_CreatedAt d) (d_UpdatedAt d).

(** What an attempt changes: status, next attempt, sent at, last status and error. *)
Definition attempted (d : deliveryRow) (status : dstatus) (next : Z) (sent : option Z) (last : option Z) (err : option string) (now : Z) : deliveryRow :=
  mkDelivery (d_ID d) (d_NotificationID d) (d_DeviceID d) (d_Address d) (d_Channel d) status (d_Attempts d + 1) next (d_ExpiresAt d) sent last err
    (d_CreatedAt d) now.

(** The loop of [backoff]. *)
Fixpoint backoff_loop (rounds : nat) (delay : Z) : Z :=
  match rounds with O => delay | S r => if delay <? RetryMaxDelay then backoff_loop r (delay * 2) else delay end.
Definition backoff (attempts : Z) : Z := Z.min (backoff_loop (Z.to_nat (attempts - 1)) RetryBaseDelay) RetryMaxDelay.

Definition reasonGone : string := "gone".
Definition reasonRejected : string := "rejected".
Definition reasonPermanent : string := "permanent".
Definition reasonExpired : string := "expired".
(** [mail.ErrPermanent] *)
Definition ErrPermanent : string := "mail: permanent failure".

Definition record (d : deliveryRow) (sendErr : option error) (now : Z) : deliveryRow :=
  match sendErr with
  | None => attempted d statusSent (d_NextAttemptAt d) (Some now) (d_LastStatus d) None now
  | Some err =>
      let failed reason := attempted d statusFailed (d_NextAttemptAt d) (d_SentAt d) (d_LastStatus d)
                             (Some (truncate (reason +:+ ": " +:+ error_text err) lastErrorMax)) now in
      if errors_Is err ErrPermanent then failed reasonPermanent else
      let next := now + backoff (d_Attempts d + 1) in
      if negb (Time.Before next (d_ExpiresAt d)) then failed reasonExpired
      else attempted d statusPending next (d_SentAt d) (d_LastStatus d) (Some (truncate (error_text err) lastErrorMax)) now
  end.

Definition cancel (d : deliveryRow) (reason : string) (now : Z) : deliveryRow :=
  mkDelivery (d_ID d) (d_NotificationID d) (d_DeviceID d) (d_Address d) (d_Channel d) statusCancelled (d_Attempts d) (d_NextAttemptAt d) (d_ExpiresAt d)
    (d_SentAt d) (d_LastStatus d) (Some reason) (d_CreatedAt d) now.

Definition canStartSend (leaseUntil now : Z) : bool := Time.Before (now + sendMargin) leaseUntil.
Definition pushTTL (k : Kind) : Z := if k_high k then HighPriorityTTL else DeliveryTTL.

(** ** Pushes *)

Definition bundleMinimum : nat := 3.
Definition bundleMinimumAfterQuiet : nat := 2.
Definition bundleTitlesShown : nat := 3.
Definition shouldBundle (count : nat) (anyHeld : bool) : bool :=
  if anyHeld then (bundleMinimumAfterQuiet <=? count)%nat else (bundleMinimum <=? count)%nat.

Inductive pushOutcome : Type := pushAccepted | pushGone | pushRetry | pushRejected.

Definition credentialsRejected (status : Z) : bool := (status =? 401) || (status =? 403).

Definition classify (status : Z) : pushOutcome :=
  if (200 <=? status) && (status <? 300) then pushAccepted
  else if (status =? 404) || (status =? 410) then pushGone
  else if (status =? 0) || (status =? 429) || (500 <=? status) || credentialsRejected status then pushRetry
  else pushRejected.

Definition blamesDevice (status : Z) : bool :=
  if (status <? 400) || (500 <=? status) then false
  else if (status =? 404) || (status =? 410) || (status =? 413) || (status =? 429) || credentialsRejected status then false
  else true.

Definition recordPush (d : deliveryRow) (status retryAfter : Z) (errText : string) (now : Z) : deliveryRow * pushOutcome :=
  let last := if 0 <? status then Some status else d_LastStatus d in
  let text := truncate (Utf8.TrimSpace errText) lastErrorMax in
  match classify status with
  | pushAccepted => (attempted d statusSent (d_NextAttemptAt d) (Some now) last None now, pushAccepted)
  | pushRetry =>
      let next := now + Z.max retryAfter (backoff (d_Attempts d + 1)) in
      (if negb (Time.Before next (d_ExpiresAt d))
       then attempted d statusFailed (d_NextAttemptAt d) (d_SentAt d) last (Some (truncate ("expired: " +:+ text) lastErrorMax)) now
       else attempted d statusPending (whole next) (d_SentAt d) last (Some text) now, pushRetry)
  | pushGone => (attempted d statusFailed (d_NextAttemptAt d) (d_SentAt d) last (Some text) now, pushGone)
  | pushRejected => (attempted d statusFailed (d_NextAttemptAt d) (d_SentAt d) last (Some text) now, pushRejected)
  end.

(** ** Devices *)

Definition LabelMax : Z := 100.
Definition MaxConsecutiveFailures : Z := 5.

(** [strings.Fields]: the words between white space. *)
Fixpoint fields_go (l : list (Z * string)) (word : string) : list string :=
  match l with
  | [] => if bool_decide (word = "") then [] else [word]
  | (r, t) :: rest =>
      if Utf8.IsSpace r then (if bool_decide (word = "") then [] else [word]) ++ fields_go rest "" else fields_go rest (word +:+ t)
  end.
Definition Fields (s : string) : list string := fields_go (Utf8.chunks_go (String.length s) s) "".

Definition cleanLabel (label : string) : string :=
  let label := Str.join " " (Fields label) in
  if LabelMax <? Utf8.RuneCount label then Utf8.of_runes (take (Z.to_nat LabelMax) (Utf8.runes label)) else label.

Fixpoint platform_loop (userAgent : string) (tokens : list (string * string)) : string :=
  match tokens with [] => "" | (token, name) :: rest => if Contains userAgent token then name else platform_loop userAgent rest end.
Definition platformOf (userAgent : string) : string :=
  platform_loop userAgent [("iPhone", "ios"); ("iPad", "ios"); ("Android", "android"); ("Macintosh", "macos"); ("Windows", "windows"); ("Linux", "linux")].
