(* ===== verification/NoticeStore.v ===== *)
(** * The tables of notifications and the hub (src/notification)

    The tables of inbox.go and models.go and the statements of inbox.go,
    delivery_store.go, settings_store.go, devices_store.go and housekeeping.go, each as
    its meaning on the tables, and the hub of hub.go that fans changes out to open apps.
    A DATETIME column keeps whole seconds: MySQL rounds what it is given to the nearest
    one. The counters of the metrics are left out. *)

From S2P Require Import Prelude Apperr Clock SignIn Sql Rows Queue NoticeRules.

Local Open Scope Z_scope.

(** A time as a DATETIME column keeps it. *)
Definition DATETIME (t : Z) : Z := whole (t + 500 * Time.Millisecond).

(** ** Rows *)

Record noteRow : Type := mkNote {
  n_UserID : Z; n_Category : string; n_Title : string; n_Body : string; n_Link : string; n_Data : string; n_DedupeKey : string;
  n_ReadAt : option Z; n_CreatedAt : Z
}.

Record deviceRow : Type := mkDevice {
  v_UserID : Z; v_Endpoint : string; v_EndpointHash : string; v_P256DH : string; v_Auth : string; v_Label : string; v_Platform : string;
  v_CreatedAt : Z; v_LastSeenAt : Z; v_LastSuccessAt : option Z; v_FailureCount : Z; v_DisabledAt : option Z; v_UpdatedAt : Z
}.

Record preferenceRow : Type := mkPreference { pf_Enabled : bool; pf_UpdatedAt : Z }.
Record quietRow : Type := mkQuietRow { qr_Enabled : bool; qr_StartMinute : Z; qr_EndMinute : Z; qr_UpdatedAt : Z }.

Record Item : Type := mkItem {
  it_ID : Z; it_Category : string; it_Title : string; it_Body : string; it_Link : string; it_Data : gmap string string; it_ReadAt : option Z; it_CreatedAt : Z
}.

(** ** The hub (hub.go) *)

Inductive StreamEvent : Type :=
| StreamCreated (item : Item) (unread : Z)
| StreamRead (ids : list Z) (upTo : option Z) (unread : Z).

Definition subscriberBuffer : nat := 32.

(** The open apps: by person and subscription, the events that wait to be read. A
    subscription that is not there is closed. *)
Record Hub : Type := mkHub { hb_subs : gmap (Z * Z) (list StreamEvent); hb_next : Z }.

Definition Subscribe (h : Hub) (userID : Z) : Z * Hub := (hb_next h, mkHub (<[(userID, hb_next h) := []]> (hb_subs h)) (hb_next h + 1)).
Definition Unsubscribe (h : Hub) (userID sub : Z) : Hub := mkHub (delete (userID, sub) (hb_subs h)) (hb_next h).
Definition hub_Publish (h : Hub) (userID : Z) (ev : StreamEvent) : Hub :=
  mkHub (map_imap (λ us waiting, if us.1 =? userID then (if (length waiting <? subscriberBuffer)%nat then Some (waiting ++ [ev]) else None) else Some waiting)
    (hb_subs h)) (hb_next h).
Definition Subscribers (h : Hub) (userID : Z) : nat := length (List.filter (λ us, us.1 =? userID) (map_to_list (hb_subs h)).*1).
(** The open app reads what waits. *)
Definition Receive (h : Hub) (userID sub : Z) : option (StreamEvent * Hub) :=
  match hb_subs h !! (userID, sub) with
  | Some (ev :: rest) => Some (ev, mkHub (<[(userID, sub) := rest]> (hb_subs h)) (hb_next h))
  | _ => None
  end.

(** ** The tables *)

(** What went out: an e-mail of a delivery to an address, a push of deliveries to a device
    of a person. *)
Inductive Outgoing : Type := OMail (delivery : Z) (address : string) | OPush (device person : Z) (deliveries : list Z).

Record NTables : Type := mkNTables {
  notes : rows_of noteRow;
  deliveries : rows_of deliveryRow;
  preferences : gmap (Z * string * string) preferenceRow;
  quiets : gmap Z quietRow;
  devices : rows_of deviceRow;
  tests : list (Z * Z);
  hub : Hub;
  outgoing : list Outgoing
}.

Definition set_notes (t : NTables) x := mkNTables x (deliveries t) (preferences t) (quiets t) (devices t) (tests t) (hub t) (outgoing t).
Definition set_deliveries (t : NTables) x := mkNTables (notes t) x (preferences t) (quiets t) (devices t) (tests t) (hub t) (outgoing t).
Definition set_preferences (t : NTables) x := mkNTables (notes t) (deliveries t) x (quiets t) (devices t) (tests t) (hub t) (outgoing t).
Definition set_quiets (t : NTables) x := mkNTables (notes t) (deliveries t) (preferences t) x (devices t) (tests t) (hub t) (outgoing t).
Definition set_devices (t : NTables) x := mkNTables (notes t) (deliveries t) (preferences t) (quiets t) x (tests t) (hub t) (outgoing t).
Definition set_tests (t : NTables) x := mkNTables (notes t) (deliveries t) (preferences t) (quiets t) (devices t) x (hub t) (outgoing t).
Definition set_hub (t : NTables) x := mkNTables (notes t) (deliveries t) (preferences t) (quiets t) (devices t) (tests t) x (outgoing t).
Definition set_outgoing (t : NTables) x := mkNTables (notes t) (deliveries t) (preferences t) (quiets t) (devices t) (tests t) (hub t) x.

Definition with_ids {A} (r : rows_of A) (ids : list Z) : list (Z * A) := omap (λ id, (id,.) <$> ro_rows r !! id) ids.

Section Store.
Variable out : Outside.
Notation M := (stM (Env NTables) error).

(** ** Notifications (inbox.go) *)

Definition delivery_key (d : deliveryRow) : Z * Z * Channel := (d_NotificationID d, d_DeviceID d, d_Channel d).

(** A delivery as its row. *)
Definition stored_delivery (d : deliveryRow) : deliveryRow :=
  mkDelivery (d_ID d) (d_NotificationID d) (d_DeviceID d) (d_Address d) (d_Channel d) (d_Status d) (d_Attempts d) (DATETIME (d_NextAttemptAt d)) (DATETIME (d_ExpiresAt d))
    (DATETIME <$> d_SentAt d) (d_LastStatus d) (d_LastError d) (DATETIME (d_CreatedAt d)) (DATETIME (d_UpdatedAt d)).

Definition of_note (id : Z) (d : deliveryRow) : deliveryRow :=
  mkDelivery 0 id (d_DeviceID d) (d_Address d) (d_Channel d) (d_Status d) (d_Attempts d) (d_NextAttemptAt d) (d_ExpiresAt d) (d_SentAt d) (d_LastStatus d)
    (d_LastError d) (d_CreatedAt d) (d_UpdatedAt d).

(** INSERT ... ON CONFLICT DO NOTHING: the id of the row, if it was written. *)
Definition insert_note (r : noteRow) (t : NTables) : option Z * NTables :=
  if bool_decide (ids_where (notes t) (λ _ n, bool_decide (n_DedupeKey n = n_DedupeKey r)) ≠ []) then (None, t)
  else (Some (ro_next (notes t)), set_notes t (insert_row (notes t) r)).

Definition with_d_ID (id : Z) (d : deliveryRow) : deliveryRow :=
  mkDelivery id (d_NotificationID d) (d_DeviceID d) (d_Address d) (d_Channel d) (d_Status d) (d_Attempts d) (d_NextAttemptAt d) (d_ExpiresAt d) (d_SentAt d)
    (d_LastStatus d) (d_LastError d) (d_CreatedAt d) (d_UpdatedAt d).

Definition insert_delivery (d : deliveryRow) (t : NTables) : bool * NTables :=
  if bool_decide (ids_where (deliveries t) (λ _ x, bool_decide (delivery_key x = delivery_key d)) ≠ []) then (false, t)
  else (true, set_deliveries t (insert_row (deliveries t) (stored_delivery (with_d_ID (ro_next (deliveries t)) d)))).

Fixpoint insert_deliveries (ds : list deliveryRow) : M () :=
  match ds with [] => mret () | d :: rest => _ ← statement out (insert_delivery d); insert_deliveries rest end.

Fixpoint insertNew_loop (rows : list noteRow) (plans : Z → list deliveryRow) : M (list (Z * noteRow)) :=
  match rows with
  | [] => mret []
  | r :: rest =>
      made ← statement out (insert_note r);
      match made with
      | None => insertNew_loop rest plans
      | Some id => _ ← insert_deliveries (of_note id <$> plans (n_UserID r)); more ← insertNew_loop rest plans; mret ((id, r) :: more)
      end
  end.

Definition insertNew (rows : list noteRow) (plans : Z → list deliveryRow) : M (list (Z * noteRow)) :=
  wrapping "notification: save the notifications" (Transaction out (insertNew_loop rows plans)).

Record ListQuery : Type := mkListQuery { lq_BeforeID : Z; lq_Limit : Z }.

(** The newest first, before an id. *)
Definition inbox_ids (t : NTables) (userID : Z) (q : ListQuery) : list Z :=
  rev (ids_where (notes t) (λ id n, (n_UserID n =? userID) && ((lq_BeforeID q <=? 0) || (id <? lq_BeforeID q)))).

(** One row more than the page answers whether there is an older one. *)
Definition list_rows (userID : Z) (q : ListQuery) : M (list (Z * noteRow) * bool) :=
  rows ← query out (λ t, with_ids (notes t) (take (Z.to_nat (lq_Limit q + 1)) (inbox_ids t userID q)));
  let more := (Z.to_nat (lq_Limit q) <? length rows)%nat in
  mret (if more then take (Z.to_nat (lq_Limit q)) rows else rows, more).

Definition unread_ids (t : NTables) (userID : Z) : list Z := ids_where (notes t) (λ _ n, (n_UserID n =? userID) && bool_decide (n_ReadAt n = None)).
Definition countUnread (userID : Z) : M Z := query out (λ t, Z.of_nat (length (unread_ids t userID))).

Definition read_at (now : Z) (n : noteRow) : noteRow :=
  mkNote (n_UserID n) (n_Category n) (n_Title n) (n_Body n) (n_Link n) (n_Data n) (n_DedupeKey n) (Some now) (n_CreatedAt n).
Definition mark_ids (ids : list Z) (now : Z) (t : NTables) : NTables :=
  set_notes t (mkRows (map_imap (λ id n, Some (if contains ids id then read_at now n else n)) (ro_rows (notes t))) (ro_next (notes t))).

Definition errNotFound : string := "notification not found".

Definition markRead (userID id now : Z) : M bool :=
  n ← statement out (λ t, let ids := List.filter (λ i, i =? id) (unread_ids t userID) in (length ids, mark_ids ids now t));
  if (0 <? n)%nat then mret true else
  exists_ ← query out (λ t, match ro_rows (notes t) !! id with Some n => n_UserID n =? userID | None => false end);
  if (exists_ : bool) then mret false else throw (errNew errNotFound).

Definition markAllRead (userID upToID now : Z) : M nat :=
  if upToID <=? 0 then mret 0%nat else
  statement out (λ t, let ids := List.filter (λ i, i <=? upToID) (unread_ids t userID) in (length ids, mark_ids ids now t)).

(** ** Deliveries (delivery_store.go) *)

Definition is_due (channel : Channel) (now : Z) (d : deliveryRow) : bool :=
  bool_decide (d_Channel d = channel) && contains dueStatuses (d_Status d) && (d_NextAttemptAt d <=? now).

(** By the time of the next attempt, then by id. *)
Definition due_order (a b : Z * deliveryRow) : bool :=
  (d_NextAttemptAt a.2 <? d_NextAttemptAt b.2) || ((d_NextAttemptAt a.2 =? d_NextAttemptAt b.2) && (a.1 <=? b.1)).
Definition due_rows (t : NTables) (channel : Channel) (now : Z) (p : Z → bool) : list (Z * deliveryRow) :=
  stable_sort due_order (with_ids (deliveries t) (ids_where (deliveries t) (λ id d, p id && is_due channel now d))).

Definition leased (leaseUntil : Z) (d : deliveryRow) : deliveryRow :=
  mkDelivery (d_ID d) (d_NotificationID d) (d_DeviceID d) (d_Address d) (d_Channel d) (d_Status d) (d_Attempts d) leaseUntil (d_ExpiresAt d) (d_SentAt d)
    (d_LastStatus d) (d_LastError d) (d_CreatedAt d) (d_UpdatedAt d).
Definition lease_ids (ids : list Z) (leaseUntil : Z) (t : NTables) : NTables :=
  set_deliveries t (mkRows (map_imap (λ id d, Some (if contains ids id then leased leaseUntil d else d)) (ro_rows (deliveries t))) (ro_next (deliveries t))).

Definition claimDue (channel : Channel) (now leaseUntil : Z) (limit : nat) : M (list deliveryRow) :=
  rows ← wrapping "notification: claim the due deliveries" (Transaction out (
    candidates ← query out (λ t, take limit (due_rows t channel now (λ _, true)).*1);
    match candidates with
    | [] => mret []
    | _ =>
        rows ← query out (λ t, due_rows t channel now (contains candidates));
        match rows with
        | [] => mret []
        | _ => _ ← exec out (lease_ids rows.*1 leaseUntil); mret rows
        end
    end));
  mret ((λ r : Z * deliveryRow, leased leaseUntil r.2) <$> rows).

(** What an attempt writes, unless the delivery was ended meanwhile. *)
Definition saved (d old : deliveryRow) : deliveryRow :=
  mkDelivery (d_ID old) (d_NotificationID old) (d_DeviceID old) (d_Address old) (d_Channel old) (d_Status d) (d_Attempts d) (DATETIME (d_NextAttemptAt d))
    (DATETIME (d_ExpiresAt d)) (DATETIME <$> d_SentAt d) (d_LastStatus d) (d_LastError d) (d_CreatedAt old) (DATETIME (d_UpdatedAt d)).

Definition still_due (t : NTables) (id : Z) : bool :=
  match ro_rows (deliveries t) !! id with Some d => contains dueStatuses (d_Status d) | None => false end.

Definition save_row (d : deliveryRow) (t : NTables) : bool * NTables :=
  if still_due t (d_ID d) then (true, set_deliveries t (alter_row (saved d) (d_ID d) (deliveries t))) else (false, t).
Definition saveDelivery (d : deliveryRow) : M bool := wrapping "notification: save the delivery" (statement out (save_row d)).

Definition note_byID (id : Z) : M (option noteRow) := wrapping "notification: read the notification" (query out (λ t, ro_rows (notes t) !! id)).

(** ** Settings (settings_store.go) *)

(** The person's choices on a channel, by category. *)
Definition choices (t : NTables) (userID : Z) (channel : Channel) (code : string) : option bool :=
  pf_Enabled <$> preferences t !! (userID, code, channel_string channel).
Definition choicesOf (userID : Z) (channel : Channel) : M (string → option bool) :=
  wrapping "notification: read the person's choices" (query out (λ t, choices t userID channel)).
Definition choicesFor (ids : list Z) (category : string) (channel : Channel) : M (Z → option bool) :=
  wrapping "notification: read the people's choices" (query out (λ t id, if contains ids id then choices t id channel category else None)).
Definition setChoice (userID : Z) (category : string) (channel : Channel) (enabled : bool) (now : Z) : M () :=
  wrapping "notification: save the person's choice" (exec out (λ t,
    set_preferences t (<[(userID, category, channel_string channel) := mkPreference enabled now]> (preferences t)))).
Definition clearChoice (userID : Z) (category : string) (channel : Channel) : M () :=
  wrapping "notification: forget the person's choice" (exec out (λ t, set_preferences t (delete (userID, category, channel_string channel) (preferences t)))).

Definition quiet_of (r : quietRow) : QuietHours := mkQuietHours (qr_Enabled r) (qr_StartMinute r) (qr_EndMinute r).
Definition store_quietOf (ids : list Z) : M (Z → option QuietHours) :=
  wrapping "notification: read quiet hours" (query out (λ t id, if contains ids id then quiet_of <$> quiets t !! id else None)).
Definition saveQuiet (userID : Z) (q : QuietHours) (now : Z) : M () :=
  wrapping "notification: save quiet hours" (exec out (λ t,
    set_quiets t (<[userID := mkQuietRow (qh_Enabled q) (qh_Start q) (qh_End q) now]> (quiets t)))).

(** ** Devices (devices_store.go) *)

Definition deviceByID (id : Z) : M (option (Z * deviceRow)) :=
  wrapping "notification: read the device" (query out (λ t, (id,.) <$> ro_rows (devices t) !! id)).
Definition deviceByHash (hash : string) : M (option (Z * deviceRow)) :=
  wrapping "notification: read the device" (query out (λ t, head (with_ids (devices t) (ids_where (devices t) (λ _ v, bool_decide (v_EndpointHash v = hash)))))).

Definition seen_order (a b : Z * deviceRow) : bool :=
  (v_LastSeenAt b.2 <? v_LastSeenAt a.2) || ((v_LastSeenAt a.2 =? v_LastSeenAt b.2) && (b.1 <=? a.1)).
Definition devicesOfUser (userID : Z) : M (list (Z * deviceRow)) :=
  wrapping "notification: list the devices" (query out (λ t,
    stable_sort seen_order (with_ids (devices t) (ids_where (devices t) (λ _ v, v_UserID v =? userID))))).
Definition activeDevices (ids : list Z) : M (Z → list (Z * deviceRow)) :=
  wrapping "notification: read the devices" (query out (λ t id,
    with_ids (devices t) (ids_where (devices t) (λ _ v, contains ids (v_UserID v) && bool_decide (v_DisabledAt v = None) && (v_UserID v =? id))))).

(** INSERT ... ON CONFLICT DO NOTHING on the endpoint: the id of the new row. *)
Definition insertDevice (next : deviceRow) : M (option Z) :=
  wrapping "notification: save the device" (statement out (λ t,
    if bool_decide (ids_where (devices t) (λ _ v, bool_decide (v_EndpointHash v = v_EndpointHash next)) ≠ []) then (None, t)
    else (Some (ro_next (devices t)), set_devices t (insert_row (devices t) next)))).

Definition owed (deviceID : Z) (d : deliveryRow) : bool :=
  (d_DeviceID d =? deviceID) && bool_decide (d_Channel d = ChannelPush) && contains dueStatuses (d_Status d).
Definition cancel_owed (deviceID : Z) (reason : string) (now : Z) (t : NTables) : NTables :=
  set_deliveries t (mkRows ((λ d, if owed deviceID d then cancel d reason (DATETIME now) else d) <$> ro_rows (deliveries t)) (ro_next (deliveries t))).
Definition cancelPushOfDevice (deviceID : Z) (reason : string) (now : Z) : M () := exec out (cancel_owed deviceID reason now).
Definition cancelPushOf (deviceID : Z) (reason : string) (now : Z) : M () :=
  wrapping "notification: cancel the pushes of the device" (cancelPushOfDevice deviceID reason now).

Definition refreshed (next : deviceRow) (moved : bool) (now : Z) (v : deviceRow) : deviceRow :=
  mkDevice (v_UserID next) (v_Endpoint v) (v_EndpointHash v) (v_P256DH next) (v_Auth next) (if moved then v_Label next else v_Label v) (v_Platform next)
    (v_CreatedAt v) now (v_LastSuccessAt v) 0 None now.

Definition refreshDevice (cur : Z * deviceRow) (next : deviceRow) (now : Z) : M (option (Z * deviceRow)) :=
  let moved := negb (v_UserID cur.2 =? v_UserID next) in
  _ ← wrapping "notification: refresh the device" (Transaction out (
    _ ← (if moved then cancelPushOfDevice cur.1 "device moved to another user" now else mret ());
    exec out (λ t, set_devices t (alter_row (refreshed next moved now) cur.1 (devices t)))));
  deviceByID cur.1.

Definition errDeviceVanished : string := "notification: the device vanished while it was being saved".

(** The row and, when it was refreshed and then vanished, none. *)
Definition registerDevice (next : deviceRow) (now : Z) : M (option (Z * deviceRow)) :=
  cur ← deviceByHash (v_EndpointHash next);
  match cur with
  | Some c => refreshDevice c next now
  | None =>
      created ← insertDevice next;
      match created with
      | Some id => mret (Some (id, next))
      | None =>
          cur ← deviceByHash (v_EndpointHash next);
          match cur with Some c => refreshDevice c next now | None => throw (errNew errDeviceVanished) end
      end
  end.

Definition relabelled (label : string) (now : Z) (v : deviceRow) : deviceRow :=
  mkDevice (v_UserID v) (v_Endpoint v) (v_EndpointHash v) (v_P256DH v) (v_Auth v) label (v_Platform v) (v_CreatedAt v) (v_LastSeenAt v) (v_LastSuccessAt v)
    (v_FailureCount v) (v_DisabledAt v) now.
Definition renameDevice (userID id : Z) (label : string) (now : Z) : M () :=
  wrapping "notification: rename the device" (exec out (λ t,
    set_devices t (alter_row (λ v, if v_UserID v =? userID then relabelled label now v else v) id (devices t)))).

Definition removeDevice (userID deviceID : Z) (reason : string) (now : Z) : M () :=
  wrapping "notification: remove the device" (Transaction out (
    _ ← cancelPushOfDevice deviceID reason now;
    exec out (λ t, set_devices t (without_rows (ids_where (devices t) (λ id v, (id =? deviceID) && (v_UserID v =? userID))) (devices t))))).

Definition dropGoneDevice (id : Z) (hash : string) (now : Z) : M () :=
  wrapping "notification: remove the gone device" (Transaction out (
    _ ← cancelPushOfDevice id "subscription gone" now;
    exec out (λ t, set_devices t (without_rows (ids_where (devices t) (λ _ v, bool_decide (v_EndpointHash v = hash))) (devices t))))).

Definition counted_device (success : option Z) (failures : Z → Z) (disabled : option Z → option Z) (now : Z) (v : deviceRow) : deviceRow :=
  mkDevice (v_UserID v) (v_Endpoint v) (v_EndpointHash v) (v_P256DH v) (v_Auth v) (v_Label v) (v_Platform v) (v_CreatedAt v) (v_LastSeenAt v)
    (match success with Some s => Some s | None => v_LastSuccessAt v end) (failures (v_FailureCount v)) (disabled (v_DisabledAt v)) now.

Definition pushSucceeded (id now : Z) : M () :=
  wrapping "notification: note the push on the device" (exec out (λ t,
    set_devices t (alter_row (counted_device (Some (DATETIME now)) (λ _, 0) (λ d, d) (DATETIME now)) id (devices t)))).

(** Was the device just disabled? *)
Definition pushFailed (deviceID now : Z) : M bool :=
  wrapping "notification: note the failed push on the device" (Transaction out (
    _ ← exec out (λ t, set_devices t (alter_row (counted_device None (λ n, n + 1) (λ d, d) (DATETIME now)) deviceID (devices t)));
    statement out (λ t,
      match ro_rows (devices t) !! deviceID with
      | Some v =>
          if (MaxConsecutiveFailures <=? v_FailureCount v) && bool_decide (v_DisabledAt v = None)
          then (true, set_devices t (alter_row (counted_device None (λ n, n) (λ _, Some (DATETIME now)) (v_UpdatedAt v)) deviceID (devices t)))
          else (false, t)
      | None => (false, t)
      end))).

(** ** Housekeeping (housekeeping.go) *)

Definition pruneBatch : nat := 500.
Definition finished_before (cutoff : Z) (d : deliveryRow) : bool := contains [statusSent; statusFailed; statusCancelled] (d_Status d) && (d_UpdatedAt d <? cutoff).
Definition orphan_before (t : NTables) (cutoff id : Z) (n : noteRow) : bool :=
  (n_CreatedAt n <? cutoff) && bool_decide (ids_where (deliveries t) (λ _ d, d_NotificationID d =? id) = []).

(** The rows of a batch: read by primary key, then deleted by the same condition. *)
Definition prune_select {A} (what : string) (rows : NTables → rows_of A) (p : NTables → Z → A → bool) (after : Z) : M (list Z) :=
  wrapping ("notification housekeeping: select " +:+ what) (query out (λ t, take pruneBatch (ids_where (rows t) (λ id a, p t id a && (after <? id))))).
Definition prune_delete {A} (what : string) (rows : NTables → rows_of A) (set : NTables → rows_of A → NTables) (p : NTables → Z → A → bool) (ids : list Z) : M nat :=
  wrapping ("notification housekeeping: delete " +:+ what) (statement out (λ t,
    let gone := ids_where (rows t) (λ id a, p t id a && contains ids id) in (length gone, set t (without_rows gone (rows t))))).

Fixpoint prune {A} (fuel : nat) (what : string) (rows : NTables → rows_of A) (set : NTables → rows_of A → NTables) (p : NTables → Z → A → bool)
    (after deleted : Z) (e : Env NTables) : option (Z * option error * Env NTables) :=
  match fuel with
  | O => None
  | S fuel' =>
      match prune_select what rows p after e with
      | (Err err, e') => Some (deleted, Some err, e')
      | (Ok ids, e') =>
          match list.last ids with
          | None => Some (deleted, None, e')
          | Some final =>
              match prune_delete what rows set p ids e' with
              | (Err err, e'') => Some (deleted, Some err, e'')
              | (Ok n, e'') => prune fuel' what rows set p final (deleted + Z.of_nat n) e''
              end
          end
      end
  end.
End Store.
