(* ===== verification/Notices.v ===== *)
(** * Notifications (src/notification)

    What Install builds: sending from an event consumer (notification.go), a person's
    settings (settings.go), inbox (inbox.go) and devices (devices.go), the workers that
    deliver e-mails (delivery.go) and pushes (push_delivery.go), and the housekeeping
    (housekeeping.go). The people, the renderer and sender of mail, the push service, the
    encoding to JSON, SHA-256 and lower case are arguments; the metrics and the log are
    left out. *)

From Stdlib Require Import Ascii.
From S2P Require Import Prelude Apperr Clock SignIn Sql Rows Queue NoticeRules NoticeStore.

Local Open Scope Z_scope.

(** ** Categories that are registered *)

Definition kind (kinds : list Kind) (code : string) : option Kind := List.find (λ r, bool_decide (k_code r = code)) kinds.

(** None is the panic on a code that is not valid. *)
Fixpoint Register (kinds added : list Kind) : option (list Kind) :=
  match added with
  | [] => Some kinds
  | k :: rest =>
      match kind kinds (k_code k) with
      | Some _ => Register kinds rest
      | None => match kindProblems [k] with [] => Register (kinds ++ [k]) rest | _ => None end
      end
  end.

(** ** Settings *)

Inductive Source : Type := SourceEnforced | SourcePerson | SourceDefault.
#[export] Instance Source_eq_dec : EqDecision Source.
Proof. solve_decision. Defined.
Record Setting : Type := mkSetting { st_Enabled : bool; st_Source : Source }.
Definition Enforced (s : Setting) : bool := bool_decide (st_Source s = SourceEnforced).
Record CategorySettings : Type := mkCategorySettings { cs_Category : string; cs_Email : Setting; cs_Push : Setting }.
Record Preferences : Type := mkPreferences {
  pr_EmailAvailable : bool; pr_PushAvailable : bool; pr_Categories : list CategorySettings; pr_QuietHours : QuietHours; pr_TimeZone : string
}.

Definition ReasonEnforced : string := "notification.setting.enforced".
Definition ReasonEmailUnavailable : string := "notification.email.unavailable".
Definition ReasonPushUnavailable : string := "notification.push.unavailable".
Definition ReasonQuietHoursInvalid : string := "notification.quiet_hours.invalid".
Definition ReasonCategoryUnknown : string := "notification.category.unknown".
Definition unavailable (ch : Channel) : string := match ch with ChannelPush => ReasonPushUnavailable | ChannelEmail => ReasonEmailUnavailable end.

(** ** Devices and pushes *)

Definition ReasonPushDisabled : string := "notification.push.disabled".
Definition ReasonInvalidSubscription : string := "notification.push.invalid_subscription".
Definition ReasonDeviceDisabled : string := "notification.device.disabled".
Definition ReasonDeviceUnknown : string := "notification.device.unknown".

Record PushConfig : Type := mkPushConfig { pc_Enabled : bool; pc_PublicKey : string }.
Record Device : Type := mkDeviceInfo {
  dv_ID : Z; dv_Label : string; dv_Platform : string; dv_EndpointHash : string; dv_Active : bool; dv_CreatedAt : Z; dv_LastSeenAt : Z; dv_LastSuccessAt : option Z
}.
Record Subscription : Type := mkSubscription { sn_Endpoint : string; sn_P256DH : string; sn_Auth : string }.
Record pushPayload : Type := mkPayload {
  pp_NotificationID : Z; pp_Category : string; pp_Title : string; pp_Body : string; pp_Link : string; pp_Tag : string; pp_UnreadCount : Z
}.
Record PushOptions : Type := mkPushOptions { po_TTL : Z; po_High : bool }.
Record PushResult : Type := mkPushResult { px_Status : Z; px_RetryAfter : Z; px_Detail : string }.

(** The push service, with our key. *)
Record Sender : Type := mkSender { sd_PublicKey : string; sd_Send : nat → Subscription → string → PushOptions → result PushResult }.

Definition ErrSubscriptionUnusable : string := "push: the subscription's keys are unusable".
Definition ErrPayloadTooLarge : string := "push: the payload is longer than 3993 bytes".
Definition bundleTag : string := "notification-bundle".

(** The account mail: a renderer with the module's texts behind it, and the sender. *)
Record EmailData : Type := mkEmailData { ed_Name : string; ed_Title : string; ed_Body : string; ed_OpenURL : string }.
Record Mail : Type := mkMail { ml_Render : nat → string → EmailData → result string; ml_Send : nat → string → string → option error }.

(** ** The text of a bundle (bundle.go) *)

Definition slavic (count : Z) (fewForm manyForm : string) : string :=
  let last := Z.rem count 10 in
  if (2 <=? last) && (last <=? 4) && ((Z.rem count 100 <? 12) || (12 + 2 <? Z.rem count 100)) then fewForm else manyForm.

Definition slovenian (count : Z) : string :=
  let last := Z.rem count 100 in
  if last =? 2 then "novi obvestili" else if (last =? 3) || (last =? 4) then "nova obvestila" else "novih obvestil".

(** The text before the first separator. *)
Fixpoint before_dash (s : string) : string :=
  match s with
  | EmptyString => EmptyString
  | String c s' => if Ascii.eqb c "-"%char || Ascii.eqb c "_"%char then EmptyString else String c (before_dash s')
  end.

Definition defaultBundleText (ToLower : string → string) (locale : string) (count : Z) (titles : list string) : string * string :=
  let shown := drop (length titles - bundleTitlesShown) titles in
  let lang := before_dash (ToLower locale) in
  let phrase :=
    if bool_decide (lang = "hr") then slavic count "nove obavijesti" "novih obavijesti"
    else if bool_decide (lang = "bs") then slavic count "nova obavještenja" "novih obavještenja"
    else if bool_decide (lang = "sr") then slavic count "nova obaveštenja" "novih obaveštenja"
    else if bool_decide (lang = "sl") then slovenian count
    else "new notifications" in
  (Str.fmt_d count +:+ " " +:+ phrase, Str.join " · " shown).

(** ** What Install puts together *)

Record Notices : Type := mkNotices {
  nt_kinds : list Kind; nt_enforce : option Enforcer; nt_location : Location; nt_mail : option Mail; nt_push : option Sender;
  nt_bundleText : string → Z → list string → string * string; nt_testText : option (Recipient → Message); nt_appURL : string
}.

Definition heading (appURL : string) (name : string) (note : noteRow) : EmailData :=
  mkEmailData name (Str.join " " (Fields (n_Title note))) (n_Body note) (if bool_decide (n_Link note = "") then "" else appURL +:+ n_Link note).

(** The name of a person, or their login. *)
Definition person_name (a : Account) : string := if bool_decide (ac_Name a = "") then ac_Login a else ac_Name a.

Definition zeroAccount : Account := mkAccount 0 "" "" "" "" "" false "" 0.

(** [uint32(id)] *)
Definition uint32 (id : Z) : Z := id mod 2 ^ 32.

Definition testMessage (n : Notices) (body : string) : Recipient → Message :=
  match nt_testText n with Some text => text | None => λ _, mkMessage "Test notification" body "" ∅ end.

Definition NotificationRetention : Z := 90 * 24 * Time.Hour.
Definition DeliveryRetention : Z := 30 * 24 * Time.Hour.

(** The inbox page size. *)
Definition DefaultPageSize : Z := 20.
Definition MaxPageSize : Z := 50.
Definition normalized (q : ListQuery) : ListQuery :=
  mkListQuery (Z.max (lq_BeforeID q) 0) (Z.min (if lq_Limit q <=? 0 then DefaultPageSize else lq_Limit q) MaxPageSize).

Section Service.
Variable out : Outside.
Variable people : nat → list Z → result (list Account).
Variables (MarshalData : gmap string string → result string) (UnmarshalData : string → gmap string string) (MarshalPayload : pushPayload → result string).
Variables (EndpointHash : string → string) (sub_Validate : Subscription → option error).
Variable n : Notices.
Notation M := (stM (Env NTables) error).

(** A change in memory, or of what went out: no statement. *)
Definition note_ (f : NTables → NTables) : M () := λ e, (Ok (), mkEnv (f (tables e)) (moment e)).
Definition ended : M bool := λ e, let (done, e') := Done out e in (Ok done, e').
Definition Find (ids : list Z) : M (list Account) := ask (λ k, people k ids).

(** *** Settings (settings.go) *)

Definition available (ch : Channel) : bool := match ch with ChannelPush => bool_decide (is_Some (nt_push n)) | ChannelEmail => bool_decide (is_Some (nt_mail n)) end.

(** [chosen] is read from the store when there is none. *)
Definition settings_resolve (k : Kind) (userID : Z) (ch : Channel) (chosen : option (string → option bool)) : M Setting :=
  if negb (available ch) || k_internal k then mret (mkSetting false SourceDefault) else
  enforced ← (match nt_enforce n with
              | None => mret None
              | Some enforce =>
                  r ← mapErr (λ err, Internal (wrapped "notification: the enforcer failed" err)) (ask (λ t, enforce t userID k ch));
                  mret (if r.2 : bool then Some (r.1 : bool) else None)
              end);
  match enforced with
  | Some enabled => mret (mkSetting enabled SourceEnforced)
  | None =>
      mine ← (match chosen with Some c => mret c | None => mapErr Internal (choicesOf out userID ch) end);
      match mine (k_code k) with
      | Some enabled => mret (mkSetting enabled SourcePerson)
      | None => mret (mkSetting (defaultOn k ch) SourceDefault)
      end
  end.

Definition configurable (code : string) : option Kind := List.find (λ k, bool_decide (k_code k = code) && negb (k_internal k)) (nt_kinds n).

Definition quietOf (userID : Z) : M QuietHours :=
  found ← mapErr Internal (store_quietOf out [userID]);
  mret (default DefaultQuietHours (found userID)).

Fixpoint get_loop (userID : Z) (email push : string → option bool) (kinds : list Kind) : M (list CategorySettings) :=
  match kinds with
  | [] => mret []
  | k :: rest =>
      if k_internal k then get_loop userID email push rest else
      e ← settings_resolve k userID ChannelEmail (Some email);
      p ← settings_resolve k userID ChannelPush (Some push);
      more ← get_loop userID email push rest;
      mret (mkCategorySettings (k_code k) e p :: more)
  end.

Definition settings_Get (userID : Z) : M Preferences :=
  email ← mapErr Internal (choicesOf out userID ChannelEmail);
  push ← mapErr Internal (choicesOf out userID ChannelPush);
  quiet ← quietOf userID;
  categories ← get_loop userID email push (nt_kinds n);
  mret (mkPreferences (available ChannelEmail) (available ChannelPush) categories quiet (lc_name (nt_location n))).

(** The two channels, in the order of a map: the e-mail first here. *)
Definition categoryOf (userID : Z) (k : Kind) : M CategorySettings :=
  e ← settings_resolve k userID ChannelEmail None;
  p ← settings_resolve k userID ChannelPush None;
  mret (mkCategorySettings (k_code k) e p).

Definition settings_set (userID : Z) (category : string) (ch : Channel) (enabled : bool) : M CategorySettings :=
  match configurable category with
  | None => throw (WithReason (NotFound "notification category not found") ReasonCategoryUnknown ∅)
  | Some k =>
      if negb (available ch) then throw (WithReason (Wrap None (unavailable ch) CodeInvalidArgument) (unavailable ch) ∅) else
      current ← settings_resolve k userID ch (Some (λ _, None));
      if Enforced current then throw (WithReason (Wrap None ReasonEnforced CodeInvalidArgument) ReasonEnforced ∅) else
      _ ← mapErr Internal (if Bool.eqb enabled (defaultOn k ch) then clearChoice out userID (k_code k) ch
                           else now ← Now out; setChoice out userID (k_code k) ch enabled (whole now));
      categoryOf userID k
  end.

Definition SetEmail (userID : Z) (category : string) (on : bool) : M CategorySettings := settings_set userID category ChannelEmail on.
Definition SetPush (userID : Z) (category : string) (on : bool) : M CategorySettings := settings_set userID category ChannelPush on.

Definition SetQuietHours (userID : Z) (hours : QuietHours) : M QuietHours :=
  if bool_decide (quiet_Validate hours ≠ None)
  then throw (WithReason (Wrap (Some (errNew ErrInvalidQuietHours)) ReasonQuietHoursInvalid CodeValidationError) ReasonQuietHoursInvalid ∅) else
  now ← Now out;
  _ ← mapErr Internal (saveQuiet out userID hours (whole now));
  mret hours.

Fixpoint settingsFor_loop (k : Kind) (ch : Channel) (chosen : Z → option bool) (ids : list Z) (made : gmap Z Setting) : M (gmap Z Setting) :=
  match ids with
  | [] => mret made
  | id :: rest =>
      setting ← settings_resolve k id ch (Some (λ code, if bool_decide (code = k_code k) then chosen id else None));
      settingsFor_loop k ch chosen rest (<[id := setting]> made)
  end.

Definition settingsFor (k : Kind) (ids : list Z) (ch : Channel) : M (gmap Z Setting) :=
  if negb (available ch) || k_internal k then mret ∅ else
  chosen ← choicesFor out ids (k_code k) ch;
  settingsFor_loop k ch chosen ids ∅.

Definition switched_on (settings : gmap Z Setting) (id : Z) : bool := match settings !! id with Some s => st_Enabled s | None => false end.

(** *** Planning the deliveries (delivery.go) *)

Notation Plans := (gmap Z (list deliveryRow)).
Definition add_plan (id : Z) (d : deliveryRow) (plans : Plans) : Plans := <[id := default [] (plans !! id) ++ [d]]> plans.

Fixpoint planEmail_loop (settings : gmap Z Setting) (now : Z) (release : Z → Z) (accounts : list Account) (plans : Plans) : Plans :=
  match accounts with
  | [] => plans
  | a :: rest =>
      planEmail_loop settings now release rest
        (if switched_on settings (ac_ID a) then add_plan (uint32 (ac_ID a)) (newEmailDelivery (Utf8.TrimSpace (ac_Email a)) now (release (ac_ID a))) plans
         else plans)
  end.

Definition planEmail (k : Kind) (accounts : list Account) (now : Z) (release : Z → Z) (plans : Plans) : M Plans :=
  if bool_decide (nt_mail n = None) || k_internal k then mret plans else
  match ac_ID <$> List.filter (λ a, negb (bool_decide (Utf8.TrimSpace (ac_Email a) = ""))) accounts with
  | [] => mret plans
  | ids =>
      settings ← settingsFor k ids ChannelEmail;
      mret (planEmail_loop settings now release accounts plans)
  end.

Definition pushWanted (k : Kind) (ids : list Z) : M (list Z) :=
  if k_internal k then mret ids else
  settings ← settingsFor k ids ChannelPush;
  mret (List.filter (switched_on settings) ids).

Definition for_device (device : Z) (d : deliveryRow) : deliveryRow :=
  mkDelivery (d_ID d) (d_NotificationID d) device (d_Address d) (d_Channel d) (d_Status d) (d_Attempts d) (d_NextAttemptAt d) (d_ExpiresAt d) (d_SentAt d)
    (d_LastStatus d) (d_LastError d) (d_CreatedAt d) (d_UpdatedAt d).

Fixpoint planDevices_loop (k : Kind) (now release onlyDevice : Z) (devs : list (Z * deviceRow)) (plans : Plans) : Plans :=
  match devs with
  | [] => plans
  | (id, dev) :: rest =>
      planDevices_loop k now release onlyDevice rest
        (if negb (onlyDevice =? 0) && negb (id =? onlyDevice) then plans
         else add_plan (v_UserID dev) (for_device id (newDelivery ChannelPush (pushTTL k) now release)) plans)
  end.

Fixpoint planPush_loop (k : Kind) (now : Z) (release : Z → Z) (onlyDevice : Z) (devs : Z → list (Z * deviceRow)) (wanting : list Z) (plans : Plans) : Plans :=
  match wanting with
  | [] => plans
  | id :: rest => planPush_loop k now release onlyDevice devs rest (planDevices_loop k now (release id) onlyDevice (devs (uint32 id)) plans)
  end.

Definition planPush (k : Kind) (ids : list Z) (now : Z) (release : Z → Z) (onlyDevice : Z) (plans : Plans) : M Plans :=
  if bool_decide (nt_push n = None) then mret plans else
  wanting ← pushWanted k ids;
  match wanting with
  | [] => mret plans
  | _ => devs ← activeDevices out wanting; mret (planPush_loop k now release onlyDevice devs wanting plans)
  end.

Definition release_of (k : Kind) (quiet : Z → option QuietHours) (now id : Z) : Z :=
  if k_internal k then now else ReleaseAt (default DefaultQuietHours (quiet id)) now (nt_location n).

Definition plans (k : Kind) (accounts : list Account) (now onlyDevice : Z) : M Plans :=
  if bool_decide (nt_mail n = None) && bool_decide (nt_push n = None) then mret ∅ else
  let ids := ac_ID <$> accounts in
  quiet ← (if k_internal k then mret (λ _, None) else store_quietOf out ids);
  let release := release_of k quiet now in
  p ← planEmail k accounts now release ∅;
  planPush k ids now release onlyDevice p.

(** *** Sending (notification.go) *)

(** What the context of a consumer's handler holds: the event's id, and whether a
    transaction is open. *)
Record Handling : Type := mkHandling { hd_event : option Z; hd_inTransaction : bool }.

(** A [nil] function is none. *)
Definition checkSend (ctx : Handling) (category : Kind) (render : option (Recipient → Message)) : result (Z * Kind * (Recipient → Message)) :=
  match hd_event ctx with
  | None => Err (errorf (ErrNotInConsumer +:+ ": publish an event and send from its consumer") [errNew ErrNotInConsumer])
  | Some eventID =>
      if hd_inTransaction ctx
      then Err (errorf (ErrNotInConsumer +:+ ": Send commits its own transaction, so it cannot run inside another") [errNew ErrNotInConsumer]) else
      match kind (nt_kinds n) (k_code category) with
      | None => Err (errorf (ErrMalformed +:+ ": " +:+ ErrUnknownCategory +:+ ": " +:+ Str.fmt_q (k_code category) +:+ ": pass it to notification.Install")
                       [errNew ErrMalformed; errNew ErrUnknownCategory])
      | Some registered =>
          match render with
          | None => Err (errorf (ErrMalformed +:+ ": " +:+ ErrInvalidMessage +:+ ": render is nil") [errNew ErrMalformed; errNew ErrInvalidMessage])
          | Some f => Ok (eventID, registered, f)
          end
      end
  end.

Definition newRow (eventID userID : Z) (category : Kind) (m : Message) (now : Z) : result noteRow :=
  let made data := mkNote (uint32 userID) (k_code category) (ms_Title m) (ms_Body m) (ms_Link m) data (DedupeKey eventID userID category) None (whole now) in
  if bool_decide (ms_Data m = ∅) then Ok (made "{}") else
  match MarshalData (ms_Data m) with
  | Err err => Err (errorf (ErrInvalidMessage +:+ ": the data cannot be encoded: " +:+ error_text err) [errNew ErrInvalidMessage; err])
  | Ok raw => Ok (made raw)
  end.

Definition item (id : Z) (r : noteRow) : Item :=
  mkItem id (n_Category r) (n_Title r) (n_Body r) (n_Link r) (if bool_decide (n_Data r = "") then ∅ else UnmarshalData (n_Data r)) (n_ReadAt r) (n_CreatedAt r).

Definition unusable (id : Z) (category : Kind) (err : error) : error :=
  errorf (ErrMalformed +:+ ": " +:+ error_text err +:+ " (recipient " +:+ Str.fmt_d id +:+ ", category " +:+ Str.fmt_q (k_code category) +:+ ")")
    [errNew ErrMalformed; err].

(** The rows of the active recipients, with their accounts. *)
Fixpoint render_loop (eventID : Z) (category : Kind) (byID : gmap Z Account) (render : Recipient → Message) (now : Z) (ids : list Z) :
    result (list noteRow * list Account) :=
  match ids with
  | [] => Ok ([], [])
  | id :: rest =>
      match byID !! id with
      | None => render_loop eventID category byID render now rest
      | Some a =>
          if negb (ac_Active a) then render_loop eventID category byID render now rest else
          match finish_message (render (mkRecipient id (person_name a) (ac_Locale a))) with
          | Err err => Err (unusable id category err)
          | Ok msg =>
              match newRow eventID id category msg now with
              | Err err => Err (unusable id category err)
              | Ok r =>
                  match render_loop eventID category byID render now rest with
                  | Err err => Err err
                  | Ok (rows, notified) => Ok (r :: rows, a :: notified)
                  end
              end
          end
      end
  end.

Definition by_account (accounts : list Account) : gmap Z Account := foldl (λ m a, <[ac_ID a := a]> m) ∅ accounts.

Definition render_all (eventID : Z) (category : Kind) (ids : list Z) (render : Recipient → Message) (now : Z) : M (list noteRow * list Account) :=
  accounts ← wrapping "notification: look up the recipients" (Find ids);
  lift (render_loop eventID category (by_account accounts) render now ids).

(** Telling the open apps (stream.go), one that cannot be counted left out. *)
Fixpoint announce (created : list (Z * noteRow)) : M () :=
  match created with
  | [] => mret ()
  | (id, r) :: rest =>
      subscribers ← (λ e : Env NTables, (Ok (Subscribers (hub (tables e)) (n_UserID r)), e));
      _ ← (if (subscribers =? 0)%nat then mret () else
           count ← attempt (countUnread out (n_UserID r));
           match count with
           | Err _ => mret ()
           | Ok c => note_ (λ t, set_hub t (hub_Publish (hub t) (n_UserID r) (StreamCreated (item id r) c)))
           end);
      announce rest
  end.

Definition send (ctx : Handling) (category : Kind) (recipients : Recipients) (render : option (Recipient → Message)) (onlyDevice : Z) : M () :=
  checked ← lift (checkSend ctx category render);
  match resolve recipients with
  | [] => mret ()
  | ids =>
      now ← Now out;
      made ← render_all checked.1.1 category ids checked.2 now;
      match made.1 with
      | [] => mret ()
      | rows =>
          p ← plans checked.1.2 made.2 (whole now) onlyDevice;
          created ← insertNew out rows (λ id, default [] (p !! id));
          announce created
      end
  end.

Definition Send (ctx : Handling) (category : Kind) (to : Recipients) (render : option (Recipient → Message)) : M () := send ctx category to render 0.

(** *** The inbox (inbox.go) *)

Record Page : Type := mkPage { pg_Items : list Item; pg_HasMore : bool }.

Definition inbox_List (userID : Z) (q : ListQuery) : M Page :=
  r ← mapErr Internal (list_rows out userID (normalized q));
  mret (mkPage ((λ x : Z * noteRow, item x.1 x.2) <$> r.1) r.2).

Definition Unread (userID : Z) : M Z := mapErr Internal (countUnread out userID).

Definition MarkRead (userID notificationID : Z) : M Z :=
  now ← Now out;
  r ← attempt (markRead out userID notificationID (whole now));
  match r with
  | Err err => throw (if errors_Is err errNotFound then NotFound "notification not found" else Internal err)
  | Ok changed =>
      count ← Unread userID;
      _ ← (if (changed : bool) then note_ (λ t, set_hub t (hub_Publish (hub t) userID (StreamRead [notificationID] None count))) else mret ());
      mret count
  end.

Definition MarkAllRead (userID upToID : Z) : M Z :=
  if upToID <=? 0 then Unread userID else
  now ← Now out;
  changed ← mapErr Internal (markAllRead out userID upToID (whole now));
  count ← Unread userID;
  _ ← (if (0 <? changed)%nat then note_ (λ t, set_hub t (hub_Publish (hub t) userID (StreamRead [] (Some upToID) count))) else mret ());
  mret count.

(** *** Devices (devices.go) *)

Definition Config : PushConfig := match nt_push n with None => mkPushConfig false "" | Some s => mkPushConfig true (sd_PublicKey s) end.

Definition device (id : Z) (r : deviceRow) : Device :=
  mkDeviceInfo id (v_Label r) (v_Platform r) (v_EndpointHash r) (bool_decide (v_DisabledAt r = None)) (v_CreatedAt r) (v_LastSeenAt r) (v_LastSuccessAt r).
Definition zeroRow : deviceRow := mkDevice 0 "" "" "" "" "" "" 0 0 None 0 None 0.
Definition subscription (r : deviceRow) : Subscription := mkSubscription (v_Endpoint r) (v_P256DH r) (v_Auth r).

Definition devices_List (userID : Z) : M (list Device) :=
  rows ← mapErr Internal (devicesOfUser out userID);
  mret ((λ r : Z * deviceRow, device r.1 r.2) <$> rows).

Definition pushDisabled : error := WithReason (BadRequest "push notifications are not configured") ReasonPushDisabled ∅.

Definition devices_Register (userID : Z) (userAgent : string) (sub : Subscription) : M Device :=
  if bool_decide (nt_push n = None) then throw pushDisabled else
  match sub_Validate sub with
  | Some _ => throw (WithReason (BadRequest "invalid push subscription") ReasonInvalidSubscription ∅)
  | None =>
      t ← Now out;
      let now := whole t in
      let next := mkDevice (uint32 userID) (sn_Endpoint sub) (EndpointHash (sn_Endpoint sub)) (sn_P256DH sub) (sn_Auth sub) (cleanLabel (DeviceLabel userAgent))
                    (platformOf userAgent) now now None 0 None now in
      saved ← mapErr Internal (registerDevice out next now);
      mret (match saved with Some (id, r) => device id r | None => device 0 zeroRow end)
  end.

Definition unknownDevice : error := WithReason (NotFound "device not found") ReasonDeviceUnknown ∅.

Definition owned (userID deviceID : Z) : M (Z * deviceRow) :=
  dev ← mapErr Internal (deviceByID out deviceID);
  match dev with
  | Some d => if v_UserID d.2 =? userID then mret d else throw unknownDevice
  | None => throw unknownDevice
  end.

Definition Rename (userID deviceID : Z) (label : string) : M Device :=
  let label := cleanLabel label in
  if bool_decide (label = "") then throw (BadRequest "the label is empty") else
  _ ← owned userID deviceID;
  now ← Now out;
  _ ← mapErr Internal (renameDevice out userID deviceID label (whole now));
  r ← owned userID deviceID;
  mret (device r.1 r.2).

Definition devices_delete (userID deviceID : Z) : M () :=
  now ← Now out;
  mapErr Internal (removeDevice out userID deviceID "device removed" (whole now)).

Definition Remove (userID deviceID : Z) : M () :=
  _ ← owned userID deviceID;
  devices_delete userID deviceID.

Definition Unregister (userID : Z) (endpoint : string) : M () :=
  dev ← mapErr Internal (deviceByHash out (EndpointHash (Utf8.TrimSpace endpoint)));
  match dev with
  | Some d => if v_UserID d.2 =? userID then devices_delete userID d.1 else mret ()
  | None => mret ()
  end.

Definition SendTest (userID deviceID : Z) : M () :=
  if bool_decide (nt_push n = None) then throw pushDisabled else
  r ← owned userID deviceID;
  if bool_decide (v_DisabledAt r.2 ≠ None) then throw (WithReason (BadRequest "the device is disabled") ReasonDeviceDisabled ∅) else
  mapErr Internal (Transaction out (exec out (λ t, set_tests t (tests t ++ [(userID, deviceID)])))).

(** The consumer of the test event. *)
Definition deviceTestConsumer (ctx : Handling) (userID deviceID : Z) : M () :=
  send ctx systemTest (To [userID]) (Some (testMessage n "If you see this, notifications reach this device.")) deviceID.

(** *** Delivering e-mails (delivery.go) *)

Definition finish (d : deliveryRow) : M () := _ ← saveDelivery out d; mret ().

(** Rendering and sending; what is handed to the mail server is noted. *)
Definition sendEmail (m : Mail) (delivery : Z) (to : Account) (address : string) (note : noteRow) : M (option error) :=
  content ← attempt (ask (λ k, ml_Render m k (ac_Locale to) (heading (nt_appURL n) (person_name to) note)));
  match content with
  | Err err => mret (Some (wrapped "render the e-mail" err))
  | Ok text =>
      _ ← note_ (λ t, set_outgoing t (outgoing t ++ [OMail delivery address]));
      ask (λ k, Ok (ml_Send m k address text))
  end.

Definition nilDereference : error := errNew "invalid memory address or nil pointer dereference".

Definition deliver (m : Mail) (d : deliveryRow) : M () :=
  note ← note_byID out (d_NotificationID d);
  match note with
  | None => now ← Now out; finish (cancel d "notification deleted" now)
  | Some r =>
      if bool_decide (n_ReadAt r ≠ None) then now ← Now out; finish (cancel d "read before delivery" now) else
      found ← wrapping "look up the recipient" (Find [n_UserID r]);
      match d_Address d with
      | None => throw nilDereference
      | Some address =>
          err ← sendEmail m (d_ID d) (default zeroAccount (head found)) address r;
          now ← Now out;
          finish (record d err now)
      end
  end.

(** What is left when the lease runs out or the context ends is due again later. *)
Fixpoint deliver_loop (m : Mail) (leaseUntil : Z) (due : list deliveryRow) : M (list error) :=
  match due with
  | [] => mret []
  | d :: rest =>
      done ← ended;
      if (done : bool) then mret [] else
      now ← Now out;
      if negb (canStartSend leaseUntil now) then mret [] else
      r ← attempt (deliver m d);
      errs ← deliver_loop m leaseUntil rest;
      mret (match r with Err err => wrapped ("delivery " +:+ Str.fmt_d (d_ID d)) err :: errs | Ok _ => errs end)
  end.

Definition DeliverDue : M (nat * option error) :=
  match nt_mail n with
  | None => mret (0%nat, None)
  | Some m =>
      now ← Now out;
      let leaseUntil := whole now + NoticeRules.claimLease in
      due ← claimDue out ChannelEmail (whole now) leaseUntil deliveryBatch;
      errs ← deliver_loop m leaseUntil due;
      mret (length due, joinErrors (Some <$> errs))
  end.

(** *** Delivering pushes (push_delivery.go) *)

Record pending : Type := mkPending { pn_delivery : deliveryRow; pn_note : Z * noteRow }.

(** None is a push that was cancelled. *)
Definition triage (dev : deviceRow) (due : deliveryRow) : M (option pending) :=
  note ← note_byID out (d_NotificationID due);
  let cancelled reason := now ← Now out; _ ← finish (cancel due reason now); mret None in
  match note with
  | None => cancelled "notification deleted"
  | Some r =>
      if bool_decide (n_ReadAt r ≠ None) then cancelled "read before delivery"
      else if negb (v_UserID dev =? n_UserID r) || bool_decide (v_DisabledAt dev ≠ None) then cancelled "device no longer receives this person's pushes"
      else mret (Some (mkPending due (d_NotificationID due, r)))
  end.

Fixpoint triageAll (dev : deviceRow) (items : list deliveryRow) : M (list pending * bool) :=
  match items with
  | [] => mret ([], false)
  | due :: rest =>
      entry ← triage dev due;
      more ← triageAll dev rest;
      mret (match entry with
            | Some p => (p :: more.1, bool_decide (d_Status due = statusHeld) || more.2)
            | None => more
            end)
  end.

Fixpoint cancelAll (items : list deliveryRow) (reason : string) : M () :=
  match items with
  | [] => mret ()
  | d :: rest => now ← Now out; _ ← finish (cancel d reason now); cancelAll rest reason
  end.

Definition localeOf (userID : Z) : M string :=
  found ← attempt (Find [userID]);
  mret (match found with Ok (a :: _) => ac_Locale a | _ => "" end).

Definition transmit (s : Sender) (dev : Z * deviceRow) (ids : list Z) (payload : pushPayload) (options : PushOptions) : M PushResult :=
  match MarshalPayload payload with
  | Err err => mret (mkPushResult 413 0 (error_text err))
  | Ok raw =>
      _ ← note_ (λ t, set_outgoing t (outgoing t ++ [OPush dev.1 (v_UserID dev.2) ids]));
      res ← attempt (ask (λ k, sd_Send s k (subscription dev.2) raw options));
      mret (match res with
            | Ok r => r
            | Err err =>
                if errors_Is err ErrSubscriptionUnusable then mkPushResult 410 0 (error_text err)
                else if errors_Is err ErrPayloadTooLarge then mkPushResult 413 0 (error_text err)
                else mkPushResult 0 0 (error_text err)
            end)
  end.

Definition noteOnDevice (dev : Z * deviceRow) (outcome : pushOutcome) (status now : Z) : M () :=
  match outcome with
  | pushAccepted => pushSucceeded out dev.1 now
  | pushGone => dropGoneDevice out dev.1 (v_EndpointHash dev.2) now
  | pushRetry | pushRejected =>
      if negb (blamesDevice status) then mret () else
      disabled ← pushFailed out dev.1 now;
      if (disabled : bool) then cancelPushOf out dev.1 "device disabled after repeated failures" now else mret ()
  end.

Definition note_payload (id : Z) (r : noteRow) (unread : Z) : pushPayload :=
  mkPayload id (n_Category r) (n_Title r) (n_Body r) (n_Link r) ("notification-" +:+ Str.fmt_d id) unread.

Definition is_high (p : pending) : bool := match kind (nt_kinds n) (n_Category (pn_note p).2) with Some k => k_high k | None => false end.

(** The answer on every delivery of the push. *)
Fixpoint record_all (res : PushResult) (now : Z) (entries : list pending) : M () :=
  match entries with
  | [] => mret ()
  | p :: rest => _ ← saveDelivery out (recordPush (pn_delivery p) (px_Status res) (px_RetryAfter res) (px_Detail res) now).1; record_all res now rest
  end.

Definition sendPush (s : Sender) (dev : Z * deviceRow) (first : pending) (others : list pending) (bundle : bool) : M () :=
  let entries := first :: others in
  unread ← wrapping "notification: count the unread for a push" (countUnread out (v_UserID dev.2));
  now ← Now out;
  let ttl := foldl (λ ttl p, Z.min ttl (d_ExpiresAt (pn_delivery p) - now)) (d_ExpiresAt (pn_delivery first) - now) entries in
  let options := mkPushOptions ttl (existsb is_high entries) in
  payload ← (if bundle then
               locale ← localeOf (v_UserID dev.2);
               let text := nt_bundleText n locale (Z.of_nat (length entries)) ((λ p, n_Title (pn_note p).2) <$> entries) in
               mret (mkPayload 0 "" text.1 text.2 "/" bundleTag unread)
             else mret (note_payload (pn_note first).1 (pn_note first).2 unread));
  res ← transmit s dev ((λ p, d_ID (pn_delivery p)) <$> entries) payload options;
  now ← Now out;
  _ ← record_all res now entries;
  noteOnDevice dev (classify (px_Status res)) (px_Status res) now.

Fixpoint send_each (s : Sender) (dev : Z * deviceRow) (entries : list pending) : M () :=
  match entries with [] => mret () | p :: rest => _ ← sendPush s dev p [] false; send_each s dev rest end.

Definition deliverToDevice (s : Sender) (deviceID : Z) (items : list deliveryRow) : M () :=
  dev ← deviceByID out deviceID;
  match dev with
  | None => cancelAll items "device removed"
  | Some d =>
      r ← triageAll d.2 items;
      match r.1 with
      | [] => mret ()
      | first :: others => if shouldBundle (length r.1) r.2 then sendPush s d first others true else send_each s d r.1
      end
  end.

(** The pushes of each device, the devices in the order they come up. *)
Fixpoint device_order (due : list deliveryRow) (order : list Z) : list Z :=
  match due with
  | [] => order
  | d :: rest => device_order rest (if contains order (d_DeviceID d) then order else order ++ [d_DeviceID d])
  end.
Definition of_device (due : list deliveryRow) (deviceID : Z) : list deliveryRow := List.filter (λ d, d_DeviceID d =? deviceID) due.

Fixpoint push_loop (s : Sender) (leaseUntil : Z) (due : list deliveryRow) (order : list Z) : M (list error) :=
  match order with
  | [] => mret []
  | deviceID :: rest =>
      done ← ended;
      if (done : bool) then mret [] else
      now ← Now out;
      if negb (canStartSend leaseUntil now) then mret [] else
      r ← attempt (deliverToDevice s deviceID (of_device due deviceID));
      errs ← push_loop s leaseUntil due rest;
      mret (match r with Err err => wrapped ("device " +:+ Str.fmt_d deviceID) err :: errs | Ok _ => errs end)
  end.

Definition DeliverPushDue : M (nat * option error) :=
  match nt_push n with
  | None => mret (0%nat, None)
  | Some s =>
      now ← Now out;
      let leaseUntil := whole now + NoticeRules.claimLease in
      due ← claimDue out ChannelPush (whole now) leaseUntil deliveryBatch;
      errs ← push_loop s leaseUntil due (device_order due []);
      mret (length due, joinErrors (Some <$> errs))
  end.

(** *** Housekeeping (housekeeping.go) *)

Record Swept : Type := mkSwept { sw_Deliveries : Z; sw_Notifications : Z }.

Definition pruneDeliveries (fuel : nat) (cutoff : Z) (e : Env NTables) : option (Z * option error * Env NTables) :=
  prune out fuel "deliverys" deliveries set_deliveries (λ _ _ d, finished_before cutoff d) 0 0 e.
Definition pruneNotifications (fuel : nat) (cutoff : Z) (e : Env NTables) : option (Z * option error * Env NTables) :=
  prune out fuel "notifications" notes set_notes (λ t id r, orphan_before t cutoff id r) 0 0 e.

Definition notices_Sweep (fuel : nat) (e : Env NTables) : option (Swept * option error * Env NTables) :=
  let now := whole (clock out (moment e)) in
  match pruneDeliveries fuel (now - DeliveryRetention) (passed e) with
  | None => None
  | Some (d, Some err, e') => Some (mkSwept d 0, Some err, e')
  | Some (d, None, e') =>
      match pruneNotifications fuel (now - NotificationRetention) e' with
      | None => None
      | Some (k, err, e'') => Some (mkSwept d k, err, e'')
      end
  end.
End Service.
