(* ===== verification/NoticeFacts.v ===== *)
(** * What the tables of notifications keep

    Soundness (unique keys, every delivery with its notification) and the steps that keep
    it. *)

From Stdlib Require Import Ascii.
From S2P Require Import Prelude Apperr Clock SignIn Sql Rows Hoare Queue NoticeRules NoticeStore Notices.

Local Open Scope Z_scope.

(** What a delivery is and for whom never changes. *)
Definition same_delivery (d d' : deliveryRow) : Prop :=
  d_ID d' = d_ID d ∧ d_NotificationID d' = d_NotificationID d ∧ d_DeviceID d' = d_DeviceID d ∧ d_Channel d' = d_Channel d ∧ d_Address d' = d_Address d.

Record sound (t : NTables) : Prop := mkSound {
  so_notes : ids_used (notes t);
  so_deliveries : ids_used (deliveries t);
  so_devices : ids_used (devices t);
  so_keys : unique_by n_DedupeKey (notes t);
  so_targets : unique_by delivery_key (deliveries t);
  so_hashes : unique_by v_EndpointHash (devices t);
  so_of : ∀ id d, ro_rows (deliveries t) !! id = Some d →
    d_ID d = id ∧ is_Some (ro_rows (notes t) !! d_NotificationID d) ∧ (d_Channel d = ChannelEmail → is_Some (d_Address d))
}.

(** Tables soundness does not speak of. *)
Lemma sound_apart t t' : notes t' = notes t → deliveries t' = deliveries t → devices t' = devices t → sound t → sound t'.
Proof. intros En Ed Ev []. by split; rewrite ?En, ?Ed, ?Ev. Qed.

Lemma sound_devices t r : sound t → changes (λ v v', v_EndpointHash v' = v_EndpointHash v) (devices t) r → sound (set_devices t r).
Proof. intros [] H. split; try done; cbn; [by eapply ids_used_changes|by eapply unique_changes]. Qed.

Lemma sound_deliveries t r : sound t → changes same_delivery (deliveries t) r → sound (set_deliveries t r).
Proof.
  intros [? ? ? ? Ht ? Ho] H. split; try done; cbn; [by eapply ids_used_changes| |].
  - apply (unique_changes _ _ _ Ht), (changes_weaken _ _ _ _ H). intros d d' (_ & E1 & E2 & E3 & _). unfold delivery_key. congruence.
  - intros id d' Hd. destruct H as [_ H]. destruct (H id d' Hd) as (d & Hd0 & E0 & E1 & _ & E3 & E4). rewrite E0, E1, E3, E4. by apply Ho.
Qed.

(** Notifications that change in place, or go when no delivery is left. *)
Lemma sound_set_notes t r : sound t → changes (λ a b, n_DedupeKey b = n_DedupeKey a) (notes t) r →
  (∀ id d, ro_rows (deliveries t) !! id = Some d → is_Some (ro_rows r !! d_NotificationID d)) → sound (set_notes t r).
Proof.
  intros [? ? ? Hk ? ? Ho] H Hr. split; try done; cbn; [by eapply ids_used_changes|by eapply unique_changes|].
  intros id d Hd. destruct (Ho id d Hd) as (? & _ & ?). eauto.
Qed.

Lemma sound_mark ids now t : sound t → sound (mark_ids ids now t).
Proof.
  intros Hs. apply (sound_set_notes _ _ Hs).
  - apply (changes_map _ (λ id n, if contains ids id then read_at now n else n)). intros i n. by destruct (contains _ _).
  - intros id d Hd. destruct (so_of _ Hs id d Hd) as (_ & [n Hn] & _). cbn. rewrite map_lookup_imap, Hn. by eexists.
Qed.

Lemma sound_insert_note r t : sound t → sound (insert_note r t).2.
Proof.
  intros Hs. unfold insert_note. case_bool_decide as E; [done|]. rewrite none_with in E.
  destruct Hs as [? ? ? Hk ? ? Ho]. split; try done; cbn [notes set_notes deliveries devices].
  - by apply ids_used_insert.
  - by apply unique_insert.
  - intros id d Hd. destruct (Ho id d Hd) as (? & [n Hn] & ?). split_and!; [done| |done]. unfold insert_row. cbn.
    destruct (decide (ro_next (notes t) = d_NotificationID d)) as [->|Hne]; [rewrite lookup_insert; by destruct (decide _)|].
    rewrite lookup_insert_ne by done. by exists n.
Qed.

(** A delivery of a notification that is there. *)
Definition placed (t : NTables) (d : deliveryRow) : Prop := is_Some (ro_rows (notes t) !! d_NotificationID d) ∧ (d_Channel d = ChannelEmail → is_Some (d_Address d)).

Lemma sound_insert_delivery d t : sound t → placed t d → sound (insert_delivery d t).2.
Proof.
  intros Hs [Hn Ha]. unfold insert_delivery. case_bool_decide as E; [done|]. rewrite none_with in E.
  destruct Hs as [? ? ? ? Ht ? Ho]. split; try done; cbn [notes set_deliveries deliveries devices].
  - by apply ids_used_insert.
  - by apply unique_insert.
  - intros id x. cbn. intros [[<- <-]|[_ Hx]]%lookup_insert_Some; [by cbn|by apply Ho].
Qed.

Lemma same_delivery_refl d : same_delivery d d.
Proof. by split_and!. Qed.

Lemma sound_lease ids leaseUntil t : sound t → sound (lease_ids ids leaseUntil t).
Proof.
  intros Hs. apply (sound_deliveries _ _ Hs), (changes_map _ (λ id d, if contains ids id then leased leaseUntil d else d)).
  intros i d. by destruct (contains _ _).
Qed.

Lemma sound_cancel_owed deviceID reason now t : sound t → sound (cancel_owed deviceID reason now t).
Proof. intros Hs. apply (sound_deliveries _ _ Hs), changes_fmap. intros d. by destruct (owed _ _). Qed.

Lemma sound_alter_device f id t : sound t → (∀ v, v_EndpointHash (f v) = v_EndpointHash v) → sound (set_devices t (alter_row f id (devices t))).
Proof. intros Hs Hf. apply (sound_devices _ _ Hs). by apply changes_alter. Qed.

Lemma sound_drop_devices ids t : sound t → sound (set_devices t (without_rows ids (devices t))).
Proof. intros Hs. apply (sound_devices _ _ Hs). by apply changes_without. Qed.

(** ** Steps *)

Section Steps.
Variable out : Outside.
Notation M := (stM (Env NTables) error).

Lemma preserves_sound_exec (f : NTables → NTables) : (∀ t, sound t → sound (f t)) → preserves sound (exec out f).
Proof. apply preserves_exec. Qed.

Lemma preserves_same (f : NTables → NTables) : (∀ t, notes (f t) = notes t ∧ deliveries (f t) = deliveries t ∧ devices (f t) = devices t) →
  preserves sound (exec out f).
Proof. intros H. apply preserves_exec. intros t. destruct (H t) as (? & ? & ?). by apply sound_apart. Qed.

Lemma preserves_note (f : NTables → NTables) : (∀ t, notes (f t) = notes t ∧ deliveries (f t) = deliveries t ∧ devices (f t) = devices t) →
  preserves sound (note_ f).
Proof. intros H e He. cbn. destruct (H (tables e)) as (? & ? & ?). by apply (sound_apart (tables e)). Qed.

Lemma preserves_ended : preserves sound (ended out).
Proof. by intros e He. Qed.

Lemma preserves_markRead userID id now : preserves sound (markRead out userID id now).
Proof. unfold markRead. keep. apply preserves_statement. intros t. apply sound_mark. Qed.

Lemma preserves_markAllRead userID upTo now : preserves sound (markAllRead out userID upTo now).
Proof. unfold markAllRead. keep. apply preserves_statement. intros t. apply sound_mark. Qed.

Lemma preserves_claimDue ch now leaseUntil limit : preserves sound (claimDue out ch now leaseUntil limit).
Proof. unfold claimDue. keep. apply preserves_exec. intros t. apply sound_lease. Qed.

Lemma preserves_saveDelivery d : preserves sound (saveDelivery out d).
Proof.
  unfold saveDelivery. keep. apply preserves_statement. intros t Hs. unfold save_row. destruct (still_due t (d_ID d)); [|done].
  apply (sound_deliveries _ _ Hs), changes_alter; [apply same_delivery_refl|done].
Qed.

Lemma preserves_setChoice userID category ch enabled now : preserves sound (setChoice out userID category ch enabled now).
Proof. unfold setChoice. keep. by apply preserves_same. Qed.

Lemma preserves_clearChoice userID category ch : preserves sound (clearChoice out userID category ch).
Proof. unfold clearChoice. keep. by apply preserves_same. Qed.

Lemma preserves_saveQuiet userID q now : preserves sound (saveQuiet out userID q now).
Proof. unfold saveQuiet. keep. by apply preserves_same. Qed.

Lemma preserves_cancelPush deviceID reason now : preserves sound (cancelPushOfDevice out deviceID reason now).
Proof. apply preserves_exec. intros t. apply sound_cancel_owed. Qed.

Hint Resolve preserves_cancelPush preserves_ended preserves_markRead preserves_markAllRead preserves_claimDue preserves_saveDelivery preserves_setChoice preserves_clearChoice
  preserves_saveQuiet : preserving.

Lemma preserves_alter_device f id : (∀ v, v_EndpointHash (f v) = v_EndpointHash v) →
  preserves sound (exec out (λ t, set_devices t (alter_row f id (devices t)))).
Proof. intros Hf. apply preserves_exec. intros t Hs. by apply sound_alter_device. Qed.

Lemma preserves_refreshDevice cur next now : preserves sound (refreshDevice out cur next now).
Proof. unfold refreshDevice, deviceByID. keep; by apply preserves_alter_device. Qed.

Lemma preserves_insertDevice next : preserves sound (insertDevice out next).
Proof.
  unfold insertDevice. keep. apply preserves_statement. intros t Hs. case_bool_decide as E; [done|]. rewrite none_with in E.
  destruct Hs. split; try done; cbn; [by apply ids_used_insert|by apply unique_insert].
Qed.

Hint Resolve preserves_refreshDevice preserves_insertDevice : preserving.

Lemma preserves_registerDevice next now : preserves sound (registerDevice out next now).
Proof. unfold registerDevice, deviceByHash. keep. Qed.

Lemma preserves_renameDevice userID id label now : preserves sound (renameDevice out userID id label now).
Proof. unfold renameDevice. keep. apply preserves_alter_device. intros v. by destruct (_ =? _). Qed.

Lemma preserves_removeDevice userID id reason now : preserves sound (removeDevice out userID id reason now).
Proof. unfold removeDevice. keep. apply preserves_exec. intros t. apply sound_drop_devices. Qed.

Lemma preserves_dropGone id hash now : preserves sound (dropGoneDevice out id hash now).
Proof. unfold dropGoneDevice. keep. apply preserves_exec. intros t. apply sound_drop_devices. Qed.

Lemma preserves_pushSucceeded id now : preserves sound (pushSucceeded out id now).
Proof. unfold pushSucceeded. keep. by apply preserves_alter_device. Qed.

Lemma preserves_pushFailed id now : preserves sound (pushFailed out id now).
Proof.
  unfold pushFailed. keep; [by apply preserves_alter_device|]. apply preserves_statement. intros t Hs.
  destruct (ro_rows (devices t) !! id) as [v|]; [|done]. destruct (_ && _); [|done]. by apply sound_alter_device.
Qed.

(** *** New notifications *)

(** Planned e-mails have an address. *)
Definition addressed (ds : list deliveryRow) : Prop := Forall (λ d, d_Channel d = ChannelEmail → is_Some (d_Address d)) ds.

Lemma h_insert_deliveries ds : hoare (λ t, sound t ∧ Forall (placed t) ds) (insert_deliveries out ds) (λ _, sound) (λ _, True).
Proof.
  induction ds as [|d ds IH]; cbn [insert_deliveries]; [apply h_ret; tauto|].
  eapply h_bind with (R := λ _ t, sound t ∧ Forall (placed t) ds); [|intros _; exact IH].
  apply h_statement; [done|]. intros t [Hs [Hd Hds]%list.Forall_cons]. split; [by apply sound_insert_delivery|].
  eapply list.Forall_impl; [exact Hds|]. intros x Hx. unfold insert_delivery. by case_bool_decide.
Qed.

Lemma h_insertNew_loop rows plans : (∀ u, addressed (plans u)) → hoare sound (insertNew_loop out rows plans) (λ _, sound) (λ _, True).
Proof.
  intros Hp. induction rows as [|r rows IH]; cbn [insertNew_loop]; [by apply h_ret|].
  eapply h_bind with (R := λ made t, sound t ∧ ∀ id, made = Some id → is_Some (ro_rows (notes t) !! id)).
  - apply h_statement; [done|]. intros t Hs. split; [by apply sound_insert_note|]. intros id. unfold insert_note. case_bool_decide; [done|].
    intros [= <-]. cbn. rewrite lookup_insert. by destruct (decide _).
  - intros [id|]; [|eapply h_weaken; [exact IH|naive_solver|done|done]].
    eapply h_bind with (R := λ _, sound).
    + eapply h_weaken; [apply (h_insert_deliveries (of_note id <$> plans (n_UserID r)))| |done|done].
      intros t [Hs Hid]. split; [done|]. apply list.Forall_fmap. eapply list.Forall_impl; [apply (Hp (n_UserID r))|]. intros d Hd. split; [by apply Hid|done].
    + intros _. eapply h_bind with (R := λ _, sound); [exact IH|]. intros more. by apply h_ret.
Qed.

Lemma preserves_insertNew rows plans : (∀ u, addressed (plans u)) → preserves sound (insertNew out rows plans).
Proof.
  intros Hp. apply preserves_wrapping. intros e He. pose proof (h_insertNew_loop rows plans Hp e He) as H. unfold Transaction.
  destruct (insertNew_loop out rows plans e) as [[a|err] e']; [|done]. by destruct (fault _ _).
Qed.
End Steps.

#[export] Hint Resolve preserves_cancelPush preserves_ended preserves_markRead preserves_markAllRead preserves_claimDue preserves_saveDelivery preserves_setChoice
  preserves_clearChoice preserves_saveQuiet preserves_registerDevice preserves_renameDevice preserves_removeDevice preserves_dropGone preserves_pushSucceeded
  preserves_pushFailed : preserving.

(** ** Operations *)

Section Operations.
Variable out : Outside.
Variable people : nat → list Z → result (list Account).
Variables (MarshalData : gmap string string → result string) (UnmarshalData : string → gmap string string) (MarshalPayload : pushPayload → result string).
Variables (EndpointHash : string → string) (sub_Validate : Subscription → option error).
Variable n : Notices.
Notation M := (stM (Env NTables) error).

(** *** Settings *)

Lemma preserves_resolve I k userID ch chosen : preserves I (settings_resolve out n k userID ch chosen).
Proof. unfold settings_resolve, choicesOf. keep. Qed.
Hint Resolve preserves_resolve : preserving.

Lemma preserves_get_loop I userID email push kinds : preserves I (get_loop out n userID email push kinds).
Proof. induction kinds as [|k kinds IH]; cbn [get_loop]; keep. Qed.
Hint Resolve preserves_get_loop : preserving.

Lemma preserves_Get I userID : preserves I (settings_Get out n userID).
Proof. unfold settings_Get, quietOf, store_quietOf, choicesOf. keep. Qed.

Lemma preserves_set userID category ch enabled : preserves sound (settings_set out n userID category ch enabled).
Proof. unfold settings_set, categoryOf. keep. Qed.

Lemma preserves_SetQuietHours userID hours : preserves sound (SetQuietHours out userID hours).
Proof. unfold SetQuietHours. keep. Qed.

Lemma preserves_settingsFor I k ids ch : preserves I (settingsFor out n k ids ch).
Proof.
  unfold settingsFor, choicesFor. keep. generalize (∅ : gmap Z Setting). induction ids as [|id ids IH]; intros made; cbn [settingsFor_loop]; keep.
Qed.
Hint Resolve preserves_settingsFor : preserving.

(** *** Plans *)

Definition addressed_plans (p : gmap Z (list deliveryRow)) : Prop := ∀ u, addressed (default [] (p !! u)).

Lemma addressed_empty : addressed_plans ∅.
Proof. intros u. rewrite lookup_empty. constructor. Qed.

Lemma addressed_add u d p : addressed_plans p → (d_Channel d = ChannelEmail → is_Some (d_Address d)) → addressed_plans (add_plan u d p).
Proof.
  intros Hp Hd v. unfold add_plan. destruct (decide (u = v)) as [->|Hne]; [|by rewrite lookup_insert_ne].
  rewrite lookup_insert. destruct (decide (v = v)); [|done]. cbn. apply list.Forall_app. split; [apply Hp|]. by constructor.
Qed.

Lemma addressed_email settings now release accounts p : addressed_plans p → addressed_plans (planEmail_loop settings now release accounts p).
Proof.
  revert p. induction accounts as [|a accounts IH]; intros p Hp; cbn [planEmail_loop]; [done|]. apply IH. destruct (switched_on _ _); [|done].
  apply addressed_add; [done|]. by eexists.
Qed.

Lemma newDelivery_channel ch ttl now release : d_Channel (newDelivery ch ttl now release) = ch.
Proof. unfold newDelivery. by destruct (Time.After _ _). Qed.

Lemma addressed_push k now release only devs wanting p : addressed_plans p → addressed_plans (planPush_loop k now release only devs wanting p).
Proof.
  revert p. induction wanting as [|id wanting IH]; intros p Hp; cbn [planPush_loop]; [done|]. apply IH. clear IH. revert p Hp.
  induction (devs (uint32 id)) as [|[v dev] l IH]; intros p Hp; cbn [planDevices_loop]; [done|]. apply IH. destruct (_ && _); [done|].
  apply addressed_add; [done|]. cbn. by rewrite newDelivery_channel.
Qed.

Lemma preserves_plans I k accounts now only : preserves I (plans out n k accounts now only).
Proof. unfold plans, planEmail, planPush, pushWanted, activeDevices, store_quietOf. keep. Qed.

Lemma h_plans k accounts now only : hoare (λ _, True) (plans out n k accounts now only) (λ p _, addressed_plans p) (λ _, True).
Proof.
  pose proof addressed_empty as H0. unfold plans. destruct (_ && _); [by apply h_ret|].
  eapply h_bind with (R := λ _ _, True); [apply h_carry|]. intros quiet.
  eapply h_bind with (R := λ p _, addressed_plans p).
  - unfold planEmail. destruct (_ || _); [by apply h_ret|]. destruct (ac_ID <$> _) as [|i l]; [by apply h_ret|].
    eapply h_bind with (R := λ _ _, True); [apply h_carry|]. intros settings. apply h_ret. intros _ _. by apply addressed_email.
  - intros p. unfold planPush. destruct (bool_decide _); [by apply h_ret|].
    eapply h_bind with (R := λ _ _, addressed_plans p); [apply h_carry|].
    intros [|w ws]; [by apply h_ret|]. eapply h_bind with (R := λ _ _, addressed_plans p); [apply h_carry|].
    intros devs. apply h_ret. intros _ Hp. by apply addressed_push.
Qed.

(** *** Sending *)

Lemma preserves_announce created : preserves sound (announce out UnmarshalData created).
Proof.
  induction created as [|[id r] created IH]; cbn [announce]; keep; [by intros e He|]. by apply preserves_note.
Qed.

Lemma preserves_send ctx category recipients render only :
  preserves sound (send out people MarshalData UnmarshalData n ctx category recipients render only).
Proof.
  unfold send, render_all, Find. apply preserves_bind; [keep|]. intros checked. destruct (resolve recipients) as [|i ids]; [keep|].
  apply preserves_bind; [keep|]. intros now. apply preserves_bind; [keep|]. intros made. destruct made.1 as [|r rows]; [keep|]. eapply h_bind with (R := λ p t, sound t ∧ addressed_plans p).
  - apply (h_and _ _ _ _ _ (preserves_plans sound _ _ _ _) (h_plans _ _ _ _)).
  - intros p. apply h_pure_r. intros Hp. match goal with |- hoare ?I ?m _ _ => change (preserves I m) end.
    apply preserves_bind; [by apply preserves_insertNew|]. intros created. apply preserves_announce.
Qed.
Hint Resolve preserves_send : preserving.

(** *** The inbox *)

Lemma preserves_MarkRead userID id : preserves sound (MarkRead out userID id).
Proof. unfold MarkRead, Unread. keep. by apply preserves_note. Qed.

Lemma preserves_MarkAllRead userID upTo : preserves sound (MarkAllRead out userID upTo).
Proof. unfold MarkAllRead, Unread. keep. by apply preserves_note. Qed.

(** *** Devices *)

Lemma preserves_owned I userID deviceID : preserves I (owned out userID deviceID).
Proof. unfold owned, deviceByID. keep. Qed.
Hint Resolve preserves_owned : preserving.

Lemma preserves_Register userID userAgent sub : preserves sound (devices_Register out EndpointHash sub_Validate n userID userAgent sub).
Proof. unfold devices_Register. keep. Qed.

Lemma preserves_Rename userID deviceID label : preserves sound (Rename out userID deviceID label).
Proof. unfold Rename. keep. Qed.

Lemma preserves_delete userID deviceID : preserves sound (devices_delete out userID deviceID).
Proof. unfold devices_delete. keep. Qed.
Hint Resolve preserves_delete : preserving.

Lemma preserves_Remove userID deviceID : preserves sound (Remove out userID deviceID).
Proof. unfold Remove. keep. Qed.

Lemma preserves_Unregister userID endpoint : preserves sound (Unregister out EndpointHash userID endpoint).
Proof. unfold Unregister, deviceByHash. keep. Qed.

Lemma preserves_SendTest userID deviceID : preserves sound (SendTest out n userID deviceID).
Proof. unfold SendTest. keep. by apply preserves_same. Qed.

(** *** The workers *)

Lemma preserves_finish d : preserves sound (finish out d).
Proof. unfold finish. keep. Qed.
Hint Resolve preserves_finish : preserving.

Lemma preserves_deliver m d : preserves sound (deliver out people n m d).
Proof. unfold deliver, note_byID, Find, sendEmail. keep. by apply preserves_note. Qed.
Hint Resolve preserves_deliver : preserving.

Lemma preserves_deliver_loop m leaseUntil due : preserves sound (deliver_loop out people n m leaseUntil due).
Proof. induction due as [|d due IH]; cbn [deliver_loop]; keep. Qed.
Hint Resolve preserves_deliver_loop : preserving.

Lemma preserves_DeliverDue : preserves sound (DeliverDue out people n).
Proof. unfold DeliverDue. keep. Qed.

Lemma preserves_triage dev due : preserves sound (triage out dev due).
Proof. unfold triage, note_byID. keep. Qed.
Hint Resolve preserves_triage : preserving.

Lemma preserves_triageAll dev items : preserves sound (triageAll out dev items).
Proof. induction items as [|d items IH]; cbn [triageAll]; keep. Qed.

Lemma preserves_cancelAll items reason : preserves sound (cancelAll out items reason).
Proof. induction items as [|d items IH]; cbn [cancelAll]; keep. Qed.

Lemma preserves_record_all res now entries : preserves sound (record_all out res now entries).
Proof. induction entries as [|p entries IH]; cbn [record_all]; keep. Qed.
Hint Resolve preserves_triageAll preserves_cancelAll preserves_record_all : preserving.

Lemma preserves_noteOnDevice dev outcome status now : preserves sound (noteOnDevice out dev outcome status now).
Proof. unfold noteOnDevice, cancelPushOf. keep. Qed.
Hint Resolve preserves_noteOnDevice : preserving.

Lemma preserves_sendPush s dev first others bundle : preserves sound (sendPush out people MarshalPayload n s dev first others bundle).
Proof. unfold sendPush, localeOf, Find, transmit. keep; by apply preserves_note. Qed.
Hint Resolve preserves_sendPush : preserving.

Lemma preserves_send_each s dev entries : preserves sound (send_each out people MarshalPayload n s dev entries).
Proof. induction entries as [|p entries IH]; cbn [send_each]; keep. Qed.
Hint Resolve preserves_send_each : preserving.

Lemma preserves_deliverToDevice s deviceID items : preserves sound (deliverToDevice out people MarshalPayload n s deviceID items).
Proof. unfold deliverToDevice, deviceByID. keep. Qed.
Hint Resolve preserves_deliverToDevice : preserving.

Lemma preserves_push_loop s leaseUntil due order : preserves sound (push_loop out people MarshalPayload n s leaseUntil due order).
Proof. induction order as [|v order IH]; cbn [push_loop]; keep. Qed.
Hint Resolve preserves_push_loop : preserving.

Lemma preserves_DeliverPushDue : preserves sound (DeliverPushDue out people MarshalPayload n).
Proof. unfold DeliverPushDue. keep. Qed.
End Operations.
