(* ===== verification/NoticeSend.v ===== *)
(** * Whose word a setting is

    The authority over settings, else the person's choice, else the category's default;
    what setting a choice stores and reads back; and that Send plans no delivery against
    a setting. *)

From Stdlib Require Import Ascii.
From S2P Require Import Prelude Clock Apperr SignIn Sql Rows Queue Hoare NoticeRules NoticeStore Notices NoticeFacts.

Local Open Scope Z_scope.

(** Elements with the same value, where no value comes twice. *)
Lemma same_value {A B} (f : A → B) (l : list A) x y : NoDup (f <$> l) → x ∈ l → y ∈ l → f x = f y → x = y.
Proof.
  induction l as [|z l IH]; intros Hn Hx Hy E; [by apply not_elem_of_nil in Hx|]. apply list.NoDup_cons in Hn as [Hz Hn].
  apply elem_of_cons in Hx as [->|Hx], Hy as [->|Hy]; [done|..|by apply IH].
  - destruct Hz. rewrite E. by apply list_elem_of_fmap_2.
  - destruct Hz. rewrite <-E. by apply list_elem_of_fmap_2.
Qed.

(** The precedence, as a rule. *)
Definition setting_by (k : Kind) (ch : Channel) (enforced choice : option bool) : Setting :=
  match enforced, choice with
  | Some b, _ => mkSetting b SourceEnforced
  | None, Some b => mkSetting b SourcePerson
  | None, None => mkSetting (defaultOn k ch) SourceDefault
  end.

Section Settings.
Variables (out : Outside) (n : Notices).
Notation M := (stM (Env NTables) error).
Notation on t0 := (λ t : NTables, t = t0).

(** What the authority says at a moment: nothing, or the setting. *)
Definition enforced_at (m : nat) (userID : Z) (k : Kind) (ch : Channel) : result (option bool) :=
  match nt_enforce n with
  | None => Ok None
  | Some f => match f m userID k ch with Ok (b, true) => Ok (Some b) | Ok (_, false) => Ok None | Err err => Err err end
  end.

(** A setting by the rule, as the authority stood at some moment. *)
Definition decided (k : Kind) (userID : Z) (ch : Channel) (choice : option bool) (s : Setting) : Prop :=
  if negb (available n ch) || k_internal k then s = mkSetting false SourceDefault
  else ∃ m e, enforced_at m userID k ch = Ok e ∧ s = setting_by k ch e choice.

Lemma h_enforced k userID ch t0 :
  hoare (on t0) (match nt_enforce n with
              | None => mret None
              | Some enforce =>
                  r ← mapErr (λ err, Internal (wrapped "notification: the enforcer failed" err)) (ask (λ t, enforce t userID k ch));
                  mret (if r.2 : bool then Some (r.1 : bool) else None)
              end) (λ e t, t = t0 ∧ ∃ m, enforced_at m userID k ch = Ok e) (on t0).
Proof.
  unfold enforced_at. destruct (nt_enforce n) as [f|]; [|apply h_ret; intros t ->; by split; [|exists 0%nat]].
  eapply h_bind with (R := λ r t, t = t0 ∧ ∃ m, f m userID k ch = Ok r); [apply h_mapErr, h_ask; [done|]; intros t m r -> H; eauto|].
  intros [b [|]]; apply h_ret; intros t [-> [m Hm]]; (split; [done|]); exists m; by rewrite Hm.
Qed.

Lemma h_resolve k userID ch (chosen : option (string → option bool)) t0 :
  hoare (on t0) (settings_resolve out n k userID ch chosen)
    (λ s t, t = t0 ∧ decided k userID ch (default (choices t0 userID ch) chosen (k_code k)) s) (on t0).
Proof.
  unfold settings_resolve, decided. destruct (negb (available n ch) || k_internal k); [by apply h_ret|].
  eapply h_bind; [apply h_enforced|]. cbn beta. intros [b|].
  - apply h_ret. intros t [-> [m Hm]]. split; [done|]. by exists m, (Some b).
  - apply h_pure_r. intros [m Hm]. eapply h_bind with (R := λ mine t, t = t0 ∧ mine = default (choices t0 userID ch) chosen).
    + destruct chosen as [c|]; [by apply h_ret|]. apply h_mapErr, h_wrapping. apply h_statement; [done|]. by intros t ->.
    + intros mine. apply h_pure_r. intros ->. destruct (default _ _ _) as [b|] eqn:E; apply h_ret; intros t ->; (split; [done|]); exists m, None; done.
Qed.

Lemma h_settingsFor_loop k ch chosen ids made t0 :
  hoare (on t0) (settingsFor_loop out n k ch chosen ids made)
    (λ l t, t = t0 ∧ ∀ id s, l !! id = Some s → made !! id = Some s ∨ (id ∈ ids ∧ decided k id ch (chosen id) s)) (on t0).
Proof.
  revert made. induction ids as [|id ids IH]; intros made; cbn [settingsFor_loop]; [apply h_ret; eauto|].
  eapply h_bind; [apply h_resolve|]. cbn beta. intros s. apply h_pure_r. intros Hd. cbn in Hd. rewrite bool_decide_eq_true_2 in Hd by done.
  eapply h_weaken; [apply (IH (<[id := s]> made))|done| |done]. intros l t [-> H]. split; [done|]. intros i x Hi. destruct (H i x Hi) as [Hm|[Hin Hx]]; [|right; split; [by right|done]].
  apply lookup_insert_Some in Hm as [[<- <-]|[_ Hm]]; [right; split; [left|done]|by left].
Qed.

Lemma h_settingsFor k ids ch t0 :
  hoare (on t0) (settingsFor out n k ids ch)
    (λ l t, t = t0 ∧ ∀ id s, l !! id = Some s → id ∈ ids ∧ available n ch = true ∧ k_internal k = false ∧ decided k id ch (choices t0 id ch (k_code k)) s) (on t0).
Proof.
  unfold settingsFor. destruct (negb (available n ch) || k_internal k) eqn:E; [by apply h_ret|]. apply orb_false_iff in E as [Ea%negb_false_iff Ei].
  eapply h_bind with (R := λ c t, t = t0 ∧ ∀ id, id ∈ ids → c id = choices t0 id ch (k_code k)).
  - apply h_wrapping, h_statement; [done|]. intros t ->. split; [done|]. intros id Hid. cbn. by rewrite (proj2 (contains_spec _ _) Hid).
  - intros c. apply h_pure_r. intros Hc. eapply h_weaken; [apply (h_settingsFor_loop k ch c ids ∅ t0)|done| |done]. intros l t [-> H]. split; [done|]. intros id s Hs.
    destruct (H id s Hs) as [Hn|[Hin Hd]]; [by rewrite lookup_empty in Hn|]. rewrite (Hc id Hin) in Hd. done.
Qed.

(** May a category be sent to a person on a channel? *)
Definition wanted (t : NTables) (k : Kind) (userID : Z) (ch : Channel) : Prop :=
  available n ch = true ∧ k_internal k = false ∧
  ∃ m e, enforced_at m userID k ch = Ok e ∧ st_Enabled (setting_by k ch e (choices t userID ch (k_code k))) = true.

Lemma wanted_on l t0 k ch : (∀ id s, l !! id = Some s → available n ch = true ∧ k_internal k = false ∧ decided k id ch (choices t0 id ch (k_code k)) s) →
  ∀ id, switched_on l id = true → wanted t0 k id ch.
Proof.
  intros H id Hs. unfold switched_on in Hs. destruct (l !! id) as [s|] eqn:E; [|done]. destruct (H id s E) as (Ha & Hi & Hd). unfold decided in Hd.
  rewrite Ha, Hi in Hd. cbn in Hd. destruct Hd as (m & e & He & ->). split_and!; eauto.
Qed.

(** *** Plans *)

(** When a delivery to a person goes out: now, or when their quiet hours end. *)
Definition release (t : NTables) (k : Kind) (now id : Z) : Z := release_of n k (λ id, quiet_of <$> quiets t !! id) now id.

Definition planned (t : NTables) (k : Kind) (accounts : list Account) (now only u : Z) (d : deliveryRow) : Prop :=
  match d_Channel d with
  | ChannelEmail => ∃ a, a ∈ accounts ∧ u = uint32 (ac_ID a) ∧ wanted t k (ac_ID a) ChannelEmail ∧ Utf8.TrimSpace (ac_Email a) ≠ "" ∧
      d = newEmailDelivery (Utf8.TrimSpace (ac_Email a)) now (release t k now (ac_ID a))
  | ChannelPush => ∃ a dev, a ∈ accounts ∧ u = uint32 (ac_ID a) ∧ (k_internal k = true ∨ wanted t k (ac_ID a) ChannelPush) ∧
      ro_rows (devices t) !! d_DeviceID d = Some dev ∧ v_UserID dev = u ∧ v_DisabledAt dev = None ∧ (only = 0 ∨ d_DeviceID d = only) ∧
      d = for_device (d_DeviceID d) (newDelivery ChannelPush (pushTTL k) now (release t k now (ac_ID a)))
  end.
Definition planned_all t k accounts now only (p : gmap Z (list deliveryRow)) : Prop := ∀ u d, d ∈ default [] (p !! u) → planned t k accounts now only u d.

Lemma planned_add t k accounts now only u d p : planned_all t k accounts now only p → planned t k accounts now only u d → planned_all t k accounts now only (add_plan u d p).
Proof.
  intros Hp Hd v x. unfold add_plan. destruct (decide (u = v)) as [->|Hne]; [|rewrite lookup_insert_ne by done; apply Hp].
  rewrite lookup_insert. destruct (decide (v = v)); [|done]. cbn. intros [Hx| ->%list_elem_of_singleton]%elem_of_app; [by apply Hp|done].
Qed.

Lemma newEmail_channel address now rel : d_Channel (newEmailDelivery address now rel) = ChannelEmail.
Proof. unfold newEmailDelivery. cbn. apply newDelivery_channel. Qed.

Lemma planned_email t k accounts now only settings rel todo p : (∀ a, a ∈ todo → a ∈ accounts) → (∀ a, a ∈ accounts → rel (ac_ID a) = release t k now (ac_ID a)) →
  (∀ a, a ∈ accounts → switched_on settings (ac_ID a) = true → wanted t k (ac_ID a) ChannelEmail ∧ Utf8.TrimSpace (ac_Email a) ≠ "") →
  planned_all t k accounts now only p → planned_all t k accounts now only (planEmail_loop settings now rel todo p).
Proof.
  intros Hsub Hrel Hset. revert p. induction todo as [|a todo IH]; intros p Hp; cbn [planEmail_loop]; [done|].
  assert (a ∈ accounts) as Ha by (apply Hsub; left). apply IH; [intros x Hx; apply Hsub; by right|]. destruct (switched_on settings (ac_ID a)) eqn:E; [|done].
  apply planned_add; [done|]. destruct (Hset a Ha E) as [Hw He]. unfold planned. rewrite newEmail_channel. exists a. rewrite (Hrel a Ha). done.
Qed.

Lemma planned_devices t k accounts now only a devs p : a ∈ accounts → (k_internal k = true ∨ wanted t k (ac_ID a) ChannelPush) →
  (∀ id dev, (id, dev) ∈ devs → ro_rows (devices t) !! id = Some dev ∧ v_UserID dev = uint32 (ac_ID a) ∧ v_DisabledAt dev = None) →
  planned_all t k accounts now only p → planned_all t k accounts now only (planDevices_loop k now (release t k now (ac_ID a)) only devs p).
Proof.
  intros Ha Hw Hd. revert p. induction devs as [|[id dev] devs IH]; intros p Hp; cbn [planDevices_loop]; [done|].
  apply IH; [intros i x Hx; apply Hd; by right|]. destruct (negb (only =? 0) && negb (id =? only)) eqn:E; [done|]. apply planned_add; [done|].
  destruct (Hd id dev) as (H1 & H2 & H3); [left|]. unfold planned. cbn [for_device d_Channel]. rewrite newDelivery_channel. exists a, dev. cbn.
  apply andb_false_iff in E. rewrite !negb_false_iff, !Z.eqb_eq in E. by rewrite H2.
Qed.

Lemma planned_push t k accounts now only rel devs wanting p : (∀ id, id ∈ wanting → ∃ a, a ∈ accounts ∧ ac_ID a = id ∧ (k_internal k = true ∨ wanted t k id ChannelPush)) →
  (∀ a, a ∈ accounts → rel (ac_ID a) = release t k now (ac_ID a)) →
  (∀ u id dev, (id, dev) ∈ devs u → ro_rows (devices t) !! id = Some dev ∧ v_UserID dev = u ∧ v_DisabledAt dev = None) →
  planned_all t k accounts now only p → planned_all t k accounts now only (planPush_loop k now rel only devs wanting p).
Proof.
  intros Hw Hrel Hd. revert p. induction wanting as [|id wanting IH]; intros p Hp; cbn [planPush_loop]; [done|].
  apply IH; [intros i Hi; apply Hw; by right|]. destruct (Hw id) as (a & Ha & <- & Hwa); [left|]. rewrite (Hrel a Ha). apply planned_devices; [done|done| |done]. intros i dev. apply Hd.
Qed.

Lemma h_planEmail k accounts now only rel p t0 : NoDup (ac_ID <$> accounts) → (∀ a, a ∈ accounts → rel (ac_ID a) = release t0 k now (ac_ID a)) →
  planned_all t0 k accounts now only p → hoare (on t0) (planEmail out n k accounts now rel p) (λ p t, t = t0 ∧ planned_all t0 k accounts now only p) (on t0).
Proof.
  intros Hnd Hrel Hp. unfold planEmail. destruct (_ || _); [by apply h_ret|]. set (mailed := List.filter _ accounts).
  destruct (ac_ID <$> mailed) as [|i l] eqn:El; [by apply h_ret|]. rewrite <-El. eapply h_bind; [apply h_settingsFor|]. cbn beta. intros settings.
  apply h_pure_r. intros Hs. apply h_ret. intros t ->. split; [done|]. apply planned_email; [done|done| |done]. intros a Ha Hon. split.
  - apply (wanted_on settings t0 k ChannelEmail); [|done]. intros id s Hid. by apply Hs in Hid as [_ H].
  - unfold switched_on in Hon. destruct (settings !! ac_ID a) as [s|] eqn:E; [|done]. apply Hs in E as [(b & Eb & Hb)%list_elem_of_fmap _].
    apply list_elem_of_In, filter_In in Hb as [Hb%list_elem_of_In Hne]. assert (a = b) as ->; [|by apply negb_true_iff, bool_decide_eq_false_1 in Hne].
    by eapply (same_value ac_ID accounts).
Qed.

Lemma h_planPush k accounts now only rel p t0 : (∀ a, a ∈ accounts → rel (ac_ID a) = release t0 k now (ac_ID a)) → planned_all t0 k accounts now only p →
  hoare (on t0) (planPush out n k (ac_ID <$> accounts) now rel only p) (λ p t, t = t0 ∧ planned_all t0 k accounts now only p) (on t0).
Proof.
  intros Hrel Hp. unfold planPush. destruct (bool_decide _); [by apply h_ret|].
  eapply h_bind with (R := λ w t, t = t0 ∧ ∀ id, id ∈ w → ∃ a, a ∈ accounts ∧ ac_ID a = id ∧ (k_internal k = true ∨ wanted t0 k id ChannelPush)).
  - unfold pushWanted. destruct (k_internal k) eqn:Ek.
    + apply h_ret. intros t ->. split; [done|]. intros id (a & -> & Ha)%list_elem_of_fmap. eauto.
    + eapply h_bind; [apply h_settingsFor|]. cbn beta. intros settings. apply h_pure_r. intros Hs. apply h_ret. intros t ->. split; [done|].
      intros id Hid. apply list_elem_of_In, filter_In in Hid as [(a & -> & Ha)%list_elem_of_In%list_elem_of_fmap Hon]. exists a. split_and!; [done..|]. right.
      eapply wanted_on; [|done]. intros i s Hi. by apply Hs in Hi as [_ H].
  - intros w. apply h_pure_r. intros Hw. destruct w as [|i ws]; [by apply h_ret|].
    eapply h_bind with (R := λ devs t, t = t0 ∧ ∀ u id dev, (id, dev) ∈ devs u → ro_rows (devices t0) !! id = Some dev ∧ v_UserID dev = u ∧ v_DisabledAt dev = None).
    + apply h_wrapping, h_statement; [done|]. intros t ->. split; [done|]. intros u id dev H. apply list_elem_of_omap in H as (x & Hx & E).
      destruct (ro_rows (devices t0) !! x) as [v|] eqn:Ev; [|done]. cbn in E. simplify_eq. apply elem_of_select in Hx as (v' & Hv' & Hc).
      apply andb_true_iff in Hc as [[_ Hdis%bool_decide_eq_true]%andb_true_iff Hu%Z.eqb_eq]. naive_solver congruence.
    + intros devs. apply h_pure_r. intros Hd. apply h_ret. intros t ->. split; [done|]. by apply planned_push.
Qed.

Lemma planned_empty t k accounts now only : planned_all t k accounts now only ∅.
Proof. intros u d. rewrite lookup_empty. by intros ?%not_elem_of_nil. Qed.

Lemma h_plans_rule k accounts now only t0 : NoDup (ac_ID <$> accounts) →
  hoare (on t0) (plans out n k accounts now only) (λ p t, t = t0 ∧ planned_all t0 k accounts now only p) (on t0).
Proof.
  intros Hnd. pose proof (planned_empty t0 k accounts now only) as H0. unfold plans. destruct (_ && _); [by apply h_ret|].
  eapply h_bind with (R := λ q t, t = t0 ∧ ∀ a, a ∈ accounts → release_of n k q now (ac_ID a) = release t0 k now (ac_ID a)).
  - unfold release, release_of. destruct (k_internal k); [by apply h_ret|]. apply h_wrapping, h_statement; [done|]. intros t ->. split; [done|].
    intros a Ha. cbn. rewrite (proj2 (contains_spec _ _)); [done|]. apply list_elem_of_fmap. eauto.
  - intros q. apply h_pure_r. intros Hq. eapply h_bind; [by apply h_planEmail|]. cbn beta. intros p. apply h_pure_r. intros Hp. by apply h_planPush.
Qed.

(** *** Reading and setting *)

(** The settings of one category, by the rule. *)
Definition shown (t : NTables) (userID : Z) (k : Kind) (cs : CategorySettings) : Prop :=
  cs_Category cs = k_code k ∧ decided k userID ChannelEmail (choices t userID ChannelEmail (k_code k)) (cs_Email cs) ∧
  decided k userID ChannelPush (choices t userID ChannelPush (k_code k)) (cs_Push cs).

Definition on_channel (ch : Channel) (cs : CategorySettings) : Setting := match ch with ChannelEmail => cs_Email cs | ChannelPush => cs_Push cs end.

Lemma shown_on t userID k cs ch : shown t userID k cs → decided k userID ch (choices t userID ch (k_code k)) (on_channel ch cs).
Proof. intros (_ & He & Hp). by destruct ch. Qed.

Lemma h_categoryOf userID k t0 : hoare (on t0) (categoryOf out n userID k) (λ cs t, t = t0 ∧ shown t0 userID k cs) (on t0).
Proof.
  unfold categoryOf. eapply h_bind; [apply h_resolve|]. cbn beta. intros e. apply h_pure_r. intros He.
  eapply h_bind; [apply h_resolve|]. cbn beta. intros p. apply h_pure_r. intros Hp. by apply h_ret.
Qed.

Lemma h_get_loop userID email push kinds t0 : email = choices t0 userID ChannelEmail → push = choices t0 userID ChannelPush →
  hoare (on t0) (get_loop out n userID email push kinds)
    (λ l t, t = t0 ∧ Forall2 (shown t0 userID) (List.filter (λ k, negb (k_internal k)) kinds) l) (on t0).
Proof.
  intros -> ->. induction kinds as [|k kinds IH]; cbn [get_loop List.filter]; [by apply h_ret|]. destruct (k_internal k); cbn [negb]; [exact IH|].
  eapply h_bind; [apply h_resolve|]. cbn beta. intros e. apply h_pure_r. intros He. eapply h_bind; [apply h_resolve|]. cbn beta. intros p. apply h_pure_r. intros Hp.
  eapply h_bind; [exact IH|]. cbn beta. intros l. apply h_pure_r. intros Hl. apply h_ret. intros t ->. split; [done|]. by constructor.
Qed.

(** The categories a person may configure, in their order, each by the rule. *)
Lemma h_settings_Get userID t0 : hoare (on t0) (settings_Get out n userID)
  (λ p t, t = t0 ∧ Forall2 (shown t0 userID) (List.filter (λ k, negb (k_internal k)) (nt_kinds n)) (pr_Categories p) ∧
    pr_QuietHours p = default DefaultQuietHours (quiet_of <$> quiets t0 !! userID)) (on t0).
Proof.
  assert (∀ ch, hoare (on t0) (mapErr Internal (choicesOf out userID ch)) (λ c t, t = t0 ∧ c = choices t0 userID ch) (on t0)) as Hc.
  { intros ch. apply h_mapErr, h_wrapping, h_statement; [done|]. by intros t ->. }
  unfold settings_Get. eapply h_bind; [apply Hc|]. cbn beta. intros email. apply h_pure_r. intros He. eapply h_bind; [apply Hc|]. cbn beta. intros push. apply h_pure_r. intros Hp.
  eapply h_bind with (R := λ q t, t = t0 ∧ q = default DefaultQuietHours (quiet_of <$> quiets t0 !! userID)).
  - unfold quietOf. eapply h_bind with (R := λ f t, t = t0 ∧ f userID = (quiet_of <$> quiets t0 !! userID)).
    + apply h_mapErr, h_wrapping, h_statement; [done|]. intros t ->. split; [done|]. cbn. rewrite (proj2 (contains_spec _ _)); [done|left].
    + intros f. apply h_pure_r. intros Hf. apply h_ret. intros t ->. by rewrite Hf.
  - intros q. apply h_pure_r. intros Hq. eapply h_bind; [by apply h_get_loop|]. cbn beta. intros l. apply h_pure_r. intros Hl. by apply h_ret.
Qed.

(** What a choice leaves stored: only one that differs from the default. *)
Definition stored_choice (k : Kind) (ch : Channel) (enabled : bool) : option bool := if Bool.eqb enabled (defaultOn k ch) then None else Some enabled.

Definition chosen_by (t t' : NTables) (userID : Z) (k : Kind) (ch : Channel) (enabled : bool) : Prop :=
  (∀ u c code, choices t' u c code = if bool_decide ((u, c, code) = (userID, ch, k_code k)) then stored_choice k ch enabled else choices t u c code) ∧
  set_preferences t' (preferences t) = t.

Lemma channel_string_inj ch ch' : channel_string ch = channel_string ch' → ch = ch'.
Proof. by destruct ch, ch'. Qed.

Lemma h_choose userID k ch enabled t0 :
  hoare (on t0) (if Bool.eqb enabled (defaultOn k ch) then clearChoice out userID (k_code k) ch else now ← Now out; setChoice out userID (k_code k) ch enabled (whole now))
    (λ _ t, chosen_by t0 t userID k ch enabled) (on t0).
Proof.
  assert (∀ u c code, (u, c, code) ≠ (userID, ch, k_code k) → (u, code, channel_string c) ≠ (userID, k_code k, channel_string ch)) as Hne.
  { intros u c code H [= -> -> E%channel_string_inj]. by subst. }
  unfold chosen_by, stored_choice. destruct (Bool.eqb enabled (defaultOn k ch)).
  - apply h_wrapping, h_statement; [done|]. intros t ->. split; [|by destruct t0]. intros u c code. unfold choices. cbn. case_bool_decide as E.
    + simplify_eq. by rewrite lookup_delete, decide_True.
    + by rewrite lookup_delete_ne by (apply not_eq_sym; auto).
  - eapply h_bind with (R := λ _ t, t = t0); [by apply h_Now|]. intros now. apply h_wrapping, h_statement; [done|]. intros t ->. split; [|by destruct t0].
    intros u c code. unfold choices. cbn. case_bool_decide as E.
    + simplify_eq. by rewrite lookup_insert, decide_True.
    + by rewrite lookup_insert_ne by (apply not_eq_sym; auto).
Qed.

(** A choice that is accepted is stored and shown; one that is refused changes nothing. *)
Lemma h_set userID category ch enabled t0 :
  hoare (on t0) (settings_set out n userID category ch enabled)
    (λ cs t, ∃ k, configurable n category = Some k ∧ available n ch = true ∧ chosen_by t0 t userID k ch enabled ∧ shown t userID k cs)
    (λ t, t = t0 ∨ ∃ k, configurable n category = Some k ∧ chosen_by t0 t userID k ch enabled).
Proof.
  unfold settings_set. destruct (configurable n category) as [k|] eqn:Ek; [|apply h_throw; auto].
  destruct (available n ch) eqn:Ea; cbn [negb]; [|apply h_throw; auto].
  eapply h_bind with (R := λ _, on t0); [eapply h_weaken; [apply (h_resolve k userID ch (Some (λ _, None)) t0)|done|intros a b [-> _]; done|auto]|]. intros current.
  destruct (Enforced current); [apply h_throw; auto|].
  eapply h_bind with (R := λ _ t, chosen_by t0 t userID k ch enabled); [apply h_mapErr; eapply h_weaken; [apply (h_choose userID k ch enabled t0)|done|done|auto]|].
  intros _. apply h_each. intros t1 H1. eapply h_weaken; [apply (h_categoryOf userID k t1)|done| |].
  - intros cs t [-> Hs]. eauto 10.
  - intros t ->. eauto.
Qed.
End Settings.

(** * What Send writes

    The rows it renders, the transaction that writes those that do not exist yet with
    their deliveries, and nothing else. *)

(** ** The key of a notification *)

Lemma cut_colon a b s s' : Str.forall_char Str.is_digit a = true → Str.forall_char Str.is_digit b = true →
  a +:+ String ":" s = b +:+ String ":" s' → a = b ∧ s = s'.
Proof.
  revert b. induction a as [|c a IH]; intros [|c' b] Ha Hb E; rewrite ?Str.app_cons in E.
  - by injection E.
  - injection E as <- _. by apply andb_true_iff in Hb as [[=] _].
  - injection E as -> _. by apply andb_true_iff in Ha as [[=] _].
  - apply andb_true_iff in Ha as [_ Ha], Hb as [_ Hb]. injection E as -> E. by destruct (IH b Ha Hb E) as [-> ->].
Qed.

Lemma digits_inj a b : 0 <= a → 0 <= b → Str.digits a = Str.digits b → a = b.
Proof. intros Ha Hb E. pose proof (Str.digits_value_digits a "" Ha) as H. rewrite E, Str.digits_value_digits in H by done. done. Qed.

Lemma fmt_d_digits a : 0 <= a → Str.fmt_d a = Str.digits a.
Proof. intros Ha. unfold Str.fmt_d. destruct (Z.ltb_spec a 0); [lia|done]. Qed.

(** One key per event, person and category. *)
Lemma DedupeKey_inj ev u k ev' u' k' : 0 <= ev → 0 <= u → 0 <= ev' → 0 <= u' → DedupeKey ev u k = DedupeKey ev' u' k' → ev = ev' ∧ u = u' ∧ k_code k = k_code k'.
Proof.
  intros. unfold DedupeKey in *. rewrite !fmt_d_digits in * by done.
  match goal with H : _ +:+ _ = _ |- _ => apply cut_colon in H as [E1 H]; [|apply Str.digits_digits..]; apply cut_colon in H as [E2 E3]; [|apply Str.digits_digits..] end.
  apply digits_inj in E1, E2; done.
Qed.

(** ** The recipients *)

Lemma resolve_loop_spec except out ids x :
  x ∈ resolve_loop except out ids ↔ x ∈ out ∨ (x ∈ ids ∧ 0 < x <= maxInt32 ∧ x ∉ except).
Proof.
  revert out. induction ids as [|id ids IH]; intros out; cbn [resolve_loop]; [set_solver|].
  destruct ((id <=? 0) || (maxInt32 <? id) || contains out id || contains except id) eqn:E; rewrite IH.
  - rewrite !orb_true_iff, Z.leb_le, Z.ltb_lt, !contains_spec in E. rewrite elem_of_cons. split; [naive_solver|].
    intros [H|([->|H] & Hx & He)]; [by left| |by right]. destruct E as [[[E|E]|E]|E]; [lia|lia|by left|done].
  - rewrite !orb_false_iff, Z.leb_gt, Z.ltb_ge in E. destruct E as [[[? ?] ?] Ee]. assert (id ∉ except) by (intros Hc%contains_spec; congruence). rewrite elem_of_app, list_elem_of_singleton, elem_of_cons.
    naive_solver.
Qed.

Lemma resolve_loop_NoDup except out ids : NoDup out → NoDup (resolve_loop except out ids).
Proof.
  revert out. induction ids as [|id ids IH]; intros out Hn; cbn [resolve_loop]; [done|].
  destruct (_ || _) eqn:E; apply IH; [done|]. rewrite !orb_false_iff in E. destruct E as [[_ Ec] _].
  apply list.NoDup_app. split_and!; [done| |apply NoDup_singleton]. intros x Hx ->%list_elem_of_singleton. apply contains_spec in Hx. congruence.
Qed.

(** Exactly the people named, valid and not excepted, each once. *)
Lemma elem_of_resolve r x : x ∈ resolve r ↔ x ∈ rs_ids r ∧ 0 < x <= maxInt32 ∧ x ∉ rs_except r.
Proof. unfold resolve. rewrite resolve_loop_spec. split; [by intros [H%not_elem_of_nil|H]|by right]. Qed.

Lemma NoDup_resolve r : NoDup (resolve r).
Proof. apply resolve_loop_NoDup. constructor. Qed.

Lemma uint32_resolved r x : x ∈ resolve r → uint32 x = x.
Proof. intros (_ & H & _)%elem_of_resolve. unfold uint32, maxInt32 in *. apply Z.mod_small. lia. Qed.

(** The active among the accounts that were found. *)
Definition active_ids (byID : gmap Z Account) (ids : list Z) : list Z :=
  List.filter (λ id, match byID !! id with Some a => ac_Active a | None => false end) ids.

(** The notification of one recipient, as it was rendered for them. *)
Definition note_for (ev : Z) (category : Kind) (byID : gmap Z Account) (render : Recipient → Message) (now id : Z) (r : noteRow) : Prop :=
  n_UserID r = uint32 id ∧ n_DedupeKey r = DedupeKey ev id category ∧ n_Category r = k_code category ∧ n_ReadAt r = None ∧ n_CreatedAt r = whole now ∧
  ∃ a msg, byID !! id = Some a ∧ finish_message (render (mkRecipient id (person_name a) (ac_Locale a))) = Ok msg ∧
    n_Title r = ms_Title msg ∧ n_Body r = ms_Body msg ∧ n_Link r = ms_Link msg.

Lemma render_loop_rows MarshalData ev category byID render now ids rows notified :
  render_loop MarshalData ev category byID render now ids = Ok (rows, notified) → Forall2 (note_for ev category byID render now) (active_ids byID ids) rows.
Proof.
  revert rows notified. induction ids as [|id ids IH]; intros rows notified; cbn; [by intros [= <- <-]|].
  destruct (byID !! id) as [a|] eqn:Ea; [|apply IH]. destruct (ac_Active a); cbn; [|apply IH].
  destruct (finish_message _) as [msg|] eqn:Em; [|done]. destruct (newRow _ _ _ _ _ _) as [r|] eqn:Er; [|done].
  destruct (render_loop _ _ _ _ _ _ ids) as [[rs ns]|] eqn:El; [|done]. intros [= <- <-]. constructor; [|by eapply IH].
  assert (∃ data, r = mkNote (uint32 id) (k_code category) (ms_Title msg) (ms_Body msg) (ms_Link msg) data (DedupeKey ev id category) None (whole now)) as [data ->].
  { unfold newRow in Er. destruct (bool_decide _); [simplify_eq; eauto|]. destruct (MarshalData _); simplify_eq; eauto. }
  unfold note_for. cbn. split_and!; eauto 10.
Qed.

Lemma List_NoDup_filter {A} (f : A → bool) l : NoDup l → NoDup (List.filter f l).
Proof. intros H. apply NoDup_ListNoDup, NoDup_filter, NoDup_ListNoDup, H. Qed.

Lemma by_account_keyed accounts id a : by_account accounts !! id = Some a → ac_ID a = id.
Proof.
  unfold by_account. assert (∀ m : gmap Z Account, (∀ id a, m !! id = Some a → ac_ID a = id) →
    ∀ id a, foldl (λ m a, <[ac_ID a := a]> m) m accounts !! id = Some a → ac_ID a = id) as H; [|by apply H; intros ? ?; rewrite lookup_empty].
  induction accounts as [|x accounts IH]; intros m Hm; [exact Hm|]. cbn. apply IH. intros i b [[<- <-]|[_ Hb]]%lookup_insert_Some; [done|by apply Hm].
Qed.

Lemma render_loop_notified MarshalData ev category accounts render now ids rows notified :
  render_loop MarshalData ev category (by_account accounts) render now ids = Ok (rows, notified) →
  ac_ID <$> notified = active_ids (by_account accounts) ids ∧ ∀ a, a ∈ notified → by_account accounts !! ac_ID a = Some a.
Proof.
  revert rows notified. induction ids as [|id ids IH]; intros rows notified; cbn; [intros [= <- <-]; by split; [|intros a ?%not_elem_of_nil]|].
  destruct (by_account accounts !! id) as [a|] eqn:Ea; [|apply IH]. destruct (ac_Active a); cbn; [|apply IH]. pose proof (by_account_keyed _ _ _ Ea) as Hid.
  destruct (finish_message _) as [msg|]; [|done]. destruct (newRow _ _ _ _ _ _) as [r|]; [|done].
  destruct (render_loop _ _ _ _ _ _ ids) as [[rs ns]|] eqn:El; [|done]. intros [= <- <-]. destruct (IH rs ns eq_refl) as [E H]. cbn. rewrite E, Hid. split; [done|].
  intros b [->|Hb]%elem_of_cons; [by rewrite Hid|by apply H].
Qed.

Lemma NoDup_active byID r : NoDup (active_ids byID (resolve r)).
Proof. unfold active_ids. apply List_NoDup_filter, NoDup_resolve. Qed.

(** ** What is written *)

Definition put_deliveries (ds : list deliveryRow) (t : NTables) : NTables := foldl (λ t d, (insert_delivery d t).2) t ds.

Fixpoint put_notes (rows : list noteRow) (plans : Z → list deliveryRow) (t : NTables) : list (Z * noteRow) * NTables :=
  match rows with
  | [] => ([], t)
  | r :: rest =>
      match insert_note r t with
      | (None, t1) => put_notes rest plans t1
      | (Some id, t1) => let '(l, t2) := put_notes rest plans (put_deliveries (of_note id <$> plans (n_UserID r)) t1) in ((id, r) :: l, t2)
      end
  end.

Lemma insert_deliveries_ok out ds e e' : insert_deliveries out ds e = (Ok (), e') → tables e' = put_deliveries ds (tables e).
Proof.
  revert e. induction ds as [|d ds IH]; intros e; cbn [insert_deliveries]; [by intros [= <-]|]. unfold mbind, stM_bind, statement.
  destruct (fault out (moment e)); [done|]. destruct (insert_delivery d (tables e)) as [b t1] eqn:E. intros H. rewrite (IH _ H). cbn. by rewrite E.
Qed.

Lemma insertNew_loop_ok out rows plans e a e' : insertNew_loop out rows plans e = (Ok a, e') → (a, tables e') = put_notes rows plans (tables e).
Proof.
  revert e a e'. induction rows as [|r rows IH]; intros e a e'; cbn [insertNew_loop put_notes]; [by intros [= <- <-]|].
  unfold mbind, stM_bind, statement. destruct (fault out (moment e)); [done|]. destruct (insert_note r (tables e)) as [[id|] t1]; [|apply IH].
  destruct (insert_deliveries out _ _) as [[[]|] e1] eqn:Ed; [|done]. apply insert_deliveries_ok in Ed. cbn in Ed.
  destruct (insertNew_loop out rows plans e1) as [[l|] e2] eqn:El; [|done]. intros [= <- <-]. apply IH in El. rewrite Ed in El. by destruct (put_notes _ _ _); simplify_eq.
Qed.

Lemma insertNew_effect out rows plans : effect (insertNew out rows plans) (put_notes rows plans).
Proof. apply wrapping_effect, Transaction_effect. apply insertNew_loop_ok. Qed.

(** What else is in the tables. *)
Definition same_rest (t t' : NTables) : Prop := preferences t' = preferences t ∧ quiets t' = quiets t ∧ devices t' = devices t ∧ tests t' = tests t ∧ outgoing t' = outgoing t.

(** What a Send adds: [created] are the new notifications, and every new delivery is one
    planned for the person of a new notification. *)
Record added (plans : Z → list deliveryRow) (created : list (Z * noteRow)) (t t' : NTables) : Prop := mkAdded {
  ad_notes : ∀ id r, ro_rows (notes t') !! id = Some r ↔ ro_rows (notes t) !! id = Some r ∨ (id, r) ∈ created;
  ad_fresh : ∀ id r, (id, r) ∈ created → ro_rows (notes t) !! id = None ∧ ∀ i a, ro_rows (notes t) !! i = Some a → n_DedupeKey a ≠ n_DedupeKey r;
  ad_old : ∀ id d, ro_rows (deliveries t) !! id = Some d → ro_rows (deliveries t') !! id = Some d;
  ad_deliveries : ∀ id d, ro_rows (deliveries t') !! id = Some d → ro_rows (deliveries t) !! id = Some d ∨
    ∃ note r p, (note, r) ∈ created ∧ p ∈ plans (n_UserID r) ∧ d = stored_delivery (with_d_ID id (of_note note p));
  ad_rest : same_rest t t'
}.

Lemma put_deliveries_notes ds t : notes (put_deliveries ds t) = notes t ∧ same_rest t (put_deliveries ds t).
Proof.
  revert t. induction ds as [|d ds IH]; intros t; [done|]. change (put_deliveries (d :: ds) t) with (put_deliveries ds (insert_delivery d t).2).
  destruct (IH (insert_delivery d t).2) as [-> H].
  unfold insert_delivery in *. by case_bool_decide.
Qed.

Lemma put_deliveries_rows ds t : ids_used (deliveries t) → ids_used (deliveries (put_deliveries ds t)) ∧
  (∀ id d, ro_rows (deliveries t) !! id = Some d → ro_rows (deliveries (put_deliveries ds t)) !! id = Some d) ∧
  (∀ id d, ro_rows (deliveries (put_deliveries ds t)) !! id = Some d → ro_rows (deliveries t) !! id = Some d ∨ ∃ p, p ∈ ds ∧ d = stored_delivery (with_d_ID id p)).
Proof.
  revert t. induction ds as [|x ds IH]; intros t Hu; [cbn; auto|]. cbn [put_deliveries foldl]. fold (put_deliveries ds (insert_delivery x t).2).
  assert (ids_used (deliveries (insert_delivery x t).2) ∧
    (∀ id d, ro_rows (deliveries t) !! id = Some d → ro_rows (deliveries (insert_delivery x t).2) !! id = Some d) ∧
    (∀ id d, ro_rows (deliveries (insert_delivery x t).2) !! id = Some d → ro_rows (deliveries t) !! id = Some d ∨ d = stored_delivery (with_d_ID id x))) as (Hu1 & Ho1 & Hn1).
  { unfold insert_delivery. case_bool_decide; [auto|]. cbn. split; [by apply ids_used_insert|]. split.
    - intros id d Hd. rewrite lookup_insert_ne; [done|]. intros <-. destruct Hu as [_ Hu]. apply Hu in Hd. lia.
    - intros id d [[<- <-]|[_ Hd]]%lookup_insert_Some; auto. }
  destruct (IH _ Hu1) as (Hu2 & Ho2 & Hn2). split; [done|]. split; [auto|]. intros id d Hd. destruct (Hn2 id d Hd) as [H|(p & Hp & ->)].
  - destruct (Hn1 id d H) as [?| ->]; [by left|]. right. exists x. split; [left|done].
  - right. exists p. split; [by right|done].
Qed.

Lemma added_nil plans t : added plans [] t t.
Proof. split; try done; [intros; rewrite elem_of_nil; tauto|by intros id r ?%not_elem_of_nil|auto]. Qed.

Lemma sound_put_deliveries ds t : sound t → Forall (placed t) ds → sound (put_deliveries ds t).
Proof.
  revert t. induction ds as [|d ds IH]; intros t Hs Hpl; [done|]. apply list.Forall_cons in Hpl as [Hd Hl].
  apply (IH (insert_delivery d t).2); [by apply sound_insert_delivery|]. eapply list.Forall_impl; [exact Hl|]. intros x Hx.
  unfold insert_delivery. by case_bool_decide.
Qed.

Lemma sound_put_new id ds t : sound t → addressed ds → is_Some (ro_rows (notes t) !! id) → sound (put_deliveries (of_note id <$> ds) t).
Proof.
  intros Hs Ha Hid. apply sound_put_deliveries; [done|]. apply list.Forall_fmap. eapply list.Forall_impl; [exact Ha|]. by intros d Hd.
Qed.

Lemma put_notes_added rows plans t : sound t → (∀ u, addressed (plans u)) → added plans (put_notes rows plans t).1 t (put_notes rows plans t).2.
Proof.
  intros Hs Hp. revert t Hs. induction rows as [|r rows IH]; intros t Hs; cbn [put_notes]; [apply added_nil|].
  pose proof (sound_insert_note r t Hs) as Hs1. unfold insert_note in *. case_bool_decide as E; cbn [snd] in Hs1; [by apply IH|]. rewrite none_with in E.
  set (id := ro_next (notes t)) in *. set (t1 := set_notes t (insert_row (notes t) r)) in *.
  assert (ro_rows (notes t) !! id = None) as Hfresh.
  { destruct (ro_rows (notes t) !! id) eqn:Ex; [|done]. destruct Hs as [[_ Hu] _ _ _ _ _ _]. apply Hu in Ex. unfold id in Ex. lia. }
  assert (∀ i a, ro_rows (notes t1) !! i = Some a ↔ ro_rows (notes t) !! i = Some a ∨ (i = id ∧ a = r)) as Hn1.
  { intros i a. cbn. rewrite lookup_insert_Some. fold id. split; [naive_solver|]. intros [H|[-> ->]]; [|by left]. right. split; [|done]. intros <-. congruence. }
  set (ds := of_note id <$> plans (n_UserID r)). destruct (put_deliveries_notes ds t1) as [En Hrest].
  destruct (put_deliveries_rows ds t1 (so_deliveries _ Hs1)) as (_ & Hold & Hnew).
  assert (sound (put_deliveries ds t1)) as Hs2 by (apply sound_put_new; [done|apply Hp|exists r; apply Hn1; by right]).
  specialize (IH _ Hs2). destruct (put_notes rows plans (put_deliveries ds t1)) as [l t2] eqn:Er. cbn [fst snd] in *. destruct IH as [Hn Hf Ho Hd Hr]. rewrite En in Hn, Hf. split.
  - intros i a. rewrite Hn, Hn1, elem_of_cons. naive_solver.
  - intros i a [[= -> ->]|Hia]%elem_of_cons; [done|]. destruct (Hf i a Hia) as [Hi Hk]. split.
    + destruct (ro_rows (notes t) !! i) as [b|] eqn:Eb; [|done]. assert (ro_rows (notes t1) !! i = Some b) by (apply Hn1; by left). congruence.
    + intros j b Hj. apply (Hk j), Hn1. by left.
  - intros i d Hi. apply Ho, Hold, Hi.
  - intros i d Hi. destruct (Hd i d Hi) as [H|(note & a & p & Ha & Hpa & ->)].
    + destruct (Hnew i d H) as [|(p & (q & -> & Hq)%list_elem_of_fmap & ->)]; [by left|]. right. exists id, r, q. split; [left|]. done.
    + right. exists note, a, p. split; [by right|]. done.
  - destruct Hrest as (? & ? & ? & ? & ?), Hr as (? & ? & ? & ? & ?). unfold same_rest. cbn in *. split_and!; congruence.
Qed.

(** Every row that was given is there, written now or before. *)
Lemma put_notes_all rows plans t r : sound t → (∀ u, addressed (plans u)) → r ∈ rows →
  ∃ id a, ro_rows (notes (put_notes rows plans t).2) !! id = Some a ∧ n_DedupeKey a = n_DedupeKey r.
Proof.
  intros Hs Hp. revert t Hs. induction rows as [|x rows IH]; intros t Hs Hr; [by apply not_elem_of_nil in Hr|]. cbn [put_notes].
  pose proof (sound_insert_note x t Hs) as Hs1. destruct (insert_note x t) as [[id|] t1] eqn:E; cbn [snd] in Hs1.
  - assert (ro_rows (notes t1) !! id = Some x) as Hx by (unfold insert_note in E; case_bool_decide; simplify_eq; cbn; rewrite lookup_insert; by destruct (decide _)).
    assert (sound (put_deliveries (of_note id <$> plans (n_UserID x)) t1)) as Hs2 by (apply sound_put_new; [done|apply Hp|by eexists]).
    pose proof (put_notes_added rows plans _ Hs2 Hp) as [Hn _ _ _ _]. specialize (IH _ Hs2). destruct (put_notes rows plans _) as [l t2]. cbn [fst snd] in *.
    apply elem_of_cons in Hr as [->|Hr]; [|by apply IH]. exists id, x. split; [|done]. apply Hn. left.
    by rewrite (proj1 (put_deliveries_notes _ _)).
  - pose proof (put_notes_added rows plans t1 Hs1 Hp) as [Hn _ _ _ _]. apply elem_of_cons in Hr as [->|Hr]; [|by apply IH].
    unfold insert_note in E. case_bool_decide as Hex; simplify_eq.
    destruct (ids_where (notes t1) _) as [|i l] eqn:Ei; [done|]. assert (i ∈ ids_where (notes t1) (λ _ n, bool_decide (n_DedupeKey n = n_DedupeKey x))) as Hi by (rewrite Ei; left).
    apply elem_of_select in Hi as (a & Ha & Hk%bool_decide_eq_true). exists i, a. split; [|done]. apply Hn. by left.
Qed.

(** ** Send *)

Section Send.
Variable out : Outside.
Variable people : nat → list Z → result (list Account).
Variables (MarshalData : gmap string string → result string) (UnmarshalData : string → gmap string string).
Variable n : Notices.

(** The open apps are told, and nothing else changes. *)
Lemma h_tell_apps created t0 : hoare (λ t, set_hub t (hub t0) = t0) (announce out UnmarshalData created) (λ _ t, set_hub t (hub t0) = t0) (λ _, False).
Proof.
  induction created as [|[id r] created IH]; cbn [announce]; [by apply h_ret|]. set (P := λ t, set_hub t (hub t0) = t0) in *.
  eapply h_bind with (R := λ _, P); [by intros e He|]. intros k. eapply h_bind with (R := λ _, P); [|intros _; exact IH].
  destruct (k =? 0)%nat; [by apply h_ret|]. eapply h_bind with (R := λ _, P); [apply h_attempt, h_statement; auto|]. intros [c|]; [|by apply h_ret].
  by intros e He.
Qed.

(** What one Send does: the recipients that are active have their notification, each
    written now unless it was there before, with deliveries as their settings say. *)
Definition sent (ev : Z) (category : Kind) (to : Recipients) (render : Recipient → Message) (only : Z) (t t' : NTables) : Prop :=
  ∃ registered accounts notified now plans created,
    kind (nt_kinds n) (k_code category) = Some registered ∧ (resolve to ≠ [] → ∃ k, people k (resolve to) = Ok accounts) ∧
    added plans created t (set_hub t' (hub t)) ∧
    (∀ id r, (id, r) ∈ created → ∃ u, u ∈ active_ids (by_account accounts) (resolve to) ∧ note_for ev category (by_account accounts) render now u r) ∧
    (∀ u, u ∈ active_ids (by_account accounts) (resolve to) → ∃ id r, ro_rows (notes t') !! id = Some r ∧ n_DedupeKey r = DedupeKey ev u category) ∧
    (∀ a, a ∈ notified → ac_ID a ∈ active_ids (by_account accounts) (resolve to) ∧ by_account accounts !! ac_ID a = Some a) ∧
    (∀ u d, d ∈ plans u → planned n t registered notified (whole now) only u d).

Lemma put_created rows plans t id r : (id, r) ∈ (put_notes rows plans t).1 → r ∈ rows.
Proof.
  revert t. induction rows as [|x rows IH]; intros t; cbn [put_notes]; [by intros ?%not_elem_of_nil|].
  destruct (insert_note x t) as [[i|] t1]; [|intros H%IH; by right]. specialize (IH (put_deliveries (of_note i <$> plans (n_UserID x)) t1)).
  destruct (put_notes rows plans _) as [l t2]. cbn in *. intros [[= -> ->]|H]%elem_of_cons; [left|right; auto].
Qed.

Lemma Forall2_there {A B} (P : A → B → Prop) l k : Forall2 P l k → (∀ x, x ∈ l → ∃ y, y ∈ k ∧ P x y) ∧ (∀ y, y ∈ k → ∃ x, x ∈ l ∧ P x y).
Proof.
  intros H. rewrite Forall2_lookup in H. split; intros z [i Hi]%list_elem_of_lookup; specialize (H i); rewrite Hi in H; inversion H; subst; simplify_eq;
    (eexists; split; [by eapply list_elem_of_lookup_2|done]).
Qed.

Lemma sent_put ev category to render only registered accounts notified k now rows plans t : sound t → (∀ u, addressed (plans u)) →
  kind (nt_kinds n) (k_code category) = Some registered → people k (resolve to) = Ok accounts →
  render_loop MarshalData ev category (by_account accounts) render now (resolve to) = Ok (rows, notified) →
  (∀ u d, d ∈ plans u → planned n t registered notified (whole now) only u d) →
  ∀ t', set_hub t' (hub (put_notes rows plans t).2) = (put_notes rows plans t).2 → sent ev category to render only t t'.
Proof.
  intros Hs Hp Hreg Hk Hrows Hplan t' Ht'. pose proof (put_notes_added rows plans t Hs Hp) as Had. destruct (render_loop_notified _ _ _ _ _ _ _ _ _ Hrows) as [Eids Hby].
  apply render_loop_rows in Hrows. destruct (Forall2_there _ _ _ Hrows) as [H1 H2].
  assert (notes t' = notes (put_notes rows plans t).2 ∧ deliveries t' = deliveries (put_notes rows plans t).2 ∧ same_rest (put_notes rows plans t).2 t') as (En & Ed & Er) by (by rewrite <-Ht').
  exists registered, accounts, notified, now, plans, (put_notes rows plans t).1. split_and!; [done|by eauto|..|done].
  - destruct Had as [A1 A2 A3 A4 A5]. split; cbn; rewrite ?En, ?Ed; [done..|]. destruct A5 as (? & ? & ? & ? & ?), Er as (? & ? & ? & ? & ?). unfold same_rest. cbn. split_and!; congruence.
  - intros id r Hr%put_created. by apply H2.
  - intros u Hu. destruct (H1 u Hu) as (r & Hr & _ & Hkey & _). destruct (put_notes_all rows plans t r Hs Hp Hr) as (id & a & Ha & Hka).
    exists id, a. rewrite En, Hka. done.
  - intros a Ha. split; [|by apply Hby]. rewrite <-Eids. apply list_elem_of_fmap. eauto.
Qed.

Lemma h_notify ctx ev category to render only t0 : hd_event ctx = Some ev → sound t0 →
  hoare (λ t, t = t0) (send out people MarshalData UnmarshalData n ctx category to render only)
    (λ _ t, ∃ f, render = Some f ∧ sent ev category to f only t0 t) (λ t, t = t0).
Proof.
  intros Hev Hs. unfold send. eapply h_bind with (R := λ c t, t = t0 ∧ c.1.1 = ev ∧ kind (nt_kinds n) (k_code category) = Some c.1.2 ∧ render = Some c.2).
  { apply h_lift; [done|]. intros t c ->. unfold checkSend. rewrite Hev. destruct (hd_inTransaction ctx); [done|]. destruct (kind _ _); [|done].
    destruct render; [|done]. by intros [= <-]. }
  intros [[ev' registered] f]. cbn [fst snd]. apply h_pure_r. intros (-> & Hreg & ->). destruct (resolve to) as [|i ids] eqn:Er.
  { apply h_ret. intros t ->. exists f. split; [done|]. exists registered, [], [], 0, (λ _, []), []. rewrite Er.
    split_and!; try done; [by destruct t0; apply added_nil|..]; by intros ? ?%not_elem_of_nil || (intros ? ? ?%not_elem_of_nil). }
  rewrite <-Er. eapply h_bind with (R := λ _ t, t = t0); [by apply h_Now|]. intros now.
  eapply h_bind with (R := λ made t, t = t0 ∧ ∃ accounts k, people k (resolve to) = Ok accounts ∧
    render_loop MarshalData ev category (by_account accounts) f now (resolve to) = Ok made).
  { unfold render_all, Find. eapply h_bind with (R := λ accounts t, t = t0 ∧ ∃ k, people k (resolve to) = Ok accounts).
    - apply h_wrapping, h_ask; [done|]. intros t k a ->. eauto.
    - intros accounts. apply h_lift; [by intros t [-> _]|]. intros t made [-> [k Hk]] Hm. eauto. }
  intros [rows notified]. cbn [fst snd]. apply h_pure_r. intros (accounts & k & Hk & Hm). destruct rows as [|r rows].
  { apply h_ret. intros t ->. exists f. split; [done|].
    eapply (sent_put ev category to f only registered accounts notified k now [] (λ _, []) t0); [done|constructor|done..|by intros u d ?%not_elem_of_nil|]. by destruct t0. }
  set (rs := r :: rows) in *. assert (NoDup (ac_ID <$> notified)) as Hnd by (rewrite (proj1 (render_loop_notified _ _ _ _ _ _ _ _ _ Hm)); apply NoDup_active).
  eapply h_bind with (R := λ p t, (t = t0 ∧ planned_all n t0 registered notified (whole now) only p) ∧ addressed_plans p).
  { apply (h_and _ _ _ _ _ (h_plans_rule out n _ _ _ _ t0 Hnd) (h_plans out n _ _ _ _)). }
  intros p. apply h_pure_r. intros Hp. apply h_pure_r. intros Hpl. eapply h_bind; [apply h_effect, insertNew_effect|]. intros created.
  set (t1 := (put_notes rs (λ id, default [] (p !! id)) t0).2). eapply h_weaken; [apply (h_tell_apps created t1)| | |done].
  - intros t Ht. assert (t = t1) as -> by (unfold t1; by rewrite <-Ht). by destruct t1.
  - intros [] t Ht. exists f. split; [done|].
    exact (sent_put ev category to f only registered accounts notified k now rs _ t0 Hs Hp Hreg Hk Hm Hpl t Ht).
Qed.
End Send.
