(* ===== verification/NoticeSweep.v ===== *)
(** * The housekeeping of notifications

    A prune in batches ends and deletes exactly the rows that match, in the order of their
    ids, or, when the database fails it, the first of them. *)

From S2P Require Import Prelude Clock Apperr SignIn Sql Rows Queue Hoare NoticeRules NoticeStore Notices NoticeFacts.

Local Open Scope Z_scope.

Section Prune.
Context {A : Type}.
Variables (out : Outside) (what : string) (rows : NTables → rows_of A) (set_ : NTables → rows_of A → NTables) (p : NTables → Z → A → bool).
(** The table is a field of the tables, and the condition does not read it. *)
Context (get_set : ∀ t r, rows (set_ t r) = r) (set_set : ∀ t r r', set_ (set_ t r) r' = set_ t r') (set_get : ∀ t, set_ t (rows t) = t).
Context (steady : ∀ t r id a, p (set_ t r) id a = p t id a).

Notation matching t := (ids_where (rows t) (p t)).

(** The tables once the first [k] matching rows are gone, and where the loop stands. *)
Definition without_first (t : NTables) (k : nat) : NTables := set_ t (without_rows (take k (matching t)) (rows t)).
Definition stands (t : NTables) (k : nat) (after : Z) : Prop := (k <= length (matching t))%nat ∧ ∀ x, x ∈ matching t → (x <= after ↔ x ∈ take k (matching t)).

Lemma left_to_prune t k after : stands t k after →
  ids_where (rows (without_first t k)) (λ id a, p (without_first t k) id a && (after <? id)) = drop k (matching t).
Proof.
  intros [_ Hs]. apply ids_where_drop. intros id. unfold without_first. rewrite get_set, elem_of_without.
  setoid_rewrite andb_true_iff. setoid_rewrite steady. setoid_rewrite Z.ltb_lt. split.
  - intros (Hn & a & Ha & Hp & Hi). split; [|done]. apply elem_of_select. eauto.
  - intros [Hin Hn]. pose proof Hin as (a & Ha & Hp)%elem_of_select. split; [done|]. exists a. split_and!; [done..|].
    destruct (Z.le_gt_cases id after) as [Hle|]; [|done]. by apply Hs in Hle.
Qed.

Lemma stands_next t k after final : stands t k after → list.last (take pruneBatch (drop k (matching t))) = Some final →
  stands t (k + length (take pruneBatch (drop k (matching t)))) final.
Proof.
  intros [Hk _] Hf. split.
  - rewrite length_take, length_drop. lia.
  - intros x Hx. apply taken_up_to; [apply Sorted_select|apply NoDup_select| |done]. by rewrite take_more, last_app, Hf.
Qed.

(** The rows a batch deletes are those it read. *)
Lemma batch_deleted t k after : stands t k after → let b := take pruneBatch (drop k (matching t)) in let t' := without_first t k in
  let gone := ids_where (rows t') (λ id a, p t' id a && contains b id) in
  length gone = length b ∧ set_ t' (without_rows gone (rows t')) = without_first t (k + length b).
Proof.
  intros Hs b t' gone. assert (gone = b) as ->.
  { assert (∀ x, x ∈ b → x ∈ drop k (matching t)) as Hsub by (intros x H; unfold b in H; rewrite <-(take_drop pruneBatch (drop k _)); apply elem_of_app; by left).
    apply sorted_eq; [apply Sorted_select| |apply NoDup_select| |].
    - unfold b. pose proof (sorted_drop (matching t) k (Sorted_select _ _)) as H. rewrite <-(take_drop pruneBatch) in H. by eapply StronglySorted_app_1_l.
    - eapply sublist_NoDup; [apply (NoDup_select (ro_rows (rows t)) (p t))|]. etrans; [apply sublist_take|apply sublist_drop].
    - intros x. unfold gone, t', without_first. rewrite get_set, elem_of_without. setoid_rewrite andb_true_iff. setoid_rewrite steady.
      setoid_rewrite contains_spec. split; [naive_solver|]. intros H. pose proof (Hsub x H) as [Hm Hn]%in_drop; [|apply NoDup_select].
      split; [done|]. apply elem_of_select in Hm as (a & Ha & Hp). eauto. }
  split; [done|]. unfold t', without_first. rewrite get_set, set_set, without_rows_app. unfold b. by rewrite take_more.
Qed.

(** A prune ends, with the first matching rows gone: all of them, or the database failed it. *)
Lemma prune_exact fuel t k after e : stands t k after → tables e = without_first t k → (length (matching t) < fuel + k)%nat →
  ∃ k' err e', prune out fuel what rows set_ p after (Z.of_nat k) e = Some (Z.of_nat k', err, e') ∧ tables e' = without_first t k' ∧
    (k' <= length (matching t))%nat ∧ match err with None => k' = length (matching t) | Some _ => ∃ j x, fault out j = Some x end.
Proof.
  revert k after e. induction fuel as [|fuel IH]; intros k after e Hs He Hf; [destruct Hs; lia|]. cbn [prune].
  unfold prune_select, wrapping, query, statement. destruct (fault out (moment e)) as [x|] eqn:Ex; cbn [fst snd].
  { eexists k, _, _. split; [done|]. split; [done|]. destruct Hs. eauto. }
  rewrite He, (left_to_prune t k after Hs). destruct (list.last (take pruneBatch (drop k (matching t)))) as [final|] eqn:El.
  - unfold prune_delete, wrapping, statement. cbn [moment tables]. destruct (fault out (S (moment e))) as [x|] eqn:Ex'; cbn [fst snd].
    { eexists k, _, _. split; [done|]. split; [done|]. destruct Hs. eauto. }
    destruct (batch_deleted t k after Hs) as [Hl Hset]. cbn zeta in Hl, Hset. rewrite Hl, Hset, <-Nat2Z.inj_add.
    apply IH; [by apply (stands_next t k after)|done|]. assert (take pruneBatch (drop k (matching t)) ≠ []) as Hne by (intros E; by rewrite E in El).
    destruct (take _ _); [done|]. cbn. lia.
  - exists k, None. eexists. split; [done|]. split; [done|]. destruct Hs as [Hk _]. apply last_None in El.
    assert (drop k (matching t) = []) as Hd by (destruct (drop k _); [done|by cbn in El]). apply (f_equal length) in Hd. rewrite length_drop in Hd.
    cbn in Hd. lia.
Qed.
(** From the first row on. *)
Lemma prune_all fuel e : ids_used (rows (tables e)) → (length (matching (tables e)) < fuel)%nat →
  ∃ gone err e', prune out fuel what rows set_ p 0 0 e = Some (Z.of_nat (length gone), err, e') ∧
    tables e' = set_ (tables e) (without_rows gone (rows (tables e))) ∧ gone `sublist_of` matching (tables e) ∧
    match err with None => gone = matching (tables e) | Some _ => ∃ j x, fault out j = Some x end.
Proof.
  intros [_ Hu] Hf. destruct (prune_exact fuel (tables e) 0 0 e) as (k & err & e' & Hp & He & Hk & Hr).
  - split; [lia|]. intros x (a & Ha & _)%elem_of_select. apply Hu in Ha. split; [lia|]. by intros H%not_elem_of_nil.
  - unfold without_first. by rewrite take_0, without_rows_nil, set_get.
  - lia.
  - exists (take k (matching (tables e))), err, e'. rewrite length_take, Nat.min_l by done. split_and!; [done|done|apply sublist_take|].
    destruct err; [done|]. subst k. by rewrite firstn_all.
Qed.

(** With any fuel, what the deletes keep. *)
Lemma prune_keeps (I : NTables → Prop) fuel after deleted e r :
  (∀ t ids, I t → I (set_ t (without_rows (ids_where (rows t) (λ id a, p t id a && contains ids id)) (rows t)))) → I (tables e) →
  prune out fuel what rows set_ p after deleted e = Some r → I (tables r.2).
Proof.
  intros Hd. revert after deleted e. induction fuel as [|fuel IH]; intros after deleted e He; [done|]. cbn [prune].
  unfold prune_select, prune_delete, wrapping, query, statement. destruct (fault out (moment e)); [by intros [= <-]|]. cbn [moment tables].
  destruct (list.last _); [|by intros [= <-]]. destruct (fault out (S (moment e))); [by intros [= <-]|]. apply IH. by apply Hd.
Qed.
End Prune.

(** ** The sweep *)

Lemma sound_prune_delivery ids t : sound t → sound (set_deliveries t (without_rows ids (deliveries t))).
Proof. intros Hs. apply (sound_deliveries _ _ Hs), changes_without, same_delivery_refl. Qed.

Lemma sound_prune_note cutoff p t : sound t → (∀ id r, p id r = true → orphan_before t cutoff id r = true) →
  sound (set_notes t (without_rows (ids_where (notes t) p) (notes t))).
Proof.
  intros Hs Hp. apply (sound_set_notes _ _ Hs); [by apply changes_without|]. intros id d Hd. destruct (so_of _ Hs id d Hd) as (_ & [r Hr] & _).
  exists r. cbn. apply map_lookup_filter_Some. split; [done|]. cbn. intros (r' & Hr' & Hpr)%elem_of_select. apply Hp in Hpr. unfold orphan_before in Hpr.
  apply andb_true_iff in Hpr as [_ Hn%bool_decide_eq_true]. rewrite ids_where_nil in Hn. specialize (Hn id d Hd). by rewrite Z.eqb_refl in Hn.
Qed.

Lemma notices_sweep_sound out fuel e r : sound (tables e) → notices_Sweep out fuel e = Some r → sound (tables r.2).
Proof.
  intros Hs. unfold notices_Sweep. destruct (pruneDeliveries _ _ _ _) as [[[d [err|]] e']|] eqn:E; [|..|done].
  - intros [= <-]. apply (prune_keeps _ _ _ _ _ sound) in E; [done| |done]. intros t ids. apply sound_prune_delivery.
  - apply (prune_keeps _ _ _ _ _ sound) in E; [|intros t ids; apply sound_prune_delivery|done]. cbn in E.
    destruct (pruneNotifications _ _ _ _) as [[[k err] e'']|] eqn:E'; [|done]. intros [= <-].
    apply (prune_keeps _ _ _ _ _ sound) in E'; [done| |done]. intros t ids Ht. eapply sound_prune_note; [done|]. by intros id r [H _]%andb_true_iff.
Qed.

(** What a whole sweep leaves. *)
Definition kept_delivery (cutoff : Z) (d : option deliveryRow) : option deliveryRow := d ≫= λ d, if finished_before cutoff d then None else Some d.
Definition kept_note (t : NTables) (cutoff id : Z) (r : option noteRow) : option noteRow := r ≫= λ r, if orphan_before t cutoff id r then None else Some r.

Lemma lookup_without {A} (r : rows_of A) p id :
  ro_rows (without_rows (ids_where r p) r) !! id = ro_rows r !! id ≫= λ a, if p id a then None else Some a.
Proof.
  cbn. destruct (ro_rows r !! id) as [a|] eqn:E; cbn.
  - destruct (p id a) eqn:Hp.
    + apply map_lookup_filter_None. right. intros b _ H. apply H, elem_of_select. eauto.
    + apply map_lookup_filter_Some. split; [done|]. cbn. intros (b & Hb & Hpb)%elem_of_select. congruence.
  - apply map_lookup_filter_None. by left.
Qed.

(** Only matching rows go. *)
Lemma lookup_without_some {A} (r : rows_of A) gone p id : gone `sublist_of` ids_where r p →
  ro_rows (without_rows gone r) !! id = ro_rows r !! id ∨ ∃ a, ro_rows r !! id = Some a ∧ p id a = true ∧ ro_rows (without_rows gone r) !! id = None.
Proof.
  intros Hg. cbn. destruct (decide (id ∈ gone)) as [H|H].
  - right. pose proof H as (a & Ha & Hp)%(sublist_subseteq _ _ Hg)%elem_of_select. exists a. split_and!; [done..|].
    apply map_lookup_filter_None. right. intros b _ Hn. by apply Hn.
  - left. destruct (ro_rows r !! id) as [a|] eqn:E; [by apply map_lookup_filter_Some|apply map_lookup_filter_None; by left].
Qed.

Lemma size_without_rows {A} (r : rows_of A) gone p : gone `sublist_of` ids_where r p →
  Z.of_nat (size (ro_rows (without_rows gone r))) = Z.of_nat (size (ro_rows r)) - Z.of_nat (length gone).
Proof.
  intros Hg. assert (NoDup gone) as Hn by (eapply sublist_NoDup; [apply (NoDup_select (ro_rows r) p)|done]).
  assert (∀ id, id ∈ gone → is_Some (ro_rows r !! id)) as Hin.
  { intros id (a & Ha & _)%(sublist_subseteq _ _ Hg)%elem_of_select. by exists a. }
  cbn. clear Hg. revert Hn Hin. generalize (ro_rows r). induction gone as [|g gone IH]; intros m Hn Hin.
  - rewrite map_filter_id; [cbn; lia|]. intros i x _. apply not_elem_of_nil.
  - apply list.NoDup_cons in Hn as [Hg Hn]. destruct (Hin g) as [a Ha]; [left|].
    assert (filter (λ kv : Z * A, kv.1 ∉ g :: gone) m = filter (λ kv : Z * A, kv.1 ∉ gone) (delete g m)) as ->.
    { apply map_eq. intros i. apply option_eq. intros x. rewrite !map_lookup_filter_Some, lookup_delete_Some. cbn. set_solver. }
    rewrite IH; [|done|].
    + rewrite map_size_delete_Some by (by exists a). cbn [length]. assert (size m ≠ 0%nat); [|lia].
      apply map_size_ne_0_lookup. by exists g, a.
    + intros id H. rewrite lookup_delete_ne; [|by intros ->]. apply Hin. by right.
Qed.

(** A delivery or a notification that is not to go stays. *)
Definition only_old {A} (p : Z → A → bool) (r r' : rows_of A) : Prop :=
  ∀ id, ro_rows r' !! id = ro_rows r !! id ∨ ∃ a, ro_rows r !! id = Some a ∧ p id a = true ∧ ro_rows r' !! id = None.

Lemma length_matching {A} (r : rows_of A) p fuel : (size (ro_rows r) < fuel)%nat → (length (ids_where r p) < fuel)%nat.
Proof. intros H. pose proof (select_length (ro_rows r) p). unfold ids_where. lia. Qed.

Lemma pruneDeliveries_exact out fuel cutoff e : sound (tables e) → (size (ro_rows (deliveries (tables e))) < fuel)%nat →
  ∃ gone err e', pruneDeliveries out fuel cutoff e = Some (Z.of_nat (length gone), err, e') ∧
    tables e' = set_deliveries (tables e) (without_rows gone (deliveries (tables e))) ∧
    gone `sublist_of` ids_where (deliveries (tables e)) (λ _ d, finished_before cutoff d) ∧
    match err with None => gone = ids_where (deliveries (tables e)) (λ _ d, finished_before cutoff d) | Some _ => ∃ j x, fault out j = Some x end.
Proof. intros Hs Hf. apply (prune_all _ _ deliveries set_deliveries); [done..|by intros []|done|apply Hs|by apply length_matching]. Qed.

Lemma pruneNotifications_exact out fuel cutoff e : sound (tables e) → (size (ro_rows (notes (tables e))) < fuel)%nat →
  ∃ gone err e', pruneNotifications out fuel cutoff e = Some (Z.of_nat (length gone), err, e') ∧
    tables e' = set_notes (tables e) (without_rows gone (notes (tables e))) ∧
    gone `sublist_of` ids_where (notes (tables e)) (orphan_before (tables e) cutoff) ∧
    match err with None => gone = ids_where (notes (tables e)) (orphan_before (tables e) cutoff) | Some _ => ∃ j x, fault out j = Some x end.
Proof. intros Hs Hf. apply (prune_all _ _ notes set_notes); [done..|by intros []|done|apply Hs|by apply length_matching]. Qed.

Lemma only_old_without {A} (r : rows_of A) gone p : gone `sublist_of` ids_where r p → only_old p r (without_rows gone r).
Proof. intros H id. by apply lookup_without_some. Qed.

(** What a sweep that ended did. *)
Definition swept_right (out : Outside) (now : Z) (t t' : NTables) (swept : Swept) (err : option error) : Prop :=
  let old := finished_before (now - DeliveryRetention) in
  only_old (λ _, old) (deliveries t) (deliveries t') ∧ only_old (orphan_before t' (now - NotificationRetention)) (notes t) (notes t') ∧
  sw_Deliveries swept = Z.of_nat (size (ro_rows (deliveries t))) - Z.of_nat (size (ro_rows (deliveries t'))) ∧
  sw_Notifications swept = Z.of_nat (size (ro_rows (notes t))) - Z.of_nat (size (ro_rows (notes t'))) ∧
  match err with
  | None => (∀ id d, ro_rows (deliveries t') !! id = Some d → old d = false) ∧
      (∀ id r, ro_rows (notes t') !! id = Some r → orphan_before t' (now - NotificationRetention) id r = false)
  | Some _ => ∃ j x, fault out j = Some x
  end.

(** No matching row is left. *)
Lemma none_left {A} (r : rows_of A) p id a : ro_rows (without_rows (ids_where r p) r) !! id = Some a → p id a = false.
Proof. rewrite lookup_without. destruct (ro_rows r !! id) as [b|]; [|done]. cbn. destruct (p id b) eqn:E; [done|]. by intros [= <-]. Qed.

Lemma sweep_run out fuel e : sound (tables e) → (size (ro_rows (deliveries (tables e))) < fuel)%nat → (size (ro_rows (notes (tables e))) < fuel)%nat →
  ∃ swept err e', notices_Sweep out fuel e = Some (swept, err, e') ∧ swept_right out (whole (clock out (moment e))) (tables e) (tables e') swept err.
Proof.
  intros Hs Hfd Hfn. unfold notices_Sweep. set (now := whole (clock out (moment e))).
  destruct (pruneDeliveries_exact out fuel (now - DeliveryRetention) (passed e) Hs Hfd) as (gone & err & e1 & -> & Ht1 & Hsub & Herr). cbn [passed tables] in *.
  assert (sound (tables e1)) as Hs1 by (rewrite Ht1; by apply sound_prune_delivery). pose proof (size_without_rows _ _ _ Hsub) as Hsize.
  assert (deliveries (tables e1) = without_rows gone (deliveries (tables e)) ∧ notes (tables e1) = notes (tables e)) as [Ed En] by (by rewrite Ht1).
  destruct err as [err|].
  { eexists _, _, _. split; [done|]. unfold swept_right. rewrite Ed, En. cbn [sw_Deliveries sw_Notifications].
    split_and!; [exact (only_old_without _ _ _ Hsub)|intros id; by left|lia|lia|done]. }
  destruct (pruneNotifications_exact out fuel (now - NotificationRetention) e1 Hs1) as (gone' & err & e2 & -> & Ht2 & Hsub' & Herr'); [by rewrite En|].
  assert (orphan_before (tables e2) = orphan_before (tables e1) ∧ deliveries (tables e2) = deliveries (tables e1) ∧ notes (tables e2) = without_rows gone' (notes (tables e))) as (Eo & Ed2 & En2)
    by (rewrite Ht2, <-En; done).
  rewrite En in Hsub', Herr'. pose proof (size_without_rows _ _ _ Hsub') as Hsize'. eexists _, _, _. split; [done|]. unfold swept_right.
  rewrite Eo, Ed2, En2, Ed. cbn [sw_Deliveries sw_Notifications]. split_and!; [exact (only_old_without _ _ _ Hsub)|exact (only_old_without _ _ _ Hsub')|lia|lia|].
  destruct err; [done|]. subst gone gone'. split; [intros id d; exact (none_left _ _ id d)|intros id r; apply none_left].
Qed.

(** * Quiet hours and retries

    When quiet hours let a delivery go, and how often a delivery is tried at most. *)

(** ** Quiet hours *)

(** Is it quiet at an instant? *)
Definition quiet_at (q : QuietHours) (loc : Location) (t : Z) : bool := quiet_contains q (minute_of (wall loc (unix t))).

(** Around an instant one offset holds: no change of the clocks within three days. *)
Definition steady_around (loc : Location) (o u : Z) : Prop :=
  Z.abs o < 86400 ∧ ∀ v, Z.abs (v - u) <= 3 * 86400 → lc_offset loc v = o ∧ ∀ x, Z.abs (x - u) <= 3 * 86400 → lc_start loc v <= x < lc_end loc v.

Lemma Date_steady loc o u day minute : steady_around loc o u → Z.abs (day * 86400 + minute * 60 - (u + o)) <= 2 * 86400 →
  Date loc day minute = (day * 86400 + minute * 60 - o) * Time.Second.
Proof.
  intros [Ho Hs] Hd. unfold Date. clear -Ho Hs Hd. set (w := day * 86400 + minute * 60) in *. destruct (Hs w) as [-> Hx]; [lia|]. specialize (Hx (w - o)).
  destruct ((w - o <? lc_start loc w) || (lc_end loc w <=? w - o)) eqn:E; [|done]. apply orb_true_iff in E. rewrite Z.ltb_lt, Z.leb_le in E. lia.
Qed.

Lemma day_minute w : w = day_of w * 86400 + minute_of w * 60 + w mod 60 ∧ 0 <= minute_of w < 1440 ∧ 0 <= w mod 60 < 60.
Proof.
  unfold day_of, minute_of. pose proof (Z.div_mod w 86400 ltac:(done)). pose proof (Z.mod_pos_bound w 86400 eq_refl).
  pose proof (Z.div_mod (w mod 86400) 60 ltac:(done)). pose proof (Z.mod_pos_bound (w mod 86400) 60 eq_refl).
  assert ((w mod 86400) mod 60 = w mod 60) by (replace (w mod 86400) with (w + - (1440 * (w / 86400)) * 60) by lia; apply Z_mod_plus_full). lia.
Qed.

(** The minute of the day of a time given as a day, minutes from its start and seconds. *)
Lemma minute_of_parts day minutes seconds : 0 <= seconds < 60 → minute_of (day * 86400 + minutes * 60 + seconds) = minutes mod 1440.
Proof.
  intros Hs. unfold minute_of. pose proof (Z.div_mod minutes 1440 ltac:(done)) as Hd. pose proof (Z.mod_pos_bound minutes 1440 eq_refl) as Hb.
  replace (day * 86400 + minutes * 60 + seconds) with ((minutes mod 1440) * 60 + seconds + (day + minutes / 1440) * 86400) by lia.
  rewrite Z_mod_plus_full, Z.mod_small by lia. rewrite Z.div_add_l by done. rewrite Z.div_small by lia. lia.
Qed.

(** Instants are whole seconds and what is over. *)
Lemma unix_at s f : 0 <= f < Time.Second → unix (s * Time.Second + f) = s.
Proof. intros H. unfold unix. rewrite Z.div_add_l by done. rewrite Z.div_small by done. lia. Qed.

Lemma unix_le s t : t < s * Time.Second ↔ unix t < s.
Proof.
  unfold unix. pose proof (Z.div_mod t Time.Second ltac:(done)). pose proof (Z.mod_pos_bound t Time.Second eq_refl). assert (0 < Time.Second) by done. nia.
Qed.

Lemma quiet_valid q : quiet_Validate q = None → 0 <= qh_Start q < 1440 ∧ 0 <= qh_End q < 1440 ∧ qh_Start q ≠ qh_End q.
Proof.
  unfold quiet_Validate, minutesPerDay. destruct (_ || _) eqn:E; [done|]. intros _. rewrite !orb_false_iff, Z.ltb_ge, Z.leb_gt, Z.ltb_ge, Z.leb_gt, Z.eqb_neq in E. lia.
Qed.

(** Within quiet hours: the minutes until the end, all of them quiet and the end not. *)
Definition until_end (q : QuietHours) (minute : Z) : Z := if minute <? qh_End q then qh_End q - minute else qh_End q + 1440 - minute.

Lemma until_end_quiet q minute k : quiet_Validate q = None → 0 <= minute < 1440 → quiet_contains q minute = true → 0 <= k < until_end q minute →
  quiet_contains q ((minute + k) mod 1440) = true.
Proof.
  intros Hv%quiet_valid Hm Hq Hk. unfold until_end in Hk. unfold quiet_contains in *.
  assert ((minute + k) mod 1440 = if minute + k <? 1440 then minute + k else minute + k - 1440) as ->.
  { destruct (Z.ltb_spec (minute + k) 1440); [apply Z.mod_small; lia|]. rewrite <-(Z_mod_plus_full _ (-1)). apply Z.mod_small. destruct (Z.ltb_spec minute (qh_End q)); lia. }
  destruct (Z.ltb_spec (minute + k) 1440), (Z.ltb_spec minute (qh_End q)), (Z.ltb_spec (qh_Start q) (qh_End q)); lia.
Qed.

Lemma end_not_quiet q : quiet_Validate q = None → quiet_contains q (qh_End q) = false.
Proof. intros Hv%quiet_valid. unfold quiet_contains. destruct (Z.ltb_spec (qh_Start q) (qh_End q)); lia. Qed.

(** The end of quiet hours, counted from now. *)
Lemma ReleaseAt_quiet q now loc o : steady_around loc o (unix now) → quiet_Validate q = None → qh_Enabled q = true → quiet_at q loc now = true →
  let w := wall loc (unix now) in
  ReleaseAt q now loc = (day_of w * 86400 + (minute_of w + until_end q (minute_of w)) * 60 - o) * Time.Second.
Proof.
  intros Hs Hv He Hq w. unfold quiet_at in Hq. fold w in Hq. pose proof Hs as [Ho Hsv]. destruct (Hsv (unix now)) as [Ho1 _]; [lia|].
  assert (w = unix now + o) as Hw by (unfold w, wall; by rewrite Ho1). unfold ReleaseAt. rewrite He, Hv. cbn [negb orb]. rewrite bool_decide_eq_false_2 by auto. fold w.
  rewrite Hq. cbn [negb]. pose proof (day_minute w) as (Hd & Hm & Hsec). pose proof (quiet_valid q Hv) as (_ & Hend & _).
  rewrite (Date_steady loc o (unix now)), (Date_steady loc o (unix now) (day_of w + 1)) by (done || lia). unfold Time.After, until_end.
  destruct (Z.ltb_spec now ((day_of w * 86400 + qh_End q * 60 - o) * Time.Second)) as [Hlt|Hge]; [apply unix_le in Hlt|apply Z.le_ngt in Hge; rewrite unix_le in Hge];
    destruct (Z.ltb_spec (minute_of w) (qh_End q)); f_equal; lia.
Qed.

Lemma until_end_bounds q minute : quiet_Validate q = None → 0 <= minute < 1440 → quiet_contains q minute = true →
  0 < until_end q minute <= 1440 ∧ (minute + until_end q minute) mod 1440 = qh_End q.
Proof.
  intros Hv Hm Hq. pose proof (quiet_valid q Hv). unfold until_end. destruct (Z.ltb_spec minute (qh_End q)).
  - split; [lia|]. rewrite Z.mod_small by lia. lia.
  - split.
    + assert (minute ≠ qh_End q); [|lia]. intros ->. by rewrite end_not_quiet in Hq.
    + replace (minute + (qh_End q + 1440 - minute)) with (qh_End q + 1 * 1440) by lia. rewrite Z_mod_plus_full, Z.mod_small; lia.
Qed.

(** The first moment outside quiet hours. *)
Lemma ReleaseAt_first q now loc o : steady_around loc o (unix now) → quiet_Validate q = None → qh_Enabled q = true →
  now <= ReleaseAt q now loc ∧ quiet_at q loc (ReleaseAt q now loc) = false ∧ ∀ t, now <= t < ReleaseAt q now loc → quiet_at q loc t = true.
Proof.
  intros Hs Hv He. destruct (quiet_at q loc now) eqn:Hq.
  - rewrite (ReleaseAt_quiet q now loc o) by done. cbn zeta. set (w := wall loc (unix now)). pose proof Hs as [Ho Hsv]. destruct (Hsv (unix now)) as [Ho1 _]; [lia|].
    assert (w = unix now + o) as Hw by (unfold w, wall; by rewrite Ho1). pose proof (day_minute w) as (Hd & Hm & Hsec). unfold quiet_at in Hq. fold w in Hq.
    destruct (until_end_bounds q (minute_of w) Hv Hm Hq) as [Hu Hend]. set (U := until_end q (minute_of w)) in *. set (D := day_of w) in *.
    set (S := D * 86400 + (minute_of w + U) * 60 - o).
    assert (∀ s, unix now <= s <= S → ∃ k sec, 0 <= sec < 60 ∧ wall loc s = D * 86400 + (minute_of w + k) * 60 + sec ∧ 0 <= k ∧ (s < S → k < U) ∧ (s = S → k = U)) as Hwall.
    { intros s Hs1. exists ((s + o - D * 86400) / 60 - minute_of w), ((s + o - D * 86400) mod 60).
      pose proof (Z.div_mod (s + o - D * 86400) 60 ltac:(done)). pose proof (Z.mod_pos_bound (s + o - D * 86400) 60 eq_refl).
      unfold wall. destruct (Hsv s) as [-> _]; [lia|]. unfold S in *. split_and!; lia. }
    split_and!.
    + destruct (Z.le_gt_cases now (S * Time.Second)) as [|Hgt]; [done|]. assert (now < S * Time.Second); [|lia]. apply unix_le. unfold S. lia.
    + unfold quiet_at. rewrite <-(Z.add_0_r (S * Time.Second)), unix_at by done. destruct (Hwall S) as (k & sec & Hk & -> & _ & _ & ->); [unfold S; lia| |done].
      rewrite minute_of_parts, Hend by done. by apply end_not_quiet.
    + intros t [Ht1 Ht2]. apply unix_le in Ht2. unfold quiet_at. destruct (Hwall (unix t)) as (k & sec & Hk & -> & Hk0 & Hk1 & _).
      { split; [|lia]. unfold unix. apply Z.div_le_mono; done. }
      rewrite minute_of_parts by done. apply until_end_quiet; [done..|]. specialize (Hk1 Ht2). lia.
  - assert (ReleaseAt q now loc = now) as ->; [|split_and!; [lia|done|lia]].
    unfold ReleaseAt. rewrite He, Hv. cbn [negb orb]. rewrite bool_decide_eq_false_2 by auto. unfold quiet_at in Hq. by rewrite Hq.
Qed.

(** ** Retries *)

(** What came of an attempt: an e-mail, or the push service's answer. *)
Inductive Answer : Type := AMail (sendErr : option error) | APush (status retryAfter : Z) (detail : string).

(** The row after an attempt at [now]. *)
Definition tried (d : deliveryRow) (a : Answer) (now : Z) : deliveryRow :=
  saved (match a with AMail err => record d err now | APush status retryAfter detail => (recordPush d status retryAfter detail now).1 end) d.

(** Attempts, each while the delivery is still owed and not before it is due. *)
Inductive tries : deliveryRow → nat → deliveryRow → Prop :=
| tries_none d : tries d 0 d
| tries_more d k d' a now : tries d k d' → d_Status d' ∈ dueStatuses → d_NextAttemptAt d' <= now → tries d (S k) (tried d' a now).

(** What the delays of the first [k] attempts add up to. *)
Fixpoint waits (k : nat) : Z := match k with O => 0 | S k' => waits k' + backoff (Z.of_nat k) end.

Lemma whole_gt t : t - Time.Second < whole t <= t.
Proof. unfold whole. pose proof (Z.mod_pos_bound t Time.Second eq_refl). lia. Qed.

Lemma whole_add t s : whole (t + s * Time.Second) = whole t + s * Time.Second.
Proof. unfold whole. rewrite Z_mod_plus_full. lia. Qed.

Lemma DATETIME_gt t : t - Time.Second < DATETIME t.
Proof. unfold DATETIME. pose proof (whole_gt (t + 500 * Time.Millisecond)). assert (0 < Time.Millisecond) by done. lia. Qed.

Lemma DATETIME_whole t : DATETIME (whole t) = whole t.
Proof.
  unfold DATETIME, whole. set (s := t - t mod Time.Second). assert (s mod Time.Second = 0) as Hs by (unfold s; by rewrite Zminus_mod_idemp_r, Z.sub_diag).
  rewrite (Z.add_mod s) by done. rewrite Hs. change ((0 + (500 * Time.Millisecond) mod Time.Second) mod Time.Second) with (500 * Time.Millisecond). lia.
Qed.

Lemma DATETIME_idemp t : DATETIME (DATETIME t) = DATETIME t.
Proof. unfold DATETIME at 2 3. apply DATETIME_whole. Qed.

(** A retry waits, and only while the delivery lives. *)
Lemma tried_due d a now : d_Status (tried d a now) ∈ dueStatuses →
  now + backoff (d_Attempts d + 1) < d_ExpiresAt d ∧ now + backoff (d_Attempts d + 1) - 2 * Time.Second < d_NextAttemptAt (tried d a now) ∧
  d_Attempts (tried d a now) = d_Attempts d + 1 ∧ d_ExpiresAt (tried d a now) = DATETIME (d_ExpiresAt d).
Proof.
  assert (∀ x : dstatus, x ∈ dueStatuses ↔ x = statusPending ∨ x = statusHeld) as Hst by (intros x; unfold dueStatuses; set_solver).
  rewrite Hst. assert (0 < Time.Second) as Hsec by done. destruct a as [[err|]|status retryAfter detail]; cbn; [| |].
  - unfold record. destruct (errors_Is _ _); [by intros [|]|]. unfold Time.Before.
    destruct (Z.ltb_spec (now + backoff (d_Attempts d + 1)) (d_ExpiresAt d)); [|by intros [|]]. intros _. cbn.
    pose proof (DATETIME_gt (now + backoff (d_Attempts d + 1))). split_and!; [done|lia|done..].
  - by intros [|].
  - unfold recordPush. destruct (classify status); cbn; [by intros [|]..| |by intros [|]]. unfold Time.Before.
    destruct (Z.ltb_spec (now + Z.max retryAfter (backoff (d_Attempts d + 1))) (d_ExpiresAt d)); [|by intros [|]]. intros _. cbn.
    rewrite DATETIME_whole. pose proof (whole_gt (now + Z.max retryAfter (backoff (d_Attempts d + 1)))). split_and!; [lia|lia|done..].
Qed.

Lemma tries_spread d k d' : tries d k d' → d_Attempts d = 0 → DATETIME (d_ExpiresAt d) = d_ExpiresAt d → d_Status d' ∈ dueStatuses →
  d_Attempts d' = Z.of_nat k ∧ d_ExpiresAt d' = d_ExpiresAt d ∧ d_NextAttemptAt d + waits k - 2 * Z.of_nat k * Time.Second <= d_NextAttemptAt d' ∧
  (k ≠ 0%nat → d_NextAttemptAt d + waits k - 2 * (Z.of_nat k - 1) * Time.Second < d_ExpiresAt d).
Proof.
  intros H Ha He. induction H as [|d k d' a now H IH Hs Hn]; [intros _; cbn; split_and!; [done|done|lia|done]|].
  intros (H1 & H2 & H3 & H4)%tried_due. destruct (IH Ha He Hs) as (Ek & Ex & En & _). rewrite Ek, Ex in *. rewrite He in H4.
  change (waits (S k)) with (waits k + backoff (Z.of_nat (S k))). rewrite Nat2Z.inj_succ. unfold Z.succ in *. split_and!; [done..|lia|intros _; lia].
Qed.

(** From an attempt on, each waits an hour. *)
Lemma waits_from j k : (7 <= j <= k)%nat → waits j + Z.of_nat (k - j) * RetryMaxDelay <= waits k.
Proof.
  intros Hk. replace k with (j + (k - j))%nat by lia. generalize (k - j)%nat. intros m. replace (j + m - j)%nat with m by lia.
  induction m as [|m IH]; [rewrite Nat.add_0_r; lia|]. rewrite Nat.add_succ_r. change (waits (S (j + m))) with (waits (j + m) + backoff (Z.of_nat (S (j + m)))).
  assert (backoff (Z.of_nat (S (j + m))) = RetryMaxDelay) as ->; [|lia]. unfold backoff. replace (Z.to_nat (Z.of_nat (S (j + m)) - 1)) with (S (S (S (S (S (S (S (j + m - 7))))))))%nat by lia.
  cbn -[Z.mul Z.ltb RetryBaseDelay RetryMaxDelay]. repeat match goal with |- context [if ?a <? RetryMaxDelay then _ else _] => change (a <? RetryMaxDelay) with true; cbv iota end.
  destruct (j + m - 7)%nat; done.
Qed.

Lemma DATETIME_add t s : DATETIME (t + s * Time.Second) = DATETIME t + s * Time.Second.
Proof. unfold DATETIME. rewrite <-whole_add. f_equal. lia. Qed.

(** A new delivery lives [s] seconds from when it is first due. *)
Definition lives (d : deliveryRow) (s : Z) : Prop :=
  d_Attempts d = 0 ∧ DATETIME (d_ExpiresAt d) = d_ExpiresAt d ∧ d_ExpiresAt d = d_NextAttemptAt d + s * Time.Second.

Lemma lives_stored d s : d_Attempts d = 0 → d_ExpiresAt d = d_NextAttemptAt d + s * Time.Second → lives (stored_delivery d) s.
Proof. intros Ha He. split_and!; [done|apply DATETIME_idemp|]. cbn. by rewrite He, DATETIME_add. Qed.

Lemma newDelivery_lives ch s now rel :
  d_Attempts (newDelivery ch (s * Time.Second) now rel) = 0 ∧
  d_ExpiresAt (newDelivery ch (s * Time.Second) now rel) = d_NextAttemptAt (newDelivery ch (s * Time.Second) now rel) + s * Time.Second.
Proof. unfold newDelivery. by destruct (Time.After _ _). Qed.

Lemma lives_tries d s k d' b : lives d s → tries d k d' → (7 <= b)%nat → s * Time.Second + 2 * (Z.of_nat b - 1) * Time.Second <= waits b → (k <= b)%nat.
Proof.
  intros (Ha & Hx & He) Ht Hb Hw. destruct Ht as [|d k d' a now H Hs Hn]; [lia|]. destruct (decide (k < b)%nat) as [|Hgt]; [lia|]. exfalso.
  destruct (tries_spread d k d' H Ha Hx Hs) as (_ & _ & _ & Hlast). specialize (Hlast ltac:(lia)). pose proof (waits_from b k ltac:(lia)) as Hk.
  assert (2 * Time.Second <= RetryMaxDelay) as H2 by done. assert (0 < Time.Second) by done. nia.
Qed.
