(* ===== verification/NoticeWorkers.v ===== *)
(** * Workers that deliver side by side

    Any number of workers, on any number of machines with one clock, claim, send and save
    as [DeliverDue] and [DeliverPushDue] do, while the other operations write, cancel and
    delete deliveries in between. A send and the saving of its answer end within
    [sendMargin] of the check that let it start. *)

From S2P Require Import Prelude Clock Apperr SignIn Sql Rows Queue Hoare NoticeRules NoticeStore Notices NoticeFacts.

Local Open Scope Z_scope.

(** ** A claim *)

Definition claim_rows (ch : Channel) (now : Z) (limit : nat) (t : NTables) : list (Z * deliveryRow) :=
  due_rows t ch now (contains (take limit (due_rows t ch now (λ _, true)).*1)).

Lemma lease_none leaseUntil t : lease_ids [] leaseUntil t = t.
Proof.
  destruct t as [ns [m nx] ps qs ds ts h o]. unfold lease_ids, set_deliveries. cbn. do 2 f_equal. apply map_eq. intros i.
  rewrite map_lookup_imap. by destruct (m !! i).
Qed.

Lemma elem_of_with_ids {A} (r : rows_of A) ids id a : (id, a) ∈ with_ids r ids ↔ id ∈ ids ∧ ro_rows r !! id = Some a.
Proof.
  unfold with_ids. rewrite list_elem_of_omap. split.
  - intros (x & Hx & E). destruct (ro_rows r !! x) eqn:Ex; [|done]. cbn in E. simplify_eq. by rewrite Ex.
  - intros [Hi E]. exists id. by rewrite E.
Qed.

Lemma elem_of_due_rows t ch now p id d : (id, d) ∈ due_rows t ch now p ↔ ro_rows (deliveries t) !! id = Some d ∧ p id = true ∧ is_due ch now d = true.
Proof.
  unfold due_rows. rewrite stable_sort_perm, elem_of_with_ids. unfold ids_where. rewrite elem_of_select. split.
  - intros ((d' & Hd & [Hp Hi]%andb_true_iff) & Hd'). rewrite Hd' in Hd. simplify_eq. done.
  - intros (Hd & Hp & Hi). split; [|done]. exists d. by rewrite Hp, Hi.
Qed.

(** Without candidates there is nothing to lock. *)
Lemma claim_nothing ch now limit t : take limit (due_rows t ch now (λ _, true)).*1 = [] → claim_rows ch now limit t = [].
Proof. intros E. apply elem_of_nil_inv. intros [id d] (_ & H & _)%elem_of_due_rows. by rewrite E in H. Qed.

Lemma claimDue_effect out ch now leaseUntil limit : effect (claimDue out ch now leaseUntil limit)
  (λ t, ((λ r : Z * deliveryRow, leased leaseUntil r.2) <$> claim_rows ch now limit t, lease_ids (claim_rows ch now limit t).*1 leaseUntil t)).
Proof.
  set (body := λ t, (claim_rows ch now limit t, lease_ids (claim_rows ch now limit t).*1 leaseUntil t)). intros e. unfold claimDue.
  match goal with |- context [wrapping ?w (Transaction out ?m)] => assert (effect (wrapping w (Transaction out m)) body) as H end.
  { apply wrapping_effect, Transaction_effect. intros e0 a e1. unfold query, exec, statement, mbind, stM_bind.
    destruct (fault out (moment e0)); [by intros [=]|]. cbn [tables moment]. destruct (take limit _) as [|c cs] eqn:Ec.
    - intros [= <- <-]. unfold body. cbn. rewrite (claim_nothing _ _ _ _ Ec). cbn. by rewrite lease_none.
    - cbn [tables moment]. destruct (fault out (S (moment e0))); [by intros [=]|]. cbn [tables moment]. unfold body, claim_rows. rewrite Ec.
      destruct (due_rows _ _ _ (contains (c :: cs))) as [|r rs]; [intros [= <- <-]; cbn; by rewrite lease_none|].
      cbn [tables moment]. destruct (fault out (S (S (moment e0)))); [by intros [=]|]. by intros [= <- <-]. }
  unfold mbind, stM_bind. destruct (H e) as [(err & E1 & E2)|(E1 & E2)]; destruct (wrapping _ _ _) as [[a|err'] e']; cbn in E1; simplify_eq; [left|right].
  - by eexists.
  - by cbn.
Qed.

(** ** Steps *)

(** What a worker holds: until when, what it has yet to start, and what it is sending
    since when. *)
Record Held : Type := mkHeld { h_lease : Z; h_todo : list Z; h_sending : option (list Z * Z) }.
Record World : Type := mkWorld { w_time : Z; w_tables : NTables; w_workers : gmap nat Held }.

Definition in_flight (h : Held) (id : Z) : Prop := ∃ ids since, h_sending h = Some (ids, since) ∧ id ∈ ids.
Definition holds (h : Held) (id : Z) : Prop := id ∈ h_todo h ∨ in_flight h id.

Definition due_row (t : NTables) (id : Z) (d : deliveryRow) : Prop := ro_rows (deliveries t) !! id = Some d ∧ d_Status d ∈ dueStatuses.

(** What the other operations do to the deliveries: a new one has a new id, one that is
    still due is due when it was. *)
Definition others (t t' : NTables) : Prop :=
  ids_used (deliveries t') ∧
  ro_next (deliveries t) <= ro_next (deliveries t') ∧
  ∀ id d', due_row t' id d' → (∃ d, due_row t id d ∧ d_NextAttemptAt d' = d_NextAttemptAt d) ∨ ro_next (deliveries t) <= id < ro_next (deliveries t').

Inductive wstep : World → World → Prop :=
| WTime now w : w_time w <= now →
    (∀ i h ids since, w_workers w !! i = Some h → h_sending h = Some (ids, since) → now <= since + sendMargin) →
    wstep w (mkWorld now (w_tables w) (w_workers w))
| WClaim i ch w : w_workers w !! i = None →
    let now := whole (w_time w) in let leaseUntil := now + NoticeRules.claimLease in
    let rows := claim_rows ch now deliveryBatch (w_tables w) in
    wstep w (mkWorld (w_time w) (lease_ids rows.*1 leaseUntil (w_tables w)) (<[i := mkHeld leaseUntil rows.*1 None]> (w_workers w)))
| WStart i h ids w : w_workers w !! i = Some h → h_sending h = None → canStartSend (h_lease h) (w_time w) = true → (∀ id, id ∈ ids → id ∈ h_todo h) →
    wstep w (mkWorld (w_time w) (w_tables w)
      (<[i := mkHeld (h_lease h) (List.filter (λ id, negb (contains ids id)) (h_todo h)) (Some (ids, w_time w))]> (w_workers w)))
| WSave i h ids since d w : w_workers w !! i = Some h → h_sending h = Some (ids, since) → d_ID d ∈ ids →
    wstep w (mkWorld (w_time w) (save_row d (w_tables w)).2
      (<[i := mkHeld (h_lease h) (h_todo h) (Some (List.filter (λ id, negb (id =? d_ID d)) ids, since))]> (w_workers w)))
| WDone i h ids since w : w_workers w !! i = Some h → h_sending h = Some (ids, since) →
    wstep w (mkWorld (w_time w) (w_tables w) (<[i := mkHeld (h_lease h) (h_todo h) None]> (w_workers w)))
| WLeave i h w : w_workers w !! i = Some h → h_sending h = None → wstep w (mkWorld (w_time w) (w_tables w) (delete i (w_workers w)))
| WOthers t w : others (w_tables w) t → wstep w (mkWorld (w_time w) t (w_workers w)).

(** ** The invariant *)

Record orderly (w : World) : Prop := mkOrderly {
  (** what is held was claimed, and is not due before the lease runs out *)
  or_kept : ∀ i h id, w_workers w !! i = Some h → holds h id → id < ro_next (deliveries (w_tables w)) ∧
    (h_lease h <= w_time w ∨ ∀ d, due_row (w_tables w) id d → h_lease h <= d_NextAttemptAt d);
  or_apart : ∀ i j h k id, w_workers w !! i = Some h → w_workers w !! j = Some k → i ≠ j → holds h id → holds k id → h_lease h <= w_time w ∨ h_lease k <= w_time w;
  or_flight : ∀ i h ids since, w_workers w !! i = Some h → h_sending h = Some (ids, since) → since <= w_time w <= since + sendMargin ∧ since + sendMargin < h_lease h;
  or_split : ∀ i h id, w_workers w !! i = Some h → id ∈ h_todo h → ~ in_flight h id;
  or_used : ids_used (deliveries (w_tables w))
}.

Lemma whole_before t : whole t <= t.
Proof. unfold whole. pose proof (Z.mod_pos_bound t Time.Second eq_refl). lia. Qed.

(** A worker that holds no more than before. *)
Lemma orderly_less w i h h' t : orderly w → w_workers w !! i = Some h → h_lease h' = h_lease h → (∀ id, holds h' id → holds h id) →
  (∀ id, id ∈ h_todo h' → ~ in_flight h' id) →
  (∀ ids since, h_sending h' = Some (ids, since) → since <= w_time w <= since + sendMargin ∧ since + sendMargin < h_lease h) →
  (ids_used (deliveries t) ∧ ro_next (deliveries t) = ro_next (deliveries (w_tables w))) →
  (∀ j k id d', w_workers w !! j = Some k → due_row t id d' → (∃ d, due_row (w_tables w) id d ∧ d_NextAttemptAt d' = d_NextAttemptAt d) ∨
    (j = i ∧ ~ holds h' id) ∨ h_lease k <= w_time w ∨ ~ holds k id) →
  orderly (mkWorld (w_time w) t (<[i := h']> (w_workers w))).
Proof.
  intros [Hk Ha Hf Hs Hu] Hi Hl Hh Hd Hsend [Hu' Hn] Hdue.
  assert (∀ j k, <[i:=h']> (w_workers w) !! j = Some k → ∃ k0, w_workers w !! j = Some k0 ∧ h_lease k = h_lease k0 ∧ (∀ id, holds k id → holds k0 id)) as Hold.
  { intros j k [[<- <-]|[Hne E]]%lookup_insert_Some; eauto. }
  split; cbn [w_time w_tables w_workers].
  - intros j k id Hj Hid. destruct (Hold j k Hj) as (k0 & Hj0 & El & Hsub). destruct (Hk j k0 id Hj0 (Hsub id Hid)) as [H1 H2]. rewrite Hn, El. split; [done|].
    destruct H2 as [H2|H2]; [by left|]. destruct (Z.le_gt_cases (h_lease k0) (w_time w)) as [|Hgt]; [by left|]. right. intros d' Hd'.
    destruct (Hdue j k0 id d' Hj0 Hd') as [(d & H3 & ->)|[[-> Hn3]|[H3|H3]]]; [by apply H2| |lia|exfalso; by apply H3, Hsub].
    rewrite lookup_insert in Hj. destruct (decide (i = i)); [|done]. by simplify_eq.
  - intros j1 j2 k1 k2 id H1 H2 Hne Hh1 Hh2. destruct (Hold _ _ H1) as (k1' & ? & -> & Hs1), (Hold _ _ H2) as (k2' & ? & -> & Hs2).
    eapply (Ha j1 j2); eauto.
  - intros j k ids since Hj. apply lookup_insert_Some in Hj as [[<- <-]|[_ Hj]]; [rewrite Hl; apply Hsend|by eapply Hf].
  - intros j k id Hj. apply lookup_insert_Some in Hj as [[<- <-]|[_ Hj]]; [apply Hd|by eapply Hs].
  - done.
Qed.

Lemma due_save d t id d' : due_row (save_row d t).2 id d' → id = d_ID d ∨ due_row t id d'.
Proof.
  unfold save_row. destruct (still_due t (d_ID d)); [|by right]. intros [H Hs]. cbn in H.
  apply lookup_alter_Some in H as [(-> & _)|[_ H]]; [by left|by right].
Qed.

Lemma save_used d t : ids_used (deliveries t) → ids_used (deliveries (save_row d t).2) ∧ ro_next (deliveries (save_row d t).2) = ro_next (deliveries t).
Proof. intros H. unfold save_row. destruct (still_due _ _); [|done]. split; [by apply ids_used_alter|done]. Qed.

Lemma orderly_start w i h ids : orderly w → w_workers w !! i = Some h → h_sending h = None → canStartSend (h_lease h) (w_time w) = true →
  (∀ id, id ∈ ids → id ∈ h_todo h) →
  orderly (mkWorld (w_time w) (w_tables w)
    (<[i := mkHeld (h_lease h) (List.filter (λ id, negb (contains ids id)) (h_todo h)) (Some (ids, w_time w))]> (w_workers w))).
Proof.
  intros Hw Hi Hn Hc Hsub. apply (orderly_less w i h _ _ Hw Hi); [done|..].
  - intros id [[H _]%list_elem_of_In%filter_In|(l & s & [= <- <-] & H)]; left; [by apply list_elem_of_In|by apply Hsub].
  - cbn. intros id [_ Hni]%list_elem_of_In%filter_In (l & s & [= <- <-] & H). apply contains_spec in H. by rewrite H in Hni.
  - intros l s [= <- <-]. unfold canStartSend in Hc. apply Z.ltb_lt in Hc. assert (0 < sendMargin) by done. lia.
  - split; [apply Hw|done].
  - intros j k id d' _ Hd'. left. eauto.
Qed.

Lemma orderly_save w i h ids since d : orderly w → w_workers w !! i = Some h → h_sending h = Some (ids, since) → d_ID d ∈ ids →
  orderly (mkWorld (w_time w) (save_row d (w_tables w)).2
    (<[i := mkHeld (h_lease h) (h_todo h) (Some (List.filter (λ id, negb (id =? d_ID d)) ids, since))]> (w_workers w))).
Proof.
  intros Hw Hi Hs Hd. assert (∀ id, id ∈ List.filter (λ id, negb (id =? d_ID d)) ids ↔ id ∈ ids ∧ id ≠ d_ID d) as Hfil.
  { intros id. rewrite list_elem_of_In, filter_In, <-list_elem_of_In, negb_true_iff, Z.eqb_neq. done. }
  assert (in_flight h (d_ID d)) as Hfl by (by exists ids, since). apply (orderly_less w i h _ _ Hw Hi); [done|..].
  - intros id [H|(l & s & [= <- <-] & H)]; [by left|]. right. exists ids, since. split; [done|]. by apply Hfil in H as [? _].
  - cbn. intros id H (l & s & [= <- <-] & [Hl _]%Hfil). apply (or_split _ Hw i h id Hi H). by exists ids, since.
  - intros l s [= <- <-]. by apply (or_flight _ Hw i h ids since).
  - apply save_used, Hw.
  - intros j k id d' Hj Hd'. apply due_save in Hd' as [->|Hd']; [|left; eauto]. right. destruct (decide (j = i)) as [->|Hne].
    + left. split; [done|]. intros [H|(l & s & [= <- <-] & [_ H]%Hfil)]; [|done]. by apply (or_split _ Hw i h (d_ID d) Hi H).
    + right. destruct (Z.le_gt_cases (h_lease k) (w_time w)) as [|Hgt]; [by left|]. right. intros Hh.
      destruct (or_apart _ Hw i j h k (d_ID d)) as [Hle|Hle]; [done..|by right|done| |lia].
      destruct (or_flight _ Hw i h ids since Hi Hs). lia.
Qed.

Lemma lease_ids_lookup ids leaseUntil t id d' : ro_rows (deliveries (lease_ids ids leaseUntil t)) !! id = Some d' →
  ∃ d, ro_rows (deliveries t) !! id = Some d ∧ d_Status d' = d_Status d ∧ d_NextAttemptAt d' = if contains ids id then leaseUntil else d_NextAttemptAt d.
Proof.
  cbn. rewrite map_lookup_imap. destruct (ro_rows (deliveries t) !! id) as [d|]; [|done]. cbn. intros [= <-]. exists d. by destruct (contains ids id).
Qed.

Lemma claim_due_before ch now limit t id : id ∈ (claim_rows ch now limit t).*1 → ∃ d, due_row t id d ∧ d_NextAttemptAt d <= now.
Proof.
  intros ([i d] & -> & (Hd & _ & Hi)%elem_of_due_rows)%list_elem_of_fmap. exists d. unfold is_due in Hi.
  apply andb_true_iff in Hi as [[_ Hc%contains_spec]%andb_true_iff Hn%Z.leb_le]. done.
Qed.

Lemma orderly_claim w i ch : orderly w → w_workers w !! i = None →
  let now := whole (w_time w) in let leaseUntil := now + NoticeRules.claimLease in let rows := claim_rows ch now deliveryBatch (w_tables w) in
  orderly (mkWorld (w_time w) (lease_ids rows.*1 leaseUntil (w_tables w)) (<[i := mkHeld leaseUntil rows.*1 None]> (w_workers w))).
Proof.
  intros Hw Hi now leaseUntil rows. pose proof (whole_before (w_time w)) as Hwh. fold now in Hwh. destruct Hw as [Hk Ha Hf Hs Hu].
  (* whoever held a claimed delivery holds it no longer *)
  assert (∀ j k id, w_workers w !! j = Some k → holds k id → id ∈ rows.*1 → h_lease k <= w_time w) as Hover.
  { intros j k id Hj Hh Hin. destruct (claim_due_before _ _ _ _ _ Hin) as (d & Hd & Hle). destruct (Hk j k id Hj Hh) as [_ [H|H]]; [done|].
    specialize (H d Hd). lia. }
  assert (∀ id, holds (mkHeld leaseUntil rows.*1 None) id → id ∈ rows.*1) as Hnew by (by intros id [H|(? & ? & [=] & _)]).
  split; cbn [w_time w_tables w_workers].
  - intros j k id [[<- <-]|[_ Hj]]%lookup_insert_Some Hh.
    + apply Hnew in Hh. destruct (claim_due_before _ _ _ _ _ Hh) as (d & [Hd _] & _). destruct Hu as [_ Hu]. split; [apply Hu in Hd; cbn; lia|].
      right. intros d' [(d0 & _ & _ & ->)%lease_ids_lookup _]. rewrite (proj2 (contains_spec _ _) Hh). cbn. lia.
    + destruct (Hk j k id Hj Hh) as [H1 H2]. split; [done|]. destruct (decide (id ∈ rows.*1)) as [Hin|Hin]; [left; by eapply Hover|].
      destruct H2 as [H2|H2]; [by left|right]. intros d' [(d0 & Hd0 & Est & ->)%lease_ids_lookup Hst]. destruct (contains rows.*1 id) eqn:Ec; [by apply contains_spec in Ec|].
      apply H2. split; [done|by rewrite <-Est].
  - intros j1 j2 k1 k2 id [[<- <-]|[Hn1 H1]]%lookup_insert_Some [[<- <-]|[Hn2 H2]]%lookup_insert_Some Hne Hh1 Hh2; [done|..].
    + right. eapply Hover; [done..|by apply Hnew].
    + left. eapply Hover; [done..|by apply Hnew].
    + by eapply (Ha j1 j2).
  - intros j k ids since [[<- <-]|[_ Hj]]%lookup_insert_Some; [done|by eapply Hf].
  - intros j k id [[<- <-]|[_ Hj]]%lookup_insert_Some; [by intros _ (? & ? & [=] & _)|by eapply Hs].
  - apply (ids_used_changes (λ _ _, True) (deliveries (w_tables w)) _ Hu), (changes_map _ (λ id d, if contains rows.*1 id then leased leaseUntil d else d)). done.
Qed.

Lemma orderly_others w t : orderly w → others (w_tables w) t → orderly (mkWorld (w_time w) t (w_workers w)).
Proof.
  intros [Hk Ha Hf Hs Hu] (Hu' & Hn & Ho). split; [|done..]. cbn. intros i h id Hi Hh. destruct (Hk i h id Hi Hh) as [H1 H2]. split; [lia|].
  destruct H2 as [H2|H2]; [by left|right]. intros d' Hd'. destruct (Ho id d' Hd') as [(d & Hd & ->)|?]; [by apply H2|lia].
Qed.

Lemma orderly_time w now : orderly w → w_time w <= now →
  (∀ i h ids since, w_workers w !! i = Some h → h_sending h = Some (ids, since) → now <= since + sendMargin) → orderly (mkWorld now (w_tables w) (w_workers w)).
Proof.
  intros [Hk Ha Hf Hs Hu] Hnow Hm. split; [| | |done..]; cbn.
  - intros i h id Hi Hh. destruct (Hk i h id Hi Hh) as [H1 [H2|H2]]; [|by auto]. split; [done|left; lia].
  - intros i j h k id Hi Hj Hne Hh Hk'. destruct (Ha i j h k id Hi Hj Hne Hh Hk'); [left; lia|right; lia].
  - intros i h ids since Hi Hsd. destruct (Hf i h ids since Hi Hsd). specialize (Hm i h ids since Hi Hsd). lia.
Qed.

Lemma orderly_leave w i : orderly w → orderly (mkWorld (w_time w) (w_tables w) (delete i (w_workers w))).
Proof.
  intros [Hk Ha Hf Hs Hu]. split; [..|done]; cbn.
  - intros j k id [_ Hj]%lookup_delete_Some. by apply (Hk j).
  - intros j1 j2 k1 k2 id [_ H1]%lookup_delete_Some [_ H2]%lookup_delete_Some. by apply (Ha j1 j2).
  - intros j k ids since [_ Hj]%lookup_delete_Some. by apply (Hf j).
  - intros j k id [_ Hj]%lookup_delete_Some. by apply (Hs j).
Qed.

Lemma orderly_done w i h : orderly w → w_workers w !! i = Some h → orderly (mkWorld (w_time w) (w_tables w) (<[i := mkHeld (h_lease h) (h_todo h) None]> (w_workers w))).
Proof.
  intros Hw Hi. apply (orderly_less w i h _ _ Hw Hi); [done|..].
  - intros id [H|(? & ? & [=] & _)]. by left.
  - by intros id _ (? & ? & [=] & _).
  - by intros l s [=].
  - split; [apply Hw|done].
  - intros j k id d' _ Hd'. left. eauto.
Qed.

Lemma orderly_step w w' : orderly w → wstep w w' → orderly w'.
Proof.
  intros Hw Hstep.
  destruct Hstep; eauto using orderly_time, orderly_claim, orderly_start, orderly_save, orderly_done, orderly_leave, orderly_others.
Qed.

(** *** The other operations *)

(** Deliveries that are changed in place keep when they are due, or end. *)
Lemma others_changes t r : ids_used (deliveries t) →
  changes (λ d d', d_Status d' ∈ dueStatuses → d_Status d ∈ dueStatuses ∧ d_NextAttemptAt d' = d_NextAttemptAt d) (deliveries t) r → others t (set_deliveries t r).
Proof.
  intros Hu H. split; [by eapply ids_used_changes|]. destruct H as [Hn H]. cbn. split; [lia|]. intros id d' [Hd Hst]. left. destruct (H id d' Hd) as (d & Hd0 & HR).
  destruct (HR Hst) as [Hs E]. by exists d.
Qed.

Lemma others_cancel_owed deviceID reason now t : ids_used (deliveries t) → others t (cancel_owed deviceID reason now t).
Proof.
  intros Hu. apply (others_changes _ _ Hu), changes_fmap. intros d. destruct (owed _ _); [|done]. cbn. by intros [H|[H|H%not_elem_of_nil]%elem_of_cons]%elem_of_cons.
Qed.

Lemma others_prune ids t : ids_used (deliveries t) → others t (set_deliveries t (without_rows ids (deliveries t))).
Proof. intros Hu. by apply (others_changes _ _ Hu), changes_without. Qed.

Lemma others_insert d t : ids_used (deliveries t) → others t (insert_delivery d t).2.
Proof.
  intros Hu. unfold insert_delivery. case_bool_decide as E.
  - split; [done|]. split; [done|]. intros id d' Hd. left. eauto.
  - split; [by apply ids_used_insert|]. cbn. split; [lia|]. intros id d' [Hd Hs]. cbn in Hd. apply lookup_insert_Some in Hd as [[<- _]|[_ Hd]]; [right; lia|].
    left. by exists d'.
Qed.

(** ** The e-mail worker runs by these steps *)

Section Refines.
Variable out : Outside.
Variable people : nat → list Z → result (list Account).
Variable n : Notices.
Context (monotone : ∀ k, clock out k <= clock out (S k)).
(** From the check to the saved answer, eight outside events, it takes at most the margin. *)
Context (prompt : ∀ k j, (j <= 8)%nat → clock out (k + j) <= clock out k + sendMargin).

Lemma clock_le k j : (k <= j)%nat → clock out k <= clock out j.
Proof. intros H. induction H as [|j H IH]; [done|]. pose proof (monotone j). lia. Qed.

(** Steps that leave the deliveries, and take at most [j] outside events. *)
Definition looks {A} (m : stM (Env NTables) error A) (j : nat) : Prop :=
  ∀ e, deliveries (tables (m e).2) = deliveries (tables e) ∧ (moment e <= moment (m e).2 <= moment e + j)%nat.

Lemma looks_bind {A B} (m : stM (Env NTables) error A) (f : A → stM (Env NTables) error B) j k : looks m j → (∀ a, looks (f a) k) → looks (m ≫= f) (j + k).
Proof.
  intros Hm Hf e. destruct (Hm e) as [E1 E2]. unfold mbind, stM_bind. destruct (m e) as [[a|err] e1]; cbn in *; [|split; [done|lia]].
  destruct (Hf a e1) as [F1 F2]. split; [congruence|lia].
Qed.

Lemma looks_query {A} (f : NTables → A) : looks (query out f) 1.
Proof. intros e. unfold query, statement. destruct (fault _ _); cbn; split; (done || lia). Qed.
Lemma looks_ask {A} (f : nat → result A) : looks (ask f) 1.
Proof. intros e. cbn. split; (done || lia). Qed.
Lemma looks_Now : looks (Now out) 1.
Proof. intros e. cbn. split; (done || lia). Qed.
Lemma looks_ret {A} (a : A) : looks (mret a) 0.
Proof. intros e. cbn. split; (done || lia). Qed.
Lemma looks_wrapping {A} what (m : stM (Env NTables) error A) j : looks m j → looks (wrapping what m) j.
Proof. intros H e. specialize (H e). unfold wrapping. by destruct (m e) as [[]]. Qed.
Lemma looks_attempt {A} (m : stM (Env NTables) error A) j : looks m j → looks (attempt m) j.
Proof. intros H e. specialize (H e). unfold attempt. by destruct (m e) as [[]]. Qed.
Lemma looks_note f : (∀ t, deliveries (f t) = deliveries t) → looks (note_ f) 0.
Proof. intros H e. cbn. split; [apply H|lia]. Qed.

(** A step that reads, and then saves a delivery at most once. *)
Definition saves_once (m : stM (Env NTables) error ()) (id : Z) (j : nat) : Prop :=
  ∀ e, ∃ t1, deliveries t1 = deliveries (tables e) ∧ (moment e <= moment (m e).2 <= moment e + j)%nat ∧
    (tables (m e).2 = t1 ∨ ∃ d, d_ID d = id ∧ tables (m e).2 = (save_row d t1).2).

Lemma saves_finish d j : (1 <= j)%nat → saves_once (finish out d) (d_ID d) j.
Proof.
  intros Hj e. exists (tables e). split; [done|]. unfold finish, saveDelivery, mbind, stM_bind, wrapping, statement.
  destruct (fault out (moment e)); cbn; [split; [lia|by left]|]. destruct (save_row d (tables e)) as [b t] eqn:E. cbn. split; [lia|]. right. exists d. by rewrite E.
Qed.

Lemma saves_bind {A} (m : stM (Env NTables) error A) f id j k : looks m j → (∀ a, saves_once (f a) id k) → saves_once (m ≫= f) id (j + k).
Proof.
  intros Hm Hf e. destruct (Hm e) as [E1 E2]. unfold mbind, stM_bind. destruct (m e) as [[a|err] e1]; cbn in *.
  - destruct (Hf a e1) as (t1 & F1 & F2 & F3). exists t1. split; [congruence|]. split; [lia|done].
  - exists (tables e1). split; [done|]. split; [lia|by left].
Qed.

Lemma saves_throw err id j : saves_once (throw err) id j.
Proof. intros e. exists (tables e). cbn. split; [done|]. split; [lia|by left]. Qed.

Lemma saves_deliver m d : saves_once (deliver out people n m d) (d_ID d) 7.
Proof.
  unfold deliver. apply (saves_bind _ _ _ 1 6); [apply looks_wrapping, looks_query|]. intros [r|].
  - destruct (bool_decide _); [apply (saves_bind _ _ _ 1 5); [apply looks_Now|]; intros now; apply (saves_finish (cancel d _ now)); lia|].
    apply (saves_bind _ _ _ 1 5); [apply looks_wrapping, looks_ask|]. intros found. destruct (d_Address d) as [address|]; [|apply saves_throw].
    apply (saves_bind _ _ _ 2 3).
    + unfold sendEmail. apply (looks_bind _ _ 1 1); [apply looks_attempt, looks_ask|]. intros [text|err].
      * apply (looks_bind _ _ 0 1); [by apply looks_note|]. intros _. apply looks_ask.
      * intros e. cbn. split; (done || lia).
    + intros err. apply (saves_bind _ _ _ 1 2); [apply looks_Now|]. intros now. assert (d_ID (record d err now) = d_ID d) as <-; [|apply saves_finish; lia].
      unfold record. destruct err; [|done]. destruct (errors_Is _ _); [done|]. by destruct (negb _).
  - apply (saves_bind _ _ _ 1 5); [apply looks_Now|]. intros now. apply (saves_finish (cancel d _ now)). lia.
Qed.

(** The world of one worker [i] at a time that has come. *)
Notation world i h e := (mkWorld (clock out (moment e)) (tables e) (<[i := h]> ∅)).

Lemma step_clock i h e k : (moment e <= k)%nat → h_sending h = None → wstep (world i h e) (mkWorld (clock out k) (tables e) (<[i := h]> ∅)).
Proof.
  intros Hk Hn. pose proof (WTime (clock out k) (world i h e)) as H. cbn in H. apply H; [by apply clock_le|]. clear H. intros j k' ids since [[_ <-]|[_ H]]%lookup_insert_Some E; [congruence|by rewrite lookup_empty in H].
Qed.

(** One delivery: it is started, sent, saved at most once, and done. *)
Lemma steps_deliver i m d leaseUntil todo e : d_ID d ∈ todo → ids_used (deliveries (tables e)) → canStartSend leaseUntil (clock out (moment e)) = true →
  ∃ e', (deliver out people n m d (passed e)).2 = e' ∧ (moment e <= moment e')%nat ∧ ids_used (deliveries (tables e')) ∧
    rtc wstep (world i (mkHeld leaseUntil todo None) e)
      (mkWorld (clock out (moment e')) (tables e') (<[i := mkHeld leaseUntil (List.filter (λ id, negb (contains [d_ID d] id)) todo) None]> ∅)).
Proof.
  intros Hin Hu Hc. destruct (saves_deliver m d (passed e)) as (t1 & E1 & E2 & E3). set (e' := (deliver out people n m d (passed e)).2) in *. cbn in E1, E2.
  set (rest := List.filter _ todo). set (since := clock out (moment e)). exists e'. split; [done|]. split; [lia|].
  assert (∀ j h (w : gmap nat Held), <[i := h]> (<[i := j]> w) = <[i := h]> w) as Hii by (intros; apply insert_insert_eq).
  assert (w_workers (mkWorld since t1 (<[i := mkHeld leaseUntil rest (Some ([d_ID d], since))]> ∅)) !! i = Some (mkHeld leaseUntil rest (Some ([d_ID d], since)))) as Hi by (cbn; by rewrite lookup_insert_eq).
  (* start, the reads, the time *)
  assert (rtc wstep (world i (mkHeld leaseUntil todo None) e)
    (mkWorld (clock out (moment e')) t1 (<[i := mkHeld leaseUntil rest (Some ([d_ID d], since))]> ∅))) as Hrun.
  { eapply rtc_l; [|eapply rtc_l; [|apply rtc_once]].
    - pose proof (WStart i (mkHeld leaseUntil todo None) [d_ID d] (world i (mkHeld leaseUntil todo None) e)) as H. cbn in H. rewrite Hii in H.
      apply H; [by rewrite lookup_insert_eq|done|done|]. by intros id ->%list_elem_of_singleton.
    - match goal with |- wstep ?w _ => pose proof (WOthers t1 w) as H end. cbn [w_time w_tables w_workers] in H. apply H. unfold others. rewrite E1. split; [done|]. split; [done|]. intros id d' [Hd Hs]. left. exists d'. unfold due_row. by rewrite <-E1.
    - match goal with |- wstep ?w _ => pose proof (WTime (clock out (moment e')) w) as H end. cbn [w_time w_tables w_workers] in H. apply H; [apply clock_le; lia|]. clear H. intros j k ids s [[<- <-]|[_ H]]%lookup_insert_Some; [|by rewrite lookup_empty in H].
      cbn. intros [= <- <-]. replace (moment e') with (moment e + (moment e' - moment e))%nat by lia. apply prompt. lia. }
  destruct E3 as [E3|(d' & Ed & E3)].
  - split; [by rewrite E3, E1|]. etrans; [exact Hrun|]. rewrite E3. apply rtc_once.
    pose proof (WDone i _ [d_ID d] since (mkWorld (clock out (moment e')) t1 (<[i := mkHeld leaseUntil rest (Some ([d_ID d], since))]> ∅)) Hi eq_refl) as H. cbn in H. by rewrite Hii in H.
  - split; [rewrite E3; apply save_used; by rewrite E1|]. etrans; [exact Hrun|]. rewrite E3.
    pose proof (WSave i _ [d_ID d] since d' (mkWorld (clock out (moment e')) t1 (<[i := mkHeld leaseUntil rest (Some ([d_ID d], since))]> ∅)) Hi eq_refl) as H. cbn [h_lease h_todo] in H.
    eapply rtc_l; [apply H; rewrite Ed; left|]. cbn [w_time w_tables w_workers]. rewrite Hii. apply rtc_once.
    match goal with |- wstep ?w _ => pose proof (WDone i (mkHeld leaseUntil rest (Some (List.filter (λ id, negb (id =? d_ID d')) [d_ID d], since))) (List.filter (λ id, negb (id =? d_ID d')) [d_ID d]) since w) as H' end.
    cbn [w_time w_tables w_workers h_lease h_todo h_sending] in H'. rewrite Hii in H'. eapply H'; [by rewrite lookup_insert_eq|done].
Qed.

Lemma deliver_loop_end m leaseUntil d due e : (deliver_loop out people n m leaseUntil (d :: due) e).2 =
  if cancelled out (moment e) then passed e
  else if negb (canStartSend leaseUntil (clock out (S (moment e)))) then passed (passed e)
  else (deliver_loop out people n m leaseUntil due (deliver out people n m d (passed (passed e))).2).2.
Proof.
  cbn [deliver_loop]. unfold mbind, stM_bind, ended, Done, Now, attempt. destruct (cancelled out (moment e)); [done|]. cbn [passed moment].
  destruct (negb _); [done|]. fold (passed e). destruct (deliver out people n m d _) as [r e1]. cbn. by destruct (deliver_loop out people n m leaseUntil due e1) as [[]].
Qed.

(** The loop over what was claimed, and the end of the run. *)
Lemma steps_loop i m leaseUntil due todo e : NoDup (d_ID <$> due) → (∀ d, d ∈ due → d_ID d ∈ todo) → ids_used (deliveries (tables e)) →
  rtc wstep (world i (mkHeld leaseUntil todo None) e)
    (mkWorld (clock out (moment (deliver_loop out people n m leaseUntil due e).2)) (tables (deliver_loop out people n m leaseUntil due e).2) ∅).
Proof.
  assert (∀ todo e k, (moment e <= k)%nat → rtc wstep (world i (mkHeld leaseUntil todo None) e) (mkWorld (clock out k) (tables e) ∅)) as Hleave.
  { intros l e0 k Hk. eapply rtc_l; [by apply (step_clock i _ e0 k)|]. apply rtc_once.
    match goal with |- wstep ?w _ => pose proof (WLeave i (mkHeld leaseUntil l None) w) as H end. cbn [w_time w_tables w_workers] in H.
    rewrite delete_insert_eq, delete_empty in H. apply H; [by rewrite lookup_insert_eq|done]. }
  revert todo e. induction due as [|d due IH]; intros todo e Hnd Hin Hu; [by apply Hleave|]. rewrite deliver_loop_end.
  destruct (cancelled out (moment e)); [apply (Hleave todo e); cbn; lia|].
  destruct (canStartSend leaseUntil (clock out (S (moment e)))) eqn:Hc; cbn [negb]; [|apply (Hleave todo e); cbn; lia].
  apply list.NoDup_cons in Hnd as [Hd Hnd]. etrans; [apply rtc_once, (step_clock i _ e (S (moment e))); [lia|done]|].
  destruct (steps_deliver i m d leaseUntil todo (passed e)) as (e' & -> & _ & Hu' & Hrun); [apply Hin; left|done|done|]. etrans; [exact Hrun|].
  apply IH; [done| |done]. intros x Hx. apply list_elem_of_In, filter_In. split; [apply list_elem_of_In, Hin; by right|].
  apply negb_true_iff. destruct (contains [d_ID d] (d_ID x)) eqn:E; [|done]. apply contains_spec, list_elem_of_singleton in E. destruct Hd. rewrite <-E.
  by apply list_elem_of_fmap_2.
Qed.

Lemma claimDue_moment ch now leaseUntil limit e : (moment e <= moment (claimDue out ch now leaseUntil limit e).2)%nat.
Proof.
  unfold claimDue, mbind, stM_bind, wrapping, Transaction, query, exec, statement. destruct (fault out (moment e)); cbn; [lia|].
  destruct (take _ _) as [|c cs]; cbn; [destruct (fault _ _); cbn; lia|]. destruct (fault _ _); cbn; [lia|].
  destruct (due_rows _ _ _ _) as [|r rs]; cbn; [destruct (fault _ _); cbn; lia|]. destruct (fault _ _); cbn; [lia|]. destruct (fault _ _); cbn; lia.
Qed.

Lemma with_ids_fst {A} (r : rows_of A) ids : NoDup ids → NoDup (with_ids r ids).*1.
Proof.
  intros H. assert ((with_ids r ids).*1 `sublist_of` ids) as Hsub; [|by eapply sublist_NoDup]. induction ids as [|i ids IH]; [done|].
  unfold with_ids. rewrite omap_cons. apply list.NoDup_cons in H as [_ H]. destruct (ro_rows r !! i); cbn; [apply sublist_skip|apply sublist_cons]; by apply IH.
Qed.

Lemma claim_rows_NoDup ch now limit t : NoDup (claim_rows ch now limit t).*1.
Proof. unfold claim_rows, due_rows. rewrite stable_sort_perm. apply with_ids_fst, NoDup_select. Qed.

(** A run of the e-mail worker is a run of these steps. *)
Lemma DeliverDue_steps e : sound (tables e) →
  rtc wstep (mkWorld (clock out (moment e)) (tables e) ∅)
    (mkWorld (clock out (moment (DeliverDue out people n e).2)) (tables (DeliverDue out people n e).2) ∅).
Proof.
  intros Hs. unfold DeliverDue. destruct (nt_mail n) as [m|]; [|by apply rtc_refl]. unfold mbind, stM_bind, Now. cbn [fst snd].
  set (now := whole (clock out (moment e))). set (leaseUntil := now + NoticeRules.claimLease).
  pose proof (claimDue_moment ChannelEmail now leaseUntil deliveryBatch (passed e)) as Hm. pose proof (claimDue_effect out ChannelEmail now leaseUntil deliveryBatch (passed e)) as He.
  destruct (claimDue out ChannelEmail now leaseUntil deliveryBatch (passed e)) as [r e1]. cbn [fst snd passed tables moment] in *.
  destruct He as [(err & -> & Et)|[-> Et]].
  - cbn. rewrite Et. apply rtc_once. apply (WTime (clock out (moment e1)) (mkWorld (clock out (moment e)) (tables e) ∅)); [cbn; apply clock_le; lia|].
    cbn. intros i h ids since H. by rewrite lookup_empty in H.
  - set (rows := claim_rows ChannelEmail now deliveryBatch (tables e)) in *. set (due := (λ r : Z * deliveryRow, leased leaseUntil r.2) <$> rows).
    assert (d_ID <$> due = rows.*1) as Eids.
    { unfold due. rewrite <-list_fmap_compose. apply list_fmap_ext. intros i [id d] Hi%list_elem_of_lookup_2. apply elem_of_due_rows in Hi as (Hd & _). by destruct (so_of _ Hs id d Hd). }
    assert (ids_used (deliveries (tables e1))) as Hu by (rewrite Et; apply (so_deliveries _ (sound_lease _ _ _ Hs))).
    etrans; [apply rtc_once, (WClaim 0 ChannelEmail (mkWorld (clock out (moment e)) (tables e) ∅)); done|]. cbn [w_time w_tables w_workers]. fold now leaseUntil rows. rewrite <-Et.
    etrans; [apply rtc_once; match goal with |- wstep ?w _ => pose proof (WTime (clock out (moment e1)) w) as H end; cbn [w_time w_tables w_workers] in H; apply H|].
    + apply clock_le. lia.
    + intros i h ids since [[_ <-]|[_ H1]]%lookup_insert_Some; [done|by rewrite lookup_empty in H1].
    + pose proof (steps_loop 0 m leaseUntil due rows.*1 e1) as H. destruct (deliver_loop out people n m leaseUntil due e1) as [[errs|err] e2]; cbn in *;
        (apply H; [rewrite Eids; apply claim_rows_NoDup|intros d Hd; rewrite <-Eids; by apply list_elem_of_fmap_2|done]).
Qed.
End Refines.

(** * What the workers send, and to whom

    Everything a worker hands to the mail server or the push service is a delivery that
    was due, of a notification its person has not read, to the address it was planned for
    or to a device of that person that is not disabled. *)

Section Deliver.
Variable out : Outside.
Variable people : nat → list Z → result (list Account).
Variable MarshalPayload : pushPayload → result string.
Variable n : Notices.
Notation M := (stM (Env NTables) error).
(** The tables when the worker starts. *)
Variable t0 : NTables.

(** A notification its person has not read. *)
Definition unread_note (id : Z) (r : noteRow) : Prop := ro_rows (notes t0) !! id = Some r ∧ n_ReadAt r = None.

(** A delivery on a channel that is owed. *)
Definition owed_on (ch : Channel) (id : Z) (d : deliveryRow) : Prop :=
  ro_rows (deliveries t0) !! id = Some d ∧ d_Channel d = ch ∧ d_Status d ∈ dueStatuses.

Definition rightful (o : Outgoing) : Prop :=
  match o with
  | OMail id address => ∃ d r, owed_on ChannelEmail id d ∧ d_Address d = Some address ∧ unread_note (d_NotificationID d) r
  | OPush device person ids => (∃ v, ro_rows (devices t0) !! device = Some v ∧ v_UserID v = person ∧ v_DisabledAt v = None) ∧
      ∀ id, id ∈ ids → ∃ d r, owed_on ChannelPush id d ∧ d_DeviceID d = device ∧ unread_note (d_NotificationID d) r ∧ n_UserID r = person
  end.

(** What a worker does to a device: it stays its person's, and is not enabled again. *)
Definition device_kept (v v' : deviceRow) : Prop := v_UserID v' = v_UserID v ∧ (v_DisabledAt v' = None → v_DisabledAt v = None).

Definition working (t : NTables) : Prop :=
  notes t = notes t0 ∧ changes device_kept (devices t0) (devices t) ∧ ∃ new, outgoing t = outgoing t0 ++ new ∧ Forall rightful new.

Lemma device_kept_refl v : device_kept v v.
Proof. done. Qed.

Lemma working_start : working t0.
Proof.
  split; [done|]. split; [split; [done|]; intros i v Hv; exists v; by split; [|apply device_kept_refl]|]. exists []. split; [by rewrite app_nil_r|constructor].
Qed.

Lemma working_same t t' : notes t' = notes t → devices t' = devices t → outgoing t' = outgoing t → working t → working t'.
Proof. intros En Ed Eo H. unfold working. by rewrite En, Ed, Eo. Qed.

Lemma working_devices t r : working t → changes device_kept (devices t) r → working (set_devices t r).
Proof.
  intros (Hn & [Hd1 Hd2] & Ho) [H1 H2]. split; [done|]. split; [|done]. split; [cbn; congruence|]. cbn. intros i v Hv.
  destruct (H2 i v Hv) as (v1 & Hv1 & E1 & E2). destruct (Hd2 i v1 Hv1) as (v0 & Hv0 & F1 & F2). exists v0. split; [done|]. split; [congruence|auto].
Qed.

Lemma preserves_working_exec (f : NTables → NTables) : (∀ t, notes (f t) = notes t ∧ devices (f t) = devices t ∧ outgoing (f t) = outgoing t) → preserves working (exec out f).
Proof. intros H. apply preserves_exec. intros t Ht. destruct (H t) as (? & ? & ?). by eapply working_same. Qed.

Lemma preserves_working_device f id : (∀ v, device_kept v (f v)) → preserves working (exec out (λ t, set_devices t (alter_row f id (devices t)))).
Proof. intros Hf. apply preserves_exec. intros t Ht. apply (working_devices _ _ Ht). by apply changes_alter. Qed.

Lemma preserves_working_save d : preserves working (saveDelivery out d).
Proof.
  unfold saveDelivery. keep. apply preserves_statement. intros t Ht. unfold save_row. destruct (still_due _ _); [|done]. by eapply working_same.
Qed.

Lemma preserves_working_finish d : preserves working (finish out d).
Proof. unfold finish. apply preserves_bind; [apply preserves_working_save|]. intros b. keep. Qed.

Lemma preserves_working_ended : preserves working (ended out).
Proof. by intros e He. Qed.
Hint Resolve preserves_working_save preserves_working_finish preserves_working_ended : preserving.

Lemma preserves_working_cancel id reason now : preserves working (cancelPushOfDevice out id reason now).
Proof. by apply preserves_working_exec. Qed.
Hint Resolve preserves_working_cancel : preserving.

Lemma preserves_working_failed id now : preserves working (pushFailed out id now).
Proof.
  unfold pushFailed. keep; [by apply preserves_working_device|]. apply preserves_statement. intros t Ht.
  destruct (ro_rows (devices t) !! id) as [v|]; [|done]. destruct (_ && _); [|done]. apply (working_devices _ _ Ht). by apply changes_alter.
Qed.
Hint Resolve preserves_working_failed : preserving.

Lemma preserves_working_noteOn dev outcome status now : preserves working (noteOnDevice out dev outcome status now).
Proof.
  unfold noteOnDevice, pushSucceeded, dropGoneDevice, cancelPushOf. keep; [by apply preserves_working_device|].
  apply preserves_exec. intros t Ht. apply (working_devices _ _ Ht). by apply changes_without.
Qed.
Hint Resolve preserves_working_noteOn : preserving.

(** *** E-mails *)

(** A claimed delivery: its row, leased. *)
Definition claimed_on (ch : Channel) (d : deliveryRow) : Prop :=
  ∃ d0, owed_on ch (d_ID d) d0 ∧ d_NotificationID d = d_NotificationID d0 ∧ d_Address d = d_Address d0 ∧ d_DeviceID d = d_DeviceID d0.

Lemma h_note_byID id : hoare working (note_byID out id) (λ r t, working t ∧ r = ro_rows (notes t0) !! id) working.
Proof. apply h_wrapping, h_statement; [done|]. intros t Ht. split; [done|]. cbn. by destruct Ht as [-> _]. Qed.

Lemma working_out t o : working t → rightful o → working (set_outgoing t (outgoing t ++ [o])).
Proof.
  intros (Hn & Hd & new & Ho & Hf) H. split; [done|]. split; [done|]. exists (new ++ [o]). cbn. rewrite Ho, app_assoc. split; [done|].
  apply list.Forall_app. split; [done|]. by constructor.
Qed.

Lemma preserves_deliver_mail m d : claimed_on ChannelEmail d → preserves working (deliver out people n m d).
Proof.
  intros (d0 & H0 & En & Ea & _). unfold deliver, Find. eapply h_bind; [apply h_note_byID|]. cbn beta. intros note. apply h_pure_r. intros ->.
  destruct (ro_rows (notes t0) !! d_NotificationID d) as [r|] eqn:Er; [|kept]. case_bool_decide as Hread; [kept|].
  match goal with |- hoare ?I ?m _ _ => change (preserves I m) end. apply preserves_bind; [keep|]. intros found.
  destruct (d_Address d) as [address|] eqn:Ead; [|keep]. apply preserves_bind; [|intros err; keep]. unfold sendEmail. apply preserves_bind; [keep|]. intros [text|err]; [|keep].
  apply preserves_bind; [|intros _; keep]. intros e He. apply working_out; [done|]. exists d0, r. rewrite <-En, <-Ea. split_and!; [done..|].
  by split.
Qed.

Lemma preserves_mail_loop m leaseUntil due : Forall (claimed_on ChannelEmail) due → preserves working (deliver_loop out people n m leaseUntil due).
Proof.
  induction due as [|d due IH]; intros Hd; cbn [deliver_loop]; [keep|]. apply list.Forall_cons in Hd as [Hd Hds]. specialize (IH Hds).
  pose proof (preserves_deliver_mail m d Hd). keep.
Qed.

Lemma h_claimDue ch now leaseUntil limit : sound t0 →
  hoare (λ t, t = t0) (claimDue out ch now leaseUntil limit) (λ due t, working t ∧ Forall (claimed_on ch) due) working.
Proof.
  intros Hs. eapply h_weaken; [exact (h_effect _ _ t0 (claimDue_effect out ch now leaseUntil limit))|done| |].
  - intros due t [= -> ->]. split.
    + eapply (working_same t0); [done..|]. apply working_start.
    + apply list.Forall_fmap, list.Forall_forall. intros [id d] (Hd & _ & Hi)%elem_of_due_rows. unfold is_due in Hi.
      apply andb_true_iff in Hi as [[Hc%bool_decide_eq_true Hst%contains_spec]%andb_true_iff _]. destruct (so_of _ Hs id d Hd) as (Eid & _). cbn. exists d. cbn. by rewrite Eid.
  - intros t ->. apply working_start.
Qed.

Lemma h_DeliverDue : sound t0 → hoare (λ t, t = t0) (DeliverDue out people n) (λ _, working) working.
Proof.
  intros Hs. unfold DeliverDue. destruct (nt_mail n) as [m|]; [|apply h_ret; intros t ->; apply working_start].
  eapply h_bind with (R := λ _ t, t = t0); [by apply h_Now|]. intros now. eapply h_bind; [by apply h_claimDue|]. cbn beta. intros due. apply h_pure_r. intros Hd.
  pose proof (preserves_mail_loop m (whole now + NoticeRules.claimLease) due Hd). kept.
Qed.

(** *** Pushes *)

(** What triage lets through, for a device as it was read. *)
Definition passable (deviceID : Z) (dev : deviceRow) (p : pending) : Prop :=
  claimed_on ChannelPush (pn_delivery p) ∧ d_DeviceID (pn_delivery p) = deviceID ∧ v_DisabledAt dev = None ∧
  ∃ r, unread_note (d_NotificationID (pn_delivery p)) r ∧ n_UserID r = v_UserID dev.

Lemma h_triage deviceID dev due : claimed_on ChannelPush due → d_DeviceID due = deviceID →
  hoare working (triage out dev due) (λ r t, working t ∧ ∀ p, r = Some p → passable deviceID dev p) working.
Proof.
  intros Hc Hd. assert (∀ reason, hoare working (now ← Now out; _ ← finish out (cancel due reason now); mret None) (λ r t, working t ∧ ∀ p, r = Some p → passable deviceID dev p) working) as Hno.
  { intros reason. eapply h_bind with (R := λ _, working); [kept|]. intros now. eapply h_bind with (R := λ _, working); [kept|]. intros _. by apply h_ret. }
  unfold triage. eapply h_bind; [apply h_note_byID|]. cbn beta. intros note. apply h_pure_r. intros ->.
  destruct (ro_rows (notes t0) !! d_NotificationID due) as [r|] eqn:Er; [|apply Hno]. case_bool_decide as Hread; [apply Hno|].
  destruct (negb (v_UserID dev =? n_UserID r) || bool_decide (v_DisabledAt dev ≠ None)) eqn:E; [apply Hno|].
  apply orb_false_iff in E as [Eu%negb_false_iff%Z.eqb_eq Ed%bool_decide_eq_false]. apply h_ret. intros t Ht. split; [done|]. intros p [= <-].
  split_and!; [done..|by apply dec_stable|]. exists r. by split.
Qed.

Lemma h_triageAll deviceID dev items : Forall (λ d, claimed_on ChannelPush d ∧ d_DeviceID d = deviceID) items →
  hoare working (triageAll out dev items) (λ r t, working t ∧ Forall (passable deviceID dev) r.1) working.
Proof.
  induction items as [|d items IH]; intros Hi; cbn [triageAll]; [apply h_ret; intros t Ht; split; [done|constructor]|]. apply list.Forall_cons in Hi as [[Hc Hd] Hi].
  eapply h_bind; [by apply h_triage|]. cbn beta. intros entry. apply h_pure_r. intros He. eapply h_bind; [by apply IH|]. cbn beta. intros more. apply h_pure_r. intros Hm.
  apply h_ret. intros t Ht. split; [done|]. destruct entry as [p|]; [|done]. constructor; [by apply He|done].
Qed.

Lemma preserves_working_cancelAll items reason : preserves working (cancelAll out items reason).
Proof. induction items as [|d items IH]; cbn [cancelAll]; keep. Qed.

Lemma preserves_working_record res now entries : preserves working (record_all out res now entries).
Proof. induction entries as [|p entries IH]; cbn [record_all]; keep. Qed.
Hint Resolve preserves_working_cancelAll preserves_working_record : preserving.

(** A device as a worker read it. *)
Definition device_read (dev : Z * deviceRow) : Prop := ∃ v, ro_rows (devices t0) !! dev.1 = Some v ∧ device_kept v dev.2.

Lemma push_rightful dev entries : device_read dev → entries ≠ [] → Forall (passable dev.1 dev.2) entries →
  rightful (OPush dev.1 (v_UserID dev.2) ((λ p, d_ID (pn_delivery p)) <$> entries)).
Proof.
  intros (v & Hv & E1 & E2) Hne Hf. destruct entries as [|p0 ps]; [done|]. rewrite list.Forall_forall in Hf. split.
  - exists v. split_and!; [done|done|]. apply E2. by destruct (Hf p0) as (_ & _ & ? & _); [left|].
  - intros id (p & -> & Hp)%list_elem_of_fmap. destruct (Hf p Hp) as ((d0 & H0 & En & _ & Ed) & Hd & _ & r & Hr & Hu). exists d0, r. rewrite <-En, <-Ed. done.
Qed.

Lemma preserves_transmit s dev entries payload options : device_read dev → entries ≠ [] → Forall (passable dev.1 dev.2) entries →
  preserves working (transmit MarshalPayload s dev ((λ p, d_ID (pn_delivery p)) <$> entries) payload options).
Proof.
  intros Hd Hne He. unfold transmit. destruct (MarshalPayload payload); [|keep]. apply preserves_bind; [|intros _; keep].
  intros e Ht. apply working_out; [done|]. by apply push_rightful.
Qed.

Lemma preserves_working_push s dev first others bundle : device_read dev → Forall (passable dev.1 dev.2) (first :: others) →
  preserves working (sendPush out people MarshalPayload n s dev first others bundle).
Proof.
  intros Hd He. assert (∀ payload options, preserves working (transmit MarshalPayload s dev ((λ p, d_ID (pn_delivery p)) <$> first :: others) payload options)) as Ht
    by (intros; by apply preserves_transmit).
  unfold sendPush, localeOf, Find. keep.
Qed.

Lemma preserves_working_each s dev entries : device_read dev → Forall (passable dev.1 dev.2) entries → preserves working (send_each out people MarshalPayload n s dev entries).
Proof.
  intros Hd. induction entries as [|p entries IH]; intros He; cbn [send_each]; [keep|]. apply list.Forall_cons in He as [Hp He]. specialize (IH He).
  pose proof (preserves_working_push s dev p [] false Hd). apply preserves_bind; [|intros _; exact IH]. apply H. by constructor.
Qed.

Lemma preserves_working_device_group s deviceID items : Forall (λ d, claimed_on ChannelPush d ∧ d_DeviceID d = deviceID) items →
  preserves working (deliverToDevice out people MarshalPayload n s deviceID items).
Proof.
  intros Hi. unfold deliverToDevice. eapply h_bind with (R := λ dev t, working t ∧ ∀ d, dev = Some d → d.1 = deviceID ∧ device_read d).
  - apply h_wrapping, h_statement; [done|]. intros t Ht. split; [done|]. intros [i v] E. cbn in E. destruct (ro_rows (devices t) !! deviceID) as [w|] eqn:Ew; [|done].
    cbn in E. simplify_eq. destruct Ht as (_ & [_ Hd] & _). destruct (Hd i v Ew) as (v0 & Hv0 & Hk). split; [done|]. by exists v0.
  - intros [d|]; apply h_pure_r; intros Hd; [|kept]. destruct (Hd d eq_refl) as [<- Hr]. eapply h_bind; [by apply h_triageAll|]. cbn beta. intros [entries held].
    apply h_pure_r. cbn [fst snd]. intros He. destruct entries as [|first rest]; [by apply h_ret|].
    destruct (shouldBundle _ _); [by apply preserves_working_push|by apply preserves_working_each].
Qed.

Lemma of_device_claimed due deviceID : Forall (claimed_on ChannelPush) due → Forall (λ d, claimed_on ChannelPush d ∧ d_DeviceID d = deviceID) (of_device due deviceID).
Proof.
  rewrite !list.Forall_forall. intros H d [Hd Hi]%list_elem_of_In%filter_In. apply Z.eqb_eq in Hi. split; [|done]. apply H. by apply list_elem_of_In.
Qed.

Lemma preserves_working_push_loop s leaseUntil due order : Forall (claimed_on ChannelPush) due → preserves working (push_loop out people MarshalPayload n s leaseUntil due order).
Proof.
  intros Hd. induction order as [|v order IH]; cbn [push_loop]; [keep|]. pose proof (preserves_working_device_group s v _ (of_device_claimed due v Hd)). keep.
Qed.

Lemma h_DeliverPushDue : sound t0 → hoare (λ t, t = t0) (DeliverPushDue out people MarshalPayload n) (λ _, working) working.
Proof.
  intros Hs. unfold DeliverPushDue. destruct (nt_push n) as [s|]; [|apply h_ret; intros t ->; apply working_start].
  eapply h_bind with (R := λ _ t, t = t0); [by apply h_Now|]. intros now. eapply h_bind; [by apply h_claimDue|]. cbn beta. intros due. apply h_pure_r. intros Hd.
  pose proof (preserves_working_push_loop s (whole now + NoticeRules.claimLease) due (device_order due []) Hd). kept.
Qed.
End Deliver.
