(* ===== verification/NoticeProps.v ===== *)
(** * Theorems about notifications *)

From Stdlib Require Import Ascii.
From S2P Require Import Prelude Apperr Clock SignIn Sql Rows Hoare Queue NoticeRules NoticeStore Notices NoticeFacts NoticeSend NoticeSweep NoticeWorkers.

Local Open Scope Z_scope.

(** ** Any sequence of requests *)

Inductive request : Type :=
| RSend (ctx : Handling) (category : Kind) (to : Recipients) (render : option (Recipient → Message))
| RDeviceTest (ctx : Handling) (userID deviceID : Z)
| RGet (userID : Z)
| RSet (userID : Z) (category : string) (ch : Channel) (enabled : bool)
| RQuiet (userID : Z) (hours : QuietHours)
| RList (userID : Z) (q : ListQuery)
| RRead (userID id : Z)
| RReadAll (userID upToID : Z)
| RRegister (userID : Z) (userAgent : string) (sub : Subscription)
| RDevices (userID : Z)
| RRename (userID deviceID : Z) (label : string)
| RRemove (userID deviceID : Z)
| RUnregister (userID : Z) (endpoint : string)
| RTest (userID deviceID : Z)
| RSubscribe (userID : Z)
| RDeliver
| RPush
| RSweep (fuel : nat).

(** What the code outside the module answers. *)
Record Services : Type := mkServices {
  sv_people : nat → list Z → result (list Account); sv_MarshalData : gmap string string → result string; sv_UnmarshalData : string → gmap string string;
  sv_MarshalPayload : pushPayload → result string; sv_EndpointHash : string → string; sv_Validate : Subscription → option error
}.

Section Requests.
Variables (sv : Services) (out : Outside) (n : Notices).
Notation M := (stM (Env NTables) error).

Definition after {A} (m : M A) (e : Env NTables) : option (Env NTables) := Some (m e).2.

(** The state after a request that ended. *)
Definition serve (r : request) (e : Env NTables) : option (Env NTables) :=
  match r with
  | RSend ctx category to render => after (Send out (sv_people sv) (sv_MarshalData sv) (sv_UnmarshalData sv) n ctx category to render) e
  | RDeviceTest ctx userID deviceID => after (deviceTestConsumer out (sv_people sv) (sv_MarshalData sv) (sv_UnmarshalData sv) n ctx userID deviceID) e
  | RGet userID => after (settings_Get out n userID) e
  | RSet userID category ch enabled => after (settings_set out n userID category ch enabled) e
  | RQuiet userID hours => after (SetQuietHours out userID hours) e
  | RList userID q => after (inbox_List out (sv_UnmarshalData sv) userID q) e
  | RRead userID id => after (MarkRead out userID id) e
  | RReadAll userID upToID => after (MarkAllRead out userID upToID) e
  | RRegister userID userAgent sub => after (devices_Register out (sv_EndpointHash sv) (sv_Validate sv) n userID userAgent sub) e
  | RDevices userID => after (devices_List out userID) e
  | RRename userID deviceID label => after (Rename out userID deviceID label) e
  | RRemove userID deviceID => after (Remove out userID deviceID) e
  | RUnregister userID endpoint => after (Unregister out (sv_EndpointHash sv) userID endpoint) e
  | RTest userID deviceID => after (SendTest out n userID deviceID) e
  | RSubscribe userID => after (note_ (λ t, set_hub t (Subscribe (hub t) userID).2)) e
  | RDeliver => after (DeliverDue out (sv_people sv) n) e
  | RPush => after (DeliverPushDue out (sv_people sv) (sv_MarshalPayload sv) n) e
  | RSweep fuel => snd <$> notices_Sweep out fuel e
  end.

Fixpoint serves (rs : list request) (e : Env NTables) : option (Env NTables) :=
  match rs with [] => Some e | r :: rs' => e' ← serve r e; serves rs' e' end.

(** One request at a time. *)
Lemma serve_sound r e e' : sound (tables e) → serve r e = Some e' → sound (tables e').
Proof.
  intros He. assert (∀ A (m : M A), preserves sound m → after m e = Some e' → sound (tables e')) as Hm
    by (intros A m H [= <-]; by apply preserves_end).
  destruct r; cbn [serve]; try apply Hm;
    [apply preserves_send|apply preserves_send|apply preserves_Get|apply preserves_set|apply preserves_SetQuietHours| |apply preserves_MarkRead|apply preserves_MarkAllRead
    |apply preserves_Register| |apply preserves_Rename|apply preserves_Remove|apply preserves_Unregister|apply preserves_SendTest|by apply preserves_note
    |apply preserves_DeliverDue|apply preserves_DeliverPushDue|].
  - unfold inbox_List, list_rows. keep.
  - unfold devices_List, devicesOfUser. keep.
  - destruct (notices_Sweep out fuel e) as [[[]]|] eqn:E; [|done]. intros [= <-]. by apply notices_sweep_sound in E.
Qed.

Lemma serves_sound rs e e' : sound (tables e) → serves rs e = Some e' → sound (tables e').
Proof.
  revert e. induction rs as [|r rs IH]; intros e He; cbn [serves]; [by intros [= <-]|].
  destruct (serve r e) as [e1|] eqn:E; [|done]. cbn. apply IH. by eapply serve_sound.
Qed.
End Requests.

(** ** A small application *)

Definition assigned : Kind := PushByDefault (Category "tickets.assigned").
Definition zone0 : Location := mkLocation "UTC" (λ _, 0) (λ _, - 10 ^ 18) (λ _, 10 ^ 18).
Definition ana : Account := mkAccount 7 "ana" "ana@example.com" "" "Ana" "hr" true "" 0.
Definition ivo : Account := mkAccount 8 "ivo" "" "" "" "en" false "" 0.
Definition mail0 : Mail := mkMail (λ _ _ d, Ok (ed_Title d)) (λ _ _ _, None).
Definition push0 : Sender := mkSender "key" (λ _ _ _ _, Ok (mkPushResult 201 0 "")).
Definition notices0 : Notices := mkNotices [assigned; systemTest] None zone0 (Some mail0) (Some push0) (λ _ _ _, ("", "")) None "https://app.example.com".
Definition services0 : Services := mkServices (λ _ ids, Ok (List.filter (λ a, contains ids (ac_ID a)) [ana; ivo])) (λ _, Ok "{}") (λ _, ∅) (λ p, Ok (pp_Title p)) (λ s, s) (λ _, None).
(** Every outside event takes a millisecond, from nine o'clock on. *)
Definition out0 : Outside := mkOutside (λ _, None) (λ k, 9 * Time.Hour + Z.of_nat k * Time.Millisecond) (λ _, false).
Definition start0 : Env NTables := mkEnv (mkNTables (mkRows ∅ 1) (mkRows ∅ 1) ∅ ∅ (mkRows ∅ 1) [] (mkHub ∅ 1) []) 0.
Definition consumer0 : Handling := mkHandling (Some 3) false.
Definition render0 (r : Recipient) : Message := mkMessage ("Assigned to " +:+ rc_Name r) "" "/tickets/7" ∅.
Definition browser0 : Subscription := mkSubscription "https://push.example.com/a" "p" "a".
Definition day0 : list request := [RRegister 7 "Firefox/130 Linux" browser0; RSet 7 "tickets.assigned" ChannelEmail true; RSend consumer0 assigned (To [7; 8; 9; 7]) (Some render0)].
Definition world0 (rs : list request) : Env NTables := default start0 (serves services0 out0 notices0 rs start0).

Lemma start0_ok : sound (tables start0).
Proof. by split. Qed.

Lemma world0_sound rs : sound (tables (world0 rs)).
Proof.
  unfold world0. destruct (serves services0 out0 notices0 rs start0) as [e|] eqn:E; [|apply start0_ok]. eapply serves_sound; [apply start0_ok|exact E].
Qed.

(** ** Theorems *)

(** C25. Whatever requests are served and whatever the workers and the housekeeping do in
    between, in any order and with any statement failing, no two notifications have one
    dedupe key, no two deliveries one target, no two devices one endpoint, every delivery
    has its notification and every e-mail an address. *)
Theorem notices_stay_sound sv out n rs e e' : sound (tables e) → serves sv out n rs e = Some e' → sound (tables e').
Proof. apply serves_sound. Qed.

Lemma notices_stay_sound_witness :
  let e := world0 (day0 ++ [RDeliver; RPush; RReadAll 7 1; RSweep 2; RRemove 7 1]) in
  sound (tables e) ∧ outgoing (tables e) = [OMail 1 "ana@example.com"; OPush 1 7 [2]] ∧ (d_Status <$> ro_rows (deliveries (tables e)) !! 2) = Some statusSent.
Proof.
  split.
  - eapply (notices_stay_sound services0 out0 notices0 (day0 ++ [RDeliver; RPush; RReadAll 7 1; RSweep 2; RRemove 7 1]) start0); [apply start0_ok|vm_compute; reflexivity].
  - vm_compute. repeat split.
Defined.

(** C26. A Send that succeeds leaves every active account among its recipients with a
    notification of the event and category, written now, as it was rendered for that
    person, unless it was there before, and writes no other; the deliveries it adds are
    of notifications it wrote, each on a channel that the authority, the person's choice
    or the default turns on, to the person's address or a device of theirs that is not
    disabled, when their quiet hours let it go. A Send that fails changed nothing. *)
Theorem Send_notifies_once sv out n ctx ev category to render e : hd_event ctx = Some ev → sound (tables e) →
  match Send out (sv_people sv) (sv_MarshalData sv) (sv_UnmarshalData sv) n ctx category to render e with
  | (Ok _, e') => ∃ f, render = Some f ∧ sent (sv_people sv) n ev category to f 0 (tables e) (tables e')
  | (Err _, e') => tables e' = tables e
  end.
Proof. intros Hev Hs. by apply (h_notify out _ _ _ n ctx ev category to render 0 (tables e) Hev Hs e). Qed.

Lemma Send_notifies_once_witness :
  let again := RSend consumer0 assigned (To [7; 8]) (Some render0) in
  sent (sv_people services0) notices0 3 assigned (To [7; 8; 9; 7]) render0 0 (tables (world0 (take 2 day0))) (tables (world0 day0)) ∧
  ro_rows (notes (tables (world0 (day0 ++ [again])))) = ro_rows (notes (tables (world0 day0))).
Proof.
  split; [|vm_compute; reflexivity].
  pose proof (Send_notifies_once services0 out0 notices0 consumer0 3 assigned (To [7; 8; 9; 7]) (Some render0) (world0 (take 2 day0)) eq_refl) as H.
  pose proof (world0_sound (take 2 day0)) as Hs.
  specialize (H Hs).
  assert (Send out0 (sv_people services0) (sv_MarshalData services0) (sv_UnmarshalData services0) notices0 consumer0 assigned (To [7; 8; 9; 7]) (Some render0) (world0 (take 2 day0))
    = (Ok (), world0 day0)) as E by (vm_compute; reflexivity).
  rewrite E in H. destruct H as (f & [= <-] & H). exact H.
Defined.

(** C27. However many workers claim, send and save side by side with the other operations,
    two of them never have one delivery in flight at once, provided that a send with the
    saving of its answer ends within the margin. *)
Theorem one_send_in_flight t time w i j h k id : ids_used (deliveries t) → rtc wstep (mkWorld time t ∅) w →
  w_workers w !! i = Some h → w_workers w !! j = Some k → in_flight h id → in_flight k id → i = j.
Proof.
  intros Hu Hr Hi Hj Hh Hk. assert (orderly w) as Hw.
  { assert (orderly (mkWorld time t ∅)) as H0 by (split; [..|done]; intros; cbn in *; by rewrite lookup_empty in *).
    clear -H0 Hr. induction Hr as [|x y z Hxy _ IH]; [done|]. apply IH. by eapply orderly_step. }
  destruct (decide (i = j)) as [|Hne]; [done|]. exfalso. pose proof Hh as (ids & since & Es & _). pose proof Hk as (ids' & since' & Es' & _).
  destruct (or_flight _ Hw i h ids since Hi Es), (or_flight _ Hw j k ids' since' Hj Es').
  destruct (or_apart _ Hw i j h k id Hi Hj Hne); [by right..|lia|lia].
Qed.

Definition claimed0 : World := mkWorld (9 * Time.Hour) (tables (world0 day0)) ∅.
Definition first_claim : World :=
  let t := tables (world0 day0) in let rows := claim_rows ChannelEmail (9 * Time.Hour) deliveryBatch t in
  mkWorld (9 * Time.Hour) (lease_ids rows.*1 (9 * Time.Hour + NoticeRules.claimLease) t) {[1%nat := mkHeld (9 * Time.Hour + NoticeRules.claimLease) rows.*1 None]}.

Lemma one_send_in_flight_witness : ∃ w h, rtc wstep claimed0 w ∧ w_workers w !! 1%nat = Some h ∧ in_flight h 1 ∧
  ∀ j k, w_workers w !! j = Some k → in_flight k 1 → 1%nat = j.
Proof.
  set (h := mkHeld (9 * Time.Hour + NoticeRules.claimLease) [] (Some ([1], 9 * Time.Hour))).
  exists (mkWorld (9 * Time.Hour) (w_tables first_claim) (<[1%nat := h]> (w_workers first_claim))), h.
  assert (rtc wstep claimed0 (mkWorld (9 * Time.Hour) (w_tables first_claim) (<[1%nat := h]> (w_workers first_claim)))) as Hr.
  { eapply rtc_l; [exact (WClaim 1 ChannelEmail claimed0 eq_refl)|]. apply rtc_once.
    refine (WStart 1 (mkHeld (9 * Time.Hour + NoticeRules.claimLease) [1] None) [1] first_claim eq_refl eq_refl eq_refl _). auto. }
  assert (in_flight h 1) as Hh by (exists [1], (9 * Time.Hour); split; [done|left]). split_and!; [exact Hr|reflexivity|exact Hh|].
  intros j k Hj Hk. eapply (one_send_in_flight (tables (world0 day0)) (9 * Time.Hour)); [|exact Hr|reflexivity|exact Hj|exact Hh|exact Hk].
  apply (so_deliveries _ (world0_sound day0)).
Defined.

(** A delivery is tried at most thirty times, and one of high priority at most ten,
    whatever the mail server and the push service answer and however late the workers
    are: then it is sent, failed or cancelled. *)
Theorem delivery_ends id note now release k d :
  (∀ address, tries (stored_delivery (with_d_ID id (of_note note (newEmailDelivery address now release)))) k d → (k <= 30)%nat) ∧
  (∀ dev kd, tries (stored_delivery (with_d_ID id (of_note note (for_device dev (newDelivery ChannelPush (pushTTL kd) now release))))) k d →
    (k <= if k_high kd then 10 else 30)%nat).
Proof.
  split.
  - intros address H. pose proof (newDelivery_lives ChannelEmail 86400 now release) as [Ha He]. eapply (lives_tries _ 86400); [|exact H|lia|by vm_compute]. by apply lives_stored.
  - intros dev kd H. unfold pushTTL in H. destruct (k_high kd).
    + pose proof (newDelivery_lives ChannelPush 14400 now release) as [Ha He]. eapply (lives_tries _ 14400); [|exact H|lia|by vm_compute]. by apply lives_stored.
    + pose proof (newDelivery_lives ChannelPush 86400 now release) as [Ha He]. eapply (lives_tries _ 86400); [|exact H|lia|by vm_compute]. by apply lives_stored.
Qed.

Definition down : error := errNew "mail server down".
Definition delivery0 : deliveryRow := stored_delivery (with_d_ID 1 (of_note 1 (newEmailDelivery "ana@example.com" (9 * Time.Hour) (9 * Time.Hour)))).

Lemma delivery_ends_witness :
  let d1 := tried delivery0 (AMail (Some down)) (9 * Time.Hour) in let d2 := tried d1 (AMail None) (10 * Time.Hour) in
  tries delivery0 2 d2 ∧ (2 <= 30)%nat ∧ d_Status d1 = statusPending ∧ d_NextAttemptAt d1 = 9 * Time.Hour + 30 * Time.Second ∧ d_Status d2 = statusSent.
Proof.
  intros d1 d2. assert (tries delivery0 2 d2) as H.
  { apply tries_more; [apply tries_more; [apply tries_none|left|by vm_compute]|vm_compute; left|by vm_compute]. }
  split_and!; [exact H| |reflexivity..]. destruct (delivery_ends 1 1 (9 * Time.Hour) (9 * Time.Hour) 2 d2) as [Hm _]. exact (Hm _ H).
Defined.

(** A person's choice that is accepted is stored exactly when it differs from the
    category's default, changes no other choice, is shown at once, and is what the
    settings screen shows afterwards, for as long as the authority over settings says
    nothing about it. *)
Theorem setting_reads_back out n userID category ch enabled cs e e' k :
  configurable n category = Some k → (∀ m, enforced_at n m userID k ch = Ok None) →
  settings_set out n userID category ch enabled e = (Ok cs, e') →
  let setting := mkSetting enabled (if Bool.eqb enabled (defaultOn k ch) then SourceDefault else SourcePerson) in
  chosen_by (tables e) (tables e') userID k ch enabled ∧ on_channel ch cs = setting ∧
  ∀ e1 prefs e2, tables e1 = tables e' → settings_Get out n userID e1 = (Ok prefs, e2) →
    ∃ shown_cs, shown_cs ∈ pr_Categories prefs ∧ cs_Category shown_cs = k_code k ∧ on_channel ch shown_cs = setting.
Proof.
  intros Hk Hen Hset setting. pose proof (h_set out n userID category ch enabled (tables e) e eq_refl) as H. rewrite Hset in H. destruct H as (k' & Hk' & Ha & Hc & Hs).
  rewrite Hk in Hk'. injection Hk' as <-. assert (k_internal k = false ∧ k ∈ nt_kinds n) as [Hi Hin].
  { apply List.find_some in Hk as [H1 H2]. split; [|by apply list_elem_of_In]. by apply andb_true_iff in H2 as [_ H2%negb_true_iff]. }
  assert (∀ x, shown n (tables e') userID k x → on_channel ch x = setting) as Hshown.
  { intros x Hx%(shown_on _ _ _ _ _ ch). unfold decided in Hx. rewrite Ha, Hi in Hx. cbn in Hx. destruct Hx as (m & r & Hr & ->). rewrite Hen in Hr. injection Hr as <-.
    rewrite (proj1 Hc), bool_decide_eq_true_2 by done. unfold setting, setting_by, stored_choice. destruct (Bool.eqb enabled (defaultOn k ch)) eqn:Eb; [|done].
    by apply Bool.eqb_prop in Eb as <-. }
  split_and!; [done|by apply Hshown|]. intros e1 prefs e2 He1 Hget. pose proof (h_settings_Get out n userID (tables e') e1 He1) as H. rewrite Hget in H. destruct H as (_ & H & _).
  apply Forall2_there in H as [H _]. destruct (H k) as (x & Hx & Hsx).
  { apply list_elem_of_In, filter_In. split; [by apply list_elem_of_In|by rewrite Hi]. }
  exists x. split_and!; [done|apply Hsx|by apply Hshown].
Qed.

Lemma setting_reads_back_witness :
  ∃ cs e', settings_set out0 notices0 7 "tickets.assigned" ChannelEmail true start0 = (Ok cs, e') ∧
    chosen_by (tables start0) (tables e') 7 assigned ChannelEmail true ∧ on_channel ChannelEmail cs = mkSetting true SourcePerson.
Proof.
  eexists _, _. split; [vm_compute; reflexivity|].
  destruct (setting_reads_back out0 notices0 7 "tickets.assigned" ChannelEmail true
    (mkCategorySettings "tickets.assigned" (mkSetting true SourcePerson) (mkSetting true SourceDefault))
    start0 (settings_set out0 notices0 7 "tickets.assigned" ChannelEmail true start0).2 assigned) as (H1 & H2 & _); [reflexivity|reflexivity|vm_compute; reflexivity|].
  split; [|exact H2]. exact H1.
Defined.

(** Away from a change of the clocks, what quiet hours hold goes out at the first
    moment that is not quiet, and what falls outside them goes out at once. *)
Theorem quiet_hours_release q now loc o : steady_around loc o (unix now) → quiet_Validate q = None → qh_Enabled q = true →
  now <= ReleaseAt q now loc ∧ quiet_at q loc (ReleaseAt q now loc) = false ∧ ∀ t, now <= t < ReleaseAt q now loc → quiet_at q loc t = true.
Proof. apply ReleaseAt_first. Qed.

Lemma quiet_hours_release_witness :
  quiet_at DefaultQuietHours zone0 (ReleaseAt DefaultQuietHours (23 * Time.Hour) zone0) = false ∧ ReleaseAt DefaultQuietHours (23 * Time.Hour) zone0 = 31 * Time.Hour.
Proof.
  split; [|vm_compute; reflexivity]. eapply (quiet_hours_release DefaultQuietHours (23 * Time.Hour) zone0 0); [|reflexivity|reflexivity].
  split; [done|]. change (unix (23 * Time.Hour)) with 82800. intros v Hv. split; [done|]. cbn. lia.
Defined.

(** C29. A sweep ends; when no statement fails it has deleted exactly the finished
    deliveries last changed before the cutoff, and then exactly the old notifications
    with no delivery left, and counted them; one that fails deleted some of those. What
    is still owed is never deleted. *)
Theorem notices_sweep_exact out fuel e : sound (tables e) →
  (size (ro_rows (deliveries (tables e))) < fuel)%nat → (size (ro_rows (notes (tables e))) < fuel)%nat →
  ∃ swept err e', notices_Sweep out fuel e = Some (swept, err, e') ∧ sound (tables e') ∧
    swept_right out (whole (clock out (moment e))) (tables e) (tables e') swept err.
Proof.
  intros Hs Hfd Hfn. destruct (sweep_run out fuel e Hs Hfd Hfn) as (swept & err & e' & E & H). exists swept, err, e'. split_and!; [done| |done].
  by apply (notices_sweep_sound _ _ _ _ Hs) in E.
Qed.

(** Half a year later. *)
Definition later0 : Outside := mkOutside (λ _, None) (λ k, 180 * 24 * Time.Hour + Z.of_nat k * Time.Millisecond) (λ _, false).

Lemma notices_sweep_exact_witness :
  let e := world0 (day0 ++ [RDeliver; RPush]) in
  ∃ e', notices_Sweep later0 3 e = Some (mkSwept 2 1, None, e') ∧ swept_right later0 (whole (clock later0 (moment e))) (tables e) (tables e') (mkSwept 2 1) None.
Proof.
  intros e. assert (sound (tables e)) as Hs by apply world0_sound.
  destruct (notices_sweep_exact later0 3 e Hs) as (swept & err & e' & E & _ & H); [vm_compute; lia..|].
  assert ((λ r, (r.1.1, r.1.2)) <$> notices_Sweep later0 3 e = Some (mkSwept 2 1, None)) as Ec by (vm_compute; reflexivity).
  rewrite E in Ec. cbn in Ec. injection Ec as -> ->. exists e'. split; [exact E|exact H].
Defined.

(** C28. Everything the workers hand to the mail server or the push service is a delivery
    that was owed, of a notification its person had not read, to the address it was made
    for, or to a device of that same person that was not disabled; and they change no
    notification. *)
Theorem sent_rightfully sv out n e : sound (tables e) →
  working (tables e) (tables (DeliverDue out (sv_people sv) n e).2) ∧
  working (tables e) (tables (DeliverPushDue out (sv_people sv) (sv_MarshalPayload sv) n e).2).
Proof.
  intros Hs. pose proof (h_DeliverDue out (sv_people sv) n (tables e) Hs e eq_refl) as H1.
  pose proof (h_DeliverPushDue out (sv_people sv) (sv_MarshalPayload sv) n (tables e) Hs e eq_refl) as H2. split.
  - by destruct (DeliverDue _ _ _ e) as [[]].
  - by destruct (DeliverPushDue _ _ _ _ e) as [[]].
Qed.

Lemma sent_rightfully_witness :
  let t := tables (world0 day0) in let t' := tables (DeliverPushDue out0 (sv_people services0) (sv_MarshalPayload services0) notices0 (world0 day0)).2 in
  working t t' ∧ outgoing t' = [OPush 1 7 [2]].
Proof.
  split; [|vm_compute; reflexivity]. exact (proj2 (sent_rightfully services0 out0 notices0 (world0 day0) (world0_sound day0))).
Defined.

(** ** Remarks *)

(** The check of a link refuses a line break but lets a tab through, which a browser
    takes out of an address: this one then opens another site. *)
Example tab_link_passes : IsAppLink (String "/" (String "009" "/evil.example")) = true.
Proof. reflexivity. Qed.
