(* ===== verification/Reflect.v ===== *)
(** * Go types and values as the reflect package shows them

    A type is a predeclared or defined basic type, a pointer, slice, array, map,
    interface or declared struct; a value is a tree over them. Pointers hold what they
    point to: values with a cycle of pointers are left out. *)

From Stdlib Require Import Ascii SpecFloat.
From S2P Require Import Prelude Clock.

Local Open Scope Z_scope.

(** ** Types *)

Inductive basic : Type :=
| Bool | Int | Int8 | Int16 | Int32 | Int64 | Uint | Uint8 | Uint16 | Uint32 | Uint64 | Uintptr | Float32 | Float64 | Text | Other.
#[export] Instance basic_eq_dec : EqDecision basic.
Proof. solve_decision. Defined.

(** The name of a defined type is not empty; that of a struct is its key among the
    declarations. *)
Inductive type : Type :=
| TBasic (b : basic) (name : string)
| TPtr (elem : type)
| TSlice (elem : type)
| TArray (len : nat) (elem : type)
| TMap (key elem : type)
| TInterface
| TStruct (name : string).
#[export] Instance type_eq_dec : EqDecision type.
Proof. solve_decision. Defined.

(** Bits of an integer type, on a 64-bit machine. *)
Definition bits (b : basic) : Z :=
  match b with Int8 | Uint8 => 8 | Int16 | Uint16 => 16 | Int32 | Uint32 | Float32 => 32 | _ => 64 end.

Definition basic_string (b : basic) : string :=
  match b with
  | Bool => "bool" | Int => "int" | Int8 => "int8" | Int16 => "int16" | Int32 => "int32" | Int64 => "int64"
  | Uint => "uint" | Uint8 => "uint8" | Uint16 => "uint16" | Uint32 => "uint32" | Uint64 => "uint64" | Uintptr => "uintptr"
  | Float32 => "float32" | Float64 => "float64" | Text => "string" | Other => "complex128"
  end.

(** [Type.String] *)
Fixpoint type_string (t : type) : string :=
  match t with
  | TBasic b name => if bool_decide (name = "") then basic_string b else name
  | TPtr e => "*" +:+ type_string e
  | TSlice e => "[]" +:+ type_string e
  | TArray n e => "[" +:+ Str.fmt_d (Z.of_nat n) +:+ "]" +:+ type_string e
  | TMap k e => "map[" +:+ type_string k +:+ "]" +:+ type_string e
  | TInterface => "interface {}"
  | TStruct name => name
  end.

(** A struct tag: the pairs [Get] finds in it, in order. *)
Definition StructTag : Type := list (string * string).
Definition tag_Get (tag : StructTag) (key : string) : string :=
  match List.find (λ kv, bool_decide (kv.1 = key)) tag with Some kv => kv.2 | None => "" end.

Record StructField : Type := mkField { sf_Name : string; sf_PkgPath : string; sf_Anonymous : bool; sf_Tag : StructTag; sf_Type : type }.

(** The declared structs of a program. *)
Definition Declarations : Type := gmap string (list StructField).

(** ** Values *)

Unset Elimination Schemes.
Inductive value : Type :=
| VNil
| VBool (name : string) (b : bool)
| VInt (b : basic) (name : string) (z : Z)
| VUint (b : basic) (name : string) (z : Z)
| VFloat (b : basic) (name : string) (f : spec_float)
| VText (name : string) (s : string)
| VOther (name : string) (z : Z)
| VPtr (elem : type) (v : option value)
| VSlice (elem : type) (isNil : bool) (l : list value)
| VArray (elem : type) (l : list value)
| VMap (key elem : type) (isNil : bool) (l : list (value * value))
| VInterface (v : option value)
| VStruct (name : string) (fields : list value).
Set Elimination Schemes.

(** Induction with the hypothesis for every part. *)
Section value_ind.
Variable P : value → Prop.
Hypotheses (Hnil : P VNil) (Hbool : ∀ n b, P (VBool n b)) (Hint : ∀ b n z, P (VInt b n z)) (Huint : ∀ b n z, P (VUint b n z)) (Hfloat : ∀ b n f, P (VFloat b n f))
  (Htext : ∀ n s, P (VText n s)) (Hother : ∀ n z, P (VOther n z)) (Hptr0 : ∀ t, P (VPtr t None)) (Hptr : ∀ t v, P v → P (VPtr t (Some v)))
  (Hslice : ∀ t n l, Forall P l → P (VSlice t n l)) (Harray : ∀ t l, Forall P l → P (VArray t l))
  (Hmap : ∀ k t n l, Forall (λ kv, P kv.1 ∧ P kv.2) l → P (VMap k t n l)) (Hiface0 : P (VInterface None)) (Hiface : ∀ v, P v → P (VInterface (Some v)))
  (Hstruct : ∀ n l, Forall P l → P (VStruct n l)).

Fixpoint value_ind (v : value) : P v :=
  let all := fix all (l : list value) : Forall P l := match l with [] => list.Forall_nil_2 _ | x :: l' => list.Forall_cons_2 _ _ _ (value_ind x) (all l') end in
  match v with
  | VNil => Hnil
  | VBool n b => Hbool n b
  | VInt b n z => Hint b n z
  | VUint b n z => Huint b n z
  | VFloat b n f => Hfloat b n f
  | VText n s => Htext n s
  | VOther n z => Hother n z
  | VPtr t None => Hptr0 t
  | VPtr t (Some x) => Hptr t x (value_ind x)
  | VSlice t n l => Hslice t n l (all l)
  | VArray t l => Harray t l (all l)
  | VMap k t n l =>
      Hmap k t n l ((fix pairs (l : list (value * value)) : Forall (λ kv, P kv.1 ∧ P kv.2) l :=
        match l with [] => list.Forall_nil_2 _ | (x, y) :: l' => list.Forall_cons_2 _ (x, y) _ (conj (value_ind x) (value_ind y)) (pairs l') end) l)
  | VInterface None => Hiface0
  | VInterface (Some x) => Hiface x (value_ind x)
  | VStruct n l => Hstruct n l (all l)
  end.
End value_ind.

(** [Value.Interface]: what an interface field holds, not the interface. *)
Definition Interface (v : value) : value := match v with VInterface None => VNil | VInterface (Some x) => x | _ => v end.

(** Of the length of a slice, map or array. *)
Definition vlen (v : value) : option Z :=
  match v with
  | VSlice _ _ l | VArray _ l => Some (Z.of_nat (length l))
  | VMap _ _ _ l => Some (Z.of_nat (length l))
  | _ => None
  end.

(** [Value.IsZero]; both zeros of a float are zero. *)
Fixpoint IsZero (v : value) : bool :=
  match v with
  | VNil => true
  | VBool _ b => negb b
  | VInt _ _ z | VUint _ _ z | VOther _ z => z =? 0
  | VFloat _ _ f => match f with S754_zero _ => true | _ => false end
  | VText _ s => bool_decide (s = "")
  | VPtr _ v | VInterface v => match v with None => true | Some _ => false end
  | VSlice _ n _ | VMap _ _ n _ => n
  | VArray _ l | VStruct _ l => forallb IsZero l
  end.

(** [Value.FieldByIndex] *)
Fixpoint FieldByIndex (v : value) (index : list nat) : value :=
  match index with
  | [] => v
  | i :: rest => match v with VStruct _ fs => FieldByIndex (default VNil (fs !! i)) rest | _ => VNil end
  end.

(** Writing the field at an index. *)
Fixpoint set_field (v : value) (index : list nat) (x : value) : value :=
  match index with
  | [] => x
  | i :: rest => match v with VStruct n fs => VStruct n (<[i := set_field (default VNil (fs !! i)) rest x]> fs) | _ => v end
  end.

(** [reflect.DeepEqual]; a map lists its entries in one order. *)
Fixpoint DeepEqual (v w : value) {struct v} : bool :=
  let all := fix all (l m : list value) : bool := match l, m with [], [] => true | x :: l', y :: m' => DeepEqual x y && all l' m' | _, _ => false end in
  match v, w with
  | VNil, VNil => true
  | VBool n b, VBool n' b' => bool_decide (n = n') && Bool.eqb b b'
  | VInt b n z, VInt b' n' z' | VUint b n z, VUint b' n' z' => bool_decide (b = b') && bool_decide (n = n') && (z =? z')
  | VFloat b n f, VFloat b' n' f' => bool_decide (b = b') && bool_decide (n = n') && SFeqb f f'
  | VText n s, VText n' s' => bool_decide (n = n') && bool_decide (s = s')
  | VOther n z, VOther n' z' => bool_decide (n = n') && (z =? z')
  | VPtr t None, VPtr t' None => bool_decide (t = t')
  | VPtr t (Some x), VPtr t' (Some y) => bool_decide (t = t') && DeepEqual x y
  | VSlice t n l, VSlice t' n' l' => bool_decide (t = t') && Bool.eqb n n' && all l l'
  | VArray t l, VArray t' l' => bool_decide (t = t') && all l l'
  | VMap k t n l, VMap k' t' n' l' =>
      bool_decide (k = k') && bool_decide (t = t') && Bool.eqb n n' &&
      (fix pairs (l m : list (value * value)) : bool :=
         match l, m with [], [] => true | (a, x) :: l1, (b, y) :: m1 => DeepEqual a b && DeepEqual x y && pairs l1 m1 | _, _ => false end) l l'
  | VInterface None, VInterface None => true
  | VInterface (Some x), VInterface (Some y) => DeepEqual x y
  | VStruct n l, VStruct n' l' => bool_decide (n = n') && all l l'
  | _, _ => false
  end.

(** How deep a value is. *)
Fixpoint depth (v : value) : nat :=
  match v with
  | VPtr _ (Some x) | VInterface (Some x) => S (depth x)
  | VSlice _ _ l | VArray _ l | VStruct _ l => S (list_max (depth <$> l))
  | VMap _ _ _ l => S (list_max ((λ kv, Nat.max (depth kv.1) (depth kv.2)) <$> l))
  | _ => O
  end.

(** [float64(n)]: the nearest float, ties to even. *)
Definition float64 (n : Z) : spec_float := binary_normalize 53 1024 n 0 false.

(** ** Well-typed values *)

Section Typed.
Variable decls : Declarations.

(** The fields of a struct are those of its declaration, in order; what an interface
    holds is not an interface. *)
Inductive has_type : value → type → Prop :=
| ty_bool n b : has_type (VBool n b) (TBasic Bool n)
| ty_int b n z : b ∈ [Int; Int8; Int16; Int32; Int64] → - 2 ^ (bits b - 1) <= z < 2 ^ (bits b - 1) → has_type (VInt b n z) (TBasic b n)
| ty_uint b n z : b ∈ [Uint; Uint8; Uint16; Uint32; Uint64; Uintptr] → 0 <= z < 2 ^ bits b → has_type (VUint b n z) (TBasic b n)
| ty_float b n f : b ∈ [Float32; Float64] → has_type (VFloat b n f) (TBasic b n)
| ty_text n s : has_type (VText n s) (TBasic Text n)
| ty_other n z : has_type (VOther n z) (TBasic Other n)
| ty_nil t : has_type (VPtr t None) (TPtr t)
| ty_ptr t v : has_type v t → has_type (VPtr t (Some v)) (TPtr t)
| ty_slice t n l : Forall (λ v, has_type v t) l → has_type (VSlice t n l) (TSlice t)
| ty_array t l : Forall (λ v, has_type v t) l → has_type (VArray t l) (TArray (length l) t)
| ty_map k t n l : Forall (λ kv, has_type kv.1 k ∧ has_type kv.2 t) l → has_type (VMap k t n l) (TMap k t)
| ty_noiface : has_type (VInterface None) TInterface
| ty_iface v t : has_type v t → t ≠ TInterface → has_type (VInterface (Some v)) TInterface
| ty_struct n l fs : decls !! n = Some fs → Forall2 (λ v f, has_type v (sf_Type f)) l fs → has_type (VStruct n l) (TStruct n).
End Typed.
