(* ===== verification/Validation.v ===== *)
(** * Validation of inputs

    src/validation: rules.go, validator.go, validator_cache.go, trim.go, check.go,
    storable.go, failure.go, errors.go and input.go, over the types and values of
    [Reflect]. A rule that panics is an answer of its own, which the validator
    recovers. *)

From Stdlib Require Import Ascii SpecFloat.
From S2P Require Import Prelude Apperr Clock Reflect.

Local Open Scope Z_scope.

(** ** Failures (failure.go) and errors (errors.go) *)

Definition RuleCode : Type := string.
Definition CodeRequired : RuleCode := "required".
Definition CodeRequiredIf : RuleCode := "required_if".
Definition CodeEmail : RuleCode := "email".
Definition CodeMax : RuleCode := "max".
Definition CodeMin : RuleCode := "min".
Definition CodeIn : RuleCode := "in".
Definition CodeDate : RuleCode := "date".
Definition CodeYear : RuleCode := "year".
Definition CodeMonth : RuleCode := "month".
Definition CodePassword : RuleCode := "password".
Definition CodeConfirmed : RuleCode := "confirmed".
Definition CodeLen : RuleCode := "len".
Definition CodeBetween : RuleCode := "between".
Definition CodeSame : RuleCode := "same".
Definition CodeDifferent : RuleCode := "different".
Definition CodeURL : RuleCode := "url".
Definition CodeUUID : RuleCode := "uuid".
Definition CodeUnsupportedCharacters : RuleCode := "unsupported_characters".

Inductive fparam : Type := FInt (z : Z) | FStrings (l : list string).
Record Failure : Type := mkFailure { fl_Code : RuleCode; fl_Params : gmap string fparam }.
Definition Fail (code : RuleCode) : Failure := mkFailure code ∅.
Definition FailWith (code : RuleCode) (params : gmap string fparam) : Failure := mkFailure code params.

Definition NewErrInvalidRuleConfig (rule field reason : string) : error :=
  errNew ("validator: invalid configuration for rule " +:+ Str.fmt_q rule +:+ " on field " +:+ Str.fmt_q field +:+
          (if bool_decide (reason = "") then "" else ": " +:+ reason)).

(** What [Validate] answers when it does not accept. *)
Inductive verror : Type :=
| EUnknownRule (name field : string)
| EApp (err : error)
| EInvalid (failures : gmap string (list Failure)) (debug : gmap string (list string)).

Definition verror_text (e : verror) : string :=
  match e with
  | EUnknownRule name field =>
      "validator: unknown rule " +:+ Str.fmt_q name +:+ " on field " +:+ Str.fmt_q field +:+ " " +:+ Utf8.encode 8212 +:+ " register it at start-up with validation.Register(" +:+ Str.fmt_q name +:+ ", rule)"
  | EApp err => error_text err
  | EInvalid _ _ => "validation failed: validation failed"
  end.

(** What a rule did: the failures it reported, or the panic it ended in. *)
Inductive Run : Type := Ran (fs : list Failure) | Panicked (err : error) | PanickedWith (text : string).

(** The application's types and the parsers of other packages. *)
Record Program : Type := mkProgram {
  decls : Declarations;
  fmt_v : value → string;
  DateValuer : value → option bool;
  ParseRFC3339 : string → bool;
  ParseRequestURI : string → option (string * string);
  uuid_Parse : string → bool
}.

(** ** Presence and size of a value (rules.go) *)

Definition isPresent (v : value) : bool :=
  match v with
  | VNil => false
  | VText _ s => bool_decide (Utf8.TrimSpace s ≠ "")
  | VSlice _ _ l | VArray _ l => 0 <? Z.of_nat (length l)
  | VMap _ _ _ l => 0 <? Z.of_nat (length l)
  | VPtr _ None | VInterface None => false
  | VPtr _ (Some (VText _ s)) | VInterface (Some (VText _ s)) => bool_decide (Utf8.TrimSpace s ≠ "")
  | _ => true
  end.

(** The end of a chain of pointers; None when it is nil. *)
Fixpoint pointee (v : value) : option value :=
  match v with VPtr _ None => None | VPtr _ (Some x) => pointee x | VNil => None | _ => Some v end.
Definition derefNonNil (v : value) : value := match pointee v with Some x => Interface x | None => v end.

Definition lengthOf (v : value) : option Z := match v with VText _ s => Some (Utf8.RuneCount s) | _ => vlen v end.

Definition isOptionalZeroValue (v : value) : bool :=
  match v with
  | VNil => true
  | VText _ s => bool_decide (Utf8.TrimSpace s = "")
  | VSlice _ _ l | VArray _ l => Z.of_nat (length l) =? 0
  | VMap _ _ _ l => Z.of_nat (length l) =? 0
  | VPtr _ x | VInterface x => match x with None => true | Some _ => false end
  | _ => IsZero v
  end.

(** *** Arguments of rules *)

Definition parseIntegerRuleArg (ruleName attribute args : string) : result Z :=
  if bool_decide (Utf8.TrimSpace args = "") then Err (NewErrInvalidRuleConfig ruleName attribute "missing numeric argument") else
  match Str.Atoi (Utf8.TrimSpace args) with
  | None => Err (NewErrInvalidRuleConfig ruleName attribute ("invalid numeric argument " +:+ Str.fmt_q args))
  | Some z => Ok z
  end.

Definition parseBetweenArgs (attribute args : string) : result (Z * Z) :=
  let '(lo, hi, found) := Str.cut "," args in
  if negb found then Err (NewErrInvalidRuleConfig "between" attribute "expected format min,max") else
  min ← parseIntegerRuleArg "between" attribute lo;
  max ← parseIntegerRuleArg "between" attribute hi;
  if max <? min then Err (NewErrInvalidRuleConfig "between" attribute "min cannot be greater than max") else Ok (min, max).

Definition parseRequiredIfArgs (attribute args : string) : result (string * string) :=
  let '(other, expected, found) := Str.cut "," args in
  if negb found then Err (NewErrInvalidRuleConfig "required_if" attribute "expected format other_field,value") else
  if bool_decide (Utf8.TrimSpace other = "") then Err (NewErrInvalidRuleConfig "required_if" attribute "missing comparison field")
  else Ok (Utf8.TrimSpace other, Utf8.TrimSpace expected).

(** *** Sizes against a bound *)

(** A bound as an unsigned value compares with it: converted to the type of a
    predeclared type, to uint64 through reflection. *)
Definition uint_bound (b : basic) (name : string) (bound : Z) : Z :=
  if bool_decide (name = "") && negb (bool_decide (b = Uintptr)) then bound mod 2 ^ bits b else bound mod 2 ^ 64.

(** The size of a value less than a bound; a text of a defined type counts bytes. *)
Definition below (v : value) (bound : Z) : bool :=
  match v with
  | VText name s => (if bool_decide (name = "") then Utf8.RuneCount s else Z.of_nat (String.length s)) <? bound
  | VInt _ _ z => z <? bound
  | VUint b name z => z <? uint_bound b name bound
  | VFloat _ _ f => SFltb f (float64 bound)
  | _ => match vlen v with Some n => n <? bound | None => false end
  end.
Definition above (v : value) (bound : Z) : bool :=
  match v with
  | VText name s => bound <? (if bool_decide (name = "") then Utf8.RuneCount s else Z.of_nat (String.length s))
  | VInt _ _ z => bound <? z
  | VUint b name z => uint_bound b name bound <? z
  | VFloat _ _ f => SFltb (float64 bound) f
  | _ => match vlen v with Some n => bound <? n | None => false end
  end.

(** ** Patterns *)

Definition is_upper (c : ascii) : bool := (65 <=? Str.code c) && (Str.code c <=? 90).
Definition is_letter (c : ascii) : bool := Str.is_lower c || is_upper c.
Definition one_of (set : string) (c : ascii) : bool := Str.contains_char c set.

(** The text before and after the last [c]. *)
Fixpoint cut_last (c : ascii) (s : string) : option (string * string) :=
  match s with
  | EmptyString => None
  | String d r => match cut_last c r with Some (a, b) => Some (String d a, b) | None => if bool_decide (d = c) then Some ("", r) else None end
  end.

Definition local_char (c : ascii) : bool := is_letter c || Str.is_digit c || one_of "._%+-" c.
Definition domain_char (c : ascii) : bool := is_letter c || Str.is_digit c || one_of ".-" c.

(** [validEmail]: the part before the only at sign, and the part around the last dot. *)
Definition isValidEmail (email : string) : bool :=
  let '(local, domain, found) := Str.cut "@" email in
  found && negb (bool_decide (local = "")) && Str.forall_char local_char local &&
  match cut_last "." domain with
  | Some (d, t) => negb (bool_decide (d = "")) && Str.forall_char domain_char d && (2 <=? String.length t)%nat && Str.forall_char is_letter t
  | None => false
  end.

Definition yearPattern (s : string) : bool := (String.length s =? 4)%nat && Str.forall_char Str.is_digit s.
Definition digit1to9 (c : ascii) : bool := Str.is_digit c && negb (Ascii.eqb c "0").
Definition monthPattern (s : string) : bool :=
  match s with
  | String c EmptyString => digit1to9 c
  | String c (String d EmptyString) => (Ascii.eqb c "0" && digit1to9 d) || (Ascii.eqb c "1" && one_of "012" d)
  | _ => false
  end.

Fixpoint count_char (p : ascii → bool) (s : string) : nat :=
  match s with EmptyString => O | String c r => ((if p c then 1 else 0) + count_char p r)%nat end.
Definition validPassword (s : string) : bool :=
  (8 <=? String.length s)%nat && (String.length s <=? 20)%nat && (0 <? count_char Str.is_lower s)%nat && (2 <=? count_char Str.is_digit s)%nat &&
  (0 <? count_char (one_of "@$!%*?&#") s)%nat.

(** [time.Parse(time.DateOnly, s)] *)
Definition isLeap (year : Z) : bool := (year mod 4 =? 0) && (negb (year mod 100 =? 0) || (year mod 400 =? 0)).
Definition daysIn (month year : Z) : Z :=
  if month =? 2 then if isLeap year then 29 else 28 else if contains [4; 6; 9; 11] month then 30 else 31.
Definition ParseDate (s : string) : bool :=
  match s with
  | String y1 (String y2 (String y3 (String y4 (String "-" (String m1 (String m2 (String "-" (String d1 (String d2 EmptyString))))))))) =>
      forallb Str.is_digit [y1; y2; y3; y4; m1; m2; d1; d2] &&
      let num l := foldl (λ a c, a * 10 + (Str.code c - 48)) 0 l in
      let month := num [m1; m2] in
      (1 <=? month) && (month <=? 12) && (1 <=? num [d1; d2]) && (num [d1; d2] <=? daysIn month (num [y1; y2; y3; y4]))
  | _ => false
  end.

(** ** What a tag says of a struct (validator.go, validator_cache.go) *)

Record parsedRule : Type := mkParsed { r_name : string; r_args : string }.

Definition parseValidationTag (tag : string) : list parsedRule :=
  omap (λ part, let part := Utf8.TrimSpace part in
    if bool_decide (part = "") then None
    else let '(name, args, _) := Str.cut ":" part in Some (mkParsed (Utf8.TrimSpace name) (Utf8.TrimSpace args))) (Str.split "|" tag).

Definition hasRule (rules : list parsedRule) (name : string) : bool := existsb (λ r, bool_decide (r_name r = name)) rules.

(** [form], else the first part of [json], else nothing. *)
Definition json_name (tag : StructTag) : string :=
  let json := Utf8.TrimSpace (tag_Get tag "json") in
  if bool_decide (json = "") || bool_decide (json = "-") then "" else Utf8.TrimSpace (Str.cut "," json).1.1.
Definition computeAliasFromTag (tag : StructTag) : string :=
  let form := Utf8.TrimSpace (tag_Get tag "form") in
  if negb (bool_decide (form = "")) && negb (bool_decide (form = "-")) then form else json_name tag.

Definition innerStructType (t : type) : option string :=
  let t := match t with TPtr e => e | _ => t end in
  let t := match t with TSlice e | TArray _ e => match e with TPtr e' => e' | _ => e end | _ => t end in
  match t with TStruct n => Some n | _ => None end.

Record FieldInfo : Type := mkInfo { fi_Field : StructField; fi_Index : list nat }.

Record cachedFieldMeta : Type := mkFieldMeta {
  fm_GoName : string; fm_Alias : string; fm_FieldIndex : list nat; fm_Rules : list parsedRule; fm_ElemType : option string; fm_Type : type; fm_Trim : bool
}.
Record cachedStructMeta : Type := mkStructMeta { sm_Fields : list cachedFieldMeta; sm_HasAnyValidation : bool; sm_NameLookup : gmap string nat }.

Definition fieldMeta (fi : FieldInfo) : cachedFieldMeta :=
  let f := fi_Field fi in
  let alias := computeAliasFromTag (sf_Tag f) in
  let tag := tag_Get (sf_Tag f) "validation" in
  let rules := if bool_decide (tag = "") then [] else parseValidationTag tag in
  mkFieldMeta (sf_Name f) (if bool_decide (alias = "") then sf_Name f else alias) (fi_Index fi) rules (innerStructType (sf_Type f)) (sf_Type f) (hasRule rules "trim").

(** The names a cross-field rule may use for a field. *)
Definition name_field (lookup : gmap string nat) (idx : nat) (fi : FieldInfo) : gmap string nat :=
  let fm := fieldMeta fi in
  let lookup := <[fm_GoName fm := idx]> lookup in
  let lookup := if bool_decide (fm_Alias fm = fm_GoName fm) then lookup else <[fm_Alias fm := idx]> lookup in
  let json := json_name (sf_Tag (fi_Field fi)) in
  if bool_decide (json = "") then lookup else match lookup !! json with Some _ => lookup | None => <[json := idx]> lookup end.

Section Validator.
Variable p : Program.

(** [reflectioncache.FieldsByType] *)
Definition FieldsByType (name : string) : list FieldInfo := imap (λ i f, mkInfo f [i]) (default [] (decls p !! name)).

(** Structs embed each other to a finite depth, at most the number of declarations. *)
Fixpoint flattenEmbedded (fuel : nat) (list_ : list FieldInfo) (prefix : list nat) : list FieldInfo :=
  match fuel with
  | O => []
  | S fuel' =>
      flat_map (λ info,
        let index := prefix ++ fi_Index info in
        let f := fi_Field info in
        match sf_Type f with
        | TStruct n => if sf_Anonymous f && bool_decide (sf_Tag f = []) then flattenEmbedded fuel' (FieldsByType n) index else [mkInfo f index]
        | _ => [mkInfo f index]
        end) list_
  end.

Definition exported_fields (name : string) : list FieldInfo :=
  List.filter (λ fi, bool_decide (sf_PkgPath (fi_Field fi) = "")) (flattenEmbedded (S (size (decls p))) (FieldsByType name) []).

Definition buildStructMeta (name : string) : cachedStructMeta :=
  let fiList := exported_fields name in
  let fields := fieldMeta <$> fiList in
  mkStructMeta fields (existsb (λ f, (0 <? length (fm_Rules f))%nat || bool_decide (is_Some (fm_ElemType f))) fields)
    (foldl (λ lookup ifi, name_field lookup ifi.1 ifi.2) ∅ (indexed fiList)).

Definition emptyMeta : cachedStructMeta := mkStructMeta [] false ∅.

(** [structMetaCache.get]: the metadata and the cache afterwards. *)
Definition cache_get (c : gmap string cachedStructMeta) (t : type) : cachedStructMeta * gmap string cachedStructMeta :=
  match (match t with TPtr e => e | _ => t end) with
  | TStruct n => match c !! n with Some meta => (meta, c) | None => (buildStructMeta n, <[n := buildStructMeta n]> c) end
  | _ => (emptyMeta, c)
  end.

(** The metadata of the type of a struct value. *)
Definition meta_of (v : value) : cachedStructMeta := match v with VStruct n _ => buildStructMeta n | _ => emptyMeta end.

(** ** Rules (rules.go) *)

Definition Rule : Type := string → value → string → bool → value → Run.

(** [fmt.Sprintf] of a value with the verb v: predeclared types print as they are. *)
Definition Sprint (v : value) : string :=
  match v with
  | VNil => "<nil>"
  | VText "" s => s
  | VBool "" b => if b then "true" else "false"
  | VInt _ "" z | VUint _ "" z => Str.fmt_d z
  | _ => fmt_v p v
  end.

Definition must {A} (r : result A) (k : A → Run) : Run := match r with Ok a => k a | Err err => Panicked (Internal err) end.
Definition check (bad : bool) (f : Failure) : Run := Ran (if bad then [f] else []).

Definition kind_string (v : value) : string :=
  match v with
  | VNil => "invalid" | VBool _ _ => "bool" | VInt b _ _ | VUint b _ _ | VFloat b _ _ => basic_string b | VText _ _ => "string" | VOther _ _ => "complex128"
  | VPtr _ _ => "ptr" | VSlice _ _ _ => "slice" | VArray _ _ => "array" | VMap _ _ _ _ => "map" | VInterface _ => "interface" | VStruct _ _ => "struct"
  end.

Definition lookupSubjectFieldValue (subject : value) (name : string) : result (option value) :=
  let isNil := Err (NewErrInvalidRuleConfig "cross_field" name "subject is nil") in
  let found v := match v with
    | VStruct _ _ => Ok ((λ fm, Interface (FieldByIndex v (fm_FieldIndex fm))) <$> (sm_NameLookup (meta_of v) !! name ≫= λ idx, sm_Fields (meta_of v) !! idx))
    | _ => Err (NewErrInvalidRuleConfig "cross_field" name ("subject must be a struct, got " +:+ kind_string v))
    end in
  match subject with
  | VNil => isNil
  | VPtr _ None => isNil
  | VPtr _ (Some v) => found v
  | v => found v
  end.

Definition RequiredRule : Rule := λ attribute value _ _ _,
  if negb (isPresent value) then Ran [Fail CodeRequired] else
  match value with
  | VBool _ _ => Panicked (Internal (NewErrInvalidRuleConfig "required" attribute "bool is always present so the rule can never fail; drop it or model the field as *bool"))
  | VInt _ _ _ | VFloat _ _ _ => check (IsZero value) (Fail CodeRequired)
  | VUint b _ _ => check (negb (bool_decide (b = Uintptr)) && IsZero value) (Fail CodeRequired)
  | _ => Ran []
  end.

(** The other field a cross-field rule names. *)
Definition other_field (rule attribute : string) (subject : value) (otherField : string) (k : value → Run) : Run :=
  must (lookupSubjectFieldValue subject otherField) (λ found,
    match found with
    | None => Panicked (Internal (NewErrInvalidRuleConfig rule attribute ("field " +:+ Str.fmt_q otherField +:+ " was not found on subject")))
    | Some other => k other
    end).

Definition RequiredIfRule : Rule := λ attribute value args _ subject,
  must (parseRequiredIfArgs attribute args) (λ '(otherField, expectedValue),
    other_field "required_if" attribute subject otherField (λ other,
      check (bool_decide (Sprint other = expectedValue) && negb (isPresent value)) (Fail CodeRequiredIf))).

Definition EmailRule : Rule := λ _ value _ required _,
  match value with
  | VText "" s => if bool_decide (s = "") && negb required then Ran [] else check (negb (isValidEmail s)) (Fail CodeEmail)
  | VNil => if required then Ran [Fail CodeEmail] else Ran []
  | _ => Ran [Fail CodeEmail]
  end.

Definition LenRule : Rule := λ attribute value args required _,
  if negb (isPresent value) && negb required then Ran [] else
  must (parseIntegerRuleArg "len" attribute args) (λ expected,
    match lengthOf (derefNonNil value) with
    | None => Ran [Fail CodeLen]
    | Some n => check (negb (n =? expected)) (FailWith CodeLen {["len" := FInt expected]})
    end).

Definition MinRule : Rule := λ attribute value args required _,
  if negb (isPresent value) && negb required then Ran [] else
  must (parseIntegerRuleArg "min" attribute args) (λ min, check (below (derefNonNil value) min) (FailWith CodeMin {["min" := FInt min]})).

Definition MaxRule : Rule := λ attribute value args required _,
  if negb (isPresent value) && negb required then Ran [] else
  must (parseIntegerRuleArg "max" attribute args) (λ max, check (above (derefNonNil value) max) (FailWith CodeMax {["max" := FInt max]})).

(** What [between] can measure. *)
Definition sizable (v : value) : bool :=
  match v with
  | VText name _ => bool_decide (name = "")
  | VInt _ _ _ | VUint _ _ _ | VFloat _ _ _ | VSlice _ _ _ | VArray _ _ | VMap _ _ _ _ => true
  | _ => false
  end.
Definition BetweenRule : Rule := λ attribute value args required _,
  if negb (isPresent value) && negb required then Ran [] else
  must (parseBetweenArgs attribute args) (λ '(min, max),
    let v := derefNonNil value in
    if sizable v then check (below v min || above v max) (FailWith CodeBetween {["min" := FInt min; "max" := FInt max]})
    else Ran [Fail CodeBetween]).

(** [same], [different] and [confirmed]. *)
Definition CompareRule (rule : string) (bad : value → value → bool) (code : RuleCode) : Rule := λ attribute value args _ subject,
  let otherField := Utf8.TrimSpace args in
  if bool_decide (otherField = "") then Panicked (Internal (NewErrInvalidRuleConfig rule attribute "missing comparison field")) else
  other_field rule attribute subject otherField (λ other, check (bad value other) (Fail code)).
Definition SameRule : Rule := CompareRule "same" (λ v o, negb (DeepEqual v o)) CodeSame.
Definition DifferentRule : Rule := CompareRule "different" DeepEqual CodeDifferent.
Definition ConfirmedRule : Rule := CompareRule "confirmed" (λ v o, negb (DeepEqual v o)) CodeConfirmed.

(** The rules on a predeclared string; anything else passes only when it is absent and
    not required. *)
Definition TextRule (ok : string → bool) (code : RuleCode) : Rule := λ _ value _ required _,
  match value with
  | VText "" s => if bool_decide (s = "") && negb required then Ran [] else check (negb (ok s)) (Fail code)
  | _ => if negb (isPresent value) && negb required then Ran [] else Ran [Fail code]
  end.
Definition URLRule : Rule := TextRule (λ s, match ParseRequestURI p s with Some (scheme, host) => negb (bool_decide (scheme = "")) && negb (bool_decide (host = "")) | None => false end) CodeURL.
Definition UUIDRule : Rule := TextRule (uuid_Parse p) CodeUUID.
(** Four digits are a year to [time.Parse]. *)
Definition YearRule : Rule := TextRule yearPattern CodeYear.
Definition MonthRule : Rule := TextRule monthPattern CodeMonth.
Definition PasswordRule : Rule := TextRule validPassword CodePassword.

Definition checkDateValuer (isZero : bool) (raw : value) (required : bool) : Run :=
  if negb (isPresent raw) then check required (Fail CodeDate) else check (required && isZero) (Fail CodeDate).
Definition DateRule : Rule := λ attribute value args required subject,
  match DateValuer p value with
  | Some isZero => checkDateValuer isZero value required
  | None => TextRule ParseDate CodeDate attribute value args required subject
  end.
Definition DateTimeRule : Rule := λ attribute value args required subject,
  match DateValuer p value with
  | Some isZero => checkDateValuer isZero value required
  | None => TextRule (ParseRFC3339 p) CodeDate attribute value args required subject
  end.

Definition InRule : Rule := λ attribute value args required _,
  if negb required && isOptionalZeroValue value then Ran [] else
  if bool_decide (args = "") then Panicked (Internal (NewErrInvalidRuleConfig "in" attribute "missing allowed values")) else
  let allowed := Str.split "," args in
  check (negb (contains allowed (Sprint value))) (FailWith CodeIn {["in" := FStrings allowed]}).

Definition TrimRule : Rule := λ _ _ _ _ _, Ran [].

(** ** The validator (validator.go) *)

Definition defaultRegistry : gmap string Rule :=
  list_to_map [("required", RequiredRule); ("required_if", RequiredIfRule); ("email", EmailRule); ("min", MinRule); ("max", MaxRule); ("in", InRule); ("date", DateRule);
    ("date_time", DateTimeRule); ("year", YearRule); ("month", MonthRule); ("password", PasswordRule); ("confirmed", ConfirmedRule); ("len", LenRule); ("between", BetweenRule);
    ("same", SameRule); ("different", DifferentRule); ("url", URLRule); ("uuid", UUIDRule); ("trim", TrimRule)].

Record Validator : Type := mkValidator { vd_Errors : gmap string (list Failure); vd_DebugErrors : gmap string (list string); vd_registry : gmap string Rule }.

(** The package-level [Register], on the rules of the application. *)
Definition RegisterApp (appRules : gmap string Rule) (name : string) (rule : Rule) : result (gmap string Rule) :=
  if bool_decide (is_Some (defaultRegistry !! name)) then Err (errNew ("validation: rule " +:+ Str.fmt_q name +:+ " is a built-in rule")) else
  if bool_decide (is_Some (appRules !! name)) then Err (errNew ("validation: rule " +:+ Str.fmt_q name +:+ " is already registered")) else
  Ok (<[name := rule]> appRules).

Definition NewWithRules (appRules extra : gmap string Rule) : Validator := mkValidator ∅ ∅ (extra ∪ (appRules ∪ defaultRegistry)).
Definition New (appRules : gmap string Rule) : Validator := NewWithRules appRules ∅.

Definition RegisterOverride (v : Validator) (name : string) (rule : Rule) : Validator :=
  mkValidator (vd_Errors v) (vd_DebugErrors v) (<[name := rule]> (vd_registry v)).
Definition Register (v : Validator) (name : string) (rule : Rule) : result Validator :=
  if bool_decide (is_Some (vd_registry v !! name))
  then Err (errNew ("validator: rule " +:+ Str.fmt_q name +:+ " is already registered " +:+ Utf8.encode 8212 +:+ " use RegisterOverride to replace it"))
  else Ok (RegisterOverride v name rule).

(** A condition that cannot be read counts as met, so that the rule itself panics. *)
Definition isRequiredIfConditionMet (rules : list parsedRule) (attribute : string) (subject : value) : bool :=
  existsb (λ r, bool_decide (r_name r = "required_if") &&
    match parseRequiredIfArgs attribute (r_args r) with
    | Err _ => true
    | Ok (otherField, expected) =>
        match lookupSubjectFieldValue subject otherField with Ok (Some other) => bool_decide (Sprint other = expected) | _ => true end
    end) rules.

(** What was reported, by attribute. *)
Definition Reports : Type := gmap string (list Failure) * gmap string (list string).
Definition fail (attribute rule : string) (m : Reports) (f : Failure) : Reports :=
  (<[attribute := default [] (m.1 !! attribute) ++ [f]]> m.1, <[attribute := default [] (m.2 !! attribute) ++ [rule]]> m.2).

Fixpoint foldM {A B} (f : B → A → outcome verror B) (b : B) (l : list A) : outcome verror B :=
  match l with [] => Ok b | a :: rest => b' ← f b a; foldM f b' rest end.

Section Registry.
Variable registry : gmap string Rule.

Definition runRule (attribute : string) (field : value) (required : bool) (subject : value) (m : Reports) (r : parsedRule) : outcome verror Reports :=
  match registry !! r_name r with
  | None => Err (EUnknownRule (r_name r) attribute)
  | Some rule =>
      match rule attribute (Interface field) (r_args r) required subject with
      | Ran fs => Ok (foldl (fail attribute (r_name r)) m fs)
      | Panicked err => Err (EApp (Internal err))
      | PanickedWith text => Err (EApp (Internal (errNew ("validator: rule " +:+ Str.fmt_q (r_name r) +:+ " on field " +:+ Str.fmt_q attribute +:+ " panicked: " +:+ text))))
      end
  end.

Definition isRequired (rules : list parsedRule) (attribute : string) (subject : value) : bool :=
  hasRule rules "required" || isRequiredIfConditionMet rules attribute subject.

Definition validateRules (subject : value) (m : Reports) (fm : cachedFieldMeta) (attribute : string) (field : value) : outcome verror Reports :=
  if bool_decide (fm_Rules fm = []) then Ok m
  else foldM (runRule attribute field (isRequired (fm_Rules fm) attribute subject) subject) m (fm_Rules fm).

Definition deref (v : value) : value := match v with VPtr _ None => VNil | VPtr _ (Some x) => x | _ => v end.
Definition is_struct (v : value) : bool := match v with VStruct _ _ => true | _ => false end.
Definition elem_prefix (prefix : string) (i : nat) : string := prefix +:+ "[" +:+ Str.fmt_d (Z.of_nat i) +:+ "].".

(** The structs in a field: itself, what it points to, or its elements. *)
Definition nested (fv : value) (prefix : string) : list (string * value) :=
  match deref fv with
  | VStruct n fs => [(prefix +:+ ".", VStruct n fs)]
  | VSlice _ _ l | VArray _ l => List.filter (λ pv, is_struct pv.2) (imap (λ i e, (elem_prefix prefix i, deref e)) l)
  | _ => []
  end.

Definition addr (sv : value) : value := match sv with VStruct n _ => VPtr (TStruct n) (Some sv) | _ => VNil end.

(** One round of fuel a level of nesting: the depth of the value is enough. *)
Fixpoint validateFields (fuel : nat) (rv subject : value) (m : Reports) (prefix : string) : outcome verror Reports :=
  match fuel with
  | O => Ok m
  | S fuel' =>
      let validateStructValue m sv prefix := if sm_HasAnyValidation (meta_of sv) then validateFields fuel' sv (addr sv) m prefix else Ok m in
      foldM (λ m fm,
        let field := FieldByIndex rv (fm_FieldIndex fm) in
        let attribute := prefix +:+ fm_Alias fm in
        m1 ← validateRules subject m fm attribute field;
        match fm_ElemType fm with
        | None => Ok m1
        | Some _ => foldM (λ m pv, validateStructValue m pv.2 pv.1) m1 (nested field attribute)
        end) m (sm_Fields (meta_of rv))
  end.
End Registry.

(** ** The trim pass (trim.go) *)

Definition trimField (canSet : bool) (field : value) (attribute : string) : result value :=
  match field with
  | VPtr t (Some (VText n s)) => Ok (VPtr t (Some (VText n (Utf8.TrimSpace s))))
  | VText n s =>
      if canSet then Ok (VText n (Utf8.TrimSpace s))
      else Err (errNew ("validator: field " +:+ Str.fmt_q attribute +:+ " has the trim rule but its input is not addressable; pass the input by pointer"))
  | _ => Ok field
  end.

Fixpoint trimList (f : nat → value → result value) (i : nat) (l : list value) : result (list value) :=
  match l with [] => Ok [] | x :: rest => y ← f i x; ys ← trimList f (S i) rest; Ok (y :: ys) end.

(** What a pointer points to can be written, and the elements of a slice can. *)
Definition trimElement (trimStruct : bool → value → string → result value) (canSet : bool) (elem : value) (prefix : string) : result value :=
  match elem with
  | VPtr t (Some (VStruct n fs)) => x ← trimStruct true (VStruct n fs) prefix; Ok (VPtr t (Some x))
  | VStruct n fs => trimStruct canSet elem prefix
  | _ => Ok elem
  end.

Definition trimNested (trimStruct : bool → value → string → result value) (canSet : bool) (field : value) (prefix : string) : result value :=
  let go canSet v :=
    match v with
    | VStruct n fs => trimStruct canSet v (prefix +:+ ".")
    | VSlice t isNil l => l' ← trimList (λ i e, trimElement trimStruct true e (elem_prefix prefix i)) 0 l; Ok (VSlice t isNil l')
    | VArray t l => l' ← trimList (λ i e, trimElement trimStruct canSet e (elem_prefix prefix i)) 0 l; Ok (VArray t l')
    | _ => Ok v
    end in
  match field with
  | VPtr t None => Ok field
  | VPtr t (Some v) => x ← go true v; Ok (VPtr t (Some x))
  | _ => go canSet field
  end.

Fixpoint trimFields (f : cachedFieldMeta → value → result value) (v : value) (l : list cachedFieldMeta) : result value :=
  match l with [] => Ok v | fm :: rest => x ← f fm (FieldByIndex v (fm_FieldIndex fm)); trimFields f (set_field v (fm_FieldIndex fm) x) rest end.

Fixpoint trimStruct (fuel : nat) (canSet : bool) (v : value) (prefix : string) : result value :=
  match fuel with
  | O => Ok v
  | S fuel' =>
      if negb (sm_HasAnyValidation (meta_of v)) then Ok v else
      trimFields (λ fm field,
        let attribute := prefix +:+ fm_Alias fm in
        x ← (if fm_Trim fm then trimField canSet field attribute else Ok field);
        if bool_decide (is_Some (fm_ElemType fm)) then trimNested (trimStruct fuel') canSet x attribute else Ok x) v (sm_Fields (meta_of v))
  end.

(** ** Validate (validator.go) and ValidateInput (input.go) *)

Definition type_of (v : value) : option type :=
  match v with
  | VNil => None
  | VBool n _ => Some (TBasic Bool n)
  | VInt b n _ | VUint b n _ | VFloat b n _ => Some (TBasic b n)
  | VText n _ => Some (TBasic Text n)
  | VOther n _ => Some (TBasic Other n)
  | VPtr t _ => Some (TPtr t)
  | VSlice t _ _ => Some (TSlice t)
  | VArray t l => Some (TArray (length l) t)
  | VMap k t _ _ => Some (TMap k t)
  | VInterface _ => Some TInterface
  | VStruct n _ => Some (TStruct n)
  end.
Definition not_a_struct (subject : value) : error :=
  BadRequest ("validator.Validate: subject must be a non-nil pointer to a struct, got " +:+ match type_of subject with Some t => type_string t | None => "<nil>" end).

(** The answer, nil or an error, the subject with its fields trimmed, and the validator. *)
Definition Validate (v : Validator) (subject : value) : option verror * value * Validator :=
  match subject with
  | VPtr t (Some (VStruct n fs)) =>
      let rv := VStruct n fs in
      match trimStruct (S (depth rv)) true rv "" with
      | Err err => (Some (EApp (BadRequest (error_text err))), subject, v)
      | Ok rv' =>
          let subject' := VPtr t (Some rv') in
          match validateFields (vd_registry v) (S (depth rv')) rv' subject' (∅, ∅) "" with
          | Err e => (Some e, subject', v)
          | Ok m => ((if bool_decide (m.1 = ∅) then None else Some (EInvalid m.1 m.2)), subject', mkValidator m.1 m.2 (vd_registry v))
          end
      end
  | _ => (Some (EApp (not_a_struct subject)), subject, v)
  end.

Definition ValidateInput (appRules : gmap string Rule) (v : value) : option verror * value :=
  match Validate (New appRules) v with
  | (None, v', _) => (None, v')
  | (Some (EInvalid fs ds), v', _) => (Some (EInvalid fs ds), v')
  | (Some e, v', _) => (Some (EApp (BadRequest (verror_text e))), v')
  end.

(** ** Checking the rules of a type (check.go) *)

Definition unknownRule (typ field rule : string) : error :=
  errNew ("validation: " +:+ typ +:+ "." +:+ field +:+ " has the unknown rule " +:+ Str.fmt_q rule +:+
    (if Str.contains_char "=" rule || Str.contains_char "," rule then " (arguments follow a colon, as in max:10; rules are separated by |)" else "")).

Definition checkTrim (typ : string) (field : cachedFieldMeta) : option error :=
  let base := match fm_Type field with TPtr e => e | t => t end in
  let isString := match base with TBasic Text _ => true | _ => false end in
  if negb isString then
    Some (errNew ("validation: " +:+ typ +:+ "." +:+ fm_GoName field +:+ " has the trim rule but is a " +:+ type_string (fm_Type field) +:+ "; trim applies to string and *string"))
  else if hasRule (fm_Rules field) "in" then
    Some (errNew ("validation: " +:+ typ +:+ "." +:+ fm_GoName field +:+ " combines trim with in; an enum value is not trimmed, a padded one is a client bug"))
  else None.

(** The rules of one field. *)
Definition checkField (registry : gmap string Rule) (typ : string) (field : cachedFieldMeta) : option error :=
  match List.find (λ r, bool_decide (registry !! r_name r = None)) (fm_Rules field) with
  | Some r => Some (unknownRule typ (fm_GoName field) (r_name r))
  | None => if fm_Trim field then checkTrim typ field else None
  end.

(** The types seen afterwards, or the error; None is out of fuel. *)
Fixpoint checkFields (checkType : type → gset string → option (result (gset string))) (registry : gmap string Rule) (typ : string) (l : list cachedFieldMeta) (seen : gset string) :
    option (result (gset string)) :=
  match l with
  | [] => Some (Ok seen)
  | field :: rest =>
      match checkField registry typ field with
      | Some err => Some (Err err)
      | None =>
          match fm_ElemType field with
          | None => checkFields checkType registry typ rest seen
          | Some e =>
              match checkType (TStruct e) seen with
              | Some (Ok seen') => checkFields checkType registry typ rest seen'
              | other => other
              end
          end
      end
  end.

Fixpoint checkType (registry : gmap string Rule) (fuel : nat) (typ : type) (seen : gset string) : option (result (gset string)) :=
  match innerStructType typ with
  | None => Some (Ok seen)
  | Some n =>
      if bool_decide (n ∈ seen) then Some (Ok seen) else
      match fuel with
      | O => None
      | S fuel' => checkFields (checkType registry fuel') registry n (sm_Fields (buildStructMeta n)) ({[n]} ∪ seen)
      end
  end.

(** As many rounds as there are structs, and one for a struct without fields. *)
Fixpoint CheckRules_loop (registry : gmap string Rule) (types : list type) : option (option error) :=
  match types with
  | [] => Some None
  | t :: rest =>
      match checkType registry (S (size (decls p))) t ∅ with
      | None => None
      | Some (Err err) => Some (Some err)
      | Some (Ok _) => CheckRules_loop registry rest
      end
  end.
Definition CheckRules (appRules : gmap string Rule) (types : list type) : option (option error) := CheckRules_loop (vd_registry (New appRules)) types.

(** ** Text a utf8mb3 column cannot hold (storable.go) *)

(** A rune UTF-8 encodes in four bytes. *)
Definition HasUnsupportedChars (s : string) : bool := existsb (λ r, 65536 <=? r) (Utf8.runes s).

Definition storableJSONName (sf : StructField) : string :=
  let name := (Str.cut "," (tag_Get (sf_Tag sf) "json")).1.1 in if bool_decide (name = "") then sf_Name sf else name.
Definition joinStorablePath (prefix name : string) : string := if bool_decide (prefix = "") then name else prefix +:+ "." +:+ name.

Fixpoint collectUnstorable (val : value) (prefix : string) : list string :=
  match val with
  | VPtr _ (Some x) | VInterface (Some x) => collectUnstorable x prefix
  | VText _ s => if HasUnsupportedChars s then [prefix] else []
  | VStruct n fs =>
      (fix fields (vs : list value) (sfs : list StructField) : list string :=
         match vs, sfs with
         | v :: vs', sf :: sfs' =>
             (if bool_decide (sf_PkgPath sf = "") && negb (bool_decide (storableJSONName sf = "-"))
              then collectUnstorable v (joinStorablePath prefix (storableJSONName sf)) else []) ++ fields vs' sfs'
         | _, _ => []
         end) fs (default [] (decls p !! n))
  | VSlice _ _ l | VArray _ l =>
      (fix elements (i : nat) (vs : list value) : list string :=
         match vs with [] => [] | v :: vs' => collectUnstorable v (joinStorablePath prefix (Str.fmt_d (Z.of_nat i))) ++ elements (S i) vs' end) O l
  | _ => []
  end.

Definition CheckStorable (v : value) : option verror :=
  match collectUnstorable v "" with
  | [] => None
  | fields =>
      Some (EInvalid (list_to_map ((λ f, (f, [Fail CodeUnsupportedCharacters])) <$> fields)) (list_to_map ((λ f, (f, [CodeUnsupportedCharacters])) <$> fields)))
  end.
End Validator.
