(* ===== verification/ValidFacts.v ===== *)
(** * What a validation checks

    The checks of a value as a list, in the order the validator runs them, and as a
    relation that says where they are; the trim pass; the search over types. *)

From Stdlib Require Import Ascii SpecFloat.
From S2P Require Import Prelude Apperr Clock Reflect Validation.

Local Open Scope Z_scope.

(** ** Folding with errors *)

Section FoldM.
Context {A B : Type}.

Lemma foldM_app (f : B → A → outcome verror B) b l1 l2 : foldM f b (l1 ++ l2) = (b' ← foldM f b l1; foldM f b' l2).
Proof. revert b. induction l1 as [|a l1 IH]; intros b; cbn; [done|]. destruct (f b a); cbn; [apply IH|done]. Qed.

Lemma foldM_ext (f g : B → A → outcome verror B) b l : (∀ b a, a ∈ l → f b a = g b a) → foldM f b l = foldM g b l.
Proof.
  revert b. induction l as [|a l IH]; intros b H; cbn; [done|]. rewrite (H b a) by left. destruct (g b a); cbn; [|done]. apply IH. intros. apply H. by right.
Qed.

Lemma foldM_flat_map {C} (f : B → A → outcome verror B) (g : C → list A) b l : foldM f b (flat_map g l) = foldM (λ b x, foldM f b (g x)) b l.
Proof. revert b. induction l as [|c l IH]; intros b; cbn; [done|]. rewrite foldM_app. destruct (foldM f b (g c)); cbn; [apply IH|done]. Qed.

Lemma foldM_fmap {C} (f : B → A → outcome verror B) (g : C → A) b l : foldM f b (g <$> l) = foldM (λ b x, f b (g x)) b l.
Proof. revert b. induction l as [|c l IH]; intros b; cbn; [done|]. destruct (f b (g c)); cbn; [apply IH|done]. Qed.
End FoldM.

(** ** Checks *)

Record Check : Type := mkCheck { ck_attribute : string; ck_rule : parsedRule; ck_value : value; ck_required : bool; ck_subject : value }.

Section Checks.
Variables (p : Program) (registry : gmap string Rule).

(** What a check answers; None is a rule nobody registered. *)
Definition ck_run (c : Check) : option Run :=
  (λ rule : Rule, rule (ck_attribute c) (ck_value c) (r_args (ck_rule c)) (ck_required c) (ck_subject c)) <$> registry !! r_name (ck_rule c).

Definition field_check (subject : value) (fm : cachedFieldMeta) (attribute : string) (field : value) (r : parsedRule) : Check :=
  mkCheck attribute r (Interface field) (isRequired p (fm_Rules fm) attribute subject) subject.

(** Where the checks of a struct are: on its fields, and on the structs in them. *)
Inductive checked : value → value → string → Check → Prop :=
| checked_rule rv subject prefix fm r : fm ∈ sm_Fields (meta_of p rv) → r ∈ fm_Rules fm →
    checked rv subject prefix (field_check subject fm (prefix +:+ fm_Alias fm) (FieldByIndex rv (fm_FieldIndex fm)) r)
| checked_nested rv subject prefix fm n prefix' sv c : fm ∈ sm_Fields (meta_of p rv) → fm_ElemType fm = Some n →
    (prefix', sv) ∈ nested (FieldByIndex rv (fm_FieldIndex fm)) (prefix +:+ fm_Alias fm) → checked sv (addr sv) prefix' c → checked rv subject prefix c.

Fixpoint checks (fuel : nat) (rv subject : value) (prefix : string) : list Check :=
  match fuel with
  | O => []
  | S fuel' =>
      flat_map (λ fm, let field := FieldByIndex rv (fm_FieldIndex fm) in let attribute := prefix +:+ fm_Alias fm in
        (field_check subject fm attribute field <$> fm_Rules fm) ++
        match fm_ElemType fm with None => [] | Some _ => flat_map (λ pv, checks fuel' pv.2 (addr pv.2) pv.1) (nested field attribute) end) (sm_Fields (meta_of p rv))
  end.

Definition runCheck (m : Reports) (c : Check) : outcome verror Reports :=
  match ck_run c with
  | None => Err (EUnknownRule (r_name (ck_rule c)) (ck_attribute c))
  | Some (Ran fs) => Ok (foldl (fail (ck_attribute c) (r_name (ck_rule c))) m fs)
  | Some (Panicked err) => Err (EApp (Internal err))
  | Some (PanickedWith text) =>
      Err (EApp (Internal (errNew ("validator: rule " +:+ Str.fmt_q (r_name (ck_rule c)) +:+ " on field " +:+ Str.fmt_q (ck_attribute c) +:+ " panicked: " +:+ text))))
  end.

Lemma runRule_check subject fm attribute field m r :
  runRule registry attribute field (isRequired p (fm_Rules fm) attribute subject) subject m r = runCheck m (field_check subject fm attribute field r).
Proof. unfold runRule, runCheck, ck_run. cbn. by destruct (registry !! r_name r). Qed.

(** A type without validation has nothing to check. *)
Lemma no_validation rv fm : sm_HasAnyValidation (meta_of p rv) = false → fm ∈ sm_Fields (meta_of p rv) → fm_Rules fm = [] ∧ fm_ElemType fm = None.
Proof.
  destruct rv; cbn; try set_solver. intros H Hfm.
  assert ((0 <? length (fm_Rules fm))%nat || bool_decide (is_Some (fm_ElemType fm)) = false) as [H1 H2]%orb_false_iff.
  { apply not_true_is_false. intros Ht. apply Bool.not_true_iff_false in H. apply H, existsb_elem. eauto. }
  split; [destruct (fm_Rules fm); [done|by apply Nat.ltb_ge in H1; cbn in H1; lia]|]. destruct (fm_ElemType fm); [|done]. by rewrite bool_decide_eq_true_2 in H2.
Qed.

Lemma elem_of_flat_map {A B} (f : A → list B) (l : list A) y : y ∈ flat_map f l ↔ ∃ x, x ∈ l ∧ y ∈ f x.
Proof. rewrite list_elem_of_In, in_flat_map. setoid_rewrite list_elem_of_In. done. Qed.

Lemma checks_none fuel rv subject prefix : sm_HasAnyValidation (meta_of p rv) = false → checks fuel rv subject prefix = [].
Proof.
  intros H. destruct (checks fuel rv subject prefix) as [|c l] eqn:E; [done|]. exfalso. assert (c ∈ checks fuel rv subject prefix) as Hc by (rewrite E; left).
  destruct fuel as [|fuel]; [by apply elem_of_nil in Hc|]. apply elem_of_flat_map in Hc as (fm & Hfm & Hc). destruct (no_validation rv fm H Hfm) as [H1 H2]. rewrite H1, H2 in Hc.
  by apply elem_of_nil in Hc.
Qed.

(** The validator runs exactly these checks, in this order. *)
Lemma validateFields_checks fuel rv subject m prefix : validateFields p registry fuel rv subject m prefix = foldM runCheck m (checks fuel rv subject prefix).
Proof.
  revert rv subject m prefix. induction fuel as [|fuel IH]; intros rv subject m prefix; [done|]. cbn [validateFields checks]. rewrite foldM_flat_map.
  apply foldM_ext. intros m1 fm _. rewrite foldM_app, foldM_fmap.
  assert (validateRules p registry subject m1 fm (prefix +:+ fm_Alias fm) (FieldByIndex rv (fm_FieldIndex fm)) =
    foldM (λ b r, runCheck b (field_check subject fm (prefix +:+ fm_Alias fm) (FieldByIndex rv (fm_FieldIndex fm)) r)) m1 (fm_Rules fm)) as ->.
  { unfold validateRules. case_bool_decide as Er; [by rewrite Er|]. apply foldM_ext. intros. apply runRule_check. }
  destruct (foldM _ m1 (fm_Rules fm)) as [m2|]; [|done]. cbn. destruct (fm_ElemType fm); [|done]. rewrite foldM_flat_map. apply foldM_ext. intros m3 [pr sv] _. cbn.
  destruct (sm_HasAnyValidation (meta_of p sv)) eqn:E; [apply IH|]. by rewrite checks_none.
Qed.

(** *** The depth of a value is fuel enough *)

Lemma depth_elem l v : v ∈ l → (depth v <= list_max (depth <$> l))%nat.
Proof.
  intros H. pose proof (proj1 (list_max_le (depth <$> l) (list_max (depth <$> l))) (le_n _)) as Hf. rewrite List.Forall_forall in Hf. apply Hf, in_map. by apply list_elem_of_In.
Qed.

Lemma FieldByIndex_depth v path : (depth (FieldByIndex v path) <= depth v)%nat.
Proof.
  revert v. induction path as [|i path IH]; intros v; cbn; [lia|]. destruct v; cbn; try lia. destruct (fields !! i) as [x|] eqn:E; cbn; [|etrans; [apply IH|cbn; lia]].
  etrans; [apply IH|]. pose proof (depth_elem fields x). apply list_elem_of_lookup_2 in E. specialize (H E). unfold fmap in H. cbn. unfold fmap. lia.
Qed.

Lemma FieldByIndex_deeper v path : path ≠ [] → (∃ n fs, v = VStruct n fs) → (depth (FieldByIndex v path) < depth v)%nat.
Proof.
  destruct path as [|i path]; [done|]. intros _ (n & fs & ->). cbn [FieldByIndex]. pose proof (FieldByIndex_depth (default VNil (fs !! i)) path) as H.
  destruct (fs !! i) as [x|] eqn:E; cbn in H |- *; [|lia]. apply list_elem_of_lookup_2 in E. pose proof (depth_elem fs x E) as H1. unfold fmap in *. lia.
Qed.

Lemma deref_depth v : (depth (deref v) <= depth v)%nat.
Proof. destruct v as [| | | | | | |t [x|]| | | | |]; cbn; lia. Qed.

Lemma nested_struct fv prefix pr sv : (pr, sv) ∈ nested fv prefix → (∃ n fs, sv = VStruct n fs) ∧ (depth sv <= depth fv)%nat.
Proof.
  pose proof (deref_depth fv) as Hd. unfold nested. assert (∀ l, (depth (VStruct "" l) <= depth (deref fv))%nat →
    (pr, sv) ∈ List.filter (λ pv, is_struct pv.2) (imap (λ i e, (elem_prefix prefix i, deref e)) l) → (∃ n fs, sv = VStruct n fs) ∧ (depth sv <= depth fv)%nat) as Hl.
  { intros l Hl [H1 H2]%elem_of_filter_bool. cbn in H2. split; [by destruct sv; try done; eauto|]. apply elem_of_lookup_imap in H1 as (i & x & [= _ ->] & Hx).
    apply list_elem_of_lookup_2 in Hx. pose proof (depth_elem l x Hx). pose proof (deref_depth x). cbn in Hl. unfold fmap in *. lia. }
  destruct (deref fv) eqn:E; try (intros H; by apply elem_of_nil in H).
  - apply Hl. cbn. lia.
  - apply Hl. cbn. lia.
  - intros [= -> ->]%list_elem_of_singleton. split; [eauto|done].
Qed.

Lemma flatten_index fuel l prefix fi : (∀ x, x ∈ l → fi_Index x ≠ []) → fi ∈ flattenEmbedded p fuel l prefix → fi_Index fi ≠ [].
Proof.
  revert l prefix. induction fuel as [|fuel IH]; intros l prefix Hl Hfi; [by apply elem_of_nil in Hfi|]. apply elem_of_flat_map in Hfi as (x & Hx & Hfi). specialize (Hl x Hx).
  assert (fi_Index (mkInfo (fi_Field x) (prefix ++ fi_Index x)) ≠ []) as Hne by (cbn; destruct (fi_Index x); [done|by destruct prefix]).
  cbn zeta in Hfi. destruct (sf_Type (fi_Field x)) as [| | | | | |n]; try (by apply list_elem_of_singleton in Hfi as ->).
  destruct (sf_Anonymous (fi_Field x) && bool_decide (sf_Tag (fi_Field x) = [])); [|by apply list_elem_of_singleton in Hfi as ->]. eapply IH; [|exact Hfi]. intros y Hy. unfold FieldsByType in Hy. by apply elem_of_lookup_imap in Hy as (i & f & -> & _).
Qed.

Lemma field_path rv fm : fm ∈ sm_Fields (meta_of p rv) → fm_FieldIndex fm ≠ [] ∧ ∃ n fs, rv = VStruct n fs.
Proof.
  destruct rv; try (intros H; by apply elem_of_nil in H). unfold meta_of, buildStructMeta. cbn [sm_Fields]. intros (fi & -> & Hfi)%list_elem_of_fmap. split; [|eauto].
  unfold exported_fields in Hfi. change (fm_FieldIndex (fieldMeta fi)) with (fi_Index fi).
  apply elem_of_filter_bool in Hfi as [Hfi _]. eapply flatten_index; [|exact Hfi]. intros y Hy. by apply elem_of_lookup_imap in Hy as (i & f & -> & _).
Qed.

Lemma nested_deeper rv fm prefix pr sv : fm ∈ sm_Fields (meta_of p rv) → (pr, sv) ∈ nested (FieldByIndex rv (fm_FieldIndex fm)) prefix → (depth sv < depth rv)%nat.
Proof. intros [Hp Hs]%field_path [_ Hd]%nested_struct. pose proof (FieldByIndex_deeper rv _ Hp Hs). lia. Qed.

Lemma checks_checked fuel rv subject prefix c : (depth rv < fuel)%nat → c ∈ checks fuel rv subject prefix ↔ checked rv subject prefix c.
Proof.
  intros Hf. split.
  - clear Hf. revert rv subject prefix. induction fuel as [|fuel IH]; intros rv subject prefix H; [by apply elem_of_nil in H|].
    apply elem_of_flat_map in H as (fm & Hfm & [(r & -> & Hr)%list_elem_of_fmap|H]%elem_of_app); [by constructor|].
    destruct (fm_ElemType fm) eqn:E; [|by apply elem_of_nil in H]. apply elem_of_flat_map in H as ([pr sv] & Hn & H). econstructor; eauto.
  - intros H. revert fuel Hf. induction H as [rv subject prefix fm r Hfm Hr|rv subject prefix fm n pr sv c Hfm He Hn _ IH]; intros [|fuel] Hf; try lia; cbn [checks]; apply elem_of_flat_map;
      exists fm; (split; [done|]); apply elem_of_app; [left; apply list_elem_of_fmap; eauto|right]. rewrite He. apply elem_of_flat_map. exists (pr, sv). split; [done|]. cbn. apply IH.
    pose proof (nested_deeper rv fm _ pr sv Hfm Hn). lia.
Qed.

(** *** The outcome of a list of checks *)

(** The failures reported for an attribute. *)
Definition failures_at (cs : list Check) (a : string) : list Failure :=
  flat_map (λ c, match ck_run c with Some (Ran fs) => if bool_decide (ck_attribute c = a) then fs else [] | _ => [] end) cs.
Definition ran (c : Check) : Prop := ∃ fs, ck_run c = Some (Ran fs).

Lemma fail_lookup a' n m fs a : default [] ((foldl (fail a' n) m fs).1 !! a) = default [] (m.1 !! a) ++ (if bool_decide (a' = a) then fs else []).
Proof.
  revert m. induction fs as [|f fs IH]; intros m; cbn; [by destruct (bool_decide _); rewrite app_nil_r|]. rewrite IH. cbn. case_bool_decide as Ha.
  - subst. rewrite lookup_insert_eq. cbn. by rewrite <- app_assoc.
  - by rewrite lookup_insert_ne.
Qed.

Lemma foldM_reports cs m : match foldM runCheck m cs with
  | Ok m' => (∀ c, c ∈ cs → ran c) ∧ ∀ a, default [] (m'.1 !! a) = default [] (m.1 !! a) ++ failures_at cs a
  | Err (EUnknownRule n a) => ∃ c, c ∈ cs ∧ ck_attribute c = a ∧ r_name (ck_rule c) = n ∧ registry !! n = None
  | Err (EApp _) => ∃ c r, c ∈ cs ∧ ck_run c = Some r ∧ ∀ fs, r ≠ Ran fs
  | Err (EInvalid _ _) => False
  end.
Proof.
  revert m. induction cs as [|c cs IH]; intros m; cbn; [split; [intros ? H; by apply elem_of_nil in H|intros a; by rewrite app_nil_r]|].
  destruct (runCheck m c) as [m1|e] eqn:E; cbn; unfold runCheck in E.
  - destruct (ck_run c) as [[fs| |]|] eqn:Er; try done. injection E as <-. specialize (IH (foldl (fail (ck_attribute c) (r_name (ck_rule c))) m fs)).
    destruct (foldM _ _ cs) as [m'|[n a|err|]]; [| | |done].
    + destruct IH as [H1 H2]. split; [intros c' [->|]%elem_of_cons; [by exists fs|auto]|]. intros a. rewrite H2, fail_lookup. by rewrite <- app_assoc.
    + destruct IH as (c' & ? & ?). exists c'. split; [by right|done].
    + destruct IH as (c' & r & ? & ?). exists c', r. split; [by right|done].
  - destruct (ck_run c) as [[fs|err|t]|] eqn:Er; try done; injection E as <-.
    + exists c, (Panicked err). split_and!; [left|done|done].
    + exists c, (PanickedWith t). split_and!; [left|done|done].
    + exists c. split_and!; [left|done|done|]. unfold ck_run in Er. by destruct (registry !! _).
Qed.
(** An attribute is listed only with failures. *)
Lemma foldM_listed cs m m' : (∀ a, m.1 !! a ≠ Some []) → foldM runCheck m cs = Ok m' → ∀ a, m'.1 !! a ≠ Some [].
Proof.
  assert (∀ at_ n fs m, (∀ a, m.1 !! a ≠ Some []) → ∀ a, (foldl (fail at_ n) m fs).1 !! a ≠ Some []) as Hf.
  { intros at_ n fs. induction fs as [|f fs IH]; intros w Hw; [done|]. cbn. apply IH. intros a. cbn. destruct (decide (at_ = a)) as [->|Hne]; [|by rewrite lookup_insert_ne].
    rewrite lookup_insert_eq. intros [= E]. by destruct (default [] (w.1 !! a)). }
  revert m. induction cs as [|c cs IH]; intros m Hm; cbn; [by intros [= <-]|]. destruct (runCheck m c) as [m1|] eqn:E; [|done]. cbn. apply IH. unfold runCheck in E.
  destruct (ck_run c) as [[fs| |]|]; try done. injection E as <-. by apply Hf.
Qed.

Lemma elem_of_failures_at cs a f : f ∈ failures_at cs a ↔ ∃ c l, c ∈ cs ∧ ck_attribute c = a ∧ ck_run c = Some (Ran l) ∧ f ∈ l.
Proof.
  unfold failures_at. rewrite elem_of_flat_map. split.
  - intros (c & Hc & H). destruct (ck_run c) as [[l| |]|] eqn:E; try by apply elem_of_nil in H. case_bool_decide; [eauto 8|by apply elem_of_nil in H].
  - intros (c & l & Hc & <- & E & Hf). exists c. split; [done|]. by rewrite E, bool_decide_eq_true_2.
Qed.

Lemma foldM_answer cs m : foldM runCheck (∅, ∅) cs = Ok m →
  (∀ c, c ∈ cs → ran c) ∧ (m.1 = ∅ ↔ ∀ c, c ∈ cs → ck_run c = Some (Ran [])) ∧
  ∀ a f, f ∈ default [] (m.1 !! a) ↔ ∃ c l, c ∈ cs ∧ ck_attribute c = a ∧ ck_run c = Some (Ran l) ∧ f ∈ l.
Proof.
  intros E. pose proof (foldM_reports cs (∅, ∅)) as H. rewrite E in H. destruct H as [Hran Hat]. assert (∀ a, m.1 !! a ≠ Some []) as Hl.
  { eapply foldM_listed; [|exact E]. intros a. cbn. by rewrite lookup_empty. }
  assert (∀ a, default [] (m.1 !! a) = failures_at cs a) as Hat' by (intros a; by rewrite Hat; cbn; rewrite lookup_empty).
  split_and!; [done| |intros a f; rewrite Hat'; apply elem_of_failures_at]. split.
  - intros Hm c Hc. destruct (Hran c Hc) as [[|f l] Hf]; [done|]. exfalso. assert (f ∈ failures_at cs (ck_attribute c)) as Hin by (apply elem_of_failures_at; exists c, (f :: l); split_and!; [done..|left]).
    rewrite <- Hat', Hm, lookup_empty in Hin. by apply elem_of_nil in Hin.
  - intros H. apply map_eq. intros a. rewrite lookup_empty. specialize (Hat' a). destruct (m.1 !! a) as [[|f l]|] eqn:Ea; [by destruct (Hl a)| |done]. exfalso. cbn in Hat'.
    assert (f ∈ failures_at cs a) as (c & l' & Hc & _ & Er & Hf)%elem_of_failures_at by (rewrite <- Hat'; left). rewrite (H c Hc) in Er. injection Er as <-. by apply elem_of_nil in Hf.
Qed.
End Checks.

(** ** Metadata *)

Section Metadata.
Variable p : Program.

(** The cache never changes what is read. *)
Definition cache_true (c : gmap string cachedStructMeta) : Prop := ∀ n m, c !! n = Some m → m = buildStructMeta p n.

Lemma cache_get_true c t : cache_true c →
  (cache_get p c t).1 = match (match t with TPtr e => e | _ => t end) with TStruct n => buildStructMeta p n | _ => emptyMeta end ∧ cache_true (cache_get p c t).2.
Proof.
  intros Hc. unfold cache_get. destruct (match t with TPtr e => e | _ => t end) as [| | | | | |n]; try done. destruct (c !! n) as [m|] eqn:E; [by rewrite (Hc n m E)|]. split; [done|].
  intros k m. cbn. destruct (decide (k = n)) as [->|Hne]; [rewrite lookup_insert_eq; by intros [= <-]|rewrite lookup_insert_ne by done; apply Hc].
Qed.

(** Where embedding goes down a rank, as it does in every Go program, fuel beyond the rank
    changes nothing. *)
Lemma flatten_enough (rank : string → nat) fuel n prefix :
  (∀ m x k, x ∈ FieldsByType p m → sf_Anonymous (fi_Field x) = true → sf_Type (fi_Field x) = TStruct k → (rank k < rank m)%nat) → (rank n < fuel)%nat →
  flattenEmbedded p (S fuel) (FieldsByType p n) prefix = flattenEmbedded p fuel (FieldsByType p n) prefix.
Proof.
  intros Hr. revert n prefix. induction fuel as [|fuel IH]; intros n prefix Hn; [lia|]. cbn [flattenEmbedded]. assert (∀ x, x ∈ FieldsByType p n → x ∈ FieldsByType p n) as Hin by done. revert Hin.
  generalize (FieldsByType p n) at 1 3 4. intros l Hl. induction l as [|x l IHl]; [done|]. cbn [flat_map]. rewrite IHl by (intros; apply Hl; by right). f_equal.
  destruct (sf_Type (fi_Field x)) as [| | | | | |k] eqn:Et; try done. destruct (sf_Anonymous (fi_Field x)) eqn:Ea; [|done]. cbn [andb]. case_bool_decide; [|done]. apply IH.
  specialize (Hr n x k (Hl x (list_elem_of_here _ _)) Ea Et). lia.
Qed.
End Metadata.

(** ** The trim pass *)

Definition trim_text (field : value) : value :=
  match field with
  | VPtr t (Some (VText n s)) => VPtr t (Some (VText n (Utf8.TrimSpace s)))
  | VText n s => VText n (Utf8.TrimSpace s)
  | _ => field
  end.

(** The same pass where every field can be written. *)
Section Trim.
Variable p : Program.

Definition trim_elem (tr : value → value) (e : value) : value :=
  match e with VPtr t (Some (VStruct n fs)) => VPtr t (Some (tr (VStruct n fs))) | VStruct _ _ => tr e | _ => e end.
Definition trim_in (tr : value → value) (v : value) : value :=
  match v with
  | VStruct _ _ => tr v
  | VSlice t b l => VSlice t b (trim_elem tr <$> l)
  | VArray t l => VArray t (trim_elem tr <$> l)
  | _ => v
  end.
Definition trim_nested (tr : value → value) (field : value) : value := match field with VPtr t (Some v) => VPtr t (Some (trim_in tr v)) | _ => trim_in tr field end.
Definition trim_one (tr : value → value) (fm : cachedFieldMeta) (x : value) : value :=
  let x := if fm_Trim fm then trim_text x else x in if bool_decide (is_Some (fm_ElemType fm)) then trim_nested tr x else x.
Definition trim_step (tr : value → value) (w : value) (fm : cachedFieldMeta) : value :=
  set_field w (fm_FieldIndex fm) (trim_one tr fm (FieldByIndex w (fm_FieldIndex fm))).

Fixpoint trimmed (fuel : nat) (v : value) : value :=
  match fuel with O => v | S fuel' => if negb (sm_HasAnyValidation (meta_of p v)) then v else foldl (trim_step (trimmed fuel')) v (sm_Fields (meta_of p v)) end.

Lemma trimList_ok (f : nat → value → result value) (g : value → value) i l : (∀ i e, f i e = Ok (g e)) → trimList f i l = Ok (g <$> l).
Proof. intros H. revert i. induction l as [|x l IH]; intros i; cbn; [done|]. rewrite H. cbn. by rewrite IH. Qed.

Lemma trimNested_ok tr g field prefix : (∀ v pr, tr true v pr = Ok (g v)) → trimNested tr true field prefix = Ok (trim_nested g field).
Proof.
  intros H. assert (∀ e pr, trimElement tr true e pr = Ok (trim_elem g e)) as He.
  { intros e pr. destruct e as [| | | | | | |t [[]|]| | | | |]; cbn; rewrite ?H; done. }
  destruct field as [| | | | | | |t [[]|]| | | | |]; cbn; rewrite ?H; try done; by rewrite (trimList_ok _ (trim_elem g)).
Qed.

(** Through a pointer nothing refuses to be written. *)
Lemma trimStruct_ok fuel v prefix : trimStruct p fuel true v prefix = Ok (trimmed fuel v).
Proof.
  revert v prefix. induction fuel as [|fuel IH]; intros v prefix; [done|]. cbn [trimStruct trimmed]. destruct (negb _); [done|].
  generalize v at 1 3. induction (sm_Fields (meta_of p v)) as [|fm l IHl]; intros w; [done|]. cbn [trimFields foldl].
  assert ((x ← (if fm_Trim fm then trimField true (FieldByIndex w (fm_FieldIndex fm)) (prefix +:+ fm_Alias fm) else Ok (FieldByIndex w (fm_FieldIndex fm)));
    if bool_decide (is_Some (fm_ElemType fm)) then trimNested (trimStruct p fuel) true x (prefix +:+ fm_Alias fm) else Ok x) =
    Ok (trim_one (trimmed fuel) fm (FieldByIndex w (fm_FieldIndex fm)))) as ->; [|cbn; apply IHl].
  assert ((if fm_Trim fm then trimField true (FieldByIndex w (fm_FieldIndex fm)) (prefix +:+ fm_Alias fm) else Ok (FieldByIndex w (fm_FieldIndex fm))) =
    Ok (if fm_Trim fm then trim_text (FieldByIndex w (fm_FieldIndex fm)) else FieldByIndex w (fm_FieldIndex fm))) as ->.
  { destruct (fm_Trim fm); [|done]. by destruct (FieldByIndex w (fm_FieldIndex fm)) as [| | | | | | |t [[]|]| | | | |]. }
  cbn. unfold trim_one. destruct (bool_decide (is_Some (fm_ElemType fm))); [|done]. by apply trimNested_ok.
Qed.

(** *** Fields and their paths *)

(** Two paths that part. *)
Definition apart (a b : list nat) : Prop := ∃ c i j x y, i ≠ j ∧ a = c ++ i :: x ∧ b = c ++ j :: y.

Lemma apart_sym a b : apart a b → apart b a.
Proof. intros (c & i & j & x & y & H & -> & ->). exists c, j, i, y, x. auto. Qed.

Lemma set_field_apart v a b x : apart a b → FieldByIndex (set_field v a x) b = FieldByIndex v b.
Proof.
  intros (c & i & j & r & s & Hne & -> & ->). revert v. induction c as [|k c IH]; intros v; cbn; destruct v; try done; cbn.
  - by rewrite list_lookup_insert_ne.
  - destruct (decide (k < length fields)%nat) as [Hk|Hk].
    + rewrite list_lookup_insert_eq by done. cbn. apply IH.
    + rewrite list_insert_ge by lia. done.
Qed.

Lemma set_field_same v a : set_field v a (FieldByIndex v a) = v.
Proof.
  revert v. induction a as [|i a IH]; intros v; cbn; [done|]. destruct v; try done. f_equal. rewrite IH. destruct (fields !! i) as [x|] eqn:E; cbn; [by apply list_insert_id|].
  apply list_insert_ge. by apply lookup_ge_None in E.
Qed.

(** A field that is written is read back, unless the path leads nowhere. *)
Lemma set_field_back v a x : FieldByIndex (set_field v a x) a = x ∨ (FieldByIndex v a = VNil ∧ set_field v a x = v).
Proof.
  revert v. induction a as [|i a IH]; intros v; cbn; [by left|]. destruct v; try (by right). cbn. destruct (fields !! i) as [y|] eqn:E; cbn.
  - rewrite list_lookup_insert_eq by (by eapply lookup_lt_Some). cbn. destruct (IH y) as [H|[H1 H2]]; [by left|right]. rewrite H2, list_insert_id by done. done.
  - right. rewrite (list_insert_ge _ _ _ (proj1 (lookup_ge_None _ _) E)). split; [|done]. clear. by induction a.
Qed.

Lemma set_field_struct n fs a x : a ≠ [] → ∃ fs', set_field (VStruct n fs) a x = VStruct n fs'.
Proof. destruct a as [|i a]; [done|]. cbn. eauto. Qed.

Lemma flatten_prefix fuel l prefix fi : (∀ x, x ∈ l → ∃ i, fi_Index x = [i]) → fi ∈ flattenEmbedded p fuel l prefix → ∃ x i r, x ∈ l ∧ fi_Index x = [i] ∧ fi_Index fi = prefix ++ i :: r.
Proof.
  revert l prefix. induction fuel as [|fuel IH]; intros l prefix Hl H; [by apply elem_of_nil in H|]. apply elem_of_flat_map in H as (x & Hx & H). destruct (Hl x Hx) as [i Hi].
  assert (∃ r, fi_Index fi = prefix ++ i :: r) as [r Hr]; [|eauto 6]. cbn zeta in H. rewrite Hi in H.
  destruct (sf_Type (fi_Field x)) as [| | | | | |n]; try (apply list_elem_of_singleton in H as ->; by exists []).
  destruct (sf_Anonymous (fi_Field x) && bool_decide (sf_Tag (fi_Field x) = [])); [|apply list_elem_of_singleton in H as ->; by exists []].
  apply IH in H as (y & j & r & _ & _ & ->). { exists (j :: r). by rewrite <- app_assoc. } intros y Hy. unfold FieldsByType in Hy. apply elem_of_lookup_imap in Hy as (k & f & -> & _). by exists k.
Qed.

Definition paths_apart (l : list FieldInfo) : Prop := ∀ i j x y, l !! i = Some x → l !! j = Some y → i ≠ j → apart (fi_Index x) (fi_Index y).

Lemma paths_apart_app l m : paths_apart l → paths_apart m → (∀ x y, x ∈ l → y ∈ m → apart (fi_Index x) (fi_Index y)) → paths_apart (l ++ m).
Proof.
  intros Hl Hm H i j x y Hi Hj Hne. apply lookup_app_Some in Hi as [Hi|[Hi1 Hi]], Hj as [Hj|[Hj1 Hj]].
  - by eapply Hl.
  - eapply H; by eapply list_elem_of_lookup_2.
  - apply apart_sym. eapply H; by eapply list_elem_of_lookup_2.
  - eapply Hm; [done..|lia].
Qed.
Lemma FieldsByType_singles n x : x ∈ FieldsByType p n → ∃ i, fi_Index x = [i].
Proof. unfold FieldsByType. intros (k & f & -> & _)%elem_of_lookup_imap. by exists k. Qed.

Lemma FieldsByType_NoDup n : NoDup (fi_Index <$> FieldsByType p n).
Proof.
  unfold FieldsByType. apply NoDup_alt. intros i j k Hi Hj. rewrite list_lookup_fmap, list_lookup_imap in Hi, Hj.
  destruct (_ !! i) as [x|]; [|done]. destruct (_ !! j) as [y|]; [|done]. cbn in Hi, Hj. congruence.
Qed.

Lemma flatten_apart fuel l prefix : (∀ x, x ∈ l → ∃ i, fi_Index x = [i]) → NoDup (fi_Index <$> l) → paths_apart (flattenEmbedded p fuel l prefix).
Proof.
  revert l prefix. induction fuel as [|fuel IH]; intros l prefix Hs Hn; [by intros i j x y|]. induction l as [|x l IHl]; [by intros i j x y|].
  rewrite fmap_cons in Hn. apply list.NoDup_cons in Hn as [Hx Hn].
  replace (flattenEmbedded p (S fuel) (x :: l) prefix) with (flattenEmbedded p (S fuel) [x] prefix ++ flattenEmbedded p (S fuel) l prefix) by (cbn; by rewrite app_nil_r).
  apply paths_apart_app.
  - cbn. rewrite app_nil_r. assert (∀ fi, paths_apart [fi]) as H1.
    { intros fi [|i] [|j] a b Hi Hj Hne; done. }
    destruct (sf_Type (fi_Field x)) as [| | | | | |n]; try apply H1. destruct (_ && _); [|apply H1]. apply IH; [apply FieldsByType_singles|apply FieldsByType_NoDup].
  - apply IHl; [|done]. intros y Hy. apply Hs. by right.
  - intros a b Ha Hb. apply flatten_prefix in Ha as (x' & i & r & ->%list_elem_of_singleton & Hi & ->); [|intros y ->%list_elem_of_singleton; apply Hs; left].
    apply flatten_prefix in Hb as (y & j & r' & Hy & Hj & ->); [|intros y Hy; apply Hs; by right]. exists prefix, i, j, r, r'. split; [|done]. intros ->. apply Hx. rewrite Hi, <- Hj.
    by apply list_elem_of_fmap_2.
Qed.

Lemma paths_apart_filter (q : FieldInfo → bool) l : paths_apart l → paths_apart (List.filter q l).
Proof.
  induction l as [|x l IH]; intros H; [done|]. assert (paths_apart l) as Hl by (intros i j a b Hi Hj Hne; eapply (H (S i) (S j)); [done..|lia]). cbn. destruct (q x); [|by apply IH].
  apply (paths_apart_app [x]); [by intros [|i] [|j]|by apply IH|]. intros a b ->%list_elem_of_singleton [Hb _]%elem_of_filter_bool. apply list_elem_of_lookup_1 in Hb as [j Hj].
  by eapply (H 0%nat (S j)).
Qed.

(** Of two fields of a struct neither contains the other. *)
Lemma fields_apart rv i j f g : sm_Fields (meta_of p rv) !! i = Some f → sm_Fields (meta_of p rv) !! j = Some g → i ≠ j → apart (fm_FieldIndex f) (fm_FieldIndex g).
Proof.
  destruct rv; try (cbn; intros H; by rewrite lookup_nil in H). change (sm_Fields (meta_of p (VStruct name fields))) with (fieldMeta <$> exported_fields p name). rewrite !list_lookup_fmap.
  destruct (exported_fields p name !! i) as [x|] eqn:Ei; [|done]. destruct (exported_fields p name !! j) as [y|] eqn:Ej; [|done]. intros [= <-] [= <-] Hne.
  refine (paths_apart_filter _ _ _ i j x y Ei Ej Hne). apply flatten_apart; [apply FieldsByType_singles|apply FieldsByType_NoDup].
Qed.
(** *** The fields afterwards *)

Lemma trim_one_nil tr fm : trim_one tr fm VNil = VNil.
Proof. unfold trim_one. destruct (fm_Trim fm); by destruct (bool_decide _). Qed.

Lemma trim_step_self tr v fm : FieldByIndex (trim_step tr v fm) (fm_FieldIndex fm) = trim_one tr fm (FieldByIndex v (fm_FieldIndex fm)).
Proof. unfold trim_step. edestruct set_field_back as [H|[H1 H2]]; [exact H|]. rewrite H2 at 1. rewrite H1. by rewrite trim_one_nil. Qed.

Lemma trim_fold_apart tr v l b : (∀ fm, fm ∈ l → apart (fm_FieldIndex fm) b) → FieldByIndex (foldl (trim_step tr) v l) b = FieldByIndex v b.
Proof.
  revert v. induction l as [|fm l IH]; intros v H; [done|]. cbn. rewrite IH by (intros; apply H; by right). apply set_field_apart. apply H. left.
Qed.

Definition all_apart (l : list cachedFieldMeta) : Prop := ∀ i j f g, l !! i = Some f → l !! j = Some g → i ≠ j → apart (fm_FieldIndex f) (fm_FieldIndex g).

Lemma trim_fold_self tr v l fm : all_apart l → fm ∈ l → FieldByIndex (foldl (trim_step tr) v l) (fm_FieldIndex fm) = trim_one tr fm (FieldByIndex v (fm_FieldIndex fm)).
Proof.
  revert v. induction l as [|f0 l IH]; intros v Ha Hin; [by apply elem_of_nil in Hin|]. assert (all_apart l) as Hl by (intros i j f g Hi Hj Hne; eapply (Ha (S i) (S j)); [done..|lia]).
  cbn. apply elem_of_cons in Hin as [->|Hin].
  - rewrite trim_fold_apart; [apply trim_step_self|]. intros g Hg. apply list_elem_of_lookup_1 in Hg as [j Hj]. by eapply (Ha (S j) 0%nat).
  - rewrite IH by done. f_equal. apply set_field_apart. apply list_elem_of_lookup_1 in Hin as [j Hj]. by eapply (Ha 0%nat (S j)).
Qed.

Lemma trim_fold_struct tr n fs l : (∀ fm, fm ∈ l → fm_FieldIndex fm ≠ []) → ∃ fs', foldl (trim_step tr) (VStruct n fs) l = VStruct n fs'.
Proof.
  revert fs. induction l as [|fm l IH]; intros fs H; [by exists fs|]. cbn. edestruct (set_field_struct n fs (fm_FieldIndex fm)) as [fs' Hs]; [apply H; left|].
  unfold trim_step at 2. rewrite Hs. apply IH. intros. apply H. by right.
Qed.

Lemma trimmed_struct fuel n fs : ∃ fs', trimmed fuel (VStruct n fs) = VStruct n fs'.
Proof. destruct fuel as [|fuel]; [by exists fs|]. cbn [trimmed]. destruct (negb _); [by exists fs|]. apply trim_fold_struct. intros fm Hfm. by apply field_path in Hfm as [? _]. Qed.

Lemma meta_of_trimmed fuel v : meta_of p (trimmed fuel v) = meta_of p v.
Proof. destruct v; try by destruct fuel. by destruct (trimmed_struct fuel name fields) as [fs' ->]. Qed.

(** *** Trimming again changes nothing *)

Lemma trim_text_idem x : trim_text (trim_text x) = trim_text x.
Proof. destruct x as [| | | | | | |t [[]|]| | | | |]; try done; cbn; by rewrite Utf8.TrimSpace_idem. Qed.

Lemma trim_one_idem tr fm x : (∀ n fs, ∃ fs', tr (VStruct n fs) = VStruct n fs') → (∀ v, tr (tr v) = tr v) → trim_one tr fm (trim_one tr fm x) = trim_one tr fm x.
Proof.
  intros Hs Hi. assert (∀ l : list value, trim_elem tr <$> (trim_elem tr <$> l) = trim_elem tr <$> l) as Hl.
  { intros l. rewrite <- list_fmap_compose. apply list_fmap_ext. intros _ e _. unfold compose. destruct e as [| | | | | | |t [[]|]| | | | |]; try done; cbn.
    - pose proof (Hi (VStruct name fields)) as E. destruct (Hs name fields) as [fs' Es]. rewrite Es in *. cbn. by rewrite E.
    - pose proof (Hi (VStruct name fields)) as E. destruct (Hs name fields) as [fs' Es]. rewrite Es in *. cbn. by rewrite E. }
  assert (∀ y, trim_text (trim_nested tr (trim_text y)) = trim_nested tr (trim_text y)) as Ht.
  { intros y. destruct y as [| | | | | | |t [[]|]| | | | |]; try done; cbn; rewrite ?Utf8.TrimSpace_idem; try done; by destruct (Hs name fields) as [fs' ->]. }
  assert (∀ y, trim_nested tr (trim_nested tr y) = trim_nested tr y) as Hn.
  { intros y. destruct y as [| | | | | | |t [[]|]| | | | |]; try done; cbn; rewrite ?Hl; try done;
      pose proof (Hi (VStruct name fields)) as E; destruct (Hs name fields) as [fs' Es]; rewrite Es in *; cbn; by rewrite E. }
  unfold trim_one. destruct (fm_Trim fm), (bool_decide (is_Some (fm_ElemType fm))); rewrite ?Ht, ?Hn, ?trim_text_idem; done.
Qed.

Lemma trim_fixed tr w l : (∀ fm, fm ∈ l → trim_one tr fm (FieldByIndex w (fm_FieldIndex fm)) = FieldByIndex w (fm_FieldIndex fm)) → foldl (trim_step tr) w l = w.
Proof.
  induction l as [|fm l IH]; intros H; [done|]. cbn. unfold trim_step at 2. rewrite H by left. rewrite set_field_same. apply IH. intros. apply H. by right.
Qed.

(** What every field of a trimmed struct is. *)
Lemma trimmed_field fuel v fm : fm ∈ sm_Fields (meta_of p v) → sm_HasAnyValidation (meta_of p v) = true →
  FieldByIndex (trimmed (S fuel) v) (fm_FieldIndex fm) = trim_one (trimmed fuel) fm (FieldByIndex v (fm_FieldIndex fm)).
Proof. intros Hfm Ha. cbn [trimmed]. rewrite Ha. cbn [negb]. apply trim_fold_self; [|done]. intros i j f g. apply fields_apart. Qed.

Lemma trimmed_idem fuel v : trimmed fuel (trimmed fuel v) = trimmed fuel v.
Proof.
  revert v. induction fuel as [|fuel IH]; intros v; [done|]. destruct (sm_HasAnyValidation (meta_of p v)) eqn:Ha; [|cbn [trimmed]; rewrite Ha; cbn [negb]; by rewrite Ha].
  set (w := trimmed (S fuel) v). cbn [trimmed]. assert (meta_of p w = meta_of p v) as -> by apply meta_of_trimmed. rewrite Ha. cbn [negb]. unfold w.
  apply trim_fixed. intros fm Hfm. rewrite trimmed_field by done. apply trim_one_idem; [intros; apply trimmed_struct|apply IH].
Qed.

(** *** Trimming keeps the depth *)

Lemma set_field_depth v a x : depth x = depth (FieldByIndex v a) → depth (set_field v a x) = depth v.
Proof.
  revert v. induction a as [|i a IH]; intros v; cbn; [done|]. destruct v; try done. intros H. cbn. do 2 f_equal. rewrite list_fmap_insert, IH by done.
  destruct (fields !! i) as [y|] eqn:E; cbn; [apply list_insert_id; by rewrite list_lookup_fmap, E|]. apply list_insert_ge. rewrite length_fmap. by apply lookup_ge_None in E.
Qed.

Lemma trim_one_depth tr fm x : (∀ v, depth (tr v) = depth v) → depth (trim_one tr fm x) = depth x.
Proof.
  intros H. assert (∀ y, depth (trim_text y) = depth y) as Ht by (intros y; by destruct y as [| | | | | | |t [[]|]| | | | |]).
  assert (∀ l : list value, depth <$> (trim_elem tr <$> l) = depth <$> l) as Hl.
  { intros l. rewrite <- list_fmap_compose. apply list_fmap_ext. intros _ e _. unfold compose. destruct e as [| | | | | | |t [[]|]| | | | |]; try done; cbn [trim_elem]; [cbn [depth]; by rewrite H|apply H]. }
  assert (∀ y, depth (trim_in tr y) = depth y) as Hin by (intros y; destruct y; try done; cbn [trim_in depth]; rewrite ?Hl; done || apply H).
  assert (∀ y, depth (trim_nested tr y) = depth y) as Hn by (intros y; destruct y as [| | | | | | |t [z|]| | | | |]; try apply Hin; cbn [trim_nested depth]; by rewrite Hin).
  unfold trim_one. destruct (fm_Trim fm), (bool_decide _); rewrite ?Hn, ?Ht; done.
Qed.

Lemma trimmed_depth fuel v : depth (trimmed fuel v) = depth v.
Proof.
  revert v. induction fuel as [|fuel IH]; intros v; [done|]. cbn [trimmed]. destruct (negb _); [done|]. generalize v at 1 3. induction (sm_Fields (meta_of p v)) as [|fm l IHl]; intros w; [done|].
  cbn. rewrite IHl. apply set_field_depth. by apply trim_one_depth.
Qed.
End Trim.

(** ** The search over types *)

Section Search.
Variables (p : Program) (registry : gmap string Rule).
Notation fields_of n := (sm_Fields (buildStructMeta p n)).

(** The structs a struct leads to. *)
Inductive leads : string → string → Prop :=
| leads_here n : leads n n
| leads_on n fm e m : fm ∈ fields_of n → fm_ElemType fm = Some e → leads e m → leads n m.

(** A set of structs whose fields are in order and lead into a larger set. *)
Definition closed (inside seen : gset string) : Prop :=
  ∀ n fm, n ∈ inside → fm ∈ fields_of n → checkField registry n fm = None ∧ ∀ e, fm_ElemType fm = Some e → e ∈ seen.

Lemma closed_mono a b b' : closed a b → b ⊆ b' → closed a b'.
Proof. intros H Hb n fm Hn Hfm. destruct (H n fm Hn Hfm) as [H1 H2]. split; [done|]. intros e He. apply Hb. by apply H2. Qed.

(** What a search that found nothing wrong says. *)
Definition searched (root : option string) (seen seen' : gset string) : Prop :=
  seen ⊆ seen' ∧ (∀ n, root = Some n → n ∈ seen') ∧ closed (seen' ∖ seen) seen'.

Lemma checkFields_searched check n l seen seen' : (∀ t s s', check t s = Some (Ok s') → searched (innerStructType t) s s') →
  checkFields check registry n l seen = Some (Ok seen') →
  searched None seen seen' ∧ ∀ fm, fm ∈ l → checkField registry n fm = None ∧ ∀ e, fm_ElemType fm = Some e → e ∈ seen'.
Proof.
  intros Hc. revert seen. induction l as [|fm l IH]; intros seen; cbn.
  - intros [= <-]. split; [split_and!; [done|done|]|by intros fm H%elem_of_nil]. intros n' fm' H. set_solver.
  - destruct (checkField registry n fm) eqn:Ef; [done|]. destruct (fm_ElemType fm) as [e|] eqn:Ee.
    + destruct (check (TStruct e) seen) as [[s1|]|] eqn:E; try done. intros H. apply IH in H as [(H1 & _ & H2) H3]. apply Hc in E as (E1 & E2 & E3). split; [split_and!; [set_solver|done|]|].
      * intros n' fm' Hn' Hfm'. destruct (decide (n' ∈ s1)) as [Hs|Hs]; [|apply (H2 n' fm'); [set_solver|done]]. apply (closed_mono _ _ _ E3 H1 n' fm'); [set_solver|done].
      * intros g [->|Hg]%elem_of_cons; [|by apply H3]. split; [done|]. intros e' He'. rewrite Ee in He'. injection He' as <-. apply H1. by apply E2.
    + intros H. apply IH in H as [H1 H2]. split; [done|]. intros g [->|Hg]%elem_of_cons; [|by apply H2]. split; [done|]. intros e'. by rewrite Ee.
Qed.

Lemma checkType_searched fuel t seen seen' : checkType p registry fuel t seen = Some (Ok seen') → searched (innerStructType t) seen seen'.
Proof.
  revert t seen seen'. induction fuel as [|fuel IH]; intros t seen seen'; cbn [checkType]; (destruct (innerStructType t) as [n|]; [|intros [= <-]; split_and!; [done|done|intros ? ? ?; set_solver]]);
    (case_bool_decide as Hn; [intros [= <-]; split_and!; [done|naive_solver|intros ? ? ?; set_solver]|]); [done|].
  intros H. apply checkFields_searched in H as [(H1 & _ & H2) H3]; [|exact IH]. split_and!; [set_solver|intros m [= <-]; set_solver|].
  intros m fm Hm Hfm. destruct (decide (m = n)) as [->|Hne]; [by apply H3|]. apply (H2 m fm); [set_solver|done].
Qed.

(** Everything a struct leads to was checked. *)
Lemma closed_leads n m fm s : closed s s → n ∈ s → leads n m → fm ∈ fields_of m → checkField registry m fm = None.
Proof. intros Hc Hn Hl Hfm. induction Hl as [n|n f e m Hf He _ IH]; [by eapply Hc|]. apply IH; [|done]. destruct (Hc n f Hn Hf) as [_ H]. by apply H. Qed.

(** *** The search ends *)

Lemma checkFields_ends check n l seen k : (∀ t s, (size (dom (decls p) ∖ s) <= k)%nat → check t s ≠ None) → (∀ t s s', check t s = Some (Ok s') → s ⊆ s') →
  (size (dom (decls p) ∖ seen) <= k)%nat → checkFields check registry n l seen ≠ None.
Proof.
  intros Hc Hm. revert seen. induction l as [|fm l IH]; intros seen Hk; cbn; [done|]. destruct (checkField registry n fm); [done|]. destruct (fm_ElemType fm) as [e|]; [|by apply IH].
  pose proof (Hc (TStruct e) seen Hk) as H. destruct (check (TStruct e) seen) as [[s1|]|] eqn:E; try done. apply IH. etrans; [|exact Hk]. apply subseteq_size. apply Hm in E. set_solver.
Qed.

Lemma checkType_ends fuel t seen : (size (dom (decls p) ∖ seen) < fuel)%nat → checkType p registry fuel t seen ≠ None.
Proof.
  revert t seen. induction fuel as [|fuel IH]; intros t seen Hf; [lia|]. cbn [checkType]. destruct (innerStructType t) as [n|]; [|done]. case_bool_decide as Hn; [done|].
  destruct (decide (n ∈ dom (decls p))) as [Hd|Hd].
  - assert (size (dom (decls p) ∖ ({[n]} ∪ seen)) < size (dom (decls p) ∖ seen))%nat as Hlt by (apply subset_size; set_solver).
    eapply (checkFields_ends _ n _ _ (size (dom (decls p) ∖ ({[n]} ∪ seen)))); [|intros t' s s' E; apply (checkType_searched _ _ _ _ E)|lia]. intros t' s Hs. apply IH. lia.
  - assert (fields_of n = []) as ->; [|done]. assert (FieldsByType p n = []) as E by (apply not_elem_of_dom in Hd; unfold FieldsByType, Declarations in *; by rewrite Hd).
    change (fields_of n) with (fieldMeta <$> exported_fields p n). unfold exported_fields. by rewrite E.
Qed.

(** *** What it reports is there *)

Lemma checkFields_reports check n l seen err : (∀ e s err, check (TStruct e) s = Some (Err err) → ∃ m fm, leads e m ∧ fm ∈ fields_of m ∧ checkField registry m fm = Some err) →
  (∀ fm, fm ∈ l → fm ∈ fields_of n) → checkFields check registry n l seen = Some (Err err) → ∃ m fm, leads n m ∧ fm ∈ fields_of m ∧ checkField registry m fm = Some err.
Proof.
  intros Hc. revert seen. induction l as [|fm l IH]; intros seen Hl; cbn; [done|]. destruct (checkField registry n fm) eqn:Ef.
  - intros [= <-]. exists n, fm. split_and!; [constructor|apply Hl; left|done].
  - assert (∀ g, g ∈ l → g ∈ fields_of n) as Hl' by (intros; apply Hl; by right). destruct (fm_ElemType fm) as [e|] eqn:Ee; [|by apply IH].
    destruct (check (TStruct e) seen) as [[s1|err']|] eqn:E; try done; [by apply IH|]. intros [= ->]. apply Hc in E as (m & g & H1 & H2 & H3). exists m, g. split_and!; [|done..].
    eapply leads_on; [apply Hl; left|done|done].
Qed.

Lemma checkType_reports fuel t n seen err : innerStructType t = Some n → checkType p registry fuel t seen = Some (Err err) →
  ∃ m fm, leads n m ∧ fm ∈ fields_of m ∧ checkField registry m fm = Some err.
Proof.
  revert t n seen err. induction fuel as [|fuel IH]; intros t n seen err Hn; cbn [checkType]; rewrite Hn; (case_bool_decide as Hs; [done|]); [done|].
  intros H. eapply checkFields_reports; [|done|exact H]. intros e s err' E. by eapply (IH (TStruct e)).
Qed.
End Search.

(** ** Typed values *)

Section TypedFields.
Variable p : Program.
Notation typed := (has_type (decls p)).

Lemma has_type_field n l i f : typed (VStruct n l) (TStruct n) → default [] (decls p !! n) !! i = Some f → ∃ v, l !! i = Some v ∧ typed v (sf_Type f).
Proof. intros H Hf. inversion H as [| | | | | | | | | | | | |? ? fs Hd Hall]; subst. unfold Declarations in *. rewrite Hd in Hf. cbn in Hf. eapply Forall2_lookup_r in Hall as (v & Hv & Hty); [|done]. eauto. Qed.

Lemma typed_struct v n : typed v (TStruct n) → ∃ l, v = VStruct n l.
Proof. inversion 1; subst; eauto. Qed.

(** A field of the flattened list is where its path says, with its type. *)
Lemma flatten_typed fuel n prefix fi : fi ∈ flattenEmbedded p fuel (FieldsByType p n) prefix →
  ∃ r, fi_Index fi = prefix ++ r ∧ ∀ v, typed v (TStruct n) → typed (FieldByIndex v r) (sf_Type (fi_Field fi)).
Proof.
  revert n prefix. induction fuel as [|fuel IH]; intros n prefix H; [by apply elem_of_nil in H|]. apply elem_of_flat_map in H as (x & Hx & H).
  unfold FieldsByType in Hx. apply elem_of_lookup_imap in Hx as (i & f & -> & Hf). cbn zeta in H. cbn [fi_Field fi_Index] in H.
  assert (∀ v, typed v (TStruct n) → typed (FieldByIndex v [i]) (sf_Type f)) as Hi.
  { intros v Hv. destruct (typed_struct v n Hv) as [l ->]. destruct (has_type_field n l i f Hv Hf) as (y & Hy & Hty). cbn. by rewrite Hy. }
  destruct (sf_Type f) as [| | | | | |m] eqn:Et; try (apply list_elem_of_singleton in H as ->; exists [i]; split; [done|]; cbn [fi_Field]; by rewrite Et).
  destruct (sf_Anonymous f && bool_decide (sf_Tag f = [])); [|apply list_elem_of_singleton in H as ->; exists [i]; split; [done|]; cbn [fi_Field]; by rewrite Et].
  apply IH in H as (r & -> & Hr). exists (i :: r). split; [by rewrite <- app_assoc|]. intros v Hv. destruct (typed_struct v n Hv) as [l ->]. specialize (Hi _ Hv). cbn in Hi |- *.
  by apply Hr.
Qed.

Lemma field_typed v n fm : typed v (TStruct n) → fm ∈ sm_Fields (buildStructMeta p n) → typed (FieldByIndex v (fm_FieldIndex fm)) (fm_Type fm) ∧ fm_ElemType fm = innerStructType (fm_Type fm).
Proof.
  intros Hv (fi & -> & Hfi)%list_elem_of_fmap. unfold exported_fields in Hfi. apply elem_of_filter_bool in Hfi as [Hfi _]. apply flatten_typed in Hfi as (r & Hr & H).
  split; [|done]. change (fm_FieldIndex (fieldMeta fi)) with (fi_Index fi). rewrite Hr. by apply H.
Qed.

Definition strip (t : type) : type := match t with TPtr e => e | _ => t end.

Lemma deref_typed v t : typed v t → deref v = VNil ∨ typed (deref v) (strip t).
Proof. intros H. inversion H; subst; cbn; auto. Qed.

Lemma inner_cases t e : innerStructType t = Some e →
  strip t = TStruct e ∨ ∃ x, (strip t = TSlice x ∨ ∃ k, strip t = TArray k x) ∧ strip x = TStruct e.
Proof.
  unfold innerStructType. fold (strip t). destruct (strip t) as [| |x|k x| | |]; try done; [| |by intros [= ->]; left]; (destruct x as [|x| | | | |]; try done; cbn).
  - destruct x; try done. intros [= ->]. right. exists (TPtr (TStruct e)). eauto.
  - intros [= ->]. right. exists (TStruct e). eauto.
  - destruct x; try done. intros [= ->]. right. exists (TPtr (TStruct e)). eauto.
  - intros [= ->]. right. exists (TStruct e). eauto.
Qed.

Lemma nested_typed fv t e prefix pr sv : typed fv t → innerStructType t = Some e → (pr, sv) ∈ nested fv prefix → typed sv (TStruct e).
Proof.
  intros Ht He H. unfold nested in H. destruct (deref_typed fv t Ht) as [Hd|Hd]; [rewrite Hd in H; by apply elem_of_nil in H|].
  assert (∀ x l, Forall (λ v, typed v x) l → strip x = TStruct e →
    (pr, sv) ∈ List.filter (λ pv, is_struct pv.2) (imap (λ i e, (elem_prefix prefix i, deref e)) l) → typed sv (TStruct e)) as Hl.
  { intros x l Hall Hx [H1 H2]%elem_of_filter_bool. apply elem_of_lookup_imap in H1 as (i & y & [= _ ->] & Hy). cbn in H2. apply list_elem_of_lookup_2 in Hy.
    rewrite list.Forall_forall in Hall. destruct (deref_typed y x (Hall y Hy)) as [Hn|Hn]; [by rewrite Hn in H2|by rewrite Hx in Hn]. }
  apply inner_cases in He as [He|(x & [He|[k He]] & Hx)]; rewrite He in Hd.
  - destruct (typed_struct _ _ Hd) as [l El]. rewrite El in H, Hd. by apply list_elem_of_singleton in H as [= _ ->].
  - inversion Hd as [| | | | | | | |? ? l Hall E| | | | |]; subst. rewrite <- E in H. by eapply Hl.
  - inversion Hd as [| | | | | | | | |? l Hall E| | | |]; subst. rewrite <- E in H. by eapply Hl.
Qed.

(** The structs in a field that trimming leaves alone are left alone. *)
Lemma nested_settled tr fm x prefix pr sv : fm_ElemType fm ≠ None → trim_one tr fm x = x → (pr, sv) ∈ nested x prefix → tr sv = sv.
Proof.
  intros He Hx H. assert (trim_nested tr x = x) as Hn.
  { unfold trim_one in Hx. rewrite bool_decide_eq_true_2 in Hx by (by destruct (fm_ElemType fm)). destruct (fm_Trim fm); [|done].
    destruct x as [| | | | | | |t [[]|]| | | | |]; try done; by apply elem_of_nil in H. }
  assert (∀ l : list value, trim_elem tr <$> l = l → (pr, sv) ∈ List.filter (λ pv, is_struct pv.2) (imap (λ i e, (elem_prefix prefix i, deref e)) l) → tr sv = sv) as Hl.
  { intros l El [H1 H2]%elem_of_filter_bool. apply elem_of_lookup_imap in H1 as (i & y & [= _ ->] & Hy). pose proof (f_equal (lookup i) El) as E. rewrite list_lookup_fmap, Hy in E. cbn in E.
    injection E as E. cbn in H2. destruct y as [| | | | | | |t [[]|]| | | | |]; try done; cbn in E |- *; congruence. }
  destruct x as [| | | | | | |t [[]|]| | | | |]; try (by apply elem_of_nil in H); cbn in Hn, H; try injection Hn as Hn; try (by apply (Hl l));
    apply list_elem_of_singleton in H as [= -> ->]; congruence.
Qed.

(** Every check of a typed and trimmed struct is a rule of a struct it leads to, on a
    field of its type that trimming leaves alone. *)
Lemma checked_typed rv subject prefix c n f : typed rv (TStruct n) → trimmed p (S f) rv = rv → (depth rv <= f)%nat → checked p rv subject prefix c →
  ∃ m sv fm tr, leads p n m ∧ typed sv (TStruct m) ∧ fm ∈ sm_Fields (buildStructMeta p m) ∧ ck_rule c ∈ fm_Rules fm ∧
    ck_value c = Interface (FieldByIndex sv (fm_FieldIndex fm)) ∧ trim_one tr fm (FieldByIndex sv (fm_FieldIndex fm)) = FieldByIndex sv (fm_FieldIndex fm).
Proof.
  intros Ht Hs Hf H. assert (∀ rv f fm, trimmed p (S f) rv = rv → fm ∈ sm_Fields (meta_of p rv) → fm_Rules fm ≠ [] ∨ fm_ElemType fm ≠ None →
    trim_one (trimmed p f) fm (FieldByIndex rv (fm_FieldIndex fm)) = FieldByIndex rv (fm_FieldIndex fm)) as Hset.
  { intros w k g Hw Hg Hany. assert (sm_HasAnyValidation (meta_of p w) = true) as Ha by (destruct (sm_HasAnyValidation (meta_of p w)) eqn:E; [done|]; destruct (no_validation p w g E Hg); naive_solver).
    rewrite <- (trimmed_field p k w g Hg Ha). by rewrite Hw. }
  revert n f Ht Hs Hf. induction H as [rv subject prefix fm r Hfm Hr|rv subject prefix fm e pr sv c Hfm He Hn _ IH]; intros n f Ht Hs Hf.
  - destruct (typed_struct _ _ Ht) as [l ->]. exists n, (VStruct n l), fm, (trimmed p f). split_and!; [constructor|done..|]. apply Hset; [done..|]. left. intros E. rewrite E in Hr. by apply elem_of_nil in Hr.
  - assert (trimmed p f sv = sv) as Hsv by (eapply nested_settled; [|apply (Hset rv f fm Hs Hfm)|exact Hn]; [by rewrite He|right; by rewrite He]).
    pose proof (nested_deeper p rv fm _ pr sv Hfm Hn) as Hd. destruct f as [|f]; [lia|]. destruct (typed_struct _ _ Ht) as [l ->].
    destruct (field_typed _ n fm Ht Hfm) as [Hty Ee]. rewrite He in Ee. apply eq_sym in Ee. pose proof (nested_typed _ _ _ _ _ _ Hty Ee Hn) as Htsv.
    destruct (IH e f Htsv Hsv) as (m & sv' & fm' & tr & H1 & H2); [lia|]. exists m, sv', fm', tr. split; [by eapply leads_on|done].
Qed.

(** *** Trimming keeps the type *)

Lemma set_field_typed v a x t : typed v t → (∀ u, typed (FieldByIndex v a) u → typed x u) → typed (set_field v a x) t.
Proof.
  revert v t. induction a as [|i a IH]; intros v t Hv H; cbn in *; [by apply H|]. destruct v; try done. inversion Hv as [| | | | | | | | | | | | |? ? fs Hd Hall]; subst. econstructor; [done|].
  destruct (fields !! i) as [y|] eqn:E; [|by rewrite list_insert_ge by (by apply lookup_ge_None)]. cbn in *.
  destruct (Forall2_lookup_l _ _ _ _ _ Hall E) as (f & Hf & Hty). rewrite <- (list_insert_id fs i f Hf). apply Forall2_insert; [done|]. by apply IH.
Qed.

Lemma trim_one_typed tr fm x t : (∀ v u, typed v u → typed (tr v) u) → typed x t → typed (trim_one tr fm x) t.
Proof.
  intros Htr. assert (∀ y u, typed y u → typed (trim_text y) u) as Ht.
  { intros y u H. inversion H as [| | | | | | |? v Hv| | | | | |]; subst; try (by econstructor); try done. inversion Hv; subst; cbn; econstructor; eauto; by econstructor. }
  assert (∀ y u, typed y u → typed (trim_elem tr y) u) as He.
  { intros y u H. inversion H as [| | | | | | |? v Hv| | | | | |]; subst; try done; cbn; [|by apply Htr]. destruct v; try done. constructor. by apply Htr. }
  assert (∀ u l, Forall (λ v, typed v u) l → Forall (λ v, typed v u) (trim_elem tr <$> l)) as Hl.
  { intros u l H. apply Forall_fmap. eapply list.Forall_impl; [exact H|]. intros. by apply He. }
  assert (∀ y u, typed y u → typed (trim_in tr y) u) as Hin.
  { intros y u H. inversion H; subst; try done; cbn; [constructor; by apply Hl| |by apply Htr]. rewrite <- (length_fmap (trim_elem tr) l). constructor. by apply Hl. }
  assert (∀ y u, typed y u → typed (trim_nested tr y) u) as Hn.
  { intros y u H. inversion H; subst; try (by apply Hin); cbn; constructor; by apply Hin. }
  intros Hx. unfold trim_one. destruct (fm_Trim fm), (bool_decide _); auto.
Qed.

Lemma trimmed_typed fuel v t : typed v t → typed (trimmed p fuel v) t.
Proof.
  revert v t. induction fuel as [|fuel IH]; intros v t Hv; [done|]. cbn [trimmed]. destruct (negb _); [done|]. revert Hv. generalize v at 1 2.
  induction (sm_Fields (meta_of p v)) as [|fm l IHl]; intros w Hw; [done|]. cbn. apply IHl. apply set_field_typed; [done|]. intros u. by apply trim_one_typed.
Qed.
End TypedFields.
