(* ===== verification/ValidProps.v ===== *)
(** * Theorems about the validation of inputs *)

From Stdlib Require Import Ascii SpecFloat.
From S2P Require Import Prelude Apperr Clock Reflect Validation ValidFacts.

Local Open Scope Z_scope.

(** ** An application *)

Definition tag0 (json rules : string) : StructTag := [("json", json); ("validation", rules)].
Definition text0 (name json rules : string) : StructField := mkField name "" false (tag0 json rules) (TBasic Text "").
Definition decls0 : Declarations :=
  {["app.Path" := [mkField "ID" "" false (tag0 "id" "required|min:1") (TBasic Int "")];
    "app.Line" := [text0 "Name" "name" "trim|required|max:5"; mkField "Parts" "" false (tag0 "parts" "") (TSlice (TPtr (TStruct "app.Line")))];
    "app.Order" := [mkField "Path" "" true [] (TStruct "app.Path"); text0 "Email" "email" "required|email"; text0 "Repeat" "repeat" "same:email";
      mkField "Lines" "" false (tag0 "lines" "max:3") (TSlice (TStruct "app.Line"))];
    "app.Typo" := [mkField "Order" "" false [] (TPtr (TStruct "app.Order")); text0 "Kind" "kind" "required|gte=0"]]}.
Definition program0 : Program := mkProgram decls0 (λ _, "") (λ _, None) (λ _, false) (λ _, None) (λ _, false).
Definition str (s : string) : value := VText "" s.
Definition line0 (name : string) (parts : list value) : value := VStruct "app.Line" [str name; VSlice (TPtr (TStruct "app.Line")) false parts].
Definition order0 (id : Z) (email repeat : string) (lines : list value) : value :=
  VPtr (TStruct "app.Order") (Some (VStruct "app.Order" [VStruct "app.Path" [VInt Int "" id]; str email; str repeat; VSlice (TStruct "app.Line") false lines])).

Example order0_passes : (Validate program0 (New program0 ∅) (order0 7 "ana@example.com" "ana@example.com" [line0 " pen " [VPtr (TStruct "app.Line") (Some (line0 "ink" []))]])).1
  = (None, order0 7 "ana@example.com" "ana@example.com" [line0 "pen" [VPtr (TStruct "app.Line") (Some (line0 "ink" []))]]).
Proof. vm_compute. reflexivity. Qed.

Example order0_fails : match (Validate program0 (New program0 ∅) (order0 0 "ana@example" "ana" [line0 "pencil" [VPtr (TStruct "app.Line") (Some (line0 "  " []))]])).1.1 with
  | Some (EInvalid fs _) => (λ l : list Failure, fl_Code <$> l) <$> fs
  | _ => ∅ end = {["lines[0].parts[0].name" := ["required"]; "email" := ["email"]; "lines[0].name" := ["max"]; "id" := ["required"; "min"]; "repeat" := ["same"]]}.
Proof. vm_compute. reflexivity. Qed.

(** ** Validating *)

(** The subject after the trim pass. *)
Definition cleaned (p : Program) (rv : value) : value := trimmed p (S (depth rv)) rv.

(** The validator on a pointer to a struct that was trimmed. *)
Definition judged (p : Program) (v : Validator) (subject rv : value) : option verror * value * Validator :=
  match validateFields p (vd_registry v) (S (depth rv)) rv subject (∅, ∅) "" with
  | Err e => (Some e, subject, v)
  | Ok m => ((if bool_decide (m.1 = ∅) then None else Some (EInvalid m.1 m.2)), subject, mkValidator m.1 m.2 (vd_registry v))
  end.

Lemma Validate_struct p v t n fs : let rv := cleaned p (VStruct n fs) in Validate p v (VPtr t (Some (VStruct n fs))) = judged p v (VPtr t (Some rv)) rv.
Proof. unfold Validate. by rewrite trimStruct_ok. Qed.

Lemma cleaned_again p rv : cleaned p (cleaned p rv) = cleaned p rv.
Proof. unfold cleaned. rewrite trimmed_depth. apply trimmed_idem. Qed.

Lemma Validate_unknown p v t n fs name a : let rv := cleaned p (VStruct n fs) in (Validate p v (VPtr t (Some (VStruct n fs)))).1.1 = Some (EUnknownRule name a) →
  ∃ c, checked p rv (VPtr t (Some rv)) "" c ∧ r_name (ck_rule c) = name ∧ vd_registry v !! name = None.
Proof.
  intros rv. rewrite Validate_struct. unfold judged. fold rv. rewrite validateFields_checks. pose proof (foldM_reports (vd_registry v) (checks p (S (depth rv)) rv (VPtr t (Some rv)) "") (∅, ∅)) as H.
  destruct (foldM _ _ _) as [m|e]; cbn; [by destruct (bool_decide _)|]. intros [= ->]. destruct H as (c & Hc & _ & Hn & Hr). exists c. split_and!; [|done..]. by apply checks_checked in Hc; [|lia].
Qed.

(** C30. The answer follows from the checks alone, which are the rules of the fields of
    the trimmed subject and of the structs in them, at whatever depth: none fails, and it
    is nil; some fail, and it lists for each attribute exactly the failures of its checks;
    a rule nobody registered or one that panics, and it is that error. *)
Theorem Validate_decides p v t n fs :
  let rv := cleaned p (VStruct n fs) in let subject := VPtr t (Some rv) in
  let is_checked c := checked p rv subject "" c in let run := ck_run (vd_registry v) in
  match Validate p v (VPtr t (Some (VStruct n fs))) with
  | (answer, subject', v') => subject' = subject ∧ vd_registry v' = vd_registry v ∧
      match answer with
      | None => ∀ c, is_checked c → run c = Some (Ran [])
      | Some (EInvalid failures _) => (∀ c, is_checked c → ∃ l, run c = Some (Ran l)) ∧ failures ≠ ∅ ∧
          ∀ a f, f ∈ default [] (failures !! a) ↔ ∃ c l, is_checked c ∧ ck_attribute c = a ∧ run c = Some (Ran l) ∧ f ∈ l
      | Some (EUnknownRule name a) => ∃ c, is_checked c ∧ ck_attribute c = a ∧ r_name (ck_rule c) = name ∧ vd_registry v !! name = None
      | Some (EApp _) => ∃ c r, is_checked c ∧ run c = Some r ∧ ∀ l, r ≠ Ran l
      end
  end.
Proof.
  intros rv subject is_checked run. rewrite Validate_struct. unfold judged. fold rv subject. rewrite validateFields_checks. assert (∀ c, c ∈ checks p (S (depth rv)) rv subject "" ↔ is_checked c) as Hc by (intros c; apply checks_checked; lia).
  pose proof (foldM_reports (vd_registry v) (checks p (S (depth rv)) rv subject "") (∅, ∅)) as H.
  pose proof (foldM_answer (vd_registry v) (checks p (S (depth rv)) rv subject "")) as Ha.
  destruct (foldM _ _ _) as [m|[name a|err|]]; [|setoid_rewrite Hc in H; by split_and!..|done]. destruct (Ha m eq_refl) as (H1 & H2 & H3). setoid_rewrite Hc in H1. setoid_rewrite Hc in H2. setoid_rewrite Hc in H3.
  case_bool_decide as Em; (split; [done|split; [done|]]); [by apply H2|]. split_and!; [exact H1|done|exact H3].
Qed.

(** Validating what was validated changes nothing more and answers the same. *)
Theorem Validate_settles p v subject : let '(answer, subject', _) := Validate p v subject in
  ∃ v', Validate p v subject' = (answer, subject', v').
Proof.
  destruct (Validate p v subject) as [[answer subject'] v1] eqn:E. cut (Validate p v subject' = (answer, subject', v1)); [eauto|]. rewrite <- E.
  assert (∀ x, Validate p v x = (Some (EApp (not_a_struct x)), x, v) ∨ ∃ t n fs, x = VPtr t (Some (VStruct n fs))) as Hx.
  { intros x. destruct x as [| | | | | | |t [[]|]| | | | |]; (by left) || (right; eauto). }
  destruct (Hx subject) as [Hs|(t & n & fs & ->)]; [rewrite Hs in E; by injection E as <- <- <-|]. rewrite Validate_struct in E |- *. set (rv := cleaned p (VStruct n fs)) in *.
  assert (subject' = VPtr t (Some rv)) as -> by (unfold judged in E; destruct (validateFields _ _ _ _ _ _ _); by injection E as _ <- _).
  destruct (trimmed_struct p (S (depth (VStruct n fs))) n fs) as [fs' Efs]. fold (cleaned p (VStruct n fs)) in Efs. fold rv in Efs. rewrite Efs at 1. rewrite Validate_struct, <- Efs.
  assert (cleaned p rv = rv) as -> by apply cleaned_again. done.
Qed.

(** ** Checking the rules of a type *)

Lemma CheckRules_loop_decides p registry types : ∃ r, CheckRules_loop p registry types = Some r ∧
  (r = None ↔ ∀ t n m fm, t ∈ types → innerStructType t = Some n → leads p n m → fm ∈ sm_Fields (buildStructMeta p m) → checkField registry m fm = None).
Proof.
  induction types as [|t types (r & Er & Hr)]; cbn [CheckRules_loop]; [exists None; split; [done|]; split; [by intros _ t n m fm H%elem_of_nil|done]|].
  assert (size (dom (decls p) ∖ (∅ : gset string)) < S (size (decls p)))%nat as Hf.
  { rewrite difference_empty_L. pose proof (size_dom (D := gset string) (decls p)) as Hs. unfold Declarations in *. lia. }
  pose proof (checkType_ends p registry _ t ∅ Hf) as Hend. destruct (checkType p registry _ t ∅) as [[seen|err]|] eqn:E; [| |done].
  - exists r. split; [done|]. apply checkType_searched in E as (_ & Hroot & Hc). rewrite difference_empty_L in Hc. rewrite Hr. split; [|intros H t' n m fm Ht'; apply (H t'); by right].
    intros H t' n m fm [->|Ht']%elem_of_cons Hn Hl Hfm; [|by eapply H]. eapply (closed_leads p registry n m fm seen); [done|by apply Hroot|done|done].
  - exists (Some err). split; [done|]. split; [done|]. intros H. destruct (innerStructType t) as [n|] eqn:En; [|destruct (size (decls p)); cbn in E; rewrite En in E; done].
    destruct (checkType_reports p registry _ t n ∅ err En E) as (m & fm & Hl & Hfm & Hc). rewrite (H t n m fm) in Hc; [done|left|done..].
Qed.

(** Checking types ends, also for types that refer to themselves, and finds nothing
    exactly when every field of every struct they lead to has only registered rules, and
    trim only on text and not together with in. *)
Theorem CheckRules_decides p appRules types : ∃ r, CheckRules p appRules types = Some r ∧
  (r = None ↔ ∀ t n m fm, t ∈ types → innerStructType t = Some n → leads p n m → fm ∈ sm_Fields (buildStructMeta p m) →
    checkField (vd_registry (New p appRules)) m fm = None).
Proof. apply CheckRules_loop_decides. Qed.

Example typo_reported : CheckRules program0 ∅ [TStruct "app.Order"; TSlice (TPtr (TStruct "app.Typo"))] =
  Some (Some (errNew ("validation: app.Typo.Kind has the unknown rule " +:+ Str.fmt_q "gte=0" +:+ " (arguments follow a colon, as in max:10; rules are separated by |)"))).
Proof. vm_compute. reflexivity. Qed.

Lemma checkField_rules registry n fm r : checkField registry n fm = None → r ∈ fm_Rules fm → registry !! r_name r ≠ None.
Proof.
  unfold checkField. destruct (List.find _ (fm_Rules fm)) as [x|] eqn:E; [done|]. intros _ Hr Hn. apply list_elem_of_In in Hr. pose proof (List.find_none _ _ E r Hr) as H. cbn in H.
  by rewrite bool_decide_eq_true_2 in H.
Qed.

Lemma checkField_trim registry n fm : checkField registry n fm = None → fm_Trim fm = true → ∃ m, fm_Type fm = TBasic Text m ∨ fm_Type fm = TPtr (TBasic Text m).
Proof.
  unfold checkField. destruct (List.find _ _); [done|]. intros H Ht. rewrite Ht in H. unfold checkTrim in H. destruct (fm_Type fm) as [[] m|[[] m| | | | | |]| | | | |]; try done; eauto.
Qed.

Lemma typed_text ds v k : has_type ds v (TBasic Text k) → ∃ s, v = VText k s.
Proof. inversion 1 as [|? ? ? Hb|? ? ? Hb|? ? ? Hb| | | | | | | | | |]; subst; eauto; by apply contains_spec in Hb. Qed.

Lemma typed_text_ptr ds v k : has_type ds v (TPtr (TBasic Text k)) → v = VPtr (TBasic Text k) None ∨ ∃ s, v = VPtr (TBasic Text k) (Some (VText k s)).
Proof. inversion 1 as [| | | | | | |? x Hx| | | | | |]; subst; [by left|]. destruct (typed_text _ _ _ Hx) as [s ->]. eauto. Qed.

(** C31. Where checking a type found nothing, validating a value of it never meets an
    unknown rule, and the check of trim on a field, whose value the other checks of the
    field share, sees text without surrounding space, or a pointer to one or to nothing. *)
Theorem CheckRules_protects p appRules types t n l : CheckRules p appRules types = Some None → t ∈ types → innerStructType t = Some n →
  has_type (decls p) (VStruct n l) (TStruct n) →
  let subject := VPtr (TStruct n) (Some (VStruct n l)) in let rv := cleaned p (VStruct n l) in
  (∀ name a, (Validate p (New p appRules) subject).1.1 ≠ Some (EUnknownRule name a)) ∧
  ∀ c, checked p rv (VPtr (TStruct n) (Some rv)) "" c → r_name (ck_rule c) = "trim" →
    trim_text (ck_value c) = ck_value c ∧ ∃ m s, ck_value c = VText m s ∨ ck_value c = VPtr (TBasic Text m) None ∨ ck_value c = VPtr (TBasic Text m) (Some (VText m s)).
Proof.
  intros Hc Ht Hn Hty subject rv. destruct (CheckRules_loop_decides p (vd_registry (New p appRules)) types) as (r & Er & Hr). unfold CheckRules in Hc. rewrite Er in Hc. injection Hc as ->.
  assert (∀ m fm, leads p n m → fm ∈ sm_Fields (buildStructMeta p m) → checkField (vd_registry (New p appRules)) m fm = None) as Hok.
  { intros m fm Hl Hfm. by apply (proj1 Hr eq_refl t n m fm). }
  assert (has_type (decls p) rv (TStruct n)) as Htrv by (by apply trimmed_typed).
  assert (trimmed p (S (depth rv)) rv = rv) as Hset by (apply (cleaned_again p (VStruct n l))). split.
  - intros name a E. apply Validate_unknown in E as (c & Hck & Hname & Hnone). fold rv in Hck.
    destruct (checked_typed p rv _ "" c n (depth rv) Htrv Hset (le_n _) Hck) as (m & sv & fm & tr & Hl & _ & Hfm & Hrule & _). rewrite <- Hname in Hnone.
    by eapply (checkField_rules _ m fm (ck_rule c)); [apply Hok| |].
  - intros c Hck Htrim. destruct (checked_typed p rv _ "" c n (depth rv) Htrv Hset (le_n _) Hck) as (m & sv & fm & tr & Hl & Hsv & Hfm & Hrule & -> & Hfix).
    assert (fm_Trim fm = true) as Hft. { apply list_elem_of_fmap in Hfm as (fi & -> & _). apply existsb_elem. exists (ck_rule c). split; [done|]. by apply bool_decide_eq_true_2. }
    destruct (field_typed p sv m fm Hsv Hfm) as [Hf He]. destruct (checkField_trim _ _ _ (Hok m fm Hl Hfm) Hft) as (k & Hk). unfold trim_one in Hfix. rewrite Hft, He in Hfix.
    destruct Hk as [Hk|Hk]; rewrite Hk in Hf, Hfix; cbn in Hfix.
    + destruct (typed_text _ _ _ Hf) as [x Ex]. rewrite Ex in *. eauto.
    + destruct (typed_text_ptr _ _ _ Hf) as [Ex|[x Ex]]; rewrite Ex in *; (split; [done|]); exists k; [exists ""; auto|eauto].
Qed.

Definition pen0 : value := line0 " pen " [VPtr (TStruct "app.Line") (Some (line0 "ink " []))].
Definition fields0 : list value := [VStruct "app.Path" [VInt Int "" 7]; str "ana@example.com"; str "ana@example.com"; VSlice (TStruct "app.Line") false [pen0]].

Lemma order0_typed : has_type decls0 (VStruct "app.Order" fields0) (TStruct "app.Order").
Proof.
  assert (∀ n l, Forall (λ v, has_type decls0 v (TPtr (TStruct "app.Line"))) l → has_type decls0 (line0 n l) (TStruct "app.Line")) as Hl.
  { intros n l H. eapply ty_struct; [reflexivity|]. repeat constructor. done. }
  eapply ty_struct; [reflexivity|]. repeat constructor.
  - eapply ty_struct; [reflexivity|]. repeat constructor; by vm_compute.
  - apply Hl. repeat constructor. by apply Hl.
Qed.

Lemma CheckRules_protects_witness :
  let rv := cleaned program0 (VStruct "app.Order" fields0) in
  (∀ name a, (Validate program0 (New program0 ∅) (VPtr (TStruct "app.Order") (Some (VStruct "app.Order" fields0)))).1.1 ≠ Some (EUnknownRule name a)) ∧
  FieldByIndex rv [3%nat] = VSlice (TStruct "app.Line") false [line0 "pen" [VPtr (TStruct "app.Line") (Some (line0 "ink" []))]].
Proof.
  split; [|vm_compute; reflexivity].
  refine (proj1 (CheckRules_protects program0 ∅ [TStruct "app.Order"] (TStruct "app.Order") "app.Order" fields0 _ _ eq_refl order0_typed)); [vm_compute; reflexivity|left].
Defined.

(** ** Rules of size *)

(** An integer and bounds its type can hold: any for a signed one, and for an unsigned one
    those that the conversion to its type keeps. *)
Definition measured (v : value) (z lo hi : Z) : Prop :=
  (∃ b n, v = VInt b n z) ∨ ∃ b n, v = VUint b n z ∧ uint_bound b n lo = lo ∧ uint_bound b n hi = hi.

Lemma parse_any_rule r r' attribute args z : parseIntegerRuleArg r attribute args = Ok z → parseIntegerRuleArg r' attribute args = Ok z.
Proof. unfold parseIntegerRuleArg. case_bool_decide; [done|]. by destruct (Str.Atoi _). Qed.

(** C32. On an integer, also behind a pointer, between passes exactly when it lies in the
    bounds, which a bound too large or negative for an unsigned type is not compared to;
    on everything it measures it passes exactly when min and max pass. *)
Theorem between_exact attribute args lo hi required subject : parseBetweenArgs attribute args = Ok (lo, hi) →
  (∀ v z t, measured v z lo hi →
    (BetweenRule attribute v args required subject = Ran [] ↔ lo <= z <= hi) ∧
    (BetweenRule attribute (VPtr t (Some v)) args required subject = Ran [] ↔ lo <= z <= hi)) ∧
  ∀ v, sizable (derefNonNil v) = true → BetweenRule attribute v args required subject = Ran [] ↔
    MinRule attribute v (Str.cut "," args).1.1 required subject = Ran [] ∧ MaxRule attribute v (Str.cut "," args).1.2 required subject = Ran [].
Proof.
  intros Hp. assert (∀ b f, check b f = Ran [] ↔ b = false) as Hcheck by (intros [] f; by split).
  assert (∀ v z, measured v z lo hi → sizable v = true ∧ (below v lo || above v hi = false ↔ lo <= z <= hi) ∧ isPresent v = true ∧ derefNonNil v = v) as Hm.
  { intros v z [(b & n & ->)|(b & n & -> & Hlo & Hhi)]; split_and!; try done; cbn; rewrite ?Hlo, ?Hhi, orb_false_iff, !Z.ltb_ge; lia. }
  split.
  - intros v z t Hv. destruct (Hm v z Hv) as (Hs & Hb & Hpr & Hd). unfold BetweenRule. rewrite Hpr, Hp. cbn [negb andb must]. rewrite Hd, Hs, Hcheck. split; [done|].
    assert (isPresent (VPtr t (Some v)) = true ∧ derefNonNil (VPtr t (Some v)) = v) as [-> ->] by (destruct Hv as [(b & n & ->)|(b & n & -> & _)]; done).
    cbn [negb andb must]. by rewrite Hs, Hcheck.
  - intros v Hs. unfold BetweenRule, MinRule, MaxRule. destruct (negb (isPresent v) && negb required); [done|]. rewrite Hp. unfold parseBetweenArgs in Hp.
    destruct (Str.cut "," args) as [[a b] []]; [|done]. cbn [negb] in Hp. cbn [fst snd]. apply outcome_bind_Ok in Hp as (lo' & Elo & Hp). apply outcome_bind_Ok in Hp as (hi' & Ehi & Hp).
    destruct (hi' <? lo'); [done|]. injection Hp as -> ->. rewrite (parse_any_rule _ "min" _ _ _ Elo), (parse_any_rule _ "max" _ _ _ Ehi). cbn [must]. rewrite Hs, !Hcheck. apply orb_false_iff.
Qed.

Lemma between_exact_witness : BetweenRule "age" (VPtr (TBasic Uint8 "") (Some (VUint Uint8 "" 42))) "18, 120" false VNil = Ran [] ∧ 18 <= 42 <= 120.
Proof.
  split; [|lia]. refine (proj2 (proj2 (proj1 (between_exact "age" "18, 120" 18 120 false VNil _) (VUint Uint8 "" 42) 42 (TBasic Uint8 "") _)) _); [vm_compute; reflexivity| |lia].
  right. exists Uint8, "". repeat split.
Defined.

(** A bound is converted to the type of the value: 300 is 44 for a byte, so that 100 is
    too much for [max:300], and a negative bound is a large one. *)
Lemma uint_bound_wraps : MaxRule "size" (VUint Uint8 "" 100) "300" false VNil = Ran [FailWith CodeMax {["max" := FInt 300]}] ∧
  MinRule "size" (VUint Uint "" 5) "-1" false VNil = Ran [FailWith CodeMin {["min" := FInt (-1)]}].
Proof. split; vm_compute; reflexivity. Qed.

(** Text of a defined type is counted in bytes by min and max, in characters by len, and
    refused by between. *)
Lemma defined_text_counts_bytes : let name := VText "app.Name" (Utf8.encode 269) in
  MaxRule "name" name "1" false VNil = Ran [FailWith CodeMax {["max" := FInt 1]}] ∧ LenRule "name" name "1" false VNil = Ran [] ∧
  BetweenRule "name" name "0,9" false VNil = Ran [Fail CodeBetween].
Proof. split_and!; vm_compute; reflexivity. Qed.

(** An optional address that is not given passes every rule on text but email. *)
Lemma absent_email_refused p : let absent := VPtr (TBasic Text "") None in
  EmailRule "email" absent "" false VNil = Ran [Fail CodeEmail] ∧ URLRule p "email" absent "" false VNil = Ran [] ∧ MaxRule "email" absent "9" false VNil = Ran [].
Proof. by split_and!. Qed.

(** ** The pattern of an e-mail address *)

Lemma cut_last_None c s : cut_last c s = None ↔ Str.contains_char c s = false.
Proof.
  induction s as [|d s IH]; cbn; [done|]. destruct (cut_last c s) as [[a b]|]; [split; [done|]; intros [_ H]%orb_false_iff; by apply IH in H|].
  rewrite (proj1 IH eq_refl), orb_false_r. by destruct (decide (d = c)) as [->|H]; [rewrite !bool_decide_eq_true_2 by done|rewrite !bool_decide_eq_false_2 by congruence].
Qed.

Lemma cut_last_Some c s a b : cut_last c s = Some (a, b) → s = a +:+ String c b ∧ Str.contains_char c b = false.
Proof.
  revert a b. induction s as [|d s IH]; intros a b; cbn; [done|]. destruct (cut_last c s) as [[a' b']|] eqn:E.
  - intros [= <- <-]. destruct (IH a' b' eq_refl) as [-> H]. by rewrite Str.app_cons.
  - case_bool_decide; [|done]. intros [= <- <-]. subst. split; [done|]. by apply cut_last_None.
Qed.

Lemma cut_last_app c a b : Str.contains_char c b = false → cut_last c (a +:+ String c b) = Some (a, b).
Proof.
  intros Hb%cut_last_None. induction a as [|d a IH]; [|rewrite Str.app_cons; cbn; by rewrite IH]. rewrite Str.app_empty_l. cbn. by rewrite Hb, bool_decide_eq_true_2.
Qed.

(** What the pattern describes. *)
Definition email_address (s : string) : Prop :=
  ∃ local domain top, s = local +:+ String "@" (domain +:+ String "." top) ∧ local ≠ "" ∧ Str.forall_char local_char local = true ∧ domain ≠ "" ∧
    Str.forall_char domain_char domain = true ∧ (2 <= String.length top)%nat ∧ Str.forall_char is_letter top = true.

(** The check of an address accepts exactly the texts of the pattern. *)
Theorem isValidEmail_pattern s : isValidEmail s = true ↔ email_address s.
Proof.
  unfold isValidEmail. split.
  - destruct (Str.cut "@" s) as [[l dom] found] eqn:E. intros H. repeat (apply andb_true_iff in H as [H ?]). subst found. apply Str.cut_true_inv in E as [-> _].
    destruct (cut_last "." dom) as [[d t]|] eqn:Ed; [|done]. apply cut_last_Some in Ed as [-> _]. repeat match goal with X : _ && _ = true |- _ => apply andb_true_iff in X as [X ?] end.
    exists l, d, t. split_and!; try done; [by intros ->|by intros ->|by apply Nat.leb_le].
  - intros (l & d & t & -> & Hl & Hlc & Hd & Hdc & Ht & Htc). rewrite Str.cut_app by (by apply (Str.contains_char_forall _ _ _ Hlc)). rewrite cut_last_app by (by apply (Str.contains_char_forall _ _ _ Htc)).
    rewrite Hlc, Hdc, Htc, !bool_decide_eq_false_2, (proj2 (Nat.leb_le _ _) Ht) by done. done.
Qed.

(** ** Text a column cannot hold *)

(** The texts of a value with the paths they are reported at. *)
Inductive text_at (ds : Declarations) : value → string → string → string → Prop :=
| text_here n s prefix : text_at ds (VText n s) prefix prefix s
| text_ptr t v prefix path s : text_at ds v prefix path s → text_at ds (VPtr t (Some v)) prefix path s
| text_iface v prefix path s : text_at ds v prefix path s → text_at ds (VInterface (Some v)) prefix path s
| text_slice t b l i v prefix path s : l !! i = Some v → text_at ds v (joinStorablePath prefix (Str.fmt_d (Z.of_nat i))) path s → text_at ds (VSlice t b l) prefix path s
| text_array t l i v prefix path s : l !! i = Some v → text_at ds v (joinStorablePath prefix (Str.fmt_d (Z.of_nat i))) path s → text_at ds (VArray t l) prefix path s
| text_field n fs sfs i v sf prefix path s : ds !! n = Some sfs → fs !! i = Some v → sfs !! i = Some sf → sf_PkgPath sf = "" → storableJSONName sf ≠ "-" →
    text_at ds v (joinStorablePath prefix (storableJSONName sf)) path s → text_at ds (VStruct n fs) prefix path s.

Section Storable.
Variable p : Program.
Notation found v prefix path := (∃ s, text_at (decls p) v prefix path s ∧ HasUnsupportedChars s = true).

Definition elements_unstorable (prefix : string) : nat → list value → list string :=
  fix elements (i : nat) (vs : list value) : list string :=
    match vs with [] => [] | v :: vs' => collectUnstorable p v (joinStorablePath prefix (Str.fmt_d (Z.of_nat i))) ++ elements (S i) vs' end.
Definition fields_unstorable (prefix : string) : list value → list StructField → list string :=
  fix fields (vs : list value) (sfs : list StructField) : list string :=
    match vs, sfs with
    | v :: vs', sf :: sfs' =>
        (if bool_decide (sf_PkgPath sf = "") && negb (bool_decide (storableJSONName sf = "-"))
         then collectUnstorable p v (joinStorablePath prefix (storableJSONName sf)) else []) ++ fields vs' sfs'
    | _, _ => []
    end.

Lemma elements_found prefix l i path : Forall (λ v, ∀ pr path, path ∈ collectUnstorable p v pr ↔ found v pr path) l →
  path ∈ elements_unstorable prefix i l ↔ ∃ k v, l !! k = Some v ∧ found v (joinStorablePath prefix (Str.fmt_d (Z.of_nat (i + k)))) path.
Proof.
  revert i. induction l as [|v l IH]; intros i H; cbn; [split; [by intros ?%elem_of_nil|by intros (k & v & ? & _)]|]. apply list.Forall_cons in H as [Hv Hl].
  rewrite elem_of_app, Hv, IH by done. split.
  - intros [H|(k & w & Hk & H)]; [exists 0%nat, v; by rewrite Nat.add_0_r|]. exists (S k), w. by rewrite <- Nat.add_succ_comm.
  - intros ([|k] & w & Hk & H); [left; injection Hk as <-; by rewrite Nat.add_0_r in H|]. right. exists k, w. by rewrite Nat.add_succ_comm.
Qed.

Lemma fields_found prefix l sfs path : Forall (λ v, ∀ pr path, path ∈ collectUnstorable p v pr ↔ found v pr path) l →
  path ∈ fields_unstorable prefix l sfs ↔ ∃ i v sf, l !! i = Some v ∧ sfs !! i = Some sf ∧ sf_PkgPath sf = "" ∧ storableJSONName sf ≠ "-" ∧
    found v (joinStorablePath prefix (storableJSONName sf)) path.
Proof.
  revert sfs. induction l as [|v l IH]; intros [|sf sfs] H; cbn; try (split; [by intros ?%elem_of_nil|by intros ([|] & ? & ? & ? & ? & _)]). apply list.Forall_cons in H as [Hv Hl].
  rewrite elem_of_app, IH by done. split.
  - intros [H|(i & w & sf' & H)]; [|by exists (S i), w, sf'; cbn]. destruct (decide (sf_PkgPath sf = "")) as [H1|H1]; [|by rewrite bool_decide_eq_false_2 in H by done; apply elem_of_nil in H].
    destruct (decide (storableJSONName sf = "-")) as [H2|H2]; [by rewrite (bool_decide_eq_true_2 _ H2), andb_false_r in H; apply elem_of_nil in H|].
    rewrite bool_decide_eq_true_2, bool_decide_eq_false_2 in H by done. apply Hv in H. by exists 0%nat, v, sf.
  - intros ([|i] & w & sf' & Hw & Hsf & H1 & H2 & H); [|right; by exists i, w, sf']. injection Hw as <-. injection Hsf as <-. left. rewrite bool_decide_eq_true_2, bool_decide_eq_false_2 by done. by apply Hv.
Qed.

Lemma declared (ds : Declarations) n i sf : default [] (ds !! n) !! i = Some sf ↔ ∃ sfs, ds !! n = Some sfs ∧ sfs !! i = Some sf.
Proof. unfold Declarations in *. destruct (ds !! n) as [sfs|]; cbn; [|rewrite lookup_nil]; naive_solver. Qed.

Lemma collect_found v : ∀ prefix path, path ∈ collectUnstorable p v prefix ↔ found v prefix path.
Proof.
  induction v as [| | | | | | |t|t v IH|t b l IH|t l IH|k t b l _| |v IH|n fs IH] using value_ind; intros prefix path; cbn [collectUnstorable];
    try (split; [by intros ?%elem_of_nil|intros (s & H & _); inversion H]).
  - destruct (HasUnsupportedChars s) eqn:E; split.
    + intros ->%list_elem_of_singleton. exists s. split; [constructor|done].
    + intros (s' & H & _). inversion H; subst. left.
    + by intros ?%elem_of_nil.
    + intros (s' & H & Hs). inversion H; subst. congruence.
  - rewrite IH. split; intros (s & H & Hs); exists s; (split; [|done]); [by constructor|by inversion H; subst].
  - change (path ∈ elements_unstorable prefix 0 l ↔ found (VSlice t b l) prefix path). rewrite elements_found by done. split.
    + intros (k & v & Hk & s & H & Hs). exists s. split; [|done]. by eapply text_slice.
    + intros (s & H & Hs). inversion H; subst. eauto 8.
  - change (path ∈ elements_unstorable prefix 0 l ↔ found (VArray t l) prefix path). rewrite elements_found by done. split.
    + intros (k & v & Hk & s & H & Hs). exists s. split; [|done]. by eapply text_array.
    + intros (s & H & Hs). inversion H; subst. eauto 8.
  - rewrite IH. split; intros (s & H & Hs); exists s; (split; [|done]); [by constructor|by inversion H; subst].
  - change (path ∈ fields_unstorable prefix fs (default [] (decls p !! n)) ↔ found (VStruct n fs) prefix path). rewrite fields_found by done. split.
    + intros (i & v & sf & Hv & Hsf & H1 & H2 & s & H & Hs). exists s. split; [|done]. apply declared in Hsf as (sfs & E & Hsf). by eapply text_field.
    + intros (s & H & Hs). inversion H; subst. eexists _, _, _. rewrite declared. eauto 10.
Qed.
End Storable.

(** The check of stored text answers nil exactly when no text it can reach, through
    pointers, interfaces, lists and the exported fields with a name, has a character of
    four bytes, and otherwise reports exactly the paths of those that do. *)
Theorem CheckStorable_exact p v : match CheckStorable p v with
  | None => ∀ path s, text_at (decls p) v "" path s → HasUnsupportedChars s = false
  | Some (EInvalid failures _) => failures ≠ ∅ ∧ ∀ path, is_Some (failures !! path) ↔ ∃ s, text_at (decls p) v "" path s ∧ HasUnsupportedChars s = true
  | Some _ => False
  end.
Proof.
  unfold CheckStorable. destruct (collectUnstorable p v "") as [|x l] eqn:E.
  - intros path s H. destruct (HasUnsupportedChars s) eqn:Hs; [|done]. assert (path ∈ collectUnstorable p v "") as Hin by (apply collect_found; eauto). rewrite E in Hin. by apply elem_of_nil in Hin.
  - assert (∀ path, is_Some ((list_to_map ((λ f, (f, [Fail CodeUnsupportedCharacters])) <$> x :: l) : gmap string (list Failure)) !! path) ↔ path ∈ x :: l) as Hk.
    { intros path. rewrite <- elem_of_dom, dom_list_to_map_L, elem_of_list_to_set, <- list_fmap_compose. unfold compose. cbn [fst]. by rewrite list_fmap_id. }
    split; [|intros path; rewrite Hk, <- E; apply collect_found]. intros He. destruct (proj2 (Hk x)) as [y Hy]; [left|]. by rewrite He, lookup_empty in Hy.
Qed.
